(* ===== verification/_CoqProject ===== *)
-Q . S2P
Prelude.v
TxnData.v
LockTable.v
TransactionTable.v
LockManager.v
DirectedGraph.v
StronglyConnected.v
CycleDetector.v
DeadLockDetector.v
BitManipulation.v
BitVector.v
BitVectorBits.v
BitVectorOps.v
BitVectorSearch.v
BitVectorShift.v
BitVectorRefine.v
TupleIdSequence.v
WorkOrdersContainer.v
WorkOrdersScheduling.v
StateMonad.v
DAG.v
QueryExecutionState.v
DAGAlgorithms.v
TopologicalSort.v
StageSequence.v
QueryManager.v
QueryManagerViews.v
QueryManagerInv.v
QueryManagerHandlers.v
QueryManagerRun.v
QueryManagerTheorems.v
SpinSharedMutex.v
WorkerDirectory.v
PolicyEnforcer.v
Foreman.v
ForemanInv.v
ForemanSystem.v
ForemanManager.v
ForemanTheorems.v
CatalogBlocks.v
OperatorWork.v
BlockOperators.v
OperatorRuns.v
BlockOperatorTheorems.v
NestedLoopsJoin.v
NestedLoopsJoinTheorems.v
StreamOperators.v
TableExport.v
OnceOperators.v
OperatorContracts.v
MergeTree.v
MergeTreeInv.v
MergeTreeOps.v
RunMerger.v
RunMergerOrder.v
RunMergerLoop.v
RunMergerPhases.v
RunMergerTheorems.v
SortMergeTheorems.v
Decimal.v
ValueText.v
Types.v
StringTypes.v
TextScan.v
TextLines.v
TextScanTheorems.v
TextRoundTrip.v
EvictionPolicy.v
EvictionPolicyTheorems.v
StorageManager.v
StorageManagerInv.v
StorageManagerTheorems.v
BufferPool.v
Comparators.v
Predicates.v
PredicateTheorems.v
Selection.v
Aggregation.v
CaseExpression.v
CaseTheorems.v
