(* ===== verification/Prelude.v ===== *)
(** * Quickstep: a verification development

    Quickstep is a relational database engine in C++.  A SQL statement is
    parsed, resolved and optimized into a graph of relational operators; the
    operators generate work orders, which a foreman hands to worker threads,
    which process storage blocks.  This development models the parts that
    decide whether the engine runs a query correctly and to its end
    (the operators as generators of work orders, scheduling, locking, the bit
    vectors that select tuples), the selection of tuples by predicates and their
    aggregation, the buffer pool of storage blocks, the external sort and the
    text files in and out, and the type system under all values.

    ** Parts, files and sources

    Paths are relative to the root of the repository.

    - Shared: [Prelude] (outcomes, vectors, the iteration order of hash
      containers, list and arithmetic lemmas, tactics, the hint database) and
      [StateMonad] (member functions as state transformers, and their weakest
      preconditions).

    - Transactions (transaction/).  [TxnData]: access modes, resource ids,
      locks, requests.  [LockTable] and [TransactionTable]: the two tables the
      lock manager keeps.  [LockManager]: acquisition along the path from the
      database to the resource, release, killing of victims, one turn of
      [run()].  [DirectedGraph], [StronglyConnected], [CycleDetector],
      [DeadLockDetector]: from the lock table to a wait-for graph, to its
      components, to the victims.  The manager and the detector share the
      lock table; each is modelled as a function on it.

    - Bit vectors (utility/BitManipulation.hpp, utility/BitVector.hpp,
      storage/TupleIdSequence.hpp).  [BitManipulation], [BitVector] hold the
      code; [BitVectorBits], [BitVectorOps], [BitVectorSearch],
      [BitVectorShift] relate it to lists of booleans; [BitVectorRefine] has
      the contract.  [TupleIdSequence] is the client, with its iterators,
      proved against the interface [Searchable].

    - Execution of a query (query_execution/, utility/DAG.hpp,
      query_optimizer/QueryPlan.hpp).  [WorkOrdersContainer]:
      the pending work orders and who comes next;
      [WorkOrdersScheduling]: what the container promises.  [DAG]: the plan;
      [DAGAlgorithms], [TopologicalSort], [StageSequence]: cycles, topological
      order and stages of a plan.
      [QueryExecutionState], [QueryManager]: the manager of a query, its
      constructor and its message handlers; [QueryManagerViews],
      [QueryManagerInv], [QueryManagerHandlers], [QueryManagerRun]: its
      invariant; [QueryManagerTheorems]: what it guarantees.

    - Execution of a workload (query_execution/).  [WorkerDirectory],
      [PolicyEnforcer], [Foreman]: the loads of the workers, the admission of
      queries, the event loop of the foreman and the answers of the workers.
      The enforcer calls query managers through the interface
      [QueryManagerOps]; [ForemanInv] states what it needs of them as the
      class [QueryManagerLaws], and proves the invariant of the whole system
      from it; [ForemanSystem] is the interleaving of main thread, foreman
      and workers; [ForemanManager] shows that the manager of [QueryManager]
      is an instance of both classes; [ForemanTheorems] has the results.

    - Operators (relational_operators/, catalog/CatalogRelation.hpp,
      catalog/PartitionScheme.{hpp,cpp}).  [CatalogBlocks]: the blocks of a
      relation and of its partitions, which operators read when they are
      built.  [OperatorWork]: the work orders and the base class.
      [BlockOperators]: selection, aggregation, the building of hash tables,
      LIP filters and existence maps, deletion, hash joins, saving and
      updating, over the blocks of partitioned, stored or streamed relations;
      [OperatorRuns] has the interleavings of feeding and generation, and
      [BlockOperatorTheorems] what they generate.  [NestedLoopsJoin],
      [NestedLoopsJoinTheorems]: pairs of blocks.  [StreamOperators]: sort
      runs, samples, unions, transitive closures.  [OnceOperators]: the
      operators that generate everything at once, with the query context and
      the catalog as the class [QueryEnvironment].  [TableExport]: the export
      in the order of the blocks.  [OperatorContracts]: these operators are an
      instance of the contract against which the query manager is verified.

    - External sort (relational_operators/SortMergeRunOperator.{hpp,cpp}
      and SortMergeRunOperatorHelpers.{hpp,cpp}).
      [MergeTree]: the tree of merges; [MergeTreeInv], [MergeTreeOps] its
      invariant.  [RunMerger]: the merge of runs, with its three
      implementations; [RunMergerOrder], [RunMergerLoop], [RunMergerPhases],
      [RunMergerTheorems] what it writes.  [SortMergeTheorems]: the operator on
      top of both, and the whole sort.

    - Text files (relational_operators/TextScanOperator.{hpp,cpp},
      TableExportOperator.cpp, utility/BulkIoConfiguration).  [TextScan]: the
      scan of files in segments, the parsing of rows and fields, the text of
      an exported block; [TextLines], [TextScanTheorems]: which rows a segment
      contributes; [TextRoundTrip]: export followed by a scan, and CSV.

    - Buffer pool (storage/StorageManager.{hpp,cpp},
      storage/EvictionPolicy.{hpp,cpp}, storage/CountedReference.hpp,
      utility/ShardedLockManager.hpp).  [EvictionPolicy]: the interface
      [EvictionPolicyOps], its three implementations and its contract
      [EvictionPolicyLaws]; [EvictionPolicyTheorems]: the LRU-K policy and the
      one that evicts any block keep it, the random one does not.
      [StorageManager]: creating, getting, saving, evicting and deleting
      blocks, over the file manager [FileManagerOps]; [StorageManagerInv],
      [StorageManagerTheorems]: its invariant and its operations, proved
      against the two contracts; [BufferPool]: runs of calls against an
      abstract store.

    - Selection (expressions/predicate/, expressions/scalar/,
      types/operations/comparisons/LiteralComparators.hpp and -inl.hpp,
      StorageBlock::getMatchesForPredicate, the concretization of logical
      expressions in query_optimizer/expressions/).  [Comparators]: whole
      columns compared at once, on tuple id sequences as sets.  [Predicates],
      [PredicateTheorems]: predicates, how they are simplified and evaluated,
      over scalars of the class [ScalarOps] with laws [ScalarLaws], and over
      sub-blocks that evaluate comparisons; [Selection]: literals and attributes
      are such scalars, the tuples of a block that a logical expression
      selects, and the LIP filters of utility/lip_filter/ with the prober that
      applies them.  [CaseExpression], [CaseTheorems]: CASE expressions, whose
      branches are selected by predicates.

    - Aggregation without GROUP BY (expressions/aggregation/,
      storage/AggregationOperationState.cpp, the accumulators of
      LiteralComparators-inl.hpp and ArithmeticBinaryOperators.hpp).
      [Aggregation]: the states of MIN, MAX, COUNT, SUM and AVG, accumulated
      over the tuples of a block that the predicate and the LIP filters select,
      and merged into those of the query.

    - Threads (threading/SpinSharedMutex.hpp).  [SpinSharedMutex]: the
      reader-writer spin lock, interleaved at its atomic operations.

    - Types and values (types/).  [Types]: the types, nullability, coercion,
      unification, protocol buffer messages.  [Decimal]: what is used of
      [snprintf] and [sscanf].  [ValueText]: integers and dates to text and
      back.  [StringTypes]: coercion, parsing and printing of strings.

    ** How the code is rendered

    - A call ends in an [outcome]: a value, or a failed [CHECK], an exception,
      undefined behaviour, a latch that would block, or exhausted fuel.  Undefined
      behaviour is a result and not an assumption: theorems say when it
      occurs.  The build is a release build: a [DCHECK] does nothing.
    - A member function that changes its object maps an object to an outcome
      with the new object; in the query manager and above this is the monad of
      [StateMonad].
    - [std::vector] is a list, with access past the end undefined;
      [std::unordered_map] and [std::unordered_set] are finite maps and sets
      whose iteration order is any order, the class [HashOrder], a parameter
      of every definition that iterates; the tables that keep duplicates are
      association lists.
    - [std::size_t] wraps around at [2 ^ 64] where the code subtracts from it
      or counts with it; the words of a bit vector are [Z] at their width.
    - Virtual functions of code outside the component are classes: to the
      query manager the relational operators are [RelationalOperator], and what
      it relies on is [OperatorContract] (an operator does not report all its
      work orders generated while it awaits an input, keeps its identifiers,
      and the like), which [OperatorContracts] discharges.  The message bus
      delivers in order to each client.
    - Objects of the query context and of the catalog that an operator only
      passes on are named by their ids.  The random draws of a sample, the
      heap of the standard library, the room in a block, the contents of files
      and of blocks, the clock and whether memory can be mapped are parameters.
      The storage manager is called by one thread at a time.
    - A value that predicates compare is of any type, and null or not; the
      comparison of two values that are not null is one function, whether it is
      done by a comparator or when an expression is built (where the code
      first coerces both to one type).  A column is the list of its values.
      Memory for a new sequence has any contents.  Build options
      (short-circuiting, copy elision) are parameters.  The arithmetic of sums
      is the class [SumOps]; the theorem on aggregates assumes of it that
      addition is exact where the sum fits in 64 bits.
    - The spin lock's word is its modification order; a relaxed load may
      return any value not older than the last one its thread saw.
    - Text is the list of its character codes; a pointer into it is the rest
      of the text, and reading past the end is undefined.

    Loops and recursions that are not structural run with fuel, and running
    out of it is the outcome [OutOfFuel]; the theorems prove that the fuel
    given is enough.  The depth-first search of [StronglyConnected] gets the
    number of nodes, since a nested call is for an unnumbered node; the visit
    of [CycleDetector] pushes the neighbours of a node once, so it gets the
    square of the number of nodes, and its choice of victims a turn per node,
    since each erases one; [LockManager] walks up at most three levels of
    resources; [markOperatorFinished] of [QueryManager] calls itself along a
    path of the plan, so one more than the number of operators is enough for a
    plan without cycles; hasCycle of [DAGAlgorithms] marks a node per nested
    call, [TopologicalSort] enqueues a node once, and [StageSequence] has a
    turn per node of a longest path; the loops of [BitManipulation] shift a word by one
    and get its width; the iterators of [TupleIdSequence] get the length of
    the sequence.  In [MergeTree] a level takes a turn per job, at most one
    per run, and the levels are one more than the binary digits of the number
    of runs, since a merge factor is at least two; the loops of [RunMerger]
    take a turn per tuple, and a tuple that does not fit gets one new block;
    [write_blocks] of [TableExport] writes each generated block at most once;
    a batch of a LIP prober in [Selection] takes a tuple at least; the streams
    of [StreamOperators] get the number of blocks left, and a
    sample as many draws as are given.  [make_room] of
    [StorageManager] takes a
    turn per unreferenced block, since choosing one makes the policy forget it.  In [TextScan] a turn moves on by a
    character at least, so the length of the text is enough.

    ** What the theorems show

    - Locking: granted locks are pairwise compatible in every reachable table;
      the contract of each operation on every branch; acquisition says exactly
      when and where a transaction waits, release removes exactly its entries;
      the two tables stay consistent; victims break every deadlock.  Erasing a
      granted lock is undefined behaviour in exactly one situation, which is
      characterised, and so is the second run of a detector.
    - Bit vectors: an in-range sequence of updates refines the list of
      booleans, or overruns the words exactly where that is said; queries, searches, shifts and capacity against list
      definitions, with the exact inputs on which the code departs from them;
      iteration visits each tuple once.
    - Work orders: the container refines two bags; nothing is lost or
      duplicated, rebuild work orders without a preferred node come out first in,
      first out; its queries are exact.
    - Query manager: for plans that satisfy [plan_ok], every handler ends in a value in every reachable state;
      the query is reported as executed exactly when all operators have
      finished; dependencies are respected; a query with well-behaved
      operators does not get stuck (a plan in which a dependency can be
      bypassed can finish an operator twice:
      [bypassed_operator_finishes_twice]).
    - Operators: each generates exactly one work order per block of its
      partitions, or per pair of blocks, however feeding and generation
      interleave, and reports that it is done when its input is complete; a
      table is exported in order; a plan of these operators runs to its end.
    - External sort: a merge writes the tuples of its sorted runs in order,
      whichever implementation is chosen, with nulls first or last and with a
      limit; whatever the order in which merges are executed, the sort ends
      with one run that is the sorted input (but the sort of a stream without
      blocks, whose end comes before the first request for work, never ends:
      [empty_stream_never_done]).
    - Text: whatever the segments, every row of the files that can be parsed on
      its own is scanned once and in order; an exported table comes back as it
      was, if its values can be read back and none prints as the null literal.
    - Buffer pool: the memory in use is accounted for and limited as far as
      blocks can be evicted, and referenced blocks stay; a block is refused
      exactly when, room having been made, its memory cannot be mapped or its
      file cannot be read; LRU-K evicts the block whose K-th last use, by a
      history of references kept apart from it, is the oldest; when dirty blocks are saved, the pool is a map from
      ids to contents that survives a restart (by default they are not:
      [dirty_block_lost]).
    - Selection: a logical expression becomes a predicate that selects exactly
      the tuples of which it is true, for every way in which it can be
      evaluated (with defects for a packed block that fills its last word and
      for a filter: [full_block_overruns], [packed_filter_ignored]); a CASE
      expression has the value of its first true branch, also when it is
      evaluated by columns, which overruns a bit vector for exactly the same
      numbers of tuples (but for a late clause that is always true:
      [late_static_branch]).
    - Aggregation: every aggregate (MIN the least, MAX the greatest value) ends
      with its result over exactly the tuples that the WHERE clause and the LIP
      filters select, in whatever order blocks are merged and filters are
      tried (but for a COUNT of a nullable argument after another aggregate, which is 0:
      [late_count_is_zero]; with GROUP BY the sum of a group without values is
      not null: [group_of_nulls]).
    - Plan graphs: hasCycle decides cyclicity, and a graph it accepts has the
      ranking of operators that the manager's theorems assume; the topological
      order leaves out exactly the nodes behind a cycle; the stages are a
      schedule that is as tight as possible.
    - Foreman: for queries with such plans, counters are exact and turns do not
      fail under any interleaving; no query is left running when nothing is in flight (a
      waiting query can be stranded: [waiting_query_stranded]).
    - Spin lock: mutual exclusion, and a waiting writer can always acquire.
    - Types: safe coercion is a preorder with least upper bounds computed by
      [GetUnifyingType]; types, numbers and dates survive the round trip
      through messages and text; string coercion keeps the text.

    ** Not modelled

    The parser and the query optimizer (rewriting of trees of classes that
    only the SQL front end uses), what a work order other than a merge or a
    text scan does with the tuples of its block, expressions that compute,
    grouped and window aggregation and DISTINCT, storage blocks, indices, hash
    tables and compression (layouts of raw memory), the system calls under the
    file managers, the catalog but for the blocks of a relation, the command
    line interface, the distributed build
    ([QUICKSTEP_DISTRIBUTED] is not defined), protocol buffers and the message
    bus (third-party code, present as parameters or as values), binding of
    threads to processors, logging.  Floating-point text and DATETIME and
    interval values are not modelled.

    Next: the database catalog, the partition scheme headers, the hash table
    key packing of storage/, DATETIME and interval values, the disjoint forest, bit matrix and Bloom filter of utility/. *)

From stdpp Require Export base tactics numbers sorting sets fin_maps gmap list.
From stdpp Require Import options.

(** ** Outcomes

    A C++ call ends in a value, in a failed [CHECK] or [LOG(FATAL)], in an
    exception (nothing on the way to the loop of a worker or of the foreman
    catches one), in undefined behaviour (a read past the end of a container),
    in a latch acquisition that has to wait for another holder, or, for a loop
    run with fuel, without an answer because the fuel was too small. *)

Inductive failure :=
| CheckFailed
| Thrown
| UndefinedBehaviour
| WouldBlock
| OutOfFuel.

Inductive outcome (A : Type) :=
| Ok (a : A)
| Err (e : failure).
Arguments Ok {_} _.
Arguments Err {_} _.

#[global] Instance failure_eq_dec : EqDecision failure.
Proof. solve_decision. Defined.
#[global] Instance outcome_ret : MRet outcome := @Ok.
#[global] Instance outcome_bind : MBind outcome := λ A B f m,
  match m with Ok a => f a | Err e => Err e end.
#[global] Instance outcome_fmap : FMap outcome := λ A B f m,
  match m with Ok a => Ok (f a) | Err e => Err e end.

Declare Scope qs_scope.
Delimit Scope qs_scope with qs.

(** [CHECK(b); k] of glog. *)
Definition check (b : bool) : outcome unit :=
  if b then Ok tt else Err CheckFailed.

(** [v[i]] of a [std::vector]: reading past the end is undefined. *)
Definition vec_at {A} (v : list A) (i : nat) : outcome A :=
  match v !! i with Some a => Ok a | None => Err UndefinedBehaviour end.

(** [v[i] = a] of a [std::vector]: writing past the end is undefined. *)
Definition vec_set {A} (v : list A) (i : nat) (a : A) : outcome (list A) :=
  if decide (i < length v) then Ok (<[i := a]> v) else Err UndefinedBehaviour.

Notation "v .[ i ]" := (vec_at v i) (at level 1, format "v .[ i ]") : qs_scope.
Notation "v .[ i <- a ]" := (vec_set v i a)
  (at level 1, format "v .[ i  <-  a ]") : qs_scope.

Lemma bind_Ok {A B} (m : outcome A) (f : A → outcome B) b :
  m ≫= f = Ok b ↔ ∃ a, m = Ok a ∧ f a = Ok b.
Proof. destruct m; cbn; naive_solver. Qed.

Lemma bind_Err {A B} (m : outcome A) (f : A → outcome B) e :
  m ≫= f = Err e ↔ m = Err e ∨ ∃ a, m = Ok a ∧ f a = Err e.
Proof. destruct m; cbn; naive_solver. Qed.

Lemma vec_at_Ok {A} (v : list A) i a : vec_at v i = Ok a ↔ v !! i = Some a.
Proof. unfold vec_at. destruct (v !! i); naive_solver. Qed.

Lemma vec_at_Some {A} (v : list A) i a : v !! i = Some a → vec_at v i = Ok a.
Proof. by rewrite vec_at_Ok. Qed.

Lemma vec_set_Ok {A} (v : list A) i a w :
  vec_set v i a = Ok w ↔ i < length v ∧ w = <[i := a]> v.
Proof. unfold vec_set. case_decide; naive_solver. Qed.

Lemma vec_set_lt {A} (v : list A) i a :
  i < length v → vec_set v i a = Ok (<[i := a]> v).
Proof. unfold vec_set. by case_decide. Qed.

Lemma check_Ok b u : check b = Ok u ↔ b = true.
Proof. destruct b, u; cbn; naive_solver. Qed.

(** ** Tactics *)

(** Takes apart a hypothesis that a monadic computation ended in a value. *)
Ltac inv_ok :=
  repeat match goal with
  | H : Ok _ = Ok _ |- _ => injection H as H; try subst
  | H : Ok _ = Err _ |- _ => discriminate H
  | H : Err _ = Ok _ |- _ => discriminate H
  | H : mret _ = Ok _ |- _ => unfold mret, outcome_ret in H
  | H : _ ≫= _ = Ok _ |- _ =>
      apply bind_Ok in H as (? & ? & H)
  | H : vec_at _ _ = Ok _ |- _ => apply vec_at_Ok in H
  | H : vec_set _ _ _ = Ok _ |- _ => apply vec_set_Ok in H as [? ->]
  | H : check _ = Ok _ |- _ => apply check_Ok in H
  | H : (_, _) = (_, _) |- _ => injection H as ? ?; try subst
  end.

(** Moves the element of a singleton or a cons to the front. *)
Ltac solve_Permutation :=
  rewrite <- ?app_assoc; cbn;
  rewrite <- ?Permutation_middle;
  rewrite ?app_nil_r; done.

(** ** Iteration order of unordered containers

    The order in which a [std::unordered_set] or [std::unordered_map] is
    traversed is not specified.  A model that traverses one takes the order as
    a parameter: some rearrangement of the elements. *)
Class HashOrder (A : Type) := {
  hash_order : list A → list A;
  hash_order_perm l : hash_order l ≡ₚ l;
}.

Definition identity_order (A : Type) : HashOrder A :=
  {| hash_order := id; hash_order_perm l := Permutation_refl l |}.
Definition reverse_order (A : Type) : HashOrder A :=
  {| hash_order := @reverse A; hash_order_perm l := reverse_Permutation l |}.

(** Traversing a set. *)
Definition set_iter {A} `{Countable A} `{!HashOrder A} (s : gset A) : list A :=
  hash_order (elements s).

(** Traversing a map. *)
Definition map_iter {K V} `{Countable K} `{!HashOrder (K * V)} (m : gmap K V)
  : list (K * V) := hash_order (map_to_list m).

Lemma elem_of_set_iter {A} `{Countable A} `{!HashOrder A} (s : gset A) x :
  x ∈ set_iter s ↔ x ∈ s.
Proof. unfold set_iter. by rewrite hash_order_perm, elem_of_elements. Qed.

Lemma NoDup_set_iter {A} `{Countable A} `{!HashOrder A} (s : gset A) :
  NoDup (set_iter s).
Proof. unfold set_iter. rewrite hash_order_perm. apply NoDup_elements. Qed.

Lemma elem_of_map_iter {K V} `{Countable K} `{!HashOrder (K * V)}
    (m : gmap K V) k v :
  (k, v) ∈ map_iter m ↔ m !! k = Some v.
Proof. unfold map_iter. by rewrite hash_order_perm, elem_of_map_to_list. Qed.

(** ** Lists *)

Lemma Forall_remove {A} (P : A → Prop) l1 x l2 :
  Forall P (l1 ++ x :: l2) → Forall P (l1 ++ l2).
Proof. rewrite <- Permutation_middle. by intros [_ ?]%Forall_cons. Qed.

Lemma NoDup_fmap_remove {A B} (f : A → B) l1 x l2 :
  NoDup (f <$> l1 ++ x :: l2) → NoDup (f <$> l1 ++ l2).
Proof. rewrite <- Permutation_middle. by intros [_ ?]%NoDup_cons. Qed.

Lemma existsb_false_Forall {A} (f : A → bool) l :
  existsb f l = false ↔ Forall (λ x, f x = false) l.
Proof.
  induction l as [|x l IH]; cbn; [split; constructor|].
  rewrite orb_false_iff, Forall_cons. naive_solver.
Qed.

Lemma existsb_true_Exists {A} (f : A → bool) l :
  existsb f l = true ↔ Exists (λ x, f x = true) l.
Proof.
  induction l as [|x l IH]; cbn; [by rewrite Exists_nil|].
  rewrite orb_true_iff, Exists_cons. naive_solver.
Qed.

(** Reading and replacing the element at an index, by the parts around it. *)
Lemma lookup_insert_split {A} (l : list A) i x :
  l !! i = Some x → ∃ l1 l2, l = l1 ++ x :: l2 ∧ length l1 = i ∧
    ∀ y, <[i := y]> l = l1 ++ y :: l2.
Proof.
  intros Hi. exists (take i l), (drop (S i) l).
  pose proof (lookup_lt_Some _ _ _ Hi). split; [by rewrite take_drop_middle|].
  split; [rewrite length_take; lia|]. intros y. by apply insert_take_drop.
Qed.

(** ** Automation *)

Create HintDb qs.
#[export] Hint Resolve NoDup_set_iter vec_at_Some vec_set_lt : qs.
