(* ===== verification/TxnData.v ===== *)
(** * The data of the transaction subsystem

    Access modes (transaction/AccessMode), resource ids
    (transaction/ResourceId), locks (transaction/Lock), lock requests
    (transaction/LockRequest) and transactions (transaction/Transaction). *)

From stdpp Require Import options.
From S2P Require Import Prelude.

(** ** AccessMode *)

Inductive AccessModeType :=
| kNoLockMode
| kIsLockMode
| kIxLockMode
| kSLockMode
| kSixLockMode
| kXLockMode.

#[global] Instance AccessModeType_eq_dec : EqDecision AccessModeType.
Proof. solve_decision. Defined.

(** The enumerator's value, [static_cast<std::uint8_t>(access_mode_)]. *)
Definition access_mode_value (m : AccessModeType) : nat :=
  match m with
  | kNoLockMode => 0 | kIsLockMode => 1 | kIxLockMode => 2
  | kSLockMode => 3 | kSixLockMode => 4 | kXLockMode => 5
  end.

Definition kLockCompatibilityMatrix : list (list bool) :=
  [ (*            NL     IS     IX     S      SIX    X    *)
    (* NL  *) [ true;  true;  true;  true;  true;  true ];
    (* IS  *) [ true;  true;  true;  true;  true;  false ];
    (* IX  *) [ true;  true;  true;  false; false; false ];
    (* S   *) [ true;  true;  false; true;  false; false ];
    (* SIX *) [ true;  true;  false; false; false; false ];
    (* X   *) [ true;  false; false; false; false; false ] ].

Definition isCompatible (this other : AccessModeType) : bool :=
  default false
    (row ← kLockCompatibilityMatrix !! access_mode_value this;
     row !! access_mode_value other).

Definition isIntentionShareLock (m : AccessModeType) : bool :=
  bool_decide (m = kIsLockMode).
Definition isIntentionExclusiveLock (m : AccessModeType) : bool :=
  bool_decide (m = kIxLockMode).
Definition isShareAndIntentionExclusiveLock (m : AccessModeType) : bool :=
  bool_decide (m = kSixLockMode).
Definition isShareLock (m : AccessModeType) : bool :=
  bool_decide (m = kSLockMode).
Definition isExclusiveLock (m : AccessModeType) : bool :=
  bool_decide (m = kXLockMode).

Lemma isCompatible_sym m1 m2 : isCompatible m1 m2 = isCompatible m2 m1.
Proof. by destruct m1, m2. Qed.

(** ** ResourceId

    [database_id] and [relation_id] are [int], [block_id] is a 64-bit unsigned
    integer and [tuple_id] is [int]; the code only compares them. *)

Record ResourceId := mkResourceId {
  db_id_ : Z;
  rel_id_ : Z;
  block_id_ : Z;
  tuple_id_ : Z;
}.

#[global] Instance ResourceId_eq_dec : EqDecision ResourceId.
Proof. solve_decision. Defined.
#[global] Instance ResourceId_countable : Countable ResourceId.
Proof.
  apply (inj_countable'
    (λ r, (db_id_ r, rel_id_ r, block_id_ r, tuple_id_ r))
    (λ '(d, r, b, t), mkResourceId d r b t)).
  by intros [].
Defined.

Definition kInvalidCatalogId : Z := -1.
Definition kInvalidBlockId : Z := 0.

Definition kDatabaseIdPlaceholder : Z := kInvalidCatalogId.
Definition kRelationIdPlaceholder : Z := kInvalidCatalogId.
Definition kBlockIdPlaceholder : Z := kInvalidBlockId.
Definition kTupleIdPlaceholder : Z := kInvalidCatalogId.

(** The constructor with one, two or three arguments given. *)
Definition ResourceId_db (d : Z) : ResourceId :=
  mkResourceId d kRelationIdPlaceholder kBlockIdPlaceholder kTupleIdPlaceholder.
Definition ResourceId_rel (d r : Z) : ResourceId :=
  mkResourceId d r kBlockIdPlaceholder kTupleIdPlaceholder.
Definition ResourceId_block (d r b : Z) : ResourceId :=
  mkResourceId d r b kTupleIdPlaceholder.

(** [ResourceId::operator==]. *)
Definition ResourceId_eqb (this other : ResourceId) : bool :=
  (db_id_ this =? db_id_ other)%Z && (rel_id_ this =? rel_id_ other)%Z
  && (block_id_ this =? block_id_ other)%Z
  && (tuple_id_ this =? tuple_id_ other)%Z.

Definition isDatabaseIdPlaceholder (r : ResourceId) : bool :=
  (db_id_ r =? kDatabaseIdPlaceholder)%Z.
Definition isRelationIdPlaceholder (r : ResourceId) : bool :=
  (rel_id_ r =? kRelationIdPlaceholder)%Z.
Definition isBlockIdPlaceholder (r : ResourceId) : bool :=
  (block_id_ r =? kBlockIdPlaceholder)%Z.
Definition isTupleIdPlaceholder (r : ResourceId) : bool :=
  (tuple_id_ r =? kTupleIdPlaceholder)%Z.

Definition isDatabaseAccess (r : ResourceId) : bool :=
  negb (isDatabaseIdPlaceholder r) && isRelationIdPlaceholder r
  && isBlockIdPlaceholder r && isTupleIdPlaceholder r.
Definition isRelationAccess (r : ResourceId) : bool :=
  negb (isDatabaseIdPlaceholder r) && negb (isRelationIdPlaceholder r)
  && isBlockIdPlaceholder r && isTupleIdPlaceholder r.
Definition isBlockAccess (r : ResourceId) : bool :=
  negb (isDatabaseIdPlaceholder r) && negb (isRelationIdPlaceholder r)
  && negb (isBlockIdPlaceholder r) && isTupleIdPlaceholder r.
Definition isTupleAccess (r : ResourceId) : bool :=
  negb (isDatabaseIdPlaceholder r) && negb (isRelationIdPlaceholder r)
  && negb (isBlockIdPlaceholder r) && negb (isTupleIdPlaceholder r).

Definition hasParent (r : ResourceId) : bool := negb (isDatabaseAccess r).

Definition getParentResourceId (r : ResourceId) : outcome ResourceId :=
  if isRelationAccess r then Ok (ResourceId_db (db_id_ r))
  else if isBlockAccess r then Ok (ResourceId_rel (db_id_ r) (rel_id_ r))
  else if isTupleAccess r then
    Ok (ResourceId_block (db_id_ r) (rel_id_ r) (block_id_ r))
  else Err CheckFailed.

(** How many ancestors a well-formed resource id has. *)
Definition resource_depth (r : ResourceId) : nat :=
  if isTupleAccess r then 3
  else if isBlockAccess r then 2
  else if isRelationAccess r then 1 else 0.

(** A resource id that names a database, a relation, a block or a tuple. *)
Definition valid_resource (r : ResourceId) : bool :=
  isDatabaseAccess r || isRelationAccess r || isBlockAccess r
  || isTupleAccess r.

(** ** Lock and LockRequest *)

(** [transaction_id] is a 64-bit unsigned integer that is only compared. *)
Abbreviation transaction_id := Z (only parsing).

Record Lock := mkLock { lock_rid : ResourceId; lock_mode : AccessModeType }.

#[global] Instance Lock_eq_dec : EqDecision Lock.
Proof. solve_decision. Defined.

(** [Lock::operator==]. *)
Definition Lock_eqb (this other : Lock) : bool :=
  ResourceId_eqb (lock_rid this) (lock_rid other)
  && bool_decide (lock_mode this = lock_mode other).

Inductive RequestType := kAcquireLock | kReleaseLocks.

#[global] Instance RequestType_eq_dec : EqDecision RequestType.
Proof. solve_decision. Defined.

Record LockRequest := mkLockRequest {
  req_tid : transaction_id;
  req_rid : ResourceId;
  req_mode : AccessModeType;
  req_type : RequestType;
}.

#[global] Instance LockRequest_eq_dec : EqDecision LockRequest.
Proof. solve_decision. Defined.

(** ** Transaction *)

Inductive TransactionStatus := kRunning | kAborted | kCommitted.

Record Transaction := mkTransaction {
  tid_ : transaction_id;
  status_ : TransactionStatus;
}.

(** [setStatus] assigns the member to itself: [status_ = status_]. *)
Definition setStatus (t : Transaction) (status : TransactionStatus)
  : Transaction := {| tid_ := tid_ t; status_ := status_ t |}.
Definition getStatus (t : Transaction) : TransactionStatus := status_ t.
