(* ===== verification/LockTable.v ===== *)
(** * The lock table

    transaction/LockTable.{hpp,cpp}: per resource, the list of granted locks
    and the list of waiting ones, [putLock], [deleteLock],
    [movePendingToOwned] and the table's latch. *)

From stdpp Require Import options.
From S2P Require Import Prelude TxnData.

Module LockTableResult.
Inductive t :=
| kPlacedInOwned
| kPlacedInPending
| kAlreadyInOwned
| kAlreadyInPending
| kDeleteFromOwned
| kDeleteFromPending
| kDeleteError
| kPutError.
End LockTableResult.

#[global] Instance LockTableResult_eq_dec : EqDecision LockTableResult.t.
Proof. solve_decision. Defined.

Abbreviation lock_entry := (Z * Lock)%type.
Abbreviation lock_list_pair := (list lock_entry * list lock_entry)%type.

(** The state of the [SharedMutex] that guards the table. *)
Inductive latch :=
| Unlatched
| LatchedShared (readers : nat)
| LatchedExclusive.

#[global] Instance latch_eq_dec : EqDecision latch.
Proof. solve_decision. Defined.

Record LockTable := mkLockTable {
  internal_map_ : gmap ResourceId lock_list_pair;
  mutex_ : latch;
}.

Definition empty_lock_table : LockTable := mkLockTable ∅ Unlatched.

(** ** Latches *)

Definition latchShared (lt : LockTable) : outcome LockTable :=
  match mutex_ lt with
  | Unlatched => Ok (mkLockTable (internal_map_ lt) (LatchedShared 1))
  | LatchedShared n => Ok (mkLockTable (internal_map_ lt) (LatchedShared (S n)))
  | LatchedExclusive => Err WouldBlock
  end.

Definition unlatchShared (lt : LockTable) : outcome LockTable :=
  match mutex_ lt with
  | LatchedShared (S (S n)) =>
      Ok (mkLockTable (internal_map_ lt) (LatchedShared (S n)))
  | LatchedShared 1 => Ok (mkLockTable (internal_map_ lt) Unlatched)
  | _ => Err UndefinedBehaviour
  end.

Definition latchExclusive (lt : LockTable) : outcome LockTable :=
  match mutex_ lt with
  | Unlatched => Ok (mkLockTable (internal_map_ lt) LatchedExclusive)
  | _ => Err WouldBlock
  end.

Definition unlatchExclusive (lt : LockTable) : outcome LockTable :=
  match mutex_ lt with
  | LatchedExclusive => Ok (mkLockTable (internal_map_ lt) Unlatched)
  | _ => Err UndefinedBehaviour
  end.

(** ** Reading and writing one entry *)

(** [internal_map_[rid]], which makes an empty entry when there is none. *)
Definition lock_lists (lt : LockTable) (rid : ResourceId) : lock_list_pair :=
  default ([], []) (internal_map_ lt !! rid).
Definition owned (lt : LockTable) (rid : ResourceId) : list lock_entry :=
  (lock_lists lt rid).1.
Definition pending (lt : LockTable) (rid : ResourceId) : list lock_entry :=
  (lock_lists lt rid).2.
Definition set_lists (lt : LockTable) (rid : ResourceId) (p : lock_list_pair)
  : LockTable := mkLockTable (<[rid := p]> (internal_map_ lt)) (mutex_ lt).

(** [it->first == tid && it->second.getAccessMode() == access_mode]. *)
Definition same_request (tid : transaction_id) (mode : AccessModeType)
    (e : lock_entry) : bool :=
  (e.1 =? tid)%Z && bool_decide (lock_mode e.2 = mode).

(** ** putLock *)

Definition putLock (tid : transaction_id) (rid : ResourceId)
    (access_mode : AccessModeType) (lt : LockTable)
  : LockTableResult.t * LockTable :=
  let '(lock_own_list, lock_pending_list) := lock_lists lt rid in
  let unchanged := set_lists lt rid (lock_own_list, lock_pending_list) in
  let to_pending := set_lists lt rid
    (lock_own_list, lock_pending_list ++ [(tid, mkLock rid access_mode)]) in
  if existsb (same_request tid access_mode) lock_own_list then
    (LockTableResult.kAlreadyInOwned, unchanged)
  else if existsb (same_request tid access_mode) lock_pending_list then
    (LockTableResult.kAlreadyInPending, unchanged)
  else
    match lock_pending_list with
    | [] =>
        if existsb (λ e, negb (isCompatible access_mode (lock_mode e.2)))
             lock_own_list
        then (LockTableResult.kPlacedInPending, to_pending)
        else (LockTableResult.kPlacedInOwned,
              set_lists lt rid
                (lock_own_list ++ [(tid, mkLock rid access_mode)], []))
    | _ :: _ => (LockTableResult.kPlacedInPending, to_pending)
    end.

(** ** movePendingToOwned

    The inner loop runs [owned_it] over the owned list but compares it with
    [lock_pending_list.cend()], which it never meets: the iterator leaves the
    owned list and is dereferenced there, unless an incompatible entry broke
    the loop before. *)
Fixpoint scan_owned (pending_mode : AccessModeType) (own : list lock_entry)
  : outcome bool :=
  match own with
  | [] => Err UndefinedBehaviour
  | e :: own' =>
      if isCompatible pending_mode (lock_mode e.2)
      then scan_owned pending_mode own' else Ok false
  end.

(** The outer loop; each turn that moves an entry erases the first one. *)
Fixpoint move_loop (rid : ResourceId) (own pend : list lock_entry)
  : outcome lock_list_pair :=
  match pend with
  | [] => Ok (own, [])
  | (pending_tid, lk) :: pend' =>
      is_compatible ← scan_owned (lock_mode lk) own;
      if is_compatible : bool
      then move_loop rid (own ++ [(pending_tid, mkLock rid (lock_mode lk))]) pend'
      else Ok (own, pend)
  end.

Definition movePendingToOwned (rid : ResourceId) (lt : LockTable)
  : outcome LockTable :=
  let '(own, pend) := lock_lists lt rid in
  p ← move_loop rid own pend;
  Ok (set_lists lt rid p).

(** ** deleteLock *)

(** Erases the first entry of the transaction; [None] when it has none. *)
Fixpoint erase_first (tid : transaction_id) (l : list lock_entry)
  : option (list lock_entry) :=
  match l with
  | [] => None
  | e :: l' => if (e.1 =? tid)%Z then Some l' else cons e <$> erase_first tid l'
  end.

Definition deleteLock (tid : transaction_id) (rid : ResourceId)
    (lt : LockTable) : outcome (LockTableResult.t * LockTable) :=
  let '(own, pend) := lock_lists lt rid in
  match erase_first tid own with
  | Some own' =>
      lt' ← movePendingToOwned rid (set_lists lt rid (own', pend));
      Ok (LockTableResult.kDeleteFromOwned, lt')
  | None =>
      match erase_first tid pend with
      | Some pend' =>
          Ok (LockTableResult.kDeleteFromPending, set_lists lt rid (own, pend'))
      | None => Ok (LockTableResult.kDeleteError, set_lists lt rid (own, pend))
      end
  end.

(** ** Library: one entry *)

Lemma lock_lists_set lt rid p rid' :
  lock_lists (set_lists lt rid p) rid' =
  if decide (rid = rid') then p else lock_lists lt rid'.
Proof.
  unfold lock_lists, set_lists; cbn. rewrite lookup_insert.
  by case_decide.
Qed.

Lemma lock_lists_pair lt rid : lock_lists lt rid = (owned lt rid, pending lt rid).
Proof. unfold owned, pending. by destruct (lock_lists lt rid). Qed.

Lemma owned_set lt rid p rid' :
  owned (set_lists lt rid p) rid' =
  if decide (rid = rid') then p.1 else owned lt rid'.
Proof. unfold owned. rewrite lock_lists_set. by case_decide. Qed.

Lemma pending_set lt rid p rid' :
  pending (set_lists lt rid p) rid' =
  if decide (rid = rid') then p.2 else pending lt rid'.
Proof. unfold pending. rewrite lock_lists_set. by case_decide. Qed.

Lemma same_request_true tid mode e :
  same_request tid mode e = true ↔ e.1 = tid ∧ lock_mode e.2 = mode.
Proof.
  unfold same_request.
  by rewrite andb_true_iff, Z.eqb_eq, bool_decide_eq_true.
Qed.

Lemma erase_first_Some tid l l' :
  erase_first tid l = Some l' ↔
  ∃ l1 lk l2, l = l1 ++ (tid, lk) :: l2 ∧ l' = l1 ++ l2 ∧
              Forall (λ e, e.1 ≠ tid) l1.
Proof.
  revert l'. induction l as [|[t lk] l IH]; intros l'; cbn.
  { split; [done|]. by intros ([] & ? & ? & ? & _). }
  destruct (Z.eqb_spec t tid) as [->|Hne].
  - split.
    + intros [= <-]. by exists [], lk, l.
    + intros (l1 & lk' & l2 & Heq & -> & Hl1).
      destruct l1 as [|e l1]; simplify_eq/=; [done|].
      apply Forall_cons in Hl1 as [? _]. done.
  - rewrite fmap_Some. split.
    + intros (x & Hx & ->). apply IH in Hx as (l1 & lk' & l2 & -> & -> & Hl1).
      exists ((t, lk) :: l1), lk', l2. split_and!; [done..|by constructor].
    + intros (l1 & lk' & l2 & Heq & -> & Hl1).
      destruct l1 as [|e l1]; simplify_eq/=.
      apply Forall_cons in Hl1 as [_ Hl1].
      exists (l1 ++ l2). split; [|done]. apply IH. eauto 10.
Qed.

Lemma erase_first_None tid l :
  erase_first tid l = None ↔ Forall (λ e, e.1 ≠ tid) l.
Proof.
  induction l as [|[t lk] l IH]; cbn; [split; constructor|].
  rewrite Forall_cons; cbn. destruct (Z.eqb_spec t tid); [naive_solver|].
  rewrite fmap_None, IH. naive_solver.
Qed.

(** The inner scan never reports a compatible entry: it answers [false] at the
    first incompatible one, or runs off the list. *)
Lemma scan_owned_spec mode own :
  scan_owned mode own =
  if forallb (λ e, isCompatible mode (lock_mode e.2)) own
  then Err UndefinedBehaviour else Ok false.
Proof.
  induction own as [|e own IH]; cbn; [done|].
  by destruct (isCompatible _ _).
Qed.

Lemma move_loop_spec rid own pend :
  move_loop rid own pend =
  match pend with
  | [] => Ok (own, [])
  | (_, lk) :: _ =>
      if forallb (λ e, isCompatible (lock_mode lk) (lock_mode e.2)) own
      then Err UndefinedBehaviour else Ok (own, pend)
  end.
Proof.
  destruct pend as [|[t lk] pend]; cbn; [done|].
  rewrite scan_owned_spec. by destruct (forallb _ own).
Qed.

(** ** The invariant of the table *)

Definition entry_key (e : lock_entry) : Z * AccessModeType :=
  (e.1, lock_mode e.2).

Definition compatible (e1 e2 : lock_entry) : Prop :=
  isCompatible (lock_mode e1.2) (lock_mode e2.2) = true.

#[global] Instance compatible_sym : Symmetric compatible.
Proof. intros e1 e2. unfold compatible. by rewrite isCompatible_sym. Qed.

(** Any two entries of the list are compatible. *)
Fixpoint compat_list (l : list lock_entry) : Prop :=
  match l with
  | [] => True
  | e :: l' => Forall (compatible e) l' ∧ compat_list l'
  end.

Record entry_wf (rid : ResourceId) (p : lock_list_pair) : Prop := {
  ew_compat : compat_list p.1;
  ew_unique : NoDup (entry_key <$> p.1 ++ p.2);
  ew_rid : Forall (λ e, lock_rid e.2 = rid) (p.1 ++ p.2);
}.

Definition lock_table_wf (lt : LockTable) : Prop :=
  ∀ rid, entry_wf rid (lock_lists lt rid).

Lemma compat_list_app l1 l2 :
  compat_list (l1 ++ l2) ↔
  compat_list l1 ∧ compat_list l2 ∧ Forall (λ e, Forall (compatible e) l2) l1.
Proof.
  induction l1 as [|e l1 IH]; cbn; [naive_solver|].
  rewrite Forall_app, Forall_cons, IH. naive_solver.
Qed.

Lemma compat_list_remove l1 e l2 :
  compat_list (l1 ++ e :: l2) → compat_list (l1 ++ l2).
Proof.
  rewrite !compat_list_app. cbn. intros (? & [_ ?] & Hall).
  split_and!; [done..|]. eapply Forall_impl; [exact Hall|].
  intros x Hx. by apply Forall_cons in Hx as [_ ?].
Qed.

Lemma compat_list_snoc l e :
  compat_list l → Forall (compatible e) l → compat_list (l ++ [e]).
Proof.
  intros Hl He. rewrite compat_list_app. split_and!; [done|by repeat constructor|].
  eapply Forall_impl; [exact He|]. intros x Hx. by repeat constructor.
Qed.

Lemma compat_list_lookup l i j e1 e2 :
  compat_list l → i ≠ j → l !! i = Some e1 → l !! j = Some e2 →
  compatible e1 e2.
Proof.
  revert i j. induction l as [|e l IH]; intros i j; [done|]. cbn.
  intros [He Hl] Hij Hi Hj. rewrite Forall_lookup in He.
  destruct i as [|i], j as [|j]; simplify_eq/=; eauto.
  by symmetry; eauto.
Qed.

Lemma no_same_request_key tid mode l :
  existsb (same_request tid mode) l = false →
  (tid, mode) ∉ (entry_key <$> l).
Proof.
  rewrite existsb_false_Forall, list_elem_of_fmap, Forall_forall.
  intros Hall ((t & lk) & Heq & Hin). unfold entry_key in Heq. simplify_eq/=.
  specialize (Hall _ Hin). apply not_true_iff_false in Hall.
  rewrite same_request_true in Hall. by apply Hall.
Qed.

(** ** What [putLock] does *)

Definition entry_of (tid : transaction_id) (rid : ResourceId)
    (mode : AccessModeType) : lock_entry := (tid, mkLock rid mode).

(** The contract of [putLock] on one entry: the result, given the lists it
    found and the lists it leaves. *)
Inductive put_entry (tid : transaction_id) (rid : ResourceId)
    (mode : AccessModeType)
  : lock_list_pair → LockTableResult.t → lock_list_pair → Prop :=
| put_already_owned own pend :
    (tid, mode) ∈ (entry_key <$> own) →
    put_entry tid rid mode (own, pend) LockTableResult.kAlreadyInOwned (own, pend)
| put_already_pending own pend :
    (tid, mode) ∉ (entry_key <$> own) → (tid, mode) ∈ (entry_key <$> pend) →
    put_entry tid rid mode (own, pend) LockTableResult.kAlreadyInPending (own, pend)
| put_granted own :
    (tid, mode) ∉ (entry_key <$> own) →
    Forall (compatible (entry_of tid rid mode)) own →
    put_entry tid rid mode (own, []) LockTableResult.kPlacedInOwned
      (own ++ [entry_of tid rid mode], [])
| put_waits own pend :
    (tid, mode) ∉ (entry_key <$> own) → (tid, mode) ∉ (entry_key <$> pend) →
    pend ≠ [] ∨ Exists (λ e, ¬ compatible (entry_of tid rid mode) e) own →
    put_entry tid rid mode (own, pend) LockTableResult.kPlacedInPending
      (own, pend ++ [entry_of tid rid mode]).

Lemma same_request_elem tid mode l :
  existsb (same_request tid mode) l = true →
  (tid, mode) ∈ (entry_key <$> l).
Proof.
  rewrite existsb_true_Exists, Exists_exists, list_elem_of_fmap.
  intros (e & Hin & [<- <-]%same_request_true). by exists e.
Qed.

(** What [putLock] does to its resource's entry, and that it touches no other
    entry and not the latch. *)
Lemma putLock_entry tid rid mode lt res lt' :
  putLock tid rid mode lt = (res, lt') →
  put_entry tid rid mode (lock_lists lt rid) res (lock_lists lt' rid) ∧
  (∀ rid', rid' ≠ rid → lock_lists lt' rid' = lock_lists lt rid') ∧
  mutex_ lt' = mutex_ lt.
Proof.
  unfold putLock. destruct (lock_lists lt rid) as [own pend] eqn:Hll.
  assert (∀ p, lock_lists (set_lists lt rid p) rid = p) as Hset.
  { intros p. rewrite lock_lists_set. by case_decide. }
  assert (∀ p rid', rid' ≠ rid →
    lock_lists (set_lists lt rid p) rid' = lock_lists lt rid') as Hother.
  { intros p rid' ?. rewrite lock_lists_set. by case_decide. }
  destruct (existsb _ own) eqn:Hown; [|destruct (existsb _ pend) eqn:Hpend].
  - intros [= <- <-]. rewrite Hset. split_and!; [|auto|done].
    by apply put_already_owned, same_request_elem.
  - intros [= <- <-]. rewrite Hset. split_and!; [|auto|done].
    apply put_already_pending; [by apply no_same_request_key|].
    by apply same_request_elem.
  - apply no_same_request_key in Hown, Hpend.
    destruct pend as [|e pend].
    + destruct (existsb _ own) eqn:Hinc; intros [= <- <-]; rewrite Hset;
        (split_and!; [|auto|done]).
      * apply put_waits; [done..|right].
        apply existsb_true_Exists in Hinc. eapply Exists_impl; [exact Hinc|].
        intros x Hx. apply negb_true_iff in Hx.
        unfold compatible; cbn. by rewrite Hx.
      * apply put_granted; [done|]. apply existsb_false_Forall in Hinc.
        eapply Forall_impl; [exact Hinc|]. intros x Hx.
        by apply negb_false_iff in Hx.
    + intros [= <- <-]. rewrite Hset. split_and!; [|auto|done].
      apply put_waits; [done..|by left].
Qed.

Lemma put_entry_wf tid rid mode p res p' :
  put_entry tid rid mode p res p' → entry_wf rid p → entry_wf rid p'.
Proof.
  intros Hput Hwf. destruct Hwf as [Hc Hu Hr].
  destruct Hput as [own pend Ho|own pend Ho Hp|own Ho Hall|own pend Ho Hp _];
    cbn in *; [done..| |].
  - rewrite app_nil_r in *. split; cbn.
    + by apply compat_list_snoc.
    + rewrite app_nil_r, fmap_app. apply NoDup_app. split_and!; [done| |].
      * intros k Hk. by apply not_elem_of_cons; split; [set_solver|apply not_elem_of_nil].
      * apply NoDup_singleton.
    + rewrite app_nil_r, Forall_app. by repeat constructor.
  - split; cbn; [done| |].
    + rewrite app_assoc, fmap_app. apply NoDup_app. split_and!; [done| |].
      * rewrite fmap_app. set_solver.
      * apply NoDup_singleton.
    + rewrite app_assoc, Forall_app. by repeat constructor.
Qed.

(** ** What [deleteLock] does *)

(** The first waiting entry conflicts with a granted one. *)
Definition head_blocked (own pend : list lock_entry) : Prop :=
  match pend with
  | [] => True
  | p :: _ => Exists (λ e, ¬ compatible p e) own
  end.

(** The contract of [deleteLock] on one entry. *)
Inductive del_entry (tid : transaction_id)
  : lock_list_pair → LockTableResult.t → lock_list_pair → Prop :=
| del_owned own1 lk own2 pend :
    Forall (λ e, e.1 ≠ tid) own1 → head_blocked (own1 ++ own2) pend →
    del_entry tid (own1 ++ (tid, lk) :: own2, pend)
      LockTableResult.kDeleteFromOwned (own1 ++ own2, pend)
| del_pending own pend1 lk pend2 :
    Forall (λ e, e.1 ≠ tid) own → Forall (λ e, e.1 ≠ tid) pend1 →
    del_entry tid (own, pend1 ++ (tid, lk) :: pend2)
      LockTableResult.kDeleteFromPending (own, pend1 ++ pend2)
| del_error own pend :
    Forall (λ e, e.1 ≠ tid) (own ++ pend) →
    del_entry tid (own, pend) LockTableResult.kDeleteError (own, pend).

Lemma forallb_compatible_true p own :
  forallb (λ e, isCompatible (lock_mode p.2) (lock_mode e.2)) own = true ↔
  Forall (compatible p) own.
Proof.
  induction own as [|e own IH]; cbn; [split; constructor|].
  by rewrite andb_true_iff, IH, Forall_cons.
Qed.

Lemma forallb_compatible_false (p : lock_entry) own :
  forallb (λ e, isCompatible (lock_mode p.2) (lock_mode e.2)) own = false →
  Exists (λ e, ¬ compatible p e) own.
Proof.
  induction own as [|e own IH]; cbn; [done|].
  rewrite andb_false_iff, Exists_cons. intros [H|H]; [left|right; auto].
  unfold compatible. by rewrite H.
Qed.

Lemma move_loop_Ok rid own pend p :
  move_loop rid own pend = Ok p ↔ p = (own, pend) ∧ head_blocked own pend.
Proof.
  rewrite move_loop_spec. destruct pend as [|[t lk] pend]; cbn; [naive_solver|].
  destruct (forallb _ own) eqn:Hf.
  - split; [done|]. intros [_ [e [He Hn]]%Exists_exists].
    apply (forallb_compatible_true (t, lk)) in Hf.
    rewrite Forall_forall in Hf. destruct Hn. by apply Hf.
  - apply (forallb_compatible_false (t, lk)) in Hf. naive_solver.
Qed.

(** What [deleteLock] does when it returns. *)
Lemma deleteLock_entry tid rid lt res lt' :
  deleteLock tid rid lt = Ok (res, lt') →
  del_entry tid (lock_lists lt rid) res (lock_lists lt' rid) ∧
  (∀ rid', rid' ≠ rid → lock_lists lt' rid' = lock_lists lt rid') ∧
  mutex_ lt' = mutex_ lt.
Proof.
  unfold deleteLock. destruct (lock_lists lt rid) as [own pend] eqn:Hll.
  destruct (erase_first tid own) as [own'|] eqn:Hown;
    [|destruct (erase_first tid pend) as [pend'|] eqn:Hpend].
  - unfold movePendingToOwned. rewrite lock_lists_set, decide_True by done.
    intros (lt1 & (p & Hmv & [= <-])%bind_Ok & [= <- <-])%bind_Ok.
    apply move_loop_Ok in Hmv as [-> Hhd].
    apply erase_first_Some in Hown as (l1 & lk & l2 & -> & -> & Hl1).
    rewrite lock_lists_set, decide_True by done. split_and!; [by constructor| |done].
    intros. by rewrite !lock_lists_set, !decide_False by done.
  - intros [= <- <-]. rewrite lock_lists_set, decide_True by done.
    apply erase_first_None in Hown.
    apply erase_first_Some in Hpend as (l1 & lk & l2 & -> & -> & Hl1).
    split_and!; [by constructor| |done].
    intros. by rewrite lock_lists_set, decide_False by done.
  - intros [= <- <-]. rewrite lock_lists_set, decide_True by done.
    apply erase_first_None in Hown, Hpend.
    split_and!; [constructor; by apply Forall_app| |done].
    intros. by rewrite lock_lists_set, decide_False by done.
Qed.

Lemma del_entry_wf tid rid p res p' :
  del_entry tid p res p' → entry_wf rid p → entry_wf rid p'.
Proof.
  intros Hdel [Hc Hu Hr].
  destruct Hdel as [own1 lk own2 pend _ _|own pend1 lk pend2 _ _|]; cbn in *; [| |done].
  - rewrite <- app_assoc in Hu, Hr. split; cbn; [by eapply compat_list_remove|..];
      rewrite <- app_assoc; eauto using NoDup_fmap_remove, Forall_remove.
  - rewrite app_assoc in Hu, Hr. split; cbn; [done|..];
      rewrite app_assoc; eauto using NoDup_fmap_remove, Forall_remove.
Qed.

(** ** Steps of the table *)

(** A call of [putLock], or one of [deleteLock] that returns. *)
Inductive lt_step : LockTable → LockTable → Prop :=
| step_put tid rid mode lt :
    lt_step lt (putLock tid rid mode lt).2
| step_delete tid rid lt res lt' :
    deleteLock tid rid lt = Ok (res, lt') → lt_step lt lt'.

Lemma putLock_wf tid rid mode lt :
  lock_table_wf lt → lock_table_wf (putLock tid rid mode lt).2.
Proof.
  intros Hwf rid'. destruct (putLock tid rid mode lt) as [res lt'] eqn:Hput; cbn.
  apply putLock_entry in Hput as (He & Ho & _).
  destruct (decide (rid' = rid)) as [->|Hne]; [by eapply put_entry_wf|].
  rewrite Ho by done. apply Hwf.
Qed.

Lemma deleteLock_wf tid rid lt res lt' :
  deleteLock tid rid lt = Ok (res, lt') → lock_table_wf lt → lock_table_wf lt'.
Proof.
  intros Hdel Hwf rid'. apply deleteLock_entry in Hdel as (He & Ho & _).
  destruct (decide (rid' = rid)) as [->|Hne]; [by eapply del_entry_wf|].
  rewrite Ho by done. apply Hwf.
Qed.

Lemma lt_step_wf lt lt' : lt_step lt lt' → lock_table_wf lt → lock_table_wf lt'.
Proof. destruct 1; eauto using putLock_wf, deleteLock_wf. Qed.

Lemma empty_lock_table_wf : lock_table_wf empty_lock_table.
Proof. intros rid. by repeat constructor. Qed.

Lemma lt_reachable_wf lt : rtc lt_step empty_lock_table lt → lock_table_wf lt.
Proof.
  intros Hsteps. pose proof empty_lock_table_wf as Hwf. revert Hwf.
  induction Hsteps; eauto using lt_step_wf.
Qed.

(** C1. Mutual exclusion of the lock table: after any sequence of [putLock] and
    [deleteLock] calls, any two granted locks of one resource are compatible by
    the lock compatibility matrix, no transaction holds or waits for the
    same lock twice, and every lock held or waited for is a lock on the resource
    it is filed under. *)
Theorem lock_table_mutual_exclusion lt rid :
  rtc lt_step empty_lock_table lt →
  (∀ i j e1 e2, i ≠ j → owned lt rid !! i = Some e1 → owned lt rid !! j = Some e2 →
     isCompatible (lock_mode e1.2) (lock_mode e2.2) = true) ∧
  NoDup (entry_key <$> owned lt rid ++ pending lt rid) ∧
  Forall (λ e, lock_rid e.2 = rid) (owned lt rid ++ pending lt rid).
Proof.
  intros Hwf%lt_reachable_wf. destruct (Hwf rid) as [Hc Hu Hrid].
  split; [|split; [exact Hu|exact Hrid]]. intros. by eapply (compat_list_lookup _ i j).
Qed.

(** C2. [putLock] meets its contract on every branch: it reports a lock the
    transaction already holds or waits for, grants a lock only when nothing
    waits and every granted lock is compatible with it, and otherwise queues
    the request behind the waiting ones; no other resource is touched. *)
Theorem putLock_contract tid rid mode lt :
  let '(res, lt') := putLock tid rid mode lt in
  put_entry tid rid mode (lock_lists lt rid) res (lock_lists lt' rid) ∧
  (∀ rid', rid' ≠ rid → lock_lists lt' rid' = lock_lists lt rid').
Proof.
  destruct (putLock _ _ _ _) as [res lt'] eqn:H.
  apply putLock_entry in H. tauto.
Qed.

Lemma deleteLock_Err_iff tid rid lt e :
  deleteLock tid rid lt = Err e ↔
  e = UndefinedBehaviour ∧
  ∃ own' p ps, erase_first tid (owned lt rid) = Some own' ∧
    pending lt rid = p :: ps ∧ Forall (compatible p) own'.
Proof.
  unfold deleteLock. rewrite lock_lists_pair.
  destruct (erase_first tid (owned lt rid)) as [own'|] eqn:Hown.
  2:{ destruct (erase_first tid (pending lt rid)); naive_solver. }
  unfold movePendingToOwned. rewrite lock_lists_set, decide_True by done.
  rewrite move_loop_spec. destruct (pending lt rid) as [|[t lk] ps]; cbn; [naive_solver|].
  destruct (forallb _ own') eqn:Hf; cbn.
  - apply (forallb_compatible_true (t, lk)) in Hf. naive_solver.
  - apply (forallb_compatible_false (t, lk)), Exists_exists in Hf as (x & Hx & Hn).
    split; [done|]. intros (_ & ? & ? & ? & [= <-] & [= <- <-] & Hall).
    rewrite Forall_forall in Hall. by destruct Hn; apply Hall.
Qed.

(** C3. [deleteLock] is defined exactly when it has nobody to wake: it leaves
    defined behaviour if and only if the erased lock was granted and the first
    waiting request is compatible with every lock that stays granted, because
    the scan of the owned list is compared against the end of the other list. *)
Theorem deleteLock_undefined_iff tid rid lt e :
  deleteLock tid rid lt = Err e ↔
  e = UndefinedBehaviour ∧
  ∃ own' p ps, erase_first tid (owned lt rid) = Some own' ∧
    pending lt rid = p :: ps ∧ Forall (compatible p) own'.
Proof. apply deleteLock_Err_iff. Qed.

Lemma deleteLock_Err tid rid lt e :
  deleteLock tid rid lt = Err e → e = UndefinedBehaviour.
Proof.
  unfold deleteLock, movePendingToOwned. destruct (lock_lists lt rid) as [own pend].
  destruct (erase_first tid own); [|by destruct (erase_first tid pend)].
  rewrite lock_lists_set, decide_True by done. rewrite move_loop_spec.
  destruct pend as [|[t lk] pend]; cbn; [done|]. destruct (forallb _ _); naive_solver.
Qed.

(** Erasing a waiting request grants nothing, even when the next waiting
    request has no conflict left. *)
Lemma deleteLock_pending_grants_nothing tid rid lt lt' :
  deleteLock tid rid lt = Ok (LockTableResult.kDeleteFromPending, lt') →
  ∀ rid', owned lt' rid' = owned lt rid'.
Proof.
  intros (He & Ho & _)%deleteLock_entry rid'. unfold owned.
  destruct (decide (rid' = rid)) as [->|]; [|by rewrite Ho].
  by inversion He.
Qed.

(** ** What remains when a transaction has given up a resource *)

(** The entries of the other transactions. *)
Definition others (tid : transaction_id) (l : list lock_entry) : list lock_entry :=
  filter (λ e, e.1 ≠ tid) l.
Arguments others : simpl never.

(** Giving up the granted locks of the transaction leaves the first waiting
    request without a conflict. *)
Definition wakes (tid : transaction_id) (p : lock_list_pair) : Prop :=
  tid ∈ p.1.*1 ∧ ∃ w ws, p.2 = w :: ws ∧ Forall (compatible w) (others tid p.1).

Lemma others_none tid l : Forall (λ e, e.1 ≠ tid) l → others tid l = l.
Proof.
  unfold others. induction 1 as [|e l He _ IH]; [done|]. by rewrite filter_cons_True, IH.
Qed.

Lemma none_not_elem tid (l : list lock_entry) :
  Forall (λ e, e.1 ≠ tid) l → tid ∉ l.*1.
Proof. rewrite Forall_forall. intros H (e & -> & He)%list_elem_of_fmap. by apply (H e). Qed.

Lemma not_elem_none tid (l : list lock_entry) :
  tid ∉ l.*1 → Forall (λ e, e.1 ≠ tid) l.
Proof. intros H. apply Forall_forall. intros e He ?. apply H, list_elem_of_fmap. by exists e. Qed.

Lemma others_erase tid l1 lk l2 : others tid (l1 ++ (tid, lk) :: l2) = others tid (l1 ++ l2).
Proof. unfold others. rewrite !filter_app, filter_cons_False; [done|naive_solver]. Qed.

Lemma erase_first_split tid l l' :
  erase_first tid l = Some l' →
  ∃ l1 lk l2, l = l1 ++ (tid, lk) :: l2 ∧ l' = l1 ++ l2.
Proof.
  revert l'. induction l as [|[t lk] l IH]; intros l'; cbn; [done|].
  case_match eqn:E; [apply Z.eqb_eq in E as ->; intros [= <-]; by exists [], lk, l|].
  intros (x & Hx & ->)%fmap_Some. destruct (IH _ Hx) as (l1 & lk' & l2 & -> & ->).
  by exists ((t, lk) :: l1), lk', l2.
Qed.

(** Where [deleteLock] leaves defined behaviour, the transaction gives up a lock
    that somebody waits for. *)
Lemma deleteLock_Err_wakes tid rid lt e :
  deleteLock tid rid lt = Err e → wakes tid (lock_lists lt rid).
Proof.
  intros (_ & own' & w & ws & (l1 & lk & l2 & Ho & ->)%erase_first_split & Hp & Hall)%deleteLock_Err_iff.
  rewrite lock_lists_pair, Ho, Hp. split; cbn.
  - rewrite fmap_app. set_solver.
  - eexists _, _. split; [done|]. rewrite others_erase.
    unfold others. rewrite Forall_forall in *. intros x [_ Hx]%list_elem_of_filter. by apply Hall.
Qed.

(** An erased entry of the transaction changes neither the entries of the
    others nor whether somebody waits. *)
Lemma del_entry_others tid p res p' :
  del_entry tid p res p' →
  others tid p'.1 = others tid p.1 ∧ others tid p'.2 = others tid p.2 ∧
  (wakes tid p' ↔ wakes tid p).
Proof.
  destruct 1 as [own1 lk own2 pend Hn Hb|own pend1 lk pend2 Ho Hn|own pend Hn]; cbn.
  - rewrite others_erase. split_and!; [done..|]. unfold wakes; cbn. rewrite others_erase.
    split; [intros [Hin ?]; split; [|done]; rewrite !fmap_app in *; set_solver|].
    intros [_ (w & ws & -> & Hall)]. split; [|by eexists _, _].
    destruct (decide (tid ∈ (own1 ++ own2).*1)) as [|Hnin]; [done|].
    exfalso. rewrite others_none in Hall by (by apply not_elem_none). cbn in Hb.
    apply Exists_exists in Hb as (x & Hx & Hnc). rewrite Forall_forall in Hall. auto.
  - rewrite others_erase. split_and!; [done..|]. apply none_not_elem in Ho.
    unfold wakes; cbn. naive_solver.
  - done.
Qed.

(** ** How many entries a transaction has *)

Definition held_in (tid : transaction_id) (p : lock_list_pair) : nat :=
  length (filter (λ e, e.1 = tid) (p.1 ++ p.2)).

(** The number of entries, granted or waiting, of a transaction on a resource. *)
Definition held (lt : LockTable) (tid : transaction_id) (rid : ResourceId) : nat :=
  held_in tid (lock_lists lt rid).

Definition placed (res : LockTableResult.t) : nat :=
  match res with
  | LockTableResult.kPlacedInOwned | LockTableResult.kPlacedInPending => 1
  | _ => 0
  end.

Definition removed (res : LockTableResult.t) : nat :=
  match res with
  | LockTableResult.kDeleteFromOwned | LockTableResult.kDeleteFromPending => 1
  | _ => 0
  end.

Lemma put_entry_held tid rid mode p res p' t :
  put_entry tid rid mode p res p' →
  held_in t p' = held_in t p + (if decide (t = tid) then placed res else 0).
Proof.
  unfold held_in.
  destruct 1; cbn; rewrite ?app_nil_r, ?app_assoc, ?filter_app, ?length_app;
    cbn; case_decide; cbn; repeat case_decide; simplify_eq/=; lia.
Qed.

Lemma del_entry_held tid p res p' t :
  del_entry tid p res p' →
  held_in t p = held_in t p' + (if decide (t = tid) then removed res else 0).
Proof.
  unfold held_in.
  destruct 1; cbn; rewrite ?filter_app, ?length_app, ?filter_cons; cbn;
    repeat case_decide; simplify_eq/=; lia.
Qed.

Lemma del_entry_error tid p p' :
  del_entry tid p LockTableResult.kDeleteError p' → held_in tid p = 0.
Proof.
  inversion 1 as [| |own pend Hall]; subst. unfold held_in; cbn.
  apply length_zero_iff_nil. induction Hall; [done|].
  by rewrite filter_cons_False.
Qed.

(** ** Witnesses *)

Definition demo_rid : ResourceId := ResourceId_rel 1 2.

(** Transaction 1 holds S, transaction 2 asks for X and waits, transaction 3
    asks for S behind it. *)
Definition demo_table : LockTable :=
  (putLock 3 demo_rid kSLockMode
    (putLock 2 demo_rid kXLockMode
      (putLock 1 demo_rid kSLockMode empty_lock_table).2).2).2.

Lemma demo_table_reachable : rtc lt_step empty_lock_table demo_table.
Proof. do 3 (eapply rtc_r; [|apply step_put]). apply rtc_refl. Qed.

(** Two readers share the resource. *)
Definition shared_table : LockTable :=
  (putLock 3 demo_rid kSLockMode
    (putLock 1 demo_rid kIsLockMode empty_lock_table).2).2.

Lemma lock_table_mutual_exclusion_witness :
  rtc lt_step empty_lock_table shared_table ∧
  isCompatible kIsLockMode kSLockMode = true.
Proof.
  assert (rtc lt_step empty_lock_table shared_table) as Hreach.
  { do 2 (eapply rtc_r; [|apply step_put]). apply rtc_refl. }
  split; [exact Hreach|].
  exact (proj1 (lock_table_mutual_exclusion shared_table demo_rid Hreach)
    0 1 (1%Z, mkLock demo_rid kIsLockMode) (3%Z, mkLock demo_rid kSLockMode)
    ltac:(discriminate) ltac:(reflexivity) ltac:(reflexivity)).
Defined.

(** A lost wake-up: when the waiting writer gives up, the reader behind it
    stays in the pending list although every granted lock is compatible. *)
Example lost_wakeup :
  ∃ lt', deleteLock 2 demo_rid demo_table
           = Ok (LockTableResult.kDeleteFromPending, lt') ∧
    owned lt' demo_rid = [entry_of 1 demo_rid kSLockMode] ∧
    pending lt' demo_rid = [entry_of 3 demo_rid kSLockMode] ∧
    compatible (entry_of 3 demo_rid kSLockMode) (entry_of 1 demo_rid kSLockMode).
Proof. eexists. split; [vm_compute; reflexivity|]. by vm_compute. Qed.
