(* ===== verification/TransactionTable.v ===== *)
(** * The transaction table

    transaction/TransactionTable.{hpp,cpp}: per transaction, the locks it owns
    and the locks it waits for. *)

From stdpp Require Import options.
From S2P Require Import Prelude TxnData.

Module TransactionTableResult.
Inductive t :=
| kPlacedInOwned
| kPlacedInPending
| kAlreadyInOwned
| kAlreadyInPending
| kDelFromOwned
| kDelFromPending
| kDelError
| kTransactionDeleteOk
| kTransactionDeleteError.
End TransactionTableResult.

#[global] Instance TransactionTableResult_eq_dec :
  EqDecision TransactionTableResult.t.
Proof. solve_decision. Defined.

Abbreviation transaction_entry := (ResourceId * Lock)%type.
Abbreviation transaction_list_pair :=
  (list transaction_entry * list transaction_entry)%type.

Record TransactionTable := mkTransactionTable {
  txn_map_ : gmap Z transaction_list_pair;
}.

Definition empty_transaction_table : TransactionTable := mkTransactionTable ∅.

(** [internal_map_[tid]], which makes an empty entry when there is none. *)
Definition txn_lists (tt : TransactionTable) (tid : transaction_id)
  : transaction_list_pair := default ([], []) (txn_map_ tt !! tid).
Definition set_txn_lists (tt : TransactionTable) (tid : transaction_id)
    (p : transaction_list_pair) : TransactionTable :=
  mkTransactionTable (<[tid := p]> (txn_map_ tt)).

Definition putOwnEntry (tid : transaction_id) (rid : ResourceId)
    (access_mode : AccessModeType) (tt : TransactionTable)
  : TransactionTableResult.t * TransactionTable :=
  let p := txn_lists tt tid in
  (TransactionTableResult.kPlacedInOwned,
   set_txn_lists tt tid (p.1 ++ [(rid, mkLock rid access_mode)], p.2)).

Definition putPendingEntry (tid : transaction_id) (rid : ResourceId)
    (access_mode : AccessModeType) (tt : TransactionTable)
  : TransactionTableResult.t * TransactionTable :=
  let p := txn_lists tt tid in
  (TransactionTableResult.kPlacedInPending,
   set_txn_lists tt tid (p.1, p.2 ++ [(rid, mkLock rid access_mode)])).

(** The predicate given to [remove_if]. *)
Definition entry_matches (rid : ResourceId) (access_mode : AccessModeType)
    (e : transaction_entry) : bool :=
  ResourceId_eqb (lock_rid e.2) rid
  && bool_decide (lock_mode e.2 = access_mode).

Definition remove_matching (rid : ResourceId) (access_mode : AccessModeType)
    (l : list transaction_entry) : list transaction_entry :=
  List.filter (λ e, negb (entry_matches rid access_mode e)) l.

Definition deleteOwnEntry (tid : transaction_id) (rid : ResourceId)
    (access_mode : AccessModeType) (tt : TransactionTable)
  : TransactionTableResult.t * TransactionTable :=
  let '(own, pend) := txn_lists tt tid in
  let own' := remove_matching rid access_mode own in
  ((if length own' =? length own then TransactionTableResult.kDelError
    else TransactionTableResult.kDelFromOwned)%nat,
   set_txn_lists tt tid (own', pend)).

Definition deletePendingEntry (tid : transaction_id) (rid : ResourceId)
    (access_mode : AccessModeType) (tt : TransactionTable)
  : TransactionTableResult.t * TransactionTable :=
  let '(own, pend) := txn_lists tt tid in
  let pend' := remove_matching rid access_mode pend in
  ((if length pend' =? length pend then TransactionTableResult.kDelError
    else TransactionTableResult.kDelFromPending)%nat,
   set_txn_lists tt tid (own, pend')).

(** The two references are bound to each other's list ([transaction_own_list]
    to [.second], [transaction_pending_list] to [.first]): the waiting entries
    come first.  Reading makes the entry when there is none. *)
Definition getResourceIdList (tid : transaction_id) (tt : TransactionTable)
  : list ResourceId * TransactionTable :=
  let p := txn_lists tt tid in
  (p.2.*1 ++ p.1.*1, set_txn_lists tt tid p).

Definition deleteTransaction (tid : transaction_id) (tt : TransactionTable)
  : TransactionTableResult.t * TransactionTable :=
  let original_size := size (txn_map_ tt) in
  let m' := delete tid (txn_map_ tt) in
  ((if original_size =? size m' then TransactionTableResult.kTransactionDeleteError
    else TransactionTableResult.kTransactionDeleteOk)%nat,
   mkTransactionTable m').

(** ** Lemmas *)

Lemma txn_lists_set tt tid p t :
  txn_lists (set_txn_lists tt tid p) t =
  if decide (tid = t) then p else txn_lists tt t.
Proof.
  unfold txn_lists, set_txn_lists; cbn. rewrite lookup_insert. by case_decide.
Qed.

(** The resources on which the table records an entry of the transaction. *)
Definition txn_rids (tt : TransactionTable) (tid : transaction_id)
  : list ResourceId := let p := txn_lists tt tid in p.1.*1 ++ p.2.*1.

(** How often the table records the resource for the transaction. *)
Definition recorded (tt : TransactionTable) (tid : transaction_id)
    (rid : ResourceId) : nat :=
  length (filter (λ r, r = rid) (txn_rids tt tid)).

(** Adding an entry for a resource, wherever it goes. *)
Lemma recorded_set tt tid rid p t r :
  p.1.*1 ++ p.2.*1 ≡ₚ rid :: txn_rids tt tid →
  recorded (set_txn_lists tt tid p) t r =
  recorded tt t r + (if decide (t = tid ∧ r = rid) then 1 else 0).
Proof.
  intros Hp. unfold recorded. unfold txn_rids at 1. rewrite txn_lists_set.
  destruct (decide (tid = t)) as [->|].
  - rewrite Hp, filter_cons. repeat case_decide; cbn; naive_solver lia.
  - unfold txn_rids. rewrite decide_False by naive_solver. lia.
Qed.

Lemma recorded_putOwn tid rid mode tt t r :
  recorded (putOwnEntry tid rid mode tt).2 t r =
  recorded tt t r + (if decide (t = tid ∧ r = rid) then 1 else 0).
Proof.
  apply recorded_set. unfold txn_rids; cbn. rewrite fmap_app; cbn.
  solve_Permutation.
Qed.

Lemma recorded_putPending tid rid mode tt t r :
  recorded (putPendingEntry tid rid mode tt).2 t r =
  recorded tt t r + (if decide (t = tid ∧ r = rid) then 1 else 0).
Proof.
  apply recorded_set. unfold txn_rids; cbn. rewrite fmap_app; cbn.
  solve_Permutation.
Qed.

Lemma getResourceIdList_perm tid tt :
  (getResourceIdList tid tt).1 ≡ₚ txn_rids tt tid.
Proof. unfold getResourceIdList, txn_rids; cbn. by rewrite Permutation_app_comm. Qed.

Lemma txn_rids_getResourceIdList tid tt t :
  txn_rids (getResourceIdList tid tt).2 t = txn_rids tt t.
Proof.
  unfold getResourceIdList, txn_rids; cbn. rewrite txn_lists_set.
  by case_decide; subst.
Qed.

(** Asking for the resource ids first makes the deletion succeed. *)
Lemma deleteTransaction_after_get tid tt :
  (deleteTransaction tid (getResourceIdList tid tt).2).1 =
  TransactionTableResult.kTransactionDeleteOk.
Proof.
  unfold deleteTransaction, getResourceIdList; cbn.
  rewrite map_size_delete_Some by (by rewrite lookup_insert_eq).
  set (n := size _). assert (0 < n) as Hn.
  { subst n. apply Nat.neq_0_lt_0. intros H%map_size_empty_inv.
    by apply insert_non_empty in H. }
  by destruct (Nat.eqb_spec n (pred n)); [lia|].
Qed.

Lemma txn_rids_delete tid tt t :
  txn_rids (deleteTransaction tid tt).2 t =
  if decide (t = tid) then [] else txn_rids tt t.
Proof.
  unfold txn_rids, txn_lists, deleteTransaction; cbn.
  rewrite lookup_delete. repeat case_decide; naive_solver.
Qed.

Arguments deleteTransaction : simpl never.
Arguments getResourceIdList : simpl never.
