(* ===== verification/LockManager.v ===== *)
(** * The lock manager

    transaction/LockManager.{hpp,cpp}: hierarchical acquisition of a lock,
    release of all the locks of a transaction, the killing of deadlock victims
    and one turn of the manager's main loop. *)

From stdpp Require Import options.
From S2P Require Import Prelude TxnData LockTable TransactionTable.

(** [DeadLockDetectorStatus], the flag the manager and the detector share. *)
Inductive DeadLockDetectorStatus := kNotReady | kDone | kQuit.

#[global] Instance DeadLockDetectorStatus_eq_dec :
  EqDecision DeadLockDetectorStatus.
Proof. solve_decision. Defined.

Record LockManager := mkLockManager {
  lock_table_ : LockTable;
  transaction_table_ : TransactionTable;
  detector_status_ : DeadLockDetectorStatus;
  victim_result_ : list Z;
  incoming_requests_ : list LockRequest;
  permitted_requests_ : list LockRequest;
  inner_pending_requests_ : list LockRequest;
}.

Definition new_lock_manager : LockManager :=
  mkLockManager empty_lock_table empty_transaction_table kNotReady [] [] [] [].

Definition set_lock_table (lm : LockManager) (lt : LockTable) : LockManager :=
  mkLockManager lt (transaction_table_ lm) (detector_status_ lm)
    (victim_result_ lm) (incoming_requests_ lm) (permitted_requests_ lm)
    (inner_pending_requests_ lm).
Definition set_transaction_table (lm : LockManager) (txns : TransactionTable)
  : LockManager :=
  mkLockManager (lock_table_ lm) txns (detector_status_ lm)
    (victim_result_ lm) (incoming_requests_ lm) (permitted_requests_ lm)
    (inner_pending_requests_ lm).
Definition set_detector (lm : LockManager) (s : DeadLockDetectorStatus)
    (victims : list Z) : LockManager :=
  mkLockManager (lock_table_ lm) (transaction_table_ lm) s
    victims (incoming_requests_ lm) (permitted_requests_ lm)
    (inner_pending_requests_ lm).
Definition set_queues (lm : LockManager) (incoming permitted inner : list LockRequest)
  : LockManager :=
  mkLockManager (lock_table_ lm) (transaction_table_ lm) (detector_status_ lm)
    (victim_result_ lm) incoming permitted inner.

(** ** acquireLock *)

Definition acquireLockInternal (tid : transaction_id) (rid : ResourceId)
    (access_mode : AccessModeType) (lm : LockManager)
  : outcome (bool * LockManager) :=
  let '(lock_result, lt) := putLock tid rid access_mode (lock_table_ lm) in
  let lm := set_lock_table lm lt in
  _ ← check (bool_decide (lock_result ≠ LockTableResult.kPutError));
  match lock_result with
  | LockTableResult.kAlreadyInOwned => Ok (true, lm)
  | LockTableResult.kPlacedInOwned =>
      let '(r, txns) := putOwnEntry tid rid access_mode (transaction_table_ lm) in
      let lm := set_transaction_table lm txns in
      _ ← check (bool_decide (r = TransactionTableResult.kPlacedInOwned));
      Ok (true, lm)
  | LockTableResult.kAlreadyInPending => Ok (false, lm)
  | LockTableResult.kPlacedInPending =>
      let '(r, txns) := putPendingEntry tid rid access_mode (transaction_table_ lm) in
      let lm := set_transaction_table lm txns in
      _ ← check (bool_decide (r = TransactionTableResult.kPlacedInPending));
      Ok (false, lm)
  | _ => Ok (false, lm)
  end.

(** The mode asked for on the parent of a resource. *)
Definition parent_mode (m : AccessModeType) : AccessModeType :=
  if isShareLock m || isIntentionShareLock m then kIsLockMode else kIxLockMode.

(** The loop that pushes the ancestors; the top of the stack is its head. *)
Fixpoint push_ancestors (fuel : nat) (current_rid : ResourceId)
    (current_mode : AccessModeType) (stack : list (ResourceId * AccessModeType))
  : outcome (list (ResourceId * AccessModeType)) :=
  if hasParent current_rid then
    match fuel with
    | 0 => Err OutOfFuel
    | S fuel =>
        parent ← getParentResourceId current_rid;
        let mode := parent_mode current_mode in
        push_ancestors fuel parent mode ((parent, mode) :: stack)
    end
  else Ok stack.

(** A resource id has at most three ancestors. *)
Definition lock_path (rid : ResourceId) (access_mode : AccessModeType)
  : outcome (list (ResourceId * AccessModeType)) :=
  push_ancestors 3 rid access_mode [(rid, access_mode)].

(** The loop that pops the stack, from the database down to the resource. *)
Fixpoint acquire_loop (tid : transaction_id)
    (stack : list (ResourceId * AccessModeType)) (lm : LockManager)
  : outcome (bool * LockManager) :=
  match stack with
  | [] => Ok (true, lm)
  | (rid_to_pick, access_mode_to_pick) :: stack' =>
      '(acquired, lm) ← acquireLockInternal tid rid_to_pick access_mode_to_pick lm;
      if acquired : bool then acquire_loop tid stack' lm else Ok (false, lm)
  end.

Definition acquireLock (tid : transaction_id) (rid : ResourceId)
    (access_mode : AccessModeType) (lm : LockManager)
  : outcome (bool * LockManager) :=
  stack ← lock_path rid access_mode;
  lt ← latchExclusive (lock_table_ lm);
  '(acquired, lm) ← acquire_loop tid stack (set_lock_table lm lt);
  lt ← unlatchExclusive (lock_table_ lm);
  Ok (acquired, set_lock_table lm lt).

(** ** releaseAllLocks and killVictims *)

Fixpoint release_loop (tid : transaction_id) (rids : list ResourceId)
    (lt : LockTable) : outcome LockTable :=
  match rids with
  | [] => Ok lt
  | rid :: rids' =>
      '(lock_deleted, lt) ← deleteLock tid rid lt;
      _ ← check (bool_decide (lock_deleted ≠ LockTableResult.kDeleteError));
      release_loop tid rids' lt
  end.

Definition releaseAllLocks (tid : transaction_id) (latch_table : bool)
    (lm : LockManager) : outcome (bool * LockManager) :=
  let '(resource_ids, txns) := getResourceIdList tid (transaction_table_ lm) in
  let '(transaction_deleted, txns) := deleteTransaction tid txns in
  let lm := set_transaction_table lm txns in
  _ ← check (bool_decide
        (transaction_deleted ≠ TransactionTableResult.kTransactionDeleteError));
  lt ← (if latch_table then latchExclusive (lock_table_ lm) else Ok (lock_table_ lm));
  lt ← release_loop tid resource_ids lt;
  lt ← (if latch_table then unlatchExclusive lt else Ok lt);
  Ok (true, set_lock_table lm lt).

Fixpoint kill_loop (victims : list Z) (lm : LockManager) : outcome LockManager :=
  match victims with
  | [] => Ok lm
  | victim :: victims' =>
      '(_, lm) ← releaseAllLocks victim false lm;
      kill_loop victims' lm
  end.

Definition killVictims (lm : LockManager) : outcome LockManager :=
  lm ← (if decide (detector_status_ lm = kDone) then
          lt ← latchExclusive (lock_table_ lm);
          lm ← kill_loop (victim_result_ lm) (set_lock_table lm lt);
          lt ← unlatchExclusive (lock_table_ lm);
          Ok (set_lock_table lm lt)
        else Ok lm);
  Ok (set_detector lm kNotReady []).

(** ** run *)

Record flags := mkFlags { max_try_incoming : nat; max_try_inner : nat }.

(** The body of the first [for] loop. *)
Definition incoming_try (lm : LockManager) : outcome LockManager :=
  match incoming_requests_ lm with
  | [] => Ok lm
  | request :: rest =>
      let lm := set_queues lm rest (permitted_requests_ lm)
                  (inner_pending_requests_ lm) in
      match req_type request with
      | kReleaseLocks =>
          '(released, lm) ← releaseAllLocks (req_tid request) true lm;
          _ ← check released;
          Ok lm
      | kAcquireLock =>
          '(acquired, lm) ← acquireLock (req_tid request) (req_rid request)
                              (req_mode request) lm;
          if acquired : bool then
            Ok (set_queues lm (incoming_requests_ lm)
                  (permitted_requests_ lm ++ [request])
                  (inner_pending_requests_ lm))
          else
            Ok (set_queues lm (incoming_requests_ lm) (permitted_requests_ lm)
                  (inner_pending_requests_ lm ++ [request]))
      end
  end.

(** The body of the second [for] loop: only the front request is tried. *)
Definition inner_try (lm : LockManager) : outcome LockManager :=
  match inner_pending_requests_ lm with
  | [] => Ok lm
  | request :: rest =>
      '(acquired, lm) ← acquireLock (req_tid request) (req_rid request)
                          (req_mode request) lm;
      if acquired : bool then
        Ok (set_queues lm (incoming_requests_ lm)
              (permitted_requests_ lm ++ [request]) rest)
      else Ok lm
  end.

Fixpoint repeat_tries (tries : nat) (body : LockManager → outcome LockManager)
    (lm : LockManager) : outcome LockManager :=
  match tries with
  | 0 => Ok lm
  | S tries => lm ← body lm; repeat_tries tries body lm
  end.

(** One turn of the [while (true)] loop of [run].  Both bounds come from
    [FLAGS_max_try_incoming]; [FLAGS_max_try_inner] is never read. *)
Definition run_iteration (f : flags) (lm : LockManager) : outcome LockManager :=
  let kMaxTryIncoming := max_try_incoming f in
  let kMaxTryInner := max_try_incoming f in
  lm ← repeat_tries kMaxTryIncoming incoming_try lm;
  lm ← repeat_tries kMaxTryInner inner_try lm;
  killVictims lm.

(** ** The invariant *)

(** The lock table is well formed, and the two tables record the same entries:
    for every transaction and resource, as many in the lock table as in the
    transaction table. *)
Record lm_inv (lm : LockManager) : Prop := {
  inv_wf : lock_table_wf (lock_table_ lm);
  inv_agree tid rid :
    held (lock_table_ lm) tid rid = recorded (transaction_table_ lm) tid rid;
}.

(** The transaction has been granted the lock. *)
Definition granted (lm : LockManager) (tid : transaction_id) (rid : ResourceId)
    (mode : AccessModeType) : Prop :=
  (tid, mode) ∈ (entry_key <$> owned (lock_table_ lm) rid).

(** The transaction waits for the lock. *)
Definition waiting (lm : LockManager) (tid : transaction_id) (rid : ResourceId)
    (mode : AccessModeType) : Prop :=
  (tid, mode) ∈ (entry_key <$> pending (lock_table_ lm) rid).

(** The transaction does not hold the lock, and others wait already or hold a
    lock that is not compatible with it. *)
Definition blocked (lm : LockManager) (tid : transaction_id) (rid : ResourceId)
    (mode : AccessModeType) : Prop :=
  ¬ granted lm tid rid mode ∧
  (pending (lock_table_ lm) rid ≠ [] ∨
   Exists (λ e, isCompatible mode (lock_mode e.2) = false) (owned (lock_table_ lm) rid)).

(** The lists of a resource are left alone. *)
Definition same_lists (lm lm' : LockManager) (rid : ResourceId) : Prop :=
  lock_lists (lock_table_ lm') rid = lock_lists (lock_table_ lm) rid.

(** The parts of the manager that an acquisition leaves alone. *)
Definition same_frame (lm lm' : LockManager) : Prop :=
  mutex_ (lock_table_ lm') = mutex_ (lock_table_ lm) ∧
  detector_status_ lm' = detector_status_ lm ∧
  victim_result_ lm' = victim_result_ lm ∧
  incoming_requests_ lm' = incoming_requests_ lm ∧
  permitted_requests_ lm' = permitted_requests_ lm ∧
  inner_pending_requests_ lm' = inner_pending_requests_ lm.

#[global] Instance same_frame_preorder : PreOrder same_frame.
Proof.
  split; [by intros x; repeat split|].
  intros x y z; unfold same_frame; intros; destruct_and!; split_and!; congruence.
Qed.

(** Acquisitions only add to the owned lists. *)
Definition owned_grows (lm lm' : LockManager) : Prop :=
  ∀ rid, owned (lock_table_ lm) rid `prefix_of` owned (lock_table_ lm') rid.

#[global] Instance owned_grows_preorder : PreOrder owned_grows.
Proof. split; [by intros ? ?|]. intros x y z ?? rid. etrans; eauto. Qed.

Lemma granted_grows lm lm' tid rid mode :
  owned_grows lm lm' → granted lm tid rid mode → granted lm' tid rid mode.
Proof.
  unfold granted. intros Hg Hin. destruct (Hg rid) as [k ->].
  rewrite fmap_app. set_solver.
Qed.

Lemma put_entry_owned_prefix tid rid mode p res p' :
  put_entry tid rid mode p res p' → p.1 `prefix_of` p'.1.
Proof. destruct 1; cbn; try done. by eexists. Qed.

Lemma putLock_frame tid rid mode lt res lt' :
  putLock tid rid mode lt = (res, lt') →
  mutex_ lt' = mutex_ lt ∧
  (∀ r, owned lt r `prefix_of` owned lt' r) ∧
  (∀ t r, held lt' t r = held lt t r +
     (if decide (t = tid ∧ r = rid) then placed res else 0)).
Proof.
  intros (He & Ho & Hm)%putLock_entry. split_and!; [done|..].
  - intros r. unfold owned. destruct (decide (r = rid)) as [->|]; [|by rewrite Ho].
    by eapply put_entry_owned_prefix.
  - intros t r. unfold held. destruct (decide (r = rid)) as [->|].
    + rewrite (put_entry_held _ _ _ _ _ _ t He). repeat case_decide; naive_solver.
    + rewrite Ho, decide_False by naive_solver. lia.
Qed.

(** What [put_entry] says of the answer: the lock is granted unless it is blocked,
    and then the request waits. *)
Lemma put_entry_answer tid rid mode lm lm' res :
  put_entry tid rid mode (lock_lists (lock_table_ lm) rid) res
    (lock_lists (lock_table_ lm') rid) →
  match res with
  | LockTableResult.kAlreadyInOwned | LockTableResult.kPlacedInOwned =>
      granted lm' tid rid mode ∧ ¬ blocked lm tid rid mode
  | _ => waiting lm' tid rid mode ∧ blocked lm tid rid mode
  end.
Proof.
  unfold granted, waiting, blocked, granted, owned, pending.
  assert (∀ e, compatible (entry_of tid rid mode) e →
    isCompatible mode (lock_mode e.2) = false → False) as Hc.
  { intros e Hc Hn. unfold compatible in Hc; cbn in Hc. congruence. }
  destruct (lock_lists (lock_table_ lm) rid) as [own pend] eqn:E,
    (lock_lists (lock_table_ lm') rid) as [own' pend'].
  inversion 1; subst; cbn; rewrite ?fmap_app, ?Exists_exists; cbn.
  - naive_solver.
  - split; [done|]. split; [done|]. left. intros Hn. rewrite Hn in *. set_solver.
  - split; [set_solver|]. intros [_ [?|(e & He & Hn)]]; [done|].
    rewrite Forall_forall in *. eauto.
  - split; [set_solver|]. split; [done|].
    match goal with H : _ ∨ _ |- _ => destruct H as [?|(e & He & Hn)%Exists_exists] end; [by left|].
    right. exists e. split; [done|]. unfold compatible in Hn; cbn in Hn.
    by destruct (isCompatible _ _).
Qed.

(** [acquireLockInternal] always returns, keeps the invariant, touches one
    resource, and answers [true] when the lock is granted and [false] when it is
    blocked. *)
Lemma acquireLockInternal_spec tid rid mode lm :
  lm_inv lm →
  ∃ b lm', acquireLockInternal tid rid mode lm = Ok (b, lm') ∧
    lm_inv lm' ∧ same_frame lm lm' ∧ owned_grows lm lm' ∧
    (∀ r, r ≠ rid → same_lists lm lm' r) ∧
    if b : bool then granted lm' tid rid mode ∧ ¬ blocked lm tid rid mode
    else waiting lm' tid rid mode ∧ blocked lm tid rid mode.
Proof.
  intros [Hwf Hag]. unfold acquireLockInternal.
  pose proof (putLock_wf tid rid mode _ Hwf) as Hwf'.
  destruct (putLock tid rid mode (lock_table_ lm)) as [res lt] eqn:Hput. cbn in Hwf'.
  pose proof (putLock_entry _ _ _ _ _ _ Hput) as (He & Ho & _).
  apply putLock_frame in Hput as (Hm & Hpre & Hheld).
  pose proof (put_entry_answer tid rid mode lm (set_lock_table lm lt) res He) as Hans.
  destruct res; inversion He; subst; cbn;
    (eexists _, _; split; [reflexivity|]); (split; [split; cbn; [done|]|]).
  all: try (intros t r; rewrite Hheld, Hag;
    first [ exact (eq_sym (recorded_putOwn tid rid mode _ t r))
          | exact (eq_sym (recorded_putPending tid rid mode _ t r))
          | cbn; case_decide; lia ]).
  all: split; [by unfold same_frame; cbn; rewrite Hm|]; split; [done|]; split; [exact Ho|exact Hans].
Qed.

(** The locks of a path from the top down that can be had, and are had. *)
Definition acquired (tid : transaction_id) (lm lm' : LockManager)
    (path : list (ResourceId * AccessModeType)) : Prop :=
  Forall (λ '(r, m), ¬ blocked lm tid r m ∧ granted lm' tid r m) path.

(** The answer of an acquisition: all the locks of the path; or those above the
    first one that is blocked, which is waited for, and none below. *)
Definition acquire_answer (tid : transaction_id)
    (path : list (ResourceId * AccessModeType)) (lm : LockManager) (b : bool)
    (lm' : LockManager) : Prop :=
  if b then acquired tid lm lm' path
  else ∃ above r m below, path = above ++ (r, m) :: below ∧
    acquired tid lm lm' above ∧ blocked lm tid r m ∧ waiting lm' tid r m ∧
    Forall (same_lists lm lm') below.*1.

Lemma blocked_same_lists lm lm' tid rid mode :
  same_lists lm lm' rid → blocked lm' tid rid mode ↔ blocked lm tid rid mode.
Proof. unfold same_lists, blocked, granted, owned, pending. by intros ->. Qed.

(** From the state after the first lock of a path to the state before it. *)
Lemma acquire_answer_cons tid r m path lm lm1 lm2 b :
  r ∉ path.*1 → (∀ r', r' ≠ r → same_lists lm lm1 r') → owned_grows lm1 lm2 →
  granted lm1 tid r m → ¬ blocked lm tid r m →
  acquire_answer tid path lm1 b lm2 → acquire_answer tid ((r, m) :: path) lm b lm2.
Proof.
  intros Hnin Hsame Hgrow Hg Hb.
  assert (∀ path', path' ⊆ path → acquired tid lm1 lm2 path' → acquired tid lm lm2 path') as Hacq.
  { intros path' Hsub. unfold acquired. rewrite !Forall_forall.
    intros Hall [r' m'] Hin. destruct (Hall _ Hin) as [Hnb Hgr]. split; [|done].
    rewrite <- (blocked_same_lists lm lm1); [done|]. apply Hsame. intros ->.
    apply Hnin, list_elem_of_fmap. exists (r, m'). split; [done|by apply Hsub]. }
  assert (¬ blocked lm tid r m ∧ granted lm2 tid r m) as Hhead by eauto using granted_grows.
  destruct b; cbn.
  { intros Hall. constructor; [exact Hhead|]. by apply Hacq. }
  intros (above & r' & m' & below & -> & Hab & Hbl & Hw & Hbelow).
  rewrite fmap_app, fmap_cons in Hnin. exists ((r, m) :: above), r', m', below.
  split_and!; [done|..|done|].
  - constructor; [exact Hhead|]. apply Hacq; [set_solver|done].
  - rewrite <- (blocked_same_lists lm lm1); [done|]. apply Hsame. set_solver.
  - rewrite Forall_forall in *. intros x Hx. unfold same_lists.
    rewrite (Hbelow x Hx). apply Hsame. set_solver.
Qed.

Lemma acquire_loop_spec tid stack lm :
  NoDup stack.*1 → lm_inv lm →
  ∃ b lm', acquire_loop tid stack lm = Ok (b, lm') ∧
    lm_inv lm' ∧ same_frame lm lm' ∧ owned_grows lm lm' ∧
    (∀ r, r ∉ stack.*1 → same_lists lm lm' r) ∧ acquire_answer tid stack lm b lm'.
Proof.
  revert lm. induction stack as [|[r m] stack IH]; intros lm; cbn.
  { intros _ Hinv. exists true, lm. repeat (split; [done|]). constructor. }
  intros [Hnin Hnd]%NoDup_cons Hinv.
  destruct (acquireLockInternal_spec tid r m lm Hinv)
    as (b & lm1 & -> & Hinv1 & Hf1 & Hg1 & Hs1 & Hb). cbn.
  destruct b, Hb as [Hb Hbl].
  - destruct (IH lm1 Hnd Hinv1) as (b & lm2 & -> & Hinv2 & Hf2 & Hg2 & Hs2 & Ha).
    exists b, lm2. repeat (split; [first [done|by etrans]|]). split.
    + intros x [Hx1 Hx2]%not_elem_of_cons. unfold same_lists. rewrite Hs2 by done. by apply Hs1.
    + by eapply acquire_answer_cons.
  - eexists _, _. repeat (split; [done|]). split.
    + intros x [Hx1 Hx2]%not_elem_of_cons. by apply Hs1.
    + exists [], r, m, stack. split_and!; [done|constructor|done..|].
      rewrite Forall_forall. intros x Hx. apply Hs1. by intros ->.
Qed.

(** ** The path of a resource *)

(** What the stack holds for a resource id that names something: the resource
    itself at the bottom, and above it its ancestors with intention modes. *)
Definition path_spec (rid : ResourceId) (mode : AccessModeType)
  : list (ResourceId * AccessModeType) :=
  let '(mkResourceId d r b t) := rid in
  let up := parent_mode mode in
  if isDatabaseAccess rid then [(rid, mode)]
  else if isRelationAccess rid then [(ResourceId_db d, up); (rid, mode)]
  else if isBlockAccess rid then
    [(ResourceId_db d, up); (ResourceId_rel d r, up); (rid, mode)]
  else [(ResourceId_db d, up); (ResourceId_rel d r, up);
        (ResourceId_block d r b, up); (rid, mode)].

Lemma parent_mode_idemp m : parent_mode (parent_mode m) = parent_mode m.
Proof. by destruct m. Qed.

Ltac resource_cases :=
  unfold valid_resource, hasParent, getParentResourceId, isDatabaseAccess,
    isRelationAccess, isBlockAccess, isTupleAccess, isDatabaseIdPlaceholder,
    isRelationIdPlaceholder, isBlockIdPlaceholder, isTupleIdPlaceholder in *;
  cbn in *.

Lemma lock_path_valid rid mode :
  valid_resource rid = true → lock_path rid mode = Ok (path_spec rid mode).
Proof.
  destruct rid as [d r b t]. unfold lock_path, path_spec.
  resource_cases. destruct (d =? kDatabaseIdPlaceholder)%Z eqn:Hd; cbn; [done|].
  destruct (r =? kRelationIdPlaceholder)%Z eqn:Hr,
    (b =? kBlockIdPlaceholder)%Z eqn:Hb, (t =? kTupleIdPlaceholder)%Z eqn:Ht;
    cbn; try done; intros _;
    repeat (resource_cases; rewrite ?Hd, ?Hr, ?Hb, ?Ht, ?Z.eqb_refl;
            rewrite ?parent_mode_idemp; cbn); done.
Qed.

(** The resources of a path are distinct. *)
Lemma path_spec_NoDup rid mode : valid_resource rid = true → NoDup (path_spec rid mode).*1.
Proof.
  destruct rid as [d r b t]. unfold path_spec. resource_cases.
  destruct (d =? kDatabaseIdPlaceholder)%Z eqn:Hd; cbn; [done|].
  destruct (r =? kRelationIdPlaceholder)%Z eqn:Hr,
    (b =? kBlockIdPlaceholder)%Z eqn:Hb, (t =? kTupleIdPlaceholder)%Z eqn:Ht;
    cbn; try done; intros _; rewrite ?Z.eqb_neq in *;
    repeat constructor; rewrite ?elem_of_cons, ?elem_of_nil;
    unfold ResourceId_db, ResourceId_rel, ResourceId_block; naive_solver.
Qed.

(** A resource id that names nothing stops at [getParentResourceId]. *)
Lemma lock_path_invalid rid mode :
  valid_resource rid = false → lock_path rid mode = Err CheckFailed.
Proof.
  destruct rid as [d r b t]. unfold lock_path; cbn. resource_cases.
  destruct (d =? _)%Z, (r =? _)%Z, (b =? _)%Z, (t =? _)%Z; done.
Qed.

(** ** Acquisition *)

Lemma latchExclusive_free lt :
  mutex_ lt = Unlatched →
  latchExclusive lt = Ok (mkLockTable (internal_map_ lt) LatchedExclusive).
Proof. unfold latchExclusive. by intros ->. Qed.

Lemma lm_inv_set_latch lm l :
  lm_inv lm →
  lm_inv (set_lock_table lm (mkLockTable (internal_map_ (lock_table_ lm)) l)).
Proof. by intros []. Qed.

Lemma acquireLock_spec tid rid mode lm :
  valid_resource rid = true → lm_inv lm → mutex_ (lock_table_ lm) = Unlatched →
  ∃ b lm', acquireLock tid rid mode lm = Ok (b, lm') ∧
    lm_inv lm' ∧ same_frame lm lm' ∧ owned_grows lm lm' ∧
    (∀ r, r ∉ (path_spec rid mode).*1 → same_lists lm lm' r) ∧
    acquire_answer tid (path_spec rid mode) lm b lm'.
Proof.
  intros Hv Hinv Hm. unfold acquireLock. rewrite lock_path_valid by done; cbn.
  rewrite latchExclusive_free by done; cbn.
  set (lm1 := set_lock_table lm _).
  assert (lm_inv lm1) as Hinv1 by (by apply lm_inv_set_latch).
  destruct (acquire_loop_spec tid (path_spec rid mode) lm1 (path_spec_NoDup rid mode Hv) Hinv1)
    as (b & lm2 & -> & Hinv2 & Hf & Hg & Hs & Hb); cbn.
  destruct Hf as (Hm2 & Hf). unfold unlatchExclusive. rewrite Hm2; cbn.
  eexists _, _; split; [reflexivity|]. split; [by apply lm_inv_set_latch|].
  split; [|split; [exact Hg|split; [exact Hs|exact Hb]]].
  split; [by cbn; rewrite Hm|exact Hf].
Qed.

(** C4. Hierarchical locking: in a consistent state, with the latch free,
    [acquireLock] on a resource id that names something always returns, keeps
    the state consistent and frees the latch, takes no granted lock away, and
    touches only the resource and its ancestors.  It answers [true] exactly when
    neither the lock nor an intention lock on an ancestor is blocked, and then
    the transaction holds all of them; otherwise it holds those above the first
    level that is blocked, waits at that level, and leaves the levels below as
    they were. *)
Theorem acquireLock_hierarchical tid rid mode lm :
  valid_resource rid = true → lm_inv lm → mutex_ (lock_table_ lm) = Unlatched →
  ∃ b lm', acquireLock tid rid mode lm = Ok (b, lm') ∧
    lm_inv lm' ∧ mutex_ (lock_table_ lm') = Unlatched ∧
    (∀ r, owned (lock_table_ lm) r `prefix_of` owned (lock_table_ lm') r) ∧
    (∀ r, r ∉ (path_spec rid mode).*1 → same_lists lm lm' r) ∧
    (if b : bool then
       ∀ r m, (r, m) ∈ path_spec rid mode → ¬ blocked lm tid r m ∧ granted lm' tid r m
     else ∃ above r m below, path_spec rid mode = above ++ (r, m) :: below ∧
       (∀ r' m', (r', m') ∈ above → ¬ blocked lm tid r' m' ∧ granted lm' tid r' m') ∧
       blocked lm tid r m ∧ waiting lm' tid r m ∧
       (∀ r', r' ∈ below.*1 → same_lists lm lm' r')).
Proof.
  intros Hv Hinv Hm.
  destruct (acquireLock_spec tid rid mode lm Hv Hinv Hm)
    as (b & lm' & Hacq & Hinv' & (Hm' & _) & Hg & Hs & Hb).
  exists b, lm'. rewrite Hm'. repeat (split; [done|]). destruct b; cbn in Hb.
  - intros r m Hin. unfold acquired in Hb. rewrite Forall_forall in Hb. exact (Hb _ Hin).
  - destruct Hb as (above & r & m & below & Hp & Ha & Hbl & Hw & Hbelow).
    unfold acquired in Ha. rewrite Forall_forall in Ha. rewrite Forall_forall in Hbelow.
    exists above, r, m, below. split_and!; [done| |done..].
    intros r' m' Hin. exact (Ha _ Hin).
Qed.

(** ** Release *)

(** How often the resource occurs. *)
Definition occurs (rid : ResourceId) (l : list ResourceId) : nat :=
  length (filter (λ r, r = rid) l).

Arguments occurs : simpl never.

Lemma occurs_perm rid l l' : l ≡ₚ l' → occurs rid l = occurs rid l'.
Proof. intros Hp. unfold occurs. by rewrite Hp. Qed.

(** The lists of a resource without the entries of the transaction. *)
Definition without (tid : transaction_id) (p : lock_list_pair) : lock_list_pair :=
  (others tid p.1, others tid p.2).

Lemma held_in_without tid p t :
  held_in t (without tid p) = if decide (t = tid) then 0 else held_in t p.
Proof.
  unfold held_in, without, others; cbn. rewrite <- filter_app, list_filter_filter.
  case_decide as Ht; [subst|apply f_equal, list_filter_iff; naive_solver].
  apply length_zero_iff_nil. induction (p.1 ++ p.2); [done|].
  rewrite filter_cons_False; [done|naive_solver].
Qed.

Lemma held_in_none tid p : held_in tid p = 0 → without tid p = p ∧ tid ∉ p.1.*1.
Proof.
  unfold held_in. intros Hl%length_zero_iff_nil. destruct p as [own pend]; cbn in *.
  assert (Forall (λ e, e.1 ≠ tid) (own ++ pend)) as Hn.
  { apply Forall_forall. intros e He ?.
    assert (e ∈ []) as []%not_elem_of_nil. rewrite <- Hl. by apply list_elem_of_filter. }
  apply Forall_app in Hn as [??]. unfold without; cbn.
  rewrite !others_none by done. split; [done|by apply none_not_elem].
Qed.

(** The loop erases all the entries of the transaction; it leaves defined
    behaviour exactly when somebody waits for one of its locks. *)
Lemma release_loop_spec tid rids lt :
  lock_table_wf lt → (∀ r, occurs r rids = held lt tid r) →
  match release_loop tid rids lt with
  | Ok lt' =>
      lock_table_wf lt' ∧ mutex_ lt' = mutex_ lt ∧
      (∀ r, lock_lists lt' r = without tid (lock_lists lt r)) ∧
      (∀ r, ¬ wakes tid (lock_lists lt r))
  | Err e => e = UndefinedBehaviour ∧ ∃ r, wakes tid (lock_lists lt r)
  end.
Proof.
  revert lt. induction rids as [|rid rids IH]; intros lt Hwf Hocc; cbn.
  { split_and!; [done..| |]; intros r;
      destruct (held_in_none tid (lock_lists lt r) (eq_sym (Hocc r))) as [Hw Hn]; [done|].
    by intros [? _]. }
  destruct (deleteLock tid rid lt) as [[res lt1]|e] eqn:Hdel; cbn.
  2:{ split; [by eapply deleteLock_Err|]. exists rid. by eapply deleteLock_Err_wakes. }
  pose proof (deleteLock_wf _ _ _ _ _ Hdel Hwf) as Hwf1.
  apply deleteLock_entry in Hdel as (He & Ho & Hm).
  assert (∀ r, occurs r (rid :: rids) =
    occurs r rids + (if decide (r = rid) then 1 else 0)) as Hcons.
  { intros r. unfold occurs. rewrite filter_cons. repeat case_decide; naive_solver lia. }
  assert (res ≠ LockTableResult.kDeleteError) as Hres.
  { intros ->. apply del_entry_error in He. specialize (Hocc rid).
    rewrite Hcons, decide_True in Hocc by done. unfold held in Hocc. lia. }
  rewrite bool_decide_true by done; cbn.
  assert (∀ r, occurs r rids = held lt1 tid r) as Hocc1.
  { intros r. specialize (Hocc r). rewrite Hcons in Hocc. unfold held in *.
    case_decide; subst; [|rewrite Ho by done; lia].
    rewrite (del_entry_held _ _ _ _ tid He), decide_True in Hocc by done.
    assert (removed res = 1) by (by destruct res; inversion He). lia. }
  apply del_entry_others in He as (Ho1 & Ho2 & Hw).
  assert (∀ r, without tid (lock_lists lt1 r) = without tid (lock_lists lt r) ∧
    (wakes tid (lock_lists lt1 r) ↔ wakes tid (lock_lists lt r))) as Hstep.
  { intros r. destruct (decide (r = rid)) as [->|]; [|by rewrite Ho].
    unfold without. by rewrite Ho1, Ho2. }
  specialize (IH lt1 Hwf1 Hocc1). destruct (release_loop tid rids lt1) as [lt2|e].
  - destruct IH as (Hwf2 & Hm2 & Hl2 & Hn2). split_and!; [done|congruence|..]; intros r.
    + rewrite Hl2. apply Hstep.
    + rewrite <- (proj2 (Hstep r)). apply Hn2.
  - destruct IH as (-> & r & Hr). split; [done|]. exists r. by apply Hstep.
Qed.

(** The transaction has no entry left, the others keep theirs in order. *)
Definition released (tid : transaction_id) (lm lm' : LockManager) : Prop :=
  ∀ r, lock_lists (lock_table_ lm') r = without tid (lock_lists (lock_table_ lm) r).

(** Somebody waits for a lock of the transaction, and for nothing else. *)
Definition wakes_somebody (tid : transaction_id) (lm : LockManager) : Prop :=
  ∃ r, wakes tid (lock_lists (lock_table_ lm) r).

Lemma released_held tid lm lm' t r :
  released tid lm lm' →
  held (lock_table_ lm') t r = if decide (t = tid) then 0 else held (lock_table_ lm) t r.
Proof. intros Hr. unfold held. rewrite Hr. apply held_in_without. Qed.

Lemma releaseAllLocks_spec tid latch_table lm :
  lm_inv lm →
  mutex_ (lock_table_ lm) = (if (latch_table : bool) then Unlatched else LatchedExclusive) →
  match releaseAllLocks tid latch_table lm with
  | Ok (b, lm') => b = true ∧ lm_inv lm' ∧ same_frame lm lm' ∧ released tid lm lm' ∧
      ¬ wakes_somebody tid lm
  | Err e => e = UndefinedBehaviour ∧ wakes_somebody tid lm
  end.
Proof.
  intros [Hwf Hag] Hm. unfold releaseAllLocks.
  pose proof (getResourceIdList_perm tid (transaction_table_ lm)) as Hperm.
  pose proof (txn_rids_getResourceIdList tid (transaction_table_ lm)) as Hget.
  pose proof (deleteTransaction_after_get tid (transaction_table_ lm)) as Hok.
  destruct (getResourceIdList tid (transaction_table_ lm)) as [rids txns1]; cbn in *.
  pose proof (txn_rids_delete tid txns1) as Hdel.
  destruct (deleteTransaction tid txns1) as [dres txns2]; cbn in *. subst dres.
  set (lt0 := mkLockTable (internal_map_ (lock_table_ lm)) LatchedExclusive).
  assert ((if latch_table then latchExclusive (lock_table_ lm)
           else Ok (lock_table_ lm)) = Ok lt0) as ->.
  { subst lt0. destruct latch_table; [by apply latchExclusive_free|].
    destruct (lock_table_ lm); cbn in *; by subst. }
  pose proof (release_loop_spec tid rids lt0 Hwf) as Hloop. cbn.
  assert (∀ r, occurs r rids = held lt0 tid r) as Hrec.
  { intros r. change (held lt0) with (held (lock_table_ lm)). rewrite Hag. by apply occurs_perm. }
  specialize (Hloop Hrec). destruct (release_loop tid rids lt0) as [lt1|e]; cbn; [|done].
  destruct Hloop as (Hwf1 & Hm1 & Hl1 & Hn1).
  assert (released tid lm (set_lock_table lm lt1)) as Hrel by exact Hl1.
  assert (∀ t r, held lt1 t r = recorded txns2 t r) as Hag2.
  { intros t r. change (held lt1) with (held (lock_table_ (set_lock_table lm lt1))).
    rewrite (released_held _ _ _ _ _ Hrel). unfold recorded. rewrite Hdel.
    case_decide; subst; [done|]. rewrite Hget. apply Hag. }
  assert ((if latch_table then unlatchExclusive lt1 else Ok lt1) =
    Ok (mkLockTable (internal_map_ lt1) (mutex_ (lock_table_ lm)))) as ->.
  { rewrite Hm. destruct latch_table; [by unfold unlatchExclusive; rewrite Hm1|].
    destruct lt1; cbn in *; by subst. }
  cbn. split_and!; [done|by split|by unfold same_frame|done|].
  intros [r Hr]. by apply (Hn1 r).
Qed.

Lemma kill_loop_spec victims lm :
  lm_inv lm → mutex_ (lock_table_ lm) = LatchedExclusive →
  match kill_loop victims lm with
  | Ok lm' => lm_inv lm' ∧ same_frame lm lm' ∧
      (∀ t r, t ∈ victims → held (lock_table_ lm') t r = 0) ∧
      (∀ t r, t ∉ victims → held (lock_table_ lm') t r = held (lock_table_ lm) t r)
  | Err e => e = UndefinedBehaviour
  end.
Proof.
  revert lm. induction victims as [|v victims IH]; intros lm Hinv Hm; cbn.
  { split_and!; [done..| |done]. intros t r []%not_elem_of_nil. }
  pose proof (releaseAllLocks_spec v false lm Hinv Hm) as Hrel.
  destruct (releaseAllLocks v false lm) as [[b lm1]|e]; cbn; [|by destruct Hrel].
  destruct Hrel as (_ & Hinv1 & Hf1 & Hr & _).
  assert (mutex_ (lock_table_ lm1) = LatchedExclusive) as Hm1.
  { destruct Hf1 as [-> _]. done. }
  specialize (IH lm1 Hinv1 Hm1).
  destruct (kill_loop victims lm1) as [lm2|e]; [|done].
  destruct IH as (Hinv2 & Hf2 & Hk1 & Hk2).
  split_and!; [done|by etrans|..].
  - intros t r Ht. destruct (decide (t ∈ victims)); [by apply Hk1|].
    rewrite Hk2 by done. assert (t = v) as -> by set_solver.
    by rewrite (released_held _ _ _ _ _ Hr), decide_True.
  - intros t r Ht. rewrite Hk2, (released_held _ _ _ _ _ Hr), decide_False by set_solver. done.
Qed.

(** C5. Release: in a consistent state, when the latch is free or, without
    [latch_table], held by the caller, [releaseAllLocks] never fails one of its
    [CHECK]s and never blocks.  It leaves defined behaviour exactly when the
    transaction holds a lock on a resource whose first waiting request is
    compatible with the locks of all the others.  Otherwise it returns
    [true], leaves the state consistent and the latch as it was, and removes
    exactly the entries of the transaction: the granted and the waiting locks of
    the others stay on every resource, in order, and the transaction table has
    no entry of the transaction left. *)
Theorem releaseAllLocks_complete tid latch_table lm :
  lm_inv lm →
  mutex_ (lock_table_ lm) = (if (latch_table : bool) then Unlatched else LatchedExclusive) →
  match releaseAllLocks tid latch_table lm with
  | Ok (b, lm') => b = true ∧ lm_inv lm' ∧
      mutex_ (lock_table_ lm') = mutex_ (lock_table_ lm) ∧
      (∀ r, owned (lock_table_ lm') r = filter (λ e, e.1 ≠ tid) (owned (lock_table_ lm) r)) ∧
      (∀ r, pending (lock_table_ lm') r = filter (λ e, e.1 ≠ tid) (pending (lock_table_ lm) r)) ∧
      (∀ r, recorded (transaction_table_ lm') tid r = 0) ∧
      ¬ wakes_somebody tid lm
  | Err e => e = UndefinedBehaviour ∧ wakes_somebody tid lm
  end.
Proof.
  intros Hinv Hm. pose proof (releaseAllLocks_spec tid latch_table lm Hinv Hm) as H.
  destruct (releaseAllLocks tid latch_table lm) as [[b lm']|e]; [|done].
  destruct H as (? & Hinv' & [Hm' _] & Hr & ?).
  split_and!; [done..| | | |done]; intros r.
  - unfold owned. by rewrite Hr.
  - unfold pending. by rewrite Hr.
  - by rewrite <- (inv_agree _ Hinv'), (released_held _ _ _ _ _ Hr), decide_True.
Qed.

(** ** The main loop *)

(** Every acquire request names a resource. *)
Definition valid_request (req : LockRequest) : Prop :=
  req_type req = kAcquireLock → valid_resource (req_rid req) = true.

(** What holds of the manager between two tries. *)
Record lm_ready (lm : LockManager) : Prop := {
  ready_inv : lm_inv lm;
  ready_latch : mutex_ (lock_table_ lm) = Unlatched;
  ready_incoming : Forall valid_request (incoming_requests_ lm);
  ready_inner : Forall (λ q, valid_request q ∧ req_type q = kAcquireLock)
                  (inner_pending_requests_ lm);
}.

(** The acquire requests the manager still has or has permitted. *)
Definition acquire_requests (lm : LockManager) : list LockRequest :=
  permitted_requests_ lm ++ inner_pending_requests_ lm ++
  filter (λ q, req_type q = kAcquireLock) (incoming_requests_ lm).

(** A computation on the manager that stays ready, loses no acquire request,
    and fails at most by leaving defined behaviour. *)
Definition safe_body (body : LockManager → outcome LockManager) : Prop :=
  ∀ lm, lm_ready lm →
    match body lm with
    | Ok lm' => lm_ready lm' ∧ acquire_requests lm' ≡ₚ acquire_requests lm
    | Err e => e = UndefinedBehaviour
    end.

Lemma set_queues_inv lm i p n : lm_inv lm → lm_inv (set_queues lm i p n).
Proof. by intros []. Qed.

Lemma incoming_try_safe : safe_body incoming_try.
Proof.
  intros lm [Hinv Hm Hin Hpend]. unfold incoming_try.
  destruct (incoming_requests_ lm) as [|req rest] eqn:Hq.
  { split; [|done]. split; [done..| |done]. by rewrite Hq. }
  apply Forall_cons in Hin as [Hreq Hrest].
  set (lm0 := set_queues lm rest _ _).
  assert (lm_inv lm0) as Hinv0 by (by apply set_queues_inv).
  unfold acquire_requests. rewrite Hq.
  destruct (req_type req) eqn:Hty.
  - rewrite filter_cons_True by done.
    destruct (acquireLock_spec (req_tid req) (req_rid req) (req_mode req) lm0)
      as (b & lm1 & -> & Hinv1 & (Hm1 & _ & _ & Hi & Hp & Hn) & _); [by auto..|].
    cbn in *. destruct b; cbn.
    + split; [split; cbn; [by apply set_queues_inv|congruence|..]|].
      { by rewrite Hi. } { by rewrite Hn. }
      rewrite Hi, Hp, Hn. solve_Permutation.
    + split; [split; cbn; [by apply set_queues_inv|congruence|..]|].
      { by rewrite Hi. } { rewrite Hn. apply Forall_app; by repeat constructor. }
      rewrite Hi, Hp, Hn. solve_Permutation.
  - rewrite filter_cons_False by (by rewrite Hty).
    pose proof (releaseAllLocks_spec (req_tid req) true lm0 Hinv0 Hm) as Hrel.
    destruct (releaseAllLocks (req_tid req) true lm0) as [[b lm1]|e]; cbn; [|by destruct Hrel].
    destruct Hrel as (-> & Hinv1 & (Hm1 & _ & _ & Hi & Hp & Hn) & _). cbn in *.
    split; [split; [done|congruence|by rewrite Hi|by rewrite Hn]|].
    by rewrite Hi, Hp, Hn.
Qed.

Lemma inner_try_safe : safe_body inner_try.
Proof.
  intros lm [Hinv Hm Hin Hpend]. unfold inner_try.
  destruct (inner_pending_requests_ lm) as [|req rest] eqn:Hq.
  { split; [|done]. split; [done..|]. by rewrite Hq. }
  apply Forall_cons in Hpend as [[Hreq Hty] Hrest].
  unfold acquire_requests. rewrite Hq.
  destruct (acquireLock_spec (req_tid req) (req_rid req) (req_mode req) lm)
    as (b & lm1 & -> & Hinv1 & (Hm1 & _ & _ & Hi & Hp & Hn) & _); [by auto..|].
  cbn. destruct b; cbn.
  - split; [split; cbn; [by apply set_queues_inv|congruence|by rewrite Hi|done]|].
    rewrite Hi, Hp. solve_Permutation.
  - split; [|by rewrite Hi, Hp, Hn, Hq].
    split; [done|congruence|by rewrite Hi|]. rewrite Hn, Hq. by constructor.
Qed.

Lemma killVictims_safe : safe_body killVictims.
Proof.
  intros lm [Hinv Hm Hin Hpend]. unfold killVictims. case_decide; cbn.
  2:{ by destruct Hinv. }
  rewrite latchExclusive_free by done; cbn.
  set (lm0 := set_lock_table lm _).
  assert (lm_inv lm0) as Hinv0 by (by apply lm_inv_set_latch).
  pose proof (kill_loop_spec (victim_result_ lm) lm0 Hinv0 eq_refl) as Hkill.
  destruct (kill_loop (victim_result_ lm) lm0) as [lm1|e]; cbn; [|done].
  destruct Hkill as ([Hwf1 Hag1] & (Hm1 & _ & _ & Hi & Hp & Hn) & _).
  unfold unlatchExclusive. rewrite Hm1; cbn. cbn in Hi, Hp, Hn.
  unfold acquire_requests; cbn. rewrite Hi, Hp, Hn.
  by split; [split; cbn; [split; cbn| |rewrite Hi|rewrite Hn]|].
Qed.

Lemma repeat_tries_safe n body : safe_body body → safe_body (repeat_tries n body).
Proof.
  intros Hbody. induction n as [|n IH]; intros lm Hlm; cbn; [done|].
  specialize (Hbody lm Hlm). destruct (body lm) as [lm1|e]; cbn; [|done].
  destruct Hbody as [Hlm1 Hp1]. specialize (IH lm1 Hlm1).
  destruct (repeat_tries n body lm1) as [lm2|e]; [|done].
  destruct IH as [? Hp2]. split; [done|]. by rewrite Hp2.
Qed.

Lemma run_iteration_safe f : safe_body (run_iteration f).
Proof.
  intros lm Hlm. unfold run_iteration.
  pose proof (repeat_tries_safe (max_try_incoming f) _ incoming_try_safe lm Hlm) as H1.
  destruct (repeat_tries _ incoming_try lm) as [lm1|e]; cbn; [|done].
  destruct H1 as [Hlm1 Hp1].
  pose proof (repeat_tries_safe (max_try_incoming f) _ inner_try_safe lm1 Hlm1) as H2.
  destruct (repeat_tries _ inner_try lm1) as [lm2|e]; cbn; [|done].
  destruct H2 as [Hlm2 Hp2].
  pose proof (killVictims_safe lm2 Hlm2) as H3.
  destruct (killVictims lm2) as [lm3|e]; [|done].
  destruct H3 as [? Hp3]. split; [done|]. by rewrite Hp3, Hp2.
Qed.

(** ** The manager with its environment

    Clients push requests and take permitted ones, the detector thread
    publishes a batch of victims, and the manager runs a turn of its loop. *)
Inductive lm_step (f : flags) : LockManager → LockManager → Prop :=
| client_push lm req :
    valid_request req →
    lm_step f lm (set_queues lm (incoming_requests_ lm ++ [req])
                    (permitted_requests_ lm) (inner_pending_requests_ lm))
| client_take lm req rest :
    permitted_requests_ lm = req :: rest →
    lm_step f lm (set_queues lm (incoming_requests_ lm) rest
                    (inner_pending_requests_ lm))
| detector_publishes lm victims :
    lm_step f lm (set_detector lm kDone victims)
| manager_turn lm lm' :
    run_iteration f lm = Ok lm' → lm_step f lm lm'.

Lemma lm_step_ready f lm lm' : lm_step f lm lm' → lm_ready lm → lm_ready lm'.
Proof.
  intros Hstep Hready. destruct Hstep as [lm req Hreq|lm req rest _|lm vs|lm lm' Hrun].
  - destruct Hready as [Hinv ? ? ?]. split; cbn; [by destruct Hinv|done| |done].
    apply Forall_app; by repeat constructor.
  - destruct Hready as [Hinv ? ? ?]. split; cbn; [by destruct Hinv|done..].
  - destruct Hready as [Hinv ? ? ?]. split; cbn; [by destruct Hinv|done..].
  - pose proof (run_iteration_safe f lm Hready) as H. rewrite Hrun in H. by destruct H.
Qed.

Lemma new_lock_manager_ready : lm_ready new_lock_manager.
Proof. split; [|done|constructor..]. split; [apply empty_lock_table_wf|done]. Qed.

Lemma lm_reachable_ready f lm : rtc (lm_step f) new_lock_manager lm → lm_ready lm.
Proof.
  intros Hsteps. pose proof new_lock_manager_ready as Hready. revert Hready.
  induction Hsteps; eauto using lm_step_ready.
Qed.

(** C6. The manager's loop: from every state that requests, detector batches and
    turns of the loop can reach, a turn never fails a [CHECK], never blocks on
    its own latch and loses no acquire request (each is permitted, still
    waiting inside or still incoming); granted locks stay compatible and the
    two tables keep recording the same entries. *)
Theorem lock_manager_loop_safe f lm :
  rtc (lm_step f) new_lock_manager lm →
  (∀ rid, compat_list (owned (lock_table_ lm) rid)) ∧
  (∀ tid rid, held (lock_table_ lm) tid rid
              = recorded (transaction_table_ lm) tid rid) ∧
  match run_iteration f lm with
  | Ok lm' => acquire_requests lm' ≡ₚ acquire_requests lm
  | Err e => e = UndefinedBehaviour
  end.
Proof.
  intros Hready%lm_reachable_ready. destruct (ready_inv _ Hready) as [Hwf Hag].
  split_and!; [intros rid; apply (Hwf rid)|done|].
  pose proof (run_iteration_safe f lm Hready) as H.
  destruct (run_iteration f lm) as [lm'|e]; [apply H|done].
Qed.

(** ** Witnesses *)

Definition demo_tuple : ResourceId := mkResourceId 1 2 3 4.
Definition demo_flags : flags := mkFlags 2 5.

(** Transaction 7 asks for an exclusive lock on a tuple. *)
Definition demo_asked : LockManager :=
  set_queues new_lock_manager
    [mkLockRequest 7 demo_tuple kXLockMode kAcquireLock] [] [].

Definition demo_lm : LockManager :=
  match run_iteration demo_flags demo_asked with
  | Ok lm => lm
  | Err _ => new_lock_manager
  end.

Lemma demo_lm_reachable : rtc (lm_step demo_flags) new_lock_manager demo_lm.
Proof.
  eapply rtc_l.
  { apply (client_push _ _ (mkLockRequest 7 demo_tuple kXLockMode kAcquireLock)).
    intros _. reflexivity. }
  apply rtc_once. apply manager_turn. vm_compute. reflexivity.
Qed.

(** Transaction 7 has the tuple; transaction 8, which asks for a shared lock on
    its relation, gets the database and waits at the relation. *)
Lemma acquireLock_hierarchical_witness :
  ∃ lm', acquireLock 8 (ResourceId_rel 1 2) kSLockMode demo_lm = Ok (false, lm') ∧
    granted lm' 8 (ResourceId_db 1) kIsLockMode ∧
    waiting lm' 8 (ResourceId_rel 1 2) kSLockMode.
Proof.
  destruct (acquireLock_hierarchical 8 (ResourceId_rel 1 2) kSLockMode demo_lm
              eq_refl (ready_inv _ (lm_reachable_ready _ _ demo_lm_reachable))
              ltac:(vm_compute; reflexivity))
    as (b & lm' & Hacq & _ & _ & _ & _ & Hb).
  exists lm'. destruct b; [exfalso; revert Hacq; vm_compute; discriminate|].
  split; [exact Hacq|]. destruct Hb as (above & r & m & below & Hp & Ha & Hbl & Hw & _).
  destruct above as [|x above].
  { injection Hp as <- <- _. exfalso. destruct Hbl as [_ [Hn|He]].
    - apply Hn. vm_compute. reflexivity.
    - revert He. vm_compute. intros He. inversion He as [? ? Hx|? ? Hx]; [discriminate|inversion Hx]. }
  destruct above as [|y above]; [|by destruct above].
  injection Hp as <- <- <- _. split; [|exact Hw]. apply Ha. left.
Defined.

Lemma releaseAllLocks_complete_witness :
  mutex_ (lock_table_ demo_lm) = Unlatched ∧
  held (lock_table_ demo_lm) 7 demo_tuple = 1 ∧
  ∃ lm', releaseAllLocks 7 true demo_lm = Ok (true, lm') ∧
    owned (lock_table_ lm') demo_tuple = [].
Proof.
  split; [vm_compute; reflexivity|]. split; [vm_compute; reflexivity|].
  assert (lm_inv demo_lm) as Hinv
    by exact (ready_inv _ (lm_reachable_ready _ _ demo_lm_reachable)).
  assert (mutex_ (lock_table_ demo_lm) = Unlatched) as Hm by (vm_compute; reflexivity).
  pose proof (releaseAllLocks_complete 7 true demo_lm Hinv Hm) as H.
  destruct (releaseAllLocks 7 true demo_lm) as [[b lm']|e] eqn:Hrel.
  - destruct H as (-> & _ & _ & H & _). exists lm'. split; [reflexivity|].
    rewrite H. vm_compute. reflexivity.
  - exfalso. revert Hrel. vm_compute. discriminate.
Defined.

Lemma lock_manager_loop_safe_witness :
  rtc (lm_step demo_flags) new_lock_manager demo_lm ∧
  permitted_requests_ demo_lm = [mkLockRequest 7 demo_tuple kXLockMode kAcquireLock] ∧
  held (lock_table_ demo_lm) 7 demo_tuple
    = recorded (transaction_table_ demo_lm) 7 demo_tuple.
Proof.
  split; [exact demo_lm_reachable|]. split; [vm_compute; reflexivity|].
  exact (proj1 (proj2 (lock_manager_loop_safe demo_flags demo_lm demo_lm_reachable))
           7%Z demo_tuple).
Defined.
