(* ===== verification/DirectedGraph.v ===== *)
(** * The wait-for graph

    transaction/DirectedGraph.hpp: nodes carry a transaction id and a set of
    outgoing edges; a node id is the index of the node. *)

From stdpp Require Import options.
From S2P Require Import Prelude TxnData.

Abbreviation node_id := nat (only parsing).

Record DirectedGraphNode := mkNode {
  transaction_id_payload_ : transaction_id;
  outgoing_edges_ : gset nat;
}.

Record DirectedGraph := mkGraph { nodes_ : list DirectedGraphNode }.

Definition empty_graph : DirectedGraph := mkGraph [].

Definition getNumNodes (g : DirectedGraph) : nat := length (nodes_ g).

Definition addOutgoingEdge (nd : DirectedGraphNode) (to_node : node_id)
  : DirectedGraphNode :=
  mkNode (transaction_id_payload_ nd) ({[to_node]} ∪ outgoing_edges_ nd).

Definition hasOutgoingEdge (nd : DirectedGraphNode) (to_node : node_id) : bool :=
  bool_decide (to_node ∈ outgoing_edges_ nd).

Definition addNodeUnchecked (payload : transaction_id) (g : DirectedGraph)
  : node_id * DirectedGraph :=
  let g' := mkGraph (nodes_ g ++ [mkNode payload ∅]) in
  (getNumNodes g' - 1, g').

Definition addNodeCheckExists (payload : transaction_id) (g : DirectedGraph)
  : outcome (node_id * DirectedGraph) :=
  _ ← check (forallb (λ nd, negb (payload =? transaction_id_payload_ nd)%Z)
               (nodes_ g));
  let g' := mkGraph (nodes_ g ++ [mkNode payload ∅]) in
  Ok (getNumNodes g' - 1, g').

Definition addEdgeUnchecked (from_node to_node : node_id) (g : DirectedGraph)
  : outcome DirectedGraph :=
  nd ← vec_at (nodes_ g) from_node;
  Ok (mkGraph (<[from_node := addOutgoingEdge nd to_node]> (nodes_ g))).

Definition addEdgeCheckExists (from_node to_node : node_id) (g : DirectedGraph)
  : outcome DirectedGraph :=
  _ ← check (bool_decide (from_node < getNumNodes g ∧ to_node < getNumNodes g));
  addEdgeUnchecked from_node to_node g.

Definition hasEdge (from_node to_node : node_id) (g : DirectedGraph) : outcome bool :=
  nd ← vec_at (nodes_ g) from_node;
  Ok (hasOutgoingEdge nd to_node).

Definition getDataFromNode (node : node_id) (g : DirectedGraph)
  : outcome transaction_id :=
  nd ← vec_at (nodes_ g) node;
  Ok (transaction_id_payload_ nd).

Section adjacency.
Context `{!HashOrder nat}.

Definition getOutgoingEdges (nd : DirectedGraphNode) : list node_id :=
  set_iter (outgoing_edges_ nd).

Definition getAdjacentNodes (id : node_id) (g : DirectedGraph)
  : outcome (list node_id) :=
  nd ← vec_at (nodes_ g) id;
  Ok (getOutgoingEdges nd).
End adjacency.

(** ** Edges and paths *)

Definition edge (g : DirectedGraph) (x y : nat) : Prop :=
  ∃ nd, nodes_ g !! x = Some nd ∧ y ∈ outgoing_edges_ nd.

Abbreviation path g := (rtc (edge g)).

(** Mutual reachability. *)
Definition connected (g : DirectedGraph) (x y : nat) : Prop :=
  path g x y ∧ path g y x.

(** Edges end in nodes of the graph. *)
Definition graph_wf (g : DirectedGraph) : Prop :=
  ∀ x y, edge g x y → y < getNumNodes g.

#[global] Instance edge_dec g x y : Decision (edge g x y).
Proof.
  refine (match nodes_ g !! x as o return nodes_ g !! x = o → _ with
          | Some nd => λ H, cast_if (decide (y ∈ outgoing_edges_ nd))
          | None => λ H, right _
          end eq_refl).
  - by exists nd.
  - intros (nd' & Hx & Hy). naive_solver.
  - intros (nd' & Hx & Hy). naive_solver.
Defined.

Lemma edge_src g x y : edge g x y → x < getNumNodes g.
Proof. intros (nd & Hx & _). by eapply lookup_lt_Some. Qed.

Lemma getAdjacentNodes_spec `{!HashOrder nat} g x :
  x < getNumNodes g →
  ∃ adj, getAdjacentNodes x g = Ok adj ∧ NoDup adj ∧
         ∀ y, y ∈ adj ↔ edge g x y.
Proof.
  intros Hx. apply lookup_lt_is_Some_2 in Hx as [nd Hnd].
  exists (getOutgoingEdges nd). unfold getAdjacentNodes, getOutgoingEdges.
  rewrite (vec_at_Some _ _ _ Hnd). cbn. split_and!; [done|apply NoDup_set_iter|].
  intros y. rewrite elem_of_set_iter. unfold edge. naive_solver.
Qed.

Lemma addEdgeUnchecked_spec from to g :
  from < getNumNodes g →
  ∃ g', addEdgeUnchecked from to g = Ok g' ∧ getNumNodes g' = getNumNodes g ∧
    (∀ x y, edge g' x y ↔ edge g x y ∨ x = from ∧ y = to) ∧
    (∀ x, getDataFromNode x g' = getDataFromNode x g).
Proof.
  intros Hf. pose proof Hf as [nd Hnd]%lookup_lt_is_Some_2.
  unfold addEdgeUnchecked. rewrite (vec_at_Some _ _ _ Hnd). cbn.
  eexists; split; [reflexivity|]. unfold getNumNodes in *; cbn.
  rewrite length_insert. split_and!; [done|..].
  - intros x y. unfold edge; cbn. destruct (decide (x = from)) as [->|Hne].
    + setoid_rewrite list_lookup_insert_eq; [|done].
      split; [intros (? & [= <-] & Hy)|]; cbn in *; [set_solver|].
      intros [(nd' & ? & Hy)|[_ ->]]; eexists; (split; [done|]); set_solver.
    + setoid_rewrite list_lookup_insert_ne; [|done]. naive_solver.
  - intros x. unfold getDataFromNode, vec_at; cbn.
    destruct (decide (x = from)) as [->|Hne].
    + rewrite list_lookup_insert_eq by done. by rewrite Hnd.
    + by rewrite list_lookup_insert_ne.
Qed.

Lemma addNodeUnchecked_spec payload g :
  let '(id, g') := addNodeUnchecked payload g in
  id = getNumNodes g ∧ getNumNodes g' = S (getNumNodes g) ∧
  (∀ x y, edge g' x y ↔ edge g x y) ∧
  (∀ x, getDataFromNode x g' =
     if decide (x = getNumNodes g) then Ok payload else getDataFromNode x g).
Proof.
  unfold addNodeUnchecked, getNumNodes; cbn. rewrite length_app; cbn.
  split_and!; [lia..| |].
  - intros x y. unfold edge; cbn. split; intros (nd & Hx & Hy).
    + apply lookup_snoc_Some in Hx as [[_ Hx]|[_ <-]]; [by exists nd|set_solver].
    + exists nd. split; [|done]. by apply lookup_app_l_Some.
  - intros x. unfold getDataFromNode, vec_at; cbn. case_decide; subst.
    + by rewrite lookup_app_r, Nat.sub_diag by lia.
    + destruct (decide (x < length (nodes_ g))).
      * by rewrite lookup_app_l by lia.
      * rewrite !lookup_ge_None_2; [done|lia|rewrite length_app; cbn; lia].
Qed.
