(* ===== verification/StronglyConnected.v ===== *)
(** * Strongly connected components

    transaction/StronglyConnectedComponents.{hpp,cpp}: Tarjan's algorithm over
    the wait-for graph, in the variant that keeps one number per node,
    [low_ids_], which is the preorder number while the node is being searched,
    the smallest number seen once its search is over, and the number of nodes
    once its component is complete. *)

From stdpp Require Import options.
From S2P Require Import Prelude TxnData DirectedGraph.

Record SccState := mkScc {
  is_marked_ : list bool;
  component_ids_ : list nat;
  low_ids_ : list nat;
  traversal_stack_ : list nat;
  preorder_counter_ : nat;
  no_of_components_ : nat;
}.

Section scc.
Context `{!HashOrder nat}.

(** The members as the constructor initialises them. *)
Definition scc_init (g : DirectedGraph) : SccState :=
  mkScc (replicate (getNumNodes g) false) (replicate (getNumNodes g) 0)
    (replicate (getNumNodes g) 0) [] 0 0.

(** The [do ... while (w != v)] loop that pops a component. *)
Fixpoint pop_component (num_nodes no_of_components v : nat)
    (stack component_ids low_ids : list nat)
  : outcome (list nat * list nat * list nat) :=
  match stack with
  | [] => Err UndefinedBehaviour
  | w :: stack' =>
      component_ids ← vec_set component_ids w no_of_components;
      low_ids ← vec_set low_ids w num_nodes;
      if decide (w = v) then Ok (stack', component_ids, low_ids)
      else pop_component num_nodes no_of_components v stack' component_ids low_ids
  end.

(** The loop over the adjacent nodes, given the recursive call. *)
Fixpoint visit_adjacent (dfs : nat → SccState → outcome SccState)
    (adj : list nat) (min : nat) (st : SccState) : outcome (nat * SccState) :=
  match adj with
  | [] => Ok (min, st)
  | w :: adj' =>
      marked ← vec_at (is_marked_ st) w;
      st ← (if marked : bool then Ok st else dfs w st);
      low_w ← vec_at (low_ids_ st) w;
      visit_adjacent dfs adj' (if low_w <? min then low_w else min) st
  end.

Fixpoint depthFirstSearch (g : DirectedGraph) (fuel v : nat) (st : SccState)
  : outcome SccState :=
  match fuel with
  | 0 => Err OutOfFuel
  | S fuel =>
      is_marked ← vec_set (is_marked_ st) v true;
      low_ids ← vec_set (low_ids_ st) v (preorder_counter_ st);
      let st := mkScc is_marked (component_ids_ st) low_ids
                  (v :: traversal_stack_ st) (S (preorder_counter_ st))
                  (no_of_components_ st) in
      min ← vec_at (low_ids_ st) v;
      adj ← getAdjacentNodes v g;
      '(min, st) ← visit_adjacent (depthFirstSearch g fuel) adj min st;
      low_v ← vec_at (low_ids_ st) v;
      if min <? low_v then
        low_ids ← vec_set (low_ids_ st) v min;
        Ok (mkScc (is_marked_ st) (component_ids_ st) low_ids
              (traversal_stack_ st) (preorder_counter_ st) (no_of_components_ st))
      else
        '(stack, component_ids, low_ids) ←
          pop_component (getNumNodes g) (no_of_components_ st) v
            (traversal_stack_ st) (component_ids_ st) (low_ids_ st);
        Ok (mkScc (is_marked_ st) component_ids low_ids stack
              (preorder_counter_ st) (S (no_of_components_ st)))
  end.

(** The search is entered at most once per node, so the number of nodes is
    fuel enough. *)
Fixpoint search_from (g : DirectedGraph) (vs : list nat) (st : SccState)
  : outcome SccState :=
  match vs with
  | [] => Ok st
  | v :: vs' =>
      marked ← vec_at (is_marked_ st) v;
      st ← (if marked : bool then Ok st
            else depthFirstSearch g (getNumNodes g) v st);
      search_from g vs' st
  end.

Definition findStronglyConnectedComponents (g : DirectedGraph) : outcome SccState :=
  search_from g (seq 0 (getNumNodes g)) (scc_init g).
End scc.

Definition getComponentId (st : SccState) (v : node_id) : outcome nat :=
  vec_at (component_ids_ st) v.
Definition getTotalComponents (st : SccState) : nat := no_of_components_ st.

(** [component_mapping[component_ids_[i]].push_back(i)] for every node. *)
Definition getComponentMapping (st : SccState) : gmap nat (list nat) :=
  foldl (λ m '(i, c), <[c := default [] (m !! c) ++ [i]]> m) ∅
    (zip (seq 0 (length (component_ids_ st))) (component_ids_ st)).

(** ** Correctness *)

Section proof.
Context (g : DirectedGraph).

Abbreviation n := (getNumNodes g).

Definition marked (st : SccState) (v : nat) : Prop :=
  is_marked_ st !! v = Some true.
Definition low (st : SccState) (v : nat) : nat := low_ids_ st !!! v.
Definition comp (st : SccState) (v : nat) : nat := component_ids_ st !!! v.

(** The node's component is complete. *)
Definition finished (st : SccState) (v : nat) : Prop :=
  marked st v ∧ v ∉ traversal_stack_ st.

Definition unmarked (st : SccState) : nat :=
  length (filter (λ b : bool, b = false) (is_marked_ st)).

(** The invariant of the search.  [num] gives the preorder numbers, [G] the
    nodes whose search is under way. *)
Record scc_inv (st : SccState) (num : nat → nat) (G : list nat) : Prop := {
  si_len_marked : length (is_marked_ st) = n;
  si_len_comp : length (component_ids_ st) = n;
  si_len_low : length (low_ids_ st) = n;
  si_counter : preorder_counter_ st + unmarked st = n;
  si_num v : marked st v → num v < preorder_counter_ st;
  si_sorted : StronglySorted (λ x y, num y < num x) (traversal_stack_ st);
  si_stack v : v ∈ traversal_stack_ st → marked st v;
  si_gray v : v ∈ G → v ∈ traversal_stack_ st ∧ low st v = num v;
  si_black x : x ∈ traversal_stack_ st → x ∉ G →
    ∃ y, y ∈ traversal_stack_ st ∧ num y < num x ∧ low st x = num y ∧ path g x y;
  si_succ x y : marked st x → x ∉ G → edge g x y → marked st y;
  si_older x y : x ∈ traversal_stack_ st → y ∈ traversal_stack_ st →
    num x ≤ num y → path g x y;
  si_done_low x : finished st x → low st x = n ∧ comp st x < no_of_components_ st;
  si_done_closed x y : finished st x → edge g x y → finished st y;
  si_done_comp x y : finished st x → finished st y →
    comp st x = comp st y ↔ connected g x y;
}.

Lemma marked_lt st num G v : scc_inv st num G → marked st v → v < n.
Proof.
  intros Hinv Hm. rewrite <- (si_len_marked _ _ _ Hinv). by eapply lookup_lt_Some.
Qed.

Lemma stack_num_lt st num G v :
  scc_inv st num G → v ∈ traversal_stack_ st → num v < n.
Proof.
  intros Hinv Hv. pose proof (si_num _ _ _ Hinv v (si_stack _ _ _ Hinv v Hv)).
  pose proof (si_counter _ _ _ Hinv). lia.
Qed.

Lemma finished_path st num G x y :
  scc_inv st num G → finished st x → path g x y → finished st y.
Proof. intros Hinv Hx Hp. induction Hp; eauto using si_done_closed. Qed.

(** Every node on the stack reaches a node under search that is not newer. *)
Lemma stack_reaches_gray st num G x :
  scc_inv st num G → x ∈ traversal_stack_ st →
  ∃ y, y ∈ G ∧ path g x y ∧ num y ≤ num x.
Proof.
  intros Hinv. remember (num x) as k eqn:Hk. revert x Hk.
  induction k as [k IH] using lt_wf_ind. intros x -> Hx.
  destruct (decide (x ∈ G)) as [HG|HG]; [by exists x|].
  destruct (si_black _ _ _ Hinv x Hx HG) as (y & Hy & Hlt & _ & Hp).
  destruct (IH (num y) Hlt y eq_refl Hy) as (z & Hz & Hp' & Hle).
  exists z. split_and!; [done|by etrans|lia].
Qed.

(** What a node on the stack has in [low_ids_]: the number of a node of the
    stack it reaches, not newer than itself. *)
Lemma low_in_stack st num G w :
  scc_inv st num G → w ∈ traversal_stack_ st →
  ∃ y, y ∈ traversal_stack_ st ∧ path g w y ∧ low st w = num y ∧ num y ≤ num w.
Proof.
  intros Hinv Hw. destruct (decide (w ∈ G)) as [HG|HG].
  - destruct (si_gray _ _ _ Hinv w HG) as [_ Hl]. by exists w.
  - destruct (si_black _ _ _ Hinv w Hw HG) as (y & ? & ? & ? & ?).
    exists y. split_and!; [done..|lia].
Qed.

(** The state while the adjacent nodes of [v] are visited: [st0] and [num0] are
    the state and the numbers before the search of [v], [P] the adjacent nodes
    already visited and [m] the local [min]. *)
Record visiting (st0 : SccState) (num0 : nat → nat) (v : nat) (G : list nat)
    (st : SccState) (num : nat → nat) (m : nat) (P : list nat) : Prop := {
  vi_inv : scc_inv st num (v :: G);
  vi_fresh : ¬ marked st0 v;
  vi_gray x : x ∈ G → x ∈ traversal_stack_ st0;
  vi_old x : x ∈ traversal_stack_ st0 → marked st0 x;
  vi_stack : ∃ s, traversal_stack_ st = s ++ v :: traversal_stack_ st0 ∧
    (∀ x, x ∈ s → ¬ marked st0 x) ∧
    (∀ x z, x ∈ s → z ∈ traversal_stack_ st0 → edge g x z → m ≤ num z);
  vi_num x : marked st0 x → num x = num0 x ∧ marked st x;
  vi_min : m ≤ num v ∧ ∃ y, y ∈ traversal_stack_ st ∧ path g v y ∧ m = num y;
  vi_adj w : w ∈ P →
    marked st w ∧ (w ∈ traversal_stack_ st0 → m ≤ num w);
  vi_counter : preorder_counter_ st0 < preorder_counter_ st;
}.

(** What the search of [v] leaves. *)
Record dfs_post (st0 : SccState) (num0 : nat → nat) (v : nat) (G : list nat)
    (st : SccState) (num : nat → nat) : Prop := {
  dp_inv : scc_inv st num G;
  dp_marked : marked st v;
  dp_stack : ∃ s, traversal_stack_ st = s ++ traversal_stack_ st0 ∧
    (∀ x, x ∈ s → ¬ marked st0 x) ∧
    (∀ x z, x ∈ s → z ∈ traversal_stack_ st0 → edge g x z → low st v ≤ num z);
  dp_num x : marked st0 x → num x = num0 x ∧ marked st x;
  dp_counter : preorder_counter_ st0 < preorder_counter_ st;
}.

(** ** Visiting an adjacent node *)

Lemma visiting_min st num v G w m :
  scc_inv st num (v :: G) → marked st w → edge g v w → m ≤ num v →
  (∃ y, y ∈ traversal_stack_ st ∧ path g v y ∧ m = num y) →
  Nat.min m (low st w) ≤ num v ∧
  (∃ y, y ∈ traversal_stack_ st ∧ path g v y ∧ Nat.min m (low st w) = num y) ∧
  (w ∈ traversal_stack_ st → Nat.min m (low st w) ≤ num w).
Proof.
  intros Hinv Hw He Hm (y & Hy & Hp & ->).
  assert (num y < n) by eauto using stack_num_lt.
  destruct (decide (w ∈ traversal_stack_ st)) as [Hs|Hs].
  - destruct (low_in_stack _ _ _ _ Hinv Hs) as (y' & Hy' & Hp' & -> & Hle).
    split_and!; [lia| |lia].
    destruct (Nat.min_spec (num y) (num y')) as [[_ ->]|[_ ->]]; [by exists y|].
    exists y'. split_and!; [done| |done]. by eapply rtc_l.
  - destruct (si_done_low _ _ _ Hinv w) as [-> _]; [by split|].
    rewrite Nat.min_l by lia. split_and!; [lia|by exists y|done].
Qed.

Lemma visiting_marked st0 num0 v G st num m P w :
  visiting st0 num0 v G st num m P → marked st w → edge g v w →
  visiting st0 num0 v G st num (Nat.min m (low st w)) (P ++ [w]).
Proof.
  intros [Hinv Hf HG Ho (s & Hs & Hs1 & Hs2) Hn [Hm1 Hm2] Ha Hc] Hw He.
  destruct (visiting_min _ _ _ _ _ _ Hinv Hw He Hm1 Hm2) as (Hm3 & Hm4 & Hm5).
  split; [done..| |done|done| |done].
  - exists s. split_and!; [done..|]. intros x z Hx Hz Hxz.
    specialize (Hs2 x z Hx Hz Hxz). lia.
  - intros u [Hu|Hu%list_elem_of_singleton]%elem_of_app; [|subst u].
    + destruct (Ha u Hu) as [? Hu']. split; [done|]. intros Hu0.
      specialize (Hu' Hu0). lia.
    + split; [done|]. intros Hw0. apply Hm5. rewrite Hs. set_solver.
Qed.

Lemma visiting_after_dfs st0 num0 v G st num m P w st' num' :
  visiting st0 num0 v G st num m P → edge g v w →
  dfs_post st num w (v :: G) st' num' →
  visiting st0 num0 v G st' num' (Nat.min m (low st' w)) (P ++ [w]).
Proof.
  intros [Hinv Hf HG Ho (s & Hs & Hs1 & Hs2) Hn [Hm1 Hm2] Ha Hc] He
    [Hinv' Hw (s' & Hs' & Hs1' & Hs2') Hn' Hc'].
  assert (∀ x, x ∈ traversal_stack_ st → num' x = num x) as Hst.
  { intros x Hx. by apply Hn', (si_stack _ _ _ Hinv). }
  assert (∀ x, x ∈ traversal_stack_ st0 → x ∈ traversal_stack_ st) as Hsub.
  { intros x Hx. rewrite Hs. set_solver. }
  assert (num' v = num v) as Hv by (apply Hst; rewrite Hs; set_solver).
  destruct (visiting_min st' num' v G w m) as (Hm3 & Hm4 & Hm5); [done..|lia| |].
  { destruct Hm2 as (y & Hy & Hp & ->). exists y. rewrite Hs', Hst by done.
    split_and!; [set_solver|done..]. }
  split; [done..| |  |done| |lia].
  - exists (s' ++ s). rewrite <- app_assoc, <- Hs. split_and!; [done|..].
    + intros x [Hx|Hx]%elem_of_app; [|by auto]. intros Hx0.
      by apply (Hs1' x Hx), Hn.
    + intros x z [Hx|Hx]%elem_of_app Hz Hxz; rewrite Hst by auto.
      * specialize (Hs2' x z Hx (Hsub z Hz) Hxz). rewrite Hst in Hs2' by auto. lia.
      * specialize (Hs2 x z Hx Hz Hxz). lia.
  - intros x Hx. destruct (Hn x Hx) as [Hx1 Hx2]. destruct (Hn' x Hx2) as [Hx3 ?].
    split; [congruence|done].
  - intros u [Hu|Hu%list_elem_of_singleton]%elem_of_app; [|subst u].
    + destruct (Ha u Hu) as [Hu1 Hu2]. split; [by apply Hn'|]. intros Hu0.
      specialize (Hu2 Hu0). rewrite Hst by auto. lia.
    + split; [done|]. intros Hw0. apply Hm5. rewrite Hs'. set_solver.
Qed.

(** ** Entering the search of a node *)

Lemma length_filter_insert (l : list bool) i :
  l !! i = Some false →
  S (length (filter (λ b : bool, b = false) (<[i := true]> l))) =
  length (filter (λ b : bool, b = false) l).
Proof.
  revert i. induction l as [|b l IH]; intros [|i] Hi; [done..| |].
  - injection Hi as ->. done.
  - change (<[S i := true]> (b :: l)) with (b :: <[i := true]> l).
    rewrite !filter_cons. case_decide; cbn [length]; by rewrite IH.
Qed.

Definition enter (v : nat) (st : SccState) : SccState :=
  mkScc (<[v := true]> (is_marked_ st)) (component_ids_ st)
    (<[v := preorder_counter_ st]> (low_ids_ st)) (v :: traversal_stack_ st)
    (S (preorder_counter_ st)) (no_of_components_ st).

Definition number (num : nat → nat) (v c : nat) : nat → nat :=
  λ x, if decide (x = v) then c else num x.

Lemma number_eq num v c : number num v c v = c.
Proof. unfold number. by case_decide. Qed.
Lemma number_ne num v c x : x ≠ v → number num v c x = num x.
Proof. unfold number. by case_decide. Qed.

Lemma marked_enter st v x :
  v < length (is_marked_ st) → marked (enter v st) x ↔ x = v ∨ marked st x.
Proof.
  intros Hv. unfold marked; cbn. rewrite list_lookup_insert. case_decide; naive_solver.
Qed.

Lemma low_enter_ne st v x : x ≠ v → low (enter v st) x = low st x.
Proof. intros. unfold low; cbn. by apply list_lookup_total_insert_ne. Qed.

Lemma low_enter_eq st v :
  v < length (low_ids_ st) → low (enter v st) v = preorder_counter_ st.
Proof. intros. unfold low; cbn. by apply list_lookup_total_insert_eq. Qed.

Lemma not_marked_false st v :
  v < length (is_marked_ st) → ¬ marked st v → is_marked_ st !! v = Some false.
Proof.
  intros [[] Hb]%lookup_lt_is_Some_2 Hm; [|done]. by destruct Hm.
Qed.

Lemma enter_inv st num G v :
  scc_inv st num G → v < n → ¬ marked st v → (∀ x, x ∈ G → path g x v) →
  scc_inv (enter v st) (number num v (preorder_counter_ st)) (v :: G).
Proof.
  intros Hinv Hv Hm HG. pose proof Hinv as
    [Hl1 Hl2 Hl3 Hc Hn Hso Hst Hgr Hbl Hsu Hol Hd1 Hd2 Hd3].
  assert (∀ x, marked st x → x ≠ v) as Hne by naive_solver.
  assert (∀ x, marked st x → number num v (preorder_counter_ st) x = num x) as Hnum.
  { intros x Hx. apply number_ne; auto. }
  assert (∀ x, finished (enter v st) x ↔ finished st x) as Hfin.
  { intros x. unfold finished. rewrite marked_enter by lia. cbn. set_solver. }
  split; cbn; rewrite ?length_insert; try done.
  - unfold unmarked in *; cbn.
    pose proof (length_filter_insert (is_marked_ st) v) as Hf.
    rewrite <- Hf in Hc by (apply not_marked_false; [lia|done]). lia.
  - intros x. rewrite marked_enter by lia. intros [->|Hx].
    + rewrite number_eq. lia.
    + rewrite Hnum by done. specialize (Hn x Hx). lia.
  - constructor.
    + clear - Hso Hst Hnum. induction Hso as [|x l Hl IH Hx]; constructor.
      * apply IH; set_solver.
      * rewrite Forall_forall in Hx |- *. intros y Hy.
        rewrite !Hnum by set_solver. by apply Hx.
    + apply Forall_forall. intros y Hy. rewrite number_eq, Hnum by auto. auto.
  - intros x [->|Hx]%elem_of_cons; apply marked_enter; auto with lia.
  - intros x [->|Hx]%elem_of_cons.
    + rewrite number_eq, low_enter_eq by lia. split; [set_solver|done].
    + destruct (Hgr x Hx) as [Hx1 Hx2].
      rewrite Hnum, low_enter_ne by auto. split; [set_solver|done].
  - intros x [->|Hx]%elem_of_cons HxG; [set_solver|].
    destruct (Hbl x Hx) as (y & Hy & ? & ? & ?); [set_solver|].
    exists y. rewrite !Hnum, low_enter_ne by auto. split_and!; [set_solver|done..].
  - intros x y. rewrite !marked_enter by lia. intros [->|Hx] HxG Hxy; [set_solver|].
    right. eapply Hsu; [done|set_solver|done].
  - intros x y [->|Hx]%elem_of_cons [->|Hy]%elem_of_cons; [done|..].
    + rewrite number_eq, Hnum by auto. intros Hle.
      specialize (Hn y (Hst y Hy)). lia.
    + intros _. destruct (stack_reaches_gray _ _ _ _ Hinv Hx) as (z & Hz & Hp & _).
      etrans; eauto.
    + rewrite !Hnum by auto. auto.
  - intros x Hx%Hfin. rewrite low_enter_ne; [by apply Hd1|]. apply Hne, Hx.
  - intros x y Hx%Hfin Hxy. apply Hfin. eauto.
  - intros x y Hx%Hfin Hy%Hfin. by apply Hd3.
Qed.

Lemma enter_visiting st num G v :
  scc_inv st num G → v < n → ¬ marked st v → (∀ x, x ∈ G → path g x v) →
  visiting st num v G (enter v st) (number num v (preorder_counter_ st))
    (preorder_counter_ st) [].
Proof.
  intros Hinv Hv Hm HG. split; [by apply enter_inv|done|..].
  - intros x Hx. by apply (si_gray _ _ _ Hinv).
  - apply (si_stack _ _ _ Hinv).
  - exists []. cbn. split_and!; [done|set_solver..].
  - intros x Hx. rewrite number_ne by naive_solver. split; [done|].
    apply marked_enter; [by rewrite (si_len_marked _ _ _ Hinv)|by right].
  - rewrite number_eq. split; [done|]. exists v. rewrite number_eq. cbn. set_solver.
  - set_solver.
  - cbn. lia.
Qed.

(** ** Leaving the search of a node *)

Lemma visiting_order st0 num0 v G st num m P :
  visiting st0 num0 v G st num m P →
  ∃ s, traversal_stack_ st = s ++ v :: traversal_stack_ st0 ∧
    (∀ x, x ∈ s → num v < num x) ∧
    (∀ x, x ∈ traversal_stack_ st0 → num x < num v) ∧
    (∀ x z, x ∈ s → z ∈ traversal_stack_ st0 → edge g x z → m ≤ num z) ∧
    (∀ x, x ∈ s → ¬ marked st0 x) ∧ v ∉ G.
Proof.
  intros Hvi. destruct (vi_stack _ _ _ _ _ _ _ _ Hvi) as (s & Hs & Hs1 & Hs2).
  pose proof (si_sorted _ _ _ (vi_inv _ _ _ _ _ _ _ _ Hvi)) as Hso.
  rewrite Hs in Hso. exists s. split_and!; [done|..|done|done|].
  - intros x Hx. by eapply (StronglySorted_app_1_elem_of _ _ _ x v) in Hso; [|set_solver..].
  - intros x Hx. apply StronglySorted_app_1_r in Hso.
    apply StronglySorted_inv in Hso as [_ Hso]. rewrite Forall_forall in Hso. auto.
  - intros HvG. apply (vi_fresh _ _ _ _ _ _ _ _ Hvi).
    by eapply vi_old, vi_gray.
Qed.

Definition set_low (v m : nat) (st : SccState) : SccState :=
  mkScc (is_marked_ st) (component_ids_ st) (<[v := m]> (low_ids_ st))
    (traversal_stack_ st) (preorder_counter_ st) (no_of_components_ st).

Lemma finish_black st0 num0 v G st num m P :
  visiting st0 num0 v G st num m P → (∀ w, edge g v w → w ∈ P) → m < num v →
  dfs_post st0 num0 v G (set_low v m st) num.
Proof.
  intros Hvi HP Hlt.
  destruct (visiting_order _ _ _ _ _ _ _ _ Hvi) as (s & Hs & Hs1 & Hs2 & Hs3 & Hs4 & HvG).
  destruct Hvi as [Hinv Hf HG Ho _ Hn [_ (y0 & Hy0 & Hp0 & Hm0)] Ha Hc].
  pose proof Hinv as [Hl1 Hl2 Hl3 Hct Hnu Hso Hst Hgr Hbl Hsu Hol Hd1 Hd2 Hd3].
  assert (v ∈ traversal_stack_ st) as Hvs by (rewrite Hs; set_solver).
  assert (∀ x, x ≠ v → low (set_low v m st) x = low st x) as Hlow.
  { intros x ?. unfold low; cbn. by apply list_lookup_total_insert_ne. }
  assert (low (set_low v m st) v = m) as Hlowv.
  { unfold low; cbn. apply list_lookup_total_insert_eq. rewrite Hl3.
    eapply marked_lt; eauto. }
  split; cbn; [|by apply Hst| |done|lia].
  - split; cbn; rewrite ?length_insert; try done.
    + intros x Hx. rewrite Hlow by naive_solver. apply Hgr. set_solver.
    + intros x Hx HxG. destruct (decide (x = v)) as [->|].
      * exists y0. rewrite Hlowv. split_and!; [done|lia|done..].
      * rewrite Hlow by done. apply Hbl; set_solver.
    + intros x y Hx HxG Hxy. destruct (decide (x = v)) as [->|].
      * by apply Ha, HP.
      * eapply Hsu; [done|set_solver|done].
    + intros x [Hx1 Hx2]. rewrite Hlow by (by intros ->). by apply Hd1.
  - exists (s ++ [v]). rewrite <- app_assoc. split_and!; [done|set_solver|].
    intros x z [Hx|Hx%list_elem_of_singleton]%elem_of_app Hz Hxz; rewrite Hlowv;
      [|subst x].
    + eauto.
    + by apply Ha; [apply HP|].
Qed.

Lemma pop_component_spec N c v s rest comps lows :
  v ∉ s → (∀ x, x ∈ s ++ [v] → x < length comps ∧ x < length lows) →
  ∃ comps' lows', pop_component N c v (s ++ v :: rest) comps lows
                  = Ok (rest, comps', lows') ∧
    length comps' = length comps ∧ length lows' = length lows ∧
    (∀ x, comps' !!! x = if decide (x ∈ s ++ [v]) then c else comps !!! x) ∧
    (∀ x, lows' !!! x = if decide (x ∈ s ++ [v]) then N else lows !!! x).
Proof.
  revert comps lows. induction s as [|w s IH]; intros comps lows Hv Hlen; cbn.
  - destruct (Hlen v) as [H1 H2]; [set_solver|].
    rewrite !vec_set_lt by done; cbn. rewrite decide_True by done.
    eexists _, _; split; [done|]. rewrite !length_insert. split_and!; [done..| |];
      intros x; rewrite list_lookup_total_insert; repeat case_decide; set_solver.
  - destruct (Hlen w) as [H1 H2]; [set_solver|].
    rewrite !vec_set_lt by done; cbn. rewrite decide_False by set_solver.
    destruct (IH (<[w:=c]> comps) (<[w:=N]> lows))
      as (comps' & lows' & -> & Hl1 & Hl2 & Hc & Hl); [set_solver| |].
    { intros x Hx. rewrite !length_insert. apply Hlen. set_solver. }
    rewrite !length_insert in *.
    eexists _, _; split; [done|]. split_and!; [done..| |];
      intros x; rewrite ?Hc, ?Hl, list_lookup_total_insert;
      repeat case_decide; set_solver.
Qed.

Section finish_root.
Context (st0 st : SccState) (num0 num : nat → nat) (v m : nat) (G P s : list nat).
Context (Hvi : visiting st0 num0 v G st num m P).
Context (HP : ∀ w, edge g v w → w ∈ P) (Hm : m = num v).
Context (Hs : traversal_stack_ st = s ++ v :: traversal_stack_ st0).

Abbreviation segment := (s ++ [v]).

Lemma segment_order :
  (∀ x, x ∈ segment → num v ≤ num x ∧ x ∈ traversal_stack_ st ∧
        (x ∉ traversal_stack_ st0) ∧ ¬ marked st0 x) ∧
  (∀ x, x ∈ traversal_stack_ st0 → num x < num v) ∧ (v ∉ G) ∧ v ∉ s.
Proof using Hvi HP Hm Hs.
  destruct (visiting_order _ _ _ _ _ _ _ _ Hvi)
    as (s' & Hs' & Hs1 & Hs2 & _ & Hs4 & HvG).
  rewrite Hs in Hs'. apply app_inv_tail in Hs' as <-.
  assert (∀ x, x ∈ segment → num v ≤ num x) as Hle.
  { intros x [Hx|Hx%list_elem_of_singleton]%elem_of_app; [|subst x; done].
    specialize (Hs1 x Hx). lia. }
  split_and!; [|done|done|].
  - intros x Hx. split_and!; [auto|rewrite Hs; set_solver| |].
    + intros Hx0. specialize (Hs2 x Hx0). specialize (Hle x Hx). lia.
    + apply elem_of_app in Hx as [Hx|Hx%list_elem_of_singleton]; [auto|subst x].
      by eapply vi_fresh.
  - intros Hv. specialize (Hs1 v Hv). lia.
Qed.

Lemma segment_step x z :
  x ∈ segment → edge g x z → z ∈ segment ∨ finished st z.
Proof using Hvi HP Hm Hs.
  intros Hx Hxz. pose proof segment_order as (Hseg & Hold & HvG & Hvs).
  pose proof (vi_inv _ _ _ _ _ _ _ _ Hvi) as Hinv.
  destruct (visiting_order _ _ _ _ _ _ _ _ Hvi) as (s' & Hs' & _ & _ & Hs3 & _).
  rewrite Hs in Hs'. apply app_inv_tail in Hs' as <-.
  assert (marked st z ∧ (z ∈ traversal_stack_ st0 → m ≤ num z)) as [Hz1 Hz2].
  { destruct (decide (x = v)) as [->|Hne].
    - apply (vi_adj _ _ _ _ _ _ _ _ Hvi). auto.
    - split; [|intros; apply (Hs3 x z); set_solver].
      destruct (Hseg x Hx) as (_ & Hxs & Hx0 & _).
      eapply (si_succ _ _ _ Hinv x z); [|intros [?|Hx']%elem_of_cons|done].
      + by apply (si_stack _ _ _ Hinv).
      + done.
      + by eapply Hx0, vi_gray. }
  destruct (decide (z ∈ traversal_stack_ st)) as [Hzs|Hzs]; [|by right; split].
  left. rewrite Hs in Hzs. assert (z ∉ traversal_stack_ st0); [|set_solver].
  intros Hz0. specialize (Hz2 Hz0). specialize (Hold z Hz0). lia.
Qed.

Lemma segment_path x z :
  path g x z → x ∈ segment → z ∈ segment ∨ finished st z.
Proof using Hvi HP Hm Hs.
  pose proof (vi_inv _ _ _ _ _ _ _ _ Hvi) as Hinv.
  induction 1 as [x|x y z Hxy Hyz IH]; [by left|]. intros Hx.
  destruct (segment_step x y Hx Hxy) as [Hy|Hy]; [by auto|].
  right. by eapply finished_path.
Qed.

Lemma segment_connected x : x ∈ segment → connected g v x.
Proof using Hvi HP Hm Hs.
  pose proof segment_order as (Hseg & _ & _ & _).
  pose proof (vi_inv _ _ _ _ _ _ _ _ Hvi) as Hinv.
  intros Hx. split.
  { apply (si_older _ _ _ Hinv); [|by apply Hseg..]. apply Hseg. set_solver. }
  remember (num x) as k eqn:Hk. revert x Hk Hx.
  induction k as [k IH] using lt_wf_ind. intros x -> Hx.
  destruct (decide (x = v)) as [->|Hne]; [done|].
  destruct (si_black _ _ _ Hinv x) as (y & Hy & Hlt & _ & Hp).
  { by apply Hseg. }
  { destruct (Hseg x Hx) as (_ & _ & Hx0 & _).
    intros [?|HxG]%elem_of_cons; [done|]. by eapply Hx0, vi_gray. }
  etrans; [exact Hp|]. eapply (IH (num y)); [done..|].
  destruct (segment_path x y Hp Hx) as [|[_ []]]; done.
Qed.

Lemma finish_root comps lows :
  length comps = length (component_ids_ st) → length lows = length (low_ids_ st) →
  (∀ x, comps !!! x = if decide (x ∈ segment) then no_of_components_ st else comp st x) →
  (∀ x, lows !!! x = if decide (x ∈ segment) then n else low st x) →
  dfs_post st0 num0 v G
    (mkScc (is_marked_ st) comps lows (traversal_stack_ st0) (preorder_counter_ st)
       (S (no_of_components_ st))) num.
Proof using Hvi HP Hm Hs.
  intros Hlc Hll Hco Hlo. set (st2 := mkScc _ _ _ _ _ _).
  pose proof segment_order as (Hseg & Hold & HvG & Hvs).
  pose proof segment_step as Hstep. pose proof segment_connected as Hconn.
  destruct Hvi as [Hinv Hf HG Ho _ Hn _ Ha Hc].
  pose proof Hinv as [Hl1 Hl2 Hl3 Hct Hnu Hso Hst Hgr Hbl Hsu Hol Hd1 Hd2 Hd3].
  assert (∀ x, x ∈ traversal_stack_ st0 → x ∉ segment) as Hns.
  { intros x Hx Hx'. by destruct (Hseg x Hx') as (_ & _ & ? & _). }
  assert (∀ x, finished st x → x ∉ segment) as Hfs.
  { intros x [_ Hx] Hx'. by destruct (Hseg x Hx') as (_ & ? & _ & _). }
  assert (∀ x, finished st2 x ↔ x ∈ segment ∨ finished st x) as Hfin.
  { intros x. unfold finished; cbn. split.
    - intros [Hx1 Hx2]. destruct (decide (x ∈ traversal_stack_ st)) as [Hxs|]; [|by right].
      left. rewrite Hs in Hxs. set_solver.
    - intros [Hx|[Hx1 Hx2]].
      { destruct (Hseg x Hx) as (_ & ? & ? & _). split; [by apply Hst|done]. }
      split; [done|]. rewrite Hs in Hx2. set_solver. }
  split; cbn; [|by apply Hst, Hseg; set_solver|by exists []; set_solver|done|lia].
  split; cbn; try congruence; try done.
  - rewrite Hs in Hso. by apply StronglySorted_app_1_r, StronglySorted_inv in Hso as [? _].
  - intros x Hx. by apply Hn, Ho.
  - intros x Hx. split; [auto|]. unfold low; cbn. rewrite Hlo, decide_False by auto.
    apply Hgr. set_solver.
  - intros x Hx HxG. specialize (Hns x Hx) as Hxn. specialize (Hold x Hx) as Hxl.
    destruct (Hbl x) as (y & Hy & Hyl & Hyx & Hp).
    { rewrite Hs. set_solver. } { intros [->|?]%elem_of_cons; [lia|done]. }
    exists y. unfold low; cbn. rewrite Hlo, decide_False by done.
    split_and!; [|done..]. rewrite Hs in Hy. assert (y ∉ segment); [|set_solver].
    intros Hy'. destruct (Hseg y Hy') as [? _]. lia.
  - intros x y Hx HxG Hxy. destruct (decide (x = v)) as [->|].
    + by apply Ha, HP.
    + eapply Hsu; [done|set_solver|done].
  - intros x y Hx Hy Hle. apply Hol; [rewrite Hs; set_solver..|done].
  - intros x Hx. unfold low, comp; cbn. rewrite Hlo, Hco.
    apply Hfin in Hx as [Hx|Hx]; [rewrite !decide_True by done; lia|].
    rewrite !decide_False by auto. destruct (Hd1 x Hx). lia.
  - intros x y Hx Hxy. apply Hfin. apply Hfin in Hx as [Hx|Hx]; [eauto|right; eauto].
  - intros x y Hx Hy. unfold comp; cbn. rewrite !Hco.
    apply Hfin in Hx as [Hx|Hx], Hy as [Hy|Hy].
    + rewrite !decide_True by done. split; [intros _|done].
      destruct (Hconn x Hx), (Hconn y Hy). by split; etrans.
    + rewrite decide_True, decide_False by auto. destruct (Hd1 y Hy) as [_ Hlt].
      split; [intros; lia|]. intros [_ Hp]. by destruct (Hfs x); [eapply finished_path|].
    + rewrite decide_False, decide_True by auto. destruct (Hd1 x Hx) as [_ Hlt].
      split; [intros; lia|]. intros [Hp _]. by destruct (Hfs y); [eapply finished_path|].
    + rewrite !decide_False by auto. by apply Hd3.
Qed.
End finish_root.

End proof.

(** ** The search *)

#[local] Arguments Nat.ltb : simpl never.

Section search.
Context `{!HashOrder nat} (g : DirectedGraph).

Lemma min_update low_w m : (if low_w <? m then low_w else m) = Nat.min m low_w.
Proof. destruct (Nat.ltb_spec low_w m); lia. Qed.

Lemma vec_at_low st num G v :
  scc_inv g st num G → v < getNumNodes g → vec_at (low_ids_ st) v = Ok (low st v).
Proof.
  intros Hinv Hv. apply vec_at_Some. apply list_lookup_lookup_total_lt.
  by rewrite (si_len_low _ _ _ _ Hinv).
Qed.

(** The search of an unmarked node ends, with fuel for the unmarked nodes. *)
Definition dfs_terminates (fuel : nat) : Prop :=
  ∀ v st num G, scc_inv g st num G → v < getNumNodes g → ¬ marked st v →
    (∀ x, x ∈ G → path g x v) → unmarked st ≤ fuel →
    ∃ st' num', depthFirstSearch g fuel v st = Ok st' ∧ dfs_post g st num v G st' num'.

Lemma visit_adjacent_spec fuel st0 num0 v G adj st num m P :
  graph_wf g → dfs_terminates fuel → (∀ x, x ∈ G → path g x v) →
  visiting g st0 num0 v G st num m P → unmarked st ≤ fuel →
  (∀ w, w ∈ adj → edge g v w) →
  ∃ m' st' num', visit_adjacent (depthFirstSearch g fuel) adj m st = Ok (m', st') ∧
    visiting g st0 num0 v G st' num' m' (P ++ adj).
Proof.
  intros Hg Hdfs HG. revert st num m P.
  induction adj as [|w adj IH]; intros st num m P Hvi Hfuel Hadj; cbn.
  { exists m, st, num. by rewrite app_nil_r. }
  pose proof (vi_inv _ _ _ _ _ _ _ _ _ Hvi) as Hinv.
  assert (edge g v w) as He by (apply Hadj; set_solver).
  assert (w < getNumNodes g) as Hw by (by eapply Hg).
  assert (∃ b, is_marked_ st !! w = Some b) as [b Hb].
  { apply lookup_lt_is_Some_2. by rewrite (si_len_marked _ _ _ _ Hinv). }
  rewrite (vec_at_Some _ _ _ Hb). cbn.
  replace (P ++ w :: adj) with ((P ++ [w]) ++ adj) by (by rewrite <- app_assoc).
  destruct b; cbn.
  - rewrite (vec_at_low _ _ _ _ Hinv Hw). cbn. rewrite min_update.
    apply (IH st num); [by apply visiting_marked|done|set_solver].
  - destruct (Hdfs w st num (v :: G)) as (st1 & num1 & -> & Hpost); [done..| | |done|].
    { unfold marked. by rewrite Hb. }
    { intros x [->|Hx]%elem_of_cons; [by apply rtc_once|].
      eapply rtc_r; [|done]. auto. }
    pose proof (dp_inv _ _ _ _ _ _ _ Hpost) as Hinv1. cbn.
    rewrite (vec_at_low _ _ _ _ Hinv1 Hw). cbn. rewrite min_update.
    apply (IH st1 num1); [by eapply visiting_after_dfs| |set_solver].
    pose proof (dp_counter _ _ _ _ _ _ _ Hpost).
    pose proof (si_counter _ _ _ _ Hinv). pose proof (si_counter _ _ _ _ Hinv1). lia.
Qed.

Lemma depthFirstSearch_spec fuel : graph_wf g → dfs_terminates fuel.
Proof.
  intros Hg. induction fuel as [|fuel IH]; intros v st num G Hinv Hv Hm HG Hfuel.
  { exfalso. assert (is_marked_ st !! v = Some false) as Hb.
    { apply not_marked_false; [by rewrite (si_len_marked _ _ _ _ Hinv)|done]. }
    apply list_elem_of_lookup_2 in Hb. unfold unmarked in Hfuel.
    assert (false ∈ filter (λ b : bool, b = false) (is_marked_ st)) as Hin.
    { apply list_elem_of_filter. done. }
    destruct (filter _ _); [by apply elem_of_nil in Hin|cbn in Hfuel; lia]. }
  cbn. rewrite !vec_set_lt
    by (rewrite ?(si_len_marked _ _ _ _ Hinv), ?(si_len_low _ _ _ _ Hinv); done).
  cbn. fold (enter v st).
  pose proof (enter_visiting g st num G v Hinv Hv Hm HG) as Hvi.
  pose proof (vi_inv _ _ _ _ _ _ _ _ _ Hvi) as Hinv1.
  rewrite vec_at_Some with (a := preorder_counter_ st)
    by (apply list_lookup_insert_eq; by rewrite (si_len_low _ _ _ _ Hinv)).
  cbn. destruct (getAdjacentNodes_spec g v Hv) as (adj & -> & _ & Hadj). cbn.
  destruct (visit_adjacent_spec fuel st num v G adj (enter v st)
    (number num v (preorder_counter_ st)) (preorder_counter_ st) [])
    as (m & st2 & num2 & -> & Hvi2); [done..| |by intros; apply Hadj|].
  { pose proof (si_counter _ _ _ _ Hinv). pose proof (si_counter _ _ _ _ Hinv1) as Hc.
    change (preorder_counter_ (enter v st)) with (S (preorder_counter_ st)) in Hc. lia. }
  cbn. cbn in Hvi2. pose proof (vi_inv _ _ _ _ _ _ _ _ _ Hvi2) as Hinv2.
  rewrite (vec_at_low _ _ _ _ Hinv2 Hv). cbn.
  destruct (si_gray _ _ _ _ Hinv2 v) as [_ ->]; [set_solver|].
  assert (∀ w, edge g v w → w ∈ adj) as HP by (intros; by apply Hadj).
  destruct (Nat.ltb_spec m (num2 v)) as [Hlt|Hge].
  - rewrite vec_set_lt by (by rewrite (si_len_low _ _ _ _ Hinv2)). cbn.
    eexists _, num2; split; [reflexivity|]. by eapply finish_black.
  - destruct (vi_min _ _ _ _ _ _ _ _ _ Hvi2) as [Hle _].
    assert (m = num2 v) as Hmv by lia.
    destruct (vi_stack _ _ _ _ _ _ _ _ _ Hvi2) as (s & Hs & _).
    destruct (segment_order g st st2 num num2 v m G adj s Hvi2 HP Hmv Hs)
      as (Hseg & _ & _ & Hvs).
    rewrite Hs.
    destruct (pop_component_spec (getNumNodes g) (no_of_components_ st2) v s
      (traversal_stack_ st) (component_ids_ st2) (low_ids_ st2) Hvs)
      as (comps & lows & -> & Hlc & Hll & Hc & Hl).
    { intros x Hx. rewrite (si_len_comp _ _ _ _ Hinv2), (si_len_low _ _ _ _ Hinv2).
      destruct (Hseg x Hx) as (_ & Hxs & _ & _).
      apply (si_stack _ _ _ _ Hinv2), (marked_lt _ _ _ _ _ Hinv2) in Hxs. done. }
    cbn. eexists _, num2; split; [reflexivity|]. by eapply finish_root.
Qed.

Lemma scc_init_inv : scc_inv g (scc_init g) (λ _, 0) [].
Proof.
  assert (∀ v, ¬ marked (scc_init g) v) as Hm.
  { intros v [Hv _]%lookup_replicate_1. done. }
  split; cbn; rewrite ?length_replicate; try done; try set_solver.
  all: try (intros x Hx; by destruct (Hm x)).
  all: try (intros x y Hx; by destruct (Hm x)).
  all: try (intros x [Hx _]; by destruct (Hm x)).
  all: try (intros x y [Hx _]; by destruct (Hm x)).
  all: try constructor.
  unfold unmarked; cbn. induction (getNumNodes g) as [|k IH]; [done|].
  cbn [replicate]. rewrite filter_cons_True by done. cbn [length]. by rewrite IH.
Qed.

(** Between two searches no node is on the stack. *)
Lemma search_from_spec vs st num :
  graph_wf g → scc_inv g st num [] → traversal_stack_ st = [] →
  (∀ v, v ∈ vs → v < getNumNodes g) →
  ∃ st' num', search_from g vs st = Ok st' ∧ scc_inv g st' num' [] ∧
    traversal_stack_ st' = [] ∧ (∀ v, v ∈ vs → marked st' v) ∧
    (∀ v, marked st v → marked st' v).
Proof.
  intros Hg. revert st num. induction vs as [|v vs IH]; intros st num Hinv Hst Hvs; cbn.
  { exists st, num. split_and!; [done..|set_solver|done]. }
  assert (v < getNumNodes g) as Hv by (apply Hvs; set_solver).
  assert (∃ b, is_marked_ st !! v = Some b) as [b Hb].
  { apply lookup_lt_is_Some_2. by rewrite (si_len_marked _ _ _ _ Hinv). }
  rewrite (vec_at_Some _ _ _ Hb). cbn. destruct b; cbn.
  - destruct (IH st num Hinv Hst) as (st' & num' & -> & ? & ? & Hall & Hmono); [set_solver|].
    exists st', num'. split_and!; [done..| |done].
    intros u [->|Hu]%elem_of_cons; auto.
  - destruct (depthFirstSearch_spec (getNumNodes g) Hg v st num [] Hinv Hv)
      as (st1 & num1 & -> & Hpost); [by unfold marked; rewrite Hb|set_solver| |].
    { pose proof (si_counter _ _ _ _ Hinv). lia. }
    cbn. destruct Hpost as [Hinv1 Hv1 (s & Hs1 & _) Hn1 _].
    assert (traversal_stack_ st1 = []) as Hst1.
    { destruct (traversal_stack_ st1) as [|x l] eqn:Hx; [done|].
      destruct (stack_reaches_gray _ _ _ _ x Hinv1) as (y & []%elem_of_nil & _).
      rewrite Hx. by left. }
    destruct (IH st1 num1 Hinv1 Hst1) as (st' & num' & -> & ? & ? & Hall & Hmono);
      [set_solver|].
    exists st', num'. split_and!; [done..| |].
    + intros u [->|Hu]%elem_of_cons; auto.
    + intros u Hu. by apply Hmono, Hn1.
Qed.

(** What the algorithm delivers. *)
Lemma findStronglyConnectedComponents_spec :
  graph_wf g →
  ∃ st, findStronglyConnectedComponents g = Ok st ∧
    length (component_ids_ st) = getNumNodes g ∧
    (∀ x, x < getNumNodes g → comp st x < no_of_components_ st) ∧
    (∀ x y, x < getNumNodes g → y < getNumNodes g →
       comp st x = comp st y ↔ connected g x y).
Proof.
  intros Hg. unfold findStronglyConnectedComponents.
  destruct (search_from_spec (seq 0 (getNumNodes g)) (scc_init g) (λ _, 0) Hg)
    as (st & num & -> & Hinv & Hst & Hall & _); [apply scc_init_inv|done| |].
  { intros v Hv%elem_of_seq. lia. }
  assert (∀ x, x < getNumNodes g → finished st x) as Hfin.
  { intros x Hx. split; [apply Hall, elem_of_seq; lia|]. rewrite Hst. set_solver. }
  exists st. split_and!; [done|by eapply si_len_comp|..].
  - intros x Hx. by apply (si_done_low _ _ _ _ Hinv), Hfin.
  - intros x y Hx Hy. apply (si_done_comp _ _ _ _ Hinv); auto.
Qed.

End search.

(** ** The interface to the cycle detector

    What the cycle detector relies on: one id per node, equal exactly for
    mutually reachable nodes. *)
Class ComponentPartition (g : DirectedGraph) (component_ids : list nat) : Prop := {
  cp_length : length component_ids = getNumNodes g;
  cp_connected x y : x < getNumNodes g → y < getNumNodes g →
    component_ids !!! x = component_ids !!! y ↔ connected g x y;
}.

Lemma scc_partition `{!HashOrder nat} g :
  graph_wf g →
  ∃ st, findStronglyConnectedComponents g = Ok st ∧
        ComponentPartition g (component_ids_ st).
Proof.
  intros Hg. destruct (findStronglyConnectedComponents_spec g Hg)
    as (st & -> & Hlen & _ & Hc).
  exists st. by split; [|split].
Qed.

(** The mapping lists, per component, its nodes. *)
Definition mapping_of (ids : list nat) : gmap nat (list nat) :=
  foldl (λ m '(i, c), <[c := default [] (m !! c) ++ [i]]> m) ∅
    (zip (seq 0 (length ids)) ids).

Lemma mapping_of_snoc ids c :
  mapping_of (ids ++ [c]) =
  <[c := default [] (mapping_of ids !! c) ++ [length ids]]> (mapping_of ids).
Proof.
  unfold mapping_of. rewrite length_app, seq_app, zip_with_app by (by rewrite length_seq).
  by rewrite foldl_app.
Qed.

Lemma mapping_of_spec ids c :
  match mapping_of ids !! c with
  | Some l => l ≠ [] ∧ NoDup l ∧ ∀ x, x ∈ l ↔ ids !! x = Some c
  | None => ∀ x, ids !! x ≠ Some c
  end.
Proof.
  induction ids as [|c' ids IH] using rev_ind.
  { unfold mapping_of; cbn. rewrite lookup_empty. by intros x. }
  rewrite mapping_of_snoc, lookup_insert.
  assert (∀ x, (ids ++ [c']) !! x = Some c ↔
    ids !! x = Some c ∨ x = length ids ∧ c' = c) as Hlk.
  { intros x. rewrite lookup_snoc_Some. split; [naive_solver|].
    intros [Hx|[-> ->]]; [left|by right]. split; [by eapply lookup_lt_Some|done]. }
  case_decide as Hc; [subst c'|].
  - assert (NoDup (default [] (mapping_of ids !! c)) ∧
      ∀ x, x ∈ default [] (mapping_of ids !! c) ↔ ids !! x = Some c) as [Hnd Hin].
    { destruct (mapping_of ids !! c); cbn; [tauto|]. split; [constructor|].
      intros x. rewrite elem_of_nil. naive_solver. }
    split_and!; [by destruct (default _ _)| |].
    + apply NoDup_app. split_and!; [done| |apply NoDup_singleton].
      intros x Hx%Hin Hx'%list_elem_of_singleton. subst x.
      apply lookup_lt_Some in Hx. lia.
    + intros x. rewrite elem_of_app, Hin, list_elem_of_singleton, Hlk. naive_solver.
  - destruct (mapping_of ids !! c).
    + destruct IH as (? & ? & Hin). split_and!; [done..|].
      intros x. rewrite Hin, Hlk. naive_solver.
    + intros x. rewrite Hlk. naive_solver.
Qed.

(** The two directions the cycle detector uses. *)
Lemma getComponentMapping_sound st c l :
  getComponentMapping st !! c = Some l →
  l ≠ [] ∧ NoDup l ∧ ∀ x, x ∈ l ↔ component_ids_ st !! x = Some c.
Proof.
  intros Hl. pose proof (mapping_of_spec (component_ids_ st) c) as H.
  unfold getComponentMapping in Hl. fold (mapping_of (component_ids_ st)) in Hl.
  by rewrite Hl in H.
Qed.

Lemma getComponentMapping_complete st x c :
  component_ids_ st !! x = Some c → is_Some (getComponentMapping st !! c).
Proof.
  intros Hx. pose proof (mapping_of_spec (component_ids_ st) c) as H.
  unfold getComponentMapping. fold (mapping_of (component_ids_ st)).
  destruct (mapping_of _ !! c); [by eexists|]. by destruct (H x).
Qed.

(** C7. Tarjan's algorithm, as the code runs it: on every graph whose edges end
    in nodes the search ends within its fuel and without reading out of range,
    gives every node a component id below the number of components, and two
    nodes get the same id exactly when each can be reached from the other. *)
Theorem strongly_connected_components_correct `{!HashOrder nat} g :
  graph_wf g →
  ∃ st, findStronglyConnectedComponents g = Ok st ∧
    length (component_ids_ st) = getNumNodes g ∧
    (∀ x c, component_ids_ st !! x = Some c → c < getTotalComponents st) ∧
    (∀ x y c, component_ids_ st !! x = Some c →
       component_ids_ st !! y = Some c ↔ y < getNumNodes g ∧ connected g x y).
Proof.
  intros Hg. destruct (findStronglyConnectedComponents_spec g Hg)
    as (st & Hfind & Hlen & Hlt & Hconn).
  assert (∀ x c, component_ids_ st !! x = Some c ↔ x < getNumNodes g ∧ comp st x = c)
    as Hlk.
  { intros x c. rewrite <- Hlen. split.
    - intros Hx. split; [by eapply lookup_lt_Some|]. by apply list_lookup_total_correct.
    - intros [Hx <-]. by apply list_lookup_lookup_total_lt. }
  exists st. split_and!; [done..| |].
  - intros x c [Hx <-]%Hlk. by apply Hlt.
  - intros x y c [Hx <-]%Hlk. rewrite Hlk. split.
    + intros [Hy He]. split; [done|]. by apply Hconn.
    + intros [Hy Hc]. split; [done|]. symmetry. by apply Hconn.
Qed.

(** ** Witness: a cycle of two nodes and a third that waits for them *)

Definition demo_graph : DirectedGraph :=
  mkGraph [mkNode 10 {[1]}; mkNode 11 {[0]}; mkNode 12 {[0]}].

Lemma demo_graph_wf : graph_wf demo_graph.
Proof.
  intros x y (nd & Hx & Hy). unfold getNumNodes; cbn.
  destruct x as [|[|[|x]]]; cbn in Hx; simplify_eq/=; set_solver by lia.
Qed.

Lemma strongly_connected_components_correct_witness :
  graph_wf demo_graph ∧
  ∃ st, @findStronglyConnectedComponents (identity_order nat) demo_graph = Ok st ∧
    component_ids_ st = [0; 0; 1] ∧ length (component_ids_ st) = 3.
Proof.
  split; [exact demo_graph_wf|].
  destruct (@strongly_connected_components_correct (identity_order nat) demo_graph
              demo_graph_wf) as (st & Hst & Hlen & _).
  exists st. split; [exact Hst|]. split; [|exact Hlen].
  assert (@findStronglyConnectedComponents (identity_order nat) demo_graph
          = Ok (mkScc [true; true; true] [0; 0; 1] [3; 3; 3] [] 3 2)) as Heq
    by (vm_compute; reflexivity).
  rewrite Heq in Hst. injection Hst as <-. reflexivity.
Defined.
