(* ===== verification/CycleDetector.v ===== *)
(** * The cycle detector

    transaction/CycleDetector.{hpp,cpp}: chooses the nodes to kill so that the
    wait-for graph has no cycle through two or more nodes left. *)

From stdpp Require Import options.
From S2P Require Import Prelude TxnData DirectedGraph StronglyConnected.

Section detector.
Context `{!HashOrder nat, !HashOrder (nat * list nat)} (g : DirectedGraph).

(** The loop over the adjacent nodes of the current node: [None] when it
    returns [true] from [hasCycle]. *)
Fixpoint scan_adjacent (nodes visited : gset nat) (adjacents to_visit : list nat)
  : option (list nat) :=
  match adjacents with
  | [] => Some to_visit
  | adjacent :: adjacents' =>
      if decide (adjacent ∈ visited) then None
      else if decide (adjacent ∈ nodes)
      then scan_adjacent nodes visited adjacents' (adjacent :: to_visit)
      else scan_adjacent nodes visited adjacents' to_visit
  end.

(** The [while (!to_visit.empty())] loop; the top of the stack is the head. *)
Fixpoint visit_loop (nodes : gset nat) (fuel : nat) (visited : gset nat)
    (to_visit : list nat) : outcome (option (gset nat)) :=
  match to_visit with
  | [] => Ok (Some visited)
  | current_node :: to_visit' =>
      match fuel with
      | 0 => Err OutOfFuel
      | S fuel =>
          let visited := {[current_node]} ∪ visited in
          adjacents ← getAdjacentNodes current_node g;
          match scan_adjacent nodes visited adjacents to_visit' with
          | None => Ok None
          | Some to_visit => visit_loop nodes fuel visited to_visit
          end
      end
  end.

(** The loop over the nodes of the set.  A visit pops at most one node more
    than it pushes, and pushes only when a node is popped for the first time. *)
Fixpoint cycle_loop (nodes : gset nat) (todo : list nat) (visited : gset nat)
  : outcome bool :=
  match todo with
  | [] => Ok false
  | node :: todo' =>
      if decide (node ∈ visited) then cycle_loop nodes todo' visited
      else
        r ← visit_loop nodes (S (size nodes * S (size nodes))) visited [node];
        match r with
        | None => Ok true
        | Some visited => cycle_loop nodes todo' visited
        end
  end.

Definition hasCycle (nodes : gset nat) : outcome bool :=
  cycle_loop nodes (set_iter nodes) ∅.

(** [*(nodes_set.begin())]. *)
Definition chooseVictim (nodes_set : gset nat) : outcome nat :=
  match set_iter nodes_set with
  | [] => Err UndefinedBehaviour
  | v :: _ => Ok v
  end.

Fixpoint victims_loop (fuel : nat) (nodes_set : gset nat) (targets : list nat)
  : outcome (list nat) :=
  match fuel with
  | 0 => Err OutOfFuel
  | S fuel =>
      c ← hasCycle nodes_set;
      if c : bool then
        victim ← chooseVictim nodes_set;
        victims_loop fuel (nodes_set ∖ {[victim]}) (targets ++ [victim])
      else Ok targets
  end.

(** Each turn but the last erases a node. *)
Definition chooseVictimsInComponent (nodes : list nat) : outcome (list nat) :=
  victims_loop (S (length nodes)) (list_to_set nodes) [].

Fixpoint components_loop (entries : list (nat * list nat)) (nodes_to_kill : list nat)
  : outcome (list nat) :=
  match entries with
  | [] => Ok nodes_to_kill
  | entry :: entries' =>
      if decide (length entry.2 = 1) then components_loop entries' nodes_to_kill
      else
        nodes ← chooseVictimsInComponent entry.2;
        components_loop entries' (nodes_to_kill ++ nodes)
  end.

(** The constructor computes the components, [chooseVictimsToBreakCycle] walks
    over the mapping. *)
Definition chooseVictimsToBreakCycle : outcome (list nat) :=
  strongly_connected_components ← findStronglyConnectedComponents g;
  components_loop (map_iter (getComponentMapping strongly_connected_components)) [].

(** ** hasCycle *)

(** An edge between two nodes of the set. *)
Definition edge_in (N : gset nat) (x y : nat) : Prop :=
  x ∈ N ∧ y ∈ N ∧ edge g x y.

Definition acyclic_in (N : gset nat) : Prop := ∀ x, ¬ tc (edge_in N) x x.

Lemma scan_adjacent_spec nodes visited adj to_visit :
  match scan_adjacent nodes visited adj to_visit with
  | None => ∃ y, y ∈ adj ∧ y ∈ visited
  | Some stk => (∀ y, y ∈ adj → y ∉ visited) ∧
      stk = reverse (filter (λ y, y ∈ nodes) adj) ++ to_visit
  end.
Proof.
  revert to_visit. induction adj as [|a adj IH]; intros to_visit; [by split; [set_solver|]|].
  cbn [scan_adjacent]. case_decide as Ha; [exists a; set_solver|]. rewrite filter_cons.
  case_decide as Hn.
  - specialize (IH (a :: to_visit)). destruct (scan_adjacent _ _ _ _) as [stk|].
    + destruct IH as [H1 ->]. split; [set_solver|].
      by rewrite reverse_cons, <- app_assoc.
    + destruct IH as (y & ? & ?). exists y. set_solver.
  - specialize (IH to_visit). destruct (scan_adjacent _ _ _ _) as [stk|].
    + destruct IH as [H1 ->]. split; [set_solver|done].
    + destruct IH as (y & ? & ?). exists y. set_solver.
Qed.

(** The children of a visited node that is still on the stack are visited or
    lie above it. *)
Definition stack_inv (nodes visited : gset nat) (stk : list nat) : Prop :=
  ∀ i u c, stk !! i = Some u → u ∈ visited → edge g u c → c ∈ nodes →
    c ∈ visited ∨ ∃ j, j < i ∧ stk !! j = Some c.

(** Visited nodes can be numbered so that edges between them increase. *)
Definition ranked (visited : gset nat) : Prop :=
  ∃ t : nat → nat, (∀ u, u ∈ visited → t u < size visited) ∧
    ∀ u c, u ∈ visited → c ∈ visited → edge g u c → t u < t c.

Lemma ranked_add visited cur :
  cur ∉ visited → (∀ c, edge g cur c → c ∉ {[cur]} ∪ visited) →
  ranked visited → ranked ({[cur]} ∪ visited).
Proof.
  intros Hcur Hnew (t & Ht1 & Ht2).
  exists (λ u, if decide (u = cur) then size visited else t u).
  rewrite size_union, size_singleton by set_solver. split.
  - intros u Hu. case_decide; [lia|]. specialize (Ht1 u). set_solver by lia.
  - intros u c Hu Hc He. case_decide; subst; [by destruct (Hnew c)|].
    case_decide; subst; [apply Ht1|apply Ht2]; set_solver.
Qed.

Lemma ranked_acyclic N : ranked N → acyclic_in N.
Proof.
  intros (t & _ & Ht) x Hx. assert (∀ a b, tc (edge_in N) a b → t a < t b) as Hlt.
  { induction 1 as [a b (? & ? & ?)|a b c (? & ? & ?) _ IH]; [by apply Ht|].
    etrans; [by apply Ht|done]. }
  specialize (Hlt x x Hx). lia.
Qed.

Lemma stack_inv_push nodes visited cur rest new :
  cur ∉ visited → (∀ c, c ∈ new → c ∉ {[cur]} ∪ visited) →
  (∀ c, edge g cur c → c ∈ nodes → c ∈ new) →
  stack_inv nodes visited (cur :: rest) →
  stack_inv nodes ({[cur]} ∪ visited) (new ++ rest).
Proof.
  intros Hcur Hnew Hch Hinv i u c Hi Hu He Hc.
  apply lookup_app_Some in Hi as [Hi|[Hlen Hi]].
  { destruct (Hnew u); [by eapply list_elem_of_lookup_2|done]. }
  destruct (decide (u = cur)) as [->|Hne].
  - right. destruct (list_elem_of_lookup_1 new c) as [j Hj]; [by apply Hch|].
    exists j. rewrite lookup_app_l by (by eapply lookup_lt_Some).
    split; [|done]. apply lookup_lt_Some in Hj. lia.
  - destruct (Hinv (S (i - length new)) u c) as [?|([|j] & Hj & Hjc)];
      [done|set_solver|done..|set_solver| |].
    + left. cbn in Hjc. set_solver.
    + right. exists (j + length new). split; [lia|].
      rewrite lookup_app_r by lia. by rewrite Nat.add_sub.
Qed.

Lemma stack_inv_pop nodes visited cur rest :
  (∀ c, edge g cur c → c ∉ visited) → cur ∈ visited →
  stack_inv nodes visited (cur :: rest) →
  (∀ c, edge g cur c → c ∉ nodes) ∧ stack_inv nodes visited rest.
Proof.
  intros Hch Hcur Hinv.
  assert (∀ c, edge g cur c → c ∉ nodes) as Hno.
  { intros c He Hc. destruct (Hinv 0 cur c) as [?|(j & ? & _)]; [done..| |lia].
    by apply (Hch c). }
  split; [done|]. intros i u c Hi Hu He Hc.
  destruct (Hinv (S i) u c) as [?|([|j] & Hj & Hjc)]; [done..|by left| |].
  - left. cbn in Hjc. by simplify_eq.
  - right. exists j. split; [lia|done].
Qed.

Lemma length_children nodes adj :
  NoDup adj → length (reverse (filter (λ y, y ∈ nodes) adj)) ≤ size (nodes : gset nat).
Proof.
  intros Hnd. rewrite length_reverse.
  assert (NoDup (filter (λ y, y ∈ nodes) adj)) as Hnd' by (by apply NoDup_filter).
  rewrite <- (size_list_to_set (C := gset nat)) by done.
  apply subseteq_size. intros x Hx%elem_of_list_to_set%list_elem_of_filter. tauto.
Qed.

Lemma visit_loop_spec nodes fuel visited stk :
  (∀ x, x ∈ nodes → x < getNumNodes g) → visited ⊆ nodes →
  (∀ x, x ∈ stk → x ∈ nodes) → stack_inv nodes visited stk → ranked visited →
  size (nodes ∖ visited) * S (size nodes) + length stk ≤ fuel →
  ∃ r, visit_loop nodes fuel visited stk = Ok r ∧
    match r with
    | None => True
    | Some v' => visited ⊆ v' ∧ v' ⊆ nodes ∧ (∀ x, x ∈ stk → x ∈ v') ∧ ranked v'
    end.
Proof.
  intros Hn. revert visited stk.
  induction fuel as [|fuel IH]; intros visited [|cur rest] Hvis Hstk Hinv Hrank Hfuel;
    try (eexists; split; [done|]; set_solver).
  { cbn in Hfuel. lia. }
  cbn [visit_loop]. destruct (getAdjacentNodes_spec g cur) as (adj & -> & Hnd & Hadj).
  { apply Hn, Hstk. by left. }
  cbn. pose proof (scan_adjacent_spec nodes ({[cur]} ∪ visited) adj rest) as Hscan.
  destruct (scan_adjacent _ _ _ _) as [stk'|]; [|by eexists].
  destruct Hscan as [Hfresh ->]. pose proof (length_children nodes adj Hnd) as Hlen.
  set (new := reverse _) in *.
  assert (∀ c, c ∈ new ↔ edge g cur c ∧ c ∈ nodes) as Hnew.
  { intros c. unfold new. rewrite elem_of_reverse, list_elem_of_filter, Hadj. tauto. }
  assert (cur ∈ nodes) as Hcn by (apply Hstk; by left).
  destruct (decide (cur ∈ visited)) as [Hcur|Hcur].
  - assert ({[cur]} ∪ visited = visited) as Heq by set_solver. rewrite Heq in *.
    destruct (stack_inv_pop nodes visited cur rest) as [Hno Hinv']; [|done..|].
    { intros c Hc. by apply Hfresh, Hadj. }
    assert (new = []) as Hnil.
    { destruct new as [|c new']; [done|]. destruct (proj1 (Hnew c)) as [? ?]; [by left|].
      by destruct (Hno c). }
    rewrite Hnil. cbn. cbn in Hfuel.
    destruct (IH visited rest) as (r & -> & Hr); [done|set_solver|done..|lia|].
    exists r. split; [done|]. destruct r; [|done]. set_solver.
  - destruct (IH ({[cur]} ∪ visited) (new ++ rest)) as (r & -> & Hr).
    + set_solver.
    + intros x [Hx|Hx]%elem_of_app; [by apply Hnew|set_solver].
    + apply stack_inv_push; [done|..|done].
      * intros c [Hc _]%Hnew. by apply Hfresh, Hadj.
      * intros c ? ?. by apply Hnew.
    + apply ranked_add; [done| |done]. intros c Hc. by apply Hfresh, Hadj.
    + cbn in Hfuel. rewrite length_app.
      assert (size (nodes ∖ visited) = S (size (nodes ∖ ({[cur]} ∪ visited)))) as Hsz.
      { replace (nodes ∖ visited) with ({[cur]} ∪ (nodes ∖ ({[cur]} ∪ visited))).
        - by rewrite size_union, size_singleton by set_solver.
        - apply set_eq. intros x. destruct (decide (x = cur)); set_solver. }
      rewrite Hsz in Hfuel. lia.
    + exists r. split; [done|]. destruct r; [|done].
      destruct Hr as (? & ? & ? & ?). split_and!; [set_solver|done| |done].
      set_solver.
Qed.

Lemma cycle_loop_spec nodes todo visited :
  (∀ x, x ∈ nodes → x < getNumNodes g) → (∀ x, x ∈ todo → x ∈ nodes) →
  visited ⊆ nodes → ranked visited →
  ∃ b, cycle_loop nodes todo visited = Ok b ∧
    (b = false → ∃ v', visited ⊆ v' ∧ v' ⊆ nodes ∧ (∀ x, x ∈ todo → x ∈ v') ∧ ranked v').
Proof.
  intros Hn. revert visited. induction todo as [|x todo IH]; intros visited Htodo Hvis Hrank.
  { exists false. split; [done|]. intros _. exists visited. set_solver. }
  cbn [cycle_loop]. case_decide as Hx.
  - destruct (IH visited) as (b & -> & Hb); [set_solver|done..|].
    exists b. split; [done|]. intros (v' & ? & ? & ? & ?)%Hb. exists v'. set_solver.
  - destruct (visit_loop_spec nodes (S (size nodes * S (size nodes))) visited [x])
      as (r & -> & Hr); [done|done|set_solver| |done| |].
    + intros [|i] u c Hi Hu; cbn in Hi; by simplify_eq.
    + cbn. assert (size (nodes ∖ visited) ≤ size nodes) by (apply subseteq_size; set_solver).
      nia.
    + cbn. destruct r as [v1|]; [|by exists true].
      destruct Hr as (? & ? & Hx1 & ?).
      destruct (IH v1) as (b & -> & Hb); [set_solver|done..|].
      exists b. split; [done|]. intros (v' & ? & ? & ? & ?)%Hb. exists v'.
      split_and!; [set_solver|done| |done]. intros y [->|Hy]%elem_of_cons; [|by auto].
      specialize (Hx1 x). set_solver.
Qed.

Lemma hasCycle_spec nodes :
  (∀ x, x ∈ nodes → x < getNumNodes g) →
  ∃ b, hasCycle nodes = Ok b ∧ (b = false → acyclic_in nodes).
Proof.
  intros Hn. destruct (cycle_loop_spec nodes (set_iter nodes) ∅ Hn)
    as (b & Hb & Hf); [|set_solver| |].
  { intros x. by rewrite elem_of_set_iter. }
  { exists (λ _, 0). set_solver. }
  exists b. split; [done|]. intros (v' & _ & Hv & Hall & Hrank)%Hf.
  apply ranked_acyclic. replace nodes with v'; [done|].
  apply set_eq. intros x. split; [set_solver|].
  intros Hx. by apply Hall, elem_of_set_iter.
Qed.

(** ** Choosing victims *)

Lemma edge_in_mono N N' x y : N ⊆ N' → tc (edge_in N) x y → tc (edge_in N') x y.
Proof.
  intros Hsub. induction 1 as [x y (?&?&?)|x y z (?&?&?) _ IH].
  - apply tc_once. split_and!; set_solver.
  - eapply tc_l; [|done]. split_and!; set_solver.
Qed.

Lemma acyclic_in_mono N N' : N ⊆ N' → acyclic_in N' → acyclic_in N.
Proof. intros Hsub Hac x Hx. eapply Hac, edge_in_mono; eauto. Qed.

Lemma chooseVictim_spec N : N ≠ ∅ → ∃ v, chooseVictim N = Ok v ∧ v ∈ N.
Proof.
  intros Hne. unfold chooseVictim.
  destruct (set_iter N) as [|v l] eqn:Hit.
  - destruct Hne. apply set_eq. intros x. rewrite <- elem_of_set_iter, Hit. set_solver.
  - exists v. split; [done|]. apply elem_of_set_iter. rewrite Hit. by left.
Qed.

Lemma hasCycle_empty : hasCycle ∅ = Ok false.
Proof.
  unfold hasCycle, set_iter.
  pose proof (hash_order_perm (elements (∅ : gset nat))) as Hp.
  rewrite elements_empty in *. by apply Permutation_nil_r in Hp as ->.
Qed.

Lemma victims_loop_spec fuel N targets :
  (∀ x, x ∈ N → x < getNumNodes g) → size N < fuel →
  ∃ ts, victims_loop fuel N targets = Ok (targets ++ ts) ∧
    (∀ x, x ∈ ts → x ∈ N) ∧ NoDup ts ∧ acyclic_in (N ∖ list_to_set ts).
Proof.
  revert N targets. induction fuel as [|fuel IH]; intros N targets Hn Hsz; [lia|].
  cbn [victims_loop]. destruct (hasCycle_spec N Hn) as (b & Hb & Hac). rewrite Hb; cbn.
  destruct b.
  - destruct (chooseVictim_spec N) as (v & -> & Hv).
    { intros ->. rewrite hasCycle_empty in Hb. done. }
    cbn. destruct (IH (N ∖ {[v]}) (targets ++ [v])) as (ts & -> & Hsub & Hnd & Hac').
    + set_solver.
    + assert (size (N ∖ {[v]}) < size N); [|lia].
      apply subset_size. split; [set_solver|]. intros Hs. specialize (Hs v Hv). set_solver.
    + exists (v :: ts). rewrite <- app_assoc. split_and!; [done|set_solver| |].
      * constructor; [|done]. intros Hin%Hsub. set_solver.
      * eapply acyclic_in_mono; [|exact Hac']. set_solver.
  - exists []. rewrite app_nil_r. split_and!; [done|set_solver|constructor|].
    eapply acyclic_in_mono; [|by apply Hac]. set_solver.
Qed.

Lemma chooseVictimsInComponent_spec nodes :
  NoDup nodes → (∀ x, x ∈ nodes → x < getNumNodes g) →
  ∃ ts, chooseVictimsInComponent nodes = Ok ts ∧ (∀ x, x ∈ ts → x ∈ nodes) ∧
    acyclic_in (list_to_set nodes ∖ list_to_set ts).
Proof.
  intros Hnd Hn. unfold chooseVictimsInComponent.
  destruct (victims_loop_spec (S (length nodes)) (list_to_set nodes) [])
    as (ts & -> & Hsub & _ & Hac).
  - intros x. rewrite elem_of_list_to_set. auto.
  - rewrite size_list_to_set by done. lia.
  - exists ts. split_and!; [done| |done]. intros x Hx%Hsub. by apply elem_of_list_to_set in Hx.
Qed.

Lemma components_loop_spec entries kill :
  (∀ c l, (c, l) ∈ entries → NoDup l ∧ ∀ x, x ∈ l → x < getNumNodes g) →
  ∃ ts, components_loop entries kill = Ok (kill ++ ts) ∧
    (∀ x, x ∈ ts → ∃ c l, (c, l) ∈ entries ∧ length l ≠ 1 ∧ x ∈ l) ∧
    (∀ c l, (c, l) ∈ entries → length l ≠ 1 →
       acyclic_in (list_to_set l ∖ list_to_set (kill ++ ts))).
Proof.
  revert kill. induction entries as [|[c l] entries IH]; intros kill Hent.
  { exists []. rewrite app_nil_r. split_and!; [done|set_solver..]. }
  cbn [components_loop snd].
  assert (∀ c l, (c, l) ∈ entries → NoDup l ∧ ∀ x, x ∈ l → x < getNumNodes g) as Hent'.
  { intros ???. eapply Hent. by right. }
  case_decide as Hlen.
  - destruct (IH kill Hent') as (ts & -> & H1 & H2). exists ts. split_and!; [done|..].
    + intros x (c' & l' & ? & ? & ?)%H1. exists c', l'. split_and!; [by right|done..].
    + intros c' l' [[= -> ->]|Hin]%elem_of_cons ?; [done|eauto].
  - destruct (Hent c l) as [Hnd Hrange]; [by left|].
    destruct (chooseVictimsInComponent_spec l Hnd Hrange) as (vs & -> & Hvs & Hac). cbn.
    destruct (IH (kill ++ vs) Hent') as (ts & -> & H1 & H2).
    exists (vs ++ ts). rewrite <- app_assoc. split_and!; [done|..].
    + intros x [Hx|Hx]%elem_of_app.
      * exists c, l. split_and!; [by left|done|by apply Hvs].
      * destruct (H1 x Hx) as (c' & l' & ? & ? & ?). exists c', l'.
        split_and!; [by right|done..].
    + intros c' l' [[= -> ->]|Hin]%elem_of_cons ?.
      * eapply acyclic_in_mono; [|exact Hac]. rewrite !list_to_set_app_L. set_solver.
      * rewrite app_assoc. eauto.
Qed.

Lemma tc_edge_path N x y : tc (edge_in N) x y → path g x y.
Proof.
  induction 1 as [x y (_&_&?)|x y z (_&_&?) _ IH]; [by apply rtc_once|by eapply rtc_l].
Qed.

Lemma tc_edge_in_l N x y : tc (edge_in N) x y → x ∈ N.
Proof. by intros [?? (?&?&?)|??? (?&?&?)]. Qed.

Lemma tc_edge_in_single N x y :
  (∀ z, z ∈ N → z = x) → tc (edge_in N) x y → edge g x x.
Proof.
  intros HN Htc. assert (∃ z, edge_in N x z) as (z & _ & Hz & He).
  { inversion Htc; eauto. }
  by rewrite (HN z Hz) in He.
Qed.

(** A closed walk in a set stays in the component of its start. *)
Lemma closed_walk_in N x y (l : gset nat) :
  (∀ z, z ∈ N → connected g x z → z ∈ l) → x ∈ N →
  tc (edge_in N) x y → path g y x → tc (edge_in (N ∩ l)) x y.
Proof.
  intros Hl HxN Hxy Hyx.
  assert (∀ z, z ∈ N → path g x z → path g z x → z ∈ N ∩ l) as Hin.
  { intros z ???. apply elem_of_intersection. split; [done|]. by apply Hl. }
  assert (∀ a b, tc (edge_in N) a b → path g x a → path g b x →
    tc (edge_in (N ∩ l)) a b) as Hwalk; [|by apply Hwalk].
  induction 1 as [a b (Ha & Hb & He)|a b c (Ha & Hb & He) Hbc IH]; intros Hxa Hcx.
  - apply tc_once. split_and!; [apply Hin; [done|done|by eapply rtc_l]
      |apply Hin; [done|by eapply rtc_r|done]|done].
  - pose proof (tc_edge_path _ _ _ Hbc) as Pbc.
    assert (path g x b) by (by eapply rtc_r). assert (path g b x) by (by etrans).
    eapply tc_l; [|by apply IH].
    split_and!; [apply Hin; [done|done|by eapply rtc_l]|by apply Hin|done].
Qed.

(** The nodes that are not killed. *)
Definition survivors (victims : list nat) : gset nat :=
  list_to_set (seq 0 (getNumNodes g)) ∖ list_to_set victims.

Lemma elem_of_survivors vs x :
  x ∈ survivors vs ↔ x < getNumNodes g ∧ x ∉ vs.
Proof.
  unfold survivors. rewrite elem_of_difference, !elem_of_list_to_set, elem_of_seq.
  naive_solver lia.
Qed.

(** What is known after the loop over the components of a partition. *)
Section choice.
Context (st : SccState) (vs : list nat).
Context (Hpart : ComponentPartition g (component_ids_ st)).
Context (Hvs : ∀ v, v ∈ vs → ∃ c l, (c, l) ∈ map_iter (getComponentMapping st) ∧
                     length l ≠ 1 ∧ v ∈ l).
Context (Hac : ∀ c l, (c, l) ∈ map_iter (getComponentMapping st) → length l ≠ 1 →
                 acyclic_in (list_to_set l ∖ list_to_set vs)).

Lemma component_lookup x c :
  component_ids_ st !! x = Some c ↔ x < getNumNodes g ∧ component_ids_ st !!! x = c.
Proof using Hpart.
  destruct Hpart as [Hlen _]. rewrite <- Hlen. split.
  - intros Hx. split; [by eapply lookup_lt_Some|]. by apply list_lookup_total_correct.
  - intros [Hx <-]. by apply list_lookup_lookup_total_lt.
Qed.

Lemma component_entry c l :
  (c, l) ∈ map_iter (getComponentMapping st) →
  NoDup l ∧ (∀ x, x ∈ l ↔ component_ids_ st !! x = Some c).
Proof. intros Hin%elem_of_map_iter%getComponentMapping_sound. tauto. Qed.

Lemma component_of x :
  x < getNumNodes g →
  ∃ c l, (c, l) ∈ map_iter (getComponentMapping st) ∧
    ∀ z, z ∈ l ↔ z < getNumNodes g ∧ connected g x z.
Proof using Hpart.
  intros Hx. destruct (getComponentMapping_complete st x (component_ids_ st !!! x))
    as [l Hl]; [by apply component_lookup|].
  apply elem_of_map_iter in Hl. eexists _, l. split; [exact Hl|]. intros z.
  destruct (component_entry _ _ Hl) as [_ ->]. rewrite component_lookup.
  destruct Hpart as [_ Hconn]. split; intros [Hz ?]; (split; [done|]).
  - by apply Hconn.
  - symmetry. by apply Hconn.
Qed.

Lemma survivors_cycle x y :
  tc (edge_in (survivors vs)) x y → tc (edge_in (survivors vs)) y x → x = y ∧ edge g x x.
Proof using Hpart Hac.
  clear Hvs.
  intros Hxy Hyx. pose proof (tc_edge_in_l _ _ _ Hxy) as Hx.
  pose proof Hx as [Hxn Hxv]%elem_of_survivors.
  pose proof (tc_edge_path _ _ _ Hxy) as Pxy. pose proof (tc_edge_path _ _ _ Hyx) as Pyx.
  destruct (component_of x Hxn) as (c & l & Hl & Hmem).
  assert (∀ z, z ∈ survivors vs → connected g x z → z ∈ l) as Hin.
  { intros z [Hz _]%elem_of_survivors Hxz. by apply Hmem. }
  assert (tc (edge_in (survivors vs ∩ list_to_set l)) x x) as Hwalk.
  { apply closed_walk_in; [|done|by etrans|done].
    intros z Hz Hc. by apply elem_of_list_to_set, Hin. }
  assert (length l = 1) as Hone.
  { destruct (decide (length l = 1)) as [|Hl1]; [done|].
    destruct (Hac _ _ Hl Hl1 x). eapply edge_in_mono; [|exact Hwalk].
    intros z [[? ?]%elem_of_survivors ?]%elem_of_intersection. set_solver. }
  destruct l as [|z [|]]; [done| |done].
  assert (z = x) as ->.
  { assert (x ∈ [z]) as Hxz by (by apply Hin). set_solver. }
  assert (y ∈ [x]) as Hy by (apply Hin; [by eapply tc_edge_in_l|done]).
  split; [set_solver|]. eapply tc_edge_in_single; [|exact Hwalk]. set_solver.
Qed.

Lemma victim_in_cycle v : v ∈ vs → ∃ w, w ≠ v ∧ w < getNumNodes g ∧ connected g v w.
Proof using Hpart Hvs.
  clear Hac.
  intros (c & l & Hin & Hlen1 & Hv)%Hvs. destruct (component_entry _ _ Hin) as [Hnd Hmem].
  assert (∃ w, w ∈ l ∧ w ≠ v) as (w & Hw & Hne).
  { destruct l as [|a [|b l]]; [by apply elem_of_nil in Hv|done|].
    apply NoDup_cons in Hnd as [Hab _].
    destruct (decide (a = v)) as [->|]; [exists b|exists a]; set_solver. }
  exists w. split; [done|]. apply Hmem, component_lookup in Hw as [? Hw], Hv as [? Hv].
  destruct Hpart as [_ Hconn]. split; [done|]. apply Hconn; congruence.
Qed.
End choice.

Lemma chooseVictims_spec :
  graph_wf g →
  ∃ victims, chooseVictimsToBreakCycle = Ok victims ∧
    (∀ x y, tc (edge_in (survivors victims)) x y →
            tc (edge_in (survivors victims)) y x → x = y ∧ edge g x x) ∧
    (∀ v, v ∈ victims → ∃ w, w ≠ v ∧ w < getNumNodes g ∧ connected g v w).
Proof.
  intros Hg. unfold chooseVictimsToBreakCycle.
  destruct (scc_partition g Hg) as (st & -> & Hpart). cbn.
  destruct (components_loop_spec (map_iter (getComponentMapping st)) [])
    as (vs & -> & Hvs & Hac).
  { intros c l [? Hl]%component_entry. split; [done|]. intros x.
    rewrite Hl, component_lookup by exact Hpart. by intros []. }
  exists vs. split; [done|]. split; intros.
  - by eapply survivors_cycle.
  - by eapply victim_in_cycle.
Qed.

(** The victims break every deadlock: on every graph whose edges end in
    nodes [chooseVictimsToBreakCycle] ends with a list of victims such that,
    among the other nodes, two nodes that wait for each other are one node
    waiting for itself; and every victim did wait, directly or not, for
    another node that waited for it. *)
Lemma victims_break_cycles :
  graph_wf g →
  ∃ victims, chooseVictimsToBreakCycle = Ok victims ∧
    (∀ x y, tc (edge_in (survivors victims)) x y →
            tc (edge_in (survivors victims)) y x → x = y ∧ edge g x x) ∧
    (∀ v, v ∈ victims → ∃ w, w ≠ v ∧ connected g v w).
Proof.
  intros (vs & Hvs & Hac & Hcyc)%chooseVictims_spec. exists vs. split_and!; [done..|].
  intros v (w & ? & _ & ?)%Hcyc. eauto.
Qed.

End detector.

(** ** Witness: two transactions in a deadlock, a third behind them *)

Lemma victims_break_cycles_witness :
  graph_wf demo_graph ∧
  ∃ victims, @chooseVictimsToBreakCycle (identity_order nat)
               (identity_order (nat * list nat)) demo_graph = Ok victims ∧
    victims = [1] ∧ ∃ w, w ≠ 1 ∧ connected demo_graph 1 w.
Proof.
  split; [exact demo_graph_wf|].
  destruct (@victims_break_cycles (identity_order nat) (identity_order (nat * list nat))
              demo_graph demo_graph_wf) as (vs & Hvs & _ & Hcyc).
  assert (@chooseVictimsToBreakCycle (identity_order nat)
            (identity_order (nat * list nat)) demo_graph = Ok [1]) as Heq
    by (vm_compute; reflexivity).
  exists vs. split; [exact Hvs|]. rewrite Heq in Hvs. injection Hvs as <-.
  split; [reflexivity|]. apply Hcyc. by left.
Defined.
