(* ===== verification/DeadLockDetector.v ===== *)
(** * The deadlock detector

    transaction/DeadLockDetector.{hpp,cpp}: builds the wait-for graph from the
    lock table and asks the cycle detector for victims. *)

From stdpp Require Import options.
From S2P Require Import Prelude TxnData LockTable TransactionTable LockManager.
From S2P Require Import DirectedGraph StronglyConnected CycleDetector.

(** [wait_for_graph_] is an owned pointer, null when there is no graph. *)
Record DeadLockDetector := mkDetector {
  wait_for_graph_ : option DirectedGraph;
  tid_node_mapping_ : gmap Z nat;
}.

Definition new_detector : DeadLockDetector := mkDetector None ∅.

(** [*wait_for_graph_]. *)
Definition the_graph (d : DeadLockDetector) : outcome DirectedGraph :=
  match wait_for_graph_ d with Some g => Ok g | None => Err UndefinedBehaviour end.

Definition addNode (tid : transaction_id) (d : DeadLockDetector)
  : outcome (node_id * DeadLockDetector) :=
  g ← the_graph d;
  let '(id, g') := addNodeUnchecked tid g in
  let m := tid_node_mapping_ d in
  Ok (id, mkDetector (Some g')
            (match m !! tid with Some _ => m | None => <[tid := id]> m end)).

Definition getNodeId (tid : transaction_id) (d : DeadLockDetector)
  : outcome (node_id * DeadLockDetector) :=
  match tid_node_mapping_ d !! tid with
  | None => addNode tid d
  | Some id => Ok (id, d)
  end.

Definition link_nodes (from to : node_id) (d : DeadLockDetector)
  : outcome DeadLockDetector :=
  g ← the_graph d;
  g' ← addEdgeUnchecked from to g;
  Ok (mkDetector (Some g') (tid_node_mapping_ d)).

Arguments getNodeId : simpl never.
Arguments link_nodes : simpl never.

Definition addPendingInfo (pending_tid owner : transaction_id) (d : DeadLockDetector)
  : outcome DeadLockDetector :=
  '(pending_node_id, d) ← getNodeId pending_tid d;
  '(owner_node_id, d) ← getNodeId owner d;
  link_nodes pending_node_id owner_node_id d.

(** The three methods that are not implemented end in [LOG(FATAL)]. *)
Definition deletePendingInfo (pending_tid owner : transaction_id)
    (d : DeadLockDetector) : outcome DeadLockDetector := Err CheckFailed.
Definition isDependent (pending_tid owner : transaction_id)
    (d : DeadLockDetector) : outcome bool := Err CheckFailed.
Definition getAllDependents (owner : transaction_id)
    (d : DeadLockDetector) : outcome (list Z) := Err CheckFailed.

Fixpoint nodes_data (nodes : list nat) (g : DirectedGraph) : outcome (list Z) :=
  match nodes with
  | [] => Ok []
  | node :: nodes' =>
      tid ← getDataFromNode node g;
      tids ← nodes_data nodes' g;
      Ok (tid :: tids)
  end.

Section victims.
Context `{!HashOrder nat, !HashOrder (nat * list nat)}.
Context `{!HashOrder (ResourceId * lock_list_pair)}.

Definition getAllDependees (pending_tid : transaction_id) (d : DeadLockDetector)
  : outcome (list Z * DeadLockDetector) :=
  '(pending_node_id, d) ← getNodeId pending_tid d;
  g ← the_graph d;
  nodes ← getAdjacentNodes pending_node_id g;
  tids ← nodes_data nodes g;
  Ok (tids, d).

(** The innermost loop of [getAllVictims]: the waiting entries of a resource. *)
Fixpoint link_pending (owned_node : node_id) (pending_list : list lock_entry)
    (d : DeadLockDetector) : outcome DeadLockDetector :=
  match pending_list with
  | [] => Ok d
  | pending_lock_info :: pending_list' =>
      '(pending_node, d) ← getNodeId pending_lock_info.1 d;
      d ← link_nodes pending_node owned_node d;
      link_pending owned_node pending_list' d
  end.

Fixpoint link_owned (own_list pending_list : list lock_entry)
    (d : DeadLockDetector) : outcome DeadLockDetector :=
  match own_list with
  | [] => Ok d
  | owned_lock_info :: own_list' =>
      '(owned_node, d) ← getNodeId owned_lock_info.1 d;
      d ← link_pending owned_node pending_list d;
      link_owned own_list' pending_list d
  end.

Fixpoint link_table (entries : list (ResourceId * lock_list_pair))
    (d : DeadLockDetector) : outcome DeadLockDetector :=
  match entries with
  | [] => Ok d
  | entry :: entries' =>
      d ← link_owned entry.2.1 entry.2.2 d;
      link_table entries' d
  end.

(** The graph is made anew and dropped at the end; [tid_node_mapping_] is kept
    as it is. *)
Definition getAllVictims (lt : LockTable) (d : DeadLockDetector)
  : outcome (list Z * LockTable * DeadLockDetector) :=
  let d := mkDetector (Some empty_graph) (tid_node_mapping_ d) in
  lt ← latchShared lt;
  d ← link_table (map_iter (internal_map_ lt)) d;
  lt ← unlatchShared lt;
  g ← the_graph d;
  victim_nodes ← chooseVictimsToBreakCycle g;
  result_victims ← nodes_data victim_nodes g;
  Ok (result_victims, lt, mkDetector None (tid_node_mapping_ d)).

(** One turn of the detector's loop: [None] when it returns on [kQuit] or spins
    because the last batch has not been taken yet. *)
Definition detector_turn (lm : LockManager) (d : DeadLockDetector)
  : outcome (option (LockManager * DeadLockDetector)) :=
  match detector_status_ lm with
  | kQuit => Ok None
  | kDone => Ok None
  | kNotReady =>
      '(victim_new_batch, lt, d) ← getAllVictims (lock_table_ lm) d;
      Ok (Some (set_detector (set_lock_table lm lt) kDone victim_new_batch, d))
  end.

(** ** The graph the loops build *)

(** The mapping and the node payloads are inverse to each other, and the edges
    are the images of the waits linked so far. *)
Record build_inv (m : gmap Z nat) (g : DirectedGraph) (W : Z → Z → Prop) : Prop := {
  bi_map t i : m !! t = Some i ↔ getDataFromNode i g = Ok t;
  bi_edge x y : edge g x y ↔
    ∃ t1 t2, m !! t1 = Some x ∧ m !! t2 = Some y ∧ W t1 t2;
  bi_dom t1 t2 : W t1 t2 → is_Some (m !! t1) ∧ is_Some (m !! t2);
}.

Lemma getDataFromNode_lt i g t : getDataFromNode i g = Ok t → i < getNumNodes g.
Proof.
  unfold getDataFromNode. intros (nd & Hnd & _)%bind_Ok.
  apply vec_at_Ok in Hnd. by eapply lookup_lt_Some.
Qed.

Lemma getDataFromNode_ge i g : getNumNodes g ≤ i → ∀ t, getDataFromNode i g ≠ Ok t.
Proof. intros Hi t Ht%getDataFromNode_lt. lia. Qed.

Lemma getNodeId_spec t m g W :
  build_inv m g W →
  ∃ i m' g', getNodeId t (mkDetector (Some g) m) = Ok (i, mkDetector (Some g') m') ∧
    m' !! t = Some i ∧ m ⊆ m' ∧ build_inv m' g' W.
Proof.
  intros Hinv. unfold getNodeId. cbn [tid_node_mapping_].
  destruct (m !! t) as [i|] eqn:Ht; [by exists i, m, g|].
  unfold addNode, the_graph.
  cbn [wait_for_graph_ tid_node_mapping_ mbind outcome_bind]. rewrite Ht.
  pose proof (addNodeUnchecked_spec t g) as Hadd.
  destruct (addNodeUnchecked t g) as [i g']. destruct Hadd as (-> & Hn & He & Hd).
  destruct Hinv as [Hmap Hedge Hdom].
  assert (∀ t' j, m !! t' = Some j → j ≠ getNumNodes g) as Hlt.
  { intros t' j Hj%Hmap%getDataFromNode_lt. lia. }
  eexists _, _, _; split; [reflexivity|].
  split_and!; [by simplify_map_eq|by apply insert_subseteq|]. split.
  - intros t' j. rewrite Hd, lookup_insert.
    case_decide as Ht'; case_decide as Hj; subst.
    + done.
    + split; [naive_solver|]. intros Hj'%Hmap. congruence.
    + split; [|naive_solver]. intros Hj%Hlt. done.
    + apply Hmap.
  - intros x y. rewrite He, Hedge. apply exist_proper. intros t1. apply exist_proper.
    intros t2. split.
    + intros (H1 & H2 & HW). by rewrite !lookup_insert_ne by congruence.
    + intros (H1 & H2 & HW). destruct (Hdom _ _ HW) as [[? ?] [? ?]].
      by rewrite !lookup_insert_ne in * by congruence.
  - intros t1 t2 [[? ?] [? ?]]%Hdom.
    rewrite !lookup_insert_ne by congruence. split; by eexists.
Qed.

(** Adds one wait to the relation. *)
Definition plus_wait (W : Z → Z → Prop) (p o : Z) : Z → Z → Prop :=
  λ t1 t2, W t1 t2 ∨ (t1 = p ∧ t2 = o).

Lemma build_inv_proper m g W W' :
  (∀ t1 t2, W t1 t2 ↔ W' t1 t2) → build_inv m g W → build_inv m g W'.
Proof.
  intros HW [Hmap Hedge Hdom]. split; [done| |].
  - intros x y. rewrite Hedge. apply exist_proper. intros t1. apply exist_proper.
    intros t2. by rewrite HW.
  - intros t1 t2 ?%HW. auto.
Qed.

Lemma link_nodes_spec p o i j m g W :
  build_inv m g W → m !! p = Some i → m !! o = Some j →
  ∃ g', link_nodes i j (mkDetector (Some g) m) = Ok (mkDetector (Some g') m) ∧
    build_inv m g' (plus_wait W p o).
Proof.
  intros [Hmap Hedge Hdom] Hp Ho. unfold link_nodes, the_graph. cbn.
  destruct (addEdgeUnchecked_spec i j g) as (g' & -> & Hn & He & Hd).
  { by eapply getDataFromNode_lt, Hmap. }
  cbn. exists g'. split; [done|]. split.
  - intros t k. by rewrite Hd.
  - intros x y. rewrite He, Hedge. unfold plus_wait. split; [naive_solver|].
    intros (t1 & t2 & H1 & H2 & [HW|[-> ->]]); [left; eauto|right].
    naive_solver.
  - intros t1 t2 [HW|[-> ->]]; [by auto|]. split; by eexists.
Qed.

Lemma link_pending_spec o j pend m g W :
  build_inv m g W → m !! o = Some j →
  ∃ m' g', link_pending j pend (mkDetector (Some g) m) = Ok (mkDetector (Some g') m') ∧
    m ⊆ m' ∧
    build_inv m' g' (λ t1 t2, W t1 t2 ∨ (t1 ∈ pend.*1 ∧ t2 = o)).
Proof.
  revert m g W. induction pend as [|e pend IH]; intros m g W Hinv Ho; cbn.
  { exists m, g. split_and!; [done..|]. eapply build_inv_proper; [|done].
    intros t1 t2. rewrite elem_of_nil. tauto. }
  destruct (getNodeId_spec e.1 m g W Hinv) as (i & m1 & g1 & -> & Hi & Hsub & Hinv1).
  cbn. assert (m1 !! o = Some j) as Ho1 by (by eapply lookup_weaken).
  destruct (link_nodes_spec e.1 o i j m1 g1 W Hinv1 Hi Ho1) as (g2 & -> & Hinv2). cbn.
  destruct (IH m1 g2 _ Hinv2 Ho1) as (m3 & g3 & -> & Hsub3 & Hinv3).
  exists m3, g3. split_and!; [done|by etrans|]. eapply build_inv_proper; [|done].
  intros t1 t2. unfold plus_wait. rewrite elem_of_cons. naive_solver.
Qed.

Lemma link_owned_spec own pend m g W :
  build_inv m g W →
  ∃ m' g', link_owned own pend (mkDetector (Some g) m) = Ok (mkDetector (Some g') m') ∧
    m ⊆ m' ∧ (∀ t, t ∈ own.*1 → is_Some (m' !! t)) ∧
    build_inv m' g' (λ t1 t2, W t1 t2 ∨ (t1 ∈ pend.*1 ∧ t2 ∈ own.*1)).
Proof.
  revert m g W. induction own as [|e own IH]; intros m g W Hinv; cbn.
  { exists m, g. split_and!; [done..|set_solver|]. eapply build_inv_proper; [|done].
    intros t1 t2. rewrite elem_of_nil. tauto. }
  destruct (getNodeId_spec e.1 m g W Hinv) as (j & m1 & g1 & -> & Hj & Hsub & Hinv1). cbn.
  destruct (link_pending_spec e.1 j pend m1 g1 W Hinv1 Hj)
    as (m2 & g2 & -> & Hsub2 & Hinv2). cbn.
  destruct (IH m2 g2 _ Hinv2) as (m3 & g3 & -> & Hsub3 & Hown & Hinv3).
  exists m3, g3. split_and!; [done|etrans; [exact Hsub|by etrans]|..].
  { intros t [->|Ht]%elem_of_cons; [|by auto]. exists j.
    by eapply lookup_weaken, Hsub3; eapply lookup_weaken. }
  eapply build_inv_proper; [|done].
  intros t1 t2. cbn. rewrite elem_of_cons. naive_solver.
Qed.

(** The first transaction waits for a resource the second has been granted. *)
Definition waits_for (lt : LockTable) (t1 t2 : Z) : Prop :=
  ∃ rid, t1 ∈ (pending lt rid).*1 ∧ t2 ∈ (owned lt rid).*1.

Definition waits_in (entries : list (ResourceId * lock_list_pair)) (t1 t2 : Z) : Prop :=
  ∃ rid own pend, (rid, (own, pend)) ∈ entries ∧ t1 ∈ pend.*1 ∧ t2 ∈ own.*1.

Lemma link_table_spec entries m g W :
  build_inv m g W →
  ∃ m' g', link_table entries (mkDetector (Some g) m) = Ok (mkDetector (Some g') m') ∧
    m ⊆ m' ∧
    (∀ rid own pend t, (rid, (own, pend)) ∈ entries → t ∈ own.*1 → is_Some (m' !! t)) ∧
    build_inv m' g' (λ t1 t2, W t1 t2 ∨ waits_in entries t1 t2).
Proof.
  revert m g W. induction entries as [|[rid [own pend]] entries IH]; intros m g W Hinv; cbn.
  { exists m, g. split_and!; [done..|by intros ???? ?%elem_of_nil|]. eapply build_inv_proper; [|done].
    intros t1 t2. unfold waits_in. setoid_rewrite elem_of_nil. naive_solver. }
  destruct (link_owned_spec own pend m g W Hinv) as (m1 & g1 & -> & Hsub1 & Hown1 & Hinv1). cbn.
  destruct (IH m1 g1 _ Hinv1) as (m2 & g2 & -> & Hsub2 & Hown2 & Hinv2).
  exists m2, g2. split_and!; [done|by etrans|..].
  { intros ? ? ? t [[= -> -> ->]|Hin]%elem_of_cons Ht; [|by eauto].
    destruct (Hown1 t Ht) as [i Hi]. exists i. by eapply lookup_weaken. }
  eapply build_inv_proper; [|done].
  intros t1 t2. cbn. unfold waits_in. setoid_rewrite elem_of_cons. naive_solver.
Qed.

Lemma waits_in_map_iter lt t1 t2 :
  waits_in (map_iter (internal_map_ lt)) t1 t2 ↔ waits_for lt t1 t2.
Proof.
  unfold waits_in, waits_for, pending, owned, lock_lists. split.
  - intros (rid & own & pend & Hin%elem_of_map_iter & H1 & H2). exists rid.
    by rewrite Hin.
  - intros (rid & H1 & H2). destruct (internal_map_ lt !! rid) as [[own pend]|] eqn:Hl;
      cbn in *; [|by apply elem_of_nil in H1].
    exists rid, own, pend. by rewrite elem_of_map_iter.
Qed.

(** ** The victims *)

Lemma empty_build_inv : build_inv ∅ empty_graph (λ _ _, False).
Proof.
  split; [..|done].
  - intros t i. by rewrite lookup_empty.
  - intros x y. split; [|naive_solver]. by intros (nd & ? & _).
Qed.

Lemma build_inv_graph_wf m g W : build_inv m g W → graph_wf g.
Proof.
  intros [Hmap Hedge _] x y (t1 & t2 & _ & H2 & _)%Hedge.
  by eapply getDataFromNode_lt, Hmap.
Qed.

Lemma nodes_data_spec nodes g :
  (∀ x, x ∈ nodes → x < getNumNodes g) →
  ∃ tids, nodes_data nodes g = Ok tids ∧
    ∀ t, t ∈ tids ↔ ∃ x, x ∈ nodes ∧ getDataFromNode x g = Ok t.
Proof.
  induction nodes as [|x nodes IH]; intros Hlt; cbn.
  { exists []. split; [done|]. intros t. setoid_rewrite elem_of_nil. naive_solver. }
  assert (∃ t, getDataFromNode x g = Ok t) as [t Ht].
  { assert (x < getNumNodes g) as [nd Hnd]%lookup_lt_is_Some_2 by (apply Hlt; by left).
    eexists. unfold getDataFromNode. by rewrite (vec_at_Some _ _ _ Hnd). }
  rewrite Ht. cbn. destruct IH as (tids & -> & Htids); [intros y Hy; apply Hlt; by right|]. cbn.
  exists (t :: tids). split; [done|]. intros t'. rewrite elem_of_cons, Htids. split.
  - intros [->|(y & Hy & Hd)]; [exists x|exists y]; rewrite elem_of_cons; auto.
  - intros (y & [->|Hy]%elem_of_cons & Hd); [left; congruence|right; eauto].
Qed.

(** A wait between two transactions that are not victims. *)
Definition waits_among (lt : LockTable) (vs : list Z) (t1 t2 : Z) : Prop :=
  waits_for lt t1 t2 ∧ t1 ∉ vs ∧ t2 ∉ vs.

Section image.
Context (m : gmap Z nat) (g : DirectedGraph) (lt : LockTable) (nodes : list nat) (vs : list Z).
Context (Hinv : build_inv m g (waits_for lt)).
Context (Hvs : ∀ t, t ∈ vs ↔ ∃ x, x ∈ nodes ∧ getDataFromNode x g = Ok t).

Lemma survivor_image t x : m !! t = Some x → t ∉ vs → x ∈ survivors g nodes.
Proof using Hinv Hvs.
  intros Hx%(bi_map _ _ _ Hinv) Ht. apply elem_of_survivors.
  split; [by eapply getDataFromNode_lt|]. intros Hin. apply Ht, Hvs. eauto.
Qed.

Lemma waits_among_tc t1 t2 :
  tc (waits_among lt vs) t1 t2 →
  ∃ x y, m !! t1 = Some x ∧ m !! t2 = Some y ∧ tc (edge_in g (survivors g nodes)) x y.
Proof using Hinv Hvs.
  assert (∀ a b, waits_among lt vs a b → ∃ x y, m !! a = Some x ∧ m !! b = Some y ∧
    edge_in g (survivors g nodes) x y) as Hone.
  { intros a b (HW & Ha & Hb). destruct (bi_dom _ _ _ Hinv a b HW) as [[x Hx] [y Hy]].
    exists x, y. split_and!; [done..|]. split_and!; [by eapply survivor_image..|].
    apply (bi_edge _ _ _ Hinv). eauto. }
  induction 1 as [a b Hab|a b c Hab _ IH].
  - destruct (Hone a b Hab) as (x & y & ? & ? & ?). exists x, y.
    split_and!; [done..|by apply tc_once].
  - destruct (Hone a b Hab) as (x & y & ? & Hb & ?), IH as (y' & z & Hb' & ? & ?).
    simplify_eq. exists x, z. split_and!; [done..|by eapply tc_l].
Qed.

Lemma path_waits x y t1 :
  path g x y → m !! t1 = Some x →
  ∃ t2, m !! t2 = Some y ∧ rtc (waits_for lt) t1 t2.
Proof using Hinv.
  intros Hp. revert t1. induction Hp as [x|x y z Hxy _ IH]; intros t1 Hx; [eauto using rtc_refl|].
  apply (bi_edge _ _ _ Hinv) in Hxy as (a & b & Ha & Hb & HW).
  assert (a = t1) as ->.
  { apply (bi_map _ _ _ Hinv) in Ha, Hx. congruence. }
  destruct (IH b Hb) as (t2 & ? & ?). exists t2. split; [done|]. by eapply rtc_l.
Qed.
End image.

(** The run of a detector whose mapping is empty. *)
Lemma getAllVictims_fresh lt :
  mutex_ lt = Unlatched →
  ∃ vs m g nodes, getAllVictims lt new_detector = Ok (vs, lt, mkDetector None m) ∧
    build_inv m g (waits_for lt) ∧
    (∀ rid t, t ∈ (owned lt rid).*1 → is_Some (m !! t)) ∧
    chooseVictimsToBreakCycle g = Ok nodes ∧
    (∀ t, t ∈ vs ↔ ∃ x, x ∈ nodes ∧ getDataFromNode x g = Ok t).
Proof.
  intros Hm. unfold getAllVictims, latchShared. rewrite Hm.
  cbn [mbind outcome_bind tid_node_mapping_ new_detector internal_map_].
  destruct (link_table_spec (map_iter (internal_map_ lt)) ∅ empty_graph _ empty_build_inv)
    as (m & g & -> & _ & Hown & Hinv). cbn.
  assert (build_inv m g (waits_for lt)) as Hinv'.
  { eapply build_inv_proper; [|exact Hinv]. intros t1 t2. cbn.
    rewrite waits_in_map_iter. tauto. }
  destruct (chooseVictims_spec g (build_inv_graph_wf _ _ _ Hinv')) as (nodes & Hn & _ & Hcyc).
  rewrite Hn. cbn.
  destruct (nodes_data_spec nodes g) as (vs & -> & Hvs).
  { intros v (w & Hne & Hw & Hvw & _)%Hcyc. inversion Hvw as [|? ? ? Hedge]; subst; [done|].
    by eapply edge_src. }
  cbn. exists vs, m, g, nodes. split_and!; [|done| |done..].
  - destruct lt. cbn in *. by subst.
  - intros rid t. unfold owned, lock_lists.
    destruct (internal_map_ lt !! rid) as [[own pend]|] eqn:Hl; cbn; [|by intros ?%elem_of_nil].
    apply (Hown rid own pend), elem_of_map_iter, Hl.
Qed.

(** C8. Deadlock detection: run on a free lock table with a fresh detector,
    [getAllVictims] returns victims and leaves the table as it was; among the
    transactions that are not victims no two distinct ones wait for each other,
    directly or through others, and one that waits for itself does so directly;
    and every victim is in a deadlock with another transaction. *)
Theorem detector_breaks_deadlocks lt :
  mutex_ lt = Unlatched →
  ∃ victims m, getAllVictims lt new_detector = Ok (victims, lt, mkDetector None m) ∧
    (∀ t1 t2, tc (waits_among lt victims) t1 t2 → tc (waits_among lt victims) t2 t1 →
      t1 = t2 ∧ waits_for lt t1 t1) ∧
    (∀ v, v ∈ victims → ∃ w, w ≠ v ∧ rtc (waits_for lt) v w ∧ rtc (waits_for lt) w v).
Proof.
  intros (vs & m & g & nodes & Hrun & Hinv & _ & Hn & Hvs)%getAllVictims_fresh.
  destruct (chooseVictims_spec g (build_inv_graph_wf _ _ _ Hinv)) as (nodes' & Hn' & Hac & Hcyc).
  rewrite Hn in Hn'. injection Hn' as <-. exists vs, m. split_and!; [done|..].
  - intros t1 t2 H12 H21.
    destruct (waits_among_tc m g lt nodes vs Hinv Hvs _ _ H12) as (x & y & Hx & Hy & Hxy).
    destruct (waits_among_tc m g lt nodes vs Hinv Hvs _ _ H21) as (y' & x' & Hy' & Hx' & Hyx).
    simplify_eq. destruct (Hac x y Hxy Hyx) as [-> Hself].
    apply (bi_edge _ _ _ Hinv) in Hself as (a & b & Ha & Hb & HW).
    apply (bi_map _ _ _ Hinv) in Ha, Hb, Hx, Hy.
    assert (a = t1 ∧ b = t1 ∧ t2 = t1) as (-> & -> & ->) by (split_and!; congruence). done.
  - intros v (x & Hx & Hd)%Hvs. destruct (Hcyc x Hx) as (y & Hne & _ & Hxy & Hyx).
    apply (bi_map _ _ _ Hinv) in Hd as Hvx.
    destruct (path_waits m g lt Hinv x y v Hxy Hvx) as (w & Hw & Hvw).
    destruct (path_waits m g lt Hinv y x w Hyx Hw) as (v' & Hv' & Hwv).
    exists w. split_and!; [congruence|done|].
    apply (bi_map _ _ _ Hinv) in Hv'. assert (v' = v) as -> by congruence. done.
Qed.

(** ** A detector that has run before *)

(** The mapping knows every transaction, the new graph none of them. *)
Lemma link_pending_stale i pend m :
  (∀ t, t ∈ pend.*1 → is_Some (m !! t)) → pend ≠ [] →
  link_pending i pend (mkDetector (Some empty_graph) m) = Err UndefinedBehaviour.
Proof.
  intros Hm Hne. destruct pend as [|e pend]; [done|]. cbn.
  destruct (Hm e.1) as [j Hj]; [by left|].
  unfold getNodeId. cbn [tid_node_mapping_]. rewrite Hj. reflexivity.
Qed.

Lemma link_owned_stale own pend m :
  (∀ t, t ∈ own.*1 → is_Some (m !! t)) → (own ≠ [] → ∀ t, t ∈ pend.*1 → is_Some (m !! t)) →
  let d := mkDetector (Some empty_graph) m in
  link_owned own pend d =
    if decide (own = [] ∨ pend = []) then Ok d else Err UndefinedBehaviour.
Proof.
  intros Hown Hpend. induction own as [|e own IH]; cbn; [by rewrite decide_True by auto|].
  destruct (Hown e.1) as [j Hj]; [by left|].
  unfold getNodeId. cbn [tid_node_mapping_]. rewrite Hj. cbn.
  destruct (decide (pend = [])) as [->|Hne].
  - cbn. rewrite IH; [|intros; apply Hown; by right|by intros _ ? ?%elem_of_nil].
    by rewrite !decide_True by auto.
  - rewrite link_pending_stale by (done || by apply Hpend).
    by rewrite decide_False by naive_solver.
Qed.

Lemma link_table_stale entries m :
  (∀ rid own pend, (rid, (own, pend)) ∈ entries →
    (∀ t, t ∈ own.*1 → is_Some (m !! t)) ∧
    (own ≠ [] → ∀ t, t ∈ pend.*1 → is_Some (m !! t))) →
  (∃ t1 t2, waits_in entries t1 t2) →
  link_table entries (mkDetector (Some empty_graph) m) = Err UndefinedBehaviour.
Proof.
  induction entries as [|[rid [own pend]] entries IH]; intros Hm (t1 & t2 & Hw).
  { destruct Hw as (? & ? & ? & ?%elem_of_nil & _). done. }
  cbn. destruct (Hm rid own pend) as [Hown Hpend]; [by left|].
  rewrite link_owned_stale by done. case_decide as Hd; [|done]. cbn. apply IH.
  { intros rid' own' pend' Hin. apply (Hm rid'). by right. }
  destruct Hw as (rid' & own' & pend' & Hin & H1 & H2).
  apply elem_of_cons in Hin as [Heq|Hin]; [simplify_eq|].
  - destruct Hd as [Hd|Hd]; subst; [by apply elem_of_nil in H2|by apply elem_of_nil in H1].
  - by exists t1, t2, rid', own', pend'.
Qed.

(** The mapping outlives the graph: when some transaction waits for
    another, a detector that has run once is undefined behaviour the next time
    it runs on the same table. [getAllVictims] makes a new graph but keeps
    [tid_node_mapping_], whose node ids are out of the range of the new graph. *)
Lemma stale_mapping_undefined lt t1 t2 :
  mutex_ lt = Unlatched → waits_for lt t1 t2 →
  ∃ victims d, getAllVictims lt new_detector = Ok (victims, lt, d) ∧
    getAllVictims lt d = Err UndefinedBehaviour.
Proof.
  intros Hm HW. destruct (getAllVictims_fresh lt Hm)
    as (vs & m & g & nodes & Hrun & Hinv & Hown & _).
  exists vs, (mkDetector None m). split; [done|].
  unfold getAllVictims, latchShared. rewrite Hm. cbn.
  rewrite link_table_stale; [done| |by exists t1, t2; apply waits_in_map_iter].
  intros rid own pend Hin%elem_of_map_iter.
  assert (owned lt rid = own ∧ pending lt rid = pend) as [Ho Hp].
  { unfold owned, pending, lock_lists. by rewrite Hin. }
  split; [intros t Ht; apply (Hown rid); by rewrite Ho|].
  intros Hne t Ht. destruct own as [|e own]; [done|].
  apply (bi_dom _ _ _ Hinv t e.1). exists rid. rewrite Ho, Hp. split; [done|by left].
Qed.

End victims.

(** ** Witness: two transactions that wait for each other *)

Definition rid1 : ResourceId := ResourceId_rel 1 1.
Definition rid2 : ResourceId := ResourceId_rel 1 2.

Definition deadlocked : LockTable :=
  (putLock 8 rid1 kXLockMode (putLock 7 rid2 kXLockMode
    (putLock 8 rid2 kXLockMode (putLock 7 rid1 kXLockMode empty_lock_table).2).2).2).2.

Definition run_detector : LockTable → DeadLockDetector →
    outcome (list Z * LockTable * DeadLockDetector) :=
  @getAllVictims (identity_order nat) (identity_order (nat * list nat))
    (identity_order (ResourceId * lock_list_pair)).

Lemma detector_breaks_deadlocks_witness :
  mutex_ deadlocked = Unlatched ∧
  ∃ v w m, run_detector deadlocked new_detector = Ok ([v], deadlocked, mkDetector None m) ∧
    w ≠ v ∧ rtc (waits_for deadlocked) v w ∧ rtc (waits_for deadlocked) w v.
Proof.
  split; [reflexivity|].
  destruct (@detector_breaks_deadlocks (identity_order nat) (identity_order (nat * list nat))
    (identity_order (ResourceId * lock_list_pair)) deadlocked eq_refl)
    as (vs & m & Hrun & _ & Hcyc).
  assert ((λ r, match r with Ok (vs, _, _) => length vs | Err _ => 0 end)
    (run_detector deadlocked new_detector) = 1) as Hone by (vm_compute; reflexivity).
  unfold run_detector in *. rewrite Hrun in Hone. cbn in Hone.
  destruct vs as [|v [|]]; [discriminate| |discriminate].
  destruct (Hcyc v) as (w & Hw); [by left|]. exists v, w, m. by split.
Defined.

Lemma stale_mapping_undefined_witness :
  ∃ victims d, run_detector deadlocked new_detector = Ok (victims, deadlocked, d) ∧
    run_detector deadlocked d = Err UndefinedBehaviour.
Proof.
  apply (@stale_mapping_undefined (identity_order nat) (identity_order (nat * list nat))
    (identity_order (ResourceId * lock_list_pair)) deadlocked 7 8).
  - reflexivity.
  - exists rid2. split; [vm_compute; by left|vm_compute; by left].
Defined.
