(* ===== verification/BitManipulation.v ===== *)
(** * Words and their bits

    utility/BitManipulation.hpp: counting the ones, the leading and the
    trailing zeroes of a word, and the lemmas on words the bit vector uses. A
    word of [w] bits is a [Z] between [0] and [2^w - 1]. The functions are the
    generic templates of the header; the specialisations that call the
    compiler's builtins are documented to give the same results on words that
    are not zero, the only ones they are called with. *)

From stdpp Require Import options.
From S2P Require Import Prelude.
Local Open Scope Z_scope.

Coercion Z.of_nat : nat >-> Z.

(** ** Operations on words *)

(** [static_cast<UIntType>(x)] to [w] bits. *)
Definition uint (w : nat) (x : Z) : Z := Z.land x (Z.ones w).
(** [std::numeric_limits<UIntType>::max()]. *)
Definition umax (w : nat) : Z := Z.ones w.
Definition unot (w : nat) (x : Z) : Z := uint w (Z.lnot x).
Definition ushl (w : nat) (x : Z) (k : nat) : Z := uint w (Z.shiftl x k).
Definition ushr (x : Z) (k : nat) : Z := Z.shiftr x k.

Arguments uint : simpl never.
Arguments umax : simpl never.
Arguments unot : simpl never.
Arguments ushl : simpl never.
Arguments ushr : simpl never.

Fixpoint popcount_loop (fuel : nat) (word : Z) (count : nat) : outcome nat :=
  if word =? 0 then Ok count
  else match fuel with
       | O => Err OutOfFuel
       | S fuel' => popcount_loop fuel' (ushr word 1)
                      (if Z.land word 1 =? 0 then count else S count)
       end.

Definition population_count (w : nat) (word : Z) : outcome nat :=
  popcount_loop w word 0%nat.

Fixpoint leading_loop (w fuel : nat) (word : Z) (count : nat) : outcome nat :=
  let maxone := ushl w 1 (w - 1) in
  if negb (Z.land word maxone =? 0) then Ok count
  else match fuel with
       | O => Err OutOfFuel
       | S fuel' => leading_loop w fuel' (ushl w word 1) (S count)
       end.

Definition leading_zero_count (w : nat) (word : Z) : outcome nat :=
  if negb (word =? 0) then leading_loop w w word 0%nat else Ok w.

Fixpoint trailing_loop (fuel : nat) (word : Z) (count : nat) : outcome nat :=
  if negb (Z.land word 1 =? 0) then Ok count
  else match fuel with
       | O => Err OutOfFuel
       | S fuel' => trailing_loop fuel' (ushr word 1) (S count)
       end.

Definition trailing_zero_count (w : nat) (word : Z) : outcome nat :=
  if negb (word =? 0) then trailing_loop w word 0%nat else Ok w.

(** ** The bits of a word *)

(** Bit [i] of a word, counted from the most significant one as the bit vector
    counts them. *)
Definition wbit (w : nat) (x : Z) (i : nat) : bool := Z.testbit x (w - 1 - i).

Definition word_ok (w : nat) (x : Z) : Prop := 0 ≤ x < 2 ^ w.

Lemma word_ok_testbit w x n : word_ok w x → w ≤ n → Z.testbit x n = false.
Proof.
  intros [Hx1 Hx2] Hn. destruct (decide (x = 0)) as [->|Hx0]; [apply Z.bits_0|].
  apply Z.bits_above_log2; [lia|]. apply Z.log2_lt_pow2 in Hx2; lia.
Qed.

Lemma testbit_word_ok (w : nat) x :
  0 ≤ x → (∀ n, w ≤ n → Z.testbit x n = false) → word_ok w x.
Proof.
  intros Hx Hn. split; [done|]. destruct (decide (x = 0)) as [->|]; [lia|].
  apply Z.log2_lt_pow2; [lia|]. destruct (decide (Z.log2 x < w)) as [|Hge]; [done|].
  assert (Z.testbit x (Z.log2 x) = true) by (apply Z.bit_log2; lia).
  rewrite Hn in * by lia. done.
Qed.

Lemma uint_testbit w x n : 0 ≤ n → Z.testbit (uint w x) n = (n <? w) && Z.testbit x n.
Proof.
  intros Hn. unfold uint. rewrite Z.land_spec, andb_comm. f_equal.
  rewrite Z.testbit_ones by lia. by rewrite (proj2 (Z.leb_le 0 n)).
Qed.

Lemma uint_ok w x : word_ok w (uint w x).
Proof. unfold uint. rewrite Z.land_ones by lia. apply Z.mod_pos_bound. lia. Qed.

Lemma uint_id w x : word_ok w x → uint w x = x.
Proof. intros Hx. unfold uint. rewrite Z.land_ones by lia. by apply Z.mod_small. Qed.

Lemma umax_ok w : word_ok w (umax w).
Proof. unfold umax, word_ok. rewrite Z.ones_equiv. lia. Qed.

Lemma wbit_umax w i : (i < w)%nat → wbit w (umax w) i = true.
Proof. intros. unfold wbit, umax. apply Z.ones_spec_low. lia. Qed.

Lemma wbit_uint w x i : (i < w)%nat → wbit w (uint w x) i = wbit w x i.
Proof.
  intros. unfold wbit. rewrite uint_testbit by lia.
  by rewrite (proj2 (Z.ltb_lt _ _)) by lia.
Qed.

Lemma wbit_unot w x i : (i < w)%nat → wbit w (unot w x) i = negb (wbit w x i).
Proof.
  intros. unfold unot. rewrite wbit_uint by done. unfold wbit.
  by rewrite Z.lnot_spec by lia.
Qed.

Lemma wbit_land w x y i : wbit w (Z.land x y) i = wbit w x i && wbit w y i.
Proof. apply Z.land_spec. Qed.
Lemma wbit_lor w x y i : wbit w (Z.lor x y) i = wbit w x i || wbit w y i.
Proof. apply Z.lor_spec. Qed.
Lemma wbit_lxor w x y i : wbit w (Z.lxor x y) i = xorb (wbit w x i) (wbit w y i).
Proof. apply Z.lxor_spec. Qed.
Lemma wbit_0 w i : wbit w 0 i = false.
Proof. apply Z.bits_0. Qed.

Lemma wbit_ushl w x k i :
  (i < w)%nat → wbit w (ushl w x k) i = bool_decide (i + k < w)%nat && wbit w x (i + k).
Proof.
  intros Hi. unfold ushl. rewrite wbit_uint by done. unfold wbit.
  rewrite Z.shiftl_spec by lia. case_bool_decide.
  - cbn. f_equal. lia.
  - cbn. apply Z.testbit_neg_r. lia.
Qed.

Lemma wbit_ushr w x k i :
  word_ok w x → (i < w)%nat →
  wbit w (ushr x k) i = bool_decide (k ≤ i)%nat && wbit w x (i - k).
Proof.
  intros Hx Hi. unfold wbit, ushr. rewrite Z.shiftr_spec by lia.
  case_bool_decide; cbn; [f_equal; lia|]. apply (word_ok_testbit w); [done|lia].
Qed.

Lemma land_ok w x y : word_ok w x → 0 ≤ y → word_ok w (Z.land x y).
Proof.
  intros Hx Hy. apply testbit_word_ok; [apply Z.land_nonneg; lia|].
  intros n Hn. by rewrite Z.land_spec, (word_ok_testbit w).
Qed.
Lemma lor_ok w x y : word_ok w x → word_ok w y → word_ok w (Z.lor x y).
Proof.
  intros Hx Hy. apply testbit_word_ok; [apply Z.lor_nonneg; unfold word_ok in *; lia|].
  intros n Hn. by rewrite Z.lor_spec, !(word_ok_testbit w).
Qed.
Lemma lxor_ok w x y : word_ok w x → word_ok w y → word_ok w (Z.lxor x y).
Proof.
  intros Hx Hy. apply testbit_word_ok; [apply Z.lxor_nonneg; unfold word_ok in *; lia|].
  intros n Hn. by rewrite Z.lxor_spec, !(word_ok_testbit w).
Qed.
Lemma ushr_ok w x k : word_ok w x → word_ok w (ushr x k).
Proof.
  intros Hx. apply testbit_word_ok; [apply Z.shiftr_nonneg; unfold word_ok in *; lia|].
  intros n Hn. unfold ushr. rewrite Z.shiftr_spec by lia. apply (word_ok_testbit w); [done|lia].
Qed.
Lemma unot_ok w x : word_ok w (unot w x).
Proof. apply uint_ok. Qed.
Lemma ushl_ok w x k : word_ok w (ushl w x k).
Proof. apply uint_ok. Qed.
Lemma zero_ok w : word_ok w 0.
Proof. unfold word_ok. lia. Qed.

Lemma land_words_ok w x y : word_ok w x → word_ok w y → word_ok w (Z.land x y).
Proof. intros Hx [Hy _]. by apply land_ok. Qed.

Create HintDb words.
#[export] Hint Resolve land_words_ok uint_ok umax_ok unot_ok ushl_ok ushr_ok lor_ok lxor_ok zero_ok : words.

(** Two words with the same bits are the same. *)
Lemma word_ext w x y :
  word_ok w x → word_ok w y → (∀ i, (i < w)%nat → wbit w x i = wbit w y i) → x = y.
Proof.
  intros Hx Hy Hbits. apply Z.bits_inj'. intros n Hn.
  destruct (decide (n < w)) as [Hlt|Hge].
  - specialize (Hbits (w - 1 - Z.to_nat n)%nat). unfold wbit in Hbits.
    replace (w - 1 - (w - 1 - Z.to_nat n)%nat) with n in Hbits by lia.
    apply Hbits. lia.
  - by rewrite !(word_ok_testbit w) by (done || lia).
Qed.

Lemma word_nonzero w x : word_ok w x → x ≠ 0 → ∃ i, (i < w)%nat ∧ wbit w x i = true.
Proof.
  intros Hx Hne. destruct (decide (Exists (λ i, wbit w x i = true) (seq 0 w))) as [Hex|Hno].
  - apply Exists_exists in Hex as (i & Hi & Hbit). apply elem_of_seq in Hi.
    exists i. split; [lia|done].
  - destruct Hne. apply (word_ext w); [done|apply zero_ok|]. intros i Hi. rewrite wbit_0.
    destruct (wbit w x i) eqn:Hb; [|done]. destruct Hno. apply Exists_exists.
    exists i. by rewrite elem_of_seq; split; [lia|].
Qed.

Lemma word_zero_bits w x : word_ok w x → x = 0 ↔ ∀ i, (i < w)%nat → wbit w x i = false.
Proof.
  intros Hx. split; [intros -> i _; apply wbit_0|]. intros Hb.
  destruct (decide (x = 0)) as [|(i & Hi & Hbit)%(word_nonzero w)]; [done| |done].
  by rewrite Hb in Hbit.
Qed.

(** ** What the counts are *)

(** The number of positions below [n] where [f] holds. *)
Fixpoint count_true (f : nat → bool) (n : nat) : nat :=
  match n with
  | O => O
  | S n' => (count_true f n' + (if f n' then 1 else 0))%nat
  end.

Lemma count_true_ext f g n :
  (∀ i, (i < n)%nat → f i = g i) → count_true f n = count_true g n.
Proof.
  induction n as [|n IH]; cbn; [done|]. intros Hfg.
  rewrite IH by (intros; apply Hfg; lia). by rewrite Hfg by lia.
Qed.

Lemma count_true_add f n k :
  count_true f (n + k) = (count_true f n + count_true (λ i, f (n + i)%nat) k)%nat.
Proof.
  induction k as [|k IH]; [by rewrite Nat.add_0_r; cbn; lia|].
  rewrite Nat.add_succ_r. cbn. rewrite IH. lia.
Qed.

Lemma count_true_false f n : (∀ i, (i < n)%nat → f i = false) → count_true f n = O.
Proof.
  intros Hf. rewrite (count_true_ext f (λ _, false)) by done. clear Hf.
  induction n; cbn; lia.
Qed.

Lemma count_true_step f w p l :
  count_true (λ i, f (w * p + i)%nat) (w * S l) =
    (count_true (λ i, f (w * p + i)%nat) w + count_true (λ i, f (w * S p + i)%nat) (w * l))%nat.
Proof.
  rewrite Nat.mul_succ_r, Nat.add_comm, count_true_add. f_equal. apply count_true_ext.
  intros i _. f_equal. lia.
Qed.

Lemma count_true_pad f n k :
  (n ≤ k)%nat → (∀ i, (n ≤ i)%nat → f i = false) → count_true f k = count_true f n.
Proof.
  intros Hk Hf. assert (k = n + (k - n))%nat as Heq by lia. rewrite Heq, count_true_add.
  rewrite (count_true_false (λ i, f (n + i)%nat)); [lia|]. intros i _. apply Hf. lia.
Qed.

(** The word without its last bit, seen as a narrower word. *)
Lemma wbit_ushr_narrow w x i : (i < w)%nat → wbit w (ushr x 1) i = wbit (S w) x i.
Proof. intros Hi. unfold wbit, ushr. rewrite Z.shiftr_spec by lia. f_equal. lia. Qed.

Lemma ushr_narrow_ok w x : word_ok (S w) x → word_ok w (ushr x 1).
Proof.
  intros Hx. apply testbit_word_ok; [apply Z.shiftr_nonneg; unfold word_ok in *; lia|].
  intros n Hn. unfold ushr. rewrite Z.shiftr_spec by lia.
  apply (word_ok_testbit (S w)); [done|lia].
Qed.

Lemma land_1_zero x : (Z.land x 1 =? 0) = negb (Z.testbit x 0).
Proof.
  change 1 with (Z.ones 1). rewrite Z.land_ones by lia. change (2 ^ 1) with 2.
  rewrite Z.bit0_odd, (Zmod_odd x). by destruct (Z.odd x).
Qed.

Lemma wbit_last w x i : w = S i → wbit w x i = Z.testbit x 0.
Proof. intros ->. unfold wbit. f_equal. lia. Qed.

Lemma popcount_loop_spec w x count :
  word_ok w x → popcount_loop w x count = Ok (count + count_true (wbit w x) w)%nat.
Proof.
  revert x count. induction w as [|w IH]; intros x count Hx.
  { assert (x = 0) as -> by (unfold word_ok in Hx; cbn in Hx; lia). cbn. f_equal. lia. }
  cbn [popcount_loop]. destruct (Z.eqb_spec x 0) as [->|Hne].
  { rewrite count_true_false by (intros; apply wbit_0). f_equal. lia. }
  rewrite IH by by apply ushr_narrow_ok. cbn. f_equal.
  rewrite (count_true_ext (wbit w (ushr x 1)) (wbit (S w) x))
    by (intros; by apply wbit_ushr_narrow).
  rewrite land_1_zero. rewrite (wbit_last (S w) x w) by done.
  destruct (Z.testbit x 0); cbn; lia.
Qed.

Lemma population_count_spec w x :
  word_ok w x → population_count w x = Ok (count_true (wbit w x) w).
Proof. apply popcount_loop_spec. Qed.

(** [i] is the first position of a word that is set, or the last. *)
Definition first_set (w : nat) (x : Z) (i : nat) : Prop :=
  (i < w)%nat ∧ wbit w x i = true ∧ ∀ j, (j < i)%nat → wbit w x j = false.
Definition last_set (w : nat) (x : Z) (i : nat) : Prop :=
  (i < w)%nat ∧ wbit w x i = true ∧ ∀ j, (i < j < w)%nat → wbit w x j = false.

Lemma topbit_ok w : word_ok w (ushl w 1 (w - 1)).
Proof. apply ushl_ok. Qed.

Lemma wbit_topbit w i : (i < w)%nat → wbit w (ushl w 1 (w - 1)) i = bool_decide (i = 0%nat).
Proof.
  intros Hi. rewrite wbit_ushl by done. destruct (decide (i = 0%nat)) as [->|].
  - rewrite !bool_decide_eq_true_2 by lia. unfold wbit.
    replace (w - 1 - (0 + (w - 1))%nat) with 0 by lia. done.
  - rewrite !bool_decide_eq_false_2 by lia. done.
Qed.

Lemma land_topbit w x :
  (0 < w)%nat → word_ok w x → (Z.land x (ushl w 1 (w - 1)) =? 0) = negb (wbit w x 0).
Proof.
  intros Hw Hx. set (y := Z.land _ _).
  assert (word_ok w y) as Hy.
  { apply land_ok; [done|]. pose proof (topbit_ok w). unfold word_ok in *. lia. }
  assert (∀ i, (i < w)%nat → wbit w y i = bool_decide (i = 0%nat) && wbit w x 0) as Hbits.
  { intros i Hi. unfold y. rewrite wbit_land, wbit_topbit by done.
    case_bool_decide; subst; cbn; [by rewrite andb_true_r|by rewrite andb_false_r]. }
  destruct (Z.eqb_spec y 0) as [H0|H0].
  - rewrite (word_zero_bits w) in H0 by done. specialize (H0 0%nat Hw).
    rewrite Hbits in H0 by done. cbn in H0. by destruct (wbit w x 0).
  - apply (word_nonzero w) in H0 as (i & Hi & Hb); [|done]. rewrite Hbits in Hb by done.
    destruct (wbit w x 0); [done|]. by rewrite andb_false_r in Hb.
Qed.

Lemma leading_loop_spec w fuel x i count :
  word_ok w x → first_set w x i → (i ≤ fuel)%nat →
  leading_loop w fuel x count = Ok (count + i)%nat.
Proof.
  revert x i count. induction fuel as [|fuel IH]; intros x i count Hx (Hi & Hb & Hlow) Hf;
    cbn [leading_loop]; rewrite land_topbit, negb_involutive by (done || lia).
  - assert (i = 0%nat) as -> by lia. rewrite Hb. f_equal. lia.
  - destruct i as [|i]; [rewrite Hb; f_equal; lia|]. rewrite Hlow by lia.
    rewrite (IH _ i); [f_equal; lia|apply ushl_ok| |lia]. split_and!; [lia|..].
    + rewrite wbit_ushl, bool_decide_eq_true_2 by lia. by rewrite Nat.add_1_r.
    + intros j Hj. rewrite wbit_ushl, bool_decide_eq_true_2 by lia. apply Hlow. lia.
Qed.

Lemma first_set_exists w x : word_ok w x → x ≠ 0 → ∃ i, first_set w x i.
Proof.
  intros Hx (i & Hi & Hb)%(word_nonzero w); [|done].
  induction i as [i IH] using lt_wf_ind.
  destruct (decide (Exists (λ j, wbit w x j = true) (seq 0 i))) as [Hex|Hno].
  - apply Exists_exists in Hex as (j & Hj%elem_of_seq & Hbj).
    apply (IH j); [lia|lia|done].
  - exists i. split_and!; [done|done|]. intros j Hj. destruct (wbit w x j) eqn:E; [|done].
    destruct Hno. apply Exists_exists. exists j. by rewrite elem_of_seq; split; [lia|].
Qed.

Lemma leading_zero_count_spec w x :
  word_ok w x → x ≠ 0 → ∃ i, leading_zero_count w x = Ok i ∧ first_set w x i.
Proof.
  intros Hx Hne. destruct (first_set_exists w x Hx Hne) as [i Hi]. exists i. split; [|done].
  unfold leading_zero_count. destruct (Z.eqb_spec x 0) as [|_]; [done|]. cbn.
  rewrite (leading_loop_spec w w x i); [done..|]. destruct Hi. lia.
Qed.

Lemma last_set_exists w x : word_ok w x → x ≠ 0 → ∃ i, last_set w x i.
Proof.
  intros Hx (i & Hi & Hb)%(word_nonzero w); [|done].
  remember (w - i)%nat as k eqn:Hk. revert i Hi Hb Hk.
  induction k as [k IH] using lt_wf_ind. intros i Hi Hb ->.
  destruct (decide (Exists (λ j, wbit w x j = true) (seq (S i) (w - S i)))) as [Hex|Hno].
  - apply Exists_exists in Hex as (j & Hj%elem_of_seq & Hbj).
    apply (IH (w - j)%nat) with j; [lia|lia|done|done].
  - exists i. split_and!; [done|done|]. intros j Hj. destruct (wbit w x j) eqn:E; [|done].
    destruct Hno. apply Exists_exists. exists j. by rewrite elem_of_seq; split; [lia|].
Qed.

Lemma trailing_loop_spec w fuel x i count :
  word_ok w x → last_set w x i → (w ≤ fuel)%nat →
  trailing_loop fuel x count = Ok (count + (w - 1 - i))%nat.
Proof.
  revert w x i count. induction fuel as [|fuel IH]; intros w x i count Hx (Hi & Hb & Hhi) Hf;
    [lia|]. cbn [trailing_loop]. rewrite land_1_zero, negb_involutive.
  assert (wbit w x (w - 1) = Z.testbit x 0) as Hlast by (apply wbit_last; lia).
  destruct (decide (i = w - 1)%nat) as [->|].
  - rewrite <- Hlast, Hb. f_equal. lia.
  - rewrite <- Hlast, Hhi by lia. destruct w as [|w]; [lia|].
    rewrite (IH w _ i); [f_equal; lia|by apply ushr_narrow_ok| |lia].
    split_and!; [lia|by rewrite wbit_ushr_narrow by lia|].
    intros j Hj. rewrite wbit_ushr_narrow by lia. apply Hhi. lia.
Qed.

Lemma trailing_zero_count_spec w x :
  word_ok w x → x ≠ 0 →
  ∃ i, trailing_zero_count w x = Ok (w - 1 - i)%nat ∧ last_set w x i.
Proof.
  intros Hx Hne. destruct (last_set_exists w x Hx Hne) as [i Hi]. exists i. split; [|done].
  unfold trailing_zero_count. destruct (Z.eqb_spec x 0) as [|_]; [done|]. cbn.
  by rewrite (trailing_loop_spec w w x i).
Qed.
