(* ===== verification/BitVector.v ===== *)
(** * Bit vectors

    utility/BitVector.hpp: a vector of bits over an array of words, with the
    short version that keeps up to 32 bits in one word of 8, 16 or 32 bits. A
    [size_t] has 64 bits. Positions and lengths are [nat]; words are [Z]. *)

From stdpp Require Import options.
From S2P Require Import Prelude BitManipulation.

Definition kLowerOrderMask : nat := 63.
Definition kHigherOrderShift : nat := 6.
Definition kSizeTBits : nat := 64.

(** [n >> kHigherOrderShift] and [n & kLowerOrderMask]. *)
Definition hi (n : nat) : nat := Nat.shiftr n kHigherOrderShift.
Definition lo (n : nat) : nat := Nat.land n kLowerOrderMask.

(** [data_array_] is the memory of the vector, as words of the width its
    operations access it with. *)
Record BitVector := mkBitVector {
  enable_short_version : bool;
  num_bits_ : nat;
  data_array_ : list Z;
}.

Definition short_version_ (bv : BitVector) : bool :=
  enable_short_version bv && (num_bits_ bv <? 33).

Definition data_array_size (num_bits : nat) : nat :=
  hi num_bits + (if lo num_bits =? 0 then 0 else 1).

Definition data_array_size_ (bv : BitVector) : nat := data_array_size (num_bits_ bv).

(** The width the short version picks: the branches on [num_bits_ < 9] and
    [num_bits_ < 17] that every operation starts with. *)
Definition short_width (num_bits : nat) : nat :=
  if num_bits <? 9 then 8 else if num_bits <? 17 then 16 else 32.

Definition size (bv : BitVector) : nat := num_bits_ bv.

Definition set_data (bv : BitVector) (data : list Z) : BitVector :=
  mkBitVector (enable_short_version bv) (num_bits_ bv) data.

(** ** Sizes *)

Definition BytesNeeded (enable_short : bool) (num_bits : nat) : nat :=
  if enable_short && (num_bits =? 0) then 0
  else if enable_short && (num_bits <? 9) then 1
  else if enable_short && (num_bits <? 17) then 2
  else if enable_short && (num_bits <? 33) then 4
  else if negb (lo num_bits =? 0) then (hi num_bits + 1) * 8
  else hi num_bits * 8.

Definition MaxCapacityForBytes (enable_short : bool) (num_bytes : nat) : nat :=
  if num_bytes =? 0 then 0
  else if enable_short && ((1 <=? num_bytes) && (num_bytes <? 2)) then 8
  else if enable_short && ((2 <=? num_bytes) && (num_bytes <? 4)) then 16
  else if enable_short && ((4 <=? num_bytes) && (num_bytes <? 8)) then 32
  else Nat.shiftl (num_bytes / 8) kHigherOrderShift.

(** ** Masks *)

Definition TopBit (w : nat) : Z := ushl w 1 (w - 1).

(** A shift of a narrow word is done in [int], 32 bits wide. *)
Definition promoted (w : nat) : nat := Nat.max 32 w.

Definition MaskBitRange (w start_bit_num range_num_bits : nat) : Z :=
  let range_num_bits := if w <? range_num_bits then w else range_num_bits in
  if negb (range_num_bits =? 0)
  then ushr (ushl w (umax w) (w - range_num_bits)) start_bit_num
  else 0%Z.

(** [FlipLimitedBits(item, num_bits)]. *)
Definition FlipLimitedBits (w : nat) (item : Z) (num_bits : nat) : Z :=
  let item := unot w item in
  if negb (num_bits =? 0) then Z.land item (ushl w (umax w) (w - num_bits)) else item.

(** ** Memory *)

(** [*reinterpret_cast<VectorType*>(data_array_)], read and written. *)
Definition load (bv : BitVector) : outcome Z := vec_at (data_array_ bv) 0.
Definition store (bv : BitVector) (x : Z) : outcome BitVector :=
  data ← vec_set (data_array_ bv) 0 x;
  Ok (set_data bv data).

(** [for (position = from; position < from + count; ++position)
       data[position] = f(position, data[position])]. *)
Fixpoint for_words (from count : nat) (f : nat → Z → outcome Z) (data : list Z)
  : outcome (list Z) :=
  match count with
  | O => Ok data
  | S count' =>
      x ← vec_at data from;
      y ← f from x;
      data ← vec_set data from y;
      for_words (S from) count' f data
  end.

(** [std::memset] of [count] words from [from] on to the word [x]. *)
Definition memset (from count : nat) (x : Z) (data : list Z) : outcome (list Z) :=
  for_words from count (λ _ _, Ok x) data.

(** [data[i] = f(data[i])]. *)
Definition update (i : nat) (f : Z → Z) (data : list Z) : outcome (list Z) :=
  x ← vec_at data i;
  vec_set data i (f x).

(** ** Construction and assignment *)

(** The words of [BytesNeeded(num_bits)] bytes. *)
Definition storage_words (enable_short : bool) (num_bits : nat) : nat :=
  if enable_short && (num_bits <? 33) then (if num_bits =? 0 then 0 else 1)
  else data_array_size num_bits.

Definition clear (bv : BitVector) : outcome BitVector :=
  data ← memset 0 (storage_words (enable_short_version bv) (num_bits_ bv)) 0%Z
           (data_array_ bv);
  Ok (set_data bv data).

(** The constructor that owns its storage: [malloc]ed memory, then [clear()]. *)
Definition new_BitVector (enable_short : bool) (num_bits : nat) (garbage : list Z)
  : outcome BitVector :=
  clear (mkBitVector enable_short num_bits garbage).

Definition memcpy_words (count : nat) (src dest : list Z) : outcome (list Z) :=
  for_words 0 count (λ i _, vec_at src i) dest.

Definition assignFrom (bv other : BitVector) : outcome BitVector :=
  data ← memcpy_words (storage_words (enable_short_version bv) (num_bits_ bv))
           (data_array_ other) (data_array_ bv);
  Ok (set_data bv data).

Definition setMemory (bv : BitVector) (ptr : list Z) : BitVector := set_data bv ptr.

Definition assignFromLonger (bv other : BitVector) : outcome BitVector :=
  if enable_short_version bv then Err CheckFailed
  else
    data ← memcpy_words (storage_words (enable_short_version bv) (num_bits_ bv))
             (data_array_ other) (data_array_ bv);
    data ← (if negb (lo (num_bits_ bv) =? 0)
            then update (data_array_size_ bv - 1)
                   (λ x, Z.land x (MaskBitRange 64 0 (lo (num_bits_ bv)))) data
            else Ok data);
    Ok (set_data bv data).

(** ** One bit *)

Definition getBitRegularVersion (bit_num : nat) (bv : BitVector) : outcome bool :=
  x ← vec_at (data_array_ bv) (hi bit_num);
  Ok (negb (Z.land (ushl 64 x (lo bit_num)) (TopBit 64) =? 0)%Z).

Definition getBitShortVersion (w bit_num : nat) (bv : BitVector) : outcome bool :=
  x ← load bv;
  Ok (negb (Z.land (ushl (promoted w) x bit_num) (TopBit w) =? 0)%Z).

Definition getBit (bit_num : nat) (bv : BitVector) : outcome bool :=
  if short_version_ bv
  then getBitShortVersion (short_width (num_bits_ bv)) bit_num bv
  else getBitRegularVersion bit_num bv.

Definition setBitRegularVersion (bit_num : nat) (value : bool) (bv : BitVector)
  : outcome BitVector :=
  let mask := unot 64 (ushr (TopBit 64) (lo bit_num)) in
  let bit_value := Z.b2z value in
  let op_value := unot 64 (Z.lor (uint 64 (bit_value - 1)) mask) in
  let index_pos_in_data_array := hi bit_num in
  data ← update index_pos_in_data_array (λ x, Z.land x mask) (data_array_ bv);
  data ← update index_pos_in_data_array (λ x, Z.lor x op_value) data;
  Ok (set_data bv data).

(** The overload without a value sets the bit. *)
Definition setBitRegularVersion_on (bit_num : nat) (bv : BitVector) : outcome BitVector :=
  data ← update (hi bit_num) (λ x, Z.lor x (ushr (TopBit 64) (lo bit_num))) (data_array_ bv);
  Ok (set_data bv data).

Definition setBitShortVersion (w bit_num : nat) (value : bool) (bv : BitVector)
  : outcome BitVector :=
  x ← load bv;
  store bv (if value then Z.lor x (ushr (TopBit w) bit_num)
            else uint w (Z.land x (Z.lnot (ushr (TopBit w) bit_num)))).

Definition setBit (bit_num : nat) (value : bool) (bv : BitVector) : outcome BitVector :=
  if short_version_ bv
  then setBitShortVersion (short_width (num_bits_ bv)) bit_num value bv
  else setBitRegularVersion bit_num value bv.

Definition setBit_on (bit_num : nat) (bv : BitVector) : outcome BitVector :=
  setBitRegularVersion_on bit_num bv.

(** ** A word at a time *)

Definition getBitWord (word_id : nat) (bv : BitVector) : outcome Z :=
  if short_version_ bv then Err CheckFailed else vec_at (data_array_ bv) word_id.

Definition setBitWord (word_id : nat) (value : Z) (bv : BitVector) : outcome BitVector :=
  if short_version_ bv then Err CheckFailed
  else
    data ← vec_set (data_array_ bv) word_id value;
    data ← (if (word_id =? data_array_size_ bv - 1) && negb (lo (num_bits_ bv) =? 0)
            then update word_id
                   (λ x, Z.land x (ushl 64 (umax 64) (64 - lo (num_bits_ bv)))) data
            else Ok data);
    Ok (set_data bv data).

(** ** Whole vectors *)

Definition flipBits (bv : BitVector) : outcome BitVector :=
  if num_bits_ bv =? 0 then Ok bv
  else if short_version_ bv then
    x ← load bv;
    store bv (FlipLimitedBits (short_width (num_bits_ bv)) x (num_bits_ bv))
  else
    data ← for_words 0 (data_array_size_ bv - 1) (λ _ x, Ok (unot 64 x)) (data_array_ bv);
    data ← update (data_array_size_ bv - 1)
             (λ x, FlipLimitedBits 64 x (lo (num_bits_ bv))) data;
    Ok (set_data bv data).

(** The shape of [intersectWith] and [unionWith]. *)
Definition combine_with (op : Z → Z → Z) (bv other : BitVector) : outcome BitVector :=
  if short_version_ bv then
    if num_bits_ bv =? 0 then Ok bv
    else x ← load bv; y ← load other; store bv (op x y)
  else
    data ← for_words 0 (data_array_size_ bv)
             (λ i x, y ← vec_at (data_array_ other) i; Ok (op x y)) (data_array_ bv);
    Ok (set_data bv data).

Definition intersectWith (bv other : BitVector) : outcome BitVector :=
  combine_with Z.land bv other.
Definition unionWith (bv other : BitVector) : outcome BitVector :=
  combine_with Z.lor bv other.

(** [unionWith] of a pointer to raw memory. *)
Definition unionWith_memory (bv : BitVector) (other_data_array : list Z)
  : outcome BitVector :=
  data ← for_words 0 (data_array_size_ bv)
           (λ i x, y ← vec_at other_data_array i; Ok (Z.lor x y)) (data_array_ bv);
  Ok (set_data bv data).

Definition unsetFrom (bv other : BitVector) : outcome BitVector :=
  if enable_short_version bv then Err CheckFailed
  else
    let limit := if data_array_size_ bv <? data_array_size_ other
                 then data_array_size_ bv else data_array_size_ other in
    data ← for_words 0 limit
             (λ i x, y ← vec_at (data_array_ other) i; Ok (Z.land x (unot 64 y)))
             (data_array_ bv);
    Ok (set_data bv data).

(** ** Ranges *)

(** [x |= mask] when the bits are set, [x &= ~mask] when they are cleared. *)
Definition put_mask (value : bool) (mask x : Z) : Z :=
  if value then Z.lor x mask else Z.land x (unot 64 mask).

(** The whole elements with one [memset], then the first part of the last
    element. *)
Definition set_range_rest (value : bool) (start_element range_num_bits : nat)
    (data : list Z) : outcome (list Z) :=
  let range_elements := hi range_num_bits in
  data ← memset start_element range_elements (if value then umax 64 else 0%Z) data;
  update (start_element + range_elements)
    (put_mask value (MaskBitRange 64 0 (lo range_num_bits))) data.

Definition setBitRangeRegularVersion (start_bit_num range_num_bits : nat) (value : bool)
    (bv : BitVector) : outcome BitVector :=
  let start_element := hi start_bit_num in
  let start_lower_bits := lo start_bit_num in
  data ←
    (if negb (start_lower_bits =? 0) then
       data ← update start_element
                (put_mask value (MaskBitRange 64 start_lower_bits range_num_bits))
                (data_array_ bv);
       let range_num_bits := range_num_bits + start_lower_bits in
       if range_num_bits <=? kSizeTBits then Ok data
       else set_range_rest value (start_element + 1) (range_num_bits - kSizeTBits) data
     else set_range_rest value start_element range_num_bits (data_array_ bv));
  Ok (set_data bv data).

Definition setBitRangeShortVersion (w start_bit_num range_num_bits : nat) (value : bool)
    (bv : BitVector) : outcome BitVector :=
  x ← load bv;
  store bv (if value then Z.lor x (MaskBitRange w start_bit_num range_num_bits)
            else uint w (Z.land x (Z.lnot (MaskBitRange w start_bit_num range_num_bits)))).

Definition setBitRange (start_bit_num range_num_bits : nat) (value : bool)
    (bv : BitVector) : outcome BitVector :=
  if short_version_ bv
  then setBitRangeShortVersion (short_width (num_bits_ bv)) start_bit_num range_num_bits value bv
  else setBitRangeRegularVersion start_bit_num range_num_bits value bv.

(** ** Tests and counts *)

Fixpoint any_loop (array_idx count : nat) (data : list Z) : outcome bool :=
  match count with
  | O => Ok false
  | S count' =>
      x ← vec_at data array_idx;
      if negb (x =? 0)%Z then Ok true else any_loop (S array_idx) count' data
  end.

Definition any (bv : BitVector) : outcome bool :=
  if short_version_ bv then
    if num_bits_ bv =? 0 then Ok false
    else x ← load bv; Ok (negb (x =? 0)%Z)
  else any_loop 0 (data_array_size_ bv) (data_array_ bv).

Fixpoint all_loop (array_idx count : nat) (data : list Z) : outcome bool :=
  match count with
  | O => Ok true
  | S count' =>
      x ← vec_at data array_idx;
      if negb (x =? umax 64)%Z then Ok false else all_loop (S array_idx) count' data
  end.

(** In the short version the right-hand side of the comparison is an [int] for
    the 8 and the 16 bit words: it is not cut down to the width of the word. *)
Definition all (bv : BitVector) : outcome bool :=
  if short_version_ bv then
    if num_bits_ bv =? 0 then Ok true
    else
      let w := short_width (num_bits_ bv) in
      x ← load bv;
      Ok (x =? ushl (promoted w) (umax w) (w - num_bits_ bv))%Z
  else
    let tail_element_bits := lo (num_bits_ bv) in
    full ← all_loop 0 (data_array_size_ bv - (if tail_element_bits =? 0 then 0 else 1))
             (data_array_ bv);
    if negb full then Ok false
    else if tail_element_bits =? 0 then Ok true
    else
      x ← vec_at (data_array_ bv) (data_array_size_ bv - 1);
      Ok (x =? ushl 64 (umax 64) (kSizeTBits - tail_element_bits))%Z.

Fixpoint count_loop (position loops count : nat) (data : list Z) : outcome nat :=
  match loops with
  | O => Ok count
  | S loops' =>
      x ← vec_at data position;
      c ← population_count 64 x;
      count_loop (S position) loops' (count + c) data
  end.

Definition onesCount (bv : BitVector) : outcome nat :=
  if short_version_ bv then
    if num_bits_ bv =? 0 then Ok 0
    else x ← load bv; population_count (short_width (num_bits_ bv)) x
  else count_loop 0 (data_array_size_ bv) 0 (data_array_ bv).

(** ** Searches *)

(** The search of the whole words from [array_idx] on; [f] is the identity, or
    the complement in the search for a zero. *)
Fixpoint first_loop (f : Z → Z) (num_bits array_idx count : nat) (data : list Z)
  : outcome nat :=
  match count with
  | O => Ok num_bits
  | S count' =>
      x ← vec_at data array_idx;
      if negb (f x =? 0)%Z then
        c ← leading_zero_count 64 (f x);
        Ok (Nat.lor (Nat.shiftl array_idx kHigherOrderShift) c)
      else first_loop f num_bits (S array_idx) count' data
  end.

(** The part the searches forward share: the word [position] is in, with the
    bits before it left out by [cut], then the words after it. *)
Definition first_regular (f : Z → Z) (cut : Z → nat → Z) (position : nat) (bv : BitVector)
  : outcome nat :=
  let size := data_array_size_ bv in
  if negb (lo position =? 0) then
    x ← vec_at (data_array_ bv) (hi position);
    let value := cut x (lo position) in
    if negb (value =? 0)%Z then
      c ← leading_zero_count 64 value;
      Ok (Nat.lor (Nat.ldiff position kLowerOrderMask) c)
    else
      let position := Nat.ldiff position kLowerOrderMask + kSizeTBits in
      first_loop f (num_bits_ bv) (hi position) (size - hi position) (data_array_ bv)
  else first_loop f (num_bits_ bv) (hi position) (size - hi position) (data_array_ bv).

Definition firstOne (position : nat) (bv : BitVector) : outcome nat :=
  if num_bits_ bv =? 0 then Ok 0
  else if short_version_ bv then
    let w := short_width (num_bits_ bv) in
    x ← load bv;
    let value := Z.land x (ushr (umax w) position) in
    if negb (value =? 0)%Z then leading_zero_count w value else Ok (num_bits_ bv)
  else first_regular id (λ x k, Z.land x (ushr (umax 64) k)) position bv.

Definition firstZero (position : nat) (bv : BitVector) : outcome nat :=
  if num_bits_ bv =? 0 then Ok 0
  else if short_version_ bv then
    let w := short_width (num_bits_ bv) in
    x ← load bv;
    let value := uint w (Z.lor x (if negb (position =? 0)
                                  then ushl (promoted w) (umax w) (w - position) else 0%Z)) in
    let value := unot w value in
    if negb (value =? 0)%Z then leading_zero_count w value else Ok (num_bits_ bv)
  else first_regular (unot 64)
         (λ x k, unot 64 (Z.lor x (ushl 64 (umax 64) (kSizeTBits - k)))) position bv.

(** The search of the whole words from [array_idx] down to the first. *)
Fixpoint last_loop (f : Z → Z) (num_bits array_idx : nat) (data : list Z) : outcome nat :=
  x ← vec_at data array_idx;
  if negb (f x =? 0)%Z then
    c ← trailing_zero_count 64 (f x);
    Ok (Nat.shiftl (array_idx + 1) kHigherOrderShift - c - 1)
  else match array_idx with
       | O => Ok num_bits
       | S array_idx' => last_loop f num_bits array_idx' data
       end.

Definition last_regular (f : Z → Z) (cut : Z → nat → Z) (position : nat) (bv : BitVector)
  : outcome nat :=
  let array_idx := hi (position - 1) in
  if negb (lo position =? 0) then
    x ← vec_at (data_array_ bv) array_idx;
    let value := cut x (lo position) in
    if negb (value =? 0)%Z then
      c ← trailing_zero_count 64 value;
      Ok (Nat.shiftl (array_idx + 1) kHigherOrderShift - c - 1)
    else match array_idx with
         | O => Ok (num_bits_ bv)
         | S array_idx' => last_loop f (num_bits_ bv) array_idx' (data_array_ bv)
         end
  else last_loop f (num_bits_ bv) array_idx (data_array_ bv).

(** [None] is the default argument, the largest [size_t]. *)
Definition lastOne (position : option nat) (bv : BitVector) : outcome nat :=
  let position := match position with None => num_bits_ bv | Some p => p end in
  if position =? 0 then Ok (num_bits_ bv)
  else if short_version_ bv then
    let w := short_width (num_bits_ bv) in
    x ← load bv;
    let value := uint w (Z.land x (ushl (promoted w) (umax w) (w - position))) in
    if negb (value =? 0)%Z then c ← trailing_zero_count w value; Ok (w - 1 - c)
    else Ok (num_bits_ bv)
  else last_regular id (λ x k, Z.land x (ushl 64 (umax 64) (kSizeTBits - k))) position bv.

Definition lastZero (position : option nat) (bv : BitVector) : outcome nat :=
  let position := match position with None => num_bits_ bv | Some p => p end in
  if position =? 0 then Ok (num_bits_ bv)
  else if short_version_ bv then
    let w := short_width (num_bits_ bv) in
    x ← load bv;
    let value := unot w (Z.lor x (Z.lnot (ushl (promoted w) (umax w) (w - position)))) in
    if negb (value =? 0)%Z then c ← trailing_zero_count w value; Ok (w - 1 - c)
    else Ok (num_bits_ bv)
  else last_regular (unot 64)
         (λ x k, unot 64 (Z.lor x (unot 64 (ushl 64 (umax 64) (kSizeTBits - k))))) position bv.

(** ** The bits of one vector that another lacks *)

(** A [size_t] stored in a vector of [int]. *)
Definition to_int (n : nat) : Z :=
  let m := uint 32 n in if (m <? 2 ^ 31)%Z then m else (m - 2 ^ 32)%Z.

Fixpoint subtract_word (fuel base : nat) (value : Z) (output : list Z) : outcome (list Z) :=
  if (value =? 0)%Z then Ok output
  else match fuel with
       | O => Err OutOfFuel
       | S fuel' =>
           offset ← leading_zero_count 64 value;
           subtract_word fuel' base (Z.lxor value (ushr (TopBit 64) offset))
             (output ++ [to_int (base + offset)])
       end.

Fixpoint subtract_loop (array_idx count : nat) (data other : list Z) (output : list Z)
  : outcome (list Z) :=
  match count with
  | O => Ok output
  | S count' =>
      x ← vec_at data array_idx;
      y ← vec_at other array_idx;
      output ← subtract_word 64 (Nat.shiftl array_idx kHigherOrderShift)
                 (Z.land x (unot 64 y)) output;
      subtract_loop (S array_idx) count' data other output
  end.

Definition subtractTo (bv other : BitVector) (output : list Z) : outcome (list Z) :=
  subtract_loop 0 (data_array_size_ bv) (data_array_ bv) (data_array_ other) output.

(** ** Shifts of the tail *)

Definition memmove (dest src count : nat) (data : list Z) : outcome (list Z) :=
  if (dest + count <=? length data) && (src + count <=? length data)
  then Ok (take dest data ++ take count (drop src data) ++ drop (dest + count) data)
  else Err UndefinedBehaviour.

(** A shift by the width of the shifted type or more is undefined. *)
Definition shift_defined (w distance : nat) : outcome unit :=
  if distance <? promoted w then Ok tt else Err UndefinedBehaviour.

Definition shiftTailForwardShortVersion (w tail_start shift_distance : nat)
    (bv : BitVector) : outcome BitVector :=
  x ← load bv;
  _ ← shift_defined w (tail_start + shift_distance);
  let head := Z.land x (MaskBitRange w 0 tail_start) in
  let tail := Z.land x (MaskBitRange w (tail_start + shift_distance) w) in
  store bv (uint w (Z.lor head (ushl (promoted w) tail shift_distance))).

Definition shiftTailBackwardShortVersion (w tail_start shift_distance : nat)
    (bv : BitVector) : outcome BitVector :=
  x ← load bv;
  _ ← shift_defined w shift_distance;
  let head := Z.land x (MaskBitRange w 0 tail_start) in
  let tail := Z.land x (MaskBitRange w tail_start w) in
  store bv (Z.lor head (ushr tail shift_distance)).

(** The loop of the forward shift over unaligned words; returns the element
    after the last one read. *)
Fixpoint forward_loop (dest_element src_element count src_lower_bits : nat)
    (data : list Z) : outcome (list Z) :=
  match count with
  | O => Ok data
  | S count' =>
      x ← vec_at data src_element;
      y ← vec_at data (src_element + 1);
      data ← vec_set data dest_element
               (Z.lor (ushl 64 x src_lower_bits) (ushr y (kSizeTBits - src_lower_bits)));
      forward_loop (dest_element + 1) (src_element + 1) count' src_lower_bits data
  end.

(** From the first word that is filled as a whole to the end. *)
Definition forward_rest (size dest_element src_element src_lower_bits : nat)
    (data : list Z) : outcome (list Z) :=
  '(data, dest_element) ←
    (if negb (src_lower_bits =? 0) then
       let count := size - 1 - src_element in
       data ← forward_loop dest_element src_element count src_lower_bits data;
       x ← vec_at data (src_element + count);
       data ← vec_set data (dest_element + count) (ushl 64 x src_lower_bits);
       Ok (data, dest_element + count)
     else
       data ← memmove dest_element src_element (size - src_element) data;
       Ok (data, dest_element + (size - src_element) - 1));
  let dest_element := dest_element + 1 in
  memset dest_element (size - dest_element) 0%Z data.

Definition shiftTailForwardRegularVersion (tail_start shift_distance : nat)
    (bv : BitVector) : outcome BitVector :=
  let size := data_array_size_ bv in
  let data := data_array_ bv in
  if shift_distance =? 0 then Ok bv
  else
    let dest_element := hi tail_start in
    let dest_lower_bits := lo tail_start in
    let src_element := hi (tail_start + shift_distance) in
    let src_lower_bits := lo (tail_start + shift_distance) in
    data ←
      (if size <=? src_element then
         if negb (dest_lower_bits =? 0) then
           data ← update dest_element
                    (λ x, Z.land x (MaskBitRange 64 0 dest_lower_bits)) data;
           memset (dest_element + 1) (size - (dest_element + 1)) 0%Z data
         else memset dest_element (size - dest_element) 0%Z data
       else if negb (dest_lower_bits =? 0) then
         s ← vec_at data src_element;
         data ← update dest_element
                  (λ x, Z.lor (Z.land x (MaskBitRange 64 0 dest_lower_bits))
                              (ushr (ushl 64 s src_lower_bits) dest_lower_bits)) data;
         if dest_lower_bits <? src_lower_bits then
           let dest_lower_bits := dest_lower_bits + (kSizeTBits - src_lower_bits) in
           let src_element := src_element + 1 in
           if src_element =? size then
             memset (dest_element + 1) (size - (dest_element + 1)) 0%Z data
           else
             s ← vec_at data src_element;
             data ← update dest_element (λ x, Z.lor x (ushr s dest_lower_bits)) data;
             forward_rest size (dest_element + 1) src_element
               (kSizeTBits - dest_lower_bits) data
         else
           let src_lower_bits := src_lower_bits + (kSizeTBits - dest_lower_bits) in
           forward_rest size (dest_element + 1) (src_element + hi src_lower_bits)
             (lo src_lower_bits) data
       else forward_rest size dest_element src_element src_lower_bits data);
    Ok (set_data bv data).

Definition shiftTailForward (tail_start shift_distance : nat) (bv : BitVector)
  : outcome BitVector :=
  if short_version_ bv
  then shiftTailForwardShortVersion (short_width (num_bits_ bv)) tail_start shift_distance bv
  else shiftTailForwardRegularVersion tail_start shift_distance bv.

(** The shifted elements from the last down to the one after [last]. *)
Fixpoint backward_loop (count last shift_elements shift_lower_bits : nat) (data : list Z)
  : outcome (list Z) :=
  match count with
  | O => Ok data
  | S count' =>
      let element := last + count in
      x ← vec_at data (element - shift_elements);
      y ← vec_at data (element - shift_elements - 1);
      data ← vec_set data element
               (Z.lor (ushr x shift_lower_bits) (ushl 64 y (kSizeTBits - shift_lower_bits)));
      backward_loop count' last shift_elements shift_lower_bits data
  end.

(** [x &= ~MaskBitRange(start, kSizeTBits)]. *)
Definition drop_tail (start : nat) (x : Z) : Z :=
  Z.land x (unot 64 (MaskBitRange 64 start kSizeTBits)).

(** The tail is so short that it is zeroed out. *)
Definition backward_zero (size tail_start_element tail_start_lower_bits : nat)
    (data : list Z) : outcome (list Z) :=
  let partial := if tail_start_lower_bits =? 0 then 0 else 1 in
  let full_words := size - tail_start_element - partial in
  data ← (if negb (full_words =? 0)
          then memset (tail_start_element + partial) full_words 0%Z data else Ok data);
  if negb (tail_start_lower_bits =? 0)
  then update tail_start_element (drop_tail tail_start_lower_bits) data else Ok data.

(** The shift is not by whole words. *)
Definition backward_unaligned (size tail_start_element tail_start_lower_bits
    shift_elements shift_lower_bits : nat) (data : list Z) : outcome (list Z) :=
  first ← vec_at data tail_start_element;
  let tail_bits_from_tail_start_element :=
    ushr (ushl 64 first tail_start_lower_bits) tail_start_lower_bits in
  let last := tail_start_element + shift_elements + 1 in
  data ← backward_loop (size - 1 - last) last shift_elements shift_lower_bits data;
  data ← (if last <? size then
            x ← vec_at data (tail_start_element + 1);
            vec_set data last
              (Z.lor (ushr x shift_lower_bits)
                 (ushl 64 tail_bits_from_tail_start_element (kSizeTBits - shift_lower_bits)))
          else Ok data);
  if negb (shift_elements =? 0) then
    data ← vec_set data (tail_start_element + shift_elements)
             (ushr tail_bits_from_tail_start_element shift_lower_bits);
    data ← (if negb (tail_start_lower_bits =? 0)
            then update tail_start_element (drop_tail tail_start_lower_bits) data else Ok data);
    memset (tail_start_element + 1) (shift_elements - 1) 0%Z data
  else if negb (tail_start_lower_bits =? 0) then
    update tail_start_element
      (λ x, Z.lor (Z.land x (MaskBitRange 64 0 tail_start_lower_bits))
              (ushr (Z.land x (MaskBitRange 64 tail_start_lower_bits kSizeTBits))
                 shift_lower_bits)) data
  else update tail_start_element (λ x, ushr x shift_lower_bits) data.

(** The shift is by whole words. *)
Definition backward_aligned (size tail_start_element tail_start_lower_bits
    shift_elements : nat) (data : list Z) : outcome (list Z) :=
  data ← memmove (tail_start_element + shift_elements) tail_start_element
           (size - tail_start_element - shift_elements) data;
  if negb (tail_start_lower_bits =? 0) then
    data ← update tail_start_element
             (λ x, Z.land x (MaskBitRange 64 0 tail_start_lower_bits)) data;
    data ← update (tail_start_element + shift_elements)
             (λ x, Z.land x (MaskBitRange 64 tail_start_lower_bits kSizeTBits)) data;
    memset (tail_start_element + 1) (shift_elements - 1) 0%Z data
  else memset tail_start_element shift_elements 0%Z data.

Definition shiftTailBackwardRegularVersion (tail_start shift_distance : nat)
    (bv : BitVector) : outcome BitVector :=
  let size := data_array_size_ bv in
  if shift_distance =? 0 then Ok bv
  else
    let tail_start_element := hi tail_start in
    let tail_start_lower_bits := lo tail_start in
    if num_bits_ bv <? tail_start + shift_distance then
      data ← backward_zero size tail_start_element tail_start_lower_bits (data_array_ bv);
      Ok (set_data bv data)
    else
      let shift_elements := hi shift_distance in
      let shift_lower_bits := lo shift_distance in
      data ←
        (if negb (shift_lower_bits =? 0)
         then backward_unaligned size tail_start_element tail_start_lower_bits
                shift_elements shift_lower_bits (data_array_ bv)
         else backward_aligned size tail_start_element tail_start_lower_bits
                shift_elements (data_array_ bv));
      data ← (if negb (lo (num_bits_ bv) =? 0)
              then update (size - 1) (λ x, Z.land x (MaskBitRange 64 0 (lo (num_bits_ bv)))) data
              else Ok data);
      Ok (set_data bv data).

Definition shiftTailBackward (tail_start shift_distance : nat) (bv : BitVector)
  : outcome BitVector :=
  if short_version_ bv
  then shiftTailBackwardShortVersion (short_width (num_bits_ bv)) tail_start shift_distance bv
  else shiftTailBackwardRegularVersion tail_start shift_distance bv.
