(* ===== verification/BitVectorBits.v ===== *)
(** * Bit vectors as lists of booleans

    The abstraction of a bit vector, its well-formedness (the storage is as
    long as needed, every word fits its width, the bits after the last one are
    zero), and the lemmas by which the operations are shown to implement list
    operations. *)

From stdpp Require Import options.
From Stdlib Require Import ZifyNat.
From S2P Require Import Prelude BitManipulation BitVector.

Ltac Zify.zify_post_hook ::= Z.to_euclidean_division_equations.

Arguments umax : simpl never.
Arguments for_words : simpl never.

(** ** Positions *)

Lemma hi_div n : hi n = n / 64.
Proof. unfold hi, kHigherOrderShift. by rewrite Nat.shiftr_div_pow2. Qed.
Lemma lo_mod n : lo n = n mod 64.
Proof. unfold lo, kLowerOrderMask. apply (Nat.land_ones n 6). Qed.
Lemma data_array_size_spec n : data_array_size n = (n + 63) / 64.
Proof. unfold data_array_size. rewrite hi_div, lo_mod. destruct (Nat.eqb_spec (n mod 64) 0); lia. Qed.

Arguments hi : simpl never.
Arguments lo : simpl never.
Arguments data_array_size : simpl never.

(** ** Masks *)

Lemma uint_narrow w pw x : w ≤ pw → uint w (uint pw x) = uint w x.
Proof.
  intros Hle. apply (word_ext w); [apply uint_ok..|]. intros i Hi.
  rewrite !wbit_uint by done. unfold wbit. rewrite uint_testbit by lia.
  by rewrite (proj2 (Z.ltb_lt _ _)) by lia.
Qed.

Lemma uint_ushl_promoted w x k : uint w (ushl (promoted w) x k) = ushl w x k.
Proof. apply uint_narrow. unfold promoted. lia. Qed.

Lemma land_uint w pw x y :
  word_ok w x → w ≤ pw → Z.land x (uint pw y) = Z.land x (uint w y).
Proof.
  intros Hx Hle. assert (∀ z v, (0 ≤ uint z v)%Z) as Hpos.
  { intros z v. pose proof (uint_ok z v). unfold word_ok in *. lia. }
  apply (word_ext w); [by apply land_ok..|].
  intros i Hi. rewrite !wbit_land, wbit_uint by done. f_equal. unfold wbit.
  rewrite uint_testbit by lia. by rewrite (proj2 (Z.ltb_lt _ _)) by lia.
Qed.

Lemma land_lnot w x y : word_ok w x → uint w (Z.land x (Z.lnot y)) = Z.land x (unot w y).
Proof.
  intros Hx. apply (word_ext w); [apply uint_ok| |].
  { apply land_ok; [done|]. pose proof (unot_ok w y). unfold word_ok in *. lia. }
  intros i Hi. rewrite wbit_uint, !wbit_land, wbit_unot by done. f_equal.
  unfold wbit. by rewrite Z.lnot_spec by lia.
Qed.

Lemma TopBit_ok w : word_ok w (TopBit w).
Proof. apply ushl_ok. Qed.

Lemma wbit_TopBit_ushr w k i :
  i < w → wbit w (ushr (TopBit w) k) i = bool_decide (i = k).
Proof.
  intros Hi. rewrite wbit_ushr by (done || apply TopBit_ok).
  unfold TopBit. rewrite wbit_topbit by lia. repeat case_bool_decide; cbn; lia || done.
Qed.

Lemma MaskBitRange_ok w s n : word_ok w (MaskBitRange w s n).
Proof.
  unfold MaskBitRange. case_match; [|apply zero_ok]. apply ushr_ok, ushl_ok.
Qed.

Lemma wbit_MaskBitRange w s n i :
  i < w → wbit w (MaskBitRange w s n) i = bool_decide (s ≤ i < s + n).
Proof.
  intros Hi. unfold MaskBitRange. set (k := if w <? n then w else n).
  assert (k = Nat.min n w) as ->.
  { unfold k. destruct (Nat.ltb_spec w n); lia. }
  destruct (Nat.eqb_spec (Nat.min n w) 0) as [E|E]; cbn.
  { rewrite wbit_0, bool_decide_eq_false_2; [done|lia]. }
  rewrite wbit_ushr by (done || apply ushl_ok). rewrite wbit_ushl by lia.
  destruct (decide (s ≤ i < s + n)).
  - rewrite !bool_decide_eq_true_2 by lia. cbn. apply wbit_umax. lia.
  - rewrite (bool_decide_eq_false_2 (s ≤ i < s + n)) by done.
    destruct (decide (s ≤ i)); [|by rewrite bool_decide_eq_false_2].
    rewrite (bool_decide_eq_false_2 (i - s + _ < w)) by lia. by rewrite andb_false_r.
Qed.

(** The mask of the first [n] bits, as the code builds it with one shift. *)
Lemma wbit_high_mask w n i :
  i < w → n ≤ w → wbit w (ushl w (umax w) (w - n)) i = bool_decide (i < n).
Proof.
  intros Hi Hn. rewrite wbit_ushl by done. destruct (decide (i < n)).
  - rewrite !bool_decide_eq_true_2 by lia. cbn. apply wbit_umax. lia.
  - by rewrite !bool_decide_eq_false_2 by lia.
Qed.

Lemma wbit_FlipLimitedBits w x n i :
  i < w → n ≤ w →
  wbit w (FlipLimitedBits w x n) i =
    bool_decide (n = 0 ∨ i < n) && negb (wbit w x i).
Proof.
  intros Hi Hn. unfold FlipLimitedBits. destruct (Nat.eqb_spec n 0) as [->|]; cbn.
  - rewrite bool_decide_eq_true_2 by auto. by rewrite wbit_unot.
  - rewrite wbit_land, wbit_unot, wbit_high_mask, andb_comm by done. f_equal.
    apply bool_decide_ext. lia.
Qed.

Lemma FlipLimitedBits_ok w x n : word_ok w (FlipLimitedBits w x n).
Proof.
  unfold FlipLimitedBits. case_match; [|apply unot_ok].
  apply land_ok; [apply unot_ok|]. pose proof (ushl_ok w (umax w) (w - n)).
  unfold word_ok in *. lia.
Qed.

#[export] Hint Resolve TopBit_ok MaskBitRange_ok FlipLimitedBits_ok : words.

(** ** Loops over words *)

Lemma for_words_spec from count f g data :
  from + count ≤ length data →
  (∀ i x, from ≤ i < from + count → data !! i = Some x → f i x = Ok (g i x)) →
  for_words from count f data =
    Ok (imap (λ i x, if bool_decide (from ≤ i < from + count) then g i x else x) data).
Proof.
  revert from data. induction count as [|count IH]; intros from data Hlen Hf; unfold for_words;
    fold for_words.
  { f_equal. apply list_eq. intros i. rewrite list_lookup_imap.
    rewrite bool_decide_eq_false_2 by lia. by destruct (data !! i). }
  destruct (lookup_lt_is_Some_2 data from) as [x Hx]; [lia|].
  rewrite (vec_at_Some _ _ _ Hx). cbn. rewrite (Hf from x) by (done || lia). cbn.
  rewrite vec_set_lt by lia. cbn. rewrite IH.
  - f_equal. apply list_eq. intros i. rewrite !list_lookup_imap, list_lookup_insert.
    case_decide as Hi.
    + destruct Hi as [<- _]. rewrite Hx. cbn.
      by rewrite bool_decide_eq_false_2, bool_decide_eq_true_2 by lia.
    + destruct (data !! i) eqn:E; cbn; [|done]. apply lookup_lt_Some in E.
      f_equal. case_bool_decide; case_bool_decide; lia || done.
  - rewrite length_insert. lia.
  - intros i y Hi Hy. rewrite list_lookup_insert_ne in Hy by lia. apply Hf; [lia|done].
Qed.

Lemma memset_spec from count x data :
  from + count ≤ length data →
  memset from count x data =
    Ok (imap (λ i y, if bool_decide (from ≤ i < from + count) then x else y) data).
Proof. intros Hlen. unfold memset. by rewrite (for_words_spec _ _ _ (λ _ _, x)). Qed.

Lemma update_spec i f data x :
  data !! i = Some x → update i f data = Ok (<[i := f x]> data).
Proof.
  intros Hx. unfold update. rewrite (vec_at_Some _ _ _ Hx). cbn.
  apply vec_set_lt. by eapply lookup_lt_Some.
Qed.

(** ** The bits of a vector *)

Definition width (bv : BitVector) : nat :=
  if short_version_ bv then short_width (num_bits_ bv) else 64.

(** Word [i] of an array, zero after its end. *)
Definition word_at (data : list Z) (i : nat) : Z := default 0%Z (data !! i).

Definition vbit (w : nat) (data : list Z) (i : nat) : bool :=
  wbit w (word_at data (i / w)) (i mod w).

(** The list of booleans a bit vector stands for. *)
Definition bits (bv : BitVector) : list bool :=
  vbit (width bv) (data_array_ bv) <$> seq 0 (num_bits_ bv).

Record bv_wf (bv : BitVector) : Prop := {
  wf_length : length (data_array_ bv)
              = storage_words (enable_short_version bv) (num_bits_ bv);
  wf_words : Forall (word_ok (width bv)) (data_array_ bv);
  wf_padding i : num_bits_ bv ≤ i → vbit (width bv) (data_array_ bv) i = false;
}.

Lemma bits_lookup bv i b :
  bits bv !! i = Some b ↔ i < num_bits_ bv ∧ vbit (width bv) (data_array_ bv) i = b.
Proof.
  unfold bits. rewrite list_lookup_fmap, fmap_Some. setoid_rewrite lookup_seq.
  split; [intros (? & [-> ?] & ->)|intros [? <-]]; eauto.
Qed.

Lemma length_bits bv : length (bits bv) = num_bits_ bv.
Proof. unfold bits. by rewrite length_fmap, length_seq. Qed.

Lemma bits_lookup_lt bv i :
  i < num_bits_ bv → bits bv !! i = Some (vbit (width bv) (data_array_ bv) i).
Proof. intros. by apply bits_lookup. Qed.

(** The bits of a vector are those of a function on positions. *)
Lemma bits_eq bv (l : list bool) :
  length l = num_bits_ bv →
  (∀ i, i < num_bits_ bv → l !! i = Some (vbit (width bv) (data_array_ bv) i)) →
  bits bv = l.
Proof.
  intros Hlen Hl. apply list_eq. intros i. destruct (decide (i < num_bits_ bv)).
  - by rewrite bits_lookup_lt, Hl.
  - by rewrite !lookup_ge_None_2 by (rewrite ?length_bits; lia).
Qed.

Lemma width_set_data bv data : width (set_data bv data) = width bv.
Proof. done. Qed.

Lemma short_width_bounds n : n < 33 → n ≤ short_width n ∧ 8 ≤ short_width n ≤ 32.
Proof.
  intros. unfold short_width.
  destruct (Nat.ltb_spec n 9), (Nat.ltb_spec n 17); lia.
Qed.

Lemma width_pos bv : 8 ≤ width bv.
Proof.
  unfold width, short_version_. destruct (enable_short_version bv); cbn [andb]; [|lia].
  destruct (Nat.ltb_spec (num_bits_ bv) 33); [by apply short_width_bounds|lia].
Qed.

(** ** The two versions *)

Lemma short_cases bv :
  short_version_ bv = true → bv_wf bv →
  let w := short_width (num_bits_ bv) in
  (num_bits_ bv = 0 ∧ data_array_ bv = []) ∨
  (∃ x, 0 < num_bits_ bv ≤ w ∧ w ≤ 32 ∧ width bv = w ∧ data_array_ bv = [x] ∧ word_ok w x ∧
     (∀ i, i < w → vbit w (data_array_ bv) i = wbit w x i) ∧
     (∀ i, num_bits_ bv ≤ i < w → wbit w x i = false)).
Proof.
  intros Hs [Hlen Hok Hpad] w. unfold width in *. rewrite Hs in *.
  unfold short_version_ in Hs. apply andb_true_iff in Hs as [Hen Hlt%Nat.ltb_lt].
  unfold storage_words in Hlen. rewrite Hen, (proj2 (Nat.ltb_lt _ _) Hlt) in Hlen. cbn in Hlen.
  destruct (short_width_bounds _ Hlt) as [Hle [? ?]].
  destruct (Nat.eqb_spec (num_bits_ bv) 0) as [Hn0|Hn0]; cbn in Hlen.
  { left. split; [done|]. by apply length_zero_iff_nil. }
  right. destruct (data_array_ bv) as [|x [|]]; [done| |done].
  apply Forall_cons in Hok as [Hok _]. exists x.
  assert (∀ i, i < w → vbit w [x] i = wbit w x i) as Hbit.
  { intros i Hi. unfold vbit. rewrite Nat.div_small, Nat.mod_small by done. done. }
  split; [lia|]. split; [done|]. split; [done|]. split; [done|]. split; [done|].
  split; [done|].
  intros i Hi. rewrite <- Hbit by lia. apply Hpad. lia.
Qed.

(** A short vector after its word has been replaced. *)
Lemma store_spec bv x y :
  short_version_ bv = true → bv_wf bv → data_array_ bv = [x] →
  let w := short_width (num_bits_ bv) in
  word_ok w y → (∀ i, num_bits_ bv ≤ i < w → wbit w y i = false) →
  ∃ bv', store bv y = Ok bv' ∧ bv_wf bv' ∧ bv' = set_data bv [y] ∧
    ∀ i, i < num_bits_ bv → vbit (width bv') (data_array_ bv') i = wbit w y i.
Proof.
  intros Hs Hwf Hx w Hy Hpad.
  destruct (short_cases bv Hs Hwf) as [[_ ?]|(x' & Hn & Hw & Hwidth & _)]; [congruence|].
  unfold store. rewrite Hx. cbn. exists (set_data bv [y]).
  assert (∀ i, i < w → vbit w [y] i = wbit w y i) as Hbit.
  { intros i Hi. unfold vbit. rewrite Nat.div_small, Nat.mod_small by done. done. }
  split_and!; [done| |done|].
  - destruct Hwf as [Hlen _ _]. rewrite Hx in Hlen. split; cbn; [done|..].
    + rewrite width_set_data, Hwidth. by constructor.
    + intros i Hi. rewrite width_set_data, Hwidth. destruct (decide (i < w)) as [Hlt|Hge].
      * rewrite Hbit by done. by apply Hpad.
      * unfold vbit, word_at. rewrite lookup_ge_None_2; [apply wbit_0|]. cbn.
        fold w. pose proof (Nat.div_le_lower_bound i w 1). lia.
  - intros i Hi. rewrite width_set_data, Hwidth. apply Hbit. lia.
Qed.

Lemma load_spec bv x : data_array_ bv = [x] → load bv = Ok x.
Proof. unfold load. by intros ->. Qed.

Lemma regular_facts bv :
  short_version_ bv = false → bv_wf bv →
  width bv = 64 ∧ length (data_array_ bv) = data_array_size_ bv ∧
  Forall (word_ok 64) (data_array_ bv).
Proof.
  intros Hs [Hlen Hok _]. unfold width in *. rewrite Hs in *. split_and!; [done| |done].
  rewrite Hlen. unfold storage_words. unfold short_version_ in Hs. by rewrite Hs.
Qed.

Lemma word_at_ok w data i : Forall (word_ok w) data → word_ok w (word_at data i).
Proof.
  intros Hok. unfold word_at. destruct (data !! i) as [x|] eqn:E; cbn; [|apply zero_ok].
  by eapply Forall_lookup_1.
Qed.

Lemma word_at_lookup data i : i < length data → data !! i = Some (word_at data i).
Proof. intros [x Hx]%lookup_lt_is_Some_2. unfold word_at. by rewrite Hx. Qed.

(** A regular vector whose array has been replaced. *)
Lemma regular_set_data bv data' :
  short_version_ bv = false → bv_wf bv →
  length data' = length (data_array_ bv) → Forall (word_ok 64) data' →
  (∀ i, num_bits_ bv ≤ i < 64 * data_array_size_ bv → vbit 64 data' i = false) →
  bv_wf (set_data bv data').
Proof.
  intros Hs Hwf Hlen Hok Hpad. destruct (regular_facts bv Hs Hwf) as (Hw & Hlen' & _).
  split; cbn.
  - rewrite Hlen. apply Hwf.
  - by rewrite width_set_data, Hw.
  - intros i Hi. rewrite width_set_data, Hw.
    destruct (decide (i < 64 * data_array_size_ bv)); [by apply Hpad|].
    unfold vbit, word_at. rewrite lookup_ge_None_2; [apply wbit_0|].
    rewrite Hlen, Hlen'. lia.
Qed.

(** ** Operations that implement operations on lists *)

(** Bit [i] of a list, false after its end. *)
Definition lbit (l : list bool) (i : nat) : bool := default false (l !! i).

Lemma lbit_ge l i : length l ≤ i → lbit l i = false.
Proof. intros. unfold lbit. by rewrite lookup_ge_None_2. Qed.

Lemma lbit_lookup l i : i < length l → l !! i = Some (lbit l i).
Proof. intros [b Hb]%lookup_lt_is_Some_2. unfold lbit. by rewrite Hb. Qed.

Lemma lbit_insert l i v j :
  lbit (<[i := v]> l) j = if decide (i = j ∧ i < length l) then v else lbit l j.
Proof.
  unfold lbit. rewrite list_lookup_insert. repeat case_decide; done || lia.
Qed.

Lemma lbit_app l k i :
  lbit (l ++ k) i = if decide (i < length l) then lbit l i else lbit k (i - length l).
Proof.
  unfold lbit. case_decide; [by rewrite lookup_app_l|by rewrite lookup_app_r by lia].
Qed.

Lemma lbit_take l n i : lbit (take n l) i = bool_decide (i < n) && lbit l i.
Proof. unfold lbit. case_bool_decide; [by rewrite lookup_take_lt|by rewrite lookup_take_ge by lia]. Qed.

Lemma lbit_drop l n i : lbit (drop n l) i = lbit l (n + i).
Proof. unfold lbit. by rewrite lookup_drop. Qed.

Lemma lbit_replicate n v i : lbit (replicate n v) i = bool_decide (i < n) && v.
Proof.
  unfold lbit. case_bool_decide; [by rewrite lookup_replicate_2|].
  by rewrite lookup_ge_None_2 by (rewrite length_replicate; lia).
Qed.

Lemma lbit_negb l i : lbit (negb <$> l) i = bool_decide (i < length l) && negb (lbit l i).
Proof.
  case_bool_decide as Hi.
  - unfold lbit. rewrite list_lookup_fmap. by rewrite (lbit_lookup l i Hi).
  - apply lbit_ge. rewrite length_fmap. lia.
Qed.

Lemma lbit_zip_with (op : bool → bool → bool) l k i :
  length l = length k → op false false = false →
  lbit (zip_with op l k) i = op (lbit l i) (lbit k i).
Proof.
  intros Hlen Hop. destruct (decide (i < length l)) as [Hi|Hi].
  - unfold lbit at 1. rewrite lookup_zip_with. rewrite !lbit_lookup by lia. done.
  - by rewrite !lbit_ge by (rewrite ?length_zip_with; lia).
Qed.

(** [r] is a well-formed vector of the same kind as [bv] whose bits are [l]. *)
Definition implements (r : outcome BitVector) (bv : BitVector) (l : list bool) : Prop :=
  ∃ bv', r = Ok bv' ∧ bv_wf bv' ∧ bits bv' = l ∧
    num_bits_ bv' = num_bits_ bv ∧
    enable_short_version bv' = enable_short_version bv.

Lemma lbit_bits bv i :
  bv_wf bv → lbit (bits bv) i = vbit (width bv) (data_array_ bv) i.
Proof.
  intros Hwf. destruct (decide (i < num_bits_ bv)) as [Hi|Hi].
  - unfold lbit. by rewrite bits_lookup_lt.
  - rewrite lbit_ge by (rewrite length_bits; lia). symmetry. apply Hwf. lia.
Qed.

Lemma short_bits bv :
  short_version_ bv = true → bv_wf bv → num_bits_ bv ≠ 0 →
  let w := short_width (num_bits_ bv) in
  ∃ x, data_array_ bv = [x] ∧ load bv = Ok x ∧ word_ok w x ∧ num_bits_ bv ≤ w ≤ 32 ∧
    ∀ i, i < w → wbit w x i = lbit (bits bv) i.
Proof.
  intros Hs Hwf Hn w. destruct (short_cases bv Hs Hwf)
    as [[? _]|(x & ? & ? & Hw & Hd & Hx & Hbit & _)]; [done|].
  exists x. split; [done|]. split; [by apply load_spec|]. split; [done|]. split; [lia|].
  intros i Hi. rewrite lbit_bits, Hw, Hbit by done. done.
Qed.

Lemma implements_short bv y (l : list bool) :
  short_version_ bv = true → bv_wf bv → num_bits_ bv ≠ 0 → length l = num_bits_ bv →
  let w := short_width (num_bits_ bv) in
  word_ok w y → (∀ i, i < w → wbit w y i = lbit l i) →
  implements (store bv y) bv l.
Proof.
  intros Hs Hwf Hn Hl w Hy Hbits. destruct (short_bits bv Hs Hwf Hn) as (x & Hx & _ & _ & ? & _).
  destruct (store_spec bv x y Hs Hwf Hx Hy) as (bv' & -> & Hwf' & Hset & Hb).
  { intros i Hi. rewrite Hbits by lia. apply lbit_ge. lia. }
  subst bv'. eexists. split_and!; [done|done| |done|done]. apply bits_eq; [done|].
  intros i Hi. rewrite Hb by done. cbn in *. rewrite Hbits by (subst w; lia).
  apply lbit_lookup. lia.
Qed.

Lemma implements_regular bv data' (l : list bool) :
  short_version_ bv = false → bv_wf bv → length l = num_bits_ bv →
  length data' = length (data_array_ bv) → Forall (word_ok 64) data' →
  (∀ i, i < 64 * data_array_size_ bv → vbit 64 data' i = lbit l i) →
  implements (Ok (set_data bv data')) bv l.
Proof.
  intros Hs Hwf Hl Hlen Hok Hbits. destruct (regular_facts bv Hs Hwf) as (Hw & Hlen' & _).
  eexists. split_and!; [done| | |done|done].
  - apply regular_set_data; [done..|]. intros i Hi. rewrite Hbits by lia. apply lbit_ge. lia.
  - apply bits_eq; [done|]. intros i Hi. cbn in *. rewrite width_set_data, Hw, Hbits.
    + apply lbit_lookup. lia.
    + unfold data_array_size_. rewrite data_array_size_spec. lia.
Qed.

(** Bits of an array one word of which, or all of which, have been replaced. *)
Lemma vbit_insert data k y i :
  k < length data →
  vbit 64 (<[k := y]> data) i = if decide (i / 64 = k) then wbit 64 y (i mod 64) else vbit 64 data i.
Proof.
  intros Hk. unfold vbit, word_at. rewrite list_lookup_insert.
  case_decide as Hd; case_decide; cbn; done || lia.
Qed.

Lemma vbit_imap (g : nat → Z → Z) data i :
  i < 64 * length data →
  vbit 64 (imap g data) i = wbit 64 (g (i / 64) (word_at data (i / 64))) (i mod 64).
Proof.
  intros Hi. unfold vbit, word_at. rewrite list_lookup_imap.
  destruct (lookup_lt_is_Some_2 data (i / 64)) as [x ->]; [lia|]. done.
Qed.

Lemma Forall_imap_ok (g : nat → Z → Z) data :
  (∀ i, i < length data → word_ok 64 (g i (word_at data i))) → Forall (word_ok 64) (imap g data).
Proof.
  intros Hg. apply Forall_lookup_2. intros i x. rewrite list_lookup_imap. intros (y & Hy & ?)%fmap_Some. subst.
  specialize (Hg i (lookup_lt_Some _ _ _ Hy)). unfold word_at in Hg. by rewrite Hy in Hg.
Qed.

Lemma regular_bits bv i :
  short_version_ bv = false → bv_wf bv →
  wbit 64 (word_at (data_array_ bv) (i / 64)) (i mod 64) = lbit (bits bv) i.
Proof.
  intros Hs Hwf. destruct (regular_facts bv Hs Hwf) as (Hw & _ & _).
  by rewrite lbit_bits, Hw by done.
Qed.
