(* ===== verification/BitVectorOps.v ===== *)
(** * The operations of a bit vector implement list operations

    Sizes, construction, single bits, words, whole vectors, ranges, tests and
    counts of utility/BitVector.hpp. *)

From stdpp Require Import options.
From Stdlib Require Import ZifyNat.
From S2P Require Import Prelude BitManipulation BitVector BitVectorBits.

Ltac Zify.zify_post_hook ::= Z.to_euclidean_division_equations.

(** Splits the claim on an operation into the short and the regular version. *)
Ltac by_version bv Hs :=
  destruct (short_version_ bv) eqn:Hs.

(** The word of a short vector. *)
Ltac short_word Hs Hwf :=
  let x := fresh "x" in let Hx := fresh "Hx" in
  match type of Hwf with bv_wf ?bv =>
    destruct (short_bits bv Hs Hwf) as (x & _ & Hload & Hx & Hwb & Hbits); [lia|];
    rewrite Hload; cbn [mbind outcome_bind]
  end.

(** ** Sizes *)

Lemma BytesNeeded_words s n :
  BytesNeeded s n = storage_words s n * (if s && (n <? 33) then short_width n / 8 else 8).
Proof.
  unfold BytesNeeded, storage_words, short_width. destruct s; cbn [andb].
  - destruct (Nat.eqb_spec n 0) as [->|]; [done|].
    destruct (Nat.ltb_spec n 9), (Nat.ltb_spec n 17), (Nat.ltb_spec n 33); try done; try lia.
    rewrite data_array_size_spec, hi_div, lo_mod. destruct (Nat.eqb_spec (n mod 64) 0); cbn [negb]; lia.
  - rewrite data_array_size_spec, hi_div, lo_mod. destruct (Nat.eqb_spec (n mod 64) 0); cbn [negb]; lia.
Qed.

(** ** Single bits *)

Lemma getBitRegularVersion_spec bv i :
  short_version_ bv = false → bv_wf bv → i < num_bits_ bv →
  getBitRegularVersion i bv = Ok (lbit (bits bv) i).
Proof.
  intros Hs Hwf Hi. destruct (regular_facts bv Hs Hwf) as (_ & Hlen & Hok).
  unfold getBitRegularVersion. rewrite hi_div, lo_mod.
  rewrite (vec_at_Some _ _ (word_at (data_array_ bv) (i / 64))).
  2:{ apply word_at_lookup. rewrite Hlen. unfold data_array_size_.
      rewrite data_array_size_spec. lia. }
  cbn [mbind outcome_bind]. unfold TopBit. rewrite land_topbit by (lia || apply ushl_ok).
  rewrite negb_involutive, wbit_ushl by lia. rewrite bool_decide_eq_true_2 by lia.
  cbn [andb]. by rewrite Nat.add_0_l, regular_bits.
Qed.

Lemma getBitShortVersion_spec bv i :
  short_version_ bv = true → bv_wf bv → i < num_bits_ bv →
  getBitShortVersion (short_width (num_bits_ bv)) i bv = Ok (lbit (bits bv) i).
Proof.
  intros Hs Hwf Hi. unfold getBitShortVersion. short_word Hs Hwf.
  set (w := short_width _) in *. rewrite Z.land_comm. unfold ushl, TopBit.
  rewrite (land_uint w) by (apply ushl_ok || (unfold promoted; lia)).
  rewrite Z.land_comm, land_topbit by (lia || apply uint_ok). fold (ushl w x i).
  rewrite negb_involutive, wbit_ushl, bool_decide_eq_true_2 by lia.
  cbn [andb]. by rewrite Nat.add_0_l, Hbits by lia.
Qed.

Lemma getBit_spec bv i :
  bv_wf bv → i < num_bits_ bv → getBit i bv = Ok (lbit (bits bv) i).
Proof.
  intros Hwf Hi. unfold getBit. by_version bv Hs;
    [by apply getBitShortVersion_spec|by apply getBitRegularVersion_spec].
Qed.

(** A regular vector one word of which has been replaced. *)
Lemma implements_update bv k y (l : list bool) :
  short_version_ bv = false → bv_wf bv → k < length (data_array_ bv) →
  length l = num_bits_ bv → word_ok 64 y →
  (∀ j, j / 64 = k → wbit 64 y (j mod 64) = lbit l j) →
  (∀ j, j / 64 ≠ k → lbit l j = lbit (bits bv) j) →
  implements (Ok (set_data bv (<[k := y]> (data_array_ bv)))) bv l.
Proof.
  intros Hs Hwf Hk Hl Hy Hin Hout. destruct (regular_facts bv Hs Hwf) as (_ & Hlen & Hok).
  apply implements_regular; [done|done|done|by rewrite length_insert|by apply Forall_insert|].
  intros j Hj. rewrite vbit_insert by done. case_decide; [by apply Hin|].
  rewrite Hout by done. unfold vbit. by rewrite regular_bits.
Qed.

Lemma regular_lt bv i :
  short_version_ bv = false → bv_wf bv → i < num_bits_ bv →
  i / 64 < length (data_array_ bv).
Proof.
  intros Hs Hwf Hi. destruct (regular_facts bv Hs Hwf) as (_ & -> & _).
  unfold data_array_size_. rewrite data_array_size_spec. lia.
Qed.

(** The word [setBitRegularVersion] stores. *)
Lemma set_word_bit x b v r :
  word_ok 64 x → r < 64 →
  let mask := unot 64 (ushr (TopBit 64) b) in
  let op_value := unot 64 (Z.lor (uint 64 (Z.b2z v - 1)) mask) in
  wbit 64 (Z.lor (Z.land x mask) op_value) r = if decide (r = b) then v else wbit 64 x r.
Proof.
  intros Hx Hr mask op.
  assert (wbit 64 mask r = negb (bool_decide (r = b))) as Hmask.
  { unfold mask. by rewrite wbit_unot, wbit_TopBit_ushr by done. }
  assert (wbit 64 op r = bool_decide (r = b) && v) as Hop.
  { unfold op. rewrite wbit_unot, wbit_lor, wbit_uint, Hmask by done. destruct v; cbn [Z.b2z].
    - rewrite Z.sub_diag, wbit_0. cbn. by rewrite negb_involutive, andb_true_r.
    - replace (0 - 1)%Z with (-1)%Z by lia. unfold wbit at 1.
      rewrite Z.bits_m1 by lia. cbn. by rewrite andb_false_r. }
  rewrite wbit_lor, wbit_land, Hmask, Hop.
  case_bool_decide; case_decide; try done; cbn; by rewrite ?andb_true_r, ?andb_false_r, ?orb_false_r.
Qed.

Lemma setBitRegularVersion_spec bv i v :
  short_version_ bv = false → bv_wf bv → i < num_bits_ bv →
  implements (setBitRegularVersion i v bv) bv (<[i := v]> (bits bv)).
Proof.
  intros Hs Hwf Hi. destruct (regular_facts bv Hs Hwf) as (_ & _ & Hok).
  unfold setBitRegularVersion. rewrite hi_div, lo_mod.
  pose proof (regular_lt bv i Hs Hwf Hi) as Hk.
  rewrite (update_spec _ _ _ _ (word_at_lookup _ _ Hk)). cbn [mbind outcome_bind].
  rewrite (update_spec (i / 64) _ _ _ (list_lookup_insert_eq _ _ _ Hk)).
  cbn [mbind outcome_bind]. rewrite list_insert_insert_eq.
  pose proof (word_at_ok 64 _ (i / 64) Hok) as Hw.
  apply implements_update; [done|done|done|by rewrite length_insert, length_bits|..].
  - apply lor_ok; [apply land_ok; [done|]|apply unot_ok].
    pose proof (unot_ok 64 (ushr (TopBit 64) (i mod 64))) as [? _]. done.
  - intros j Hj. rewrite set_word_bit, lbit_insert, length_bits by (done || lia).
    case_decide; case_decide; try lia; [done|]. by rewrite <- Hj, regular_bits.
  - intros j Hj. rewrite lbit_insert, decide_False; [done|]. intros [-> _]. done.
Qed.

Lemma setBitShortVersion_spec bv i v :
  short_version_ bv = true → bv_wf bv → i < num_bits_ bv →
  implements (setBitShortVersion (short_width (num_bits_ bv)) i v bv) bv (<[i := v]> (bits bv)).
Proof.
  intros Hs Hwf Hi. unfold setBitShortVersion. short_word Hs Hwf.
  apply implements_short; [done|done|lia|by rewrite length_insert, length_bits|..].
  - destruct v; [by auto using ushr_ok with words|apply uint_ok].
  - intros j Hj. rewrite lbit_insert, length_bits. destruct v.
    + rewrite wbit_lor, wbit_TopBit_ushr, Hbits by done.
      case_decide; case_bool_decide; lia || by rewrite ?orb_true_r, ?orb_false_r.
    + rewrite land_lnot, wbit_land, wbit_unot, wbit_TopBit_ushr, Hbits by done.
      case_decide; case_bool_decide; lia || by cbn; rewrite ?andb_true_r, ?andb_false_r.
Qed.

Lemma setBit_spec bv i v :
  bv_wf bv → i < num_bits_ bv → implements (setBit i v bv) bv (<[i := v]> (bits bv)).
Proof.
  intros Hwf Hi. unfold setBit. by_version bv Hs;
    [by apply setBitShortVersion_spec|by apply setBitRegularVersion_spec].
Qed.

Lemma setBit_on_spec bv i :
  short_version_ bv = false → bv_wf bv → i < num_bits_ bv →
  implements (setBit_on i bv) bv (<[i := true]> (bits bv)).
Proof.
  intros Hs Hwf Hi. destruct (regular_facts bv Hs Hwf) as (_ & _ & Hok).
  unfold setBit_on, setBitRegularVersion_on. rewrite hi_div, lo_mod.
  pose proof (regular_lt bv i Hs Hwf Hi) as Hk.
  rewrite (update_spec _ _ _ _ (word_at_lookup _ _ Hk)). cbn [mbind outcome_bind].
  pose proof (word_at_ok 64 _ (i / 64) Hok) as Hw.
  apply implements_update; [done|done|done|by rewrite length_insert, length_bits
    |by auto using ushr_ok with words|..].
  - intros j Hj. rewrite wbit_lor, wbit_TopBit_ushr, lbit_insert, length_bits by lia.
    rewrite <- Hj, regular_bits by done.
    case_decide; case_bool_decide; lia || by rewrite ?orb_true_r, ?orb_false_r.
  - intros j Hj. rewrite lbit_insert, decide_False; [done|]. intros [-> _]. done.
Qed.

(** ** Construction and assignment *)

Lemma zeros_wf bv data :
  length data = storage_words (enable_short_version bv) (num_bits_ bv) →
  Forall (λ x, x = 0%Z) data →
  bv_wf (set_data bv data) ∧ bits (set_data bv data) = replicate (num_bits_ bv) false.
Proof.
  intros Hlen Hz. assert (∀ w i, vbit w data i = false) as Hbit.
  { intros w i. unfold vbit, word_at. destruct (data !! (i / w)) as [x|] eqn:E; cbn; [|apply wbit_0].
    rewrite (Forall_lookup_1 _ _ _ _ Hz E). apply wbit_0. }
  split.
  - split; [done| |by intros; apply Hbit]. eapply Forall_impl; [exact Hz|].
    intros x ->. apply zero_ok.
  - apply bits_eq; [by rewrite length_replicate|]. intros i Hi. cbn in *.
    by rewrite Hbit, lookup_replicate_2.
Qed.

Lemma clear_spec bv :
  length (data_array_ bv) = storage_words (enable_short_version bv) (num_bits_ bv) →
  implements (clear bv) bv (replicate (num_bits_ bv) false).
Proof.
  intros Hlen. unfold clear. rewrite memset_spec by lia. cbn [mbind outcome_bind].
  edestruct (zeros_wf bv) as [Hwf Hb]; [| |by eexists].
  - by rewrite length_imap.
  - apply Forall_lookup_2. intros i x. rewrite list_lookup_imap.
    intros (y & Hy & ->)%fmap_Some. apply lookup_lt_Some in Hy.
    by rewrite bool_decide_eq_true_2 by lia.
Qed.

Lemma memcpy_words_spec count src dest :
  count = length dest → count ≤ length src →
  memcpy_words count src dest = Ok (take count src).
Proof.
  intros -> Hle. unfold memcpy_words.
  rewrite (for_words_spec _ _ _ (λ i _, word_at src i)) by
    (lia || (intros i x Hi _; apply vec_at_Some, word_at_lookup; lia)).
  f_equal. apply list_eq. intros i. rewrite list_lookup_imap.
  destruct (decide (i < length dest)) as [Hi|Hi].
  - rewrite lookup_take_lt by done. destruct (lookup_lt_is_Some_2 dest i Hi) as [x ->]. cbn.
    rewrite bool_decide_eq_true_2 by lia. rewrite (word_at_lookup src i) by lia. done.
  - rewrite lookup_take_ge, (lookup_ge_None_2 dest) by lia. done.
Qed.

Lemma assignFrom_spec bv other :
  bv_wf bv → bv_wf other → num_bits_ other = num_bits_ bv →
  enable_short_version other = enable_short_version bv →
  implements (assignFrom bv other) bv (bits other).
Proof.
  intros Hwf [Hlen Hok Hpad] Hn He. unfold assignFrom.
  rewrite Hn, He in Hlen. assert (width other = width bv) as Hw.
  { unfold width, short_version_. by rewrite Hn, He. }
  rewrite memcpy_words_spec by (rewrite ?(wf_length bv Hwf); lia). cbn [mbind outcome_bind].
  rewrite <- Hlen, firstn_all. eexists; split_and!; [done|..|done|done].
  - split; cbn; rewrite ?width_set_data, <- ?Hw; [done|done|by rewrite <- Hn].
  - apply bits_eq; [by rewrite length_bits|]. intros i Hi. cbn in *.
    rewrite width_set_data, <- Hw. apply bits_lookup_lt. lia.
Qed.

Lemma assignFromLonger_spec bv other :
  enable_short_version bv = false → enable_short_version other = false →
  bv_wf bv → bv_wf other → num_bits_ bv ≤ num_bits_ other →
  implements (assignFromLonger bv other) bv (take (num_bits_ bv) (bits other)).
Proof.
  intros He He' Hwf Hwf' Hle.
  assert (short_version_ bv = false ∧ short_version_ other = false) as [Hs Hs'].
  { unfold short_version_. by rewrite He, He'. }
  destruct (regular_facts bv Hs Hwf) as (_ & Hlen & _).
  destruct (regular_facts other Hs' Hwf') as (_ & Hlen' & Hok').
  assert (length (data_array_ bv) ≤ length (data_array_ other)) as Hll.
  { rewrite Hlen, Hlen'. unfold data_array_size_. rewrite !data_array_size_spec. lia. }
  unfold assignFromLonger. rewrite He. unfold storage_words. cbn [andb].
  fold (data_array_size_ bv). rewrite <- Hlen, memcpy_words_spec by lia. cbn [mbind outcome_bind].
  set (data := take _ _). assert (length data = length (data_array_ bv)) as Hld.
  { unfold data. rewrite length_take. lia. }
  assert (∀ i, i < 64 * length data → vbit 64 data i = lbit (bits other) i) as Hbit.
  { intros i Hi. unfold vbit, word_at, data. rewrite lookup_take_lt by lia.
    by apply regular_bits. }
  assert (Forall (word_ok 64) data) as Hokd by by apply Forall_take.
  rewrite lo_mod. destruct (Nat.eqb_spec (num_bits_ bv mod 64) 0) as [Hz|Hz]; cbn [negb].
  - cbn. apply implements_regular; [done|done| |done|done|].
    { rewrite length_take, length_bits. lia. }
    intros i Hi. rewrite Hbit, lbit_take, bool_decide_eq_true_2; [done| |lia].
    unfold data_array_size_ in Hi. rewrite data_array_size_spec in Hi. lia.
  - unfold data_array_size_ in *. rewrite data_array_size_spec in *.
    assert (length (data_array_ bv) - 1 < length data) as Hk by lia.
    rewrite (update_spec _ _ _ _ (word_at_lookup _ _ Hk)). cbn [mbind outcome_bind].
    pose proof (word_at_ok 64 data (length (data_array_ bv) - 1) Hokd) as Hw.
    apply implements_regular; [done|done|rewrite length_take, length_bits; lia
      |by rewrite length_insert|apply Forall_insert; auto with words|].
    unfold data_array_size_. rewrite data_array_size_spec.
    intros i Hi. rewrite vbit_insert, lbit_take by done. case_decide as Hi'.
    + rewrite wbit_land, wbit_MaskBitRange by lia. rewrite <- Hi'. fold (vbit 64 data i).
      rewrite Hbit, andb_comm by lia. f_equal. apply bool_decide_ext. lia.
    + rewrite Hbit, bool_decide_eq_true_2 by lia. done.
Qed.

(** ** A word at a time *)

Lemma lbit_imap (f : nat → bool → bool) l i :
  lbit (imap f l) i = bool_decide (i < length l) && f i (lbit l i).
Proof.
  case_bool_decide as Hi.
  - unfold lbit. rewrite list_lookup_imap. by rewrite (lbit_lookup l i Hi).
  - apply lbit_ge. rewrite length_imap. lia.
Qed.

Lemma getBitWord_spec bv k :
  short_version_ bv = false → bv_wf bv → k < data_array_size_ bv →
  ∃ x, getBitWord k bv = Ok x ∧ word_ok 64 x ∧
    ∀ r, r < 64 → wbit 64 x r = lbit (bits bv) (64 * k + r).
Proof.
  intros Hs Hwf Hk. destruct (regular_facts bv Hs Hwf) as (_ & Hlen & Hok).
  unfold getBitWord. rewrite Hs. exists (word_at (data_array_ bv) k).
  split_and!; [apply vec_at_Some, word_at_lookup; lia|by apply word_at_ok|].
  intros r Hr. rewrite <- regular_bits by done. f_equal; [f_equal|]; lia.
Qed.

Lemma setBitWord_spec bv k value :
  short_version_ bv = false → bv_wf bv → k < data_array_size_ bv → word_ok 64 value →
  implements (setBitWord k value bv) bv
    (imap (λ i b, if decide (i / 64 = k) then wbit 64 value (i mod 64) else b) (bits bv)).
Proof.
  intros Hs Hwf Hk Hv. destruct (regular_facts bv Hs Hwf) as (_ & Hlen & Hok).
  unfold setBitWord. rewrite Hs, vec_set_lt by lia. cbn [mbind outcome_bind].
  rewrite lo_mod. unfold data_array_size_ in *. rewrite data_array_size_spec in *.
  set (cut := (k =? _) && _).
  set (y := if cut then Z.land value (ushl 64 (umax 64) (64 - num_bits_ bv mod 64)) else value).
  assert (word_ok 64 y) as Hy by (unfold y; destruct cut; auto with words).
  assert ((if cut then update k _ _ else _) = Ok (<[k := y]> (data_array_ bv))) as ->.
  { unfold y. destruct cut; [|done].
    rewrite (update_spec k _ _ value) by (apply list_lookup_insert_eq; lia).
    by rewrite list_insert_insert_eq. }
  cbn [mbind outcome_bind].
  apply implements_update; [done|done|lia|by rewrite length_imap, length_bits|done|..].
  - intros j Hj. rewrite lbit_imap, length_bits, decide_True by done. unfold y, cut.
    destruct (Nat.eqb_spec k ((num_bits_ bv + 63) / 64 - 1)) as [Hlast|Hlast],
      (Nat.eqb_spec (num_bits_ bv mod 64) 0) as [Hz|Hz]; cbn [andb negb].
    + rewrite bool_decide_eq_true_2 by lia. done.
    + rewrite wbit_land, wbit_high_mask, andb_comm by lia. f_equal. apply bool_decide_ext. lia.
    + rewrite bool_decide_eq_true_2 by lia. done.
    + rewrite bool_decide_eq_true_2 by lia. done.
  - intros j Hj. rewrite lbit_imap, length_bits, decide_False by done.
    case_bool_decide; [done|]. cbn. symmetry. apply lbit_ge. rewrite length_bits. lia.
Qed.

(** ** Whole vectors *)

Lemma flipBits_regular bv :
  short_version_ bv = false → bv_wf bv → num_bits_ bv ≠ 0 →
  implements (flipBits bv) bv (negb <$> bits bv).
Proof.
  intros Hs Hwf Hn. destruct (regular_facts bv Hs Hwf) as (_ & Hlen & Hok).
  unfold flipBits. rewrite (proj2 (Nat.eqb_neq _ _) Hn), Hs.
  unfold data_array_size_ in *. rewrite data_array_size_spec in *.
  rewrite (for_words_spec _ _ _ (λ _ x, unot 64 x)) by (done || lia). cbn [mbind outcome_bind].
  set (data := imap _ _). set (k := (num_bits_ bv + 63) / 64 - 1).
  assert (data !! k = Some (word_at (data_array_ bv) k)) as Hk.
  { unfold data. rewrite list_lookup_imap, (word_at_lookup (data_array_ bv) k) by lia. cbn.
    by rewrite bool_decide_eq_false_2 by lia. }
  rewrite (update_spec _ _ _ _ Hk). cbn [mbind outcome_bind].
  apply implements_regular; [done|done|by rewrite length_fmap, length_bits
    |by rewrite length_insert; apply length_imap|apply Forall_insert;
      [apply Forall_imap_ok; intros; case_match; auto using word_at_ok with words|auto with words]|].
  unfold data_array_size_. rewrite data_array_size_spec. intros i Hi.
  rewrite vbit_insert by by eapply lookup_lt_Some.
  rewrite lbit_negb, length_bits, <- (regular_bits bv i Hs Hwf), lo_mod. case_decide as Hik.
  - rewrite wbit_FlipLimitedBits, Hik by lia. f_equal. apply bool_decide_ext. lia.
  - unfold data. rewrite vbit_imap by lia. rewrite bool_decide_eq_true_2 by lia.
    rewrite bool_decide_eq_true_2 by lia. cbn. by rewrite wbit_unot by lia.
Qed.

Lemma flipBits_spec bv : bv_wf bv → implements (flipBits bv) bv (negb <$> bits bv).
Proof.
  intros Hwf. destruct (decide (num_bits_ bv = 0)) as [Hn|Hn].
  { unfold flipBits. rewrite Hn. cbn. eexists; split_and!; [done|done| |done|done].
    unfold bits. by rewrite Hn. }
  by_version bv Hs; [|by apply flipBits_regular].
  unfold flipBits. rewrite (proj2 (Nat.eqb_neq _ _) Hn), Hs. short_word Hs Hwf.
  apply implements_short; [done|done|done|by rewrite length_fmap, length_bits|auto with words|].
  intros i Hi. rewrite wbit_FlipLimitedBits, lbit_negb, length_bits, Hbits by lia.
  f_equal. apply bool_decide_ext. lia.
Qed.

(** [intersectWith] and [unionWith], for an operation on words that acts bit by
    bit. *)
Section combine.
Context (op : Z → Z → Z) (bop : bool → bool → bool).
Context (Hop : ∀ w x y i, wbit w (op x y) i = bop (wbit w x i) (wbit w y i)).
Context (Hop_ok : ∀ w x y, word_ok w x → word_ok w y → word_ok w (op x y)).
Context (Hff : bop false false = false).

Lemma combine_with_spec bv other :
  bv_wf bv → bv_wf other → num_bits_ other = num_bits_ bv →
  enable_short_version other = enable_short_version bv →
  implements (combine_with op bv other) bv (zip_with bop (bits bv) (bits other)).
Proof using Hop Hop_ok Hff.
  intros Hwf Hwf' Hn He. assert (short_version_ other = short_version_ bv) as Hs'.
  { unfold short_version_. by rewrite Hn, He. }
  assert (length (zip_with bop (bits bv) (bits other)) = num_bits_ bv) as Hl.
  { rewrite length_zip_with, !length_bits. lia. }
  unfold combine_with. by_version bv Hs.
  - destruct (Nat.eqb_spec (num_bits_ bv) 0) as [Hz|Hz].
    { eexists; split_and!; [done|done| |done|done]. unfold bits. by rewrite Hn, Hz. }
    destruct (short_bits bv Hs Hwf Hz) as (x & _ & -> & Hx & Hb & Hbx).
    destruct (short_bits other Hs' Hwf') as (y & _ & -> & Hy & _ & Hby); [lia|].
    rewrite Hn in *. cbn [mbind outcome_bind].
    apply implements_short; [done|done|done|done|by apply Hop_ok|].
    intros i Hi. rewrite Hop, Hbx, Hby by done. rewrite lbit_zip_with; [done| |done].
    by rewrite !length_bits.
  - destruct (regular_facts bv Hs Hwf) as (_ & Hlen & Hok).
    destruct (regular_facts other Hs' Hwf') as (_ & Hlen' & Hok').
    unfold data_array_size_ in *. rewrite Hn in Hlen'.
    rewrite (for_words_spec _ _ _ (λ i x, op x (word_at (data_array_ other) i))).
    2:{ lia. }
    2:{ intros i x Hi _. by rewrite (vec_at_Some _ _ _ (word_at_lookup (data_array_ other) i ltac:(lia))). }
    cbn [mbind outcome_bind].
    apply implements_regular; [done|done|done|by rewrite length_imap|..].
    { apply Forall_imap_ok. intros i Hi. rewrite bool_decide_eq_true_2 by lia.
      apply Hop_ok; by apply word_at_ok. }
    unfold data_array_size_. intros i Hi. rewrite vbit_imap by lia.
    rewrite bool_decide_eq_true_2 by lia. rewrite Hop, !regular_bits by done.
    rewrite lbit_zip_with; [done| |done]. by rewrite !length_bits.
Qed.
End combine.

Lemma unsetFrom_spec bv other :
  enable_short_version bv = false → enable_short_version other = false →
  bv_wf bv → bv_wf other →
  implements (unsetFrom bv other) bv
    (imap (λ i b, b && negb (lbit (bits other) i)) (bits bv)).
Proof.
  intros He He' Hwf Hwf'.
  assert (short_version_ bv = false ∧ short_version_ other = false) as [Hs Hs'].
  { unfold short_version_. by rewrite He, He'. }
  destruct (regular_facts bv Hs Hwf) as (_ & Hlen & Hok).
  destruct (regular_facts other Hs' Hwf') as (_ & Hlen' & Hok').
  unfold unsetFrom. rewrite He. set (limit := if _ <? _ then _ else _).
  assert (limit = Nat.min (length (data_array_ bv)) (length (data_array_ other))) as Hlim.
  { unfold limit. rewrite Hlen, Hlen'. destruct (Nat.ltb_spec (data_array_size_ bv) (data_array_size_ other)); lia. }
  rewrite (for_words_spec _ _ _ (λ i x, Z.land x (unot 64 (word_at (data_array_ other) i)))).
  2:{ lia. }
  2:{ intros i x Hi _. by rewrite (vec_at_Some _ _ _ (word_at_lookup (data_array_ other) i ltac:(lia))). }
  cbn [mbind outcome_bind].
  apply implements_regular; [done|done|by rewrite length_imap, length_bits|by rewrite length_imap|..].
  { apply Forall_imap_ok. intros i Hi. case_match; auto using word_at_ok with words. }
  intros i Hi. rewrite vbit_imap by lia. rewrite lbit_imap, length_bits.
  pose proof (regular_bits bv i Hs Hwf) as Hb. pose proof (regular_bits other i Hs' Hwf') as Hb'.
  trans (lbit (bits bv) i && negb (lbit (bits other) i)).
  - case_bool_decide as Hi'.
    + by rewrite wbit_land, wbit_unot, Hb, Hb' by lia.
    + rewrite Hb, <- Hb'. unfold word_at. rewrite (lookup_ge_None_2 (data_array_ other)) by lia.
      cbn. by rewrite wbit_0, andb_true_r.
  - case_bool_decide; [done|]. rewrite lbit_ge; [done|]. rewrite length_bits. lia.
Qed.

(** ** Ranges *)

(** The list with [m] positions from [s] on set to [v]. *)
Definition set_range (s m : nat) (v : bool) (l : list bool) : list bool :=
  take s l ++ replicate m v ++ drop (s + m) l.

Lemma length_set_range s m v l : s + m ≤ length l → length (set_range s m v l) = length l.
Proof.
  intros. unfold set_range. rewrite !length_app, length_take, length_replicate, length_drop. lia.
Qed.

Lemma lbit_set_range s m v l i :
  s + m ≤ length l →
  lbit (set_range s m v l) i = if decide (s ≤ i < s + m) then v else lbit l i.
Proof.
  intros Hlen. unfold set_range. rewrite !lbit_app, length_take, length_replicate.
  rewrite lbit_take, lbit_replicate, lbit_drop.
  repeat case_decide; try lia.
  - by rewrite bool_decide_eq_true_2 by lia.
  - by rewrite bool_decide_eq_true_2 by lia.
  - f_equal. lia.
Qed.

Lemma wbit_put_mask v mask x r :
  r < 64 → wbit 64 (put_mask v mask x) r = if wbit 64 mask r then v else wbit 64 x r.
Proof.
  intros Hr. unfold put_mask. destruct v.
  - rewrite wbit_lor. by destruct (wbit 64 mask r); rewrite ?orb_true_r, ?orb_false_r.
  - rewrite wbit_land, wbit_unot by done.
    by destruct (wbit 64 mask r); cbn; rewrite ?andb_true_r, ?andb_false_r.
Qed.

Lemma put_mask_ok v mask x : word_ok 64 mask → word_ok 64 x → word_ok 64 (put_mask v mask x).
Proof. intros. unfold put_mask. destruct v; auto with words. Qed.

(** The part of the range that starts at a word. It touches the word after the
    last one covered even when no bit of that word is in the range. *)
Lemma set_range_rest_spec v a c data :
  Forall (word_ok 64) data → a + c / 64 < length data →
  ∃ data', set_range_rest v a c data = Ok data' ∧ length data' = length data ∧
    Forall (word_ok 64) data' ∧
    ∀ i, i < 64 * length data →
      vbit 64 data' i = if decide (64 * a ≤ i < 64 * a + c) then v else vbit 64 data i.
Proof.
  intros Hok Hlen. unfold set_range_rest. rewrite hi_div, lo_mod, memset_spec by lia.
  cbn [mbind outcome_bind]. set (data1 := imap _ _). remember (a + c / 64) as k eqn:Hkeq.
  assert (data1 !! k = Some (word_at data k)) as Hk.
  { unfold data1. rewrite list_lookup_imap, (word_at_lookup data k) by lia. cbn.
    by rewrite bool_decide_eq_false_2 by lia. }
  rewrite (update_spec _ _ _ _ Hk). eexists. split; [done|].
  split_and!; [by rewrite length_insert; apply length_imap|..].
  - apply Forall_insert; [|apply put_mask_ok; [apply MaskBitRange_ok|by apply word_at_ok]].
    apply Forall_imap_ok. intros. case_match; [destruct v; auto with words|by apply word_at_ok].
  - intros i Hi. rewrite vbit_insert by by eapply lookup_lt_Some. case_decide as Hik.
    + rewrite wbit_put_mask, wbit_MaskBitRange by lia. rewrite <- Hik.
      case_bool_decide; case_decide; lia || done.
    + unfold data1. rewrite vbit_imap by done. case_bool_decide; case_decide; try lia; [|done].
      destruct v; [apply wbit_umax; lia|apply wbit_0].
Qed.

Lemma set_range_rest_past v a c data :
  a + c / 64 = length data → set_range_rest v a c data = Err UndefinedBehaviour.
Proof.
  intros Hlen. unfold set_range_rest. rewrite hi_div, lo_mod, memset_spec by lia.
  cbn [mbind outcome_bind]. unfold update, vec_at.
  by rewrite lookup_ge_None_2 by (rewrite length_imap; lia).
Qed.

(** The range ends at the end of storage that is filled to the last bit, and the
    code gets to the part that starts at a word. *)
Definition range_past_end (bv : BitVector) (s m : nat) : Prop :=
  short_version_ bv = false ∧ s + m = num_bits_ bv ∧ num_bits_ bv mod 64 = 0 ∧
  (s mod 64 = 0 ∨ 64 < s mod 64 + m).

#[global] Instance range_past_end_dec bv s m : Decision (range_past_end bv s m).
Proof. unfold range_past_end. solve_decision. Defined.

Lemma setBitRange_regular bv s m v :
  short_version_ bv = false → bv_wf bv → s < num_bits_ bv → s + m ≤ num_bits_ bv →
  if decide (range_past_end bv s m)
  then setBitRangeRegularVersion s m v bv = Err UndefinedBehaviour
  else implements (setBitRangeRegularVersion s m v bv) bv (set_range s m v (bits bv)).
Proof.
  intros Hs Hwf Hsn Hsm. destruct (regular_facts bv Hs Hwf) as (_ & Hlen & Hok).
  pose proof (regular_lt bv s Hs Hwf Hsn) as Hk.
  unfold data_array_size_ in *. rewrite data_array_size_spec in *.
  assert (∀ data', length data' = length (data_array_ bv) → Forall (word_ok 64) data' →
    (∀ i, i < 64 * length (data_array_ bv) →
      vbit 64 data' i = if decide (s ≤ i < s + m) then v else vbit 64 (data_array_ bv) i) →
    implements (Ok (set_data bv data')) bv (set_range s m v (bits bv))) as Hdone.
  { intros data' Hl Hok' Hb. apply implements_regular; [done|done
      |by rewrite length_set_range; rewrite length_bits|done|done|].
    unfold data_array_size_. rewrite data_array_size_spec. intros i Hi.
    rewrite Hb, lbit_set_range by (rewrite ?length_bits; lia).
    case_decide; [done|]. unfold vbit. by rewrite regular_bits. }
  unfold setBitRangeRegularVersion. rewrite hi_div, lo_mod. unfold kSizeTBits.
  destruct (Nat.eqb_spec (s mod 64) 0) as [Hz|Hz]; cbn [negb].
  - case_decide as Hp.
    + destruct Hp as (_ & He & Hm & _). rewrite set_range_rest_past by lia. done.
    + destruct (set_range_rest_spec v (s / 64) m (data_array_ bv)) as (d & -> & Hl & Hd & Hb);
        [done| |].
      { assert (¬ (s + m = num_bits_ bv ∧ num_bits_ bv mod 64 = 0)) as Hp'; [|lia].
        intros [? ?]. apply Hp. split_and!; [done..|lia]. }
      cbn [mbind outcome_bind]. apply Hdone; [done|done|]. intros i Hi. rewrite Hb by done.
      repeat case_decide; lia || done.
  - rewrite (update_spec _ _ _ _ (word_at_lookup _ _ Hk)). cbn [mbind outcome_bind].
    set (y := put_mask _ _ _). set (data := <[s / 64 := y]> (data_array_ bv)).
    assert (Forall (word_ok 64) data) as Hokd.
    { apply Forall_insert; [done|]. apply put_mask_ok; [auto with words|by apply word_at_ok]. }
    assert (∀ i, vbit 64 data i = if decide (s ≤ i < s + m ∧ i / 64 = s / 64) then v
                                   else vbit 64 (data_array_ bv) i) as Hbd.
    { intros i. unfold data. rewrite vbit_insert by done. case_decide as Hi.
      - unfold y. rewrite wbit_put_mask, wbit_MaskBitRange by lia. rewrite <- Hi.
        case_bool_decide; case_decide; lia || done.
      - by rewrite decide_False by lia. }
    assert (length data = length (data_array_ bv)) as Hld by apply length_insert.
    destruct (Nat.leb_spec (m + s mod 64) 64) as [Hle|Hgt].
    + rewrite decide_False by (unfold range_past_end; lia). apply Hdone; [done|done|].
      intros i Hi. rewrite Hbd. repeat case_decide; lia || done.
    + case_decide as Hp.
      { destruct Hp as (_ & He & Hm & _). rewrite set_range_rest_past by lia. done. }
      destruct (set_range_rest_spec v (s / 64 + 1) (m + s mod 64 - 64) data)
        as (d & -> & Hl & Hd & Hb); [done| |].
      { assert (¬ (s + m = num_bits_ bv ∧ num_bits_ bv mod 64 = 0)) as Hp'; [|lia].
        intros [? ?]. apply Hp. split_and!; [done..|lia]. }
      cbn [mbind outcome_bind]. apply Hdone; [lia|done|]. intros i Hi. rewrite Hb, Hbd by lia.
      repeat case_decide; lia || done.
Qed.

Lemma setBitRange_spec bv s m v :
  bv_wf bv → s < num_bits_ bv → s + m ≤ num_bits_ bv →
  if decide (range_past_end bv s m)
  then setBitRange s m v bv = Err UndefinedBehaviour
  else implements (setBitRange s m v bv) bv (set_range s m v (bits bv)).
Proof.
  intros Hwf Hsn Hsm. unfold setBitRange. by_version bv Hs; [|by apply setBitRange_regular].
  rewrite decide_False by (intros [? _]; congruence).
  unfold setBitRangeShortVersion. short_word Hs Hwf.
  apply implements_short; [done|done|lia|by rewrite length_set_range; rewrite length_bits|..].
  - destruct v; auto with words.
  - intros i Hi. rewrite lbit_set_range, <- Hbits by (rewrite ?length_bits; lia). destruct v.
    + rewrite wbit_lor, wbit_MaskBitRange by done.
      case_bool_decide; case_decide; lia || by rewrite ?orb_true_r, ?orb_false_r.
    + rewrite land_lnot, wbit_land, wbit_unot, wbit_MaskBitRange by done.
      case_bool_decide; case_decide; lia || by cbn; rewrite ?andb_true_r, ?andb_false_r.
Qed.

(** ** Tests and counts *)

Lemma any_loop_spec idx count data :
  idx + count ≤ length data →
  any_loop idx count data = Ok (existsb (λ i, negb (word_at data i =? 0)%Z) (seq idx count)).
Proof.
  revert idx. induction count as [|count IH]; intros idx Hlen; cbn [any_loop seq existsb]; [done|].
  rewrite (vec_at_Some _ _ _ (word_at_lookup data idx ltac:(lia))). cbn [mbind outcome_bind].
  destruct (negb _); [done|]. cbn. apply IH. lia.
Qed.

Lemma existsb_id_lbit l : existsb id l = true ↔ ∃ i, lbit l i = true.
Proof.
  rewrite existsb_true_Exists, Exists_exists. split.
  - intros (b & [i Hi]%list_elem_of_lookup & Hb). exists i. unfold lbit. by rewrite Hi.
  - intros [i Hi]. destruct (decide (i < length l)) as [Hlt|]; [|by rewrite lbit_ge in Hi by lia].
    exists (lbit l i). split; [|done]. by eapply list_elem_of_lookup_2, lbit_lookup.
Qed.

Lemma any_spec bv : bv_wf bv → any bv = Ok (existsb id (bits bv)).
Proof.
  intros Hwf. unfold any. by_version bv Hs.
  - destruct (Nat.eqb_spec (num_bits_ bv) 0) as [Hz|Hz].
    { unfold bits. by rewrite Hz. }
    short_word Hs Hwf. f_equal. apply eq_true_iff_eq. rewrite existsb_id_lbit.
    destruct (Z.eqb_spec x 0) as [->|Hne]; cbn.
    + split; [done|]. intros [i Hi]. destruct (decide (i < num_bits_ bv)) as [Hlt|].
      * rewrite <- Hbits, wbit_0 in Hi by lia. done.
      * by rewrite lbit_ge in Hi by (rewrite length_bits; lia).
    + split; [|done]. intros _. destruct (word_nonzero _ _ Hx Hne) as (i & Hi & Hb).
      exists i. by rewrite <- Hbits.
  - destruct (regular_facts bv Hs Hwf) as (_ & Hlen & Hok).
    rewrite any_loop_spec by lia. f_equal. apply eq_true_iff_eq.
    rewrite existsb_id_lbit, existsb_exists. split.
    + intros (k & _ & Hk). destruct (Z.eqb_spec (word_at (data_array_ bv) k) 0) as [|Hne]; [done|].
      destruct (word_nonzero 64 _ (word_at_ok _ _ _ Hok) Hne) as (r & Hr & Hb).
      exists (64 * k + r). rewrite <- regular_bits by done.
      replace ((64 * k + r) / 64) with k by lia. by replace ((64 * k + r) mod 64) with r by lia.
    + intros [i Hi]. rewrite <- regular_bits in Hi by done. exists (i / 64). split.
      * apply in_seq. destruct (decide (i / 64 < length (data_array_ bv))); [lia|].
        unfold word_at in Hi. by rewrite lookup_ge_None_2, wbit_0 in Hi by lia.
      * destruct (Z.eqb_spec (word_at (data_array_ bv) (i / 64)) 0) as [E|]; [|done].
        by rewrite E, wbit_0 in Hi.
Qed.

Lemma all_loop_spec idx count data :
  idx + count ≤ length data →
  all_loop idx count data = Ok (forallb (λ i, word_at data i =? umax 64)%Z (seq idx count)).
Proof.
  revert idx. induction count as [|count IH]; intros idx Hlen; cbn [all_loop seq forallb]; [done|].
  rewrite (vec_at_Some _ _ _ (word_at_lookup data idx ltac:(lia))). cbn [mbind outcome_bind].
  destruct (_ =? _)%Z; [|done]. cbn. apply IH. lia.
Qed.

Lemma forallb_id_lbit l : forallb id l = true ↔ ∀ i, i < length l → lbit l i = true.
Proof.
  rewrite forallb_forall. split.
  - intros Hl i Hi. apply Hl. apply list_elem_of_In. by eapply list_elem_of_lookup_2, lbit_lookup.
  - intros Hl b [i Hb]%list_elem_of_In%list_elem_of_lookup.
    specialize (Hl i (lookup_lt_Some _ _ _ Hb)). unfold lbit in Hl. by rewrite Hb in Hl.
Qed.

(** A word equals the mask of its first [n] bits. *)
Lemma high_mask_eqb w n x :
  word_ok w x → n ≤ w → (∀ i, n ≤ i < w → wbit w x i = false) →
  (x =? ushl w (umax w) (w - n))%Z = true ↔ ∀ i, i < n → wbit w x i = true.
Proof.
  intros Hx Hn Hpad. rewrite Z.eqb_eq. split.
  - intros -> i Hi. rewrite wbit_high_mask by lia. by apply bool_decide_eq_true_2.
  - intros Hb. apply (word_ext w); [done|apply ushl_ok|]. intros i Hi.
    rewrite wbit_high_mask by lia. case_bool_decide; [by apply Hb|apply Hpad; lia].
Qed.

(** Without the cut to the width of the word, the mask of fewer bits than the
    word has is larger than any word. *)
Lemma wide_mask_eqb w n x :
  word_ok w x → 0 < n < w → w ≤ 16 → (x =? ushl 32 (umax w) (w - n))%Z = false.
Proof.
  intros Hx Hn Hw. apply Z.eqb_neq. intros E.
  assert (Z.testbit (ushl 32 (umax w) (w - n)) w = true) as Hbit.
  { unfold ushl. rewrite uint_testbit, Z.shiftl_spec by lia.
    rewrite (proj2 (Z.ltb_lt _ _)) by lia. cbn. unfold umax. apply Z.ones_spec_low. lia. }
  rewrite <- E in Hbit. by rewrite (word_ok_testbit w) in Hbit by (done || lia).
Qed.

(** The lengths at which the short version compares with a mask that is too
    wide. *)
Definition all_truncated (bv : BitVector) : bool :=
  short_version_ bv && (bool_decide (0 < num_bits_ bv < 8) || bool_decide (8 < num_bits_ bv < 16)).

Lemma all_short bv :
  short_version_ bv = true → bv_wf bv →
  all bv = Ok (forallb id (bits bv) && negb (all_truncated bv)).
Proof.
  intros Hs Hwf. unfold all, all_truncated. rewrite Hs. cbn [andb].
  destruct (Nat.eqb_spec (num_bits_ bv) 0) as [Hz|Hz]; [unfold bits; by rewrite Hz|].
  short_word Hs Hwf. f_equal. set (n := num_bits_ bv) in *.
  assert (n < 33) as H33.
  { unfold short_version_ in Hs. apply andb_true_iff in Hs as [_ Hs%Nat.ltb_lt]. done. }
  destruct (decide (0 < n < 8 ∨ 8 < n < 16)) as [Hbad|Hgood].
  - replace (negb _) with false by (repeat case_bool_decide; cbn; done || lia).
    rewrite andb_false_r. assert (short_width n ≤ 16 ∧ n < short_width n) as [? ?].
    { unfold short_width. destruct (Nat.ltb_spec n 9), (Nat.ltb_spec n 17); lia. }
    replace (promoted (short_width n)) with 32 by (unfold promoted; lia).
    apply wide_mask_eqb; [done|lia|done].
  - replace (negb _) with true by (repeat case_bool_decide; cbn; done || lia).
    rewrite andb_true_r. apply eq_true_iff_eq. rewrite forallb_id_lbit, length_bits. fold n.
    replace (ushl (promoted (short_width n)) (umax (short_width n)) (short_width n - n))
      with (ushl (short_width n) (umax (short_width n)) (short_width n - n)).
    + rewrite high_mask_eqb; [|done|lia|].
      * split; intros Hall i Hi; [rewrite <- Hbits by lia|rewrite Hbits by lia]; by apply Hall.
      * intros i Hi. rewrite Hbits by lia. apply lbit_ge. rewrite length_bits. lia.
    + destruct (decide (short_width n = 32)) as [->|H32]; [done|].
      assert (short_width n - n = 0) as ->.
      { unfold short_width in *. destruct (Nat.ltb_spec n 9), (Nat.ltb_spec n 17); lia. }
      unfold ushl. rewrite !Z.shiftl_0_r.
      rewrite (uint_id (promoted _)), uint_id; [done|apply umax_ok|].
      destruct (umax_ok (short_width n)) as [Hl Hu]. split; [done|].
      eapply Z.lt_le_trans; [exact Hu|]. apply Z.pow_le_mono_r; unfold promoted; lia.
Qed.

Lemma all_regular bv :
  short_version_ bv = false → bv_wf bv → all bv = Ok (forallb id (bits bv)).
Proof.
  intros Hs Hwf. destruct (regular_facts bv Hs Hwf) as (_ & Hlen & Hok).
  unfold all, data_array_size_ in *. rewrite Hs, lo_mod, data_array_size_spec in *.
  unfold kSizeTBits. set (n := num_bits_ bv) in *.
  rewrite all_loop_spec by (destruct (_ =? _); lia). cbn [mbind outcome_bind].
  set (full := forallb _ _).
  assert (full = true ↔ ∀ i, i < 64 * (n / 64) → lbit (bits bv) i = true) as Hfull.
  { unfold full. rewrite forallb_forall. setoid_rewrite in_seq.
    replace ((n + 63) / 64 - (if n mod 64 =? 0 then 0 else 1)) with (n / 64)
      by (destruct (Nat.eqb_spec (n mod 64) 0); lia).
    split.
    - intros Hall i Hi. specialize (Hall (i / 64) ltac:(lia)). apply Z.eqb_eq in Hall.
      rewrite <- regular_bits, Hall by done. apply wbit_umax. lia.
    - intros Hall k Hk. apply Z.eqb_eq, (word_ext 64); [by apply word_at_ok|apply umax_ok|].
      intros r Hr. rewrite wbit_umax by done. specialize (Hall (64 * k + r) ltac:(lia)).
      rewrite <- regular_bits in Hall by done.
      replace ((64 * k + r) / 64) with k in Hall by lia.
      by replace ((64 * k + r) mod 64) with r in Hall by lia. }
  assert (forallb id (bits bv) = true ↔ full = true ∧
    ∀ i, 64 * (n / 64) ≤ i < n → lbit (bits bv) i = true) as Hsplit.
  { rewrite forallb_id_lbit, length_bits, Hfull. fold n. split.
    - intros Hall. split; intros i Hi; apply Hall; lia.
    - intros [H1 H2] i Hi. destruct (decide (i < 64 * (n / 64))); [by apply H1|apply H2; lia]. }
  destruct full; cbn [negb].
  2:{ f_equal. symmetry. apply not_true_iff_false. rewrite Hsplit. by intros []. }
  destruct (Nat.eqb_spec (n mod 64) 0) as [Hz|Hz].
  { f_equal. symmetry. apply Hsplit. split; [done|]. intros. lia. }
  rewrite (vec_at_Some _ _ _ (word_at_lookup (data_array_ bv) ((n + 63) / 64 - 1) ltac:(lia))).
  cbn [mbind outcome_bind]. f_equal. apply eq_true_iff_eq. rewrite Hsplit.
  replace ((n + 63) / 64 - 1) with (n / 64) by lia.
  assert (∀ r, r < 64 → wbit 64 (word_at (data_array_ bv) (n / 64)) r
                         = lbit (bits bv) (64 * (n / 64) + r)) as Hr.
  { intros r Hr. rewrite <- regular_bits by done. f_equal; [f_equal|]; lia. }
  rewrite high_mask_eqb; [|by apply word_at_ok|lia|].
  - split.
    + intros Hall. split; [done|]. intros i Hi. specialize (Hall (i - 64 * (n / 64)) ltac:(lia)).
      rewrite Hr in Hall by lia. by replace (64 * (n / 64) + (i - 64 * (n / 64))) with i in Hall by lia.
    + intros [_ Hall] i Hi. rewrite Hr by lia. apply Hall. lia.
  - intros i Hi. rewrite Hr by lia. apply lbit_ge. rewrite length_bits. lia.
Qed.

Lemma all_spec bv :
  bv_wf bv → all bv = Ok (forallb id (bits bv) && negb (all_truncated bv)).
Proof.
  intros Hwf. by_version bv Hs; [by apply all_short|].
  rewrite all_regular by done. unfold all_truncated. by rewrite Hs, andb_true_r.
Qed.

Lemma count_true_filter l : count_true (lbit l) (length l) = length (filter Is_true l).
Proof.
  induction l as [|b l IH] using rev_ind; [done|].
  rewrite length_app, filter_app, length_app, Nat.add_1_r. cbn [count_true length].
  rewrite (count_true_ext _ (lbit l)), IH.
  - rewrite lbit_app, decide_False, Nat.sub_diag by lia. by destruct b.
  - intros i Hi. by rewrite lbit_app, decide_True.
Qed.

Lemma count_loop_spec bv position loops count :
  short_version_ bv = false → bv_wf bv → position + loops ≤ data_array_size_ bv →
  count_loop position loops count (data_array_ bv) =
    Ok (count + count_true (λ i, lbit (bits bv) (64 * position + i)) (64 * loops)).
Proof.
  intros Hs Hwf. destruct (regular_facts bv Hs Hwf) as (_ & Hlen & Hok).
  revert position count. induction loops as [|loops IH]; intros position count Hle.
  { assert (64 * 0 = 0) as -> by lia. cbn [count_loop count_true]. f_equal. lia. }
  assert (population_count 64 (word_at (data_array_ bv) position) =
    Ok (count_true (λ i, lbit (bits bv) (64 * position + i)) 64)) as Hpop.
  { rewrite population_count_spec by by apply word_at_ok. f_equal. apply count_true_ext.
    intros i Hi. rewrite <- regular_bits by done. f_equal; [f_equal|]; lia. }
  cbn [count_loop].
  rewrite (vec_at_Some _ _ _ (word_at_lookup (data_array_ bv) position ltac:(lia))).
  unfold mbind, outcome_bind. rewrite Hpop. rewrite IH by lia. f_equal.
  rewrite (count_true_step (lbit (bits bv))), Nat.add_assoc. done.
Qed.

Lemma count_true_bits bv k :
  num_bits_ bv ≤ k → count_true (lbit (bits bv)) k = length (filter Is_true (bits bv)).
Proof.
  intros Hk. rewrite <- count_true_filter. apply count_true_pad; [by rewrite length_bits|].
  intros i Hi. by apply lbit_ge.
Qed.

Lemma onesCount_regular bv :
  short_version_ bv = false → bv_wf bv →
  onesCount bv = Ok (length (filter Is_true (bits bv))).
Proof.
  intros Hs Hwf. unfold onesCount. rewrite Hs, count_loop_spec by done. f_equal.
  rewrite Nat.add_0_l, <- (count_true_bits bv (64 * data_array_size_ bv))
    by (unfold data_array_size_; rewrite data_array_size_spec; lia).
  apply count_true_ext. intros i _. f_equal.
Qed.

Lemma onesCount_spec bv : bv_wf bv → onesCount bv = Ok (length (filter Is_true (bits bv))).
Proof.
  intros Hwf. by_version bv Hs; [|by apply onesCount_regular]. unfold onesCount. rewrite Hs.
  destruct (Nat.eqb_spec (num_bits_ bv) 0) as [Hz|Hz]; [unfold bits; by rewrite Hz|].
  short_word Hs Hwf. rewrite population_count_spec by done. f_equal.
  rewrite <- (count_true_bits bv (short_width (num_bits_ bv))) by lia. by apply count_true_ext.
Qed.
