(* ===== verification/BitVectorSearch.v ===== *)
(** * Searches in a bit vector

    firstOne, firstZero, lastOne, lastZero and subtractTo of
    utility/BitVector.hpp find what the corresponding search of the list of
    bits finds. *)

From stdpp Require Import options.
From Stdlib Require Import ZifyNat.
From S2P Require Import Prelude BitManipulation BitVector BitVectorBits BitVectorOps.

Ltac Zify.zify_post_hook ::= Z.to_euclidean_division_equations.

(** ** Positions from a word and a bit *)

Lemma lor_disjoint q c : c < 64 → Nat.lor (Nat.shiftl q 6) c = 64 * q + c.
Proof.
  intros Hc. assert (Nat.land (Nat.shiftl q 6) c = 0) as Hland.
  { apply Nat.bits_inj. intros i. rewrite Nat.land_spec, Nat.bits_0.
    destruct (decide (i < 6)) as [Hi|Hi].
    - by rewrite Nat.shiftl_spec_low.
    - rewrite <- (Nat.mod_small c (2 ^ 6)) by done.
      rewrite Nat.mod_pow2_bits_high by lia. apply andb_false_r. }
  rewrite <- Nat.lxor_lor, <- Nat.add_nocarry_lxor by done.
  rewrite Nat.shiftl_mul_pow2. change (2 ^ 6) with 64. lia.
Qed.

Lemma ldiff_low p : Nat.ldiff p kLowerOrderMask = Nat.shiftl (p / 64) 6.
Proof.
  unfold kLowerOrderMask. rewrite (Nat.ldiff_ones_r p 6 : Nat.ldiff p 63 = _).
  by rewrite Nat.shiftr_div_pow2.
Qed.

(** ** What the searches return *)

(** [r] is the first position from [pos] on where [t] holds, or [n]. *)
Definition first_from (t : nat → bool) (pos n r : nat) : Prop :=
  pos ≤ r ≤ n ∧ (r < n → t r = true) ∧ ∀ j, pos ≤ j < r → t j = false.

(** [r] is the last position before [pos] where [t] holds, or [n]. *)
Definition last_before (t : nat → bool) (pos n r : nat) : Prop :=
  (r < pos ∧ t r = true ∧ ∀ j, r < j < pos → t j = false) ∨
  (r = n ∧ ∀ j, j < pos → t j = false).

(** ** Over whole words *)

Section search.
Context (f : Z → Z) (bv : BitVector) (t : nat → bool).
Context (Hs : short_version_ bv = false) (Hwf : bv_wf bv).
Context (Hf : ∀ x, word_ok 64 x → word_ok 64 (f x)).
Context (Ht : ∀ i, i / 64 < data_array_size_ bv →
  wbit 64 (f (word_at (data_array_ bv) (i / 64))) (i mod 64) = t i).

Lemma search_word k :
  k < data_array_size_ bv →
  data_array_ bv !! k = Some (word_at (data_array_ bv) k) ∧
  word_ok 64 (f (word_at (data_array_ bv) k)) ∧
  ∀ r, r < 64 → wbit 64 (f (word_at (data_array_ bv) k)) r = t (64 * k + r).
Proof using Hs Hwf Hf Ht.
  intros Hk. destruct (regular_facts bv Hs Hwf) as (_ & Hlen & Hok). split_and!.
  - apply word_at_lookup. lia.
  - by apply Hf, word_at_ok.
  - intros r Hr. rewrite <- Ht by lia. f_equal; [f_equal; f_equal|]; lia.
Qed.

(** What a search that starts at the first bit of a word returns. *)
Definition found_from (lo hi r : nat) : Prop :=
  (lo ≤ r < hi ∧ t r = true ∧ ∀ j, lo ≤ j < r → t j = false) ∨
  (r = num_bits_ bv ∧ ∀ j, lo ≤ j < hi → t j = false).

Lemma first_loop_spec k count :
  k + count = data_array_size_ bv →
  ∃ r, first_loop f (num_bits_ bv) k count (data_array_ bv) = Ok r ∧
    found_from (64 * k) (64 * data_array_size_ bv) r.
Proof using Hs Hwf Hf Ht.
  revert k. induction count as [|count IH]; intros k Hk; cbn [first_loop].
  { eexists; split; [done|]. right. split; [done|]. intros. lia. }
  destruct (search_word k) as (Hx & Hok & Hb); [lia|].
  rewrite (vec_at_Some _ _ _ Hx). cbn [mbind outcome_bind].
  destruct (Z.eqb_spec (f (word_at (data_array_ bv) k)) 0) as [Hz|Hz]; cbn [negb].
  - destruct (IH (S k)) as (r & -> & Hr); [lia|]. eexists; split; [done|].
    assert (∀ j, 64 * k ≤ j < 64 * S k → t j = false) as Hz'.
    { intros j Hj. specialize (Hb (j - 64 * k) ltac:(lia)). rewrite Hz, wbit_0 in Hb.
      by replace (64 * k + (j - 64 * k)) with j in Hb by lia. }
    destruct Hr as [(? & ? & Hr)|[? Hr]]; [left|right]; split_and!; try done || lia;
      intros j Hj; (destruct (decide (j < 64 * S k)); [apply Hz'|apply Hr]; lia).
  - destruct (leading_zero_count_spec 64 _ Hok Hz) as (i & -> & Hi & Hbi & Hlow).
    cbn [mbind outcome_bind]. unfold kHigherOrderShift. rewrite lor_disjoint by done.
    eexists; split; [done|]. left. split_and!; [lia|lia|by rewrite <- Hb|].
    intros j Hj. specialize (Hlow (j - 64 * k) ltac:(lia)). rewrite Hb in Hlow by lia.
    by replace (64 * k + (j - 64 * k)) with j in Hlow by lia.
Qed.

Lemma last_loop_spec k :
  k < data_array_size_ bv →
  ∃ r, last_loop f (num_bits_ bv) k (data_array_ bv) = Ok r ∧
    last_before t (64 * S k) (num_bits_ bv) r.
Proof using Hs Hwf Hf Ht.
  assert (∀ k r, k < data_array_size_ bv →
    last_set 64 (f (word_at (data_array_ bv) k)) r →
    Nat.shiftl (k + 1) kHigherOrderShift - (64 - 1 - r) - 1 = 64 * k + r ∧
    last_before t (64 * S k) (num_bits_ bv) (64 * k + r)) as Hfound.
  { intros k' r Hk (Hr & Hbr & Hhi). destruct (search_word k' Hk) as (_ & _ & Hb).
    unfold kHigherOrderShift. rewrite Nat.shiftl_mul_pow2. change (2 ^ 6) with 64.
    split; [lia|]. left. split_and!; [lia|by rewrite <- Hb|].
    intros j Hj. specialize (Hhi (j - 64 * k') ltac:(lia)). rewrite Hb in Hhi by lia.
    by replace (64 * k' + (j - 64 * k')) with j in Hhi by lia. }
  induction k as [|k IH]; intros Hk; destruct (search_word _ Hk) as (Hx & Hok & Hb);
    cbn [last_loop]; rewrite (vec_at_Some _ _ _ Hx); cbn [mbind outcome_bind];
    match goal with |- context [(?v =? 0)%Z] => destruct (Z.eqb_spec v 0) as [Hz|Hz] end;
    cbn [negb].
  - eexists; split; [done|]. right. split; [done|]. intros j Hj.
    specialize (Hb j ltac:(lia)). by rewrite Hz, wbit_0 in Hb.
  - destruct (trailing_zero_count_spec 64 _ Hok Hz) as (i & -> & Hi).
    cbn [mbind outcome_bind]. destruct (Hfound 0 i Hk Hi) as [-> ?]. eauto.
  - destruct IH as (r & -> & Hr); [lia|]. eexists; split; [done|].
    assert (∀ j, 64 * S k ≤ j < 64 * S (S k) → t j = false) as Hz'.
    { intros j Hj. specialize (Hb (j - 64 * S k) ltac:(lia)). rewrite Hz, wbit_0 in Hb.
      by replace (64 * S k + (j - 64 * S k)) with j in Hb by lia. }
    destruct Hr as [(? & ? & Hr)|[? Hr]]; [left|right]; split_and!; try done || lia;
      intros j Hj; (destruct (decide (j < 64 * S k)); [apply Hr|apply Hz']; lia).
  - destruct (trailing_zero_count_spec 64 _ Hok Hz) as (i & -> & Hi).
    cbn [mbind outcome_bind]. destruct (Hfound (S k) i Hk Hi) as [-> ?]. eauto.
Qed.

Context (cut : Z → nat → Z).

Lemma first_regular_spec pos :
  (∀ x k, word_ok 64 x → k < 64 → word_ok 64 (cut x k) ∧
    ∀ r, r < 64 → wbit 64 (cut x k) r = bool_decide (k ≤ r) && wbit 64 (f x) r) →
  pos < num_bits_ bv →
  ∃ r, first_regular f cut pos bv = Ok r ∧ found_from pos (64 * data_array_size_ bv) r.
Proof using Hs Hwf Hf Ht.
  intros Hcut Hpos. unfold first_regular. rewrite lo_mod, !hi_div, ldiff_low.
  assert (pos / 64 < data_array_size_ bv) as Hlt.
  { unfold data_array_size_. rewrite data_array_size_spec. lia. }
  destruct (Nat.eqb_spec (pos mod 64) 0) as [Hz|Hz]; cbn [negb].
  { destruct (first_loop_spec (pos / 64) (data_array_size_ bv - pos / 64)) as (r & -> & Hr); [lia|].
    eexists; split; [done|]. by replace (64 * (pos / 64)) with pos in Hr by lia. }
  destruct (search_word (pos / 64) Hlt) as (Hx & _ & Hb). rewrite (vec_at_Some _ _ _ Hx).
  cbn [mbind outcome_bind]. destruct (regular_facts bv Hs Hwf) as (_ & _ & Hok).
  destruct (Hcut (word_at (data_array_ bv) (pos / 64)) (pos mod 64)) as [Hokc Hbc];
    [by apply word_at_ok|lia|].
  set (value := cut _ _) in *.
  assert (∀ j, pos ≤ j < 64 * (pos / 64) + 64 → t j = wbit 64 value (j - 64 * (pos / 64))) as Htj.
  { intros j Hj. rewrite Hbc, Hb, bool_decide_eq_true_2 by lia. cbn [andb]. f_equal. lia. }
  destruct (Z.eqb_spec value 0) as [Hv|Hv]; cbn [negb].
  - rewrite Nat.shiftl_mul_pow2. change (2 ^ 6) with 64. unfold kSizeTBits.
    replace ((pos / 64 * 64 + 64) / 64) with (S (pos / 64)) by lia.
    destruct (first_loop_spec (S (pos / 64)) (data_array_size_ bv - S (pos / 64)))
      as (r & -> & Hr); [lia|]. eexists; split; [done|].
    assert (∀ j, pos ≤ j < 64 * S (pos / 64) → t j = false) as Hz'.
    { intros j Hj. by rewrite Htj, Hv, wbit_0 by lia. }
    destruct Hr as [(? & ? & Hr)|[? Hr]]; [left|right]; split_and!; try done || lia;
      intros j Hj; (destruct (decide (j < 64 * S (pos / 64))); [apply Hz'|apply Hr]; lia).
  - destruct (leading_zero_count_spec 64 _ Hokc Hv) as (i & -> & Hi & Hbi & Hlow).
    cbn [mbind outcome_bind]. rewrite lor_disjoint by done.
    assert (pos mod 64 ≤ i) as Hge.
    { rewrite Hbc in Hbi by done. by case_bool_decide. }
    eexists; split; [done|]. left. split_and!; [lia|lia| |].
    + rewrite Htj by lia. by replace (64 * (pos / 64) + i - 64 * (pos / 64)) with i by lia.
    + intros j Hj. rewrite Htj by lia. apply Hlow. lia.
Qed.

Lemma last_regular_spec pos :
  (∀ x k, word_ok 64 x → k < 64 → word_ok 64 (cut x k) ∧
    ∀ r, r < 64 → wbit 64 (cut x k) r = bool_decide (r < k) && wbit 64 (f x) r) →
  0 < pos ≤ num_bits_ bv →
  ∃ r, last_regular f cut pos bv = Ok r ∧ last_before t pos (num_bits_ bv) r.
Proof using Hs Hwf Hf Ht.
  intros Hcut Hpos. unfold last_regular. rewrite lo_mod, hi_div.
  assert ((pos - 1) / 64 < data_array_size_ bv) as Hlt.
  { unfold data_array_size_. rewrite data_array_size_spec. lia. }
  destruct (Nat.eqb_spec (pos mod 64) 0) as [Hz|Hz]; cbn [negb].
  { destruct (last_loop_spec ((pos - 1) / 64) Hlt) as (r & -> & Hr). eexists; split; [done|].
    by replace (64 * S ((pos - 1) / 64)) with pos in Hr by lia. }
  replace ((pos - 1) / 64) with (pos / 64) in * by lia.
  destruct (search_word (pos / 64) Hlt) as (Hx & _ & Hb). rewrite (vec_at_Some _ _ _ Hx).
  cbn [mbind outcome_bind]. destruct (regular_facts bv Hs Hwf) as (_ & _ & Hok).
  destruct (Hcut (word_at (data_array_ bv) (pos / 64)) (pos mod 64)) as [Hokc Hbc];
    [by apply word_at_ok|lia|].
  set (value := cut _ _) in *.
  assert (∀ j, 64 * (pos / 64) ≤ j < pos → t j = wbit 64 value (j - 64 * (pos / 64))) as Htj.
  { intros j Hj. rewrite Hbc, Hb, bool_decide_eq_true_2 by lia. cbn [andb]. f_equal. lia. }
  destruct (Z.eqb_spec value 0) as [Hv|Hv]; cbn [negb].
  - assert (∀ j, 64 * (pos / 64) ≤ j < pos → t j = false) as Hz'.
    { intros j Hj. by rewrite Htj, Hv, wbit_0 by lia. }
    destruct (pos / 64) as [|k] eqn:Hk.
    + eexists; split; [done|]. right. split; [done|]. intros j Hj. apply Hz'. lia.
    + destruct (last_loop_spec k) as (r & -> & Hr); [lia|]. eexists; split; [done|].
      destruct Hr as [(? & ? & Hr)|[? Hr]]; [left|right]; split_and!; try done || lia;
        intros j Hj; (destruct (decide (j < 64 * S k)); [apply Hr|apply Hz']; lia).
  - destruct (trailing_zero_count_spec 64 _ Hokc Hv) as (i & -> & Hi & Hbi & Hhi).
    cbn [mbind outcome_bind]. unfold kHigherOrderShift. rewrite Nat.shiftl_mul_pow2.
    change (2 ^ 6) with 64. assert (i < pos mod 64) as Hlow.
    { rewrite Hbc in Hbi by done. by case_bool_decide. }
    exists (64 * (pos / 64) + i). split; [f_equal; lia|]. left. split_and!; [lia| |].
    + rewrite Htj by lia. by replace (64 * (pos / 64) + i - 64 * (pos / 64)) with i by lia.
    + intros j Hj. rewrite Htj by lia. apply Hhi. lia.
Qed.
End search.

(** ** Searches forward *)

Lemma firstOne_spec bv pos :
  bv_wf bv → pos < num_bits_ bv →
  ∃ r, firstOne pos bv = Ok r ∧ first_from (lbit (bits bv)) pos (num_bits_ bv) r.
Proof.
  intros Hwf Hpos. unfold firstOne. rewrite (proj2 (Nat.eqb_neq (num_bits_ bv) 0)) by lia.
  by_version bv Hs.
  - short_word Hs Hwf. set (w := short_width _) in *. set (value := Z.land _ _).
    assert (word_ok w value) as Hv by (unfold value; auto with words).
    assert (∀ i, i < w → wbit w value i = bool_decide (pos ≤ i) && lbit (bits bv) i) as Hb.
    { intros i Hi. unfold value. rewrite wbit_land, wbit_ushr, Hbits, andb_comm by auto using umax_ok.
      case_bool_decide; [|done]. by rewrite wbit_umax by lia. }
    destruct (Z.eqb_spec value 0) as [Hz|Hz]; cbn [negb].
    + eexists; split; [done|]. split_and!; [lia|lia|lia|]. intros j Hj.
      specialize (Hb j ltac:(lia)). rewrite Hz, wbit_0, bool_decide_eq_true_2 in Hb by lia. done.
    + destruct (leading_zero_count_spec w _ Hv Hz) as (i & -> & Hi & Hbi & Hlow).
      rewrite Hb in Hbi by done. apply andb_true_iff in Hbi as [Hge%bool_decide_eq_true_1 Hbi].
      assert (i < num_bits_ bv).
      { destruct (decide (i < num_bits_ bv)); [done|].
        by rewrite lbit_ge in Hbi by (rewrite length_bits; lia). }
      eexists; split; [done|]. split_and!; [lia|lia|done|]. intros j Hj.
      specialize (Hlow j ltac:(lia)). by rewrite Hb, bool_decide_eq_true_2 in Hlow by lia.
  - destruct (first_regular_spec id bv (lbit (bits bv)) Hs Hwf) with
      (cut := λ x k, Z.land x (ushr (umax 64) k)) (pos := pos) as (r & -> & Hr).
    + done.
    + intros i _. by apply regular_bits.
    + intros x k Hx Hk. split; [auto with words|]. intros r Hr.
      rewrite wbit_land, wbit_ushr, andb_comm by auto using umax_ok.
      case_bool_decide; [|done]. by rewrite wbit_umax by lia.
    + done.
    + eexists; split; [done|]. destruct Hr as [(? & Hr & ?)|[-> Hr]].
      * assert (r < num_bits_ bv); [|by split_and!; lia || done].
        destruct (decide (r < num_bits_ bv)); [done|].
        by rewrite lbit_ge in Hr by (rewrite length_bits; lia).
      * split_and!; [lia|lia|lia|]. intros j Hj. apply Hr. unfold data_array_size_.
        rewrite data_array_size_spec. lia.
Qed.

Lemma firstZero_short bv pos :
  short_version_ bv = true → bv_wf bv → pos < num_bits_ bv →
  ∃ r, firstZero pos bv = Ok r ∧
    first_from (λ i, negb (lbit (bits bv) i)) pos (num_bits_ bv) r.
Proof.
  intros Hs Hwf Hpos. unfold firstZero. rewrite (proj2 (Nat.eqb_neq (num_bits_ bv) 0)), Hs by lia.
  short_word Hs Hwf. set (w := short_width _) in *. set (value := unot w _).
  assert (word_ok w value) as Hv by apply unot_ok.
  assert (∀ i, i < w → wbit w value i = bool_decide (pos ≤ i) && negb (lbit (bits bv) i)) as Hb.
  { intros i Hi. unfold value. rewrite wbit_unot, wbit_uint, wbit_lor, Hbits by done.
    rewrite negb_orb, andb_comm. f_equal. destruct (Nat.eqb_spec pos 0) as [->|Hp]; cbn [negb].
    - rewrite wbit_0. by rewrite bool_decide_eq_true_2 by lia.
    - rewrite <- (wbit_uint w), uint_ushl_promoted, wbit_high_mask by lia.
      case_bool_decide; case_bool_decide; cbn; done || lia. }
  destruct (Z.eqb_spec value 0) as [Hz|Hz]; cbn [negb].
  - eexists; split; [done|]. split_and!; [lia|lia|lia|]. intros j Hj.
    specialize (Hb j ltac:(lia)). by rewrite Hz, wbit_0, bool_decide_eq_true_2 in Hb by lia.
  - destruct (leading_zero_count_spec w _ Hv Hz) as (i & -> & Hi & Hbi & Hlow).
    rewrite Hb in Hbi by done. apply andb_true_iff in Hbi as [Hge%bool_decide_eq_true_1 Hbi].
    assert (i ≤ num_bits_ bv).
    { destruct (decide (i ≤ num_bits_ bv)); [done|]. specialize (Hlow (num_bits_ bv) ltac:(lia)).
      rewrite Hb, lbit_ge, bool_decide_eq_true_2 in Hlow by (rewrite ?length_bits; lia). done. }
    eexists; split; [done|]. split_and!; [lia|lia|done|]. intros j Hj.
    specialize (Hlow j ltac:(lia)). by rewrite Hb, bool_decide_eq_true_2 in Hlow by lia.
Qed.

Lemma firstZero_spec bv pos :
  bv_wf bv → pos < num_bits_ bv →
  ∃ r, firstZero pos bv = Ok r ∧
    first_from (λ i, negb (lbit (bits bv) i)) pos (num_bits_ bv) r.
Proof.
  intros Hwf Hpos. by_version bv Hs; [by apply firstZero_short|].
  unfold firstZero. rewrite (proj2 (Nat.eqb_neq (num_bits_ bv) 0)), Hs by lia.
  destruct (first_regular_spec (unot 64) bv (λ i, negb (lbit (bits bv) i)) Hs Hwf) with
    (cut := λ x k, unot 64 (Z.lor x (ushl 64 (umax 64) (kSizeTBits - k)))) (pos := pos)
    as (r & -> & Hr).
  - intros. apply unot_ok.
  - intros i _. rewrite wbit_unot by lia. by rewrite regular_bits.
  - intros x k Hx Hk. split; [apply unot_ok|]. intros r Hr. unfold kSizeTBits.
    rewrite !wbit_unot, wbit_lor, wbit_high_mask, negb_orb, andb_comm by lia. f_equal.
    case_bool_decide; case_bool_decide; cbn; done || lia.
  - done.
  - unfold data_array_size_ in Hr. rewrite data_array_size_spec in Hr.
    eexists; split; [done|]. destruct Hr as [(? & Hr & Hlow)|[-> Hr]].
    + assert (r ≤ num_bits_ bv); [|by split_and!; lia || done].
      destruct (decide (r ≤ num_bits_ bv)); [done|]. specialize (Hlow (num_bits_ bv) ltac:(lia)).
      rewrite lbit_ge in Hlow by (rewrite length_bits; lia). done.
    + split_and!; [lia|lia|lia|]. intros j Hj. apply Hr. lia.
Qed.

(** ** Searches backward *)

(** What the word of a short vector says of the last position of interest. *)
Lemma last_short w n value pos (t : nat → bool) :
  word_ok w value → 0 < pos ≤ w →
  (∀ i, i < w → wbit w value i = bool_decide (i < pos) && t i) →
  ∃ r, (if negb (value =? 0)%Z then c ← trailing_zero_count w value; Ok (w - 1 - c) else Ok n)
         = Ok r ∧ last_before t pos n r.
Proof.
  intros Hv Hpos Hb. destruct (Z.eqb_spec value 0) as [Hz|Hz]; cbn [negb].
  - exists n. split; [done|]. right. split; [done|]. intros j Hj.
    specialize (Hb j ltac:(lia)). by rewrite Hz, wbit_0, bool_decide_eq_true_2 in Hb by lia.
  - destruct (trailing_zero_count_spec w _ Hv Hz) as (i & -> & Hi & Hbi & Hhi).
    rewrite Hb in Hbi by done. apply andb_true_iff in Hbi as [Hlt%bool_decide_eq_true_1 Hbi].
    cbn [mbind outcome_bind]. exists i. split; [f_equal; lia|]. left. split_and!; [done|done|].
    intros j Hj. specialize (Hhi j ltac:(lia)). by rewrite Hb, bool_decide_eq_true_2 in Hhi by lia.
Qed.

(** The position a call asks for: the whole vector when the argument is left
    out. *)
Definition search_end (position : option nat) (bv : BitVector) : nat :=
  match position with None => num_bits_ bv | Some p => p end.

Lemma lastOne_spec bv position :
  bv_wf bv → search_end position bv ≤ num_bits_ bv →
  ∃ r, lastOne position bv = Ok r ∧
    last_before (lbit (bits bv)) (search_end position bv) (num_bits_ bv) r.
Proof.
  intros Hwf Hpos. unfold lastOne. fold (search_end position bv).
  set (pos := search_end position bv) in *. destruct (Nat.eqb_spec pos 0) as [Hz|Hz].
  { eexists; split; [done|]. right. split; [done|]. intros. lia. }
  by_version bv Hs.
  - short_word Hs Hwf. apply last_short; [apply uint_ok|lia|]. intros i Hi.
    unfold ushl at 1. rewrite wbit_uint, (land_uint (short_width (num_bits_ bv)))
      by (done || unfold promoted; lia). fold (ushl (short_width (num_bits_ bv))
        (umax (short_width (num_bits_ bv))) (short_width (num_bits_ bv) - pos)).
    by rewrite wbit_land, wbit_high_mask, Hbits, andb_comm by lia.
  - apply last_regular_spec; [done|done|done|intros; by apply regular_bits| |lia].
    intros x k Hx Hk. unfold kSizeTBits. split; [auto with words|]. intros r Hr.
    by rewrite wbit_land, wbit_high_mask, andb_comm by lia.
Qed.

Lemma lastZero_spec bv position :
  bv_wf bv → search_end position bv ≤ num_bits_ bv →
  ∃ r, lastZero position bv = Ok r ∧
    last_before (λ i, negb (lbit (bits bv) i)) (search_end position bv) (num_bits_ bv) r.
Proof.
  intros Hwf Hpos. unfold lastZero. fold (search_end position bv).
  set (pos := search_end position bv) in *. destruct (Nat.eqb_spec pos 0) as [Hz|Hz].
  { eexists; split; [done|]. right. split; [done|]. intros. lia. }
  by_version bv Hs.
  - short_word Hs Hwf. apply last_short; [apply unot_ok|lia|]. intros i Hi.
    rewrite wbit_unot, wbit_lor, Hbits, negb_orb, andb_comm by done. f_equal.
    unfold wbit. rewrite Z.lnot_spec, negb_involutive by lia.
    fold (wbit (short_width (num_bits_ bv)) (ushl (promoted (short_width (num_bits_ bv)))
      (umax (short_width (num_bits_ bv))) (short_width (num_bits_ bv) - pos)) i).
    by rewrite <- wbit_uint, uint_ushl_promoted, wbit_high_mask by lia.
  - apply last_regular_spec; [done|done|intros; apply unot_ok| | |lia].
    + intros i _. rewrite wbit_unot by lia. by rewrite regular_bits.
    + intros x k Hx Hk. unfold kSizeTBits. split; [apply unot_ok|]. intros r Hr.
      by rewrite !wbit_unot, wbit_lor, wbit_unot, wbit_high_mask, negb_orb,
        negb_involutive, andb_comm by lia.
Qed.

(** ** The bits of one vector that another lacks *)

(** The positions from [a] on, [n] of them, where [t] holds. *)
Definition positions (t : nat → bool) (a n : nat) : list nat :=
  filter (λ i, t i = true) (seq a n).
Arguments positions : simpl never.

Lemma positions_ext t t' a n :
  (∀ i, a ≤ i < a + n → t i = t' i) → positions t a n = positions t' a n.
Proof.
  revert a. induction n as [|n IH]; intros a Ht; [done|]. unfold positions in *. cbn [seq].
  specialize (IH (S a) ltac:(intros; apply Ht; lia)).
  destruct (decide (t a = true)) as [Ha|Ha].
  - rewrite !filter_cons_True by (rewrite <- ?Ht by lia; done). by rewrite IH.
  - rewrite !filter_cons_False by (rewrite <- ?Ht by lia; done). by rewrite IH.
Qed.

Lemma positions_none t a n : (∀ i, a ≤ i < a + n → t i = false) → positions t a n = [].
Proof.
  intros Ht. rewrite (positions_ext t (λ _, false)) by done. unfold positions.
  induction (seq a n) as [|i l IH]; [done|]. by rewrite filter_cons_False.
Qed.

Lemma positions_app t a n m :
  positions t a (n + m) = positions t a n ++ positions t (a + n) m.
Proof. unfold positions. by rewrite seq_app, filter_app. Qed.

Lemma positions_shift t a n :
  positions t a n = (λ r, a + r) <$> positions (λ r, t (a + r)) 0 n.
Proof.
  unfold positions. rewrite <- (Nat.add_0_r a) at 1. rewrite <- fmap_add_seq.
  generalize (seq 0 n) as l. induction l as [|i l IH]; [done|]. cbn [fmap list_fmap].
  destruct (decide (t (a + i) = true)).
  - rewrite !filter_cons_True by done. cbn. by f_equal.
  - by rewrite !filter_cons_False.
Qed.

Lemma positions_first w x i :
  first_set w x i → positions (wbit w x) 0 w = i :: positions (wbit w x) (S i) (w - S i).
Proof.
  intros (Hi & Hb & Hlow). replace w with (i + S (w - S i)) at 2 by lia.
  rewrite positions_app, (positions_none _ 0 i) by (intros; apply Hlow; lia). cbn [app Nat.add].
  unfold positions at 1. cbn [seq]. by rewrite filter_cons_True.
Qed.

Lemma positions_nonempty w x i : first_set w x i → length (positions (wbit w x) 0 w) ≠ 0.
Proof. intros Hi. rewrite (positions_first _ _ _ Hi). cbn. lia. Qed.

(** Clearing the first set bit. *)
Lemma positions_clear x i :
  word_ok 64 x → first_set 64 x i →
  let x' := Z.lxor x (ushr (TopBit 64) i) in
  word_ok 64 x' ∧ positions (wbit 64 x) 0 64 = i :: positions (wbit 64 x') 0 64.
Proof.
  intros Hx Hfirst x'. split; [unfold x'; auto with words|].
  rewrite (positions_first _ _ _ Hfirst). destruct Hfirst as (Hi & Hb & Hlow). f_equal.
  assert (∀ r, r < 64 → wbit 64 x' r = negb (bool_decide (r = i)) && wbit 64 x r) as Hx'.
  { intros r Hr. unfold x'. rewrite wbit_lxor, wbit_TopBit_ushr by done.
    case_bool_decide; subst; [by rewrite Hb|]. by destruct (wbit 64 x r). }
  replace (positions (wbit 64 x') 0 64) with (positions (wbit 64 x') 0 (S i + (64 - S i)))
    by (f_equal; lia).
  rewrite positions_app, (positions_none _ 0 (S i)).
  - apply positions_ext. intros r Hr. rewrite Hx', bool_decide_eq_false_2 by lia. done.
  - intros r Hr. rewrite Hx' by lia. case_bool_decide; [done|]. apply Hlow. lia.
Qed.

Lemma subtract_word_spec fuel base value output :
  word_ok 64 value → length (positions (wbit 64 value) 0 64) ≤ fuel →
  subtract_word fuel base value output =
    Ok (output ++ ((λ r, to_int (base + r)) <$> positions (wbit 64 value) 0 64)).
Proof.
  revert value output. induction fuel as [|fuel IH]; intros value output Hv Hlen;
    cbn [subtract_word]; destruct (Z.eqb_spec value 0) as [Hz|Hz].
  1,3: by rewrite positions_none, app_nil_r by (intros; rewrite Hz; apply wbit_0).
  - exfalso. destruct (first_set_exists 64 value Hv Hz) as [i Hi].
    apply positions_nonempty in Hi. lia.
  - destruct (leading_zero_count_spec 64 _ Hv Hz) as (i & -> & Hi). cbn [mbind outcome_bind].
    destruct (positions_clear value i Hv Hi) as [Hv' Hpos]. rewrite Hpos in Hlen |- *.
    rewrite IH; [|done|cbn [length] in Hlen; lia]. cbn [fmap list_fmap]. by rewrite <- app_assoc.
Qed.

Lemma length_positions t a n : length (positions t a n) ≤ n.
Proof. unfold positions. rewrite <- (length_seq n a) at 2. apply length_filter. Qed.

Lemma subtract_loop_spec bv other k count output :
  short_version_ bv = false → short_version_ other = false → bv_wf bv → bv_wf other →
  k + count ≤ data_array_size_ bv → k + count ≤ data_array_size_ other →
  subtract_loop k count (data_array_ bv) (data_array_ other) output =
    Ok (output ++ (to_int <$>
      positions (λ i, lbit (bits bv) i && negb (lbit (bits other) i)) (64 * k) (64 * count))).
Proof.
  intros Hs Hs' Hwf Hwf'. destruct (regular_facts bv Hs Hwf) as (_ & Hlen & Hok).
  destruct (regular_facts other Hs' Hwf') as (_ & Hlen' & Hok').
  revert k output. induction count as [|count IH]; intros k output Hk Hk'.
  { rewrite Nat.mul_0_r. cbn. by rewrite app_nil_r. }
  cbn [subtract_loop].
  rewrite (vec_at_Some _ _ _ (word_at_lookup (data_array_ bv) k ltac:(lia))).
  rewrite (vec_at_Some _ _ _ (word_at_lookup (data_array_ other) k ltac:(lia))).
  cbn [mbind outcome_bind]. set (value := Z.land _ _).
  assert (word_ok 64 value) as Hv by (unfold value; auto using word_at_ok with words).
  rewrite subtract_word_spec by (done || apply length_positions). unfold mbind, outcome_bind.
  rewrite IH by lia. rewrite <- app_assoc. do 2 f_equal.
  assert (64 * S count = 64 + 64 * count) as -> by lia. rewrite positions_app, fmap_app. f_equal.
  - rewrite (positions_shift _ (64 * k)), <- list_fmap_compose.
    unfold kHigherOrderShift. rewrite Nat.shiftl_mul_pow2. change (2 ^ 6) with 64.
    rewrite (Nat.mul_comm k). rewrite (positions_ext (wbit 64 value)
      (λ r, lbit (bits bv) (64 * k + r) && negb (lbit (bits other) (64 * k + r)))); [done|].
    intros r Hr. unfold value. rewrite wbit_land, wbit_unot by lia.
    rewrite <- !regular_bits by done.
    replace ((64 * k + r) / 64) with k by lia. by replace ((64 * k + r) mod 64) with r by lia.
  - f_equal. f_equal. lia.
Qed.

Lemma to_int_small (n : nat) : (n < 2 ^ 31)%Z → to_int n = n.
Proof.
  intros Hn. unfold to_int. assert (uint 32 n = n) as ->.
  { apply uint_id. unfold word_ok. change (2 ^ 32%nat)%Z with (2 ^ 32)%Z. lia. }
  by rewrite (proj2 (Z.ltb_lt _ _)).
Qed.

Lemma subtractTo_spec bv other output :
  short_version_ bv = false → short_version_ other = false → bv_wf bv → bv_wf other →
  num_bits_ other = num_bits_ bv → (num_bits_ bv ≤ 2 ^ 31)%Z →
  subtractTo bv other output =
    Ok (output ++ (Z.of_nat <$>
      positions (λ i, lbit (bits bv) i && negb (lbit (bits other) i)) 0 (num_bits_ bv))).
Proof.
  intros Hs Hs' Hwf Hwf' Hn Hsmall. unfold subtractTo.
  rewrite subtract_loop_spec by (done || unfold data_array_size_; rewrite ?Hn; lia).
  assert (num_bits_ bv ≤ 64 * data_array_size_ bv) as Hle.
  { unfold data_array_size_. rewrite data_array_size_spec. lia. }
  rewrite Nat.mul_0_r.
  replace (64 * data_array_size_ bv) with
    (num_bits_ bv + (64 * data_array_size_ bv - num_bits_ bv)) by lia.
  rewrite positions_app, (positions_none _ (0 + num_bits_ bv)), app_nil_r.
  - do 2 f_equal. apply list_fmap_ext. intros i x Hx. apply to_int_small.
    apply list_elem_of_lookup_2 in Hx. unfold positions in Hx.
    apply list_elem_of_filter in Hx as [_ Hx%elem_of_seq]. lia.
  - intros i Hi. rewrite lbit_ge; [done|]. rewrite length_bits. lia.
Qed.
