(* ===== verification/BitVectorShift.v ===== *)
(** * Shifts of the tail of a bit vector

    shiftTailForward and shiftTailBackward of utility/BitVector.hpp, which work
    on whole words, implement the removal and the insertion of positions in the
    list of bits. *)

From stdpp Require Import options.
From Stdlib Require Import ZifyNat.
From S2P Require Import Prelude BitManipulation BitVector BitVectorBits BitVectorOps.

Ltac Zify.zify_post_hook ::= Z.to_euclidean_division_equations.

(** Names the word and the bit of a position, so that what remains is linear. *)
Ltac split_pos x :=
  let H1 := fresh "Hdiv" in let H2 := fresh "Hmod" in
  let q := fresh "q" in let r := fresh "r" in
  pose proof (Nat.div_mod_eq x 64) as H1; pose proof (Nat.mod_upper_bound x 64 ltac:(lia)) as H2;
  generalize dependent (x / 64); intros q; intros;
  generalize dependent (x mod 64); intros r; intros.

(** ** The list operations *)

(** Drops [d] positions from [ts] on; zeroes fill the end. *)
Definition tail_forward (ts d : nat) (l : list bool) : list bool :=
  take ts l ++ drop (ts + d) l ++ replicate (Nat.min d (length l - ts)) false.

(** Inserts [d] zeroes at [ts]; what is pushed past the end is lost. *)
Definition tail_backward (ts d : nat) (l : list bool) : list bool :=
  take ts l ++ take (length l - ts) (replicate d false ++ drop ts l).

Lemma length_tail_forward ts d l : ts ≤ length l → length (tail_forward ts d l) = length l.
Proof.
  intros. unfold tail_forward.
  rewrite !length_app, length_take, length_drop, length_replicate. lia.
Qed.

Lemma lbit_tail_forward ts d l i :
  ts ≤ length l →
  lbit (tail_forward ts d l) i = if decide (i < ts) then lbit l i else lbit l (i + d).
Proof.
  intros Hts. unfold tail_forward. rewrite !lbit_app, length_take, length_drop.
  rewrite lbit_take, lbit_drop, lbit_replicate, andb_false_r. repeat case_decide; try lia.
  - by rewrite bool_decide_eq_true_2 by lia.
  - f_equal. lia.
  - symmetry. apply lbit_ge. lia.
Qed.

Lemma length_tail_backward ts d l : ts ≤ length l → length (tail_backward ts d l) = length l.
Proof.
  intros. unfold tail_backward.
  rewrite !length_app, !length_take, length_app, length_drop, length_replicate. lia.
Qed.

Lemma lbit_tail_backward ts d l i :
  ts ≤ length l →
  lbit (tail_backward ts d l) i =
    if decide (i < ts) then lbit l i
    else bool_decide (ts + d ≤ i < length l) && lbit l (i - d).
Proof.
  intros Hts. unfold tail_backward. rewrite !lbit_app, !lbit_take, length_take, !lbit_app.
  rewrite lbit_replicate, lbit_drop, length_replicate, andb_false_r.
  replace (Nat.min ts (length l)) with ts by lia.
  destruct (decide (i < ts)); [by rewrite bool_decide_eq_true_2 by lia|].
  case_decide.
  - rewrite andb_false_r. by rewrite bool_decide_eq_false_2 by lia.
  - f_equal; [apply bool_decide_ext; lia|f_equal; lia].
Qed.

(** ** Short vectors *)

Lemma shiftTailForward_short bv ts d :
  short_version_ bv = true → bv_wf bv → ts < num_bits_ bv → ts + d < 32 →
  implements (shiftTailForward ts d bv) bv (tail_forward ts d (bits bv)).
Proof.
  intros Hs Hwf Hts Hd. unfold shiftTailForward. rewrite Hs.
  unfold shiftTailForwardShortVersion, shift_defined. short_word Hs Hwf.
  rewrite (proj2 (Nat.ltb_lt _ _)) by (unfold promoted; lia). cbn [mbind outcome_bind].
  apply implements_short; [done|done|lia|by rewrite length_tail_forward; rewrite length_bits; lia
    |apply uint_ok|].
  intros i Hi. rewrite wbit_uint, wbit_lor, wbit_land, wbit_MaskBitRange by done.
  rewrite <- (wbit_uint _ (ushl _ _ _)), uint_ushl_promoted, wbit_ushl by done.
  rewrite lbit_tail_forward, Hbits by (rewrite ?length_bits; lia).
  destruct (decide (i + d < short_width (num_bits_ bv))) as [Hlt|Hge].
  - rewrite wbit_land, wbit_MaskBitRange, Hbits by done. rewrite (bool_decide_eq_true_2 (_ < short_width _)) by done.
    case_decide; repeat case_bool_decide; try lia; cbn [andb];
      by rewrite ?andb_true_r, ?andb_false_r, ?orb_false_r.
  - rewrite (bool_decide_eq_false_2 (_ < short_width _)) by done. rewrite orb_false_r.
    case_decide; case_bool_decide; try lia; [by rewrite andb_true_r|].
    rewrite andb_false_r, lbit_ge; [done|]. rewrite length_bits. lia.
Qed.

(** The short version does not clear the bits it pushes past the end: the bits
    are right, but the vector is well-formed only when no set bit is pushed into
    the unused end of the word. *)
Definition spills (bv : BitVector) (ts d : nat) : Prop :=
  ∃ j, ts ≤ j < num_bits_ bv ∧ num_bits_ bv ≤ j + d < short_width (num_bits_ bv) ∧
    lbit (bits bv) j = true.

Lemma shiftTailBackward_short bv ts d :
  short_version_ bv = true → bv_wf bv → ts < num_bits_ bv → d < 32 →
  ∃ bv', shiftTailBackward ts d bv = Ok bv' ∧ num_bits_ bv' = num_bits_ bv ∧
    bits bv' = tail_backward ts d (bits bv) ∧ (bv_wf bv' ↔ ¬ spills bv ts d).
Proof.
  intros Hs Hwf Hts Hd. unfold shiftTailBackward. rewrite Hs.
  unfold shiftTailBackwardShortVersion, shift_defined.
  destruct (short_bits bv Hs Hwf) as (x & Hx & Hload & Hok & Hw & Hbits); [lia|].
  rewrite Hload. cbn [mbind outcome_bind].
  rewrite (proj2 (Nat.ltb_lt _ _)) by (unfold promoted; lia). cbn [mbind outcome_bind].
  unfold store. rewrite Hx. cbn [vec_set]. set (y := Z.lor _ _). set (w := short_width _) in *.
  assert (∀ i, i < w → wbit w y i = if decide (i < ts) then lbit (bits bv) i
    else bool_decide (ts + d ≤ i) && lbit (bits bv) (i - d)) as Hy.
  { intros i Hi. unfold y. rewrite wbit_lor, wbit_land, wbit_MaskBitRange, Hbits by done.
    rewrite wbit_ushr by (done || auto with words).
    case_decide.
    - rewrite bool_decide_eq_true_2 by lia.
      destruct (decide (d ≤ i)); [|by rewrite (bool_decide_eq_false_2 (d ≤ i)), andb_true_r, orb_false_r].
      rewrite wbit_land, wbit_MaskBitRange, (bool_decide_eq_false_2 (ts ≤ _ < _)) by lia.
      by rewrite andb_true_r, !andb_false_r, orb_false_r.
    - rewrite (bool_decide_eq_false_2 (0 ≤ i < _)) by lia. rewrite andb_false_r. cbn [orb].
      destruct (decide (d ≤ i)); [|by rewrite !bool_decide_eq_false_2 by lia].
      rewrite wbit_land, wbit_MaskBitRange, Hbits by lia.
      rewrite bool_decide_eq_true_2 by done. cbn [andb]. rewrite andb_comm. f_equal.
      apply bool_decide_ext. lia. }
  assert (∀ i, i < w → vbit w [y] i = wbit w y i) as Hbit.
  { intros i Hi. unfold vbit. by rewrite Nat.div_small, Nat.mod_small by done. }
  assert (width bv = w) as Hwidth by (unfold width; by rewrite Hs).
  eexists; split; [done|]. split_and!; [done|..].
  - apply bits_eq; [cbn; rewrite length_tail_backward; rewrite length_bits; lia|].
    intros i Hi. cbn in Hi. rewrite width_set_data, Hwidth. cbn [data_array_ set_data].
    rewrite (lbit_lookup (tail_backward ts d (bits bv)) i)
      by (rewrite length_tail_backward; rewrite length_bits; lia).
    rewrite Hbit, Hy, lbit_tail_backward, length_bits by (rewrite ?length_bits; lia).
    case_decide; [done|]. do 2 f_equal. apply bool_decide_ext. lia.
  - split.
    + intros Hwf' (j & Hj & Hjd & Hb). assert (wbit w y (j + d) = false) as Hpad.
      { rewrite <- Hbit, <- Hwidth, <- (width_set_data bv [y]) by lia. apply Hwf'. cbn. lia. }
      rewrite Hy, decide_False, bool_decide_eq_true_2, Nat.add_sub in Hpad by lia.
      cbn in Hpad. congruence.
    + intros Hno. destruct (store_spec bv x y Hs Hwf Hx) as (bv' & _ & Hwf' & -> & _); [..|done].
      * unfold y. auto with words.
      * intros i Hi. fold w in Hi |- *. rewrite Hy, decide_False by lia.
        case_bool_decide as Hge; [|done]. cbn. destruct (lbit (bits bv) (i - d)) eqn:E; [|done].
        destruct Hno. exists (i - d). split_and!; try lia; [|done].
        destruct (decide (i - d < num_bits_ bv)); [done|].
        by rewrite lbit_ge in E by (rewrite length_bits; lia).
Qed.

(** ** Regular vectors: words from pairs of words *)

Lemma wbit_pair_left s x y r :
  0 < s < 64 → word_ok 64 y → r < 64 →
  wbit 64 (Z.lor (ushl 64 x s) (ushr y (64 - s))) r =
    if decide (r + s < 64) then wbit 64 x (r + s) else wbit 64 y (r + s - 64).
Proof.
  intros Hs Hy Hr. rewrite wbit_lor, wbit_ushl, wbit_ushr by done. case_decide.
  - rewrite bool_decide_eq_true_2, bool_decide_eq_false_2 by lia. cbn. by rewrite orb_false_r.
  - rewrite bool_decide_eq_false_2, bool_decide_eq_true_2 by lia. cbn [andb orb]. f_equal. lia.
Qed.

Lemma wbit_pair_right s x y r :
  0 < s < 64 → word_ok 64 x → r < 64 →
  wbit 64 (Z.lor (ushr x s) (ushl 64 y (64 - s))) r =
    if decide (r < s) then wbit 64 y (r + 64 - s) else wbit 64 x (r - s).
Proof.
  intros Hs Hx Hr. rewrite wbit_lor, wbit_ushl, wbit_ushr by done. case_decide.
  - rewrite bool_decide_eq_false_2, bool_decide_eq_true_2 by lia. cbn [andb orb]. f_equal. lia.
  - rewrite bool_decide_eq_true_2, bool_decide_eq_false_2 by lia. cbn. by rewrite orb_false_r.
Qed.

(** Bit [j] of an array, from its word and its place there. *)
Lemma vbit_at data k r j : j = 64 * k + r → r < 64 → wbit 64 (word_at data k) r = vbit 64 data j.
Proof. intros -> Hr. unfold vbit. f_equal; [f_equal|]; lia. Qed.

Lemma vbit_ge data i : 64 * length data ≤ i → vbit 64 data i = false.
Proof. intros. unfold vbit, word_at. rewrite lookup_ge_None_2 by lia. apply wbit_0. Qed.

Lemma word_at_insert data k y j :
  k < length data → word_at (<[k := y]> data) j = if decide (j = k) then y else word_at data j.
Proof.
  intros. unfold word_at. rewrite list_lookup_insert. repeat case_decide; done || lia.
Qed.

Lemma word_at_imap (g : nat → Z → Z) data j :
  j < length data → word_at (imap g data) j = g j (word_at data j).
Proof.
  intros Hj. unfold word_at at 1. rewrite list_lookup_imap.
  by rewrite (word_at_lookup data j Hj).
Qed.

(** The loop reads words that it has not written yet. *)
Lemma forward_loop_spec de se count s data :
  de ≤ se → se + count < length data →
  forward_loop de se count s data =
    Ok (imap (λ k x, if decide (de ≤ k < de + count)
                     then Z.lor (ushl 64 (word_at data (k - de + se)) s)
                            (ushr (word_at data (k - de + se + 1)) (64 - s))
                     else x) data).
Proof.
  revert de se data. induction count as [|count IH]; intros de se data Hle Hlen;
    cbn [forward_loop].
  { f_equal. apply list_eq. intros k. rewrite list_lookup_imap.
    destruct (data !! k); [|done]. cbn [fmap option_fmap option_map].
    by rewrite decide_False by lia. }
  rewrite (vec_at_Some _ _ _ (word_at_lookup data se ltac:(lia))).
  rewrite (vec_at_Some _ _ _ (word_at_lookup data (se + 1) ltac:(lia))).
  cbn [mbind outcome_bind]. rewrite vec_set_lt by lia. cbn [mbind outcome_bind].
  rewrite IH by (rewrite ?length_insert; lia). f_equal. apply list_eq. intros k.
  rewrite !list_lookup_imap, list_lookup_insert. destruct (decide (de = k)) as [<-|Hne].
  - rewrite (word_at_lookup data de) by lia. rewrite decide_True by lia. cbn [fmap option_fmap option_map].
    rewrite decide_False, decide_True by lia. unfold kSizeTBits.
    by replace (de - de + se) with se by lia.
  - rewrite decide_False by lia. destruct (data !! k); [|done]. cbn [fmap option_fmap option_map].
    f_equal. destruct (decide (de + 1 ≤ k < de + 1 + count)).
    + rewrite !word_at_insert, !decide_False by lia. rewrite decide_True by lia.
      f_equal; do 2 f_equal; lia.
    + by rewrite decide_False by lia.
Qed.

(** ** Arrays given by their words *)

Definition words (data : list Z) (n : nat) (W : nat → Z) : Prop :=
  length data = n ∧ ∀ k, k < n → word_at data k = W k.

Lemma words_self data : words data (length data) (word_at data).
Proof. done. Qed.

Lemma words_ext data n W W' :
  words data n W → (∀ k, k < n → W k = W' k) → words data n W'.
Proof. intros [Hl Hw] HW. split; [done|]. intros k Hk. by rewrite Hw, HW. Qed.

Lemma words_vec_set data n W k y :
  words data n W → k < n →
  ∃ data', vec_set data k y = Ok data' ∧ words data' n (λ j, if decide (j = k) then y else W j).
Proof.
  intros [Hl Hw] Hk. rewrite vec_set_lt by lia. eexists; split; [done|].
  split; [by rewrite length_insert|]. intros j Hj. rewrite word_at_insert by lia.
  case_decide; [done|by apply Hw].
Qed.

Lemma words_vec_at data n W k : words data n W → k < n → vec_at data k = Ok (W k).
Proof.
  intros [Hl Hw] Hk. rewrite (vec_at_Some _ _ _ (word_at_lookup data k ltac:(lia))).
  by rewrite Hw.
Qed.

Lemma words_update data n W k f :
  words data n W → k < n →
  ∃ data', update k f data = Ok data' ∧ words data' n (λ j, if decide (j = k) then f (W k) else W j).
Proof.
  intros Hw Hk. unfold update. rewrite (words_vec_at _ _ _ _ Hw Hk). cbn [mbind outcome_bind].
  by apply words_vec_set.
Qed.

Lemma words_memset data n W from count x :
  words data n W → from + count ≤ n →
  ∃ data', memset from count x data = Ok data' ∧
    words data' n (λ j, if decide (from ≤ j < from + count) then x else W j).
Proof.
  intros [Hl Hw] Hle. rewrite memset_spec by lia. eexists; split; [done|].
  split; [by rewrite length_imap|]. intros j Hj. rewrite word_at_imap by lia.
  case_bool_decide; case_decide; try lia || done. by apply Hw.
Qed.

Lemma words_memmove data n W dest src count :
  words data n W → dest + count ≤ n → src + count ≤ n →
  ∃ data', memmove dest src count data = Ok data' ∧
    words data' n (λ j, if decide (dest ≤ j < dest + count) then W (j - dest + src) else W j).
Proof.
  intros [Hl Hw] Hd Hs. unfold memmove. rewrite !(proj2 (Nat.leb_le _ _)) by lia. cbn [andb].
  eexists; split; [done|].
  split; [rewrite !length_app, !length_take, !length_drop; lia|]. intros k Hk.
  assert (∀ j, j < n → data !! j = Some (W j)) as Hlk.
  { intros j Hj. rewrite word_at_lookup by lia. by rewrite Hw. }
  unfold word_at. rewrite !lookup_app, length_take. destruct (decide (k < dest)).
  - rewrite lookup_take_lt, Hlk, decide_False by lia. done.
  - rewrite lookup_take_ge by lia. cbn [default]. rewrite length_take, length_drop. case_decide.
    + rewrite lookup_take_lt, lookup_drop by lia. rewrite Hlk by lia. cbn. f_equal. lia.
    + rewrite lookup_take_ge by lia. rewrite lookup_drop, Hlk by lia. cbn. f_equal. lia.
Qed.

(** From a word on, the words of the array are those from [64 * se + s] on. *)
Lemma forward_rest_spec de se s data :
  Forall (word_ok 64) data → de ≤ se ≤ length data → s < 64 → (s = 0 ∨ se < length data) →
  (0 < de ∨ se < length data) →
  ∃ data', forward_rest (length data) de se s data = Ok data' ∧
    length data' = length data ∧ Forall (word_ok 64) data' ∧
    ∀ i, i < 64 * length data →
      vbit 64 data' i = if decide (i < 64 * de) then vbit 64 data i
                        else vbit 64 data (64 * se + s + (i - 64 * de)).
Proof.
  intros Hok Hle Hs Hse Hde. unfold forward_rest. set (size := length data) in *.
  destruct (Nat.eqb_spec s 0) as [Hz|Hz]; cbn [negb].
  - destruct (words_memmove data size (word_at data) de se (size - se))
      as (data1 & -> & Hl1 & Hw); [apply words_self|lia|lia|]. cbn [mbind outcome_bind].
    rewrite memset_spec by lia. eexists; split; [done|].
    split_and!; [by rewrite length_imap| |].
    + apply Forall_imap_ok. intros k Hk. rewrite Hw by lia.
      repeat case_match; auto using word_at_ok with words.
    + intros i Hi. rewrite vbit_imap, Hw by lia. case_bool_decide.
      * rewrite wbit_0, decide_False by lia. symmetry. apply vbit_ge. lia.
      * repeat case_decide; lia || (apply vbit_at; lia).
  - rewrite forward_loop_spec by lia. cbn [mbind outcome_bind]. remember (size - 1 - se) as count eqn:Hcount.
    set (data1 := imap _ _). assert (length data1 = size) as Hl1 by apply length_imap.
    assert (∀ k, k < size → word_at data1 k = if decide (de ≤ k < de + count)
      then Z.lor (ushl 64 (word_at data (k - de + se)) s)
             (ushr (word_at data (k - de + se + 1)) (64 - s)) else word_at data k) as Hw.
    { intros k Hk. unfold data1. by rewrite word_at_imap. }
    assert (∀ k, word_ok 64 (word_at data1 k)) as Hok1.
    { intros k. apply word_at_ok, Forall_imap_ok. intros j Hj.
      case_match; auto using word_at_ok with words. }
    rewrite (vec_at_Some _ _ _ (word_at_lookup data1 (se + count) ltac:(lia))).
    cbn [mbind outcome_bind]. rewrite vec_set_lt by lia. cbn [mbind outcome_bind].
    rewrite memset_spec by (rewrite length_insert; lia). eexists; split; [done|].
    split_and!; [by rewrite length_imap, length_insert| |].
    + apply Forall_imap_ok. intros k Hk. rewrite length_insert in Hk.
      rewrite word_at_insert by lia. repeat case_match; auto with words.
    + intros i Hi. rewrite vbit_imap by (rewrite length_insert; lia).
      rewrite word_at_insert by lia. case_bool_decide.
      { rewrite wbit_0, decide_False by lia. symmetry. apply vbit_ge. lia. }
      case_decide.
      * rewrite wbit_ushl by lia. rewrite Hw, decide_False by lia. rewrite decide_False by lia.
        case_bool_decide; cbn [andb]; [apply vbit_at; lia|]. symmetry. apply vbit_ge. lia.
      * rewrite Hw by lia. case_decide.
        -- rewrite wbit_pair_left by (lia || by apply word_at_ok).
           repeat case_decide; lia || (apply vbit_at; lia).
        -- rewrite decide_True by lia. apply vbit_at; lia.
Qed.

(** ** Regular vectors: the forward shift *)

Section forward.
Context (bv : BitVector) (ts d : nat).
Context (Hs : short_version_ bv = false) (Hwf : bv_wf bv).
Context (Hts : ts < num_bits_ bv) (Hd : d ≠ 0).

Local Abbreviation data := (data_array_ bv).
Local Abbreviation size := (length (data_array_ bv)).

Definition shifted_forward (i : nat) : bool :=
  if decide (i < ts) then vbit 64 data i else vbit 64 data (i + d).

(** The array has been shifted up to word [de] and is as it was from there on. *)
Record forward_upto (de : nat) (data' : list Z) : Prop := {
  fu_length : length data' = size;
  fu_ok : Forall (word_ok 64) data';
  fu_done i : i < 64 * de → i < 64 * size → vbit 64 data' i = shifted_forward i;
  fu_rest i : 64 * de ≤ i → i < 64 * size → vbit 64 data' i = vbit 64 data i;
}.

Lemma forward_done data' :
  forward_upto size data' →
  implements (Ok (set_data bv data')) bv (tail_forward ts d (bits bv)).
Proof using Hs Hwf Hts Hd.
  intros [Hlen Hok Hdone _]. destruct (regular_facts bv Hs Hwf) as (_ & Hsize & _).
  apply implements_regular; [done|done|by rewrite length_tail_forward; rewrite length_bits; lia|done..|].
  intros i Hi. rewrite <- Hsize in Hi.
  rewrite Hdone, lbit_tail_forward by (rewrite ?length_bits; lia).
  unfold shifted_forward, vbit. by rewrite !regular_bits.
Qed.

Lemma forward_rest_upto de se s data1 :
  forward_upto de data1 → ts ≤ 64 * de → 64 * se + s = 64 * de + d →
  de ≤ se ≤ size → s < 64 → (s = 0 ∨ se < size) → (0 < de ∨ se < size) →
  ∃ data', forward_rest size de se s data1 = Ok data' ∧ forward_upto size data'.
Proof using Hs Hwf Hts Hd.
  intros [Hlen Hok Hdone Hrest] Htsd Hsrc Hle Hlt H1 H2. rewrite <- Hlen in Hle, H1, H2.
  destruct (forward_rest_spec de se s data1 Hok Hle Hlt H1 H2) as (data' & Hf & Hlen' & Hok' & Hb).
  rewrite Hlen in Hf. exists data'. split; [done|].
  split; [lia|done| |intros; lia]. intros i Hi _. rewrite Hb by lia. case_decide; [by apply Hdone|].
  unfold shifted_forward. rewrite decide_False by lia.
  replace (64 * se + s + (i - 64 * de)) with (i + d) by lia.
  destruct (decide (i + d < 64 * size)); [apply Hrest; lia|].
  by rewrite !vbit_ge by lia.
Qed.

Lemma forward_zero_upto de data1 :
  forward_upto de data1 → ts ≤ 64 * de → de ≤ size → 64 * size ≤ 64 * de + d →
  ∃ data', memset de (size - de) 0%Z data1 = Ok data' ∧ forward_upto size data'.
Proof using Hs Hwf Hts Hd.
  intros [Hlen Hok Hdone Hrest] Htsd Hde Hpast. rewrite memset_spec by lia.
  eexists; split; [done|]. split; [by rewrite length_imap| | |intros; lia].
  - apply Forall_imap_ok. intros. case_match; auto using word_at_ok with words.
  - intros i Hi _. rewrite vbit_imap by lia. case_bool_decide.
    + rewrite wbit_0. unfold shifted_forward. rewrite decide_False by lia.
      symmetry. apply vbit_ge. lia.
    + apply Hdone; lia.
Qed.

(** Only the word the tail starts in has been written. *)
Lemma forward_first_upto y :
  word_ok 64 y → (∀ r, r < 64 → wbit 64 y r = shifted_forward (64 * (ts / 64) + r)) →
  forward_upto (ts / 64 + 1) (<[ts / 64 := y]> data).
Proof using Hs Hwf Hts Hd.
  intros Hy Hb. destruct (regular_facts bv Hs Hwf) as (_ & _ & Hok).
  pose proof (regular_lt bv ts Hs Hwf Hts) as Hk.
  split; [apply length_insert|by apply Forall_insert|..].
  - intros i Hi Hi'. rewrite vbit_insert by done. case_decide as Hik.
    + rewrite Hb by lia. f_equal. lia.
    + unfold shifted_forward. rewrite decide_True by lia. done.
  - intros i Hi Hi'. rewrite vbit_insert, decide_False by lia. done.
Qed.

Lemma forward_none_upto : forward_upto 0 data.
Proof using Hs Hwf Hts Hd.
  destruct (regular_facts bv Hs Hwf) as (_ & _ & Hok).
  split; [done|done|intros; lia|done].
Qed.

Lemma forward_aligned_upto : ts mod 64 = 0 → forward_upto (ts / 64) data.
Proof using Hs Hwf Hts Hd.
  intros Hz. destruct (regular_facts bv Hs Hwf) as (_ & _ & Hok).
  split; [done|done| |done]. intros i Hi _. unfold shifted_forward.
  by rewrite decide_True by lia.
Qed.

Lemma shiftTailForward_regular :
  implements (shiftTailForwardRegularVersion ts d bv) bv (tail_forward ts d (bits bv)).
Proof using Hs Hwf Hts Hd.
  destruct (regular_facts bv Hs Hwf) as (_ & Hsize & Hok).
  pose proof (regular_lt bv ts Hs Hwf Hts) as Hk.
  unfold shiftTailForwardRegularVersion. rewrite <- Hsize, !hi_div, !lo_mod.
  rewrite (proj2 (Nat.eqb_neq d 0)) by done. unfold kSizeTBits.
  assert (∀ r, (∃ data', r = Ok data' ∧ forward_upto size data') →
    implements (x ← r; Ok (set_data bv x)) bv (tail_forward ts d (bits bv))) as Hdone.
  { intros r (data' & -> & Hu). by apply forward_done. }
  apply Hdone. clear Hdone.
  assert (∀ j, word_ok 64 (word_at data j)) as Hw by (intros; by apply word_at_ok).
  destruct (Nat.leb_spec size ((ts + d) / 64)) as [Hpast|Hin];
    destruct (Nat.eqb_spec (ts mod 64) 0) as [Hz|Hz]; cbn [negb].
  - apply forward_zero_upto; [by apply forward_aligned_upto|lia..].
  - rewrite (update_spec _ _ _ _ (word_at_lookup _ _ Hk)). cbn [mbind outcome_bind].
    apply forward_zero_upto; [|lia..]. apply forward_first_upto; [auto with words|].
    intros r Hr. rewrite wbit_land, wbit_MaskBitRange by done. unfold shifted_forward.
    case_bool_decide; case_decide; try lia; cbn [andb]; rewrite ?andb_true_r, ?andb_false_r.
    + by apply vbit_at.
    + symmetry. apply vbit_ge. lia.
  - apply forward_rest_upto; [by apply forward_aligned_upto|lia..].
  - rewrite (vec_at_Some _ _ _ (word_at_lookup data ((ts + d) / 64) Hin)). cbn [mbind outcome_bind].
    rewrite (update_spec _ _ _ _ (word_at_lookup _ _ Hk)). cbn [mbind outcome_bind].
    set (y := Z.lor _ _). assert (word_ok 64 y) as Hy by (unfold y; auto with words).
    assert (∀ r, r < 64 → wbit 64 y r = if decide (r < ts mod 64) then vbit 64 data (64 * (ts / 64) + r)
      else bool_decide (r - ts mod 64 + (ts + d) mod 64 < 64)
           && vbit 64 data (64 * ((ts + d) / 64) + (r - ts mod 64 + (ts + d) mod 64))) as Hby.
    { intros r Hr. unfold y. rewrite wbit_lor, wbit_land, wbit_MaskBitRange by done.
      rewrite wbit_ushr by (done || auto with words). case_decide.
      - rewrite bool_decide_eq_true_2, (bool_decide_eq_false_2 (ts mod 64 ≤ r)) by lia.
        rewrite andb_true_r, orb_false_r. by apply vbit_at.
      - rewrite (bool_decide_eq_false_2 (0 ≤ r < _)), andb_false_r by lia.
        rewrite bool_decide_eq_true_2 by lia. cbn [orb andb]. rewrite wbit_ushl by lia.
        case_bool_decide; [|done]. cbn [andb]. apply vbit_at; lia. }
    destruct (Nat.ltb_spec (ts mod 64) ((ts + d) mod 64)) as [Hlt|Hge].
    + destruct (Nat.eqb_spec ((ts + d) / 64 + 1) size) as [Hend|Hend].
      * apply forward_zero_upto; [|lia..]. apply forward_first_upto; [done|].
        intros r Hr. rewrite Hby by done. unfold shifted_forward.
        destruct (decide (r < ts mod 64)); [by rewrite decide_True by lia|].
        rewrite decide_False by lia. case_bool_decide; cbn [andb]; [f_equal; lia|].
        symmetry. apply vbit_ge. lia.
      * rewrite (vec_at_Some _ _ (word_at data ((ts + d) / 64 + 1)))
          by (rewrite list_lookup_insert_ne by lia; apply word_at_lookup; lia).
        cbn [mbind outcome_bind].
        rewrite (update_spec _ _ _ _ (list_lookup_insert_eq _ _ _ Hk)). cbn [mbind outcome_bind].
        rewrite list_insert_insert_eq. apply forward_rest_upto; [|lia..].
        apply forward_first_upto; [auto with words|]. intros r Hr.
        rewrite wbit_lor, Hby, wbit_ushr by (done || lia). unfold shifted_forward.
        destruct (decide (r < ts mod 64)).
        -- by rewrite bool_decide_eq_false_2, orb_false_r, decide_True by lia.
        -- rewrite decide_False by lia. case_bool_decide; cbn [andb].
           ++ rewrite bool_decide_eq_false_2, orb_false_r by lia. f_equal. lia.
           ++ rewrite bool_decide_eq_true_2 by lia. cbn [orb andb]. apply vbit_at; lia.
    + assert ((ts + d) / 64 ≠ ts / 64) as Hne by lia.
      apply forward_rest_upto; [|lia..]. apply forward_first_upto; [done|].
      intros r Hr. rewrite Hby by done. unfold shifted_forward.
      destruct (decide (r < ts mod 64)); [by rewrite decide_True by lia|].
      rewrite decide_False, bool_decide_eq_true_2 by lia. cbn [andb]. f_equal. lia.
Qed.
End forward.

(** ** Regular vectors: the backward shift *)

Lemma backward_loop_spec count last se s data :
  last + count < length data → se ≤ last →
  ∃ data', backward_loop count last se s data = Ok data' ∧
    words data' (length data) (λ k, if decide (last < k ≤ last + count)
      then Z.lor (ushr (word_at data (k - se)) s) (ushl 64 (word_at data (k - se - 1)) (64 - s))
      else word_at data k).
Proof.
  revert data. induction count as [|count IH]; intros data Hlen Hse; cbn [backward_loop].
  { eexists; split; [done|]. split; [done|]. intros k Hk. by rewrite decide_False by lia. }
  rewrite (vec_at_Some _ _ _ (word_at_lookup data (last + S count - se) ltac:(lia))).
  rewrite (vec_at_Some _ _ _ (word_at_lookup data (last + S count - se - 1) ltac:(lia))).
  cbn [mbind outcome_bind]. rewrite vec_set_lt by lia. cbn [mbind outcome_bind].
  unfold kSizeTBits. set (y := Z.lor _ _).
  destruct (IH (<[last + S count := y]> data)) as (data' & -> & Hl & Hw);
    [rewrite length_insert; lia|done|]. rewrite length_insert in Hl, Hw.
  exists data'. split; [done|]. split; [done|]. intros k Hk. rewrite Hw by done.
  destruct (decide (last < k ≤ last + count)).
  - rewrite !word_at_insert, !decide_False, decide_True by lia. done.
  - rewrite word_at_insert by lia. case_decide as Hk'.
    + subst k. rewrite decide_True by lia. done.
    + by rewrite decide_False by lia.
Qed.

Lemma wbit_drop_tail s x r :
  r < 64 → wbit 64 (drop_tail s x) r = bool_decide (r < s) && wbit 64 x r.
Proof.
  intros Hr. unfold drop_tail, kSizeTBits. rewrite wbit_land, wbit_unot, wbit_MaskBitRange by done.
  rewrite andb_comm. f_equal. case_bool_decide; case_bool_decide; cbn; done || lia.
Qed.

Section backward.
Context (bv : BitVector) (ts d : nat).
Context (Hs : short_version_ bv = false) (Hwf : bv_wf bv).
Context (Hts : ts < num_bits_ bv) (Hd : d ≠ 0).

Local Abbreviation data := (data_array_ bv).
Local Abbreviation size := (length (data_array_ bv)).
Local Abbreviation n := (num_bits_ bv).

(** The case the code gets wrong: the tail starts at a word and moves by more
    than a word, but not by whole words. *)
Definition word_left_behind : Prop := ts mod 64 = 0 ∧ 64 < d ∧ d mod 64 ≠ 0 ∧ ts + d ≤ n.

#[global] Instance word_left_behind_dec : Decision word_left_behind.
Proof. unfold word_left_behind. solve_decision. Defined.

(** What the shift leaves at position [i] before the end is masked. *)
Definition shifted_backward (i : nat) : bool :=
  if decide (i < ts) then vbit 64 data i
  else if decide (i < ts + d) then
    (if decide (word_left_behind ∧ i < ts + 64) then vbit 64 data i else false)
  else vbit 64 data (i - d).

Definition tail_backward_actual : list bool :=
  imap (λ i b, if decide (word_left_behind ∧ ts ≤ i < ts + 64)
               then lbit (bits bv) i else b) (tail_backward ts d (bits bv)).

Lemma lbit_tail_backward_actual i :
  lbit tail_backward_actual i = bool_decide (i < n) && shifted_backward i.
Proof using Hs Hwf Hts Hd.
  assert (∀ j, vbit 64 data j = lbit (bits bv) j) as Hb by (intros; by apply regular_bits).
  unfold tail_backward_actual, shifted_backward. rewrite lbit_imap, !Hb.
  rewrite length_tail_backward by (rewrite length_bits; lia). rewrite length_bits.
  case_bool_decide; [|done]. cbn [andb].
  rewrite lbit_tail_backward by (rewrite length_bits; lia). rewrite length_bits.
  destruct (decide (i < ts)); [rewrite decide_False by lia; done|].
  destruct (decide (i < ts + d)).
  - rewrite bool_decide_eq_false_2 by lia. cbn [andb].
    destruct (decide (word_left_behind ∧ i < ts + 64)) as [[]|Hno].
    + rewrite decide_True by (split; [done|lia]). done.
    + rewrite decide_False; [done|]. intros [? ?]. apply Hno. split; [done|lia].
  - rewrite bool_decide_eq_true_2 by lia. rewrite decide_False; [done|].
    intros [(_ & ? & _) ?]. lia.
Qed.

(** The words of the array, with the bits after the last one still to be
    cleared. *)
Definition backward_words (W : nat → Z) : Prop :=
  (∀ k, word_ok 64 (W k)) ∧
  ∀ i, i < 64 * size → wbit 64 (W (i / 64)) (i mod 64) = shifted_backward i.

Lemma backward_mask W data1 :
  words data1 size W → backward_words W →
  ∃ data', (if negb (n mod 64 =? 0)
            then update (size - 1) (λ x, Z.land x (MaskBitRange 64 0 (n mod 64))) data1
            else Ok data1) = Ok data' ∧
    implements (Ok (set_data bv data')) bv tail_backward_actual.
Proof using Hs Hwf Hts Hd.
  intros Hw [Hok Hb]. destruct (regular_facts bv Hs Hwf) as (_ & Hsize & _).
  unfold data_array_size_ in Hsize. rewrite data_array_size_spec in Hsize.
  assert (∀ W' data', words data' size W' → (∀ k, word_ok 64 (W' k)) →
    (∀ i, i < 64 * size → wbit 64 (W' (i / 64)) (i mod 64) = bool_decide (i < n) && shifted_backward i) →
    implements (Ok (set_data bv data')) bv tail_backward_actual) as Hdone.
  { intros W' data' [Hl Hw'] Hok' Hb'. apply implements_regular; [done|done| |done| |].
    - unfold tail_backward_actual. rewrite length_imap, length_tail_backward; rewrite length_bits; lia.
    - apply Forall_lookup_2. intros k x Hx. pose proof (lookup_lt_Some _ _ _ Hx).
      rewrite word_at_lookup, Hw' in Hx by lia. injection Hx as <-. done.
    - intros i Hi. unfold data_array_size_ in Hi. rewrite data_array_size_spec in Hi.
      unfold vbit. rewrite Hw', Hb', lbit_tail_backward_actual by lia. done. }
  destruct (Nat.eqb_spec (n mod 64) 0) as [Hz|Hz]; cbn [negb].
  - eexists; split; [done|]. apply (Hdone W); [done|done|]. intros i Hi.
    rewrite Hb, bool_decide_eq_true_2 by lia. done.
  - destruct (words_update data1 size W (size - 1)
      (λ x, Z.land x (MaskBitRange 64 0 (n mod 64))) Hw) as (data' & -> & Hw'); [lia|].
    eexists; split; [done|]. eapply Hdone; [exact Hw'| |]; cbn beta.
    + intros k. case_decide; auto with words.
    + intros i Hi. case_decide as Hk.
      * rewrite wbit_land, wbit_MaskBitRange, <- Hk, Hb, andb_comm by lia. f_equal.
        apply bool_decide_ext. lia.
      * rewrite Hb, bool_decide_eq_true_2 by lia. done.
Qed.

Lemma backward_aligned_words :
  d mod 64 = 0 → ts + d ≤ n →
  ∃ data', backward_aligned size (ts / 64) (ts mod 64) (d / 64) data = Ok data' ∧
    ∃ W, words data' size W ∧ backward_words W.
Proof using Hs Hwf Hts Hd.
  intros Hz Hn. destruct (regular_facts bv Hs Hwf) as (_ & Hsize & Hok).
  unfold data_array_size_ in Hsize. rewrite data_array_size_spec in Hsize.
  assert (∀ j, word_ok 64 (word_at data j)) as Hw by (intros; by apply word_at_ok).
  unfold backward_aligned.
  destruct (words_memmove data size (word_at data) (ts / 64 + d / 64) (ts / 64)
    (size - ts / 64 - d / 64)) as (data1 & -> & Hw1); [apply words_self|lia|lia|].
  cbn [mbind outcome_bind].
  assert (¬ word_left_behind) as Hgood by (unfold word_left_behind; lia).
  destruct (Nat.eqb_spec (ts mod 64) 0) as [Hl|Hl]; cbn [negb].
  - destruct (words_memset _ _ _ (ts / 64) (d / 64) 0%Z Hw1) as (data2 & -> & Hw2); [lia|].
    eexists; split; [done|]. eexists; split; [exact Hw2|]. split; cbn beta.
    + intros k. repeat case_decide; auto with words.
    + intros i Hi. unfold shifted_backward. rewrite (decide_False (P := word_left_behind ∧ _)) by tauto.
      clear - Hz Hl Hi Hn Hts Hd. split_pos i. split_pos ts. split_pos d. subst.
      repeat case_decide; try lia; rewrite ?wbit_0; try done; apply vbit_at; lia.
  - destruct (words_update _ _ _ (ts / 64) (λ x, Z.land x (MaskBitRange 64 0 (ts mod 64))) Hw1)
      as (data2 & -> & Hw2); [lia|]. cbn [mbind outcome_bind].
    destruct (words_update _ _ _ (ts / 64 + d / 64)
      (λ x, Z.land x (MaskBitRange 64 (ts mod 64) kSizeTBits)) Hw2) as (data3 & -> & Hw3); [lia|].
    cbn [mbind outcome_bind]. unfold kSizeTBits in *.
    destruct (words_memset _ _ _ (ts / 64 + 1) (d / 64 - 1) 0%Z Hw3) as (data4 & -> & Hw4); [lia|].
    eexists; split; [done|]. eexists; split; [exact Hw4|]. split; cbn beta.
    + intros k. repeat case_decide; auto with words.
    + intros i Hi. unfold shifted_backward. rewrite (decide_False (P := word_left_behind ∧ _)) by tauto.
      clear - Hz Hl Hi Hn Hts Hd. split_pos i. split_pos ts. split_pos d. subst.
      repeat case_decide; try lia; rewrite ?wbit_0, ?wbit_land, ?wbit_MaskBitRange by lia; try done;
        repeat case_bool_decide; try lia; rewrite ?andb_true_r, ?andb_false_r; try done;
        apply vbit_at; lia.
Qed.

(** The words after the word the tail moves to. *)
Lemma backward_high_words T tl se sl :
  ts = 64 * T + tl → tl < 64 → d = 64 * se + sl → 0 < sl < 64 → ts + d ≤ n →
  let tail := ushr (ushl 64 (word_at data T) tl) tl in
  let last := T + se + 1 in
  ∃ data', (data1 ← backward_loop (size - 1 - last) last se sl data;
            if last <? size then
              x ← vec_at data1 (T + 1);
              vec_set data1 last (Z.lor (ushr x sl) (ushl 64 tail (64 - sl)))
            else Ok data1) = Ok data' ∧
    words data' size (λ k, if decide (last ≤ k)
      then Z.lor (ushr (word_at data (k - se)) sl)
             (ushl 64 (if decide (k = last) then tail else word_at data (k - se - 1)) (64 - sl))
      else word_at data k).
Proof using Hs Hwf Hts Hd.
  intros Ets Htl Ed Hsl Hn tail last. destruct (regular_facts bv Hs Hwf) as (_ & Hsize & Hok).
  unfold data_array_size_ in Hsize. rewrite data_array_size_spec in Hsize.
  destruct (Nat.ltb_spec last size) as [Hlt|Hge].
  - destruct (backward_loop_spec (size - 1 - last) last se sl data) as (data1 & -> & Hw1);
      [lia|unfold last; lia|]. cbn [mbind outcome_bind].
    rewrite (words_vec_at _ _ _ (T + 1) Hw1) by (unfold last in *; lia). cbn [mbind outcome_bind].
    rewrite decide_False by (unfold last; lia).
    destruct (words_vec_set _ _ _ last (Z.lor (ushr (word_at data (T + 1)) sl)
      (ushl 64 tail (64 - sl))) Hw1 Hlt) as (data2 & -> & Hw2).
    eexists; split; [done|]. eapply words_ext; [exact Hw2|]. cbn beta. intros k Hk.
    destruct (decide (k = last)) as [->|]; [rewrite decide_True by lia; unfold last; do 4 f_equal; lia|].
    destruct (decide (last < k ≤ last + (size - 1 - last))).
    + by rewrite decide_True by lia.
    + by rewrite decide_False by lia.
  - replace (size - 1 - last) with 0 by lia. cbn [backward_loop mbind outcome_bind].
    eexists; split; [done|]. eapply words_ext; [apply words_self|]. cbn beta.
    intros k Hk. by rewrite decide_False by lia.
Qed.

(** Bits of the words after the word the tail moves to. *)
Lemma backward_high_bits T tl se sl k r :
  ts = 64 * T + tl → tl < 64 → d = 64 * se + sl → 0 < sl < 64 → T + se + 1 ≤ k → r < 64 →
  wbit 64 (Z.lor (ushr (word_at data (k - se)) sl)
             (ushl 64 (if decide (k = T + se + 1)
                       then ushr (ushl 64 (word_at data T) tl) tl
                       else word_at data (k - se - 1)) (64 - sl))) r
  = bool_decide (ts + d ≤ 64 * k + r) && vbit 64 data (64 * k + r - d).
Proof using Hs Hwf Hts Hd.
  intros Ets Htl Ed Hsl Hk Hr. destruct (regular_facts bv Hs Hwf) as (_ & _ & Hok).
  rewrite wbit_pair_right by (done || by apply word_at_ok).
  case_decide as Hrs.
  - case_decide as Hkl.
    + rewrite wbit_ushr by (lia || apply ushl_ok). destruct (decide (tl ≤ r + 64 - sl)).
      * rewrite wbit_ushl by lia. rewrite !bool_decide_eq_true_2 by lia. cbn [andb].
        apply vbit_at; lia.
      * by rewrite !bool_decide_eq_false_2 by lia.
    + rewrite bool_decide_eq_true_2 by lia. cbn [andb]. apply vbit_at; lia.
  - rewrite bool_decide_eq_true_2 by lia. cbn [andb]. apply vbit_at; lia.
Qed.

(** The bits of the word the tail starts in that belong to the tail. *)
Lemma wbit_tail_bits T tl r :
  r < 64 → tl < 64 →
  wbit 64 (ushr (ushl 64 (word_at data T) tl) tl) r
  = bool_decide (tl ≤ r) && vbit 64 data (64 * T + r).
Proof using Hs Hwf Hts Hd.
  intros Hr Htl. rewrite wbit_ushr by (done || apply ushl_ok). case_bool_decide; [|done].
  cbn [andb]. rewrite wbit_ushl, bool_decide_eq_true_2 by lia. cbn [andb]. apply vbit_at; lia.
Qed.

Section unaligned.
Context (T tl se sl : nat) (data1 : list Z).
Context (Ets : ts = 64 * T + tl) (Htl : tl < 64).
Context (Ed : d = 64 * se + sl) (Hsl : 0 < sl < 64) (Hn : ts + d ≤ n).
Context (Hw1 : words data1 size (λ k, if decide (T + se + 1 ≤ k)
  then Z.lor (ushr (word_at data (k - se)) sl)
         (ushl 64 (if decide (k = T + se + 1) then ushr (ushl 64 (word_at data T) tl) tl
                   else word_at data (k - se - 1)) (64 - sl))
  else word_at data k)).

Lemma left_behind_iff : word_left_behind ↔ tl = 0 ∧ se ≠ 0.
Proof using Hts Ets Htl Ed Hsl Hn Hd. unfold word_left_behind. lia. Qed.

Lemma unaligned_lt : T + se < size.
Proof using Hs Hwf Hts Hd Ets Htl Ed Hsl Hn.
  destruct (regular_facts bv Hs Hwf) as (_ & -> & _). unfold data_array_size_.
  rewrite data_array_size_spec. lia.
Qed.

(** By a word and more. *)
Lemma unaligned_far :
  se ≠ 0 →
  ∃ data', (data ← vec_set data1 (T + se) (ushr (ushr (ushl 64 (word_at data T) tl) tl) sl);
            data ← (if negb (tl =? 0) then update T (drop_tail tl) data else Ok data);
            memset (T + 1) (se - 1) 0%Z data) = Ok data' ∧
    ∃ W, words data' size W ∧ backward_words W.
Proof using Hs Hwf Hts Hd Ets Htl Ed Hsl Hn Hw1.
  intros Hse. pose proof unaligned_lt as Hlt. pose proof left_behind_iff as Hleft.
  destruct (regular_facts bv Hs Hwf) as (_ & _ & Hok).
  assert (∀ j, word_ok 64 (word_at data j)) as Hw by (intros; by apply word_at_ok).
  set (tail := ushr (ushl 64 (word_at data T) tl) tl) in *.
  assert (word_ok 64 tail) as Htail by (unfold tail; auto with words).
  destruct (words_vec_set _ _ _ (T + se) (ushr tail sl) Hw1 Hlt) as (data2 & -> & Hw2).
  cbn [mbind outcome_bind].
  assert (∃ data3, (if negb (tl =? 0) then update T (drop_tail tl) data2 else Ok data2) = Ok data3 ∧
    words data3 size (λ k, if decide (k = T)
      then (if decide (tl = 0) then word_at data T else drop_tail tl (word_at data T))
      else if decide (k = T + se) then ushr tail sl
      else if decide (T + se + 1 ≤ k) then Z.lor (ushr (word_at data (k - se)) sl)
         (ushl 64 (if decide (k = T + se + 1) then tail else word_at data (k - se - 1)) (64 - sl))
      else word_at data k)) as (data3 & -> & Hw3).
  { destruct (Nat.eqb_spec tl 0) as [H0|H0]; cbn [negb].
    - eexists; split; [done|]. eapply words_ext; [exact Hw2|]. cbn beta. intros k Hk.
      destruct (decide (k = T)) as [->|]; [|done]. by rewrite !decide_False, decide_True by lia.
    - destruct (words_update _ _ _ T (drop_tail tl) Hw2) as (data3 & -> & Hw3); [lia|].
      eexists; split; [done|]. eapply words_ext; [exact Hw3|]. cbn beta. intros k Hk.
      destruct (decide (k = T)) as [->|]; [|done]. by rewrite !decide_False by lia. }
  cbn [mbind outcome_bind].
  destruct (words_memset _ _ _ (T + 1) (se - 1) 0%Z Hw3) as (data4 & -> & Hw4); [lia|].
  eexists; split; [done|]. eexists; split; [exact Hw4|]. split; cbn beta.
  - intros k. unfold drop_tail. repeat case_decide; auto with words.
  - intros i Hi. unfold shifted_backward.
    pose proof (backward_high_bits T tl se sl (i / 64) (i mod 64) Ets Htl Ed Hsl) as Hhigh.
    fold tail in Hhigh. split_pos i.
    destruct (decide (T + 1 ≤ q < T + 1 + (se - 1))).
    { rewrite wbit_0, decide_False, decide_True, decide_False by (rewrite ?Hleft; lia). done. }
    destruct (decide (q = T)) as [->|].
    { destruct (decide (tl = 0)).
      - rewrite (vbit_at _ _ _ i) by lia. rewrite decide_False, decide_True by lia.
        rewrite decide_True; [done|]. rewrite Hleft. lia.
      - rewrite wbit_drop_tail, (vbit_at _ _ _ i) by lia. destruct (decide (i < ts)).
        + by rewrite bool_decide_eq_true_2 by lia.
        + rewrite bool_decide_eq_false_2, decide_True, decide_False by (rewrite ?Hleft; lia). done. }
    destruct (decide (q = T + se)) as [->|].
    { rewrite wbit_ushr by done. unfold tail. rewrite decide_False by lia.
      destruct (decide (sl ≤ r)).
      - rewrite (bool_decide_eq_true_2 (sl ≤ r)), wbit_tail_bits by lia. cbn [andb]. destruct (decide (i < ts + d)).
        + rewrite bool_decide_eq_false_2, decide_False by (rewrite ?Hleft; lia). done.
        + rewrite bool_decide_eq_true_2 by lia. cbn [andb]. f_equal. lia.
      - rewrite (bool_decide_eq_false_2 (sl ≤ r)) by lia. cbn [andb].
        rewrite decide_True, decide_False by (rewrite ?Hleft; lia). done. }
    destruct (decide (T + se + 1 ≤ q)).
    { rewrite Hhigh by lia. rewrite decide_False by lia. rewrite <- Hdiv. destruct (decide (i < ts + d)).
      - rewrite bool_decide_eq_false_2, decide_False by (rewrite ?Hleft; lia). done.
      - by rewrite bool_decide_eq_true_2 by lia. }
    rewrite (vbit_at _ _ _ i), decide_True by lia. done.
Qed.

(** By less than a word. *)
Lemma unaligned_near :
  se = 0 →
  ∃ data', (if negb (tl =? 0)
            then update T (λ x, Z.lor (Z.land x (MaskBitRange 64 0 tl))
                   (ushr (Z.land x (MaskBitRange 64 tl 64)) sl)) data1
            else update T (λ x, ushr x sl) data1) = Ok data' ∧
    ∃ W, words data' size W ∧ backward_words W.
Proof using Hs Hwf Hts Hd Ets Htl Ed Hsl Hn Hw1.
  intros Hse. pose proof unaligned_lt as Hlt. pose proof left_behind_iff as Hleft.
  destruct (regular_facts bv Hs Hwf) as (_ & _ & Hok).
  assert (∀ j, word_ok 64 (word_at data j)) as Hw by (intros; by apply word_at_ok).
  assert (∃ data2 y, (if negb (tl =? 0)
            then update T (λ x, Z.lor (Z.land x (MaskBitRange 64 0 tl))
                   (ushr (Z.land x (MaskBitRange 64 tl 64)) sl)) data1
            else update T (λ x, ushr x sl) data1) = Ok data2 ∧
    words data2 size (λ k, if decide (k = T) then y else
      if decide (T + se + 1 ≤ k) then Z.lor (ushr (word_at data (k - se)) sl)
         (ushl 64 (if decide (k = T + se + 1) then ushr (ushl 64 (word_at data T) tl) tl
                   else word_at data (k - se - 1)) (64 - sl)) else word_at data k) ∧
    word_ok 64 y ∧ ∀ r, r < 64 → wbit 64 y r =
      if decide (r < tl) then vbit 64 data (64 * T + r)
      else bool_decide (tl + sl ≤ r) && vbit 64 data (64 * T + r - sl))
    as (data2 & y & -> & Hw2 & Hy & Hby).
  { destruct (Nat.eqb_spec tl 0) as [H0|H0]; cbn [negb].
    - destruct (words_update _ _ _ T (λ x, ushr x sl) Hw1) as (data2 & -> & Hw2); [lia|].
      rewrite decide_False in Hw2 by lia. eexists _, _. split; [done|].
      split_and!; [exact Hw2|auto with words|].
      + intros r Hr. rewrite wbit_ushr, decide_False by (done || lia).
        destruct (decide (sl ≤ r)); [|by rewrite !bool_decide_eq_false_2 by lia].
        rewrite !bool_decide_eq_true_2 by lia. cbn [andb]. apply vbit_at; lia.
    - destruct (words_update _ _ _ T (λ x, Z.lor (Z.land x (MaskBitRange 64 0 tl))
        (ushr (Z.land x (MaskBitRange 64 tl 64)) sl)) Hw1) as (data2 & -> & Hw2); [lia|].
      rewrite decide_False in Hw2 by lia. eexists _, _. split; [done|].
      split_and!; [exact Hw2|auto with words|].
      + intros r Hr. rewrite wbit_lor, wbit_land, wbit_MaskBitRange by done.
        rewrite wbit_ushr by (done || auto with words). case_decide.
        * rewrite bool_decide_eq_true_2, andb_true_r by lia.
          destruct (decide (sl ≤ r)); [|rewrite (bool_decide_eq_false_2 (sl ≤ r)), orb_false_r by lia;
            by apply vbit_at].
          rewrite wbit_land, wbit_MaskBitRange, (bool_decide_eq_false_2 (tl ≤ _ < _)) by lia.
          rewrite !andb_false_r, orb_false_r. by apply vbit_at.
        * rewrite (bool_decide_eq_false_2 (0 ≤ r < _)), andb_false_r by lia. cbn [orb].
          destruct (decide (sl ≤ r)); [|by rewrite !bool_decide_eq_false_2 by lia].
          rewrite wbit_land, wbit_MaskBitRange, (bool_decide_eq_true_2 (sl ≤ r)) by lia. cbn [andb].
          rewrite andb_comm. f_equal; [apply bool_decide_ext; lia|apply vbit_at; lia]. }
  eexists; split; [done|]. eexists; split; [exact Hw2|]. split; cbn beta.
  - intros k. repeat case_decide; auto with words.
  - intros i Hi. unfold shifted_backward.
    rewrite (decide_False (P := word_left_behind ∧ _)) by (rewrite Hleft; lia).
    pose proof (backward_high_bits T tl se sl (i / 64) (i mod 64) Ets Htl Ed Hsl) as Hhigh.
    split_pos i. destruct (decide (q = T)) as [->|].
    { rewrite Hby by lia. destruct (decide (r < tl)).
      - rewrite decide_True by lia. f_equal. lia.
      - rewrite decide_False by lia. destruct (decide (i < ts + d)).
        + by rewrite bool_decide_eq_false_2 by lia.
        + rewrite bool_decide_eq_true_2 by lia. cbn [andb]. f_equal. lia. }
    destruct (decide (T + se + 1 ≤ q)).
    { rewrite Hhigh by lia. rewrite decide_False by lia. rewrite <- Hdiv. destruct (decide (i < ts + d)).
      - by rewrite bool_decide_eq_false_2 by lia.
      - by rewrite bool_decide_eq_true_2 by lia. }
    rewrite (vbit_at _ _ _ i), decide_True by lia. done.
Qed.
End unaligned.

Lemma backward_unaligned_words :
  d mod 64 ≠ 0 → ts + d ≤ n →
  ∃ data', backward_unaligned size (ts / 64) (ts mod 64) (d / 64) (d mod 64) data = Ok data' ∧
    ∃ W, words data' size W ∧ backward_words W.
Proof using Hs Hwf Hts Hd.
  intros Hz Hn. pose proof (Nat.div_mod_eq ts 64) as Ets. pose proof (Nat.div_mod_eq d 64) as Ed.
  assert (ts mod 64 < 64) as Htl by lia. assert (0 < d mod 64 < 64) as Hsl by lia.
  pose proof (regular_lt bv ts Hs Hwf Hts) as Hk.
  unfold backward_unaligned, kSizeTBits.
  rewrite (vec_at_Some _ _ _ (word_at_lookup data _ Hk)). cbn [mbind outcome_bind].
  destruct (backward_high_words _ _ _ _ Ets Htl Ed Hsl Hn) as (data1 & Hrun & Hw1).
  apply bind_Ok in Hrun as (data0 & -> & Hrun). cbn [mbind outcome_bind] in Hrun |- *.
  rewrite Hrun. cbn [mbind outcome_bind].
  destruct (Nat.eqb_spec (d / 64) 0) as [H0|H0]; cbn [negb].
  - by apply unaligned_near with (se := d / 64).
  - by apply unaligned_far.
Qed.

Lemma backward_zero_words :
  n < ts + d →
  ∃ data', backward_zero size (ts / 64) (ts mod 64) data = Ok data' ∧
    implements (Ok (set_data bv data')) bv tail_backward_actual.
Proof using Hs Hwf Hts Hd.
  intros Hn. destruct (regular_facts bv Hs Hwf) as (_ & Hsize & Hok).
  pose proof (regular_lt bv ts Hs Hwf Hts) as Hk.
  assert (∀ j, word_ok 64 (word_at data j)) as Hw by (intros; by apply word_at_ok).
  assert (¬ word_left_behind) as Hleft by (unfold word_left_behind; lia).
  assert (∃ data' W, backward_zero size (ts / 64) (ts mod 64) data = Ok data' ∧
    words data' size W ∧ (∀ k, word_ok 64 (W k)) ∧
    ∀ i, i < 64 * size → wbit 64 (W (i / 64)) (i mod 64) = bool_decide (i < ts) && vbit 64 data i)
    as (data' & W & -> & [Hl HW] & HokW & Hb).
  { unfold backward_zero. destruct (Nat.eqb_spec (ts mod 64) 0) as [Hz|Hz]; cbn [negb].
    - rewrite (proj2 (Nat.eqb_neq (size - ts / 64 - 0) 0)) by lia. cbn [negb].
      destruct (words_memset data size (word_at data) (ts / 64 + 0) (size - ts / 64 - 0) 0%Z)
        as (data1 & -> & Hw1); [apply words_self|lia|]. eexists _, _. split; [done|].
      split; [exact Hw1|]. split; cbn beta; [intros; case_decide; auto with words|].
      intros i Hi. case_decide; [by rewrite wbit_0, bool_decide_eq_false_2 by lia|].
      by rewrite bool_decide_eq_true_2 by lia.
    - set (full := size - ts / 64 - 1).
      assert (∃ data1, (if negb (full =? 0) then memset (ts / 64 + 1) full 0%Z data else Ok data)
        = Ok data1 ∧ words data1 size (λ k, if decide (ts / 64 < k) then 0%Z else word_at data k))
        as (data1 & -> & Hw1).
      { destruct (Nat.eqb_spec full 0) as [H0|H0]; cbn [negb].
        - eexists; split; [done|]. eapply words_ext; [apply words_self|]. cbn beta. intros k Hlt.
          by rewrite decide_False by lia.
        - destruct (words_memset data size (word_at data) (ts / 64 + 1) full 0%Z)
            as (data1 & -> & Hw1); [apply words_self|lia|]. eexists; split; [done|].
          eapply words_ext; [exact Hw1|]. cbn beta. intros k Hlt.
          destruct (decide (ts / 64 < k)); [by rewrite decide_True by lia|by rewrite decide_False by lia]. }
      cbn [mbind outcome_bind].
      destruct (words_update _ _ _ (ts / 64) (drop_tail (ts mod 64)) Hw1 Hk) as (data2 & -> & Hw2).
      rewrite decide_False in Hw2 by lia. eexists _, _. split; [done|]. split; [exact Hw2|].
      split; cbn beta; [intros; unfold drop_tail; repeat case_decide; auto with words|].
      intros i Hi. case_decide as Hik.
      + rewrite wbit_drop_tail, <- Hik by lia. f_equal. apply bool_decide_ext. lia.
      + case_decide; [by rewrite wbit_0, bool_decide_eq_false_2 by lia|].
        by rewrite bool_decide_eq_true_2 by lia. }
  eexists; split; [done|].
  apply implements_regular; [done|done| |done| |].
  - unfold tail_backward_actual. rewrite length_imap, length_tail_backward; rewrite length_bits; lia.
  - apply Forall_lookup_2. intros k x Hx. pose proof (lookup_lt_Some _ _ _ Hx).
    rewrite word_at_lookup, HW in Hx by lia. injection Hx as <-. done.
  - intros i Hi. unfold vbit. rewrite HW, Hb, lbit_tail_backward_actual by lia.
    unfold shifted_backward. rewrite (decide_False (P := word_left_behind ∧ _)) by tauto.
    repeat case_decide; repeat case_bool_decide; try lia; done.
Qed.

Lemma shiftTailBackward_regular :
  implements (shiftTailBackwardRegularVersion ts d bv) bv tail_backward_actual.
Proof using Hs Hwf Hts Hd.
  destruct (regular_facts bv Hs Hwf) as (_ & Hsize & _).
  unfold shiftTailBackwardRegularVersion. rewrite <- Hsize, !hi_div, !lo_mod.
  rewrite (proj2 (Nat.eqb_neq d 0)) by done.
  destruct (Nat.ltb_spec n (ts + d)) as [Hlt|Hge].
  { destruct (backward_zero_words Hlt) as (data' & -> & Himp). exact Himp. }
  assert (∃ data1, (if negb (d mod 64 =? 0)
      then backward_unaligned size (ts / 64) (ts mod 64) (d / 64) (d mod 64) data
      else backward_aligned size (ts / 64) (ts mod 64) (d / 64) data) = Ok data1 ∧
    ∃ W, words data1 size W ∧ backward_words W) as (data1 & -> & W & Hw & HW).
  { destruct (Nat.eqb_spec (d mod 64) 0); cbn [negb];
      [by apply backward_aligned_words|by apply backward_unaligned_words]. }
  cbn [mbind outcome_bind]. destruct (backward_mask W data1 Hw HW) as (data' & -> & Himp).
  exact Himp.
Qed.
End backward.
