(* ===== verification/BitVectorRefine.v ===== *)
(** * Bit vectors refine lists of booleans

    The contract of utility/BitVector.hpp: every sequence of updates does to the
    vector what the list operations do to its list of bits; what the queries
    answer; and the inputs on which the code departs from the contract. *)

From stdpp Require Import options.
From Stdlib Require Import ZifyNat.
From S2P Require Import Prelude BitManipulation BitVector BitVectorBits BitVectorOps.
From S2P Require Import BitVectorSearch BitVectorShift.

Ltac Zify.zify_post_hook ::= Z.to_euclidean_division_equations.

(** ** Sequences of updates *)

Inductive bv_update :=
| USetBit (bit_num : nat) (value : bool)
| USetBitRange (start_bit_num range_num_bits : nat) (value : bool)
| USetBitWord (word_id : nat) (value : Z)
| UClear
| UFlipBits
| UIntersectWith (other : BitVector)
| UUnionWith (other : BitVector)
| UAssignFrom (other : BitVector)
| UShiftTailForward (tail_start shift_distance : nat).





(** The updates in range that leave defined behaviour: a range up to the end
    of storage that is filled to the last bit, and a shift of a short vector
    whose source is 32 bits or more away. *)
Definition overruns (u : bv_update) (bv : BitVector) : Prop :=
  match u with
  | USetBitRange s m _ => range_past_end bv s m
  | UShiftTailForward ts d => short_version_ bv = true ∧ 32 ≤ ts + d
  | _ => False
  end.
#[global] Instance overruns_dec u bv : Decision (overruns u bv).
Proof. destruct u; cbn; apply _. Defined.

Lemma shiftTailForward_spec bv ts d :
  bv_wf bv → ts < num_bits_ bv → (short_version_ bv = true → ts + d < 32) →
  implements (shiftTailForward ts d bv) bv (tail_forward ts d (bits bv)).
Proof.
  intros Hwf Hts Hd. by_version bv Hs; [by apply shiftTailForward_short; auto|].
  unfold shiftTailForward. rewrite Hs. destruct (decide (d = 0)) as [->|Hne].
  - unfold shiftTailForwardRegularVersion. cbn. eexists; split_and!; [done|done| |done|done].
    unfold tail_forward. rewrite Nat.add_0_r. cbn. by rewrite app_nil_r, take_drop.
  - by apply shiftTailForward_regular.
Qed.






(** C10. Queries: on a well-formed vector [getBit] reads the bit, [any] says
    whether one is set, [onesCount] counts the ones; and [all] says whether all
    are set except in short vectors of 1 to 7 or 9 to 15 bits, where it answers
    no whatever the bits are.  Searches: [firstOne] and [firstZero] end with
    the first position from the given one on that holds a one or a zero,
    [lastOne] and [lastZero] with the last such position before the given one;
    each returns the length of the vector when there is none. *)
Theorem bit_vector_queries bv :
  bv_wf bv →
  ((∀ i b, bits bv !! i = Some b → getBit i bv = Ok b) ∧
   any bv = Ok (existsb id (bits bv)) ∧
   onesCount bv = Ok (length (filter Is_true (bits bv))) ∧
   all bv = Ok (forallb id (bits bv) && negb (all_truncated bv))) ∧
  (∀ pos, pos < num_bits_ bv →
    (∃ r, firstOne pos bv = Ok r ∧ first_from (lbit (bits bv)) pos (num_bits_ bv) r) ∧
    (∃ r, firstZero pos bv = Ok r ∧
          first_from (λ i, negb (lbit (bits bv) i)) pos (num_bits_ bv) r)) ∧
  (∀ position, search_end position bv ≤ num_bits_ bv →
    (∃ r, lastOne position bv = Ok r ∧
          last_before (lbit (bits bv)) (search_end position bv) (num_bits_ bv) r) ∧
    (∃ r, lastZero position bv = Ok r ∧
          last_before (λ i, negb (lbit (bits bv) i)) (search_end position bv) (num_bits_ bv) r)).
Proof.
  intros Hwf. split; [|split; [intros pos Hpos|intros position Hpos]; split].
  - split_and!; [|by apply any_spec|by apply onesCount_spec|by apply all_spec].
    intros i b Hi. pose proof (lookup_lt_Some _ _ _ Hi) as Hlt. rewrite length_bits in Hlt.
    rewrite getBit_spec by done. unfold lbit. by rewrite Hi.
  - by apply firstOne_spec.
  - by apply firstZero_spec.
  - by apply lastOne_spec.
  - by apply lastZero_spec.
Qed.

(** [setBitRange] on a range inside the vector sets exactly that range, or
    is undefined behaviour: it is undefined exactly when the vector is regular,
    its length is a multiple of 64, the range ends at its end and is not inside
    the part of a word; the code then reads and writes the word after the
    array. *)
Lemma setBitRange_undefined_iff bv s m v :
  bv_wf bv → s < num_bits_ bv → s + m ≤ num_bits_ bv →
  (setBitRange s m v bv = Err UndefinedBehaviour ↔
     short_version_ bv = false ∧ s + m = num_bits_ bv ∧ num_bits_ bv mod 64 = 0 ∧
     (s mod 64 = 0 ∨ 64 < s mod 64 + m)) ∧
  (setBitRange s m v bv ≠ Err UndefinedBehaviour →
     implements (setBitRange s m v bv) bv (set_range s m v (bits bv))).
Proof.
  intros Hwf Hs Hm. pose proof (setBitRange_spec bv s m v Hwf Hs Hm) as Hspec.
  fold (range_past_end bv s m). case_decide as Hp; [by rewrite Hspec|].
  split; [|done]. split; [|done]. destruct Hspec as (bv' & -> & _). done.
Qed.

(** [shiftTailBackward] on a regular vector. *)
Lemma shiftTailBackward_regular_inserts bv ts d :
  short_version_ bv = false → bv_wf bv → ts < num_bits_ bv →
  implements (shiftTailBackward ts d bv) bv
    (imap (λ i b, if decide ((ts mod 64 = 0 ∧ 64 < d ∧ d mod 64 ≠ 0 ∧ ts + d ≤ num_bits_ bv) ∧
                             ts ≤ i < ts + 64)
                  then lbit (bits bv) i else b)
       (tail_backward ts d (bits bv))).
Proof.
  intros Hs Hwf Hts. unfold shiftTailBackward. rewrite Hs. destruct (decide (d = 0)) as [->|Hne].
  - unfold shiftTailBackwardRegularVersion. cbn. eexists; split_and!; [done|done| |done|done].
    apply list_eq. intros i. rewrite list_lookup_imap. unfold tail_backward. cbn.
    rewrite <- length_drop, firstn_all, take_drop.
    destruct (bits bv !! i); cbn; [|done]. by rewrite decide_False by lia.
  - by apply shiftTailBackward_regular.
Qed.

(** [shiftTailBackward] on a short vector. *)
Lemma shiftTailBackward_short_spills bv ts d :
  short_version_ bv = true → bv_wf bv → ts < num_bits_ bv → d < 32 →
  ∃ bv', shiftTailBackward ts d bv = Ok bv' ∧
    bits bv' = tail_backward ts d (bits bv) ∧
    (bv_wf bv' ↔ ∀ j, ts ≤ j < num_bits_ bv →
       num_bits_ bv ≤ j + d < short_width (num_bits_ bv) → lbit (bits bv) j = false).
Proof.
  intros Hs Hwf Hts Hd. destruct (shiftTailBackward_short bv ts d Hs Hwf Hts Hd)
    as (bv' & Hrun & _ & Hb & Hiff). exists bv'. split_and!; [done|done|]. rewrite Hiff.
  unfold spills. split.
  - intros Hno j Hj Hjd. destruct (lbit (bits bv) j) eqn:E; [|done]. destruct Hno. eauto.
  - intros Hall (j & Hj & Hjd & Hb1). by rewrite Hall in Hb1.
Qed.

(** Shifts, though they move whole words.  [shiftTailForward] on any
    well-formed vector drops the positions asked for and fills the end with
    zeroes.  [shiftTailBackward] inserts zeroes and drops what is pushed past the
    end, with two exceptions.  On a regular vector, when the tail starts at a
    word and moves by more than a word and not by whole words, the word the tail
    started in is not cleared and keeps its old bits.  On a short vector the
    result is well-formed exactly when no set bit is pushed into the unused end
    of the word, which the code does not clear. *)
Lemma bit_vector_shifts bv ts d :
  bv_wf bv → ts < num_bits_ bv →
  ((short_version_ bv = true → ts + d < 32) →
   implements (shiftTailForward ts d bv) bv (tail_forward ts d (bits bv))) ∧
  (short_version_ bv = false →
   implements (shiftTailBackward ts d bv) bv
     (imap (λ i b, if decide ((ts mod 64 = 0 ∧ 64 < d ∧ d mod 64 ≠ 0 ∧
                               ts + d ≤ num_bits_ bv) ∧ ts ≤ i < ts + 64)
                   then lbit (bits bv) i else b)
        (tail_backward ts d (bits bv)))) ∧
  (short_version_ bv = true → d < 32 →
   ∃ bv', shiftTailBackward ts d bv = Ok bv' ∧
     bits bv' = tail_backward ts d (bits bv) ∧
     (bv_wf bv' ↔ ∀ j, ts ≤ j < num_bits_ bv →
        num_bits_ bv ≤ j + d < short_width (num_bits_ bv) → lbit (bits bv) j = false)).
Proof.
  intros Hwf Hts. split_and!; intros Hs.
  - by apply shiftTailForward_spec.
  - by apply shiftTailBackward_regular_inserts.
  - intros Hd. by apply shiftTailBackward_short_spills.
Qed.

(** [unsetFrom] clears the bits that are set in the other vector, which
    may be shorter; [subtractTo] appends, in order, the positions set here and
    not there. *)
Lemma bit_vector_difference bv other output :
  enable_short_version bv = false → enable_short_version other = false →
  bv_wf bv → bv_wf other →
  implements (unsetFrom bv other) bv
    (imap (λ i b, b && negb (lbit (bits other) i)) (bits bv)) ∧
  (num_bits_ other = num_bits_ bv → (num_bits_ bv ≤ 2 ^ 31)%Z →
   subtractTo bv other output =
     Ok (output ++ (Z.of_nat <$>
       filter (λ i, lbit (bits bv) i && negb (lbit (bits other) i) = true)
         (seq 0 (num_bits_ bv))))).
Proof.
  intros He He' Hwf Hwf'. split; [by apply unsetFrom_spec|]. intros Hn Hsmall.
  apply subtractTo_spec; [| |done..]; unfold short_version_; by rewrite ?He, ?He'.
Qed.

Lemma BytesNeeded_cases n :
  let b := BytesNeeded true n in
  (n = 0 ∧ b = 0) ∨ (0 < n < 9 ∧ b = 1) ∨ (9 ≤ n < 17 ∧ b = 2) ∨ (17 ≤ n < 33 ∧ b = 4) ∨
  (33 ≤ n ∧ b = 8 * ((n + 63) / 64)).
Proof.
  unfold BytesNeeded. rewrite hi_div, lo_mod. cbn [andb].
  destruct (Nat.eqb_spec n 0); [lia|]. destruct (Nat.ltb_spec n 9); [lia|].
  destruct (Nat.ltb_spec n 17); [lia|]. destruct (Nat.ltb_spec n 33); [lia|].
  destruct (Nat.eqb_spec (n mod 64) 0); cbn [negb]; lia.
Qed.

Lemma BytesNeeded_regular n : BytesNeeded false n = 8 * ((n + 63) / 64).
Proof.
  unfold BytesNeeded. rewrite hi_div, lo_mod. cbn [andb].
  destruct (Nat.eqb_spec (n mod 64) 0); cbn [negb]; lia.
Qed.

Lemma MaxCapacityForBytes_cases b :
  let n := MaxCapacityForBytes true b in
  (b = 0 ∧ n = 0) ∨ (b = 1 ∧ n = 8) ∨ (2 ≤ b < 4 ∧ n = 16) ∨ (4 ≤ b < 8 ∧ n = 32) ∨
  (8 ≤ b ∧ n = 64 * (b / 8)).
Proof.
  unfold MaxCapacityForBytes, kHigherOrderShift. rewrite Nat.shiftl_mul_pow2.
  change (2 ^ 6) with 64. cbn [andb].
  destruct (Nat.eqb_spec b 0); [lia|]. destruct (Nat.ltb_spec b 2), (Nat.leb_spec 1 b); try lia;
    cbn [andb]; [lia|]. destruct (Nat.ltb_spec b 4), (Nat.leb_spec 2 b); try lia; cbn [andb]; [lia|].
  destruct (Nat.ltb_spec b 8), (Nat.leb_spec 4 b); try lia; cbn [andb]; lia.
Qed.

Lemma MaxCapacityForBytes_regular b : MaxCapacityForBytes false b = 64 * (b / 8).
Proof.
  unfold MaxCapacityForBytes, kHigherOrderShift. rewrite Nat.shiftl_mul_pow2.
  change (2 ^ 6) with 64. cbn [andb]. destruct (Nat.eqb_spec b 0) as [->|]; [done|lia].
Qed.

(** Sizes: [MaxCapacityForBytes] is the longest vector that fits: a vector
    needs at most [num_bytes] bytes exactly when it has at most
    [MaxCapacityForBytes(num_bytes)] bits. *)
Lemma bit_vector_capacity short num_bits num_bytes :
  BytesNeeded short num_bits ≤ num_bytes ↔
  num_bits ≤ MaxCapacityForBytes short num_bytes.
Proof.
  destruct short.
  - pose proof (BytesNeeded_cases num_bits) as H1.
    pose proof (MaxCapacityForBytes_cases num_bytes) as H2. cbn zeta in *. lia.
  - rewrite BytesNeeded_regular, MaxCapacityForBytes_regular. lia.
Qed.

(** ** Witnesses *)

(** Well-formedness, checked by evaluation. *)
Definition bv_check (bv : BitVector) : bool :=
  let w := width bv in
  (length (data_array_ bv) =? storage_words (enable_short_version bv) (num_bits_ bv)) &&
  forallb (λ x, (0 <=? x)%Z && (x <? 2 ^ w)%Z) (data_array_ bv) &&
  forallb (λ i, negb (vbit w (data_array_ bv) i))
    (seq (num_bits_ bv) (w * length (data_array_ bv) - num_bits_ bv)).

Lemma bv_check_wf bv : bv_check bv = true → bv_wf bv.
Proof.
  unfold bv_check. rewrite !andb_true_iff. intros [[Hlen Hok] Hpad].
  apply Nat.eqb_eq in Hlen. split; [done|..].
  - apply Forall_forall. intros x Hx%list_elem_of_In.
    apply (proj1 (forallb_forall _ _) Hok) in Hx. apply andb_true_iff in Hx as [H1 H2].
    unfold word_ok. lia.
  - intros i Hi. destruct (decide (i < width bv * length (data_array_ bv))) as [Hlt|Hge].
    + apply negb_true_iff. apply (proj1 (forallb_forall _ _) Hpad), in_seq. lia.
    + unfold vbit, word_at. rewrite lookup_ge_None_2; [apply wbit_0|].
      apply Nat.div_le_lower_bound; [|lia]. pose proof (width_pos bv). lia.
Qed.

(** Five ones in a byte, and seventy ones in two words. *)
Definition five_ones : BitVector := mkBitVector true 5 [248%Z].
Definition seventy_ones : BitVector :=
  mkBitVector false 70 [(2 ^ 64 - 1)%Z; (2 ^ 64 - 2 ^ 58)%Z].
Definition word_of_zeroes : BitVector := mkBitVector false 64 [0%Z].
Definition wide_ones : BitVector :=
  mkBitVector false 192 [(2 ^ 64 - 1)%Z; (2 ^ 64 - 1)%Z; (2 ^ 64 - 1)%Z].


Lemma bit_vector_queries_witness :
  onesCount seventy_ones = Ok 70 ∧ all seventy_ones = Ok true ∧ all five_ones = Ok false ∧
  ∃ r, lastOne None seventy_ones = Ok r ∧ last_before (lbit (bits seventy_ones)) 70 70 r.
Proof.
  assert (bv_wf seventy_ones) as H70 by (apply bv_check_wf; vm_compute; reflexivity).
  assert (bv_wf five_ones) as H5 by (apply bv_check_wf; vm_compute; reflexivity).
  destruct (bit_vector_queries seventy_ones H70) as ((_ & _ & -> & ->) & _ & Hlast).
  destruct (bit_vector_queries five_ones H5) as ((_ & _ & _ & ->) & _).
  split_and!; [vm_compute; reflexivity..|]. apply (Hlast None). cbn. lia.
Defined.

Lemma setBitRange_undefined_iff_witness :
  setBitRange 0 64 true word_of_zeroes = Err UndefinedBehaviour ∧
  implements (setBitRange 3 60 true word_of_zeroes) word_of_zeroes
    (set_range 3 60 true (bits word_of_zeroes)).
Proof.
  assert (bv_wf word_of_zeroes) as Hwf by (apply bv_check_wf; vm_compute; reflexivity).
  split.
  - apply (setBitRange_undefined_iff word_of_zeroes 0 64 true Hwf); cbn; lia || auto.
  - apply (setBitRange_undefined_iff word_of_zeroes 3 60 true Hwf); [cbn; lia..|].
    vm_compute. discriminate.
Defined.

Lemma bit_vector_shifts_witness :
  implements (shiftTailForward 3 65 seventy_ones) seventy_ones
    (replicate 5 true ++ replicate 65 false) ∧
  implements (shiftTailBackward 0 65 wide_ones) wide_ones
    (replicate 64 true ++ [false] ++ replicate 127 true) ∧
  ∃ bv', shiftTailBackward 0 1 five_ones = Ok bv' ∧ bits bv' = [false; true; true; true; true] ∧
    ¬ bv_wf bv' ∧ onesCount bv' = Ok 5.
Proof.
  assert (bv_wf wide_ones) as Hwf by (apply bv_check_wf; vm_compute; reflexivity).
  assert (bv_wf five_ones) as Hwf' by (apply bv_check_wf; vm_compute; reflexivity).
  assert (bv_wf seventy_ones) as H70 by (apply bv_check_wf; vm_compute; reflexivity).
  split; [|split].
  - replace (replicate 5 true ++ replicate 65 false) with (tail_forward 3 65 (bits seventy_ones))
      by (vm_compute; reflexivity).
    apply (bit_vector_shifts seventy_ones 3 65 H70); [cbn; lia|discriminate].
  - match goal with |- implements _ _ ?l => assert (imap (λ i b,
      if decide ((0 mod 64 = 0 ∧ 64 < 65 ∧ 65 mod 64 ≠ 0 ∧ 0 + 65 ≤ num_bits_ wide_ones) ∧
                 0 ≤ i < 0 + 64) then lbit (bits wide_ones) i else b)
      (tail_backward 0 65 (bits wide_ones)) = l) as <- by (vm_compute; reflexivity) end.
    apply (bit_vector_shifts wide_ones 0 65 Hwf); [cbn; lia|reflexivity].
  - destruct (proj2 (proj2 (bit_vector_shifts five_ones 0 1 Hwf' ltac:(cbn; lia))) eq_refl)
      as (bv' & Hrun & Hb & Hiff); [lia|].
    exists bv'. split; [exact Hrun|]. split; [rewrite Hb; vm_compute; reflexivity|]. split.
    + rewrite Hiff. intros Hall. specialize (Hall 4 ltac:(cbn; lia) ltac:(cbn; lia)).
      vm_compute in Hall. discriminate.
    + assert (shiftTailBackward 0 1 five_ones = Ok (mkBitVector true 5 [124%Z])) as Heq
        by (vm_compute; reflexivity).
      rewrite Heq in Hrun. injection Hrun as <-. vm_compute. reflexivity.
Defined.

Lemma bit_vector_difference_witness :
  subtractTo seventy_ones seventy_ones [7%Z] = Ok [7%Z].
Proof.
  assert (bv_wf seventy_ones) as Hwf by (apply bv_check_wf; vm_compute; reflexivity).
  rewrite (proj2 (bit_vector_difference seventy_ones seventy_ones [7%Z] eq_refl eq_refl Hwf Hwf)
    eq_refl ltac:(cbn; lia)).
  vm_compute. reflexivity.
Defined.
