(* ===== verification/TupleIdSequence.v ===== *)
(** * Sequences of tuple ids

    storage/TupleIdSequence.hpp: the set of tuples of a block that passed a
    predicate, as a bit vector with iterators. The iterators are written
    against an interface, what a vector that can be searched promises, and the
    bit vector discharges it. *)

From stdpp Require Import options.
From Stdlib Require Import ZifyNat.
From S2P Require Import Prelude BitManipulation BitVector BitVectorBits BitVectorOps.
From S2P Require Import BitVectorSearch BitVectorRefine.

(** ** The interface of the iterators *)

(** What the iterators use of a vector of bits: its length, the search for the
    first one from a position on, and for the last one before a position. *)
Class Searchable (B : Type) := {
  s_size : B → nat;
  s_bit : B → nat → bool;
  s_ok : B → Prop;
  s_first : nat → B → outcome nat;
  s_last : option nat → B → outcome nat;
  s_first_spec b pos : s_ok b → pos < s_size b →
    ∃ r, s_first pos b = Ok r ∧ first_from (s_bit b) pos (s_size b) r;
  s_first_empty b : s_ok b → s_size b = 0 → s_first 0 b = Ok 0;
  s_last_spec b (position : option nat) : s_ok b →
    let pos := match position with None => s_size b | Some p => p end in
    pos ≤ s_size b →
    ∃ r, s_last position b = Ok r ∧ last_before (s_bit b) pos (s_size b) r;
}.

Lemma firstOne_empty bv : num_bits_ bv = 0 → firstOne 0 bv = Ok 0.
Proof. intros Hn. unfold firstOne. by rewrite Hn. Qed.

#[export] Instance bit_vector_searchable : Searchable BitVector := {|
  s_size := num_bits_;
  s_bit bv := lbit (bits bv);
  s_ok := bv_wf;
  s_first := firstOne;
  s_last := lastOne;
  s_first_spec := firstOne_spec;
  s_first_empty bv _ := firstOne_empty bv;
  s_last_spec := lastOne_spec;
|}.

(** ** Iterators *)

(** The position of an iterator; [None] is the largest [size_t], the position
    before the first element. *)
Definition ConstIterator : Type := option nat.

Section iterator.
Context `{Searchable B}.

(** [operator++]: the position before the first wraps around to the first. *)
Definition increment (b : B) (it : ConstIterator) : outcome ConstIterator :=
  let search_pos := match it with None => 0 | Some p => p + 1 end in
  if search_pos <? s_size b
  then r ← s_first search_pos b; Ok (Some r)
  else Ok (Some (s_size b)).

(** [operator--]. *)
Definition decrement (b : B) (it : ConstIterator) : outcome ConstIterator :=
  r ← s_last it b;
  if r =? s_size b then Ok None else Ok (Some r).

Definition begin (b : B) : outcome ConstIterator := r ← s_first 0 b; Ok (Some r).
Definition before_begin : ConstIterator := None.
Definition end_ (b : B) : ConstIterator := Some (s_size b).

(** [for (it = begin(); it != end(); ++it) out.push_back(it.position)]. *)
Fixpoint forward (fuel : nat) (b : B) (it : ConstIterator) (out : list nat)
  : outcome (list nat) :=
  if decide (it = end_ b) then Ok out
  else match it, fuel with
       | None, _ => Err UndefinedBehaviour
       | _, O => Err OutOfFuel
       | Some p, S fuel' => it' ← increment b it; forward fuel' b it' (out ++ [p])
       end.

(** [for (it = end(), --it; it != before_begin(); --it) out.push_back(it.position)]. *)
Fixpoint backward (fuel : nat) (b : B) (it : ConstIterator) (out : list nat)
  : outcome (list nat) :=
  match it, fuel with
  | None, _ => Ok out
  | _, O => Err OutOfFuel
  | Some p, S fuel' => it' ← decrement b it; backward fuel' b it' (out ++ [p])
  end.

(** ** Iteration visits the ones in order *)

Context (b : B) (Hok : s_ok b).
Local Abbreviation n := (s_size b).
Local Abbreviation t := (s_bit b).

Lemma positions_step a m r :
  first_from t a n r → a + m = n →
  positions t a m = if decide (r < n) then r :: positions t (S r) (n - S r) else [].
Proof using Type.
  intros (Hr & Hset & Hlow) Hm. case_decide as Hlt.
  - replace m with ((r - a) + S (n - S r)) by lia.
    rewrite positions_app, (positions_none _ a) by (intros; apply Hlow; lia).
    replace (a + (r - a)) with r by lia. unfold positions. cbn [app seq].
    by rewrite filter_cons_True by (by apply Hset).
  - apply positions_none. intros. apply Hlow. lia.
Qed.

Lemma increment_spec p :
  p < n → ∃ r, increment b (Some p) = Ok (Some r) ∧ first_from t (S p) n r.
Proof using Hok.
  intros Hp. unfold increment. destruct (Nat.ltb_spec (p + 1) n) as [Hlt|Hge].
  - destruct (s_first_spec b (p + 1) Hok Hlt) as (r & -> & Hr). exists r.
    split; [done|]. by rewrite <- Nat.add_1_r.
  - exists n. split; [done|]. split_and!; [lia|lia|lia|]. intros. lia.
Qed.

Lemma forward_spec fuel a r out :
  first_from t a n r → a ≤ n → n - a ≤ fuel →
  forward fuel b (Some r) out = Ok (out ++ positions t a (n - a)).
Proof using Hok.
  revert a r out. induction fuel as [|fuel IH]; intros a r out Hr Ha Hf;
    rewrite (positions_step a (n - a) r Hr) by lia; cbn [forward]; unfold end_.
  - destruct Hr as [[? ?] _]. rewrite decide_True by (f_equal; lia).
    rewrite decide_False by lia. by rewrite app_nil_r.
  - destruct (decide (r < n)) as [Hlt|Hge].
    + rewrite decide_False by (intros [=]; lia). destruct (increment_spec r Hlt) as (r' & -> & Hr').
      destruct Hr as [[? ?] _]. cbn [mbind outcome_bind].
      rewrite (IH (S r) r') by (done || lia). by rewrite <- app_assoc.
    + destruct Hr as [[? ?] _]. rewrite decide_True by (f_equal; lia). by rewrite app_nil_r.
Qed.

Lemma begin_spec : ∃ r, begin b = Ok (Some r) ∧ first_from t 0 n r.
Proof using Hok.
  unfold begin. destruct (decide (0 < n)) as [Hlt|Hge].
  - destruct (s_first_spec b 0 Hok Hlt) as (r & -> & Hr). eauto.
  - rewrite s_first_empty by (done || lia). exists 0. split; [done|].
    split_and!; [lia|lia|lia|]. intros. lia.
Qed.

(** The positions before [m], last first. *)
Lemma positions_last m r :
  m ≤ n → last_before t m n r →
  reverse (positions t 0 m) = if decide (r < m) then r :: reverse (positions t 0 r) else [].
Proof using Type.
  intros Hm [(Hr & Hset & Hhi)|[-> Hnone]].
  - rewrite decide_True by done. replace m with (r + S (m - S r)) by lia.
    rewrite positions_app, reverse_app. cbn [Nat.add]. unfold positions at 1. cbn [seq].
    rewrite filter_cons_True by done. fold (positions t (S r) (m - S r)).
    rewrite positions_none by (intros; apply Hhi; lia). done.
  - rewrite decide_False by lia. by rewrite positions_none by (intros; apply Hnone; lia).
Qed.

Lemma decrement_spec m :
  m ≤ n → ∃ r, last_before t m n r ∧
    decrement b (Some m) = Ok (if decide (r < m) then Some r else None).
Proof using Hok.
  intros Hm. destruct (s_last_spec b (Some m) Hok Hm) as (r & Hrun & Hr). exists r.
  split; [done|]. unfold decrement. rewrite Hrun. cbn [mbind outcome_bind].
  destruct Hr as [(? & _)|[-> _]].
  - by rewrite (proj2 (Nat.eqb_neq r n)), decide_True by lia.
  - by rewrite Nat.eqb_refl, decide_False by lia.
Qed.

Lemma backward_spec fuel m r out :
  last_before t m n r → m ≤ n → m ≤ fuel →
  backward fuel b (if decide (r < m) then Some r else None) out =
    Ok (out ++ reverse (positions t 0 m)).
Proof using Hok.
  revert m r out. induction fuel as [|fuel IH]; intros m r out Hr Hm Hf;
    rewrite (positions_last m r Hm Hr).
  - rewrite !decide_False by lia. cbn. by rewrite app_nil_r.
  - case_decide as Hlt; cbn [backward]; [|by rewrite app_nil_r].
    destruct (decrement_spec r) as (r' & Hr' & ->); [lia|]. cbn [mbind outcome_bind].
    rewrite (IH r r') by (done || lia). by rewrite <- app_assoc.
Qed.

End iterator.

(** ** Sequences *)

Record TupleIdSequence := mkTupleIdSequence { internal_bitvector_ : BitVector }.

(** Runs an update of the bit vector. *)
Definition on_bitvector (s : TupleIdSequence) (r : outcome BitVector) : outcome TupleIdSequence :=
  bv ← r; Ok (mkTupleIdSequence bv).

Definition new_TupleIdSequence (length : nat) (garbage : list Z) : outcome TupleIdSequence :=
  bv ← new_BitVector false length garbage; Ok (mkTupleIdSequence bv).

(** The constructor that takes the bits of a vector that may be longer. *)
Definition TupleIdSequence_from (length : nat) (garbage : list Z) (bit_vector : BitVector)
  : outcome TupleIdSequence :=
  bv ← new_BitVector false length garbage;
  bv ← assignFromLonger bv bit_vector;
  Ok (mkTupleIdSequence bv).

Definition set (tuple : nat) (on : bool) (s : TupleIdSequence) : outcome TupleIdSequence :=
  on_bitvector s (setBit tuple on (internal_bitvector_ s)).
Definition set_on (tuple : nat) (s : TupleIdSequence) : outcome TupleIdSequence :=
  on_bitvector s (setBit_on tuple (internal_bitvector_ s)).
Definition setRange (first_tuple num_tuples : nat) (on : bool) (s : TupleIdSequence)
  : outcome TupleIdSequence :=
  if 0 <? num_tuples
  then on_bitvector s (setBitRange first_tuple num_tuples on (internal_bitvector_ s))
  else Ok s.
Definition setWord (word_id : nat) (word_value : Z) (s : TupleIdSequence)
  : outcome TupleIdSequence :=
  on_bitvector s (setBitWord word_id word_value (internal_bitvector_ s)).
Definition get (tuple : nat) (s : TupleIdSequence) : outcome bool :=
  getBit tuple (internal_bitvector_ s).
Definition getWord (word_id : nat) (s : TupleIdSequence) : outcome Z :=
  getBitWord word_id (internal_bitvector_ s).
Definition empty (s : TupleIdSequence) : outcome bool :=
  a ← any (internal_bitvector_ s); Ok (negb a).
Definition seq_length (s : TupleIdSequence) : nat := BitVector.size (internal_bitvector_ s).
Definition numTuples (s : TupleIdSequence) : outcome nat := onesCount (internal_bitvector_ s).
Definition front (s : TupleIdSequence) : outcome nat := firstOne 0 (internal_bitvector_ s).
Definition back (s : TupleIdSequence) : outcome nat := lastOne None (internal_bitvector_ s).
Definition invert (s : TupleIdSequence) : outcome TupleIdSequence :=
  on_bitvector s (flipBits (internal_bitvector_ s)).
Definition seq_assignFrom (s other : TupleIdSequence) : outcome TupleIdSequence :=
  on_bitvector s (assignFrom (internal_bitvector_ s) (internal_bitvector_ other)).
Definition seq_intersectWith (s other : TupleIdSequence) : outcome TupleIdSequence :=
  on_bitvector s (intersectWith (internal_bitvector_ s) (internal_bitvector_ other)).
Definition intersectWithComplement (s other : TupleIdSequence) : outcome TupleIdSequence :=
  on_bitvector s (unsetFrom (internal_bitvector_ s) (internal_bitvector_ other)).
Definition seq_unionWith (s other : TupleIdSequence) : outcome TupleIdSequence :=
  on_bitvector s (unionWith (internal_bitvector_ s) (internal_bitvector_ other)).

(** The tuples of a sequence, in order. *)
Definition tuples (s : TupleIdSequence) : list nat :=
  let bv := internal_bitvector_ s in positions (lbit (bits bv)) 0 (num_bits_ bv).

Record seq_wf (s : TupleIdSequence) : Prop := {
  sw_bits : bv_wf (internal_bitvector_ s);
  sw_regular : enable_short_version (internal_bitvector_ s) = false;
}.

Lemma elem_of_positions t a n i : i ∈ positions t a n ↔ a ≤ i < a + n ∧ t i = true.
Proof. unfold positions. rewrite list_elem_of_filter, elem_of_seq. tauto. Qed.

Lemma elem_of_tuples s i :
  i ∈ tuples s ↔ lbit (bits (internal_bitvector_ s)) i = true.
Proof.
  unfold tuples. rewrite elem_of_positions. split; [tauto|]. intros Hb. split; [|done].
  destruct (decide (i < num_bits_ (internal_bitvector_ s))); [lia|].
  by rewrite lbit_ge in Hb by (rewrite length_bits; lia).
Qed.

Lemma length_positions_count t n : length (positions t 0 n) = count_true t n.
Proof.
  induction n as [|n IH]; [done|]. rewrite <- Nat.add_1_r at 1.
  rewrite positions_app, length_app, IH. cbn [count_true]. f_equal.
  unfold positions. cbn [seq Nat.add]. destruct (t n) eqn:E.
  - by rewrite filter_cons_True.
  - rewrite filter_cons_False by congruence. done.
Qed.

(** Iteration: from [begin()] to [end()] the iterators of a well-formed
    sequence visit each of its tuples once, in increasing order, and back from
    [end()] to the position before the first in decreasing order; both end
    after as many steps as the sequence is long. [numTuples] counts the tuples,
    [empty] says whether there are any, [front] and [back] are the first and
    the last of them. *)
Lemma iteration_visits s :
  seq_wf s →
  let bv := internal_bitvector_ s in
  (∃ it, begin bv = Ok it ∧ forward (num_bits_ bv) bv it [] = Ok (tuples s)) ∧
  (∃ it, decrement bv (end_ bv) = Ok it ∧
         backward (num_bits_ bv) bv it [] = Ok (reverse (tuples s))) ∧
  numTuples s = Ok (length (tuples s)) ∧
  empty s = Ok (bool_decide (tuples s = [])) ∧
  (∀ i l, tuples s = i :: l → front s = Ok i) ∧
  (∀ i l, tuples s = l ++ [i] → back s = Ok i).
Proof.
  intros [Hwf Hreg] bv. assert (s_ok bv) as Hok by exact Hwf.
  destruct (begin_spec bv Hok) as (r & Hb & Hr).
  destruct (decrement_spec bv Hok (num_bits_ bv) (le_n _)) as (r' & Hr' & Hd).
  split_and!.
  - exists (Some r). split; [done|].
    rewrite (forward_spec bv Hok (num_bits_ bv) 0 r []); [|done|lia|cbn; lia].
    by rewrite Nat.sub_0_r.
  - eexists. split; [exact Hd|].
    by apply (backward_spec bv Hok (num_bits_ bv) (num_bits_ bv) r' []).
  - unfold numTuples, tuples. fold bv. rewrite onesCount_spec by done. f_equal.
    by rewrite length_positions_count, (count_true_bits bv).
  - unfold empty. fold bv. rewrite any_spec by done. cbn. f_equal. apply eq_true_iff_eq.
    rewrite negb_true_iff, bool_decide_eq_true, <- not_true_iff_false, existsb_id_lbit.
    split.
    + intros Hno. destruct (tuples s) as [|i l] eqn:E; [done|]. destruct Hno. exists i.
      apply elem_of_tuples. rewrite E. by left.
    + intros He [i Hi]. apply elem_of_tuples in Hi. rewrite He in Hi. by apply elem_of_nil in Hi.
  - intros i l Ht. pose proof (positions_step bv 0 (num_bits_ bv) r Hr eq_refl) as Hpos.
    change (s_bit bv) with (lbit (bits bv)) in Hpos. unfold tuples in Ht. fold bv in Ht.
    rewrite Ht in Hpos. unfold front. fold bv.
    apply bind_Ok in Hb as (r1 & Hrun & [= <-]). change (s_first 0 bv) with (firstOne 0 bv) in Hrun.
    rewrite Hrun. by case_decide; simplify_eq.
  - intros i l Ht. unfold back. fold bv.
    destruct (lastOne_spec bv None Hwf (le_n _)) as (r1 & -> & Hr1).
    pose proof (positions_last bv (num_bits_ bv) r1 (le_n _) Hr1) as Hpos.
    unfold tuples in Ht. fold bv in Ht. change (s_bit bv) with (lbit (bits bv)) in Hpos.
    rewrite Ht, reverse_snoc in Hpos. by case_decide; simplify_eq.
Qed.

(** After [invert], [intersectWith],
    [intersectWithComplement] and [unionWith] of well-formed sequences of one
    length, the tuples are those of the complement, the intersection, the
    difference and the union; [set] puts one tuple in or out. *)
Lemma set_operations s other :
  seq_wf s → seq_wf other → seq_length other = seq_length s →
  (∃ s', invert s = Ok s' ∧ seq_wf s' ∧
     ∀ i, i ∈ tuples s' ↔ i < seq_length s ∧ i ∉ tuples s) ∧
  (∃ s', seq_intersectWith s other = Ok s' ∧ seq_wf s' ∧
     ∀ i, i ∈ tuples s' ↔ i ∈ tuples s ∧ i ∈ tuples other) ∧
  (∃ s', intersectWithComplement s other = Ok s' ∧ seq_wf s' ∧
     ∀ i, i ∈ tuples s' ↔ i ∈ tuples s ∧ i ∉ tuples other) ∧
  (∃ s', seq_unionWith s other = Ok s' ∧ seq_wf s' ∧
     ∀ i, i ∈ tuples s' ↔ i ∈ tuples s ∨ i ∈ tuples other) ∧
  (∀ k on, k < seq_length s → ∃ s', set k on s = Ok s' ∧ seq_wf s' ∧
     ∀ i, i ∈ tuples s' ↔ if decide (i = k) then on = true else i ∈ tuples s).
Proof.
  intros [Hwf Hreg] [Hwf' Hreg'] Hlen. unfold seq_length, BitVector.size in *.
  set (bv := internal_bitvector_ s) in *. set (bw := internal_bitvector_ other) in *.
  assert (length (bits bv) = length (bits bw)) as Hl by by rewrite !length_bits.
  assert (∀ r l (P : nat → Prop), implements r bv l → (∀ i, lbit l i = true ↔ P i) →
    ∃ s', on_bitvector s r = Ok s' ∧ seq_wf s' ∧ ∀ i, i ∈ tuples s' ↔ P i) as Hdone.
  { intros r l P (bv' & -> & Hwf1 & <- & _ & He) HP. eexists; split; [done|].
    split; [by split; [|cbn; congruence]|]. intros i. by rewrite elem_of_tuples, <- HP. }
  split_and!.
  - eapply Hdone; [by apply flipBits_spec|]. intros i. rewrite lbit_negb, length_bits.
    rewrite elem_of_tuples, andb_true_iff, bool_decide_eq_true, negb_true_iff, not_true_iff_false.
    done.
  - eapply Hdone; [apply (combine_with_spec Z.land andb); fold bw; try congruence; auto using land_words_ok, wbit_land|].
    intros i. by rewrite lbit_zip_with, andb_true_iff, !elem_of_tuples.
  - eapply Hdone; [by apply unsetFrom_spec|]. intros i. rewrite lbit_imap, length_bits.
    rewrite !elem_of_tuples, !andb_true_iff, negb_true_iff, not_true_iff_false, bool_decide_eq_true.
    split; [tauto|]. intros [H1 H2]. split_and!; [|done|done].
    destruct (decide (i < num_bits_ bv)); [done|].
    fold bv in H1. by rewrite lbit_ge in H1 by (rewrite length_bits; lia).
  - eapply Hdone; [apply (combine_with_spec Z.lor orb); fold bw; try congruence; auto using lor_ok, wbit_lor|].
    intros i. by rewrite lbit_zip_with, orb_true_iff, !elem_of_tuples.
  - intros k on Hk. eapply Hdone; [by apply setBit_spec|]. intros i.
    rewrite lbit_insert, length_bits. repeat case_decide; try done || lia.
    by rewrite elem_of_tuples.
Qed.

(** C11. A well-formed sequence is a set of tuples.  From [begin()] to [end()]
    its iterators visit each tuple once, in increasing order, and back from
    [end()] in decreasing order, both within as many steps as the sequence is
    long; [numTuples] counts the tuples, [empty] says whether there are any,
    [front] and [back] are the first and the last.  After [invert],
    [intersectWith], [intersectWithComplement] and [unionWith] of sequences of
    one length the tuples are those of the complement, the intersection, the
    difference and the union; [set] puts one tuple in or out. *)
Theorem sequences_are_sets s other :
  seq_wf s → seq_wf other → seq_length other = seq_length s →
  let bv := internal_bitvector_ s in
  (∃ it, begin bv = Ok it ∧ forward (num_bits_ bv) bv it [] = Ok (tuples s)) ∧
  (∃ it, decrement bv (end_ bv) = Ok it ∧
         backward (num_bits_ bv) bv it [] = Ok (reverse (tuples s))) ∧
  numTuples s = Ok (length (tuples s)) ∧
  empty s = Ok (bool_decide (tuples s = [])) ∧
  (∀ i l, tuples s = i :: l → front s = Ok i) ∧
  (∀ i l, tuples s = l ++ [i] → back s = Ok i) ∧
  (∃ s', invert s = Ok s' ∧ seq_wf s' ∧
     ∀ i, i ∈ tuples s' ↔ i < seq_length s ∧ i ∉ tuples s) ∧
  (∃ s', seq_intersectWith s other = Ok s' ∧ seq_wf s' ∧
     ∀ i, i ∈ tuples s' ↔ i ∈ tuples s ∧ i ∈ tuples other) ∧
  (∃ s', intersectWithComplement s other = Ok s' ∧ seq_wf s' ∧
     ∀ i, i ∈ tuples s' ↔ i ∈ tuples s ∧ i ∉ tuples other) ∧
  (∃ s', seq_unionWith s other = Ok s' ∧ seq_wf s' ∧
     ∀ i, i ∈ tuples s' ↔ i ∈ tuples s ∨ i ∈ tuples other) ∧
  (∀ k on, k < seq_length s → ∃ s', set k on s = Ok s' ∧ seq_wf s' ∧
     ∀ i, i ∈ tuples s' ↔ if decide (i = k) then on = true else i ∈ tuples s).
Proof.
  intros Hs Ho Hl bv.
  destruct (iteration_visits s Hs) as (? & ? & ? & ? & ? & ?).
  destruct (set_operations s other Hs Ho Hl) as (? & ? & ? & ? & ?).
  refine (conj _ (conj _ (conj _ (conj _ (conj _ (conj _ (conj _ (conj _ (conj _ (conj _ _))))))))));
    assumption.
Qed.

(** ** Witnesses *)

Definition seq_123 : TupleIdSequence := mkTupleIdSequence (mkBitVector false 6 [(2 ^ 62 + 2 ^ 61 + 2 ^ 60)%Z]).
Definition seq_35 : TupleIdSequence := mkTupleIdSequence (mkBitVector false 6 [(2 ^ 60 + 2 ^ 58)%Z]).

Lemma seq_123_wf : seq_wf seq_123.
Proof. split; [apply bv_check_wf; vm_compute; reflexivity|reflexivity]. Qed.
Lemma seq_35_wf : seq_wf seq_35.
Proof. split; [apply bv_check_wf; vm_compute; reflexivity|reflexivity]. Qed.

Lemma sequences_are_sets_witness :
  numTuples seq_123 = Ok 3 ∧ front seq_123 = Ok 1 ∧ back seq_123 = Ok 3 ∧
  ∃ s', seq_intersectWith seq_123 seq_35 = Ok s' ∧ tuples s' = [3] ∧
    ∀ i, i ∈ tuples s' ↔ i ∈ tuples seq_123 ∧ i ∈ tuples seq_35.
Proof.
  destruct (sequences_are_sets seq_123 seq_35 seq_123_wf seq_35_wf eq_refl)
    as (_ & _ & Hn & _ & Hf & Hb & _ & (s' & Hs & _ & Hi) & _).
  rewrite Hn. split; [vm_compute; reflexivity|]. split; [|split].
  - apply (Hf 1 [2; 3]). vm_compute. reflexivity.
  - apply (Hb 3 [1; 2]). vm_compute. reflexivity.
  - exists s'. split; [exact Hs|]. split; [|exact Hi].
    assert (seq_intersectWith seq_123 seq_35 =
      Ok (mkTupleIdSequence (mkBitVector false 6 [(2 ^ 60)%Z]))) as Heq by (vm_compute; reflexivity).
    rewrite Heq in Hs. injection Hs as <-. vm_compute. reflexivity.
Defined.

(** * Sequences of tuple ids, for their clients

    What code that evaluates predicates uses of [TupleIdSequence]: a sequence
    of a length holds exactly the tuples of a set, and its member functions act
    on the set and keep the length.  A new sequence is allocated on the heap,
    whose contents its constructor overwrites. *)

(** The words that are found in memory allocated for a sequence. *)
Class HeapMemory := {
  heap_words : nat → list Z;
  heap_words_length n : length (heap_words n) = storage_words false n;
}.

Definition zero_heap : HeapMemory.
Proof.
  refine {| heap_words n := replicate (storage_words false n) 0%Z |}.
  intros n. apply length_replicate.
Defined.

(** [new TupleIdSequence(length)] *)
Definition new_sequence `{!HeapMemory} (length : nat) : outcome TupleIdSequence :=
  new_TupleIdSequence length (heap_words length).

(** The positions that an iteration visits, from the one before the first on. *)
Definition visit (s : TupleIdSequence) : outcome (list nat) :=
  let bv := internal_bitvector_ s in
  it ← increment bv before_begin;
  forward (seq_length s) bv it [].

Definition holds_exactly (s : TupleIdSequence) (n : nat) (P : nat → Prop) : Prop :=
  seq_wf s ∧ seq_length s = n ∧ ∀ i, i ∈ tuples s ↔ P i.

Lemma holds_ext s n P Q : holds_exactly s n P → (∀ i, P i ↔ Q i) → holds_exactly s n Q.
Proof. intros (Hw & Hl & Hi) HPQ. split_and!; [done|done|]. intros i. by rewrite Hi. Qed.

Lemma holds_lt s n P i : holds_exactly s n P → P i → i < n.
Proof.
  intros (_ & <- & Hi) HP. apply Hi in HP. unfold tuples in HP.
  apply elem_of_positions in HP. unfold seq_length, size. lia.
Qed.

(** From the contract of the bit vector. *)
Lemma holds_update s n P r l (Q : nat → Prop) :
  holds_exactly s n P → implements r (internal_bitvector_ s) l →
  (∀ i, lbit l i = true ↔ Q i) →
  ∃ s', on_bitvector s r = Ok s' ∧ holds_exactly s' n Q.
Proof.
  intros ([_ Hreg] & Hn & _) (bv' & -> & Hwf & <- & Hl & He) HQ. eexists. split; [done|].
  split_and!.
  - split; cbn; [done|congruence].
  - rewrite <- Hn. unfold seq_length, size. cbn. done.
  - intros i. by rewrite elem_of_tuples, <- HQ.
Qed.

Lemma lbit_replicate_false n i : lbit (replicate n false) i = false.
Proof.
  unfold lbit. destruct (replicate n false !! i) as [b|] eqn:E; [|done].
  by apply lookup_replicate in E as [-> _].
Qed.

Section sequences.
Context `{!HeapMemory}.

Lemma new_sequence_spec n : ∃ s, new_sequence n = Ok s ∧ holds_exactly s n (λ _, False).
Proof.
  unfold new_sequence, new_TupleIdSequence, new_BitVector.
  destruct (clear_spec (mkBitVector false n (heap_words n)) (heap_words_length n))
    as (bv & -> & Hwf & Hb & Hn & He). eexists. split; [done|]. split_and!.
  - by split.
  - done.
  - intros i. rewrite elem_of_tuples. cbn. rewrite Hb, lbit_replicate_false. done.
Qed.

Lemma holds_set s n P k on :
  holds_exactly s n P → k < n →
  ∃ s', set k on s = Ok s' ∧
    holds_exactly s' n (λ i, if decide (i = k) then on = true else P i).
Proof.
  intros Hs Hk. pose proof Hs as ([Hwf _] & Hn & Hi). unfold seq_length, size in Hn.
  eapply holds_update; [done|apply setBit_spec; [done|lia]|]. intros i.
  rewrite lbit_insert, length_bits, Hn. cbn beta.
  repeat case_decide; try done || lia. by rewrite <- Hi, elem_of_tuples.
Qed.

Lemma holds_get s n P k :
  holds_exactly s n P → k < n → ∃ b, get k s = Ok b ∧ (b = true ↔ P k).
Proof.
  intros ([Hwf _] & Hn & Hi) Hk. unfold seq_length, size in Hn. unfold get.
  rewrite getBit_spec by (done || lia). eexists. split; [done|]. by rewrite <- Hi, elem_of_tuples.
Qed.

Lemma holds_intersect s o n P Q :
  holds_exactly s n P → holds_exactly o n Q →
  ∃ s', seq_intersectWith s o = Ok s' ∧ holds_exactly s' n (λ i, P i ∧ Q i).
Proof.
  intros Hs ([Hwo Hro] & Hno & Ho). pose proof Hs as ([Hwf Hreg] & Hn & Hi).
  unfold seq_length, size in *. eapply holds_update; [done| |].
  - apply (combine_with_spec Z.land andb); try congruence; auto using land_words_ok, wbit_land.
  - intros i. rewrite lbit_zip_with by (done || (rewrite !length_bits; congruence)).
    by rewrite andb_true_iff, <- Hi, <- Ho, !elem_of_tuples.
Qed.

Lemma holds_union s o n P Q :
  holds_exactly s n P → holds_exactly o n Q →
  ∃ s', seq_unionWith s o = Ok s' ∧ holds_exactly s' n (λ i, P i ∨ Q i).
Proof.
  intros Hs ([Hwo Hro] & Hno & Ho). pose proof Hs as ([Hwf Hreg] & Hn & Hi).
  unfold seq_length, size in *. eapply holds_update; [done| |].
  - apply (combine_with_spec Z.lor orb); try congruence; auto using lor_ok, wbit_lor.
  - intros i. rewrite lbit_zip_with by (done || (rewrite !length_bits; congruence)).
    by rewrite orb_true_iff, <- Hi, <- Ho, !elem_of_tuples.
Qed.

Lemma holds_invert s n P :
  holds_exactly s n P →
  ∃ s', invert s = Ok s' ∧ holds_exactly s' n (λ i, i < n ∧ ¬ P i).
Proof.
  intros Hs. pose proof Hs as ([Hwf Hreg] & Hn & Hi). unfold seq_length, size in Hn.
  eapply holds_update; [done|by apply flipBits_spec|]. intros i.
  rewrite lbit_negb, length_bits, Hn, andb_true_iff, bool_decide_eq_true, negb_true_iff.
  by rewrite <- Hi, elem_of_tuples, not_true_iff_false.
Qed.

Lemma holds_difference s o n P Q :
  holds_exactly s n P → holds_exactly o n Q →
  ∃ s', intersectWithComplement s o = Ok s' ∧ holds_exactly s' n (λ i, P i ∧ ¬ Q i).
Proof.
  intros Hs ([Hwo Hro] & Hno & Ho). pose proof Hs as ([Hwf Hreg] & Hn & Hi).
  unfold seq_length, size in *. eapply holds_update; [done|apply unsetFrom_spec; congruence|].
  intros i. rewrite lbit_imap, length_bits.
  rewrite !andb_true_iff, negb_true_iff, bool_decide_eq_true, <- Hi, <- Ho, !elem_of_tuples.
  rewrite not_true_iff_false. split; [tauto|]. intros [H1 H2]. split_and!; [|done|done].
  destruct (decide (i < num_bits_ (internal_bitvector_ s))); [done|].
  by rewrite lbit_ge in H1 by (rewrite length_bits; lia).
Qed.

Lemma holds_assign s o n P Q :
  holds_exactly s n P → holds_exactly o n Q →
  ∃ s', seq_assignFrom s o = Ok s' ∧ holds_exactly s' n Q.
Proof.
  intros Hs ([Hwo Hro] & Hno & Ho). pose proof Hs as ([Hwf Hreg] & Hn & Hi).
  unfold seq_length, size in *. eapply holds_update; [done|apply assignFrom_spec; congruence|].
  intros i. by rewrite <- Ho, elem_of_tuples.
Qed.

(** Setting all the tuples: where the length is a multiple of the width of a
    word, the word after the array is touched. *)
Lemma holds_set_all s n P :
  holds_exactly s n P →
  if decide (n mod 64 = 0 ∧ 0 < n) then setRange 0 n true s = Err UndefinedBehaviour
  else ∃ s', setRange 0 n true s = Ok s' ∧ holds_exactly s' n (λ i, i < n).
Proof.
  intros Hs. pose proof Hs as ([Hwf Hreg] & Hn & Hi). unfold seq_length, size in Hn.
  unfold setRange. destruct (Nat.ltb_spec 0 n) as [Hpos|Hz].
  - pose proof (setBitRange_spec (internal_bitvector_ s) 0 n true Hwf) as Hset.
    rewrite Hn in Hset. specialize (Hset Hpos (le_n _)).
    assert (short_version_ (internal_bitvector_ s) = false) as Hsv
      by (unfold short_version_; by rewrite Hreg).
    destruct (decide (range_past_end _ _ _)) as [(_ & _ & Hm & _)|Hp].
    + rewrite Hn in Hm. rewrite decide_True by done. unfold on_bitvector. by rewrite Hset.
    + rewrite decide_False by (intros [? _]; apply Hp; split_and!; [done|lia|congruence|left; done]).
      eapply holds_update; [done|done|]. intros i.
      rewrite lbit_set_range by (rewrite length_bits; lia). case_decide; [lia|].
      rewrite lbit_ge by (rewrite length_bits; lia). split; [done|lia].
  - rewrite decide_False by lia. exists s. split; [done|]. eapply holds_ext; [done|].
    intros i. split; [intros HP; by eapply holds_lt|lia].
Qed.

Lemma holds_empty s n P :
  holds_exactly s n P → ∃ b, empty s = Ok b ∧ (b = true ↔ ∀ i, ¬ P i).
Proof.
  intros (Hwf & Hn & Hi). destruct (iteration_visits s Hwf) as (_ & _ & _ & He & _).
  rewrite He. eexists. split; [done|]. rewrite bool_decide_eq_true. split.
  - intros Ht i HP. apply Hi in HP. rewrite Ht in HP. by apply elem_of_nil in HP.
  - intros Hno. destruct (tuples s) as [|i l] eqn:E; [done|]. destruct (Hno i).
    apply Hi. left.
Qed.

Lemma tuples_NoDup s : NoDup (tuples s).
Proof. unfold tuples, positions. apply NoDup_filter, NoDup_seq. Qed.

Lemma tuples_sorted s : StronglySorted lt (tuples s).
Proof.
  unfold tuples, positions. generalize 0. induction (num_bits_ _) as [|n IH]; intros a; cbn [seq].
  - rewrite filter_nil. constructor.
  - rewrite filter_cons. case_decide; [|apply IH]. constructor; [apply IH|].
    apply Forall_forall. intros i [_ [? _]%elem_of_seq]%list_elem_of_filter. lia.
Qed.

Lemma visit_tuples s : seq_wf s → visit s = Ok (tuples s).
Proof.
  intros Hwf. destruct (iteration_visits s Hwf) as ((it & Hb & Hf) & _). unfold visit.
  assert (increment (internal_bitvector_ s) before_begin = Ok it) as ->; [|exact Hf].
  unfold increment, before_begin. destruct (Nat.ltb_spec 0 (s_size (internal_bitvector_ s))) as [Hp|Hp].
  - exact Hb.
  - unfold begin in Hb. rewrite s_first_empty in Hb; [|apply Hwf|lia]. injection Hb as <-.
    do 2 f_equal. lia.
Qed.
End sequences.
