(* ===== verification/WorkOrdersContainer.v ===== *)
(** * Pending work orders: selection policies and the container

    Models query_execution/WorkOrderSelectionPolicy.hpp and
    query_execution/WorkOrdersContainer.{hpp,cpp}. *)

From S2P Require Import Prelude.
From stdpp Require Import options.

(** * Work order selection policies

    Models query_execution/WorkOrderSelectionPolicy.hpp.  The abstract class
    is the type class [WorkOrderSelectionPolicy], its two final subclasses are
    the types [FifoWorkOrderSelectionPolicy] (a [std::queue]) and
    [LifoWorkOrderSelectionPolicy] (a [std::stack]).  [PolicyLaws] states what
    a client may rely on whichever policy it uses: the policy is a bag of
    operator indices. *)

Class WorkOrderSelectionPolicy (P : Type) := {
  policy_hasWorkOrder : P → bool;
  policy_addWorkOrder : nat → P → P;
  getOperatorIndexForNextWorkOrder : P → outcome (nat * P);
}.

(** ** First in, first out: the head of the list is the front of the queue. *)

Record FifoWorkOrderSelectionPolicy := Fifo { fifo_work_orders : list nat }.

Definition fifo_hasWorkOrder (p : FifoWorkOrderSelectionPolicy) : bool :=
  match fifo_work_orders p with [] => false | _ => true end.
Definition fifo_addWorkOrder (operator_index : nat)
    (p : FifoWorkOrderSelectionPolicy) : FifoWorkOrderSelectionPolicy :=
  Fifo (fifo_work_orders p ++ [operator_index]).
(** [front] and [pop] of an empty queue are undefined. *)
Definition fifo_next (p : FifoWorkOrderSelectionPolicy)
  : outcome (nat * FifoWorkOrderSelectionPolicy) :=
  match fifo_work_orders p with
  | [] => Err UndefinedBehaviour
  | operator_index :: rest => Ok (operator_index, Fifo rest)
  end.

#[global] Instance fifo_policy :
    WorkOrderSelectionPolicy FifoWorkOrderSelectionPolicy := {|
  policy_hasWorkOrder := fifo_hasWorkOrder;
  policy_addWorkOrder := fifo_addWorkOrder;
  getOperatorIndexForNextWorkOrder := fifo_next;
|}.

(** ** Last in, first out: the head of the list is the top of the stack. *)

Record LifoWorkOrderSelectionPolicy := Lifo { lifo_work_orders : list nat }.

Definition lifo_hasWorkOrder (p : LifoWorkOrderSelectionPolicy) : bool :=
  match lifo_work_orders p with [] => false | _ => true end.
Definition lifo_addWorkOrder (operator_index : nat)
    (p : LifoWorkOrderSelectionPolicy) : LifoWorkOrderSelectionPolicy :=
  Lifo (operator_index :: lifo_work_orders p).
Definition lifo_next (p : LifoWorkOrderSelectionPolicy)
  : outcome (nat * LifoWorkOrderSelectionPolicy) :=
  match lifo_work_orders p with
  | [] => Err UndefinedBehaviour
  | operator_index :: rest => Ok (operator_index, Lifo rest)
  end.

#[global] Instance lifo_policy :
    WorkOrderSelectionPolicy LifoWorkOrderSelectionPolicy := {|
  policy_hasWorkOrder := lifo_hasWorkOrder;
  policy_addWorkOrder := lifo_addWorkOrder;
  getOperatorIndexForNextWorkOrder := lifo_next;
|}.

(** ** What a client relies on *)

Class PolicyLaws (P : Type) `{WorkOrderSelectionPolicy P} := {
  policy_contents : P → list nat;
  policy_has p : policy_hasWorkOrder p = true ↔ policy_contents p ≠ [];
  policy_add i p :
    policy_contents (policy_addWorkOrder i p) ≡ₚ i :: policy_contents p;
  policy_next p : policy_contents p ≠ [] →
    ∃ i p', getOperatorIndexForNextWorkOrder p = Ok (i, p') ∧
      policy_contents p ≡ₚ i :: policy_contents p';
}.

#[global] Instance fifo_laws : PolicyLaws FifoWorkOrderSelectionPolicy.
Proof.
  refine {| policy_contents := fifo_work_orders |}.
  - intros [[|i l]]; cbn; naive_solver.
  - intros i [l]; cbn. by rewrite Permutation_app_comm.
  - intros [[|i l]]; cbn; [done|]. by eexists _, _.
Defined.

#[global] Instance lifo_laws : PolicyLaws LifoWorkOrderSelectionPolicy.
Proof.
  refine {| policy_contents := lifo_work_orders |}.
  - intros [[|i l]]; cbn; naive_solver.
  - done.
  - intros [[|i l]]; cbn; [done|]. by eexists _, _.
Defined.

(** * The container of pending work orders

    Models query_execution/WorkOrdersContainer.{hpp,cpp}: per operator a queue
    of work orders without a preferred NUMA node, a queue per NUMA node for
    those with exactly one, a list for those with several; one such container
    for normal and one for rebuild work orders; and the two policies that
    choose the operator whose work order is handed out next.

    A work order is any type with [getPreferredNUMANodes]
    (relational_operators/WorkOrder.hpp; its subclasses differ only in what a
    worker executes).  A null pointer is [None].  NUMA node ids are [int]s: one
    outside the vector of queues makes the index undefined. *)

Class WorkOrder (W : Type) := { getPreferredNUMANodes : W → list Z }.

(** [v[i]] where [i] is an [int] converted to an unsigned index. *)
Definition int_index {A} (v : list A) (i : Z) : outcome A :=
  if decide (0 ≤ i)%Z then vec_at v (Z.to_nat i) else Err UndefinedBehaviour.

Section containers.
Context {W : Type} `{!WorkOrder W}.

(** ** [InternalQueueContainer]: the head of the list is the front. *)

Definition queue_addWorkOrder (workorder : W) (q : list W) : list W :=
  q ++ [workorder].
Definition queue_getWorkOrder (q : list W) : option W * list W :=
  match q with
  | [] => (None, [])
  | work_order :: rest => (Some work_order, rest)
  end.
Definition queue_hasWorkOrder (q : list W) : bool :=
  match q with [] => false | _ => true end.
Definition queue_getNumWorkOrders (q : list W) : nat := length q.

(** ** [InternalListContainer] *)

Definition list_addWorkOrder (workorder : W) (l : list W) : list W :=
  l ++ [workorder].
Definition list_getWorkOrder (l : list W) : option W * list W :=
  match l with
  | [] => (None, [])
  | work_order :: rest => (Some work_order, rest)
  end.
Definition list_hasWorkOrder (l : list W) : bool :=
  match l with [] => false | _ => true end.
Definition list_getNumWorkOrders (l : list W) : nat := length l.

(** The test of the three loops: the list of preferred nodes is not empty and
    [std::find] finds [numa_node] in it. *)
Definition lists_numa_node (numa_node : Z) (w : W) : bool :=
  match getPreferredNUMANodes w with
  | [] => false
  | numa_nodes => existsb (Z.eqb numa_node) numa_nodes
  end.

Fixpoint list_getWorkOrderForNUMANode (numa_node : Z) (l : list W)
  : option W * list W :=
  match l with
  | [] => (None, [])
  | w :: rest =>
      if lists_numa_node numa_node w then (Some w, rest)
      else let '(o, rest') := list_getWorkOrderForNUMANode numa_node rest in
           (o, w :: rest')
  end.
Fixpoint list_getNumWorkOrdersForNUMANode (numa_node : Z) (l : list W) : nat :=
  match l with
  | [] => 0
  | w :: rest =>
      (if lists_numa_node numa_node w then 1 else 0) +
      list_getNumWorkOrdersForNUMANode numa_node rest
  end.
Fixpoint list_hasWorkOrderForNUMANode (numa_node : Z) (l : list W) : bool :=
  match l with
  | [] => false
  | w :: rest =>
      if lists_numa_node numa_node w then true
      else list_hasWorkOrderForNUMANode numa_node rest
  end.

(** ** [OperatorWorkOrdersContainer] *)

Record OperatorWorkOrdersContainer := {
  op_num_numa_nodes : nat;
  numa_agnostic_workorders : list W;
  single_numa_node_workorders : list (list W);
  multiple_numa_nodes_workorders : list W;
}.

Definition new_OperatorWorkOrdersContainer (num_numa_nodes : nat)
  : OperatorWorkOrdersContainer := {|
  op_num_numa_nodes := num_numa_nodes;
  numa_agnostic_workorders := [];
  single_numa_node_workorders := replicate num_numa_nodes [];
  multiple_numa_nodes_workorders := [];
|}.

Definition set_agnostic (q : list W) (c : OperatorWorkOrdersContainer) := {|
  op_num_numa_nodes := op_num_numa_nodes c;
  numa_agnostic_workorders := q;
  single_numa_node_workorders := single_numa_node_workorders c;
  multiple_numa_nodes_workorders := multiple_numa_nodes_workorders c;
|}.
Definition set_single (v : list (list W)) (c : OperatorWorkOrdersContainer) := {|
  op_num_numa_nodes := op_num_numa_nodes c;
  numa_agnostic_workorders := numa_agnostic_workorders c;
  single_numa_node_workorders := v;
  multiple_numa_nodes_workorders := multiple_numa_nodes_workorders c;
|}.
Definition set_multiple (l : list W) (c : OperatorWorkOrdersContainer) := {|
  op_num_numa_nodes := op_num_numa_nodes c;
  numa_agnostic_workorders := numa_agnostic_workorders c;
  single_numa_node_workorders := single_numa_node_workorders c;
  multiple_numa_nodes_workorders := l;
|}.

Definition op_addWorkOrder (workorder : W) (c : OperatorWorkOrdersContainer)
  : outcome OperatorWorkOrdersContainer :=
  match getPreferredNUMANodes workorder with
  | [] =>
      Ok (set_agnostic
            (queue_addWorkOrder workorder (numa_agnostic_workorders c)) c)
  | [numa_node] =>
      q ← int_index (single_numa_node_workorders c) numa_node;
      Ok (set_single
            (<[Z.to_nat numa_node := queue_addWorkOrder workorder q]>
               (single_numa_node_workorders c)) c)
  | _ =>
      Ok (set_multiple
            (list_addWorkOrder workorder (multiple_numa_nodes_workorders c)) c)
  end.

Definition op_hasWorkOrderForNUMANode (numa_node_id : Z)
    (c : OperatorWorkOrdersContainer) : outcome bool :=
  q ← int_index (single_numa_node_workorders c) numa_node_id;
  Ok (queue_hasWorkOrder q ||
      list_hasWorkOrderForNUMANode numa_node_id
        (multiple_numa_nodes_workorders c)).

(** The loop over the nodes [i], [i + 1], ... of [hasWorkOrder]; [n] of them
    are left. *)
Fixpoint op_has_loop (c : OperatorWorkOrdersContainer) (i n : nat)
  : outcome bool :=
  match n with
  | 0 => Ok false
  | S n' =>
      b ← op_hasWorkOrderForNUMANode (Z.of_nat i) c;
      if (b : bool) then Ok true else op_has_loop c (S i) n'
  end.
Definition op_hasWorkOrder (c : OperatorWorkOrdersContainer) : outcome bool :=
  if negb (queue_hasWorkOrder (numa_agnostic_workorders c) ||
           list_hasWorkOrder (multiple_numa_nodes_workorders c))
  then op_has_loop c 0 (op_num_numa_nodes c)
  else Ok true.

Definition op_getNumWorkOrdersForNUMANode (numa_node_id : Z)
    (c : OperatorWorkOrdersContainer) : outcome nat :=
  q ← int_index (single_numa_node_workorders c) numa_node_id;
  Ok (queue_getNumWorkOrders q +
      list_getNumWorkOrdersForNUMANode numa_node_id
        (multiple_numa_nodes_workorders c)).

Definition op_getNumWorkOrders (c : OperatorWorkOrdersContainer) : nat :=
  foldl (λ num_workorders q, num_workorders + queue_getNumWorkOrders q)
    (queue_getNumWorkOrders (numa_agnostic_workorders c))
    (single_numa_node_workorders c) +
  list_getNumWorkOrders (multiple_numa_nodes_workorders c).

Definition op_getWorkOrderForNUMANode (numa_node_id : Z)
    (c : OperatorWorkOrdersContainer)
  : outcome (option W * OperatorWorkOrdersContainer) :=
  q ← int_index (single_numa_node_workorders c) numa_node_id;
  match queue_getWorkOrder q with
  | (Some work_order, q') =>
      Ok (Some work_order,
          set_single (<[Z.to_nat numa_node_id := q']>
                        (single_numa_node_workorders c)) c)
  | (None, _) =>
      let '(o, l) := list_getWorkOrderForNUMANode numa_node_id
                       (multiple_numa_nodes_workorders c) in
      Ok (o, set_multiple l c)
  end.

Fixpoint single_helper (v : list (list W)) : option W * list (list W) :=
  match v with
  | [] => (None, [])
  | q :: rest =>
      match queue_getWorkOrder q with
      | (Some workorder, q') => (Some workorder, q' :: rest)
      | (None, q') =>
          let '(o, rest') := single_helper rest in (o, q' :: rest')
      end
  end.
Definition getSingleNUMANodeWorkOrderHelper (c : OperatorWorkOrdersContainer)
  : option W * OperatorWorkOrdersContainer :=
  let '(o, v) := single_helper (single_numa_node_workorders c) in
  (o, set_single v c).

Definition get_multiple (c : OperatorWorkOrdersContainer)
  : option W * OperatorWorkOrdersContainer :=
  let '(o, l) := list_getWorkOrder (multiple_numa_nodes_workorders c) in
  (o, set_multiple l c).

Definition op_getWorkOrder (prefer_single_NUMA_node : bool)
    (c : OperatorWorkOrdersContainer)
  : option W * OperatorWorkOrdersContainer :=
  match queue_getWorkOrder (numa_agnostic_workorders c) with
  | (Some workorder, q) => (Some workorder, set_agnostic q c)
  | (None, _) =>
      if prefer_single_NUMA_node then
        match getSingleNUMANodeWorkOrderHelper c with
        | (Some workorder, c') => (Some workorder, c')
        | (None, c') => get_multiple c'
        end
      else
        match get_multiple c with
        | (Some workorder, c') => (Some workorder, c')
        | (None, c') => getSingleNUMANodeWorkOrderHelper c'
        end
  end.

(** ** [WorkOrdersContainer] *)

Record WorkOrdersContainer := {
  num_operators : nat;
  num_numa_nodes : nat;
  normal_workorders : list OperatorWorkOrdersContainer;
  rebuild_workorders : list OperatorWorkOrdersContainer;
  normal_work_orders_policy : LifoWorkOrderSelectionPolicy;
  rebuild_work_orders_policy : FifoWorkOrderSelectionPolicy;
}.

Definition new_WorkOrdersContainer (num_operators num_numa_nodes : nat)
  : WorkOrdersContainer := {|
  num_operators := num_operators;
  num_numa_nodes := num_numa_nodes;
  normal_workorders :=
    replicate num_operators (new_OperatorWorkOrdersContainer num_numa_nodes);
  rebuild_workorders :=
    replicate num_operators (new_OperatorWorkOrdersContainer num_numa_nodes);
  normal_work_orders_policy := Lifo [];
  rebuild_work_orders_policy := Fifo [];
|}.

Definition set_normal (v : list OperatorWorkOrdersContainer)
    (p : LifoWorkOrderSelectionPolicy) (s : WorkOrdersContainer) := {|
  num_operators := num_operators s;
  num_numa_nodes := num_numa_nodes s;
  normal_workorders := v;
  rebuild_workorders := rebuild_workorders s;
  normal_work_orders_policy := p;
  rebuild_work_orders_policy := rebuild_work_orders_policy s;
|}.
Definition set_rebuild (v : list OperatorWorkOrdersContainer)
    (p : FifoWorkOrderSelectionPolicy) (s : WorkOrdersContainer) := {|
  num_operators := num_operators s;
  num_numa_nodes := num_numa_nodes s;
  normal_workorders := normal_workorders s;
  rebuild_workorders := v;
  normal_work_orders_policy := normal_work_orders_policy s;
  rebuild_work_orders_policy := p;
|}.

Definition hasNormalWorkOrder (operator_index : nat) (s : WorkOrdersContainer)
  : outcome bool :=
  vec_at (normal_workorders s) operator_index ≫= op_hasWorkOrder.
Definition hasNormalWorkOrderForNUMANode (operator_index : nat)
    (numa_node_id : Z) (s : WorkOrdersContainer) : outcome bool :=
  vec_at (normal_workorders s) operator_index
    ≫= op_hasWorkOrderForNUMANode numa_node_id.
Definition hasRebuildWorkOrder (operator_index : nat) (s : WorkOrdersContainer)
  : outcome bool :=
  vec_at (rebuild_workorders s) operator_index ≫= op_hasWorkOrder.
Definition hasRebuildWorkOrderForNUMANode (operator_index : nat)
    (numa_node_id : Z) (s : WorkOrdersContainer) : outcome bool :=
  vec_at (rebuild_workorders s) operator_index
    ≫= op_hasWorkOrderForNUMANode numa_node_id.

Definition getNumNormalWorkOrdersForNUMANode (operator_index : nat)
    (numa_node_id : Z) (s : WorkOrdersContainer) : outcome nat :=
  vec_at (normal_workorders s) operator_index
    ≫= op_getNumWorkOrdersForNUMANode numa_node_id.
Definition getNumNormalWorkOrders (operator_index : nat)
    (s : WorkOrdersContainer) : outcome nat :=
  op_getNumWorkOrders <$> vec_at (normal_workorders s) operator_index.
Definition getNumRebuildWorkOrdersForNUMANode (operator_index : nat)
    (numa_node_id : Z) (s : WorkOrdersContainer) : outcome nat :=
  vec_at (rebuild_workorders s) operator_index
    ≫= op_getNumWorkOrdersForNUMANode numa_node_id.
Definition getNumRebuildWorkOrders (operator_index : nat)
    (s : WorkOrdersContainer) : outcome nat :=
  op_getNumWorkOrders <$> vec_at (rebuild_workorders s) operator_index.
Definition getNumTotalWorkOrders (operator_index : nat)
    (s : WorkOrdersContainer) : outcome nat :=
  n ← getNumNormalWorkOrders operator_index s;
  r ← getNumRebuildWorkOrders operator_index s;
  Ok (n + r).

Definition getNormalWorkOrderForNUMANode (operator_index : nat)
    (numa_node_id : Z) (s : WorkOrdersContainer)
  : outcome (option W * WorkOrdersContainer) :=
  c ← vec_at (normal_workorders s) operator_index;
  '(o, c') ← op_getWorkOrderForNUMANode numa_node_id c;
  Ok (o, set_normal (<[operator_index := c']> (normal_workorders s))
           (normal_work_orders_policy s) s).
Definition getNormalWorkOrder (operator_index : nat)
    (prefer_single_NUMA_node : bool) (s : WorkOrdersContainer)
  : outcome (option W * WorkOrdersContainer) :=
  c ← vec_at (normal_workorders s) operator_index;
  let '(o, c') := op_getWorkOrder prefer_single_NUMA_node c in
  Ok (o, set_normal (<[operator_index := c']> (normal_workorders s))
           (normal_work_orders_policy s) s).
Definition getRebuildWorkOrderForNUMANode (operator_index : nat)
    (numa_node_id : Z) (s : WorkOrdersContainer)
  : outcome (option W * WorkOrdersContainer) :=
  c ← vec_at (rebuild_workorders s) operator_index;
  '(o, c') ← op_getWorkOrderForNUMANode numa_node_id c;
  Ok (o, set_rebuild (<[operator_index := c']> (rebuild_workorders s))
           (rebuild_work_orders_policy s) s).
Definition getRebuildWorkOrder (operator_index : nat)
    (prefer_single_NUMA_node : bool) (s : WorkOrdersContainer)
  : outcome (option W * WorkOrdersContainer) :=
  c ← vec_at (rebuild_workorders s) operator_index;
  let '(o, c') := op_getWorkOrder prefer_single_NUMA_node c in
  Ok (o, set_rebuild (<[operator_index := c']> (rebuild_workorders s))
           (rebuild_work_orders_policy s) s).

(** The two halves of the container, normal and rebuild, are a vector of
    operator containers and a policy each; these are the statements the two
    [add] functions and the two branches of [getNextWorkOrder] share. *)
Definition half_add {P} `{WorkOrderSelectionPolicy P} (workorder : W)
    (operator_index : nat) (v : list OperatorWorkOrdersContainer) (p : P)
  : outcome (list OperatorWorkOrdersContainer * P) :=
  c ← vec_at v operator_index;
  c' ← op_addWorkOrder workorder c;
  Ok (<[operator_index := c']> v, policy_addWorkOrder operator_index p).
Definition half_next {P} `{WorkOrderSelectionPolicy P}
    (v : list OperatorWorkOrdersContainer) (p : P)
  : outcome (option W * nat * (list OperatorWorkOrdersContainer * P)) :=
  '(operator_index, p') ← getOperatorIndexForNextWorkOrder p;
  c ← vec_at v operator_index;
  let '(o, c') := op_getWorkOrder true c in
  Ok (o, operator_index, (<[operator_index := c']> v, p')).

Definition addNormalWorkOrder (workorder : W) (operator_index : nat)
    (s : WorkOrdersContainer) : outcome WorkOrdersContainer :=
  '(v, p) ← half_add workorder operator_index
              (normal_workorders s) (normal_work_orders_policy s);
  Ok (set_normal v p s).
Definition addRebuildWorkOrder (workorder : W) (operator_index : nat)
    (s : WorkOrdersContainer) : outcome WorkOrdersContainer :=
  '(v, p) ← half_add workorder operator_index
              (rebuild_workorders s) (rebuild_work_orders_policy s);
  Ok (set_rebuild v p s).

(** The result is the returned pointer, the two output parameters
    [operator_index] and [is_rebuild] (left alone when neither policy has an
    entry), and the new state. *)
Definition getNextWorkOrder (s : WorkOrdersContainer)
  : outcome (option W * option (nat * bool) * WorkOrdersContainer) :=
  if policy_hasWorkOrder (rebuild_work_orders_policy s) then
    '(o, operator_index, (v, p)) ←
      half_next (rebuild_workorders s) (rebuild_work_orders_policy s);
    Ok (o, Some (operator_index, true), set_rebuild v p s)
  else if policy_hasWorkOrder (normal_work_orders_policy s) then
    '(o, operator_index, (v, p)) ←
      half_next (normal_workorders s) (normal_work_orders_policy s);
    Ok (o, Some (operator_index, false), set_normal v p s)
  else Ok (None, None, s).

(** The destructor's warning: some operator still has a pending work order. *)
Fixpoint pending_loop (s : WorkOrdersContainer) (op n : nat) : outcome bool :=
  match n with
  | 0 => Ok false
  | S n' =>
      a ← hasNormalWorkOrder op s;
      b ← (if (a : bool) then Ok true else hasRebuildWorkOrder op s);
      if (b : bool) then Ok true else pending_loop s (S op) n'
  end.
Definition destructor_warns (s : WorkOrdersContainer) : outcome bool :=
  pending_loop s 0 (num_operators s).

(** ** The contents of a container *)

Definition op_orders (c : OperatorWorkOrdersContainer) : list W :=
  numa_agnostic_workorders c ++ concat (single_numa_node_workorders c) ++
  multiple_numa_nodes_workorders c.

(** Every work order is where its preference says. *)
Record op_wf (c : OperatorWorkOrdersContainer) : Prop := {
  wf_num : length (single_numa_node_workorders c) = op_num_numa_nodes c;
  wf_agnostic : Forall (λ w, getPreferredNUMANodes w = [])
    (numa_agnostic_workorders c);
  wf_single i q : single_numa_node_workorders c !! i = Some q →
    Forall (λ w, getPreferredNUMANodes w = [Z.of_nat i]) q;
  wf_multiple : Forall (λ w, 2 ≤ length (getPreferredNUMANodes w))
    (multiple_numa_nodes_workorders c);
}.

(** A work order that prefers one node prefers one that exists. *)
Definition numa_ok (n : nat) (w : W) : bool :=
  match getPreferredNUMANodes w with
  | [i] => bool_decide (0 ≤ i < Z.of_nat n)%Z
  | _ => true
  end.

(** ** One operator's container *)

Lemma lists_numa_node_elem node w :
  lists_numa_node node w = bool_decide (node ∈ getPreferredNUMANodes w).
Proof.
  unfold lists_numa_node.
  destruct (getPreferredNUMANodes w) as [|i l];
    [by rewrite bool_decide_eq_false_2 by set_solver|].
  apply eq_bool_prop_intro. rewrite !Is_true_true, bool_decide_eq_true.
  rewrite existsb_exists. setoid_rewrite <- list_elem_of_In.
  setoid_rewrite Z.eqb_eq. naive_solver.
Qed.

Lemma list_num_for_filter node l :
  list_getNumWorkOrdersForNUMANode node l =
  length (filter (λ w, node ∈ getPreferredNUMANodes w) l).
Proof.
  induction l as [|w l IH]; [done|].
  cbn [list_getNumWorkOrdersForNUMANode].
  rewrite lists_numa_node_elem, IH, filter_cons.
  case_bool_decide; case_decide; done.
Qed.

Lemma list_has_for_num node l :
  list_hasWorkOrderForNUMANode node l =
  bool_decide (list_getNumWorkOrdersForNUMANode node l ≠ 0).
Proof.
  induction l as [|w l IH]; cbn; [done|].
  destruct (lists_numa_node node w); cbn; [|done].
  by rewrite bool_decide_eq_true_2.
Qed.

(** What removing a work order for a node does to a list. *)
Lemma list_get_for_spec node l :
  match list_getWorkOrderForNUMANode node l with
  | (Some w, l') => node ∈ getPreferredNUMANodes w ∧ l ≡ₚ w :: l'
  | (None, l') => Forall (λ w, node ∉ getPreferredNUMANodes w) l ∧ l' = l
  end.
Proof.
  induction l as [|w l IH]; cbn; [done|].
  rewrite lists_numa_node_elem. case_bool_decide; [done|].
  destruct (list_getWorkOrderForNUMANode node l) as [[w'|] l'].
  - destruct IH as [? ->]. split; [done|]. apply Permutation_swap.
  - destruct IH as [? ->]. auto.
Qed.

Lemma concat_insert_perm (v : list (list W)) i q q' :
  v !! i = Some q → ∃ r, concat v ≡ₚ q ++ r ∧ concat (<[i := q']> v) ≡ₚ q' ++ r.
Proof.
  intros Hi. exists (concat (take i v) ++ concat (drop (S i) v)).
  rewrite insert_take_drop by eauto using lookup_lt_Some.
  rewrite <- (take_drop_middle v i q Hi) at 1.
  rewrite !concat_app. cbn.
  split; by rewrite Permutation_app_swap_app.
Qed.

Lemma single_helper_spec v :
  match single_helper v with
  | (Some w, v') => ∃ i q, v !! i = Some (w :: q) ∧ v' = <[i := q]> v
  | (None, v') => concat v = [] ∧ v' = v
  end.
Proof.
  induction v as [|[|w q] v IH]; cbn; [done| |by exists 0, q].
  destruct (single_helper v) as [[w|] v'].
  - destruct IH as (i & q & Hi & ->). by exists (S i), q.
  - by destruct IH as [? ->].
Qed.

(** Replacing one queue of work orders that prefer node [i] by another. *)
Lemma op_wf_set_single c i q q' :
  op_wf c → single_numa_node_workorders c !! i = Some q →
  Forall (λ w, getPreferredNUMANodes w = [Z.of_nat i]) q' →
  op_wf (set_single (<[i := q']> (single_numa_node_workorders c)) c).
Proof.
  intros [Hn Ha Hs Hm] Hi Hq'. split; cbn; [by rewrite length_insert|done| |done].
  intros j r [(<- & <- & _)|[? Hj]]%list_lookup_insert_Some; eauto.
Qed.

Lemma op_orders_set_single c i q q' :
  single_numa_node_workorders c !! i = Some q → ∃ r,
  op_orders c ≡ₚ q ++ r ∧
  op_orders (set_single (<[i := q']> (single_numa_node_workorders c)) c) ≡ₚ q' ++ r.
Proof.
  intros Hi. destruct (concat_insert_perm _ _ _ q' Hi) as (r & H1 & H2).
  exists (numa_agnostic_workorders c ++ r ++ multiple_numa_nodes_workorders c).
  unfold op_orders; cbn. rewrite H1, H2.
  split; by rewrite <- app_assoc, (Permutation_app_swap_app (numa_agnostic_workorders c)).
Qed.

Lemma int_index_nat {A} (v : list A) (i : nat) :
  int_index v (Z.of_nat i) = vec_at v i.
Proof. unfold int_index. rewrite decide_True by lia. by rewrite Nat2Z.id. Qed.

Lemma op_add_spec w c :
  op_wf c → numa_ok (op_num_numa_nodes c) w = true →
  ∃ c', op_addWorkOrder w c = Ok c' ∧ op_wf c' ∧
    op_num_numa_nodes c' = op_num_numa_nodes c ∧
    op_orders c' ≡ₚ w :: op_orders c.
Proof.
  intros Hwf Hw. pose proof Hwf as [Hn Ha Hs Hm].
  unfold op_addWorkOrder, numa_ok in *.
  destruct (getPreferredNUMANodes w) as [|i [|j l]] eqn:Hp.
  - eexists; split; [done|]. split; [|split]; [|done|].
    + split; cbn; auto. apply Forall_app; auto.
    + unfold op_orders, queue_addWorkOrder; cbn.
      solve_Permutation.
  - apply bool_decide_eq_true in Hw as [Hi0 Hi].
    rewrite <- (Z2Nat.id i) in Hp |- * by done. rewrite int_index_nat, Nat2Z.id.
    destruct (lookup_lt_is_Some_2 (single_numa_node_workorders c) (Z.to_nat i))
      as [q Hq]; [lia|].
    rewrite (vec_at_Some _ _ _ Hq). cbn. eexists; split; [done|].
    split; [|split]; [|done|].
    + eapply op_wf_set_single; eauto. apply Forall_app; eauto.
    + destruct (op_orders_set_single c _ q (queue_addWorkOrder w q) Hq)
        as (r & -> & ->).
      unfold queue_addWorkOrder. solve_Permutation.
  - eexists; split; [done|]. split; [|split]; [|done|].
    + split; cbn; auto. apply Forall_app; split; [done|].
      apply Forall_singleton. rewrite Hp. cbn. lia.
    + unfold op_orders; cbn. unfold list_addWorkOrder.
      rewrite !app_assoc. by rewrite Permutation_app_comm.
Qed.

(** Taking a work order out of the queues of single nodes. *)
Lemma op_single_spec c :
  op_wf c →
  match getSingleNUMANodeWorkOrderHelper c with
  | (Some w, c') => op_wf c' ∧ op_num_numa_nodes c' = op_num_numa_nodes c ∧
      op_orders c ≡ₚ w :: op_orders c'
  | (None, c') => concat (single_numa_node_workorders c) = [] ∧ c' = c
  end.
Proof.
  intros Hwf. unfold getSingleNUMANodeWorkOrderHelper.
  pose proof (single_helper_spec (single_numa_node_workorders c)) as Hv.
  destruct (single_helper _) as [[w|] v].
  - destruct Hv as (i & q & Hi & ->). split; [|split]; [|done|].
    + eapply op_wf_set_single; eauto.
      by destruct (Forall_cons_1 _ _ _ (wf_single c Hwf i _ Hi)).
    + by destruct (op_orders_set_single c i _ q Hi) as (r & -> & ->).
  - destruct Hv as [? ->]. by destruct c.
Qed.

(** Taking one out of the list of those with several nodes. *)
Lemma op_multiple_spec c :
  op_wf c →
  match get_multiple c with
  | (Some w, c') => op_wf c' ∧ op_num_numa_nodes c' = op_num_numa_nodes c ∧
      op_orders c ≡ₚ w :: op_orders c'
  | (None, c') => multiple_numa_nodes_workorders c = [] ∧ c' = c
  end.
Proof.
  intros [Hn Ha Hs Hm]. unfold get_multiple.
  destruct c as [n a s [|w l]]; cbn in *; [done|].
  apply Forall_cons in Hm as [_ Hm]. split; [done|split; [done|]].
  unfold op_orders; cbn. by rewrite <- !Permutation_middle.
Qed.

Lemma op_get_spec prefer c :
  op_wf c →
  match op_getWorkOrder prefer c with
  | (Some w, c') => op_wf c' ∧ op_num_numa_nodes c' = op_num_numa_nodes c ∧
      op_orders c ≡ₚ w :: op_orders c'
  | (None, c') => op_orders c = [] ∧ c' = c
  end.
Proof.
  intros Hwf. pose proof (op_single_spec c Hwf) as Hs.
  pose proof (op_multiple_spec c Hwf) as Hm.
  unfold op_getWorkOrder, op_orders in *.
  destruct (numa_agnostic_workorders c) as [|w q] eqn:Ha; cbn.
  - destruct prefer.
    + destruct (getSingleNUMANodeWorkOrderHelper c) as [[w|] c']; [done|].
      destruct Hs as [Hs ->]. rewrite Hs.
      destruct (get_multiple c) as [[w|] c']; [|done].
      by rewrite Hs in Hm.
    + destruct (get_multiple c) as [[w|] c']; [done|].
      destruct Hm as [Hm ->]. rewrite Hm.
      destruct (getSingleNUMANodeWorkOrderHelper c) as [[w|] c'].
      * by rewrite Hm in Hs.
      * destruct Hs as [Hs ->]. by rewrite Hs.
  - split; [|done]. destruct Hwf as [Hn Ha' ? ?]. split; cbn; auto.
    rewrite Ha in Ha'. by apply Forall_cons in Ha' as [_ ?].
Qed.

Lemma foldl_num (v : list (list W)) n :
  foldl (λ num q, num + queue_getNumWorkOrders q) n v = n + length (concat v).
Proof.
  revert n. induction v as [|q v IH]; intros n; cbn; [lia|].
  rewrite IH, length_app. unfold queue_getNumWorkOrders. lia.
Qed.

Lemma op_num_spec c : op_getNumWorkOrders c = length (op_orders c).
Proof.
  unfold op_getNumWorkOrders, op_orders, list_getNumWorkOrders.
  rewrite foldl_num, !length_app. unfold queue_getNumWorkOrders. lia.
Qed.

(** The pending work orders that list a node. *)
Definition orders_for (node : Z) (l : list W) : list W :=
  filter (λ w, node ∈ getPreferredNUMANodes w) l.

Lemma orders_for_app node l k :
  orders_for node (l ++ k) = orders_for node l ++ orders_for node k.
Proof. apply filter_app. Qed.

Lemma orders_for_all node l :
  Forall (λ w, node ∈ getPreferredNUMANodes w) l → orders_for node l = l.
Proof.
  induction 1 as [|w l Hw _ IH]; [done|]. unfold orders_for in *.
  rewrite filter_cons, decide_True by done. by rewrite IH.
Qed.

Lemma orders_for_none node l :
  Forall (λ w, node ∉ getPreferredNUMANodes w) l ↔ orders_for node l = [].
Proof.
  induction l as [|w l IH]; [done|]. unfold orders_for in *.
  rewrite filter_cons, Forall_cons. case_decide; naive_solver.
Qed.

Lemma orders_for_perm node l k :
  l ≡ₚ k → orders_for node l ≡ₚ orders_for node k.
Proof. intros H. unfold orders_for. by rewrite H. Qed.

Lemma orders_for_single_from (v : list (list W)) k i :
  (∀ j q, v !! j = Some q →
     Forall (λ w, getPreferredNUMANodes w = [Z.of_nat (k + j)]) q) →
  k ≤ i → orders_for (Z.of_nat i) (concat v) = default [] (v !! (i - k)).
Proof.
  revert k. induction v as [|q v IH]; intros k Hv Hk; [done|].
  pose proof (Hv 0 q eq_refl) as Hq. rewrite Nat.add_0_r in Hq. cbn [concat].
  rewrite orders_for_app. destruct (decide (i = k)) as [->|Hne].
  - rewrite Nat.sub_diag. cbn. rewrite (orders_for_all _ q).
    2: { eapply Forall_impl; [exact Hq|]. intros w ->. set_solver. }
    rewrite (proj1 (orders_for_none _ _)); [by rewrite app_nil_r|].
    apply Forall_concat, Forall_lookup. intros j r Hr.
    eapply Forall_impl; [exact (Hv (S j) r Hr)|]. intros w ->.
    rewrite list_elem_of_singleton. lia.
  - replace (i - k) with (S (i - S k)) by lia. cbn.
    rewrite (proj1 (orders_for_none _ q)).
    2: { eapply Forall_impl; [exact Hq|]. intros w ->.
         rewrite list_elem_of_singleton. lia. }
    apply IH; [|lia]. intros j r Hr.
    replace (S k + j) with (k + S j) by lia. by apply (Hv (S j)).
Qed.

Lemma op_orders_for c i q :
  op_wf c → single_numa_node_workorders c !! i = Some q →
  orders_for (Z.of_nat i) (op_orders c) =
  q ++ orders_for (Z.of_nat i) (multiple_numa_nodes_workorders c).
Proof.
  intros [Hn Ha Hs Hm] Hi. unfold op_orders. rewrite !orders_for_app.
  rewrite (proj1 (orders_for_none _ (numa_agnostic_workorders c))).
  2: { eapply Forall_impl; [exact Ha|]. intros w ->. apply not_elem_of_nil. }
  rewrite (orders_for_single_from _ 0); [|done|lia].
  by rewrite Nat.sub_0_r, Hi.
Qed.

Lemma op_single_lookup c i :
  op_wf c → i < op_num_numa_nodes c →
  ∃ q, single_numa_node_workorders c !! i = Some q.
Proof. intros Hwf Hi. apply lookup_lt_is_Some_2. by rewrite (wf_num _ Hwf). Qed.

Lemma op_num_for_spec c i :
  op_wf c → i < op_num_numa_nodes c →
  op_getNumWorkOrdersForNUMANode (Z.of_nat i) c =
  Ok (length (orders_for (Z.of_nat i) (op_orders c))).
Proof.
  intros Hwf Hi. destruct (op_single_lookup c i Hwf Hi) as [q Hq].
  unfold op_getNumWorkOrdersForNUMANode.
  rewrite int_index_nat, (vec_at_Some _ _ _ Hq), (op_orders_for c i q) by done.
  cbn. by rewrite length_app, list_num_for_filter.
Qed.

Lemma op_has_for_spec c i :
  op_wf c → i < op_num_numa_nodes c →
  op_hasWorkOrderForNUMANode (Z.of_nat i) c =
  Ok (bool_decide (orders_for (Z.of_nat i) (op_orders c) ≠ [])).
Proof.
  intros Hwf Hi. destruct (op_single_lookup c i Hwf Hi) as [q Hq].
  unfold op_hasWorkOrderForNUMANode.
  rewrite int_index_nat, (vec_at_Some _ _ _ Hq), (op_orders_for c i q) by done.
  cbn. f_equal. rewrite list_has_for_num, list_num_for_filter.
  fold (orders_for (Z.of_nat i) (multiple_numa_nodes_workorders c)).
  destruct q as [|w q]; cbn; [|done].
  by destruct (orders_for _ _).
Qed.

Lemma op_get_for_spec c i :
  op_wf c → i < op_num_numa_nodes c →
  ∃ o c', op_getWorkOrderForNUMANode (Z.of_nat i) c = Ok (o, c') ∧
  match o with
  | Some w => op_wf c' ∧ op_num_numa_nodes c' = op_num_numa_nodes c ∧
      op_orders c ≡ₚ w :: op_orders c' ∧ Z.of_nat i ∈ getPreferredNUMANodes w
  | None => orders_for (Z.of_nat i) (op_orders c) = [] ∧ c' = c
  end.
Proof.
  intros Hwf Hi. destruct (op_single_lookup c i Hwf Hi) as [q Hq].
  unfold op_getWorkOrderForNUMANode.
  rewrite int_index_nat, (vec_at_Some _ _ _ Hq), (op_orders_for c i q) by done.
  pose proof Hwf as [Hn Ha Hs Hm]. cbn. destruct q as [|w q]; cbn.
  - pose proof (list_get_for_spec (Z.of_nat i)
      (multiple_numa_nodes_workorders c)) as Hl.
    destruct (list_getWorkOrderForNUMANode _ _) as [[w|] l];
      eexists _, _; (split; [done|]); destruct Hl as [Hw Hl].
    + split; [split; cbn; auto|split; [done|split; [|done]]].
      * rewrite Hl in Hm. by apply Forall_cons in Hm as [_ ?].
      * unfold op_orders; cbn. rewrite Hl. by rewrite <- !Permutation_middle.
    + rewrite Hl. split; [by apply orders_for_none|by destruct c].
  - eexists _, _; split; [done|].
    pose proof (wf_single c Hwf i _ Hq) as Hws.
    apply Forall_cons in Hws as [Hw Hws]. rewrite Nat2Z.id.
    split; [by eapply op_wf_set_single|split; [done|split]].
    + by destruct (op_orders_set_single c i _ q Hq) as (r & -> & ->).
    + rewrite Hw. set_solver.
Qed.

Lemma op_has_loop_spec c i n :
  multiple_numa_nodes_workorders c = [] →
  i + n = length (single_numa_node_workorders c) →
  op_has_loop c i n =
  Ok (bool_decide (concat (drop i (single_numa_node_workorders c)) ≠ [])).
Proof.
  intros Hm. revert i. induction n as [|n IH]; intros i Hn.
  - by rewrite drop_ge by lia.
  - destruct (lookup_lt_is_Some_2 (single_numa_node_workorders c) i) as [q Hq];
      [lia|].
    cbn [op_has_loop]. unfold op_hasWorkOrderForNUMANode.
    rewrite int_index_nat, (vec_at_Some _ _ _ Hq), Hm. cbn.
    rewrite (drop_S _ _ _ Hq), orb_false_r.
    destruct q as [|w q]; cbn; [apply IH; lia|done].
Qed.

Lemma op_has_spec c :
  op_wf c → op_hasWorkOrder c = Ok (bool_decide (op_orders c ≠ [])).
Proof.
  intros Hwf. unfold op_hasWorkOrder, op_orders.
  destruct (numa_agnostic_workorders c); cbn; [|done].
  destruct (multiple_numa_nodes_workorders c) eqn:Hm; cbn.
  - rewrite op_has_loop_spec by (done || rewrite (wf_num _ Hwf); lia).
    by rewrite drop_0, app_nil_r.
  - rewrite bool_decide_eq_true_2; [done|].
    by intros [? [=]]%app_eq_nil.
Qed.

Lemma new_op_wf n : op_wf (new_OperatorWorkOrdersContainer n).
Proof.
  split; cbn; auto using length_replicate.
  intros i q [-> _]%lookup_replicate. constructor.
Qed.

Lemma new_op_orders n : op_orders (new_OperatorWorkOrdersContainer n) = [].
Proof. unfold op_orders; cbn. rewrite app_nil_r. by induction n. Qed.

(** ** A vector of operator containers and its policy *)

Definition count (i : nat) (l : list nat) : nat := length (filter (eq i) l).

Definition orders_at (v : list OperatorWorkOrdersContainer) (i : nat) : list W :=
  from_option op_orders [] (v !! i).

(** Every pending work order with the index of its operator. *)
Definition tagged (v : list OperatorWorkOrdersContainer) : list (nat * W) :=
  concat (imap (λ i c, pair i <$> op_orders c) v).

(** The policy has one entry per pending work order. *)
Record half_wf {P} `{PolicyLaws P} (n m : nat)
    (v : list OperatorWorkOrdersContainer) (p : P) : Prop := {
  half_length : length v = n;
  half_ops i c : v !! i = Some c → op_wf c ∧ op_num_numa_nodes c = m;
  half_sync i : count i (policy_contents p) = length (orders_at v i);
}.

Lemma tagged_insert v i c c' :
  v !! i = Some c → ∃ r,
  tagged v ≡ₚ (pair i <$> op_orders c) ++ r ∧
  tagged (<[i := c']> v) ≡ₚ (pair i <$> op_orders c') ++ r.
Proof.
  intros (l1 & l2 & -> & <- & Hins)%lookup_insert_split.
  rewrite Hins. unfold tagged. rewrite !imap_app, !concat_app. cbn.
  rewrite Nat.add_0_r. eexists. split; by rewrite Permutation_app_swap_app.
Qed.

(** The work orders of operator [i] in a tagged list. *)
Definition of_op (i : nat) (l : list (nat * W)) : list W :=
  snd <$> filter (λ x, x.1 = i) l.

Lemma of_op_cons i j w l :
  of_op i ((j, w) :: l) = if decide (j = i) then w :: of_op i l else of_op i l.
Proof. unfold of_op. rewrite filter_cons. cbn. by case_decide. Qed.

Lemma of_op_app i l k : of_op i (l ++ k) = of_op i l ++ of_op i k.
Proof. unfold of_op. by rewrite filter_app, fmap_app. Qed.

Lemma of_op_perm i l k : l ≡ₚ k → of_op i l ≡ₚ of_op i k.
Proof. intros H. unfold of_op. by rewrite H. Qed.

Lemma of_op_tagged_from (v : list OperatorWorkOrdersContainer) k i :
  of_op i (concat (imap (λ j c, pair (k + j) <$> op_orders c) v)) =
  if decide (k ≤ i) then orders_at v (i - k) else [].
Proof.
  revert k. induction v as [|c v IH]; intros k; [by case_decide|].
  cbn. unfold of_op in *. rewrite filter_app, fmap_app.
  assert (imap ((λ j c0, pair (k + j) <$> op_orders c0) ∘ S) v =
          imap (λ j c0, pair (S k + j) <$> op_orders c0) v) as ->.
  { apply imap_ext. intros j c0 _. cbn. by rewrite Nat.add_succ_r. }
  rewrite IH. clear IH. rewrite Nat.add_0_r.
  assert (snd <$> filter (λ x, x.1 = i) (pair k <$> op_orders c) =
          if decide (k = i) then op_orders c else []) as ->.
  { induction (op_orders c) as [|w l IHl]; [by case_decide|].
    rewrite fmap_cons, filter_cons. cbn.
    case_decide; cbn; [by rewrite IHl|done]. }
  unfold orders_at. repeat case_decide; try lia; subst; cbn.
  - rewrite Nat.sub_diag. cbn. by rewrite app_nil_r.
  - replace (i - k) with (S (i - S k)) by lia. done.
  - done.
Qed.

Lemma of_op_tagged v i : of_op i (tagged v) = orders_at v i.
Proof.
  rewrite <- (Nat.sub_0_r i) at 2.
  exact (of_op_tagged_from v 0 i).
Qed.

Lemma tagged_nil v : (∀ i, orders_at v i = []) → tagged v = [].
Proof.
  intros Hv. destruct (tagged v) as [|[i w] l] eqn:Ht; [done|exfalso].
  specialize (Hv i). rewrite <- of_op_tagged, Ht in Hv.
  rewrite of_op_cons, decide_True in Hv by done. done.
Qed.

Lemma orders_at_insert v i c c' j :
  v !! i = Some c →
  orders_at (<[i := c']> v) j = if decide (i = j) then op_orders c' else orders_at v j.
Proof.
  intros Hi. unfold orders_at. case_decide as Hij.
  - subst. by rewrite list_lookup_insert_eq by eauto using lookup_lt_Some.
  - by rewrite list_lookup_insert_ne.
Qed.

Lemma count_perm i l k : l ≡ₚ k → count i l = count i k.
Proof. intros H. unfold count. by rewrite H. Qed.

Lemma count_cons i j l :
  count i (j :: l) = (if decide (i = j) then 1 else 0) + count i l.
Proof. unfold count. rewrite filter_cons. by case_decide. Qed.

Lemma half_wf_insert {P} `{PolicyLaws P} n m v (p p' : P) i c c' :
  half_wf n m v p → v !! i = Some c → op_wf c' →
  op_num_numa_nodes c' = op_num_numa_nodes c →
  (∀ j, count j (policy_contents p') =
     if decide (i = j) then length (op_orders c')
     else count j (policy_contents p)) →
  half_wf n m (<[i := c']> v) p'.
Proof.
  intros [Hl Ho Hs] Hi Hwf Hnum Hc. split; [by rewrite length_insert| |].
  - intros j d [(<- & <- & _)|[_ Hj]]%list_lookup_insert_Some; [|eauto].
    split; [done|]. rewrite Hnum. by apply (Ho i).
  - intros j. rewrite (orders_at_insert v i c) by done. rewrite Hc.
    case_decide; auto.
Qed.

Lemma half_add_spec {P} `{PolicyLaws P} n m v (p : P) w i :
  half_wf n m v p → i < n → numa_ok m w = true →
  ∃ v' p', half_add w i v p = Ok (v', p') ∧ half_wf n m v' p' ∧
    tagged v' ≡ₚ (i, w) :: tagged v.
Proof.
  intros Hwf Hi Hw. pose proof Hwf as [Hl Ho Hs].
  destruct (lookup_lt_is_Some_2 v i) as [c Hc]; [lia|].
  destruct (Ho i c Hc) as [Hcwf Hcm].
  destruct (op_add_spec w c Hcwf) as (c' & Hadd & Hwf' & Hnum & Hp);
    [by rewrite Hcm|].
  unfold half_add. rewrite (vec_at_Some _ _ _ Hc). cbn. rewrite Hadd. cbn.
  eexists _, _. split; [done|]. split.
  - eapply half_wf_insert; eauto. intros j.
    rewrite (count_perm j _ _ (policy_add i p)), count_cons, Hs.
    rewrite (Permutation_length Hp). cbn.
    destruct (decide (j = i)), (decide (i = j)); subst; try congruence; try lia.
    unfold orders_at. by rewrite Hc.
  - destruct (tagged_insert v i c c' Hc) as (r & -> & ->). by rewrite Hp.
Qed.

Lemma half_next_spec {P} `{PolicyLaws P} n m v (p : P) :
  half_wf n m v p → policy_contents p ≠ [] →
  ∃ w i v' p', half_next v p = Ok (Some w, i, (v', p')) ∧
    half_wf n m v' p' ∧ tagged v ≡ₚ (i, w) :: tagged v' ∧
    getOperatorIndexForNextWorkOrder p = Ok (i, p').
Proof.
  intros Hwf Hne. pose proof Hwf as [Hl Ho Hs].
  destruct (policy_next p Hne) as (i & p' & Hnext & Hp).
  pose proof (Hs i) as Hsi. rewrite (count_perm i _ _ Hp), count_cons in Hsi.
  rewrite decide_True in Hsi by done. unfold orders_at in Hsi.
  destruct (v !! i) as [c|] eqn:Hc; cbn in Hsi; [|lia].
  destruct (Ho i c Hc) as [Hcwf Hcm].
  pose proof (op_get_spec true c Hcwf) as Hget.
  unfold half_next. rewrite Hnext. cbn. rewrite (vec_at_Some _ _ _ Hc). cbn.
  destruct (op_getWorkOrder true c) as [[w|] c'].
  2: { destruct Hget as [He _]. rewrite He in Hsi. cbn in Hsi. lia. }
  destruct Hget as (Hwf' & Hnum & Hperm). rewrite (Permutation_length Hperm) in Hsi.
  cbn in Hsi. exists w, i, (<[i := c']> v), p'. split; [done|].
  split; [|split; [|done]].
  - eapply half_wf_insert; eauto. intros j.
    rewrite (count_perm j _ _ Hp), count_cons.
    destruct (decide (j = i)), (decide (i = j)); subst; try congruence; try lia.
  - destruct (tagged_insert v i c c' Hc) as (r & -> & ->). by rewrite Hperm.
Qed.

Lemma half_empty {P} `{PolicyLaws P} n m v (p : P) :
  half_wf n m v p → (policy_contents p = [] ↔ tagged v = []).
Proof.
  intros [Hl Ho Hs]. split.
  - intros Hp. apply tagged_nil. intros i. apply length_zero_iff_nil.
    by rewrite <- Hs, Hp.
  - intros Ht. destruct (policy_contents p) as [|i l] eqn:Hp; [done|exfalso].
    specialize (Hs i). rewrite <- of_op_tagged, Ht, count_cons in Hs.
    rewrite decide_True in Hs by done. done.
Qed.

Lemma half_has {P} `{PolicyLaws P} n m v (p : P) :
  half_wf n m v p → policy_hasWorkOrder p = bool_decide (tagged v ≠ []).
Proof.
  intros Hwf. apply eq_bool_prop_intro.
  rewrite !Is_true_true, policy_has, bool_decide_eq_true.
  by rewrite (half_empty n m v p Hwf).
Qed.

End containers.
Arguments OperatorWorkOrdersContainer : clear implicits.
Arguments WorkOrdersContainer : clear implicits.
Arguments of_op : simpl never.
Arguments tagged : simpl never.
Arguments half_add : simpl never.
Arguments half_next : simpl never.
