(* ===== verification/WorkOrdersScheduling.v ===== *)
(** * What the container of work orders promises

    The container of WorkOrdersContainer.v refines two bags of pending work
    orders: nothing is lost, duplicated or starved whatever the interleaving
    of additions and requests, rebuild work orders go first and in the order
    in which they were added, and the queries count what is pending. *)

From S2P Require Import Prelude WorkOrdersContainer.
From stdpp Require Import options.

Section scheduling.
Context {W : Type} `{!WorkOrder W}.

(** ** Runs of the container *)

Inductive command :=
| AddNormal (w : W) (i : nat)
| AddRebuild (w : W) (i : nat)
| GetNext.

(** What [getNextWorkOrder] hands out: a work order, its operator, and whether
    it is a rebuild work order; [None] for a null pointer. *)
Abbreviation handed := (option (W * nat * bool)).

Definition command_ok (n m : nat) (c : command) : bool :=
  match c with
  | AddNormal w i | AddRebuild w i => bool_decide (i < n) && numa_ok m w
  | GetNext => true
  end.

Definition run_command (c : command) (s : WorkOrdersContainer W)
  : outcome (list handed * WorkOrdersContainer W) :=
  match c with
  | AddNormal w i => s' ← addNormalWorkOrder w i s; Ok ([], s')
  | AddRebuild w i => s' ← addRebuildWorkOrder w i s; Ok ([], s')
  | GetNext =>
      '(o, out, s') ← getNextWorkOrder s;
      Ok ([match o, out with
           | Some w, Some (i, is_rebuild) => Some (w, i, is_rebuild)
           | _, _ => None
           end], s')
  end.

Fixpoint run_commands (cs : list command) (s : WorkOrdersContainer W)
  : outcome (list handed * WorkOrdersContainer W) :=
  match cs with
  | [] => Ok ([], s)
  | c :: cs' =>
      '(r, s') ← run_command c s;
      '(rs, s'') ← run_commands cs' s';
      Ok (r ++ rs, s'')
  end.

(** ** The specification: two bags of work orders tagged with their operator *)

Abbreviation bag := (list (nat * W)).

Inductive bag_step : command → list handed → bag * bag → bag * bag → Prop :=
| bag_add_normal w i N N' R :
    N' ≡ₚ (i, w) :: N → bag_step (AddNormal w i) [] (N, R) (N', R)
| bag_add_rebuild w i N R R' :
    R' ≡ₚ (i, w) :: R → bag_step (AddRebuild w i) [] (N, R) (N, R')
| bag_next_rebuild w i N R R' :
    R ≡ₚ (i, w) :: R' → bag_step GetNext [Some (w, i, true)] (N, R) (N, R')
| bag_next_normal w i N N' :
    N ≡ₚ (i, w) :: N' → bag_step GetNext [Some (w, i, false)] (N, []) (N', [])
| bag_next_none : bag_step GetNext [None] ([], []) ([], []).

Inductive bag_run : list command → list handed → bag * bag → bag * bag → Prop :=
| bag_run_nil b : bag_run [] [] b b
| bag_run_cons c cs r rs b b' b'' :
    bag_step c r b b' → bag_run cs rs b' b'' →
    bag_run (c :: cs) (r ++ rs) b b''.

Definition pending (s : WorkOrdersContainer W) : bag * bag :=
  (tagged (normal_workorders s), tagged (rebuild_workorders s)).

Record woc_wf (s : WorkOrdersContainer W) : Prop := {
  wf_normal : half_wf (num_operators s) (num_numa_nodes s)
    (normal_workorders s) (normal_work_orders_policy s);
  wf_rebuild : half_wf (num_operators s) (num_numa_nodes s)
    (rebuild_workorders s) (rebuild_work_orders_policy s);
}.

(** ** The initial state *)

Lemma new_half_wf {P} `{PolicyLaws P} n m (p : P) :
  policy_contents p = [] →
  half_wf n m (replicate n (new_OperatorWorkOrdersContainer m)) p.
Proof.
  intros Hp. split; [apply length_replicate| |].
  - intros i c [-> _]%lookup_replicate. split; [apply new_op_wf|done].
  - intros i. rewrite Hp. unfold orders_at.
    destruct (replicate _ _ !! i) as [c|] eqn:Hc; [|done].
    apply lookup_replicate in Hc as [-> _]. cbn [from_option]. by rewrite new_op_orders.
Qed.

Lemma new_woc_wf n m : woc_wf (new_WorkOrdersContainer n m).
Proof. by split; apply new_half_wf. Qed.

Lemma new_pending n m : pending (new_WorkOrdersContainer n m) = ([], []).
Proof using WorkOrder0.
  destruct (new_woc_wf n m) as [Hn Hr]. unfold pending. f_equal.
  - by apply (half_empty _ _ _ _ Hn).
  - by apply (half_empty _ _ _ _ Hr).
Qed.

(** ** One command *)

Lemma add_normal_spec s w i :
  woc_wf s → i < num_operators s → numa_ok (num_numa_nodes s) w = true →
  ∃ v p, addNormalWorkOrder w i s = Ok (set_normal v p s) ∧
    woc_wf (set_normal v p s) ∧ tagged v ≡ₚ (i, w) :: tagged (normal_workorders s).
Proof.
  intros [Hn Hr] Hi Hw.
  destruct (half_add_spec _ _ _ _ w i Hn Hi Hw) as (v & p & Hadd & Hwf & Hp).
  exists v, p. unfold addNormalWorkOrder. rewrite Hadd. done.
Qed.

Lemma add_rebuild_spec s w i :
  woc_wf s → i < num_operators s → numa_ok (num_numa_nodes s) w = true →
  ∃ v p, addRebuildWorkOrder w i s = Ok (set_rebuild v p s) ∧
    woc_wf (set_rebuild v p s) ∧
    tagged v ≡ₚ (i, w) :: tagged (rebuild_workorders s).
Proof.
  intros [Hn Hr] Hi Hw.
  destruct (half_add_spec _ _ _ _ w i Hr Hi Hw) as (v & p & Hadd & Hwf & Hp).
  exists v, p. unfold addRebuildWorkOrder. rewrite Hadd. done.
Qed.

(** The three outcomes of a request. *)
Lemma get_next_spec s :
  woc_wf s → ∃ o out s', getNextWorkOrder s = Ok (o, out, s') ∧ woc_wf s' ∧
    num_operators s' = num_operators s ∧ num_numa_nodes s' = num_numa_nodes s ∧
    match o, out with
    | Some w, Some (i, true) =>
        tagged (rebuild_workorders s) ≡ₚ (i, w) :: tagged (rebuild_workorders s') ∧
        normal_workorders s' = normal_workorders s
    | Some w, Some (i, false) =>
        tagged (normal_workorders s) ≡ₚ (i, w) :: tagged (normal_workorders s') ∧
        tagged (rebuild_workorders s) = [] ∧
        rebuild_workorders s' = rebuild_workorders s
    | None, None =>
        s' = s ∧ tagged (normal_workorders s) = [] ∧
        tagged (rebuild_workorders s) = []
    | _, _ => False
    end.
Proof.
  intros [Hn Hr]. unfold getNextWorkOrder.
  rewrite (half_has _ _ _ _ Hn), (half_has _ _ _ _ Hr).
  destruct (tagged (rebuild_workorders s)) as [|x R] eqn:HR;
    [|destruct (half_next_spec _ _ _ _ Hr) as (w & i & v & p & Hnext & Hwf & Hp & _)].
  - cbn. destruct (tagged (normal_workorders s)) as [|x N] eqn:HN;
      [|destruct (half_next_spec _ _ _ _ Hn) as (w & i & v & p & Hnext & Hwf & Hp & _)].
    + cbn. eexists _, _, _. split; [done|]. split_and!; done || by split.
    + by rewrite (half_empty _ _ _ _ Hn), HN.
    + cbn. rewrite Hnext. cbn. eexists _, _, _. split; [done|].
      rewrite <- HN, Hp. split_and!; done || by split.
  - by rewrite (half_empty _ _ _ _ Hr), HR.
  - cbn. rewrite Hnext. cbn. eexists _, _, _. split; [done|].
    rewrite <- HR, Hp. split_and!; done || by split.
Qed.

Lemma run_command_spec c s :
  woc_wf s → command_ok (num_operators s) (num_numa_nodes s) c = true →
  ∃ r s', run_command c s = Ok (r, s') ∧ woc_wf s' ∧
    num_operators s' = num_operators s ∧ num_numa_nodes s' = num_numa_nodes s ∧
    bag_step c r (pending s) (pending s').
Proof.
  intros Hwf Hc. destruct c as [w i|w i|]; cbn in Hc |- *.
  - apply andb_true_iff in Hc as [Hi%bool_decide_eq_true Hw].
    destruct (add_normal_spec s w i Hwf Hi Hw) as (v & p & -> & ? & ?).
    cbn. eexists _, _. split_and!; try done. by constructor.
  - apply andb_true_iff in Hc as [Hi%bool_decide_eq_true Hw].
    destruct (add_rebuild_spec s w i Hwf Hi Hw) as (v & p & -> & ? & ?).
    cbn. eexists _, _. split_and!; try done. by constructor.
  - destruct (get_next_spec s Hwf) as (o & out & s' & -> & Hwf' & ? & ? & Hs).
    cbn. eexists _, _. repeat (split; [done|]). unfold pending.
    destruct o as [w|], out as [[i []]|]; try done.
    + destruct Hs as [Hp ->]. by constructor.
    + destruct Hs as (Hp & HR & HR'). rewrite HR', HR. by constructor.
    + destruct Hs as (-> & -> & ->). constructor.
Qed.

Lemma run_commands_spec cs s :
  woc_wf s →
  forallb (command_ok (num_operators s) (num_numa_nodes s)) cs = true →
  ∃ rs s', run_commands cs s = Ok (rs, s') ∧ woc_wf s' ∧
    num_operators s' = num_operators s ∧ num_numa_nodes s' = num_numa_nodes s ∧
    bag_run cs rs (pending s) (pending s').
Proof.
  revert s. induction cs as [|c cs IH]; intros s Hwf Hcs; cbn in *.
  { eexists _, _. split_and!; done || constructor. }
  apply andb_true_iff in Hcs as [Hc Hcs].
  destruct (run_command_spec c s Hwf Hc) as (r & s1 & -> & Hwf1 & Hn & Hm & Hstep).
  rewrite <- Hn, <- Hm in Hcs.
  destruct (IH s1 Hwf1 Hcs) as (rs & s2 & Hrun & ? & ? & ? & Hrest).
  cbn. rewrite Hrun. cbn. eexists _, _. split; [done|].
  split; [done|]. split; [congruence|]. split; [congruence|].
  by econstructor.
Qed.

(** ** Conservation *)

Definition added (rebuild : bool) (c : command) : bag :=
  match c, rebuild with
  | AddNormal w i, false | AddRebuild w i, true => [(i, w)]
  | _, _ => []
  end.
Definition handed_out (rebuild : bool) (r : handed) : bag :=
  match r with
  | Some (w, i, b) => if Bool.eqb b rebuild then [(i, w)] else []
  | None => []
  end.
Definition part (rebuild : bool) (b : bag * bag) : bag :=
  if rebuild then b.2 else b.1.

Lemma bag_step_conserves k c r b b' :
  bag_step c r b b' →
  part k b ++ added k c ≡ₚ (r ≫= handed_out k) ++ part k b'.
Proof.
  destruct 1 as [w i N N' R HN|w i N R R' HR|w i N R R' HR|w i N N' HN|];
    destruct k; cbn; rewrite ?app_nil_r; try done;
    rewrite ?HN, ?HR; by rewrite <- ?Permutation_cons_append.
Qed.

Lemma bag_run_conserves k cs rs b b' :
  bag_run cs rs b b' →
  part k b ++ (cs ≫= added k) ≡ₚ (rs ≫= handed_out k) ++ part k b'.
Proof.
  induction 1 as [b|c cs r rs b b' b'' Hstep _ IH]; cbn; [by rewrite app_nil_r|].
  rewrite bind_app, <- app_assoc, <- IH, !app_assoc.
  f_equiv. by apply bag_step_conserves.
Qed.

(** ** The order of rebuild work orders *)

(** The rebuild work orders still to be handed out, in order, when none of
    them prefers a NUMA node. *)
Definition rebuild_log (s : WorkOrdersContainer W) (L : bag) : Prop :=
  fifo_work_orders (rebuild_work_orders_policy s) = fst <$> L ∧
  ∀ i c, rebuild_workorders s !! i = Some c →
    numa_agnostic_workorders c = of_op i L.

Definition rebuild_agnostic (c : command) : bool :=
  match c with
  | AddRebuild w i => match getPreferredNUMANodes w with [] => true | _ => false end
  | _ => true
  end.

Lemma log_add s w i s' L :
  rebuild_log s L → getPreferredNUMANodes w = [] →
  addRebuildWorkOrder w i s = Ok s' → rebuild_log s' (L ++ [(i, w)]).
Proof.
  intros [Hp Hv] Hw Hadd. unfold addRebuildWorkOrder, half_add in Hadd.
  apply bind_Ok in Hadd as ([v p] & Hadd & [= <-]).
  apply bind_Ok in Hadd as (c & Hc & Hadd). apply vec_at_Ok in Hc.
  unfold op_addWorkOrder in Hadd. rewrite Hw in Hadd. cbn in Hadd.
  injection Hadd as <- <-.
  split; cbn; [by rewrite Hp, fmap_app|].
  intros j d Hj. rewrite of_op_app, of_op_cons.
  apply list_lookup_insert_Some in Hj as [(-> & <- & _)|[Hne Hj]]; cbn.
  - rewrite decide_True by done. unfold queue_addWorkOrder. by erewrite Hv.
  - rewrite decide_False by done. rewrite app_nil_r. auto.
Qed.

Lemma log_next s i w L :
  woc_wf s → rebuild_log s ((i, w) :: L) →
  ∃ s', getNextWorkOrder s = Ok (Some w, Some (i, true), s') ∧ rebuild_log s' L.
Proof.
  intros [Hn Hr] [Hp Hv]. cbn in Hp.
  destruct s as [n m v r pn [q]]; cbn in *. subst q.
  destruct (half_next_spec _ _ _ _ Hr) as (w' & i' & v' & p' & Hnext & _ & _ & Hi);
    [done|]. cbn in Hi. injection Hi as -> <-.
  unfold getNextWorkOrder; cbn. rewrite Hnext. cbn.
  unfold half_next in Hnext. cbn in Hnext.
  apply bind_Ok in Hnext as (c & Hc & Hnext). apply vec_at_Ok in Hc.
  pose proof (Hv _ _ Hc) as Hag. rewrite of_op_cons, decide_True in Hag by done.
  unfold op_getWorkOrder in Hnext. rewrite Hag in Hnext. cbn in Hnext.
  injection Hnext as <- <-. eexists. split; [done|]. split; [done|].
  cbn. intros j d [(<- & <- & _)|[Hne Hj]]%list_lookup_insert_Some; [done|].
  rewrite (Hv _ _ Hj). by rewrite of_op_cons, decide_False.
Qed.

Lemma log_command c s L r s' :
  woc_wf s → rebuild_log s L → rebuild_agnostic c = true →
  run_command c s = Ok (r, s') →
  ∃ L', rebuild_log s' L' ∧ L ++ added true c = (r ≫= handed_out true) ++ L'.
Proof.
  intros Hwf HL Hc Hrun. destruct c as [w i|w i|]; cbn in *.
  - unfold addNormalWorkOrder in Hrun.
    destruct (half_add _ _ _ _) as [[v p]|]; cbn in Hrun; inv_ok.
    exists L. by rewrite app_nil_r.
  - destruct (getPreferredNUMANodes w) eqn:Hw; [|done].
    destruct (addRebuildWorkOrder w i s) as [s1|] eqn:Hs1; cbn in Hrun; inv_ok.
    exists (L ++ [(i, w)]). split; [by eapply log_add|done].
  - destruct L as [|[i w] L].
    + destruct HL as [Hp Hv]. cbn in Hp. exists []. unfold getNextWorkOrder in Hrun.
      destruct s as [n m v r0 pn [q]]; cbn in *. subst q. cbn in Hrun.
      destruct (lifo_hasWorkOrder pn); [|by inv_ok].
      destruct (half_next _ _) as [[[o j] [v' p']]|]; cbn in Hrun; inv_ok.
      split; [done|]. by destruct o.
    + destruct (log_next s i w L Hwf HL) as (s1 & Hn & HL').
      rewrite Hn in Hrun. cbn in Hrun. inv_ok. exists L. by rewrite app_nil_r.
Qed.

Lemma log_commands cs s L rs s' :
  woc_wf s → rebuild_log s L → forallb rebuild_agnostic cs = true →
  forallb (command_ok (num_operators s) (num_numa_nodes s)) cs = true →
  run_commands cs s = Ok (rs, s') →
  ∃ L', rebuild_log s' L' ∧
    L ++ (cs ≫= added true) = (rs ≫= handed_out true) ++ L'.
Proof.
  revert s L rs. induction cs as [|c cs IH]; intros s L rs Hwf HL Ha Hc Hrun.
  { cbn in *. inv_ok. exists L. by rewrite app_nil_r. }
  cbn in Ha, Hc. apply andb_true_iff in Ha as [Ha1 Ha], Hc as [Hc1 Hc].
  destruct (run_command_spec c s Hwf Hc1) as (r & s1 & Hr & Hwf1 & Hn & Hm & _).
  cbn in Hrun. rewrite Hr in Hrun. cbn in Hrun.
  destruct (run_commands cs s1) as [[rs' s'']|] eqn:Hrs; cbn in Hrun; inv_ok.
  rewrite <- Hn, <- Hm in Hc.
  destruct (log_command c s L r s1 Hwf HL Ha1 Hr) as (L1 & HL1 & He).
  destruct (IH s1 L1 rs' Hwf1 HL1 Ha Hc) as (L2 & HL2 & He2); [done|].
  exists L2. split; [done|]. cbn. rewrite app_assoc, He, <- app_assoc, He2.
  by rewrite bind_app, app_assoc.
Qed.

Lemma new_rebuild_log n m : rebuild_log (new_WorkOrdersContainer n m) [].
Proof. split; [done|]. cbn. by intros i c [-> _]%lookup_replicate. Qed.

(** ** Queries and requests for a NUMA node *)

(** What holds whichever functions removed work orders, the ones that bypass
    the policies included: every work order is where its preference says. *)
Definition half_placed (n m : nat) (v : list (OperatorWorkOrdersContainer W))
  : Prop :=
  length v = n ∧ ∀ i c, v !! i = Some c → op_wf c ∧ op_num_numa_nodes c = m.
Definition placed (s : WorkOrdersContainer W) : Prop :=
  half_placed (num_operators s) (num_numa_nodes s) (normal_workorders s) ∧
  half_placed (num_operators s) (num_numa_nodes s) (rebuild_workorders s).

Lemma woc_wf_placed s : woc_wf s → placed s.
Proof. intros [[] []]. by split. Qed.

Lemma half_placed_lookup n m v i :
  half_placed n m v → i < n →
  ∃ c, v !! i = Some c ∧ op_wf c ∧ op_num_numa_nodes c = m ∧
    orders_at v i = op_orders c.
Proof.
  intros [Hl Hv] Hi. destruct (lookup_lt_is_Some_2 v i) as [c Hc]; [lia|].
  exists c. destruct (Hv i c Hc). unfold orders_at. by rewrite Hc.
Qed.

Lemma half_placed_insert n m v i c c' :
  half_placed n m v → v !! i = Some c → op_wf c' →
  op_num_numa_nodes c' = op_num_numa_nodes c → half_placed n m (<[i := c']> v).
Proof.
  intros [Hl Hv] Hi Hc' Hn. split; [by rewrite length_insert|].
  intros j d [(<- & <- & _)|[_ Hj]]%list_lookup_insert_Some; [|eauto].
  split; [done|]. rewrite Hn. by apply (Hv i).
Qed.

(** Removing a work order from operator [i] in a vector of containers. *)
Lemma half_placed_remove n m v i c c' w :
  half_placed n m v → v !! i = Some c → op_wf c' →
  op_num_numa_nodes c' = op_num_numa_nodes c → op_orders c ≡ₚ w :: op_orders c' →
  half_placed n m (<[i := c']> v) ∧ tagged v ≡ₚ (i, w) :: tagged (<[i := c']> v).
Proof.
  intros Hv Hi Hc' Hn Hp. split; [by eapply half_placed_insert|].
  destruct (tagged_insert v i c c' Hi) as (r & -> & ->). by rewrite Hp.
Qed.

(** The contents of one operator, from the tagged bag. *)
Definition normal_of (i : nat) (s : WorkOrdersContainer W) : list W :=
  of_op i (tagged (normal_workorders s)).
Definition rebuild_of (i : nat) (s : WorkOrdersContainer W) : list W :=
  of_op i (tagged (rebuild_workorders s)).

(** A request answered from the bag [l] with [o], leaving [l']: the work order
    satisfies [good], and a null pointer means no work order does. *)
Definition answered (good : W → Prop) (i : nat) (l l' : bag) (o : option W)
  : Prop :=
  match o with
  | Some w => good w ∧ l ≡ₚ (i, w) :: l'
  | None => (∀ w, w ∈ of_op i l → ¬ good w) ∧ l' = l
  end.

Lemma get_for_answered n m v i node :
  half_placed n m v → i < n → node < m →
  ∃ o c c', v !! i = Some c ∧
    op_getWorkOrderForNUMANode (Z.of_nat node) c = Ok (o, c') ∧
    half_placed n m (<[i := c']> v) ∧
    answered (λ w, Z.of_nat node ∈ getPreferredNUMANodes w) i
      (tagged v) (tagged (<[i := c']> v)) o.
Proof.
  intros Hv Hi Hm.
  destruct (half_placed_lookup n m v i Hv Hi) as (c & Hc & Hwf & Hn & Ho).
  rewrite <- Hn in Hm.
  destruct (op_get_for_spec c node Hwf Hm) as (o & c' & Hget & Hs).
  exists o, c, c'. split; [done|]. split; [done|]. destruct o as [w|]; cbn.
  - destruct Hs as (? & ? & ? & ?).
    destruct (half_placed_remove n m v i c c' w); auto.
  - destruct Hs as [Hnone ->]. rewrite list_insert_id by done.
    split; [done|split; [|done]]. rewrite of_op_tagged, Ho. intros w Hw.
    apply orders_for_none in Hnone. by eapply Forall_forall in Hnone.
Qed.

Lemma get_answered n m v i prefer :
  half_placed n m v → i < n →
  ∃ o c c', v !! i = Some c ∧ op_getWorkOrder prefer c = (o, c') ∧
    half_placed n m (<[i := c']> v) ∧
    answered (λ _, True) i (tagged v) (tagged (<[i := c']> v)) o.
Proof.
  intros Hv Hi.
  destruct (half_placed_lookup n m v i Hv Hi) as (c & Hc & Hwf & Hn & Ho).
  pose proof (op_get_spec prefer c Hwf) as Hs.
  destruct (op_getWorkOrder prefer c) as [o c'] eqn:Hget.
  exists o, c, c'. split; [done|]. split; [done|]. destruct o as [w|]; cbn.
  - destruct Hs as (? & ? & ?).
    destruct (half_placed_remove n m v i c c' w); auto.
  - destruct Hs as [Hnone ->]. rewrite list_insert_id by done.
    split; [done|split; [|done]]. rewrite of_op_tagged, Ho, Hnone. set_solver.
Qed.

(** Queries about one vector of operator containers. *)
Lemma half_queries n m v i node :
  half_placed n m v → i < n → node < m →
  (vec_at v i ≫= op_hasWorkOrder) = Ok (bool_decide (of_op i (tagged v) ≠ [])) ∧
  op_getNumWorkOrders <$> vec_at v i = Ok (length (of_op i (tagged v))) ∧
  (vec_at v i ≫= op_hasWorkOrderForNUMANode (Z.of_nat node)) =
    Ok (bool_decide (orders_for (Z.of_nat node) (of_op i (tagged v)) ≠ [])) ∧
  (vec_at v i ≫= op_getNumWorkOrdersForNUMANode (Z.of_nat node)) =
    Ok (length (orders_for (Z.of_nat node) (of_op i (tagged v)))).
Proof.
  intros Hv Hi Hm.
  destruct (half_placed_lookup n m v i Hv Hi) as (c & Hc & Hwf & Hn & Ho).
  rewrite (vec_at_Some _ _ _ Hc), of_op_tagged, Ho. rewrite <- Hn in Hm. cbn.
  by rewrite op_has_spec, op_num_spec, op_has_for_spec, op_num_for_spec.
Qed.

Lemma pending_loop_spec s op k :
  placed s → op + k = num_operators s →
  ∃ b, pending_loop s op k = Ok b ∧
    (b = true ↔ ∃ i, op ≤ i < num_operators s ∧
        (normal_of i s ≠ [] ∨ rebuild_of i s ≠ [])).
Proof.
  intros [HN HR]. revert op. induction k as [|k IH]; intros op Hk; cbn.
  { exists false. split; [done|]. split; [done|]. intros (i & ? & _). lia. }
  unfold hasNormalWorkOrder, hasRebuildWorkOrder.
  destruct (half_placed_lookup _ _ _ op HN) as (c & Hc & Hwf & _ & Ho); [lia|].
  destruct (half_placed_lookup _ _ _ op HR) as (d & Hd & Hwfd & _ & Hod); [lia|].
  rewrite (vec_at_Some _ _ _ Hc), (vec_at_Some _ _ _ Hd). cbn.
  rewrite !op_has_spec, <- Ho, <- Hod, <- !of_op_tagged by done.
  fold (normal_of op s) (rebuild_of op s). cbn.
  case_bool_decide as H1; cbn.
  { exists true. split; [done|]. split; [|done]. exists op. split; [lia|auto]. }
  case_bool_decide as H2; cbn.
  { exists true. split; [done|]. split; [|done]. exists op. split; [lia|auto]. }
  destruct (IH (S op)) as (b & -> & Hb); [lia|]. exists b. split; [done|].
  rewrite Hb. split; intros (i & ? & Hi).
  - exists i. split; [lia|done].
  - exists i. split; [|done]. destruct (decide (i = op)) as [->|?]; [tauto|lia].
Qed.

(** ** Properties *)

(** C12. Whatever sequence of additions (to existing operators, with an
    existing preferred NUMA node) and requests is run on a new container, it
    runs to the end without undefined behaviour and behaves as two bags of
    pending work orders: a request hands out a pending rebuild work order of
    the operator it names when there is one, otherwise a pending normal one,
    and a null pointer only when nothing at all is pending. *)
Theorem work_orders_container_refines_bags n m cs :
  forallb (command_ok n m) cs = true →
  ∃ rs s, run_commands cs (new_WorkOrdersContainer n m) = Ok (rs, s) ∧
    bag_run cs rs ([], []) (pending s).
Proof.
  intros Hcs.
  destruct (run_commands_spec cs (new_WorkOrdersContainer n m) (new_woc_wf n m) Hcs)
    as (rs & s & Hrun & _ & _ & _ & Hbag).
  rewrite new_pending in Hbag. eauto.
Qed.

(** C13. No work order is lost or duplicated: after any commands that name
    existing operators and NUMA nodes, the work orders added so far, of either
    kind, are those handed out and those pending.  If no rebuild work order
    that was added has a preferred NUMA node, rebuild work orders are moreover
    handed out in exactly the order in which they were added, across
    operators. *)
Theorem work_orders_conserved n m cs rs s :
  forallb (command_ok n m) cs = true →
  run_commands cs (new_WorkOrdersContainer n m) = Ok (rs, s) →
  (∀ rebuild, (cs ≫= added rebuild) ≡ₚ
    (rs ≫= handed_out rebuild) ++ part rebuild (pending s)) ∧
  (forallb rebuild_agnostic cs = true →
   ∃ L, (cs ≫= added true) = (rs ≫= handed_out true) ++ L ∧
     tagged (rebuild_workorders s) ≡ₚ L).
Proof.
  intros Hcs Hrun. split; [intros rebuild|intros Ha].
  - destruct (run_commands_spec cs (new_WorkOrdersContainer n m) (new_woc_wf n m) Hcs)
      as (rs' & s' & Hrun' & _ & _ & _ & Hbag).
    rewrite Hrun in Hrun'. injection Hrun' as <- <-.
    rewrite new_pending in Hbag.
    apply (bag_run_conserves rebuild) in Hbag. by destruct rebuild.
  - destruct (log_commands cs _ [] rs s (new_woc_wf n m) (new_rebuild_log n m)
      Ha Hcs Hrun) as (L & HL & He).
    exists L. split; [done|].
    destruct (run_commands_spec cs (new_WorkOrdersContainer n m) (new_woc_wf n m) Hcs)
      as (rs' & s' & Hrun' & _ & _ & _ & Hbag).
    rewrite Hrun in Hrun'. injection Hrun' as <- <-. rewrite new_pending in Hbag.
    apply (bag_run_conserves true) in Hbag. cbn in He, Hbag.
    rewrite He in Hbag. by apply Permutation_app_inv_l in Hbag.
Qed.

(** The queries agree with what is pending: for an operator and a NUMA node
    that exist, [has...] says whether there is a work order (listing the node)
    and [getNum...] how many there are; the warning of the destructor is given
    exactly when some operator has a pending work order.  The functions that
    take a work order of the operator, for the node or for none, remove exactly
    the pending work order they return, which lists the requested node; a null
    pointer means the operator has no such work order, and then nothing
    changed. *)
Lemma work_order_queries s i node prefer :
  placed s → i < num_operators s → node < num_numa_nodes s →
  (hasNormalWorkOrder i s = Ok (bool_decide (normal_of i s ≠ [])) ∧
  hasRebuildWorkOrder i s = Ok (bool_decide (rebuild_of i s ≠ [])) ∧
  getNumNormalWorkOrders i s = Ok (length (normal_of i s)) ∧
  getNumRebuildWorkOrders i s = Ok (length (rebuild_of i s)) ∧
  getNumTotalWorkOrders i s =
    Ok (length (normal_of i s) + length (rebuild_of i s)) ∧
  hasNormalWorkOrderForNUMANode i (Z.of_nat node) s =
    Ok (bool_decide (orders_for (Z.of_nat node) (normal_of i s) ≠ [])) ∧
  hasRebuildWorkOrderForNUMANode i (Z.of_nat node) s =
    Ok (bool_decide (orders_for (Z.of_nat node) (rebuild_of i s) ≠ [])) ∧
  getNumNormalWorkOrdersForNUMANode i (Z.of_nat node) s =
    Ok (length (orders_for (Z.of_nat node) (normal_of i s))) ∧
  getNumRebuildWorkOrdersForNUMANode i (Z.of_nat node) s =
    Ok (length (orders_for (Z.of_nat node) (rebuild_of i s))) ∧
  ∃ b, destructor_warns s = Ok b ∧
    (b = true ↔ ∃ j, j < num_operators s ∧
        (normal_of j s ≠ [] ∨ rebuild_of j s ≠ []))) ∧
  (let good w := Z.of_nat node ∈ getPreferredNUMANodes w in
  (∃ o s', getNormalWorkOrderForNUMANode i (Z.of_nat node) s = Ok (o, s') ∧
     placed s' ∧ answered good i (pending s).1 (pending s').1 o ∧
     (pending s').2 = (pending s).2) ∧
  (∃ o s', getRebuildWorkOrderForNUMANode i (Z.of_nat node) s = Ok (o, s') ∧
     placed s' ∧ answered good i (pending s).2 (pending s').2 o ∧
     (pending s').1 = (pending s).1) ∧
  (∃ o s', getNormalWorkOrder i prefer s = Ok (o, s') ∧
     placed s' ∧ answered (λ _, True) i (pending s).1 (pending s').1 o ∧
     (pending s').2 = (pending s).2) ∧
  (∃ o s', getRebuildWorkOrder i prefer s = Ok (o, s') ∧
     placed s' ∧ answered (λ _, True) i (pending s).2 (pending s').2 o ∧
     (pending s').1 = (pending s).1)).
Proof.
  intros Hp Hi Hm. pose proof Hp as [HN HR]. split.
  - destruct (half_queries _ _ _ _ _ HN Hi Hm) as (N1 & N2 & N3 & N4).
    destruct (half_queries _ _ _ _ _ HR Hi Hm) as (R1 & R2 & R3 & R4).
    unfold getNumTotalWorkOrders, getNumNormalWorkOrders, getNumRebuildWorkOrders.
    rewrite N2, R2. split_and!; try done.
    destruct (pending_loop_spec s 0 (num_operators s) Hp) as (b & ? & Hb); [done|].
    exists b. split; [done|]. rewrite Hb.
    split; intros (j & ? & ?); exists j; (split; [lia|done]).
  - intros good.
    unfold getNormalWorkOrderForNUMANode, getRebuildWorkOrderForNUMANode,
      getNormalWorkOrder, getRebuildWorkOrder.
    split_and!.
    + destruct (get_for_answered _ _ _ i node HN Hi Hm) as (o & c & c' & Hc & He & ? & ?).
      rewrite (vec_at_Some _ _ _ Hc). cbn. rewrite He. by eexists _, _.
    + destruct (get_for_answered _ _ _ i node HR Hi Hm) as (o & c & c' & Hc & He & ? & ?).
      rewrite (vec_at_Some _ _ _ Hc). cbn. rewrite He. by eexists _, _.
    + destruct (get_answered _ _ _ i prefer HN Hi) as (o & c & c' & Hc & He & ? & ?).
      rewrite (vec_at_Some _ _ _ Hc). cbn. rewrite He. by eexists _, _.
    + destruct (get_answered _ _ _ i prefer HR Hi) as (o & c & c' & Hc & He & ? & ?).
      rewrite (vec_at_Some _ _ _ Hc). cbn. rewrite He. by eexists _, _.
Qed.

End scheduling.
Arguments command : clear implicits.
Arguments normal_of : simpl never.
Arguments rebuild_of : simpl never.

(** ** Concrete runs *)

(** A work order that is its number and its preferred NUMA nodes. *)
Record plain_order := Plain { plain_id : nat; plain_nodes : list Z }.
#[global] Instance plain_work_order : WorkOrder plain_order :=
  {| getPreferredNUMANodes := plain_nodes |}.

Definition sample_commands : list (command plain_order) :=
  [AddNormal (Plain 1 [1%Z]) 0; AddNormal (Plain 2 []) 1;
   AddRebuild (Plain 3 []) 1; AddNormal (Plain 4 [0%Z; 1%Z]) 0;
   AddRebuild (Plain 5 []) 0; GetNext; GetNext; GetNext; GetNext].
Definition sample_state : WorkOrdersContainer plain_order :=
  match run_commands sample_commands (new_WorkOrdersContainer 2 2) with
  | Ok (_, s) => s
  | Err _ => new_WorkOrdersContainer 2 2
  end.
Definition sample_replies : list (option (plain_order * nat * bool)) :=
  [Some (Plain 3 [], 1, true); Some (Plain 5 [], 0, true);
   Some (Plain 1 [1%Z], 0, false); Some (Plain 2 [], 1, false)].

Lemma sample_run :
  run_commands sample_commands (new_WorkOrdersContainer 2 2) =
  Ok (sample_replies, sample_state).
Proof. vm_compute. reflexivity. Qed.

Lemma sample_placed : placed sample_state.
Proof.
  destruct (run_commands_spec sample_commands (new_WorkOrdersContainer 2 2)
    (new_woc_wf 2 2)) as (rs & s & Hrun & Hwf & _); [reflexivity|].
  rewrite sample_run in Hrun. injection Hrun as <- <-. by apply woc_wf_placed.
Qed.

Lemma work_orders_container_refines_bags_witness :
  ∃ rs s, run_commands sample_commands (new_WorkOrdersContainer 2 2) = Ok (rs, s) ∧
    bag_run sample_commands rs ([], []) (pending s).
Proof. apply (work_orders_container_refines_bags 2 2). reflexivity. Defined.

Lemma work_orders_conserved_witness :
  (sample_commands ≫= added false) ≡ₚ
  (sample_replies ≫= handed_out false) ++ part false (pending sample_state) ∧
  ∃ L, (sample_commands ≫= added true) = (sample_replies ≫= handed_out true) ++ L ∧
    tagged (rebuild_workorders sample_state) ≡ₚ L.
Proof.
  destruct (work_orders_conserved 2 2 sample_commands sample_replies sample_state)
    as [Hc Hf]; [reflexivity|exact sample_run|].
  split; [apply Hc|apply Hf; reflexivity].
Defined.

Lemma work_order_queries_witness :
  getNumNormalWorkOrders 0 sample_state =
    Ok (length (normal_of 0 sample_state)) ∧
  ∃ o s', getNormalWorkOrderForNUMANode 0 1 sample_state = Ok (o, s') ∧
     placed s' ∧
     answered (λ w, 1%Z ∈ getPreferredNUMANodes w) 0
       (pending sample_state).1 (pending s').1 o ∧
     (pending s').2 = (pending sample_state).2.
Proof.
  destruct (work_order_queries sample_state 0 1 true) as [Hq Hr];
    [exact sample_placed|vm_compute; lia|vm_compute; lia|].
  split; [apply Hq|apply Hr].
Defined.
