(* ===== verification/StateMonad.v ===== *)
(** * Stateful computations that can fail

    A C++ member function that changes its object is a computation
    [stateM S A]: from a state of the object to an outcome with a result and a
    new state.  [wp] is its weakest precondition for total correctness: the
    computation ends in a value, and the postcondition holds of it. *)

From S2P Require Import Prelude.
From stdpp Require Import options.

Definition stateM (S A : Type) : Type := S → outcome (A * S).

#[global] Instance stateM_ret {S} : MRet (stateM S) := λ A a s, Ok (a, s).
#[global] Instance stateM_bind {S} : MBind (stateM S) := λ A B f m s,
  match m s with Ok (a, s') => f a s' | Err e => Err e end.

Definition gets {S A} (f : S → A) : stateM S A := λ s, Ok (f s, s).
Definition modify {S} (f : S → S) : stateM S unit := λ s, Ok (tt, f s).
(** A computation that reads the state and may fail. *)
Definition reads {S A} (f : S → outcome A) : stateM S A := λ s,
  match f s with Ok a => Ok (a, s) | Err e => Err e end.
(** A computation that replaces the state and may fail. *)
Definition updates {S} (f : S → outcome S) : stateM S unit := λ s,
  match f s with Ok s' => Ok (tt, s') | Err e => Err e end.
Definition fails {S A} (e : failure) : stateM S A := λ _, Err e.

(** [for (x : l) f(x);] *)
Fixpoint for_each {S A} (f : A → stateM S unit) (l : list A) : stateM S unit :=
  match l with
  | [] => mret tt
  | x :: l' => f x ;; for_each f l'
  end.

Definition wp {S A} (m : stateM S A) (Q : A → S → Prop) (s : S) : Prop :=
  match m s with Ok (a, s') => Q a s' | Err _ => False end.

Section wp.
Context {S : Type}.

Lemma wp_ret {A} (a : A) (Q : A → S → Prop) s : Q a s → wp (mret a) Q s.
Proof. done. Qed.

Lemma wp_bind {A B} (m : stateM S A) (f : A → stateM S B) (Q : B → S → Prop) s :
  wp m (λ a s', wp (f a) Q s') s → wp (m ≫= f) Q s.
Proof.
  unfold wp, mbind, stateM_bind. by destruct (m s) as [[a s']|].
Qed.

Lemma wp_mono {A} (m : stateM S A) (Q Q' : A → S → Prop) s :
  wp m Q s → (∀ a s', Q a s' → Q' a s') → wp m Q' s.
Proof. unfold wp. destruct (m s) as [[a s']|]; auto. Qed.

Lemma wp_gets {A} (f : S → A) (Q : A → S → Prop) s : Q (f s) s → wp (gets f) Q s.
Proof. done. Qed.

Lemma wp_modify (f : S → S) (Q : unit → S → Prop) s :
  Q tt (f s) → wp (modify f) Q s.
Proof. done. Qed.

Lemma wp_reads {A} (f : S → outcome A) (Q : A → S → Prop) s a :
  f s = Ok a → Q a s → wp (reads f) Q s.
Proof. unfold wp, reads. by intros ->. Qed.

Lemma wp_updates (f : S → outcome S) (Q : unit → S → Prop) s s' :
  f s = Ok s' → Q tt s' → wp (updates f) Q s.
Proof. unfold wp, updates. by intros ->. Qed.

(** The rule for loops: [I] relates the elements visited, those still to
    visit, and the state. *)
Lemma wp_for_each {A} (f : A → stateM S unit) (l : list A)
    (I : list A → list A → S → Prop) s :
  I [] l s →
  (∀ pre x rest s', l = pre ++ x :: rest → I pre (x :: rest) s' →
     wp (f x) (λ _, I (pre ++ [x]) rest) s') →
  wp (for_each f l) (λ _, I l []) s.
Proof.
  intros HI Hstep.
  assert (∀ rest pre s', l = pre ++ rest → I pre rest s' →
            wp (for_each f rest) (λ _, I l []) s') as H; [|by apply (H l [])].
  intros rest. induction rest as [|x rest IH]; intros pre s' Hl Hs'; cbn.
  - rewrite app_nil_r in Hl. by subst.
  - apply wp_bind. eapply wp_mono; [by apply Hstep|].
    intros ? s'' Hs''. eapply (IH (pre ++ [x])); [by rewrite <- app_assoc|exact Hs''].
Qed.

Lemma wp_Ok {A} (m : stateM S A) (Q : A → S → Prop) s :
  wp m Q s ↔ ∃ a s', m s = Ok (a, s') ∧ Q a s'.
Proof. unfold wp. destruct (m s) as [[a s']|]; naive_solver. Qed.

End wp.

Arguments wp : simpl never.
