(* ===== verification/DAG.v ===== *)
(** * Directed acyclic graphs with payloads

    Models the data and the member functions of utility/DAG.hpp that build and
    read a graph, and query_optimizer/QueryPlan.hpp, which builds the graph of
    a query with them.  A node owns its payload, the set of the nodes it
    depends on and the map from the nodes that depend on it to the metadata of
    the link.  Indices past the end of the vector of nodes are undefined
    behaviour; the [DCHECK]s are absent from a release build. *)

From S2P Require Import Prelude.
From stdpp Require Import options.

Record DAGNode (T M : Type) := MkNode {
  payload : T;
  dependencies : gset nat;
  dependents_with_metadata : gmap nat M;
}.
Arguments MkNode {_ _} _ _ _.
Arguments payload {_ _} _.
Arguments dependencies {_ _} _.
Arguments dependents_with_metadata {_ _} _.

Abbreviation DAG T M := (list (DAGNode T M)).

Section DAG.
Context {T M : Type}.

(** ** Nodes *)

(** [emplace] keeps the metadata of a link that exists. *)
Definition addDependent (node_index : nat) (link_metadata : M)
    (d : DAGNode T M) : DAGNode T M :=
  MkNode (payload d) (dependencies d)
    (match dependents_with_metadata d !! node_index with
     | Some _ => dependents_with_metadata d
     | None => <[node_index := link_metadata]> (dependents_with_metadata d)
     end).
Definition addDependency (node_index : nat) (d : DAGNode T M) : DAGNode T M :=
  MkNode (payload d) ({[node_index]} ∪ dependencies d)
    (dependents_with_metadata d).
Definition node_setLinkMetadata (node_index : nat) (link_metadata : M)
    (d : DAGNode T M) : DAGNode T M :=
  MkNode (payload d) (dependencies d)
    (<[node_index := link_metadata]> (dependents_with_metadata d)).
(** [operator[]] of the map: a link that does not exist is created, with the
    value-initialised metadata [zero]. *)
Definition node_getLinkMetadata (zero : M) (node_index : nat) (d : DAGNode T M)
  : M * DAGNode T M :=
  match dependents_with_metadata d !! node_index with
  | Some m => (m, d)
  | None => (zero, node_setLinkMetadata node_index zero d)
  end.
Definition setPayload (t : T) (d : DAGNode T M) : DAGNode T M :=
  MkNode t (dependencies d) (dependents_with_metadata d).

(** ** The graph *)

Definition getNodePayload (node_index : nat) (g : DAG T M) : outcome T :=
  payload <$> vec_at g node_index.
(** [*getNodePayloadMutable(node_index) = t] *)
Definition setNodePayload (node_index : nat) (t : T) (g : DAG T M)
  : outcome (DAG T M) :=
  d ← vec_at g node_index; Ok (<[node_index := setPayload t d]> g).
Definition getDependents (node_index : nat) (g : DAG T M)
  : outcome (gmap nat M) := dependents_with_metadata <$> vec_at g node_index.
Definition getDependencies (node_index : nat) (g : DAG T M)
  : outcome (gset nat) := dependencies <$> vec_at g node_index.
Definition createNode (t : T) (g : DAG T M) : nat * DAG T M :=
  let g' := g ++ [MkNode t ∅ ∅] in (length g' - 1, g').
Definition createLink (dependency_index dependent_index : nat)
    (link_metadata : M) (g : DAG T M) : outcome (DAG T M) :=
  d ← vec_at g dependency_index;
  let g1 := <[dependency_index := addDependent dependent_index link_metadata d]> g in
  e ← vec_at g1 dependent_index;
  Ok (<[dependent_index := addDependency dependency_index e]> g1).
Definition setLinkMetadata (dependency_index dependent_index : nat)
    (link_metadata : M) (g : DAG T M) : outcome (DAG T M) :=
  d ← vec_at g dependency_index;
  Ok (<[dependency_index := node_setLinkMetadata dependent_index link_metadata d]> g).
Definition getLinkMetadata (zero : M) (dependency_index dependent_index : nat)
    (g : DAG T M) : outcome (M * DAG T M) :=
  d ← vec_at g dependency_index;
  let '(m, d') := node_getLinkMetadata zero dependent_index d in
  Ok (m, <[dependency_index := d']> g).
Definition dag_size (g : DAG T M) : nat := length g.

(** The link from [i] to its dependent [j] carries metadata [m]. *)
Definition link (g : DAG T M) (i j : nat) (m : M) : Prop :=
  ∃ d, g !! i = Some d ∧ dependents_with_metadata d !! j = Some m.
(** [j] depends on [i]. *)
Definition edge (g : DAG T M) (i j : nat) : Prop := ∃ m, link g i j m.

(** Both ends of a link know it, and both are nodes. *)
Definition dag_wf (g : DAG T M) : Prop :=
  ∀ i j, edge g i j ↔ ∃ e, g !! j = Some e ∧ i ∈ dependencies e.
End DAG.

(** ** Query plans *)

Section QueryPlan.
Context {Op : Type} (setOperatorIndex : nat → Op → Op).
Context `{!HashOrder (nat * bool)}.

Definition addRelationalOperator (relational_operator : Op) (g : DAG Op bool)
  : nat * DAG Op bool :=
  let '(node_index, g') := createNode relational_operator g in
  (node_index,
   alter (setPayload (setOperatorIndex node_index relational_operator))
     node_index g').

Definition addDirectDependency
    (consumer_operator_index producer_operator_index : nat)
    (is_pipeline_breaker : bool) (g : DAG Op bool) : outcome (DAG Op bool) :=
  createLink producer_operator_index consumer_operator_index
    is_pipeline_breaker g.

Definition addOrUpgradeDirectDependency
    (consumer_operator_index producer_operator_index : nat)
    (is_pipeline_breaker : bool) (g : DAG Op bool) : outcome (DAG Op bool) :=
  dependents ← getDependents producer_operator_index g;
  match (dependents : gmap nat bool) !! consumer_operator_index with
  | None =>
      createLink producer_operator_index consumer_operator_index
        is_pipeline_breaker g
  | Some m =>
      setLinkMetadata producer_operator_index consumer_operator_index
        (m || is_pipeline_breaker) g
  end.

Fixpoint link_dependents (drop_operator_index : nat) (l : list (nat * bool))
    (g : DAG Op bool) : outcome (DAG Op bool) :=
  match l with
  | [] => Ok g
  | (direct_dependent, _) :: l' =>
      g' ← createLink direct_dependent drop_operator_index true g;
      link_dependents drop_operator_index l' g'
  end.
Definition addDependenciesForDropOperator
    (drop_operator_index producer_operator_index : nat) (g : DAG Op bool)
  : outcome (DAG Op bool) :=
  direct_dependents ← getDependents producer_operator_index g;
  if decide (direct_dependents = ∅) then
    createLink producer_operator_index drop_operator_index true g
  else link_dependents drop_operator_index (map_iter direct_dependents) g.
End QueryPlan.
