(* ===== verification/QueryExecutionState.v ===== *)
(** * The state of the execution of a query

    Models query_execution/QueryExecutionState.hpp as it is compiled for a
    single node ([QUICKSTEP_DISTRIBUTED] not defined): which operators have
    finished, have generated all their work orders or need a rebuild, and how
    many of their work orders are in execution.  The counters are [std::size_t]:
    they wrap around at [2 ^ 64]. *)

From S2P Require Import Prelude.
From stdpp Require Import options.

Definition size_inc (n : N) : N := ((n + 1) mod 2 ^ 64)%N.
Definition size_dec (n : N) : N := ((n + (2 ^ 64 - 1)) mod 2 ^ 64)%N.

Lemma size_inc_small n : (n + 1 < 2 ^ 64)%N → size_inc n = (n + 1)%N.
Proof. intros. unfold size_inc. by rewrite N.mod_small. Qed.

Lemma size_dec_pos n : (0 < n < 2 ^ 64)%N → size_dec n = (n - 1)%N.
Proof.
  intros Hn. unfold size_dec.
  replace (n + (2 ^ 64 - 1))%N with ((n - 1) + 1 * 2 ^ 64)%N by lia.
  rewrite N.Div0.mod_add, N.mod_small; lia.
Qed.

Record RebuildStatus := MkStatus {
  has_initiated : bool;
  num_pending_workorders : N;
}.

Record QueryExecutionState := {
  es_num_operators : nat;
  num_operators_finished : N;
  queued_workorders_per_op : list N;
  rebuild_required : list bool;
  done_gen : list bool;
  execution_finished : list bool;
  rebuild_status : gmap nat RebuildStatus;
}.

Definition new_QueryExecutionState (num_operators : nat) : QueryExecutionState := {|
  es_num_operators := num_operators;
  num_operators_finished := 0;
  queued_workorders_per_op := replicate num_operators 0%N;
  rebuild_required := replicate num_operators false;
  done_gen := replicate num_operators false;
  execution_finished := replicate num_operators false;
  rebuild_status := ∅;
|}.

Definition with_queued (v : list N) (s : QueryExecutionState) := {|
  es_num_operators := es_num_operators s;
  num_operators_finished := num_operators_finished s;
  queued_workorders_per_op := v;
  rebuild_required := rebuild_required s;
  done_gen := done_gen s;
  execution_finished := execution_finished s;
  rebuild_status := rebuild_status s;
|}.
Definition with_done_gen (v : list bool) (s : QueryExecutionState) := {|
  es_num_operators := es_num_operators s;
  num_operators_finished := num_operators_finished s;
  queued_workorders_per_op := queued_workorders_per_op s;
  rebuild_required := rebuild_required s;
  done_gen := v;
  execution_finished := execution_finished s;
  rebuild_status := rebuild_status s;
|}.
Definition with_finished (n : N) (v : list bool) (s : QueryExecutionState) := {|
  es_num_operators := es_num_operators s;
  num_operators_finished := n;
  queued_workorders_per_op := queued_workorders_per_op s;
  rebuild_required := rebuild_required s;
  done_gen := done_gen s;
  execution_finished := v;
  rebuild_status := rebuild_status s;
|}.
Definition with_rebuild (v : list bool) (m : gmap nat RebuildStatus)
    (s : QueryExecutionState) := {|
  es_num_operators := es_num_operators s;
  num_operators_finished := num_operators_finished s;
  queued_workorders_per_op := queued_workorders_per_op s;
  rebuild_required := v;
  done_gen := done_gen s;
  execution_finished := execution_finished s;
  rebuild_status := m;
|}.

Definition getNumOperators (s : QueryExecutionState) : nat := es_num_operators s.
Definition getNumOperatorsFinished (s : QueryExecutionState) : N :=
  num_operators_finished s.
Definition hasQueryExecutionFinished (s : QueryExecutionState) : bool :=
  (num_operators_finished s =? N.of_nat (es_num_operators s))%N.

(** The entry of an operator that needs no rebuild does not exist: writing
    through the end iterator is undefined. *)
Definition setRebuildStatus (operator_index : nat) (num_rebuild_workorders : N)
    (rebuild_initiated : bool) (s : QueryExecutionState)
  : outcome QueryExecutionState :=
  match rebuild_status s !! operator_index with
  | Some _ =>
      Ok (with_rebuild (rebuild_required s)
            (<[operator_index := MkStatus rebuild_initiated num_rebuild_workorders]>
               (rebuild_status s)) s)
  | None => Err UndefinedBehaviour
  end.
Definition hasRebuildInitiated (operator_index : nat) (s : QueryExecutionState)
  : bool :=
  match rebuild_status s !! operator_index with
  | Some st => has_initiated st
  | None => false
  end.
Definition getNumRebuildWorkOrders_es (operator_index : nat)
    (s : QueryExecutionState) : N :=
  match rebuild_status s !! operator_index with
  | Some st => num_pending_workorders st
  | None => 0
  end.
Definition incrementNumRebuildWorkOrders (operator_index : nat)
    (num_rebuild_workorders : N) (s : QueryExecutionState)
  : outcome QueryExecutionState :=
  match rebuild_status s !! operator_index with
  | Some st =>
      Ok (with_rebuild (rebuild_required s)
            (<[operator_index :=
                 MkStatus (has_initiated st)
                   ((num_pending_workorders st + num_rebuild_workorders)
                      mod 2 ^ 64)%N]> (rebuild_status s)) s)
  | None => Err UndefinedBehaviour
  end.
Definition decrementNumRebuildWorkOrders (operator_index : nat)
    (s : QueryExecutionState) : outcome QueryExecutionState :=
  match rebuild_status s !! operator_index with
  | Some st =>
      Ok (with_rebuild (rebuild_required s)
            (<[operator_index :=
                 MkStatus (has_initiated st) (size_dec (num_pending_workorders st))]>
               (rebuild_status s)) s)
  | None => Err CheckFailed
  end.
Definition incrementNumQueuedWorkOrders (operator_index : nat)
    (s : QueryExecutionState) : outcome QueryExecutionState :=
  n ← vec_at (queued_workorders_per_op s) operator_index;
  v ← vec_set (queued_workorders_per_op s) operator_index (size_inc n);
  Ok (with_queued v s).
Definition decrementNumQueuedWorkOrders (operator_index : nat)
    (s : QueryExecutionState) : outcome QueryExecutionState :=
  n ← vec_at (queued_workorders_per_op s) operator_index;
  v ← vec_set (queued_workorders_per_op s) operator_index (size_dec n);
  Ok (with_queued v s).
Definition getNumQueuedWorkOrders (operator_index : nat)
    (s : QueryExecutionState) : outcome N :=
  vec_at (queued_workorders_per_op s) operator_index.
(** [emplace] keeps a status that exists. *)
Definition setRebuildRequired (operator_index : nat) (s : QueryExecutionState)
  : outcome QueryExecutionState :=
  v ← vec_set (rebuild_required s) operator_index true;
  Ok (with_rebuild v
        (match rebuild_status s !! operator_index with
         | Some _ => rebuild_status s
         | None => <[operator_index := MkStatus false 0]> (rebuild_status s)
         end) s).
Definition isRebuildRequired (operator_index : nat) (s : QueryExecutionState)
  : outcome bool := vec_at (rebuild_required s) operator_index.
Definition setExecutionFinished (operator_index : nat) (s : QueryExecutionState)
  : outcome QueryExecutionState :=
  v ← vec_set (execution_finished s) operator_index true;
  Ok (with_finished (size_inc (num_operators_finished s)) v s).
Definition hasExecutionFinished (operator_index : nat) (s : QueryExecutionState)
  : outcome bool := vec_at (execution_finished s) operator_index.
Definition setDoneGenerationWorkOrders (operator_index : nat)
    (s : QueryExecutionState) : outcome QueryExecutionState :=
  v ← vec_set (done_gen s) operator_index true;
  Ok (with_done_gen v s).
Definition hasDoneGenerationWorkOrders (operator_index : nat)
    (s : QueryExecutionState) : outcome bool :=
  vec_at (done_gen s) operator_index.
