(* ===== verification/DAGAlgorithms.v ===== *)
(** * Cycles and topological order of a plan graph

    Models hasCycle, hasCycleHelper and getTopologicalSorting of
    utility/DAG.hpp, over the graphs of [DAG].  The traversals of the hash
    containers are in any order.  A [std::vector<bool>] of marks is a list of
    booleans.  A graph has fewer than [2 ^ 32] nodes, so that the [unsigned]
    counter of getTopologicalSorting reaches its size. *)

From S2P Require Import Prelude DAG QueryExecutionState.
From stdpp Require Import options.

(** ** Graphs that the member functions build *)

Section built.
Context {T M : Type}.

Inductive built : DAG T M → Prop :=
| built_empty : built []
| built_node t g : built g → built (createNode t g).2
| built_link i j m g g' : built g → createLink i j m g = Ok g' → built g'
| built_metadata i j m g g' : built g → edge g i j →
    setLinkMetadata i j m g = Ok g' → built g'
| built_payload i t g g' : built g → setNodePayload i t g = Ok g' → built g'.
End built.

Section algorithms.
Context {T M : Type} `{!HashOrder (nat * M)} (g : DAG T M).

(** ** hasCycle *)

(** [visited] and [on_stack]. *)
Abbreviation marks := (list bool * list bool)%type.

(** The loop over the dependents of a node, [helper] being hasCycleHelper. *)
Fixpoint cycle_dependents (helper : nat → marks → outcome (bool * marks))
    (dependents : list (nat * M)) (s : marks) : outcome (bool * marks) :=
  match dependents with
  | [] => Ok (false, s)
  | (dependent, _) :: dependents' =>
      seen ← vec_at s.1 dependent;
      '(found, s) ← (if seen : bool then Ok (false, s) else helper dependent s);
      if found : bool then Ok (true, s)
      else
        stacked ← vec_at s.2 dependent;
        if stacked : bool then Ok (true, s)
        else cycle_dependents helper dependents' s
  end.

(** A nested call is for a node that has not been visited. *)
Fixpoint hasCycleHelper (fuel node_index : nat) (s : marks)
  : outcome (bool * marks) :=
  match fuel with
  | 0 => Err OutOfFuel
  | S fuel =>
      seen ← vec_at s.1 node_index;
      '(found, s) ←
        (if seen : bool then Ok (false, s)
         else
           visited ← vec_set s.1 node_index true;
           on_stack ← vec_set s.2 node_index true;
           dependents ← getDependents node_index g;
           cycle_dependents (hasCycleHelper fuel) (map_iter dependents)
             (visited, on_stack));
      if found : bool then Ok (true, s)
      else
        on_stack ← vec_set s.2 node_index false;
        Ok (false, (s.1, on_stack))
  end.

Fixpoint cycle_nodes (nodes : list nat) (s : marks) : outcome bool :=
  match nodes with
  | [] => Ok false
  | curr_node_index :: nodes' =>
      '(found, s) ← hasCycleHelper (S (dag_size g)) curr_node_index s;
      if found : bool then Ok true else cycle_nodes nodes' s
  end.
Definition hasCycle : outcome bool :=
  cycle_nodes (seq 0 (dag_size g))
    (replicate (dag_size g) false, replicate (dag_size g) false).

(** ** getTopologicalSorting *)

(** The first loop: the queue of the nodes without dependencies, and the number
    of dependencies of each node. *)
Fixpoint count_dependencies (nodes : list nat) (queue : list nat)
    (num_dependencies : gmap nat N) : outcome (list nat * gmap nat N) :=
  match nodes with
  | [] => Ok (queue, num_dependencies)
  | node_id :: nodes' =>
      deps ← getDependencies node_id g;
      count_dependencies nodes'
        (if decide (deps = ∅) then queue ++ [node_id] else queue)
        (<[node_id := N.of_nat (size deps)]> num_dependencies)
  end.

(** The loop over the dependents of the current node; [operator[]] creates a
    missing counter with value 0. *)
Fixpoint release_dependents (dependents : list (nat * M)) (queue : list nat)
    (num_dependencies : gmap nat N) : list nat * gmap nat N :=
  match dependents with
  | [] => (queue, num_dependencies)
  | (dependent_node_id, _) :: dependents' =>
      let n := size_dec (default 0%N (num_dependencies !! dependent_node_id)) in
      release_dependents dependents'
        (if (n =? 0)%N then queue ++ [dependent_node_id] else queue)
        (<[dependent_node_id := n]> num_dependencies)
  end.

Fixpoint sort_loop (fuel : nat) (queue : list nat)
    (num_dependencies : gmap nat N) (sorted_list : list nat)
  : outcome (list nat) :=
  match queue, fuel with
  | [], _ => Ok sorted_list
  | _, 0 => Err OutOfFuel
  | curr_node :: queue', S fuel =>
      dependents ← getDependents curr_node g;
      let '(queue'', num_dependencies') :=
        release_dependents (map_iter dependents) queue' num_dependencies in
      sort_loop fuel queue'' num_dependencies' (sorted_list ++ [curr_node])
  end.

(** A node enters the queue once. *)
Definition getTopologicalSorting : outcome (list nat) :=
  '(queue, num_dependencies) ← count_dependencies (seq 0 (dag_size g)) [] ∅;
  sort_loop (dag_size g) queue num_dependencies [].
End algorithms.

(** ** Built graphs are well-formed *)

Section wf.
Context {T M : Type}.
Implicit Types (g : DAG T M).

(** The dependents and the dependencies of an index, none past the end. *)
Definition dependents_of g (i : nat) : gmap nat M :=
  from_option dependents_with_metadata ∅ (g !! i).
Definition dependencies_of g (i : nat) : gset nat :=
  from_option dependencies ∅ (g !! i).

Lemma edge_dependents g i j : edge g i j ↔ is_Some (dependents_of g i !! j).
Proof.
  unfold edge, link, dependents_of. destruct (g !! i) as [d|]; cbn.
  - split; [by intros (m & ? & [= <-] & ?); exists m|intros [m Hm]; by exists m, d].
  - rewrite lookup_empty. split; [by intros (? & ? & ? & _)|by intros []].
Qed.

Lemma wf_dependencies g :
  dag_wf g ↔ ∀ i j, is_Some (dependents_of g i !! j) ↔ i ∈ dependencies_of g j.
Proof.
  unfold dag_wf. setoid_rewrite edge_dependents. unfold dependencies_of.
  split; intros H i j; rewrite H; destruct (g !! j) as [e|]; cbn;
    split; try done; try naive_solver; set_solver.
Qed.

Lemma edge_dependencies g i j : dag_wf g → edge g i j ↔ i ∈ dependencies_of g j.
Proof. rewrite edge_dependents, wf_dependencies. auto. Qed.

Lemma dag_edge_lt g i j : dag_wf g → edge g i j → i < length g ∧ j < length g.
Proof.
  intros Hwf He. split.
  - destruct He as (m & d & Hd & _). by eapply lookup_lt_Some.
  - apply Hwf in He as (e & He & _). by eapply lookup_lt_Some.
Qed.

Lemma getDependents_at g i : i < length g → getDependents i g = Ok (dependents_of g i).
Proof.
  intros Hi. unfold getDependents, dependents_of, vec_at.
  by destruct (lookup_lt_is_Some_2 g i Hi) as [d ->].
Qed.
Lemma getDependencies_at g i : i < length g → getDependencies i g = Ok (dependencies_of g i).
Proof.
  intros Hi. unfold getDependencies, dependencies_of, vec_at.
  by destruct (lookup_lt_is_Some_2 g i Hi) as [d ->].
Qed.

Lemma dependents_iter `{!HashOrder (nat * M)} g i d :
  edge g i d ↔ ∃ m, (d, m) ∈ map_iter (dependents_of g i).
Proof. rewrite edge_dependents. by setoid_rewrite elem_of_map_iter. Qed.

Lemma dependents_insert g i d k :
  i < length g → dependents_of (<[i := d]> g) k =
    if decide (k = i) then dependents_with_metadata d else dependents_of g k.
Proof.
  intros Hi. unfold dependents_of. case_decide; subst.
  - by rewrite list_lookup_insert_eq.
  - by rewrite list_lookup_insert_ne.
Qed.
Lemma dependencies_insert g i d k :
  i < length g → dependencies_of (<[i := d]> g) k =
    if decide (k = i) then dependencies d else dependencies_of g k.
Proof.
  intros Hi. unfold dependencies_of. case_decide; subst.
  - by rewrite list_lookup_insert_eq.
  - by rewrite list_lookup_insert_ne.
Qed.

Lemma createNode_wf t g : dag_wf g → dag_wf (createNode t g).2.
Proof.
  rewrite !wf_dependencies. intros Hwf i j. cbn.
  assert (dependents_of (g ++ [MkNode t ∅ ∅]) i = dependents_of g i) as ->.
  { unfold dependents_of. destruct (decide (i < length g)).
    - by rewrite lookup_app_l.
    - rewrite lookup_app_r, (lookup_ge_None_2 g i) by lia.
      by destruct (i - length g) as [|[]]. }
  rewrite Hwf. unfold dependencies_of. destruct (decide (j < length g)).
  - by rewrite lookup_app_l.
  - rewrite lookup_app_r, (lookup_ge_None_2 g j) by lia.
    by destruct (j - length g) as [|[]].
Qed.

Lemma addDependent_is_Some i m (d : DAGNode T M) l :
  is_Some (dependents_with_metadata (addDependent i m d) !! l) ↔
    is_Some (dependents_with_metadata d !! l) ∨ l = i.
Proof.
  cbn. destruct (dependents_with_metadata d !! i) eqn:Hi.
  - split; [by left|]. intros [?| ->]; [done|by rewrite Hi].
  - rewrite lookup_insert_is_Some. destruct (decide (l = i)); naive_solver.
Qed.

Lemma createLink_wf i j m g g' : dag_wf g → createLink i j m g = Ok g' → dag_wf g'.
Proof.
  rewrite !wf_dependencies. intros Hwf Hg. unfold createLink in Hg. inv_ok.
  rename x into d, x0 into e, H into Hd, H0 into He.
  assert (i < length g) as Hi by (by eapply lookup_lt_Some).
  assert (j < length g) as Hj
    by (apply lookup_lt_Some in He; by rewrite length_insert in He).
  assert (dependents_of g i = dependents_with_metadata d) as Hdd
    by (unfold dependents_of; by rewrite Hd).
  assert (dependencies_of g j = dependencies e ∧
    dependents_with_metadata e =
      if decide (j = i) then dependents_with_metadata (addDependent j m d)
      else dependents_of g j) as [Hed Hee].
  { unfold dependencies_of, dependents_of. destruct (decide (j = i)) as [->|Hne].
    - rewrite list_lookup_insert_eq in He by done. injection He as <-. by rewrite Hd.
    - rewrite list_lookup_insert_ne in He by done. by rewrite He. }
  intros k l. rewrite !dependents_insert, !dependencies_insert
    by (by rewrite ?length_insert).
  trans (k ∈ dependencies_of g l ∨ (k = i ∧ l = j)).
  - rewrite <- Hwf. cbn [addDependency dependents_with_metadata]. rewrite Hee.
    repeat case_decide; subst; rewrite ?addDependent_is_Some, ?Hdd; naive_solver.
  - destruct (decide (l = j)) as [->|]; cbn [addDependency dependencies].
    + rewrite elem_of_union, elem_of_singleton, <- Hed. naive_solver.
    + destruct (decide (l = i)) as [->|]; [|naive_solver].
      assert (dependencies_of g i = dependencies d) as ->
        by (unfold dependencies_of; by rewrite Hd). cbn. naive_solver.
Qed.

Lemma setLinkMetadata_wf i j m g g' :
  dag_wf g → edge g i j → setLinkMetadata i j m g = Ok g' → dag_wf g'.
Proof.
  rewrite edge_dependents, !wf_dependencies. intros Hwf He Hg.
  unfold setLinkMetadata in Hg. inv_ok. rename x into d, H into Hd.
  assert (i < length g) as Hi by (by eapply lookup_lt_Some).
  intros k l. specialize (Hwf k l).
  rewrite dependents_insert, dependencies_insert by done. cbn.
  assert (dependents_of g i = dependents_with_metadata d) as Hdd
    by (unfold dependents_of; by rewrite Hd).
  assert (dependencies_of g i = dependencies d) as Hds
    by (unfold dependencies_of; by rewrite Hd).
  trans (is_Some (dependents_of g k !! l)).
  - case_decide; subst; [|done]. rewrite Hdd in He |- *.
    rewrite lookup_insert_is_Some. destruct (decide (j = l)) as [->|]; naive_solver.
  - rewrite Hwf. case_decide; subst; by rewrite ?Hds.
Qed.

Lemma setNodePayload_wf i t g g' : dag_wf g → setNodePayload i t g = Ok g' → dag_wf g'.
Proof.
  rewrite !wf_dependencies. intros Hwf Hg.
  unfold setNodePayload in Hg. inv_ok. rename x into d, H into Hd.
  assert (i < length g) as Hi by (by eapply lookup_lt_Some).
  intros k l. specialize (Hwf k l).
  rewrite dependents_insert, dependencies_insert by done. cbn.
  unfold dependents_of, dependencies_of in *.
  repeat case_decide; subst; rewrite ?Hd in Hwf; done.
Qed.

Lemma built_dag_wf g : built g → dag_wf g.
Proof.
  induction 1 as [| | | |].
  - apply wf_dependencies. intros i j. unfold dependents_of, dependencies_of.
    rewrite !lookup_nil. cbn. rewrite lookup_empty. split; [by intros []|set_solver].
  - by apply createNode_wf.
  - by eapply createLink_wf.
  - by eapply setLinkMetadata_wf.
  - by eapply setNodePayload_wf.
Qed.
End wf.

(** ** Paths in finite graphs *)

Section paths.
Context (R : relation nat).

Lemma tc_first x z : tc R x z → ∃ y, R x y ∧ rtc R y z.
Proof. destruct 1; eauto using rtc_refl, tc_rtc. Qed.

(** Going backwards inside a finite set one meets a node again. *)
Lemma backward_path (U : gset nat) j :
  (∀ z, z ∈ U → ∃ y, y ∈ U ∧ R y z) →
  ∀ k (p : gset nat) h, size (U ∖ p) ≤ k → h ∈ p → p ⊆ U →
    (∀ e, e ∈ p → rtc R h e ∧ rtc R e j) → ∃ c, tc R c c ∧ rtc R c j.
Proof.
  intros Hpred k. induction k as [|k IH]; intros p h Hk Hh HU Hp.
  all: destruct (Hpred h) as (y & Hy & Hyh); [set_solver|].
  all: destruct (decide (y ∈ p)) as [Hin|Hnin];
    [exists y; destruct (Hp y Hin); split; [by eapply tc_rtc_r; [apply tc_once|]|done]|].
  - assert (U ∖ p ≡ ∅) as He by (apply size_empty_inv; lia). set_solver.
  - apply (IH ({[y]} ∪ p) y); [|set_solver..|].
    + assert (size (U ∖ ({[y]} ∪ p)) < size (U ∖ p)); [|lia].
      apply subset_size. set_solver.
    + assert (rtc R y j) by (eapply rtc_l; [done|]; by apply Hp).
      intros e [->%elem_of_singleton|He]%elem_of_union; [by split|].
      split; [eapply rtc_l; [done|]|]; by apply Hp.
Qed.

Lemma backward_cycle (U : gset nat) j :
  j ∈ U → (∀ z, z ∈ U → ∃ y, y ∈ U ∧ R y z) → ∃ c, tc R c c ∧ rtc R c j.
Proof.
  intros Hj Hpred.
  apply (backward_path U j Hpred (size U) {[j]} j); [|set_solver..|].
  - apply subseteq_size. set_solver.
  - intros e ->%elem_of_singleton. done.
Qed.

Lemma tc_flip x y : tc (flip R) x y → tc R y x.
Proof. induction 1; [by apply tc_once|by eapply tc_r]. Qed.

(** Without cycles the nodes of a path are distinct. *)
Lemma acyclic_path_nodes k x y :
  (∀ c, ¬ tc R c c) → nsteps R k x y →
  ∃ p : gset nat, size p = S k ∧ ∀ e, e ∈ p → rtc R x e.
Proof.
  intros Hac. induction 1 as [x|k x z y Hxz _ (p & Hsz & Hp)].
  - exists {[x]}. rewrite size_singleton. split; [done|]. set_solver.
  - exists ({[x]} ∪ p). assert (x ∉ p) as Hx.
    { intros Hx. apply (Hac x). eapply tc_rtc_r; [by apply tc_once|]. auto. }
    rewrite size_union, size_singleton by set_solver. split; [lia|].
    intros e [->%elem_of_singleton|He]%elem_of_union; [done|].
    eapply rtc_l; [done|]. auto.
Qed.

Lemma acyclic_path_bound n k x y :
  (∀ c, ¬ tc R c c) → (∀ x y, R x y → y < n) → x < n → nsteps R k x y → k < n.
Proof.
  intros Hac Hlt Hx Hk. destruct (acyclic_path_nodes k x y Hac Hk) as (p & Hsz & Hp).
  assert (p ⊆ set_seq (C := gset nat) 0 n) as Hsub.
  { intros e He. apply elem_of_set_seq. split; [lia|]. cbn.
    apply Hp, rtc_inv_r in He as [<-|(w & _ & Hw)]; [done|]. eauto. }
  apply subseteq_size in Hsub. rewrite size_set_seq in Hsub. lia.
Qed.
End paths.

(** ** Vectors given by a function *)

Definition tabulate {A} (f : nat → A) (n : nat) : list A := f <$> seq 0 n.

Lemma tabulate_at {A} (f : nat → A) n x : x < n → vec_at (tabulate f n) x = Ok (f x).
Proof.
  intros Hx. apply vec_at_Some. unfold tabulate.
  by rewrite list_lookup_fmap, lookup_seq_lt.
Qed.

Lemma tabulate_set {A} (f h : nat → A) n x a :
  x < n → (∀ y, y < n → h y = if decide (y = x) then a else f y) →
  vec_set (tabulate f n) x a = Ok (tabulate h n).
Proof.
  intros Hx Hh. assert (∀ k : nat → A, length (tabulate k n) = n) as Hl
    by (intros; unfold tabulate; by rewrite length_fmap, length_seq).
  rewrite vec_set_lt by (by rewrite Hl). f_equal. apply list_eq. intros i.
  destruct (decide (i < n)) as [Hi|Hi].
  - unfold tabulate at 2. rewrite (list_lookup_fmap _ _ i), lookup_seq_lt by done. cbn.
    rewrite Hh by done. case_decide; subst.
    + by rewrite list_lookup_insert_eq by (by rewrite Hl).
    + rewrite list_lookup_insert_ne by done. unfold tabulate.
      by rewrite list_lookup_fmap, lookup_seq_lt.
  - rewrite !lookup_ge_None_2; rewrite ?length_insert, ?Hl; [done|lia..].
Qed.

Lemma tabulate_ext {A} (f h : nat → A) n :
  (∀ x, x < n → f x = h x) → tabulate f n = tabulate h n.
Proof.
  intros Hfh. unfold tabulate. apply list_fmap_ext. intros i x Hx.
  apply lookup_seq in Hx as [-> Hi]. by apply Hfh.
Qed.

Lemma tabulate_replicate {A} (a : A) n : replicate n a = tabulate (λ _, a) n.
Proof.
  unfold tabulate. apply list_eq. intros i. rewrite list_lookup_fmap.
  destruct (decide (i < n)).
  - by rewrite lookup_replicate_2, lookup_seq_lt.
  - rewrite (lookup_ge_None_2 (replicate _ _)), (lookup_ge_None_2 (seq _ _));
      rewrite ?length_replicate, ?length_seq; [done|lia..].
Qed.

(** ** hasCycle finds the cycles *)

Section cycles.
Context {T M : Type} `{!HashOrder (nat * M)} (g : DAG T M).
Context (Hwf : dag_wf g).
#[local] Set Default Proof Using "Type*".
#[local] Abbreviation n := (length g).
#[local] Abbreviation nodes := (set_seq 0 (length g) : gset nat).

(** The vector that marks the members of a set. *)
Definition marks_of (V : gset nat) : list bool :=
  tabulate (λ x, bool_decide (x ∈ V)) n.

Lemma marks_of_at V x : x < n → vec_at (marks_of V) x = Ok (bool_decide (x ∈ V)).
Proof. apply (tabulate_at (λ x, bool_decide (x ∈ V))). Qed.

Lemma marks_of_insert V W x b :
  x < n → (∀ y, y ∈ W ↔ if decide (y = x) then b = true else y ∈ V) →
  vec_set (marks_of V) x b = Ok (marks_of W).
Proof.
  intros Hx HW. apply tabulate_set; [done|]. intros y _. specialize (HW y).
  case_decide; [|by apply bool_decide_ext].
  destruct b; [by apply bool_decide_eq_true, HW|]. apply bool_decide_eq_false. naive_solver.
Qed.

Lemma marks_of_empty : replicate n false = marks_of ∅.
Proof. apply tabulate_replicate. Qed.

(** The nodes visited are [V]; the search is inside the nodes [G]; the others
    among [V] have only such dependents, and are on no cycle. *)
Record search_inv (V G : gset nat) : Prop := {
  se_sub : G ⊆ V;
  se_nodes : V ⊆ nodes;
  se_closed x y : x ∈ V → x ∉ G → edge g x y → y ∈ V ∧ y ∉ G;
  se_acyclic x : x ∈ V → x ∉ G → ¬ tc (edge g) x x;
}.

Lemma closed_rtc V G x y :
  search_inv V G → x ∈ V → x ∉ G → rtc (edge g) x y → y ∈ V ∧ y ∉ G.
Proof.
  intros Hinv Hx HG Ht. induction Ht as [x|x y z He _ IH].
  - done.
  - destruct (se_closed _ _ Hinv x y); auto.
Qed.

(** A node whose dependents are all done is done. *)
Lemma search_leave V G i :
  search_inv V ({[i]} ∪ G) → i ∉ G →
  (∀ y, edge g i y → y ∈ V ∧ y ∉ ({[i]} ∪ G : gset nat)) → search_inv V G.
Proof.
  intros Hinv HiG Hi. split.
  - pose proof (se_sub _ _ Hinv). set_solver.
  - apply Hinv.
  - intros x y Hx HG He. destruct (decide (x = i)) as [->|Hne].
    + destruct (Hi y He). set_solver.
    + destruct (se_closed _ _ Hinv x y Hx); [set_solver|done|]. set_solver.
  - intros x Hx HG Ht. destruct (decide (x = i)) as [->|Hne].
    + apply tc_first in Ht as (y & He & Ht). destruct (Hi y He) as [? ?].
      destruct (closed_rtc _ _ y i Hinv) as [_ []]; [done..|set_solver].
    + apply (se_acyclic _ _ Hinv x); [done|set_solver|done].
Qed.

(** What a search of a new node [i] gives. *)
Definition search_ok (helper : nat → list bool * list bool →
    outcome (bool * (list bool * list bool))) (k : nat) : Prop :=
  ∀ i V G, search_inv V G → i < n → i ∉ V → size (nodes ∖ V) ≤ k →
    (∀ x, x ∈ G → rtc (edge g) x i) →
    ∃ found s, helper i (marks_of V, marks_of G) = Ok (found, s) ∧
      if found : bool then ∃ c, tc (edge g) c c
      else ∃ V', s = (marks_of V', marks_of G) ∧ V ⊆ V' ∧ i ∈ V' ∧ search_inv V' G.

Lemma cycle_dependents_spec helper k i (l : list (nat * M)) : search_ok helper k →
  ∀ V G, search_inv V ({[i]} ∪ G) → size (nodes ∖ V) ≤ k →
    (∀ x, x ∈ G → rtc (edge g) x i) → (∀ d m, (d, m) ∈ l → edge g i d) →
    ∃ found s, cycle_dependents helper l (marks_of V, marks_of ({[i]} ∪ G)) =
        Ok (found, s) ∧
      if found : bool then ∃ c, tc (edge g) c c
      else ∃ V', s = (marks_of V', marks_of ({[i]} ∪ G)) ∧ V ⊆ V' ∧
        search_inv V' ({[i]} ∪ G) ∧
        ∀ d m, (d, m) ∈ l → d ∈ V' ∧ d ∉ ({[i]} ∪ G : gset nat).
Proof.
  intros Hh. induction l as [|[d m] l IH]; intros V G Hinv Hk HG Hl; cbn.
  { exists false, (marks_of V, marks_of ({[i]} ∪ G)). split; [done|]. exists V.
    split_and!; [done..|]. by intros d m ?%elem_of_nil. }
  assert (edge g i d) as He by (eapply Hl; by left).
  assert (d < n) as Hd by (by eapply dag_edge_lt).
  assert (∀ x, x ∈ ({[i]} ∪ G : gset nat) → rtc (edge g) x i) as HGi
    by (intros x [->%elem_of_singleton|?]%elem_of_union; [done|by apply HG]).
  rewrite marks_of_at by done. cbn.
  assert (∃ found s,
    (if bool_decide (d ∈ V) then Ok (false, (marks_of V, marks_of ({[i]} ∪ G)))
     else helper d (marks_of V, marks_of ({[i]} ∪ G))) = Ok (found, s) ∧
    if found : bool then ∃ c, tc (edge g) c c
    else ∃ V', s = (marks_of V', marks_of ({[i]} ∪ G)) ∧ V ⊆ V' ∧ d ∈ V' ∧
      search_inv V' ({[i]} ∪ G)) as (found & s & -> & Hf).
  { case_bool_decide as Hv.
    - exists false, (marks_of V, marks_of ({[i]} ∪ G)). split; [done|]. by exists V.
    - apply Hh; [done..|]. intros x Hx. eapply rtc_r; [by apply HGi|done]. }
  cbn. destruct found.
  { eauto. }
  destruct Hf as (V' & -> & Hsub & HdV & Hinv'). cbn.
  rewrite marks_of_at by done. cbn. case_bool_decide as Hs.
  { exists true. eexists. split; [done|]. exists d.
    eapply tc_rtc_l; [by apply HGi|]. by apply tc_once. }
  destruct (IH V' G Hinv') as (found & s & -> & Hf).
  { etrans; [apply subseteq_size|done]. clear -Hsub. set_solver. }
  { done. }
  { intros d' m' ?. eapply Hl. by right. }
  exists found, s. split; [done|]. destruct found; [done|].
  destruct Hf as (V'' & -> & Hsub' & Hinv'' & Hall). exists V''.
  split_and!; [done|by etrans|done|].
  intros d' m' [[= -> ->]|Hin]%elem_of_cons; [|by eapply Hall]. split; [by apply Hsub'|done].
Qed.

Lemma search_enter V G i :
  search_inv V G → i < n → i ∉ V → search_inv ({[i]} ∪ V) ({[i]} ∪ G).
Proof.
  intros Hinv Hi Hv. split.
  - pose proof (se_sub _ _ Hinv). set_solver.
  - pose proof (se_nodes _ _ Hinv). intros x [->%elem_of_singleton|Hx]%elem_of_union.
    + apply elem_of_set_seq. lia.
    + set_solver.
  - intros x y Hx HG He. destruct (se_closed _ _ Hinv x y); [set_solver..|done|].
    set_solver.
  - intros x Hx HG. apply (se_acyclic _ _ Hinv); set_solver.
Qed.

Lemma hasCycleHelper_spec fuel : search_ok (hasCycleHelper g fuel) fuel.
Proof.
  induction fuel as [|fuel IH]; intros i V G Hinv Hi Hv Hk HG.
  { assert (nodes ∖ V ≡ ∅) as He by (apply size_empty_inv; lia).
    exfalso. apply (not_elem_of_empty (C := gset nat) i), He, elem_of_difference.
    split; [|done]. apply elem_of_set_seq. lia. }
  cbn. rewrite marks_of_at by done. rewrite bool_decide_eq_false_2 by done. cbn.
  rewrite (marks_of_insert V ({[i]} ∪ V)) by (try done; intros; case_decide; set_solver).
  cbn. rewrite (marks_of_insert G ({[i]} ∪ G))
    by (try done; intros; case_decide; set_solver).
  cbn. rewrite getDependents_at by done. cbn.
  destruct (cycle_dependents_spec (hasCycleHelper g fuel) fuel i
    (map_iter (dependents_of g i)) IH ({[i]} ∪ V) G) as (found & s & -> & Hf).
  - by apply search_enter.
  - assert (size (nodes ∖ ({[i]} ∪ V)) < size (nodes ∖ V)); [|lia].
    apply subset_size. split; [set_solver|]. intros Hsub.
    assert (i ∈ nodes ∖ ({[i]} ∪ V)); [|set_solver].
    apply Hsub, elem_of_difference. split; [|done]. apply elem_of_set_seq. lia.
  - done.
  - intros d m Hd. apply dependents_iter. eauto.
  - cbn. destruct found.
    { eauto. }
    destruct Hf as (V' & -> & Hsub & Hinv' & Hall). cbn.
    assert (i ∉ G) by (pose proof (se_sub _ _ Hinv); set_solver).
    rewrite (marks_of_insert ({[i]} ∪ G) G) by (try done; intros; case_decide; set_solver).
    cbn. exists false. eexists. split; [done|]. exists V'.
    split_and!; [done|set_solver..|]. apply (search_leave V' G i); [done..|].
    intros y (m & Hm)%dependents_iter. by eapply Hall.
Qed.

Lemma cycle_nodes_spec l V :
  search_inv V ∅ → (∀ x, x ∈ l → x < n) →
  ∃ b, cycle_nodes g l (marks_of V, marks_of ∅) = Ok b ∧
    if b : bool then ∃ c, tc (edge g) c c
    else ∃ V', V ⊆ V' ∧ list_to_set l ⊆ V' ∧ search_inv V' ∅.
Proof.
  revert V. induction l as [|i l IH]; intros V Hinv Hl; cbn [cycle_nodes].
  { exists false. split; [done|]. exists V. split_and!; [done|set_solver|done]. }
  assert (i < n) as Hi by (apply Hl; by left).
  assert (∃ found s, hasCycleHelper g (S n) i (marks_of V, marks_of ∅) = Ok (found, s) ∧
    if found : bool then ∃ c, tc (edge g) c c
    else ∃ V', s = (marks_of V', marks_of ∅) ∧ V ⊆ V' ∧ i ∈ V' ∧ search_inv V' ∅)
    as (found & s & Heq & Hf).
  { destruct (decide (i ∈ V)) as [Hv|Hv].
    - exists false, (marks_of V, marks_of ∅). split; [|by exists V].
      cbn. rewrite marks_of_at by done. rewrite bool_decide_eq_true_2 by done. cbn.
      rewrite (marks_of_insert ∅ ∅) by (try done; intros; case_decide; set_solver). done.
    - apply hasCycleHelper_spec; [done..| |set_solver].
      etrans; [apply (subseteq_size _ nodes); set_solver|]. rewrite size_set_seq. lia. }
  unfold dag_size. rewrite Heq. cbn. destruct found; [by exists true|].
  destruct Hf as (V' & -> & Hsub & HiV & Hinv').
  destruct (IH V' Hinv') as (b & Hb & Hf); [intros x Hx; apply Hl; by right|].
  exists b. split; [done|]. destruct b; [done|].
  destruct Hf as (V'' & ? & ? & ?). exists V''. split_and!; [set_solver..|done].
Qed.

Lemma dag_hasCycle_spec : ∃ b, hasCycle g = Ok b ∧ (b = true ↔ ∃ c, tc (edge g) c c).
Proof.
  unfold hasCycle, dag_size. rewrite marks_of_empty.
  destruct (cycle_nodes_spec (seq 0 n) ∅) as (b & -> & Hb).
  - split; set_solver.
  - intros x ?%elem_of_seq. lia.
  - exists b. split; [done|]. destruct b; [done|]. split; [done|].
    intros (c & Hc). destruct Hb as (V & _ & HV & Hinv).
    destruct (se_acyclic _ _ Hinv c); [|set_solver|done]. apply HV.
    apply elem_of_list_to_set, elem_of_seq.
    apply tc_first in Hc as (y & He & _).
    destruct (dag_edge_lt g c y Hwf He). lia.
Qed.
End cycles.
