(* ===== verification/TopologicalSort.v ===== *)
(** * The topological order of a plan graph

    getTopologicalSorting of utility/DAG.hpp, as modelled in [DAGAlgorithms],
    lists each node after its dependencies, and leaves out exactly the nodes
    behind a cycle; hasCycle tells whether there are any. *)

From S2P Require Import Prelude DAG QueryExecutionState DAGAlgorithms.
From stdpp Require Import options.

Section sorting.
Context {T M : Type} `{!HashOrder (nat * M)} (g : DAG T M).
Context (Hwf : dag_wf g) (Hsmall : (N.of_nat (length g) < 2 ^ 64)%N).
#[local] Set Default Proof Using "Type*".
#[local] Abbreviation n := (length g).
#[local] Abbreviation deps := (dependencies_of g).

Lemma deps_nodes j : deps j ⊆ set_seq 0 n.
Proof.
  intros i Hi. apply elem_of_set_seq.
  destruct (dag_edge_lt g i j Hwf); [by apply edge_dependencies|lia].
Qed.

Lemma deps_small j (X : gset nat) : (N.of_nat (size (deps j ∖ X)) < 2 ^ 64)%N.
Proof.
  assert (size (deps j ∖ X) ≤ n); [|lia].
  rewrite <- (size_set_seq (C := gset nat) 0 n). apply subseteq_size.
  pose proof (deps_nodes j). set_solver.
Qed.

(** ** The first loop *)

Lemma count_dependencies_spec l Q num :
  (∀ x, x ∈ l → x < n) →
  ∃ num', count_dependencies g l Q num =
      Ok (Q ++ filter (λ j, deps j = ∅) l, num') ∧
    ∀ j, num' !! j =
      if decide (j ∈ l) then Some (N.of_nat (size (deps j))) else num !! j.
Proof.
  revert Q num. induction l as [|i l IH]; intros Q num Hl; cbn [count_dependencies].
  { exists num. rewrite app_nil_r. split; [done|]. intros j.
    by rewrite decide_False by apply not_elem_of_nil. }
  rewrite getDependencies_at by (apply Hl; by left). cbn [mbind outcome_bind].
  destruct (IH (if decide (deps i = ∅) then Q ++ [i] else Q)
    (<[i := N.of_nat (size (deps i))]> num)) as (num' & -> & Hn).
  { intros x Hx. apply Hl. by right. }
  exists num'. split.
  - do 2 f_equal. rewrite filter_cons. case_decide; [by rewrite <- app_assoc|done].
  - intros j. rewrite Hn. destruct (decide (j ∈ l)).
    + by rewrite decide_True by (by right).
    + destruct (decide (j = i)) as [->|Hne].
      * rewrite lookup_insert_eq. by rewrite decide_True by (by left).
      * rewrite lookup_insert_ne by done. rewrite decide_False; [done|].
        by intros [?|?]%elem_of_cons.
Qed.

(** ** The dependents of a sorted node *)

Lemma release_dependents_spec (l : list (nat * M)) Q num :
  NoDup l.*1 →
  let count j := size_dec (default 0%N (num !! j)) in
  ∃ R num', release_dependents l Q num = (Q ++ R, num') ∧ NoDup R ∧
    (∀ j, j ∈ R ↔ j ∈ l.*1 ∧ count j = 0%N) ∧
    ∀ j, num' !! j = if decide (j ∈ l.*1) then Some (count j) else num !! j.
Proof.
  cbn. revert Q num. induction l as [|[d m] l IH]; intros Q num Hl; cbn.
  { exists [], num. rewrite app_nil_r.
    split_and!; [done|constructor|set_solver|]. intros j.
    by rewrite decide_False by apply not_elem_of_nil. }
  apply NoDup_cons in Hl as [Hd Hl].
  set (c := size_dec (default 0%N (num !! d))).
  destruct (IH (if (c =? 0)%N then Q ++ [d] else Q) (<[d := c]> num) Hl)
    as (R & num' & -> & HR & Hin & Hn).
  assert (∀ j, j ∈ l.*1 → <[d := c]> num !! j = num !! j) as Hold.
  { intros j Hj. apply lookup_insert_ne. by intros ->. }
  assert (d ∉ R) as HdR by (rewrite Hin; tauto).
  assert (∀ j, j ∈ R ↔ j ∈ l.*1 ∧ size_dec (default 0%N (num !! j)) = 0%N) as Hin'.
  { intros j. rewrite Hin. split; intros [Hj Hc]; (split; [done|]).
    all: by rewrite Hold in * by done. }
  exists (if (c =? 0)%N then d :: R else R), num'. split_and!.
  - destruct (N.eqb_spec c 0); [by rewrite <- app_assoc|done].
  - destruct (c =? 0)%N; [by constructor|done].
  - intros j. rewrite elem_of_cons. destruct (N.eqb_spec c 0) as [Hc|Hc].
    + rewrite elem_of_cons, Hin'. naive_solver.
    + rewrite Hin'. subst c. naive_solver.
  - intros j. rewrite Hn. destruct (decide (j ∈ l.*1)) as [Hj|Hj].
    + rewrite decide_True by (by right). by rewrite Hold.
    + destruct (decide (j = d)) as [->|Hne].
      * rewrite lookup_insert_eq. by rewrite decide_True by (by left).
      * rewrite lookup_insert_ne by done. rewrite decide_False; [done|].
        by intros [?|?]%elem_of_cons.
Qed.

Lemma dependents_keys c :
  NoDup (map_iter (dependents_of g c)).*1 ∧
  ∀ j, j ∈ (map_iter (dependents_of g c)).*1 ↔ c ∈ deps j.
Proof.
  split.
  - unfold map_iter. rewrite hash_order_perm. apply NoDup_fst_map_to_list.
  - intros j. rewrite <- edge_dependencies, dependents_iter, list_elem_of_fmap by done.
    split; [intros ([d m] & -> & ?); eauto|intros (m & ?); by exists (j, m)].
Qed.

(** ** The invariant of the main loop *)

Record sort_inv (S Q : list nat) (num : gmap nat N) : Prop := {
  so_nodup : NoDup (S ++ Q);
  so_nodes x : x ∈ S ++ Q → x < n;
  so_num j : j < n → num !! j = Some (N.of_nat (size (deps j ∖ list_to_set S)));
  so_ready j : j < n → j ∈ S ++ Q ↔ deps j ⊆ list_to_set S;
  so_order k j i : S !! k = Some j → i ∈ deps j → i ∈ take k S;
}.

Lemma count_after S (c j : nat) :
  c ∉ S → size (deps j ∖ list_to_set S) =
    (if decide (c ∈ deps j) then 1 else 0) + size (deps j ∖ list_to_set (S ++ [c])).
Proof.
  intros Hc. case_decide as Hj.
  - rewrite <- (size_singleton (C := gset nat) c), <- size_union by set_solver.
    f_equal. apply leibniz_equiv. intros x. destruct (decide (x = c)); set_solver.
  - cbn. f_equal. apply leibniz_equiv. set_solver.
Qed.

Lemma sort_step S c Q num Q' num' :
  sort_inv S (c :: Q) num →
  release_dependents (map_iter (dependents_of g c)) Q num = (Q', num') →
  sort_inv (S ++ [c]) Q' num'.
Proof.
  intros Hinv Hr. destruct (dependents_keys c) as [Hk Hin].
  destruct (release_dependents_spec _ Q num Hk) as (R & num2 & Hr2 & HR & HinR & Hn).
  rewrite Hr2 in Hr. injection Hr as <- <-.
  pose proof (so_nodup _ _ _ Hinv) as Hnd.
  assert (c ∉ S) as Hc by (apply NoDup_app in Hnd as (_ & Hd & _); set_solver).
  assert (∀ j, j < n → num2 !! j =
    Some (N.of_nat (size (deps j ∖ list_to_set (S ++ [c]))))) as Hnum.
  { intros j Hj. rewrite Hn. pose proof (so_num _ _ _ Hinv j Hj) as Ho.
    rewrite (count_after S c j Hc) in Ho. destruct (decide (j ∈ _)) as [Hd|Hd].
    all: rewrite Hin in Hd; destruct (decide (c ∈ deps j)); try done.
    rewrite Ho. cbn [from_option id]. f_equal. rewrite size_dec_pos; [lia|].
    pose proof (deps_small j (list_to_set S)) as Hs.
    rewrite (count_after S c j Hc), decide_True in Hs by done. lia. }
  assert (∀ j, j ∈ R ↔ j < n ∧ c ∈ deps j ∧ deps j ⊆ list_to_set (S ++ [c])) as HinR'.
  { intros j. rewrite HinR, Hin. split.
    - intros [Hcj Hz]. assert (j < n) as Hj.
      { destruct (dag_edge_lt g c j Hwf); [by apply edge_dependencies|done]. }
      pose proof (Hnum j Hj) as Hj'. rewrite Hn, decide_True in Hj' by (by apply Hin).
      rewrite Hz in Hj'. injection Hj' as Hj'.
      assert (deps j ∖ list_to_set (S ++ [c]) ≡ ∅) by (apply size_empty_inv; lia).
      split_and!; [done..|]. intros x Hx.
      destruct (decide (x ∈ (list_to_set (S ++ [c]) : gset nat))); set_solver.
    - intros (Hj & Hcj & Hsub). split; [done|].
      pose proof (Hnum j Hj) as Hj'. rewrite Hn, decide_True in Hj' by (by apply Hin).
      injection Hj' as ->. assert (deps j ∖ list_to_set (S ++ [c]) ≡ ∅) as Hem by set_solver.
      by rewrite Hem, size_empty. }
  split.
  - rewrite <- app_assoc. cbn. rewrite app_comm_cons, app_assoc. apply NoDup_app.
    split_and!; [done| |done].
    intros j Hj (Hjn & Hcj & _)%HinR'. apply (so_ready _ _ _ Hinv j Hjn) in Hj. set_solver.
  - intros x. rewrite <- app_assoc. cbn. rewrite app_comm_cons, app_assoc, elem_of_app.
    intros [Hx|Hx%HinR']; [by eapply so_nodes|tauto].
  - done.
  - intros j Hj. rewrite <- app_assoc. cbn. rewrite app_comm_cons, app_assoc, elem_of_app.
    rewrite (so_ready _ _ _ Hinv j Hj), HinR', list_to_set_app.
    destruct (decide (c ∈ deps j)); set_solver.
  - intros k j i [Hk'|[Hk' [Hk0 <-]%list_lookup_singleton_Some]]%lookup_app_Some Hi.
    + rewrite take_app_le by (apply lookup_lt_Some in Hk'; lia). by eapply so_order.
    + rewrite take_app_ge by lia. apply elem_of_app. left.
      assert (c < n) as Hcn by (eapply so_nodes; [done|set_solver]).
      assert (c ∈ S ++ c :: Q) as Hcq%(so_ready _ _ _ Hinv c Hcn) by set_solver.
      set_solver.
Qed.

Lemma NoDup_nodes_length l : NoDup l → (∀ x, x ∈ l → x < n) → length l ≤ n.
Proof.
  intros Hnd Hl. rewrite <- (length_seq n 0). apply submseteq_length.
  apply NoDup_submseteq; [done|]. intros x Hx. apply elem_of_seq.
  specialize (Hl x Hx). lia.
Qed.

Lemma sort_loop_spec fuel S Q num :
  sort_inv S Q num → n ≤ length S + fuel →
  ∃ S' num', sort_loop g fuel Q num S = Ok S' ∧ sort_inv S' [] num'.
Proof.
  revert S Q num. induction fuel as [|fuel IH]; intros S Q num Hinv Hf.
  all: destruct Q as [|c Q]; [by exists S, num|].
  all: pose proof (NoDup_nodes_length (S ++ c :: Q) (so_nodup _ _ _ Hinv)
    (so_nodes _ _ _ Hinv)) as Hl; rewrite length_app in Hl; cbn in Hl.
  { lia. }
  cbn. rewrite getDependents_at by (eapply so_nodes; [done|set_solver]). cbn.
  destruct (release_dependents _ _ _) as [Q' num'] eqn:Hr.
  apply (IH (S ++ [c])); [by eapply sort_step|]. rewrite length_app. cbn. lia.
Qed.

Lemma sort_init :
  ∃ num, count_dependencies g (seq 0 n) [] ∅ =
      Ok (filter (λ j, deps j = ∅) (seq 0 n), num) ∧
    sort_inv [] (filter (λ j, deps j = ∅) (seq 0 n)) num.
Proof.
  destruct (count_dependencies_spec (seq 0 n) [] ∅) as (num & -> & Hn).
  { intros x ?%elem_of_seq. lia. }
  exists num. split; [done|]. split; cbn.
  - apply NoDup_filter, NoDup_seq.
  - intros x [_ ?%elem_of_seq]%list_elem_of_filter. lia.
  - intros j Hj. rewrite Hn, decide_True by (apply elem_of_seq; lia).
    by rewrite difference_empty_L.
  - intros j Hj. rewrite list_elem_of_filter, elem_of_seq. split.
    + intros [-> _]. done.
    + intros ?. split; [set_solver|lia].
  - intros k j i. by rewrite lookup_nil.
Qed.

(** ** What the order delivers *)

(** Dependencies come earlier, however long the way. *)
Lemma ordered_tc l i j k :
  (∀ k j i, l !! k = Some j → edge g i j → i ∈ take k l) →
  tc (edge g) i j → l !! k = Some j → ∃ k', k' < k ∧ l !! k' = Some i.
Proof.
  intros Hl Ht. revert k.
  assert (∀ i j k, l !! k = Some j → edge g i j → ∃ k', k' < k ∧ l !! k' = Some i)
    as Hstep.
  { intros i' j' k Hk He. pose proof (Hl k j' i' Hk He) as [k' Hk']%list_elem_of_lookup.
    apply lookup_take_Some in Hk' as [? ?]. eauto. }
  induction Ht as [i j He|i z j He _ IH]; intros k Hk; [by eauto|].
  destruct (IH k Hk) as (k1 & Hk1 & Hz). destruct (Hstep i z k1 Hz He) as (k2 & ? & ?).
  exists k2. split; [lia|done].
Qed.

Lemma getTopologicalSorting_spec :
  ∃ l, getTopologicalSorting g = Ok l ∧ NoDup l ∧
    (∀ k j i, l !! k = Some j → edge g i j → i ∈ take k l) ∧
    (∀ j, j ∈ l ↔ j < n ∧ ¬ ∃ c, tc (edge g) c c ∧ rtc (edge g) c j).
Proof.
  unfold getTopologicalSorting, dag_size.
  destruct sort_init as (num & -> & Hinv). cbn.
  destruct (sort_loop_spec n [] _ num Hinv) as (l & num' & -> & Hend); [done|].
  exists l. pose proof (so_nodup _ _ _ Hend) as Hnd.
  pose proof (so_nodes _ _ _ Hend) as Hnodes. pose proof (so_ready _ _ _ Hend) as Hready.
  rewrite app_nil_r in *.
  assert (∀ k j i, l !! k = Some j → edge g i j → i ∈ take k l) as Hord.
  { intros k j i Hk He. eapply so_order; [done..|]. by apply edge_dependencies. }
  split_and!; [done..|].
  intros j. split.
  - intros Hj. split; [by apply Hnodes|]. intros (c & Hc & Hcj).
    assert (∃ k, l !! k = Some c) as [k Hk].
    { apply list_elem_of_lookup in Hj as [k Hk].
      apply rtc_tc in Hcj as [<-|Ht]; [by exists k|].
      destruct (ordered_tc l c j k Hord Ht Hk) as (k' & _ & ?). eauto. }
    destruct (ordered_tc l c c k Hord Hc Hk) as (k' & Hlt & Hk').
    pose proof (NoDup_lookup _ _ _ _ Hnd Hk Hk'). lia.
  - intros [Hj Hnc]. destruct (decide (j ∈ l)) as [|Hjl]; [done|]. exfalso. apply Hnc.
    apply (backward_cycle _ (set_seq 0 n ∖ list_to_set l)).
    + apply elem_of_difference. rewrite elem_of_list_to_set, elem_of_set_seq.
      split; [lia|done].
    + intros z [Hz%elem_of_set_seq Hzl]%elem_of_difference.
      rewrite elem_of_list_to_set in Hzl.
      assert (deps z ∖ list_to_set l ≠ ∅) as (y & Hy)%set_choose_L.
      { intros He. apply Hzl, Hready; [lia|]. intros x Hx.
        destruct (decide (x ∈ (list_to_set l : gset nat))); set_solver. }
      apply elem_of_difference in Hy as [Hy Hyl]. exists y.
      split; [|by apply edge_dependencies]. pose proof (deps_nodes z). set_solver.
Qed.

(** The position in the order ranks the nodes of a graph without cycles. *)
Lemma acyclic_rank l :
  NoDup l → (∀ k j i, l !! k = Some j → edge g i j → i ∈ take k l) →
  l ≡ₚ seq 0 n →
  ∃ rank : nat → nat, ∀ i j, edge g i j → rank i < rank j ∧ rank j < n.
Proof.
  intros Hnd Hord Hp. exists (λ j, default 0 (fst <$> list_find (eq j) l)).
  assert (∀ j k, l !! k = Some j → default 0 (fst <$> list_find (eq j) l) = k) as Hrank.
  { intros j k Hk. destruct (list_find (eq j) l) as [[k' x]|] eqn:Hf; cbn.
    - apply list_find_Some in Hf as (Hk' & <- & _). by eapply NoDup_lookup.
    - apply list_find_None in Hf. rewrite Forall_forall in Hf.
      destruct (Hf j); [by eapply list_elem_of_lookup_2|done]. }
  intros i j He. destruct (dag_edge_lt g i j Hwf He) as [_ Hj].
  assert (j ∈ l) as [k Hk]%list_elem_of_lookup by (rewrite Hp; apply elem_of_seq; lia).
  destruct (ordered_tc l i j k Hord (tc_once _ _ _ He) Hk) as (k' & Hlt & Hk').
  rewrite (Hrank j k Hk), (Hrank i k' Hk'). split; [done|].
  apply lookup_lt_Some in Hk. apply Permutation_length in Hp. rewrite length_seq in Hp. lia.
Qed.

Lemma rank_acyclic (rank : nat → nat) c :
  (∀ i j, edge g i j → rank i < rank j) → ¬ tc (edge g) c c.
Proof.
  intros Hr Hc. assert (∀ i j, tc (edge g) i j → rank i < rank j) as Ht.
  { induction 1 as [i j He|i z j He _ IH]; [auto|]. specialize (Hr _ _ He). lia. }
  specialize (Ht c c Hc). lia.
Qed.
End sorting.

(** C18. For a graph that the member functions build, with fewer than [2 ^ 32]
    nodes, hasCycle ends and tells whether some node depends on itself.
    getTopologicalSorting ends whether there is a cycle or not; its list has no
    node twice and each node after its dependencies, and it leaves out exactly
    the nodes that depend on a node on a cycle.  So hasCycle answers no exactly
    when the list has all nodes, and exactly when the nodes can be ranked below
    their dependents, which is what the manager of a query needs of its plan. *)
Theorem plan_order_correct {T M : Type} `{!HashOrder (nat * M)} (g : DAG T M) :
  built g → (N.of_nat (length g) < 2 ^ 32)%N →
  ∃ b l, hasCycle g = Ok b ∧ getTopologicalSorting g = Ok l ∧
    (b = true ↔ ∃ c, tc (edge g) c c) ∧
    NoDup l ∧
    (∀ k j i, l !! k = Some j → edge g i j → i ∈ take k l) ∧
    (∀ j, j ∈ l ↔ j < length g ∧ ¬ ∃ c, tc (edge g) c c ∧ rtc (edge g) c j) ∧
    (b = false ↔ l ≡ₚ seq 0 (length g)) ∧
    (b = false ↔ ∃ rank : nat → nat,
       ∀ i j, edge g i j → rank i < rank j ∧ rank j < length g).
Proof.
  intros Hwf%built_dag_wf Hn. assert (N.of_nat (length g) < 2 ^ 64)%N as Hn' by lia.
  destruct (dag_hasCycle_spec g Hwf) as (b & Hb & Hbc).
  destruct (getTopologicalSorting_spec g Hwf Hn') as (l & Hl & Hnd & Hord & Hin).
  assert (b = false → l ≡ₚ seq 0 (length g)) as Hall.
  { intros ->. apply NoDup_Permutation; [done|apply NoDup_seq|]. intros j.
    rewrite Hin, elem_of_seq. split; [lia|]. intros Hj. split; [lia|].
    intros (c & Hc & _). assert (false = true); [apply Hbc; by exists c|done]. }
  assert ((∀ c, ¬ tc (edge g) c c) → b = false) as Hac.
  { intros Hc. destruct b; [|done]. destruct (proj1 Hbc eq_refl) as (c & ?).
    by destruct (Hc c). }
  exists b, l. split_and!; try done.
  - split; [done|]. intros Hp. apply Hac. intros c Hc.
    destruct (acyclic_rank g Hwf Hn' l Hnd Hord Hp) as (rank & Hr).
    eapply (rank_acyclic g Hwf Hn' rank); [naive_solver|done].
  - split.
    + intros Hbf. eapply acyclic_rank; eauto.
    + intros (rank & Hr). apply Hac. intros c. apply (rank_acyclic g Hwf Hn' rank). naive_solver.
Qed.

(** ** A graph with three nodes *)

Definition bypass_links (g : DAG unit bool) : outcome (DAG unit bool) :=
  g1 ← createLink 0 1 true g;
  g2 ← createLink 1 2 false g1;
  createLink 0 2 true g2.
Definition three_nodes : DAG unit bool :=
  (createNode tt (createNode tt (createNode tt []).2).2).2.
Definition bypass : DAG unit bool :=
  match bypass_links three_nodes with Ok g => g | Err _ => [] end.

Lemma bypass_built : built bypass.
Proof.
  assert (bypass_links three_nodes = Ok bypass) as H by (vm_compute; reflexivity).
  assert (built three_nodes) as Ht by (repeat apply built_node; apply built_empty).
  revert H Ht. generalize bypass, three_nodes. intros g' g H Ht.
  unfold bypass_links in H. apply bind_Ok in H as (g1 & H1 & H).
  apply bind_Ok in H as (g2 & H2 & H3). eauto using built_link.
Qed.

Lemma plan_order_correct_witness :
  @hasCycle unit bool (reverse_order _) bypass = Ok false ∧
  ∃ l, @getTopologicalSorting unit bool (reverse_order _) bypass = Ok l ∧ l ≡ₚ [0; 1; 2].
Proof.
  assert (@hasCycle unit bool (reverse_order _) bypass = Ok false) as Hf
    by (vm_compute; reflexivity).
  split; [exact Hf|].
  destruct (@plan_order_correct unit bool (reverse_order _) bypass bypass_built
    ltac:(vm_compute; reflexivity)) as (b & l & Hb & Hl & _ & _ & _ & _ & Hall & _).
  exists l. split; [exact Hl|]. apply Hall. congruence.
Defined.
