(* ===== verification/StageSequence.v ===== *)
(** * The stages of a plan graph

    Models computeStageSequence of utility/DAG.hpp: two passes that give each
    node the last stage in which it has to finish and the first in which it can
    start.  Finish stages are kept as offsets from the end.  An offset is at
    most the number of stages, so the subtractions of [std::size_t]s do not wrap
    around. *)

From S2P Require Import Prelude DAG DAGAlgorithms.
From stdpp Require Import options.

Section stages.
Context {T M : Type} `{!HashOrder nat} (g : DAG T M).

(** ** The code *)

(** The nodes without dependents finish in the last stage. *)
Fixpoint finish_last (nodes offsets : list nat) (current_stage_finish : gset nat)
  : outcome (list nat * gset nat) :=
  match nodes with
  | [] => Ok (offsets, current_stage_finish)
  | node_index :: nodes' =>
      dependents ← getDependents node_index g;
      if decide (dom dependents = ∅) then
        offsets ← vec_set offsets node_index 1;
        finish_last nodes' offsets ({[node_index]} ∪ current_stage_finish)
      else finish_last nodes' offsets current_stage_finish
  end.

Fixpoint finish_dependencies (num_stages : nat) (deps offsets : list nat)
    (prior_stage_finish : gset nat) : outcome (list nat * gset nat) :=
  match deps with
  | [] => Ok (offsets, prior_stage_finish)
  | dependency :: deps' =>
      offsets ← vec_set offsets dependency num_stages;
      finish_dependencies num_stages deps' offsets
        ({[dependency]} ∪ prior_stage_finish)
  end.

Fixpoint finish_stage (num_stages : nat) (current offsets : list nat)
    (prior_stage_finish : gset nat) : outcome (list nat * gset nat) :=
  match current with
  | [] => Ok (offsets, prior_stage_finish)
  | node :: current' =>
      deps ← getDependencies node g;
      '(offsets, prior_stage_finish) ←
        finish_dependencies num_stages (set_iter deps) offsets prior_stage_finish;
      finish_stage num_stages current' offsets prior_stage_finish
  end.

(** A node of the [k]-th set has a path of [k] nodes behind it. *)
Fixpoint finish_loop (fuel num_stages : nat) (current_stage_finish : gset nat)
    (offsets : list nat) : outcome (nat * list nat) :=
  if decide (current_stage_finish = ∅) then Ok (num_stages, offsets)
  else
    match fuel with
    | 0 => Err OutOfFuel
    | S fuel =>
        let num_stages := S num_stages in
        '(offsets, prior_stage_finish) ←
          finish_stage num_stages (set_iter current_stage_finish) offsets ∅;
        finish_loop fuel num_stages prior_stage_finish offsets
    end.

Fixpoint start_stage (num_stages : nat) (offsets deps : list nat)
    (node_start_stage : nat) : outcome nat :=
  match deps with
  | [] => Ok node_start_stage
  | dependency :: deps' =>
      offset ← vec_at offsets dependency;
      let candidate_start_stage := num_stages - offset + 1 in
      start_stage num_stages offsets deps'
        (if node_start_stage <? candidate_start_stage
         then candidate_start_stage else node_start_stage)
  end.

Fixpoint start_loop (num_stages : nat) (offsets nodes start_stages : list nat)
  : outcome (list nat) :=
  match nodes with
  | [] => Ok start_stages
  | node_index :: nodes' =>
      deps ← getDependencies node_index g;
      node_start_stage ← start_stage num_stages offsets (set_iter deps) 0;
      start_stages ← vec_set start_stages node_index node_start_stage;
      start_loop num_stages offsets nodes' start_stages
  end.

Fixpoint push_loop (num_stages : nat) (start_stages offsets nodes : list nat)
    (stages : list (list nat * list nat)) : outcome (list (list nat * list nat)) :=
  match nodes with
  | [] => Ok stages
  | node_index :: nodes' =>
      s ← vec_at start_stages node_index;
      st ← vec_at stages s;
      stages ← vec_set stages s (st.1 ++ [node_index], st.2);
      offset ← vec_at offsets node_index;
      fi ← vec_at stages (num_stages - offset);
      stages ← vec_set stages (num_stages - offset) (fi.1, fi.2 ++ [node_index]);
      push_loop num_stages start_stages offsets nodes' stages
  end.

Definition computeStageSequence : outcome (list (list nat * list nat)) :=
  let num_nodes := dag_size g in
  '(offsets, current_stage_finish) ←
    finish_last (seq 0 num_nodes) (replicate num_nodes 0) ∅;
  '(num_stages, offsets) ← finish_loop num_nodes 1 current_stage_finish offsets;
  let num_stages := num_stages - 1 in
  start_stages ←
    start_loop num_stages offsets (seq 0 num_nodes) (replicate num_nodes 0);
  push_loop num_stages start_stages offsets (seq 0 num_nodes)
    (replicate num_stages ([], [])).
End stages.

(** ** The first pass *)

Section passes.
Context {T M : Type} `{!HashOrder nat} (g : DAG T M).
Context (Hwf : dag_wf g).
#[local] Set Default Proof Using "Type*".
#[local] Abbreviation n := (length g).

(** The function with value [k] on [D]. *)
Definition mark (D : gset nat) (k : nat) (f : nat → nat) (x : nat) : nat :=
  if decide (x ∈ D) then k else f x.

Lemma mark_set D k f x :
  x < n → vec_set (tabulate (mark D k f) n) x k = Ok (tabulate (mark ({[x]} ∪ D) k f) n).
Proof.
  intros Hx. apply tabulate_set; [done|]. intros y _. unfold mark.
  repeat case_decide; try done; set_solver.
Qed.

Definition sink (x : nat) : Prop := x < n ∧ ∀ y, ¬ edge g x y.

Lemma sink_iff x : x < n → dom (dependents_of g x) = ∅ ↔ sink x.
Proof.
  intros Hx. unfold sink. setoid_rewrite edge_dependents. setoid_rewrite <- elem_of_dom.
  split; [intros ->; set_solver|]. intros [_ Hs]. set_solver.
Qed.

(** What a loop that marks nodes with [k] gives: the set of nodes marked. *)
Definition marks_with (k : nat) (P : nat → Prop) (f : nat → nat) (D : gset nat)
    (r : outcome (list nat * gset nat)) : Prop :=
  ∃ D', r = Ok (tabulate (mark D' k f) n, D') ∧ ∀ x, x ∈ D' ↔ x ∈ D ∨ P x.

Lemma finish_last_spec l f D :
  (∀ x, x ∈ l → x < n) →
  marks_with 1 (λ x, x ∈ l ∧ sink x) f D
    (finish_last g l (tabulate (mark D 1 f) n) D).
Proof.
  revert D. induction l as [|i l IH]; intros D Hl; cbn.
  { exists D. split; [done|]. set_solver. }
  assert (i < n) as Hi by (apply Hl; by left).
  rewrite getDependents_at by done. cbn. pose proof (sink_iff i Hi) as Hs.
  case_decide as Hd.
  - rewrite mark_set by done. cbn.
    destruct (IH ({[i]} ∪ D)) as (D' & -> & HD'); [intros; apply Hl; by right|].
    exists D'. split; [done|]. intros x. rewrite HD'. set_solver.
  - destruct (IH D) as (D' & -> & HD'); [intros; apply Hl; by right|].
    exists D'. split; [done|]. intros x. rewrite HD'. set_solver.
Qed.

Lemma finish_dependencies_spec k l f D :
  (∀ x, x ∈ l → x < n) →
  marks_with k (λ x, x ∈ l) f D
    (finish_dependencies k l (tabulate (mark D k f) n) D).
Proof.
  revert D. induction l as [|i l IH]; intros D Hl; cbn.
  { exists D. split; [done|]. set_solver. }
  rewrite mark_set by (apply Hl; by left). cbn.
  destruct (IH ({[i]} ∪ D)) as (D' & -> & HD'); [intros; apply Hl; by right|].
  exists D'. split; [done|]. intros x. rewrite HD'. set_solver.
Qed.

Lemma finish_stage_spec k l f D :
  (∀ x, x ∈ l → x < n) →
  marks_with k (λ x, ∃ y, y ∈ l ∧ edge g x y) f D
    (finish_stage g k l (tabulate (mark D k f) n) D).
Proof.
  revert D. induction l as [|i l IH]; intros D Hl; cbn.
  { exists D. split; [done|]. set_solver. }
  rewrite getDependencies_at by (apply Hl; by left). cbn.
  destruct (finish_dependencies_spec k (set_iter (dependencies_of g i)) f D)
    as (D1 & -> & HD1).
  { intros x He%elem_of_set_iter%edge_dependencies; [|done].
    by destruct (dag_edge_lt g x i Hwf He). }
  cbn. destruct (IH D1) as (D' & -> & HD'); [intros; apply Hl; by right|].
  exists D'. split; [done|]. intros x. rewrite HD', HD1, elem_of_set_iter.
  rewrite <- edge_dependencies by done. setoid_rewrite elem_of_cons. naive_solver.
Qed.

(** Before the turn for stage [k] from the end: [C] are the nodes with offset
    [k], and offsets decrease along links out of finished stages. *)
Record finish_inv (k : nat) (C : gset nat) (f : nat → nat) : Prop := {
  fi_pos : 0 < k;
  fi_nodes x : x ∈ C → x < n;
  fi_le x : f x ≤ k;
  fi_current x : x ∈ C ↔ f x = k;
  fi_edge x y : edge g x y → 0 < f y → f y < k → f y < f x;
  fi_path x : x ∈ C → ∃ y, nsteps (edge g) (k - 1) x y;
  fi_sink x : sink x → 0 < f x;
  fi_why x : 1 < f x → ∃ y, edge g x y ∧ f x ≤ S (f y);
  fi_long : 1 < k → ∃ x y, x < n ∧ nsteps (edge g) (k - 2) x y;
}.

Lemma finish_step k C f D :
  finish_inv k C f → C ≠ ∅ → (∀ x, x ∈ D ↔ ∃ y, y ∈ C ∧ edge g x y) →
  finish_inv (S k) D (mark D (S k) f).
Proof.
  intros Hinv HC HD. pose proof (fi_le _ _ _ Hinv) as Hle. pose proof (fi_pos _ _ _ Hinv) as Hk.
  assert (∀ x, f x ≤ mark D (S k) f x) as Hgrow.
  { intros x. unfold mark. specialize (Hle x). case_decide; lia. }
  split; [lia|..].
  - intros x (y & _ & He)%HD. by destruct (dag_edge_lt g x y Hwf He).
  - intros x. unfold mark. specialize (Hle x). case_decide; lia.
  - intros x. unfold mark. specialize (Hle x). case_decide; [done|]. split; [done|lia].
  - intros x y He Hy0 Hyk. unfold mark in Hy0, Hyk. unfold mark at 1.
    destruct (decide (y ∈ D)); [lia|].
    destruct (decide (f y = k)) as [Hyk'|].
    + unfold mark. rewrite decide_True; [lia|]. apply HD. exists y.
      by rewrite (fi_current _ _ _ Hinv).
    + specialize (Hle y). specialize (Hgrow x).
      pose proof (fi_edge _ _ _ Hinv x y He). lia.
  - intros x (y & Hy & He)%HD. destruct (fi_path _ _ _ Hinv y Hy) as (z & Hz). exists z.
    replace (S k - 1) with (S (k - 1)) by lia. by eapply nsteps_l.
  - intros x Hx. specialize (Hgrow x). pose proof (fi_sink _ _ _ Hinv x Hx). lia.
  - intros x Hx. unfold mark in Hx. unfold mark at 1. case_decide as HxD.
    + apply HD in HxD as (y & Hy & He). exists y. split; [done|].
      apply (fi_current _ _ _ Hinv) in Hy. specialize (Hgrow y). lia.
    + destruct (fi_why _ _ _ Hinv x Hx) as (y & He & Hy). exists y. split; [done|].
      specialize (Hgrow y). lia.
  - intros _. apply set_choose_L in HC as (x & Hx). replace (S k - 2) with (k - 1) by lia.
    destruct (fi_path _ _ _ Hinv x Hx) as (y & Hy). exists x, y.
    split; [by eapply fi_nodes|done].
Qed.

Context (Hac : ∀ c, ¬ tc (edge g) c c).

Lemma finish_loop_spec fuel k C f :
  finish_inv k C f → n < k + fuel →
  ∃ k' f', finish_loop g fuel k C (tabulate f n) = Ok (k', tabulate f' n) ∧
    finish_inv k' ∅ f'.
Proof.
  revert k C f. induction fuel as [|fuel IH]; intros k C f Hinv Hf; cbn.
  all: case_decide as HC; [subst; by exists k, f|].
  { exfalso. apply set_choose_L in HC as (x & Hx).
    destruct (fi_path _ _ _ Hinv x Hx) as (y & Hy).
    assert (k - 1 < n); [|pose proof (fi_pos _ _ _ Hinv); lia].
    eapply (acyclic_path_bound (edge g)); [done| |by eapply fi_nodes|done].
    intros a b He. by destruct (dag_edge_lt g a b Hwf He). }
  destruct (finish_stage_spec (S k) (set_iter C) f ∅) as (D & HD & HinD).
  { intros x Hx%elem_of_set_iter. by eapply fi_nodes. }
  rewrite (tabulate_ext (mark ∅ (S k) f) f) in HD
    by (intros; unfold mark; by rewrite decide_False by set_solver).
  rewrite HD. cbn. apply IH; [|lia]. apply (finish_step _ C); [done..|].
  intros x. rewrite HinD. setoid_rewrite elem_of_set_iter. set_solver.
Qed.

(** The offsets: a node has one more than the largest of its dependents, or 1. *)
Record offsets_ok (L : nat) (f : nat → nat) : Prop := {
  of_pos x : x < n → 0 < f x ≤ L;
  of_edge x y : edge g x y → f y < f x;
  of_why x : 1 < f x → ∃ y, edge g x y ∧ f x = S (f y);
  of_long : 0 < L → ∃ x y, x < n ∧ nsteps (edge g) (L - 1) x y;
}.

Lemma finish_end k f : finish_inv k ∅ f → offsets_ok (k - 1) f.
Proof.
  intros Hinv. pose proof (fi_pos _ _ _ Hinv) as Hk.
  assert (∀ x, f x < k) as Hlt.
  { intros x. pose proof (fi_le _ _ _ Hinv x).
    assert (f x ≠ k); [|lia]. intros He%(fi_current _ _ _ Hinv). set_solver. }
  assert (∀ x, x < n → 0 < f x) as Hpos.
  { intros x Hx. destruct (decide (f x = 0)) as [H0|]; [|lia]. exfalso.
    destruct (backward_cycle (flip (edge g)) (filter (λ x, f x = 0) (set_seq 0 n)) x)
      as (c & Hc & _).
    - apply elem_of_filter. rewrite elem_of_set_seq. lia.
    - intros z [Hz Hzn%elem_of_set_seq]%elem_of_filter.
      assert (dom (dependents_of g z) ≠ ∅) as (y & Hy%elem_of_dom%edge_dependents)%set_choose_L.
      { intros Hs%sink_iff; [|lia]. apply (fi_sink _ _ _ Hinv) in Hs. lia. }
      exists y. split; [|done]. destruct (dag_edge_lt g z y Hwf Hy).
      apply elem_of_filter. rewrite elem_of_set_seq. split; [|lia].
      pose proof (fi_edge _ _ _ Hinv z y Hy). specialize (Hlt y). lia.
    - by apply (Hac c), tc_flip. }
  assert (∀ x y, edge g x y → f y < f x) as Hedge.
  { intros x y He. destruct (dag_edge_lt g x y Hwf He) as [_ Hy].
    apply (fi_edge _ _ _ Hinv); auto. }
  split; [|done|..].
  - intros x Hx. specialize (Hlt x). specialize (Hpos x Hx). lia.
  - intros x Hx. destruct (fi_why _ _ _ Hinv x Hx) as (y & He & Hy). exists y.
    split; [done|]. specialize (Hedge x y He). lia.
  - intros HL. replace (k - 1 - 1) with (k - 2) by lia. apply (fi_long _ _ _ Hinv). lia.
Qed.

Lemma offsets_path L f k x y :
  offsets_ok L f → nsteps (edge g) k x y → x < n → k + f y ≤ f x.
Proof.
  intros Hf Hk. induction Hk as [x|k x z y He _ IH]; intros Hx; [done|].
  pose proof (of_edge _ _ Hf x z He). destruct (dag_edge_lt g x z Hwf He) as [_ Hz].
  specialize (IH Hz). lia.
Qed.

Lemma first_pass :
  ∃ k f, (r ← finish_last g (seq 0 n) (replicate n 0) ∅;
          finish_loop g n 1 r.2 r.1) = Ok (k, tabulate f n) ∧
    0 < k ∧ offsets_ok (k - 1) f.
Proof.
  destruct (finish_last_spec (seq 0 n) (λ _, 0) ∅) as (Z & HZ & Hin).
  { intros x ?%elem_of_seq. lia. }
  rewrite tabulate_replicate.
  rewrite (tabulate_ext (mark ∅ 1 (λ _, 0)) (λ _, 0)) in HZ
    by (intros; unfold mark; by rewrite decide_False by set_solver).
  rewrite HZ. cbn [mbind outcome_bind fst snd].
  assert (∀ x, x ∈ Z ↔ sink x) as HinZ.
  { intros x. rewrite Hin, elem_of_seq. unfold sink. split; [set_solver|].
    intros Hx. right. split; [lia|done]. }
  destruct (finish_loop_spec n 1 Z (mark Z 1 (λ _, 0))) as (k & f & Hk & Hinv); [|lia|].
  - split; [lia|..].
    + intros x [? _]%HinZ. done.
    + intros x. unfold mark. case_decide; lia.
    + intros x. unfold mark. case_decide; [done|]. split; [done|lia].
    + intros x y _. unfold mark. case_decide; lia.
    + intros x _. exists x. apply nsteps_O.
    + intros x Hx%HinZ. unfold mark. rewrite decide_True by done. lia.
    + intros x. unfold mark. case_decide; lia.
    + lia.
  - exists k, f. split_and!; [done|by eapply fi_pos|by apply finish_end].
Qed.

(** ** The second pass *)

(** [s] is the first stage after those in which the dependencies finish. *)
Definition starts_at (L : nat) (f : nat → nat) (i s : nat) : Prop :=
  (∀ d, edge g d i → L - f d < s) ∧ (s = 0 ∨ ∃ d, edge g d i ∧ s = S (L - f d)).

Lemma start_stage_spec L f l s0 :
  (∀ x, x ∈ l → x < n) →
  ∃ s, start_stage L (tabulate f n) l s0 = Ok s ∧ s0 ≤ s ∧
    (∀ d, d ∈ l → L - f d < s) ∧ (s = s0 ∨ ∃ d, d ∈ l ∧ s = S (L - f d)).
Proof.
  revert s0. induction l as [|i l IH]; intros s0 Hl; cbn.
  { exists s0. split_and!; [done..|set_solver|by left]. }
  rewrite tabulate_at by (apply Hl; by left). cbn.
  set (s1 := if s0 <? L - f i + 1 then L - f i + 1 else s0).
  assert (s0 ≤ s1 ∧ L - f i < s1 ∧ (s1 = s0 ∨ s1 = S (L - f i))) as (H1 & H2 & H3).
  { subst s1. destruct (Nat.ltb_spec s0 (L - f i + 1)); lia. }
  destruct (IH s1) as (s & Hs & H4 & H5 & H6); [intros; apply Hl; by right|].
  exists s. split_and!; [exact Hs|lia|..].
  - intros d [->|Hd]%elem_of_cons; [lia|by apply H5].
  - destruct H6 as [->|(d & Hd & ->)]; [destruct H3 as [->|]|].
    + by left.
    + right. exists i. split; [by left|done].
    + right. exists d. split; [by right|done].
Qed.

Lemma start_loop_spec L f l h :
  (∀ x, x ∈ l → x < n) →
  ∃ h', start_loop g L (tabulate f n) l (tabulate h n) = Ok (tabulate h' n) ∧
    (∀ i, i ∈ l → starts_at L f i (h' i)) ∧ (∀ i, i ∉ l → h' i = h i).
Proof.
  revert h. induction l as [|i l IH]; intros h Hl; cbn.
  { exists h. split_and!; [done|set_solver|done]. }
  assert (i < n) as Hi by (apply Hl; by left).
  rewrite getDependencies_at by done. cbn.
  assert (∀ x, x ∈ set_iter (dependencies_of g i) ↔ edge g x i) as Hit.
  { intros x. by rewrite elem_of_set_iter, edge_dependencies. }
  destruct (start_stage_spec L f (set_iter (dependencies_of g i)) 0)
    as (s & -> & _ & Hs1 & Hs2).
  { intros x He%Hit. by destruct (dag_edge_lt g x i Hwf He). }
  cbn. rewrite (tabulate_set h (λ x, if decide (x = i) then s else h x)) by done. cbn.
  destruct (IH (λ x, if decide (x = i) then s else h x)) as (h' & -> & Hin & Hout).
  { intros x Hx. apply Hl. by right. }
  exists h'. split_and!; [done|..].
  - intros j [->|Hj]%elem_of_cons; [|by apply Hin].
    destruct (decide (i ∈ l)) as [Hil|Hil]; [by apply Hin|].
    rewrite Hout, decide_True by done. setoid_rewrite Hit in Hs1.
    setoid_rewrite Hit in Hs2. done.
  - intros j Hj. rewrite not_elem_of_cons in Hj. rewrite Hout by tauto.
    by rewrite decide_False by tauto.
Qed.

(** ** The stages *)

(** The stages with the nodes of [a] started and those of [b] finished. *)
Definition stages_of (h e : nat → nat) (L : nat) (a b : list nat)
  : list (list nat * list nat) :=
  tabulate (λ s, (filter (λ i, h i = s) a, filter (λ i, e i = s) b)) L.

Lemma filter_push (h : nat → nat) l i s :
  filter (λ j, h j = s) (l ++ [i]) =
    if decide (s = h i) then filter (λ j, h j = s) l ++ [i] else filter (λ j, h j = s) l.
Proof.
  rewrite filter_app, filter_cons, filter_nil.
  repeat case_decide; try congruence. by rewrite app_nil_r.
Qed.

Lemma stages_push_start h e L a b i : h i < L →
  (st ← vec_at (stages_of h e L a b) (h i);
   vec_set (stages_of h e L a b) (h i) (st.1 ++ [i], st.2)) =
  Ok (stages_of h e L (a ++ [i]) b).
Proof.
  intros Hi. unfold stages_of. rewrite tabulate_at by done. cbn [mbind outcome_bind fst snd].
  apply tabulate_set; [done|]. intros y _. rewrite filter_push. by case_decide; subst.
Qed.

Lemma stages_push_finish h e L a b i : e i < L →
  (st ← vec_at (stages_of h e L a b) (e i);
   vec_set (stages_of h e L a b) (e i) (st.1, st.2 ++ [i])) =
  Ok (stages_of h e L a (b ++ [i])).
Proof.
  intros Hi. unfold stages_of. rewrite tabulate_at by done. cbn [mbind outcome_bind fst snd].
  apply tabulate_set; [done|]. intros y _. rewrite filter_push. by case_decide; subst.
Qed.

Lemma push_loop_spec L f h e pre l :
  (∀ i, L - f i = e i) → (∀ i, i ∈ l → i < n ∧ h i < L ∧ e i < L) →
  push_loop L (tabulate h n) (tabulate f n) l (stages_of h e L pre pre) =
    Ok (stages_of h e L (pre ++ l) (pre ++ l)).
Proof.
  intros Hfe. revert pre. induction l as [|i l IH]; intros pre Hl; cbn [push_loop].
  { by rewrite app_nil_r. }
  destruct (Hl i) as (Hi & Hh & He); [by left|].
  rewrite !tabulate_at by done. cbn [mbind outcome_bind]. rewrite Hfe.
  pose proof (stages_push_start h e L pre pre i Hh) as (st & -> & Hst)%bind_Ok.
  cbn [mbind outcome_bind]. rewrite Hst. cbn [mbind outcome_bind].
  pose proof (stages_push_finish h e L (pre ++ [i]) pre i He) as (fi & -> & Hfi)%bind_Ok.
  cbn [mbind outcome_bind]. rewrite Hfi. cbn [mbind outcome_bind].
  rewrite IH; [by rewrite <- app_assoc|]. intros j Hj. apply Hl. by right.
Qed.

Lemma stages_of_nil h e L : replicate L ([], []) = stages_of h e L [] [].
Proof. unfold stages_of. by rewrite tabulate_replicate. Qed.

(** ** What the stages promise *)

(** Which nodes are in the lists of which stage; nodes finish before their
    dependents start; they start as early and finish as late as that allows,
    and there are no more stages than nodes on a longest path. *)
Record schedule (stages : list (list nat * list nat)) (start finish : nat → nat)
  : Prop := {
  sc_lists k st : stages !! k = Some st →
    st.1 = filter (λ i, start i = k) (seq 0 n) ∧
    st.2 = filter (λ i, finish i = k) (seq 0 n);
  sc_range i : i < n → start i ≤ finish i < length stages;
  sc_order i j : edge g i j → finish i < start j;
  sc_early j : j < n → 0 < start j → ∃ i, edge g i j ∧ start j = S (finish i);
  sc_late i : i < n → S (finish i) < length stages →
    ∃ j, edge g i j ∧ finish j = S (finish i);
  sc_bound k x y : x < n → nsteps (edge g) k x y → k < length stages;
  sc_long : 0 < length stages → ∃ x y, x < n ∧ nsteps (edge g) (length stages - 1) x y;
}.

Lemma offsets_schedule L f h :
  offsets_ok L f → (∀ i, i < n → starts_at L f i (h i)) →
  schedule (stages_of h (λ i, L - f i) L (seq 0 n) (seq 0 n)) h (λ i, L - f i).
Proof.
  intros Hf Hh. assert (length (stages_of h (λ i, L - f i) L (seq 0 n) (seq 0 n)) = L) as Hlen
    by (unfold stages_of, tabulate; by rewrite length_fmap, length_seq).
  assert (∀ i j, edge g i j → 0 < f j ∧ f j < f i ∧ f i ≤ L) as Hedge.
  { intros i j He. destruct (dag_edge_lt g i j Hwf He) as [Hi Hj].
    pose proof (of_pos _ _ Hf i Hi). pose proof (of_pos _ _ Hf j Hj).
    pose proof (of_edge _ _ Hf i j He). lia. }
  split; rewrite ?Hlen.
  - intros k st Hst. apply vec_at_Some in Hst. unfold stages_of in Hst.
    assert (k < L) as Hk by (apply vec_at_Ok, lookup_lt_Some in Hst; by rewrite <- Hlen).
    rewrite tabulate_at in Hst by done. injection Hst as <-. done.
  - intros i Hi. pose proof (of_pos _ _ Hf i Hi). split; [|lia].
    destruct (Hh i Hi) as [_ [->|(d & He & ->)]]; [lia|].
    specialize (Hedge d i He). lia.
  - intros i j He. apply (Hh j); [|done]. by destruct (dag_edge_lt g i j Hwf He).
  - intros j Hj Hpos. destruct (Hh j Hj) as [_ [H0|?]]; [lia|done].
  - intros i Hi Hlt. destruct (of_why _ _ Hf i) as (j & He & Hj); [lia|]. exists j.
    split; [done|]. specialize (Hedge i j He). lia.
  - intros k x y Hx Hk. pose proof (offsets_path L f k x y Hf Hk Hx).
    pose proof (of_pos _ _ Hf x Hx).
    assert (0 < f y); [|lia]. destruct (decide (k = 0)) as [->|Hk0].
    + inversion Hk; subst. lia.
    + destruct k as [|k]; [done|]. apply nsteps_inv_r in Hk as (z & _ & He).
      by destruct (Hedge z y He).
  - apply Hf.
Qed.

Lemma computeStageSequence_spec :
  ∃ stages start finish, computeStageSequence g = Ok stages ∧
    schedule stages start finish.
Proof.
  destruct first_pass as (k & f & (r & Hr & Hk)%bind_Ok & Hpos & Hf).
  destruct (start_loop_spec (k - 1) f (seq 0 n) (λ _, 0)) as (h & Hh & Hin & _).
  { intros x ?%elem_of_seq. lia. }
  assert (∀ i, i < n → starts_at (k - 1) f i (h i)) as Hst.
  { intros i Hi. apply Hin, elem_of_seq. lia. }
  pose proof (offsets_schedule (k - 1) f h Hf Hst) as Hsc.
  eexists _, h, (λ i, k - 1 - f i). split; [|exact Hsc].
  unfold computeStageSequence, dag_size. rewrite Hr. destruct r as [offsets C].
  cbn [mbind outcome_bind fst snd] in *. rewrite Hk. cbn [mbind outcome_bind].
  rewrite (tabulate_replicate 0 n), Hh. cbn [mbind outcome_bind].
  rewrite (stages_of_nil h (λ i, k - 1 - f i)).
  apply (push_loop_spec (k - 1) f h _ [] (seq 0 n)); [done|].
  intros i Hi%elem_of_seq. assert (i < n) as Hin' by lia.
  pose proof (sc_range _ _ _ Hsc i Hin') as Hr'.
  replace (length _) with (k - 1) in Hr'
    by (unfold stages_of, tabulate; by rewrite length_fmap, length_seq).
  split_and!; lia.
Qed.
End passes.

(** C19. For a graph that the member functions build and in which hasCycle finds
    no cycle, computeStageSequence ends and its stages are a schedule: every
    node is in the first list of one stage and in the second list of one stage,
    not an earlier one; a node finishes before its dependents start; it starts
    right after its last dependency has finished and finishes as late as its
    dependents allow; and there are as many stages as nodes on a longest path. *)
Theorem stage_sequence_correct {T M : Type} `{!HashOrder nat} `{!HashOrder (nat * M)}
    (g : DAG T M) :
  built g → hasCycle g = Ok false →
  ∃ stages start finish, computeStageSequence g = Ok stages ∧
    schedule g stages start finish.
Proof.
  intros Hwf%built_dag_wf Hf. destruct (dag_hasCycle_spec g Hwf) as (b & Hb & Hc).
  apply computeStageSequence_spec; [done|]. intros c Ht.
  assert (b = true) by (apply Hc; by exists c). congruence.
Qed.

(** ** A graph with four nodes *)

(** Links 0 to 1, 1 to 3 and 2 to 3. *)
Definition joined : outcome (DAG unit bool) :=
  let g := (createNode tt (createNode tt (createNode tt (createNode tt []).2).2).2).2 in
  g1 ← createLink 0 1 true g;
  g2 ← createLink 1 3 false g1;
  createLink 2 3 true g2.

Lemma joined_built g : joined = Ok g → built g.
Proof.
  intros (g1 & H1 & (g2 & H2 & H3)%bind_Ok)%bind_Ok.
  eapply built_link; [|exact H3]. eapply built_link; [|exact H2].
  eapply built_link; [|exact H1]. repeat apply built_node. apply built_empty.
Qed.

Lemma stage_sequence_correct_witness :
  ∃ g start finish, joined = Ok g ∧
    @computeStageSequence unit bool (reverse_order _) g =
      Ok [([0; 2], [0]); ([1], [1; 2]); ([3], [3])] ∧
    schedule g [([0; 2], [0]); ([1], [1; 2]); ([3], [3])] start finish.
Proof.
  destruct joined as [g|] eqn:Hj; [|vm_compute in Hj; discriminate Hj].
  destruct (@stage_sequence_correct unit bool (reverse_order _) (reverse_order _) g
    (joined_built g Hj)) as (stages & start & finish & Hs & Hsc).
  - vm_compute in Hj. injection Hj as <-. vm_compute. reflexivity.
  - exists g, start, finish.
    assert (@computeStageSequence unit bool (reverse_order _) g =
      Ok [([0; 2], [0]); ([1], [1; 2]); ([3], [3])]) as Hc.
    { vm_compute in Hj. injection Hj as <-. vm_compute. reflexivity. }
    split; [reflexivity|]. split; [exact Hc|].
    rewrite Hs in Hc. injection Hc as ->. exact Hsc.
Defined.
