(* ===== verification/QueryManager.v ===== *)
(** * The manager of a query on a single node

    Models query_execution/QueryManagerBase.{hpp,cpp} and
    QueryManagerSingleNode.{hpp,cpp}: the construction from a query plan, the
    handlers of the messages that arrive while the query runs, and the
    scheduling of the operators they trigger.

    The operators are code outside this component: a type with the virtual
    functions of relational_operators/RelationalOperator.hpp the manager calls,
    the class [RelationalOperator].  [E] is everything else those functions
    reach: the [QueryContext], the storage manager, the catalog.  A work order
    that [getAllWorkOrders] produces is added to the container under the index
    of its operator, which [QueryPlan::addRelationalOperator] sets to the index
    of the node.

    [markOperatorFinished] calls itself for the dependents that finish with
    it; the fuel bounds the depth of these calls. *)

From S2P Require Import Prelude StateMonad WorkOrdersContainer.
From S2P Require Import DAG QueryExecutionState.
From stdpp Require Import options.

(** [insert_destination_id] and [relation_id] are signed; ids of blocks and
    partitions are not. *)
Class RelationalOperator (Op W E F B : Type) := {
  getAllWorkOrders : Op → E → outcome (list W * bool * Op * E);
  feedInputBlock : nat → Z → nat → Op → outcome Op;
  doneFeedingInputBlocks : Z → Op → outcome Op;
  receiveFeedbackMessage : F → Op → outcome Op;
  updateCatalogOnCompletion : Op → E → E;
  getInsertDestinationID : Op → Z;
  getOutputRelationID : Op → Z;
  (** [InsertDestination::getPartiallyFilledBlocks] of the insert destination
      with the given id: the blocks and their partitions. *)
  getPartiallyFilledBlocks : Z → E → list (B * nat) * E;
  (** [new RebuildWorkOrder(...)]: the block, the operator, the relation and
      the partition. *)
  newRebuildWorkOrder : B → nat → Z → nat → W;
}.

Definition kInvalidInsertDestinationId : Z := -1.

Inductive QueryStatusCode := kOperatorExecuted | kQueryExecuted | kNone.

Section manager.
Context {Op W E F B : Type} `{!WorkOrder W} `{!RelationalOperator Op W E F B}.
Context `{!HashOrder (nat * bool)}.

Record QueryManager := {
  query_dag : DAG Op bool;
  num_operators_in_dag : nat;
  output_consumers : list (list nat);
  blocking_dependencies : list (gset nat);
  non_dependent_operators : list nat;
  query_exec_state : QueryExecutionState;
  blocking_dependents : list (list nat);
  non_blocking_dependencies : list (gset nat);
  workorders_container : WorkOrdersContainer W;
  query_context : E;
}.

Definition with_dag (g : DAG Op bool) (s : QueryManager) : QueryManager := {|
  query_dag := g;
  num_operators_in_dag := num_operators_in_dag s;
  output_consumers := output_consumers s;
  blocking_dependencies := blocking_dependencies s;
  non_dependent_operators := non_dependent_operators s;
  query_exec_state := query_exec_state s;
  blocking_dependents := blocking_dependents s;
  non_blocking_dependencies := non_blocking_dependencies s;
  workorders_container := workorders_container s;
  query_context := query_context s;
|}.
Definition with_exec (x : QueryExecutionState) (s : QueryManager) : QueryManager := {|
  query_dag := query_dag s;
  num_operators_in_dag := num_operators_in_dag s;
  output_consumers := output_consumers s;
  blocking_dependencies := blocking_dependencies s;
  non_dependent_operators := non_dependent_operators s;
  query_exec_state := x;
  blocking_dependents := blocking_dependents s;
  non_blocking_dependencies := non_blocking_dependencies s;
  workorders_container := workorders_container s;
  query_context := query_context s;
|}.
Definition with_container (c : WorkOrdersContainer W) (s : QueryManager)
  : QueryManager := {|
  query_dag := query_dag s;
  num_operators_in_dag := num_operators_in_dag s;
  output_consumers := output_consumers s;
  blocking_dependencies := blocking_dependencies s;
  non_dependent_operators := non_dependent_operators s;
  query_exec_state := query_exec_state s;
  blocking_dependents := blocking_dependents s;
  non_blocking_dependencies := non_blocking_dependencies s;
  workorders_container := c;
  query_context := query_context s;
|}.
Definition with_context (e : E) (s : QueryManager) : QueryManager := {|
  query_dag := query_dag s;
  num_operators_in_dag := num_operators_in_dag s;
  output_consumers := output_consumers s;
  blocking_dependencies := blocking_dependencies s;
  non_dependent_operators := non_dependent_operators s;
  query_exec_state := query_exec_state s;
  blocking_dependents := blocking_dependents s;
  non_blocking_dependencies := non_blocking_dependencies s;
  workorders_container := workorders_container s;
  query_context := e;
|}.
(** The four tables of dependencies. *)
Definition with_tables (oc : list (list nat)) (bdy : list (gset nat))
    (bdt : list (list nat)) (nbd : list (gset nat)) (s : QueryManager)
  : QueryManager := {|
  query_dag := query_dag s;
  num_operators_in_dag := num_operators_in_dag s;
  output_consumers := oc;
  blocking_dependencies := bdy;
  non_dependent_operators := non_dependent_operators s;
  query_exec_state := query_exec_state s;
  blocking_dependents := bdt;
  non_blocking_dependencies := nbd;
  workorders_container := workorders_container s;
  query_context := query_context s;
|}.
Definition add_non_dependent (i : nat) (s : QueryManager) : QueryManager := {|
  query_dag := query_dag s;
  num_operators_in_dag := num_operators_in_dag s;
  output_consumers := output_consumers s;
  blocking_dependencies := blocking_dependencies s;
  non_dependent_operators := non_dependent_operators s ++ [i];
  query_exec_state := query_exec_state s;
  blocking_dependents := blocking_dependents s;
  non_blocking_dependencies := non_blocking_dependencies s;
  workorders_container := workorders_container s;
  query_context := query_context s;
|}.

Abbreviation M := (stateM QueryManager).

(** Member functions of the execution state, the container and the graph, on
    the object the manager holds. *)
Definition exec_reads {A} (f : QueryExecutionState → outcome A) : M A :=
  reads (λ s, f (query_exec_state s)).
Definition exec_updates (f : QueryExecutionState → outcome QueryExecutionState)
  : M unit :=
  updates (λ s, x ← f (query_exec_state s); Ok (with_exec x s)).
Definition container_reads {A} (f : WorkOrdersContainer W → outcome A) : M A :=
  reads (λ s, f (workorders_container s)).
Definition container_updates
    (f : WorkOrdersContainer W → outcome (WorkOrdersContainer W)) : M unit :=
  updates (λ s, c ← f (workorders_container s); Ok (with_container c s)).
(** [query_dag_->getNodePayloadMutable(index)->f()] *)
Definition op_updates (index : nat) (f : Op → outcome Op) : M unit :=
  updates (λ s,
    op ← getNodePayload index (query_dag s);
    op' ← f op;
    g ← setNodePayload index op' (query_dag s);
    Ok (with_dag g s)).

Definition checkAllBlockingDependenciesMet (node_index : nat) : M bool :=
  reads (λ s, d ← vec_at (blocking_dependencies s) node_index;
              Ok (bool_decide (d = ∅))).
Definition checkRebuildRequired (index : nat) : M bool :=
  exec_reads (isRebuildRequired index).
Definition checkRebuildInitiated (index : nat) : M bool :=
  exec_reads (λ x, Ok (hasRebuildInitiated index x)).

(** ** [QueryManagerSingleNode] *)

(** [&&] evaluates its second operand only when the first is true. *)
Definition and_then (m1 m2 : M bool) : M bool :=
  b ← m1; if (b : bool) then m2 else mret false.
Definition or_else (m1 m2 : M bool) : M bool :=
  b ← m1; if (b : bool) then mret true else m2.
Definition not_m (m : M bool) : M bool := b ← m; mret (negb b).

Definition checkNormalExecutionOver (index : nat) : M bool :=
  and_then (not_m (container_reads (hasNormalWorkOrder index)))
    (and_then (exec_reads (λ x, n ← getNumQueuedWorkOrders index x; Ok (n =? 0)%N))
       (exec_reads (hasDoneGenerationWorkOrders index))).
Definition checkRebuildOver (index : nat) : M bool :=
  and_then (not_m (container_reads (hasRebuildWorkOrder index)))
    (exec_reads (λ x, Ok (getNumRebuildWorkOrders_es index x =? 0)%N)).

(** The call of [getAllWorkOrders]: the operator adds its work orders. *)
Definition generate (index : nat) : M bool :=
  op ← reads (λ s, getNodePayload index (query_dag s));
  e ← gets query_context;
  '(ws, done_generation, op', e') ← reads (λ _, getAllWorkOrders op e);
  op_updates index (λ _, Ok op') ;;
  modify (with_context e') ;;
  for_each (λ w, container_updates (addNormalWorkOrder w index)) ws ;;
  mret done_generation.

Definition fetchNormalWorkOrders (index : nat) : M bool :=
  num_pending_workorders_before ← container_reads (getNumNormalWorkOrders index);
  done_generation ← generate index;
  (if (done_generation : bool)
   then exec_updates (setDoneGenerationWorkOrders index) else mret tt) ;;
  n ← container_reads (getNumNormalWorkOrders index);
  mret (num_pending_workorders_before <? n).

Definition getRebuildWorkOrders (index : nat) : M nat :=
  op ← reads (λ s, getNodePayload index (query_dag s));
  e ← gets query_context;
  let '(refs, e') := getPartiallyFilledBlocks (getInsertDestinationID op) e in
  modify (with_context e') ;;
  for_each (λ ref : B * nat,
    container_updates
      (addRebuildWorkOrder
         (newRebuildWorkOrder ref.1 index (getOutputRelationID op) ref.2) index))
    refs ;;
  mret (length refs).

Definition initiateRebuild (index : nat) : M bool :=
  num_rebuild_work_orders ← getRebuildWorkOrders index;
  exec_updates (setRebuildStatus index (N.of_nat num_rebuild_work_orders) true) ;;
  mret (num_rebuild_work_orders =? 0).

(** The message carries the work order, its operator and whether it is a
    rebuild work order; [None] is a null pointer. *)
Definition getNextWorkerMessage : M (option (W * nat * bool)) :=
  '(o, out) ← (λ s,
    match getNextWorkOrder (workorders_container s) with
    | Ok (o, out, c) => Ok ((o, out), with_container c s)
    | Err e => Err e
    end : outcome (option W * option (nat * bool) * QueryManager));
  match o, out with
  | Some work_order, Some (operator_index, true) =>
      mret (Some (work_order, operator_index, true))
  | Some work_order, Some (operator_index, false) =>
      exec_updates (incrementNumQueuedWorkOrders operator_index) ;;
      mret (Some (work_order, operator_index, false))
  | _, _ => mret None
  end.

(** ** [QueryManagerBase] *)

(** [v[i].erase(x)] *)
Definition erase_at (i x : nat) (v : list (gset nat)) : outcome (list (gset nat)) :=
  d ← vec_at v i; vec_set v i (d ∖ {[x]}).
Definition insert_at (i x : nat) (v : list (gset nat)) : outcome (list (gset nat)) :=
  d ← vec_at v i; vec_set v i ({[x]} ∪ d).
Definition push_at (i x : nat) (v : list (list nat)) : outcome (list (list nat)) :=
  l ← vec_at v i; vec_set v i (l ++ [x]).

(** The first two loops of [markOperatorFinished]. *)
Definition erase_blocking (index dependent_op_index : nat) : M unit :=
  updates (λ s,
    v ← erase_at dependent_op_index index (blocking_dependencies s);
    Ok (with_tables (output_consumers s) v (blocking_dependents s)
          (non_blocking_dependencies s) s)).
Definition erase_non_blocking (index dependent_op_index : nat) : M unit :=
  updates (λ s,
    v ← erase_at dependent_op_index index (non_blocking_dependencies s);
    Ok (with_tables (output_consumers s) (blocking_dependencies s)
          (blocking_dependents s) v s)).

(** The body of the third loop; [mark] is the recursive call. *)
Definition visit_dependent (mark : nat → M unit) (output_rel : Z)
    (dependent_op_index : nat) : M unit :=
  (if decide (output_rel >= 0)%Z
   then op_updates dependent_op_index
          (doneFeedingInputBlocks output_rel)
   else mret tt) ;;
  met ← checkAllBlockingDependenciesMet dependent_op_index;
  if (met : bool) then
    finished ←
      and_then (not_m (fetchNormalWorkOrders dependent_op_index))
        (and_then
           (reads (λ s,
              d ← vec_at (non_blocking_dependencies s) dependent_op_index;
              Ok (bool_decide (d = ∅))))
           (and_then (checkNormalExecutionOver dependent_op_index)
              (or_else (not_m (checkRebuildRequired dependent_op_index))
                 (initiateRebuild dependent_op_index))));
    if (finished : bool) then mark dependent_op_index else mret tt
  else mret tt.

Fixpoint markOperatorFinished (fuel : nat) (index : nat) : M unit :=
  match fuel with
  | 0 => fails OutOfFuel
  | S fuel' =>
      exec_updates (setExecutionFinished index) ;;
      bdts ← reads (λ s, vec_at (blocking_dependents s) index);
      for_each (erase_blocking index) bdts ;;
      ocs ← reads (λ s, vec_at (output_consumers s) index);
      for_each (erase_non_blocking index) ocs ;;
      op ← reads (λ s, getNodePayload index (query_dag s));
      modify (λ s, with_context (updateCatalogOnCompletion op (query_context s)) s) ;;
      let output_rel := getOutputRelationID op in
      dependents ← reads (λ s, getDependents index (query_dag s));
      for_each (λ dependent_link : nat * bool,
          visit_dependent (markOperatorFinished fuel') output_rel dependent_link.1)
        (map_iter dependents)
  end.

Definition queryStatus (op_index : nat) : M QueryStatusCode :=
  exec_reads (λ x,
    if hasQueryExecutionFinished x then Ok kQueryExecuted
    else b ← hasExecutionFinished op_index x;
         Ok (if (b : bool) then kOperatorExecuted else kNone)).

Definition processFeedbackMessage (op_index : nat) (msg : F) : M unit :=
  op_updates op_index (receiveFeedbackMessage msg) ;;
  d ← exec_reads (hasDoneGenerationWorkOrders op_index);
  if (d : bool) then mret tt else fetchNormalWorkOrders op_index ;; mret tt.

Definition processWorkOrderCompleteMessage (fuel op_index : nat) : M unit :=
  exec_updates (decrementNumQueuedWorkOrders op_index) ;;
  over ← checkNormalExecutionOver op_index;
  if negb over then mret tt
  else
    required ← checkRebuildRequired op_index;
    (** [true] when the rebuild is under way and the handler returns. *)
    under_progress ← (if (required : bool)
                      then not_m (initiateRebuild op_index) else mret false);
    if (under_progress : bool) then mret tt
    else markOperatorFinished fuel op_index.

Definition processRebuildWorkOrderCompleteMessage (fuel op_index : nat) : M unit :=
  exec_updates (decrementNumRebuildWorkOrders op_index) ;;
  over ← checkRebuildOver op_index;
  if negb over then mret tt else markOperatorFinished fuel op_index.

Definition processDataPipelineMessage (op_index block : nat) (rel_id : Z)
    (part_id : nat) : M unit :=
  consumers ← reads (λ s, vec_at (output_consumers s) op_index);
  for_each (λ consumer_index,
      op_updates consumer_index
        (feedInputBlock block rel_id part_id) ;;
      met ← checkAllBlockingDependenciesMet consumer_index;
      if (met : bool) then fetchNormalWorkOrders consumer_index ;; mret tt
      else mret tt) consumers.

(** ** Construction *)

(** The body of the inner loop of the base constructor.  The link exists, so
    [getLinkMetadata] changes nothing. *)
Definition add_link (node_index dependent_op_index : nat) : M unit :=
  updates (λ s,
    '(breaker, g) ← getLinkMetadata false node_index dependent_op_index (query_dag s);
    let s := with_dag g s in
    if (breaker : bool) then
      bdy ← insert_at dependent_op_index node_index (blocking_dependencies s);
      bdt ← push_at node_index dependent_op_index (blocking_dependents s);
      Ok (with_tables (output_consumers s) bdy bdt (non_blocking_dependencies s) s)
    else
      nbd ← insert_at dependent_op_index node_index (non_blocking_dependencies s);
      oc ← push_at node_index dependent_op_index (output_consumers s);
      Ok (with_tables oc (blocking_dependencies s) (blocking_dependents s) nbd s)).

Definition add_node (node_index : nat) : M unit :=
  op ← reads (λ s, getNodePayload node_index (query_dag s));
  (if decide (getInsertDestinationID op = kInvalidInsertDestinationId)
   then mret tt
   else exec_updates (setRebuildRequired node_index)) ;;
  deps ← reads (λ s, getDependencies node_index (query_dag s));
  (if decide (deps = ∅) then modify (add_non_dependent node_index) else mret tt) ;;
  dependents ← reads (λ s, getDependents node_index (query_dag s));
  for_each (λ dependent_link : nat * bool, add_link node_index dependent_link.1)
    (map_iter dependents).

Definition initial (num_numa_nodes : nat) (g : DAG Op bool) (e : E)
  : QueryManager := {|
  query_dag := g;
  num_operators_in_dag := dag_size g;
  output_consumers := replicate (dag_size g) [];
  blocking_dependencies := replicate (dag_size g) ∅;
  non_dependent_operators := [];
  query_exec_state := new_QueryExecutionState (dag_size g);
  blocking_dependents := replicate (dag_size g) [];
  non_blocking_dependencies := replicate (dag_size g) ∅;
  workorders_container := new_WorkOrdersContainer (dag_size g) num_numa_nodes;
  query_context := e;
|}.

(** The constructor of the base class. *)
Definition QueryManagerBase (n : nat) : M unit := for_each add_node (seq 0 n).

(** The constructor of the derived class: the [DCHECK] around
    [initiateRebuild] is not compiled in a release build, and with it the
    call. *)
Definition QueryManagerSingleNode (fuel : nat) : M unit :=
  ops ← gets non_dependent_operators;
  for_each (λ index,
      b ← fetchNormalWorkOrders index;
      if (b : bool) then mret tt else markOperatorFinished fuel index) ops.

Definition new_QueryManager (fuel num_numa_nodes : nat) (g : DAG Op bool) (e : E)
  : outcome QueryManager :=
  match (QueryManagerBase (dag_size g) ;; QueryManagerSingleNode fuel)
          (initial num_numa_nodes g e) with
  | Ok (_, s) => Ok s
  | Err f => Err f
  end.
End manager.
