(* ===== verification/QueryManagerViews.v ===== *)
(** * What the operations of a query manager change

    Views of the state of a [QueryManager] per operator, its structural
    well-formedness for a plan [g0] and [m] NUMA nodes, what the manager
    expects of the operators ([OperatorContract]), and the effect of
    [fetchNormalWorkOrders] and [initiateRebuild] on the views. *)

From S2P Require Import Prelude StateMonad WorkOrdersContainer.
From S2P Require Import WorkOrdersScheduling DAG QueryExecutionState QueryManager.
From stdpp Require Import options.

Arguments QueryManager : clear implicits.

(** The ids of the output are fixed when the operator is built. *)
Definition same_ids {Op W E F B} `{!RelationalOperator Op W E F B} (op op' : Op)
  : Prop :=
  getOutputRelationID op' = getOutputRelationID op ∧
  getInsertDestinationID op' = getInsertDestinationID op.

(** How an operator moves on: its ids stay, and so do its well-formedness and
    what it can be given. *)
Definition moves_on {Op W E F B} `{!RelationalOperator Op W E F B}
    (ok : Op → Prop) (accepts : Op → Z → nat → Prop) (ends : Op → Z → Prop)
    (hears : Op → F → Prop) (op op' : Op) : Prop :=
  same_ids op op' ∧ (ok op → ok op') ∧
  (∀ r p, accepts op r p → accepts op' r p) ∧
  (∀ r, ends op r → ends op' r) ∧ (∀ f, hears op f → hears op' f).

(** What the manager relies on when it calls the operators.  [awaiting] is the
    set of the relations an operator still waits to be told are complete;
    [op_ok] is its invariant; [accepts], [ends] and [hears] are the blocks (by
    relation and partition), the ends of relations and the feedback it can be
    given; [m] is the number of NUMA nodes. *)
Class OperatorContract (Op W E F B : Type) `{!WorkOrder W}
    `{!RelationalOperator Op W E F B} (m : nat) := {
  awaiting : Op → gset Z;
  op_ok : Op → Prop;
  accepts : Op → Z → nat → Prop;
  ends : Op → Z → Prop;
  hears : Op → F → Prop;
  (** An operator has generated all its work orders only when no input is
      missing. *)
  generate_contract op e : op_ok op → ∃ ws d op' e',
    getAllWorkOrders op e = Ok (ws, d, op', e') ∧
    awaiting op' = awaiting op ∧ (d = true → awaiting op = ∅) ∧
    moves_on op_ok accepts ends hears op op' ∧ forallb (numa_ok m) ws = true;
  feed_contract b r p op : op_ok op → accepts op r p → ∃ op',
    feedInputBlock b r p op = Ok op' ∧
    awaiting op' = awaiting op ∧ moves_on op_ok accepts ends hears op op';
  done_contract r op : op_ok op → ends op r → ∃ op',
    doneFeedingInputBlocks r op = Ok op' ∧
    awaiting op' = awaiting op ∖ {[r]} ∧ moves_on op_ok accepts ends hears op op';
  feedback_contract f op : op_ok op → hears op f → ∃ op',
    receiveFeedbackMessage f op = Ok op' ∧
    awaiting op' = awaiting op ∧ moves_on op_ok accepts ends hears op op';
  rebuild_contract b i r p : numa_ok m (newRebuildWorkOrder b i r p) = true;
  (** A vector has fewer than [2 ^ 64] elements. *)
  blocks_contract d e :
    (N.of_nat (length (getPartiallyFilledBlocks d e).1) < 2 ^ 64)%N;
}.

Section views.
Context {Op W E F B : Type} `{!WorkOrder W} `{!RelationalOperator Op W E F B}.
Context `{!HashOrder (nat * bool)} {m : nat} `{!OperatorContract Op W E F B m}.
Abbreviation QM := (QueryManager Op W E).
Abbreviation evolves := (moves_on op_ok accepts ends hears).

(** ** Views *)

Definition v_finished (s : QM) (i : nat) : bool :=
  default false (execution_finished (query_exec_state s) !! i).
Definition v_done (s : QM) (i : nat) : bool :=
  default false (done_gen (query_exec_state s) !! i).
Definition v_queued (s : QM) (i : nat) : N :=
  default 0%N (queued_workorders_per_op (query_exec_state s) !! i).
Definition v_status (s : QM) (i : nat) : option RebuildStatus :=
  rebuild_status (query_exec_state s) !! i.
Definition v_initiated (s : QM) (i : nat) : bool :=
  hasRebuildInitiated i (query_exec_state s).
Definition v_rebuilds (s : QM) (i : nat) : N :=
  getNumRebuildWorkOrders_es i (query_exec_state s).
Definition v_normal (s : QM) (i : nat) : list W :=
  normal_of i (workorders_container s).
Definition v_rebuild (s : QM) (i : nat) : list W :=
  rebuild_of i (workorders_container s).
Definition v_await (s : QM) (i : nat) : gset Z :=
  from_option (λ d, awaiting (payload d)) ∅ (query_dag s !! i).
Definition v_blocking (s : QM) (i : nat) : gset nat :=
  default ∅ (blocking_dependencies s !! i).
Definition v_non_blocking (s : QM) (i : nat) : gset nat :=
  default ∅ (non_blocking_dependencies s !! i).

(** ** Structure *)

(** The plan's own data: the output relation and the insert destination of a
    node. *)
Definition out_of (g : DAG Op bool) (i : nat) : Z :=
  from_option (λ d, getOutputRelationID (payload d)) (-1)%Z (g !! i).
Definition dest_of (g : DAG Op bool) (i : nat) : Z :=
  from_option (λ d, getInsertDestinationID (payload d)) (-1)%Z (g !! i).
Definition needs_rebuild (g : DAG Op bool) (i : nat) : bool :=
  negb (bool_decide (dest_of g i = kInvalidInsertDestinationId)).

(** A graph with the links of [g0] whose operators moved on. *)
Record same_plan (g0 g : DAG Op bool) : Prop := {
  plan_length : length g = length g0;
  plan_node i d d0 : g !! i = Some d → g0 !! i = Some d0 →
    dependencies d = dependencies d0 ∧
    dependents_with_metadata d = dependents_with_metadata d0 ∧
    evolves (payload d0) (payload d) ∧ op_ok (payload d);
}.

Record Wf (g0 : DAG Op bool) (s : QM) : Prop := {
  wf_plan : same_plan g0 (query_dag s);
  wf_container : woc_wf (workorders_container s);
  wf_container_ops : num_operators (workorders_container s) = length g0;
  wf_container_nodes : num_numa_nodes (workorders_container s) = m;
  wf_es : es_num_operators (query_exec_state s) = length g0;
  wf_queued : length (queued_workorders_per_op (query_exec_state s)) = length g0;
  wf_required i : i < length g0 →
    rebuild_required (query_exec_state s) !! i = Some (needs_rebuild g0 i);
  wf_done : length (done_gen (query_exec_state s)) = length g0;
  wf_finished : length (execution_finished (query_exec_state s)) = length g0;
  wf_status i : is_Some (v_status s i) ↔ i < length g0 ∧ needs_rebuild g0 i = true;
  wf_blocking : length (blocking_dependencies s) = length g0;
  wf_non_blocking : length (non_blocking_dependencies s) = length g0;
  wf_dependents i : i < length g0 → ∃ l, blocking_dependents s !! i = Some l ∧
    ∀ j, j ∈ l ↔ link g0 i j true;
  wf_consumers i : i < length g0 → ∃ l, output_consumers s !! i = Some l ∧
    ∀ j, j ∈ l ↔ link g0 i j false;
}.

Lemma same_plan_lookup g0 g i d :
  same_plan g0 g → g !! i = Some d → ∃ d0, g0 !! i = Some d0.
Proof.
  intros Hp Hd. apply lookup_lt_is_Some_2. rewrite <- (plan_length _ _ Hp).
  by eapply lookup_lt_Some.
Qed.

Lemma same_plan_node g0 g i :
  same_plan g0 g → i < length g0 → ∃ d d0,
    g !! i = Some d ∧ g0 !! i = Some d0 ∧ dependencies d = dependencies d0 ∧
    dependents_with_metadata d = dependents_with_metadata d0 ∧
    evolves (payload d0) (payload d) ∧ op_ok (payload d).
Proof.
  intros Hp Hi.
  destruct (lookup_lt_is_Some_2 g0 i Hi) as [d0 H0].
  destruct (lookup_lt_is_Some_2 g i) as [d H]; [by rewrite (plan_length _ _ Hp)|].
  exists d, d0. pose proof (plan_node _ _ Hp i d d0 H H0). naive_solver.
Qed.

Lemma evolves_refl op : evolves op op.
Proof. unfold moves_on, same_ids. naive_solver. Qed.
Lemma evolves_trans op1 op2 op3 :
  evolves op1 op2 → evolves op2 op3 → evolves op1 op3.
Proof. intros ([] & ? & ? & ? & ?) ([] & ? & ? & ? & ?). split_and!; [split; congruence|auto..]. Qed.

Lemma same_plan_refl g :
  (∀ i d, g !! i = Some d → op_ok (payload d)) → same_plan g g.
Proof.
  intros Hok. split; [done|]. intros i d d0 Hd [= ->]%(eq_trans (eq_sym Hd)).
  split_and!; eauto using evolves_refl.
Qed.

Lemma same_plan_set g0 g i d op :
  same_plan g0 g → g !! i = Some d → evolves (payload d) op →
  same_plan g0 (<[i := setPayload op d]> g).
Proof.
  intros [Hl Hn] Hd Hop. split; [by rewrite length_insert|].
  intros j e d0 [(<- & <- & _)|[_ He]]%list_lookup_insert_Some H0; [|eauto].
  destruct (Hn i d d0 Hd H0) as (? & ? & ? & ?). cbn.
  split_and!; [done|done|by eapply evolves_trans|by apply Hop].
Qed.

(** ** Reading *)

Lemma default_lookup_insert {A} (x : A) l i y j :
  i < length l →
  default x (<[i := y]> l !! j) = if decide (j = i) then y else default x (l !! j).
Proof.
  intros Hi. case_decide as Hj; [subst; by rewrite list_lookup_insert_eq|].
  by rewrite list_lookup_insert_ne.
Qed.

Lemma vec_at_default {A} (x : A) l i :
  i < length l → vec_at l i = Ok (default x (l !! i)).
Proof.
  intros Hi. destruct (lookup_lt_is_Some_2 l i Hi) as [y Hy].
  unfold vec_at. by rewrite Hy.
Qed.

Section plan.
Context (g0 : DAG Op bool).

Lemma wf_node s i :
  Wf g0 s → i < length g0 → ∃ d, query_dag s !! i = Some d ∧
    getOutputRelationID (payload d) = out_of g0 i ∧
    getInsertDestinationID (payload d) = dest_of g0 i ∧
    getNodePayload i (query_dag s) = Ok (payload d) ∧
    v_await s i = awaiting (payload d) ∧ op_ok (payload d).
Proof.
  intros Hwf Hi.
  destruct (same_plan_node _ _ i (wf_plan _ _ Hwf) Hi)
    as (d & d0 & Hd & Hd0 & _ & _ & ([Ho Hde] & _) & Hok).
  exists d. unfold out_of, dest_of, v_await, getNodePayload.
  rewrite Hd0, Hd, (vec_at_Some _ _ _ Hd). done.
Qed.

Lemma wp_op_updates i f (Q : unit → QM → Prop) s d op' :
  query_dag s !! i = Some d → f (payload d) = Ok op' →
  Q tt (with_dag (<[i := setPayload op' d]> (query_dag s)) s) →
  wp (op_updates i f) Q s.
Proof.
  intros Hd Hf HQ. eapply wp_updates; [|exact HQ].
  unfold getNodePayload, setNodePayload. rewrite (vec_at_Some _ _ _ Hd). cbn.
  by rewrite Hf.
Qed.

Lemma wp_check_met s i (Q : bool → QM → Prop) :
  Wf g0 s → i < length g0 → Q (bool_decide (v_blocking s i = ∅)) s →
  wp (checkAllBlockingDependenciesMet i) Q s.
Proof.
  intros Hwf Hi HQ. eapply wp_reads; [|exact HQ].
  rewrite (vec_at_default ∅) by (by rewrite (wf_blocking _ _ Hwf)). done.
Qed.

Lemma wp_check_streams s i (Q : bool → QM → Prop) :
  Wf g0 s → i < length g0 → Q (bool_decide (v_non_blocking s i = ∅)) s →
  wp (reads (λ s, d ← vec_at (non_blocking_dependencies s) i;
                  Ok (bool_decide (d = ∅)))) Q s.
Proof.
  intros Hwf Hi HQ. eapply wp_reads; [|exact HQ].
  rewrite (vec_at_default ∅) by (by rewrite (wf_non_blocking _ _ Hwf)). done.
Qed.

Lemma wp_required s i (Q : bool → QM → Prop) :
  Wf g0 s → i < length g0 → Q (needs_rebuild g0 i) s →
  wp (checkRebuildRequired i) Q s.
Proof.
  intros Hwf Hi HQ. eapply wp_reads; [|exact HQ].
  unfold isRebuildRequired.
  by rewrite (vec_at_Some _ _ _ (wf_required _ _ Hwf i Hi)).
Qed.

Lemma wp_and_then (m1 m2 : stateM QM bool) (Q : bool → QM → Prop) s :
  wp m1 (λ b s', if b then wp m2 Q s' else Q false s') s →
  wp (and_then m1 m2) Q s.
Proof. intros H. apply wp_bind. eapply wp_mono; [exact H|]. by intros []. Qed.

Lemma wp_or_else (m1 m2 : stateM QM bool) (Q : bool → QM → Prop) s :
  wp m1 (λ b s', if b then Q true s' else wp m2 Q s') s →
  wp (or_else m1 m2) Q s.
Proof. intros H. apply wp_bind. eapply wp_mono; [exact H|]. by intros []. Qed.

Lemma wp_not (m1 : stateM QM bool) (Q : bool → QM → Prop) s :
  wp m1 (λ b s', Q (negb b) s') s → wp (not_m m1) Q s.
Proof. intros H. apply wp_bind. eapply wp_mono; [exact H|]. by intros b. Qed.

Lemma container_queries s i :
  Wf g0 s → i < length g0 →
  hasNormalWorkOrder i (workorders_container s) =
    Ok (bool_decide (v_normal s i ≠ [])) ∧
  hasRebuildWorkOrder i (workorders_container s) =
    Ok (bool_decide (v_rebuild s i ≠ [])) ∧
  getNumNormalWorkOrders i (workorders_container s) = Ok (length (v_normal s i)).
Proof.
  intros Hwf Hi. rewrite <- (wf_container_ops _ _ Hwf) in Hi.
  destruct (woc_wf_placed _ (wf_container _ _ Hwf)) as [HN HR].
  unfold v_normal, v_rebuild, normal_of, rebuild_of, hasNormalWorkOrder,
    hasRebuildWorkOrder, getNumNormalWorkOrders.
  destruct (half_placed_lookup _ _ _ i HN Hi) as (c & Hc & Hcw & _ & Ho).
  destruct (half_placed_lookup _ _ _ i HR Hi) as (d & Hd & Hdw & _ & Hp).
  rewrite (vec_at_Some _ _ _ Hc), (vec_at_Some _ _ _ Hd). cbn.
  by rewrite !op_has_spec, op_num_spec, !of_op_tagged, Ho, Hp.
Qed.

(** All normal work orders of [i] are done. *)
Definition v_over (s : QM) (i : nat) : bool :=
  bool_decide (v_normal s i = []) && (v_queued s i =? 0)%N && v_done s i.

Lemma v_over_true s i :
  v_over s i = true ↔ v_normal s i = [] ∧ v_queued s i = 0%N ∧ v_done s i = true.
Proof.
  unfold v_over. rewrite !andb_true_iff, bool_decide_eq_true, N.eqb_eq. tauto.
Qed.

Lemma wp_over s i (Q : bool → QM → Prop) :
  Wf g0 s → i < length g0 → Q (v_over s i) s →
  wp (checkNormalExecutionOver i) Q s.
Proof.
  intros Hwf Hi HQ. destruct (container_queries s i Hwf Hi) as (Hn & _ & _).
  apply wp_and_then, wp_not. eapply wp_reads; [exact Hn|].
  unfold v_over in HQ. rewrite bool_decide_not, negb_involutive.
  destruct (bool_decide (v_normal s i = [])); [|done].
  apply wp_and_then. eapply wp_reads.
  { unfold getNumQueuedWorkOrders.
    by rewrite (vec_at_default 0%N) by (by rewrite (wf_queued _ _ Hwf)). }
  fold (v_queued s i). cbn [andb] in HQ. destruct (v_queued s i =? 0)%N; [|done].
  eapply wp_reads; [|exact HQ]. unfold hasDoneGenerationWorkOrders.
  by rewrite (vec_at_default false) by (by rewrite (wf_done _ _ Hwf)).
Qed.

Lemma wp_rebuild_over s i (Q : bool → QM → Prop) :
  Wf g0 s → i < length g0 →
  Q (bool_decide (v_rebuild s i = []) && (v_rebuilds s i =? 0)%N) s →
  wp (checkRebuildOver i) Q s.
Proof.
  intros Hwf Hi HQ. destruct (container_queries s i Hwf Hi) as (_ & Hr & _).
  apply wp_and_then, wp_not. eapply wp_reads; [exact Hr|].
  rewrite bool_decide_not, negb_involutive.
  destruct (bool_decide (v_rebuild s i = [])); [|done].
  by eapply wp_reads.
Qed.

(** ** Adding work orders *)

Lemma wp_add_normals ws i s (Q : unit → QM → Prop) :
  Wf g0 s → i < length g0 → forallb (numa_ok m) ws = true →
  (∀ c, Wf g0 (with_container c s) →
     rebuild_workorders c = rebuild_workorders (workorders_container s) →
     (∀ j, normal_of j c ≡ₚ
       (if decide (j = i) then ws else []) ++ normal_of j (workorders_container s)) →
     Q tt (with_container c s)) →
  wp (for_each (λ w, container_updates (addNormalWorkOrder w i)) ws) Q s.
Proof.
  revert s. induction ws as [|w ws IH]; intros s Hwf Hi Hws HQ.
  { replace s with (with_container (workorders_container s) s) in Hwf |- *
      by (by destruct s).
    apply HQ; [done..|]. intros j. by destruct (decide (j = i)). }
  cbn in Hws. apply andb_true_iff in Hws as [Hw Hws].
  destruct (add_normal_spec (workorders_container s) w i)
    as (v & p & Hadd & Hcw & Hp); [apply Hwf| | |].
  { by rewrite (wf_container_ops _ _ Hwf). }
  { by rewrite (wf_container_nodes _ _ Hwf). }
  cbn. apply wp_bind. eapply wp_updates; [by rewrite Hadd|].
  apply IH; [by destruct Hwf; split|done|done|].
  cbn. intros c Hc Hr Hn. apply (HQ c); [done|done|].
  intros j. rewrite Hn. unfold normal_of. cbn. rewrite (of_op_perm _ _ _ Hp), of_op_cons.
  destruct (decide (j = i)), (decide (i = j)); subst; try congruence; cbn; try done.
  by rewrite Permutation_middle.
Qed.

Lemma wp_add_rebuilds {A} (mk : A → W) refs i s (Q : unit → QM → Prop) :
  Wf g0 s → i < length g0 → (∀ r, numa_ok m (mk r) = true) →
  (∀ c, Wf g0 (with_container c s) →
     normal_workorders c = normal_workorders (workorders_container s) →
     (∀ j, length (rebuild_of j c) =
       (if decide (j = i) then length refs else 0) +
       length (rebuild_of j (workorders_container s))) →
     Q tt (with_container c s)) →
  wp (for_each (λ r, container_updates (addRebuildWorkOrder (mk r) i)) refs) Q s.
Proof.
  intros Hwf Hi Hmk. revert s Hwf. induction refs as [|r refs IH]; intros s Hwf HQ.
  { replace s with (with_container (workorders_container s) s) in Hwf |- *
      by (by destruct s).
    apply HQ; [done..|]. intros j. by destruct (decide (j = i)). }
  destruct (add_rebuild_spec (workorders_container s) (mk r) i)
    as (v & p & Hadd & Hcw & Hp); [apply Hwf| | |].
  { by rewrite (wf_container_ops _ _ Hwf). }
  { by rewrite (wf_container_nodes _ _ Hwf). }
  cbn. apply wp_bind. eapply wp_updates; [by rewrite Hadd|].
  apply IH; [by destruct Hwf; split|].
  cbn. intros c Hc Hn Hr. apply (HQ c); [done|done|].
  intros j. rewrite Hr. unfold rebuild_of. cbn.
  rewrite (Permutation_length (of_op_perm j _ _ Hp)), of_op_cons.
  destruct (decide (j = i)), (decide (i = j)); subst; try congruence; cbn; lia.
Qed.

(** ** [fetchNormalWorkOrders] *)

Record fetch_effect (i : nat) (b d : bool) (s s' : QM) : Prop := {
  fe_wf : Wf g0 s';
  fe_finished : v_finished s' = v_finished s;
  fe_count : num_operators_finished (query_exec_state s') =
    num_operators_finished (query_exec_state s);
  fe_list : execution_finished (query_exec_state s') =
    execution_finished (query_exec_state s);
  fe_queued : v_queued s' = v_queued s;
  fe_status : v_status s' = v_status s;
  fe_rebuild : v_rebuild s' = v_rebuild s;
  fe_blocking : v_blocking s' = v_blocking s;
  fe_non_blocking : v_non_blocking s' = v_non_blocking s;
  fe_await j : v_await s' j = v_await s j;
  fe_done j : v_done s' j = v_done s j || (bool_decide (j = i) && d);
  fe_normal j : j ≠ i → v_normal s' j ≡ₚ v_normal s j;
  fe_grows : v_normal s i ≠ [] → v_normal s' i ≠ [];
  fe_result : if b then v_normal s' i ≠ [] else v_normal s' i ≡ₚ v_normal s i;
  fe_complete : d = true → v_await s i = ∅;
}.

(** An operator whose inputs are complete generates all its work orders at
    once. *)
Definition prompt : Prop := ∀ op e ws d op' e', op_ok op →
  getAllWorkOrders op e = Ok (ws, d, op', e') → awaiting op = ∅ → d = true.

Lemma fetch_spec s i (Q : bool → QM → Prop) :
  Wf g0 s → i < length g0 →
  (∀ b d s', fetch_effect i b d s s' → (prompt → v_await s i = ∅ → d = true) →
     Q b s') →
  wp (fetchNormalWorkOrders i) Q s.
Proof.
  intros Hwf Hi HQ. destruct (container_queries s i Hwf Hi) as (_ & _ & Hnum).
  apply wp_bind. eapply wp_reads; [exact Hnum|]. apply wp_bind, wp_bind.
  destruct (wf_node s i Hwf Hi) as (dd & Hd & Ho & Hde & Hpay & Haw & Hok).
  eapply wp_reads; [exact Hpay|]. apply wp_bind, wp_gets.
  destruct (generate_contract (payload dd) (query_context s) Hok)
    as (ws & d & op' & e' & Hg & Hop & Hdone & Hids & Hws).
  apply wp_bind. eapply wp_reads; [exact Hg|]. apply wp_bind. eapply wp_op_updates; [exact Hd|done|].
  apply wp_bind, wp_modify, wp_bind.
  set (s1 := with_context e' _).
  assert (Wf g0 s1) as Hwf1.
  { destruct Hwf; split; try done. by apply same_plan_set. }
  apply wp_add_normals; [exact Hwf1|done|done|]. intros c Hwfc Hr Hn.
  apply wp_ret, wp_bind.
  set (s2 := with_container c s1) in *.
  set (s3 := if d then with_exec (with_done_gen
       (<[i := true]> (done_gen (query_exec_state s2))) (query_exec_state s2)) s2 else s2).
  assert (∀ R : unit → QM → Prop, R tt s3 →
    wp (if d then exec_updates (setDoneGenerationWorkOrders i) else mret tt) R s2) as Hs3.
  { intros R HR. unfold s3 in HR. destruct d; [|done]. eapply wp_updates; [|exact HR].
    unfold setDoneGenerationWorkOrders. rewrite vec_set_lt; [done|].
    rewrite (wf_done _ _ Hwfc). done. }
  apply Hs3.
  assert (Wf g0 s3) as Hwf3.
  { unfold s3. destruct d; [|done]. destruct Hwfc; split; try done.
    cbn. by rewrite length_insert. }
  apply wp_bind. eapply wp_reads; [by apply (container_queries s3 i Hwf3 Hi)|].
  assert (∀ j, v_normal s3 j ≡ₚ (if decide (j = i) then ws else []) ++ v_normal s j)
    as Hn3 by (intros j; unfold s3; destruct d; apply Hn).
  pose proof (Hn3 i) as Hni. rewrite decide_True in Hni by done.
  apply wp_ret, (HQ _ d).
  - split; try (unfold s3; destruct d; done).
    + unfold v_rebuild, rebuild_of. unfold s3. destruct d; cbn; by rewrite Hr.
    + intros j. transitivity (v_await s1 j); [unfold s3; by destruct d|].
      unfold v_await, s1. cbn. destruct (decide (j = i)) as [->|].
      * rewrite list_lookup_insert_eq by (by eapply lookup_lt_Some).
        by rewrite Hd.
      * by rewrite list_lookup_insert_ne.
    + intros j. unfold s3. destruct d; cbn; [|by rewrite andb_false_r, orb_false_r].
      unfold v_done. cbn. rewrite default_lookup_insert
        by (by rewrite (wf_done _ _ Hwf)).
      rewrite andb_true_r. case_decide; case_bool_decide; try done;
        by rewrite ?orb_true_r, ?orb_false_r.
    + intros j Hj. rewrite Hn3. by rewrite decide_False.
    + intros Hne He. rewrite He in Hni.
      by apply Permutation_nil, app_eq_nil in Hni as [_ ?].
    + rewrite (Permutation_length Hni), length_app.
      destruct (Nat.ltb_spec (length (v_normal s i))
        (length ws + length (v_normal s i))) as [Hl|Hl].
      * intros He. rewrite He in Hni. apply Permutation_nil, app_eq_nil in Hni.
        destruct Hni as [-> _]. cbn in Hl. lia.
      * destruct ws; [done|cbn in Hl; lia].
    + rewrite Haw. exact Hdone.
  - intros Hpr He. rewrite Haw in He. by eapply Hpr.
Qed.

(** ** [initiateRebuild] *)

Record rebuild_effect (i k : nat) (s s' : QM) : Prop := {
  re_wf : Wf g0 s';
  re_finished : v_finished s' = v_finished s;
  re_count : num_operators_finished (query_exec_state s') =
    num_operators_finished (query_exec_state s);
  re_list : execution_finished (query_exec_state s') =
    execution_finished (query_exec_state s);
  re_queued : v_queued s' = v_queued s;
  re_done : v_done s' = v_done s;
  re_normal : v_normal s' = v_normal s;
  re_blocking : v_blocking s' = v_blocking s;
  re_non_blocking : v_non_blocking s' = v_non_blocking s;
  re_await : v_await s' = v_await s;
  re_status j : v_status s' j =
    if decide (j = i) then Some (MkStatus true (N.of_nat k)) else v_status s j;
  re_rebuild j : length (v_rebuild s' j) =
    (if decide (j = i) then k else 0) + length (v_rebuild s j);
  re_bound : (N.of_nat k < 2 ^ 64)%N;
}.

Lemma rebuild_spec s i (Q : bool → QM → Prop) :
  Wf g0 s → i < length g0 → needs_rebuild g0 i = true →
  (∀ k s', rebuild_effect i k s s' → Q (k =? 0) s') →
  wp (initiateRebuild i) Q s.
Proof.
  intros Hwf Hi Hneed HQ.
  destruct (wf_node s i Hwf Hi) as (dd & Hd & Ho & Hde & Hpay & Haw & Hok).
  apply wp_bind, wp_bind. eapply wp_reads; [exact Hpay|]. apply wp_bind, wp_gets.
  pose proof (blocks_contract (getInsertDestinationID (payload dd)) (query_context s)).
  destruct (getPartiallyFilledBlocks _ _) as [refs e'].
  apply wp_bind, wp_modify, wp_bind.
  apply (wp_add_rebuilds (λ ref : B * nat, newRebuildWorkOrder ref.1 i
    (getOutputRelationID (payload dd)) ref.2)).
  { by destruct Hwf; split. }
  { done. }
  { intros r. apply rebuild_contract. }
  intros c Hwfc Hn Hr. apply wp_ret, wp_bind.
  destruct (proj2 (wf_status _ _ Hwf i) (conj Hi Hneed)) as [st Hst].
  eapply wp_updates.
  { unfold setRebuildStatus. cbn. unfold v_status in Hst. by rewrite Hst. }
  apply wp_ret, HQ. cbn in Hr, Hn. split; try done.
  - destruct Hwfc; split; try done. intros j. cbn.
    rewrite <- wf_status0. unfold v_status. cbn.
    destruct (decide (j = i)) as [->|Hj].
    + rewrite lookup_insert_eq. split; intros _; [by exists st|done].
    + by rewrite lookup_insert_ne.
  - unfold v_normal, normal_of. cbn. by rewrite Hn.
  - intros j. unfold v_status. cbn. case_decide as Hj.
    + subst. by rewrite lookup_insert_eq.
    + by rewrite lookup_insert_ne.
Qed.

(** ** Telling an operator that a relation is complete, or giving it a block *)

Record op_effect (i : nat) (aw : gset Z) (s s' : QM) : Prop := {
  oe_wf : Wf g0 s';
  oe_exec : query_exec_state s' = query_exec_state s;
  oe_container : workorders_container s' = workorders_container s;
  oe_blocking : blocking_dependencies s' = blocking_dependencies s;
  oe_non_blocking : non_blocking_dependencies s' = non_blocking_dependencies s;
  oe_await j : v_await s' j = if decide (j = i) then aw else v_await s j;
}.

Lemma wp_op_effect s i f (Q : unit → QM → Prop) aw :
  Wf g0 s → i < length g0 →
  (∀ d, query_dag s !! i = Some d → op_ok (payload d) → ∃ op', f (payload d) = Ok op' ∧
     awaiting op' = aw ∧ evolves (payload d) op') →
  (∀ s', op_effect i aw s s' → Q tt s') →
  wp (op_updates i f) Q s.
Proof.
  intros Hwf Hi Hf HQ.
  destruct (wf_node s i Hwf Hi) as (dd & Hd & _ & _ & _ & _ & Hok).
  destruct (Hf dd Hd Hok) as (op' & Hop & Haw & Hids).
  eapply wp_op_updates; [exact Hd|exact Hop|]. apply HQ. split; try done.
  - destruct Hwf; split; try done. by apply same_plan_set.
  - intros j. unfold v_await. cbn. case_decide as Hj.
    + subst. rewrite list_lookup_insert_eq by (by eapply lookup_lt_Some). done.
    + by rewrite list_lookup_insert_ne.
Qed.

(** ** The first part of [markOperatorFinished] *)

Lemma wp_erase_blocking l i s (Q : unit → QM → Prop) :
  Wf g0 s → Forall (λ j, j < length g0) l →
  (∀ s', Wf g0 s' → query_exec_state s' = query_exec_state s →
     query_dag s' = query_dag s → workorders_container s' = workorders_container s →
     v_non_blocking s' = v_non_blocking s →
     (∀ j, v_blocking s' j =
       if decide (j ∈ l) then v_blocking s j ∖ {[i]} else v_blocking s j) →
     Q tt s') →
  wp (for_each (erase_blocking i) l) Q s.
Proof.
  revert s. induction l as [|j l IH]; intros s Hwf Hl HQ.
  { apply HQ; try done. }
  apply Forall_cons in Hl as [Hj Hl]. cbn. apply wp_bind. eapply wp_updates.
  { unfold erase_at. rewrite (vec_at_default ∅) by (by rewrite (wf_blocking _ _ Hwf)).
    cbn. by rewrite vec_set_lt by (by rewrite (wf_blocking _ _ Hwf)). }
  apply IH; [|done|].
  { destruct Hwf; split; try done. cbn. by rewrite length_insert. }
  intros s' Hwf' Hx Hd Hc Hnb Hb. apply HQ; try done. intros k. rewrite Hb.
  unfold v_blocking. cbn.
  rewrite default_lookup_insert by (by rewrite (wf_blocking _ _ Hwf)).
  destruct (decide (k = j)) as [->|Hkj].
  - rewrite (decide_True _ _ (list_elem_of_here j l)).
    case_decide; [set_solver|done].
  - destruct (decide (k ∈ l)) as [Hk|Hk].
    + by rewrite decide_True by (by right).
    + rewrite decide_False; [done|]. by intros [|]%elem_of_cons.
Qed.

Lemma wp_erase_non_blocking l i s (Q : unit → QM → Prop) :
  Wf g0 s → Forall (λ j, j < length g0) l →
  (∀ s', Wf g0 s' → query_exec_state s' = query_exec_state s →
     query_dag s' = query_dag s → workorders_container s' = workorders_container s →
     v_blocking s' = v_blocking s →
     (∀ j, v_non_blocking s' j =
       if decide (j ∈ l) then v_non_blocking s j ∖ {[i]} else v_non_blocking s j) →
     Q tt s') →
  wp (for_each (erase_non_blocking i) l) Q s.
Proof.
  revert s. induction l as [|j l IH]; intros s Hwf Hl HQ.
  { apply HQ; try done. }
  apply Forall_cons in Hl as [Hj Hl]. cbn. apply wp_bind. eapply wp_updates.
  { unfold erase_at.
    rewrite (vec_at_default ∅) by (by rewrite (wf_non_blocking _ _ Hwf)).
    cbn. by rewrite vec_set_lt by (by rewrite (wf_non_blocking _ _ Hwf)). }
  apply IH; [|done|].
  { destruct Hwf; split; try done. cbn. by rewrite length_insert. }
  intros s' Hwf' Hx Hd Hc Hnb Hb. apply HQ; try done. intros k. rewrite Hb.
  unfold v_non_blocking. cbn.
  rewrite default_lookup_insert by (by rewrite (wf_non_blocking _ _ Hwf)).
  destruct (decide (k = j)) as [->|Hkj].
  - rewrite (decide_True _ _ (list_elem_of_here j l)).
    case_decide; [set_solver|done].
  - destruct (decide (k ∈ l)) as [Hk|Hk].
    + by rewrite decide_True by (by right).
    + rewrite decide_False; [done|]. by intros [|]%elem_of_cons.
Qed.
End plan.
End views.
Arguments Wf {_ _ _ _ _ _ _} m {_} g0 s.
