(* ===== verification/QueryManagerInv.v ===== *)
(** * The invariant of a query manager

    What is expected of a plan ([plan_ok]), the invariant [Inv] of the manager
    between two messages, and that every step of [markOperatorFinished] keeps
    it.  While the function runs, some links lead from an operator that has
    finished to a dependent that has not been told yet: the parameter [P] of
    the invariant.  [X] holds the operator being processed, [U] the operators
    without dependencies the constructor has not reached, [ro] counts the
    rebuild work orders in execution, and [t] bounds the normal ones. *)

From S2P Require Import Prelude StateMonad WorkOrdersContainer.
From S2P Require Import WorkOrdersScheduling DAG QueryExecutionState QueryManager.
From S2P Require Import QueryManagerViews.
From stdpp Require Import options.

Section inv.
Context {Op W E F B : Type} `{!WorkOrder W} `{!RelationalOperator Op W E F B}.
Context `{!HashOrder (nat * bool)} {m : nat} `{!OperatorContract Op W E F B m}.
Abbreviation QM := (QueryManager Op W E).

(** ** Plans *)

(** The relations operator [j] waits for when the query starts. *)
Definition awaits (g : DAG Op bool) (j : nat) : gset Z :=
  from_option (λ d, awaiting (payload d)) ∅ (g !! j).

(** [j] waits for the output of its dependency [i], which no other dependency
    of [j] writes. *)
Definition awaited (g : DAG Op bool) (i j : nat) : Prop :=
  (0 ≤ out_of g i)%Z ∧ out_of g i ∈ awaits g j ∧
  ∀ k, edge g k j → out_of g k = out_of g i → k = i.

Record plan_ok (g : DAG Op bool) : Prop := {
  plan_wf : dag_wf g;
  (** The graph is acyclic: some order of the nodes agrees with the links. *)
  plan_rank : ∃ rank : nat → nat,
    ∀ i j, edge g i j → rank i < rank j ∧ rank j < length g;
  plan_small : (N.of_nat (length g) < 2 ^ 64)%N;
  plan_operators i d : g !! i = Some d → op_ok (payload d);
  (** An operator can be told that a dependency has written its output. *)
  plan_ends i j d : edge g i j → g !! j = Some d → (0 ≤ out_of g i)%Z →
    ends (payload d) (out_of g i);
  (** A consumer of streamed blocks waits for the end of the stream. *)
  plan_streams i j : link g i j false → awaited g i j;
  (** A pipeline breaker is waited for too, or it is the only way from [i] to
      [j]. *)
  plan_breakers i j : link g i j true → awaited g i j ∨
    ∀ k, edge g k j → k ≠ i → ¬ tc (edge g) i k;
}.

Lemma plan_closed (g : DAG Op bool) i j : plan_ok g → edge g i j → j < length g.
Proof.
  intros Hg He. apply (plan_wf _ Hg) in He as (e & He & _).
  by eapply lookup_lt_Some.
Qed.

Lemma edge_lt (g : DAG Op bool) i j : edge g i j → i < length g.
Proof. intros (b & d & Hd & _). by eapply lookup_lt_Some. Qed.

Lemma plan_acyclic (g : DAG Op bool) i : plan_ok g → ¬ tc (edge g) i i.
Proof.
  intros Hg. destruct (plan_rank _ Hg) as [rank Hr].
  assert (∀ a b, tc (edge g) a b → rank a < rank b) as H.
  { induction 1 as [a b Hab|a b c Hab _ IH]; [by apply Hr|].
    apply Hr in Hab. lia. }
  intros Hi%H. lia.
Qed.

Section fixed.
Context (g0 : DAG Op bool).
Abbreviation n := (length g0).
Abbreviation out := (out_of g0).

(** Operators that generate their work orders as soon as their inputs are
    complete, in a plan where they wait only for their dependencies. *)
Definition live : Prop :=
  prompt ∧ ∀ j r, r ∈ awaits g0 j → (0 ≤ r)%Z ∧ ∃ i, edge g0 i j ∧ out i = r.

(** Nothing of operator [i] is pending or in execution. *)
Definition idle (ro : nat → nat) (s : QM) (i : nat) : Prop :=
  v_normal s i = [] ∧ v_queued s i = 0%N ∧ v_rebuild s i = [] ∧ ro i = 0.

(** Something of operator [i] is pending or in execution. *)
Definition busy (s : QM) (i : nat) : Prop :=
  v_normal s i ≠ [] ∨ v_queued s i ≠ 0%N ∨ v_rebuilds s i ≠ 0%N.

(** All dependencies of [i] have finished and told it. *)
Definition ready (P : nat → nat → Prop) (s : QM) (i : nat) : Prop :=
  ∀ k, edge g0 k i → v_finished s k = true ∧ ¬ P k i.

Record Inv (P : nat → nat → Prop) (X U : nat → Prop) (ro : nat → nat) (t : N)
    (s : QM) : Prop := {
  inv_wf : Wf m g0 s;
  inv_blocking j k :
    k ∈ v_blocking s j ↔ link g0 k j true ∧ v_finished s k = false;
  inv_non_blocking j k :
    k ∈ v_non_blocking s j ↔ link g0 k j false ∧ v_finished s k = false;
  inv_count : num_operators_finished (query_exec_state s) =
    N.of_nat (length (filter (eq true) (execution_finished (query_exec_state s))));
  inv_queued i : (v_queued s i ≤ t)%N;
  inv_bound : (t < 2 ^ 64)%N;
  inv_done i : v_done s i = true → ready P s i;
  inv_await j r : r ∈ v_await s j ↔ r ∈ awaits g0 j ∧
    ¬ ∃ k, edge g0 k j ∧ out k = r ∧ (0 ≤ r)%Z ∧ v_finished s k = true ∧ ¬ P k j;
  inv_work i k : v_normal s i ≠ [] ∨ v_queued s i ≠ 0%N →
    link g0 k i true → v_finished s k = true;
  inv_finished i : v_finished s i = true → idle ro s i ∧ ready P s i;
  inv_rebuild i :
    if v_initiated s i
    then v_done s i = true ∧ v_normal s i = [] ∧ v_queued s i = 0%N ∧
      v_rebuilds s i = N.of_nat (length (v_rebuild s i) + ro i) ∧
      (v_rebuilds s i < 2 ^ 64)%N
    else v_rebuild s i = [] ∧ ro i = 0 ∧ v_rebuilds s i = 0%N;
  inv_live : live → ∀ i, i < n → ¬ X i → ¬ U i → v_finished s i = false →
    ready P s i → v_done s i = true ∧ busy s i;
  inv_fresh i : U i → i < n ∧ (∀ k, ¬ edge g0 k i) ∧ v_finished s i = false ∧
    v_done s i = false ∧ v_initiated s i = false ∧ idle ro s i;
}.

(** An operator comes from the one in the plan. *)
Lemma original_operator P X U ro t s i d :
  Inv P X U ro t s → query_dag s !! i = Some d →
  ∃ d0, g0 !! i = Some d0 ∧
    moves_on op_ok accepts ends hears (payload d0) (payload d).
Proof.
  intros HI Hd. pose proof (wf_plan _ _ (inv_wf _ _ _ _ _ _ HI)) as Hp.
  destruct (same_plan_lookup _ _ _ _ Hp Hd) as [d0 H0]. exists d0. split; [done|].
  by apply (plan_node _ _ Hp i d d0 Hd H0).
Qed.

Abbreviation nobody := (λ _ : nat, False).
Abbreviation only i := (λ j : nat, j = i).

(** ** Operators that have finished *)

Lemma filter_insert_true (l : list bool) i :
  l !! i = Some false →
  length (filter (eq true) (<[i := true]> l)) = S (length (filter (eq true) l)).
Proof.
  intros (l1 & l2 & -> & _ & Hins)%lookup_insert_split. rewrite Hins.
  rewrite !filter_app, !length_app.
  rewrite (filter_cons_True _ true), (filter_cons_False _ false) by done. cbn. lia.
Qed.

Lemma count_le (l : list bool) : length (filter (eq true) l) ≤ length l.
Proof. apply length_filter. Qed.

Record mark_effect (i : nat) (s s' : QM) : Prop := {
  me_wf : Wf m g0 s';
  me_finished j : v_finished s' j = if decide (j = i) then true else v_finished s j;
  me_count : num_operators_finished (query_exec_state s') =
    size_inc (num_operators_finished (query_exec_state s));
  me_list : execution_finished (query_exec_state s') =
    <[i := true]> (execution_finished (query_exec_state s));
  me_queued : v_queued s' = v_queued s;
  me_done : v_done s' = v_done s;
  me_status : v_status s' = v_status s;
  me_normal : v_normal s' = v_normal s;
  me_rebuild : v_rebuild s' = v_rebuild s;
  me_await : v_await s' = v_await s;
  me_blocking j k : k ∈ v_blocking s' j ↔
    k ∈ v_blocking s j ∧ ¬ (k = i ∧ link g0 i j true);
  me_non_blocking j k : k ∈ v_non_blocking s' j ↔
    k ∈ v_non_blocking s j ∧ ¬ (k = i ∧ link g0 i j false);
}.

Lemma mark_unfold fuel i s (Q : unit → QM → Prop) :
  plan_ok g0 → Wf m g0 s → i < n →
  (∀ s' (l : list (nat * bool)), mark_effect i s s' → NoDup (l.*1) →
     (∀ j, j ∈ l.*1 ↔ edge g0 i j) →
     wp (for_each (λ x, visit_dependent (markOperatorFinished fuel) (out i) x.1) l)
       Q s') →
  wp (markOperatorFinished (S fuel) i) Q s.
Proof.
  intros Hg Hwf Hi HQ. cbn [markOperatorFinished]. apply wp_bind.
  eapply wp_updates.
  { unfold setExecutionFinished. rewrite vec_set_lt; [done|].
    by rewrite (wf_finished _ _ Hwf). }
  set (s1 := with_exec _ s).
  assert (Wf m g0 s1) as Hwf1.
  { destruct Hwf; split; try done. cbn. by rewrite length_insert. }
  destruct (wf_dependents _ _ Hwf1 i Hi) as (bl & Hbl & Hbl').
  destruct (wf_consumers _ _ Hwf1 i Hi) as (ol & Hol & Hol').
  apply wp_bind. eapply wp_reads; [by apply vec_at_Some|]. apply wp_bind.
  eapply (wp_erase_blocking g0); [exact Hwf1| |].
  { apply Forall_forall. intros j Hj%Hbl'. by eapply plan_closed; [|eexists]. }
  intros s2 Hwf2 Hx2 Hd2 Hc2 Hnb2 Hb2. apply wp_bind.
  destruct (wf_consumers _ _ Hwf2 i Hi) as (ol2 & Hol2 & Hol2').
  eapply wp_reads; [by apply vec_at_Some|]. apply wp_bind.
  eapply (wp_erase_non_blocking g0); [exact Hwf2| |].
  { apply Forall_forall. intros j Hj%Hol2'. by eapply plan_closed; [|eexists]. }
  intros s3 Hwf3 Hx3 Hd3 Hc3 Hb3 Hnb3. apply wp_bind.
  destruct (wf_node g0 s3 i Hwf3 Hi) as (d & Hd & Ho & _ & Hpay & _).
  eapply wp_reads; [exact Hpay|]. rewrite Ho. apply wp_bind, wp_modify.
  set (s4 := with_context _ s3).
  destruct (same_plan_node _ _ i (wf_plan _ _ Hwf3) Hi)
    as (d' & d0 & Hd' & Hd0 & _ & Hdep & _).
  apply wp_bind. eapply wp_reads.
  { unfold getDependents. cbn. rewrite (vec_at_Some _ _ _ Hd'). done. }
  apply HQ.
  - assert (query_exec_state s4 = query_exec_state s1) as Hx
      by (change (query_exec_state s3 = query_exec_state s1); congruence).
    assert (workorders_container s4 = workorders_container s) as Hc
      by (change (workorders_container s3 = workorders_container s1); congruence).
    assert (query_dag s4 = query_dag s) as Hg4
      by (change (query_dag s3 = query_dag s1); congruence).
    split; try (unfold v_queued, v_done, v_status, v_normal, v_rebuild, v_await;
      rewrite ?Hx, ?Hc, ?Hg4; done).
    + by destruct Hwf3; split.
    + intros j. unfold v_finished. rewrite Hx. cbn. apply default_lookup_insert.
      by rewrite (wf_finished _ _ Hwf).
    + intros j k. transitivity (k ∈ v_blocking s3 j); [done|]. rewrite Hb3, Hb2.
      specialize (Hbl' j). case_decide; set_solver.
    + intros j k. transitivity (k ∈ v_non_blocking s3 j); [done|].
      rewrite Hnb3, Hnb2. specialize (Hol2' j). case_decide; set_solver.
  - unfold map_iter. rewrite hash_order_perm. apply NoDup_fst_map_to_list.
  - intros j. rewrite Hdep. unfold map_iter. rewrite list_elem_of_fmap. split.
    + intros ([j' b] & -> & Hj). rewrite hash_order_perm in Hj.
      apply elem_of_map_to_list in Hj. by exists b, d0.
    + intros (b & d1 & Hd1 & Hj). simplify_eq. exists (j, b). split; [done|].
      rewrite hash_order_perm. by apply elem_of_map_to_list.
Qed.

(** ** Changes that keep the invariant *)

Lemma perm_nil {A} (l k : list A) : l ≡ₚ k → l = [] ↔ k = [].
Proof. intros H. split; intros ->; by apply Permutation_nil. Qed.

Lemma initiated_status (s s' : QM) i :
  v_status s' i = v_status s i → v_initiated s' i = v_initiated s i.
Proof. unfold v_status, v_initiated, hasRebuildInitiated. by intros ->. Qed.
Lemma rebuilds_status (s s' : QM) i :
  v_status s' i = v_status s i → v_rebuilds s' i = v_rebuilds s i.
Proof. unfold v_status, v_rebuilds, getNumRebuildWorkOrders_es. by intros ->. Qed.

Lemma Inv_weaken P P' X X' U ro t s :
  (∀ k j, P k j ↔ P' k j) → (∀ i, X i → X' i) →
  Inv P X U ro t s → Inv P' X' U ro t s.
Proof.
  intros HP HX HI.
  assert (∀ i, ready P s i ↔ ready P' s i) as Hr.
  { intros i. unfold ready. by setoid_rewrite HP. }
  destruct HI; split; try done.
  - intros i. rewrite <- Hr. auto.
  - intros j r. setoid_rewrite <- HP. auto.
  - intros i. rewrite <- Hr. auto.
  - intros Hl i. rewrite <- Hr. intros; eapply inv_live0; auto.
Qed.

(** An operator that has all its inputs is ready. *)
Lemma complete_ready P X U ro t s i :
  plan_ok g0 → Inv P X U ro t s → v_blocking s i = ∅ → v_await s i = ∅ →
  (∀ k, link g0 k i true → ¬ awaited g0 k i → ¬ P k i) → ready P s i.
Proof.
  intros Hg HI Hb Ha Hun k [b Hk].
  assert (awaited g0 k i → v_finished s k = true ∧ ¬ P k i) as Haw.
  { intros (H0 & Hin & Huniq).
    assert (¬ ¬ (v_finished s k = true ∧ ¬ P k i)) as Hnn.
    { intros Hno. apply (not_elem_of_empty (C:=gset Z) (out k)). rewrite <- Ha.
      apply (inv_await _ _ _ _ _ _ HI). split; [done|].
      intros (k' & He & Ho & _ & Hf & HP). apply Huniq in Ho; [|done]. subst. auto. }
    split; [|tauto]. destruct (v_finished s k); [done|]. naive_solver. }
  destruct b; [|apply Haw; by apply plan_streams].
  assert (v_finished s k = true) as Hf.
  { destruct (v_finished s k) eqn:Hf; [done|].
    assert (k ∈ v_blocking s i) as Hin by (by apply (inv_blocking _ _ _ _ _ _ HI)).
    rewrite Hb in Hin. set_solver. }
  split; [done|]. intros HP. apply (Hun k Hk); [|done]. intros Haw'.
  by destruct (Haw Haw').
Qed.

Lemma fetch_keeps P X U ro t s s' i b d :
  plan_ok g0 → Inv P X U ro t s → fetch_effect g0 i b d s s' →
  X i → ¬ U i → v_blocking s i = ∅ → v_done s i = false → v_finished s i = false →
  (∀ k, link g0 k i true → ¬ awaited g0 k i → ¬ P k i) →
  Inv P X U ro t s'.
Proof.
  intros Hg HI He HX HU Hb Hd Hf Hun.
  assert (∀ j, j ≠ i → v_done s' j = v_done s j) as Hdone.
  { intros j Hj. rewrite (fe_done _ _ _ _ _ _ He), bool_decide_eq_false_2 by done.
    by rewrite orb_false_r. }
  assert (∀ j, v_initiated s' j = v_initiated s j) as Hinit
    by (intros j; apply initiated_status; by rewrite (fe_status _ _ _ _ _ _ He)).
  assert (∀ j, v_rebuilds s' j = v_rebuilds s j) as Hreb
    by (intros j; apply rebuilds_status; by rewrite (fe_status _ _ _ _ _ _ He)).
  assert (v_initiated s i = false) as Hi0.
  { pose proof (inv_rebuild _ _ _ _ _ _ HI i) as H.
    destruct (v_initiated s i); [|done]. destruct H; congruence. }
  assert (∀ j, j ≠ i → v_normal s' j = [] ↔ v_normal s j = []) as Hnorm
    by (intros j Hj; apply perm_nil, He, Hj).
  assert (∀ j, ready P s' j ↔ ready P s j) as Hready
    by (intros j; unfold ready; by rewrite (fe_finished _ _ _ _ _ _ He)).
  pose proof (fe_queued _ _ _ _ _ _ He) as Hq.
  pose proof (fe_rebuild _ _ _ _ _ _ He) as Hr.
  pose proof (fe_finished _ _ _ _ _ _ He) as Hfin.
  split.
  - apply He.
  - intros j k. rewrite (fe_blocking _ _ _ _ _ _ He), Hfin. apply HI.
  - intros j k. rewrite (fe_non_blocking _ _ _ _ _ _ He), Hfin. apply HI.
  - rewrite (fe_count _ _ _ _ _ _ He), (fe_list _ _ _ _ _ _ He). apply HI.
  - intros j. rewrite Hq. apply HI.
  - apply HI.
  - intros j Hj. rewrite Hready. destruct (decide (j = i)) as [->|Hji].
    + rewrite (fe_done _ _ _ _ _ _ He), Hd, bool_decide_eq_true_2 in Hj by done.
      eapply complete_ready; eauto. by apply He.
    + rewrite Hdone in Hj by done. by apply HI.
  - intros j r. rewrite (fe_await _ _ _ _ _ _ He), Hfin. apply HI.
  - intros j k Hw Hk. rewrite Hfin. destruct (decide (j = i)) as [->|Hji].
    + destruct (v_finished s k) eqn:Hfk; [done|].
      assert (k ∈ v_blocking s i) as Hin by (by apply HI).
      rewrite Hb in Hin. set_solver.
    + rewrite Hnorm, Hq in Hw by done. by apply (inv_work _ _ _ _ _ _ HI j).
  - intros j Hj. rewrite Hfin in Hj. assert (j ≠ i) by congruence.
    rewrite Hready. unfold idle. rewrite Hnorm, Hq, Hr by done. by apply HI.
  - intros j. pose proof (inv_rebuild _ _ _ _ _ _ HI j) as H.
    rewrite Hinit, Hreb, Hq, Hr.
    destruct (decide (j = i)) as [->|Hji]; [by rewrite Hi0 in H |- *|].
    destruct (v_initiated s j); [|done]. by rewrite Hdone, Hnorm.
  - intros Hl j Hj HXj HUj. assert (j ≠ i) by naive_solver.
    rewrite Hready, Hdone, Hfin by done. unfold busy. rewrite Hnorm, Hq, Hreb by done.
    by apply HI.
  - intros j HUj. assert (j ≠ i) by naive_solver.
    rewrite Hfin, Hdone, Hinit by done. unfold idle. rewrite Hnorm, Hq, Hr by done.
    by apply HI.
Qed.

Lemma rebuild_keeps P X U ro t s s' i k :
  Inv P X U ro t s → rebuild_effect g0 i k s s' →
  X i → ¬ U i → v_over s i = true → v_initiated s i = false → v_finished s i = false →
  Inv P X U ro t s'.
Proof.
  intros HI He HX HU Hover Hini Hfi. apply v_over_true in Hover as (Hn & Hq & Hd).
  pose proof (inv_rebuild _ _ _ _ _ _ HI i) as Hi0. rewrite Hini in Hi0.
  destruct Hi0 as (Hr0 & Hro & _).
  pose proof (re_finished _ _ _ _ _ He) as Hfin.
  pose proof (re_queued _ _ _ _ _ He) as Hqu.
  pose proof (re_normal _ _ _ _ _ He) as Hno.
  pose proof (re_done _ _ _ _ _ He) as Hdo.
  assert (∀ j, j ≠ i → v_status s' j = v_status s j) as Hst
    by (intros j Hj; by rewrite (re_status _ _ _ _ _ He), decide_False).
  assert (∀ j, j ≠ i → length (v_rebuild s' j) = length (v_rebuild s j)) as Hlen
    by (intros j Hj; by rewrite (re_rebuild _ _ _ _ _ He), decide_False).
  assert (∀ j, j ≠ i → v_rebuild s' j = [] ↔ v_rebuild s j = []) as Hreb
    by (intros j Hj; by rewrite <- !length_zero_iff_nil, Hlen).
  assert (∀ j, ready P s' j ↔ ready P s j) as Hready
    by (intros j; unfold ready; by rewrite Hfin).
  split.
  - apply He.
  - intros j l. rewrite (re_blocking _ _ _ _ _ He), Hfin. apply HI.
  - intros j l. rewrite (re_non_blocking _ _ _ _ _ He), Hfin. apply HI.
  - rewrite (re_count _ _ _ _ _ He), (re_list _ _ _ _ _ He). apply HI.
  - intros j. rewrite Hqu. apply HI.
  - apply HI.
  - intros j. rewrite Hready, Hdo. apply HI.
  - intros j r. rewrite (re_await _ _ _ _ _ He), Hfin. apply HI.
  - intros j l. rewrite Hno, Hqu, Hfin. apply HI.
  - intros j Hj. rewrite Hfin in Hj. assert (j ≠ i) by congruence.
    rewrite Hready. unfold idle. rewrite Hno, Hqu, Hreb by done. by apply HI.
  - intros j. rewrite Hdo, Hno, Hqu. destruct (decide (j = i)) as [->|Hj].
    + pose proof (re_status _ _ _ _ _ He i) as Hs. rewrite decide_True in Hs by done.
      pose proof (re_rebuild _ _ _ _ _ He i) as Hl. rewrite decide_True in Hl by done.
      unfold v_initiated, v_rebuilds, hasRebuildInitiated, getNumRebuildWorkOrders_es.
      unfold v_status in Hs. rewrite Hs. cbn.
      rewrite Hl, Hr0, Hro. cbn. rewrite !Nat.add_0_r.
      split_and!; try done. apply He.
    + pose proof (inv_rebuild _ _ _ _ _ _ HI j) as H.
      rewrite (initiated_status s s'), (rebuilds_status s s'), Hlen by auto.
      destruct (v_initiated s j); [done|]. by rewrite Hreb.
  - intros Hl j Hjn HXj HUj. assert (j ≠ i) by naive_solver.
    rewrite Hready, Hdo, Hfin. unfold busy.
    rewrite Hno, Hqu, (rebuilds_status s s') by auto. by apply HI.
  - intros j HUj. assert (j ≠ i) by naive_solver. rewrite Hdo, Hfin.
    rewrite (initiated_status s s') by auto. unfold idle.
    rewrite Hno, Hqu, Hreb by done. by apply HI.
Qed.

Lemma execution_finished_lookup s i :
  Wf m g0 s → i < n → v_finished s i = false →
  execution_finished (query_exec_state s) !! i = Some false.
Proof.
  intros Hwf Hi Hf. unfold v_finished in Hf.
  destruct (lookup_lt_is_Some_2 (execution_finished (query_exec_state s)) i)
    as [b Hb]; [by rewrite (wf_finished _ _ Hwf)|].
  rewrite Hb in *. cbn in Hf. congruence.
Qed.

(** An idle operator whose dependencies have finished can be marked. *)
Lemma mark_keeps P U ro t s s' i :
  plan_ok g0 → Inv P (only i) U ro t s → i < n → v_finished s i = false →
  idle ro s i → ready P s i → ¬ U i → mark_effect i s s' →
  Inv (λ k j, P k j ∨ (k = i ∧ edge g0 i j)) nobody U ro t s'.
Proof.
  intros Hg HI Hi Hf Hid Hre HU He. set (P' := λ k j, _).
  pose proof (me_finished _ _ _ He) as Hfin.
  assert (∀ j k, edge g0 k j →
    (v_finished s' k = true ∧ ¬ P' k j) ↔ (v_finished s k = true ∧ ¬ P k j)) as Hpair.
  { intros j k Hk. rewrite Hfin. unfold P'. case_decide as Hki; [subst|naive_solver].
    rewrite Hf. naive_solver. }
  assert (∀ j, ready P' s' j ↔ ready P s j) as Hready.
  { intros j. unfold ready. split; intros H k Hk; by apply Hpair; auto. }
  assert (∀ j, v_initiated s' j = v_initiated s j) as Hini
    by (intros j; apply initiated_status; by rewrite (me_status _ _ _ He)).
  assert (∀ j, v_rebuilds s' j = v_rebuilds s j) as Hreb
    by (intros j; apply rebuilds_status; by rewrite (me_status _ _ _ He)).
  split.
  - apply He.
  - intros j k. rewrite (me_blocking _ _ _ He), (inv_blocking _ _ _ _ _ _ HI), Hfin.
    case_decide; naive_solver.
  - intros j k. rewrite (me_non_blocking _ _ _ He), (inv_non_blocking _ _ _ _ _ _ HI), Hfin.
    case_decide; naive_solver.
  - rewrite (me_count _ _ _ He), (me_list _ _ _ He), (inv_count _ _ _ _ _ _ HI).
    pose proof (count_le (<[i := true]> (execution_finished (query_exec_state s)))) as Hle.
    pose proof (execution_finished_lookup s i (inv_wf _ _ _ _ _ _ HI) Hi Hf) as Hl.
    rewrite length_insert, (wf_finished _ _ (inv_wf _ _ _ _ _ _ HI)) in Hle.
    rewrite filter_insert_true in Hle |- * by done.
    pose proof (plan_small _ Hg). rewrite size_inc_small; lia.
  - rewrite (me_queued _ _ _ He). apply HI.
  - apply HI.
  - intros j. rewrite Hready, (me_done _ _ _ He). apply HI.
  - intros j r. rewrite (me_await _ _ _ He), (inv_await _ _ _ _ _ _ HI).
    do 2 f_equiv. apply exist_proper. intros k. specialize (Hpair j k). naive_solver.
  - intros j k Hw Hk. rewrite Hfin. case_decide; [done|].
    rewrite (me_normal _ _ _ He), (me_queued _ _ _ He) in Hw.
    by apply (inv_work _ _ _ _ _ _ HI j).
  - intros j Hj. rewrite Hready. unfold idle.
    rewrite (me_normal _ _ _ He), (me_queued _ _ _ He), (me_rebuild _ _ _ He).
    rewrite Hfin in Hj. case_decide; [subst|]; [done|by apply HI].
  - intros j. rewrite Hini, Hreb, (me_done _ _ _ He), (me_normal _ _ _ He),
      (me_queued _ _ _ He), (me_rebuild _ _ _ He). apply HI.
  - intros Hl j Hj _ HUj. rewrite Hready, Hfin, (me_done _ _ _ He). unfold busy.
    rewrite Hreb, (me_normal _ _ _ He), (me_queued _ _ _ He).
    case_decide; [done|]. by apply HI.
  - intros j HUj. rewrite (me_done _ _ _ He), Hini, Hfin. unfold idle.
    rewrite (me_normal _ _ _ He), (me_queued _ _ _ He), (me_rebuild _ _ _ He).
    rewrite decide_False by (by intros ->). by apply HI.
Qed.

(** A dependent is told that its dependency [i] has finished. *)
Lemma tell_keeps P U ro t s s' i j :
  Inv (λ k l, P k l ∨ (k = i ∧ l = j)) nobody U ro t s →
  edge g0 i j → v_finished s i = true → ¬ P i j →
  op_effect g0 j (if decide (out i >= 0)%Z then v_await s j ∖ {[out i]}
                  else v_await s j) s s' →
  Inv P (only j) U ro t s' ∧ v_done s j = false ∧ v_finished s j = false.
Proof.
  intros HI Hij Hfi HPij [Hwf Hx Hc Hb Hnb Haw]. set (P1 := λ k l, _) in HI.
  assert (v_done s j = false) as Hd.
  { destruct (v_done s j) eqn:H; [|done]. apply (inv_done _ _ _ _ _ _ HI) in H.
    destruct (H i Hij) as [_ H']. exfalso. apply H'. by right. }
  assert (v_finished s j = false) as Hfj.
  { destruct (v_finished s j) eqn:H; [|done].
    apply (inv_finished _ _ _ _ _ _ HI) in H as [_ H].
    destruct (H i Hij) as [_ H']. exfalso. apply H'. by right. }
  split; [|done].
  assert (v_finished s' = v_finished s) as Hfin by (unfold v_finished; by rewrite Hx).
  assert (v_done s' = v_done s) as Hdo by (unfold v_done; by rewrite Hx).
  assert (v_queued s' = v_queued s) as Hqu by (unfold v_queued; by rewrite Hx).
  assert (v_normal s' = v_normal s) as Hno by (unfold v_normal; by rewrite Hc).
  assert (v_rebuild s' = v_rebuild s) as Hre by (unfold v_rebuild; by rewrite Hc).
  assert (v_initiated s' = v_initiated s) as Hin by (unfold v_initiated; by rewrite Hx).
  assert (v_rebuilds s' = v_rebuilds s) as Hrs by (unfold v_rebuilds; by rewrite Hx).
  assert (∀ l, l ≠ j → ready P s' l → ready P1 s l) as Hr1.
  { intros l Hl H k Hk. destruct (H k Hk) as [? ?]. rewrite Hfin in *.
    split; [done|]. unfold P1. naive_solver. }
  assert (∀ l, ready P1 s l → ready P s' l) as Hr2.
  { intros l H k Hk. rewrite Hfin. destruct (H k Hk) as [? HP].
    split; [done|]. contradict HP. by left. }
  split.
  - done.
  - intros l k. unfold v_blocking. rewrite Hb, Hfin. apply HI.
  - intros l k. unfold v_non_blocking. rewrite Hnb, Hfin. apply HI.
  - rewrite Hx. apply HI.
  - rewrite Hqu. apply HI.
  - apply HI.
  - intros l. rewrite Hdo. intros H%(inv_done _ _ _ _ _ _ HI). auto.
  - intros l r. rewrite Haw, Hfin. destruct (decide (l = j)) as [->|Hl].
    + case_decide as Ho;
        [rewrite elem_of_difference, elem_of_singleton|];
        rewrite (inv_await _ _ _ _ _ _ HI); unfold P1.
      * split.
        -- intros [[H1 H2] H3]. split; [done|]. intros (k & ? & ? & ? & ? & ?).
           apply H2. exists k. naive_solver.
        -- intros [H1 H2]. split; [split; [done|]|].
           ++ intros (k & ? & ? & ? & ? & ?). apply H2. exists k. naive_solver.
           ++ intros ->. apply H2. exists i. split_and!; done || lia.
      * split.
        -- intros [H1 H2]. split; [done|]. intros (k & ? & ? & ? & ? & ?).
           apply H2. exists k. split_and!; try done.
           intros [?|[-> _]]; [done|]. lia.
        -- intros [H1 H2]. split; [done|]. intros (k & ? & ? & ? & ? & ?).
           apply H2. exists k. naive_solver.
    + rewrite (inv_await _ _ _ _ _ _ HI). unfold P1. do 2 f_equiv.
      apply exist_proper. intros k. naive_solver.
  - intros l k. rewrite Hno, Hqu, Hfin. apply HI.
  - intros l Hl. rewrite Hfin in Hl. unfold idle. rewrite Hno, Hqu, Hre.
    apply (inv_finished _ _ _ _ _ _ HI) in Hl as [??]. auto.
  - intros l. rewrite Hin, Hrs, Hdo, Hno, Hqu, Hre. apply HI.
  - intros Hlive l Hln Hlj HUl. rewrite Hfin, Hdo. unfold busy.
    rewrite Hno, Hqu, Hrs. intros Hlf Hlr.
    apply (inv_live _ _ _ _ _ _ HI Hlive); auto.
  - intros l HUl. rewrite Hdo, Hin, Hfin. unfold idle. rewrite Hno, Hqu, Hre.
    by apply HI.
Qed.

(** The operator under treatment is treated. *)
Lemma settle P U ro t s i :
  Inv P (only i) U ro t s →
  (live → ready P s i → v_finished s i = false → v_done s i = true ∧ busy s i) →
  Inv P nobody U ro t s.
Proof.
  intros HI Hi. destruct HI; split; try done.
  intros Hl j Hj _ HUj Hf Hr. destruct (decide (j = i)) as [->|]; [auto|].
  by apply inv_live0.
Qed.

(** With all dependencies finished and told, nothing is awaited. *)
Lemma ready_complete P X U ro t s i :
  Inv P X U ro t s → live → ready P s i → v_await s i = ∅.
Proof.
  intros HI [_ Hl] Hr. apply elem_of_equiv_empty_L. intros r Ha.
  apply (inv_await _ _ _ _ _ _ HI) in Ha as [Ha Hno].
  destruct (Hl i r Ha) as (H0 & k & Hk & Ho). destruct (Hr k Hk).
  apply Hno. by exists k.
Qed.

Lemma not_ready_blocking P X U ro t s i :
  Inv P X U ro t s → v_blocking s i ≠ ∅ → ¬ ready P s i.
Proof.
  intros HI Hb Hr. apply set_choose_L in Hb as [k Hk].
  apply (inv_blocking _ _ _ _ _ _ HI) in Hk as [Hk Hf].
  destruct (Hr k); [by eexists|congruence].
Qed.
Lemma not_ready_streams P X U ro t s i :
  Inv P X U ro t s → v_non_blocking s i ≠ ∅ → ¬ ready P s i.
Proof.
  intros HI Hb Hr. apply set_choose_L in Hb as [k Hk].
  apply (inv_non_blocking _ _ _ _ _ _ HI) in Hk as [Hk Hf].
  destruct (Hr k); [by eexists|congruence].
Qed.

(** Once its normal work orders are over, an operator is rebuilt or done. *)
Definition kept (P : nat → nat → Prop) U ro t (s s' : QM) : Prop :=
  Inv P nobody U ro t s' ∧ ∀ k, v_finished s k = true → v_finished s' k = true.

(** What the recursive call does: it marks an operator that is done. *)
Definition marks (mark : stateM QM unit) (P : nat → nat → Prop) U ro t (i : nat)
  : Prop := ∀ s, Inv P (only i) U ro t s → v_finished s i = false →
    idle ro s i → ready P s i → wp mark (λ _ s', kept P U ro t s s') s.

(** An operator whose normal work orders are over and that has not been
    rebuilt has nothing else outstanding. *)
Lemma over_idle P X U ro t s i :
  Inv P X U ro t s → v_over s i = true → v_initiated s i = false → idle ro s i.
Proof.
  intros HI (Hn & Hq & _)%v_over_true Hini.
  pose proof (inv_rebuild _ _ _ _ _ _ HI i) as H. rewrite Hini in H.
  by destruct H as (? & ? & _).
Qed.

(** [initiateRebuild], and marking the operator when it is over at once. *)
Lemma rebuild_or_mark (mark : stateM QM unit) P U ro t s i :
  Inv P (only i) U ro t s → i < n → ¬ U i → v_finished s i = false →
  v_over s i = true → v_initiated s i = false → ready P s i →
  marks mark P U ro t i →
  wp (or_else (not_m (checkRebuildRequired i)) (initiateRebuild i))
    (λ b s', wp (if b then mark else mret tt) (λ _ s'', kept P U ro t s s'') s') s.
Proof.
  intros HI Hi HU Hf Hover Hini Hready Hmark.
  apply wp_or_else, wp_not. eapply wp_required; [apply HI|done|].
  destruct (needs_rebuild g0 i) eqn:Hneed; cbn.
  2: { apply Hmark; auto. by eapply over_idle. }
  eapply rebuild_spec; [apply HI|done|done|]. intros k s1 He.
  pose proof (rebuild_keeps _ _ _ _ _ _ _ _ _ HI He eq_refl HU Hover Hini Hf) as HI1.
  pose proof (re_finished _ _ _ _ _ He) as Hfin.
  pose proof (re_status _ _ _ _ _ He i) as Hs. rewrite decide_True in Hs by done.
  pose proof (re_rebuild _ _ _ _ _ He i) as Hl. rewrite decide_True in Hl by done.
  destruct (over_idle _ _ _ _ _ _ _ HI Hover Hini) as (Hn & Hq & Hr & Hro).
  destruct (Nat.eqb_spec k 0) as [->|Hk].
  - eapply wp_mono; [apply Hmark; try done|].
    + by rewrite Hfin.
    + unfold idle. rewrite (re_normal _ _ _ _ _ He), (re_queued _ _ _ _ _ He).
      split_and!; try done. apply length_zero_iff_nil. rewrite Hl, Hr. done.
    + unfold ready. by rewrite Hfin.
    + intros _ s2 [HI2 Hmono]. split; [done|]. by rewrite <- Hfin.
  - apply wp_ret. split; [|by rewrite Hfin]. apply (settle _ _ _ _ _ i HI1).
    intros _ _ _. rewrite (re_done _ _ _ _ _ He).
    apply v_over_true in Hover as (_ & _ & Hd). split; [done|]. right; right.
    unfold v_rebuilds, getNumRebuildWorkOrders_es. unfold v_status in Hs.
    rewrite Hs. cbn. lia.
Qed.

Lemma visit_spec (mark : nat → stateM QM unit) P U ro t s i j :
  plan_ok g0 → Inv (λ k l, P k l ∨ (k = i ∧ l = j)) nobody U ro t s →
  edge g0 i j → v_finished s i = true → ¬ P i j →
  (∀ k l, P k l → k = i ∨ tc (edge g0) k i) →
  marks (mark j) P U ro t j →
  wp (visit_dependent mark (out i) j) (λ _ s', kept P U ro t s s') s.
Proof.
  intros Hg HI Hij Hfi HPij Hstack Hmark.
  pose proof (plan_closed _ _ _ Hg Hij) as Hj.
  assert (¬ U j) as HU by (intros HU; apply HI in HU as (_ & HU & _); by apply (HU i)).
  apply wp_bind.
  apply (wp_mono _ (λ _ s1, op_effect g0 j
    (if decide (out i >= 0)%Z then v_await s j ∖ {[out i]} else v_await s j) s s1)).
  { case_decide as Ho; [|by apply wp_ret; split; try done;
      [apply HI|intros k; case_decide; subst]].
    eapply wp_op_effect; [apply HI|done| |intros s1 H1; exact H1].
    intros d Hd Hok. unfold v_await. rewrite Hd. apply done_contract; [done|].
    destruct (original_operator _ _ _ _ _ _ _ _ HI Hd) as (d0 & H0 & (_ & _ & _ & Hends & _)).
    apply Hends. eapply plan_ends; [done..|lia]. }
  intros _ s1 He. pose proof (oe_exec _ _ _ _ _ He) as Hx.
  destruct (tell_keeps _ _ _ _ _ _ _ _ HI Hij Hfi HPij He) as (HI1 & Hd & Hf).
  assert (v_finished s1 = v_finished s) as Hfin by (unfold v_finished; by rewrite Hx).
  assert (v_done s1 j = false) as Hd1 by (unfold v_done in *; by rewrite Hx).
  rewrite <- Hfin in Hf. unfold kept. rewrite <- Hfin. clear s HI He Hx Hd Hfi Hfin.
  assert (∀ k, link g0 k j true → ¬ awaited g0 k j → ¬ P k j) as Hun.
  { intros k Hk Haw HP. destruct (plan_breakers _ Hg _ _ Hk) as [|Hby]; [done|].
    destruct (Hstack _ _ HP) as [->|Htc]; [done|]. apply (Hby i); [done| |done].
    intros ->. by apply (plan_acyclic g0 k Hg). }
  apply wp_bind. eapply wp_check_met; [apply HI1|done|].
  case_bool_decide as Hmet.
  2: { apply wp_ret. split; [|done]. apply (settle _ _ _ _ _ j HI1).
       intros _ Hr. by eapply not_ready_blocking in Hmet. }
  apply wp_bind, wp_and_then, wp_not. eapply fetch_spec; [apply HI1|done|].
  intros b d s2 He Hprompt.
  pose proof (fetch_keeps _ _ _ _ _ _ _ _ _ _ Hg HI1 He eq_refl HU Hmet Hd1 Hf Hun) as HI2.
  pose proof (fe_finished _ _ _ _ _ _ He) as Hfin. rewrite <- Hfin in Hf |- *.
  assert (live → ready P s2 j → v_done s2 j = true) as Hdone.
  { intros Hl Hr. rewrite (fe_done _ _ _ _ _ _ He), bool_decide_eq_true_2 by done.
    rewrite Hprompt; [by rewrite orb_true_r|apply Hl|].
    rewrite <- (fe_await _ _ _ _ _ _ He). by eapply ready_complete. }
  pose proof (fe_result _ _ _ _ _ _ He) as Hres.
  destruct b; cbn.
  { apply wp_ret. split; [|done]. apply (settle _ _ _ _ _ j HI2).
    intros Hl Hr _. split; [auto|]. by left. }
  apply wp_and_then. eapply wp_check_streams; [apply HI2|done|].
  case_bool_decide as Hstr.
  2: { apply wp_ret. split; [|done]. apply (settle _ _ _ _ _ j HI2).
       intros _ Hr. by eapply not_ready_streams in Hstr. }
  apply wp_and_then. eapply wp_over; [apply HI2|done|].
  destruct (v_over s2 j) eqn:Hover.
  2: { apply wp_ret. split; [|done]. apply (settle _ _ _ _ _ j HI2).
       intros Hl Hr _. split; [auto|]. unfold v_over in Hover.
       rewrite (Hdone Hl Hr), andb_true_r in Hover.
       apply andb_false_iff in Hover as [H|H].
       - left. by apply bool_decide_eq_false in H.
       - right; left. by apply N.eqb_neq in H. }
  assert (ready P s2 j) as Hready.
  { apply (inv_done _ _ _ _ _ _ HI2). by apply v_over_true in Hover as (_ & _ & ?). }
  apply rebuild_or_mark; try done.
  pose proof (inv_rebuild _ _ _ _ _ _ HI1 j) as H.
  rewrite (initiated_status s1 s2) by (by rewrite (fe_status _ _ _ _ _ _ He)).
  destruct (v_initiated s1 j); [|done]. destruct H. congruence.
Qed.

(** [markOperatorFinished] ends, and keeps the invariant: the fuel need only
    exceed the number of ranks above that of the operator. *)
Lemma mark_spec rank fuel i P U ro t :
  plan_ok g0 → (∀ i j, edge g0 i j → rank i < rank j ∧ rank j < n) →
  n - rank i < fuel → i < n → ¬ U i → (∀ k l, P k l → tc (edge g0) k i) →
  marks (markOperatorFinished fuel i) P U ro t i.
Proof.
  intros Hg Hrank. revert i P.
  induction fuel as [|fuel IH]; intros i P Hfuel Hi HU Hstack s HI Hf Hid Hre; [lia|].
  eapply mark_unfold; [done|apply HI|done|]. intros s1 l He Hnd Hl.
  pose proof (mark_keeps _ _ _ _ _ _ _ Hg HI Hi Hf Hid Hre HU He) as HI1.
  pose proof (me_finished _ _ _ He) as Hfin.
  assert (v_finished s1 i = true) as Hf1 by (by rewrite Hfin, decide_True).
  assert (∀ k, v_finished s k = true → v_finished s1 k = true) as Hmono
    by (intros k Hk; rewrite Hfin; by case_decide).
  eapply wp_mono.
  - apply (wp_for_each _ l (λ _ rest s',
      Inv (λ k j, P k j ∨ (k = i ∧ j ∈ rest.*1)) nobody U ro t s' ∧
      v_finished s' i = true ∧ ∀ k, v_finished s k = true → v_finished s' k = true)).
    + split; [|done]. refine (Inv_weaken _ _ _ _ _ _ _ _ _ _ HI1); [|done]. intros k j. cbn.
      rewrite (Hl j). naive_solver.
    + intros pre x rest s2 -> (HI2 & Hf2 & Hmono2).
      assert (edge g0 i x.1) as Hx
        by (apply Hl; rewrite fmap_app; apply elem_of_app; right; left).
      assert (x.1 ∉ rest.*1) as Hnot.
      { rewrite fmap_app in Hnd. apply NoDup_app in Hnd as (_ & _ & Hnd).
        by apply NoDup_cons in Hnd as [? _]. }
      eapply wp_mono.
      * eapply (visit_spec _ (λ k j, P k j ∨ (k = i ∧ j ∈ rest.*1)));
          [done| |done|done| | |].
        -- refine (Inv_weaken _ _ _ _ _ _ _ _ _ _ HI2); [|done]. intros k j. cbn.
           rewrite elem_of_cons. naive_solver.
        -- intros [HP|[_ ?]]; [|done]. apply Hstack in HP. by eapply plan_acyclic.
        -- intros k j' [HP|[-> _]]; [right; by eapply Hstack|by left].
        -- destruct (Hrank i x.1 Hx). apply IH; [lia|by eapply plan_closed| |].
           { intros HUx. apply HI2 in HUx as (_ & HUx & _). by apply (HUx i). }
           intros k j' [HP|[-> _]]; [|by apply tc_once].
           eapply tc_r; [by eapply Hstack|done].
      * intros _ s3 [HI3 Hmono3]. auto.
  - intros _ s2 (HI2 & _ & Hmono2). split; [|done].
    refine (Inv_weaken _ _ _ _ _ _ _ _ _ _ HI2); [|done]. intros k j. cbn. set_solver.
Qed.
End fixed.
End inv.
