(* ===== verification/QueryManagerHandlers.v ===== *)
(** * The handlers of a query manager keep its invariant

    Dispatching a work order, and the handlers of the messages that a work
    order has completed, has produced a block or has sent feedback, from a
    state that satisfies [Inv] with nothing under treatment. *)

From S2P Require Import Prelude StateMonad WorkOrdersContainer.
From S2P Require Import WorkOrdersScheduling DAG QueryExecutionState QueryManager.
From S2P Require Import QueryManagerViews QueryManagerInv.
From stdpp Require Import options.

(** [f] with the value at [i] replaced. *)
Definition upd (f : nat → nat) (i x : nat) : nat → nat :=
  λ j, if decide (j = i) then x else f j.

Lemma upd_eq f i x : upd f i x i = x.
Proof. unfold upd. by rewrite decide_True. Qed.
Lemma upd_ne f i x j : j ≠ i → upd f i x j = f j.
Proof. intros. unfold upd. by rewrite decide_False. Qed.

Section handlers.
Context {Op W E F B : Type} `{!WorkOrder W} `{!RelationalOperator Op W E F B}.
Context `{!HashOrder (nat * bool)} {m : nat} `{!OperatorContract Op W E F B m}.
Abbreviation QM := (QueryManager Op W E).
Context (g0 : DAG Op bool).
Abbreviation n := (length g0).
Abbreviation nobody := (λ _ : nat, False).
Abbreviation none := (λ _ _ : nat, False).
Abbreviation only i := (λ j : nat, j = i).

(** Between two messages. *)
Definition Good (ro : nat → nat) (t : N) (s : QM) : Prop :=
  Inv g0 none nobody nobody ro t s.

(** ** Changes of the execution state *)

(** A change that touches only the counters and the pending work orders of
    operator [i], which is under treatment afterwards. *)
Lemma counters_keep ro ro' t t' s s' i :
  Good ro t s → Wf m g0 s' → (t' < 2 ^ 64)%N →
  v_finished s' = v_finished s →
  execution_finished (query_exec_state s') = execution_finished (query_exec_state s) →
  num_operators_finished (query_exec_state s') =
    num_operators_finished (query_exec_state s) →
  v_done s' = v_done s → v_await s' = v_await s →
  v_blocking s' = v_blocking s → v_non_blocking s' = v_non_blocking s →
  (∀ j, v_queued s' j ≤ t')%N →
  (∀ j, j ≠ i → v_normal s' j = v_normal s j ∧ v_rebuild s' j = v_rebuild s j ∧
     v_queued s' j = v_queued s j ∧ v_status s' j = v_status s j ∧ ro' j = ro j) →
  v_finished s i = false →
  (v_normal s' i ≠ [] ∨ v_queued s' i ≠ 0%N →
     v_normal s i ≠ [] ∨ v_queued s i ≠ 0%N) →
  (if v_initiated s' i
   then v_done s i = true ∧ v_normal s' i = [] ∧ v_queued s' i = 0%N ∧
     v_rebuilds s' i = N.of_nat (length (v_rebuild s' i) + ro' i) ∧
     (v_rebuilds s' i < 2 ^ 64)%N
   else v_rebuild s' i = [] ∧ ro' i = 0 ∧ v_rebuilds s' i = 0%N) →
  Inv g0 none (only i) nobody ro' t' s'.
Proof.
  intros HI Hwf Ht Hfin Hlist Hcount Hd Haw Hb Hnb Hq Hothers Hf Hwork Hreb.
  assert (∀ j, ready g0 none s' j ↔ ready g0 none s j) as Hready
    by (intros j; unfold ready; by rewrite Hfin).
  split; try done.
  - intros j k. rewrite Hb, Hfin. apply HI.
  - intros j k. rewrite Hnb, Hfin. apply HI.
  - rewrite Hlist, Hcount. apply HI.
  - intros j. rewrite Hd, Hready. apply HI.
  - intros j r. rewrite Haw, Hfin. apply HI.
  - intros j k Hw. rewrite Hfin. apply (inv_work _ _ _ _ _ _ _ HI j).
    destruct (decide (j = i)) as [->|Hj]; [auto|].
    destruct (Hothers j Hj) as (<- & _ & <- & _). done.
  - intros j Hj. rewrite Hfin in Hj. assert (j ≠ i) as Hji by congruence.
    destruct (Hothers j Hji) as (Hn & Hr & Hqj & _ & Hro).
    rewrite Hready. unfold idle. rewrite Hn, Hr, Hqj, Hro.
    exact (inv_finished _ _ _ _ _ _ _ HI j Hj).
  - intros j. rewrite Hd. destruct (decide (j = i)) as [->|Hj]; [exact Hreb|].
    destruct (Hothers j Hj) as (Hn & Hr & Hqj & Hs & Hro).
    rewrite (initiated_status s s'), (rebuilds_status s s'), Hn, Hr, Hqj, Hro by done.
    apply HI.
  - intros Hl j Hj Hji _. destruct (Hothers j Hji) as (Hn & Hr & Hqj & Hs & Hro).
    rewrite Hready, Hfin, Hd. unfold busy.
    rewrite (rebuilds_status s s'), Hn, Hqj by done.
    apply (inv_live _ _ _ _ _ _ _ HI Hl j Hj); by intros [].
Qed.

Lemma busy_unfinished ro t s i :
  Good ro t s → v_queued s i ≠ 0%N ∨ ro i ≠ 0 → v_finished s i = false.
Proof.
  intros HI Hb. destruct (v_finished s i) eqn:Hf; [|done].
  apply HI in Hf as [(_ & ? & _ & ?) _]. naive_solver.
Qed.

Lemma queued_lt s i : Wf m g0 s → v_queued s i ≠ 0%N → i < n.
Proof.
  intros Hwf Hq. destruct (decide (i < n)) as [|Hi]; [done|]. exfalso. apply Hq.
  unfold v_queued. rewrite lookup_ge_None_2; [done|].
  rewrite (wf_queued _ _ Hwf). lia.
Qed.

(** ** A normal work order has completed *)

Definition dequeued (i : nat) (s : QM) : QM :=
  with_exec (with_queued
    (<[i := size_dec (v_queued s i)]> (queued_workorders_per_op (query_exec_state s)))
    (query_exec_state s)) s.

Lemma wp_dequeue s i (Q : unit → QM → Prop) :
  Wf m g0 s → i < n → Q tt (dequeued i s) →
  wp (exec_updates (decrementNumQueuedWorkOrders i)) Q s.
Proof.
  intros Hwf Hi HQ. eapply wp_updates; [|exact HQ].
  unfold decrementNumQueuedWorkOrders.
  rewrite (vec_at_default 0%N) by (by rewrite (wf_queued _ _ Hwf)). cbn.
  by rewrite vec_set_lt by (by rewrite (wf_queued _ _ Hwf)).
Qed.

Lemma dequeued_queued s i j :
  Wf m g0 s → i < n →
  v_queued (dequeued i s) j =
  if decide (j = i) then size_dec (v_queued s i) else v_queued s j.
Proof.
  intros Hwf Hi. unfold v_queued, dequeued. cbn.
  by rewrite default_lookup_insert by (by rewrite (wf_queued _ _ Hwf)).
Qed.

Lemma dequeue_keeps ro t s i :
  Good ro t s → v_queued s i ≠ 0%N →
  Inv g0 none (only i) nobody ro t (dequeued i s).
Proof.
  intros HI Hq. pose proof (inv_wf _ _ _ _ _ _ _ HI) as Hwf.
  pose proof (queued_lt s i Hwf Hq) as Hi.
  pose proof (inv_queued _ _ _ _ _ _ _ HI i) as Hle.
  pose proof (inv_bound _ _ _ _ _ _ _ HI) as Ht.
  assert (size_dec (v_queued s i) = v_queued s i - 1)%N as Hdec
    by (apply size_dec_pos; lia).
  eapply (counters_keep _ _ _ _ s); try done.
  - destruct Hwf; split; try done. cbn. by rewrite length_insert.
  - intros j. rewrite dequeued_queued by done. case_decide; [lia|apply HI].
  - intros j Hj. rewrite dequeued_queued by done. by rewrite decide_False.
  - eapply busy_unfinished; eauto.
  - intros _. by right.
  - pose proof (inv_rebuild _ _ _ _ _ _ _ HI i) as Hr.
    change (v_initiated (dequeued i s) i) with (v_initiated s i).
    destruct (v_initiated s i); [|done]. destruct Hr as (_ & _ & ? & _). congruence.
Qed.

(** The two ways the source writes "initiate a rebuild if one is required and
    stop if it is under way". *)
Lemma wp_rebuild_forms (R I : stateM QM bool) (mark : stateM QM unit)
    (Q : unit → QM → Prop) s :
  wp (or_else (not_m R) I) (λ b s', wp (if b then mark else mret tt) Q s') s →
  wp (required ← R;
      under_progress ← (if (required : bool) then not_m I else mret false);
      if (under_progress : bool) then mret tt else mark) Q s.
Proof.
  unfold wp, or_else, not_m, mbind, stateM_bind, mret, stateM_ret.
  destruct (R s) as [[[] s1]|]; cbn; [|done|done].
  destruct (I s1) as [[[] s2]|]; done.
Qed.

Lemma complete_spec ro t s i :
  plan_ok g0 → Good ro t s → v_queued s i ≠ 0%N →
  wp (processWorkOrderCompleteMessage (S n) i) (λ _ s', Good ro t s' ∧
    ∀ k, v_finished s k = true → v_finished s' k = true) s.
Proof.
  intros Hg HI Hq. pose proof (inv_wf _ _ _ _ _ _ _ HI) as Hwf.
  pose proof (queued_lt s i Hwf Hq) as Hi.
  pose proof (busy_unfinished _ _ _ i HI (or_introl Hq)) as Hf.
  pose proof (dequeue_keeps ro t s i HI Hq) as HI1.
  apply wp_bind, wp_dequeue; [done|done|].
  assert (∀ k, v_finished s k = v_finished (dequeued i s) k) as Hfin by done.
  assert (v_initiated (dequeued i s) i = false) as Hini.
  { change (v_initiated s i = false). pose proof (inv_rebuild _ _ _ _ _ _ _ HI i) as Hr.
    destruct (v_initiated s i); [|done]. destruct Hr as (_ & _ & ? & _). congruence. }
  apply wp_bind. eapply wp_over; [apply HI1|done|].
  destruct (v_over (dequeued i s) i) eqn:Hover; cbn.
  - apply wp_rebuild_forms.
    assert (ready g0 none (dequeued i s) i) as Hready.
    { apply (inv_done _ _ _ _ _ _ _ HI1).
      by apply v_over_true in Hover as (_ & _ & ?). }
    destruct (plan_rank _ Hg) as [rank Hrank].
    eapply wp_mono; [eapply (rebuild_or_mark g0 (markOperatorFinished (S n) i)); eauto|].
    + eapply mark_spec; eauto; [lia|by intros k l []].
    + intros b s1 Hw. eapply wp_mono; [exact Hw|]. by intros ? s2 [].
  - apply wp_ret. split; [|done]. apply (settle _ _ _ _ _ _ i HI1).
    intros Hl Hr _. destruct (inv_live _ _ _ _ _ _ _ HI Hl i) as [Hd _]; auto.
    split; [done|]. unfold v_over in Hover.
    change (v_done (dequeued i s) i) with (v_done s i) in Hover.
    rewrite Hd, andb_true_r in Hover. apply andb_false_iff in Hover as [H|H].
    + left. by apply bool_decide_eq_false in H.
    + right; left. by apply N.eqb_neq in H.
Qed.

(** ** A rebuild work order has completed *)

Definition rebuilt (i : nat) (st : RebuildStatus) (s : QM) : QM :=
  with_exec (with_rebuild (rebuild_required (query_exec_state s))
    (<[i := MkStatus (has_initiated st) (size_dec (num_pending_workorders st))]>
       (rebuild_status (query_exec_state s))) (query_exec_state s)) s.

Lemma rebuilt_keeps ro t s i st :
  Good ro t s → ro i ≠ 0 → v_status s i = Some st →
  Inv g0 none (only i) nobody (upd ro i (ro i - 1)) t (rebuilt i st s) ∧
  v_done s i = true ∧ v_normal s i = [] ∧ v_queued s i = 0%N ∧
  v_rebuilds (rebuilt i st s) i = N.of_nat (length (v_rebuild s i) + (ro i - 1)).
Proof.
  intros HI Hro Hst. pose proof (inv_wf _ _ _ _ _ _ _ HI) as Hwf.
  pose proof (inv_rebuild _ _ _ _ _ _ _ HI i) as Hr.
  assert (v_initiated s i = has_initiated st) as Hini
    by (unfold v_initiated, hasRebuildInitiated; unfold v_status in Hst; by rewrite Hst).
  assert (v_rebuilds s i = num_pending_workorders st) as Hnum
    by (unfold v_rebuilds, getNumRebuildWorkOrders_es; unfold v_status in Hst;
        by rewrite Hst).
  destruct (v_initiated s i); [|naive_solver].
  destruct Hr as (Hd & Hn & Hq & Hreb & Hlt).
  assert (v_initiated (rebuilt i st s) i = true) as Hini'.
  { unfold v_initiated, hasRebuildInitiated. cbn. by rewrite lookup_insert_eq. }
  assert (v_rebuilds (rebuilt i st s) i =
          N.of_nat (length (v_rebuild s i) + (ro i - 1))) as Hnum'.
  { unfold v_rebuilds, getNumRebuildWorkOrders_es. cbn. rewrite lookup_insert_eq. cbn.
    rewrite size_dec_pos; lia. }
  split; [|done].
  eapply (counters_keep _ _ _ _ s); try done.
  - destruct Hwf; split; try done. intros j. cbn. rewrite <- wf_status.
    unfold v_status. cbn. destruct (decide (j = i)) as [->|Hj].
    + rewrite lookup_insert_eq. split; intros _; [by exists st|done].
    + by rewrite lookup_insert_ne.
  - apply HI.
  - apply HI.
  - intros j Hj. rewrite upd_ne by done. split_and!; try done.
    unfold v_status. cbn. by rewrite lookup_insert_ne.
  - eapply busy_unfinished; eauto.
  - rewrite Hini', upd_eq, Hnum'. split_and!; try done. lia.
Qed.

Lemma rebuild_complete_spec ro t s i :
  plan_ok g0 → Good ro t s → ro i ≠ 0 →
  wp (processRebuildWorkOrderCompleteMessage (S n) i)
    (λ _ s', Good (upd ro i (ro i - 1)) t s' ∧
      ∀ k, v_finished s k = true → v_finished s' k = true) s.
Proof.
  intros Hg HI Hro. pose proof (inv_wf _ _ _ _ _ _ _ HI) as Hwf.
  pose proof (busy_unfinished _ _ _ i HI (or_intror Hro)) as Hf.
  assert (∃ st, v_status s i = Some st) as [st Hst].
  { pose proof (inv_rebuild _ _ _ _ _ _ _ HI i) as Hr.
    unfold v_initiated, hasRebuildInitiated in Hr. unfold v_status.
    destruct (rebuild_status _ !! i) as [st|]; [by exists st|naive_solver]. }
  assert (i < n) as Hi by (apply (wf_status _ _ Hwf); by exists st).
  destruct (rebuilt_keeps ro t s i st HI Hro Hst) as (HI1 & Hd & Hn & Hq & Hnum).
  apply wp_bind. eapply wp_updates.
  { unfold decrementNumRebuildWorkOrders. unfold v_status in Hst. by rewrite Hst. }
  fold (rebuilt i st s). apply wp_bind. eapply wp_rebuild_over; [apply HI1|done|].
  change (v_rebuild (rebuilt i st s) i) with (v_rebuild s i). rewrite Hnum.
  destruct (_ && _) eqn:Hover; cbn.
  - apply andb_true_iff in Hover as [H1%bool_decide_eq_true H2%N.eqb_eq].
    rewrite H1 in H2. cbn in H2.
    destruct (plan_rank _ Hg) as [rank Hrank].
    assert (marks g0 (markOperatorFinished (S n) i) none nobody
              (upd ro i (ro i - 1)) t i) as Hmark
      by (eapply (mark_spec _ rank); eauto; [lia|by intros k l []]).
    eapply wp_mono; [apply (Hmark _ HI1 Hf)|].
    + unfold idle. rewrite upd_eq. split_and!; try done. lia.
    + by apply (inv_done _ _ _ _ _ _ _ HI).
    + by intros ? s2 [].
  - apply wp_ret. split; [|done]. apply (settle _ _ _ _ _ _ i HI1).
    intros _ _ _. split; [done|]. right; right. rewrite Hnum.
    apply andb_false_iff in Hover as [H|H].
    + apply bool_decide_eq_false in H. destruct (v_rebuild s i); [done|]. cbn. lia.
    + by apply N.eqb_neq in H.
Qed.

(** ** A block has been produced, feedback has arrived *)

Lemma op_keeps P X U ro t s s' i :
  Inv g0 P X U ro t s → op_effect g0 i (v_await s i) s s' → Inv g0 P X U ro t s'.
Proof.
  intros HI [Hwf Hx Hc Hb Hnb Haw].
  assert (v_finished s' = v_finished s) as Hfin by (unfold v_finished; by rewrite Hx).
  assert (v_done s' = v_done s) as Hdo by (unfold v_done; by rewrite Hx).
  assert (v_queued s' = v_queued s) as Hqu by (unfold v_queued; by rewrite Hx).
  assert (v_normal s' = v_normal s) as Hno by (unfold v_normal; by rewrite Hc).
  assert (v_rebuild s' = v_rebuild s) as Hre by (unfold v_rebuild; by rewrite Hc).
  assert (v_initiated s' = v_initiated s) as Hin by (unfold v_initiated; by rewrite Hx).
  assert (v_rebuilds s' = v_rebuilds s) as Hrs by (unfold v_rebuilds; by rewrite Hx).
  assert (v_blocking s' = v_blocking s) as Hbl by (unfold v_blocking; by rewrite Hb).
  assert (v_non_blocking s' = v_non_blocking s) as Hnbl
    by (unfold v_non_blocking; by rewrite Hnb).
  assert (∀ j, v_await s' j = v_await s j) as Haw'
    by (intros j; rewrite Haw; case_decide; by subst).
  destruct HI; split; unfold ready, idle, busy in *;
    rewrite ?Hfin, ?Hdo, ?Hqu, ?Hno, ?Hre, ?Hin, ?Hrs, ?Hbl, ?Hnbl, ?Hx; try done.
  intros j r. rewrite Haw'. done.
Qed.

(** Fetching the work orders of an operator that misses an input. *)
Lemma fetch_missing ro t s i :
  plan_ok g0 → Good ro t s → i < n → v_blocking s i = ∅ → v_done s i = false →
  v_finished s i = false → (live g0 → ¬ ready g0 none s i) →
  wp (fetchNormalWorkOrders i)
    (λ _ s', Good ro t s' ∧ v_finished s' = v_finished s) s.
Proof.
  intros Hg HI Hi Hb Hd Hf Hmiss. eapply fetch_spec; [apply HI|done|].
  intros b d s' He _. pose proof (fe_finished _ _ _ _ _ _ He) as Hfin.
  split; [|done]. apply (settle _ _ _ _ _ _ i).
  - eapply fetch_keeps; eauto.
    refine (Inv_weaken _ _ _ _ _ _ _ _ _ _ _ HI); [done|by intros ? []].
  - intros Hl Hr. destruct (Hmiss Hl). by unfold ready in *; rewrite Hfin in Hr.
Qed.

(** The consumers of the output of [i] accept blocks of a relation and
    partition. *)
Definition consumers_accept (i : nat) (rel : Z) (part : nat) : Prop :=
  ∀ j d, link g0 i j false → g0 !! j = Some d → accepts (payload d) rel part.

Definition operator_hears (i : nat) (f : F) : Prop :=
  ∀ d, g0 !! i = Some d → hears (payload d) f.

Lemma pipeline_spec ro t s i block rel part :
  plan_ok g0 → Good ro t s → i < n → v_finished s i = false →
  consumers_accept i rel part →
  wp (processDataPipelineMessage i block rel part)
    (λ _ s', Good ro t s' ∧ v_finished s' = v_finished s) s.
Proof.
  intros Hg HI Hi Hf Hacc.
  destruct (wf_consumers _ _ (inv_wf _ _ _ _ _ _ _ HI) i Hi) as (l & Hl & Hin).
  apply wp_bind. eapply wp_reads; [by apply vec_at_Some|].
  apply (wp_for_each _ l (λ _ _ s', Good ro t s' ∧ v_finished s' = v_finished s));
    [done|].
  intros pre j rest s1 -> [HI1 Hfin]. rewrite <- Hfin in Hf |- *. clear s HI Hl Hfin.
  assert (link g0 i j false) as Hij by (apply Hin, elem_of_app; right; left).
  assert (edge g0 i j) as He by (by exists false).
  pose proof (plan_closed _ _ _ Hg He) as Hj.
  apply wp_bind. eapply (wp_op_effect _ _ _ _ _ (v_await s1 j)); [apply HI1|done| |].
  { intros d Hd Hok. unfold v_await. rewrite Hd. apply feed_contract; [done|].
    destruct (original_operator _ _ _ _ _ _ _ _ _ HI1 Hd) as (d0 & H0 & (_ & _ & Ha & _)).
    apply Ha. by eapply Hacc. }
  intros s2 Hop. pose proof (op_keeps _ _ _ _ _ _ _ _ HI1 Hop) as HI2.
  assert (v_finished s2 = v_finished s1) as Hfin
    by (unfold v_finished; by rewrite (oe_exec _ _ _ _ _ Hop)).
  rewrite <- Hfin in Hf |- *.
  assert (¬ ready g0 none s2 j) as Hmiss by (intros Hr; destruct (Hr i He); congruence).
  apply wp_bind. eapply wp_check_met; [apply HI2|done|]. case_bool_decide; [|done].
  apply wp_bind. eapply wp_mono; [apply (fetch_missing ro t s2 j); auto|].
  - destruct (v_done s2 j) eqn:Hd; [|done]. by apply (inv_done _ _ _ _ _ _ _ HI2) in Hd.
  - destruct (v_finished s2 j) eqn:Hd; [|done].
    by apply (inv_finished _ _ _ _ _ _ _ HI2) in Hd as [_ ?].
  - intros _ s3 [HI3 Hfin3]. by apply wp_ret.
Qed.

Lemma feedback_spec ro t s i f :
  plan_ok g0 → Good ro t s → v_queued s i ≠ 0%N → operator_hears i f →
  wp (processFeedbackMessage i f)
    (λ _ s', Good ro t s' ∧ v_finished s' = v_finished s) s.
Proof.
  intros Hg HI Hq Hear. pose proof (queued_lt s i (inv_wf _ _ _ _ _ _ _ HI) Hq) as Hi.
  pose proof (busy_unfinished _ _ _ i HI (or_introl Hq)) as Hf.
  apply wp_bind. eapply (wp_op_effect _ _ _ _ _ (v_await s i)); [apply HI|done| |].
  { intros d Hd Hok. unfold v_await. rewrite Hd. apply feedback_contract; [done|].
    destruct (original_operator _ _ _ _ _ _ _ _ _ HI Hd) as (d0 & H0 & (_ & _ & _ & _ & Ha)).
    by apply Ha, Hear. }
  intros s1 Hop. pose proof (op_keeps _ _ _ _ _ _ _ _ HI Hop) as HI1.
  pose proof (oe_exec _ _ _ _ _ Hop) as Hx.
  assert (v_finished s1 = v_finished s) as Hfin by (unfold v_finished; by rewrite Hx).
  assert (v_queued s1 i ≠ 0%N) as Hq1 by (unfold v_queued in *; by rewrite Hx).
  rewrite <- Hfin in Hf |- *. apply wp_bind. eapply wp_reads.
  { unfold hasDoneGenerationWorkOrders.
    by rewrite (vec_at_default false)
      by (rewrite (QueryManagerViews.wf_done _ _ (inv_wf _ _ _ _ _ _ _ HI1)); done). }
  fold (v_done s1 i). destruct (v_done s1 i) eqn:Hd; [done|].
  apply wp_bind. eapply wp_mono; [apply (fetch_missing ro t s1 i); auto|].
  - apply elem_of_equiv_empty_L. intros k [Hk Hkf]%(inv_blocking _ _ _ _ _ _ _ HI1).
    rewrite (inv_work _ _ _ _ _ _ _ HI1 i k (or_intror Hq1) Hk) in Hkf. done.
  - intros Hl Hr. destruct (inv_live _ _ _ _ _ _ _ HI1 Hl i); auto. congruence.
  - intros _ s2 [HI2 Hfin2]. by apply wp_ret.
Qed.

(** The workers change what the operators read. *)
Lemma context_keeps ro t s e : Good ro t s → Good ro t (with_context e s).
Proof.
  intros HI. destruct HI as [Hwf]. split; try done. by destruct Hwf; split.
Qed.

(** ** Dispatching a work order *)

(** The rebuild work orders in execution after a message was handed out. *)
Definition dispatched (o : option (W * nat * bool)) (ro : nat → nat) : nat → nat :=
  match o with
  | Some (_, i, true) => upd ro i (S (ro i))
  | _ => ro
  end.

Lemma tagged_lt (v : list (OperatorWorkOrdersContainer W)) i w k l :
  half_placed n k v → tagged v ≡ₚ (i, w) :: l → i < n.
Proof.
  intros [Hl _] Hp. destruct (decide (i < n)) as [|Hi]; [done|exfalso].
  pose proof (of_op_perm i _ _ Hp) as H.
  rewrite of_op_tagged, of_op_cons, decide_True in H by done.
  unfold orders_at in H. rewrite lookup_ge_None_2 in H by lia. cbn in H.
  by apply Permutation_nil in H.
Qed.

Lemma of_op_next (v v' : list (OperatorWorkOrdersContainer W)) i w j :
  tagged v ≡ₚ (i, w) :: tagged v' →
  of_op j (tagged v) ≡ₚ (if decide (j = i) then [w] else []) ++ of_op j (tagged v').
Proof.
  intros Hp. rewrite (of_op_perm j _ _ Hp), of_op_cons.
  destruct (decide (j = i)), (decide (i = j)); subst; done || congruence.
Qed.

Lemma Wf_container s c :
  Wf m g0 s → woc_wf c → num_operators c = num_operators (workorders_container s) →
  num_numa_nodes c = num_numa_nodes (workorders_container s) →
  Wf m g0 (with_container c s).
Proof. intros [] Hc H1 H2. split; try done; cbn; congruence. Qed.

Lemma Good_mono ro t t' s : Good ro t s → (t ≤ t' < 2 ^ 64)%N → Good ro t' s.
Proof.
  intros HI [Hle Hlt]. destruct HI; split; try done. intros i.
  by etrans; [apply inv_queued|].
Qed.

(** A rebuild work order leaves the container. *)
Lemma next_rebuild_keeps ro t s i w c :
  Good ro t s → Wf m g0 (with_container c s) →
  tagged (rebuild_workorders (workorders_container s)) ≡ₚ
    (i, w) :: tagged (rebuild_workorders c) →
  normal_workorders c = normal_workorders (workorders_container s) →
  Good (upd ro i (S (ro i))) t (with_container c s) ∧
  v_initiated s i = true ∧ ready g0 none s i.
Proof.
  intros HI Hwf Hp Hn. set (s' := with_container c s).
  assert (∀ j, v_rebuild s j ≡ₚ (if decide (j = i) then [w] else []) ++ v_rebuild s' j)
    as Hr by (intros j; by apply of_op_next).
  assert (v_normal s' = v_normal s) as Hno
    by (unfold v_normal, normal_of; cbn; by rewrite Hn).
  pose proof (Hr i) as Hri. rewrite decide_True in Hri by done.
  assert (∀ j, j ≠ i → length (v_rebuild s' j) = length (v_rebuild s j)) as Hlen.
  { intros j Hj. by rewrite (Permutation_length (Hr j)), decide_False. }
  assert (∀ j, j ≠ i → v_rebuild s' j = [] ↔ v_rebuild s j = []) as Hre
    by (intros j Hj; by rewrite <- !length_zero_iff_nil, Hlen).
  assert (v_rebuild s i ≠ []) as Hne.
  { intros H. rewrite H in Hri. by apply Permutation_nil in Hri. }
  pose proof (inv_rebuild _ _ _ _ _ _ _ HI i) as Hreb.
  destruct (v_initiated s i) eqn:Hini; [|naive_solver].
  destruct Hreb as (Hd & Hnil & Hq & Hnum & Hlt).
  assert (v_finished s i = false) as Hf.
  { destruct (v_finished s i) eqn:Hf; [|done]. apply HI in Hf as [(_ & _ & ? & _) _].
    done. }
  split; [|split; [done|by apply (inv_done _ _ _ _ _ _ _ HI)]].
  destruct HI; split; try done.
  - intros j. rewrite Hno. apply inv_work.
  - intros j Hj. change (v_finished s j = true) in Hj.
    assert (j ≠ i) as Hji by congruence. destruct (inv_finished j Hj) as [(?&?&?&?) ?].
    split; [|done]. unfold idle. rewrite Hno, Hre, upd_ne by done. done.
  - intros j. rewrite Hno. change (v_initiated s' j) with (v_initiated s j).
    change (v_rebuilds s' j) with (v_rebuilds s j).
    change (v_queued s' j) with (v_queued s j). change (v_done s' j) with (v_done s j).
    destruct (decide (j = i)) as [->|Hj].
    + rewrite Hini, upd_eq. split_and!; try done. rewrite Hnum.
      rewrite (Permutation_length Hri). cbn. lia.
    + rewrite Hlen, upd_ne by done. specialize (inv_rebuild j).
      destruct (v_initiated s j); [done|]. by rewrite Hre.
  - intros Hl j Hj HX HU Hjf Hjr. unfold busy. rewrite Hno. by apply inv_live.
Qed.

(** A normal work order leaves the container and is in execution. *)
Definition enqueued (i : nat) (s : QM) : QM :=
  with_exec (with_queued
    (<[i := size_inc (v_queued s i)]> (queued_workorders_per_op (query_exec_state s)))
    (query_exec_state s)) s.

Lemma next_normal_keeps ro t s i w c :
  Good ro t s → Wf m g0 (with_container c s) → (t + 1 < 2 ^ 64)%N →
  i < n →
  tagged (normal_workorders (workorders_container s)) ≡ₚ
    (i, w) :: tagged (normal_workorders c) →
  rebuild_workorders c = rebuild_workorders (workorders_container s) →
  Good ro (t + 1) (enqueued i (with_container c s)) ∧
  (∀ k, link g0 k i true → v_finished s k = true) ∧ v_finished s i = false.
Proof.
  intros HI Hwf Ht Hi Hp Hr. set (s' := enqueued i (with_container c s)).
  assert (∀ j, v_normal s j ≡ₚ (if decide (j = i) then [w] else []) ++ v_normal s' j)
    as Hn by (intros j; by apply of_op_next).
  assert (v_rebuild s' = v_rebuild s) as Hre
    by (unfold v_rebuild, rebuild_of; cbn; by rewrite Hr).
  assert (∀ j, j ≠ i → v_normal s' j = [] ↔ v_normal s j = []) as Hno.
  { intros j Hj. symmetry. rewrite (perm_nil _ _ (Hn j)). by rewrite decide_False. }
  assert (v_normal s i ≠ []) as Hne.
  { intros H. pose proof (Hn i) as Hni. rewrite H, decide_True in Hni by done.
    by apply Permutation_nil in Hni. }
  pose proof (inv_queued _ _ _ _ _ _ _ HI i) as Hqi.
  assert (∀ j, v_queued s' j = if decide (j = i) then v_queued s i + 1 else v_queued s j)%N
    as Hq.
  { intros j. unfold v_queued, s', enqueued. cbn.
    pose proof (wf_queued _ _ Hwf) as Hlen. cbn in Hlen.
    rewrite default_lookup_insert by (by rewrite Hlen).
    case_decide; [|done]. apply size_inc_small.
    fold (v_queued s i). lia. }
  assert (v_finished s i = false) as Hf.
  { destruct (v_finished s i) eqn:Hf; [|done]. apply HI in Hf as [(? & _) _]. done. }
  assert (v_initiated s i = false) as Hini.
  { pose proof (inv_rebuild _ _ _ _ _ _ _ HI i) as H.
    destruct (v_initiated s i); [|done]. naive_solver. }
  split; [|split; [|done]].
  2: { intros k. apply (inv_work _ _ _ _ _ _ _ HI). by left. }
  destruct HI; split; try done.
  - destruct Hwf; split; try done. cbn. by rewrite length_insert.
  - intros j. rewrite Hq. specialize (inv_queued j). case_decide; [subst|]; lia.
  - intros j k Hw. change (v_finished s' k) with (v_finished s k). apply inv_work.
    destruct (decide (j = i)) as [->|Hj]; [by left|].
    by rewrite Hno, Hq, decide_False in Hw.
  - intros j Hj. change (v_finished s j = true) in Hj.
    assert (j ≠ i) as Hji by congruence. destruct (inv_finished j Hj) as [(?&?&?&?) ?].
    split; [|done]. unfold idle. rewrite Hno, Hre, Hq, decide_False by done. done.
  - intros j. change (v_initiated s' j) with (v_initiated s j). specialize (inv_rebuild j).
    rewrite Hre, Hq. destruct (decide (j = i)) as [->|Hj]; [by rewrite Hini in *|].
    change (v_rebuilds s' j) with (v_rebuilds s j).
    destruct (v_initiated s j); [|done]. by rewrite Hno.
  - intros Hl j Hj HX HU Hjf Hjr. destruct (inv_live Hl j Hj HX HU Hjf Hjr) as [Hd Hb].
    split; [done|]. unfold busy. rewrite Hq.
    destruct (decide (j = i)) as [->|Hji]; [right; left; lia|].
    rewrite Hno by done. done.
Qed.

Lemma dispatch_spec ro t s :
  Good ro t s → (t + 1 < 2 ^ 64)%N →
  wp getNextWorkerMessage (λ o s', Good (dispatched o ro) (t + 1) s' ∧
    v_finished s' = v_finished s ∧
    match o with
    | Some (_, i, false) =>
        (∀ k, link g0 k i true → v_finished s k = true) ∧ v_finished s i = false
    | Some (_, i, true) => v_done s i = true ∧ ready g0 none s i ∧ v_finished s i = false
    | None => ∀ i, v_normal s i = [] ∧ v_rebuild s i = []
    end) s.
Proof.
  intros HI Ht. pose proof (inv_wf _ _ _ _ _ _ _ HI) as Hwf.
  destruct (get_next_spec (workorders_container s) (wf_container _ _ Hwf))
    as (o & out & c & Hnext & Hcw & Hops & Hnodes & Hcase).
  pose proof (Wf_container s c Hwf Hcw Hops Hnodes) as Hwfc.
  assert ((t ≤ t + 1 < 2 ^ 64)%N) as Hle by lia.
  apply wp_bind. unfold wp at 1. rewrite Hnext.
  destruct o as [w|], out as [[i []]|]; try done.
  - destruct Hcase as [Hp Hn].
    destruct (next_rebuild_keeps ro t s i w c HI Hwfc Hp Hn) as (HI' & Hini & Hr).
    apply wp_ret. split; [by eapply Good_mono|]. split; [done|].
    pose proof (inv_rebuild _ _ _ _ _ _ _ HI i) as Hreb. rewrite Hini in Hreb.
    destruct Hreb as [Hd _]. split_and!; try done.
    destruct (v_finished s i) eqn:Hf; [|done].
    apply (inv_finished _ _ _ _ _ _ _ HI') in Hf as [(_ & _ & _ & H) _].
    rewrite upd_eq in H. done.
  - destruct Hcase as (Hp & _ & Hr).
    destruct (woc_wf_placed _ (wf_container _ _ Hwf)) as [Hpl _].
    rewrite (wf_container_ops _ _ Hwf) in Hpl.
    pose proof (tagged_lt _ _ _ _ _ Hpl Hp) as Hi.
    apply wp_bind. eapply wp_updates.
    { unfold incrementNumQueuedWorkOrders. cbn.
      rewrite (vec_at_default 0%N) by (by rewrite (wf_queued _ _ Hwf)). cbn.
      by rewrite vec_set_lt by (by rewrite (wf_queued _ _ Hwf)). }
    apply wp_ret.
    destruct (next_normal_keeps ro t s i w c HI Hwfc Ht Hi Hp Hr) as (HI' & ? & ?).
    done.
  - destruct Hcase as (-> & Hn & Hr). apply wp_ret.
    assert (with_container (workorders_container s) s = s) as -> by (by destruct s).
    split; [by eapply Good_mono|]. split; [done|]. intros i.
    unfold v_normal, v_rebuild, normal_of, rebuild_of. by rewrite Hn, Hr.
Qed.
End handlers.
