(* ===== verification/QueryManagerRun.v ===== *)
(** * Runs of a query manager

    The constructor establishes the invariant; the states reachable by
    dispatching work orders and handling the messages of the workers; and what
    the scheduling guarantees in all of them. *)

From S2P Require Import Prelude StateMonad WorkOrdersContainer.
From S2P Require Import WorkOrdersScheduling DAG QueryExecutionState QueryManager.
From S2P Require Import QueryManagerViews QueryManagerInv QueryManagerHandlers.
From stdpp Require Import options.

Section construction.
Context {Op W E F B : Type} `{!WorkOrder W} `{!RelationalOperator Op W E F B}.
Context `{!HashOrder (nat * bool)} {m : nat} `{!OperatorContract Op W E F B m}.
Abbreviation QM := (QueryManager Op W E).
Context (g0 : DAG Op bool).
Abbreviation n := (length g0).
Abbreviation nobody := (λ _ : nat, False).
Abbreviation none := (λ _ _ : nat, False).
Abbreviation only i := (λ j : nat, j = i).

(** ** The tables of the base class *)

(** No dependency. *)
Definition root (i : nat) : bool :=
  from_option (λ d, bool_decide (dependencies d = ∅)) false (g0 !! i).

(** The link from [i] to [j] is in the tables when the nodes below [k] are
    done and, of [k], the links to [pre]. *)
Definition seen (k : nat) (pre : list nat) (i j : nat) : Prop :=
  i < k ∨ (i = k ∧ j ∈ pre).

Record Built (kx k : nat) (pre : list nat) (s : QM) : Prop := {
  b_dag : query_dag s = g0;
  b_container : workorders_container s = new_WorkOrdersContainer n m;
  b_num : es_num_operators (query_exec_state s) = n;
  b_count : num_operators_finished (query_exec_state s) = 0%N;
  b_queued : queued_workorders_per_op (query_exec_state s) = replicate n 0%N;
  b_done : done_gen (query_exec_state s) = replicate n false;
  b_finished : execution_finished (query_exec_state s) = replicate n false;
  b_length : length (rebuild_required (query_exec_state s)) = n;
  b_required i : i < n → rebuild_required (query_exec_state s) !! i =
    Some (bool_decide (i < kx) && needs_rebuild g0 i);
  b_status i : v_status s i =
    if decide (i < kx ∧ needs_rebuild g0 i = true) then Some (MkStatus false 0)
    else None;
  b_roots : non_dependent_operators s = filter (λ i, root i = true) (seq 0 kx);
  b_lengths : length (blocking_dependencies s) = n ∧
    length (non_blocking_dependencies s) = n;
  b_blocking j i : i ∈ v_blocking s j ↔ link g0 i j true ∧ seen k pre i j;
  b_non_blocking j i : i ∈ v_non_blocking s j ↔ link g0 i j false ∧ seen k pre i j;
  b_dependents i : i < n → ∃ l, blocking_dependents s !! i = Some l ∧
    ∀ j, j ∈ l ↔ link g0 i j true ∧ seen k pre i j;
  b_consumers i : i < n → ∃ l, output_consumers s !! i = Some l ∧
    ∀ j, j ∈ l ↔ link g0 i j false ∧ seen k pre i j;
}.

Lemma link_fun i j b b' : link g0 i j b → link g0 i j b' → b = b'.
Proof. intros (d & ? & ?) (d' & ? & ?). congruence. Qed.

Lemma insert_at_lt j x (v : list (gset nat)) :
  j < length v →
  insert_at j x v = Ok (<[j := {[x]} ∪ default ∅ (v !! j)]> v).
Proof.
  intros Hj. unfold insert_at. rewrite (vec_at_default ∅) by done. cbn.
  by rewrite vec_set_lt.
Qed.

Lemma push_at_lookup i x (v : list (list nat)) l :
  v !! i = Some l → push_at i x v = Ok (<[i := l ++ [x]]> v).
Proof.
  intros Hi. unfold push_at. rewrite (vec_at_Some _ _ _ Hi). cbn.
  by rewrite vec_set_lt by (by eapply lookup_lt_Some).
Qed.

Lemma seen_snoc k pre j0 i j : seen k (pre ++ [j0]) i j ↔ seen k pre i j ∨ (i = k ∧ j = j0).
Proof. unfold seen. rewrite elem_of_app, list_elem_of_singleton. tauto. Qed.

(** A table of sets with a link added, and one without. *)
Lemma sets_added (v : list (gset nat)) k pre j0 b :
  j0 < length v → link g0 k j0 b →
  (∀ j i, i ∈ default ∅ (v !! j) ↔ link g0 i j b ∧ seen k pre i j) →
  ∀ j i, i ∈ default ∅ (<[j0 := {[k]} ∪ default ∅ (v !! j0)]> v !! j) ↔
    link g0 i j b ∧ seen k (pre ++ [j0]) i j.
Proof.
  intros Hj0 Hl Hv j i. rewrite default_lookup_insert, seen_snoc by done.
  case_decide as Hj; [subst; rewrite elem_of_union, elem_of_singleton|];
    rewrite Hv; naive_solver.
Qed.
Lemma table_same (T : nat → nat → Prop) k pre j0 b b' :
  link g0 k j0 b → b' ≠ b →
  (∀ j i, T j i ↔ link g0 i j b' ∧ seen k pre i j) →
  ∀ j i, T j i ↔ link g0 i j b' ∧ seen k (pre ++ [j0]) i j.
Proof.
  intros Hl Hb HT j i. rewrite HT, seen_snoc. split; [tauto|].
  intros [Hij [?|[-> ->]]]; [tauto|]. by destruct Hb; eapply link_fun.
Qed.
Lemma lists_added (v : list (list nat)) k pre j0 b l0 :
  v !! k = Some l0 → link g0 k j0 b →
  (∀ i, i < n → ∃ l, v !! i = Some l ∧ ∀ j, j ∈ l ↔ link g0 i j b ∧ seen k pre i j) →
  ∀ i, i < n → ∃ l, <[k := l0 ++ [j0]]> v !! i = Some l ∧
    ∀ j, j ∈ l ↔ link g0 i j b ∧ seen k (pre ++ [j0]) i j.
Proof.
  intros Hk Hl Hv i Hi. destruct (Hv i Hi) as (l & Hil & Hj).
  destruct (decide (i = k)) as [->|Hik].
  - rewrite Hk in Hil. injection Hil as ->. exists (l ++ [j0]).
    rewrite list_lookup_insert_eq by (by eapply lookup_lt_Some). split; [done|].
    intros j. rewrite elem_of_app, list_elem_of_singleton, seen_snoc, Hj. naive_solver.
  - exists l. rewrite list_lookup_insert_ne by done. split; [done|].
    intros j. rewrite seen_snoc, Hj. naive_solver.
Qed.
Lemma lists_same (v : list (list nat)) k pre j0 b b' :
  link g0 k j0 b → b' ≠ b →
  (∀ i, i < n → ∃ l, v !! i = Some l ∧ ∀ j, j ∈ l ↔ link g0 i j b' ∧ seen k pre i j) →
  ∀ i, i < n → ∃ l, v !! i = Some l ∧
    ∀ j, j ∈ l ↔ link g0 i j b' ∧ seen k (pre ++ [j0]) i j.
Proof.
  intros Hl Hb Hv i Hi. destruct (Hv i Hi) as (l & Hil & Hj). exists l.
  split; [done|]. intros j. rewrite Hj, seen_snoc. split; [tauto|].
  intros [Hij [?|[-> ->]]]; [tauto|]. by destruct Hb; eapply link_fun.
Qed.

Lemma add_link_spec k pre j b s :
  plan_ok g0 → Built (S k) k pre s → link g0 k j b →
  wp (add_link k j) (λ _ s', Built (S k) k (pre ++ [j]) s') s.
Proof.
  intros Hg HB Hl. pose proof Hl as (d & Hd & Hj).
  assert (edge g0 k j) as He by (by exists b).
  pose proof (plan_closed _ _ _ Hg He) as Hjn. pose proof (edge_lt _ _ _ He) as Hkn.
  destruct (b_lengths _ _ _ _ HB) as [Hbl Hnbl].
  destruct (b_dependents _ _ _ _ HB k Hkn) as (ld & Hld & _).
  destruct (b_consumers _ _ _ _ HB k Hkn) as (lc & Hlc & _).
  assert (getLinkMetadata false k j (query_dag s) = Ok (b, g0)) as Hm.
  { unfold getLinkMetadata, node_getLinkMetadata.
    rewrite (b_dag _ _ _ _ HB), (vec_at_Some _ _ _ Hd). cbn. rewrite Hj.
    by rewrite list_insert_id. }
  destruct b; eapply wp_updates.
  - rewrite Hm. cbn. rewrite (insert_at_lt j k) by lia. cbn.
    by rewrite (push_at_lookup _ _ _ _ Hld).
  - destruct HB; split; try done; cbn; rewrite ?length_insert; try done.
    + by apply sets_added; [lia|..].
    + by apply (table_same _ _ _ _ true).
    + by apply lists_added.
    + by apply (lists_same _ _ _ _ true).
  - rewrite Hm. cbn. rewrite (insert_at_lt j k) by lia. cbn.
    by rewrite (push_at_lookup _ _ _ _ Hlc).
  - destruct HB; split; try done; cbn; rewrite ?length_insert; try done.
    + by apply (table_same _ _ _ _ false).
    + by apply sets_added; [lia|..].
    + by apply (lists_same _ _ _ _ false).
    + by apply lists_added.
Qed.

(** ** The constructor of the base class *)

Lemma root_spec i : plan_ok g0 → root i = true ↔ i < n ∧ ∀ k, ¬ edge g0 k i.
Proof.
  intros Hg. unfold root. destruct (g0 !! i) as [d|] eqn:Hd; cbn.
  - rewrite bool_decide_eq_true. pose proof (lookup_lt_Some _ _ _ Hd).
    split; [|intros [_ He]; apply elem_of_equiv_empty_L; intros k Hk];
      [intros Hdep; split; [done|]; intros k Hk|].
    + apply (plan_wf _ Hg) in Hk as (e & He & Hk). rewrite Hd in He.
      injection He as <-. rewrite Hdep in Hk. set_solver.
    + apply (He k), (plan_wf _ Hg). by exists d.
  - split; [done|]. intros [Hi _]. apply lookup_lt_is_Some_2 in Hi as [d Hd'].
    congruence.
Qed.

(** The part of a node before its links: the rebuild flag and the list of
    operators without dependencies. *)
Lemma add_node_head k d s (Q : unit → QM → Prop) (rest : stateM QM unit) :
  Built k k [] s → g0 !! k = Some d →
  (∀ s', Built (S k) k [] s' → wp rest Q s') →
  wp ((if decide (getInsertDestinationID (payload d) = kInvalidInsertDestinationId)
       then mret tt else exec_updates (setRebuildRequired k)) ;;
      deps ← reads (λ s, getDependencies k (query_dag s));
      (if decide (deps = ∅) then modify (add_non_dependent k) else mret tt) ;;
      rest) Q s.
Proof.
  intros HB Hd HQ. pose proof (lookup_lt_Some _ _ _ Hd) as Hk.
  assert (needs_rebuild g0 k = negb (bool_decide
    (getInsertDestinationID (payload d) = kInvalidInsertDestinationId))) as Hneed
    by (unfold needs_rebuild, dest_of; by rewrite Hd).
  set (s1 := if needs_rebuild g0 k then with_exec (with_rebuild
        (<[k := true]> (rebuild_required (query_exec_state s)))
        (<[k := MkStatus false 0]> (rebuild_status (query_exec_state s)))
        (query_exec_state s)) s else s).
  apply wp_bind.
  apply (wp_mono _ (λ _ s', s' = s1)).
  { unfold s1. rewrite Hneed. case_decide; case_bool_decide; try done; cbn.
    eapply wp_updates; [|done]. unfold setRebuildRequired.
    rewrite vec_set_lt by (by rewrite (b_length _ _ _ _ HB)). cbn.
    pose proof (b_status _ _ _ _ HB k) as Hst. unfold v_status in Hst.
    rewrite decide_False in Hst by lia. by rewrite Hst. }
  intros _ s' ->.
  assert (query_dag s1 = g0) as Hdag
    by (unfold s1; destruct (needs_rebuild g0 k); apply HB).
  apply wp_bind. eapply wp_reads.
  { unfold getDependencies. rewrite Hdag, (vec_at_Some _ _ _ Hd). done. }
  assert (root k = bool_decide (dependencies d = ∅)) as Hroot
    by (unfold root; by rewrite Hd).
  set (s2 := if root k then add_non_dependent k s1 else s1).
  apply wp_bind, (wp_mono _ (λ _ s', s' = s2)).
  { unfold s2. rewrite Hroot. case_decide; case_bool_decide; done. }
  intros _ s' ->. apply HQ.
  assert (query_exec_state s2 = query_exec_state s1) as Hx
    by (unfold s2; by destruct (root k)).
  destruct HB; split;
    try (unfold s2, s1; destruct (root k), (needs_rebuild g0 k); done).
  - rewrite Hx. unfold s1. destruct (needs_rebuild g0 k); [|done].
    cbn. by rewrite length_insert.
  - intros i Hi. rewrite Hx. unfold s1. specialize (b_required0 i Hi).
    destruct (needs_rebuild g0 k) eqn:Hn; cbn.
    + destruct (decide (i = k)) as [->|Hik].
      * rewrite list_lookup_insert_eq by lia. rewrite Hn.
        by rewrite bool_decide_eq_true_2 by lia.
      * rewrite list_lookup_insert_ne, b_required0 by done. do 2 f_equal.
        apply bool_decide_ext. lia.
    + rewrite b_required0. destruct (decide (i = k)) as [->|Hik].
      * by rewrite Hn, !andb_false_r.
      * do 2 f_equal. apply bool_decide_ext. lia.
  - intros i. unfold v_status in *. rewrite Hx. unfold s1. specialize (b_status0 i).
    destruct (needs_rebuild g0 k) eqn:Hn; cbn.
    + destruct (decide (i = k)) as [->|Hik].
      * rewrite lookup_insert_eq, decide_True; [done|]. split; [lia|done].
      * rewrite lookup_insert_ne, b_status0 by done. apply decide_ext.
        split; intros [??]; split; done || lia.
    + rewrite b_status0. apply decide_ext.
      destruct (decide (i = k)) as [->|Hik]; [rewrite Hn; naive_solver|].
      split; intros [??]; split; done || lia.
  - rewrite seq_S, filter_app, <- b_roots0, Nat.add_0_l. unfold s2.
    destruct (root k) eqn:Hr.
    + rewrite filter_cons_True by done. unfold s1. by destruct (needs_rebuild g0 k).
    + rewrite filter_cons_False by (by rewrite Hr). rewrite app_nil_r.
      unfold s1. by destruct (needs_rebuild g0 k).
Qed.

Lemma add_node_spec k s :
  plan_ok g0 → Built k k [] s → k < n →
  wp (add_node k) (λ _ s', Built (S k) (S k) [] s') s.
Proof.
  intros Hg HB Hk. destruct (lookup_lt_is_Some_2 g0 k Hk) as [d Hd].
  apply wp_bind. eapply wp_reads.
  { unfold getNodePayload. by rewrite (b_dag _ _ _ _ HB), (vec_at_Some _ _ _ Hd). }
  apply (add_node_head k d s); [done|done|]. intros s1 HB1.
  apply wp_bind. eapply wp_reads.
  { unfold getDependents. by rewrite (b_dag _ _ _ _ HB1), (vec_at_Some _ _ _ Hd). }
  set (l := map_iter _).
  assert (∀ j b, (j, b) ∈ l ↔ link g0 k j b) as Hl.
  { intros j b. unfold l. rewrite elem_of_map_iter. unfold link.
    split; [by exists d|]. intros (d' & ? & ?). congruence. }
  eapply wp_mono.
  - apply (wp_for_each _ l (λ pre _ s', Built (S k) k (pre.*1) s')); [done|].
    intros pre [j b] rest s2 Heq HB2. rewrite fmap_app. cbn.
    apply (add_link_spec k (pre.*1) j b); [done|done|]. apply Hl.
    rewrite Heq, elem_of_app. right. left.
  - intros ? s2 HB2.
    assert (∀ i j b, link g0 i j b → seen k (l.*1) i j ↔ seen (S k) [] i j) as Hseen.
    { intros i j b Hij. unfold seen. rewrite elem_of_nil. split; [lia|].
      intros [Hi|[_ []]]. destruct (decide (i = k)) as [->|]; [|lia]. right.
      split; [done|]. apply list_elem_of_fmap. exists (j, b). by rewrite Hl. }
    destruct HB2; split; try done.
    + intros j i. rewrite b_blocking0. pose proof (Hseen i j true). tauto.
    + intros j i. rewrite b_non_blocking0. pose proof (Hseen i j false). tauto.
    + intros i Hi. destruct (b_dependents0 i Hi) as (v & Hv & Hj). exists v.
      split; [done|]. intros j. rewrite Hj. pose proof (Hseen i j true). tauto.
    + intros i Hi. destruct (b_consumers0 i Hi) as (v & Hv & Hj). exists v.
      split; [done|]. intros j. rewrite Hj. pose proof (Hseen i j false). tauto.
Qed.

Lemma base_spec e :
  plan_ok g0 →
  wp (QueryManagerBase n) (λ _ s, Built n n [] s) (initial m g0 e).
Proof.
  intros Hg.
  assert (∀ k s, Built (n - k) (n - k) [] s → k ≤ n →
    wp (for_each add_node (seq (n - k) k)) (λ _ s', Built n n [] s') s) as H.
  { induction k as [|k IH]; intros s HB Hk.
    - cbn. apply wp_ret. by rewrite Nat.sub_0_r in HB.
    - cbn [seq for_each]. apply wp_bind. eapply wp_mono; [apply add_node_spec; [done..|lia]|].
      intros ? s' HB'. replace (S (n - S k)) with (n - k) in HB' |- * by lia.
      apply IH; [done|lia]. }
  unfold QueryManagerBase. replace (seq 0 n) with (seq (n - n) n)
    by (by rewrite Nat.sub_diag).
  apply H; [|lia]. rewrite Nat.sub_diag.
  assert (∀ i j, ¬ seen 0 [] i j) as Hs.
  { intros i j [?|[_ ?]]; [lia|set_solver]. }
  split; try done; try (cbn; rewrite ?length_replicate; done).
  - intros i Hi. cbn [initial query_exec_state new_QueryExecutionState rebuild_required].
    unfold dag_size. rewrite lookup_replicate_2 by done. by rewrite bool_decide_eq_false_2 by lia.
  - intros j i. unfold v_blocking. cbn.
    unfold dag_size. destruct (replicate n ∅ !! j) as [v|] eqn:Hv.
    + apply lookup_replicate in Hv as [-> _]. specialize (Hs i j). set_solver.
    + specialize (Hs i j). set_solver.
  - intros j i. unfold v_non_blocking. cbn.
    unfold dag_size. destruct (replicate n ∅ !! j) as [v|] eqn:Hv.
    + apply lookup_replicate in Hv as [-> _]. specialize (Hs i j). set_solver.
    + specialize (Hs i j). set_solver.
  - intros i Hi. exists []. cbn. unfold dag_size.
    rewrite lookup_replicate_2 by done. split; [done|].
    intros j. specialize (Hs i j). set_solver.
  - intros i Hi. exists []. cbn. unfold dag_size.
    rewrite lookup_replicate_2 by done. split; [done|].
    intros j. specialize (Hs i j). set_solver.
Qed.

(** ** The constructor of the derived class *)

Lemma filter_replicate_false k : filter (eq true) (replicate k false) = [].
Proof. by induction k. Qed.

Lemma default_replicate {A} (x : A) k i : default x (replicate k x !! i) = x.
Proof.
  destruct (replicate k x !! i) as [y|] eqn:Hy; [|done].
  by apply lookup_replicate in Hy as [-> _].
Qed.

Lemma built_wf s : plan_ok g0 → Built n n [] s → Wf m g0 s.
Proof using OperatorContract0.
  intros Hg HB. pose proof (new_woc_wf (W:=W) n m) as Hc.
  assert (∀ i j b, link g0 i j b → seen n [] i j) as Hseen.
  { intros i j b Hl. left. eapply edge_lt. by exists b. }
  destruct HB; split; rewrite ?b_dag0, ?b_container0, ?b_queued0, ?b_done0,
    ?b_finished0, ?length_replicate; try done; try apply b_lengths0.
  - apply same_plan_refl, Hg.
  - intros i Hi. rewrite b_required0 by done. by rewrite bool_decide_eq_true_2.
  - intros i. rewrite b_status0. case_decide; rewrite is_Some_alt; naive_solver.
  - intros i Hi. destruct (b_dependents0 i Hi) as (l & Hl & Hj). exists l.
    split; [done|]. intros j. rewrite Hj. specialize (Hseen i j true). tauto.
  - intros i Hi. destruct (b_consumers0 i Hi) as (l & Hl & Hj). exists l.
    split; [done|]. intros j. rewrite Hj. specialize (Hseen i j false). tauto.
Qed.

Lemma built_inv s :
  plan_ok g0 → Built n n [] s →
  Inv g0 none nobody (λ i, i ∈ filter (λ i, root i = true) (seq 0 n)) (λ _, 0) 0 s.
Proof.
  intros Hg HB. pose proof (built_wf s Hg HB) as Hwf.
  pose proof (new_pending (W:=W) n m) as Hpend.
  assert (∀ i, v_finished s i = false) as Hf
    by (intros i; unfold v_finished; by rewrite (b_finished _ _ _ _ HB), default_replicate).
  assert (∀ i, v_done s i = false) as Hd
    by (intros i; unfold v_done; by rewrite (b_done _ _ _ _ HB), default_replicate).
  assert (∀ i, v_queued s i = 0%N) as Hq
    by (intros i; unfold v_queued; by rewrite (b_queued _ _ _ _ HB), default_replicate).
  assert (∀ i, v_normal s i = [] ∧ v_rebuild s i = []) as Hnr.
  { intros i. unfold v_normal, v_rebuild, normal_of, rebuild_of.
    rewrite (b_container _ _ _ _ HB). unfold pending in Hpend.
    pose proof (f_equal fst Hpend) as H1. pose proof (f_equal snd Hpend) as H2.
    cbn [fst snd] in H1, H2. by rewrite H1, H2. }
  assert (∀ i, v_initiated s i = false) as Hini.
  { intros i. pose proof (b_status _ _ _ _ HB i) as Hs.
    unfold v_initiated, hasRebuildInitiated. unfold v_status in Hs. rewrite Hs.
    by case_decide. }
  assert (∀ i, idle (λ _, 0) s i) as Hidle
    by (intros i; destruct (Hnr i); by unfold idle).
  assert (∀ i j b, link g0 i j b → seen n [] i j) as Hseen.
  { intros i j b Hl. left. eapply edge_lt. by exists b. }
  split; try done.
  - intros j k. rewrite (b_blocking _ _ _ _ HB), Hf. specialize (Hseen k j true). tauto.
  - intros j k. rewrite (b_non_blocking _ _ _ _ HB), Hf. specialize (Hseen k j false). tauto.
  - by rewrite (b_count _ _ _ _ HB), (b_finished _ _ _ _ HB), filter_replicate_false.
  - intros i. by rewrite Hq.
  - intros i. by rewrite Hd.
  - intros j r. unfold v_await, awaits. rewrite (b_dag _ _ _ _ HB).
    split; [|by intros [? _]]. intros Hr. split; [done|].
    intros (k & _ & _ & _ & Hk & _). by rewrite Hf in Hk.
  - intros i k [Hw|Hw]; [by destruct (Hnr i)|by rewrite Hq in Hw].
  - intros i. by rewrite Hf.
  - intros i. rewrite Hini. split; [apply Hnr|split; [done|]].
    pose proof (b_status _ _ _ _ HB i) as Hs.
    unfold v_rebuilds, getNumRebuildWorkOrders_es. unfold v_status in Hs. rewrite Hs.
    by case_decide.
  - intros _ i Hi _ HU _ Hr. destruct HU. apply list_elem_of_filter.
    split; [|apply elem_of_seq; lia]. apply root_spec; [done|]. split; [done|].
    intros k Hk. destruct (Hr k Hk). by rewrite Hf in *.
  - intros i [Hr Hi]%list_elem_of_filter. apply root_spec in Hr as [? ?]; [|done].
    auto 10.
Qed.

Lemma roots_spec s :
  plan_ok g0 → Built n n [] s →
  wp (QueryManagerSingleNode (S n)) (λ _ s', Good g0 (λ _, 0) 0 s') s.
Proof.
  intros Hg HB. apply wp_bind, wp_gets. rewrite (b_roots _ _ _ _ HB).
  set (l := filter _ _). eapply wp_mono.
  - apply (wp_for_each _ l (λ _ rest s', Inv g0 none nobody (λ i, i ∈ rest) (λ _, 0) 0 s')).
    { by apply built_inv. }
    intros pre i rest s1 Hl HI.
    assert (NoDup (i :: rest)) as [Hnot _]%NoDup_cons.
    { eapply (NoDup_app pre). rewrite <- Hl. apply NoDup_filter, NoDup_seq. }
    destruct (inv_fresh _ _ _ _ _ _ _ HI i) as (Hi & Hno & Hf & Hd & Hini & Hid); [left|].
    assert (Inv g0 none (only i) (λ i, i ∈ rest) (λ _, 0) 0 s1) as HI1.
    { destruct HI; split; try done.
      - intros Hlive j Hj Hji HU. apply (inv_live Hlive j Hj); [by intros []|].
        set_solver.
      - intros j HU. apply inv_fresh. by right. }
    assert (v_blocking s1 i = ∅) as Hb.
    { apply elem_of_equiv_empty_L. intros k [Hk _]%(inv_blocking _ _ _ _ _ _ _ HI).
      apply (Hno k). by exists true. }
    apply wp_bind. eapply fetch_spec; [apply HI1|done|]. intros b d s2 He Hprompt.
    pose proof (fetch_keeps _ _ _ _ _ _ _ _ _ _ _ Hg HI1 He eq_refl Hnot Hb Hd Hf) as HI2.
    specialize (HI2 (λ k _ _, False_ind _)).
    assert (ready g0 none s2 i) as Hready by (intros k Hk; by apply Hno in Hk).
    pose proof (fe_result _ _ _ _ _ _ He) as Hres.
    destruct b.
    + apply wp_ret, (settle _ _ _ _ _ _ i HI2). intros Hlive _ _.
      split; [|by left]. rewrite (fe_done _ _ _ _ _ _ He), bool_decide_eq_true_2 by done.
      rewrite Hprompt; [by rewrite orb_true_r|apply Hlive|].
      rewrite <- (fe_await _ _ _ _ _ _ He). by eapply ready_complete.
    + destruct (plan_rank _ Hg) as [rank Hrank].
      assert (marks g0 (markOperatorFinished (S n) i) none (λ i, i ∈ rest)
                (λ _, 0) 0 i) as Hmark
        by (eapply (mark_spec _ rank); eauto; [lia|by intros k j []]).
      eapply wp_mono; [apply (Hmark _ HI2)|].
      * by rewrite (fe_finished _ _ _ _ _ _ He).
      * destruct Hid as (Hn & Hq & Hr & _). unfold idle.
        rewrite (fe_queued _ _ _ _ _ _ He), (fe_rebuild _ _ _ _ _ _ He).
        split; [|done]. rewrite Hn in Hres. by apply Permutation_nil.
      * done.
      * by intros ? s3 [HI3 _].
  - intros ? s' HI. destruct HI; split; try done.
    + intros Hl j Hj _ _. apply (inv_live Hl j Hj); [by intros []|set_solver].
Qed.

Lemma new_spec e :
  plan_ok g0 →
  ∃ s, new_QueryManager (S n) m g0 e = Ok s ∧ Good g0 (λ _, 0) 0 s.
Proof.
  intros Hg. unfold new_QueryManager.
  assert (wp (QueryManagerBase n ;; QueryManagerSingleNode (S n))
    (λ _ s, Good g0 (λ _, 0) 0 s) (initial m g0 e)) as H.
  { apply wp_bind. eapply wp_mono; [by apply base_spec|]. intros ? s HB.
    by apply roots_spec. }
  apply wp_Ok in H as ([] & s & Hs & HG). unfold dag_size. rewrite Hs. by exists s.
Qed.
End construction.
