(* ===== verification/QueryManagerTheorems.v ===== *)
(** * What the scheduling of a query guarantees

    The states a query manager reaches when it dispatches work orders and
    handles the messages of the workers, and the properties of all of them:
    no handler fails, operators finish once and in the order of their
    dependencies, and a query does not get stuck.  A concrete plan outside
    [plan_ok] shows an operator that finishes twice. *)

From S2P Require Import Prelude StateMonad WorkOrdersContainer.
From S2P Require Import WorkOrdersScheduling DAG QueryExecutionState QueryManager.
From S2P Require Import QueryManagerViews QueryManagerInv QueryManagerHandlers.
From S2P Require Import QueryManagerRun.
From stdpp Require Import options.

Section runs.
Context {Op W E F B : Type} `{!WorkOrder W} `{!RelationalOperator Op W E F B}.
Context `{!HashOrder (nat * bool)} (m : nat) `{!OperatorContract Op W E F B m}.
Abbreviation QM := (QueryManager Op W E).
Context (g0 : DAG Op bool).
Abbreviation n := (length g0).

(** The depth of the recursive calls of [markOperatorFinished] is bounded by
    the number of operators. *)
Definition depth : nat := S (length g0).

(** A work order of operator [i] is in execution: a normal one by the
    manager's own counter, a rebuild one by [ro]. *)
Definition executing (ro : nat → nat) (s : QM) (i : nat) : Prop :=
  v_queued s i ≠ 0%N ∨ ro i ≠ 0.

(** The states reached after [t] steps.  A completion, feedback or data
    pipeline message comes from a work order in execution; between two
    messages the workers change what the operators read. *)
Inductive reachable : QM → (nat → nat) → nat → Prop :=
| reach_new e s :
    new_QueryManager depth m g0 e = Ok s → reachable s (λ _, 0) 0
| reach_dispatch s ro t o s' :
    reachable s ro t → getNextWorkerMessage s = Ok (o, s') →
    reachable s' (dispatched o ro) (S t)
| reach_complete s ro t i s' :
    reachable s ro t → v_queued s i ≠ 0%N →
    processWorkOrderCompleteMessage depth i s = Ok (tt, s') →
    reachable s' ro (S t)
| reach_rebuild_complete s ro t i s' :
    reachable s ro t → ro i ≠ 0 →
    processRebuildWorkOrderCompleteMessage depth i s = Ok (tt, s') →
    reachable s' (upd ro i (ro i - 1)) (S t)
| reach_pipeline s ro t i block rel part s' :
    reachable s ro t → executing ro s i → consumers_accept g0 i rel part →
    processDataPipelineMessage i block rel part s = Ok (tt, s') →
    reachable s' ro (S t)
| reach_feedback s ro t i f s' :
    reachable s ro t → v_queued s i ≠ 0%N → operator_hears g0 i f →
    processFeedbackMessage i f s = Ok (tt, s') →
    reachable s' ro (S t)
| reach_workers s ro t e :
    reachable s ro t → reachable (with_context e s) ro (S t).

Lemma executing_lt ro t s i : Good g0 ro t s → executing ro s i → i < n.
Proof.
  intros HI [Hq|Hr]; [by eapply queued_lt; [apply HI|]|].
  pose proof (inv_rebuild _ _ _ _ _ _ _ HI i) as H.
  apply (wf_status _ _ (inv_wf _ _ _ _ _ _ _ HI)).
  unfold v_initiated, hasRebuildInitiated in H. unfold v_status.
  destruct (rebuild_status _ !! i); [done|naive_solver].
Qed.

Lemma wp_elim {A} (p : stateM QM A) Q s a s' : wp p Q s → p s = Ok (a, s') → Q a s'.
Proof. unfold wp. intros H Hp. by rewrite Hp in H. Qed.

Lemma reachable_good s ro t :
  plan_ok g0 → reachable s ro t → (N.of_nat t < 2 ^ 64)%N → Good g0 ro (N.of_nat t) s.
Proof.
  intros Hg. induction 1 as [e s Hs|s ro t o s' _ IH Hs|s ro t i s' _ IH Hq Hs
    |s ro t i s' _ IH Hr Hs|s ro t i b r p s' _ IH He Ha Hs|s ro t i f s' _ IH Hq Ha Hs
    |s ro t e _ IH]; intros Ht.
  - destruct (new_spec g0 e Hg) as (s' & Hs' & HI). unfold depth in Hs.
    rewrite Hs in Hs'. by injection Hs' as <-.
  - rewrite Nat2N.inj_succ, <- N.add_1_r in *.
    assert (Good g0 ro (N.of_nat t) s) as HI by (apply IH; lia).
    by destruct (wp_elim _ _ _ _ _ (dispatch_spec g0 ro _ s HI Ht) Hs).
  - assert (Good g0 ro (N.of_nat t) s) as HI by (apply IH; lia).
    destruct (wp_elim _ _ _ _ _ (complete_spec g0 ro _ s i Hg HI Hq) Hs) as [HI' _].
    eapply Good_mono; [done|lia].
  - assert (Good g0 ro (N.of_nat t) s) as HI by (apply IH; lia).
    destruct (wp_elim _ _ _ _ _ (rebuild_complete_spec g0 ro _ s i Hg HI Hr) Hs) as [HI' _].
    eapply Good_mono; [done|lia].
  - assert (Good g0 ro (N.of_nat t) s) as HI by (apply IH; lia).
    destruct (wp_elim _ _ _ _ _ (pipeline_spec g0 ro _ s i b r p Hg HI
      (executing_lt _ _ _ _ HI He) (busy_unfinished _ _ _ _ _ HI He) Ha) Hs) as [HI' _].
    eapply Good_mono; [done|lia].
  - assert (Good g0 ro (N.of_nat t) s) as HI by (apply IH; lia).
    destruct (wp_elim _ _ _ _ _ (feedback_spec g0 ro _ s i f Hg HI Hq Ha) Hs) as [HI' _].
    eapply Good_mono; [done|lia].
  - eapply Good_mono; [apply context_keeps, IH; lia|lia].
Qed.

Lemma all_true_count (l : list bool) :
  length (filter (eq true) l) = length l ↔ ∀ i, i < length l → l !! i = Some true.
Proof.
  induction l as [|b l IH]; [split; [intros _ i Hi; cbn in Hi; lia|done]|].
  pose proof (count_le l) as Hle. rewrite filter_cons. destruct (decide (true = b)) as [<-|Hb].
  - cbn [length]. split.
    + intros [= H] [|i] Hi; [done|]. apply IH; [done|lia].
    + intros H. f_equal. apply IH. intros i Hi. apply (H (S i)). lia.
  - cbn [length]. split; [lia|]. intros H. specialize (H 0). cbn in H.
    destruct Hb. assert (Some b = Some true) as [=]; [apply H; lia|done].
Qed.

Lemma query_finished_iff ro t s :
  plan_ok g0 → Good g0 ro t s →
  hasQueryExecutionFinished (query_exec_state s) = true ↔
  ∀ i, i < n → v_finished s i = true.
Proof.
  intros Hg HI. pose proof (inv_wf _ _ _ _ _ _ _ HI) as Hwf.
  unfold hasQueryExecutionFinished.
  rewrite N.eqb_eq, (inv_count _ _ _ _ _ _ _ HI), (wf_es _ _ Hwf).
  rewrite <- (wf_finished _ _ Hwf). rewrite Nat2N.inj_iff, all_true_count.
  unfold v_finished. split; intros H i Hi; [by rewrite H|].
  destruct (lookup_lt_is_Some_2 (execution_finished (query_exec_state s)) i Hi)
    as [b Hb]. specialize (H i Hi). rewrite Hb in *. cbn in H. congruence.
Qed.

(** With nothing pending and nothing in execution every operator has
    finished: by induction along the plan. *)
Lemma quiet_finished ro t s :
  plan_ok g0 → live g0 → Good g0 ro t s → (∀ i, ¬ executing ro s i) →
  (∀ i, v_normal s i = [] ∧ v_rebuild s i = []) →
  ∀ i, i < n → v_finished s i = true.
Proof.
  intros Hg Hl HI Hno Hnil. destruct (plan_rank _ Hg) as [rank Hrank]. intros i.
  induction i as [i IH] using (induction_ltof1 _ rank). unfold ltof in IH.
  intros Hi. destruct (v_finished s i) eqn:Hf; [done|exfalso].
  assert (ready g0 (λ _ _, False) s i) as Hready.
  { intros k Hk. split; [|by intros []]. apply IH; [by apply Hrank|by eapply edge_lt]. }
  destruct (inv_live _ _ _ _ _ _ _ HI Hl i Hi) as [_ Hb]; try (by intros []); try done.
  destruct (Hnil i) as [Hn Hr].
  destruct (Hno i). pose proof (inv_rebuild _ _ _ _ _ _ _ HI i) as Hreb.
  destruct Hb as [?|[?|Hb]]; [done|by left|]. right. intros Hro.
  destruct (v_initiated s i); [|naive_solver].
  destruct Hreb as (_ & _ & _ & Hnum & _). rewrite Hr, Hro in Hnum. done.
Qed.

(** ** Properties *)

(** C14. For a plan that satisfies [plan_ok] (it is acyclic, its operators keep
    their contract, what a streamed dependency writes is awaited and written by
    no other dependency, and a pipeline breaker is awaited likewise or is the only
    way between the two operators; see [bypassed_operator_finishes_twice] for
    what happens otherwise), the construction of the manager ends in a value, and so does every handler in
    every reachable state, for a message that comes from a work order in
    execution and carries a block its consumers accept or feedback its operator
    understands: [markOperatorFinished] ends (its recursion is no deeper than
    the number of operators), no [CHECK] fails and no container is read out
    of range. *)
Theorem query_manager_total s ro t e i block rel part f :
  plan_ok g0 → reachable s ro t → (N.of_nat t + 1 < 2 ^ 64)%N →
  (∃ s0, new_QueryManager depth m g0 e = Ok s0) ∧
  (∃ o s', getNextWorkerMessage s = Ok (o, s')) ∧
  (v_queued s i ≠ 0%N →
     ∃ s', processWorkOrderCompleteMessage depth i s = Ok (tt, s')) ∧
  (ro i ≠ 0 →
     ∃ s', processRebuildWorkOrderCompleteMessage depth i s = Ok (tt, s')) ∧
  (executing ro s i → consumers_accept g0 i rel part →
     ∃ s', processDataPipelineMessage i block rel part s = Ok (tt, s')) ∧
  (v_queued s i ≠ 0%N → operator_hears g0 i f →
     ∃ s', processFeedbackMessage i f s = Ok (tt, s')).
Proof.
  intros Hg Hs Ht. assert (Good g0 ro (N.of_nat t) s) as HI
    by (apply reachable_good; [done|done|lia]).
  split_and!.
  - destruct (new_spec g0 e Hg) as (s0 & H & _). by exists s0.
  - destruct (proj1 (wp_Ok _ _ _) (dispatch_spec g0 ro _ s HI Ht)) as (o & s' & H & _).
    eauto.
  - intros Hq. destruct (proj1 (wp_Ok _ _ _) (complete_spec g0 ro _ s i Hg HI Hq))
      as ([] & s' & H & _). eauto.
  - intros Hr. destruct (proj1 (wp_Ok _ _ _) (rebuild_complete_spec g0 ro _ s i Hg HI Hr))
      as ([] & s' & H & _). eauto.
  - intros He Ha. destruct (proj1 (wp_Ok _ _ _) (pipeline_spec g0 ro _ s i block rel part Hg HI
      (executing_lt _ _ _ _ HI He) (busy_unfinished _ _ _ _ _ HI He) Ha))
      as ([] & s' & H & _). eauto.
  - intros Hq Ha. destruct (proj1 (wp_Ok _ _ _) (feedback_spec g0 ro _ s i f Hg HI Hq Ha))
      as ([] & s' & H & _). eauto.
Qed.

(** C15. For a plan that satisfies [plan_ok], the status of a query is exact in
    every state reached in fewer than [2 ^ 64] steps: it is
    [kQueryExecuted] when and only when every operator has finished (each is
    counted once), and otherwise [kOperatorExecuted] says that the operator
    asked about has finished.  An operator that has finished has no work order
    pending or in execution, and all its dependencies have finished. *)
Theorem query_status_exact s ro t i :
  plan_ok g0 → reachable s ro t → (N.of_nat t < 2 ^ 64)%N → i < n →
  (∃ c, queryStatus i s = Ok (c, s) ∧
    (c = kQueryExecuted ↔ ∀ j, j < n → v_finished s j = true) ∧
    (c = kOperatorExecuted → v_finished s i = true) ∧
    (c = kNone → v_finished s i = false)) ∧
  (v_finished s i = true →
    v_normal s i = [] ∧ v_rebuild s i = [] ∧ ¬ executing ro s i ∧
    ∀ k, edge g0 k i → v_finished s k = true).
Proof.
  intros Hg Hs Ht Hi. pose proof (reachable_good s ro t Hg Hs Ht) as HI.
  pose proof (query_finished_iff ro _ s Hg HI) as Hq. split.
  - unfold queryStatus, exec_reads, reads, hasExecutionFinished.
    rewrite (vec_at_default false)
      by (by rewrite (wf_finished _ _ (inv_wf _ _ _ _ _ _ _ HI))).
    fold (v_finished s i). cbn.
    destruct (hasQueryExecutionFinished (query_exec_state s));
      [|destruct (v_finished s i) eqn:Hf]; eexists; (split; [reflexivity|]); naive_solver.
  - intros Hf. apply (inv_finished _ _ _ _ _ _ _ HI) in Hf as [(?&?&?&?) Hr].
    unfold executing. split_and!; [done|done|naive_solver|]. intros k Hk.
    by destruct (Hr k Hk).
Qed.

(** C16. Dependencies order the execution: for a plan that satisfies [plan_ok],
    in every state reached in fewer than [2 ^ 64] steps, a normal work order is handed out only for an operator that has not finished and
    whose pipeline-breaking dependencies have all finished, and a rebuild work
    order only when all its dependencies have finished and it has generated
    all its normal work orders. *)
Theorem work_orders_respect_dependencies s ro t w i is_rebuild s' :
  plan_ok g0 → reachable s ro t → (N.of_nat t + 1 < 2 ^ 64)%N →
  getNextWorkerMessage s = Ok (Some (w, i, is_rebuild), s') →
  v_finished s i = false ∧
  (∀ k, link g0 k i true → v_finished s k = true) ∧
  (is_rebuild = true →
     v_done s i = true ∧ ∀ k, edge g0 k i → v_finished s k = true).
Proof.
  intros Hg Hs Ht Hm. assert (Good g0 ro (N.of_nat t) s) as HI
    by (apply reachable_good; [done|done|lia]).
  destruct (wp_elim _ _ _ _ _ (dispatch_spec g0 ro _ s HI Ht) Hm) as (_ & _ & H).
  destruct is_rebuild; [|by destruct H].
  destruct H as (Hd & Hr & Hf). split_and!; try done.
  - intros k Hk. destruct (Hr k); [by exists true|done].
  - intros _. split; [done|]. intros k Hk. by destruct (Hr k Hk).
Qed.

(** C17. A query does not get stuck: for a plan that satisfies [plan_ok] and is
    [live] (operators generate their work orders as soon as their inputs are
    complete and wait only for what their dependencies write), a reachable state with nothing in execution and nothing to hand out is one
    where every operator has finished. *)
Theorem query_never_stuck s ro t s' :
  plan_ok g0 → live g0 → reachable s ro t → (N.of_nat t + 1 < 2 ^ 64)%N →
  (∀ i, ¬ executing ro s i) → getNextWorkerMessage s = Ok (None, s') →
  hasQueryExecutionFinished (query_exec_state s) = true.
Proof.
  intros Hg Hl Hs Ht Hno Hm. assert (Good g0 ro (N.of_nat t) s) as HI
    by (apply reachable_good; [done|done|lia]).
  destruct (wp_elim _ _ _ _ _ (dispatch_spec g0 ro _ s HI Ht) Hm) as (_ & _ & Hnil).
  apply (query_finished_iff ro _ s Hg HI). by eapply quiet_finished.
Qed.
End runs.

(** ** A concrete query *)

(** An operator that generates all its work orders once the relations it
    waits for are complete. *)
Record sample_op := SampleOp {
  so_work : list nat;
  so_awaits : gset Z;
  so_output : Z;
  so_destination : Z;
}.

(** The context says whether there is a partially filled block. *)
#[global] Instance sample_operator :
    RelationalOperator sample_op plain_order bool unit nat := {|
  getAllWorkOrders op e :=
    if decide (so_awaits op = ∅)
    then Ok ((λ k, Plain k []) <$> so_work op, true,
          SampleOp [] ∅ (so_output op) (so_destination op), e)
    else Ok ([], false, op, e);
  feedInputBlock _ _ _ op := Ok op;
  doneFeedingInputBlocks r op :=
    Ok (SampleOp (so_work op) (so_awaits op ∖ {[r]}) (so_output op) (so_destination op));
  receiveFeedbackMessage _ op := Ok op;
  updateCatalogOnCompletion _ e := e;
  getInsertDestinationID := so_destination;
  getOutputRelationID := so_output;
  getPartiallyFilledBlocks _ e := (if e : bool then [(7, 0)] else [], false);
  newRebuildWorkOrder b i _ _ := Plain (100 + b + i) [];
|}.

#[global] Instance sample_contract :
    OperatorContract sample_op plain_order bool unit nat 1.
Proof.
  refine {| awaiting := so_awaits; op_ok := λ _, True; accepts := λ _ _ _, True;
            ends := λ _ _, True; hears := λ _ _, True |}; try done.
  - intros op e _. cbn. case_decide as H; do 4 eexists; (split; [done|]).
    + split_and!; [done..|]. by induction (so_work op).
    + split_and!; done.
  - intros b r p op _ _. by exists op.
  - intros r op _ _. by eexists.
  - intros f op _ _. by exists op.
  - intros d []; done.
Defined.

#[global] Instance sample_order : HashOrder (nat * bool) := reverse_order _.

(** Operator 0 streams its output to 1, which breaks the pipeline to 2. *)
Definition sample_plan : DAG sample_op bool :=
  [MkNode (SampleOp [1; 2] ∅ 5 0) ∅ {[1 := false]};
   MkNode (SampleOp [3] {[5%Z]} 6 (-1)) {[0]} {[2 := true]};
   MkNode (SampleOp [4] {[6%Z]} (-1) (-1)) {[1]} ∅].

Lemma sample_link i j b :
  link sample_plan i j b ↔ (i = 0 ∧ j = 1 ∧ b = false) ∨ (i = 1 ∧ j = 2 ∧ b = true).
Proof.
  split.
  - intros (d & Hd & Hj). destruct i as [|[|[|i]]]; cbn in Hd; simplify_eq/=.
    + apply lookup_singleton_Some in Hj. naive_solver.
    + apply lookup_singleton_Some in Hj. naive_solver.
  - by intros [(-> & -> & ->)|(-> & -> & ->)]; eexists.
Qed.

Lemma sample_edge i j : edge sample_plan i j ↔ j = S i ∧ i < 2.
Proof.
  unfold edge. setoid_rewrite sample_link. split; [naive_solver lia|].
  intros [-> Hi]. destruct i as [|[|i]]; [exists false|exists true|lia]; auto.
Qed.

Lemma sample_plan_ok : plan_ok sample_plan.
Proof.
  assert (∀ i j, edge sample_plan i j → awaited sample_plan i j) as Haw.
  { intros i j [-> Hi]%sample_edge. split_and!.
    - destruct i as [|[|i]]; cbn; lia.
    - destruct i as [|[|i]]; [| |lia]; cbn; set_solver.
    - intros k [Hk _]%sample_edge _. lia. }
  split.
  - intros i j. rewrite sample_edge. split.
    + intros [-> Hi]. destruct i as [|[|i]]; [| |lia]; eexists; split; [done|set_solver| done|set_solver].
    + intros (e & He & Hi). destruct j as [|[|[|j]]]; cbn in He; simplify_eq/=; set_solver by lia.
  - exists id. intros i j [-> Hi]%sample_edge. cbn. lia.
  - done.
  - done.
  - done.
  - intros i j Hl. apply Haw. by exists false.
  - intros i j Hl. left. apply Haw. by exists true.
Qed.

Lemma sample_live : live sample_plan.
Proof.
  split.
  - intros op e ws d op' e' _. cbn. case_decide; [by intros [= _ <- _ _]|done].
  - intros j r Hr. destruct j as [|[|[|j]]]; cbn in Hr; try set_solver.
    + apply elem_of_singleton in Hr as ->. split; [done|]. exists 0.
      rewrite sample_edge. split; [lia|done].
    + apply elem_of_singleton in Hr as ->. split; [done|]. exists 1.
      rewrite sample_edge. split; [lia|done].
Qed.

Abbreviation SQ := (QueryManager sample_op plain_order bool).

(** The state after a computation that ends in a value. *)
Definition after {A} (p : stateM SQ A) (s : SQ) : SQ :=
  match p s with Ok (_, s') => s' | Err _ => s end.
Definition start_of (g : DAG sample_op bool) : SQ :=
  match new_QueryManager (depth g) 1 g true with
  | Ok s => s
  | Err _ => initial 1 g true
  end.

Definition sample_start : SQ := start_of sample_plan.
Definition sample_dispatched : SQ := after getNextWorkerMessage sample_start.
Abbreviation complete i := (processWorkOrderCompleteMessage (depth sample_plan) i).
Definition sample_half : SQ := after (complete 0) sample_dispatched.
Definition sample_second : SQ := after getNextWorkerMessage sample_half.
Definition sample_waiting : SQ := after (complete 0) sample_second.
Definition sample_rebuilding : SQ := after getNextWorkerMessage sample_waiting.
Definition sample_streamed : SQ :=
  after (processRebuildWorkOrderCompleteMessage (depth sample_plan) 0) sample_rebuilding.
Definition sample_third : SQ := after getNextWorkerMessage sample_streamed.
Definition sample_broken : SQ := after (complete 1) sample_third.
Definition sample_fourth : SQ := after getNextWorkerMessage sample_broken.
Definition sample_finished : SQ := after (complete 2) sample_fourth.

(** The steps of the run above. *)
Ltac sample_step := first [by vm_compute | vm_compute; reflexivity].

Lemma sample_reach_dispatched : reachable 1 sample_plan sample_dispatched (λ _, 0) 1.
Proof.
  apply (reach_dispatch _ _ sample_start (λ _, 0) 0 (Some (Plain 1 [], 0, false)));
    [|sample_step].
  apply (reach_new _ _ true). sample_step.
Qed.

Lemma sample_reach_waiting : reachable 1 sample_plan sample_waiting (λ _, 0) 4.
Proof.
  apply (reach_complete _ _ sample_second _ 3 0); [|sample_step..].
  apply (reach_dispatch _ _ sample_half (λ _, 0) 2 (Some (Plain 2 [], 0, false)));
    [|sample_step].
  apply (reach_complete _ _ sample_dispatched _ 1 0); [|sample_step..].
  exact sample_reach_dispatched.
Qed.

Lemma sample_reach_streamed :
  reachable 1 sample_plan sample_streamed (upd (upd (λ _, 0) 0 1) 0 0) 6.
Proof.
  apply (reach_rebuild_complete _ _ sample_rebuilding (upd (λ _, 0) 0 1) 5 0);
    [|sample_step..].
  apply (reach_dispatch _ _ sample_waiting (λ _, 0) 4 (Some (Plain 107 [], 0, true)));
    [exact sample_reach_waiting|sample_step].
Qed.

Lemma sample_reach_finished :
  reachable 1 sample_plan sample_finished (upd (upd (λ _, 0) 0 1) 0 0) 10.
Proof.
  apply (reach_complete _ _ sample_fourth _ 9 2); [|sample_step..].
  apply (reach_dispatch _ _ sample_broken (upd (upd (λ _, 0) 0 1) 0 0) 8
    (Some (Plain 4 [], 2, false))); [|sample_step].
  apply (reach_complete _ _ sample_third _ 7 1); [|sample_step..].
  apply (reach_dispatch _ _ sample_streamed (upd (upd (λ _, 0) 0 1) 0 0) 6
    (Some (Plain 3 [], 1, false))); [exact sample_reach_streamed|sample_step].
Qed.

Lemma query_manager_total_witness :
  v_queued sample_dispatched 0 ≠ 0%N ∧
  ∃ s', complete 0 sample_dispatched = Ok (tt, s').
Proof.
  assert (v_queued sample_dispatched 0 ≠ 0%N) as Hq by (by vm_compute).
  split; [exact Hq|].
  refine (proj1 (proj2 (proj2 (query_manager_total 1 sample_plan sample_dispatched
    (λ _, 0) 1 true 0 0 0 0 tt sample_plan_ok sample_reach_dispatched _))) Hq).
  vm_compute. reflexivity.
Defined.

Lemma query_status_exact_witness :
  v_finished sample_streamed 0 = true ∧
  ∃ c, queryStatus 0 sample_streamed = Ok (c, sample_streamed) ∧
    (c = kQueryExecuted ↔ ∀ j, j < 3 → v_finished sample_streamed j = true) ∧
    (c = kOperatorExecuted → v_finished sample_streamed 0 = true) ∧
    (c = kNone → v_finished sample_streamed 0 = false).
Proof.
  split; [vm_compute; reflexivity|].
  refine (proj1 (query_status_exact 1 sample_plan sample_streamed
    (upd (upd (λ _, 0) 0 1) 0 0) 6 0 sample_plan_ok sample_reach_streamed _ _)).
  - vm_compute. reflexivity.
  - vm_compute. lia.
Defined.

Lemma work_orders_respect_dependencies_witness :
  v_finished sample_waiting 0 = false ∧
  (∀ k, link sample_plan k 0 true → v_finished sample_waiting k = true) ∧
  (true = true → v_done sample_waiting 0 = true ∧
     ∀ k, edge sample_plan k 0 → v_finished sample_waiting k = true).
Proof.
  apply (work_orders_respect_dependencies 1 sample_plan sample_waiting (λ _, 0) 4
    (Plain 107 []) 0 true sample_rebuilding sample_plan_ok sample_reach_waiting).
  - vm_compute. reflexivity.
  - vm_compute. reflexivity.
Defined.

Lemma sample_nothing_executing i :
  ¬ executing (upd (upd (λ _, 0) 0 1) 0 0) sample_finished i.
Proof.
  intros [Hq|Hr].
  - apply Hq. destruct i as [|[|[|i]]]; vm_compute; reflexivity.
  - apply Hr. unfold upd. by case_decide.
Qed.

Lemma query_never_stuck_witness :
  hasQueryExecutionFinished (query_exec_state sample_finished) = true.
Proof.
  apply (query_never_stuck 1 sample_plan sample_finished
    (upd (upd (λ _, 0) 0 1) 0 0) 10 sample_finished
    sample_plan_ok sample_live sample_reach_finished).
  - vm_compute. reflexivity.
  - exact sample_nothing_executing.
  - vm_compute. reflexivity.
Defined.

(** ** A pipeline breaker that can be bypassed *)

(** All three links break the pipeline, and 2 depends on 0 both directly and
    through 1; operators 1 and 2 have no work. *)
Definition bypass_plan : DAG sample_op bool :=
  [MkNode (SampleOp [1] ∅ (-1) (-1)) ∅ {[1 := true; 2 := true]};
   MkNode (SampleOp [] ∅ (-1) (-1)) {[0]} {[2 := true]};
   MkNode (SampleOp [] ∅ (-1) (-1)) {[0; 1]} ∅].
Definition bypass_dispatched : SQ :=
  after getNextWorkerMessage (start_of bypass_plan).
Definition bypass_finished : SQ :=
  after (processWorkOrderCompleteMessage (depth bypass_plan) 0) bypass_dispatched.

(** When a dependency can be bypassed, an operator can finish twice: in
    a plan where 2 depends on 0 directly and through 1, with an iteration
    order that visits 1 first, completing the only work order of 0 marks 2
    once from the recursive call for 1 and once more from the loop of 0.  Four
    operators of three are then counted as finished, so that the query, all of
    whose operators are done and for which nothing is pending or in execution,
    is never reported as executed. *)
Lemma bypassed_operator_finishes_twice :
  reachable 1 bypass_plan bypass_finished (λ _, 0) 2 ∧
  getNumOperatorsFinished (query_exec_state bypass_finished) = 4%N ∧
  getNumOperators (query_exec_state bypass_finished) = 3 ∧
  (∀ i, i < 3 → v_finished bypass_finished i = true) ∧
  (∀ i, ¬ executing (λ _, 0) bypass_finished i) ∧
  getNextWorkerMessage bypass_finished = Ok (None, bypass_finished) ∧
  (∀ i, i < 3 → queryStatus i bypass_finished = Ok (kOperatorExecuted, bypass_finished)).
Proof.
  split; [|split_and!; try (vm_compute; reflexivity)].
  - apply (reach_complete _ _ bypass_dispatched _ 1 0); [|sample_step..].
    apply (reach_dispatch _ _ (start_of bypass_plan) (λ _, 0) 0
      (Some (Plain 1 [], 0, false))); [|sample_step].
    apply (reach_new _ _ true). sample_step.
  - intros [|[|[|i]]] Hi; [vm_compute; reflexivity..|lia].
  - intros i [Hq|Hr]; [|done]. apply Hq.
    destruct i as [|[|[|i]]]; vm_compute; reflexivity.
  - intros [|[|[|i]]] Hi; [vm_compute; reflexivity..|lia].
Qed.
