(* ===== verification/SpinSharedMutex.v ===== *)
(** * Spin locks

    Models threading/SpinSharedMutex.hpp: a reader-writer lock in one atomic
    32-bit word, whose top bit says that a writer holds or waits for the lock
    and whose other bits count readers.

    Threads interleave at the level of the atomic operations.  The atomic word
    is its modification order, oldest value first: a read-modify-write
    operation reads the newest value and appends one, while a relaxed load may
    return any value at or after the last one its thread has seen (coherence),
    so it may be out of date. *)

From S2P Require Import Prelude.
From stdpp Require Import options.

Definition kWriteBit : Z := 2 ^ 31.
Definition u32 (x : Z) : Z := x mod 2 ^ 32.

(** [state & kWriteBit] as a condition. *)
Definition write_bit (state : Z) : bool := negb (Z.land state kWriteBit =? 0)%Z.

(** Where a thread is: outside, at one of the atomic operations of [lock] and
    [lockShared], or holding the lock. *)
Inductive pc :=
| Outside
| LockOr            (** [lock]: [state_.fetch_or(kWriteBit)] *)
| LockLoad          (** [lock]: [state_.load()] until no reader is left *)
| Exclusive         (** between [lock] and [unlock] *)
| SharedAdd         (** [lockShared]: [state_.fetch_add(1)] *)
| SharedSub         (** [lockShared]: [state_.fetch_sub(1)] after a failure *)
| SharedLoad        (** [lockShared]: [state_.load()] until the bit is clear *)
| SharedHeld.       (** between [lockShared] and [unlockShared] *)

#[global] Instance pc_eq_dec : EqDecision pc.
Proof. solve_decision. Defined.

(** ** The functions, one atomic operation at a time

    Each takes the value observed and gives the next position of the thread
    and, for a read-modify-write operation, the value written. *)

(** [lock], the [fetch_or]: spin while the bit was set before, then wait for
    the readers. *)
Definition lock_or (observed_state : Z) : pc * Z :=
  (if write_bit observed_state then LockOr
   else if (Z.lor observed_state kWriteBit =? kWriteBit)%Z then Exclusive
   else LockLoad,
   Z.lor observed_state kWriteBit).
(** [lock], the second loop. *)
Definition lock_load (observed_state : Z) : pc :=
  if (observed_state =? kWriteBit)%Z then Exclusive else LockLoad.
Definition unlock (observed_state : Z) : pc * Z :=
  (Outside, Z.land observed_state (Z.lxor (2 ^ 32 - 1) kWriteBit)).
Definition shared_add (observed_state : Z) : pc * Z :=
  (if write_bit observed_state then SharedSub else SharedHeld,
   u32 (observed_state + 1)).
Definition shared_sub (observed_state : Z) : pc * Z :=
  (if write_bit observed_state then SharedLoad else SharedAdd,
   u32 (observed_state - 1)).
Definition shared_load (observed_state : Z) : pc :=
  if write_bit observed_state then SharedLoad else SharedAdd.
Definition unlockShared (observed_state : Z) : pc * Z :=
  (Outside, u32 (observed_state - 1)).

(** ** The threads and the word *)

Record thread := Thread { at_pc : pc; seen : nat }.
Record mutex := Mutex { history : list Z; threads : list thread }.

(** [SpinSharedMutex()] with [k] threads that have seen its construction. *)
Definition new_mutex (k : nat) : mutex :=
  {| history := [0%Z]; threads := replicate k (Thread Outside 0) |}.

(** The read-modify-write operation at a position, if there is one. *)
Definition rmw (p : pc) : option (Z → pc * Z) :=
  match p with
  | LockOr => Some lock_or
  | Exclusive => Some unlock
  | SharedAdd => Some shared_add
  | SharedSub => Some shared_sub
  | SharedHeld => Some unlockShared
  | _ => None
  end.
(** The relaxed load at a position. *)
Definition relaxed_load (p : pc) : option (Z → pc) :=
  match p with
  | LockLoad => Some lock_load
  | SharedLoad => Some shared_load
  | _ => None
  end.

Inductive step : mutex → mutex → Prop :=
| step_call_lock h ts i k :
    ts !! i = Some (Thread Outside k) →
    step (Mutex h ts) (Mutex h (<[i := Thread LockOr k]> ts))
| step_call_lockShared h ts i k :
    ts !! i = Some (Thread Outside k) →
    step (Mutex h ts) (Mutex h (<[i := Thread SharedAdd k]> ts))
| step_rmw h ts i p k f v p' v' :
    ts !! i = Some (Thread p k) → rmw p = Some f → last h = Some v →
    f v = (p', v') →
    step (Mutex h ts) (Mutex (h ++ [v']) (<[i := Thread p' (length h)]> ts))
| step_load h ts i p k f k' v :
    ts !! i = Some (Thread p k) → relaxed_load p = Some f → k ≤ k' →
    h !! k' = Some v →
    step (Mutex h ts) (Mutex h (<[i := Thread (f v) k']> ts)).

(** ** Counting threads *)

(** Threads counted in the low bits of the word. *)
Definition is_reader (p : pc) : bool :=
  match p with SharedSub | SharedHeld => true | _ => false end.
(** The thread that has set the write bit. *)
Definition is_writer (p : pc) : bool :=
  match p with LockLoad | Exclusive => true | _ => false end.

Definition number (f : pc → bool) (ts : list thread) : nat :=
  length (filter (λ t, f (at_pc t) = true) ts).
Definition b2n (b : bool) : nat := if b then 1 else 0.

Lemma number_insert f ts i t t' :
  ts !! i = Some t →
  number f (<[i := t']> ts) + b2n (f (at_pc t)) =
  number f ts + b2n (f (at_pc t')).
Proof.
  intros (l1 & l2 & -> & _ & Hins)%lookup_insert_split. rewrite Hins.
  unfold number. rewrite !filter_app, !length_app, !filter_cons. unfold b2n.
  destruct (f (at_pc t)) eqn:E1, (f (at_pc t')) eqn:E2;
    repeat case_decide; try congruence; cbn; lia.
Qed.

Lemma number_zero f ts i t :
  number f ts = 0 → ts !! i = Some t → f (at_pc t) = false.
Proof.
  intros Hn (l1 & l2 & -> & _ & _)%lookup_insert_split.
  unfold number in Hn. rewrite filter_app, length_app, filter_cons in Hn.
  destruct (f (at_pc t)) eqn:E; [|done]. rewrite decide_True in Hn by done.
  cbn in Hn. lia.
Qed.

Lemma number_two f ts i j t u :
  ts !! i = Some t → ts !! j = Some u → i ≠ j →
  f (at_pc t) = true → f (at_pc u) = true → 2 ≤ number f ts.
Proof.
  intros Hi Hj Hij Ht Hu.
  assert (ts ≡ₚ t :: delete i ts) as Hp by (by apply delete_Permutation).
  assert (u ∈ delete i ts) as Hin.
  { destruct (decide (j < i)).
    - apply list_elem_of_lookup. exists j. by rewrite list_lookup_delete_lt.
    - apply list_elem_of_lookup. exists (j - 1). rewrite list_lookup_delete_ge by lia.
      by replace (S (j - 1)) with j by lia. }
  apply elem_of_Permutation in Hin as [l Hl].
  unfold number. rewrite Hp, Hl, !filter_cons, !decide_True by done. cbn. lia.
Qed.

Lemma number_le f ts : number f ts ≤ length ts.
Proof. apply length_filter. Qed.

(** ** The word *)

(** A word with the write bit [w] and [r] readers. *)
Definition word (w : bool) (r : nat) : Z :=
  ((if w then kWriteBit else 0) + Z.of_nat r)%Z.

Lemma small_testbit r j :
  (0 ≤ r < 2 ^ 31)%Z → (31 ≤ j)%Z → Z.testbit r j = false.
Proof.
  intros Hr Hj. destruct (decide (r = 0%Z)) as [->|]; [apply Z.bits_0|].
  apply Z.bits_above_log2; [lia|]. apply Z.log2_lt_pow2; [lia|].
  eapply Z.lt_le_trans; [apply Hr|]. by apply Z.pow_le_mono_r.
Qed.

Lemma small_land_bit r : (0 ≤ r < 2 ^ 31)%Z → Z.land r kWriteBit = 0%Z.
Proof.
  intros Hr. apply Z.bits_inj'. intros j Hj. unfold kWriteBit.
  rewrite Z.land_spec, Z.pow2_bits_eqb, Z.bits_0 by done.
  destruct (Z.eqb_spec 31 j) as [<-|]; [|by rewrite andb_false_r].
  by rewrite small_testbit.
Qed.

Lemma word_lor w r : (Z.of_nat r < 2 ^ 31)%Z →
  word w r = Z.lor (Z.of_nat r) (if w then kWriteBit else 0%Z).
Proof.
  intros Hr. unfold word. destruct w; [|by rewrite Z.lor_0_r].
  pose proof (Z.add_lor_land (Z.of_nat r) kWriteBit) as H.
  rewrite small_land_bit in H by lia. lia.
Qed.

Lemma word_write_bit w r : (Z.of_nat r < 2 ^ 31)%Z → write_bit (word w r) = w.
Proof.
  intros Hr. unfold write_bit. rewrite word_lor by done.
  rewrite Z.land_lor_distr_l, small_land_bit by lia. by destruct w.
Qed.

Lemma word_set w r : (Z.of_nat r < 2 ^ 31)%Z →
  Z.lor (word w r) kWriteBit = word true r.
Proof.
  intros Hr. rewrite !word_lor, <- Z.lor_assoc by done. f_equal. by destruct w.
Qed.

Lemma word_clear w r : (Z.of_nat r < 2 ^ 31)%Z →
  Z.land (word w r) (Z.lxor (2 ^ 32 - 1) kWriteBit) = word false r.
Proof.
  intros Hr. change (Z.lxor (2 ^ 32 - 1) kWriteBit) with (Z.ones 31).
  rewrite Z.land_ones by done. unfold word.
  destruct w; [|by rewrite Z.mod_small by lia].
  rewrite Z.add_comm. change kWriteBit with (1 * 2 ^ 31)%Z.
  by rewrite Z.mod_add, Z.mod_small by lia.
Qed.

Lemma word_inc w r : (Z.of_nat (S r) < 2 ^ 31)%Z → u32 (word w r + 1) = word w (S r).
Proof.
  intros Hr. unfold u32. rewrite Z.mod_small; unfold word, kWriteBit in *; destruct w; lia.
Qed.
Lemma word_dec w r : (Z.of_nat (S r) < 2 ^ 31)%Z → u32 (word w (S r) - 1) = word w r.
Proof.
  intros Hr. unfold u32. rewrite Z.mod_small; unfold word, kWriteBit in *; destruct w; lia.
Qed.
Lemma word_only_bit w r : (Z.of_nat r < 2 ^ 31)%Z →
  word w r = kWriteBit → w = true ∧ r = 0.
Proof. unfold word, kWriteBit. destruct w; lia. Qed.

(** ** The invariant *)

Definition held (p : pc) : bool := bool_decide (p = SharedHeld).

Record Inv (s : mutex) : Prop := {
  (** One thread at most has set the bit, and the word is what the threads
      did to it. *)
  inv_writers : number is_writer (threads s) ≤ 1;
  inv_word : last (history s) = Some
    (word (bool_decide (number is_writer (threads s) = 1))
          (number is_reader (threads s)));
  inv_seen i t : threads s !! i = Some t → seen t < length (history s);
  (** A writer that has seen, or may see, the word without readers excludes
      them. *)
  inv_writer i t : threads s !! i = Some t → is_writer (at_pc t) = true →
    at_pc t = Exclusive ∨
      (∃ k, seen t ≤ k ∧ history s !! k = Some kWriteBit) →
    number held (threads s) = 0;
}.

Lemma held_reader ts : number held ts ≤ number is_reader ts.
Proof.
  unfold number. induction ts as [|t ts IH]; [done|]. rewrite !filter_cons.
  destruct (decide (held (at_pc t) = true)) as [Hh|].
  - apply bool_decide_eq_true in Hh. rewrite Hh, decide_True by done. cbn. lia.
  - case_decide; cbn; lia.
Qed.

Lemma number_writer ts i t :
  ts !! i = Some t → is_writer (at_pc t) = true → number is_writer ts ≤ 1 →
  number is_writer ts = 1.
Proof.
  intros Hi Hw Hle. destruct (number is_writer ts) as [|[|k]] eqn:Hn; [|done|lia].
  by rewrite (number_zero _ _ _ _ Hn Hi) in Hw.
Qed.

Lemma new_inv k : Inv (new_mutex k).
Proof.
  assert (∀ f, f Outside = false → number f (replicate k (Thread Outside 0)) = 0) as Hn.
  { intros f Hf. unfold number. induction k as [|k IH]; [done|]. cbn [replicate].
    rewrite filter_cons_False by (cbn; congruence). done. }
  split; cbn [threads history new_mutex].
  - rewrite Hn by done. lia.
  - by rewrite !Hn by done.
  - intros i t [-> _]%lookup_replicate. cbn. lia.
  - intros i t [-> _]%lookup_replicate. done.
Qed.

(** ** Every step keeps the invariant *)

(** A step that leaves the word alone: only thread [i] moves, neither into the
    readers nor into or out of the writers. *)
Lemma quiet_step h ts i t p k :
  Inv (Mutex h ts) → ts !! i = Some t → seen t ≤ k < length h →
  is_reader p = is_reader (at_pc t) → is_writer p = is_writer (at_pc t) →
  held p = false → held (at_pc t) = false →
  (is_writer p = true → p = Exclusive → number held ts = 0) →
  Inv (Mutex h (<[i := Thread p k]> ts)).
Proof.
  intros HI Hi Hk Hr Hw Hh Hh' Hx. destruct HI as [HW Hword Hseen Hwr]. cbn in *.
  assert (∀ f, f p = f (at_pc t) → number f (<[i := Thread p k]> ts) = number f ts) as Hn.
  { intros f Hf. pose proof (number_insert f ts i t (Thread p k) Hi) as H.
    cbn in H. rewrite Hf in H. lia. }
  split; cbn [threads history].
  - by rewrite Hn.
  - by rewrite !Hn.
  - intros j u [(<- & <- & _)|[_ Hj]]%list_lookup_insert_Some; [cbn; lia|eauto].
  - intros j u [(<- & <- & _)|[_ Hj]]%list_lookup_insert_Some Hjw Hcase;
      rewrite Hn by congruence; [|eauto].
    cbn in *. destruct Hcase as [He|(k' & Hk' & Hv)]; [auto|].
    eapply (Hwr i t Hi); [congruence|]. right. exists k'. split; [lia|done].
Qed.

(** A read-modify-write step of thread [i] that writes the word the threads
    then stand for. *)
Lemma rmw_step h ts i t p w r :
  Inv (Mutex h ts) → ts !! i = Some t → (Z.of_nat (length ts) < 2 ^ 31)%Z →
  number is_writer (<[i := Thread p (length h)]> ts) ≤ 1 →
  w = bool_decide (number is_writer (<[i := Thread p (length h)]> ts) = 1) →
  r = number is_reader (<[i := Thread p (length h)]> ts) →
  (p = Exclusive → r = 0) →
  (p = SharedHeld → number is_writer ts = 0) →
  Inv (Mutex (h ++ [word w r]) (<[i := Thread p (length h)]> ts)).
Proof.
  intros HI Hi Hlen HW Hw Hr Hx Hsh. destruct HI as [HW0 Hword Hseen Hwr]. cbn [threads history] in *.
  set (ts' := <[i := _]> ts) in *.
  assert (length ts' = length ts) as Hlen' by apply length_insert.
  pose proof (number_le is_reader ts') as Hle.
  pose proof (held_reader ts') as Hhr.
  split; cbn [threads history].
  - done.
  - by rewrite last_snoc, <- Hw, <- Hr.
  - intros j u [(<- & <- & _)|[_ Hj]]%list_lookup_insert_Some; rewrite length_app; cbn.
    + lia.
    + apply Hseen in Hj. lia.
  - intros j u Hj Hjw Hcase.
    assert (r = 0 → number held ts' = 0) as Hr0 by lia.
    apply list_lookup_insert_Some in Hj as [(<- & <- & _)|[Hij Hj]].
    + cbn in *. destruct Hcase as [He|(k' & Hk' & Hv)]; [auto|].
      assert (k' = length h) as -> by (apply lookup_lt_Some in Hv;
        rewrite length_app in Hv; cbn in Hv; lia).
      rewrite list_lookup_middle in Hv by done. injection Hv as Hv.
      apply word_only_bit in Hv as [_ ?]; [auto|lia].
    + assert (p ≠ SharedHeld) as Hp.
      { intros Hp. specialize (Hsh Hp). by rewrite (number_zero _ _ _ _ Hsh Hj) in Hjw. }
      assert (number held ts = 0 → number held ts' = 0) as Hmono.
      { pose proof (number_insert held ts i t (Thread p (length h)) Hi) as H. cbn in H.
        fold ts' in H. assert (held p = false) as Hhp by (by apply bool_decide_eq_false).
        rewrite Hhp in H. cbn in H. lia. }
      destruct Hcase as [He|(k' & Hk' & Hv)]; [apply Hmono, (Hwr j u Hj Hjw); auto|].
      destruct (decide (k' = length h)) as [->|Hne].
      * rewrite list_lookup_middle in Hv by done. injection Hv as Hv.
        apply word_only_bit in Hv as [_ ?]; [auto|lia].
      * apply Hmono, (Hwr j u Hj Hjw). right. exists k'. split; [done|].
        rewrite lookup_app_l in Hv; [done|].
        apply lookup_lt_Some in Hv. rewrite length_app in Hv. cbn in Hv. lia.
Qed.

Lemma history_word s v : Inv s → last (history s) = Some v →
  v = word (bool_decide (number is_writer (threads s) = 1))
           (number is_reader (threads s)).
Proof. intros [_ Hw _ _] Hv. rewrite Hw in Hv. congruence. Qed.

Lemma insert_numbers ts i p k p' k' :
  ts !! i = Some (Thread p k) →
  ∀ f, number f (<[i := Thread p' k']> ts) + b2n (f p) = number f ts + b2n (f p').
Proof. intros Hi f. exact (number_insert f ts i _ (Thread p' k') Hi). Qed.

(** Arithmetic on the numbers of readers and writers closes the conditions of
    [rmw_step]. *)
Ltac finish_rmw := eapply rmw_step; try done; try lia; try discriminate.

(** The read-modify-write operations keep the invariant. *)
Lemma step_rmw_inv h ts i p k f v p' v' :
  Inv (Mutex h ts) → (Z.of_nat (length ts) < 2 ^ 31)%Z →
  ts !! i = Some (Thread p k) → rmw p = Some f → last h = Some v →
  f v = (p', v') →
  Inv (Mutex (h ++ [v']) (<[i := Thread p' (length h)]> ts)).
Proof.
  intros HI Hlen Hi Hf Hv Hstep.
  pose proof (history_word _ _ HI Hv) as Hvw. cbn [threads] in Hvw.
  pose proof (inv_writers _ HI) as HW. cbn [threads] in HW.
  pose proof (insert_numbers ts i p k p' (length h) Hi is_writer) as HnW.
  pose proof (insert_numbers ts i p k p' (length h) Hi is_reader) as HnR.
  pose proof (number_le is_reader ts) as Hle.
  pose proof (number_le is_reader (<[i := Thread p' (length h)]> ts)) as Hle'.
  rewrite length_insert in Hle'.
  set (w := bool_decide (number is_writer ts = 1)) in *.
  assert (write_bit v = w) as Hwb by (subst v; apply word_write_bit; lia).
  assert (w = false → number is_writer ts = 0) as Hw0.
  { intros Hw. apply bool_decide_eq_false in Hw. lia. }
  assert (w = true → number is_writer ts = 1) as Hw1 by (apply bool_decide_eq_true).
  assert (Z.of_nat (number is_reader ts) < 2 ^ 31)%Z as Hr by lia.
  destruct p; try discriminate; injection Hf as <-; injection Hstep as Hp' Hv';
    rewrite ?Hwb in Hp'; subst v'.
  - (* [lock], the exchange *)
    rewrite Hvw, word_set by done.
    rewrite Hvw, word_set in Hp' by done.
    destruct w; [|case_match eqn:Hx]; subst p'; cbn in HnW, HnR;
      finish_rmw;
      try (symmetry; apply bool_decide_eq_true); try lia.
    apply Z.eqb_eq in Hx. apply word_only_bit in Hx as [_ Hx]; lia.
  - (* [unlock] *)
    subst p'. rewrite Hvw, word_clear by done. cbn in HnW, HnR.
    finish_rmw.
    symmetry. apply bool_decide_eq_false. lia.
  - (* [lockShared], the increment *)
    destruct w; subst p'; cbn in HnW, HnR; rewrite Hvw, word_inc by lia;
      finish_rmw; symmetry;
      [apply bool_decide_eq_true|apply bool_decide_eq_false]; lia.
  - (* [lockShared], the decrement *)
    destruct (number is_reader ts) as [|r] eqn:HnR0;
      [by pose proof (number_zero _ _ _ _ HnR0 Hi)|].
    destruct w; subst p'; cbn in HnW, HnR; rewrite Hvw, word_dec by lia;
      finish_rmw; symmetry;
      [apply bool_decide_eq_true|apply bool_decide_eq_false]; lia.
  - (* [unlockShared] *)
    destruct (number is_reader ts) as [|r] eqn:HnR0;
      [by pose proof (number_zero _ _ _ _ HnR0 Hi)|].
    subst p'. cbn in HnW, HnR. rewrite Hvw, word_dec by lia.
    finish_rmw.
    unfold w. apply bool_decide_ext. lia.
Qed.

Lemma step_load_inv h ts i p k f k' v :
  Inv (Mutex h ts) → (Z.of_nat (length ts) < 2 ^ 31)%Z →
  ts !! i = Some (Thread p k) → relaxed_load p = Some f → k ≤ k' →
  h !! k' = Some v →
  Inv (Mutex h (<[i := Thread (f v) k']> ts)).
Proof.
  intros HI Hlen Hi Hf Hk Hv. pose proof (lookup_lt_Some _ _ _ Hv).
  destruct p; try discriminate; injection Hf as <-.
  - unfold lock_load. case_match eqn:Hx; eapply quiet_step; try done.
    intros _ _. apply Z.eqb_eq in Hx as ->.
    eapply (inv_writer _ HI i _ Hi); [done|]. right. by exists k'.
  - unfold shared_load. by case_match; eapply quiet_step.
Qed.

Lemma step_threads s s' : step s s' → length (threads s') = length (threads s).
Proof. by destruct 1; cbn; rewrite ?length_insert. Qed.

Lemma step_inv s s' :
  step s s' → (Z.of_nat (length (threads s)) < 2 ^ 31)%Z → Inv s → Inv s'.
Proof.
  intros Hs Hlen HI. destruct Hs.
  - eapply quiet_step; try done. split; [done|exact (inv_seen _ HI _ _ H)].
  - eapply quiet_step; try done. split; [done|exact (inv_seen _ HI _ _ H)].
  - by eapply step_rmw_inv.
  - by eapply step_load_inv.
Qed.

(** ** Runs *)

Definition few_threads (s : mutex) : Prop :=
  (Z.of_nat (length (threads s)) < 2 ^ 31)%Z.

Lemma steps_inv s s' :
  rtc step s s' → few_threads s → Inv s → few_threads s' ∧ Inv s'.
Proof.
  induction 1 as [|s1 s2 s3 Hs _ IH]; [done|]. intros Hlen HI.
  apply IH; [|by eapply step_inv].
  unfold few_threads in *. by rewrite (step_threads _ _ Hs).
Qed.

Lemma reachable_inv k s :
  (Z.of_nat k < 2 ^ 31)%Z → rtc step (new_mutex k) s → few_threads s ∧ Inv s.
Proof.
  intros Hk Hs. apply (steps_inv _ _ Hs); [|apply new_inv].
  unfold few_threads. cbn. by rewrite length_replicate.
Qed.

(** ** Acquiring the lock *)

Definition waits_exclusive (p : pc) : bool :=
  match p with LockOr | LockLoad => true | _ => false end.
Definition waits_shared (p : pc) : bool :=
  match p with SharedAdd | SharedSub | SharedLoad => true | _ => false end.

(** Thread [i] still waits for what it waited for. *)
Definition still_waits (i : nat) (s s' : mutex) : Prop :=
  ∀ t, threads s !! i = Some t → ∃ t', threads s' !! i = Some t' ∧
    (waits_exclusive (at_pc t) = true → waits_exclusive (at_pc t') = true) ∧
    (waits_shared (at_pc t) = true → waits_shared (at_pc t') = true).

Lemma still_waits_refl i s : still_waits i s s.
Proof. intros t Ht. eauto. Qed.
Lemma still_waits_trans i s1 s2 s3 :
  still_waits i s1 s2 → still_waits i s2 s3 → still_waits i s1 s3.
Proof.
  intros H12 H23 t Ht. destruct (H12 t Ht) as (t2 & Ht2 & ? & ?).
  destruct (H23 t2 Ht2) as (t3 & Ht3 & ? & ?). exists t3. auto.
Qed.

Lemma still_waits_insert i j h h' ts t t' :
  ts !! j = Some t →
  (waits_exclusive (at_pc t) = true → waits_exclusive (at_pc t') = true) →
  (waits_shared (at_pc t) = true → waits_shared (at_pc t') = true) →
  still_waits i (Mutex h ts) (Mutex h' (<[j := t']> ts)).
Proof.
  intros Hj He Hs u Hu. cbn in *. destruct (decide (i = j)) as [->|].
  - exists t'. rewrite list_lookup_insert_eq by (by eapply lookup_lt_Some).
    split; [done|]. by simplify_eq.
  - exists u. by rewrite list_lookup_insert_ne.
Qed.

Lemma number_pos f ts : number f ts ≠ 0 → ∃ j t, ts !! j = Some t ∧ f (at_pc t) = true.
Proof.
  intros Hn. unfold number in Hn.
  destruct (filter _ ts) as [|t l] eqn:Hf; [done|].
  assert (t ∈ filter (λ t, f (at_pc t) = true) ts) as [Ht Hin]%list_elem_of_filter
    by (rewrite Hf; left).
  apply list_elem_of_lookup in Hin as [j Hj]. eauto.
Qed.

Lemma inv_last s : Inv s → ∃ v, last (history s) = Some v.
Proof. intros HI. rewrite (inv_word _ HI). eauto. Qed.

(** The threads counted as readers can leave one by one. *)
Lemma readers_leave i s :
  few_threads s → Inv s → ∃ s', rtc step s s' ∧ still_waits i s s' ∧
    number is_reader (threads s') = 0.
Proof.
  remember (number is_reader (threads s)) as n eqn:Hn. revert s Hn.
  induction n as [|n IH]; intros [h ts] Hn Hlen HI.
  { exists (Mutex h ts). by split_and!; [|apply still_waits_refl|]. }
  destruct (number_pos is_reader ts) as (j & [p k] & Hj & Hp);
    [cbn [threads] in Hn; lia|].
  destruct (inv_last _ HI) as [v Hv].
  assert (∃ f, rmw p = Some f ∧ is_reader (f v).1 = false ∧
    (p = SharedSub → waits_shared (f v).1 = true)) as (f & Hf & Hout & Hsub).
  { destruct p; try discriminate Hp; [exists shared_sub|exists unlockShared];
      cbn; by destruct (write_bit v). }
  set (s' := Mutex (h ++ [(f v).2]) (<[j := Thread (f v).1 (length h)]> ts)).
  assert (step (Mutex h ts) s') as Hstep
    by (eapply step_rmw; [done..|by destruct (f v)]).
  destruct (IH s') as (s'' & Hrun & Hwait & Hz).
  - pose proof (insert_numbers ts j p k (f v).1 (length h) Hj is_reader) as H.
    cbn [threads at_pc] in *. subst s'. cbn [threads].
    rewrite Hout, Hp in H. cbn [b2n] in H. lia.
  - unfold few_threads in *. by rewrite (step_threads _ _ Hstep).
  - by eapply step_inv.
  - exists s''. split; [by eapply rtc_l|]. split; [|done].
    eapply still_waits_trans; [|done].
    eapply still_waits_insert; [done|cbn..]; by destruct p; auto.
Qed.

(** The writer, if it is another thread, can then enter and leave. *)
Lemma writer_leaves i s :
  few_threads s → Inv s → number is_reader (threads s) = 0 →
  (∀ t, threads s !! i = Some t → is_writer (at_pc t) = false) →
  ∃ s', rtc step s s' ∧ threads s' !! i = threads s !! i ∧
    last (history s') = Some 0%Z.
Proof.
  destruct s as [h ts]. intros Hlen HI Hr Hi. cbn [threads history] in *.
  pose proof (inv_word _ HI) as Hword. cbn [threads history] in Hword.
  rewrite Hr in Hword. case_bool_decide as Hw; [|by exists (Mutex h ts)].
  destruct (number_pos is_writer ts) as (j & [p k] & Hj & Hp); [lia|].
  assert (i ≠ j) as Hij by (intros ->; specialize (Hi _ Hj); cbn in *; congruence).
  (* from inside the lock *)
  assert (∀ ts' k, ts' !! j = Some (Thread Exclusive k) → ts' !! i = ts !! i →
    ∃ s', rtc step (Mutex h ts') s' ∧ threads s' !! i = ts !! i ∧
      last (history s') = Some 0%Z) as Hleave.
  { intros ts' k' Hj' Hi'. eexists. split.
    - eapply rtc_once, step_rmw; [done..|reflexivity].
    - cbn [threads history]. by rewrite list_lookup_insert_ne, last_snoc. }
  destruct p; try discriminate Hp; [|by eapply Hleave].
  rewrite last_lookup in Hword.
  destruct (Hleave (<[j := Thread Exclusive (pred (length h))]> ts)
              (pred (length h))) as (s' & Hrun & Hs').
  - apply list_lookup_insert_eq. by eapply lookup_lt_Some.
  - by apply list_lookup_insert_ne.
  - exists s'. split; [|done]. eapply rtc_l; [|done].
    eapply (step_load h ts j LockLoad k lock_load (pred (length h)) kWriteBit);
      [done..| |done].
    pose proof (inv_seen _ HI j _ Hj). cbn in *. lia.
Qed.

Lemma writer_enters h ts i k :
  Inv (Mutex h ts) → number is_reader ts = 0 → ts !! i = Some (Thread LockLoad k) →
  ∃ s' k', rtc step (Mutex h ts) s' ∧ threads s' !! i = Some (Thread Exclusive k').
Proof.
  intros HI Hr Hi. pose proof (inv_word _ HI) as Hword. cbn [threads history] in Hword.
  rewrite Hr, last_lookup in Hword.
  rewrite bool_decide_true in Hword
    by (by eapply number_writer; [..|apply (inv_writers _ HI)]).
  exists (Mutex h (<[i := Thread Exclusive (pred (length h))]> ts)), (pred (length h)).
  split; [|apply list_lookup_insert_eq; by eapply lookup_lt_Some].
  eapply rtc_once, (step_load h ts i LockLoad k lock_load (pred (length h)) kWriteBit);
    [done..| |done].
  pose proof (inv_seen _ HI i _ Hi). cbn in *. lia.
Qed.

(** With nobody in the way a waiting thread enters. *)
Lemma waiting_enters h ts i p k :
  last h = Some 0%Z → ts !! i = Some (Thread p k) → k < length h →
  (p = LockOr → ∃ s' k', rtc step (Mutex h ts) s' ∧
    threads s' !! i = Some (Thread Exclusive k')) ∧
  (p = SharedAdd ∨ p = SharedLoad → ∃ s' k', rtc step (Mutex h ts) s' ∧
    threads s' !! i = Some (Thread SharedHeld k')).
Proof.
  intros Hl Hi Hk. pose proof (lookup_lt_Some _ _ _ Hi) as Hlt.
  assert (∀ ts' k', length ts' = length ts → ts' !! i = Some (Thread SharedAdd k') →
    ∃ s' k'', rtc step (Mutex h ts') s' ∧
      threads s' !! i = Some (Thread SharedHeld k'')) as Hadd.
  { intros ts' k' Hlen Hi'. eexists _, _. split.
    - eapply rtc_once, step_rmw; [done..|reflexivity].
    - apply list_lookup_insert_eq. lia. }
  split.
  - intros ->. eexists _, _. split.
    + eapply rtc_once, step_rmw; [done..|reflexivity].
    + by apply list_lookup_insert_eq.
  - intros [->| ->]; [by eapply Hadd|].
    destruct (Hadd (<[i := Thread SharedAdd (pred (length h))]> ts)
                (pred (length h))) as (s' & k'' & Hrun & Hs').
    + apply length_insert.
    + by apply list_lookup_insert_eq.
    + exists s', k''. split; [|done]. eapply rtc_l; [|done].
      rewrite last_lookup in Hl.
      eapply (step_load h ts i SharedLoad k shared_load (pred (length h)) 0);
        [done..|lia|done].
Qed.

(** Thread 0 in the mutex, thread 1 between the increment and the decrement of
    [lockShared]. *)
Definition contended : mutex :=
  Mutex [0; kWriteBit; kWriteBit + 1]%Z [Thread Exclusive 1; Thread SharedSub 2].
Lemma contended_reachable : rtc step (new_mutex 2) contended.
Proof.
  eapply rtc_l; [by apply (step_call_lock _ _ 0 0)|].
  eapply rtc_l; [by apply (step_rmw _ _ 0 LockOr 0 lock_or 0 Exclusive kWriteBit)|].
  eapply rtc_l; [by apply (step_call_lockShared _ _ 1 0)|].
  eapply rtc_l; [|apply rtc_refl].
  by apply (step_rmw [0; kWriteBit]%Z [Thread Exclusive 1; Thread SharedAdd 0] 1 SharedAdd 0
    shared_add kWriteBit SharedSub (kWriteBit + 1)%Z).
Qed.

(** ** Theorems *)

(** C20. In every state that any number of threads (fewer than 2{^31}) can reach
    by interleaving [lock], [unlock], [lockShared] and [unlockShared], with
    relaxed loads that may return old values: a thread that holds the mutex
    exclusively excludes every other holder, exclusive or shared; the word is
    the write bit, if a thread has set it, plus the number of readers, so it
    never overflows into the write bit; and it is back to 0 when all threads
    are outside. *)
Theorem spin_shared_mutex_excludes n s :
  (Z.of_nat n < 2 ^ 31)%Z → rtc step (new_mutex n) s →
  (∀ i j t u, threads s !! i = Some t → threads s !! j = Some u → i ≠ j →
     at_pc t = Exclusive → at_pc u ≠ Exclusive ∧ at_pc u ≠ SharedHeld) ∧
  last (history s) = Some
    (word (bool_decide (number is_writer (threads s) = 1))
          (number is_reader (threads s))) ∧
  number is_writer (threads s) ≤ 1 ∧
  (Z.of_nat (number is_reader (threads s)) < 2 ^ 31)%Z ∧
  (Forall (λ t, at_pc t = Outside) (threads s) → last (history s) = Some 0%Z).
Proof.
  intros Hn Hs. destruct (reachable_inv _ _ Hn Hs) as [Hlen HI].
  split_and!; try apply HI.
  - intros i j t u Hi Hj Hij Ht.
    assert (is_writer (at_pc t) = true) as Hw by (by rewrite Ht). split.
    + intros Hu. assert (2 ≤ number is_writer (threads s));
        [eapply (number_two _ _ i j); eauto; by rewrite Hu|].
      pose proof (inv_writers _ HI). lia.
    + intros Hu. assert (number held (threads s) = 0) as Hz
        by (eapply (inv_writer _ HI i); eauto).
      apply (number_zero _ _ j u) in Hz; [|done]. by rewrite Hu in Hz.
  - pose proof (number_le is_reader (threads s)). unfold few_threads in Hlen. lia.
  - intros Hout.
    assert (∀ f, f Outside = false → number f (threads s) = 0) as Hz.
    { intros f Hf. destruct (decide (number f (threads s) = 0)) as [|Hne]; [done|].
      apply number_pos in Hne as (j & t & Hj & Ht).
      rewrite (Forall_lookup_1 _ _ _ _ Hout Hj) in Ht. congruence. }
    by rewrite (inv_word _ HI), !Hz.
Qed.

Lemma spin_shared_mutex_excludes_witness :
  threads contended = [Thread Exclusive 1; Thread SharedSub 2] ∧
  SharedSub ≠ SharedHeld ∧
  last (history contended) = Some (word true 1).
Proof.
  destruct (spin_shared_mutex_excludes 2 contended ltac:(lia) contended_reachable)
    as (Hx & Hw & _).
  split_and!; [reflexivity| |exact Hw].
  exact (proj2 (Hx 0 1 (Thread Exclusive 1) (Thread SharedSub 2)
    eq_refl eq_refl ltac:(lia) eq_refl)).
Defined.

(** C21. The mutex never locks up: from every reachable state, whatever the
    other threads hold or wait for, a thread that waits in [lock] can get to
    hold the mutex exclusively and one that waits in [lockShared] can get to
    hold it shared, under some schedule. *)
Theorem spin_shared_mutex_acquires n s i t :
  (Z.of_nat n < 2 ^ 31)%Z → rtc step (new_mutex n) s →
  threads s !! i = Some t →
  (waits_exclusive (at_pc t) = true → ∃ s' k, rtc step s s' ∧
     threads s' !! i = Some (Thread Exclusive k)) ∧
  (waits_shared (at_pc t) = true → ∃ s' k, rtc step s s' ∧
     threads s' !! i = Some (Thread SharedHeld k)).
Proof.
  intros Hn Hs Hi. destruct (reachable_inv _ _ Hn Hs) as [Hlen HI].
  destruct (readers_leave i s Hlen HI) as ([h1 ts1] & Hr1 & Hwait & Hz).
  destruct (Hwait t Hi) as ([p k] & Hi1 & He & Hsh). cbn [threads at_pc] in *.
  destruct (steps_inv _ _ Hr1 Hlen HI) as [Hlen1 HI1].
  destruct (decide (p = LockLoad)) as [->|Hp].
  { split; [|intros ?%Hsh; done]. intros _.
    destruct (writer_enters _ _ _ _ HI1 Hz Hi1) as (s' & k' & Hr2 & Hs').
    exists s', k'. split; [by etrans|done]. }
  destruct (decide (waits_exclusive p = true ∨ waits_shared p = true)) as [Hw|Hw];
    [|by split; intros Hw'; destruct Hw; auto].
  destruct (writer_leaves i _ Hlen1 HI1 Hz) as ([h2 ts2] & Hr2 & Hi2 & Hl).
  { intros u Hu. cbn in Hu. rewrite Hi1 in Hu. injection Hu as <-.
    by destruct p, Hw. }
  cbn [threads history] in *. rewrite Hi1 in Hi2.
  destruct (steps_inv _ _ Hr2 Hlen1 HI1) as [_ HI2].
  destruct (waiting_enters h2 ts2 i p k Hl Hi2 (inv_seen _ HI2 _ _ Hi2)) as [Hx Hy].
  assert (p ≠ SharedSub) as Hsub by (intros ->; by apply (number_zero _ _ _ _ Hz) in Hi1).
  split.
  - intros ?%He. destruct Hx as (s' & k' & Hr3 & Hs'); [by destruct p|].
    exists s', k'. split; [by do 2 (etrans; [done|])|done].
  - intros ?%Hsh. destruct Hy as (s' & k' & Hr3 & Hs'); [destruct p; auto; done|].
    exists s', k'. split; [by do 2 (etrans; [done|])|done].
Qed.

Lemma spin_shared_mutex_acquires_witness :
  ∃ s' k, rtc step contended s' ∧ threads s' !! 1 = Some (Thread SharedHeld k).
Proof.
  apply (spin_shared_mutex_acquires 2 contended 1 (Thread SharedSub 2) ltac:(lia)
    contended_reachable); reflexivity.
Defined.
