(* ===== verification/WorkerDirectory.v ===== *)
(** * The directory of the workers

    Models query_execution/WorkerDirectory.hpp and the policies of
    query_execution/WorkerSelectionPolicy.hpp that choose a worker: how many
    work orders the foreman has sent to each worker and not seen completed,
    and the worker with the smallest or largest load.  Loads are
    [std::size_t], they wrap around at [2 ^ 64]. *)

From S2P Require Import Prelude QueryExecutionState.
From stdpp Require Import options.

Record WorkerDirectory := {
  num_workers : nat;
  num_queued_workorders : list N;
  numa_node_ids : list Z;
  client_ids : list nat;
}.

Definition with_loads (v : list N) (d : WorkerDirectory) : WorkerDirectory := {|
  num_workers := num_workers d;
  num_queued_workorders := v;
  numa_node_ids := numa_node_ids d;
  client_ids := client_ids d;
|}.

Definition new_WorkerDirectory (n : nat) (cids : list nat) (numa : list Z)
  : WorkerDirectory := {|
  num_workers := n;
  num_queued_workorders := replicate n 0%N;
  numa_node_ids := numa;
  client_ids := cids;
|}.

Definition getNumWorkers (d : WorkerDirectory) : nat := num_workers d.
Definition worker_getNumQueuedWorkOrders (worker_thread_index : nat)
    (d : WorkerDirectory) : outcome N :=
  vec_at (num_queued_workorders d) worker_thread_index.
Definition worker_incrementNumQueuedWorkOrders (worker_thread_index : nat)
    (d : WorkerDirectory) : outcome WorkerDirectory :=
  n ← vec_at (num_queued_workorders d) worker_thread_index;
  v ← vec_set (num_queued_workorders d) worker_thread_index (size_inc n);
  Ok (with_loads v d).
Definition worker_decrementNumQueuedWorkOrders (worker_thread_index : nat)
    (d : WorkerDirectory) : outcome WorkerDirectory :=
  n ← vec_at (num_queued_workorders d) worker_thread_index;
  v ← vec_set (num_queued_workorders d) worker_thread_index (size_dec n);
  Ok (with_loads v d).
Definition getNUMANode (worker_thread_index : nat) (d : WorkerDirectory)
  : outcome Z := vec_at (numa_node_ids d) worker_thread_index.
Definition getClientID (worker_thread_index : nat) (d : WorkerDirectory)
  : outcome nat := vec_at (client_ids d) worker_thread_index.
Definition addWorker (cid : nat) (numa_node_id : Z) (d : WorkerDirectory)
  : WorkerDirectory := {|
  num_workers := S (num_workers d);
  num_queued_workorders := num_queued_workorders d ++ [0%N];
  numa_node_ids := numa_node_ids d ++ [numa_node_id];
  client_ids := client_ids d ++ [cid];
|}.

(** [std::min_element] and [std::max_element]: the position and the value of
    the first element that none is better than.  [better x y] says that [x]
    replaces the best element [y] so far. *)
Fixpoint best_element (better : N → N → bool) (best : nat * N) (i : nat)
    (l : list N) : nat * N :=
  match l with
  | [] => best
  | x :: l' =>
      best_element better (if better x best.2 then (i, x) else best) (S i) l'
  end.
(** On an empty vector both return the end iterator, whose dereference is
    undefined. *)
Definition min_element (l : list N) : outcome (nat * N) :=
  match l with
  | [] => Err UndefinedBehaviour
  | x :: l' => Ok (best_element (λ y best, y <? best)%N (0, x) 1 l')
  end.
Definition max_element (l : list N) : outcome (nat * N) :=
  match l with
  | [] => Err UndefinedBehaviour
  | x :: l' => Ok (best_element (λ y best, best <? y)%N (0, x) 1 l')
  end.

Definition getLeastLoadedWorker (d : WorkerDirectory) : outcome (nat * N) :=
  min_element (num_queued_workorders d).
Definition getMostLoadedWorker (d : WorkerDirectory) : outcome (nat * N) :=
  max_element (num_queued_workorders d).

(** ** Selection of a worker *)

(** [previous_worker_thread_index_] of the round robin policy. *)
Definition new_RoundRobin (start_worker_thread_index : nat) (d : WorkerDirectory)
  : nat :=
  if decide (start_worker_thread_index = 0) then getNumWorkers d - 1
  else start_worker_thread_index - 1.
Definition round_robin_getNextWorkerID (previous_worker_thread_index : nat)
    (d : WorkerDirectory) : nat :=
  (previous_worker_thread_index + 1) mod getNumWorkers d.
Definition load_balancing_getNextWorkerID (d : WorkerDirectory) : outcome nat :=
  '(i, _) ← getLeastLoadedWorker d; Ok i.

(** ** What the searches find *)

Lemma least_element l pre i b :
  pre !! i = Some b →
  (∀ j x, pre !! j = Some x → (b ≤ x)%N) →
  (∀ j x, j < i → pre !! j = Some x → (b < x)%N) →
  let r := best_element (λ y best, y <? best)%N (i, b) (length pre) l in
  (pre ++ l) !! r.1 = Some r.2 ∧
  (∀ j x, (pre ++ l) !! j = Some x → (r.2 ≤ x)%N) ∧
  (∀ j x, j < r.1 → (pre ++ l) !! j = Some x → (r.2 < x)%N).
Proof.
  revert pre i b. induction l as [|x l IH]; intros pre i b Hb Hle Hlt; cbn.
  { rewrite app_nil_r. auto. }
  replace (S (length pre)) with (length (pre ++ [x])) by (rewrite length_app; cbn; lia).
  replace (pre ++ x :: l) with ((pre ++ [x]) ++ l) by (by rewrite <- app_assoc).
  pose proof (lookup_lt_Some _ _ _ Hb) as Hbl.
  destruct (N.ltb_spec x b) as [Hx|Hx]; apply IH.
  - by rewrite list_lookup_middle.
  - intros j y [Hy|[? Hy]]%lookup_app_Some; [apply Hle in Hy; lia|].
    apply list_lookup_singleton_Some in Hy as [_ <-]. lia.
  - intros j y Hj Hy. rewrite lookup_app_l in Hy by done. apply Hle in Hy. lia.
  - by rewrite lookup_app_l.
  - intros j y [?|[? Hy]]%lookup_app_Some; [eauto|].
    by apply list_lookup_singleton_Some in Hy as [_ <-].
  - intros j y Hj Hy. rewrite lookup_app_l in Hy by lia. eauto.
Qed.

(** The worker found exists, has the least load, and is the first such. *)
Lemma getLeastLoadedWorker_spec d :
  num_queued_workorders d ≠ [] → ∃ w n, getLeastLoadedWorker d = Ok (w, n) ∧
    num_queued_workorders d !! w = Some n ∧
    (∀ j x, num_queued_workorders d !! j = Some x → (n ≤ x)%N) ∧
    (∀ j x, j < w → num_queued_workorders d !! j = Some x → (n < x)%N).
Proof.
  unfold getLeastLoadedWorker. destruct (num_queued_workorders d) as [|x l]; [done|].
  intros _. destruct (least_element l [x] 0 x) as (H1 & H2 & H3); [done|..].
  - intros j y [_ <-]%list_lookup_singleton_Some. done.
  - intros j y Hj. lia.
  - cbn [min_element]. destruct (best_element _ _ _ _) as [w n]. by exists w, n.
Qed.
