(* ===== verification/PolicyEnforcer.v ===== *)
(** * The policy enforcer of a single node

    Models query_execution/PolicyEnforcerBase.{hpp,cpp},
    PolicyEnforcerSingleNode.{hpp,cpp} and WorkerMessage.hpp: which queries run
    and which wait, the messages from the workers passed to the manager of
    their query, and the collection of work orders from the managers.

    The managers of the queries are reached through the class
    [QueryManagerOps], the member functions the enforcer calls; the instance
    for [QueryManagerSingleNode] is in [ForemanManager].  The directory
    of the workers, which the foreman shares with the enforcer by a pointer, is
    a field here.  Parsing a message is the inverse of its serialization, so a
    message is the value its sender made. *)

From S2P Require Import Prelude StateMonad WorkerDirectory QueryManager.
From stdpp Require Import options.

(** ** Messages *)

(** [WorkerMessageType] *)
Inductive WorkerMessageType := kRebuildWorkOrder | kWorkOrder.
#[global] Instance WorkerMessageType_eq_dec : EqDecision WorkerMessageType.
Proof. solve_decision. Defined.

Definition kInvalidRecipientIndexHint : Z := -1.

Record WorkerMessage (W : Type) := MkWorkerMessage {
  work_unit : W;
  relational_op_index : nat;
  message_type : WorkerMessageType;
  recipient_index_hint : Z;
}.
Arguments MkWorkerMessage {_} _ _ _ _.
Arguments work_unit {_} _.
Arguments relational_op_index {_} _.
Arguments message_type {_} _.
Arguments recipient_index_hint {_} _.

Definition RebuildWorkOrderMessage {W} (rebuild_workorder : W) (op : nat)
  : WorkerMessage W :=
  MkWorkerMessage rebuild_workorder op kRebuildWorkOrder kInvalidRecipientIndexHint.
Definition WorkOrderMessage {W} (workorder : W) (op : nat) : WorkerMessage W :=
  MkWorkerMessage workorder op kWorkOrder kInvalidRecipientIndexHint.

(** [serialization::WorkOrderCompletionMessage] *)
Record CompletionMessage := {
  work_order_type : WorkerMessageType;
  operator_index : nat;
  completed_query_id : nat;
  partition_id : nat;
  worker_thread_index : nat;
  execution_start_time : N;
  execution_end_time : N;
}.

(** The messages the foreman receives. *)
Inductive TaggedMessage (Handle F : Type) :=
| WorkOrderCompleteMessage (proto : CompletionMessage)
| RebuildWorkOrderCompleteMessage (proto : CompletionMessage)
| CatalogRelationNewBlockMessage (relation : Z) (block : nat) (partition : option nat)
| DataPipelineMessage (query op block : nat) (relation : Z) (partition : nat)
| WorkOrderFeedbackMessage (query rel_op_index : nat) (payload : F)
| AdmitRequestMessage (query_handles : list Handle)
| PoisonMessage.
Arguments WorkOrderCompleteMessage {_ _} _.
Arguments RebuildWorkOrderCompleteMessage {_ _} _.
Arguments CatalogRelationNewBlockMessage {_ _} _ _ _.
Arguments DataPipelineMessage {_ _} _ _ _ _ _.
Arguments WorkOrderFeedbackMessage {_ _} _ _ _.
Arguments AdmitRequestMessage {_ _} _.
Arguments PoisonMessage {_ _}.

(** ** The manager of a query, as the enforcer sees it *)

Class QueryManagerOps (QM Handle W F : Type) := {
  query_id : Handle → nat;
  (** [new QueryManagerSingleNode(..., query_handle, ...)] *)
  qm_new : Handle → outcome QM;
  qm_work_order_complete : nat → stateM QM unit;
  qm_rebuild_complete : nat → stateM QM unit;
  qm_data_pipeline : nat → nat → Z → nat → stateM QM unit;
  qm_feedback : nat → F → stateM QM unit;
  qm_status : nat → stateM QM QueryStatusCode;
  (** [getQueryExecutionState().hasQueryExecutionFinished()] *)
  qm_finished : QM → bool;
  qm_next_message : stateM QM (option (WorkerMessage W));
}.

Record WorkOrderTimeEntry := {
  worker_id : nat;
  operator_id : nat;
  start_time : N;
  end_time : N;
}.

(** [CatalogRelation::addBlock] of a relation and, with a partition,
    [PartitionScheme::addBlockToPartition]. *)
Class CatalogOps (Cat : Type) := {
  catalog_add_block : Z → nat → option nat → Cat → Cat;
}.

Definition kMaxConcurrentQueries : nat := 1.

Section enforcer.
Context {QM Handle W F Cat : Type}.
Context `{!QueryManagerOps QM Handle W F, !CatalogOps Cat, !HashOrder nat}.
(** [FLAGS_max_msgs_per_dispatch_round] *)
Context (max_msgs_per_dispatch_round : nat).

Record PolicyEnforcer := {
  catalog_database : Cat;
  profile_individual_workorders : bool;
  admitted_queries : gmap nat QM;
  waiting_queries : list Handle;
  workorder_time_recorder : gmap nat (list WorkOrderTimeEntry);
  worker_directory : WorkerDirectory;
}.
Abbreviation M := (stateM PolicyEnforcer).
Abbreviation Message := (TaggedMessage Handle F).

Definition with_queries (a : gmap nat QM) (q : list Handle) (s : PolicyEnforcer)
  : PolicyEnforcer := {|
  catalog_database := catalog_database s;
  profile_individual_workorders := profile_individual_workorders s;
  admitted_queries := a;
  waiting_queries := q;
  workorder_time_recorder := workorder_time_recorder s;
  worker_directory := worker_directory s;
|}.
Definition with_directory (d : WorkerDirectory) (s : PolicyEnforcer)
  : PolicyEnforcer := {|
  catalog_database := catalog_database s;
  profile_individual_workorders := profile_individual_workorders s;
  admitted_queries := admitted_queries s;
  waiting_queries := waiting_queries s;
  workorder_time_recorder := workorder_time_recorder s;
  worker_directory := d;
|}.
Definition with_recorder (r : gmap nat (list WorkOrderTimeEntry)) (s : PolicyEnforcer)
  : PolicyEnforcer := {|
  catalog_database := catalog_database s;
  profile_individual_workorders := profile_individual_workorders s;
  admitted_queries := admitted_queries s;
  waiting_queries := waiting_queries s;
  workorder_time_recorder := r;
  worker_directory := worker_directory s;
|}.
Definition with_catalog (c : Cat) (s : PolicyEnforcer) : PolicyEnforcer := {|
  catalog_database := c;
  profile_individual_workorders := profile_individual_workorders s;
  admitted_queries := admitted_queries s;
  waiting_queries := waiting_queries s;
  workorder_time_recorder := workorder_time_recorder s;
  worker_directory := worker_directory s;
|}.

Definition new_PolicyEnforcer (c : Cat) (profile : bool) (d : WorkerDirectory)
  : PolicyEnforcer := {|
  catalog_database := c;
  profile_individual_workorders := profile;
  admitted_queries := ∅;
  waiting_queries := [];
  workorder_time_recorder := ∅;
  worker_directory := d;
|}.

(** [admitted_queries_[query_id]->m()]: for an unknown query the entry is a
    null pointer. *)
Definition at_query {A} (q : nat) (m : stateM QM A) : M A := λ s,
  match admitted_queries s !! q with
  | None => Err UndefinedBehaviour
  | Some qm =>
      '(a, qm') ← m qm;
      Ok (a, with_queries (<[q := qm']> (admitted_queries s)) (waiting_queries s) s)
  end.

Definition hasQueries (s : PolicyEnforcer) : bool :=
  negb (bool_decide (admitted_queries s = ∅) && bool_decide (waiting_queries s = [])).

Definition hasProfilingResults (q : nat) (s : PolicyEnforcer) : bool :=
  bool_decide (is_Some (workorder_time_recorder s !! q)).

(** [.at(query_id)] throws for an unknown query, which ends the process. *)
Definition getProfilingResults (q : nat) (s : PolicyEnforcer)
  : outcome (list WorkOrderTimeEntry) :=
  match workorder_time_recorder s !! q with
  | Some l => Ok l
  | None => Err CheckFailed
  end.

Definition decrementNumQueuedWorkOrders (proto : CompletionMessage) : M unit :=
  updates (λ s,
    d ← worker_decrementNumQueuedWorkOrders (worker_thread_index proto)
          (worker_directory s);
    Ok (with_directory d s)).

Definition recordTimeForWorkOrder (proto : CompletionMessage) : M unit :=
  modify (λ s,
    let q := completed_query_id proto in
    let entries := default [] (workorder_time_recorder s !! q) in
    with_recorder
      (<[q := entries ++ [{| worker_id := worker_thread_index proto;
                             operator_id := operator_index proto;
                             start_time := execution_start_time proto;
                             end_time := execution_end_time proto |}]]>
         (workorder_time_recorder s)) s).

Definition removeQuery (q : nat) : M unit :=
  updates (λ s,
    match admitted_queries s !! q with
    | None => Err UndefinedBehaviour
    | Some _ => Ok (with_queries (delete q (admitted_queries s)) (waiting_queries s) s)
    end).

Definition admitQuery (query_handle : Handle) : M bool := λ s,
  if decide (size (admitted_queries s) < kMaxConcurrentQueries) then
    match admitted_queries s !! query_id query_handle with
    | None =>
        qm ← qm_new query_handle;
        Ok (true, with_queries
                    (<[query_id query_handle := qm]> (admitted_queries s))
                    (waiting_queries s) s)
    | Some _ => Ok (false, s)
    end
  else
    Ok (false, with_queries (admitted_queries s)
                 (waiting_queries s ++ [query_handle]) s).

(** The loop of [admitQueries]. *)
Fixpoint admit_from (all_queries_admitted : bool) (query_handles : list Handle)
  : M bool :=
  match query_handles with
  | [] => mret all_queries_admitted
  | curr_query :: rest =>
      if all_queries_admitted then
        b ← admitQuery curr_query; admit_from b rest
      else
        modify (λ s, with_queries (admitted_queries s)
                       (waiting_queries s ++ [curr_query]) s) ;;
        admit_from false rest
  end.
Definition admitQueries (query_handles : list Handle) : M bool :=
  admit_from true query_handles.

(** The part of [processMessage] after the switch. *)
Definition finish_message (q op_index : nat) : M unit :=
  code ← at_query q (qm_status op_index);
  match code with
  | kQueryExecuted =>
      removeQuery q ;;
      waiting ← gets waiting_queries;
      match waiting with
      | [] => mret tt
      | new_query :: rest =>
          modify (λ s, with_queries (admitted_queries s) rest s) ;;
          admitQuery new_query ;;
          mret tt
      end
  | _ => mret tt
  end.

(** [LOG(FATAL)] for the types the switch does not list. *)
Definition processMessage (tagged_message : Message) : M unit :=
  match tagged_message with
  | WorkOrderCompleteMessage proto =>
      decrementNumQueuedWorkOrders proto ;;
      profile ← gets profile_individual_workorders;
      (if (profile : bool) then recordTimeForWorkOrder proto else mret tt) ;;
      at_query (completed_query_id proto)
        (qm_work_order_complete (operator_index proto)) ;;
      finish_message (completed_query_id proto) (operator_index proto)
  | RebuildWorkOrderCompleteMessage proto =>
      decrementNumQueuedWorkOrders proto ;;
      at_query (completed_query_id proto)
        (qm_rebuild_complete (operator_index proto)) ;;
      finish_message (completed_query_id proto) (operator_index proto)
  | CatalogRelationNewBlockMessage relation block partition =>
      modify (λ s, with_catalog
                     (catalog_add_block relation block partition (catalog_database s)) s)
  | DataPipelineMessage q op block relation partition =>
      at_query q (qm_data_pipeline op block relation partition) ;;
      finish_message q op
  | WorkOrderFeedbackMessage q op payload =>
      at_query q (qm_feedback op payload) ;;
      finish_message q op
  | _ => fails CheckFailed
  end.

(** The [while] loop of [getWorkerMessages] for one query: the messages
    collected, and whether the query has finished. *)
Fixpoint collect (share q : nat) : M (list (WorkerMessage W) * bool) :=
  match share with
  | 0 => mret ([], false)
  | S share' =>
      next_worker_message ← at_query q qm_next_message;
      match next_worker_message with
      | Some message =>
          '(messages, finished) ← collect share' q;
          mret (message :: messages, finished)
      | None =>
          finished ← at_query q (gets qm_finished);
          mret ([], finished)
      end
  end.
Fixpoint collect_all (share : nat) (qs : list nat)
  : M (list (WorkerMessage W) * list nat) :=
  match qs with
  | [] => mret ([], [])
  | q :: qs' =>
      '(messages, finished) ← collect share q;
      '(messages', finished_ids) ← collect_all share qs';
      mret (messages ++ messages', if (finished : bool) then q :: finished_ids
                                   else finished_ids)
  end.

Definition getWorkerMessages : M (list (WorkerMessage W)) :=
  admitted ← gets admitted_queries;
  if decide (admitted = ∅) then mret []
  else
    let per_query_share := max_msgs_per_dispatch_round / size admitted in
    '(worker_messages, finished_queries_ids) ←
      collect_all per_query_share (set_iter (dom admitted));
    for_each removeQuery finished_queries_ids ;;
    mret worker_messages.
End enforcer.

Arguments PolicyEnforcer : clear implicits.
