(* ===== verification/Foreman.v ===== *)
(** * The foreman and the workers of a single node

    Models query_execution/ForemanSingleNode.cpp and Worker.cpp: one turn of
    the foreman's event loop, what a worker answers to a work order, and the
    system of a foreman, its workers and their queues.

    The message bus delivers the messages for a client in the order they were
    sent; a message addressed to [getClientID(w)] arrives at worker [w].  The
    work order at the head of a worker's queue is the one it executes. *)

From S2P Require Import Prelude StateMonad WorkerDirectory QueryManager.
From S2P Require Import PolicyEnforcer.
From stdpp Require Import options.

(** [WorkOrder::getQueryID] and [WorkOrder::getPartitionId]. *)
Class WorkOrderIds (W : Type) := {
  getQueryID : W → nat;
  getPartitionId : W → nat;
}.

Section foreman.
Context {QM Handle W F Cat : Type}.
Context `{!QueryManagerOps QM Handle W F, !CatalogOps Cat, !HashOrder nat}.
Context `{!WorkOrderIds W}.
(** [FLAGS_max_msgs_per_dispatch_round] and [FLAGS_min_load_per_worker] *)
Context (max_msgs_per_dispatch_round : nat) (min_load_per_worker : N).
Abbreviation PE := (PolicyEnforcer QM Handle Cat).
Abbreviation M := (stateM PE).
Abbreviation Message := (TaggedMessage Handle F).

(** ** [ForemanSingleNode] *)

Definition is_new_block (msg : Message) : bool :=
  match msg with CatalogRelationNewBlockMessage _ _ _ => true | _ => false end.

Definition canCollectNewMessages (msg : Message) : M bool :=
  if is_new_block msg then mret false
  else
    '(_, load) ← reads (λ s, getLeastLoadedWorker (worker_directory s));
    mret (load <=? min_load_per_worker)%N.

(** The message and the worker it is sent to. *)
Definition sendWorkerMessage (worker_thread_index : nat) (message : WorkerMessage W)
  : M (nat * WorkerMessage W) :=
  reads (λ s, getClientID worker_thread_index (worker_directory s)) ;;
  mret (worker_thread_index, message).

Definition increment_worker (worker_thread_index : nat) : M unit :=
  updates (λ s,
    d ← worker_incrementNumQueuedWorkOrders worker_thread_index (worker_directory s);
    Ok (with_directory d s)).

Definition dispatch_one (message : WorkerMessage W) : M (nat * WorkerMessage W) :=
  if decide (recipient_index_hint message = kInvalidRecipientIndexHint) then
    '(least_loaded_worker_thread_index, _) ←
      reads (λ s, getLeastLoadedWorker (worker_directory s));
    sent ← sendWorkerMessage least_loaded_worker_thread_index message;
    increment_worker least_loaded_worker_thread_index ;;
    mret sent
  else
    (** [static_cast<size_t>]: another negative hint is an index past the end. *)
    recipient ← (if decide (0 ≤ recipient_index_hint message)%Z
                 then mret (Z.to_nat (recipient_index_hint message))
                 else fails UndefinedBehaviour);
    sent ← sendWorkerMessage recipient message;
    increment_worker recipient ;;
    mret sent.
Fixpoint dispatchWorkerMessages (messages : list (WorkerMessage W))
  : M (list (nat * WorkerMessage W)) :=
  match messages with
  | [] => mret []
  | message :: rest =>
      sent ← dispatch_one message;
      others ← dispatchWorkerMessages rest;
      mret (sent :: others)
  end.

(** The switch of the event loop; [false] for the message that ends it. *)
Definition foreman_handle (msg : Message) : M bool :=
  match msg with
  | AdmitRequestMessage query_handles =>
      match query_handles with
      | [query_handle] => admitQuery query_handle ;; mret true
      | _ => admitQueries query_handles ;; mret true
      end
  | PoisonMessage => mret false
  | _ => processMessage msg ;; mret true
  end.

(** One turn of the event loop of [run]: the messages sent to workers, and
    whether the main thread is told that the workload is complete; [None] when
    the loop ends. *)
Definition run_turn (msg : Message) : M (option (list (nat * WorkerMessage W) * bool)) :=
  continues ← foreman_handle msg;
  if negb continues then mret None
  else
    can_collect ← canCollectNewMessages msg;
    sent ← (if (can_collect : bool) then
              new_messages ← getWorkerMessages max_msgs_per_dispatch_round;
              dispatchWorkerMessages new_messages
            else mret []);
    has_queries ← gets hasQueries;
    mret (Some (sent, negb has_queries)).

(** ** [Worker] *)

(** [executeWorkOrderHelper] and the message that [run] sends after it. *)
Definition executeWorkOrderHelper (worker : nat) (worker_message : WorkerMessage W)
    (start stop : N) : CompletionMessage := {|
  work_order_type := message_type worker_message;
  operator_index := relational_op_index worker_message;
  completed_query_id := getQueryID (work_unit worker_message);
  partition_id := getPartitionId (work_unit worker_message);
  worker_thread_index := worker;
  execution_start_time := start;
  execution_end_time := stop;
|}.
Definition worker_answer (worker : nat) (worker_message : WorkerMessage W)
    (start stop : N) : Message :=
  let proto := executeWorkOrderHelper worker worker_message start stop in
  match message_type worker_message with
  | kWorkOrder => WorkOrderCompleteMessage proto
  | kRebuildWorkOrder => RebuildWorkOrderCompleteMessage proto
  end.

(** What a work order may send while it executes. *)
Inductive emits (m : WorkerMessage W) : Message → Prop :=
| emits_new_block relation block partition :
    emits m (CatalogRelationNewBlockMessage relation block partition)
| emits_pipeline block relation partition :
    emits m (DataPipelineMessage (getQueryID (work_unit m)) (relational_op_index m)
               block relation partition)
| emits_feedback payload :
    message_type m = kWorkOrder →
    emits m (WorkOrderFeedbackMessage (getQueryID (work_unit m))
               (relational_op_index m) payload).

(** ** The system *)

Record System := {
  enforcer : PE;
  worker_inboxes : list (list (WorkerMessage W));
  foreman_inbox : list Message;
  main_inbox : nat;
}.

(** The messages sent, each added to the queue of its worker. *)
Definition deliver (inboxes : list (list (WorkerMessage W)))
    (sent : nat * WorkerMessage W) : list (list (WorkerMessage W)) :=
  alter (λ q, q ++ [sent.2]) sent.1 inboxes.

Definition new_System (c : Cat) (profile : bool) (client_ids : list nat)
    (numa : list Z) : System := {|
  enforcer := new_PolicyEnforcer c profile
                (new_WorkerDirectory (length client_ids) client_ids numa);
  worker_inboxes := replicate (length client_ids) [];
  foreman_inbox := [];
  main_inbox := 0;
|}.
End foreman.

Arguments System : clear implicits.
