(* ===== verification/ForemanInv.v ===== *)
(** * What holds of a foreman and its workers

    The class [QueryManagerLaws] is what the manager of a query promises: no
    member function fails on a message of a work order in execution, and the
    manager keeps count of them.  From it alone, the invariant of the system
    [Inv]: the foreman's counters are the messages in the queues, at most one
    query runs, and when nothing is in flight no query is left running. *)

From S2P Require Import Prelude StateMonad QueryExecutionState WorkerDirectory.
From S2P Require Import QueryManager PolicyEnforcer Foreman.
From stdpp Require Import options.

(** ** Work orders in flight *)

(** A work order of a query, its kind and its operator. *)
Definition flight : Type := nat * WorkerMessageType * nat.
Definition count (x : flight) (l : list flight) : nat := length (filter (eq x) l).

Lemma flight_count_nil x : count x [] = 0.
Proof. done. Qed.
Lemma flight_count_cons x y l : count x (y :: l) = (if decide (x = y) then 1 else 0) + count x l.
Proof. unfold count. rewrite filter_cons. by case_decide. Qed.
Lemma flight_count_app x l k : count x (l ++ k) = count x l + count x k.
Proof. unfold count. by rewrite filter_app, length_app. Qed.
Lemma flight_count_perm x l k : l ≡ₚ k → count x l = count x k.
Proof. unfold count. by intros ->. Qed.
Lemma flight_count_elem x l : x ∈ l ↔ count x l ≠ 0.
Proof.
  induction l as [|y l IH]; [rewrite elem_of_nil; naive_solver|].
  rewrite elem_of_cons, IH, flight_count_cons. case_decide; naive_solver lia.
Qed.

(** ** What the manager of a query promises *)

(** The work orders of a query in execution, by kind and operator. *)
Definition executions : Type := WorkerMessageType → nat → nat.
Definition one_more (k : WorkerMessageType) (i : nat) (x : executions) : executions :=
  λ k' i', if decide (k' = k ∧ i' = i) then S (x k' i') else x k' i'.
Definition one_less (k : WorkerMessageType) (i : nat) (x : executions) : executions :=
  λ k' i', if decide (k' = k ∧ i' = i) then x k' i' - 1 else x k' i'.

Definition qm_complete {QM Handle W F} `{!QueryManagerOps QM Handle W F}
    (k : WorkerMessageType) : nat → stateM QM unit :=
  match k with
  | kWorkOrder => qm_work_order_complete
  | kRebuildWorkOrder => qm_rebuild_complete
  end.

Class QueryManagerLaws (QM Handle W F : Type) `{!QueryManagerOps QM Handle W F}
    `{!WorkOrderIds W} := {
  (** The queries that are submitted. *)
  handle_ok : Handle → Prop;
  (** The manager of a query after [t] calls, with [x] in execution. *)
  qm_state : Handle → QM → executions → N → Prop;
  qm_operator : Handle → nat → Prop;
  (** The blocks that the consumers of an operator accept, and the feedback an
      operator understands. *)
  qm_accepts : Handle → nat → Z → nat → Prop;
  qm_hears : Handle → nat → F → Prop;
  (** What the execution of work orders changes under the manager. *)
  qm_environment : QM → QM → Prop;
  law_new h : handle_ok h →
    ∃ s, qm_new h = Ok s ∧ qm_state h s (λ _ _, 0) 0;
  law_next h s x t : handle_ok h → qm_state h s x t → (t + 1 < 2 ^ 64)%N →
    wp qm_next_message (λ o s',
      match o with
      | Some m => getQueryID (work_unit m) = query_id h ∧
          recipient_index_hint m = kInvalidRecipientIndexHint ∧
          qm_state h s' (one_more (message_type m) (relational_op_index m) x) (t + 1)
      | None => qm_state h s' x (t + 1) ∧
          ((∀ k i, x k i = 0) → qm_finished s' = true)
      end) s;
  law_complete h s x t k i : handle_ok h → qm_state h s x t → (t + 1 < 2 ^ 64)%N →
    x k i ≠ 0 →
    wp (qm_complete k i) (λ _ s', qm_state h s' (one_less k i x) (t + 1)) s;
  law_pipeline h s x t i block rel part : handle_ok h → qm_state h s x t →
    (t + 1 < 2 ^ 64)%N → x kWorkOrder i ≠ 0 ∨ x kRebuildWorkOrder i ≠ 0 →
    qm_accepts h i rel part →
    wp (qm_data_pipeline i block rel part) (λ _ s', qm_state h s' x (t + 1)) s;
  law_feedback h s x t i f : handle_ok h → qm_state h s x t →
    (t + 1 < 2 ^ 64)%N → x kWorkOrder i ≠ 0 → qm_hears h i f →
    wp (qm_feedback i f) (λ _ s', qm_state h s' x (t + 1)) s;
  law_environment h s x t s' : qm_state h s x t → qm_environment s s' →
    qm_state h s' x (t + 1);
  law_operator h s x t k i : handle_ok h → qm_state h s x t → (t < 2 ^ 64)%N →
    x k i ≠ 0 → qm_operator h i;
  law_status h s x t i : handle_ok h → qm_state h s x t → (t < 2 ^ 64)%N →
    qm_operator h i →
    wp (qm_status i) (λ c s', s' = s ∧ (c = kQueryExecuted ↔ qm_finished s = true)) s;
  law_finished h s x t : handle_ok h → qm_state h s x t → (t < 2 ^ 64)%N →
    qm_finished s = true → ∀ k i, x k i = 0;
}.

Section inv.
Context {QM Handle W F Cat : Type}.
Context `{!QueryManagerOps QM Handle W F, !CatalogOps Cat, !HashOrder nat}.
Context `{!WorkOrderIds W, !QueryManagerLaws QM Handle W F}.
Context (max_msgs : nat) (min_load : N).
Abbreviation PE := (PolicyEnforcer QM Handle Cat).
Abbreviation Message := (TaggedMessage Handle F).

(** ** The enforcer

    [fls] are the work orders in flight, [t] bounds the clocks. *)

Record EInv (fls : list flight) (t : N) (e : PE) : Prop := {
  e_one : size (admitted_queries e) ≤ 1;
  e_query q qm : admitted_queries e !! q = Some qm → ∃ h x t',
    handle_ok h ∧ query_id h = q ∧ qm_state h qm x t' ∧ (t' ≤ t)%N ∧
    ∀ k i, x k i = count (q, k, i) fls;
  e_known q k i : (q, k, i) ∈ fls → is_Some (admitted_queries e !! q);
  e_waiting : Forall handle_ok (waiting_queries e);
}.

Lemma EInv_perm fls fls' t t' e :
  EInv fls t e → fls ≡ₚ fls' → (t ≤ t')%N → EInv fls' t' e.
Proof.
  intros [H1 H2 H3 H4] Hp Ht. split; try done.
  - intros q qm Hq. destruct (H2 q qm Hq) as (h & x & t0 & ? & ? & ? & ? & Hx).
    exists h, x, t0. split_and!; try done; [lia|]. intros k i.
    by rewrite <- (flight_count_perm _ _ _ Hp).
  - intros q k i. rewrite <- Hp. apply H3.
Qed.

(** Two enforcers with the same queries. *)
Lemma EInv_same fls t e e' :
  EInv fls t e → admitted_queries e' = admitted_queries e →
  waiting_queries e' = waiting_queries e → EInv fls t e'.
Proof. intros [H1 H2 H3 H4] Ha Hw. split; by rewrite ?Ha, ?Hw. Qed.

(** A call on the manager of [q]: it stays the only query. *)
Lemma EInv_query fls fls' t e q qm qm' h x t' :
  EInv fls t e → admitted_queries e !! q = Some qm →
  handle_ok h → query_id h = q → qm_state h qm' x t' → (t' ≤ t + 1)%N →
  (∀ k i, x k i = count (q, k, i) fls') →
  (∀ q' k i, (q', k, i) ∈ fls' → q' = q ∨ (q', k, i) ∈ fls) →
  EInv fls' (t + 1)
    (with_queries (<[q := qm']> (admitted_queries e)) (waiting_queries e) e).
Proof.
  intros [H1 H2 H3 H4] Hq Hh Hid Hst Ht Hx Hf. split; cbn.
  - rewrite map_size_insert_Some; [done|by rewrite Hq].
  - intros q' qm0 Hq'. apply lookup_insert_Some in Hq' as [[<- <-]|[Hne Hq']].
    + by exists h, x, t'.
    + exfalso. assert (2 ≤ size (admitted_queries e)); [|lia].
      rewrite <- (insert_delete_id _ _ _ Hq), map_size_insert_None
        by apply lookup_delete_eq.
      assert (size (delete q (admitted_queries e)) ≠ 0); [|lia].
      intros Hz%map_size_empty_iff.
      assert (delete q (admitted_queries e) !! q' = Some qm0) as Hd
        by (by rewrite lookup_delete_ne).
      rewrite Hz in Hd. done.
  - intros q' k i Hin. destruct (decide (q' = q)) as [->|Hne];
      [by rewrite lookup_insert_eq|].
    rewrite lookup_insert_ne by done. destruct (Hf _ _ _ Hin); [done|eauto].
  - done.
Qed.

Definition same_directory (e e' : PE) : Prop :=
  worker_directory e' = worker_directory e.

Lemma wp_at_query {A} q (m : stateM QM A) (Q : A → PE → Prop) e qm :
  admitted_queries e !! q = Some qm →
  wp m (λ a qm', Q a (with_queries (<[q := qm']> (admitted_queries e))
                        (waiting_queries e) e)) qm →
  wp (at_query q m) Q e.
Proof.
  intros Hq. unfold wp, at_query. rewrite Hq. by destruct (m qm) as [[a qm']|].
Qed.

Lemma EInv_none fls t e : EInv fls t e → admitted_queries e = ∅ → fls = [].
Proof.
  intros HI He. destruct fls as [|[[q k] i] fls]; [done|].
  destruct (e_known _ _ _ HI q k i) as [qm Hq]; [left|]. by rewrite He in Hq.
Qed.

(** The only query, when it has finished, has nothing in flight. *)
Lemma EInv_finished fls t e q qm :
  EInv fls t e → (t < 2 ^ 64)%N → admitted_queries e !! q = Some qm →
  qm_finished qm = true → fls = [] ∧ admitted_queries e = {[q := qm]}.
Proof.
  intros HI Ht Hq Hfin.
  destruct (e_query _ _ _ HI q qm Hq) as (h & x & t' & Hh & Hid & Hst & Ht' & Hx).
  assert (admitted_queries e = {[q := qm]}) as Hone.
  { pose proof (e_one _ _ _ HI) as H1.
    rewrite <- (insert_delete_id _ _ _ Hq) in H1 |- *.
    rewrite map_size_insert_None in H1 by apply lookup_delete_eq.
    assert (size (delete q (admitted_queries e)) = 0) as ->%map_size_empty_iff by lia.
    done. }
  split; [|done]. destruct fls as [|[[q' k] i] fls]; [done|].
  destruct (e_known _ _ _ HI q' k i) as [qm' Hq']; [left|].
  rewrite Hone in Hq'. apply lookup_singleton_Some in Hq' as [<- <-].
  pose proof (law_finished h qm x t' Hh Hst ltac:(lia) Hfin k i) as Hz.
  rewrite Hx, flight_count_cons, decide_True in Hz by done. lia.
Qed.

Lemma EInv_idle t e w :
  Forall handle_ok w → EInv [] t (with_queries ∅ w e).
Proof.
  intros Hw. split; cbn; [|done|by intros ??? ?%elem_of_nil|done].
  rewrite map_size_empty. lia.
Qed.

Lemma admitQuery_spec fls t e h :
  EInv fls t e → handle_ok h →
  wp (admitQuery h) (λ _ e', EInv fls t e' ∧ same_directory e e') e.
Proof.
  intros HI Hh. unfold wp, admitQuery. case_decide as Hsz.
  - assert (admitted_queries e = ∅) as He.
    { apply map_size_empty_iff. unfold kMaxConcurrentQueries in Hsz. lia. }
    rewrite He, lookup_empty. pose proof (EInv_none _ _ _ HI He) as ->.
    destruct (law_new h Hh) as (s & -> & Hst). cbn. split; [|done].
    split; cbn; [by rewrite insert_empty, map_size_singleton| | |apply HI].
    + intros q qm Hq. rewrite insert_empty in Hq.
      apply lookup_singleton_Some in Hq as [<- <-].
      exists h, (λ _ _, 0), 0%N. split_and!; try done. lia.
    + by intros q k i ?%elem_of_nil.
  - split; [|done]. destruct HI. split; try done. cbn.
    by apply Forall_app_2; [|apply Forall_singleton].
Qed.

Lemma admitQueries_spec fls t e hs b :
  EInv fls t e → Forall handle_ok hs →
  wp (admit_from b hs) (λ _ e', EInv fls t e' ∧ same_directory e e') e.
Proof.
  revert e b. induction hs as [|h hs IH]; intros e b HI Hhs; [by apply wp_ret|].
  apply Forall_cons in Hhs as [Hh Hhs]. cbn [admit_from]. destruct b.
  - apply wp_bind. eapply wp_mono; [by apply admitQuery_spec|].
    intros b e1 [HI1 Hd1]. cbn. eapply wp_mono; [by apply IH|].
    intros ? e2 [HI2 Hd2]. split; [done|]. by etrans.
  - apply wp_bind, wp_modify. eapply wp_mono; [apply IH; [|done]|].
    + destruct HI. split; try done. cbn. by apply Forall_app_2; [|apply Forall_singleton].
    + intros ? e2 [HI2 Hd2]. by split.
Qed.

Lemma finish_message_spec fls t e q i qm h x t' :
  EInv fls t e → (t < 2 ^ 64)%N → admitted_queries e !! q = Some qm →
  handle_ok h → qm_state h qm x t' → (t' ≤ t)%N → qm_operator h i →
  wp (finish_message q i) (λ _ e', EInv fls t e' ∧ same_directory e e') e.
Proof.
  intros HI Ht Hq Hh Hst Ht' Hi. apply wp_bind. eapply wp_at_query; [done|].
  eapply wp_mono; [apply (law_status h qm x t' i); try done; lia|].
  intros c qm' [-> Hc]. rewrite insert_id by done.
  set (e1 := with_queries _ _ e). assert (EInv fls t e1) as HI1 by (by eapply EInv_same).
  destruct c; [by apply wp_ret| |by apply wp_ret].
  destruct (EInv_finished fls t e q qm) as [-> Hone]; try done; [by apply Hc|].
  apply wp_bind. eapply wp_updates; [cbn; by rewrite Hq|].
  apply wp_bind, wp_gets. cbn. pose proof (e_waiting _ _ _ HI) as Hw.
  rewrite Hone, delete_singleton_eq. destruct (waiting_queries e) as [|h' w].
  - apply wp_ret. split; [by apply EInv_idle|done].
  - apply Forall_cons in Hw as [Hh' Hw].
    apply wp_bind, wp_modify, wp_bind. cbn.
    eapply wp_mono; [apply admitQuery_spec; [by apply (EInv_idle t e)|done]|].
    intros b e2 [HI2 Hd2]. by apply wp_ret.
Qed.

(** A handler of the manager of [q] for operator [i], then the check whether
    the query is over; [fls'] is what is in flight after it. *)
Lemma handler_spec fls fls' t e q i (m : stateM QM unit) :
  EInv fls t e → (t + 1 < 2 ^ 64)%N → (∃ k, (q, k, i) ∈ fls) →
  (∀ q' k' i', (q', k', i') ∈ fls' → (q', k', i') ∈ fls) →
  (∀ h qm x t', handle_ok h → query_id h = q → qm_state h qm x t' → (t' ≤ t)%N →
     (∀ k' i', x k' i' = count (q, k', i') fls) →
     ∃ x', wp m (λ _ s', qm_state h s' x' (t' + 1)) qm ∧
       ∀ k' i', x' k' i' = count (q, k', i') fls') →
  wp (at_query q m ;; finish_message q i)
    (λ _ e', EInv fls' (t + 1) e' ∧ same_directory e e') e.
Proof.
  intros HI Ht [k Hin] Hsub Hm. destruct (e_known _ _ _ HI q k i Hin) as [qm Hq].
  destruct (e_query _ _ _ HI q qm Hq) as (h & x & t' & Hh & Hid & Hst & Ht' & Hx).
  assert (qm_operator h i) as Hi.
  { eapply (law_operator h qm x t' k i); try done; [lia|]. rewrite Hx.
    by apply flight_count_elem. }
  destruct (Hm h qm x t') as (x' & Hwp & Hx'); try done.
  apply wp_bind. eapply wp_at_query; [done|]. eapply wp_mono; [done|].
  cbn beta. intros ? qm' Hst'.
  eapply wp_mono; [eapply (finish_message_spec fls' (t + 1) _ q i qm' h x' (t' + 1))|].
  - eapply EInv_query; try done; [lia|]. intros q' k' i' H. right. eauto.
  - lia.
  - cbn. by rewrite lookup_insert_eq.
  - done.
  - done.
  - lia.
  - done.
  - intros ? e' [? ?]. by split.
Qed.

Lemma complete_handler fls t e q k i :
  EInv ((q, k, i) :: fls) t e → (t + 1 < 2 ^ 64)%N →
  wp (at_query q (qm_complete k i) ;; finish_message q i)
    (λ _ e', EInv fls (t + 1) e' ∧ same_directory e e') e.
Proof.
  intros HI Ht. eapply handler_spec; [done|done|by exists k; left|by right|].
  intros h qm x t' Hh _ Hst Ht' Hx. exists (one_less k i x). split.
  - eapply law_complete; try done; [lia|]. rewrite Hx, flight_count_cons, decide_True by done. lia.
  - intros k' i'. unfold one_less. rewrite Hx, flight_count_cons.
    repeat case_decide; naive_solver lia.
Qed.

(** What a work order of the submitted query with the id of its message may
    send: blocks its consumers accept, feedback its operator understands. *)
Definition content_ok (msg : Message) : Prop :=
  match msg with
  | DataPipelineMessage q op _ r p =>
      ∀ h, handle_ok h → query_id h = q → qm_accepts h op r p
  | WorkOrderFeedbackMessage q op f =>
      ∀ h, handle_ok h → query_id h = q → qm_hears h op f
  | _ => True
  end.

(** The messages that need a work order in execution. *)
Definition message_ok (workers : nat) (fls : list flight) (msg : Message) : Prop :=
  match msg with
  | WorkOrderCompleteMessage p | RebuildWorkOrderCompleteMessage p =>
      worker_thread_index p < workers
  | DataPipelineMessage q op _ _ _ => (∃ k, (q, k, op) ∈ fls) ∧ content_ok msg
  | WorkOrderFeedbackMessage q op _ => (q, kWorkOrder, op) ∈ fls ∧ content_ok msg
  | AdmitRequestMessage hs => Forall handle_ok hs
  | CatalogRelationNewBlockMessage _ _ _ => True
  | PoisonMessage => False
  end.
(** The work order that a message completes. *)
Definition completes (msg : Message) : list flight :=
  match msg with
  | WorkOrderCompleteMessage p =>
      [(completed_query_id p, kWorkOrder, operator_index p)]
  | RebuildWorkOrderCompleteMessage p =>
      [(completed_query_id p, kRebuildWorkOrder, operator_index p)]
  | _ => []
  end.
Definition completes_on (w : nat) (msg : Message) : nat :=
  match msg with
  | WorkOrderCompleteMessage p | RebuildWorkOrderCompleteMessage p =>
      if decide (worker_thread_index p = w) then 1 else 0
  | _ => 0
  end.

(** The loads the directory counts. *)
Record loads (d : WorkerDirectory) (workers : nat) (load : nat → nat) : Prop := {
  loads_length : length (num_queued_workorders d) = workers;
  loads_clients : length (client_ids d) = workers;
  loads_load w : w < workers →
    num_queued_workorders d !! w = Some (N.of_nat (load w));
}.

Lemma loads_ext d n f g : loads d n f → (∀ w, w < n → f w = g w) → loads d n g.
Proof.
  intros [H1 H2 H3] Hfg. split; [done..|]. intros w Hw. by rewrite H3, Hfg.
Qed.

Lemma loads_decrement d n f w :
  loads d n f → w < n → (0 < f w)%nat → (N.of_nat (f w) < 2 ^ 64)%N →
  ∃ d', worker_decrementNumQueuedWorkOrders w d = Ok d' ∧
    loads d' n (λ w', if decide (w' = w) then f w' - 1 else f w').
Proof.
  intros [H1 H2 H3] Hw Hpos Hlt. unfold worker_decrementNumQueuedWorkOrders.
  rewrite (vec_at_Some _ _ _ (H3 w Hw)). cbn. rewrite vec_set_lt by lia. cbn.
  eexists. split; [done|]. split; cbn; [by rewrite length_insert|done|].
  intros w' Hw'. case_decide as E.
  - subst. rewrite list_lookup_insert_eq by lia. f_equal. rewrite size_dec_pos; lia.
  - rewrite list_lookup_insert_ne by done. auto.
Qed.

Lemma loads_increment d n f w :
  loads d n f → w < n → (N.of_nat (f w) + 1 < 2 ^ 64)%N →
  ∃ d', worker_incrementNumQueuedWorkOrders w d = Ok d' ∧
    loads d' n (λ w', if decide (w' = w) then S (f w') else f w').
Proof.
  intros [H1 H2 H3] Hw Hlt. unfold worker_incrementNumQueuedWorkOrders.
  rewrite (vec_at_Some _ _ _ (H3 w Hw)). cbn. rewrite vec_set_lt by lia. cbn.
  eexists. split; [done|]. split; cbn; [by rewrite length_insert|done|].
  intros w' Hw'. case_decide as E.
  - subst. rewrite list_lookup_insert_eq by lia. f_equal. rewrite size_inc_small; lia.
  - rewrite list_lookup_insert_ne by done. auto.
Qed.

(** ** The event loop *)

Lemma same_directory_loads e e' n f :
  same_directory e e' → loads (worker_directory e) n f → loads (worker_directory e') n f.
Proof. by intros ->. Qed.

Lemma wp_decrement proto n f e (Q : unit → PE → Prop) :
  let w := worker_thread_index proto in
  loads (worker_directory e) n (λ w', (if decide (w = w') then 1 else 0) + f w') →
  w < n → (N.of_nat (1 + f w) < 2 ^ 64)%N →
  (∀ d, loads d n f → Q tt (with_directory d e)) →
  wp (decrementNumQueuedWorkOrders proto) Q e.
Proof.
  intros w Hl Hw Hlt HQ.
  destruct (loads_decrement _ _ _ w Hl Hw) as (d & Hd & Hl').
  { rewrite decide_True by done. lia. }
  { by rewrite decide_True. }
  subst w. eapply wp_updates; [by rewrite Hd|]. apply HQ. eapply loads_ext; [done|].
  intros w' _. cbn. repeat case_decide; naive_solver lia.
Qed.

Lemma wp_loads {A} (p : stateM PE A) fls t n f e :
  wp p (λ _ e', EInv fls t e' ∧ same_directory e e') e →
  loads (worker_directory e) n f →
  wp p (λ _ e', EInv fls t e' ∧ loads (worker_directory e') n f) e.
Proof.
  intros Hp Hl. eapply wp_mono; [exact Hp|]. intros a e' [HI Hd].
  split; [done|by eapply same_directory_loads].
Qed.

(** The three messages that come from a work order in execution, once the load
    of its worker has been updated. *)
Lemma process_complete fls t n f e q k i :
  EInv ((q, k, i) :: fls) t e → loads (worker_directory e) n f → (t + 1 < 2 ^ 64)%N →
  wp (at_query q (qm_complete k i) ;; finish_message q i)
    (λ _ e', EInv fls (t + 1) e' ∧ loads (worker_directory e') n f) e.
Proof. intros HI Hl Ht. apply wp_loads; [by apply complete_handler|done]. Qed.

Lemma process_other fls t e msg n f :
  EInv fls t e → message_ok n fls msg → completes msg = [] →
  loads (worker_directory e) n f → (t + 1 < 2 ^ 64)%N →
  match msg with AdmitRequestMessage _ => False | _ => True end →
  wp (processMessage msg)
    (λ _ e', EInv fls (t + 1) e' ∧ loads (worker_directory e') n f) e.
Proof.
  intros HI Hok Hc Hl Ht Hno.
  destruct msg as [p|p|r b part|q op b r part|q op payload|hs|]; try done.
  - apply wp_modify. split; [|done]. eapply EInv_perm; [by eapply EInv_same|done|lia].
  - destruct Hok as [[k Hk] Hok].
    apply wp_loads; [|done]. eapply (handler_spec fls fls t e q op); try done; [by eexists|].
    intros h qm x t' Hh Hid Hst Ht' Hx. exists x. split; [|done].
    eapply law_pipeline; try done; [lia| |by apply Hok].
    rewrite !Hx, <- !flight_count_elem. destruct k; auto.
  - destruct Hok as [Hk Hok].
    apply wp_loads; [|done]. eapply (handler_spec fls fls t e q op); try done; [by eexists|].
    intros h qm x t' Hh Hid Hst Ht' Hx. exists x. split; [|done].
    eapply law_feedback; try done; [lia| |by apply Hok]. by rewrite Hx, <- flight_count_elem.
Qed.

Lemma admit_spec fls t e n f hs :
  EInv fls t e → Forall handle_ok hs → loads (worker_directory e) n f →
  wp (foreman_handle (AdmitRequestMessage hs)) (λ b e', b = true ∧
    EInv fls t e' ∧ loads (worker_directory e') n f) e.
Proof.
  intros HI Hhs Hl. destruct hs as [|h [|h' hs]]; apply wp_bind;
    (eapply wp_mono; [apply wp_loads; [|exact Hl]|by intros ? e' [? ?]]).
  - by apply admitQueries_spec.
  - apply admitQuery_spec; [done|by apply Forall_singleton].
  - by apply admitQueries_spec.
Qed.

Lemma handle_spec n fls t e msg f :
  EInv (completes msg ++ fls) t e → message_ok n fls msg →
  loads (worker_directory e) n (λ w, completes_on w msg + f w) →
  (∀ w, N.of_nat (1 + f w) < 2 ^ 64)%N → (t + 1 < 2 ^ 64)%N →
  wp (foreman_handle msg) (λ b e', b = true ∧ EInv fls (t + 1) e' ∧
    loads (worker_directory e') n f) e.
Proof.
  intros HI Hok Hl Hlt Ht.
  destruct msg as [p|p|r b part|q op b r part|q op payload|hs|]; try done.
  6: { eapply wp_mono; [by apply admit_spec|]. intros b e' (-> & HI' & Hl').
       split_and!; [done|eapply EInv_perm; [done|done|lia]|done]. }
  all: apply wp_bind; eapply (wp_mono _ (λ _ e', EInv fls (t + 1) e' ∧
    loads (worker_directory e') n f)); [|by intros ? e' [? ?]].
  3-5: by apply process_other.
  all: apply wp_bind; apply (wp_decrement p n f); [done..|]; intros d Hd.
  - apply wp_bind, wp_gets, wp_bind.
    eapply (wp_mono _ (λ _ e', EInv (completes (WorkOrderCompleteMessage p : Message) ++ fls)
      t e' ∧ loads (worker_directory e') n f)).
    { destruct profile_individual_workorders; [apply wp_modify|apply wp_ret];
        (split; [by eapply EInv_same|done]). }
    intros ? e1 [HI1 Hl1]. by apply (process_complete _ _ _ _ _ _ kWorkOrder).
  - apply (process_complete _ _ _ _ _ _ kRebuildWorkOrder); [|done..].
    by eapply EInv_same.
Qed.

(** The work order in flight that a message to a worker is. *)
Definition flight_of (m : WorkerMessage W) : flight :=
  (getQueryID (work_unit m), message_type m, relational_op_index m).

Definition no_hint (m : WorkerMessage W) : Prop :=
  recipient_index_hint m = kInvalidRecipientIndexHint.

(** What the loop for query [q] has collected. *)
Record collected (q share : nat) (fls : list flight) (t : N) (e : PE)
    (msgs : list (WorkerMessage W)) (finished : bool) (e' : PE) : Prop := {
  col_inv : EInv ((flight_of <$> msgs) ++ fls) (t + N.of_nat share) e';
  col_directory : same_directory e e';
  col_waiting : waiting_queries e' = waiting_queries e;
  col_length : length msgs ≤ share;
  col_hints : Forall no_hint msgs;
  col_query : ∃ qm, admitted_queries e' !! q = Some qm ∧
    (finished = true → qm_finished qm = true);
  col_finished : 0 < share → msgs = [] → fls = [] → finished = true;
}.

Lemma collect_spec q share fls t e :
  EInv fls t e → is_Some (admitted_queries e !! q) →
  (t + N.of_nat share < 2 ^ 64)%N →
  wp (collect share q) (λ r e', collected q share fls t e r.1 r.2 e') e.
Proof.
  revert fls t e. induction share as [|share IH]; intros fls t e HI [qm Hq] Ht.
  { apply wp_ret. split; cbn; try done; try lia; [|by exists qm].
    eapply EInv_perm; [done|done|lia]. }
  destruct (e_query _ _ _ HI q qm Hq) as (h & x & t' & Hh & Hid & Hst & Ht' & Hx).
  cbn [collect]. apply wp_bind. eapply wp_at_query; [done|].
  eapply wp_mono; [apply (law_next h qm x t'); try done; lia|].
  intros [m|] qm'.
  - intros (Hmq & Hint & Hst'). set (e1 := with_queries _ _ e).
    assert (EInv (flight_of m :: fls) (t + 1) e1) as HI1.
    { eapply EInv_query; try done; [lia|..].
      - intros k i. unfold one_more, flight_of. rewrite Hmq, flight_count_cons, Hx, Hid.
        repeat case_decide; naive_solver.
      - intros q' k i [E|?]%elem_of_cons; [|by right]. left.
        unfold flight_of in E. by simplify_eq. }
    apply wp_bind. eapply wp_mono; [apply (IH (flight_of m :: fls) (t + 1)%N e1 HI1)|].
    + cbn. by rewrite lookup_insert_eq.
    + lia.
    + intros [msgs fin] e2 [H1 H2 H3 H4 H5 H6 H7]. cbn in *. apply wp_ret.
      split; cbn; try done.
      * eapply EInv_perm; [done|by rewrite <- Permutation_middle|lia].
      * lia.
      * by constructor.
  - intros [Hst' Hfin]. set (e1 := with_queries _ _ e).
    assert (admitted_queries e1 !! q = Some qm') as Hq1 by (cbn; by rewrite lookup_insert_eq).
    assert (EInv fls (t + 1) e1) as HI1
      by (eapply EInv_query; try done; [lia|]; by right).
    apply wp_bind. eapply wp_at_query; [done|]. apply wp_gets, wp_ret.
    split; cbn; try done; [|lia|..].
    + eapply EInv_perm; [|done|].
      * eapply EInv_same; [exact HI1|cbn; by rewrite insert_insert_eq|done].
      * lia.
    + exists qm'. by rewrite lookup_insert_eq.
    + intros _ _ ->. apply Hfin. intros k i. by rewrite Hx.
Qed.

Lemma set_iter_singleton (q : nat) : set_iter ({[q]} : gset nat) = [q].
Proof.
  unfold set_iter. rewrite elements_singleton.
  apply Permutation_length_1_inv. symmetry. apply hash_order_perm.
Qed.

Lemma getWorkerMessages_spec fls t e :
  EInv fls t e → (t + N.of_nat max_msgs < 2 ^ 64)%N → 0 < max_msgs →
  wp (getWorkerMessages max_msgs) (λ msgs e',
    EInv ((flight_of <$> msgs) ++ fls) (t + N.of_nat max_msgs) e' ∧
    same_directory e e' ∧ length msgs ≤ max_msgs ∧ Forall no_hint msgs ∧
    (fls = [] → msgs = [] → admitted_queries e' = ∅)) e.
Proof.
  intros HI Ht Hmax. apply wp_bind, wp_gets. case_decide as He.
  { apply wp_ret. split_and!; try done; [|cbn; lia]. eapply EInv_perm; [done|done|lia]. }
  destruct (map_choose _ He) as (q & qm & Hq).
  assert (dom (admitted_queries e) = {[q]} ∧ size (admitted_queries e) = 1) as [Hdom Hsz].
  { pose proof (e_one _ _ _ HI) as H1.
    rewrite <- (insert_delete_id _ _ _ Hq) in H1 |- *.
    rewrite map_size_insert_None in * by apply lookup_delete_eq.
    assert (size (delete q (admitted_queries e)) = 0) as Hz by lia.
    rewrite Hz. apply map_size_empty_iff in Hz. rewrite Hz. by rewrite insert_empty, dom_singleton_L. }
  rewrite Hdom, Hsz, set_iter_singleton, Nat.div_1_r.
  apply wp_bind. cbn [collect_all]. apply wp_bind.
  eapply wp_mono; [apply (collect_spec q max_msgs fls t e HI); [by eauto|done]|].
  intros [msgs fin] e1 [H1 H2 H3 H4 H5 (qm' & Hq' & Hf) H7]. cbn in *.
  apply wp_ret. rewrite app_nil_r. destruct fin.
  - destruct (EInv_finished _ _ _ _ _ H1 ltac:(lia) Hq' (Hf eq_refl)) as [Hnil Hone].
    apply app_eq_nil in Hnil as [Hm ->]. apply fmap_nil_inv in Hm as ->.
    apply wp_bind. cbn [for_each]. apply wp_bind.
    eapply wp_updates; [by rewrite Hq'|]. do 2 apply wp_ret.
    rewrite Hone, delete_singleton_eq. split_and!; try done.
    apply EInv_idle. apply H1.
  - apply wp_bind, wp_ret. split_and!; try done.
    intros Hfl Hm. by specialize (H7 Hmax Hm Hfl).
Qed.

(** How many of the messages sent went to worker [w]. *)
Definition sent_to (w : nat) (sent : list (nat * WorkerMessage W)) : nat :=
  length (filter (λ s, s.1 = w) sent).

Lemma sent_to_cons w s sent :
  sent_to w (s :: sent) = (if decide (s.1 = w) then 1 else 0) + sent_to w sent.
Proof. unfold sent_to. rewrite filter_cons. by case_decide. Qed.

(** The state of the enforcer apart from the directory. *)
Definition same_queries (e e' : PE) : Prop :=
  admitted_queries e' = admitted_queries e ∧ waiting_queries e' = waiting_queries e.

Lemma dispatch_one_spec n f e m :
  no_hint m → loads (worker_directory e) n f → 0 < n →
  (∀ w, N.of_nat (f w) + 1 < 2 ^ 64)%N →
  wp (dispatch_one m) (λ s e', s.2 = m ∧ s.1 < n ∧ same_queries e e' ∧
    loads (worker_directory e') n (λ w, f w + if decide (s.1 = w) then 1 else 0)) e.
Proof.
  intros Hm Hl Hn Hlt. unfold dispatch_one. rewrite decide_True by exact Hm.
  destruct (getLeastLoadedWorker_spec (worker_directory e)) as (w & l & Hw & Hlw & _).
  { intros Hnil. pose proof (loads_length _ _ _ Hl). rewrite Hnil in *. cbn in *. lia. }
  assert (w < n) as Hwn
    by (apply lookup_lt_Some in Hlw; by rewrite (loads_length _ _ _ Hl) in Hlw).
  destruct (loads_increment _ _ _ w Hl Hwn (Hlt w)) as (d & Hd & Hl').
  apply wp_bind. eapply wp_reads; [done|]. apply wp_bind.
  destruct (lookup_lt_is_Some_2 (client_ids (worker_directory e)) w) as [cid Hcid];
    [by rewrite (loads_clients _ _ _ Hl)|].
  apply wp_bind. eapply wp_reads; [by apply vec_at_Some|].
  apply wp_ret, wp_bind. eapply wp_updates; [cbn; by rewrite Hd|].
  apply wp_ret. cbn. split_and!; [done..|]. eapply loads_ext; [done|].
  intros w' _. cbn. repeat case_decide; naive_solver lia.
Qed.

Lemma dispatch_messages_spec n f e msgs :
  Forall no_hint msgs → loads (worker_directory e) n f → 0 < n →
  (∀ w, N.of_nat (f w + length msgs) < 2 ^ 64)%N →
  wp (dispatchWorkerMessages msgs) (λ sent e', sent.*2 = msgs ∧
    Forall (λ s, s.1 < n) sent ∧ same_queries e e' ∧
    loads (worker_directory e') n (λ w, f w + sent_to w sent)) e.
Proof.
  revert f e. induction msgs as [|m msgs IH]; intros f e Hms Hl Hn Hlt.
  { apply wp_ret. split_and!; try done. eapply loads_ext; [done|].
    intros w _. cbn. lia. }
  apply Forall_cons in Hms as [Hm Hms]. cbn [dispatchWorkerMessages length] in *.
  apply wp_bind. eapply wp_mono; [apply dispatch_one_spec; try done|].
  { intros w. specialize (Hlt w). lia. }
  intros s e1 (<- & Hs & [Ha Hw] & Hl1). apply wp_bind.
  eapply wp_mono; [eapply IH; try done|].
  { intros w. specialize (Hlt w). cbn. case_decide; lia. }
  intros sent e2 (<- & Hsent & [Ha2 Hw2] & Hl2). apply wp_ret.
  split_and!; [done|by constructor|split; congruence|].
  eapply loads_ext; [done|]. intros w _. cbn beta. rewrite sent_to_cons. lia.
Qed.

(** One turn of the event loop. *)
Record turn_ok (n : nat) (fls : list flight) (t : N) (f : nat → nat)
    (sent : list (nat * WorkerMessage W)) (e' : PE) : Prop := {
  turn_inv : EInv ((flight_of <$> sent.*2) ++ fls) t e';
  turn_sent : Forall (λ s, s.1 < n) sent;
  turn_length : length sent ≤ max_msgs;
  turn_loads : loads (worker_directory e') n (λ w, f w + sent_to w sent);
  turn_live : fls = [] → sent = [] → admitted_queries e' = ∅;
}.

Lemma collect_turn n fls t e f :
  EInv fls t e → loads (worker_directory e) n f → 0 < n → 0 < max_msgs →
  (∀ w, N.of_nat (f w + max_msgs) < 2 ^ 64)%N →
  (t + N.of_nat max_msgs < 2 ^ 64)%N →
  wp (new_messages ← getWorkerMessages max_msgs; dispatchWorkerMessages new_messages)
    (λ sent e', turn_ok n fls (t + N.of_nat max_msgs) f sent e') e.
Proof.
  intros HI Hl Hn Hmax Hlt Ht. apply wp_bind.
  eapply wp_mono; [by apply getWorkerMessages_spec|].
  intros msgs e1 (HI1 & Hd1 & Hlen & Hhint & Hlive). cbn beta.
  eapply wp_mono; [apply (dispatch_messages_spec n f); try done|].
  { by eapply same_directory_loads. }
  { intros w. specialize (Hlt w). lia. }
  intros sent e2 (<- & Hsent & [Ha Hw] & Hl2). rewrite length_fmap in Hlen.
  split; try done; [by eapply EInv_same|].
  intros Hfl ->. rewrite Ha. by apply Hlive.
Qed.

Lemma run_turn_spec n fls t e msg f :
  EInv (completes msg ++ fls) t e → message_ok n fls msg →
  loads (worker_directory e) n (λ w, completes_on w msg + f w) →
  0 < n → 0 < max_msgs →
  (∀ w, N.of_nat (1 + f w + max_msgs) < 2 ^ 64)%N →
  (t + 1 + N.of_nat max_msgs < 2 ^ 64)%N →
  (fls = [] → ∀ w, f w = 0) →
  (completes msg ++ fls = [] → admitted_queries e = ∅) →
  wp (run_turn max_msgs min_load msg) (λ r e', ∃ sent,
    r = Some (sent, negb (hasQueries e')) ∧
    turn_ok n fls (t + 1 + N.of_nat max_msgs) f sent e') e.
Proof.
  intros HI Hok Hl Hn Hmax Hlt Ht Hz Hlive.
  unfold run_turn. destruct (is_new_block msg) eqn:Hnb.
  { destruct msg; try discriminate Hnb. apply wp_bind, wp_bind, wp_modify, wp_ret.
    apply wp_bind, wp_ret, wp_bind, wp_ret, wp_bind, wp_gets, wp_ret.
    exists []. split; [done|]. cbn in *. split; try done; try (cbn; lia).
    - eapply EInv_perm; [by eapply EInv_same|done|lia].
    - eapply loads_ext; [done|]. intros w _. cbn. lia.
    - intros Hfl _. by apply Hlive. }
  apply wp_bind. eapply wp_mono; [apply (handle_spec n fls t e msg f); try done|].
  { intros w. specialize (Hlt w). lia. }
  { lia. }
  intros ? e1 (-> & HI1 & Hl1). cbn [negb]. apply wp_bind.
  unfold canCollectNewMessages. rewrite Hnb.
  destruct (getLeastLoadedWorker_spec (worker_directory e1)) as (w & l & Hw & Hlw & _).
  { intros Hnil. pose proof (loads_length _ _ _ Hl1). rewrite Hnil in *. cbn in *. lia. }
  apply wp_bind. eapply wp_reads; [done|]. apply wp_ret, wp_bind.
  eapply (wp_mono _ (turn_ok n fls (t + 1 + N.of_nat max_msgs) f)).
  - destruct (N.leb_spec l min_load) as [Hle|Hgt].
    + apply collect_turn; try done. intros w'. specialize (Hlt w'). lia.
    + apply wp_ret. split; try done; try (cbn; lia).
      * eapply EInv_perm; [done|done|lia].
      * eapply loads_ext; [done|]. intros w' _. cbn. lia.
      * intros Hfl _. rewrite (loads_load _ _ _ Hl1), (Hz Hfl) in Hlw; [|].
        -- injection Hlw as <-. lia.
        -- apply lookup_lt_Some in Hlw. by rewrite (loads_length _ _ _ Hl1) in Hlw.
  - intros sent e2 H2. apply wp_bind, wp_gets, wp_ret. by exists sent.
Qed.
End inv.
