(* ===== verification/ForemanSystem.v ===== *)
(** * Runs of a foreman with its workers

    The states that a foreman, its workers and the main thread reach by
    sending and handling messages one at a time, in any interleaving, and the
    invariant that the laws of the query managers give for all of them. *)

From S2P Require Import Prelude StateMonad WorkerDirectory QueryManager.
From S2P Require Import PolicyEnforcer Foreman ForemanInv.
From stdpp Require Import options.

Section system.
Context {QM Handle W F Cat : Type}.
Context `{!QueryManagerOps QM Handle W F, !CatalogOps Cat, !HashOrder nat}.
Context `{!WorkOrderIds W}.
Context (max_msgs : nat) (min_load : N).
(** The queries the main thread submits, the messages work orders send, and
    what their execution changes under the manager of a query. *)
Context (submitted : Handle → Prop) (sensible : TaggedMessage Handle F → Prop).
Context (environment : QM → QM → Prop).
Abbreviation Sys := (System QM Handle W F Cat).
Abbreviation Message := (TaggedMessage Handle F).

Definition send_foreman (msg : Message) (s : Sys) : Sys := {|
  enforcer := enforcer s;
  worker_inboxes := worker_inboxes s;
  foreman_inbox := foreman_inbox s ++ [msg];
  main_inbox := main_inbox s;
|}.
Definition after_turn (rest : list Message) (sent : list (nat * WorkerMessage W))
    (notify : bool) (e : PolicyEnforcer QM Handle Cat) (s : Sys) : Sys := {|
  enforcer := e;
  worker_inboxes := foldl deliver (worker_inboxes s) sent;
  foreman_inbox := rest;
  main_inbox := if notify then S (main_inbox s) else main_inbox s;
|}.
Definition after_work (w : nat) (ms : list (WorkerMessage W)) (msg : Message) (s : Sys)
  : Sys := {|
  enforcer := enforcer s;
  worker_inboxes := <[w := ms]> (worker_inboxes s);
  foreman_inbox := foreman_inbox s ++ [msg];
  main_inbox := main_inbox s;
|}.
Definition after_environment (q : nat) (qm : QM) (s : Sys) : Sys := {|
  enforcer := with_queries (<[q := qm]> (admitted_queries (enforcer s)))
                (waiting_queries (enforcer s)) (enforcer s);
  worker_inboxes := worker_inboxes s;
  foreman_inbox := foreman_inbox s;
  main_inbox := main_inbox s;
|}.

(** The states after [k] steps of a system started as [s0]. *)
Inductive system_reachable (s0 : Sys) : Sys → nat → Prop :=
| sys_new : system_reachable s0 s0 0
| sys_admit s k hs :
    system_reachable s0 s k → Forall submitted hs →
    system_reachable s0 (send_foreman (AdmitRequestMessage hs) s) (S k)
| sys_turn s k msg rest sent notify e :
    system_reachable s0 s k → foreman_inbox s = msg :: rest →
    run_turn max_msgs min_load msg (enforcer s) = Ok (Some (sent, notify), e) →
    system_reachable s0 (after_turn rest sent notify e s) (S k)
| sys_emit s k w m ms msg :
    system_reachable s0 s k → worker_inboxes s !! w = Some (m :: ms) →
    emits m msg → sensible msg → system_reachable s0 (send_foreman msg s) (S k)
| sys_finish s k w m ms start stop :
    system_reachable s0 s k → worker_inboxes s !! w = Some (m :: ms) →
    system_reachable s0 (after_work w ms (worker_answer w m start stop) s) (S k)
| sys_environment s k q qm qm' :
    system_reachable s0 s k → admitted_queries (enforcer s) !! q = Some qm →
    environment qm qm' →
    system_reachable s0 (after_environment q qm' s) (S k).

(** ** Queues *)

Definition executing_at_workers (s : Sys) : list flight :=
  flight_of <$> concat (worker_inboxes s).
(** The work orders sent to workers whose completion the foreman has not
    handled. *)
Definition flights (s : Sys) : list flight :=
  executing_at_workers s ++ (foreman_inbox s ≫= completes).
Definition load_of (s : Sys) (w : nat) : nat :=
  length (default [] (worker_inboxes s !! w)) +
  sum_list (completes_on w <$> foreman_inbox s).

Lemma concat_insert (inboxes : list (list (WorkerMessage W))) w q q' :
  inboxes !! w = Some q →
  ∃ others, concat inboxes ≡ₚ q ++ others ∧ concat (<[w := q']> inboxes) ≡ₚ q' ++ others.
Proof.
  intros (l1 & l2 & -> & _ & Hins)%lookup_insert_split. rewrite Hins.
  exists (concat l1 ++ concat l2). rewrite !concat_app. cbn.
  split; rewrite !app_assoc; f_equiv; apply Permutation_app_comm.
Qed.

Lemma deliver_spec sent (inboxes : list (list (WorkerMessage W))) :
  Forall (λ s, s.1 < length inboxes) sent →
  length (foldl deliver inboxes sent) = length inboxes ∧
  concat (foldl deliver inboxes sent) ≡ₚ concat inboxes ++ sent.*2 ∧
  ∀ w, w < length inboxes →
    length (default [] (foldl deliver inboxes sent !! w)) =
    length (default [] (inboxes !! w)) + sent_to w sent.
Proof.
  revert inboxes. induction sent as [|[w0 m] sent IH]; intros inboxes Hs; cbn [foldl].
  { split_and!; [done|by rewrite app_nil_r|]. intros w _. cbn. lia. }
  apply Forall_cons in Hs as [Hw0 Hs]. cbn in Hw0.
  destruct (lookup_lt_is_Some_2 _ _ Hw0) as [q Hq].
  assert (deliver inboxes (w0, m) = <[w0 := q ++ [m]]> inboxes) as Hd.
  { unfold deliver. cbn. apply list_eq. intros j. destruct (decide (j = w0)) as [->|Hj].
    - by rewrite list_lookup_alter_eq, Hq, list_lookup_insert_eq.
    - by rewrite list_lookup_alter_ne, list_lookup_insert_ne. }
  rewrite Hd. destruct (IH (<[w0 := q ++ [m]]> inboxes)) as (H1 & H2 & H3);
    [by rewrite length_insert|]. rewrite length_insert in *. split_and!.
  - done.
  - rewrite H2. destruct (concat_insert inboxes w0 q (q ++ [m]) Hq) as (o & Ho & Ho').
    rewrite Ho, Ho', fmap_cons. cbn. rewrite <- !app_assoc. f_equiv. cbn.
    by rewrite Permutation_middle.
  - intros w Hw. rewrite H3, sent_to_cons by done. cbn. case_decide as E.
    + subst. rewrite list_lookup_insert_eq, Hq by done. cbn. rewrite length_app. cbn. lia.
    + by rewrite list_lookup_insert_ne.
Qed.
End system.

(** Fewer queries and messages reach fewer states. *)
Lemma system_reachable_mono {QM Handle W F Cat : Type}
    `{!QueryManagerOps QM Handle W F, !CatalogOps Cat, !HashOrder nat, !WorkOrderIds W}
    max_msgs min_load (submitted submitted' : Handle → Prop)
    (sensible sensible' : TaggedMessage Handle F → Prop) (environment : QM → QM → Prop)
    (s0 s : System QM Handle W F Cat) k :
  (∀ h, submitted h → submitted' h) → (∀ msg, sensible msg → sensible' msg) →
  system_reachable max_msgs min_load submitted sensible environment s0 s k →
  system_reachable max_msgs min_load submitted' sensible' environment s0 s k.
Proof.
  intros Hsub Hsen. induction 1; [constructor|..]; econstructor; eauto using Forall_impl.
Qed.

Section invariant.
Context {QM Handle W F Cat : Type}.
Context `{!QueryManagerOps QM Handle W F, !CatalogOps Cat, !HashOrder nat}.
Context `{!WorkOrderIds W, !QueryManagerLaws QM Handle W F}.
Context (max_msgs : nat) (min_load : N) (n : nat).
Abbreviation Sys := (System QM Handle W F Cat).
Abbreviation Message := (TaggedMessage Handle F).
Implicit Types s : Sys.

Record SInv (t : N) (s : Sys) : Prop := {
  s_workers : length (worker_inboxes s) = n;
  s_enforcer : EInv (flights s) t (enforcer s);
  s_loads : loads (worker_directory (enforcer s)) n (load_of s);
  s_bound : (N.of_nat (length (flights s)) ≤ t)%N;
  s_inbox pre msg suf : foreman_inbox s = pre ++ msg :: suf →
    message_ok n (executing_at_workers s ++ (suf ≫= completes)) msg;
  (** When nothing is in flight no query is left running. *)
  s_live : flights s = [] → admitted_queries (enforcer s) = ∅;
}.

Lemma completes_on_le w (l : list Message) :
  sum_list (completes_on w <$> l) ≤ length (l ≫= completes).
Proof.
  induction l as [|msg l IH]; [done|]. rewrite fmap_cons, bind_cons, length_app. cbn.
  destruct msg; cbn; repeat case_decide; lia.
Qed.

Lemma load_bound s w : load_of s w ≤ length (flights s).
Proof.
  unfold load_of, flights, executing_at_workers. rewrite length_app, length_fmap.
  pose proof (completes_on_le w (foreman_inbox s)).
  destruct (worker_inboxes s !! w) as [q|] eqn:Hq; cbn; [|lia].
  destruct (concat_insert _ _ _ [] Hq) as (o & Ho & _). rewrite Ho, length_app. lia.
Qed.

Lemma message_ok_perm fls fls' (msg : Message) :
  fls ≡ₚ fls' → message_ok n fls msg → message_ok n fls' msg.
Proof.
  intros Hp. destruct msg; cbn; try done; [|by rewrite Hp].
  intros [[k Hk] Hc]. split; [|done]. exists k. by rewrite <- Hp.
Qed.
Lemma message_ok_more fls fls' (msg : Message) :
  fls ⊆ fls' → message_ok n fls msg → message_ok n fls' msg.
Proof. intros Hp. destruct msg; cbn; try done; [|naive_solver]. intros [[k Hk] ?]. eauto. Qed.

Lemma completes_on_snoc w (l : list Message) msg :
  sum_list (completes_on w <$> l ++ [msg]) =
  sum_list (completes_on w <$> l) + completes_on w msg.
Proof.
  induction l as [|msg' l IH]; [cbn; lia|].
  rewrite <- app_comm_cons, !fmap_cons. cbn [sum_list sum_list_with]. rewrite IH. lia.
Qed.

Lemma snoc_split {A} (l pre suf : list A) x y :
  l ++ [x] = pre ++ y :: suf →
  (suf = [] ∧ y = x ∧ pre = l) ∨ ∃ suf', suf = suf' ++ [x] ∧ l = pre ++ y :: suf'.
Proof.
  destruct suf as [|z suf _] using rev_ind; intros H.
  - apply app_inj_tail in H as [-> ->]. by left.
  - rewrite app_comm_cons, app_assoc in H. apply app_inj_tail in H as [-> ->].
    right. by exists suf.
Qed.

Lemma flights_send s msg :
  flights (send_foreman msg s) = flights s ++ completes msg.
Proof.
  unfold flights, executing_at_workers. cbn. by rewrite bind_app, bind_singleton, app_assoc.
Qed.
Lemma load_send s msg w :
  load_of (send_foreman msg s) w = load_of s w + completes_on w msg.
Proof. unfold load_of. cbn. rewrite completes_on_snoc. lia. Qed.

(** A message sent to the foreman that completes nothing. *)
Lemma send_keeps t s msg :
  SInv t s → completes msg = [] → (∀ w, completes_on w msg = 0) →
  message_ok n (executing_at_workers s) msg → SInv t (send_foreman msg s).
Proof.
  intros [H1 H2 H3 H4 H5 H6] Hc Hon Hok.
  split; rewrite ?flights_send, ?Hc, ?app_nil_r; try done.
  - eapply loads_ext; [done|]. intros w _. rewrite load_send, Hon. lia.
  - cbn. intros pre msg' suf [(-> & -> & ->)|(suf' & -> & Hin)]%snoc_split.
    + by rewrite app_nil_r.
    + rewrite bind_app, bind_singleton, Hc, app_nil_r. by eapply H5.
Qed.

Lemma emit_keeps t s w m ms msg :
  SInv t s → worker_inboxes s !! w = Some (m :: ms) → emits m msg → content_ok msg →
  SInv t (send_foreman msg s).
Proof.
  intros HI Hw He Hcont.
  assert (flight_of m ∈ executing_at_workers s) as Hin.
  { destruct (concat_insert _ _ _ [] Hw) as (o & Ho & _). unfold executing_at_workers.
    rewrite Ho. cbn. left. }
  apply send_keeps; [done|destruct He..]; try done; cbn; unfold flight_of in Hin.
  - by split; [eexists|].
  - by rewrite H in Hin.
Qed.

Lemma worker_answer_completes w m start stop :
  completes (worker_answer w m start stop : Message) = [flight_of m].
Proof. unfold worker_answer, flight_of. by destruct (message_type m). Qed.
Lemma worker_answer_on w m start stop w' :
  completes_on w' (worker_answer w m start stop : Message) =
  if decide (w = w') then 1 else 0.
Proof. unfold worker_answer. by destruct (message_type m). Qed.

Lemma finish_keeps t s w m ms start stop :
  SInv t s → worker_inboxes s !! w = Some (m :: ms) →
  SInv t (after_work w ms (worker_answer w m start stop) s).
Proof.
  intros [H1 H2 H3 H4 H5 H6] Hw. pose proof (lookup_lt_Some _ _ _ Hw) as Hlt.
  set (s' := after_work _ _ _ s).
  destruct (concat_insert _ _ _ ms Hw) as (o & Ho & Ho').
  assert (executing_at_workers s ≡ₚ flight_of m :: executing_at_workers s') as Hex.
  { unfold executing_at_workers. cbn. rewrite Ho, Ho'. done. }
  assert (flights s ≡ₚ flights s') as Hfl.
  { unfold flights. rewrite Hex. cbn.
    rewrite bind_app, bind_singleton, worker_answer_completes.
    rewrite app_assoc, (Permutation_app_comm _ [_]). done. }
  split.
  - cbn. by rewrite length_insert.
  - eapply EInv_perm; [done|done|lia].
  - eapply loads_ext; [done|]. intros w' Hw'. unfold load_of. cbn.
    rewrite completes_on_snoc, worker_answer_on.
    destruct (decide (w = w')) as [->|Hne].
    + rewrite list_lookup_insert_eq, Hw by done. cbn. lia.
    + rewrite list_lookup_insert_ne by done. lia.
  - by rewrite <- Hfl.
  - cbn. intros pre msg' suf [(-> & -> & ->)|(suf' & -> & Hin)]%snoc_split.
    + unfold worker_answer. destruct (message_type m); cbn; lia.
    + rewrite bind_app, bind_singleton, worker_answer_completes, app_assoc.
      eapply message_ok_perm; [|by eapply H5]. rewrite Hex.
      by rewrite (Permutation_app_comm _ [_]).
  - intros Hnil. apply H6. rewrite Hnil in Hfl. by apply Permutation_nil_r in Hfl.
Qed.

Lemma environment_keeps t s q qm qm' :
  SInv t s → admitted_queries (enforcer s) !! q = Some qm → qm_environment qm qm' →
  SInv (t + 1) (after_environment q qm' s).
Proof.
  intros [H1 H2 H3 H4 H5 H6] Hq He.
  destruct (e_query _ _ _ H2 q qm Hq) as (h & x & t' & Hh & Hid & Hst & Ht' & Hx).
  split; try done.
  - eapply (EInv_query _ _ _ _ q qm qm' h x (t' + 1)); try done;
      [by eapply law_environment|lia|by auto].
  - change (flights (after_environment q qm' s)) with (flights s). lia.
  - intros Hnil. apply H6 in Hnil. by rewrite Hnil in Hq.
Qed.

Lemma turn_keeps t s msg rest :
  SInv t s → 0 < n → 0 < max_msgs → (t + 1 + N.of_nat max_msgs < 2 ^ 64)%N →
  foreman_inbox s = msg :: rest →
  wp (run_turn max_msgs min_load msg) (λ r e', ∃ sent,
    r = Some (sent, negb (hasQueries e')) ∧
    SInv (t + 1 + N.of_nat max_msgs)
      (after_turn rest sent (negb (hasQueries e')) e' s)) (enforcer s).
Proof.
  intros [H1 H2 H3 H4 H5 H6] Hn Hmax Ht Hin.
  set (s1 := after_turn rest [] false (enforcer s) s).
  assert (flights s ≡ₚ completes msg ++ flights s1) as Hfl.
  { unfold flights. rewrite Hin, bind_cons. cbn.
    rewrite !app_assoc, (Permutation_app_comm (executing_at_workers s)). done. }
  pose proof (Permutation_length Hfl) as Hlen. rewrite length_app in Hlen.
  assert (∀ w, load_of s w = completes_on w msg + load_of s1 w) as Hload.
  { intros w. unfold load_of. rewrite Hin. cbn. lia. }
  eapply wp_mono; [apply (run_turn_spec max_msgs min_load n (flights s1) t (enforcer s)
    msg (load_of s1)); try done|].
  - eapply EInv_perm; [done|done|lia].
  - by apply (H5 [] msg rest).
  - by eapply loads_ext; [|intros w _; apply Hload].
  - intros w. pose proof (load_bound s1 w). lia.
  - intros Hnil w. pose proof (load_bound s1 w) as Hb. rewrite Hnil in Hb. cbn in Hb. lia.
  - intros Hnil. apply H6. rewrite Hnil in Hfl. by apply Permutation_nil_r in Hfl.
  - intros r e' (sent & -> & [T1 T2 T3 T4 T5]). exists sent. split; [done|].
    destruct (deliver_spec sent (worker_inboxes s)) as (D1 & D2 & D3); [by rewrite H1|].
    set (s' := after_turn rest sent _ e' s).
    assert (executing_at_workers s' ≡ₚ (flight_of <$> sent.*2) ++ executing_at_workers s1) as Hex.
    { unfold executing_at_workers. cbn. by rewrite D2, fmap_app, Permutation_app_comm. }
    assert (flights s' ≡ₚ (flight_of <$> sent.*2) ++ flights s1) as Hfl'.
    { unfold flights. by rewrite Hex, <- app_assoc. }
    pose proof (Permutation_length Hfl') as Hlen'.
    rewrite length_app, !length_fmap in Hlen'. split.
    + by rewrite <- H1, <- D1.
    + eapply EInv_perm; [done|by rewrite Hfl'|lia].
    + eapply loads_ext; [done|]. intros w Hw. unfold load_of. cbn.
      rewrite D3 by lia. lia.
    + lia.
    + intros pre msg' suf Hsuf. cbn in Hsuf.
      eapply message_ok_more; [|apply (H5 (msg :: pre) msg' suf); by rewrite Hin, Hsuf].
      intros x. rewrite Hex, !elem_of_app. naive_solver.
    + intros Hnil. rewrite Hnil in Hfl'. apply Permutation_nil_l in Hfl'. symmetry in Hfl'.
      apply app_eq_nil in Hfl' as [Hs ?]. apply T5; [done|].
      by apply fmap_nil_inv, fmap_nil_inv in Hs.
Qed.

Lemma SInv_mono t t' s : SInv t s → (t ≤ t')%N → SInv t' s.
Proof.
  intros [H1 H2 H3 H4 H5 H6] Ht. split; try done; [|lia].
  by eapply EInv_perm; [| |].
Qed.

Lemma reachable_SInv s0 s k :
  SInv 0 s0 → 0 < n → 0 < max_msgs →
  system_reachable max_msgs min_load handle_ok content_ok qm_environment s0 s k →
  (N.of_nat k * (1 + N.of_nat max_msgs) < 2 ^ 64)%N →
  SInv (N.of_nat k * (1 + N.of_nat max_msgs)) s.
Proof.
  intros H0 Hn Hmax. induction 1 as [|s k hs _ IH Hhs|s k msg rest sent notify e _ IH Hin Hrun
    |s k w m ms msg _ IH Hw He Hc|s k w m ms start stop _ IH Hw|s k q qm qm' _ IH Hq He];
    intros Hk; [done|..]; rewrite Nat2N.inj_succ, N.mul_succ_l in *;
    specialize (IH ltac:(lia)).
  - eapply SInv_mono; [by apply send_keeps|lia].
  - pose proof (turn_keeps _ s msg rest IH Hn Hmax ltac:(lia) Hin) as Ht.
    unfold wp in Ht. rewrite Hrun in Ht. destruct Ht as (sent' & [= <- ->] & Ht).
    eapply SInv_mono; [exact Ht|lia].
  - eapply SInv_mono; [by eapply emit_keeps|lia].
  - eapply SInv_mono; [by eapply finish_keeps|lia].
  - eapply SInv_mono; [by eapply environment_keeps|lia].
Qed.

Lemma new_SInv (c : Cat) profile cids numa :
  length cids = n → SInv 0 (new_System c profile cids numa).
Proof.
  intros Hn.
  assert (∀ k, concat (replicate k ([] : list (WorkerMessage W))) = []) as Hc
    by (by induction k).
  assert (flights (new_System c profile cids numa : Sys) = []) as Hfl.
  { unfold flights, executing_at_workers. cbn. by rewrite Hc. }
  split; rewrite ?Hfl; try done.
  - cbn. by rewrite length_replicate.
  - split; cbn; [rewrite map_size_empty; lia|done|by intros ??? ?%elem_of_nil|done].
  - split; cbn; [by rewrite length_replicate|done|]. intros w Hw.
    rewrite lookup_replicate_2 by lia. unfold load_of. cbn.
    by rewrite lookup_replicate_2 by lia.
  - by intros [].
Qed.
End invariant.
