(* ===== verification/ForemanManager.v ===== *)
(** * The manager of a query, as the foreman uses it

    [QueryManagerSingleNode] as the manager of the queries of a foreman: the
    instance of [QueryManagerOps], and of [QueryManagerLaws] from the
    invariant of the manager.  The work orders a manager counts as queued are
    changed only by handing one out and by the message that one is complete,
    which is a frame property of all its other functions. *)

From S2P Require Import Prelude StateMonad WorkOrdersContainer.
From S2P Require Import WorkOrdersScheduling DAG QueryExecutionState QueryManager.
From S2P Require Import QueryManagerViews QueryManagerInv QueryManagerHandlers.
From S2P Require Import QueryManagerRun QueryManagerTheorems.
From S2P Require Import PolicyEnforcer Foreman ForemanInv.
From stdpp Require Import options.

Section frame.
Context {Op W E F B : Type} `{!WorkOrder W} `{!RelationalOperator Op W E F B}.
Context `{!HashOrder (nat * bool)}.
Abbreviation QM := (QueryManager Op W E).

Definition queued (s : QM) : list N := queued_workorders_per_op (query_exec_state s).

(** The computation leaves the counters of queued work orders alone. *)
Definition frames {A} (p : stateM QM A) : Prop :=
  ∀ s a s', p s = Ok (a, s') → queued s' = queued s.

Lemma frames_ret {A} (a : A) : frames (mret a : stateM QM A).
Proof. intros s a' s' [= _ <-]. done. Qed.
Lemma frames_bind {A C} (p : stateM QM A) (f : A → stateM QM C) :
  frames p → (∀ a, frames (f a)) → frames (p ≫= f).
Proof.
  intros Hp Hf s c s'. unfold mbind, stateM_bind.
  destruct (p s) as [[a s1]|] eqn:E1; [|done]. intros E2.
  etrans; [by eapply Hf|by eapply Hp].
Qed.
Lemma frames_gets {A} (f : QM → A) : frames (gets f).
Proof. intros s a s' [= _ <-]. done. Qed.
Lemma frames_modify f : (∀ s, queued (f s) = queued s) → frames (modify f).
Proof. intros Hf s a s' [= _ <-]. apply Hf. Qed.
Lemma frames_reads {A} (f : QM → outcome A) : frames (reads f).
Proof. intros s a s'. unfold reads. destruct (f s); [|done]. by intros [= _ <-]. Qed.
Lemma frames_updates f :
  (∀ s s', f s = Ok s' → queued s' = queued s) → frames (updates f).
Proof.
  intros Hf s a s'. unfold updates. destruct (f s) eqn:E1; [|done].
  intros [= _ <-]. by apply Hf.
Qed.
Lemma frames_fails {A} e : frames (fails e : stateM QM A).
Proof. done. Qed.
Lemma frames_if {A} (b : bool) (p q : stateM QM A) :
  frames p → frames q → frames (if b then p else q).
Proof. by destruct b. Qed.
Lemma frames_for_each {A} (f : A → stateM QM unit) l :
  (∀ x, frames (f x)) → frames (for_each f l).
Proof.
  intros Hf. induction l as [|x l IH]; cbn; [apply frames_ret|].
  by apply frames_bind.
Qed.

Create HintDb frames.
Hint Resolve frames_ret frames_bind frames_gets frames_reads frames_fails frames_if
  frames_for_each : frames.
Ltac frames := repeat first
  [ apply frames_bind; [|intros] | apply frames_ret | apply frames_gets
  | apply frames_reads | apply frames_if | apply frames_for_each; intros
  | case_decide | progress case_match | by auto with frames ].

(** [inv_ok] on a function of the state, for [frames_updates]. *)
Lemma frames_op_updates i f : frames (op_updates i f).
Proof.
  apply frames_updates. intros s s'.
  destruct (getNodePayload i (query_dag s)) as [op|]; [cbn|done].
  destruct (f op) as [op'|]; [cbn|done].
  destruct (setNodePayload i op' (query_dag s)); cbn; [|done]. by intros [= <-].
Qed.
Lemma frames_container_updates f : frames (container_updates f).
Proof.
  apply frames_updates. intros s s'. destruct (f _); cbn; [|done]. by intros [= <-].
Qed.
Lemma frames_exec_updates f :
  (∀ x x', f x = Ok x' → queued_workorders_per_op x' = queued_workorders_per_op x) →
  frames (exec_updates f).
Proof.
  intros Hf. apply frames_updates. intros s s'.
  destruct (f (query_exec_state s)) as [x'|] eqn:E1; cbn; [|done].
  intros [= <-]. by apply Hf in E1.
Qed.
Hint Resolve frames_op_updates frames_container_updates : frames.

Lemma frames_setDone i : frames (exec_updates (setDoneGenerationWorkOrders i)).
Proof.
  apply frames_exec_updates. intros x x'. unfold setDoneGenerationWorkOrders.
  intros H. inv_ok. done.
Qed.
Lemma frames_setFinished i : frames (exec_updates (setExecutionFinished i)).
Proof.
  apply frames_exec_updates. intros x x'. unfold setExecutionFinished.
  intros H. inv_ok. done.
Qed.
Lemma frames_setRebuild i k b : frames (exec_updates (setRebuildStatus i k b)).
Proof.
  apply frames_exec_updates. intros x x'. unfold setRebuildStatus.
  case_match; [|done]. by intros [= <-].
Qed.
Lemma frames_decRebuild i : frames (exec_updates (decrementNumRebuildWorkOrders i)).
Proof.
  apply frames_exec_updates. intros x x'. unfold decrementNumRebuildWorkOrders.
  case_match; [|done]. by intros [= <-].
Qed.
Hint Resolve frames_setDone frames_setFinished frames_setRebuild frames_decRebuild : frames.

Lemma frames_modify_context f : frames (modify (λ s, with_context (f s) s)).
Proof. by apply frames_modify. Qed.
Hint Resolve frames_modify_context : frames.

Lemma frames_fetch i : frames (fetchNormalWorkOrders i).
Proof.
  unfold fetchNormalWorkOrders, generate. by frames.
Qed.
Hint Resolve frames_fetch : frames.

Lemma frames_initiate i : frames (initiateRebuild i).
Proof.
  unfold initiateRebuild, getRebuildWorkOrders. by frames.
Qed.
Lemma frames_and_then p q : frames p → frames q → frames (and_then p q).
Proof. intros. unfold and_then. by frames. Qed.
Lemma frames_or_else p q : frames p → frames q → frames (or_else p q).
Proof. intros. unfold or_else. by frames. Qed.
Lemma frames_not p : frames p → frames (not_m p).
Proof. intros. unfold not_m. by frames. Qed.
Hint Resolve frames_initiate frames_and_then frames_or_else frames_not : frames.

Lemma frames_over i : frames (checkNormalExecutionOver i).
Proof. unfold checkNormalExecutionOver, container_reads, exec_reads. auto with frames. Qed.
Lemma frames_required i : frames (checkRebuildRequired i).
Proof. apply frames_reads. Qed.
Hint Resolve frames_over frames_required : frames.

Lemma frames_erase_blocking i j : frames (erase_blocking i j : stateM QM unit).
Proof.
  apply frames_updates. intros s s'. destruct (erase_at _ _ _); cbn; [|done].
  by intros [= <-].
Qed.
Lemma frames_erase_non_blocking i j : frames (erase_non_blocking i j : stateM QM unit).
Proof.
  apply frames_updates. intros s s'. destruct (erase_at _ _ _); cbn; [|done].
  by intros [= <-].
Qed.
Hint Resolve frames_erase_blocking frames_erase_non_blocking : frames.

Lemma frames_visit mark r j :
  (∀ i, frames (mark i)) → frames (visit_dependent mark r j).
Proof. intros Hm. unfold visit_dependent, checkAllBlockingDependenciesMet. by frames. Qed.
Hint Resolve frames_visit : frames.

Lemma frames_mark fuel i : frames (markOperatorFinished fuel i).
Proof.
  revert i. induction fuel as [|fuel IH]; intros i; cbn; [apply frames_fails|].
  by frames.
Qed.
Hint Resolve frames_mark : frames.

Lemma frames_rebuild_complete fuel i :
  frames (processRebuildWorkOrderCompleteMessage fuel i).
Proof. unfold processRebuildWorkOrderCompleteMessage, checkRebuildOver. by frames. Qed.
Lemma frames_pipeline i b r p : frames (processDataPipelineMessage i b r p).
Proof.
  unfold processDataPipelineMessage, checkAllBlockingDependenciesMet. by frames.
Qed.
Lemma frames_feedback i f : frames (processFeedbackMessage i f).
Proof. unfold processFeedbackMessage, exec_reads. by frames. Qed.

Lemma bind_state_Ok {S A C} (p : stateM S A) (f : A → stateM S C) s c s' :
  (p ≫= f) s = Ok (c, s') → ∃ a s1, p s = Ok (a, s1) ∧ f a s1 = Ok (c, s').
Proof.
  unfold mbind, stateM_bind. destruct (p s) as [[a s1]|]; [|done]. eauto.
Qed.

(** The message that a work order is complete decrements its counter. *)
Lemma complete_queued fuel i s s' :
  processWorkOrderCompleteMessage fuel i s = Ok (tt, s') →
  ∃ k, queued s !! i = Some k ∧ queued s' = <[i := size_dec k]> (queued s).
Proof.
  intros ([] & s1 & H1 & H2)%bind_state_Ok. unfold exec_updates, updates in H1.
  unfold QueryExecutionState.decrementNumQueuedWorkOrders in H1.
  destruct (vec_at _ i) as [k|] eqn:Hk; [cbn in H1|done]. apply vec_at_Ok in Hk.
  rewrite vec_set_lt in H1 by (by eapply lookup_lt_Some). cbn in H1.
  exists k. split; [done|]. injection H1 as <-.
  revert H2. match goal with |- ?p ?s1 = _ → _ => assert (frames p) as Hf by frames end.
  intros Hp. by apply Hf in Hp.
Qed.

(** Handing out a normal work order increments its counter. *)
Lemma next_queued s o s' :
  getNextWorkerMessage s = Ok (o, s') →
  match o with
  | Some (_, i, false) =>
      ∃ k, queued s !! i = Some k ∧ queued s' = <[i := size_inc k]> (queued s)
  | _ => queued s' = queued s
  end.
Proof.
  intros H. unfold getNextWorkerMessage in H.
  apply bind_state_Ok in H as ([o' out] & s1 & H1 & H2).
  destruct (getNextWorkOrder _) as [[[o1 out1] c]|]; [|done].
  injection H1 as <- <- <-.
  destruct o1 as [w|], out1 as [[i []]|]; try (by injection H2 as <- <-).
  apply bind_state_Ok in H2 as ([] & s2 & H2 & [= <- <-]).
  unfold exec_updates, updates, incrementNumQueuedWorkOrders in H2. cbn in H2.
  destruct (vec_at _ i) as [k|] eqn:Hk; [cbn in H2|done]. apply vec_at_Ok in Hk.
  rewrite vec_set_lt in H2 by (by eapply lookup_lt_Some). cbn in H2.
  injection H2 as <-. by exists k.
Qed.
End frame.

(** The parts of query_optimizer/QueryHandle.hpp that the manager reads. *)
Record QueryHandle (Op E : Type) := MkHandle {
  handle_id : nat;
  handle_plan : DAG Op bool;
  handle_context : E;
}.
Arguments MkHandle {_ _} _ _ _.
Arguments handle_id {_ _} _.
Arguments handle_plan {_ _} _.
Arguments handle_context {_ _} _.

Section manager.
Context {Op W E F B : Type} `{!WorkOrder W} `{!RelationalOperator Op W E F B}.
Context `{!HashOrder (nat * bool)} `{!WorkOrderIds W} (m : nat).
Abbreviation QM := (QueryManager Op W E).
Abbreviation Handle := (QueryHandle Op E).

(** The message that [getNextWorkerMessage] makes of a work order. *)
Definition to_message (o : option (W * nat * bool)) : option (WorkerMessage W) :=
  match o with
  | Some (w, i, true) => Some (RebuildWorkOrderMessage w i)
  | Some (w, i, false) => Some (WorkOrderMessage w i)
  | None => None
  end.

(** The fuel of [markOperatorFinished] is the number of operators, plus one. *)
Definition manager_ops : QueryManagerOps QM Handle W F := {|
  query_id := handle_id;
  qm_new h := new_QueryManager (S (length (handle_plan h))) m (handle_plan h)
                (handle_context h);
  qm_work_order_complete i := λ s,
    processWorkOrderCompleteMessage (S (length (query_dag s))) i s;
  qm_rebuild_complete i := λ s,
    processRebuildWorkOrderCompleteMessage (S (length (query_dag s))) i s;
  qm_data_pipeline := processDataPipelineMessage;
  qm_feedback := processFeedbackMessage;
  qm_status := queryStatus;
  qm_finished s := hasQueryExecutionFinished (query_exec_state s);
  qm_next_message := o ← getNextWorkerMessage; mret (to_message o);
|}.
#[local] Existing Instance manager_ops.

Context `{!OperatorContract Op W E F B m}.

(** A query whose plan the manager can run: the operators keep their contract,
    and the work orders carry the id of the query. *)
Record runnable (h : Handle) : Prop := {
  run_plan : plan_ok (handle_plan h);
  run_live : live (handle_plan h);
  run_ids s ro t w i b s' : reachable m (handle_plan h) s ro t →
    getNextWorkerMessage s = Ok (Some (w, i, b), s') → getQueryID w = handle_id h;
}.

Definition manager_state (h : Handle) (s : QM) (x : executions) (t : N) : Prop :=
  ∃ ro k, reachable m (handle_plan h) s ro k ∧ t = N.of_nat k ∧
    ∀ i, x kWorkOrder i = N.to_nat (v_queued s i) ∧ x kRebuildWorkOrder i = ro i.

Definition context_changes (s s' : QM) : Prop := ∃ e, s' = with_context e s.

Lemma v_queued_frame (s s' : QM) : queued s' = queued s → v_queued s' = v_queued s.
Proof. unfold queued, v_queued. by intros ->. Qed.
Lemma v_queued_insert (s s' : QM) i f :
  (∃ k, queued s !! i = Some k ∧ queued s' = <[i := f k]> (queued s)) →
  ∀ j, v_queued s' j = if decide (j = i) then f (v_queued s i) else v_queued s j.
Proof.
  intros (k & Hk & Hs') j. unfold queued, v_queued in *. rewrite Hs'.
  rewrite default_lookup_insert by (by eapply lookup_lt_Some). by rewrite Hk.
Qed.

Lemma reachable_length g s ro k :
  plan_ok g → reachable m g s ro k → (N.of_nat k < 2 ^ 64)%N →
  S (length (query_dag s)) = depth g.
Proof.
  intros Hg Hs Hk. pose proof (reachable_good _ _ s ro k Hg Hs Hk) as HI.
  unfold depth. f_equal. apply (wf_plan _ _ (inv_wf _ _ _ _ _ _ _ HI)).
Qed.

Lemma manager_next h s x t :
  runnable h → manager_state h s x t → (t + 1 < 2 ^ 64)%N →
  wp qm_next_message (λ o s',
    match o with
    | Some msg => getQueryID (work_unit msg) = handle_id h ∧
        recipient_index_hint msg = kInvalidRecipientIndexHint ∧
        manager_state h s' (one_more (message_type msg) (relational_op_index msg) x) (t + 1)
    | None => manager_state h s' x (t + 1) ∧
        ((∀ k i, x k i = 0) → hasQueryExecutionFinished (query_exec_state s') = true)
    end) s.
Proof.
  intros [Hg Hl Hid] (ro & k & Hs & -> & Hx) Ht.
  assert (Good (handle_plan h) ro (N.of_nat k) s) as HI by (apply reachable_good; [done..|lia]).
  apply wp_bind. destruct (proj1 (wp_Ok _ _ _) (dispatch_spec _ ro _ s HI Ht))
    as (o & s' & Ho & HI' & Hfin & Hcase). unfold wp at 1. rewrite Ho. apply wp_ret.
  pose proof (reach_dispatch _ _ _ _ _ _ _ Hs Ho) as Hs'.
  pose proof (next_queued _ _ _ Ho) as Hq.
  assert (N.of_nat k + 1 = N.of_nat (S k))%N as Hk by lia.
  destruct o as [[[w i] []]|]; cbn [to_message].
  - split_and!; [cbn; eapply (Hid s ro k w); eassumption|done|]. exists (dispatched (Some (w, i, true)) ro), (S k).
    split_and!; [done|done|]. intros j. rewrite (v_queued_frame _ _ Hq).
    unfold one_more, dispatched, upd. cbn. destruct (Hx j) as [-> ->].
    rewrite decide_False by naive_solver. split; [done|].
    repeat case_decide; naive_solver.
  - split_and!; [cbn; eapply (Hid s ro k w); eassumption|done|]. exists ro, (S k).
    split_and!; [done|done|]. intros j. rewrite (v_queued_insert _ _ _ _ Hq).
    unfold one_more. cbn. destruct (Hx j) as [-> ->].
    rewrite (decide_False (P := kRebuildWorkOrder = _ ∧ _)) by naive_solver. split; [|done].
    pose proof (inv_queued _ _ _ _ _ _ _ HI i).
    destruct (decide (j = i)) as [->|Hj]; [|by rewrite decide_False by naive_solver].
    rewrite decide_True, size_inc_small by (done || lia). lia.
  - split.
    + exists ro, (S k). split_and!; [done|done|]. intros j.
      by rewrite (v_queued_frame _ _ Hq).
    + intros Hz.
      assert (∀ i, ¬ executing ro s i) as Hno.
      { intros i [Hqi|Hri]; destruct (Hx i) as [Hxn Hxr].
        - rewrite Hz in Hxn. lia.
        - rewrite Hz in Hxr. done. }
      apply (query_finished_iff _ _ _ _ _ Hg HI'). rewrite Hfin.
      by eapply quiet_finished.
Qed.

(** A handler that changes only what is in execution. *)
Lemma manager_handler h s s' (x' : executions) t ro' :
  (∃ ro k, reachable m (handle_plan h) s ro k ∧ t = N.of_nat k ∧
    reachable m (handle_plan h) s' ro' (S k)) →
  (∀ i, x' kWorkOrder i = N.to_nat (v_queued s' i) ∧ x' kRebuildWorkOrder i = ro' i) →
  manager_state h s' x' (t + 1).
Proof.
  intros (ro & k & Hs & -> & Hs') Hx. exists ro', (S k). split_and!; [done|lia|done].
Qed.

Lemma manager_complete h s x t k i :
  runnable h → manager_state h s x t → (t + 1 < 2 ^ 64)%N → x k i ≠ 0 →
  wp (qm_complete k i) (λ _ s', manager_state h s' (one_less k i x) (t + 1)) s.
Proof.
  intros [Hg Hl Hid] (ro & c & Hs & -> & Hx) Ht Hne.
  assert (Good (handle_plan h) ro (N.of_nat c) s) as HI by (apply reachable_good; [done..|lia]).
  pose proof (reachable_length _ _ _ _ Hg Hs ltac:(lia)) as Hlen.
  apply wp_Ok. destruct k; cbn; rewrite Hlen.
  - assert (ro i ≠ 0) as Hro by (by destruct (Hx i) as [_ <-]).
    destruct (proj1 (wp_Ok _ _ _) (rebuild_complete_spec _ ro _ s i Hg HI Hro))
      as ([] & s' & Hp & _). exists tt, s'. split; [done|].
    eapply manager_handler; [exists ro, c; split_and!;
      [done..|by eapply reach_rebuild_complete]|].
    intros j. rewrite (v_queued_frame _ _ (frames_rebuild_complete _ _ _ _ _ Hp)).
    unfold one_less, upd. destruct (Hx j) as [-> ->].
    repeat case_decide; naive_solver.
  - assert (v_queued s i ≠ 0%N) as Hq by (destruct (Hx i) as [H _]; intros H0;
      rewrite H0 in H; done).
    destruct (proj1 (wp_Ok _ _ _) (complete_spec _ ro _ s i Hg HI Hq))
      as ([] & s' & Hp & _). exists tt, s'. split; [done|].
    eapply manager_handler; [exists ro, c; split_and!; [done..|by eapply reach_complete]|].
    intros j. rewrite (v_queued_insert _ _ _ _ (complete_queued _ _ _ _ Hp)).
    unfold one_less. destruct (Hx j) as [-> ->].
    pose proof (inv_queued _ _ _ _ _ _ _ HI i).
    rewrite (decide_False (P := kRebuildWorkOrder = _ ∧ _)) by naive_solver. split; [|done].
    destruct (decide (j = i)) as [->|Hj]; [|by rewrite decide_False by naive_solver].
    rewrite decide_True, size_dec_pos by (done || lia). lia.
Qed.

Lemma manager_pipeline h s x t i block rel part :
  runnable h → manager_state h s x t → (t + 1 < 2 ^ 64)%N →
  x kWorkOrder i ≠ 0 ∨ x kRebuildWorkOrder i ≠ 0 →
  consumers_accept (handle_plan h) i rel part →
  wp (qm_data_pipeline i block rel part) (λ _ s', manager_state h s' x (t + 1)) s.
Proof.
  intros [Hg Hl Hid] (ro & c & Hs & -> & Hx) Ht Hne Hacc.
  assert (Good (handle_plan h) ro (N.of_nat c) s) as HI by (apply reachable_good; [done..|lia]).
  assert (executing ro s i) as He.
  { destruct (Hx i) as [H1 H2]. unfold executing. rewrite H1, H2 in Hne.
    destruct Hne; [left; lia|by right]. }
  apply wp_Ok. destruct (proj1 (wp_Ok _ _ _) (pipeline_spec _ ro _ s i block rel part Hg HI
    (executing_lt _ _ _ _ _ _ HI He) (busy_unfinished _ _ _ _ _ HI He) Hacc))
    as ([] & s' & Hp & _). exists tt, s'. split; [done|].
  eapply manager_handler; [exists ro, c; split_and!; [done..|by eapply reach_pipeline]|].
  intros j. by rewrite (v_queued_frame _ _ (frames_pipeline _ _ _ _ _ _ _ Hp)).
Qed.

Lemma manager_feedback h s x t i f :
  runnable h → manager_state h s x t → (t + 1 < 2 ^ 64)%N → x kWorkOrder i ≠ 0 →
  operator_hears (handle_plan h) i f →
  wp (qm_feedback i f) (λ _ s', manager_state h s' x (t + 1)) s.
Proof.
  intros [Hg Hl Hid] (ro & c & Hs & -> & Hx) Ht Hne Hear.
  assert (Good (handle_plan h) ro (N.of_nat c) s) as HI by (apply reachable_good; [done..|lia]).
  assert (v_queued s i ≠ 0%N) as Hq by (destruct (Hx i) as [H _]; lia).
  apply wp_Ok. destruct (proj1 (wp_Ok _ _ _) (feedback_spec _ ro _ s i f Hg HI Hq Hear))
    as ([] & s' & Hp & _). exists tt, s'. split; [done|].
  eapply manager_handler; [exists ro, c; split_and!; [done..|by eapply reach_feedback]|].
  intros j. by rewrite (v_queued_frame _ _ (frames_feedback _ _ _ _ _ Hp)).
Qed.

Lemma manager_executes h s x t k i :
  runnable h → manager_state h s x t → (t < 2 ^ 64)%N → x k i ≠ 0 →
  i < length (handle_plan h) ∧ v_finished s i = false.
Proof.
  intros [Hg _ _] (ro & c & Hs & -> & Hx) Ht Hne.
  assert (Good (handle_plan h) ro (N.of_nat c) s) as HI by (apply reachable_good; done).
  assert (executing ro s i) as He.
  { destruct (Hx i) as [H1 H2]. unfold executing.
    destruct k; [right|left]; [by rewrite <- H2|lia]. }
  split; [by eapply executing_lt|by eapply busy_unfinished].
Qed.

Lemma manager_status h s x t i :
  runnable h → manager_state h s x t → (t < 2 ^ 64)%N → i < length (handle_plan h) →
  wp (queryStatus i) (λ c s', s' = s ∧
    (c = kQueryExecuted ↔ hasQueryExecutionFinished (query_exec_state s) = true)) s.
Proof.
  intros [Hg _ _] (ro & k & Hs & -> & Hx) Ht Hi.
  assert (Good (handle_plan h) ro (N.of_nat k) s) as HI by (apply reachable_good; done).
  unfold queryStatus, exec_reads. destruct (hasQueryExecutionFinished _) eqn:Hf.
  - by eapply wp_reads; [rewrite Hf|].
  - eapply wp_reads.
    + rewrite Hf. unfold hasExecutionFinished. rewrite (vec_at_default false)
        by (by rewrite (wf_finished _ _ (inv_wf _ _ _ _ _ _ _ HI))). done.
    + by case_match.
Qed.

Lemma manager_finished h s x t :
  runnable h → manager_state h s x t → (t < 2 ^ 64)%N →
  hasQueryExecutionFinished (query_exec_state s) = true → ∀ k i, x k i = 0.
Proof.
  intros Hr Hst Ht Hf k i. destruct (decide (x k i = 0)) as [|Hne]; [done|].
  destruct (manager_executes h s x t k i Hr Hst Ht Hne) as [Hi Hfi].
  destruct Hr as [Hg _ _], Hst as (ro & c & Hs & -> & Hx).
  assert (Good (handle_plan h) ro (N.of_nat c) s) as HI by (apply reachable_good; done).
  rewrite (proj1 (query_finished_iff _ _ _ _ _ Hg HI) Hf i Hi) in Hfi. done.
Qed.

(** The queries that are submitted: under each id at most one, which the
    manager can run. *)
Definition submitted_query (queries : nat → Handle) (h : Handle) : Prop :=
  runnable h ∧ queries (handle_id h) = h.

(** The manager keeps the promises the foreman relies on. *)
Definition manager_laws (queries : nat → Handle) : QueryManagerLaws QM Handle W F.
Proof using All.
  refine {| handle_ok := submitted_query queries; qm_state := manager_state;
    qm_operator h i := i < length (handle_plan h);
    qm_accepts h := consumers_accept (handle_plan h);
    qm_hears h := operator_hears (handle_plan h);
    qm_environment := context_changes;
    law_next h s x t Hr := manager_next h s x t (proj1 Hr);
    law_complete h s x t k i Hr := manager_complete h s x t k i (proj1 Hr);
    law_pipeline h s x t i b r p Hr := manager_pipeline h s x t i b r p (proj1 Hr);
    law_feedback h s x t i f Hr := manager_feedback h s x t i f (proj1 Hr);
    law_status h s x t i Hr := manager_status h s x t i (proj1 Hr);
    law_finished h s x t Hr := manager_finished h s x t (proj1 Hr) |}.
  - intros h [Hr _]. destruct (new_spec (handle_plan h) (handle_context h) (run_plan _ Hr))
      as (s & Hs & HI). exists s. split; [done|]. exists (λ _, 0), 0.
    split_and!; [by eapply reach_new|done|]. intros i.
    pose proof (inv_queued _ _ _ _ _ _ _ HI i). cbn. split; [lia|done].
  - intros h s x t s' (ro & c & Hs & -> & Hx) [e ->].
    eapply manager_handler; [exists ro, c; split_and!; [done..|by eapply reach_workers]|].
    exact Hx.
  - intros h s x t k i [Hr _] Hst Ht Hne. by eapply manager_executes.
Defined.

(** What the work orders of a query send: blocks that the consumers in its plan
    accept, and feedback that the operator in its plan understands. *)
Definition sensible_message (queries : nat → Handle) (msg : TaggedMessage Handle F) : Prop :=
  match msg with
  | DataPipelineMessage q op _ r p => consumers_accept (handle_plan (queries q)) op r p
  | WorkOrderFeedbackMessage q op f => operator_hears (handle_plan (queries q)) op f
  | _ => True
  end.

Lemma sensible_content queries msg :
  sensible_message queries msg →
  @content_ok _ _ _ _ manager_ops _ (manager_laws queries) msg.
Proof using All.
  destruct msg; try done; cbn; intros Hm h [_ Hh] <-; by rewrite Hh in Hm.
Qed.
End manager.
