(* ===== verification/ForemanTheorems.v ===== *)
(** * What the foreman guarantees

    For a foreman with [QueryManagerSingleNode] managers: its event loop never
    fails and its counters are exact, and it leaves no query running when
    nothing is in flight.  A concrete run shows a waiting query that is never
    admitted. *)

From S2P Require Import Prelude StateMonad WorkOrdersContainer.
From S2P Require Import WorkOrdersScheduling DAG QueryExecutionState QueryManager.
From S2P Require Import QueryManagerViews QueryManagerInv QueryManagerHandlers.
From S2P Require Import QueryManagerRun QueryManagerTheorems WorkerDirectory.
From S2P Require Import PolicyEnforcer Foreman ForemanInv ForemanSystem ForemanManager.
From stdpp Require Import options.

Section theorems.
Context {Op W E F B Cat : Type} `{!WorkOrder W} `{!RelationalOperator Op W E F B}.
Context `{!HashOrder (nat * bool), !HashOrder nat, !CatalogOps Cat, !WorkOrderIds W}.
Context (m : nat) `{!OperatorContract Op W E F B m}.
(** The two flags of the foreman, and the workers it is started with. *)
Context (max_msgs : nat) (min_load : N).
Context (c : Cat) (profile : bool) (cids : list nat) (numa : list Z).
(** The query of each id. *)
Context (queries : nat → QueryHandle Op E).
#[local] Hint Extern 0 (QueryManagerOps _ _ _ _) =>
  exact (manager_ops (B := B) m) : typeclass_instances.
#[local] Hint Extern 0 (QueryManagerLaws _ _ _ _) =>
  exact (manager_laws (B := B) m queries) : typeclass_instances.
Abbreviation Sys := (System (QueryManager Op W E) (QueryHandle Op E) W F Cat).
Abbreviation reachable_system :=
  (system_reachable (QM := QueryManager Op W E) (Handle := QueryHandle Op E) (F := F)
     max_msgs min_load (submitted_query m queries) (sensible_message (B := B) m queries) context_changes
     (new_System c profile cids numa)).

Lemma reachable_system_inv (s : Sys) k :
  0 < length cids → 0 < max_msgs → reachable_system s k →
  (N.of_nat k * (1 + N.of_nat max_msgs) < 2 ^ 64)%N →
  SInv (length cids) (N.of_nat k * (1 + N.of_nat max_msgs)) s.
Proof.
  intros Hn Hmax Hs Hk. eapply reachable_SInv; eauto; [by apply new_SInv|].
  eapply system_reachable_mono; [..|exact Hs]; [done|apply sensible_content].
Qed.

Lemma has_queries_false (e : PolicyEnforcer (QueryManager Op W E) (QueryHandle Op E) Cat) :
  negb (hasQueries e) = true ↔ admitted_queries e = ∅ ∧ waiting_queries e = [].
Proof.
  unfold hasQueries. rewrite negb_involutive, andb_true_iff, !bool_decide_eq_true. done.
Qed.

(** C22. For at least one worker and queries, one per id, whose plans satisfy
    [plan_ok] and are [live], in every state that the main thread, the foreman and
    the workers can reach by sending and handling messages in any interleaving,
    where work orders send blocks that the consumers in their plan accept and
    feedback that their operators understand, until the foreman is told to stop:
    the foreman's turn of the event loop on the next message ends in a value (no [CHECK] or [LOG(FATAL)], no unknown query,
    no null manager, no index out of range), and it tells the main thread that
    the workload is complete exactly when no query is admitted or waiting; the
    load that the directory keeps for a worker is the number of messages in
    the worker's queue plus its completions not yet handled; at most one query
    is admitted, its counters of queued work orders are the work orders in
    flight, and no work order of another query is in flight. *)
Theorem foreman_turns_exact (s : Sys) k :
  0 < length cids → 0 < max_msgs → reachable_system s k →
  (N.of_nat (S k) * (1 + N.of_nat max_msgs) < 2 ^ 64)%N →
  (∀ msg rest, foreman_inbox s = msg :: rest → ∃ sent notify e,
     run_turn max_msgs min_load msg (enforcer s) = Ok (Some (sent, notify), e) ∧
     (notify = true ↔ admitted_queries e = ∅ ∧ waiting_queries e = [])) ∧
  run_turn max_msgs min_load PoisonMessage (enforcer s) = Ok (None, enforcer s) ∧
  (∀ w, w < length cids →
     num_queued_workorders (worker_directory (enforcer s)) !! w =
     Some (N.of_nat (load_of s w))) ∧
  size (admitted_queries (enforcer s)) ≤ 1 ∧
  (∀ q qm i, admitted_queries (enforcer s) !! q = Some qm →
     v_queued qm i = N.of_nat (count (q, kWorkOrder, i) (flights s))) ∧
  (∀ q k i, (q, k, i) ∈ flights s → is_Some (admitted_queries (enforcer s) !! q)).
Proof.
  intros Hn Hmax Hs Hk. rewrite Nat2N.inj_succ, N.mul_succ_l in Hk.
  pose proof (reachable_system_inv s k Hn Hmax Hs ltac:(lia)) as HI.
  split_and!.
  - intros msg rest Hin.
    destruct (proj1 (wp_Ok _ _ _) (turn_keeps max_msgs min_load _ _ s msg rest HI Hn Hmax
      ltac:(lia) Hin)) as (r & e & Hrun & sent & -> & _).
    exists sent, (negb (hasQueries e)), e. split; [done|apply has_queries_false].
  - done.
  - apply (s_loads _ _ _ HI).
  - apply (s_enforcer _ _ _ HI).
  - intros q qm i Hq. destruct (e_query _ _ _ (s_enforcer _ _ _ HI) q qm Hq)
      as (h & x & t & _ & _ & (ro & c' & _ & _ & Hx) & _ & Hc).
    rewrite <- Hc. destruct (Hx i) as [-> _]. lia.
  - apply (s_enforcer _ _ _ HI).
Qed.

(** C23. The foreman leaves no query running: for the same systems (at least one
    worker, plans that satisfy [plan_ok] and are [live], messages that the plans
    accept), in every reachable state where
    the queues of the workers are empty and the foreman has handled all
    completions, no query is admitted.  In particular the work orders of a
    running query are never all withheld, whatever the load limit. *)
Theorem foreman_never_idles (s : Sys) k :
  0 < length cids → 0 < max_msgs → reachable_system s k →
  (N.of_nat k * (1 + N.of_nat max_msgs) < 2 ^ 64)%N →
  Forall (λ q, q = []) (worker_inboxes s) →
  Forall (λ msg, completes msg = []) (foreman_inbox s) →
  admitted_queries (enforcer s) = ∅.
Proof.
  intros Hn Hmax Hs Hk Hw Hf.
  pose proof (reachable_system_inv s k Hn Hmax Hs Hk) as HI.
  apply (s_live _ _ _ HI). unfold flights, executing_at_workers.
  assert (concat (worker_inboxes s) = []) as ->.
  { induction Hw as [|q l -> _ IH]; [done|]. exact IH. }
  cbn. induction Hf as [|msg l Hm _ IH]; [done|]. by rewrite bind_cons, Hm.
Qed.
End theorems.

(** ** Concrete runs *)

#[global] Instance sample_ids : WorkOrderIds plain_order :=
  {| getQueryID _ := 1; getPartitionId _ := 0 |}.
#[global] Instance sample_catalog : CatalogOps unit :=
  {| catalog_add_block _ _ _ c := c |}.
#[global] Instance sample_nat_order : HashOrder nat := identity_order nat.
#[global] Instance sample_manager :
    QueryManagerOps SQ (QueryHandle sample_op bool) plain_order unit :=
  manager_ops (B := nat) 1.

Abbreviation SSys := (System SQ (QueryHandle sample_op bool) plain_order unit unit).

(** Two workers; the foreman's turn if it has a message, or else the first
    worker that has a work order completes it. *)
Definition sample_new : SSys := new_System tt true [10; 11] [(-1)%Z; (-1)%Z].
Definition drive (s : SSys) : SSys :=
  match foreman_inbox s with
  | msg :: rest =>
      match run_turn 20 2 msg (enforcer s) with
      | Ok (Some (sent, notify), e) => after_turn rest sent notify e s
      | _ => s
      end
  | [] =>
      match worker_inboxes s with
      | (m :: ms) :: _ => after_work 0 ms (worker_answer 0 m 0 0) s
      | _ :: (m :: ms) :: _ => after_work 1 ms (worker_answer 1 m 0 0) s
      | _ => s
      end
  end.

Section drive.
Context (submitted : QueryHandle sample_op bool → Prop).
Context (sensible : TaggedMessage (QueryHandle sample_op bool) unit → Prop).
Context (environment : SQ → SQ → Prop).
Abbreviation reach := (system_reachable 20 2 submitted sensible environment sample_new).

Lemma drive_reaches s k :
  reach s k → ∃ k', k' ≤ S k ∧ reach (drive s) k'.
Proof.
  intros Hs. unfold drive. destruct (foreman_inbox s) as [|msg rest] eqn:Hin.
  - destruct (worker_inboxes s) as [|[|m ms] [|[|m' ms'] l]] eqn:Hw;
      try (by exists k; split; [lia|]).
    + exists (S k). split; [done|]. eapply sys_finish; [done|]. by rewrite Hw.
    + exists (S k). split; [done|]. eapply sys_finish; [done|]. by rewrite Hw.
    + exists (S k). split; [done|]. eapply sys_finish; [done|]. by rewrite Hw.
    + exists (S k). split; [done|]. eapply sys_finish; [done|]. by rewrite Hw.
  - destruct (run_turn 20 2 msg (enforcer s)) as [[[[sent notify]|] e]|] eqn:Hrun;
      [|by exists k; split; [lia|]..].
    exists (S k). split; [done|]. by eapply sys_turn.
Qed.

Lemma drives_reach n s k :
  reach s k → ∃ k', k' ≤ n + k ∧ reach (Nat.iter n drive s) k'.
Proof.
  intros Hs. induction n as [|n (k' & Hk' & IH)]; [by exists k|].
  destruct (drive_reaches _ _ IH) as (k'' & Hk'' & H). exists k''. split; [lia|done].
Qed.
End drive.

Definition sample_handle : QueryHandle sample_op bool := MkHandle 1 sample_plan true.
Definition sample_run (n : nat) : SSys :=
  Nat.iter n drive (send_foreman (AdmitRequestMessage [sample_handle]) sample_new).

Lemma sample_runnable : runnable 1 sample_handle.
Proof. split; [exact sample_plan_ok|exact sample_live|done]. Qed.

Definition sample_queries (q : nat) : QueryHandle sample_op bool := MkHandle q sample_plan true.

Lemma sample_run_reaches n : ∃ k, k ≤ n + 1 ∧
  system_reachable 20 2 (submitted_query 1 sample_queries)
    (sensible_message (B := nat) 1 sample_queries) context_changes sample_new (sample_run n) k.
Proof.
  apply drives_reach. eapply (sys_admit _ _ _ _ _ _ _ 0 [sample_handle]); [constructor|].
  constructor; [split; [exact sample_runnable|reflexivity]|constructor].
Qed.

(** One work order is in execution and the completion of another waits. *)
Lemma foreman_turns_exact_witness :
  num_queued_workorders (worker_directory (enforcer (sample_run 2))) = [1; 1]%N ∧
  load_of (sample_run 2) 0 = 1 ∧ load_of (sample_run 2) 1 = 1 ∧
  ∀ msg rest, foreman_inbox (sample_run 2) = msg :: rest → ∃ sent notify e,
    run_turn 20 2 msg (enforcer (sample_run 2)) = Ok (Some (sent, notify), e) ∧
    (notify = true ↔ admitted_queries e = ∅ ∧ waiting_queries e = []).
Proof.
  destruct (sample_run_reaches 2) as (k & Hk & Hs).
  split_and!; [vm_compute; reflexivity..|].
  refine (proj1 (foreman_turns_exact (B := nat) (Cat := unit) 1 20 2 tt true [10; 11]
    [(-1)%Z; (-1)%Z] sample_queries (sample_run 2) k _ _ Hs _)).
  - cbn. lia.
  - lia.
  - lia.
Defined.

(** The run that ends with the message to the main thread. *)
Lemma foreman_never_idles_witness :
  main_inbox (sample_run 11) = 1 ∧ admitted_queries (enforcer (sample_run 11)) = ∅.
Proof.
  destruct (sample_run_reaches 11) as (k & Hk & Hs).
  split; [vm_compute; reflexivity|].
  refine (foreman_never_idles (B := nat) (Cat := unit) 1 20 2 tt true [10; 11]
    [(-1)%Z; (-1)%Z] sample_queries (sample_run 11) k _ _ Hs _ _ _).
  - cbn. lia.
  - lia.
  - lia.
  - vm_compute. repeat constructor.
  - vm_compute. constructor.
Defined.

(** ** A waiting query that is never admitted *)

(** A query whose only operator has no work, and one with a work order. *)
Definition workless_handle : QueryHandle sample_op bool :=
  MkHandle 7 [MkNode (SampleOp [] ∅ (-1) (-1)) ∅ ∅] true.
Definition stranded : SSys :=
  drive (send_foreman (AdmitRequestMessage [workless_handle; sample_handle]) sample_new).
(** A third query submitted in that state. *)
Definition overtaken : SSys :=
  drive (send_foreman (AdmitRequestMessage [MkHandle 9 sample_plan true]) stranded).

(** When one request submits a query that has no work and another query,
    the first finishes while it is admitted and is removed by the collection
    of work orders, which admits no other: the second query waits with no query
    admitted, nothing in flight and no message to the main thread, so that
    until another request arrives nothing happens; and a third query
    submitted then is admitted ahead of the one that waits. *)
Lemma waiting_query_stranded :
  (∃ k, system_reachable 20 2 (λ _, True) (λ _, True) context_changes sample_new stranded k) ∧
  admitted_queries (enforcer stranded) = ∅ ∧
  waiting_queries (enforcer stranded) = [sample_handle] ∧
  foreman_inbox stranded = [] ∧ worker_inboxes stranded = [[]; []] ∧
  main_inbox stranded = 0 ∧
  (map_to_list (admitted_queries (enforcer overtaken))).*1 = [9] ∧
  waiting_queries (enforcer overtaken) = [sample_handle].
Proof.
  split; [|split_and!; vm_compute; reflexivity].
  destruct (drive_reaches (λ _, True) (λ _, True) context_changes (send_foreman
    (AdmitRequestMessage [workless_handle; sample_handle]) sample_new) 1) as (k & _ & Hk).
  - eapply sys_admit; [constructor|]. by repeat constructor.
  - by exists k.
Qed.
