(* ===== verification/CatalogBlocks.v ===== *)
(** * Catalog relations and their blocks

    Models the part of catalog/CatalogRelation.{hpp,cpp} and
    catalog/PartitionScheme.{hpp,cpp} that records where the blocks of a
    relation are: the vector [blocks_] of all of them and, for a partitioned
    relation, a set of blocks per partition.  The order in which a
    [std::unordered_set] is copied into a vector is the parameter
    [hash_order].

    [blocks_agree] says that the two records list the same blocks.  The
    operations keep it when they are used in the pairs in which the policy
    enforcer uses them ([add_new_block]); [clearBlocks] alone does not. *)

From S2P Require Import Prelude.
From stdpp Require Import options.

(** ** Partition schemes *)

Record PartitionScheme := {
  (** [header_->getNumPartitions()] *)
  header_num_partitions : nat;
  blocks_in_partition_ : list (gset nat);
}.

(** The constructor with a header alone. *)
Definition new_PartitionScheme (num_partitions : nat) : PartitionScheme :=
  {| header_num_partitions := num_partitions;
     blocks_in_partition_ := replicate num_partitions ∅ |}.

Definition set_partition (part_id : nat) (f : gset nat → gset nat)
    (p : PartitionScheme) : outcome PartitionScheme :=
  blocks ← vec_at (blocks_in_partition_ p) part_id;
  v ← vec_set (blocks_in_partition_ p) part_id (f blocks);
  mret {| header_num_partitions := header_num_partitions p;
          blocks_in_partition_ := v |}.

Definition addBlockToPartition (block part_id : nat)
  : PartitionScheme → outcome PartitionScheme :=
  set_partition part_id ({[block]} ∪.).

Definition removeBlockFromPartition (block part_id : nat)
  : PartitionScheme → outcome PartitionScheme :=
  set_partition part_id (.∖ {[block]}).

Definition getBlocksInPartition `{!HashOrder nat} (part_id : nat)
    (p : PartitionScheme) : outcome (list nat) :=
  set_iter <$> vec_at (blocks_in_partition_ p) part_id.

(** [std::numeric_limits<std::size_t>::max()] *)
Definition kNoPartition : N := (2 ^ 64 - 1)%N.

(** The loop of [getPartitionForBlock] over the partition ids. *)
Fixpoint find_partition (block : nat) (part_ids : list nat)
    (p : PartitionScheme) : outcome N :=
  match part_ids with
  | [] => Ok kNoPartition
  | part_id :: rest =>
      blocks ← vec_at (blocks_in_partition_ p) part_id;
      if decide (block ∈ blocks) then Ok (N.of_nat part_id)
      else find_partition block rest p
  end.

Definition getPartitionForBlock (block : nat) (p : PartitionScheme) : outcome N :=
  find_partition block (seq 0 (header_num_partitions p)) p.

Definition scheme_wf (p : PartitionScheme) : Prop :=
  length (blocks_in_partition_ p) = header_num_partitions p.

(** ** Relations *)

Record CatalogRelation := {
  rel_id : Z;
  blocks_ : list nat;
  partition_scheme_ : option PartitionScheme;
  rel_num_partitions_ : nat;
  (** [statistics_->isExact()] *)
  statistics_exact : bool;
}.

(** The constructor of a relation with an id: no block, no partition scheme,
    one partition; the statistics of an empty relation are not exact. *)
Definition new_CatalogRelation (id : Z) : CatalogRelation :=
  {| rel_id := id; blocks_ := []; partition_scheme_ := None;
     rel_num_partitions_ := 1; statistics_exact := false |}.

Definition set_blocks (b : list nat) (r : CatalogRelation) : CatalogRelation :=
  {| rel_id := rel_id r; blocks_ := b; partition_scheme_ := partition_scheme_ r;
     rel_num_partitions_ := rel_num_partitions_ r;
     statistics_exact := statistics_exact r |}.

Definition set_scheme (p : option PartitionScheme) (n : nat)
    (r : CatalogRelation) : CatalogRelation :=
  {| rel_id := rel_id r; blocks_ := blocks_ r; partition_scheme_ := p;
     rel_num_partitions_ := n; statistics_exact := statistics_exact r |}.

Definition hasPartitionScheme (r : CatalogRelation) : bool :=
  bool_decide (is_Some (partition_scheme_ r)).

Definition setPartitionScheme (p : option PartitionScheme)
    (r : CatalogRelation) : CatalogRelation :=
  set_scheme p
    (match p with
     | Some s => header_num_partitions s
     | None => rel_num_partitions_ r
     end) r.

Definition getNumPartitions : CatalogRelation → nat := rel_num_partitions_.

Definition addBlock (block : nat) (r : CatalogRelation) : CatalogRelation :=
  set_blocks (blocks_ r ++ [block]) r.

(** [std::find] and [erase]: the first occurrence. *)
Fixpoint erase_block (block : nat) (l : list nat) : list nat :=
  match l with
  | [] => []
  | b :: l' => if decide (b = block) then l' else b :: erase_block block l'
  end.

Definition removeBlock (block : nat) (r : CatalogRelation) : CatalogRelation :=
  set_blocks (erase_block block (blocks_ r)) r.

Definition clearBlocks : CatalogRelation → CatalogRelation := set_blocks [].

Definition size_blocks (r : CatalogRelation) : nat := length (blocks_ r).

Definition getBlocksSnapshot : CatalogRelation → list nat := blocks_.

(** The handler of [kCatalogRelationNewBlockMessage] in the policy enforcer:
    with a partition id, the scheme of the relation is dereferenced. *)
Definition add_new_block (block : nat) (part_id : option nat)
    (r : CatalogRelation) : outcome CatalogRelation :=
  let r' := addBlock block r in
  match part_id with
  | None => Ok r'
  | Some p =>
      match partition_scheme_ r' with
      | None => Err UndefinedBehaviour
      | Some s =>
          s' ← addBlockToPartition block p s;
          mret (set_scheme (Some s') (rel_num_partitions_ r') r')
      end
  end.

(** ** What the two records of blocks owe each other *)

Record relation_wf (r : CatalogRelation) : Prop := {
  wf_scheme s : partition_scheme_ r = Some s →
    scheme_wf s ∧ rel_num_partitions_ r = header_num_partitions s;
  wf_unpartitioned : partition_scheme_ r = None → rel_num_partitions_ r = 1;
}.

(** Every block is recorded once and lies in one partition. *)
Record blocks_agree (r : CatalogRelation) : Prop := {
  agree_nodup : NoDup (blocks_ r);
  agree_partition s b : partition_scheme_ r = Some s →
    b ∈ blocks_ r ↔ ∃ p bs, blocks_in_partition_ s !! p = Some bs ∧ b ∈ bs;
  agree_disjoint s p q bs cs b : partition_scheme_ r = Some s →
    blocks_in_partition_ s !! p = Some bs → blocks_in_partition_ s !! q = Some cs →
    b ∈ bs → b ∈ cs → p = q;
}.

(** A partition id is given exactly for a partitioned relation. *)
Definition place_ok (r : CatalogRelation) (part_id : option nat) : Prop :=
  match partition_scheme_ r, part_id with
  | None, None => True
  | Some s, Some p => p < header_num_partitions s
  | _, _ => False
  end.

Section blocks.
Context `{!HashOrder nat}.

Lemma set_partition_Ok part_id f s :
  scheme_wf s → part_id < header_num_partitions s → ∃ bs,
    blocks_in_partition_ s !! part_id = Some bs ∧
    set_partition part_id f s = Ok {| header_num_partitions := header_num_partitions s;
      blocks_in_partition_ := <[part_id := f bs]> (blocks_in_partition_ s) |}.
Proof.
  unfold scheme_wf. intros Hs Hp.
  destruct (lookup_lt_is_Some_2 (blocks_in_partition_ s) part_id) as [bs Hbs]; [lia|].
  exists bs. split; [done|]. unfold set_partition.
  rewrite (vec_at_Some _ _ _ Hbs). cbn. by rewrite vec_set_lt by lia.
Qed.

Lemma getBlocksInPartition_Ok part_id s bs :
  blocks_in_partition_ s !! part_id = Some bs →
  getBlocksInPartition part_id s = Ok (set_iter bs).
Proof. intros H. unfold getBlocksInPartition. by rewrite (vec_at_Some _ _ _ H). Qed.

Lemma find_partition_spec b s n k :
  (∀ i, k ≤ i → i < k + n → is_Some (blocks_in_partition_ s !! i)) →
  (∃ i bs, k ≤ i < k + n ∧ find_partition b (seq k n) s = Ok (N.of_nat i) ∧
     blocks_in_partition_ s !! i = Some bs ∧ b ∈ bs) ∨
  (find_partition b (seq k n) s = Ok kNoPartition ∧
     ∀ i bs, k ≤ i < k + n → blocks_in_partition_ s !! i = Some bs → b ∉ bs).
Proof.
  revert k. induction n as [|n IH]; intros k Hk; cbn.
  { right. split; [done|]. intros; lia. }
  destruct (Hk k) as [bs Hbs]; [lia..|]. rewrite (vec_at_Some _ _ _ Hbs). cbn.
  case_decide as Hb.
  - left. exists k, bs. split_and!; [lia..|done|done|done].
  - destruct (IH (S k)) as [(i & cs & Hi & H)|[H Hno]]; [intros; apply Hk; lia| |].
    + left. exists i, cs. split; [lia|done].
    + right. split; [done|]. intros i cs Hi Hcs.
      destruct (decide (i = k)) as [->|]; [by simplify_eq|]. apply (Hno i); [lia|done].
Qed.

(** Where a block that is added is found. *)
Lemma add_new_block_agrees r block part_id r' :
  relation_wf r → blocks_agree r → block ∉ blocks_ r →
  add_new_block block part_id r = Ok r' → place_ok r part_id →
  relation_wf r' ∧ blocks_agree r'.
Proof.
  intros Hwf [Hnd Hpart Hdisj] Hb. unfold add_new_block, place_ok. cbn.
  destruct (partition_scheme_ r) as [s|] eqn:Hs, part_id as [p|]; try done.
  - destruct (wf_scheme _ Hwf s Hs) as [Hsw Hn]. intros Hadd Hp. unfold addBlockToPartition in Hadd.
    destruct (set_partition_Ok p ({[block]} ∪.) s Hsw Hp) as (bs & Hbs & Heq).
    rewrite Heq in Hadd. cbn in Hadd. injection Hadd as <-. split; [split|].
    + intros s' [= <-]. cbn. split; [|done]. unfold scheme_wf. cbn.
      rewrite length_insert. apply Hsw.
    + done.
    + assert (∀ q cs, blocks_in_partition_ s !! q = Some cs → block ∉ cs) as Hnew.
      { intros q cs Hq Hin. apply Hb. apply (Hpart s); [done|]. eauto. }
      split; cbn.
      * apply NoDup_app. split_and!; [done|set_solver|apply NoDup_singleton].
      * intros s' b [= <-]. cbn. rewrite elem_of_app, list_elem_of_singleton, (Hpart s b eq_refl).
        setoid_rewrite list_lookup_insert_Some. split.
        -- intros [(q & cs & Hq & Hin)| ->].
           ++ destruct (decide (q = p)) as [->|Hne].
              ** simplify_eq. exists p, ({[block]} ∪ bs). split; [left|set_solver].
                 split_and!; [done..|by eapply lookup_lt_Some].
              ** exists q, cs. auto.
           ++ exists p, ({[block]} ∪ bs). split; [left|set_solver].
              split_and!; [done..|by eapply lookup_lt_Some].
        -- intros (q & cs & [(<- & <- & _)|[Hne Hq]] & Hin); [|eauto].
           apply elem_of_union in Hin as [?%elem_of_singleton|?]; eauto.
      * intros s' q q' cs cs' b [= <-]. cbn.
        intros [(<- & <- & _)|[Hne Hq]]%list_lookup_insert_Some
               [(<- & <- & _)|[Hne' Hq']]%list_lookup_insert_Some Hin Hin'; [done| | |].
        -- apply elem_of_union in Hin as [->%elem_of_singleton|?]; [|by eapply (Hdisj s)].
           by destruct (Hnew _ _ Hq').
        -- apply elem_of_union in Hin' as [->%elem_of_singleton|?]; [|by eapply (Hdisj s)].
           by destruct (Hnew _ _ Hq).
        -- by eapply (Hdisj s).
  - intros [= <-] _. split; [split; cbn; rewrite Hs; [done|intros _; by apply Hwf]|].
    split; cbn; rewrite ?Hs; [|done..].
    apply NoDup_app. split_and!; [done|set_solver|apply NoDup_singleton].
Qed.

Lemma add_new_block_total r block part_id :
  relation_wf r → place_ok r part_id → ∃ r', add_new_block block part_id r = Ok r'.
Proof.
  intros Hwf. unfold place_ok, add_new_block. cbn.
  destruct (partition_scheme_ r) as [s|] eqn:Hs, part_id as [p|]; try done; [|eauto].
  intros Hp. destruct (wf_scheme _ Hwf s Hs) as [Hsw _].
  destruct (set_partition_Ok p ({[block]} ∪.) s Hsw Hp) as (bs & _ & Heq).
  unfold addBlockToPartition. rewrite Heq. cbn. eauto.
Qed.

(** All the blocks of a scheme, partition by partition. *)
Definition partition_vectors (s : PartitionScheme) : list (list nat) :=
  set_iter <$> blocks_in_partition_ s.

(** Reading a partitioned relation partition by partition reads every block
    once. *)
Lemma partition_vectors_blocks r s :
  blocks_agree r → partition_scheme_ r = Some s →
  mjoin (partition_vectors s) ≡ₚ blocks_ r.
Proof.
  intros [Hnd Hpart Hdisj] Hs. apply NoDup_Permutation; [|done|].
  - clear Hpart Hnd. unfold partition_vectors. specialize (Hdisj s).
    assert (∀ p q bs cs b, blocks_in_partition_ s !! p = Some bs →
      blocks_in_partition_ s !! q = Some cs → b ∈ bs → b ∈ cs → p = q) as H by eauto.
    clear Hdisj. induction (blocks_in_partition_ s) as [|bs l IH]; cbn; [constructor|].
    apply NoDup_app. split_and!; [apply NoDup_set_iter| |].
    + intros b Hb%elem_of_set_iter (x & Hx & (cs & -> & Hcs)%list_elem_of_fmap)%list_elem_of_join.
      apply elem_of_set_iter in Hx.
      apply list_elem_of_lookup in Hcs as [q Hq]. by specialize (H 0 (S q) bs cs b eq_refl Hq Hb Hx).
    + apply IH. intros p q cs cs' b Hp Hq Hb Hb'.
      specialize (H (S p) (S q) cs cs' b Hp Hq Hb Hb'). by injection H.
  - intros b. rewrite (Hpart s b Hs), list_elem_of_join. split.
    + intros (x & Hx & (bs & -> & Hbs)%list_elem_of_fmap). apply elem_of_set_iter in Hx.
      apply list_elem_of_lookup in Hbs as [p Hp]. eauto.
    + intros (p & bs & Hp & Hb). exists (set_iter bs). split; [by apply elem_of_set_iter|].
      apply list_elem_of_fmap. exists bs. split; [done|]. by eapply list_elem_of_lookup_2.
Qed.

End blocks.

(** Dropping the blocks of a relation leaves them in its partition scheme. *)
Lemma clearBlocks_keeps_partitions r s p bs b :
  partition_scheme_ r = Some s → blocks_in_partition_ s !! p = Some bs → b ∈ bs →
  ¬ blocks_agree (clearBlocks r).
Proof.
  intros Hs Hp Hb H. assert (b ∈ blocks_ (clearBlocks r)) as Hin.
  { apply (agree_partition _ H s b Hs). by exists p, bs. }
  by apply not_elem_of_nil in Hin.
Qed.
