(* ===== verification/OperatorWork.v ===== *)
(** * Work orders and the base class of the operators

    Models the constructors of the work orders of relational_operators/*.hpp
    (the arguments an operator passes to [new XWorkOrder(...)]), and the base
    class of relational_operators/RelationalOperator.hpp.  Objects of the query
    context and of the catalog (predicates, scalar groups, insert
    destinations, hash tables, aggregation states, LIP deployments, relations)
    are pointers or references in C++; they are named here by the index or id
    under which the operator looks them up.  The pointers to the storage
    manager and to the message bus are left out: they are the same for every
    work order.  The execution of a work order is not modelled here. *)

From stdpp Require Import strings.
From S2P Require Import Prelude WorkOrdersContainer Foreman.
From stdpp Require Import options.

Inductive JoinType := kInnerJoin | kLeftSemiJoin | kLeftAntiJoin | kLeftOuterJoin.

Inductive Work :=
| SelectWork (relation : Z) (block : nat) (predicate : Z)
    (simple_selection : option (list Z)) (selection destination lip : Z)
| AggregationWork (block : nat) (state lip : Z)
| BuildHashWork (relation : Z) (keys : list Z) (nullable : bool) (block : nat)
    (predicate hash_table lip : Z)
| BuildLIPFilterWork (relation : Z) (block : nat) (predicate lip : Z)
| BuildAggregationExistenceMapWork (relation : Z) (block : nat) (attribute state : Z)
| DeleteWork (relation : Z) (block : nat) (predicate : Z) (operator : nat)
| SaveBlocksWork (block : nat) (force : bool)
| UpdateWork (relation : Z) (block : nat)
    (predicate update_group destination : Z) (operator : nat)
| HashJoinWork (join_type : JoinType) (build probe : Z) (keys : list Z)
    (nullable : bool) (block : nat)
    (residual selection hash_table destination lip : Z)
| HashOuterJoinWork (build probe : Z) (keys : list Z) (nullable : bool)
    (block : nat) (selection : Z) (selection_on_build : list bool)
    (hash_table destination lip : Z)
| NestedLoopsJoinWork (left right : Z) (left_block right_block : nat)
    (predicate selection destination : Z)
| SortRunGenerationWork (relation : Z) (block : nat) (sort_config destination : Z)
| TableExportToStringWork (relation : Z) (block : nat) (header : bool) (operator : nat)
| SampleWork (relation : Z) (block : nat) (is_block_sample : bool)
    (percentage : Z) (destination : Z)
| UnionAllWork (relation : Z) (block : nat) (attributes : list Z) (destination : Z)
| BuildTransitiveClosureWork (relation : Z) (is_start : bool) (block : nat)
    (start_attr source_attr destination_attr state : Z)
| InitializeAggregationWork (state : Z) (state_part : nat)
| FinalizeAggregationWork (state : Z) (state_part : nat) (destination : Z)
| DestroyAggregationStateWork (state : Z)
| DestroyHashWork (hash_table : Z)
| InsertWork (destination : Z) (tuples : list Z)
| TableGeneratorWork (generator destination : Z)
| WindowAggregationWork (state : Z) (blocks : list nat) (destination : Z)
| TextScanWork (file : string) (text_offset text_segment_size : nat)
    (field_terminator : Z) (process_escape_sequences : bool) (destination : Z)
| DropTableWork (blocks : list nat)
| RebuildWork (block : nat) (operator : nat) (relation : Z).

Record OperatorWorkOrder := MkWorkOrder {
  wo_query_id : nat;
  wo_partition_id : nat;
  wo_preferred_numa_nodes : list Z;
  wo_work : Work;
}.

#[global] Instance operator_work_order : WorkOrder OperatorWorkOrder :=
  {| getPreferredNUMANodes := wo_preferred_numa_nodes |}.
#[global] Instance operator_work_order_ids : WorkOrderIds OperatorWorkOrder :=
  {| getQueryID := wo_query_id; getPartitionId := wo_partition_id |}.

(** ** The base class *)

Definition kInvalidLIPDeploymentId : Z := -1.

Record OperatorBase := {
  query_id_ : nat;
  num_partitions_ : nat;
  output_num_partitions_ : nat;
  has_repartition_ : bool;
  done_feeding_input_relation_ : bool;
  op_index_ : nat;
  lip_deployment_index_ : Z;
}.

(** The constructor; [op_index_] is set when the operator is added to a plan. *)
Definition new_OperatorBase (query_id num_partitions : nat)
    (has_repartition : bool) (output_num_partitions : nat) : OperatorBase :=
  {| query_id_ := query_id; num_partitions_ := num_partitions;
     output_num_partitions_ := output_num_partitions;
     has_repartition_ := has_repartition;
     done_feeding_input_relation_ := false; op_index_ := 0;
     lip_deployment_index_ := kInvalidLIPDeploymentId |}.

Definition base_doneFeedingInputBlocks (b : OperatorBase) : OperatorBase :=
  {| query_id_ := query_id_ b; num_partitions_ := num_partitions_ b;
     output_num_partitions_ := output_num_partitions_ b;
     has_repartition_ := has_repartition_ b;
     done_feeding_input_relation_ := true; op_index_ := op_index_ b;
     lip_deployment_index_ := lip_deployment_index_ b |}.

Definition setOperatorIndex (i : nat) (b : OperatorBase) : OperatorBase :=
  {| query_id_ := query_id_ b; num_partitions_ := num_partitions_ b;
     output_num_partitions_ := output_num_partitions_ b;
     has_repartition_ := has_repartition_ b;
     done_feeding_input_relation_ := done_feeding_input_relation_ b;
     op_index_ := i; lip_deployment_index_ := lip_deployment_index_ b |}.

Definition deployLIPFilters (i : Z) (b : OperatorBase) : OperatorBase :=
  {| query_id_ := query_id_ b; num_partitions_ := num_partitions_ b;
     output_num_partitions_ := output_num_partitions_ b;
     has_repartition_ := has_repartition_ b;
     done_feeding_input_relation_ := done_feeding_input_relation_ b;
     op_index_ := op_index_ b; lip_deployment_index_ := i |}.

(** [WorkOrder(query_id, part_id)] of an operator, without preferred nodes. *)
Definition work_order (b : OperatorBase) (part_id : nat) (w : Work)
  : OperatorWorkOrder := MkWorkOrder (query_id_ b) part_id [] w.

(** ** The loops over blocks the operators share *)

(** [while (n < blocks.size()) { add(mk(blocks[n])); ++n; }]: the work orders
    and the new value of [n]; [blocks.size()] iterations suffice. *)
Fixpoint stream_blocks {A} (mk : nat → A) (blocks : list nat) (fuel n : nat)
  : list A * nat :=
  match fuel with
  | 0 => ([], n)
  | S fuel' =>
      match blocks !! n with
      | None => ([], n)
      | Some b =>
          let '(ws, n') := stream_blocks mk blocks fuel' (S n) in (mk b :: ws, n')
      end
  end.

(** The loop above for every partition, with a counter per partition. *)
Fixpoint stream_partitions {A} (mk : nat → nat → A) (ids : list (list nat))
    (gen : list nat) (parts : list nat) : outcome (list A * list nat) :=
  match parts with
  | [] => Ok ([], gen)
  | p :: parts' =>
      blocks ← vec_at ids p;
      n ← vec_at gen p;
      let '(ws, n') := stream_blocks (mk p) blocks (length blocks) n in
      gen' ← vec_set gen p n';
      rest ← stream_partitions mk ids gen' parts';
      mret (ws ++ rest.1, rest.2)
  end.

(** [for (part_id) for (block : ids[part_id]) add(mk(part_id, block));] *)
Fixpoint all_partitions {A} (mk : nat → nat → A) (ids : list (list nat))
    (parts : list nat) : outcome (list A) :=
  match parts with
  | [] => Ok []
  | p :: parts' =>
      blocks ← vec_at ids p;
      rest ← all_partitions mk ids parts';
      mret ((mk p <$> blocks) ++ rest)
  end.

(** [ids[part_id].push_back(block)] *)
Definition push_block (ids : list (list nat)) (part_id block : nat)
  : outcome (list (list nat)) :=
  blocks ← vec_at ids part_id;
  vec_set ids part_id (blocks ++ [block]).

(** The same for every partition. *)
Fixpoint push_everywhere (ids : list (list nat)) (block : nat) (parts : list nat)
  : outcome (list (list nat)) :=
  match parts with
  | [] => Ok ids
  | p :: parts' => ids' ← push_block ids p block; push_everywhere ids' block parts'
  end.

(** ** What the loops compute *)

(** The work orders for a table of blocks, one per partition and block. *)
Definition table_work {A} (mk : nat → nat → A) (ids : list (list nat)) : list A :=
  mjoin (imap (λ p blocks, mk p <$> blocks) ids).

Arguments table_work : simpl never.

Lemma stream_blocks_spec {A} (mk : nat → A) blocks fuel n :
  length blocks ≤ fuel + n →
  stream_blocks mk blocks fuel n = (mk <$> drop n blocks, n `max` length blocks).
Proof.
  revert n. induction fuel as [|fuel IH]; intros n Hn; cbn.
  { rewrite drop_ge by lia. cbn. f_equal. lia. }
  destruct (blocks !! n) as [b|] eqn:Hb.
  - pose proof (lookup_lt_Some _ _ _ Hb). rewrite IH by lia.
    rewrite (drop_S blocks b n Hb). cbn. f_equal. lia.
  - apply lookup_ge_None in Hb. rewrite drop_ge by lia. cbn. f_equal. lia.
Qed.

Lemma table_work_take {A} (mk : nat → nat → A) ids n blocks :
  ids !! n = Some blocks →
  table_work mk (take (S n) ids) = table_work mk (take n ids) ++ (mk n <$> blocks).
Proof.
  intros Hn. unfold table_work. rewrite (take_S_r _ _ _ Hn), imap_app, join_app.
  pose proof (lookup_lt_Some _ _ _ Hn).
  cbn. rewrite app_nil_r, length_take, Nat.min_l, Nat.add_0_r by lia. done.
Qed.

Lemma table_work_all {A} (mk : nat → nat → A) ids :
  table_work mk (take (length ids) ids) = table_work mk ids.
Proof. by rewrite take_ge. Qed.

Lemma all_partitions_spec {A} (mk : nat → nat → A) ids :
  all_partitions mk ids (seq 0 (length ids)) = Ok (table_work mk ids).
Proof.
  assert (∀ n k, k + n = length ids → ∃ ws,
    all_partitions mk ids (seq k n) = Ok ws ∧
    table_work mk (take k ids) ++ ws = table_work mk ids) as H.
  { induction n as [|n IH]; intros k Hk; cbn.
    { exists []. split; [done|]. rewrite app_nil_r. rewrite take_ge by lia. done. }
    destruct (lookup_lt_is_Some_2 ids k) as [bs Hbs]; [lia|].
    destruct (IH (S k)) as (ws & Hws & Heq); [lia|].
    rewrite (vec_at_Some _ _ _ Hbs). cbn. rewrite Hws. cbn. eexists. split; [done|].
    by rewrite (table_work_take _ _ _ _ Hbs), <- app_assoc in Heq. }
  destruct (H (length ids) 0) as (ws & -> & <-); [lia|]. done.
Qed.

(** The blocks for which work orders have been generated, per partition. *)
Definition done_blocks (ids : list (list nat)) (gen : list nat) : list (list nat) :=
  zip_with (λ bs n, take n bs) ids gen.

Arguments done_blocks : simpl never.

Definition counters_ok (ids : list (list nat)) (gen : list nat) : Prop :=
  Forall2 (λ bs n, n ≤ length bs) ids gen.

Lemma table_work_cons {A} (mk : nat → nat → A) bs ids :
  table_work mk (bs :: ids) = (mk 0 <$> bs) ++ table_work (λ p, mk (S p)) ids.
Proof. done. Qed.

Lemma done_blocks_full ids : done_blocks ids (length <$> ids) = ids.
Proof.
  unfold done_blocks. induction ids as [|bs ids IH]; cbn; [done|].
  by rewrite firstn_all, IH.
Qed.

Lemma counters_ok_full ids : counters_ok ids (length <$> ids).
Proof. unfold counters_ok. induction ids; cbn; constructor; auto. Qed.

(** One run of the loop generates the work orders of the blocks not seen
    before, and only those. *)
Lemma stream_partitions_spec {A} (mk : nat → nat → A) ids gen :
  counters_ok ids gen → ∃ ws,
    stream_partitions mk ids gen (seq 0 (length ids)) = Ok (ws, length <$> ids) ∧
    table_work mk (done_blocks ids gen) ++ ws ≡ₚ table_work mk ids.
Proof.
  intros Hc.
  assert (∀ pre bs gs, Forall2 (λ b n, n ≤ length b) bs gs → ids = pre ++ bs → ∃ ws,
    stream_partitions mk ids ((length <$> pre) ++ gs) (seq (length pre) (length bs))
      = Ok (ws, length <$> ids) ∧
    table_work (λ p, mk (length pre + p)) (done_blocks bs gs) ++ ws
      ≡ₚ table_work (λ p, mk (length pre + p)) bs) as H.
  { intros pre bs gs Hbg. revert pre. induction Hbg as [|b n bs gs Hn Hbg IH]; intros pre Hids; cbn [length seq stream_partitions].
    { exists []. subst. rewrite !app_nil_r. done. }
    assert (ids !! length pre = Some b) as Hb by (subst; apply list_lookup_middle; done).
    assert (((length <$> pre) ++ n :: gs) !! length pre = Some n) as Hg
      by (apply list_lookup_middle; by rewrite length_fmap).
    rewrite (vec_at_Some _ _ _ Hb), (vec_at_Some _ _ _ Hg). cbn.
    rewrite stream_blocks_spec by lia. rewrite (max_r n) by done.
    rewrite vec_set_lt by (rewrite length_app, length_fmap; cbn; lia). cbn.
    replace (<[length pre:=length b]> ((length <$> pre) ++ n :: gs))
      with ((length <$> (pre ++ [b])) ++ gs).
    2:{ rewrite <- (length_fmap length pre) at 1. rewrite insert_app_r_alt by lia.
        rewrite Nat.sub_diag. by rewrite fmap_app, <- app_assoc. }
    destruct (IH (pre ++ [b])) as (ws & Hws & Hp); [subst; by rewrite <- app_assoc|].
    rewrite length_app in Hws. cbn in Hws. rewrite Nat.add_1_r in Hws.
    rewrite Hws. cbn. eexists. split; [done|].
    rewrite length_app in Hp. cbn [length] in Hp.
    unfold done_blocks in *. cbn [zip_with]. rewrite !table_work_cons, !Nat.add_0_r.
    assert (∀ l, table_work (λ p, mk (length pre + S p)) l
      = table_work (λ p, mk (length pre + 1 + p)) l) as Hmk.
    { intros l. unfold table_work. f_equal. apply imap_ext. intros. f_equal. f_equal. lia. }
    rewrite !Hmk, <- Hp.
    assert (mk (length pre) <$> b =
      (mk (length pre) <$> take n b) ++ (mk (length pre) <$> drop n b)) as ->
      by (by rewrite <- fmap_app, take_drop).
    rewrite <- !app_assoc. apply Permutation_app_head, Permutation_app_swap_app. }
  destruct (H [] ids gen Hc eq_refl) as (ws & Hws & Hp). by exists ws.
Qed.
