(* ===== verification/BlockOperators.v ===== *)
(** * Operators that issue one work order per input block

    Models the constructors, [feedInputBlock], [doneFeedingInputBlocks] and
    [getAllWorkOrders] of the operators of relational_operators/ that read one
    relation block by block: SelectOperator, AggregationOperator,
    BuildHashOperator, BuildLIPFilterOperator,
    BuildAggregationExistenceMapOperator, DeleteOperator, HashJoinOperator (the
    probe side), SaveBlocksOperator and UpdateOperator.  Each keeps a vector of
    block ids per partition; a stored relation is read when the operator is
    constructed, a streamed one is fed to it block by block. *)

From S2P Require Import Prelude CatalogBlocks OperatorWork.
From stdpp Require Import options.

(** The constant members of each class. *)
Inductive BlockClass :=
| SelectClass (output destination predicate selection : Z)
    (simple_selection : option (list Z))
| AggregationClass (aggr_state : Z)
| BuildHashClass (keys : list Z) (nullable is_broadcast_join : bool)
    (hash_table predicate : Z)
| BuildLIPFilterClass (predicate : Z)
| BuildAggregationExistenceMapClass (build_attribute aggr_state : Z)
| DeleteClass (predicate : Z)
| HashJoinClass (build : Z) (keys : list Z) (nullable : bool)
    (output destination hash_table residual selection : Z)
    (selection_on_build : list bool) (join_type : JoinType)
| SaveBlocksClass (force : bool)
| UpdateClass (destination predicate update_group : Z).

Record BlockOperator := {
  bo_base : OperatorBase;
  bo_class : BlockClass;
  (** [input_relation_.getID()] (the probe relation of a hash join) *)
  bo_relation : Z;
  bo_is_stored : bool;
  bo_started : bool;
  bo_block_ids : list (list nat);
  bo_generated : list nat;
}.

Definition set_base (b : OperatorBase) (op : BlockOperator) : BlockOperator :=
  {| bo_base := b; bo_class := bo_class op; bo_relation := bo_relation op;
     bo_is_stored := bo_is_stored op; bo_started := bo_started op;
     bo_block_ids := bo_block_ids op; bo_generated := bo_generated op |}.
Definition set_started (op : BlockOperator) : BlockOperator :=
  {| bo_base := bo_base op; bo_class := bo_class op; bo_relation := bo_relation op;
     bo_is_stored := bo_is_stored op; bo_started := true;
     bo_block_ids := bo_block_ids op; bo_generated := bo_generated op |}.
Definition set_block_ids (ids : list (list nat)) (op : BlockOperator) : BlockOperator :=
  {| bo_base := bo_base op; bo_class := bo_class op; bo_relation := bo_relation op;
     bo_is_stored := bo_is_stored op; bo_started := bo_started op;
     bo_block_ids := ids; bo_generated := bo_generated op |}.
Definition set_generated (gen : list nat) (op : BlockOperator) : BlockOperator :=
  {| bo_base := bo_base op; bo_class := bo_class op; bo_relation := bo_relation op;
     bo_is_stored := bo_is_stored op; bo_started := bo_started op;
     bo_block_ids := bo_block_ids op; bo_generated := gen |}.

(** ** Construction *)

Section construction.
Context `{!HashOrder nat}.

(** The body of the constructors for a stored relation. *)
Definition stored_block_ids (num_partitions : nat) (r : CatalogRelation)
  : outcome (list (list nat)) :=
  match partition_scheme_ r with
  | Some s => mapM (λ part_id, getBlocksInPartition part_id s) (seq 0 num_partitions)
  | None => vec_set (replicate num_partitions []) 0 (getBlocksSnapshot r)
  end.

(** The same in BuildHashOperator: a build relation without partitions is
    broadcast to every partition of the probe side. *)
Definition broadcast_block_ids (num_partitions : nat) (r : CatalogRelation)
  : outcome (list (list nat)) :=
  match partition_scheme_ r with
  | Some s => mapM (λ part_id, getBlocksInPartition part_id s) (seq 0 num_partitions)
  | None => Ok (replicate num_partitions (getBlocksSnapshot r))
  end.

Definition new_block_operator
    (load : nat → CatalogRelation → outcome (list (list nat)))
    (b : OperatorBase) (c : BlockClass) (r : CatalogRelation) (is_stored : bool)
  : outcome BlockOperator :=
  let n := num_partitions_ b in
  ids ← (if is_stored then load n r else Ok (replicate n []));
  mret {| bo_base := b; bo_class := c; bo_relation := rel_id r;
          bo_is_stored := is_stored; bo_started := false;
          bo_block_ids := ids; bo_generated := replicate n 0 |}.

Definition new_SelectOperator (query_id : nat) (input : CatalogRelation)
    (has_repartition : bool) (output : CatalogRelation)
    (destination predicate selection : Z) (is_stored : bool) :=
  new_block_operator stored_block_ids
    (new_OperatorBase query_id (getNumPartitions input) has_repartition
       (getNumPartitions output))
    (SelectClass (rel_id output) destination predicate selection None)
    input is_stored.

(** The second constructor, with a projection list instead of expressions. *)
Definition new_SelectOperator_simple (query_id : nat) (input : CatalogRelation)
    (has_repartition : bool) (output : CatalogRelation)
    (destination predicate : Z) (selection : list Z) (is_stored : bool) :=
  new_block_operator stored_block_ids
    (new_OperatorBase query_id (getNumPartitions input) has_repartition
       (getNumPartitions output))
    (SelectClass (rel_id output) destination predicate (-1) (Some selection))
    input is_stored.

Definition new_AggregationOperator (query_id : nat) (input : CatalogRelation)
    (is_stored : bool) (aggr_state : Z) (num_partitions : nat) :=
  new_block_operator stored_block_ids
    (new_OperatorBase query_id num_partitions false 0)
    (AggregationClass aggr_state) input is_stored.

Definition new_BuildHashOperator (query_id : nat) (input : CatalogRelation)
    (is_stored : bool) (keys : list Z) (nullable : bool) (num_partitions : nat)
    (hash_table predicate : Z) :=
  new_block_operator broadcast_block_ids
    (new_OperatorBase query_id num_partitions false 0)
    (BuildHashClass keys nullable
       (bool_decide (1 < num_partitions) && negb (hasPartitionScheme input))
       hash_table predicate)
    input is_stored.

Definition new_BuildLIPFilterOperator (query_id : nat) (input : CatalogRelation)
    (predicate : Z) (is_stored : bool) :=
  new_block_operator stored_block_ids
    (new_OperatorBase query_id (getNumPartitions input) false 0)
    (BuildLIPFilterClass predicate) input is_stored.

Definition new_BuildAggregationExistenceMapOperator (query_id : nat)
    (input : CatalogRelation) (build_attribute : Z) (is_stored : bool)
    (aggr_state : Z) (num_partitions : nat) :=
  new_block_operator stored_block_ids
    (new_OperatorBase query_id num_partitions false 0)
    (BuildAggregationExistenceMapClass build_attribute aggr_state)
    input is_stored.

Definition new_DeleteOperator (query_id : nat) (relation : CatalogRelation)
    (predicate : Z) (is_stored : bool) :=
  new_block_operator stored_block_ids
    (new_OperatorBase query_id (getNumPartitions relation) false
       (getNumPartitions relation))
    (DeleteClass predicate) relation is_stored.

Definition new_HashJoinOperator (query_id : nat) (build probe : CatalogRelation)
    (probe_is_stored : bool) (keys : list Z) (nullable : bool)
    (num_partitions : nat) (has_repartition : bool) (output : CatalogRelation)
    (destination hash_table residual selection : Z)
    (selection_on_build : list bool) (join_type : JoinType) :=
  new_block_operator stored_block_ids
    (new_OperatorBase query_id num_partitions has_repartition
       (getNumPartitions output))
    (HashJoinClass (rel_id build) keys nullable (rel_id output) destination
       hash_table residual selection selection_on_build join_type)
    probe probe_is_stored.

(** Always fed: it has no flag for a stored relation. *)
Definition new_SaveBlocksOperator (query_id : nat) (relation : CatalogRelation)
    (force : bool) :=
  new_block_operator stored_block_ids
    (new_OperatorBase query_id (getNumPartitions relation) false 0)
    (SaveBlocksClass force) relation false.

(** Always over a stored relation. *)
Definition new_UpdateOperator (query_id : nat) (relation : CatalogRelation)
    (destination predicate update_group : Z) :=
  new_block_operator stored_block_ids
    (new_OperatorBase query_id (getNumPartitions relation) false
       (getNumPartitions relation))
    (UpdateClass destination predicate update_group) relation true.

End construction.

(** ** Generating work orders *)

Section generation.
Context (op : BlockOperator).
Abbreviation b := (bo_base op).
Abbreviation lip := (lip_deployment_index_ b).
Abbreviation rel := (bo_relation op).

(** [new XWorkOrder(...)] of each class, for a partition and a block. *)
Definition new_SelectWorkOrder (destination predicate selection : Z)
    (simple_selection : option (list Z)) (part_id block : nat) :=
  MkWorkOrder (query_id_ b) part_id [0%Z]
    (SelectWork rel block predicate simple_selection selection destination lip).
Definition new_AggregationWorkOrder (aggr_state : Z) (part_id block : nat) :=
  work_order b part_id (AggregationWork block aggr_state lip).
Definition new_BuildHashWorkOrder (keys : list Z) (nullable : bool)
    (hash_table predicate : Z) (part_id block : nat) :=
  work_order b part_id (BuildHashWork rel keys nullable block predicate hash_table lip).
Definition new_BuildLIPFilterWorkOrder (predicate : Z) (part_id block : nat) :=
  work_order b part_id (BuildLIPFilterWork rel block predicate lip).
Definition new_BuildAggregationExistenceMapWorkOrder
    (build_attribute aggr_state : Z) (part_id block : nat) :=
  work_order b part_id
    (BuildAggregationExistenceMapWork rel block build_attribute aggr_state).
Definition new_DeleteWorkOrder (predicate : Z) (part_id block : nat) :=
  work_order b part_id (DeleteWork rel block predicate (op_index_ b)).
Definition new_SaveBlocksWorkOrder (force : bool) (part_id block : nat) :=
  work_order b part_id (SaveBlocksWork block force).
Definition new_UpdateWorkOrder (destination predicate update_group : Z)
    (part_id block : nat) :=
  work_order b part_id
    (UpdateWork rel block predicate update_group destination (op_index_ b)).
(** [JoinWorkOrderClass] is HashInnerJoinWorkOrder, HashSemiJoinWorkOrder or
    HashAntiJoinWorkOrder. *)
Definition new_HashJoinWorkOrder (build : Z) (keys : list Z) (nullable : bool)
    (destination hash_table residual selection : Z) (join_type : JoinType)
    (part_id block : nat) :=
  work_order b part_id
    (HashJoinWork join_type build rel keys nullable block residual selection
       hash_table destination lip).
Definition new_HashOuterJoinWorkOrder (build : Z) (keys : list Z)
    (nullable : bool) (destination hash_table selection : Z)
    (selection_on_build : list bool) (part_id block : nat) :=
  work_order b part_id
    (HashOuterJoinWork build rel keys nullable block selection
       selection_on_build hash_table destination lip).

Abbreviation part_ids := (seq 0 (num_partitions_ b)).
Abbreviation result := (outcome (list OperatorWorkOrder * bool * BlockOperator)).

(** The branch for a stored relation. *)
Definition generate_stored (mk : nat → nat → OperatorWorkOrder) : result :=
  if bo_started op then Ok ([], true, op)
  else
    ws ← all_partitions mk (bo_block_ids op) part_ids;
    mret (ws, true, set_started op).

(** The branch for a streamed relation. *)
Definition generate_streamed (mk : nat → nat → OperatorWorkOrder) : result :=
  r ← stream_partitions mk (bo_block_ids op) (bo_generated op) part_ids;
  mret (r.1, done_feeding_input_relation_ b, set_generated r.2 op).

Definition stored_or_streamed (mk : nat → nat → OperatorWorkOrder) : result :=
  if bo_is_stored op then generate_stored mk else generate_streamed mk.

Definition SelectOperator_getAllWorkOrders destination predicate selection simple :=
  stored_or_streamed (new_SelectWorkOrder destination predicate selection simple).
Definition AggregationOperator_getAllWorkOrders aggr_state :=
  stored_or_streamed (new_AggregationWorkOrder aggr_state).
Definition BuildHashOperator_getAllWorkOrders keys nullable hash_table predicate :=
  stored_or_streamed (new_BuildHashWorkOrder keys nullable hash_table predicate).
Definition BuildLIPFilterOperator_getAllWorkOrders predicate :=
  stored_or_streamed (new_BuildLIPFilterWorkOrder predicate).
Definition BuildAggregationExistenceMapOperator_getAllWorkOrders attribute state :=
  stored_or_streamed (new_BuildAggregationExistenceMapWorkOrder attribute state).
Definition DeleteOperator_getAllWorkOrders predicate :=
  stored_or_streamed (new_DeleteWorkOrder predicate).
Definition SaveBlocksOperator_getAllWorkOrders force :=
  generate_streamed (new_SaveBlocksWorkOrder force).
Definition UpdateOperator_getAllWorkOrders destination predicate update_group :=
  generate_stored (new_UpdateWorkOrder destination predicate update_group).
Definition getAllNonOuterJoinWorkOrders build keys nullable destination
    hash_table residual selection join_type :=
  stored_or_streamed (new_HashJoinWorkOrder build keys nullable destination
    hash_table residual selection join_type).
Definition getAllOuterJoinWorkOrders build keys nullable destination hash_table
    selection selection_on_build :=
  stored_or_streamed (new_HashOuterJoinWorkOrder build keys nullable destination
    hash_table selection selection_on_build).
Definition HashJoinOperator_getAllWorkOrders build keys nullable destination
    hash_table residual selection selection_on_build join_type :=
  match join_type with
  | kLeftOuterJoin =>
      getAllOuterJoinWorkOrders build keys nullable destination hash_table
        selection selection_on_build
  | kInnerJoin | kLeftSemiJoin | kLeftAntiJoin =>
      getAllNonOuterJoinWorkOrders build keys nullable destination hash_table
        residual selection join_type
  end.

(** The virtual call. *)
Definition block_getAllWorkOrders : result :=
  match bo_class op with
  | SelectClass _ d p s simple => SelectOperator_getAllWorkOrders d p s simple
  | AggregationClass st => AggregationOperator_getAllWorkOrders st
  | BuildHashClass k n _ h p => BuildHashOperator_getAllWorkOrders k n h p
  | BuildLIPFilterClass p => BuildLIPFilterOperator_getAllWorkOrders p
  | BuildAggregationExistenceMapClass a st =>
      BuildAggregationExistenceMapOperator_getAllWorkOrders a st
  | DeleteClass p => DeleteOperator_getAllWorkOrders p
  | HashJoinClass bl k n _ d h r s on_build j =>
      HashJoinOperator_getAllWorkOrders bl k n d h r s on_build j
  | SaveBlocksClass f => SaveBlocksOperator_getAllWorkOrders f
  | UpdateClass d p g => UpdateOperator_getAllWorkOrders d p g
  end.

(** The work order of a partition and a block, by class. *)
Definition block_work : nat → nat → OperatorWorkOrder :=
  match bo_class op with
  | SelectClass _ d p s simple => new_SelectWorkOrder d p s simple
  | AggregationClass st => new_AggregationWorkOrder st
  | BuildHashClass k n _ h p => new_BuildHashWorkOrder k n h p
  | BuildLIPFilterClass p => new_BuildLIPFilterWorkOrder p
  | BuildAggregationExistenceMapClass a st =>
      new_BuildAggregationExistenceMapWorkOrder a st
  | DeleteClass p => new_DeleteWorkOrder p
  | HashJoinClass bl k n _ d h _ s on_build kLeftOuterJoin =>
      new_HashOuterJoinWorkOrder bl k n d h s on_build
  | HashJoinClass bl k n _ d h r s _ j => new_HashJoinWorkOrder bl k n d h r s j
  | SaveBlocksClass f => new_SaveBlocksWorkOrder f
  | UpdateClass d p g => new_UpdateWorkOrder d p g
  end.

End generation.

(** ** Input *)

Definition is_broadcast (op : BlockOperator) : bool :=
  match bo_class op with BuildHashClass _ _ b _ _ => b | _ => false end.

Definition SelectOperator_feedInputBlock (block : nat) (rel : Z) (part_id : nat)
    (op : BlockOperator) : outcome BlockOperator :=
  if decide (rel = bo_relation op)
  then ids ← push_block (bo_block_ids op) part_id block; mret (set_block_ids ids op)
  else Ok op.

Definition BuildHashOperator_feedInputBlock (block part_id : nat)
    (is_broadcast_join : bool) (op : BlockOperator) : outcome BlockOperator :=
  if is_broadcast_join
  then
    ids ← push_everywhere (bo_block_ids op) block (seq 0 (num_partitions_ (bo_base op)));
    mret (set_block_ids ids op)
  else ids ← push_block (bo_block_ids op) part_id block; mret (set_block_ids ids op).

(** The others push the block without looking at the relation; an update
    inherits the empty body of the base class. *)
Definition block_feedInputBlock (block : nat) (rel : Z) (part_id : nat)
    (op : BlockOperator) : outcome BlockOperator :=
  match bo_class op with
  | SelectClass _ _ _ _ _ => SelectOperator_feedInputBlock block rel part_id op
  | BuildHashClass _ _ is_broadcast_join _ _ =>
      BuildHashOperator_feedInputBlock block part_id is_broadcast_join op
  | UpdateClass _ _ _ => Ok op
  | _ => ids ← push_block (bo_block_ids op) part_id block; mret (set_block_ids ids op)
  end.

(** A hash join ignores the end of its build relation. *)
Definition block_doneFeedingInputBlocks (rel : Z) (op : BlockOperator) : BlockOperator :=
  match bo_class op with
  | HashJoinClass _ _ _ _ _ _ _ _ _ _ =>
      if decide (bo_relation op = rel)
      then set_base (base_doneFeedingInputBlocks (bo_base op)) op else op
  | _ => set_base (base_doneFeedingInputBlocks (bo_base op)) op
  end.

Definition block_getInsertDestinationID (op : BlockOperator) : Z :=
  match bo_class op with
  | SelectClass _ d _ _ _ | HashJoinClass _ _ _ _ d _ _ _ _ _ | UpdateClass d _ _ => d
  | _ => -1
  end.

Definition block_getOutputRelationID (op : BlockOperator) : Z :=
  match bo_class op with
  | SelectClass o _ _ _ _ | HashJoinClass _ _ _ o _ _ _ _ _ _ => o
  | DeleteClass _ | UpdateClass _ _ _ => bo_relation op
  | _ => -1
  end.
