(* ===== verification/OperatorRuns.v ===== *)
(** * Runs of an operator

    The calls the query manager makes on an operator between its construction
    and its end, as a sequence, and the induction principle for the properties
    of such sequences that the operators share. *)

From S2P Require Import Prelude OperatorWork.
From stdpp Require Import options.

(** [feedInputBlock], [doneFeedingInputBlocks] and [getAllWorkOrders]. *)
Inductive call :=
| Feed (block : nat) (relation : Z) (part_id : nat)
| EndOfRelation (relation : Z)
| Generate.

#[global] Instance call_eq_dec : EqDecision call.
Proof. solve_decision. Defined.

Section runs.
Context {Op W : Type}.
Context (feed : nat → Z → nat → Op → outcome Op) (finish : Z → Op → outcome Op).
Context (generate : Op → outcome (list W * bool * Op)).

(** The work orders generated by a sequence of calls, and the operator after
    it. *)
Fixpoint run_calls (cs : list call) (op : Op) : outcome (list W * Op) :=
  match cs with
  | [] => Ok ([], op)
  | Feed b r p :: cs' => op' ← feed b r p op; run_calls cs' op'
  | EndOfRelation r :: cs' => op' ← finish r op; run_calls cs' op'
  | Generate :: cs' =>
      x ← generate op;
      y ← run_calls cs' x.2;
      mret (x.1.1 ++ y.1, y.2)
  end.

(** [I h ws op]: after the calls [h], which generated [ws], the operator is
    [op]. *)
Lemma run_calls_inv (I : list call → list W → Op → Prop) (ok : call → Prop) :
  (∀ h ws op b r p, ok (Feed b r p) → I h ws op →
     ∃ op', feed b r p op = Ok op' ∧ I (h ++ [Feed b r p]) ws op') →
  (∀ h ws op r, ok (EndOfRelation r) → I h ws op →
     ∃ op', finish r op = Ok op' ∧ I (h ++ [EndOfRelation r]) ws op') →
  (∀ h ws op, I h ws op →
     ∃ ws' d op', generate op = Ok (ws', d, op') ∧ I (h ++ [Generate]) (ws ++ ws') op') →
  ∀ cs op, Forall ok cs → I [] [] op →
  ∃ ws op', run_calls cs op = Ok (ws, op') ∧ I cs ws op'.
Proof.
  intros Hfeed Hfin Hgen cs op Hcs HI.
  assert (∀ h ws0 op, I h ws0 op → ∃ ws op',
    run_calls cs op = Ok (ws, op') ∧ I (h ++ cs) (ws0 ++ ws) op') as H;
    [|destruct (H [] [] op HI) as (ws & op' & ? & ?); eauto].
  clear op HI. induction Hcs as [|c cs Hc Hcs IH]; intros h ws0 op HI; cbn.
  { exists [], op. by rewrite !app_nil_r. }
  destruct c as [b r p|r|].
  - destruct (Hfeed h ws0 op b r p Hc HI) as (op1 & -> & H1). cbn.
    destruct (IH _ _ _ H1) as (ws & op2 & -> & H2). rewrite <- app_assoc in H2. eauto.
  - destruct (Hfin h ws0 op r Hc HI) as (op1 & -> & H1). cbn.
    destruct (IH _ _ _ H1) as (ws & op2 & -> & H2). rewrite <- app_assoc in H2. eauto.
  - destruct (Hgen h ws0 op HI) as (ws1 & d & op1 & -> & H1). cbn.
    destruct (IH _ _ _ H1) as (ws & op2 & -> & H2). cbn. rewrite <- !app_assoc in H2. eauto.
Qed.
End runs.

(** The blocks fed to a partition, in order; a broadcast goes to every one. *)
Definition fed (broadcast : bool) (h : list call) (part_id : nat) : list nat :=
  omap (λ c, match c with
    | Feed b _ p => if broadcast || (p =? part_id) then Some b else None
    | _ => None
    end) h.

Lemma fed_app broadcast h h' p :
  fed broadcast (h ++ h') p = fed broadcast h p ++ fed broadcast h' p.
Proof. apply omap_app. Qed.

(** A table of blocks with the blocks fed later. *)
Definition fed_table (broadcast : bool) (ids : list (list nat)) (h : list call)
  : list (list nat) := imap (λ p bs, bs ++ fed broadcast h p) ids.

Lemma length_fed_table broadcast ids h : length (fed_table broadcast ids h) = length ids.
Proof. apply length_imap. Qed.

Lemma fed_table_nil broadcast ids : fed_table broadcast ids [] = ids.
Proof.
  apply list_eq. intros i. unfold fed_table. rewrite list_lookup_imap.
  destruct (ids !! i); cbn; [|done]. by rewrite app_nil_r.
Qed.

Lemma fed_table_quiet broadcast ids h c :
  (∀ b r p, c ≠ Feed b r p) → fed_table broadcast ids (h ++ [c]) = fed_table broadcast ids h.
Proof.
  intros Hc. apply imap_ext. intros i bs _. rewrite fed_app.
  destruct c as [b r p| |]; [by destruct (Hc b r p)|cbn; by rewrite app_nil_r..].
Qed.

Lemma push_block_spec ids p b :
  p < length ids → push_block ids p b = Ok (alter (.++ [b]) p ids).
Proof.
  intros Hp. destruct (lookup_lt_is_Some_2 ids p Hp) as [bs Hbs].
  unfold push_block. rewrite (vec_at_Some _ _ _ Hbs). cbn. rewrite vec_set_lt by done.
  f_equal. apply list_eq. intros i. destruct (decide (i = p)) as [->|Hi].
  - rewrite list_lookup_insert_eq, list_lookup_alter_eq by done. by rewrite Hbs.
  - by rewrite list_lookup_insert_ne, list_lookup_alter_ne.
Qed.

Lemma push_everywhere_spec ids b :
  push_everywhere ids b (seq 0 (length ids)) = Ok ((.++ [b]) <$> ids).
Proof.
  assert (∀ rest pre, push_everywhere (((.++ [b]) <$> pre) ++ rest) b
    (seq (length pre) (length rest)) = Ok ((.++ [b]) <$> (pre ++ rest))) as H;
    [|by apply (H ids [])].
  induction rest as [|bs rest IH]; intros pre; cbn [length seq push_everywhere].
  { by rewrite !app_nil_r. }
  rewrite push_block_spec by (rewrite length_app, length_fmap; cbn; lia). cbn.
  specialize (IH (pre ++ [bs])). rewrite length_app in IH. cbn in IH.
  rewrite Nat.add_1_r, <- !app_assoc in IH. cbn in IH.
  rewrite <- IH. f_equal. rewrite fmap_app, <- app_assoc. cbn.
  apply list_eq. intros i. destruct (decide (i = length pre)) as [->|Hi].
  - rewrite list_lookup_alter_eq, !list_lookup_middle by (by rewrite length_fmap). done.
  - rewrite list_lookup_alter_ne by done. rewrite !lookup_app, !lookup_cons, !length_fmap.
    destruct ((_ <$> _) !! i) eqn:E; [done|].
    apply lookup_ge_None in E. rewrite length_fmap in E.
    destruct (i - length pre) eqn:E2; [lia|done].
Qed.

(** Feeding a block extends the table. *)
Lemma fed_table_push ids h b r p :
  alter (.++ [b]) p (fed_table false ids h) = fed_table false ids (h ++ [Feed b r p]).
Proof.
  apply list_eq. intros i. destruct (decide (i = p)) as [->|Hi].
  - rewrite list_lookup_alter_eq. unfold fed_table. rewrite !list_lookup_imap.
    destruct (ids !! p); cbn; [|done]. rewrite fed_app, app_assoc.
    unfold fed at 3. cbn. by rewrite Nat.eqb_refl.
  - rewrite list_lookup_alter_ne by done. unfold fed_table. rewrite !list_lookup_imap.
    destruct (ids !! i); cbn; [|done]. rewrite fed_app. unfold fed at 3. cbn.
    destruct (Nat.eqb_spec p i); [lia|]. by rewrite app_nil_r.
Qed.

Lemma fed_table_broadcast ids h b r p :
  (.++ [b]) <$> fed_table true ids h = fed_table true ids (h ++ [Feed b r p]).
Proof.
  apply list_eq. intros i. rewrite list_lookup_fmap. unfold fed_table.
  rewrite !list_lookup_imap. destruct (ids !! i); cbn; [|done].
  by rewrite fed_app, app_assoc.
Qed.

(** Counters stay within the table, and the blocks already seen stay the same,
    when blocks are appended. *)
Lemma counters_ok_alter ids gen p b :
  counters_ok ids gen → counters_ok (alter (.++ [b]) p ids) gen.
Proof.
  unfold counters_ok. intros H. revert p. induction H as [|bs n ids gen Hn H IH];
    intros [|p]; cbn; constructor; try done.
  rewrite length_app. lia.
Qed.

Lemma done_blocks_alter ids gen p b :
  counters_ok ids gen → done_blocks (alter (.++ [b]) p ids) gen = done_blocks ids gen.
Proof.
  unfold counters_ok, done_blocks. intros H. revert p.
  induction H as [|bs n ids gen Hn H IH]; intros [|p]; cbn; try done.
  - by rewrite take_app_le.
  - f_equal. apply IH.
Qed.

Lemma counters_ok_fmap ids gen b :
  counters_ok ids gen → counters_ok ((.++ [b]) <$> ids) gen.
Proof.
  unfold counters_ok. induction 1; cbn; constructor; [|done].
  rewrite length_app. lia.
Qed.

Lemma done_blocks_fmap ids gen b :
  counters_ok ids gen → done_blocks ((.++ [b]) <$> ids) gen = done_blocks ids gen.
Proof.
  unfold counters_ok, done_blocks. induction 1 as [|bs n ids gen Hn H IH]; cbn; [done|].
  by rewrite take_app_le, IH.
Qed.

Lemma counters_ok_set ids gen i bs n :
  counters_ok ids gen → ids !! i = Some bs → n ≤ length bs →
  counters_ok ids (<[i := n]> gen).
Proof.
  unfold counters_ok. intros H. revert i. induction H as [|b k ids gen Hk H IH]; intros [|i] Hi Hn;
    cbn in *; simplify_eq; constructor; auto.
Qed.

Lemma counters_ok_zero ids : counters_ok ids (replicate (length ids) 0).
Proof. unfold counters_ok. induction ids; cbn; constructor; [lia|done]. Qed.

Lemma done_blocks_zero {A} (mk : nat → nat → A) ids :
  table_work mk (done_blocks ids (replicate (length ids) 0)) = [].
Proof.
  revert mk. unfold done_blocks. induction ids as [|bs ids IH]; intros mk; [done|].
  cbn [length replicate zip_with]. rewrite table_work_cons, IH. by rewrite app_nil_r.
Qed.

(** ** Operators with several inputs *)

(** Whether a call feeds a block of a relation. *)
Definition feeds (r : Z) (c : call) : bool :=
  match c with Feed _ r' _ => bool_decide (r' = r) | _ => false end.

(** The calls that feed a relation, and the blocks fed, whatever their
    partition. *)
Definition feeds_of (r : Z) (h : list call) : list call := filter (feeds r) h.
Definition blocks_fed (r : Z) (h : list call) : list nat := fed true (feeds_of r h) 0.

Lemma feeds_of_app r h c :
  feeds_of r (h ++ [c]) = feeds_of r h ++ (if feeds r c then [c] else []).
Proof.
  unfold feeds_of. rewrite filter_app. f_equal. rewrite filter_cons, filter_nil.
  case_decide as H; destruct (feeds r c); naive_solver.
Qed.

Lemma blocks_fed_app r h c :
  blocks_fed r (h ++ [c]) =
    blocks_fed r h ++ (match c with
      | Feed b r' _ => if bool_decide (r' = r) then [b] else []
      | _ => [] end).
Proof.
  unfold blocks_fed. rewrite feeds_of_app. rewrite fed_app. f_equal.
  destruct c as [b r' p| |]; cbn; [|done..]. by case_bool_decide.
Qed.

(** Whether the end of a relation is among the calls. *)
Definition ended (r : Z) (h : list call) : bool := bool_decide (EndOfRelation r ∈ h).

Lemma ended_app r h c :
  ended r (h ++ [c]) = ended r h || bool_decide (c = EndOfRelation r).
Proof.
  unfold ended. rewrite <- bool_decide_or. apply bool_decide_ext.
  rewrite elem_of_app, list_elem_of_singleton. naive_solver.
Qed.
