(* ===== verification/BlockOperatorTheorems.v ===== *)
(** * Block operators issue each work order once

    The invariant of the operators of BlockOperators.v over a sequence of
    calls, and what follows: whatever the interleaving of [feedInputBlock],
    [doneFeedingInputBlocks] and [getAllWorkOrders], there is exactly one work
    order per block of each partition. *)

From S2P Require Import Prelude CatalogBlocks OperatorWork BlockOperators OperatorRuns.
From stdpp Require Import options.

Abbreviation run_block :=
  (run_calls block_feedInputBlock (λ r op, Ok (block_doneFeedingInputBlocks r op))
     block_getAllWorkOrders).

(** The members that never change. *)
Record same_operator (op0 op : BlockOperator) : Prop := {
  same_query : query_id_ (bo_base op) = query_id_ (bo_base op0);
  same_partitions : num_partitions_ (bo_base op) = num_partitions_ (bo_base op0);
  same_index : op_index_ (bo_base op) = op_index_ (bo_base op0);
  same_lip : lip_deployment_index_ (bo_base op) = lip_deployment_index_ (bo_base op0);
  same_class : bo_class op = bo_class op0;
  same_relation : bo_relation op = bo_relation op0;
  same_stored : bo_is_stored op = bo_is_stored op0;
}.

Lemma same_operator_refl op : same_operator op op.
Proof. by split. Qed.

Lemma same_operator_trans op1 op2 op3 :
  same_operator op1 op2 → same_operator op2 op3 → same_operator op1 op3.
Proof. intros [] []. split; congruence. Qed.

(** A save blocks operator is always fed, an update never. *)
Definition class_fits (op : BlockOperator) : Prop :=
  match bo_class op with
  | SaveBlocksClass _ => bo_is_stored op = false
  | UpdateClass _ _ _ => bo_is_stored op = true
  | _ => True
  end.

(** The invariant of an operator's own state. *)
Record block_op_ok (op : BlockOperator) : Prop := {
  ok_fits : class_fits op;
  ok_ids : length (bo_block_ids op) = num_partitions_ (bo_base op);
  ok_counters : counters_ok (bo_block_ids op) (bo_generated op);
}.

(** The blocks it can be fed, and the ends of relations it can be told of. *)
Definition block_accepts (op : BlockOperator) (r : Z) (p : nat) : Prop :=
  bo_is_stored op = false ∧ r = bo_relation op ∧ p < num_partitions_ (bo_base op).
Definition is_hash_join (op : BlockOperator) : bool :=
  match bo_class op with HashJoinClass _ _ _ _ _ _ _ _ _ _ => true | _ => false end.
Definition block_ends (op : BlockOperator) (r : Z) : Prop :=
  bo_is_stored op = true ∨ is_hash_join op = true ∨ r = bo_relation op.

Definition block_call_ok (op : BlockOperator) (c : call) : Prop :=
  match c with
  | Feed _ r p => block_accepts op r p
  | EndOfRelation r => block_ends op r
  | Generate => True
  end.

(** Whether the end of the input relation is among the calls. *)
Definition input_ended (op : BlockOperator) : list call → bool := ended (bo_relation op).

Lemma block_getAllWorkOrders_unfold op :
  class_fits op →
  block_getAllWorkOrders op = stored_or_streamed op (block_work op).
Proof.
  unfold class_fits, block_getAllWorkOrders, block_work, stored_or_streamed.
  destruct (bo_class op) as [| | | | | |? ? ? ? ? ? ? ? ? []| |]; intros H; rewrite ?H; done.
Qed.

Lemma block_work_same op0 op : same_operator op0 op → block_work op = block_work op0.
Proof.
  intros [Hq Hp Hi Hl Hc Hr Hs]. unfold block_work. rewrite Hc.
  destruct (bo_class op0) as [| | | | | |? ? ? ? ? ? ? ? ? []| |];
    unfold new_SelectWorkOrder, new_AggregationWorkOrder, new_BuildHashWorkOrder,
      new_BuildLIPFilterWorkOrder, new_BuildAggregationExistenceMapWorkOrder,
      new_DeleteWorkOrder, new_HashJoinWorkOrder, new_HashOuterJoinWorkOrder,
      new_SaveBlocksWorkOrder, new_UpdateWorkOrder, work_order;
    by rewrite ?Hq, ?Hl, ?Hr, ?Hi.
Qed.

(** Feeding a block appends it to its partition, or to all of them. *)
Lemma block_feed_spec op b r p :
  block_op_ok op → block_accepts op r p →
  block_feedInputBlock b r p op = Ok (set_block_ids
    (if is_broadcast op then (.++ [b]) <$> bo_block_ids op
     else alter (.++ [b]) p (bo_block_ids op)) op).
Proof.
  intros [Hf Hl Hc] (Hs & -> & Hp). unfold block_feedInputBlock, is_broadcast.
  unfold class_fits in Hf.
  destruct (bo_class op) as [| |? ? []| | | | | |] eqn:E; try congruence;
    unfold SelectOperator_feedInputBlock, BuildHashOperator_feedInputBlock;
    rewrite ?decide_True by done; rewrite ?push_block_spec by lia; try done.
  by rewrite <- Hl, push_everywhere_spec.
Qed.

Lemma block_feed_ok op b r p op' :
  block_op_ok op → block_accepts op r p → block_feedInputBlock b r p op = Ok op' →
  block_op_ok op' ∧ same_operator op op'.
Proof.
  intros Hok Ha. rewrite (block_feed_spec _ _ _ _ Hok Ha). intros [= <-].
  destruct Hok as [Hf Hl Hc]. split; [split; cbn|by split].
  - done.
  - destruct (is_broadcast op); by rewrite ?length_fmap, ?length_alter.
  - destruct (is_broadcast op); [by apply counters_ok_fmap|by apply counters_ok_alter].
Qed.

Lemma block_done_ok op r :
  block_op_ok op → block_op_ok (block_doneFeedingInputBlocks r op) ∧
  same_operator op (block_doneFeedingInputBlocks r op).
Proof.
  intros [Hf Hl Hc]. unfold block_doneFeedingInputBlocks.
  assert (block_op_ok (set_base (base_doneFeedingInputBlocks (bo_base op)) op) ∧
    same_operator op (set_base (base_doneFeedingInputBlocks (bo_base op)) op)) as H by done.
  destruct (bo_class op); try case_decide; done.
Qed.

(** What the end of a relation changes. *)
Lemma block_done_flag op r :
  block_ends op r → bo_is_stored op = false →
  done_feeding_input_relation_ (bo_base (block_doneFeedingInputBlocks r op)) =
    done_feeding_input_relation_ (bo_base op) || bool_decide (r = bo_relation op).
Proof.
  unfold block_ends, is_hash_join, block_doneFeedingInputBlocks. intros He Hs.
  rewrite Hs in He. destruct He as [|He]; [done|].
  destruct (bo_class op); try (destruct He as [| ->]; [done|]; cbn;
    by rewrite bool_decide_true, orb_true_r).
  case_decide as Hd; [rewrite bool_decide_true by done|rewrite bool_decide_false by done];
    cbn; by rewrite ?orb_true_r, ?orb_false_r.
Qed.

(** What one call of [getAllWorkOrders] generates: the work orders of the
    blocks it has not seen. *)
Definition block_issued (op : BlockOperator) : list OperatorWorkOrder :=
  if bo_is_stored op
  then if bo_started op then table_work (block_work op) (bo_block_ids op) else []
  else table_work (block_work op) (done_blocks (bo_block_ids op) (bo_generated op)).

Lemma block_generate_spec op :
  block_op_ok op → ∃ ws op',
    block_getAllWorkOrders op =
      Ok (ws, bo_is_stored op || done_feeding_input_relation_ (bo_base op), op') ∧
    block_op_ok op' ∧ same_operator op op' ∧ bo_base op' = bo_base op ∧
    bo_block_ids op' = bo_block_ids op ∧
    block_issued op ++ ws ≡ₚ block_issued op' ∧
    block_issued op' = table_work (block_work op) (bo_block_ids op).
Proof.
  intros [Hf Hl Hc]. rewrite (block_getAllWorkOrders_unfold op Hf).
  unfold stored_or_streamed, generate_stored, generate_streamed, block_issued.
  destruct (bo_is_stored op) eqn:Hs; [destruct (bo_started op) eqn:Hst|].
  - exists [], op. rewrite Hs, Hst, app_nil_r. split_and!; try done.
  - rewrite <- Hl, all_partitions_spec. cbn.
    do 2 eexists. split; [done|]. cbn. rewrite Hs. split_and!; try done.
  - destruct (stream_partitions_spec (block_work op) _ _ Hc) as (ws & Hws & Hp).
    rewrite <- Hl, Hws. cbn. do 2 eexists. split; [done|]. cbn. rewrite Hs.
    rewrite done_blocks_full.
    split_and!; try done. split; cbn; [done..|apply counters_ok_full].
Qed.

Lemma block_work_orders_numa op p b :
  wo_preferred_numa_nodes (block_work op p b) = [] ∨
  wo_preferred_numa_nodes (block_work op p b) = [0%Z].
Proof.
  unfold block_work.
  destruct (bo_class op) as [| | | | | |? ? ? ? ? ? ? ? ? []| |]; auto.
Qed.

(** ** Runs *)

(** A state in which no call has been made. *)
Record fresh_operator (op : BlockOperator) : Prop := {
  fresh_ok : block_op_ok op;
  fresh_generated : bo_generated op = replicate (num_partitions_ (bo_base op)) 0;
  fresh_started : bo_started op = false;
  fresh_done : done_feeding_input_relation_ (bo_base op) = false;
}.

Lemma fresh_issued op : fresh_operator op → block_issued op = [].
Proof.
  intros [[_ Hl _] Hg Hs _]. unfold block_issued. rewrite Hs, Hg, <- Hl.
  destruct (bo_is_stored op); [done|apply done_blocks_zero].
Qed.

(** The state after the calls [h], which generated [ws]. *)
Record run_state (op0 : BlockOperator) (h : list call)
    (ws : list OperatorWorkOrder) (op : BlockOperator) : Prop := {
  run_ok : block_op_ok op;
  run_same : same_operator op0 op;
  run_ids : bo_block_ids op = fed_table (is_broadcast op0) (bo_block_ids op0) h;
  run_done : bo_is_stored op0 = false →
    done_feeding_input_relation_ (bo_base op) = input_ended op0 h;
  run_issued : ws ≡ₚ block_issued op;
}.

Lemma same_accepts op0 op r p :
  same_operator op0 op → block_accepts op0 r p → block_accepts op r p.
Proof. intros [] (? & ? & ?). repeat split; congruence. Qed.

Lemma same_is_broadcast op0 op : same_operator op0 op → is_broadcast op = is_broadcast op0.
Proof. intros []. unfold is_broadcast. by destruct op, op0; cbn in *; subst. Qed.

Lemma same_ends op0 op r : same_operator op0 op → block_ends op0 r → block_ends op r.
Proof.
  intros [_ _ _ _ Hc Hr Hs]. unfold block_ends, is_hash_join. by rewrite Hc, Hr, Hs.
Qed.

Lemma feed_keeps_run op0 h ws op b r p :
  block_accepts op0 r p → run_state op0 h ws op → ∃ op',
    block_feedInputBlock b r p op = Ok op' ∧ run_state op0 (h ++ [Feed b r p]) ws op'.
Proof.
  intros Ha [Hok Hsame Hids Hd Hws]. pose proof (same_accepts _ _ _ _ Hsame Ha) as Ha'.
  pose proof (block_feed_spec op b r p Hok Ha') as Hf.
  destruct (block_feed_ok op b r p _ Hok Ha' Hf) as [Hok' Hsame'].
  eexists. split; [done|]. rewrite (same_is_broadcast _ _ Hsame) in *. split; [done| | | |].
  - by eapply same_operator_trans.
  - cbn. rewrite Hids. destruct (is_broadcast op0);
      [by rewrite (fed_table_broadcast _ _ _ r p)|by rewrite (fed_table_push _ _ _ r)].
  - intros Hst. cbn. unfold input_ended. rewrite ended_app, bool_decide_false by done.
    by rewrite orb_false_r, Hd.
  - rewrite Hws. unfold block_issued. cbn.
    rewrite (block_work_same _ _ Hsame'), (same_stored _ _ Hsame).
    destruct Ha as [-> _].
    destruct (is_broadcast op0); [rewrite done_blocks_fmap|rewrite done_blocks_alter];
      try done; apply Hok.
Qed.

Lemma done_keeps_run op0 h ws op r :
  block_ends op0 r → run_state op0 h ws op →
  run_state op0 (h ++ [EndOfRelation r]) ws (block_doneFeedingInputBlocks r op).
Proof.
  intros He [Hok Hsame Hids Hd Hws].
  destruct (block_done_ok op r Hok) as [Hok' Hsame'].
  assert (bo_block_ids (block_doneFeedingInputBlocks r op) = bo_block_ids op ∧
    bo_generated (block_doneFeedingInputBlocks r op) = bo_generated op ∧
    bo_started (block_doneFeedingInputBlocks r op) = bo_started op) as (H1 & H2 & H3).
  { unfold block_doneFeedingInputBlocks. destruct (bo_class op); try case_decide; done. }
  split; [done|by eapply same_operator_trans| | |].
  - rewrite H1, Hids. by rewrite fed_table_quiet.
  - intros Hst. rewrite block_done_flag, Hd by
      (first [by eapply same_ends|by rewrite (same_stored _ _ Hsame)|done]).
    unfold input_ended. rewrite ended_app, (same_relation _ _ Hsame). f_equal.
    apply bool_decide_ext. split; congruence.
  - rewrite Hws. unfold block_issued.
    by rewrite H1, H2, H3, (same_stored _ _ Hsame'), (block_work_same _ _ Hsame').
Qed.

Lemma generate_keeps_run op0 h ws op :
  run_state op0 h ws op → ∃ ws' op',
    block_getAllWorkOrders op =
      Ok (ws', bo_is_stored op || done_feeding_input_relation_ (bo_base op), op') ∧
    run_state op0 (h ++ [Generate]) (ws ++ ws') op' ∧
    ws ++ ws' ≡ₚ table_work (block_work op0)
      (fed_table (is_broadcast op0) (bo_block_ids op0) h).
Proof.
  intros [Hok Hsame Hids Hd Hws].
  destruct (block_generate_spec op Hok)
    as (ws' & op' & Hg & Hok' & Hsame' & Hb & Hids' & Hp & Hall).
  exists ws', op'. split; [done|]. split; [split|].
  - done.
  - by eapply same_operator_trans.
  - rewrite Hids', Hids. by rewrite fed_table_quiet.
  - intros Hst. rewrite Hb, Hd by done. unfold input_ended. rewrite ended_app, bool_decide_false by done.
    by rewrite orb_false_r.
  - by rewrite Hws.
  - rewrite Hws, Hp, Hall, Hids. by rewrite (block_work_same _ _ Hsame).
Qed.

Lemma fresh_run op : fresh_operator op → run_state op [] [] op.
Proof.
  intros H. pose proof (fresh_issued op H) as Hi. destruct H as [Hok Hg Hs Hd].
  split; [done|apply same_operator_refl|by rewrite fed_table_nil| |by rewrite Hi].
  intros _. by rewrite Hd.
Qed.

Lemma run_block_state op cs :
  fresh_operator op → Forall (block_call_ok op) cs →
  ∃ ws op', run_block cs op = Ok (ws, op') ∧ run_state op cs ws op'.
Proof.
  intros Hf Hcs. eapply (run_calls_inv _ _ _ (run_state op)); [| | |exact Hcs|by apply fresh_run].
  - intros h ws op1 b r p Ha H1. by apply (feed_keeps_run op h ws op1).
  - intros h ws op1 r He H1. eexists. split; [done|]. by apply done_keeps_run.
  - intros h ws op1 H1. destruct (generate_keeps_run op h ws op1 H1) as (ws' & op' & ? & ? & _).
    eauto.
Qed.

(** ** Construction *)

Section constructed.
Context `{!HashOrder nat}.

(** The constructors over the input relation [r]. *)
Inductive constructed (r : CatalogRelation) : BlockOperator → Prop :=
| made_select q rep out d p s st op :
    new_SelectOperator q r rep out d p s st = Ok op → constructed r op
| made_simple_select q rep out d p s st op :
    new_SelectOperator_simple q r rep out d p s st = Ok op → constructed r op
| made_aggregation q st a n op :
    new_AggregationOperator q r st a n = Ok op → constructed r op
| made_build_hash q st k nu n h p op :
    new_BuildHashOperator q r st k nu n h p = Ok op → constructed r op
| made_build_lip q p st op :
    new_BuildLIPFilterOperator q r p st = Ok op → constructed r op
| made_existence_map q a st s n op :
    new_BuildAggregationExistenceMapOperator q r a st s n = Ok op → constructed r op
| made_delete q p st op :
    new_DeleteOperator q r p st = Ok op → constructed r op
| made_hash_join q bld st k nu n rep out d h res s on_build j op :
    new_HashJoinOperator q bld r st k nu n rep out d h res s on_build j = Ok op →
    constructed r op
| made_save_blocks q f op :
    new_SaveBlocksOperator q r f = Ok op → constructed r op
| made_update q d p g op :
    new_UpdateOperator q r d p g = Ok op → constructed r op.

Lemma mapM_Ok {A B} (f : A → outcome B) l k :
  mapM f l = Ok k → Forall2 (λ x y, f x = Ok y) l k.
Proof.
  revert k. induction l as [|x l IH]; intros k; cbn.
  - intros [= <-]. constructor.
  - intros (y & Hy & (k' & Hk & [= <-])%bind_Ok)%bind_Ok. constructor; eauto.
Qed.

(** The two ways to fill the table give a row per partition. *)
Lemma stored_block_ids_spec load n r ids :
  load = stored_block_ids ∨ load = broadcast_block_ids →
  load n r = Ok ids → length ids = n.
Proof.
  intros [-> | ->]; unfold stored_block_ids, broadcast_block_ids;
    destruct (partition_scheme_ r) as [s|].
  - intros H%mapM_Ok%Forall2_length. by rewrite length_seq in H.
  - intros [_ ->]%vec_set_Ok. by rewrite length_insert, length_replicate.
  - intros H%mapM_Ok%Forall2_length. by rewrite length_seq in H.
  - intros [= <-]. by rewrite length_replicate.
Qed.

(** With the partitions of the relation, the table holds its blocks. *)
Lemma stored_block_ids_blocks load r ids :
  load = stored_block_ids ∨ load = broadcast_block_ids →
  relation_wf r → blocks_agree r → load (getNumPartitions r) r = Ok ids →
  mjoin ids ≡ₚ blocks_ r.
Proof.
  intros Hload Hwf Hag.
  destruct (partition_scheme_ r) as [s|] eqn:Hs.
  - intros Hids. assert (mapM (λ p, getBlocksInPartition p s)
      (seq 0 (getNumPartitions r)) = Ok ids) as Hm.
    { destruct Hload as [-> | ->];
        unfold stored_block_ids, broadcast_block_ids in Hids; by rewrite Hs in Hids. }
    rewrite <- (partition_vectors_blocks r s Hag Hs).
    destruct (wf_scheme _ Hwf s Hs) as [Hsw Hn].
    assert (ids = partition_vectors s) as ->; [|done].
    apply mapM_Ok in Hm. unfold getNumPartitions in Hm. rewrite Hn, <- Hsw in Hm.
    apply list_eq. intros i. unfold partition_vectors. rewrite list_lookup_fmap.
    destruct (blocks_in_partition_ s !! i) as [bs|] eqn:Hi; cbn.
    + pose proof (lookup_lt_Some _ _ _ Hi).
      destruct (Forall2_lookup_l _ _ _ i i Hm) as (y & Hy & Hg);
        [by apply lookup_seq_lt|].
      rewrite Hy. rewrite (getBlocksInPartition_Ok _ _ _ Hi) in Hg. by injection Hg as <-.
    + apply lookup_ge_None. apply lookup_ge_None in Hi.
      apply Forall2_length in Hm. rewrite length_seq in Hm. lia.
  - unfold getNumPartitions. rewrite (wf_unpartitioned _ Hwf Hs).
    destruct Hload as [-> | ->]; unfold stored_block_ids, broadcast_block_ids; rewrite Hs;
      intros [= <-]; cbn; by rewrite app_nil_r.
Qed.

Lemma new_block_operator_fresh load b c r st op :
  load = stored_block_ids ∨ load = broadcast_block_ids →
  new_block_operator load b c r st = Ok op →
  done_feeding_input_relation_ b = false →
  (∀ f, c = SaveBlocksClass f → st = false) →
  (∀ d p g, c = UpdateClass d p g → st = true) →
  fresh_operator op ∧ bo_relation op = rel_id r ∧ bo_base op = b ∧ bo_is_stored op = st ∧
  (relation_wf r → blocks_agree r → num_partitions_ b = getNumPartitions r →
   mjoin (bo_block_ids op) ≡ₚ (if st then blocks_ r else [])).
Proof.
  intros Hload Hop Hd Hsb Hup. unfold new_block_operator in Hop. inv_ok. rename x into ids.
  assert (length ids = num_partitions_ b) as Hl.
  { destruct st; [by eapply stored_block_ids_spec|]. inv_ok. by rewrite length_replicate. }
  split; [split; cbn; try done; split; cbn|split_and!; try done].
  - unfold class_fits. cbn. destruct c; eauto.
  - done.
  - rewrite <- Hl. apply counters_ok_zero.
  - cbn. intros Hwf Hag Hn. destruct st.
    + rewrite Hn in *. by eapply stored_block_ids_blocks.
    + inv_ok. clear. induction (num_partitions_ b); cbn; done.
Qed.

Lemma constructed_fresh r op :
  constructed r op →
  fresh_operator op ∧ bo_relation op = rel_id r ∧
  (relation_wf r → blocks_agree r → num_partitions_ (bo_base op) = getNumPartitions r →
   mjoin (bo_block_ids op) ≡ₚ (if bo_is_stored op then blocks_ r else [])).
Proof.
  intros Hc.
  assert (∃ load b c st, (load = stored_block_ids ∨ load = broadcast_block_ids) ∧
    new_block_operator load b c r st = Ok op ∧ done_feeding_input_relation_ b = false ∧
    (∀ f, c = SaveBlocksClass f → st = false) ∧
    (∀ d p g, c = UpdateClass d p g → st = true)) as (load & b & c & st & Hl & H & Hd & H1 & H2).
  { destruct Hc; match goal with H : _ = Ok op |- _ =>
      do 4 eexists; (split; [|split; [exact H|]]); split_and?; by auto end. }
  destruct (new_block_operator_fresh load b c r st op Hl H Hd H1 H2) as (? & ? & Hb & Hst & Hj).
  rewrite Hb, Hst. done.
Qed.
End constructed.

(** ** Properties *)

(** C28. Every operator that reads a relation block by block issues each work
    order exactly once: for an operator fresh from any of its constructors and
    any interleaving of blocks fed to it, ends of relations and calls of
    [getAllWorkOrders], no call fails, and after one more call the work orders
    it has issued are, up to order, one per partition and block of the table
    that consists of the blocks the relation had when the operator was
    constructed (for a stored relation all the blocks of the relation) followed
    by the blocks fed since (to every partition for a broadcast); it reports
    that it is done exactly when the relation is stored or its end was
    signalled. *)
Theorem block_operator_exactly_once `{!HashOrder nat} r op calls :
  constructed r op → Forall (block_call_ok op) calls →
  ∃ ws op1 ws' op2,
    run_block calls op = Ok (ws, op1) ∧
    block_getAllWorkOrders op1 =
      Ok (ws', bo_is_stored op || input_ended op calls, op2) ∧
    ws ++ ws' ≡ₚ table_work (block_work op)
      (fed_table (is_broadcast op) (bo_block_ids op) calls) ∧
    (relation_wf r → blocks_agree r →
     num_partitions_ (bo_base op) = getNumPartitions r →
     mjoin (bo_block_ids op) ≡ₚ (if bo_is_stored op then blocks_ r else [])).
Proof.
  intros Hc Hcalls. destruct (constructed_fresh r op Hc) as (Hf & _ & Hblocks).
  destruct (run_block_state op calls Hf Hcalls) as (ws & op1 & Hrun & H1).
  destruct (generate_keeps_run op calls ws op1 H1) as (ws' & op2 & Hg & _ & Hp).
  exists ws, op1, ws', op2. split_and!; try done. rewrite Hg. do 3 f_equal.
  rewrite (same_stored _ _ (run_same _ _ _ _ H1)).
  destruct (bo_is_stored op) eqn:Hs; [done|]. cbn. by apply H1.
Qed.

(** ** A concrete operator *)

#[local] Instance sample_block_order : HashOrder nat := identity_order nat.

(** A probe relation with two partitions, streamed. *)
Definition sample_probe : CatalogRelation :=
  setPartitionScheme (Some (new_PartitionScheme 2)) (new_CatalogRelation 4).
Definition sample_join : outcome BlockOperator :=
  new_HashJoinOperator 1 (new_CatalogRelation 3) sample_probe false [0%Z] false 2 false
    sample_probe 6 0 (-1) 2 [] kInnerJoin.
Definition sample_calls : list call :=
  [Feed 10 4 0; Generate; Feed 11 4 1; EndOfRelation 3; Feed 12 4 0; Generate;
   Feed 13 4 1; EndOfRelation 4].

Lemma block_operator_exactly_once_witness :
  ∃ op ws op1 ws' op2, sample_join = Ok op ∧
    run_block sample_calls op = Ok (ws, op1) ∧
    block_getAllWorkOrders op1 = Ok (ws', true, op2) ∧
    ws ++ ws' ≡ₚ [block_work op 0 10; block_work op 0 12;
                  block_work op 1 11; block_work op 1 13].
Proof.
  destruct sample_join as [op|] eqn:Hop; [|discriminate].
  destruct (block_operator_exactly_once sample_probe op sample_calls)
    as (ws & op1 & ws' & op2 & H1 & H2 & H3 & _).
  - eapply made_hash_join. exact Hop.
  - injection Hop as <-. unfold sample_calls.
    repeat (constructor; cbn); unfold block_ends; auto; repeat split; cbn; lia.
  - exists op, ws, op1, ws', op2. injection Hop as <-. auto.
Defined.
