(* ===== verification/NestedLoopsJoin.v ===== *)
(** * Nested loops join

    Models relational_operators/NestedLoopsJoinOperator.{hpp,cpp} (the
    operator; the work order's execution is not modelled).  The left relation
    is partitioned, the right one is not; either can be stored or streamed.
    Two counters per partition say how many left and right blocks have been
    paired.  The invariant is that the pairs issued for a partition are the
    product of the blocks counted, so each pair of blocks is joined once. *)

From S2P Require Import Prelude CatalogBlocks OperatorWork BlockOperators OperatorRuns.
From stdpp Require Import options.

Record NestedLoopsJoinOperator := {
  nl_base : OperatorBase;
  left_input_relation_ : Z;
  right_input_relation_ : Z;
  nl_output_relation_ : Z;
  nl_output_destination_index_ : Z;
  join_predicate_index_ : Z;
  nl_selection_index_ : Z;
  left_relation_is_stored_ : bool;
  right_relation_is_stored_ : bool;
  left_relation_block_ids_ : list (list nat);
  right_relation_block_ids_ : list nat;
  num_left_workorders_generated_ : list nat;
  num_right_workorders_generated_ : list nat;
  done_feeding_left_relation_ : bool;
  done_feeding_right_relation_ : bool;
  all_workorders_generated_ : bool;
}.

Definition new_NestedLoopsJoinOperator `{!HashOrder nat} (query_id : nat)
    (left right : CatalogRelation) (num_partitions : nat) (has_repartition : bool)
    (output : CatalogRelation) (destination predicate selection : Z)
    (left_is_stored right_is_stored : bool) : outcome NestedLoopsJoinOperator :=
  ids ← (if left_is_stored then stored_block_ids num_partitions left
         else Ok (replicate num_partitions []));
  mret {| nl_base := new_OperatorBase query_id num_partitions has_repartition
            (getNumPartitions output);
          left_input_relation_ := rel_id left; right_input_relation_ := rel_id right;
          nl_output_relation_ := rel_id output;
          nl_output_destination_index_ := destination;
          join_predicate_index_ := predicate; nl_selection_index_ := selection;
          left_relation_is_stored_ := left_is_stored;
          right_relation_is_stored_ := right_is_stored;
          left_relation_block_ids_ := ids;
          right_relation_block_ids_ :=
            if right_is_stored then getBlocksSnapshot right else [];
          num_left_workorders_generated_ := replicate num_partitions 0;
          num_right_workorders_generated_ := replicate num_partitions 0;
          done_feeding_left_relation_ := false; done_feeding_right_relation_ := false;
          all_workorders_generated_ := false |}.

(** An assignment to the members that change. *)
Definition nl_update (op : NestedLoopsJoinOperator) (lids : list (list nat))
    (rids gl gr : list nat) (dl dr all : bool) : NestedLoopsJoinOperator :=
  {| nl_base := nl_base op; left_input_relation_ := left_input_relation_ op;
     right_input_relation_ := right_input_relation_ op;
     nl_output_relation_ := nl_output_relation_ op;
     nl_output_destination_index_ := nl_output_destination_index_ op;
     join_predicate_index_ := join_predicate_index_ op;
     nl_selection_index_ := nl_selection_index_ op;
     left_relation_is_stored_ := left_relation_is_stored_ op;
     right_relation_is_stored_ := right_relation_is_stored_ op;
     left_relation_block_ids_ := lids; right_relation_block_ids_ := rids;
     num_left_workorders_generated_ := gl; num_right_workorders_generated_ := gr;
     done_feeding_left_relation_ := dl; done_feeding_right_relation_ := dr;
     all_workorders_generated_ := all |}.

Definition nl_set_ids lids rids op := nl_update op lids rids
  (num_left_workorders_generated_ op) (num_right_workorders_generated_ op)
  (done_feeding_left_relation_ op) (done_feeding_right_relation_ op)
  (all_workorders_generated_ op).
Definition nl_set_counters gl gr op := nl_update op
  (left_relation_block_ids_ op) (right_relation_block_ids_ op) gl gr
  (done_feeding_left_relation_ op) (done_feeding_right_relation_ op)
  (all_workorders_generated_ op).
Definition nl_set_done dl dr op := nl_update op
  (left_relation_block_ids_ op) (right_relation_block_ids_ op)
  (num_left_workorders_generated_ op) (num_right_workorders_generated_ op) dl dr
  (all_workorders_generated_ op).
Definition nl_set_all op := nl_update op
  (left_relation_block_ids_ op) (right_relation_block_ids_ op)
  (num_left_workorders_generated_ op) (num_right_workorders_generated_ op)
  (done_feeding_left_relation_ op) (done_feeding_right_relation_ op) true.

(** ** Input *)

Definition nl_feedInputBlock (block : nat) (rel : Z) (part_id : nat)
    (op : NestedLoopsJoinOperator) : outcome NestedLoopsJoinOperator :=
  if decide (rel = left_input_relation_ op) then
    ids ← push_block (left_relation_block_ids_ op) part_id block;
    mret (nl_set_ids ids (right_relation_block_ids_ op) op)
  else if decide (rel = right_input_relation_ op) then
    Ok (nl_set_ids (left_relation_block_ids_ op)
          (right_relation_block_ids_ op ++ [block]) op)
  else Err CheckFailed.

Definition nl_doneFeedingInputBlocks (rel : Z) (op : NestedLoopsJoinOperator)
  : outcome NestedLoopsJoinOperator :=
  if decide (rel = left_input_relation_ op) then
    Ok (nl_set_done true (done_feeding_right_relation_ op) op)
  else if decide (rel = right_input_relation_ op) then
    Ok (nl_set_done (done_feeding_left_relation_ op) true op)
  else Err CheckFailed.

(** ** Generating work orders *)

(** [for (l : ls) for (r : rs) add(mk(lefts[l], rights[r]));] *)
Fixpoint pair_loop {A} (mk : nat → nat → A) (lefts rights : list nat)
    (ls rs : list nat) : outcome (list A) :=
  match ls with
  | [] => Ok []
  | l :: ls' =>
      row ← mapM (λ r, lb ← vec_at lefts l; rb ← vec_at rights r; mret (mk lb rb)) rs;
      rest ← pair_loop mk lefts rights ls' rs;
      mret (row ++ rest)
  end.

Section generation.
Context (op : NestedLoopsJoinOperator).
Abbreviation rights := (right_relation_block_ids_ op).

Definition new_NestedLoopsJoinWorkOrder (part_id left_block right_block : nat) :=
  work_order (nl_base op) part_id
    (NestedLoopsJoinWork (left_input_relation_ op) (right_input_relation_ op)
       left_block right_block (join_predicate_index_ op) (nl_selection_index_ op)
       (nl_output_destination_index_ op)).

Abbreviation mk := new_NestedLoopsJoinWorkOrder.

(** The number of work orders is returned with them: they are held in memory,
    so their number is below [2 ^ 64]. *)
Definition getAllWorkOrdersHelperBothNotStored (part_id : nat) (lefts : list nat)
    (left_min left_max right_min right_max : nat)
  : outcome (list OperatorWorkOrder * nat) :=
  ws ← pair_loop (mk part_id) lefts rights (seq left_min (left_max - left_min))
         (seq right_min (right_max - right_min));
  mret (ws, (left_max - left_min) * (right_max - right_min)).

(** One partition, both relations streamed: the new work orders and the two
    counters. *)
Definition both_not_stored_step (part_id : nat) (lefts : list nat) (gl gr : nat)
  : outcome (list OperatorWorkOrder * nat * nat) :=
  let new_left_blocks := length lefts - gl in
  let new_right_blocks := length rights - gr in
  x ← (if bool_decide (0 < new_left_blocks) && bool_decide (0 < new_right_blocks) then
         a ← getAllWorkOrdersHelperBothNotStored part_id lefts
               0 (length lefts) gr (length rights);
         b ← getAllWorkOrdersHelperBothNotStored part_id lefts
               gl (length lefts) 0 gr;
         mret (a.1 ++ b.1, a.2 + b.2)
       else if bool_decide (new_left_blocks = 0) && bool_decide (0 < new_right_blocks) then
         getAllWorkOrdersHelperBothNotStored part_id lefts
           0 (length lefts) gr (length rights)
       else if bool_decide (0 < new_left_blocks) && bool_decide (new_right_blocks = 0) then
         getAllWorkOrdersHelperBothNotStored part_id lefts
           gl (length lefts) 0 (length rights)
       else Ok ([], 0));
  if decide (0 < x.2) then Ok (x.1, length lefts, length rights) else Ok (x.1, gl, gr).

(** One partition, the left relation stored: the right blocks are the outer
    loop. *)
Definition left_stored_step (part_id : nat) (lefts : list nat) (gl gr : nat)
  : outcome (list OperatorWorkOrder * nat * nat) :=
  ws ← pair_loop (λ r l, mk part_id l r) rights lefts
         (seq gr (length rights - gr)) (seq 0 (length lefts));
  mret (ws, gl, length rights).

(** One partition, the right relation stored. *)
Definition right_stored_step (part_id : nat) (lefts : list nat) (gl gr : nat)
  : outcome (list OperatorWorkOrder * nat * nat) :=
  ws ← pair_loop (mk part_id) lefts rights
         (seq gl (length lefts - gl)) (seq 0 (length rights));
  mret (ws, length lefts, gr).

(** The loop over the partitions. *)
Fixpoint for_partitions
    (step : nat → list nat → nat → nat → outcome (list OperatorWorkOrder * nat * nat))
    (gl gr : list nat) (parts : list nat)
  : outcome (list OperatorWorkOrder * list nat * list nat) :=
  match parts with
  | [] => Ok ([], gl, gr)
  | p :: parts' =>
      lefts ← vec_at (left_relation_block_ids_ op) p;
      l ← vec_at gl p;
      r ← vec_at gr p;
      x ← step p lefts l r;
      gl' ← vec_set gl p (x.1.2);
      gr' ← vec_set gr p (x.2);
      rest ← for_partitions step gl' gr' parts';
      mret (x.1.1 ++ rest.1.1, rest.1.2, rest.2)
  end.

Abbreviation part_ids := (seq 0 (num_partitions_ (nl_base op))).

Definition run_partitions
    (step : nat → list nat → nat → nat → outcome (list OperatorWorkOrder * nat * nat))
    (done : bool) : outcome (list OperatorWorkOrder * bool * NestedLoopsJoinOperator) :=
  x ← for_partitions step (num_left_workorders_generated_ op)
        (num_right_workorders_generated_ op) part_ids;
  mret (x.1.1, done, nl_set_counters x.1.2 x.2 op).

Definition getAllWorkOrdersHelperOneStored
  : outcome (list OperatorWorkOrder * bool * NestedLoopsJoinOperator) :=
  if left_relation_is_stored_ op
  then run_partitions left_stored_step (done_feeding_right_relation_ op)
  else run_partitions right_stored_step (done_feeding_left_relation_ op).

(** Both relations stored: every pair. *)
Fixpoint all_pairs (parts : list nat) : outcome (list OperatorWorkOrder) :=
  match parts with
  | [] => Ok []
  | p :: parts' =>
      lefts ← vec_at (left_relation_block_ids_ op) p;
      rest ← all_pairs parts';
      mret ((lefts ≫= λ l, mk p l <$> rights) ++ rest)
  end.

Definition nl_getAllWorkOrders
  : outcome (list OperatorWorkOrder * bool * NestedLoopsJoinOperator) :=
  if left_relation_is_stored_ op && right_relation_is_stored_ op then
    if all_workorders_generated_ op then Ok ([], true, op)
    else
      ws ← all_pairs part_ids;
      mret (ws, true, nl_set_all op)
  else if negb (left_relation_is_stored_ op || right_relation_is_stored_ op) then
    run_partitions both_not_stored_step
      (done_feeding_left_relation_ op && done_feeding_right_relation_ op)
  else getAllWorkOrdersHelperOneStored.

End generation.

(** ** Products of blocks *)

Definition pairs {A} (mk : nat → nat → A) (ls rs : list nat) : list A :=
  ls ≫= λ l, mk l <$> rs.

Lemma pairs_app_l {A} (mk : nat → nat → A) l1 l2 rs :
  pairs mk (l1 ++ l2) rs = pairs mk l1 rs ++ pairs mk l2 rs.
Proof. apply bind_app. Qed.

Lemma pairs_nil_r {A} (mk : nat → nat → A) ls : pairs mk ls [] = [].
Proof. by induction ls. Qed.

Lemma pairs_app_r {A} (mk : nat → nat → A) ls r1 r2 :
  pairs mk ls (r1 ++ r2) ≡ₚ pairs mk ls r1 ++ pairs mk ls r2.
Proof.
  unfold pairs. induction ls as [|l ls IH]; cbn; [done|].
  rewrite fmap_app, IH, <- !app_assoc. apply Permutation_app_head.
  apply Permutation_app_swap_app.
Qed.

Lemma pairs_flip {A} (mk : nat → nat → A) ls rs :
  pairs (λ r l, mk l r) rs ls ≡ₚ pairs mk ls rs.
Proof.
  induction ls as [|l ls IH]; cbn; [by rewrite pairs_nil_r|].
  change (l :: ls) with ([l] ++ ls). rewrite pairs_app_r, IH.
  apply Permutation_app_tail. clear. unfold pairs.
  induction rs as [|r rs IH]; cbn; [done|by f_equiv].
Qed.

Lemma length_pairs {A} (mk : nat → nat → A) ls rs :
  length (pairs mk ls rs) = length ls * length rs.
Proof.
  unfold pairs. induction ls as [|l ls IH]; cbn; [done|].
  by rewrite length_app, length_fmap, IH.
Qed.

Lemma mapM_vec_at {A} (f : nat → A) rights n k :
  k + n ≤ length rights →
  mapM (λ r, rb ← vec_at rights r; mret (f rb)) (seq k n) =
    Ok (f <$> take n (drop k rights)).
Proof.
  revert k. induction n as [|n IH]; intros k Hk; cbn; [done|].
  destruct (lookup_lt_is_Some_2 rights k) as [b Hb]; [lia|].
  rewrite (vec_at_Some _ _ _ Hb). cbn. rewrite IH by lia. cbn.
  by rewrite (drop_S _ _ _ Hb).
Qed.

Lemma pair_loop_spec {A} (mk : nat → nat → A) lefts rights a n c k :
  a + n ≤ length lefts → c + k ≤ length rights →
  pair_loop mk lefts rights (seq a n) (seq c k) =
    Ok (pairs mk (take n (drop a lefts)) (take k (drop c rights))).
Proof.
  intros Ha Hc. revert a Ha. induction n as [|n IH]; intros a Ha; cbn; [done|].
  destruct (lookup_lt_is_Some_2 lefts a) as [b Hb]; [lia|].
  rewrite (vec_at_Some _ _ _ Hb). cbn. rewrite (mapM_vec_at (mk b)) by done. cbn.
  rewrite IH by lia. cbn. by rewrite (drop_S _ _ _ Hb).
Qed.

Lemma pair_loop_tail {A} (mk : nat → nat → A) lefts rights a c :
  a ≤ length lefts → c ≤ length rights →
  pair_loop mk lefts rights (seq a (length lefts - a)) (seq c (length rights - c)) =
    Ok (pairs mk (drop a lefts) (drop c rights)).
Proof.
  intros Ha Hc. rewrite pair_loop_spec by lia.
  by rewrite !(take_ge (drop _ _)) by (rewrite length_drop; lia).
Qed.

Arguments pairs : simpl never.

(** The product of the blocks seen, grown by both sides. *)
Lemma pairs_grow {A} (mk : nat → nat → A) ls rs gl gr :
  pairs mk (take gl ls) (take gr rs) ++
    (pairs mk ls (drop gr rs) ++ pairs mk (drop gl ls) (take gr rs)) ≡ₚ pairs mk ls rs.
Proof.
  assert (pairs mk ls rs ≡ₚ pairs mk ls (take gr rs) ++ pairs mk ls (drop gr rs)) as ->
    by (by rewrite <- pairs_app_r, take_drop).
  assert (pairs mk ls (take gr rs) =
    pairs mk (take gl ls) (take gr rs) ++ pairs mk (drop gl ls) (take gr rs)) as ->
    by (by rewrite <- pairs_app_l, take_drop).
  rewrite <- app_assoc. apply Permutation_app_head, Permutation_app_comm.
Qed.
