(* ===== verification/NestedLoopsJoinTheorems.v ===== *)
(** * Nested loops join pairs every two blocks once

    The invariant of NestedLoopsJoin.v over a sequence of calls: the work
    orders issued for a partition are the product of the left and right blocks
    its counters stand for. *)

From S2P Require Import Prelude CatalogBlocks OperatorWork BlockOperators OperatorRuns.
From S2P Require Import BlockOperatorTheorems NestedLoopsJoin.
From stdpp Require Import options.

Abbreviation NLJ := NestedLoopsJoinOperator.
Abbreviation run_nested_loops :=
  (run_calls nl_feedInputBlock nl_doneFeedingInputBlocks nl_getAllWorkOrders).

(** One work order per partition, left block of the partition and right
    block. *)
Definition join_work (mk : nat → nat → nat → OperatorWorkOrder)
    (lefts : list (list nat)) (rights : list nat) : list OperatorWorkOrder :=
  mjoin (imap (λ p ls, pairs (mk p) ls rights) lefts).

(** The same, and the part of it given by counters, from partition [k] on. *)
Fixpoint products (mk : nat → nat → nat → OperatorWorkOrder) (k : nat)
    (lefts : list (list nat)) (rights : list nat) : list OperatorWorkOrder :=
  match lefts with
  | [] => []
  | ls :: lefts' => pairs (mk k) ls rights ++ products mk (S k) lefts' rights
  end.

Fixpoint rows (f : nat → list nat → nat → nat → list OperatorWorkOrder) (k : nat)
    (lefts : list (list nat)) (gl gr : list nat) : list OperatorWorkOrder :=
  match lefts, gl, gr with
  | ls :: lefts', a :: gl', b :: gr' => f k ls a b ++ rows f (S k) lefts' gl' gr'
  | _, _, _ => []
  end.

Lemma products_join_work mk lefts rights : products mk 0 lefts rights = join_work mk lefts rights.
Proof.
  assert (∀ k, products mk k lefts rights
    = mjoin (imap (λ p ls, pairs (mk (k + p)) ls rights) lefts)) as H; [|apply H].
  induction lefts as [|ls lefts IH]; intros k; cbn; [done|].
  rewrite IH, Nat.add_0_r. do 2 f_equal. apply imap_ext. intros p x _. cbn. do 2 f_equal. lia.
Qed.

Lemma insert_middle {A} (l1 : list A) x y l2 k :
  length l1 = k → <[k := y]> (l1 ++ x :: l2) = l1 ++ y :: l2.
Proof. intros <-. rewrite insert_app_r_alt by lia. by rewrite Nat.sub_diag. Qed.

(** ** The loop over the partitions *)

Section loop.
Context (op : NLJ) (step : nat → list nat → nat → nat → outcome (list OperatorWorkOrder * nat * nat)).
Context (ok : list nat → nat → nat → Prop).
Context (f : nat → list nat → nat → nat → list OperatorWorkOrder).
Context (Hstep : ∀ p ls a b, ok ls a b → ∃ ws a' b',
  step p ls a b = Ok (ws, a', b') ∧ ok ls a' b' ∧
  f p ls a b ++ ws ≡ₚ f p ls a' b' ∧
  f p ls a' b' ≡ₚ pairs (new_NestedLoopsJoinWorkOrder op p) ls (right_relation_block_ids_ op)).
#[local] Set Default Proof Using "Type*".
Abbreviation mk := (new_NestedLoopsJoinWorkOrder op).
Abbreviation rights := (right_relation_block_ids_ op).

Lemma for_partitions_spec gl gr :
  Forall3 ok (left_relation_block_ids_ op) gl gr → ∃ ws gl' gr',
    for_partitions op step gl gr (seq 0 (length (left_relation_block_ids_ op)))
      = Ok (ws, gl', gr') ∧
    Forall3 ok (left_relation_block_ids_ op) gl' gr' ∧
    rows f 0 (left_relation_block_ids_ op) gl gr ++ ws
      ≡ₚ rows f 0 (left_relation_block_ids_ op) gl' gr' ∧
    rows f 0 (left_relation_block_ids_ op) gl' gr'
      ≡ₚ products mk 0 (left_relation_block_ids_ op) rights.
Proof.
  intros H.
  assert (∀ pre pa pb lefts gl gr, Forall3 ok lefts gl gr →
    left_relation_block_ids_ op = pre ++ lefts →
    length pa = length pre → length pb = length pre → ∃ ws gl' gr',
    for_partitions op step (pa ++ gl) (pb ++ gr) (seq (length pre) (length lefts))
      = Ok (ws, pa ++ gl', pb ++ gr') ∧ Forall3 ok lefts gl' gr' ∧
    rows f (length pre) lefts gl gr ++ ws ≡ₚ rows f (length pre) lefts gl' gr' ∧
    rows f (length pre) lefts gl' gr' ≡ₚ products mk (length pre) lefts rights) as Hgen;
    [|by apply (Hgen [] [] [])].
  clear gl gr H. intros pre pa pb lefts gl gr H. revert pre pa pb.
  induction H as [|ls a b lefts gl gr Hok H IH]; intros pre pa pb Hids Ha Hb;
    cbn [length seq for_partitions].
  { exists [], [], []. rewrite !app_nil_r. split_and!; [done|constructor|done..]. }
  destruct (Hstep (length pre) ls a b Hok) as (ws & a' & b' & Hs & Hok' & Hp & Hall).
  rewrite (vec_at_Some (left_relation_block_ids_ op) (length pre) ls)
    by (rewrite Hids; by apply list_lookup_middle).
  rewrite (vec_at_Some (pa ++ a :: gl) (length pre) a) by (by apply list_lookup_middle).
  rewrite (vec_at_Some (pb ++ b :: gr) (length pre) b) by (by apply list_lookup_middle).
  cbn. rewrite Hs. cbn.
  rewrite !vec_set_lt by (rewrite length_app; cbn; lia). cbn -[insert].
  rewrite !(insert_middle _ _ _ _ _ Ha), !(insert_middle _ _ _ _ _ Hb).
  destruct (IH (pre ++ [ls]) (pa ++ [a']) (pb ++ [b'])) as (ws2 & gl' & gr' & Hf & Hok2 & Hp2 & Hall2).
  { by rewrite Hids, <- app_assoc. }
  { rewrite !length_app. cbn. lia. }
  { rewrite !length_app. cbn. lia. }
  rewrite !length_app, <- !app_assoc in Hf. cbn in Hf. rewrite Nat.add_1_r in Hf. rewrite Hf. cbn.
  rewrite length_app in Hp2, Hall2. cbn in Hp2, Hall2. rewrite Nat.add_1_r in Hp2, Hall2.
  exists (ws ++ ws2), (a' :: gl'), (b' :: gr'). split_and!; [done|by constructor| |].
  - cbn. rewrite <- Hp, <- Hp2, <- !app_assoc. apply Permutation_app_head.
    rewrite Permutation_app_swap_app. done.
  - cbn. by rewrite Hall, Hall2.
Qed.
End loop.

(** ** One partition *)

Section steps.
Context (op : NLJ).
Abbreviation mk := (new_NestedLoopsJoinWorkOrder op).
Abbreviation rights := (right_relation_block_ids_ op).

(** The blocks of a partition that its counters stand for. *)
Definition seen_left (ls : list nat) (a : nat) : list nat :=
  if left_relation_is_stored_ op then ls else take a ls.
Definition seen_right (b : nat) : list nat :=
  if right_relation_is_stored_ op then rights else take b rights.
Definition part_issued (p : nat) (ls : list nat) (a b : nat) : list OperatorWorkOrder :=
  pairs (mk p) (seen_left ls a) (seen_right b).
Definition part_ok (ls : list nat) (a b : nat) : Prop := a ≤ length ls ∧ b ≤ length rights.

Lemma both_not_stored_step_spec p ls a b :
  left_relation_is_stored_ op = false → right_relation_is_stored_ op = false →
  part_ok ls a b → ∃ ws a' b',
    both_not_stored_step op p ls a b = Ok (ws, a', b') ∧ part_ok ls a' b' ∧
    part_issued p ls a b ++ ws ≡ₚ part_issued p ls a' b' ∧
    part_issued p ls a' b' ≡ₚ pairs (mk p) ls rights.
Proof.
  intros Hl Hr [Ha Hb]. unfold part_issued, seen_left, seen_right. rewrite Hl, Hr.
  assert (∃ x, both_not_stored_step op p ls a b =
      (if decide (0 < x.2) then Ok (x.1, length ls, length rights) else Ok (x.1, a, b)) ∧
    x.1 = pairs (mk p) ls (drop b rights) ++ pairs (mk p) (drop a ls) (take b rights) ∧
    x.2 = length x.1) as (x & Hx & Hws & Hn).
  { unfold both_not_stored_step, getAllWorkOrdersHelperBothNotStored.
    assert (∀ g, pair_loop (mk p) ls rights (seq g (length ls - g)) (seq b (length rights - b))
      = Ok (pairs (mk p) (drop g ls) (drop b rights)) ∨ ¬ g ≤ length ls) as H1.
    { intros g. destruct (decide (g ≤ length ls)); [left|by right]. by apply pair_loop_tail. }
    destruct (H1 0) as [H0|]; [|lia].
    assert (pair_loop (mk p) ls rights (seq a (length ls - a)) (seq 0 (b - 0))
      = Ok (pairs (mk p) (drop a ls) (take b rights))) as H2.
    { rewrite pair_loop_spec, Nat.sub_0_r, drop_0 by lia.
      by rewrite (take_ge (drop a ls)) by (rewrite length_drop; lia). }
    destruct (decide (0 < length ls - a)) as [Hla|Hla], (decide (0 < length rights - b)) as [Hrb|Hrb];
      repeat first [rewrite (bool_decide_true (0 < length ls - a)) by done
        |rewrite (bool_decide_false (0 < length ls - a)) by done
        |rewrite (bool_decide_true (0 < length rights - b)) by done
        |rewrite (bool_decide_false (0 < length rights - b)) by done
        |rewrite (bool_decide_true (length ls - a = 0)) by lia
        |rewrite (bool_decide_false (length ls - a = 0)) by lia
        |rewrite (bool_decide_true (length rights - b = 0)) by lia
        |rewrite (bool_decide_false (length rights - b = 0)) by lia]; cbn [andb].
    - rewrite H0, H2. eexists (_, _). split; [reflexivity|]. split; [reflexivity|]. cbn [fst snd].
      rewrite length_app, !length_pairs, !length_drop, length_take, Nat.min_l, !Nat.sub_0_r by lia.
      done.
    - assert (b = length rights) as -> by lia. rewrite H2.
      exists (pairs (mk p) (drop a ls) (take (length rights) rights),
              (length ls - a) * (length rights - 0)).
      split; [reflexivity|]. cbn [fst snd]. rewrite !drop_all, pairs_nil_r. split; [done|].
      rewrite length_pairs, !length_drop, length_take, Nat.min_l, !Nat.sub_0_r by lia. done.
    - assert (a = length ls) as -> by lia. rewrite H0.
      exists (pairs (mk p) (drop 0 ls) (drop b rights), (length ls - 0) * (length rights - b)).
      split; [reflexivity|]. cbn [fst snd]. rewrite !drop_all, app_nil_r. split; [done|].
      rewrite length_pairs, !length_drop, !Nat.sub_0_r. done.
    - assert (b = length rights) as -> by lia. assert (a = length ls) as -> by lia.
      exists ([], 0). split; [reflexivity|]. cbn [fst snd]. by rewrite !drop_all, pairs_nil_r. }
  pose proof (pairs_grow (mk p) ls rights a b) as Hg. rewrite <- Hws in Hg.
  rewrite Hx. case_decide as Hpos.
  - do 3 eexists. split; [done|]. rewrite !(take_ge _ (length _)) by done.
    split_and!; [split; lia|done|done].
  - do 3 eexists. split; [done|]. assert (x.1 = []) as E by (apply length_zero_iff_nil; lia).
    rewrite E in *. rewrite app_nil_r in *. split_and!; [by split|done|done].
Qed.

Lemma left_stored_step_spec p ls a b :
  left_relation_is_stored_ op = true → right_relation_is_stored_ op = false →
  part_ok ls a b → ∃ ws a' b',
    left_stored_step op p ls a b = Ok (ws, a', b') ∧ part_ok ls a' b' ∧
    part_issued p ls a b ++ ws ≡ₚ part_issued p ls a' b' ∧
    part_issued p ls a' b' ≡ₚ pairs (mk p) ls rights.
Proof.
  intros Hl Hr [Ha Hb]. unfold part_issued, seen_left, seen_right. rewrite Hl, Hr.
  unfold left_stored_step.
  pose proof (pair_loop_tail (λ r l, mk p l r) rights ls b 0 Hb ltac:(lia)) as Ht.
  rewrite Nat.sub_0_r in Ht. rewrite Ht. cbn.
  do 3 eexists. split; [done|]. rewrite (take_ge _ (length _)) by done.
  split_and!; [split; lia| |done].
  rewrite drop_0, (pairs_flip (mk p)), <- pairs_app_r. by rewrite take_drop.
Qed.

Lemma right_stored_step_spec p ls a b :
  left_relation_is_stored_ op = false → right_relation_is_stored_ op = true →
  part_ok ls a b → ∃ ws a' b',
    right_stored_step op p ls a b = Ok (ws, a', b') ∧ part_ok ls a' b' ∧
    part_issued p ls a b ++ ws ≡ₚ part_issued p ls a' b' ∧
    part_issued p ls a' b' ≡ₚ pairs (mk p) ls rights.
Proof.
  intros Hl Hr [Ha Hb]. unfold part_issued, seen_left, seen_right. rewrite Hl, Hr.
  unfold right_stored_step.
  pose proof (pair_loop_tail (mk p) ls rights a 0 Ha ltac:(lia)) as Ht.
  rewrite Nat.sub_0_r in Ht. rewrite Ht. cbn.
  do 3 eexists. split; [done|]. rewrite (take_ge _ (length _)) by done.
  split_and!; [split; lia| |done].
  by rewrite drop_0, <- pairs_app_l, take_drop.
Qed.
End steps.

(** ** The operator *)

Definition nl_issued (op : NLJ) : list OperatorWorkOrder :=
  if left_relation_is_stored_ op && right_relation_is_stored_ op then
    if all_workorders_generated_ op
    then products (new_NestedLoopsJoinWorkOrder op) 0 (left_relation_block_ids_ op)
           (right_relation_block_ids_ op)
    else []
  else rows (part_issued op) 0 (left_relation_block_ids_ op)
         (num_left_workorders_generated_ op) (num_right_workorders_generated_ op).

(** The invariant.  A streamed right relation is not the left relation: the
    operator could not tell its blocks from those of the left one. *)
Record nl_op_ok (op : NLJ) : Prop := {
  nl_ids : length (left_relation_block_ids_ op) = num_partitions_ (nl_base op);
  nl_counters : Forall3 (part_ok op) (left_relation_block_ids_ op)
    (num_left_workorders_generated_ op) (num_right_workorders_generated_ op);
  nl_distinct : right_relation_is_stored_ op = false →
    left_input_relation_ op ≠ right_input_relation_ op;
}.

(** The members that never change. *)
Record nl_same (op0 op : NLJ) : Prop := {
  nl_same_base : nl_base op = nl_base op0;
  nl_same_left : left_input_relation_ op = left_input_relation_ op0;
  nl_same_right : right_input_relation_ op = right_input_relation_ op0;
  nl_same_output : nl_output_relation_ op = nl_output_relation_ op0;
  nl_same_work : new_NestedLoopsJoinWorkOrder op = new_NestedLoopsJoinWorkOrder op0;
  nl_same_dest : nl_output_destination_index_ op = nl_output_destination_index_ op0;
  nl_same_left_stored : left_relation_is_stored_ op = left_relation_is_stored_ op0;
  nl_same_right_stored : right_relation_is_stored_ op = right_relation_is_stored_ op0;
}.

Lemma nl_same_trans op1 op2 op3 : nl_same op1 op2 → nl_same op2 op3 → nl_same op1 op3.
Proof. intros [] []. split; congruence. Qed.
Lemma nl_same_update op lids rids gl gr dl dr all :
  nl_same op (nl_update op lids rids gl gr dl dr all).
Proof. done. Qed.

(** What it can be given. *)
Definition nl_accepts (op : NLJ) (r : Z) (p : nat) : Prop :=
  (r = left_input_relation_ op ∧ left_relation_is_stored_ op = false ∧
     p < num_partitions_ (nl_base op)) ∨
  (r = right_input_relation_ op ∧ right_relation_is_stored_ op = false).
Definition nl_ends (op : NLJ) (r : Z) : Prop :=
  r = left_input_relation_ op ∨ r = right_input_relation_ op.
Definition nl_call_ok (op : NLJ) (c : call) : Prop :=
  match c with
  | Feed _ r p => nl_accepts op r p
  | EndOfRelation r => nl_ends op r
  | Generate => True
  end.

Definition nl_done (op : NLJ) : bool :=
  (left_relation_is_stored_ op || done_feeding_left_relation_ op) &&
  (right_relation_is_stored_ op || done_feeding_right_relation_ op).

Lemma nl_ok_counters op gl gr dl dr all :
  nl_op_ok op → Forall3 (part_ok op) (left_relation_block_ids_ op) gl gr →
  nl_op_ok (nl_update op (left_relation_block_ids_ op) (right_relation_block_ids_ op)
    gl gr dl dr all).
Proof. intros [Hl _ Hd] Hc. split; [exact Hl|exact Hc|exact Hd]. Qed.

Lemma all_pairs_spec (op : NLJ) :
  all_pairs op (seq 0 (length (left_relation_block_ids_ op))) =
    Ok (products (new_NestedLoopsJoinWorkOrder op) 0 (left_relation_block_ids_ op)
          (right_relation_block_ids_ op)).
Proof.
  assert (∀ lefts pre, left_relation_block_ids_ op = pre ++ lefts →
    all_pairs op (seq (length pre) (length lefts)) =
      Ok (products (new_NestedLoopsJoinWorkOrder op) (length pre) lefts
            (right_relation_block_ids_ op))) as H; [|by apply (H _ [])].
  induction lefts as [|ls lefts IH]; intros pre Hids; cbn [length seq all_pairs]; [done|].
  rewrite (vec_at_Some (left_relation_block_ids_ op) (length pre) ls)
    by (rewrite Hids; by apply list_lookup_middle). cbn.
  specialize (IH (pre ++ [ls])). rewrite length_app in IH. cbn in IH. rewrite Nat.add_1_r in IH.
  rewrite IH by (by rewrite Hids, <- app_assoc). done.
Qed.

Lemma nl_run_partitions_spec op step done :
  nl_op_ok op → left_relation_is_stored_ op && right_relation_is_stored_ op = false →
  (∀ p ls a b, part_ok op ls a b → ∃ ws a' b',
    step p ls a b = Ok (ws, a', b') ∧ part_ok op ls a' b' ∧
    part_issued op p ls a b ++ ws ≡ₚ part_issued op p ls a' b' ∧
    part_issued op p ls a' b' ≡ₚ
      pairs (new_NestedLoopsJoinWorkOrder op p) ls (right_relation_block_ids_ op)) →
  ∃ ws gl gr, run_partitions op step done = Ok (ws, done, nl_set_counters gl gr op) ∧
    nl_op_ok (nl_set_counters gl gr op) ∧
    nl_issued op ++ ws ≡ₚ nl_issued (nl_set_counters gl gr op) ∧
    nl_issued (nl_set_counters gl gr op) ≡ₚ
      products (new_NestedLoopsJoinWorkOrder op) 0 (left_relation_block_ids_ op)
        (right_relation_block_ids_ op).
Proof.
  intros [Hl Hc Hd] Hns Hstep.
  destruct (for_partitions_spec op step (part_ok op) (part_issued op) Hstep _ _ Hc)
    as (ws & gl & gr & Hf & Hok & Hp & Hall).
  exists ws, gl, gr. unfold run_partitions. rewrite <- Hl, Hf. cbn.
  split; [done|]. split; [by apply nl_ok_counters|]. unfold nl_issued. cbn. rewrite Hns. done.
Qed.

(** One call of [getAllWorkOrders] issues the pairs that are missing. *)
Lemma nl_generate_spec op :
  nl_op_ok op → ∃ ws gl gr all,
    let op' := nl_update op (left_relation_block_ids_ op) (right_relation_block_ids_ op)
      gl gr (done_feeding_left_relation_ op) (done_feeding_right_relation_ op) all in
    nl_getAllWorkOrders op = Ok (ws, nl_done op, op') ∧ nl_op_ok op' ∧
    nl_issued op ++ ws ≡ₚ nl_issued op' ∧
    nl_issued op' ≡ₚ join_work (new_NestedLoopsJoinWorkOrder op)
      (left_relation_block_ids_ op) (right_relation_block_ids_ op).
Proof.
  intros Hok. pose proof Hok as [Hl Hc Hd]. rewrite <- products_join_work.
  unfold nl_getAllWorkOrders, nl_done, getAllWorkOrdersHelperOneStored.
  destruct (left_relation_is_stored_ op) eqn:Hls, (right_relation_is_stored_ op) eqn:Hrs;
    cbn [andb orb negb].
  - unfold nl_issued at 1. rewrite Hls, Hrs. cbn [andb].
    rewrite <- Hl, all_pairs_spec. destruct (all_workorders_generated_ op) eqn:Ha.
    + exists [], (num_left_workorders_generated_ op), (num_right_workorders_generated_ op), true.
      cbn. rewrite app_nil_r. unfold nl_issued. cbn. rewrite Hls, Hrs. cbn.
      split_and!; [|by apply nl_ok_counters|done|done]. f_equal. f_equal. destruct op; cbn in *. by subst.
    + do 4 eexists. cbn. split; [done|]. unfold nl_issued. cbn. rewrite Hls, Hrs. cbn.
      split_and!; [by apply nl_ok_counters|done|done].
  - destruct (nl_run_partitions_spec op (left_stored_step op) (done_feeding_right_relation_ op) Hok)
      as (ws & gl & gr & H); [by rewrite Hls, Hrs|intros; by apply left_stored_step_spec|].
    exists ws, gl, gr, (all_workorders_generated_ op). exact H.
  - destruct (nl_run_partitions_spec op (right_stored_step op) (done_feeding_left_relation_ op) Hok)
      as (ws & gl & gr & H); [by rewrite Hls, Hrs|intros; by apply right_stored_step_spec|].
    rewrite andb_true_r. exists ws, gl, gr, (all_workorders_generated_ op). exact H.
  - destruct (nl_run_partitions_spec op (both_not_stored_step op)
      (done_feeding_left_relation_ op && done_feeding_right_relation_ op) Hok)
      as (ws & gl & gr & H); [by rewrite Hls, Hrs|intros; by apply both_not_stored_step_spec|].
    exists ws, gl, gr, (all_workorders_generated_ op). exact H.
Qed.

(** ** Input *)

Lemma rows_alter f k lefts gl gr g p :
  Forall3 (λ ls a b, ∀ k, f k (g ls) a b = f k ls a b) lefts gl gr →
  rows f k (alter g p lefts) gl gr = rows f k lefts gl gr.
Proof.
  intros H. revert k p. induction H as [|ls a b lefts gl gr Hf _ IH]; intros k [|p]; cbn; try done.
  - by rewrite Hf.
  - f_equal. apply IH.
Qed.

Lemma rows_ext f f' k lefts gl gr :
  Forall3 (λ ls a b, ∀ k, f k ls a b = f' k ls a b) lefts gl gr →
  rows f k lefts gl gr = rows f' k lefts gl gr.
Proof.
  intros H. revert k. induction H as [|ls a b lefts gl gr Hf _ IH]; intros k; cbn; [done|].
  by rewrite Hf, IH.
Qed.

Lemma Forall3_alter {A B C} (P : A → B → C → Prop) g l k q i :
  (∀ x y z, P x y z → P (g x) y z) → Forall3 P l k q → Forall3 P (alter g i l) k q.
Proof.
  intros Hg H. revert i. induction H as [|x y z l k q Hx H IH]; intros [|i]; cbn;
    constructor; auto; apply IH.
Qed.

(** Feeding a left block. *)
Lemma nl_feed_left op b p :
  nl_op_ok op → left_relation_is_stored_ op = false → p < num_partitions_ (nl_base op) →
  let op' := nl_set_ids (alter (.++ [b]) p (left_relation_block_ids_ op))
    (right_relation_block_ids_ op) op in
  nl_feedInputBlock b (left_input_relation_ op) p op = Ok op' ∧
  nl_op_ok op' ∧ nl_issued op' = nl_issued op.
Proof.
  intros [Hl Hc Hd] Hs Hp op'. unfold nl_feedInputBlock. rewrite decide_True by done.
  rewrite push_block_spec by lia. split; [done|]. split; [split; cbn|].
  - by rewrite length_alter.
  - apply Forall3_alter; [|exact Hc]. intros ls x y [Hx Hy]. split; [|exact Hy].
    rewrite length_app. lia.
  - exact Hd.
  - unfold nl_issued. cbn. rewrite Hs. cbn.
    change (part_issued op') with (part_issued op). apply rows_alter.
    eapply Forall3_impl; [exact Hc|]. intros ls x y [Hx _] k. unfold part_issued, seen_left.
    by rewrite Hs, take_app_le.
Qed.

(** Feeding a right block. *)
Lemma nl_feed_right op b p :
  nl_op_ok op → right_relation_is_stored_ op = false →
  let op' := nl_set_ids (left_relation_block_ids_ op)
    (right_relation_block_ids_ op ++ [b]) op in
  nl_feedInputBlock b (right_input_relation_ op) p op = Ok op' ∧
  nl_op_ok op' ∧ nl_issued op' = nl_issued op.
Proof.
  intros [Hl Hc Hd] Hs op'. unfold nl_feedInputBlock.
  rewrite decide_False by (intros E; by apply (Hd Hs)). rewrite decide_True by done.
  split; [done|]. split; [split; cbn|].
  - exact Hl.
  - eapply Forall3_impl; [exact Hc|]. intros ls x y [Hx Hy]. split; [exact Hx|].
    cbn. rewrite length_app. lia.
  - exact Hd.
  - unfold nl_issued. cbn. rewrite Hs, andb_false_r. apply rows_ext.
    eapply Forall3_impl; [exact Hc|]. intros ls x y [_ Hy] k. unfold part_issued, seen_right.
    cbn. by rewrite Hs, take_app_le.
Qed.

(** ** Runs *)

Record nl_state (op0 : NLJ) (h : list call) (ws : list OperatorWorkOrder) (op : NLJ) : Prop := {
  nls_ok : nl_op_ok op;
  nls_same : nl_same op0 op;
  nls_left : left_relation_block_ids_ op =
    fed_table false (left_relation_block_ids_ op0) (feeds_of (left_input_relation_ op0) h);
  nls_right : right_relation_block_ids_ op = right_relation_block_ids_ op0 ++
    (if right_relation_is_stored_ op0 then []
     else blocks_fed (right_input_relation_ op0) h);
  nls_done_left : done_feeding_left_relation_ op =
    done_feeding_left_relation_ op0 || ended (left_input_relation_ op0) h;
  nls_done_right : left_input_relation_ op0 ≠ right_input_relation_ op0 →
    done_feeding_right_relation_ op =
      done_feeding_right_relation_ op0 || ended (right_input_relation_ op0) h;
  nls_issued : ws ≡ₚ nl_issued op;
}.

Lemma nl_feed_keeps op0 h ws op b r p :
  nl_accepts op0 r p → nl_state op0 h ws op → ∃ op',
    nl_feedInputBlock b r p op = Ok op' ∧ nl_state op0 (h ++ [Feed b r p]) ws op'.
Proof.
  intros Ha [Hok Hsame Hl Hr Hdl Hdr Hws].
  assert (∀ r', ended r' (h ++ [Feed b r p]) = ended r' h) as Hend.
  { intros r'. by rewrite ended_app, bool_decide_false, orb_false_r. }
  destruct Hsame as [Hb HL HR ? ? ? Hls Hrs].
  destruct Ha as [(-> & Hst & Hp)|[-> Hst]].
  - destruct (nl_feed_left op b p Hok) as (Hf & Hok' & Hi); [congruence|by rewrite Hb|].
    rewrite HL in Hf. eexists. split; [exact Hf|]. split; [exact Hok'|by split| | | | |].
    + cbn. rewrite Hl, feeds_of_app. cbn. rewrite bool_decide_true by done.
      apply fed_table_push.
    + cbn. rewrite Hr. destruct (right_relation_is_stored_ op0) eqn:Hrs0; [done|].
      rewrite blocks_fed_app, bool_decide_false, app_nil_r; [done|].
      rewrite <- HL, <- HR. apply Hok. congruence.
    + cbn. by rewrite Hdl, Hend.
    + intros Hne. cbn. by rewrite Hdr, Hend.
    + by rewrite Hi.
  - destruct (nl_feed_right op b p Hok) as (Hf & Hok' & Hi); [congruence|].
    rewrite HR in Hf. eexists. split; [exact Hf|]. split; [exact Hok'|by split| | | | |].
    + cbn. rewrite Hl, feeds_of_app. cbn. rewrite bool_decide_false; [by rewrite app_nil_r|].
      rewrite <- HL, <- HR. intros E. by apply (nl_distinct op Hok); [congruence|].
    + cbn. rewrite Hr, Hst. rewrite blocks_fed_app, bool_decide_true by done.
      by rewrite app_assoc.
    + cbn. by rewrite Hdl, Hend.
    + intros Hne. cbn. rewrite Hdr by done. by rewrite Hend.
    + by rewrite Hi.
Qed.

Lemma nl_done_keeps op0 h ws op r :
  nl_ends op0 r → nl_state op0 h ws op → ∃ op',
    nl_doneFeedingInputBlocks r op = Ok op' ∧ nl_state op0 (h ++ [EndOfRelation r]) ws op'.
Proof.
  intros He [Hok Hsame Hl Hr Hdl Hdr Hws].
  assert (∀ r', feeds_of r' (h ++ [EndOfRelation r]) = feeds_of r' h) as Hfe
    by (intros r'; by rewrite feeds_of_app, app_nil_r).
  assert (∀ r', blocks_fed r' (h ++ [EndOfRelation r]) = blocks_fed r' h) as Hbf
    by (intros r'; by rewrite blocks_fed_app, app_nil_r).
  pose proof (nl_same_left _ _ Hsame) as HL. pose proof (nl_same_right _ _ Hsame) as HR.
  unfold nl_doneFeedingInputBlocks. rewrite HL, HR.
  case_decide as E1; [|case_decide as E2; [|by destruct He]]; eexists; (split; [done|]).
  - split; [by apply nl_ok_counters, nl_counters|by eapply nl_same_trans|..]; cbn;
      rewrite ?Hfe, ?Hbf; try done.
    + by rewrite ended_app, bool_decide_true, !orb_true_r by congruence.
    + intros Hne. by rewrite ended_app, bool_decide_false, orb_false_r, Hdr by congruence.
  - split; [by apply nl_ok_counters, nl_counters|by eapply nl_same_trans|..]; cbn;
      rewrite ?Hfe, ?Hbf; try done.
    + by rewrite ended_app, bool_decide_false, orb_false_r, Hdl by congruence.
    + intros Hne. by rewrite ended_app, bool_decide_true, !orb_true_r by congruence.
Qed.

Lemma nl_generate_keeps op0 h ws op :
  nl_state op0 h ws op → ∃ ws' op',
    nl_getAllWorkOrders op = Ok (ws', nl_done op, op') ∧
    nl_state op0 (h ++ [Generate]) (ws ++ ws') op' ∧
    ws ++ ws' ≡ₚ join_work (new_NestedLoopsJoinWorkOrder op0)
      (left_relation_block_ids_ op) (right_relation_block_ids_ op).
Proof.
  intros [Hok Hsame Hl Hr Hdl Hdr Hws].
  destruct (nl_generate_spec op Hok) as (ws' & gl & gr & all & Hg & Hok' & Hp & Hall).
  exists ws'. eexists. split; [exact Hg|]. split; [split|].
  - exact Hok'.
  - by eapply nl_same_trans.
  - cbn. by rewrite feeds_of_app, app_nil_r.
  - cbn. by rewrite blocks_fed_app, app_nil_r.
  - cbn. by rewrite ended_app, bool_decide_false, orb_false_r.
  - intros Hne. cbn. by rewrite ended_app, bool_decide_false, orb_false_r, Hdr.
  - by rewrite Hws.
  - by rewrite Hws, Hp, Hall, (nl_same_work _ _ Hsame).
Qed.

(** ** Construction *)

Section constructed.
Context `{!HashOrder nat}.

Lemma rows_zero op k lefts n m :
  left_relation_is_stored_ op && right_relation_is_stored_ op = false →
  rows (part_issued op) k lefts (replicate n 0) (replicate m 0) = [].
Proof.
  intros Hs. revert k n m. induction lefts as [|ls lefts IH]; intros k [|n] [|m]; try done.
  cbn. rewrite IH. unfold part_issued, seen_left, seen_right.
  destruct (left_relation_is_stored_ op), (right_relation_is_stored_ op); try done;
    cbn; by rewrite ?pairs_nil_r.
Qed.

Lemma new_nl_ok q left right n rep out d p s ls rs op :
  new_NestedLoopsJoinOperator q left right n rep out d p s ls rs = Ok op →
  (rs = false → rel_id left ≠ rel_id right) →
  nl_op_ok op ∧ nl_issued op = [].
Proof.
  unfold new_NestedLoopsJoinOperator. intros Hop Hne. inv_ok. rename x into ids.
  assert (length ids = n) as Hl.
  { destruct ls; [|inv_ok; by rewrite length_replicate].
    by eapply (stored_block_ids_spec stored_block_ids); [left|]. }
  split; [split; cbn|].
  - done.
  - rewrite <- Hl. clear. induction ids as [|x ids IH]; cbn; constructor; [|exact IH].
    split; lia.
  - done.
  - unfold nl_issued. cbn. destruct (ls && rs) eqn:E; [done|]. by rewrite rows_zero.
Qed.

Lemma new_nl_state q left right n rep out d p s ls rs op :
  new_NestedLoopsJoinOperator q left right n rep out d p s ls rs = Ok op →
  (rs = false → rel_id left ≠ rel_id right) → nl_state op [] [] op.
Proof.
  intros Hop Hne. destruct (new_nl_ok _ _ _ _ _ _ _ _ _ _ _ _ Hop Hne) as [Hok Hi].
  split; [done|done|by rewrite fed_table_nil| | | |by rewrite Hi].
  - unfold blocks_fed, fed. cbn. destruct (right_relation_is_stored_ op); by rewrite app_nil_r.
  - cbn. by rewrite orb_false_r.
  - intros _. cbn. by rewrite orb_false_r.
Qed.
End constructed.

(** ** Properties *)

(** C29. A nested loops join issues one work order for every pair of a left and
    a right block of each partition, in all four combinations of stored and
    streamed inputs: for an operator fresh from its constructor and any
    interleaving of fed blocks, ends of relations and calls of
    [getAllWorkOrders], no call fails, and after one more call the work orders
    issued are, up to order, the product of the left blocks of each partition
    (stored, then fed to it) with the right blocks (stored, or fed to any
    partition); it reports that it is done exactly when each relation is stored
    or has ended.  The relations differ when the right one is streamed. *)
Theorem nested_loops_join_exactly_once `{!HashOrder nat}
    q left right n rep out d p s ls rs op calls :
  new_NestedLoopsJoinOperator q left right n rep out d p s ls rs = Ok op →
  (rs = false → rel_id left ≠ rel_id right) → Forall (nl_call_ok op) calls →
  ∃ ws op1 ws' op2,
    run_nested_loops calls op = Ok (ws, op1) ∧
    nl_getAllWorkOrders op1 =
      Ok (ws', (ls || ended (rel_id left) calls) && (rs || ended (rel_id right) calls), op2) ∧
    ws ++ ws' ≡ₚ join_work (new_NestedLoopsJoinWorkOrder op)
      (fed_table false (left_relation_block_ids_ op) (feeds_of (rel_id left) calls))
      (if rs then blocks_ right else blocks_fed (rel_id right) calls).
Proof.
  intros Hop Hne Hcalls.
  pose proof (new_nl_state q left right n rep out d p s ls rs op Hop Hne) as H0.
  assert (left_input_relation_ op = rel_id left ∧ right_input_relation_ op = rel_id right ∧
    left_relation_is_stored_ op = ls ∧ right_relation_is_stored_ op = rs ∧
    right_relation_block_ids_ op = (if rs then blocks_ right else []) ∧
    done_feeding_left_relation_ op = false ∧ done_feeding_right_relation_ op = false)
    as (HL & HR & Hls & Hrs & Hrids & Hdl0 & Hdr0).
  { unfold new_NestedLoopsJoinOperator in Hop. by inv_ok. }
  destruct (run_calls_inv nl_feedInputBlock nl_doneFeedingInputBlocks nl_getAllWorkOrders
    (nl_state op) (nl_call_ok op)) with (cs := calls) (op := op) as (ws & op1 & Hrun & H1);
    [|by eauto using nl_done_keeps| |done|done|].
  { intros h ws op1 b r p' Ha H1. by apply (nl_feed_keeps op h ws op1). }
  { intros h ws op1 H1. destruct (nl_generate_keeps op h ws op1 H1) as (ws' & op' & ? & ? & _).
    eauto. }
  destruct (nl_generate_keeps op calls ws op1 H1) as (ws' & op2 & Hg & _ & Hp).
  destruct H1 as [_ Hsame Hl Hr Hdl Hdr _].
  exists ws, op1, ws', op2. split; [done|]. split.
  - rewrite Hg. unfold nl_done. rewrite Hdl, (nl_same_left_stored _ _ Hsame),
      (nl_same_right_stored _ _ Hsame), Hls, Hrs, HL, Hdl0.
    destruct rs; [by rewrite !orb_true_l|].
    by rewrite Hdr, HR, Hdr0 by (rewrite HL, HR; auto).
  - rewrite Hp, Hl, Hr, HL, HR, Hrs, Hrids. by destruct rs; rewrite ?app_nil_r.
Qed.

(** ** A concrete join *)

#[local] Instance sample_block_order : HashOrder nat := identity_order nat.

(** Two left partitions and a streamed right relation. *)
Definition sample_nl : outcome NLJ :=
  new_NestedLoopsJoinOperator 1 sample_probe (new_CatalogRelation 3) 2 false sample_probe
    6 0 2 false false.
Definition sample_nl_calls : list call :=
  [Feed 10 4 0; Generate; Feed 20 3 0; Feed 11 4 1; Generate; EndOfRelation 4;
   Feed 21 3 0; EndOfRelation 3].

Lemma nested_loops_join_exactly_once_witness :
  ∃ op ws op1 ws' op2, sample_nl = Ok op ∧
    run_nested_loops sample_nl_calls op = Ok (ws, op1) ∧
    nl_getAllWorkOrders op1 = Ok (ws', true, op2) ∧
    ws ++ ws' ≡ₚ [new_NestedLoopsJoinWorkOrder op 0 10 20;
                  new_NestedLoopsJoinWorkOrder op 0 10 21;
                  new_NestedLoopsJoinWorkOrder op 1 11 20;
                  new_NestedLoopsJoinWorkOrder op 1 11 21].
Proof.
  destruct sample_nl as [op|] eqn:Hop; [|discriminate].
  destruct (nested_loops_join_exactly_once _ _ _ _ _ _ _ _ _ _ _ op sample_nl_calls Hop)
    as (ws & op1 & ws' & op2 & H1 & H2 & H3).
  - done.
  - injection Hop as <-. unfold sample_nl_calls. rewrite !Forall_cons.
    unfold nl_call_ok, nl_accepts, nl_ends. cbn. split_and!; auto with lia.
  - exists op, ws, op1, ws', op2. injection Hop as <-. auto.
Defined.

(** A relation that is both inputs of a join is fed to the left input only,
    and only the left input ends: the right one waits for ever. *)
Lemma self_join_right_starves op rel block part_id op' :
  left_input_relation_ op = rel → right_input_relation_ op = rel →
  nl_feedInputBlock block rel part_id op = Ok op' ∨ nl_doneFeedingInputBlocks rel op = Ok op' →
  right_relation_block_ids_ op' = right_relation_block_ids_ op ∧
  done_feeding_right_relation_ op' = done_feeding_right_relation_ op.
Proof.
  intros Hl _ [H|H]; unfold nl_feedInputBlock, nl_doneFeedingInputBlocks in H;
    rewrite decide_True in H by done; inv_ok; done.
Qed.
