(* ===== verification/StreamOperators.v ===== *)
(** * Operators over unpartitioned lists of blocks

    Models the operators of relational_operators/ that keep a flat vector of
    block ids per input: SortRunGenerationOperator and SampleOperator (one
    input), UnionAllOperator (any number of inputs) and
    BuildTransitiveClosureOperator (two inputs, each a
    utility/BlockIDStream.hpp). *)

From S2P Require Import Prelude CatalogBlocks OperatorWork OperatorRuns.
From stdpp Require Import options.

(** ** One input *)

Inductive FlatClass :=
| SortRunGenerationClass (output destination sort_config : Z)
| SampleClass (output destination : Z) (is_block_sample : bool) (percentage : Z).

Record FlatOperator := {
  fo_base : OperatorBase;
  fo_class : FlatClass;
  fo_relation : Z;
  fo_is_stored : bool;
  fo_started : bool;
  fo_block_ids : list nat;
  fo_generated : nat;
}.

Definition fo_update (op : FlatOperator) (b : OperatorBase) (started : bool)
    (ids : list nat) (gen : nat) : FlatOperator :=
  {| fo_base := b; fo_class := fo_class op; fo_relation := fo_relation op;
     fo_is_stored := fo_is_stored op; fo_started := started;
     fo_block_ids := ids; fo_generated := gen |}.

Definition new_flat_operator (b : OperatorBase) (c : FlatClass)
    (r : CatalogRelation) (is_stored : bool) : FlatOperator :=
  {| fo_base := b; fo_class := c; fo_relation := rel_id r;
     fo_is_stored := is_stored; fo_started := false;
     fo_block_ids := if is_stored then getBlocksSnapshot r else [];
     fo_generated := 0 |}.

Definition new_SortRunGenerationOperator (query_id : nat)
    (input output : CatalogRelation) (destination sort_config : Z)
    (is_stored : bool) : FlatOperator :=
  new_flat_operator (new_OperatorBase query_id 1 false 1)
    (SortRunGenerationClass (rel_id output) destination sort_config) input is_stored.

Definition new_SampleOperator (query_id : nat) (input output : CatalogRelation)
    (destination : Z) (is_stored is_block_sample : bool) (percentage : Z)
  : FlatOperator :=
  new_flat_operator (new_OperatorBase query_id 1 false 0)
    (SampleClass (rel_id output) destination is_block_sample percentage)
    input is_stored.

Section flat.
Context (op : FlatOperator).
Abbreviation b := (fo_base op).
Abbreviation result := (outcome (list OperatorWorkOrder * bool * FlatOperator)).

Definition new_SortRunGenerationWorkOrder (destination sort_config : Z) (block : nat) :=
  work_order b 0 (SortRunGenerationWork (fo_relation op) block sort_config destination).
Definition new_SampleWorkOrder (destination : Z) (is_block_sample : bool)
    (percentage : Z) (block : nat) :=
  work_order b 0 (SampleWork (fo_relation op) block is_block_sample percentage destination).

(** Every block of a stored relation, once. *)
Definition flat_stored (blocks : list nat) (mk : nat → OperatorWorkOrder) : result :=
  if fo_started op then Ok ([], true, op)
  else Ok (mk <$> blocks, true,
           fo_update op b true (fo_block_ids op) (fo_generated op)).

(** The blocks of a streamed relation not seen before. *)
Definition flat_streamed (mk : nat → OperatorWorkOrder) : result :=
  let '(ws, n) :=
    stream_blocks mk (fo_block_ids op) (length (fo_block_ids op)) (fo_generated op) in
  Ok (ws, done_feeding_input_relation_ b,
      fo_update op b (fo_started op) (fo_block_ids op) n).

Definition SortRunGenerationOperator_getAllWorkOrders (destination sort_config : Z)
  : result :=
  let mk := new_SortRunGenerationWorkOrder destination sort_config in
  if fo_is_stored op then flat_stored (fo_block_ids op) mk else flat_streamed mk.

(** [distribution(generator) <= probability], call after call: the outcome of
    the draws is a parameter. *)
Context (draws : nat → bool).

(** The blocks of a stored relation that are drawn. *)
Fixpoint sample_blocks (blocks : list nat) (i : nat) : list nat :=
  match blocks with
  | [] => []
  | x :: blocks' =>
      if draws i then x :: sample_blocks blocks' (S i) else sample_blocks blocks' (S i)
  end.

(** [while (n < size) if (draw) { add(ids[n]); ++n; }]: a draw that fails does
    not move on to the next block. *)
Fixpoint sample_stream (mk : nat → OperatorWorkOrder) (fuel i n : nat)
  : outcome (list OperatorWorkOrder * nat) :=
  match fo_block_ids op !! n with
  | None => Ok ([], n)
  | Some x =>
      match fuel with
      | 0 => Err OutOfFuel
      | S fuel' =>
          if draws i then
            r ← sample_stream mk fuel' (S i) (S n);
            mret (mk x :: r.1, r.2)
          else sample_stream mk fuel' (S i) n
      end
  end.

Definition SampleOperator_getAllWorkOrders (fuel : nat) (destination : Z)
    (is_block_sample : bool) (percentage : Z) : result :=
  let mk := new_SampleWorkOrder destination is_block_sample percentage in
  if fo_is_stored op then
    flat_stored (if is_block_sample then sample_blocks (fo_block_ids op) 0
                 else fo_block_ids op) mk
  else if is_block_sample then
    r ← sample_stream mk fuel 0 (fo_generated op);
    mret (r.1, done_feeding_input_relation_ b,
          fo_update op b (fo_started op) (fo_block_ids op) r.2)
  else flat_streamed mk.

End flat.

(** Neither looks at the relation the block belongs to. *)
Definition flat_feedInputBlock (block : nat) (op : FlatOperator) : FlatOperator :=
  fo_update op (fo_base op) (fo_started op) (fo_block_ids op ++ [block]) (fo_generated op).

Definition flat_doneFeedingInputBlocks (op : FlatOperator) : FlatOperator :=
  fo_update op (base_doneFeedingInputBlocks (fo_base op)) (fo_started op)
    (fo_block_ids op) (fo_generated op).

Definition flat_getInsertDestinationID (op : FlatOperator) : Z :=
  match fo_class op with SortRunGenerationClass _ d _ | SampleClass _ d _ _ => d end.
Definition flat_getOutputRelationID (op : FlatOperator) : Z :=
  match fo_class op with SortRunGenerationClass o _ _ | SampleClass o _ _ _ => o end.

(** A streamed block sample ignores the percentage: when it ends it has taken
    every block. *)
Lemma sample_stream_all op draws mk fuel i n ws n' :
  sample_stream op draws mk fuel i n = Ok (ws, n') →
  ws = mk <$> drop n (fo_block_ids op).
Proof.
  revert i n ws n'. induction fuel as [|fuel IH]; intros i n ws n'; cbn.
  - destruct (fo_block_ids op !! n) eqn:Hn; [done|]. intros [= <- <-].
    apply lookup_ge_None in Hn. by rewrite drop_ge.
  - destruct (fo_block_ids op !! n) as [x|] eqn:Hn.
    + destruct (draws i); [|apply IH]. intros H. inv_ok. destruct x0 as [ws' m].
      cbn in *. subst. rewrite (drop_S _ _ _ Hn). cbn. f_equal. by eapply IH.
    + intros [= <- <-]. apply lookup_ge_None in Hn. by rewrite drop_ge.
Qed.

(** When no draw succeeds (a percentage of 0) and there is a block, it never
    ends. *)
Lemma sample_stream_diverges op draws mk fuel i n :
  (∀ k, draws k = false) → n < length (fo_block_ids op) →
  sample_stream op draws mk fuel i n = Err OutOfFuel.
Proof.
  intros Hd Hn. destruct (lookup_lt_is_Some_2 (fo_block_ids op) n Hn) as [x Hx].
  revert i. induction fuel as [|fuel IH]; intros i; cbn; rewrite Hx; [done|].
  rewrite Hd. apply IH.
Qed.

(** ** Union of several inputs *)

Record UnionAllOperator := {
  ua_base : OperatorBase;
  ua_input_relations : list Z;
  ua_are_stored : list bool;
  ua_output_relation : Z;
  ua_destination : Z;
  ua_attributes : list (list Z);
  ua_block_ids : list (list nat);
  ua_generated : list nat;
  still_feeding_ : gset nat;
  relation_id_to_index_ : gmap Z nat;
  stored_generated_ : bool;
}.

Definition ua_update (op : UnionAllOperator) (b : OperatorBase)
    (ids : list (list nat)) (gen : list nat) (feeding : gset nat)
    (generated : bool) : UnionAllOperator :=
  {| ua_base := b; ua_input_relations := ua_input_relations op;
     ua_are_stored := ua_are_stored op; ua_output_relation := ua_output_relation op;
     ua_destination := ua_destination op; ua_attributes := ua_attributes op;
     ua_block_ids := ids; ua_generated := gen; still_feeding_ := feeding;
     relation_id_to_index_ := relation_id_to_index_ op; stored_generated_ := generated |}.

(** The loop of the constructor, from index [i] on: the block ids, the indexes
    still to be fed and the map from ids to indexes, where [emplace] keeps the
    first entry of an id. *)
Fixpoint union_inputs (i : nat) (relations : list CatalogRelation)
    (are_stored : list bool) (m : gmap Z nat)
  : outcome (list (list nat) * gset nat * gmap Z nat) :=
  match relations with
  | [] => Ok ([], ∅, m)
  | r :: relations' =>
      let m' := match m !! rel_id r with
                | Some _ => m
                | None => <[rel_id r := i]> m
                end in
      stored ← vec_at are_stored i;
      x ← union_inputs (S i) relations' are_stored m';
      if (stored : bool)
      then mret (getBlocksSnapshot r :: x.1.1, x.1.2, x.2)
      else mret ([] :: x.1.1, {[i]} ∪ x.1.2, x.2)
  end.

Definition new_UnionAllOperator (query_id : nat) (relations : list CatalogRelation)
    (output : CatalogRelation) (destination : Z) (are_stored : list bool)
    (attributes : list (list Z)) : outcome UnionAllOperator :=
  x ← union_inputs 0 relations are_stored ∅;
  mret {| ua_base := new_OperatorBase query_id 1 false 0;
          ua_input_relations := rel_id <$> relations; ua_are_stored := are_stored;
          ua_output_relation := rel_id output; ua_destination := destination;
          ua_attributes := attributes; ua_block_ids := x.1.1;
          ua_generated := replicate (length relations) 0; still_feeding_ := x.1.2;
          relation_id_to_index_ := x.2; stored_generated_ := false |}.

(** [at] of an [unordered_map] throws when there is no entry. *)
Definition union_feedInputBlock (block : nat) (rel : Z) (op : UnionAllOperator)
  : outcome UnionAllOperator :=
  match relation_id_to_index_ op !! rel with
  | None => Err CheckFailed
  | Some index =>
      ids ← push_block (ua_block_ids op) index block;
      mret (ua_update op (ua_base op) ids (ua_generated op) (still_feeding_ op)
              (stored_generated_ op))
  end.

Definition union_doneFeedingInputBlocks (rel : Z) (op : UnionAllOperator)
  : outcome UnionAllOperator :=
  match relation_id_to_index_ op !! rel with
  | None => Err CheckFailed
  | Some index =>
      let feeding := still_feeding_ op ∖ {[index]} in
      let b := if decide (feeding = ∅) then base_doneFeedingInputBlocks (ua_base op)
               else ua_base op in
      Ok (ua_update op b (ua_block_ids op) (ua_generated op) feeding
            (stored_generated_ op))
  end.

Section union.
Context (op : UnionAllOperator).

Definition new_UnionAllWorkOrder (relation : Z) (attributes : list Z) (block : nat) :=
  work_order (ua_base op) 0 (UnionAllWork relation block attributes (ua_destination op)).

(** The work orders of one input and the counters after it. *)
Definition addWorkOrdersSingleRelation (index : nat) (gen : list nat)
  : outcome (list OperatorWorkOrder * list nat) :=
  stored ← vec_at (ua_are_stored op) index;
  all_blocks ← vec_at (ua_block_ids op) index;
  relation ← vec_at (ua_input_relations op) index;
  attributes ← vec_at (ua_attributes op) index;
  let mk := new_UnionAllWorkOrder relation attributes in
  if (stored : bool) then Ok (mk <$> all_blocks, gen)
  else
    n ← vec_at gen index;
    let '(ws, n') := stream_blocks mk all_blocks (length all_blocks) n in
    gen' ← vec_set gen index n';
    mret (ws, gen').

(** The loop over the inputs with a given flag. *)
Fixpoint union_loop (want_stored : bool) (indexes : list nat) (gen : list nat)
  : outcome (list OperatorWorkOrder * list nat) :=
  match indexes with
  | [] => Ok ([], gen)
  | i :: indexes' =>
      stored ← vec_at (ua_are_stored op) i;
      x ← (if Bool.eqb stored want_stored then addWorkOrdersSingleRelation i gen
           else Ok ([], gen));
      y ← union_loop want_stored indexes' x.2;
      mret (x.1 ++ y.1, y.2)
  end.

Definition union_getAllWorkOrders
  : outcome (list OperatorWorkOrder * bool * UnionAllOperator) :=
  let indexes := seq 0 (length (ua_input_relations op)) in
  x ← (if stored_generated_ op then Ok ([], ua_generated op)
       else union_loop true indexes (ua_generated op));
  y ← union_loop false indexes x.2;
  mret (x.1 ++ y.1, done_feeding_input_relation_ (ua_base op),
        ua_update op (ua_base op) (ua_block_ids op) y.2 (still_feeding_ op) true).

End union.

(** When every input is stored, nothing ever sets the flag: the operator never
    reports that it is done. *)
Lemma union_all_stored_never_done op ws d op' :
  done_feeding_input_relation_ (ua_base op) = false →
  union_getAllWorkOrders op = Ok (ws, d, op') →
  d = false ∧ done_feeding_input_relation_ (ua_base op') = false.
Proof.
  intros Hd H. unfold union_getAllWorkOrders in H. by inv_ok.
Qed.

(** ** Two inputs with a shared flag *)

Record BlockIDStream := {
  relation_is_stored_ : bool;
  block_ids_ : list nat;
  current_position_ : nat;
}.

Definition new_BlockIDStream (r : CatalogRelation) (is_stored : bool) : BlockIDStream :=
  {| relation_is_stored_ := is_stored;
     block_ids_ := if is_stored then getBlocksSnapshot r else [];
     current_position_ := 0 |}.

Definition stream_append (block : nat) (s : BlockIDStream) : BlockIDStream :=
  {| relation_is_stored_ := relation_is_stored_ s;
     block_ids_ := block_ids_ s ++ [block];
     current_position_ := current_position_ s |}.

Definition hasNext (s : BlockIDStream) : bool :=
  bool_decide (current_position_ s < length (block_ids_ s)).

Definition getNext (s : BlockIDStream) : outcome (nat * BlockIDStream) :=
  x ← vec_at (block_ids_ s) (current_position_ s);
  mret (x, {| relation_is_stored_ := relation_is_stored_ s; block_ids_ := block_ids_ s;
              current_position_ := S (current_position_ s) |}).

(** [done_feeding_blocks_] is a reference to the flag of the operator. *)
Definition isEndOfStream (done_feeding_blocks : bool) (s : BlockIDStream) : bool :=
  negb (hasNext s) && (relation_is_stored_ s || done_feeding_blocks).

Record BuildTransitiveClosureOperator := {
  tc_base : OperatorBase;
  tc_state : Z;
  start_relation_ : Z;
  edge_relation_ : Z;
  start_attr_id_ : Z;
  source_attr_id_ : Z;
  destination_attr_id_ : Z;
  start_relation_block_stream_ : BlockIDStream;
  edge_relation_block_stream_ : BlockIDStream;
}.

Definition new_BuildTransitiveClosureOperator (query_id : nat) (state : Z)
    (start edge : CatalogRelation) (start_is_stored edge_is_stored : bool)
    (start_attr source_attr destination_attr : Z) : BuildTransitiveClosureOperator :=
  {| tc_base := new_OperatorBase query_id 1 false 0; tc_state := state;
     start_relation_ := rel_id start; edge_relation_ := rel_id edge;
     start_attr_id_ := start_attr; source_attr_id_ := source_attr;
     destination_attr_id_ := destination_attr;
     start_relation_block_stream_ := new_BlockIDStream start start_is_stored;
     edge_relation_block_stream_ := new_BlockIDStream edge edge_is_stored |}.

Definition tc_update (op : BuildTransitiveClosureOperator) (b : OperatorBase)
    (start edge : BlockIDStream) : BuildTransitiveClosureOperator :=
  {| tc_base := b; tc_state := tc_state op; start_relation_ := start_relation_ op;
     edge_relation_ := edge_relation_ op; start_attr_id_ := start_attr_id_ op;
     source_attr_id_ := source_attr_id_ op;
     destination_attr_id_ := destination_attr_id_ op;
     start_relation_block_stream_ := start; edge_relation_block_stream_ := edge |}.

(** A block of any other relation counts as a block of the start relation. *)
Definition tc_feedInputBlock (block : nat) (rel : Z)
    (op : BuildTransitiveClosureOperator) : BuildTransitiveClosureOperator :=
  if decide (rel = edge_relation_ op)
  then tc_update op (tc_base op) (start_relation_block_stream_ op)
         (stream_append block (edge_relation_block_stream_ op))
  else tc_update op (tc_base op)
         (stream_append block (start_relation_block_stream_ op))
         (edge_relation_block_stream_ op).

Definition tc_doneFeedingInputBlocks (op : BuildTransitiveClosureOperator) :=
  tc_update op (base_doneFeedingInputBlocks (tc_base op))
    (start_relation_block_stream_ op) (edge_relation_block_stream_ op).

Section closure.
Context (op : BuildTransitiveClosureOperator).

Definition new_BuildTransitiveClosureWorkOrder (relation : Z) (is_start : bool)
    (block : nat) :=
  work_order (tc_base op) 1
    (BuildTransitiveClosureWork relation is_start block (start_attr_id_ op)
       (source_attr_id_ op) (destination_attr_id_ op) (tc_state op)).

(** [while (stream.hasNext()) add(mk(stream.getNext()));] *)
Fixpoint drain (mk : nat → OperatorWorkOrder) (fuel : nat) (s : BlockIDStream)
  : outcome (list OperatorWorkOrder * BlockIDStream) :=
  if hasNext s then
    match fuel with
    | 0 => Err OutOfFuel
    | S fuel' =>
        x ← getNext s;
        y ← drain mk fuel' x.2;
        mret (mk x.1 :: y.1, y.2)
    end
  else Ok ([], s).

Definition doneWorkOrderGeneration (start edge : BlockIDStream) : bool :=
  isEndOfStream (done_feeding_input_relation_ (tc_base op)) start &&
  isEndOfStream (done_feeding_input_relation_ (tc_base op)) edge.

Definition tc_getAllWorkOrders
  : outcome (list OperatorWorkOrder * bool * BuildTransitiveClosureOperator) :=
  let start := start_relation_block_stream_ op in
  let edge := edge_relation_block_stream_ op in
  if doneWorkOrderGeneration start edge then Ok ([], true, op)
  else
    x ← drain (new_BuildTransitiveClosureWorkOrder (start_relation_ op) true)
          (length (block_ids_ start)) start;
    y ← drain (new_BuildTransitiveClosureWorkOrder (edge_relation_ op) false)
          (length (block_ids_ edge)) edge;
    mret (x.1 ++ y.1, doneWorkOrderGeneration x.2 y.2,
          tc_update op (tc_base op) x.2 y.2).

End closure.

(** What is left of a stream. *)
Definition remaining (s : BlockIDStream) : list nat :=
  drop (current_position_ s) (block_ids_ s).

Lemma drain_spec mk fuel s :
  length (block_ids_ s) ≤ fuel + current_position_ s →
  drain mk fuel s = Ok (mk <$> remaining s,
    {| relation_is_stored_ := relation_is_stored_ s; block_ids_ := block_ids_ s;
       current_position_ := current_position_ s `max` length (block_ids_ s) |}).
Proof.
  revert s. induction fuel as [|fuel IH]; intros [st ids n] Hf; unfold drain, hasNext, remaining;
    fold drain; cbn in *.
  - rewrite bool_decide_false by lia. rewrite drop_ge by lia. cbn. do 3 f_equal. lia.
  - case_bool_decide as Hn.
    + destruct (lookup_lt_is_Some_2 ids n Hn) as [x Hx]. unfold getNext. cbn.
      rewrite (vec_at_Some _ _ _ Hx). cbn. rewrite IH by (cbn; lia). cbn.
      unfold remaining. cbn. rewrite (drop_S _ _ _ Hx). cbn. do 3 f_equal. lia.
    + rewrite drop_ge by lia. cbn. do 3 f_equal. lia.
Qed.

(** Both streams share the flag: with both relations streamed, the end of one
    makes the operator report that it is done while the other is still fed. *)
Lemma closure_done_too_early state start edge a b c :
  tc_getAllWorkOrders (tc_doneFeedingInputBlocks
    (new_BuildTransitiveClosureOperator 0 state start edge false false a b c))
  = Ok ([], true, tc_doneFeedingInputBlocks
    (new_BuildTransitiveClosureOperator 0 state start edge false false a b c)).
Proof. done. Qed.
