(* ===== verification/TableExport.v ===== *)
(** * Table export

    Models relational_operators/TableExportOperator.{hpp,cpp}: the operator
    that turns every block into text with one work order each and writes the
    texts to a file in the order of the blocks, whatever the order in which the
    work orders complete.  [output_buffers_] holds one buffer per work order;
    [work_order_writes] is the part of TableExportToStringWorkOrder::execute
    that leaves the text of a block in its buffer, before it sends the message
    that [receiveFeedbackMessage] handles.  The file is the list of the texts
    written; whether [fopen] succeeds is a parameter. *)

From stdpp Require Import strings.
From S2P Require Import Prelude CatalogBlocks OperatorWork OperatorRuns.
From stdpp Require Import options.

Record BlockBuffer := { buffer_done : bool; buffer : string }.

Record TableExportOperator := {
  te_base : OperatorBase;
  te_relation : Z;
  te_is_stored : bool;
  te_has_header : bool;
  te_block_ids : list nat;
  te_generated : nat;
  te_started : bool;
  num_blocks_written_ : nat;
  output_buffers_ : gmap nat BlockBuffer;
  (** [None] until the first message opens the file. *)
  file_ : option (list string);
}.

Definition new_TableExportOperator (query_id : nat) (input : CatalogRelation)
    (is_stored has_header : bool) : TableExportOperator :=
  {| te_base := new_OperatorBase query_id 1 false 0; te_relation := rel_id input;
     te_is_stored := is_stored; te_has_header := has_header;
     te_block_ids := if is_stored then getBlocksSnapshot input else [];
     te_generated := 0; te_started := false; num_blocks_written_ := 0;
     output_buffers_ := ∅; file_ := None |}.

Definition te_update (op : TableExportOperator) (b : OperatorBase) (ids : list nat)
    (gen : nat) (started : bool) (written : nat) (bufs : gmap nat BlockBuffer)
    (file : option (list string)) : TableExportOperator :=
  {| te_base := b; te_relation := te_relation op; te_is_stored := te_is_stored op;
     te_has_header := te_has_header op; te_block_ids := ids; te_generated := gen;
     te_started := started; num_blocks_written_ := written;
     output_buffers_ := bufs; file_ := file |}.

Definition te_feedInputBlock (block : nat) (rel : Z) (op : TableExportOperator)
  : TableExportOperator :=
  if decide (rel = te_relation op)
  then te_update op (te_base op) (te_block_ids op ++ [block]) (te_generated op)
         (te_started op) (num_blocks_written_ op) (output_buffers_ op) (file_ op)
  else op.

Definition te_doneFeedingInputBlocks (op : TableExportOperator) : TableExportOperator :=
  te_update op (base_doneFeedingInputBlocks (te_base op)) (te_block_ids op)
    (te_generated op) (te_started op) (num_blocks_written_ op) (output_buffers_ op)
    (file_ op).

Definition new_TableExportToStringWorkOrder (op : TableExportOperator)
    (block : nat) (is_first : bool) : OperatorWorkOrder :=
  work_order (te_base op) 0
    (TableExportToStringWork (te_relation op) block (is_first && te_has_header op)
       (op_index_ (te_base op))).

(** The lambda [add_work_order]: [emplace] keeps a buffer that is there. *)
Definition add_work_order (op : TableExportOperator) (block : nat) (is_first : bool)
    (bufs : gmap nat BlockBuffer) : OperatorWorkOrder * gmap nat BlockBuffer :=
  (new_TableExportToStringWorkOrder op block is_first,
   match bufs !! block with
   | Some _ => bufs
   | None => <[block := {| buffer_done := false; buffer := EmptyString |}]> bufs
   end).

(** The loop from position [n] on; the first work order is that of position
    0. *)
Fixpoint export_blocks (op : TableExportOperator) (blocks : list nat) (n : nat)
    (bufs : gmap nat BlockBuffer) : list OperatorWorkOrder * gmap nat BlockBuffer :=
  match blocks with
  | [] => ([], bufs)
  | b :: blocks' =>
      let '(w, bufs1) := add_work_order op b (n =? 0) bufs in
      let '(ws, bufs2) := export_blocks op blocks' (S n) bufs1 in
      (w :: ws, bufs2)
  end.

Definition te_getAllWorkOrders (op : TableExportOperator)
  : list OperatorWorkOrder * bool * TableExportOperator :=
  if te_is_stored op then
    if te_started op then ([], true, op)
    else
      let '(ws, bufs) := export_blocks op (te_block_ids op) 0 (output_buffers_ op) in
      (ws, true, te_update op (te_base op) (te_block_ids op) (length (te_block_ids op))
         true (num_blocks_written_ op) bufs (file_ op))
  else
    let '(ws, bufs) :=
      export_blocks op (drop (te_generated op) (te_block_ids op)) (te_generated op)
        (output_buffers_ op) in
    (ws, done_feeding_input_relation_ (te_base op),
     te_update op (te_base op) (te_block_ids op)
       (te_generated op `max` length (te_block_ids op)) (te_started op)
       (num_blocks_written_ op) bufs (file_ op)).

(** The work order of a block leaves its text in the buffer. *)
Definition work_order_writes (block : nat) (text : string) (op : TableExportOperator)
  : TableExportOperator :=
  te_update op (te_base op) (te_block_ids op) (te_generated op) (te_started op)
    (num_blocks_written_ op)
    (alter (λ b, {| buffer_done := buffer_done b; buffer := text |}) block
       (output_buffers_ op))
    (file_ op).

(** The loop that writes the blocks that are next in order and done. *)
Fixpoint write_blocks (fuel : nat) (op : TableExportOperator) (file : list string)
  : outcome TableExportOperator :=
  if decide (num_blocks_written_ op < te_generated op) then
    match fuel with
    | 0 => Err OutOfFuel
    | S fuel' =>
        next_block_id ← vec_at (te_block_ids op) (num_blocks_written_ op);
        match output_buffers_ op !! next_block_id with
        | Some {| buffer_done := true; buffer := text |} =>
            write_blocks fuel'
              (te_update op (te_base op) (te_block_ids op) (te_generated op)
                 (te_started op) (S (num_blocks_written_ op))
                 (delete next_block_id (output_buffers_ op)) (Some (file ++ [text])))
              (file ++ [text])
        | _ => Ok op
        end
    end
  else Ok op.

(** The message that a block is done: the file is opened by the first one
    (an exception when that fails), [at] throws for an unknown block. *)
Definition te_receiveFeedbackMessage (can_open : bool) (done_block_id : nat)
    (op : TableExportOperator) : outcome TableExportOperator :=
  file ← (match file_ op with
          | Some f => Ok f
          | None => if can_open then Ok [] else Err Thrown
          end);
  match output_buffers_ op !! done_block_id with
  | None => Err Thrown
  | Some b =>
      let op' := te_update op (te_base op) (te_block_ids op) (te_generated op)
        (te_started op) (num_blocks_written_ op)
        (<[done_block_id := {| buffer_done := true; buffer := buffer b |}]>
           (output_buffers_ op))
        (Some file) in
      write_blocks (te_generated op) op' file
  end.

(** Generating work orders adds empty buffers for the new blocks. *)
Lemma export_blocks_bufs op blocks n bufs :
  (export_blocks op blocks n bufs).2 =
    bufs ∪ list_to_map ((λ b, (b, {| buffer_done := false; buffer := EmptyString |})) <$> blocks).
Proof.
  revert n bufs. induction blocks as [|b blocks IH]; intros n bufs; cbn; [by rewrite map_union_empty|].
  specialize (IH (S n)). destruct (bufs !! b) as [buf|] eqn:Hb.
  - specialize (IH bufs). destruct (export_blocks _ _ _ bufs) as [ws bufs2]. cbn in *. subst.
    apply map_eq. intros k. rewrite !lookup_union. destruct (decide (k = b)) as [->|Hk].
    + rewrite Hb. by repeat destruct (_ !! _).
    + by rewrite lookup_insert_ne.
  - set (new := {| buffer_done := false; buffer := EmptyString |}) in *.
    specialize (IH (<[b := new]> bufs)).
    destruct (export_blocks _ _ _ (<[b := new]> bufs)) as [ws bufs2]. cbn in *. subst.
    by rewrite <- insert_union_l, insert_union_r by done.
Qed.

Lemma list_to_map_new blocks (b : nat) :
  list_to_map (M := gmap nat BlockBuffer)
    ((λ b, (b, {| buffer_done := false; buffer := EmptyString |})) <$> blocks) !! b =
    if decide (b ∈ blocks) then Some {| buffer_done := false; buffer := EmptyString |} else None.
Proof.
  induction blocks as [|x blocks IH]; cbn; [by case_decide; set_solver|].
  destruct (decide (b = x)) as [->|Hb].
  - rewrite lookup_insert_eq. by rewrite decide_True by set_solver.
  - rewrite lookup_insert_ne, IH by done.
    destruct (decide (b ∈ blocks)); [by rewrite decide_True by set_solver|].
    by rewrite decide_False by set_solver.
Qed.

(** ** The invariant

    [text] gives the text of each block.  Blocks are fed once each.  The
    blocks before [num_blocks_written_] are in the file, in order; those from
    there to [te_generated] have a buffer, which holds the text if it is
    done. *)
Section export.
Context (text : nat → string).

Record export_ok (op : TableExportOperator) : Prop := {
  exp_nodup : NoDup (te_block_ids op);
  exp_generated : te_generated op ≤ length (te_block_ids op);
  exp_written : num_blocks_written_ op ≤ te_generated op;
  exp_file : default [] (file_ op) = text <$> take (num_blocks_written_ op) (te_block_ids op);
  exp_buffers b : is_Some (output_buffers_ op !! b) ↔
    ∃ i, num_blocks_written_ op ≤ i < te_generated op ∧ te_block_ids op !! i = Some b;
  exp_texts b buf : output_buffers_ op !! b = Some buf → buffer_done buf = true →
    buffer buf = text b;
  exp_stored : te_is_stored op = true → te_started op = false → te_generated op = 0;
  exp_started : te_is_stored op = true → te_started op = true →
    te_generated op = length (te_block_ids op);
}.

(** Nothing that is done is left unwritten. *)
Definition caught_up (op : TableExportOperator) : Prop :=
  ∀ b, te_block_ids op !! num_blocks_written_ op = Some b →
    num_blocks_written_ op < te_generated op →
    ∃ buf, output_buffers_ op !! b = Some buf ∧ buffer_done buf = false.

Lemma write_blocks_spec fuel op :
  export_ok op → te_generated op ≤ fuel + num_blocks_written_ op →
  ∃ op', write_blocks fuel op (default [] (file_ op)) = Ok op' ∧ export_ok op' ∧ caught_up op' ∧
    te_base op' = te_base op ∧ te_relation op' = te_relation op ∧
    te_is_stored op' = te_is_stored op ∧ te_has_header op' = te_has_header op ∧
    te_block_ids op' = te_block_ids op ∧ te_generated op' = te_generated op ∧
    te_started op' = te_started op ∧ num_blocks_written_ op ≤ num_blocks_written_ op' ∧
    (∀ b buf, output_buffers_ op' !! b = Some buf → output_buffers_ op !! b = Some buf) ∧
    (∀ i b, num_blocks_written_ op ≤ i < num_blocks_written_ op' →
       te_block_ids op !! i = Some b →
       ∃ buf, output_buffers_ op !! b = Some buf ∧ buffer_done buf = true).
Proof.
  revert op. induction fuel as [|fuel IH]; intros op Hok Hf; cbn [write_blocks];
    case_decide as Hw.
  - lia.
  - exists op. split_and!; try done; [intros b _ ?|intros i b ? ?]; lia.
  - pose proof (exp_generated _ Hok).
    destruct (lookup_lt_is_Some_2 (te_block_ids op) (num_blocks_written_ op)) as [b Hb]; [lia|].
    rewrite (vec_at_Some _ _ _ Hb). cbn.
    destruct (proj2 (exp_buffers _ Hok b)) as [[d t] Hbuf]; [exists (num_blocks_written_ op); split; [lia|done]|].
    rewrite Hbuf. destruct d.
    + set (op1 := te_update op (te_base op) (te_block_ids op) (te_generated op) (te_started op)
        (S (num_blocks_written_ op)) (delete b (output_buffers_ op))
        (Some (default [] (file_ op) ++ [t]))).
      assert (export_ok op1) as Hok1.
      { split; cbn; try apply Hok; try lia.
        - rewrite (exp_file _ Hok), (take_S_r _ _ _ Hb), fmap_app. cbn.
          do 2 f_equal. apply (exp_texts _ Hok b _ Hbuf eq_refl).
        - intros b'. rewrite lookup_delete_is_Some, (exp_buffers _ Hok b'). split.
          + intros [Hne (i & Hi & Hbi)]. exists i. split; [|done].
            destruct (decide (i = num_blocks_written_ op)) as [->|]; [|lia].
            rewrite Hb in Hbi. by injection Hbi as ->.
          + intros (i & Hi & Hbi). split; [|exists i; split; [lia|done]].
            intros <-. pose proof (NoDup_lookup _ _ _ _ (exp_nodup _ Hok) Hb Hbi). lia.
        - intros b' buf [_ Hb']%lookup_delete_Some. by apply (exp_texts _ Hok). }
      destruct (IH op1 Hok1) as (op' & H1 & H2 & H3 & ? & ? & ? & ? & ? & ? & ? & ? & Hbs & Hdone);
        [cbn; lia|]. exists op'. cbn in *. split_and!; try done; [lia| |].
      { intros b' buf H'. apply Hbs in H'. by apply lookup_delete_Some in H' as [_ ?]. }
      intros i b' Hi Hb'. destruct (decide (i = num_blocks_written_ op)) as [->|Hne].
      { rewrite Hb in Hb'. injection Hb' as <-. eauto. }
      destruct (Hdone i b') as (x & Hx & ?); [lia|done|].
      apply lookup_delete_Some in Hx as [_ ?]. eauto.
    + exists op. split_and!; try done; [|intros i b' ? ?; lia].
      intros b' Hb' _. rewrite Hb in Hb'. injection Hb' as <-. eauto.
  - exists op. split_and!; try done; [intros b _ ?|intros i b ? ?]; lia.
Qed.

(** The state after the blocks up to the end of the list got a work order. *)
Definition te_advance (op : TableExportOperator) (started : bool) : TableExportOperator :=
  te_update op (te_base op) (te_block_ids op) (length (te_block_ids op)) started
    (num_blocks_written_ op)
    (export_blocks op (drop (te_generated op) (te_block_ids op)) (te_generated op)
       (output_buffers_ op)).2 (file_ op).

Lemma te_advance_ok op started :
  export_ok op → caught_up op → (te_is_stored op = true → started = true) →
  export_ok (te_advance op started) ∧ caught_up (te_advance op started) ∧
  (∀ b buf, output_buffers_ (te_advance op started) !! b = Some buf →
    output_buffers_ op !! b = Some buf ∨ buffer_done buf = false) ∧
  (∀ b buf, output_buffers_ op !! b = Some buf →
    output_buffers_ (te_advance op started) !! b = Some buf).
Proof.
  intros Hok Hcu Hst.
  assert (∀ b buf, output_buffers_ (te_advance op started) !! b = Some buf ↔
    output_buffers_ op !! b = Some buf ∨
    output_buffers_ op !! b = None ∧ b ∈ drop (te_generated op) (te_block_ids op) ∧
      buf = {| buffer_done := false; buffer := EmptyString |}) as Hbufs.
  { intros b buf. cbn. rewrite export_blocks_bufs, lookup_union_Some_raw, list_to_map_new.
    case_decide; naive_solver. }
  assert (∀ b, b ∈ drop (te_generated op) (te_block_ids op) ↔
    ∃ i, te_generated op ≤ i ∧ te_block_ids op !! i = Some b) as Hdrop.
  { intros b. rewrite list_elem_of_lookup. setoid_rewrite lookup_drop. split.
    - intros [i Hi]. exists (te_generated op + i). split; [lia|done].
    - intros (i & Hi & Hb). exists (i - te_generated op). by rewrite Nat.add_sub_assoc, Nat.add_comm, Nat.add_sub by lia. }
  split; [|split; [|split]].
  - split; try (cbn; apply Hok); try (cbn; done).
    + cbn. pose proof (exp_generated _ Hok). pose proof (exp_written _ Hok). lia.
    + intros b. split.
      * intros [buf Hb%Hbufs]. cbn. destruct Hb as [Hb|(_ & Hb & _)].
        -- destruct (proj1 (exp_buffers _ Hok b) (ex_intro _ _ Hb)) as (i & Hi & Hbi).
           exists i. split; [|done]. apply lookup_lt_Some in Hbi as ?. lia.
        -- apply Hdrop in Hb as (i & Hi & Hbi). exists i. split; [|done].
           apply lookup_lt_Some in Hbi as ?. pose proof (exp_written _ Hok). lia.
      * cbn. intros (i & Hi & Hbi). destruct (output_buffers_ op !! b) as [buf|] eqn:Hb.
        -- exists buf. apply Hbufs. by left.
        -- eexists. apply Hbufs. right. split; [done|]. split; [|done]. apply Hdrop.
           exists i. split; [|done]. destruct (decide (te_generated op ≤ i)); [done|exfalso].
           assert (is_Some (output_buffers_ op !! b)) as [? E]
             by (apply Hok; exists i; split; [lia|done]). by rewrite Hb in E.
    + intros b buf [Hb|(_ & _ & ->)]%Hbufs; [by apply (exp_texts _ Hok)|done].
    + cbn. intros H1 H2. rewrite (Hst H1) in H2. done.
  - intros b Hb Hw. cbn in Hb, Hw.
    destruct (decide (num_blocks_written_ op < te_generated op)) as [Hlt|Hge].
    + destruct (Hcu b Hb Hlt) as (buf & H1 & H2). exists buf. split; [|done]. apply Hbufs. by left.
    + exists {| buffer_done := false; buffer := EmptyString |}.
      split; [apply Hbufs|done]. right. split; [|split; [apply Hdrop|]]; [| |done].
      * destruct (output_buffers_ op !! b) eqn:E; [|done].
        destruct (proj1 (exp_buffers _ Hok b) (ex_intro _ _ E)) as (i & Hi & _). lia.
      * exists (num_blocks_written_ op). split; [lia|done].
  - intros b buf [Hb|(_ & _ & ->)]%Hbufs; auto.
  - intros b buf Hb. apply Hbufs. by left.
Qed.

Lemma te_generate_spec op :
  export_ok op → caught_up op → ∃ ws op',
    te_getAllWorkOrders op =
      (ws, te_is_stored op || done_feeding_input_relation_ (te_base op), op') ∧
    export_ok op' ∧ caught_up op' ∧
    te_base op' = te_base op ∧ te_relation op' = te_relation op ∧
    te_is_stored op' = te_is_stored op ∧ te_block_ids op' = te_block_ids op ∧
    te_generated op' = length (te_block_ids op) ∧
    num_blocks_written_ op' = num_blocks_written_ op ∧
    (∀ b buf, output_buffers_ op' !! b = Some buf →
      output_buffers_ op !! b = Some buf ∨ buffer_done buf = false) ∧
    (∀ b buf, output_buffers_ op !! b = Some buf → output_buffers_ op' !! b = Some buf) ∧
    Forall (λ w, wo_preferred_numa_nodes w = []) ws.
Proof.
  intros Hok Hcu.
  assert (∀ blocks n bufs, Forall (λ w, wo_preferred_numa_nodes w = [])
    (export_blocks op blocks n bufs).1) as Hnuma.
  { induction blocks as [|b blocks IH]; intros n bufs; cbn; [constructor|].
    specialize (IH (S n)).
    match goal with |- context[export_blocks op blocks (S n) ?m] => specialize (IH m);
      destruct (export_blocks op blocks (S n) m) end. by constructor. }
  unfold te_getAllWorkOrders. destruct (te_is_stored op) eqn:Hs; [destruct (te_started op) eqn:Hst|].
  - exists [], op. split; [done|]. rewrite (exp_started _ Hok Hs Hst).
    split_and!; try done; auto.
  - pose proof (exp_stored _ Hok Hs Hst) as Hg.
    destruct (te_advance_ok op true Hok Hcu) as (H1 & H2 & H3 & H4); [done|].
    unfold te_advance in *. rewrite Hg, drop_0 in *.
    specialize (Hnuma (te_block_ids op) 0 (output_buffers_ op)).
    destruct (export_blocks op (te_block_ids op) 0 (output_buffers_ op)) as [ws bufs].
    cbn in *. do 2 eexists. split; [done|]. cbn. split_and!; done.
  - destruct (te_advance_ok op (te_started op) Hok Hcu) as (H1 & H2 & H3 & H4); [congruence|].
    pose proof (exp_generated _ Hok). unfold te_advance in *.
    specialize (Hnuma (drop (te_generated op) (te_block_ids op)) (te_generated op) (output_buffers_ op)).
    destruct (export_blocks op (drop _ _) _ _) as [ws bufs].
    cbn in *. rewrite Nat.max_r by done. do 2 eexists. split; [done|]. cbn. split_and!; done.
Qed.

(** Feeding a new block. *)
Lemma te_feed_ok op b :
  export_ok op → caught_up op → te_is_stored op = false → b ∉ te_block_ids op →
  export_ok (te_feedInputBlock b (te_relation op) op) ∧
  caught_up (te_feedInputBlock b (te_relation op) op).
Proof.
  intros Hok Hcu Hs Hb. unfold te_feedInputBlock. rewrite decide_True by done.
  pose proof (exp_generated _ Hok). pose proof (exp_written _ Hok). split; [split; cbn|].
  - apply NoDup_app. split_and!; [apply Hok|set_solver|apply NoDup_singleton].
  - rewrite length_app. lia.
  - done.
  - rewrite (exp_file _ Hok). by rewrite take_app_le by lia.
  - intros b'. rewrite (exp_buffers _ Hok b'). split; intros (i & Hi & Hbi); exists i;
      (split; [done|]); [by apply lookup_app_l_Some|].
    by rewrite lookup_app_l in Hbi by lia.
  - apply Hok.
  - apply Hok.
  - rewrite Hs. done.
  - intros b' Hb' Hw. cbn in *. rewrite lookup_app_l in Hb' by lia. by apply Hcu.
Qed.

(** A work order writes its text. *)
Lemma te_write_ok op b buf :
  export_ok op → caught_up op → output_buffers_ op !! b = Some buf →
  export_ok (work_order_writes b (text b) op) ∧ caught_up (work_order_writes b (text b) op).
Proof.
  intros Hok Hcu Hb. split; [split; cbn; try apply Hok|].
  - intros b'. rewrite lookup_alter_is_Some. apply Hok.
  - intros b' buf' [(<- & x & Hx & ->)|[Hne Hx]]%lookup_alter_Some Hd; cbn in *; [done|].
    by apply (exp_texts _ Hok).
  - intros b' Hb' Hw. cbn in *. destruct (Hcu b' Hb' Hw) as (x & Hx & Hd).
    destruct (decide (b' = b)) as [->|Hne].
    + rewrite lookup_alter_eq, Hx. cbn. eauto.
    + rewrite lookup_alter_ne by done. eauto.
Qed.

(** The message of a block whose text is in its buffer. *)
Lemma te_feedback_ok op b buf can_open :
  export_ok op → output_buffers_ op !! b = Some buf → buffer buf = text b →
  (file_ op = None → can_open = true) → ∃ op',
    te_receiveFeedbackMessage can_open b op = Ok op' ∧ export_ok op' ∧ caught_up op' ∧
    te_base op' = te_base op ∧ te_relation op' = te_relation op ∧
    te_is_stored op' = te_is_stored op ∧ te_block_ids op' = te_block_ids op ∧
    te_generated op' = te_generated op ∧
    num_blocks_written_ op ≤ num_blocks_written_ op' ∧
    (∀ b' buf', output_buffers_ op' !! b' = Some buf' →
      if decide (b' = b) then buffer_done buf' = true else output_buffers_ op !! b' = Some buf') ∧
    (∀ i b', num_blocks_written_ op ≤ i < num_blocks_written_ op' →
       te_block_ids op !! i = Some b' →
       b' = b ∨ ∃ buf', output_buffers_ op !! b' = Some buf' ∧ buffer_done buf' = true).
Proof.
  intros Hok Hb Ht Hopen. unfold te_receiveFeedbackMessage.
  set (op1 := te_update op (te_base op) (te_block_ids op) (te_generated op) (te_started op)
    (num_blocks_written_ op)
    (<[b := {| buffer_done := true; buffer := buffer buf |}]> (output_buffers_ op))
    (Some (default [] (file_ op)))).
  assert (export_ok op1) as Hok1.
  { split; cbn; try apply Hok.
    - intros b'. rewrite lookup_insert_is_Some'. rewrite (exp_buffers _ Hok b'). split; [|auto].
      intros [<-|?]; [|done]. apply Hok. eauto.
    - intros b' buf' [[<- <-]|[_ Hb']]%lookup_insert_Some Hd; [done|]. by apply (exp_texts _ Hok). }
  destruct (write_blocks_spec (te_generated op) op1 Hok1)
    as (op' & Hw & H1 & H2 & ? & ? & ? & ? & ? & ? & ? & ? & Hbs & Hdone); [cbn; lia|].
  exists op'. cbn in Hw, Hdone. split.
  { destruct (file_ op); cbn in *; [by rewrite Hb|]. rewrite Hopen by done. cbn. by rewrite Hb. }
  split_and!; try done.
  - intros b' buf' H'%Hbs. cbn in H'. apply lookup_insert_Some in H' as [[<- <-]|[Hne Hb']].
    + by rewrite decide_True.
    + by rewrite decide_False by done.
  - intros i b' Hi Hb'. destruct (Hdone i b' Hi Hb') as (x & Hx & Hd).
    apply lookup_insert_Some in Hx as [[<- _]|[_ Hx]]; eauto.
Qed.
(** ** Runs

    The blocks of a stored relation, or blocks fed once each; work orders that
    write their text and then send one message, in any order.  [reported] is
    the set of the blocks whose message has been handled. *)
Inductive export_run (input : CatalogRelation)
  : TableExportOperator → gset nat → Prop :=
| run_new q is_stored has_header :
    NoDup (blocks_ input) →
    export_run input (new_TableExportOperator q input is_stored has_header) ∅
| run_feed op reported b :
    export_run input op reported → te_is_stored op = false → b ∉ te_block_ids op →
    export_run input (te_feedInputBlock b (te_relation op) op) reported
| run_end op reported :
    export_run input op reported →
    export_run input (te_doneFeedingInputBlocks op) reported
| run_generate op reported ws d op' :
    export_run input op reported → te_getAllWorkOrders op = (ws, d, op') →
    export_run input op' reported
| run_write op reported b buf :
    export_run input op reported → output_buffers_ op !! b = Some buf →
    export_run input (work_order_writes b (text b) op) reported
| run_message op reported b buf op' :
    export_run input op reported → output_buffers_ op !! b = Some buf →
    buffer buf = text b → te_receiveFeedbackMessage true b op = Ok op' →
    export_run input op' ({[b]} ∪ reported).

(** The blocks reported are those written and those whose buffer is done. *)
Definition reported_ok (op : TableExportOperator) (reported : gset nat) : Prop :=
  ∀ b, b ∈ reported ↔
    (∃ i, i < num_blocks_written_ op ∧ te_block_ids op !! i = Some b) ∨
    (∃ buf, output_buffers_ op !! b = Some buf ∧ buffer_done buf = true).

Lemma export_run_ok input op reported :
  export_run input op reported → export_ok op ∧ caught_up op ∧ reported_ok op reported.
Proof.
  induction 1 as [q st hd Hnd|op rep b H (Hok & Hcu & Hr) Hs Hb|op rep H (Hok & Hcu & Hr)
    |op rep ws d op' H (Hok & Hcu & Hr) Hg|op rep b buf H (Hok & Hcu & Hr) Hb
    |op rep b buf op' H (Hok & Hcu & Hr) Hb Ht Hm].
  - split; [split; cbn; try done; try lia|split].
    + destruct st; [done|constructor].
    + intros b. rewrite lookup_empty. split; [by intros [? ?]|intros (i & ? & _); lia].
    + intros b _ Hw. cbn in Hw. lia.
    + intros b. cbn. setoid_rewrite lookup_empty. split; [set_solver|].
      intros [(i & ? & _)|(? & ? & _)]; [lia|done].
  - destruct (te_feed_ok op b Hok Hcu Hs Hb) as [H1 H2]. split_and!; [done|done|].
    intros b'. rewrite (Hr b'). unfold te_feedInputBlock. rewrite decide_True by done. cbn.
    pose proof (exp_generated _ Hok). pose proof (exp_written _ Hok).
    f_equiv. f_equiv. intros i. split; intros [Hi Hl]; (split; [done|]);
      [by apply lookup_app_l_Some|by rewrite lookup_app_l in Hl by lia].
  - split_and!; [by destruct Hok; split|done|done].
  - destruct (te_generate_spec op Hok Hcu)
      as (ws' & op1 & Hg1 & H1 & H2 & _ & _ & _ & Hids & _ & Hw & Hbufs & Hkeep & _).
    rewrite Hg in Hg1. injection Hg1 as -> -> ->. split_and!; [done|done|].
    intros b. rewrite (Hr b), Hids, Hw. f_equiv. split; intros (buf & Hb & Hd); exists buf.
    + eauto.
    + destruct (Hbufs b buf Hb); [done|congruence].
  - destruct (te_write_ok op b buf Hok Hcu Hb) as [H1 H2]. split_and!; [done|done|].
    intros b'. rewrite (Hr b'). cbn. f_equiv. destruct (decide (b' = b)) as [->|Hne].
    + rewrite lookup_alter_eq, Hb. cbn. split; intros (x & [= <-] & Hx); eauto.
    + by rewrite lookup_alter_ne.
  - destruct (te_feedback_ok op b buf true Hok Hb Ht) as (op1 & Hm1 & H1 & H2 & _ & _ & _ & Hids & Hg & Hw & Hbs & Hdone);
      [done|]. rewrite Hm in Hm1. injection Hm1 as <-. split_and!; [done|done|].
    intros b'. rewrite elem_of_union, elem_of_singleton, (Hr b').
    assert (is_Some (output_buffers_ op' !! b') ↔ ∃ i, num_blocks_written_ op' ≤ i < te_generated op ∧
      te_block_ids op !! i = Some b') as Hb' by (rewrite (exp_buffers _ H1 b'), Hids, Hg; done).
    assert (∀ buf', output_buffers_ op !! b' = Some buf' → (∃ i, i < num_blocks_written_ op' ∧
      te_block_ids op !! i = Some b') ∨ is_Some (output_buffers_ op' !! b')) as Hsplit.
    { intros buf' E. destruct (proj1 (exp_buffers _ Hok b') (ex_intro _ _ E)) as (i & Hi & Hbi).
      destruct (decide (i < num_blocks_written_ op')); [left; eauto|right; apply Hb'].
      exists i. split; [lia|done]. }
    rewrite Hids. split.
    + intros [->|[(i & Hi & Hbi)|(x & Hx & Hd)]].
      * destruct (Hsplit _ Hb) as [?|[y Hy]]; [by left|right]. exists y. split; [done|].
        specialize (Hbs b y Hy). by rewrite decide_True in Hbs.
      * left. exists i. split; [lia|done].
      * destruct (Hsplit _ Hx) as [?|[y Hy]]; [by left|right]. exists y. split; [done|].
        specialize (Hbs b' y Hy). case_decide; [done|]. congruence.
    + intros [(i & Hi & Hbi)|(x & Hx & Hd)].
      * destruct (decide (i < num_blocks_written_ op)) as [|Hge]; [right; left; eauto|].
        destruct (Hdone i b') as [?|?]; [lia|done|by left|by right; right].
      * specialize (Hbs b' x Hx). case_decide; [by left|]. right. right. eauto.
Qed.
(** ** Properties *)

(** C32. A table is exported in the order of its blocks whatever the order in
    which the work orders complete: in every state of a run, the file holds
    the texts of the first [num_blocks_written_] blocks, in order and each
    once; these have all been reported, and the block after them, if it has a
    work order, has not (so the file is the longest reported prefix, and the
    whole table once every block is reported).  The message of a block whose
    text is in its buffer is always handled. *)
Theorem table_export_in_order input op reported :
  export_run input op reported →
  default [] (file_ op) = text <$> take (num_blocks_written_ op) (te_block_ids op) ∧
  num_blocks_written_ op ≤ te_generated op ≤ length (te_block_ids op) ∧
  (∀ i b, i < num_blocks_written_ op → te_block_ids op !! i = Some b → b ∈ reported) ∧
  (∀ b, num_blocks_written_ op < te_generated op →
     te_block_ids op !! num_blocks_written_ op = Some b → b ∉ reported) ∧
  (∀ b buf, output_buffers_ op !! b = Some buf → buffer buf = text b →
     ∃ op', te_receiveFeedbackMessage true b op = Ok op').
Proof.
  intros H. destruct (export_run_ok input op reported H) as (Hok & Hcu & Hr).
  split_and!; try apply Hok.
  - intros i b Hi Hb. apply Hr. left. eauto.
  - intros b Hw Hb Hin%Hr. destruct (Hcu b Hb Hw) as (buf & Hbuf & Hd).
    destruct Hin as [(i & Hi & Hbi)|(x & Hx & ?)]; [|congruence].
    pose proof (NoDup_lookup _ _ _ _ (exp_nodup _ Hok) Hb Hbi). lia.
  - intros b buf Hb Ht. destruct (te_feedback_ok op b buf true Hok Hb Ht) as (op' & ? & _);
      [done|]. eauto.
Qed.
End export.

(** ** A concrete export *)

Definition sample_table : CatalogRelation := addBlock 8 (addBlock 5 (new_CatalogRelation 2)).
Definition sample_text (b : nat) : string :=
  if decide (b = 5) then "five"%string else "eight"%string.
Definition sample_export0 : TableExportOperator :=
  new_TableExportOperator 0 sample_table true false.
Definition sample_export1 : TableExportOperator := (te_getAllWorkOrders sample_export0).2.
(** The second block completes first. *)
Definition sample_export2 : TableExportOperator :=
  work_order_writes 8 (sample_text 8) sample_export1.
Definition feedback_result (b : nat) (op : TableExportOperator) : TableExportOperator :=
  match te_receiveFeedbackMessage true b op with Ok op' => op' | Err _ => op end.
Definition sample_export3 : TableExportOperator := feedback_result 8 sample_export2.
Definition sample_export4 : TableExportOperator :=
  work_order_writes 5 (sample_text 5) sample_export3.
Definition sample_export5 : TableExportOperator := feedback_result 5 sample_export4.

Lemma sample_export_run :
  export_run sample_text sample_table sample_export5 ({[5]} ∪ ({[8]} ∪ ∅)).
Proof.
  eapply (run_message _ _ sample_export4); [|vm_compute; reflexivity..].
  eapply (run_write _ _ sample_export3 _ 5); [|vm_compute; reflexivity].
  eapply (run_message _ _ sample_export2); [|vm_compute; reflexivity..].
  eapply (run_write _ _ sample_export1 _ 8); [|vm_compute; reflexivity].
  eapply (run_generate _ _ sample_export0); [|vm_compute; reflexivity].
  apply run_new. cbn. repeat constructor; set_solver.
Qed.

Lemma table_export_in_order_witness :
  file_ sample_export3 = Some [] ∧ file_ sample_export5 = Some ["five"; "eight"]%string ∧
  default [] (file_ sample_export5) =
    sample_text <$> take (num_blocks_written_ sample_export5) (te_block_ids sample_export5).
Proof.
  split; [reflexivity|]. split; [reflexivity|].
  exact (proj1 (table_export_in_order _ _ _ _ sample_export_run)).
Defined.
