(* ===== verification/OnceOperators.v ===== *)
(** * Operators that generate their work orders at once

    Models the operators of relational_operators/ that do not read blocks fed
    to them: InitializeAggregationOperator, FinalizeAggregationOperator,
    DestroyAggregationStateOperator, DestroyHashOperator, InsertOperator,
    TableGeneratorOperator, WindowAggregationOperator, DropTableOperator,
    CreateTableOperator and CreateIndexOperator.  What they ask of the query
    context and of the catalog while they generate work orders, and what they
    change there, is the interface [QueryEnvironment]. *)

From S2P Require Import Prelude CatalogBlocks OperatorWork.
From stdpp Require Import options.

(** The query context, the catalog and the insert destinations, as the
    operators and the query manager see them. *)
Class QueryEnvironment (E : Type) := {
  (** [relation.getBlocksSnapshot()] at the moment of the call *)
  env_getBlocksSnapshot : Z → E → list nat;
  (** of the aggregation state with an id, for a partition *)
  getNumInitializationPartitions : Z → nat → E → nat;
  getNumFinalizationPartitions : Z → nat → E → nat;
  (** the tuples and the state move from the query context to the work order *)
  releaseTuples : list Z → E → E;
  releaseWindowAggregationState : Z → E → E;
  (** [database_->setStatus(kPendingBlockDeletions)] *)
  setPendingBlockDeletions : E → E;
  (** [updateCatalogOnCompletion] of the operators that have one *)
  complete_drop : bool → Z → E → E;
  complete_create : Z → E → E;
  complete_index : Z → E → E;
  complete_save : Z → E → E;
  (** the blocks an insert destination holds for insertion *)
  env_partially_filled : Z → E → list (nat * nat) * E;
  env_partially_filled_small d e :
    (N.of_nat (length (env_partially_filled d e).1) < 2 ^ 64)%N;
}.

Inductive OnceClass :=
| InitializeAggregationClass (aggr_state : Z)
| FinalizeAggregationClass (aggr_state output destination : Z)
| DestroyAggregationStateClass (aggr_state : Z)
| DestroyHashClass (hash_table : Z)
| InsertClass (output destination : Z) (tuple_indexes : list Z)
| TableGeneratorClass (output destination generator : Z)
| WindowAggregationClass (input output state destination : Z)
| DropTableClass (relation : Z) (only_drop_blocks : bool)
| CreateTableClass (relation : Z)
| CreateIndexClass (relation : Z).

(** [started_], [work_generated_] or [generated_]. *)
Record OnceOperator := {
  oo_base : OperatorBase;
  oo_class : OnceClass;
  oo_generated : bool;
}.

Definition new_once (b : OperatorBase) (c : OnceClass) : OnceOperator :=
  {| oo_base := b; oo_class := c; oo_generated := false |}.
Definition set_once_generated (op : OnceOperator) : OnceOperator :=
  {| oo_base := oo_base op; oo_class := oo_class op; oo_generated := true |}.

Definition new_InitializeAggregationOperator (query_id : nat) (aggr_state : Z)
    (num_partitions : nat) :=
  new_once (new_OperatorBase query_id num_partitions false 0)
    (InitializeAggregationClass aggr_state).
Definition new_FinalizeAggregationOperator (query_id : nat) (aggr_state : Z)
    (num_partitions : nat) (has_repartition : bool) (output : CatalogRelation)
    (destination : Z) :=
  new_once (new_OperatorBase query_id num_partitions has_repartition (getNumPartitions output))
    (FinalizeAggregationClass aggr_state (rel_id output) destination).
Definition new_DestroyAggregationStateOperator (query_id : nat) (aggr_state : Z)
    (num_partitions : nat) :=
  new_once (new_OperatorBase query_id num_partitions false 0)
    (DestroyAggregationStateClass aggr_state).
Definition new_DestroyHashOperator (query_id num_partitions : nat) (hash_table : Z) :=
  new_once (new_OperatorBase query_id num_partitions false 0) (DestroyHashClass hash_table).
Definition new_InsertOperator (query_id : nat) (output : CatalogRelation)
    (destination : Z) (tuple_indexes : list Z) :=
  new_once (new_OperatorBase query_id 1 false (getNumPartitions output))
    (InsertClass (rel_id output) destination tuple_indexes).
Definition new_TableGeneratorOperator (query_id : nat) (output : CatalogRelation)
    (destination generator : Z) :=
  new_once (new_OperatorBase query_id 1 (negb (getNumPartitions output =? 1))
              (getNumPartitions output))
    (TableGeneratorClass (rel_id output) destination generator).
Definition new_WindowAggregationOperator (query_id : nat)
    (input output : CatalogRelation) (state destination : Z) :=
  new_once (new_OperatorBase query_id (getNumPartitions input)
              (negb (getNumPartitions input =? getNumPartitions output))
              (getNumPartitions output))
    (WindowAggregationClass (rel_id input) (rel_id output) state destination).
Definition new_DropTableOperator (query_id : nat) (relation : CatalogRelation)
    (only_drop_blocks : bool) :=
  new_once (new_OperatorBase query_id 1 false 0)
    (DropTableClass (rel_id relation) only_drop_blocks).
Definition new_CreateTableOperator (query_id : nat) (relation : CatalogRelation) :=
  new_once (new_OperatorBase query_id 0 false 0) (CreateTableClass (rel_id relation)).
Definition new_CreateIndexOperator (query_id : nat) (relation : CatalogRelation) :=
  new_once (new_OperatorBase query_id 0 false 0) (CreateIndexClass (rel_id relation)).

Section once.
Context {E : Type} `{!QueryEnvironment E}.
Context (op : OnceOperator).
Abbreviation b := (oo_base op).
Abbreviation part_ids := (seq 0 (num_partitions_ b)).
Abbreviation result := (list OperatorWorkOrder * bool * OnceOperator * E)%type.

(** [if (generated) return true; ...; generated = true; return true;] *)
Definition once (ws : list OperatorWorkOrder) (e' e : E) : result :=
  if oo_generated op then ([], true, op, e) else (ws, true, set_once_generated op, e').

(** One work order per partition of the operator and of the state. *)
Definition InitializeAggregationOperator_getAllWorkOrders (aggr_state : Z) (e : E) : result :=
  once (part_ids ≫= λ part_id,
    (λ state_part, work_order b part_id (InitializeAggregationWork aggr_state state_part))
      <$> seq 0 (getNumInitializationPartitions aggr_state part_id e)) e e.

Definition FinalizeAggregationOperator_getAllWorkOrders (aggr_state destination : Z)
    (e : E) : result :=
  once (part_ids ≫= λ part_id,
    (λ state_part,
       work_order b part_id (FinalizeAggregationWork aggr_state state_part destination))
      <$> seq 0 (getNumFinalizationPartitions aggr_state part_id e)) e e.

Definition DestroyAggregationStateOperator_getAllWorkOrders (aggr_state : Z) (e : E)
  : result :=
  once ((λ part_id, work_order b part_id (DestroyAggregationStateWork aggr_state))
          <$> part_ids) e e.

Definition DestroyHashOperator_getAllWorkOrders (hash_table : Z) (e : E) : result :=
  once ((λ part_id, work_order b part_id (DestroyHashWork hash_table)) <$> part_ids) e e.

Definition InsertOperator_getAllWorkOrders (destination : Z) (tuple_indexes : list Z)
    (e : E) : result :=
  once [work_order b 0 (InsertWork destination tuple_indexes)]
    (releaseTuples tuple_indexes e) e.

Definition TableGeneratorOperator_getAllWorkOrders (destination generator : Z) (e : E)
  : result := once [work_order b 0 (TableGeneratorWork generator destination)] e e.

Definition WindowAggregationOperator_getAllWorkOrders (input state destination : Z)
    (e : E) : result :=
  once [work_order b 0 (WindowAggregationWork state (env_getBlocksSnapshot input e) destination)]
    (releaseWindowAggregationState state e) e.

Definition DropTableOperator_getAllWorkOrders (relation : Z) (e : E) : result :=
  once [work_order b 0 (DropTableWork (env_getBlocksSnapshot relation e))]
    (setPendingBlockDeletions e) e.

(** The catalog changes when the operator completes; there is no work. *)
Definition no_work_orders (e : E) : result := ([], true, op, e).

Definition once_getAllWorkOrders (e : E) : result :=
  match oo_class op with
  | InitializeAggregationClass s => InitializeAggregationOperator_getAllWorkOrders s e
  | FinalizeAggregationClass s _ d => FinalizeAggregationOperator_getAllWorkOrders s d e
  | DestroyAggregationStateClass s => DestroyAggregationStateOperator_getAllWorkOrders s e
  | DestroyHashClass h => DestroyHashOperator_getAllWorkOrders h e
  | InsertClass _ d t => InsertOperator_getAllWorkOrders d t e
  | TableGeneratorClass _ d g => TableGeneratorOperator_getAllWorkOrders d g e
  | WindowAggregationClass i _ s d => WindowAggregationOperator_getAllWorkOrders i s d e
  | DropTableClass r _ => DropTableOperator_getAllWorkOrders r e
  | CreateTableClass _ | CreateIndexClass _ => no_work_orders e
  end.

Definition once_updateCatalogOnCompletion (e : E) : E :=
  match oo_class op with
  | DropTableClass r only => complete_drop only r e
  | CreateTableClass r => complete_create r e
  | CreateIndexClass r => complete_index r e
  | _ => e
  end.

Definition once_getInsertDestinationID : Z :=
  match oo_class op with
  | FinalizeAggregationClass _ _ d | InsertClass _ d _ | TableGeneratorClass _ d _
  | WindowAggregationClass _ _ _ d => d
  | _ => -1
  end.

Definition once_getOutputRelationID : Z :=
  match oo_class op with
  | FinalizeAggregationClass _ o _ | InsertClass o _ _ | TableGeneratorClass o _ _
  | WindowAggregationClass _ o _ _ => o
  | _ => -1
  end.

End once.

(** Done after one call, and a second call generates nothing. *)
Lemma once_generate_spec {E} `{!QueryEnvironment E} op (e : E) :
  ∃ ws op' e', once_getAllWorkOrders op e = (ws, true, op', e') ∧
    oo_class op' = oo_class op ∧ oo_base op' = oo_base op ∧
    Forall (λ w, wo_preferred_numa_nodes w = []) ws ∧
    (oo_generated op = true → ws = [] ∧ op' = op ∧ e' = e) ∧
    ∀ e2, once_getAllWorkOrders op' e2 = ([], true, op', e2).
Proof.
  unfold once_getAllWorkOrders, InitializeAggregationOperator_getAllWorkOrders,
    FinalizeAggregationOperator_getAllWorkOrders, DestroyAggregationStateOperator_getAllWorkOrders,
    DestroyHashOperator_getAllWorkOrders, InsertOperator_getAllWorkOrders,
    TableGeneratorOperator_getAllWorkOrders, WindowAggregationOperator_getAllWorkOrders,
    DropTableOperator_getAllWorkOrders, no_work_orders, once.
  destruct op as [bs c g]. cbn.
  assert (∀ (f : nat → nat → OperatorWorkOrder) (n : nat → nat) l,
    (∀ p q, wo_preferred_numa_nodes (f p q) = []) →
    Forall (λ w, wo_preferred_numa_nodes w = []) (l ≫= λ p, f p <$> seq 0 (n p))) as Hb.
  { intros f n l Hf. apply Forall_forall. intros w (p & (q & -> & _)%list_elem_of_fmap & _)%list_elem_of_bind.
    apply Hf. }
  assert (∀ (f : nat → OperatorWorkOrder) l, (∀ p, wo_preferred_numa_nodes (f p) = []) →
    Forall (λ w, wo_preferred_numa_nodes w = []) (f <$> l)) as Hm.
  { intros f l Hf. apply Forall_forall. intros w (p & -> & _)%list_elem_of_fmap. apply Hf. }
  destruct c, g; cbn; do 3 eexists; (split; [reflexivity|]); cbn; split_and!; try done;
    try (constructor; done); repeat constructor; auto.
Qed.
