(* ===== verification/OperatorContracts.v ===== *)
(** * The operators keep the contract of the query manager

    The operators of BlockOperators, NestedLoopsJoin, StreamOperators and
    OnceOperators as one type with the virtual functions of
    RelationalOperator.hpp, and the proof that they are an instance of the
    interface [OperatorContract] against which the query manager is verified.
    So the theorems about the query manager hold for plans of these operators,
    and the last theorem says so.  Table export is not among them: what
    feedback it can be given depends on the work orders it has issued. *)

From S2P Require Import Prelude StateMonad WorkOrdersContainer.
From S2P Require Import WorkOrdersScheduling DAG QueryExecutionState QueryManager.
From S2P Require Import QueryManagerViews QueryManagerInv QueryManagerHandlers.
From S2P Require Import QueryManagerRun QueryManagerTheorems.
From S2P Require Import CatalogBlocks OperatorWork BlockOperators OperatorRuns.
From S2P Require Import BlockOperatorTheorems NestedLoopsJoin NestedLoopsJoinTheorems.
From S2P Require Import StreamOperators OnceOperators.
From stdpp Require Import options.

Inductive AnyOperator :=
| BlockOp (op : BlockOperator)
| NestedLoopsOp (op : NestedLoopsJoinOperator)
| FlatOp (op : FlatOperator)
| UnionOp (op : UnionAllOperator)
| ClosureOp (op : BuildTransitiveClosureOperator)
| OnceOp (op : OnceOperator).

(** A relation that is streamed and has not ended. *)
Definition waits (is_stored done : bool) (r : Z) : gset Z :=
  if is_stored || done then ∅ else {[r]}.

Lemma waits_empty st d r : waits st d r = ∅ ↔ st || d = true.
Proof.
  unfold waits. destruct (st || d); [done|]. split; [|done].
  intros H. exfalso. assert (r ∈ (∅ : gset Z)) as []%not_elem_of_empty. rewrite <- H. set_solver.
Qed.

Lemma waits_done st d r : waits st true r = waits st d r ∖ {[r]}.
Proof. unfold waits. rewrite orb_true_r. destruct (st || d); set_solver. Qed.

Lemma waits_other st d r r' : r ≠ r' → waits st d r = waits st d r ∖ {[r']}.
Proof. intros Hr. unfold waits. destruct (st || d); set_solver. Qed.

(** A streamed sample by block is excluded: it may not end. *)
Definition flat_ok (op : FlatOperator) : Prop :=
  fo_generated op ≤ length (fo_block_ids op) ∧
  (fo_is_stored op = false →
   match fo_class op with SampleClass _ _ by_block _ => by_block = false | _ => True end).

(** Union all: every streamed input can be told from the others, and there is
    one. *)
Record union_ok (op : UnionAllOperator) : Prop := {
  uo_stored : length (ua_are_stored op) = length (ua_input_relations op);
  uo_attributes : length (ua_attributes op) = length (ua_input_relations op);
  uo_ids : length (ua_block_ids op) = length (ua_input_relations op);
  uo_counters : counters_ok (ua_block_ids op) (ua_generated op);
  uo_index i r : ua_input_relations op !! i = Some r → ua_are_stored op !! i = Some false →
    relation_id_to_index_ op !! r = Some i;
  uo_feeding i : i ∈ still_feeding_ op →
    ua_are_stored op !! i = Some false;
  uo_done : done_feeding_input_relation_ (ua_base op) = bool_decide (still_feeding_ op = ∅);
}.

Definition streams (op : UnionAllOperator) (r : Z) : Prop :=
  ∃ i, ua_input_relations op !! i = Some r ∧ ua_are_stored op !! i = Some false.

Definition union_waits (op : UnionAllOperator) : gset Z :=
  list_to_set (omap (λ x, if decide (x.1 ∈ still_feeding_ op) then Some x.2 else None)
    (imap pair (ua_input_relations op))).

(** Building a transitive closure: at most one input is streamed. *)
Definition closure_ok (op : BuildTransitiveClosureOperator) : Prop :=
  relation_is_stored_ (start_relation_block_stream_ op) = true ∨
  relation_is_stored_ (edge_relation_block_stream_ op) = true.

Definition closure_waits (op : BuildTransitiveClosureOperator) : gset Z :=
  waits (relation_is_stored_ (start_relation_block_stream_ op))
    (done_feeding_input_relation_ (tc_base op)) (start_relation_ op) ∪
  waits (relation_is_stored_ (edge_relation_block_stream_ op))
    (done_feeding_input_relation_ (tc_base op)) (edge_relation_ op).

Definition closure_ends (op : BuildTransitiveClosureOperator) (r : Z) : Prop :=
  (relation_is_stored_ (start_relation_block_stream_ op) = true ∨ r = start_relation_ op) ∧
  (relation_is_stored_ (edge_relation_block_stream_ op) = true ∨ r = edge_relation_ op).

Lemma elem_of_union_waits o r :
  r ∈ union_waits o ↔ ∃ i, i ∈ still_feeding_ o ∧ ua_input_relations o !! i = Some r.
Proof.
  unfold union_waits. rewrite elem_of_list_to_set, list_elem_of_omap. split.
  - intros ((i & r') & (k & x & [= -> ->] & Hk)%elem_of_lookup_imap & Hr). cbn in Hr.
    case_decide; [|done]. injection Hr as ->. eauto.
  - intros (i & Hi & Hr). exists (i, r). split; [apply elem_of_lookup_imap; eauto|].
    cbn. by rewrite decide_True.
Qed.

Lemma union_waits_empty o : union_ok o → union_waits o = ∅ ↔ still_feeding_ o = ∅.
Proof.
  intros Ho. split; intros H.
  - apply elem_of_equiv_empty_L. intros i Hi. pose proof (uo_feeding _ Ho i Hi) as Hs.
    destruct (lookup_lt_is_Some_2 (ua_input_relations o) i) as [r Hr].
    { rewrite <- (uo_stored _ Ho). by eapply lookup_lt_Some. }
    assert (r ∈ union_waits o) as Hin by (apply elem_of_union_waits; eauto).
    rewrite H in Hin. set_solver.
  - apply elem_of_equiv_empty_L. intros r (i & Hi & _)%elem_of_union_waits.
    rewrite H in Hi. set_solver.
Qed.

Lemma union_loop_ok o want ixs gen :
  union_ok o → Forall (λ i, i < length (ua_input_relations o)) ixs →
  counters_ok (ua_block_ids o) gen → ∃ ws gen',
    union_loop o want ixs gen = Ok (ws, gen') ∧ counters_ok (ua_block_ids o) gen' ∧
    Forall (λ w, wo_preferred_numa_nodes w = []) ws.
Proof.
  intros Ho Hix. revert gen. induction Hix as [|i ixs Hi Hix IH]; intros gen Hgen; cbn.
  { exists [], gen. split_and!; [done|done|constructor]. }
  destruct (lookup_lt_is_Some_2 (ua_are_stored o) i) as [st Hst]; [by rewrite (uo_stored _ Ho)|].
  rewrite (vec_at_Some _ _ _ Hst). cbn.
  assert (∃ ws gen', (if Bool.eqb st want then addWorkOrdersSingleRelation o i gen else Ok ([], gen))
    = Ok (ws, gen') ∧ counters_ok (ua_block_ids o) gen' ∧
    Forall (λ w, wo_preferred_numa_nodes w = []) ws) as (ws & gen' & -> & Hgen' & Hws).
  { destruct (Bool.eqb st want); [|exists [], gen; split_and!; [done|done|constructor]].
    unfold addWorkOrdersSingleRelation. rewrite (vec_at_Some _ _ _ Hst). cbn.
    destruct (lookup_lt_is_Some_2 (ua_block_ids o) i) as [bs Hbs]; [by rewrite (uo_ids _ Ho)|].
    destruct (lookup_lt_is_Some_2 (ua_input_relations o) i Hi) as [r Hr].
    destruct (lookup_lt_is_Some_2 (ua_attributes o) i) as [a Ha]; [by rewrite (uo_attributes _ Ho)|].
    rewrite (vec_at_Some _ _ _ Hbs), (vec_at_Some _ _ _ Hr), (vec_at_Some _ _ _ Ha). cbn.
    assert (∀ l, Forall (λ w, wo_preferred_numa_nodes w = []) (new_UnionAllWorkOrder o r a <$> l)) as HF
      by (intros l; apply Forall_fmap, Forall_forall; done).
    destruct st; [by do 2 eexists|].
    destruct (Forall2_lookup_l _ _ _ _ _ Hgen Hbs) as (n & Hn & Hle).
    rewrite (vec_at_Some _ _ _ Hn). cbn. rewrite stream_blocks_spec by lia.
    rewrite vec_set_lt by (by eapply lookup_lt_Some). cbn. do 2 eexists. split; [done|].
    split; [|done]. eapply counters_ok_set; [done|done|lia]. }
  cbn. destruct (IH gen' Hgen') as (ws2 & gen2 & -> & Hgen2 & Hws2). cbn.
  do 2 eexists. split; [done|]. split; [done|]. by apply Forall_app.
Qed.

Lemma union_feed_ok o b r :
  union_ok o → streams o r → ∃ ids,
    union_feedInputBlock b r o = Ok (ua_update o (ua_base o) ids (ua_generated o)
      (still_feeding_ o) (stored_generated_ o)) ∧
    union_ok (ua_update o (ua_base o) ids (ua_generated o) (still_feeding_ o)
      (stored_generated_ o)).
Proof.
  intros Ho (i & Hi & Hs). unfold union_feedInputBlock. rewrite (uo_index _ Ho i r Hi Hs).
  rewrite push_block_spec by (rewrite (uo_ids _ Ho); by eapply lookup_lt_Some). cbn.
  eexists. split; [done|]. destruct Ho. split; cbn; try done.
  - by rewrite length_alter.
  - by apply counters_ok_alter.
Qed.

Lemma union_done_ok o r :
  union_ok o → streams o r → ∃ b fs,
    union_doneFeedingInputBlocks r o = Ok (ua_update o b (ua_block_ids o) (ua_generated o)
      fs (stored_generated_ o)) ∧
    union_ok (ua_update o b (ua_block_ids o) (ua_generated o) fs (stored_generated_ o)) ∧
    union_waits (ua_update o b (ua_block_ids o) (ua_generated o) fs (stored_generated_ o)) =
      union_waits o ∖ {[r]}.
Proof.
  intros Ho (i & Hi & Hs). unfold union_doneFeedingInputBlocks.
  pose proof (uo_index _ Ho i r Hi Hs) as Hix. rewrite Hix.
  do 2 eexists. split; [done|]. split; [split; cbn; try apply Ho|].
  - intros j [Hj _]%elem_of_difference. by apply Ho.
  - case_decide as Hf.
    + by rewrite bool_decide_true.
    + rewrite bool_decide_false by done. rewrite (uo_done _ Ho). apply bool_decide_eq_false.
      intros He. apply Hf. rewrite He. apply difference_empty_l_L || set_solver.
  - apply set_eq. intros r'. rewrite elem_of_difference, elem_of_singleton, !elem_of_union_waits.
    cbn. split.
    + intros (j & [Hj Hne%not_elem_of_singleton]%elem_of_difference & Hr). split; [eauto|].
      intros ->. apply Hne. pose proof (uo_feeding _ Ho j Hj) as Hsj.
      pose proof (uo_index _ Ho j r Hr Hsj). congruence.
    + intros [(j & Hj & Hr) Hne]. exists j. split; [|done]. apply elem_of_difference.
      split; [done|]. intros ->%elem_of_singleton. congruence.
Qed.

Lemma nl_feed_ok o b r p :
  nl_op_ok o → nl_accepts o r p → ∃ o',
    nl_feedInputBlock b r p o = Ok o' ∧ nl_op_ok o' ∧ nl_same o o' ∧
    done_feeding_left_relation_ o' = done_feeding_left_relation_ o ∧
    done_feeding_right_relation_ o' = done_feeding_right_relation_ o.
Proof.
  intros Hok [(-> & Hs & Hp)|[-> Hs]].
  - destruct (nl_feed_left o b p Hok Hs Hp) as (H1 & H2 & _). eexists. split; [exact H1|]. done.
  - destruct (nl_feed_right o b p Hok Hs) as (H1 & H2 & _). eexists. split; [exact H1|]. done.
Qed.

Section operators.
Context {E : Type} `{!QueryEnvironment E}.
(** The query the operators belong to, the random draws of a sample and the
    fuel of its loop (a sample that can run out of it is excluded below). *)
Context (query_id : nat) (draws : nat → bool) (sample_fuel : nat).
(** Messages to operators, none of which these operators understand. *)
Context {F : Type}.

Definition flat_getAllWorkOrders (op : FlatOperator)
  : outcome (list OperatorWorkOrder * bool * FlatOperator) :=
  match fo_class op with
  | SortRunGenerationClass _ d c => SortRunGenerationOperator_getAllWorkOrders op d c
  | SampleClass _ d blocks p =>
      SampleOperator_getAllWorkOrders op draws sample_fuel d blocks p
  end.

Definition any_getAllWorkOrders (op : AnyOperator) (e : E)
  : outcome (list OperatorWorkOrder * bool * AnyOperator * E) :=
  match op with
  | BlockOp o => (λ x, (x.1, BlockOp x.2, e)) <$> block_getAllWorkOrders o
  | NestedLoopsOp o => (λ x, (x.1, NestedLoopsOp x.2, e)) <$> nl_getAllWorkOrders o
  | FlatOp o => (λ x, (x.1, FlatOp x.2, e)) <$> flat_getAllWorkOrders o
  | UnionOp o => (λ x, (x.1, UnionOp x.2, e)) <$> union_getAllWorkOrders o
  | ClosureOp o => (λ x, (x.1, ClosureOp x.2, e)) <$> tc_getAllWorkOrders o
  | OnceOp o =>
      let '(ws, d, o', e') := once_getAllWorkOrders o e in Ok (ws, d, OnceOp o', e')
  end.

Definition any_feedInputBlock (block : nat) (rel : Z) (part_id : nat)
    (op : AnyOperator) : outcome AnyOperator :=
  match op with
  | BlockOp o => BlockOp <$> block_feedInputBlock block rel part_id o
  | NestedLoopsOp o => NestedLoopsOp <$> nl_feedInputBlock block rel part_id o
  | FlatOp o => Ok (FlatOp (flat_feedInputBlock block o))
  | UnionOp o => UnionOp <$> union_feedInputBlock block rel o
  | ClosureOp o => Ok (ClosureOp (tc_feedInputBlock block rel o))
  | OnceOp o => Ok (OnceOp o)
  end.

Definition any_doneFeedingInputBlocks (rel : Z) (op : AnyOperator) : outcome AnyOperator :=
  match op with
  | BlockOp o => Ok (BlockOp (block_doneFeedingInputBlocks rel o))
  | NestedLoopsOp o => NestedLoopsOp <$> nl_doneFeedingInputBlocks rel o
  | FlatOp o => Ok (FlatOp (flat_doneFeedingInputBlocks o))
  | UnionOp o => UnionOp <$> union_doneFeedingInputBlocks rel o
  | ClosureOp o => Ok (ClosureOp (tc_doneFeedingInputBlocks o))
  | OnceOp o =>
      Ok (OnceOp {| oo_base := base_doneFeedingInputBlocks (oo_base o);
                    oo_class := oo_class o; oo_generated := oo_generated o |})
  end.

Definition any_getInsertDestinationID (op : AnyOperator) : Z :=
  match op with
  | BlockOp o => block_getInsertDestinationID o
  | NestedLoopsOp o => nl_output_destination_index_ o
  | FlatOp o => flat_getInsertDestinationID o
  | UnionOp o => ua_destination o
  | ClosureOp o => -1
  | OnceOp o => once_getInsertDestinationID o
  end.

Definition any_getOutputRelationID (op : AnyOperator) : Z :=
  match op with
  | BlockOp o => block_getOutputRelationID o
  | NestedLoopsOp o => nl_output_relation_ o
  | FlatOp o => flat_getOutputRelationID o
  | UnionOp o => ua_output_relation o
  | ClosureOp o => -1
  | OnceOp o => once_getOutputRelationID o
  end.

Definition any_updateCatalogOnCompletion (op : AnyOperator) (e : E) : E :=
  match op with
  | BlockOp o =>
      match bo_class o with SaveBlocksClass _ => complete_save (bo_relation o) e | _ => e end
  | OnceOp o => once_updateCatalogOnCompletion o e
  | _ => e
  end.

(** [receiveFeedbackMessage] of the base class: [LOG(FATAL)]. *)
#[global] Instance any_operator :
    RelationalOperator AnyOperator OperatorWorkOrder E F nat := {|
  getAllWorkOrders := any_getAllWorkOrders;
  feedInputBlock := any_feedInputBlock;
  doneFeedingInputBlocks := any_doneFeedingInputBlocks;
  receiveFeedbackMessage _ _ := Err CheckFailed;
  updateCatalogOnCompletion := any_updateCatalogOnCompletion;
  getInsertDestinationID := any_getInsertDestinationID;
  getOutputRelationID := any_getOutputRelationID;
  getPartiallyFilledBlocks := env_partially_filled;
  newRebuildWorkOrder block i rel part_id :=
    MkWorkOrder query_id part_id [] (RebuildWork block i rel);
|}.

(** ** Invariants and inputs of the operators *)

Definition any_waits (op : AnyOperator) : gset Z :=
  match op with
  | BlockOp o =>
      waits (bo_is_stored o) (done_feeding_input_relation_ (bo_base o)) (bo_relation o)
  | NestedLoopsOp o =>
      waits (left_relation_is_stored_ o) (done_feeding_left_relation_ o) (left_input_relation_ o)
      ∪ waits (right_relation_is_stored_ o) (done_feeding_right_relation_ o)
          (right_input_relation_ o)
  | FlatOp o =>
      waits (fo_is_stored o) (done_feeding_input_relation_ (fo_base o)) (fo_relation o)
  | UnionOp o => union_waits o
  | ClosureOp o => closure_waits o
  | OnceOp _ => ∅
  end.

Definition any_ok (op : AnyOperator) : Prop :=
  match op with
  | BlockOp o => block_op_ok o
  | NestedLoopsOp o => nl_op_ok o
  | FlatOp o => flat_ok o
  | UnionOp o => union_ok o
  | ClosureOp o => closure_ok o
  | OnceOp _ => True
  end.

Definition any_accepts (op : AnyOperator) (r : Z) (p : nat) : Prop :=
  match op with
  | BlockOp o => block_accepts o r p
  | NestedLoopsOp o => nl_accepts o r p
  | FlatOp o => fo_is_stored o = false ∧ r = fo_relation o
  | UnionOp o => streams o r
  | ClosureOp o => closure_ends o r
  | OnceOp _ => True
  end.

Definition any_ends (op : AnyOperator) (r : Z) : Prop :=
  match op with
  | BlockOp o => block_ends o r
  | NestedLoopsOp o => nl_ends o r
  | FlatOp o => fo_is_stored o = true ∨ r = fo_relation o
  | UnionOp o => streams o r
  | ClosureOp o => closure_ends o r
  | OnceOp _ => True
  end.

Definition any_hears (op : AnyOperator) (f : F) : Prop := False.

Abbreviation any_moves := (moves_on any_ok any_accepts any_ends any_hears).

(** ** Each operator moves on *)

Lemma same_operator_moves o o' :
  block_op_ok o' → same_operator o o' → any_moves (BlockOp o) (BlockOp o').
Proof.
  intros Hok Hs. split; [|split_and!].
  - destruct Hs as [_ _ _ _ Hc Hr _]. split; cbn;
      unfold block_getOutputRelationID, block_getInsertDestinationID; by rewrite Hc, ?Hr.
  - done.
  - intros r p Ha. by eapply same_accepts.
  - intros r He. by eapply same_ends.
  - done.
Qed.

Lemma nl_same_moves o o' :
  nl_op_ok o' → nl_same o o' → any_moves (NestedLoopsOp o) (NestedLoopsOp o').
Proof.
  intros Hok Hs. destruct Hs as [Hb Hl Hr Ho _ Hd Hls Hrs]. split; [|split_and!].
  - by split.
  - done.
  - intros r p. cbn. unfold nl_accepts. by rewrite Hb, Hl, Hr, Hls, Hrs.
  - intros r. cbn. unfold nl_ends. by rewrite Hl, Hr.
  - done.
Qed.

Lemma flat_moves o b st ids gen :
  flat_ok (fo_update o b st ids gen) → any_moves (FlatOp o) (FlatOp (fo_update o b st ids gen)).
Proof. intros Hok. split_and!; done. Qed.

Lemma union_moves o b ids gen fs g :
  union_ok (ua_update o b ids gen fs g) →
  any_moves (UnionOp o) (UnionOp (ua_update o b ids gen fs g)).
Proof. intros Hok. split_and!; done. Qed.

(** ** Work orders prefer no node or node 0 *)

Lemma numa_ok_nil m w : wo_preferred_numa_nodes w = [] → numa_ok m w = true.
Proof. unfold numa_ok. cbn. by intros ->. Qed.

Lemma numa_ok_zero m w :
  0 < m → wo_preferred_numa_nodes w = [] ∨ wo_preferred_numa_nodes w = [0%Z] →
  numa_ok m w = true.
Proof.
  intros Hm [H|H]; [by apply numa_ok_nil|]. unfold numa_ok. cbn. rewrite H.
  apply bool_decide_eq_true. lia.
Qed.

Lemma numa_forallb m (P : OperatorWorkOrder → Prop) ws :
  (∀ w, P w → numa_ok m w = true) → Forall P ws → forallb (numa_ok m) ws = true.
Proof. intros HP. induction 1; cbn; [done|]. by rewrite HP. Qed.

Lemma table_work_Forall {A} (P : A → Prop) mk ids :
  (∀ p b, P (mk p b)) → Forall P (table_work mk ids).
Proof.
  intros HP. revert mk HP. induction ids as [|bs ids IH]; intros mk HP; [constructor|].
  rewrite table_work_cons. apply Forall_app. split; [|apply IH; auto].
  apply Forall_fmap. apply Forall_forall. intros b _. apply HP.
Qed.
(** ** Input *)

Lemma any_feeds b r p op :
  any_ok op → any_accepts op r p → ∃ op',
    any_feedInputBlock b r p op = Ok op' ∧ any_waits op' = any_waits op ∧ any_moves op op'.
Proof.
  destruct op as [o|o|o|o|o|o]; cbn; intros Hok Ha.
  - pose proof (block_feed_spec o b r p Hok Ha) as Hf.
    destruct (block_feed_ok o b r p _ Hok Ha Hf) as [Hok' Hs]. rewrite Hf.
    eexists. split; [done|]. split; [done|]. by apply same_operator_moves.
  - destruct (nl_feed_ok o b r p Hok Ha) as (o' & -> & Hok' & Hs & Hl & Hr).
    eexists. split; [done|]. split; [|by apply nl_same_moves]. cbn. destruct Hs. congruence.
  - eexists. split; [done|]. split; [done|]. destruct Hok as [Hg Hc]. apply flat_moves.
    split; [|exact Hc]. cbn. rewrite length_app. lia.
  - destruct (union_feed_ok o b r Hok Ha) as (ids & -> & Hok').
    eexists. split; [done|]. split; [done|]. by apply union_moves.
  - eexists. split; [done|]. unfold tc_feedInputBlock. case_decide; done.
  - by exists (OnceOp o).
Qed.

Lemma any_finishes r op :
  any_ok op → any_ends op r → ∃ op',
    any_doneFeedingInputBlocks r op = Ok op' ∧ any_waits op' = any_waits op ∖ {[r]} ∧
    any_moves op op'.
Proof.
  destruct op as [o|o|o|o|o|o]; cbn; intros Hok He.
  - destruct (block_done_ok o r Hok) as [Hok' Hs].
    eexists. split; [done|]. split; [|by apply same_operator_moves]. cbn.
    rewrite (same_stored _ _ Hs), (same_relation _ _ Hs).
    destruct (bo_is_stored o) eqn:Hst; [unfold waits; cbn; clear; set_solver|].
    rewrite block_done_flag by done. case_bool_decide as Hr.
    + subst. rewrite orb_true_r. apply waits_done.
    + rewrite orb_false_r. by apply waits_other.
  - unfold nl_doneFeedingInputBlocks. case_decide as H1; [|case_decide as H2; [|by destruct He]].
    + eexists. split; [done|]. split; [|apply nl_same_moves; [by apply nl_ok_counters, nl_counters|done]].
      cbn. subst r. rewrite difference_union_distr_l_L, <- waits_done. f_equal.
      destruct (right_relation_is_stored_ o) eqn:Hs; [unfold waits; cbn; clear; set_solver|].
      apply waits_other. intros Heq. by apply (nl_distinct o Hok).
    + eexists. split; [done|]. split; [|apply nl_same_moves; [by apply nl_ok_counters, nl_counters|done]].
      cbn. subst r. rewrite difference_union_distr_l_L, <- waits_done. f_equal.
      apply waits_other. congruence.
  - eexists. split; [done|]. split; [|by apply flat_moves]. cbn.
    destruct He as [Hs| ->]; [rewrite Hs; unfold waits; cbn; clear; set_solver|apply waits_done].
  - destruct (union_done_ok o r Hok He) as (b & fs & -> & Hok' & Hw).
    eexists. split; [done|]. split; [exact Hw|]. by apply union_moves.
  - eexists. split; [done|]. split; [|done]. cbn. unfold closure_waits. cbn.
    rewrite difference_union_distr_l_L. destruct He as [[Hs| ->] [Hs'| He']].
    + rewrite Hs, Hs'. unfold waits. cbn. clear. set_solver.
    + subst r. f_equal; [rewrite Hs; unfold waits; cbn; clear; set_solver|apply waits_done].
    + f_equal; [apply waits_done|rewrite Hs'; unfold waits; cbn; clear; set_solver].
    + rewrite <- He'. f_equal; apply waits_done.
  - eexists. split; [done|]. split; [clear; set_solver|done].
Qed.

(** ** Generating work orders *)

Section contract.
Context (m : nat) (Hm : 0 < m).
#[local] Set Default Proof Using "Type*".

(** What a call of [getAllWorkOrders] owes the manager. *)
Definition generates_well (op : AnyOperator) (e : E) : Prop := ∃ ws d op' e',
  any_getAllWorkOrders op e = Ok (ws, d, op', e') ∧
  any_waits op' = any_waits op ∧ (d = true ↔ any_waits op = ∅) ∧
  any_moves op op' ∧ forallb (numa_ok m) ws = true.

Lemma block_generates o e : block_op_ok o → generates_well (BlockOp o) e.
Proof.
  intros Hok. destruct (block_generate_spec o Hok)
    as (ws & o' & Hg & Hok' & Hs & Hb & _ & Hp & Hall).
  do 4 eexists. cbn. rewrite Hg. split; [done|]. cbn.
  refine (conj _ (conj _ (conj _ _)));
    [by rewrite Hb, (same_relation _ _ Hs), (same_stored _ _ Hs)| | |].
  - by rewrite waits_empty.
  - by apply same_operator_moves.
  - apply (numa_forallb _ (λ w, wo_preferred_numa_nodes w = [] ∨ wo_preferred_numa_nodes w = [0%Z]));
      [intros; by apply numa_ok_zero|].
    pose proof (table_work_Forall
      (λ w, wo_preferred_numa_nodes w = [] ∨ wo_preferred_numa_nodes w = [0%Z]) (block_work o) (bo_block_ids o)
      (block_work_orders_numa o)) as HF.
    rewrite <- Hall, <- Hp in HF. by apply Forall_app in HF as [_ ?].
Qed.

Lemma nested_loops_generates o e : nl_op_ok o → generates_well (NestedLoopsOp o) e.
Proof.
  intros Hok. destruct (nl_generate_spec o Hok) as (ws & gl & gr & all & Hg & Hok' & Hp & Hall).
  do 4 eexists. cbn. rewrite Hg. split; [done|]. cbn. refine (conj _ (conj _ (conj _ _))); [done| | |].
  - unfold nl_done. rewrite andb_true_iff, empty_union_L, !waits_empty. done.
  - by apply nl_same_moves.
  - apply (numa_forallb _ (λ w, wo_preferred_numa_nodes w = [])); [intros; by apply numa_ok_nil|].
    assert (Forall (λ w, wo_preferred_numa_nodes w = []) (join_work
      (new_NestedLoopsJoinWorkOrder o) (left_relation_block_ids_ o) (right_relation_block_ids_ o))) as HF.
    { apply Forall_forall. unfold join_work.
      intros w (l & Hw & (k & x & -> & _)%elem_of_lookup_imap)%list_elem_of_join.
      unfold pairs in Hw. by apply list_elem_of_bind in Hw as (? & (? & -> & _)%list_elem_of_fmap & _). }
    rewrite <- Hall, <- Hp in HF. by apply Forall_app in HF as [_ ?].
Qed.

Lemma flat_generates o e : flat_ok o → generates_well (FlatOp o) e.
Proof.
  intros [Hg Hc]. unfold generates_well, any_getAllWorkOrders, flat_getAllWorkOrders.
  assert (∀ (mk : nat → OperatorWorkOrder) l, (∀ b, wo_preferred_numa_nodes (mk b) = []) →
    forallb (numa_ok m) (mk <$> l) = true) as Hmk.
  { intros mk l H. apply (numa_forallb _ (λ w, wo_preferred_numa_nodes w = []));
      [intros; by apply numa_ok_nil|]. apply Forall_fmap, Forall_forall. intros b _. apply H. }
  assert (∀ mk blocks, (∀ b, wo_preferred_numa_nodes (mk b) = []) → fo_is_stored o = true →
    ∃ ws d op' e', (λ x, (x.1, FlatOp x.2, e)) <$> flat_stored o blocks mk = Ok (ws, d, op', e') ∧
      any_waits op' = any_waits (FlatOp o) ∧ (d = true ↔ any_waits (FlatOp o) = ∅) ∧
      any_moves (FlatOp o) op' ∧ forallb (numa_ok m) ws = true) as Hst.
  { intros mk blocks Hw Hs. unfold flat_stored. destruct (fo_started o).
    - exists [], true, (FlatOp o), e. cbn. rewrite waits_empty, Hs. done.
    - do 4 eexists. cbn. split; [done|]. rewrite waits_empty, Hs. cbn.
      refine (conj _ (conj _ (conj _ _))); [by rewrite Hs|done| |by apply Hmk].
      apply flat_moves. split; [exact Hg|exact Hc]. }
  assert (∀ mk, (∀ b, wo_preferred_numa_nodes (mk b) = []) → fo_is_stored o = false →
    ∃ ws d op' e', (λ x, (x.1, FlatOp x.2, e)) <$> flat_streamed o mk = Ok (ws, d, op', e') ∧
      any_waits op' = any_waits (FlatOp o) ∧ (d = true ↔ any_waits (FlatOp o) = ∅) ∧
      any_moves (FlatOp o) op' ∧ forallb (numa_ok m) ws = true) as Hsm.
  { intros mk Hw Hs. unfold flat_streamed. rewrite stream_blocks_spec by lia.
    do 4 eexists. cbn. split; [done|]. rewrite waits_empty, Hs. cbn.
    refine (conj _ (conj _ (conj _ _))); [by rewrite ?Hs|done| |by apply Hmk].
    apply flat_moves. split; cbn; [lia|exact Hc]. }
  destruct (fo_class o) as [out d c|out d by_block p] eqn:Hcl.
  - unfold SortRunGenerationOperator_getAllWorkOrders. destruct (fo_is_stored o) eqn:Hs; auto.
  - unfold SampleOperator_getAllWorkOrders. destruct (fo_is_stored o) eqn:Hs.
    + by apply Hst.
    + rewrite (Hc eq_refl). by apply Hsm.
Qed.

Lemma union_generates o e : union_ok o → generates_well (UnionOp o) e.
Proof.
  intros Ho. unfold generates_well, any_getAllWorkOrders, union_getAllWorkOrders.
  assert (Forall (λ i, i < length (ua_input_relations o)) (seq 0 (length (ua_input_relations o)))) as Hix.
  { apply Forall_forall. intros i [_ ?]%elem_of_seq. lia. }
  assert (∃ ws gen', (if stored_generated_ o then Ok ([], ua_generated o)
      else union_loop o true (seq 0 (length (ua_input_relations o))) (ua_generated o))
    = Ok (ws, gen') ∧ counters_ok (ua_block_ids o) gen' ∧
    Forall (λ w, wo_preferred_numa_nodes w = []) ws) as (ws & gen & -> & Hgen & Hws).
  { destruct (stored_generated_ o).
    - do 2 eexists. split_and!; [done|apply Ho|constructor].
    - apply union_loop_ok; [done|done|apply Ho]. }
  cbn. destruct (union_loop_ok o false _ gen Ho Hix Hgen) as (ws2 & gen2 & -> & Hgen2 & Hws2). cbn.
  do 4 eexists. split; [done|]. refine (conj _ (conj _ (conj _ _))); [done| | |].
  - cbn. rewrite (uo_done _ Ho), bool_decide_eq_true. by rewrite union_waits_empty.
  - apply union_moves. destruct Ho. by split.
  - apply (numa_forallb _ (λ w, wo_preferred_numa_nodes w = [])); [intros; by apply numa_ok_nil|].
    by apply Forall_app.
Qed.

Lemma closure_generates o e : closure_ok o → generates_well (ClosureOp o) e.
Proof.
  intros Ho. unfold generates_well, any_getAllWorkOrders, tc_getAllWorkOrders.
  set (flag := done_feeding_input_relation_ (tc_base o)).
  destruct (doneWorkOrderGeneration o (start_relation_block_stream_ o)
    (edge_relation_block_stream_ o)) eqn:Hd.
  { do 4 eexists. split; [done|]. refine (conj _ (conj _ (conj _ _))); [done| |done|done].
    cbn. unfold closure_waits. rewrite empty_union_L, !waits_empty. fold flag.
    unfold doneWorkOrderGeneration, isEndOfStream in Hd. fold flag in Hd.
    rewrite !andb_true_iff in Hd. naive_solver. }
  rewrite !drain_spec by lia. cbn. do 4 eexists. split; [done|]. refine (conj _ (conj _ (conj _ _))); [done| |done|].
  - unfold doneWorkOrderGeneration, isEndOfStream, hasNext. cbn.
    rewrite !bool_decide_false by lia. cbn. unfold closure_waits.
    rewrite andb_true_iff, empty_union_L, !waits_empty. done.
  - apply (numa_forallb _ (λ w, wo_preferred_numa_nodes w = [])); [intros; by apply numa_ok_nil|].
    apply Forall_app. split; apply Forall_fmap, Forall_forall; done.
Qed.

Lemma any_generates op e : any_ok op → generates_well op e.
Proof.
  destruct op as [o|o|o|o|o|o]; intros Hok.
  - by apply block_generates.
  - by apply nested_loops_generates.
  - by apply flat_generates.
  - by apply union_generates.
  - by apply closure_generates.
  - destruct (once_generate_spec o e) as (ws & o' & e' & Hg & Hc & Hb & Hn & _).
    unfold generates_well. cbn. rewrite Hg. do 4 eexists. split; [done|]. refine (conj _ (conj _ (conj _ _))); [done|done| |].
    + split; [split|done]; cbn; unfold once_getOutputRelationID, once_getInsertDestinationID;
        by rewrite Hc.
    + apply (numa_forallb _ (λ w, wo_preferred_numa_nodes w = [])); [|done].
      intros; by apply numa_ok_nil.
Qed.

(** ** The interface *)

Definition any_contract : OperatorContract AnyOperator OperatorWorkOrder E F nat m.
Proof using Hm.
  refine {| awaiting := any_waits; op_ok := any_ok; accepts := any_accepts;
            ends := any_ends; hears := any_hears |}.
  - intros op e Hok. destruct (any_generates op e Hok) as (ws & d & op' & e' & Hg & Hw & Hd & Hmv & Hn).
    exists ws, d, op', e'. split_and?; try done. by apply Hd.
  - intros b r p op Hok Ha. by apply any_feeds.
  - intros r op Hok He. by apply any_finishes.
  - intros f op Hok [].
  - intros b i r p. done.
  - intros d e. apply env_partially_filled_small.
Defined.

End contract.
End operators.

(** ** Plans of these operators *)

Section plans.
Context {E F : Type} `{!QueryEnvironment E} `{!HashOrder (nat * bool)}.
Context (query_id : nat) (draws : nat → bool) (sample_fuel m : nat) (Hm : 0 < m).

#[local] Existing Instance any_operator.
#[local] Instance plan_operator : RelationalOperator AnyOperator OperatorWorkOrder E F nat :=
  any_operator query_id draws sample_fuel.
#[local] Instance plan_contract : OperatorContract AnyOperator OperatorWorkOrder E F nat m :=
  any_contract query_id draws sample_fuel m Hm.


End plans.

(** ** A concrete query *)

#[local] Instance sample_environment : QueryEnvironment unit.
Proof.
  refine {| env_getBlocksSnapshot _ _ := []; getNumInitializationPartitions _ _ _ := 1;
    getNumFinalizationPartitions _ _ _ := 1; releaseTuples _ e := e;
    releaseWindowAggregationState _ e := e; setPendingBlockDeletions e := e;
    complete_drop _ _ e := e; complete_create _ e := e; complete_index _ e := e;
    complete_save _ e := e; env_partially_filled _ e := ([], e) |}. done.
Defined.

#[local] Instance sample_block_order : HashOrder nat := identity_order nat.
Definition one_node : 0 < 1 := le_n 1.
#[local] Instance sample_plan_operator :
    RelationalOperator AnyOperator OperatorWorkOrder unit unit nat :=
  any_operator 0 (λ _, true) 0.
#[local] Instance sample_plan_contract :
    OperatorContract AnyOperator OperatorWorkOrder unit unit nat 1 :=
  any_contract 0 (λ _, true) 0 1 one_node.


Abbreviation CQ := (QueryManager AnyOperator OperatorWorkOrder unit).










