(* ===== verification/MergeTree.v ===== *)
(** * The merge tree of an external sort

    Models [MergeTree] of relational_operators/SortMergeRunOperatorHelpers.{hpp,cpp}
    and the operator SortMergeRunOperator of
    relational_operators/SortMergeRunOperator.{hpp,cpp}: runs of blocks are
    merged level by level, at most [merge_factor_] at a time; a level is closed
    with a smaller merge when all the runs expected in it have arrived.  While
    the input is streamed the number of runs is not known, and only full merges
    of the first level are scheduled.  Members that hold numbers of runs or a
    level that may be unknown are [N], with [kFinalLevelUninitialized] the
    largest [std::size_t]. *)

From S2P Require Import Prelude CatalogBlocks OperatorWork.
From stdpp Require Import options.

(** [typedef std::vector<block_id> Run] *)
Abbreviation Run := (list nat).

Record MergeJob := {
  job_runs : list Run;
  job_level : nat;
  is_final_level : bool;
}.

Record MergeTree := {
  runs_scheduled_ : list N;
  runs_expected_ : list N;
  pending_ : list (list Run);
  num_levels_ : nat;
  final_level_ : N;
  cur_level_ : nat;
  merge_factor_ : nat;
}.

Definition kFinalLevelUninitialized : N := (2 ^ 64 - 1)%N.

(** The members other than the vectors are not initialized. *)
Definition new_MergeTree (merge_factor : nat) : MergeTree :=
  {| runs_scheduled_ := []; runs_expected_ := []; pending_ := []; num_levels_ := 0;
     final_level_ := 0; cur_level_ := 0; merge_factor_ := merge_factor |}.

(** The loop of [initializeTree]: the numbers of runs of the levels above one
    with [n] runs; each is at most half of the one before, so [N.size_nat n]
    levels suffice. *)
Fixpoint expected_levels (fuel : nat) (m n : N) : outcome (list N) :=
  if (m <? n)%N then
    match fuel with
    | 0 => Err OutOfFuel
    | S fuel' =>
        let n' := ((n + m - 1) / m)%N in
        rest ← expected_levels fuel' m n';
        mret (n' :: rest)
    end
  else Ok [].

(** [v.resize(n, x)] *)
Definition vec_resize {A} (n : nat) (x : A) (v : list A) : list A :=
  take n v ++ replicate (n - length v) x.

Definition initializeTree (initial_runs : N) (t : MergeTree) : outcome MergeTree :=
  above ← expected_levels (N.size_nat initial_runs) (N.of_nat (merge_factor_ t)) initial_runs;
  let expected := initial_runs :: above in
  mret {| runs_scheduled_ := vec_resize (length expected) 0%N (runs_scheduled_ t);
          runs_expected_ := expected;
          pending_ := vec_resize (S (length expected)) [] (pending_ t);
          num_levels_ := length expected;
          final_level_ := N.of_nat (length expected - 1);
          cur_level_ := 0;
          merge_factor_ := merge_factor_ t |}.

Definition initializeForPipeline (t : MergeTree) : MergeTree :=
  {| runs_scheduled_ := runs_scheduled_ t ++ [0%N];
     runs_expected_ := runs_expected_ t ++ [kFinalLevelUninitialized];
     pending_ := pending_ t ++ [[]; []];
     num_levels_ := 1;
     final_level_ := kFinalLevelUninitialized;
     cur_level_ := 0;
     merge_factor_ := merge_factor_ t |}.

Definition checkAndFixFinalMerge (t : MergeTree) : outcome MergeTree :=
  expected ← vec_at (runs_expected_ t) 0;
  scheduled ← vec_at (runs_scheduled_ t) 0;
  let m := N.of_nat (merge_factor_ t) in
  if ((expected =? m) && (scheduled =? m))%N then
    mret {| runs_scheduled_ := runs_scheduled_ t ++ [0%N];
            runs_expected_ := runs_expected_ t ++ [1%N];
            pending_ := pending_ t ++ [[]];
            num_levels_ := S (num_levels_ t);
            final_level_ := final_level_ t + 1;
            cur_level_ := cur_level_ t;
            merge_factor_ := merge_factor_ t |}
  else mret t.

Definition set_pending (p : list (list Run)) (t : MergeTree) : MergeTree :=
  {| runs_scheduled_ := runs_scheduled_ t; runs_expected_ := runs_expected_ t;
     pending_ := p; num_levels_ := num_levels_ t; final_level_ := final_level_ t;
     cur_level_ := cur_level_ t; merge_factor_ := merge_factor_ t |}.

(** [pending_[level].emplace_back(run)] *)
Definition push_run (level : nat) (run : Run) (t : MergeTree) : outcome MergeTree :=
  runs ← vec_at (pending_ t) level;
  p ← vec_set (pending_ t) level (runs ++ [run]);
  mret (set_pending p t).

(** A run per block. *)
Fixpoint addInputBlocks (blocks : list nat) (t : MergeTree) : outcome MergeTree :=
  match blocks with
  | [] => Ok t
  | b :: blocks' => t' ← push_run 0 [b] t; addInputBlocks blocks' t'
  end.

Definition writeOutputRun (merge_level : nat) (output_run : Run)
  : MergeTree → outcome MergeTree := push_run (S merge_level) output_run.

(** [getRuns]: the last [num_runs] runs, from the back. *)
Definition getRuns (num_runs : nat) (runs : list Run) : list Run * list Run :=
  let k := length runs - num_runs in (reverse (drop k runs), take k runs).

(** The [while] of one level: the jobs, the runs scheduled and the runs left.
    Every iteration takes a run, so [runs.size()] iterations suffice. *)
Fixpoint level_jobs (fuel : nat) (m : nat) (level : nat) (is_final : bool)
    (scheduled expected : N) (runs : list Run)
  : outcome (list MergeJob * N * list Run) :=
  let available := length runs in
  if bool_decide (m ≤ available) ||
     (bool_decide (available ≠ 0) && (N.of_nat available + scheduled =? expected)%N)
  then
    match fuel with
    | 0 => Err OutOfFuel
    | S fuel' =>
        let merge_size := available `min` m in
        let '(taken, rest) := getRuns merge_size runs in
        x ← level_jobs fuel' m level is_final (scheduled + N.of_nat merge_size) expected rest;
        mret ({| job_runs := taken; job_level := level; is_final_level := is_final |} :: x.1.1,
              x.1.2, x.2)
    end
  else Ok ([], scheduled, runs).

(** The loop over the levels. *)
Fixpoint merge_levels (levels : list nat) (t : MergeTree)
  : outcome (list MergeJob * MergeTree) :=
  match levels with
  | [] => Ok ([], t)
  | level :: levels' =>
      expected ← vec_at (runs_expected_ t) level;
      scheduled ← vec_at (runs_scheduled_ t) level;
      x ← (if (scheduled <? expected)%N then
             runs ← vec_at (pending_ t) level;
             y ← level_jobs (length runs) (merge_factor_ t) level
                   (N.of_nat level =? final_level_ t)%N scheduled expected runs;
             s ← vec_set (runs_scheduled_ t) level (y.1.2);
             p ← vec_set (pending_ t) level (y.2);
             mret (y.1.1, {| runs_scheduled_ := s; runs_expected_ := runs_expected_ t;
                             pending_ := p; num_levels_ := num_levels_ t;
                             final_level_ := final_level_ t; cur_level_ := cur_level_ t;
                             merge_factor_ := merge_factor_ t |})
           else
             mret ([], {| runs_scheduled_ := runs_scheduled_ t;
                          runs_expected_ := runs_expected_ t;
                          pending_ := pending_ t; num_levels_ := num_levels_ t;
                          final_level_ := final_level_ t; cur_level_ := S (cur_level_ t);
                          merge_factor_ := merge_factor_ t |}));
      rest ← merge_levels levels' x.2;
      mret (x.1 ++ rest.1, rest.2)
  end.

Definition getMergeJobs (t : MergeTree) : outcome (list MergeJob * bool * MergeTree) :=
  x ← merge_levels (seq (cur_level_ t) (num_levels_ t - cur_level_ t)) t;
  let t' := x.2 in
  if (final_level_ t' =? kFinalLevelUninitialized)%N then Ok (x.1, false, t')
  else
    scheduled ← vec_at (runs_scheduled_ t') (N.to_nat (final_level_ t'));
    expected ← vec_at (runs_expected_ t') (N.to_nat (final_level_ t'));
    mret (x.1, (scheduled =? expected)%N, t').

(** ** The operator *)

Record SortMergeRunOperator := {
  sm_base : OperatorBase;
  sm_relation : Z;
  sm_output : Z;
  sm_destination : Z;
  sm_run_relation : Z;
  sm_run_destination : Z;
  sm_sort_config : Z;
  sm_top_k : nat;
  merge_tree_ : MergeTree;
  sm_block_ids : list nat;
  num_input_workorders_generated_ : nat;
  sm_is_stored : bool;
  sm_started : bool;
}.

Definition new_SortMergeRunOperator (query_id : nat) (input output : CatalogRelation)
    (destination : Z) (run_relation : CatalogRelation) (run_destination sort_config : Z)
    (merge_factor top_k : nat) (is_stored : bool) : SortMergeRunOperator :=
  {| sm_base := new_OperatorBase query_id 1 false 1; sm_relation := rel_id input;
     sm_output := rel_id output; sm_destination := destination;
     sm_run_relation := rel_id run_relation; sm_run_destination := run_destination;
     sm_sort_config := sort_config; sm_top_k := top_k;
     merge_tree_ := new_MergeTree merge_factor;
     sm_block_ids := if is_stored then getBlocksSnapshot input else [];
     num_input_workorders_generated_ := 0; sm_is_stored := is_stored;
     sm_started := false |}.

Definition sm_update (op : SortMergeRunOperator) (t : MergeTree) (ids : list nat)
    (n : nat) (started : bool) : SortMergeRunOperator :=
  {| sm_base := sm_base op; sm_relation := sm_relation op; sm_output := sm_output op;
     sm_destination := sm_destination op; sm_run_relation := sm_run_relation op;
     sm_run_destination := sm_run_destination op; sm_sort_config := sm_sort_config op;
     sm_top_k := sm_top_k op; merge_tree_ := t; sm_block_ids := ids;
     num_input_workorders_generated_ := n; sm_is_stored := sm_is_stored op;
     sm_started := started |}.

Definition initializeInputRuns (op : SortMergeRunOperator) : outcome SortMergeRunOperator :=
  if decide (num_input_workorders_generated_ op < length (sm_block_ids op)) then
    t ← addInputBlocks (drop (num_input_workorders_generated_ op) (sm_block_ids op))
          (merge_tree_ op);
    mret (sm_update op t (sm_block_ids op) (length (sm_block_ids op)) (sm_started op))
  else Ok op.

Definition sm_feedInputBlock (block : nat) (op : SortMergeRunOperator)
  : outcome SortMergeRunOperator :=
  let op' := sm_update op (merge_tree_ op) (sm_block_ids op ++ [block])
    (num_input_workorders_generated_ op) (sm_started op) in
  if sm_started op then initializeInputRuns op' else Ok op'.

Definition sm_doneFeedingInputBlocks (op : SortMergeRunOperator)
  : outcome SortMergeRunOperator :=
  t ← initializeTree (N.of_nat (length (sm_block_ids op))) (merge_tree_ op);
  op1 ← initializeInputRuns (sm_update op t (sm_block_ids op)
          (num_input_workorders_generated_ op) (sm_started op));
  t' ← checkAndFixFinalMerge (merge_tree_ op1);
  mret (sm_update op1 t' (sm_block_ids op1) (num_input_workorders_generated_ op1)
          (sm_started op1)).

(** The message of a merge: the level of the job and the run it wrote. *)
Definition sm_receiveFeedbackMessage (level : nat) (run : Run)
    (op : SortMergeRunOperator) : outcome SortMergeRunOperator :=
  t ← writeOutputRun level run (merge_tree_ op);
  mret (sm_update op t (sm_block_ids op) (num_input_workorders_generated_ op) (sm_started op)).

(** [createWorkOrder]: what a job is turned into. *)
Record SortMergeRunWork := {
  smw_relation : Z;
  smw_runs : list Run;
  smw_top_k : nat;
  smw_level : nat;
  smw_destination : Z;
}.
Definition createWorkOrder (op : SortMergeRunOperator) (job : MergeJob) : SortMergeRunWork :=
  {| smw_relation := if decide (0 < job_level job) then sm_run_relation op else sm_relation op;
     smw_runs := job_runs job; smw_top_k := sm_top_k op; smw_level := job_level job;
     smw_destination :=
       if is_final_level job then sm_destination op else sm_run_destination op |}.

Definition sm_start (op : SortMergeRunOperator) : outcome SortMergeRunOperator :=
  if sm_started op then Ok op
  else if sm_is_stored op then
    t ← initializeTree (N.of_nat (length (sm_block_ids op))) (merge_tree_ op);
    t' ← addInputBlocks (sm_block_ids op) t;
    mret (sm_update op t' (sm_block_ids op) (num_input_workorders_generated_ op) true)
  else
    initializeInputRuns (sm_update op (initializeForPipeline (merge_tree_ op))
      (sm_block_ids op) (num_input_workorders_generated_ op) true).

Definition sm_getAllWorkOrders (op : SortMergeRunOperator)
  : outcome (list MergeJob * bool * SortMergeRunOperator) :=
  op1 ← sm_start op;
  x ← getMergeJobs (merge_tree_ op1);
  mret (x.1.1, x.1.2, sm_update op1 x.2 (sm_block_ids op1)
          (num_input_workorders_generated_ op1) (sm_started op1)).

(** ** A small run: five blocks, merged two at a time *)

Definition five_blocks : SortMergeRunOperator :=
  new_SortMergeRunOperator 0 (set_blocks [1; 2; 3; 4; 5] (new_CatalogRelation 1))
    (new_CatalogRelation 2) 0 (new_CatalogRelation 3) 1 0 2 0 true.

Example five_blocks_jobs :
  match sm_getAllWorkOrders five_blocks with
  | Ok (jobs, done, _) => Some (map job_runs jobs, done)
  | Err _ => None
  end = Some ([[[5]; [4]]; [[3]; [2]]; [[1]]], false).
Proof. reflexivity. Qed.
