(* ===== verification/MergeTreeInv.v ===== *)
(** * The invariant of a merge tree

    The flow of runs through the levels of MergeTree.v: what arrives in a
    level comes from the jobs of the level below, jobs are full except the one
    that closes a level, and so the number of jobs of a level is the number of
    runs expected above it. *)

From S2P Require Import Prelude MergeTree.
From stdpp Require Import options.
#[local] Open Scope N_scope.

(** ** Rounding up *)

Definition cdiv (x m : N) : N := (x + m - 1) / m.

Lemma cdiv_mul k m : 0 < m → cdiv (k * m) m = k.
Proof.
  intros Hm. unfold cdiv. replace (k * m + m - 1) with ((m - 1) + k * m) by lia.
  rewrite N.div_add by lia. rewrite N.div_small by lia. lia.
Qed.

Lemma cdiv_step k r m : 0 < r ≤ m → cdiv (k * m + r) m = k + 1.
Proof.
  intros Hr. unfold cdiv. replace (k * m + r + m - 1) with ((r - 1) + (k + 1) * m) by lia.
  rewrite N.div_add by lia. rewrite N.div_small by lia. lia.
Qed.

Lemma cdiv_mono x y m : 0 < m → x ≤ y → cdiv x m ≤ cdiv y m.
Proof. intros Hm Hxy. unfold cdiv. apply N.Div0.div_le_mono. lia. Qed.

Lemma cdiv_lt x y m : 0 < m → (m | x) → x < y → cdiv x m < cdiv y m.
Proof.
  intros Hm [k ->] Hxy. rewrite cdiv_mul by done.
  pose proof (cdiv_mono (k * m + 1) y m Hm ltac:(lia)) as H.
  rewrite cdiv_step in H by lia. lia.
Qed.

Lemma cdiv_small x m : 0 < x ≤ m → cdiv x m = 1.
Proof. intros H. by rewrite <- (N.add_0_l x), <- (N.mul_0_l m), cdiv_step. Qed.

Lemma cdiv_0 m : 0 < m → cdiv 0 m = 0.
Proof. intros Hm. unfold cdiv. apply N.div_small. lia. Qed.

Lemma cdiv_half n m k : 2 ≤ m → n ≤ 2 * k → cdiv n m ≤ k.
Proof.
  intros Hm Hn. unfold cdiv. apply N.lt_succ_r. apply N.Div0.div_lt_upper_bound. nia.
Qed.

(** ** The levels of a tree *)

Lemma expected_levels_spec fuel m n :
  2 ≤ m → n ≤ 2 ^ N.of_nat fuel → ∃ l,
    expected_levels fuel m n = Ok l ∧
    (∀ i x, (n :: l) !! S i = Some x → ∃ y, (n :: l) !! i = Some y ∧ x = cdiv y m) ∧
    List.last (n :: l) 0 ≤ m ∧ (length l ≤ fuel)%nat ∧
    (n ≤ m → l = []) ∧ (m < n → l ≠ []).
Proof.
  intros Hm. revert n. induction fuel as [|fuel IH]; intros n Hn; cbn [expected_levels].
  - destruct (N.ltb_spec m n) as [Hlt|Hge]; [cbn in Hn; lia|].
    exists []. split_and!; [done|by intros []|done|done|done|lia].
  - destruct (N.ltb_spec m n) as [Hlt|Hge].
    + change ((n + m - 1) / m) with (cdiv n m).
      destruct (IH (cdiv n m)) as (l & Hl & Hs & Hlast & Hlen & _).
      { apply cdiv_half; [done|]. by rewrite Nat2N.inj_succ, N.pow_succ_r' in Hn. }
      exists (cdiv n m :: l). rewrite Hl. split_and!; [done| |exact Hlast|cbn; lia|lia|done].
      intros [|i] x Hx; [injection Hx as <-; by exists n|]. by apply Hs.
    + exists []. split_and!; [done|by intros []|done|cbn; lia|done|lia].
Qed.

Lemma size_nat_bound n : n < 2 ^ N.of_nat (N.size_nat n).
Proof.
  destruct n as [|p]; [done|]. change (N.size_nat (N.pos p)) with (Pos.size_nat p).
  induction p as [p IH|p IH|]; cbn [Pos.size_nat] in *; [| |done];
    rewrite Nat2N.inj_succ, N.pow_succ_r'; lia.
Qed.

(** ** One level *)

Definition len {A} (l : list A) : N := N.of_nat (length l).

Lemma getRuns_spec k (runs : list Run) :
  (k ≤ length runs)%nat →
  length (getRuns k runs).1 = k ∧ length (getRuns k runs).2 = (length runs - k)%nat ∧
  (getRuns k runs).1 ++ (getRuns k runs).2 ≡ₚ runs.
Proof.
  intros Hk. unfold getRuns. cbn. rewrite length_reverse, length_drop, length_take.
  split_and!; [lia|lia|]. rewrite reverse_Permutation, Permutation_app_comm.
  by rewrite take_drop.
Qed.

Lemma level_jobs_nil fuel m level fin s x :
  (0 < m)%nat → level_jobs fuel m level fin s x [] = Ok ([], s, []).
Proof.
  intros Hm. destruct fuel; cbn; rewrite bool_decide_false by lia; done.
Qed.

(** The jobs of a level: full ones, and one that closes the level. *)
Lemma level_jobs_spec fuel m level fin s x runs :
  (0 < m)%nat → (length runs ≤ fuel)%nat → s + len runs ≤ x → (N.of_nat m | s) →
  ∃ jobs s' rest, level_jobs fuel m level fin s x runs = Ok (jobs, s', rest) ∧
    s' + len rest = s + len runs ∧ ((N.of_nat m | s') ∨ s' = x) ∧
    cdiv s' (N.of_nat m) = cdiv s (N.of_nat m) + len jobs ∧
    (length rest < m)%nat ∧ (rest ≠ [] → s' + len rest ≠ x) ∧
    Forall (λ j, job_level j = level ∧ is_final_level j = fin ∧ job_runs j ≠ [] ∧
      (length (job_runs j) ≤ m)%nat) jobs ∧
    mjoin (job_runs <$> jobs) ++ rest ≡ₚ runs.
Proof.
  intros Hm. revert s runs. induction fuel as [|fuel IH]; intros s runs Hf Hx Hd.
  { destruct runs; [|cbn in Hf; lia]. rewrite level_jobs_nil by done.
    exists [], s, []. unfold len. cbn. split_and!; [done|done|by left|lia|done|done|constructor|done]. }
  cbn [level_jobs].
  destruct (bool_decide (m ≤ length runs)%nat) eqn:Hfull; cbn [orb].
  - apply bool_decide_eq_true in Hfull. rewrite Nat.min_r by lia.
    destruct (getRuns_spec m runs Hfull) as (H1 & H2 & H3).
    destruct (getRuns m runs) as [taken rest0]. cbn in H1, H2, H3.
    destruct (IH (s + N.of_nat m) rest0) as (jobs & s' & rest & -> & Hs & Hd' & Hc & Hr & Hn & HF & Hp).
    { lia. } { unfold len in *. lia. } { by apply N.divide_add_r; [|exists 1; lia]. }
    cbn. do 3 eexists. split; [done|]. unfold len in *. split_and!; [lia|done| |done|done| |].
    + destruct Hd as [k ->]. replace (k * N.of_nat m + N.of_nat m) with ((k + 1) * N.of_nat m) in Hc by lia.
      rewrite cdiv_mul in * by lia. cbn. lia.
    + constructor; [|done]. cbn. split_and!; [done|done| |lia]. intros ->. cbn in H1. lia.
    + cbn. by rewrite <- app_assoc, Hp, H3.
  - apply bool_decide_eq_false in Hfull.
    destruct (bool_decide (length runs ≠ 0)%nat && (N.of_nat (length runs) + s =? x)) eqn:Hlast.
    + apply andb_true_iff in Hlast as [Hne%bool_decide_eq_true Heq%N.eqb_eq].
      rewrite Nat.min_l by lia. destruct (getRuns_spec (length runs) runs) as (H1 & H2 & H3); [lia|].
      destruct (getRuns (length runs) runs) as [taken rest0]. cbn in H1, H2, H3.
      assert (rest0 = []) as -> by (apply length_zero_iff_nil; lia).
      rewrite level_jobs_nil by done. cbn. do 3 eexists. split; [done|]. unfold len. cbn.
      split_and!; [lia|right; lia| |lia|done| |by rewrite !app_nil_r in *].
      * destruct Hd as [k ->]. rewrite cdiv_step, cdiv_mul by lia. lia.
      * constructor; [|constructor]. cbn. split_and!; [done|done| |lia].
        intros ->. cbn in H1. lia.
    + do 3 eexists. split; [done|]. unfold len. cbn. split_and!; [done|by left|lia|lia| |constructor|done].
      intros Hne Heq. apply andb_false_iff in Hlast as [Hl%bool_decide_eq_false|Hl%N.eqb_neq]; [|lia].
      destruct runs; [done|]. cbn in Hl. lia.
Qed.

Lemma level_jobs_none fuel m level fin s x runs s' rest :
  level_jobs fuel m level fin s x runs = Ok ([], s', rest) → s' = s ∧ rest = runs.
Proof.
  destruct fuel; cbn [level_jobs]; case_match; try done; [by intros [= -> ->]| |by intros [= -> ->]].
  destruct (getRuns _ _). by destruct (level_jobs _ _ _ _ _ _ _).
Qed.

(** ** The tree *)

Definition sched (t : MergeTree) (l : nat) : N := default 0 (runs_scheduled_ t !! l).
Definition expd (t : MergeTree) (l : nat) : N := default 0 (runs_expected_ t !! l).
Definition pend (t : MergeTree) (l : nat) : list Run := default [] (pending_ t !! l).
Definition factor (t : MergeTree) : N := N.of_nat (merge_factor_ t).

(** The jobs of a level. *)
Definition count (l : nat) (jobs : list MergeJob) : N :=
  len (filter (λ j, job_level j = l) jobs).

Lemma count_app l jobs jobs' : count l (jobs ++ jobs') = count l jobs + count l jobs'.
Proof. unfold count, len. rewrite filter_app, length_app. lia. Qed.

Lemma count_all l jobs : Forall (λ j, job_level j = l) jobs → count l jobs = len jobs.
Proof.
  unfold count, len. induction 1 as [|j jobs Hj _ IH]; [done|].
  rewrite filter_cons_True by done. cbn [length]. lia.
Qed.

Lemma count_none l k jobs : Forall (λ j, job_level j = l) jobs → k ≠ l → count k jobs = 0.
Proof.
  unfold count, len. intros H Hk. induction H as [|j jobs Hj _ IH]; [done|].
  rewrite filter_cons_False by congruence. done.
Qed.

(** [outs] are the jobs in execution, [inputs] the blocks added so far. *)
Record tree_inv (t : MergeTree) (outs : list MergeJob) (inputs : N) : Prop := {
  ti_factor : 2 ≤ factor t;
  ti_levels : (1 ≤ num_levels_ t)%nat;
  ti_expected : length (runs_expected_ t) = num_levels_ t;
  ti_scheduled : length (runs_scheduled_ t) = num_levels_ t;
  ti_pending : length (pending_ t) = S (num_levels_ t);
  ti_input : sched t 0 + len (pend t 0) = inputs;
  ti_flow l : (l < num_levels_ t)%nat →
    sched t (S l) + len (pend t (S l)) + count l outs = cdiv (sched t l) (factor t);
  ti_outs : Forall (λ j, (job_level j < num_levels_ t)%nat) outs;
  ti_mult l : (l < num_levels_ t)%nat → (factor t | sched t l) ∨ sched t l = expd t l;
  ti_bound : inputs ≤ expd t 0;
  ti_exp l : (S l < num_levels_ t)%nat → expd t (S l) = cdiv (expd t l) (factor t);
  ti_final : (final_level_ t = kFinalLevelUninitialized ∧ num_levels_ t = 1%nat ∧
      expd t 0 = kFinalLevelUninitialized ∧ inputs < kFinalLevelUninitialized) ∨
    (final_level_ t = N.of_nat (num_levels_ t - 1) ∧
      expd t (num_levels_ t - 1) ≤ factor t ∧
      N.of_nat (num_levels_ t) ≤ kFinalLevelUninitialized);
  ti_cur : (cur_level_ t ≤ num_levels_ t)%nat;
  ti_done l : (l < cur_level_ t)%nat → sched t l = expd t l;
}.

Section inv.
Context (t : MergeTree) (outs : list MergeJob) (inputs : N).
Context (H : tree_inv t outs inputs).
#[local] Set Default Proof Using "Type*".

Lemma arrived_bound l : (l < num_levels_ t)%nat → sched t l + len (pend t l) ≤ expd t l.
Proof.
  pose proof (ti_factor _ _ _ H). induction l as [|l IH]; intros Hl.
  { rewrite (ti_input _ _ _ H). apply H. }
  pose proof (ti_flow _ _ _ H l ltac:(lia)). rewrite (ti_exp _ _ _ H l Hl).
  specialize (IH ltac:(lia)).
  pose proof (cdiv_mono (sched t l) (expd t l) (factor t) ltac:(lia) ltac:(lia)). lia.
Qed.

(** A complete level lies above complete levels with no job in execution. *)
Lemma complete_below l k :
  (l < num_levels_ t)%nat → sched t l = expd t l → (k < l)%nat →
  sched t k = expd t k ∧ count k outs = 0.
Proof.
  pose proof (ti_factor _ _ _ H). revert k. induction l as [|l IH]; intros k Hl Hc Hk; [lia|].
  assert (sched t l = expd t l ∧ count l outs = 0) as [Hc' Hn].
  { pose proof (ti_flow _ _ _ H l ltac:(lia)) as Hf.
    pose proof (ti_exp _ _ _ H l Hl) as He.
    pose proof (arrived_bound l ltac:(lia)) as Hb.
    destruct (ti_mult _ _ _ H l ltac:(lia)) as [Hd|Hd].
    - destruct (N.lt_trichotomy (sched t l) (expd t l)) as [Hlt|[Heq|Hgt]].
      + pose proof (cdiv_lt _ _ (factor t) ltac:(lia) Hd Hlt). lia.
      + split; [done|]. rewrite Heq in Hf. lia.
      + lia.
    - split; [done|]. rewrite Hd in Hf. lia. }
  destruct (decide (k = l)) as [->|]; [done|]. apply IH; [lia|done|lia].
Qed.

(** Some level below [l] still has runs to schedule or a job in execution. *)
Definition blocked (l : nat) : Prop :=
  ∃ k, (k < l)%nat ∧ (sched t k ≠ expd t k ∨ count k outs ≠ 0).

Lemma blocked_incomplete l : (l < num_levels_ t)%nat → blocked l → sched t l ≠ expd t l.
Proof.
  intros Hl (k & Hk & Hb) Hc. destruct (complete_below l k Hl Hc Hk). naive_solver.
Qed.
End inv.

Arguments blocked : clear implicits.

(** The members that scheduling does not change. *)
Record same_tree (t t' : MergeTree) : Prop := {
  st_expected : runs_expected_ t' = runs_expected_ t;
  st_levels : num_levels_ t' = num_levels_ t;
  st_final : final_level_ t' = final_level_ t;
  st_factor : merge_factor_ t' = merge_factor_ t;
}.

(** A tree with other runs scheduled and pending in one level. *)
Definition set_level (t : MergeTree) (l : nat) (s : N) (runs : list Run) : MergeTree :=
  {| runs_scheduled_ := <[l := s]> (runs_scheduled_ t); runs_expected_ := runs_expected_ t;
     pending_ := <[l := runs]> (pending_ t); num_levels_ := num_levels_ t;
     final_level_ := final_level_ t; cur_level_ := cur_level_ t;
     merge_factor_ := merge_factor_ t |}.

Lemma sched_set_level t l s runs k :
  (l < length (runs_scheduled_ t))%nat →
  sched (set_level t l s runs) k = if decide (k = l) then s else sched t k.
Proof.
  intros Hl. unfold sched. cbn. case_decide as Hk; [subst; by rewrite list_lookup_insert_eq|].
  by rewrite list_lookup_insert_ne.
Qed.

Lemma pend_set_level t l s runs k :
  (l < length (pending_ t))%nat →
  pend (set_level t l s runs) k = if decide (k = l) then runs else pend t k.
Proof.
  intros Hl. unfold pend. cbn. case_decide as Hk; [subst; by rewrite list_lookup_insert_eq|].
  by rewrite list_lookup_insert_ne.
Qed.

(** Scheduling the jobs of one level keeps the invariant. *)
Lemma set_level_inv t outs inputs l s rest jobs :
  tree_inv t outs inputs → (l < num_levels_ t)%nat → sched t l < expd t l →
  s + len rest = sched t l + len (pend t l) →
  ((factor t | s) ∨ s = expd t l) →
  cdiv s (factor t) = cdiv (sched t l) (factor t) + len jobs →
  Forall (λ j, job_level j = l) jobs →
  tree_inv (set_level t l s rest) (outs ++ jobs) inputs.
Proof.
  intros H Hl Hlt Hs Hd Hc Hj.
  assert (∀ k, sched (set_level t l s rest) k = if decide (k = l) then s else sched t k) as Hsch
    by (intros k; apply sched_set_level; by rewrite (ti_scheduled _ _ _ H)).
  assert (∀ k, pend (set_level t l s rest) k = if decide (k = l) then rest else pend t k) as Hpd
    by (intros k; apply pend_set_level; rewrite (ti_pending _ _ _ H); lia).
  assert (∀ k, expd (set_level t l s rest) k = expd t k) as Hex by done.
  assert (∀ k, sched (set_level t l s rest) k + len (pend (set_level t l s rest) k) =
    sched t k + len (pend t k)) as Harr.
  { intros k. rewrite Hsch, Hpd. case_decide; [subst|]; lia. }
  split.
  - apply H.
  - apply H.
  - apply H.
  - cbn. rewrite length_insert. apply H.
  - cbn. rewrite length_insert. apply H.
  - rewrite Harr. apply H.
  - intros k Hk. cbn in Hk. rewrite Harr, count_app. change (factor (set_level t l s rest)) with (factor t).
    pose proof (ti_flow _ _ _ H k Hk) as Hf. rewrite Hsch. case_decide as E.
    + subst k. rewrite (count_all l jobs) by done. lia.
    + rewrite (count_none l k jobs) by done. lia.
  - apply Forall_app. split; [apply H|]. eapply Forall_impl; [exact Hj|]. cbn. lia.
  - intros k Hk. cbn in Hk. rewrite Hsch, Hex. case_decide; [by subst|]. by apply H.
  - apply H.
  - intros k Hk. cbn in Hk. rewrite !Hex. by apply (ti_exp _ _ _ H).
  - apply H.
  - apply H.
  - intros k Hk. cbn in Hk. rewrite Hsch, Hex. pose proof (ti_done _ _ _ H k Hk).
    case_decide; [subst; lia|done].
Qed.

Definition set_cur (t : MergeTree) (c : nat) : MergeTree :=
  {| runs_scheduled_ := runs_scheduled_ t; runs_expected_ := runs_expected_ t;
     pending_ := pending_ t; num_levels_ := num_levels_ t; final_level_ := final_level_ t;
     cur_level_ := c; merge_factor_ := merge_factor_ t |}.

Lemma set_cur_inv t outs inputs c :
  tree_inv t outs inputs → (c ≤ num_levels_ t)%nat →
  (∀ l, (l < c)%nat → sched t l = expd t l) → tree_inv (set_cur t c) outs inputs.
Proof. intros [] Hc Hd. by split. Qed.

(** The runs of all levels. *)
Definition all_pending (t : MergeTree) : list Run := mjoin (pending_ t).

Lemma all_pending_set_level t l s rest taken :
  (l < length (pending_ t))%nat → taken ++ rest ≡ₚ pend t l →
  taken ++ all_pending (set_level t l s rest) ≡ₚ all_pending t.
Proof.
  intros Hl Hp. unfold pend in Hp.
  destruct (lookup_lt_is_Some_2 (pending_ t) l Hl) as [runs Hr]. rewrite Hr in Hp. cbn in Hp.
  destruct (lookup_insert_split _ _ _ Hr) as (l1 & l2 & H1 & _ & H2).
  unfold all_pending. cbn. rewrite H2, H1, !join_app. cbn. rewrite <- Hp.
  rewrite <- !app_assoc. rewrite Permutation_app_swap_app. done.
Qed.

(** What is known of a job when it is scheduled. *)
Definition job_ok (t : MergeTree) (j : MergeJob) : Prop :=
  is_final_level j = (N.of_nat (job_level j) =? final_level_ t) ∧
  job_runs j ≠ [] ∧ (length (job_runs j) ≤ merge_factor_ t)%nat.

(** A level that was left alone has too few runs, and is not the last. *)
Definition level_quiet (t : MergeTree) (l : nat) : Prop :=
  sched t l < expd t l → pend t l ≠ [] → sched t l + len (pend t l) ≠ expd t l.

(** The jobs of one level, as the loop schedules them. *)
Lemma schedule_level t outs inputs l :
  tree_inv t outs inputs → (l < num_levels_ t)%nat → sched t l < expd t l →
  ∃ jobs s rest,
    level_jobs (length (pend t l)) (merge_factor_ t) l (N.of_nat l =? final_level_ t)
      (sched t l) (expd t l) (pend t l) = Ok (jobs, s, rest) ∧
    tree_inv (set_level t l s rest) (outs ++ jobs) inputs ∧
    blocked (set_level t l s rest) (outs ++ jobs) (S l) ∧
    mjoin (job_runs <$> jobs) ++ all_pending (set_level t l s rest) ≡ₚ all_pending t ∧
    Forall (job_ok t) jobs ∧
    (jobs = [] → set_level t l s rest = t ∧ level_quiet t l).
Proof.
  intros H Hl Hlt. pose proof (ti_factor _ _ _ H) as Hm. unfold factor in Hm.
  pose proof (ti_scheduled _ _ _ H) as Hsl. pose proof (ti_pending _ _ _ H) as Hpl.
  assert (factor t | sched t l) as Hd.
  { destruct (ti_mult _ _ _ H l Hl) as [?|?]; [done|lia]. }
  destruct (level_jobs_spec (length (pend t l)) (merge_factor_ t) l
    (N.of_nat l =? final_level_ t) (sched t l) (expd t l) (pend t l))
    as (jobs & s & rest & Hj & Hs & Hd' & Hc & Hr & Hq & HF & Hp);
    [lia|done|by apply (arrived_bound t outs inputs)|exact Hd|].
  exists jobs, s, rest.
  assert (Forall (λ j, job_level j = l) jobs) as Hlev by (eapply Forall_impl; [exact HF|]; naive_solver).
  split; [exact Hj|]. split; [|split; [|split; [|split]]].
  - by apply set_level_inv.
  - exists l. split; [lia|]. rewrite sched_set_level, decide_True by (done || lia).
    change (expd (set_level t l s rest) l) with (expd t l).
    destruct (N.eq_dec s (expd t l)) as [->|]; [|by left]. right.
    rewrite count_app, (count_all l jobs) by done.
    assert (sched t l < expd t l → len jobs ≠ 0) as Hne; [|specialize (Hne Hlt); lia].
    intros Hlt' E. assert (jobs = []) as -> by (apply length_zero_iff_nil; unfold len in E; lia).
    change (cdiv (expd t l) (factor t) = cdiv (sched t l) (factor t) + 0) in Hc.
    pose proof (cdiv_lt _ _ (factor t) ltac:(unfold factor; lia) Hd Hlt). lia.
  - apply all_pending_set_level; [lia|done].
  - eapply Forall_impl; [exact HF|]. intros j (Hjl & Hjf & ? & ?). unfold job_ok.
    by rewrite Hjl.
  - intros ->. apply level_jobs_none in Hj as [-> ->].
    destruct (lookup_lt_is_Some_2 (pending_ t) l) as [runs Hrl]; [lia|].
    destruct (lookup_lt_is_Some_2 (runs_scheduled_ t) l) as [x Hx]; [lia|].
    split; [|intros _ Hne; by apply Hq].
    unfold set_level, sched, pend. rewrite Hrl, Hx. cbn.
    rewrite !list_insert_id by done. by destruct t.
Qed.

Lemma vec_at_sched t outs inputs l :
  tree_inv t outs inputs → (l < num_levels_ t)%nat →
  vec_at (runs_scheduled_ t) l = Ok (sched t l) ∧ vec_at (runs_expected_ t) l = Ok (expd t l) ∧
  vec_at (pending_ t) l = Ok (pend t l).
Proof.
  intros H Hl. unfold sched, expd, pend, vec_at.
  destruct (lookup_lt_is_Some_2 (runs_scheduled_ t) l) as [? ->]; [by rewrite (ti_scheduled _ _ _ H)|].
  destruct (lookup_lt_is_Some_2 (runs_expected_ t) l) as [? ->]; [by rewrite (ti_expected _ _ _ H)|].
  destruct (lookup_lt_is_Some_2 (pending_ t) l) as [? ->]; [rewrite (ti_pending _ _ _ H); lia|].
  done.
Qed.

Lemma merge_levels_spec n L t outs inputs :
  tree_inv t outs inputs → (L + n = num_levels_ t)%nat →
  cur_level_ t = L ∨ blocked t outs L →
  ∃ jobs t', merge_levels (seq L n) t = Ok (jobs, t') ∧
    tree_inv t' (outs ++ jobs) inputs ∧ same_tree t t' ∧
    mjoin (job_runs <$> jobs) ++ all_pending t' ≡ₚ all_pending t ∧
    Forall (job_ok t) jobs ∧
    (jobs = [] → runs_scheduled_ t' = runs_scheduled_ t ∧ pending_ t' = pending_ t ∧
      ∀ l, (L ≤ l < L + n)%nat → level_quiet t l).
Proof.
  revert L t outs. induction n as [|n IH]; intros L t outs H Hn Hc.
  { exists [], t. rewrite app_nil_r. split_and!; try done. intros _. split_and!; [done..|lia]. }
  cbn [seq merge_levels].
  destruct (vec_at_sched t outs inputs L H ltac:(lia)) as (-> & -> & Hpd). cbn.
  destruct (N.ltb_spec (sched t L) (expd t L)) as [Hlt|Hge].
  - rewrite Hpd. cbn.
    destruct (schedule_level t outs inputs L H ltac:(lia) Hlt)
      as (jobs & s & rest & -> & Hinv & Hb & Hp & HF & Hq). cbn.
    rewrite (vec_set_lt (runs_scheduled_ t)) by (rewrite (ti_scheduled _ _ _ H); lia). cbn.
    rewrite (vec_set_lt (pending_ t)) by (rewrite (ti_pending _ _ _ H); lia). cbn.
    destruct (IH (S L) (set_level t L s rest) (outs ++ jobs) Hinv) as
      (jobs' & t' & Hm & Hinv' & Hs' & Hp' & HF' & Hq'); [cbn; lia|by right|].
    unfold set_level in Hm. rewrite Hm. cbn. exists (jobs ++ jobs'), t'.
    refine (conj eq_refl (conj _ (conj _ (conj _ (conj _ _))))).
    + by rewrite app_assoc.
    + by destruct Hs'; split.
    + by rewrite fmap_app, join_app, <- app_assoc, Hp'.
    + by apply Forall_app.
    + intros [-> ->]%app_eq_nil. destruct (Hq eq_refl) as [E Hql].
      rewrite E in Hq'. destruct (Hq' eq_refl) as (-> & -> & Hql'). split_and!; [done..|].
      intros l Hl. destruct (decide (l = L)) as [->|]; [done|]. apply Hql'. lia.
  - assert (sched t L = expd t L) as He.
    { pose proof (arrived_bound t outs inputs H L ltac:(lia)). lia. }
    destruct Hc as [Hc|Hb]; [|by destruct (blocked_incomplete t outs inputs H L ltac:(lia) Hb)].
    destruct (IH (S L) (set_cur t (S (cur_level_ t))) outs) as
      (jobs' & t' & Hm & Hinv' & Hs' & Hp' & HF' & Hq'); [|cbn; lia|cbn; left; lia|].
    { apply set_cur_inv; [done|lia|]. intros l Hl. destruct (decide (l = L)) as [->|]; [done|].
      apply (ti_done _ _ _ H). lia. }
    cbn. unfold set_cur in Hm. rewrite Hm. cbn. exists jobs', t'.
    refine (conj eq_refl (conj Hinv' (conj _ (conj Hp' (conj HF' _))))).
    + by destruct Hs'; split.
    + intros ->. destruct (Hq' eq_refl) as (? & ? & Hql'). split_and!; [done..|].
      intros l Hl. destruct (decide (l = L)) as [->|]; [intros ?; lia|]. apply Hql'. lia.
Qed.

(** Levels that are not visited keep their runs. *)
Lemma merge_levels_pend levels t jobs t' k :
  merge_levels levels t = Ok (jobs, t') → k ∉ levels → pend t' k = pend t k.
Proof.
  revert t jobs. induction levels as [|l levels IH]; intros t jobs Hm Hk; cbn in Hm.
  { by injection Hm as <- <-. }
  apply not_elem_of_cons in Hk as [Hkl Hk].
  apply bind_Ok in Hm as (e & _ & Hm). apply bind_Ok in Hm as (s & _ & Hm).
  apply bind_Ok in Hm as ([js t1] & Hx & Hm). apply bind_Ok in Hm as ([js' t2] & Hr & Hm).
  injection Hm as <- <-. apply IH in Hr; [|done]. cbn in Hr |- *. rewrite Hr.
  destruct (s <? e).
  - apply bind_Ok in Hx as (runs & _ & Hx). apply bind_Ok in Hx as (y & _ & Hx).
    apply bind_Ok in Hx as (s' & _ & Hx). apply bind_Ok in Hx as (p & Hp & Hx).
    injection Hx as <- <-. apply vec_set_Ok in Hp as [_ ->]. unfold pend. cbn.
    by rewrite list_lookup_insert_ne.
  - by injection Hx as <- <-.
Qed.

(** ** Generating the jobs of all levels *)

(** With the whole input in, nothing in execution and nothing to schedule,
    every level is complete. *)
Lemma quiet_complete t inputs l :
  tree_inv t [] inputs → inputs = expd t 0 →
  (∀ k, (cur_level_ t ≤ k < num_levels_ t)%nat → level_quiet t k) →
  (l < num_levels_ t)%nat → sched t l = expd t l.
Proof.
  intros H Hi Hq.
  assert (∀ k, (k < num_levels_ t)%nat → sched t k + len (pend t k) = expd t k →
    sched t k = expd t k) as Hstep.
  { intros k Hk Ha. destruct (decide (k < cur_level_ t)%nat) as [Hc|Hc];
      [by apply (ti_done _ _ _ H)|].
    destruct (decide (sched t k < expd t k)) as [Hlt|]; [|lia].
    assert (pend t k ≠ []) as Hne by (intros E; rewrite E in Ha; unfold len in Ha; cbn in Ha; lia).
    by destruct (Hq k ltac:(lia) Hlt Hne). }
  induction l as [|l IH]; intros Hl; apply Hstep; [done| |done|].
  - by rewrite (ti_input _ _ _ H).
  - pose proof (ti_flow _ _ _ H l ltac:(lia)) as Hf. rewrite (IH ltac:(lia)) in Hf.
    rewrite (ti_exp _ _ _ H l Hl), <- Hf. unfold count, len. cbn. lia.
Qed.

Lemma final_known t outs inputs :
  tree_inv t outs inputs → final_level_ t ≠ kFinalLevelUninitialized →
  final_level_ t = N.of_nat (num_levels_ t - 1) ∧ expd t (num_levels_ t - 1) ≤ factor t.
Proof. intros H Hne. by destruct (ti_final _ _ _ H) as [(? & _)|(? & ? & _)]. Qed.

Lemma final_unknown t outs inputs :
  tree_inv t outs inputs → final_level_ t = kFinalLevelUninitialized →
  num_levels_ t = 1%nat ∧ inputs < expd t 0.
Proof.
  intros H Hf. destruct (ti_final _ _ _ H) as [(_ & ? & -> & ?)|(E & _ & ?)]; [done|].
  pose proof (ti_levels _ _ _ H). lia.
Qed.

Lemma getMergeJobs_spec t outs inputs :
  tree_inv t outs inputs →
  ∃ jobs fin t', getMergeJobs t = Ok (jobs, fin, t') ∧
    tree_inv t' (outs ++ jobs) inputs ∧ same_tree t t' ∧
    mjoin (job_runs <$> jobs) ++ all_pending t' ≡ₚ all_pending t ∧
    Forall (job_ok t) jobs ∧
    (fin = true → final_level_ t ≠ kFinalLevelUninitialized ∧
      sched t' (num_levels_ t - 1) = expd t (num_levels_ t - 1)) ∧
    (jobs = [] → outs = [] → inputs = expd t 0 → fin = true) ∧
    pend t' (num_levels_ t) = pend t (num_levels_ t).
Proof.
  intros H. pose proof (ti_cur _ _ _ H). pose proof (ti_levels _ _ _ H).
  destruct (merge_levels_spec (num_levels_ t - cur_level_ t) (cur_level_ t) t outs inputs H)
    as (jobs & t' & Hm & Hinv & Hs & Hp & HF & Hq); [lia|by left|].
  assert (pend t' (num_levels_ t) = pend t (num_levels_ t)) as Hpn.
  { eapply merge_levels_pend; [exact Hm|]. rewrite elem_of_seq. lia. }
  unfold getMergeJobs. rewrite Hm. cbn. rewrite (st_final _ _ Hs).
  destruct (N.eqb_spec (final_level_ t) kFinalLevelUninitialized) as [Hu|Hu].
  - exists jobs, false, t'. split_and!; try done. intros _ _ Hi.
    destruct (final_unknown t outs inputs H Hu). lia.
  - destruct (final_known t outs inputs H Hu) as [Hf _]. rewrite Hf, Nat2N.id.
    destruct (vec_at_sched t' _ _ (num_levels_ t - 1) Hinv) as (-> & -> & _);
      [rewrite (st_levels _ _ Hs); lia|].
    assert (expd t' (num_levels_ t - 1) = expd t (num_levels_ t - 1)) as ->
      by (unfold expd; by rewrite (st_expected _ _ Hs)).
    cbn. eexists jobs, _, t'. split_and!; [done..| | |done].
    + intros E%N.eqb_eq. split; [congruence|done].
    + intros E -> Hi. destruct (Hq E) as (Hs1 & Hp1 & Hql). apply N.eqb_eq.
      assert (sched t' (num_levels_ t - 1) = sched t (num_levels_ t - 1)) as ->
        by (unfold sched; by rewrite Hs1).
      apply (quiet_complete t inputs); [done..|intros k Hk; apply Hql; lia|lia].
Qed.

(** When the last level is complete and nothing is in execution, one run is
    left, above the last level. *)
Section complete.
Context (t : MergeTree) (inputs : N) (H : tree_inv t [] inputs).
Context (Hc : sched t (num_levels_ t - 1) = expd t (num_levels_ t - 1)).
#[local] Set Default Proof Using "Type*".

Lemma complete_levels k :
  (k < num_levels_ t)%nat → sched t k = expd t k ∧ pend t k = [].
Proof.
  intros Hk. assert (sched t k = expd t k) as Hck.
  { destruct (decide (k = num_levels_ t - 1)%nat) as [->|]; [done|].
    apply (complete_below t [] inputs H (num_levels_ t - 1) k); [lia|done|lia]. }
  split; [done|]. pose proof (arrived_bound t [] inputs H k Hk).
  apply length_zero_iff_nil. unfold len in *. lia.
Qed.

Lemma complete_zero k : (k < num_levels_ t)%nat → expd t k = 0 ↔ inputs = 0.
Proof.
  pose proof (ti_factor _ _ _ H) as Hm. induction k as [|k IHk]; intros Hk.
  - pose proof (ti_input _ _ _ H) as Hi. destruct (complete_levels 0%nat Hk) as [<- E].
    rewrite E in Hi. unfold len in Hi. cbn in Hi. lia.
  - rewrite (ti_exp _ _ _ H k Hk), <- IHk by lia. split; intros E.
    + destruct (N.eq_dec (expd t k) 0); [done|].
      pose proof (cdiv_lt 0 (expd t k) (factor t) ltac:(lia) ltac:(by exists 0) ltac:(lia)). lia.
    + rewrite E. apply cdiv_0. lia.
Qed.

Lemma complete_all_pending : all_pending t = pend t (num_levels_ t).
Proof.
  unfold all_pending. destruct (lookup_lt_is_Some_2 (pending_ t) (num_levels_ t)) as [rs Hrs].
  { rewrite (ti_pending _ _ _ H). lia. }
  rewrite <- (take_drop_middle _ _ _ Hrs), join_app.
  rewrite (drop_ge (pending_ t)) by (rewrite (ti_pending _ _ _ H); lia). cbn. rewrite app_nil_r.
  unfold pend. rewrite Hrs. cbn.
  assert (mjoin (take (num_levels_ t) (pending_ t)) = []) as ->; [|done].
  apply join_nil, Forall_lookup. intros i x Hx. apply lookup_take_Some in Hx as [Hx Hi].
  destruct (complete_levels i Hi) as [_ E]. unfold pend in E. by rewrite Hx in E.
Qed.

Lemma complete_pending :
  final_level_ t ≠ kFinalLevelUninitialized →
  (inputs = 0 ∧ pend t (num_levels_ t) = []) ∨
  (0 < inputs ∧ ∃ r, pend t (num_levels_ t) = [r]).
Proof.
  intros Hu. pose proof (ti_levels _ _ _ H) as Hl1. pose proof (ti_factor _ _ _ H) as Hm.
  destruct (final_known t [] inputs H Hu) as [_ Hle].
  assert (sched t (num_levels_ t) = 0) as Hz.
  { unfold sched. by rewrite lookup_ge_None_2 by (rewrite (ti_scheduled _ _ _ H); lia). }
  pose proof (ti_flow _ _ _ H (num_levels_ t - 1) ltac:(lia)) as Hf.
  replace (S (num_levels_ t - 1))%nat with (num_levels_ t) in Hf by lia.
  rewrite Hz, Hc in Hf. unfold count, len in Hf. cbn in Hf.
  pose proof (complete_zero (num_levels_ t - 1)%nat ltac:(lia)) as Hzero.
  destruct (N.eq_dec inputs 0) as [E|E].
  - left. split; [done|]. apply Hzero in E. rewrite E, cdiv_0 in Hf by lia.
    apply length_zero_iff_nil. lia.
  - right. split; [lia|]. rewrite cdiv_small in Hf; [|split; [|done]].
    + destruct (pend t (num_levels_ t)) as [|r [|]]; [done|by exists r|cbn in Hf; lia].
    + destruct (N.eq_dec (expd t (num_levels_ t - 1)) 0); [tauto|lia].
Qed.
End complete.
