(* ===== verification/MergeTreeOps.v ===== *)
(** * The other operations of a merge tree

    Initialization, in the stored and in the streamed case, the arrival of
    input blocks and of merged runs, and the level added for a final merge
    that was scheduled before it was known to be final: each keeps the
    invariant of MergeTreeInv.v. *)

From S2P Require Import Prelude MergeTree MergeTreeInv.
From stdpp Require Import options.
#[local] Open Scope N_scope.

(** ** Runs that arrive *)

Definition put_run (l : nat) (r : Run) (t : MergeTree) : MergeTree :=
  set_pending (<[l := pend t l ++ [r]]> (pending_ t)) t.

Lemma push_run_ok l r t :
  (l < length (pending_ t))%nat → push_run l r t = Ok (put_run l r t).
Proof.
  intros Hl. unfold push_run, put_run, pend, vec_at.
  destruct (lookup_lt_is_Some_2 _ _ Hl) as [rs ->]. cbn. by rewrite vec_set_lt.
Qed.

Lemma pend_put_run l r t k :
  (l < length (pending_ t))%nat →
  pend (put_run l r t) k = if decide (k = l) then pend t l ++ [r] else pend t k.
Proof.
  intros Hl. unfold put_run, pend. cbn.
  case_decide as Hk; [subst; by rewrite list_lookup_insert_eq|by rewrite list_lookup_insert_ne].
Qed.

Lemma all_pending_put_run l r t :
  (l < length (pending_ t))%nat → all_pending (put_run l r t) ≡ₚ r :: all_pending t.
Proof.
  intros Hl. destruct (lookup_lt_is_Some_2 (pending_ t) l Hl) as [rs Hr].
  unfold all_pending, put_run, pend. cbn. rewrite Hr. cbn.
  destruct (lookup_insert_split _ _ _ Hr) as (l1 & l2 & H1 & _ & H2).
  rewrite H2, H1, !join_app. cbn. rewrite <- app_assoc. cbn.
  rewrite (Permutation_app_comm rs (r :: _)). cbn. rewrite <- Permutation_middle.
  f_equiv. f_equiv. apply Permutation_app_comm.
Qed.

Lemma put_run_len l r t k :
  (l < length (pending_ t))%nat →
  len (pend (put_run l r t) k) = len (pend t k) + (if decide (k = l) then 1 else 0).
Proof.
  intros Hl. rewrite pend_put_run by done. unfold len.
  case_decide; [subst; rewrite length_app; cbn|]; lia.
Qed.

(** A block of the input. *)
Lemma put_input_inv t outs inputs r :
  tree_inv t outs inputs → inputs < expd t 0 →
  (final_level_ t = kFinalLevelUninitialized → inputs + 1 < kFinalLevelUninitialized) →
  tree_inv (put_run 0 r t) outs (inputs + 1).
Proof.
  intros H Hi Hk. assert (0 < length (pending_ t))%nat as Hl by (rewrite (ti_pending _ _ _ H); lia).
  destruct H. split; try done.
  - cbn. by rewrite length_insert.
  - rewrite put_run_len, decide_True by done. change (sched (put_run 0 r t) 0) with (sched t 0). lia.
  - intros l Hlt. cbn in Hlt. rewrite put_run_len by done. rewrite decide_False by done.
    change (sched t (S l) + (len (pend t (S l)) + 0) + count l outs = cdiv (sched t l) (factor t)).
    rewrite N.add_0_r. by apply ti_flow.
  - change (inputs + 1 ≤ expd t 0). lia.
  - destruct ti_final as [(? & ? & ? & ?)|?]; [left|by right].
    split_and!; [done..|]. by apply Hk.
Qed.

Lemma addInputBlocks_spec blocks t outs inputs :
  tree_inv t outs inputs → inputs + len blocks ≤ expd t 0 →
  (final_level_ t = kFinalLevelUninitialized →
    inputs + len blocks < kFinalLevelUninitialized) →
  ∃ t', addInputBlocks blocks t = Ok t' ∧ tree_inv t' outs (inputs + len blocks) ∧
    same_tree t t' ∧ runs_scheduled_ t' = runs_scheduled_ t ∧ cur_level_ t' = cur_level_ t ∧
    all_pending t' ≡ₚ ((λ b, [b]) <$> blocks) ++ all_pending t ∧
    (∀ k, k ≠ 0%nat → pend t' k = pend t k).
Proof.
  revert t inputs. induction blocks as [|b blocks IH]; intros t inputs H Hb Hk.
  { exists t. unfold len. cbn. rewrite N.add_0_r. done. }
  assert (0 < length (pending_ t))%nat as Hl by (rewrite (ti_pending _ _ _ H); lia).
  cbn [addInputBlocks]. rewrite push_run_ok by done.
  change (len (b :: blocks)) with (N.of_nat (S (length blocks))) in *.
  rewrite Nat2N.inj_succ in *. change (N.of_nat (length blocks)) with (len blocks) in *.
  destruct (IH (put_run 0 [b] t) (inputs + 1)) as (t' & Ht & Hinv & Hs & Hsch & Hcur & Hp & Hpd).
  - apply put_input_inv; [done|lia|intros E; specialize (Hk E); lia].
  - change (expd (put_run 0 [b] t) 0) with (expd t 0). lia.
  - intros E. specialize (Hk E). lia.
  - exists t'. cbn. rewrite Ht. replace (inputs + N.succ (len blocks)) with (inputs + 1 + len blocks) by lia.
    split_and!; try done.
    + by destruct Hs; split.
    + rewrite Hp, all_pending_put_run by done. by rewrite Permutation_middle.
    + intros k Hk0. rewrite Hpd, pend_put_run, decide_False by done. done.
Qed.

(** The run of a job that has finished. *)
Lemma job_count_cons l j jobs :
  count l (j :: jobs) = count l jobs + (if decide (l = job_level j) then 1 else 0).
Proof.
  unfold count, len. rewrite filter_cons. repeat case_decide; try congruence; cbn; lia.
Qed.

#[export] Instance count_perm l : Proper ((≡ₚ) ==> (=)) (count l).
Proof. intros ?? E. unfold count, len. by rewrite E. Qed.

#[export] Instance tree_inv_perm t :
  Proper ((≡ₚ) ==> (=) ==> impl) (tree_inv t).
Proof.
  intros outs outs' E i ? <- H. destruct H. split; try done.
  - intros l Hl. rewrite <- E. by apply ti_flow.
  - by rewrite <- E.
Qed.

Lemma writeOutputRun_spec t j outs inputs r :
  tree_inv t (j :: outs) inputs →
  writeOutputRun (job_level j) r t = Ok (put_run (S (job_level j)) r t) ∧
  tree_inv (put_run (S (job_level j)) r t) outs inputs ∧
  all_pending (put_run (S (job_level j)) r t) ≡ₚ r :: all_pending t.
Proof.
  intros H. pose proof (ti_outs _ _ _ H) as Ho. apply Forall_cons in Ho as [Hj Ho].
  assert (S (job_level j) < length (pending_ t))%nat as Hl by (rewrite (ti_pending _ _ _ H); lia).
  split; [by apply push_run_ok|]. split; [|by apply all_pending_put_run].
  destruct H. split; try done.
  - cbn. by rewrite length_insert.
  - rewrite put_run_len, decide_False by done. rewrite N.add_0_r. done.
  - intros l Hlt. cbn in Hlt. rewrite put_run_len by done.
    specialize (ti_flow l Hlt). rewrite job_count_cons in ti_flow.
    change (sched t (S l) + (len (pend t (S l)) + (if decide (S l = S (job_level j)) then 1 else 0))
      + count l outs = cdiv (sched t l) (factor t)).
    rewrite <- ti_flow. repeat case_decide; lia.
Qed.

(** ** Initialization *)

Lemma default_resize {A} n (x : A) v i :
  (length v ≤ n)%nat → default x (vec_resize n x v !! i) = default x (v !! i).
Proof.
  intros Hn. unfold vec_resize. rewrite take_ge by done.
  destruct (decide (i < length v)%nat); [by rewrite lookup_app_l|].
  rewrite lookup_app_r, (lookup_ge_None_2 v) by lia. cbn.
  destruct (replicate _ _ !! _) as [y|] eqn:E; [|done]. by apply lookup_replicate in E as [-> _].
Qed.

Lemma length_resize {A} n (x : A) v : (length v ≤ n)%nat → length (vec_resize n x v) = n.
Proof. intros Hn. unfold vec_resize. rewrite length_app, length_take, length_replicate. lia. Qed.

Lemma join_resize {A} n (v : list (list A)) :
  (length v ≤ n)%nat → mjoin (vec_resize n [] v) = mjoin v.
Proof.
  intros Hn. unfold vec_resize. rewrite take_ge, join_app by done.
  assert (∀ k, mjoin (replicate k ([] : list A)) = []) as -> by (by induction k).
  by rewrite app_nil_r.
Qed.

Lemma lookup_last {A} (x : A) l d : (x :: l) !! length l = Some (List.last (x :: l) d).
Proof. revert x. induction l as [|y l IH]; intros x; [done|]. apply (IH y). Qed.

Lemma size_nat_le n : (N.size_nat n ≤ N.to_nat n)%nat.
Proof.
  destruct n as [|p]; [done|]. cbn. induction p as [p IH|p IH|]; cbn [Pos.size_nat]; lia.
Qed.

(** A tree of which only the first level is in use. *)
Record flat_tree (t : MergeTree) (outs : list MergeJob) (inputs : N) : Prop := {
  ft_factor : 2 ≤ factor t;
  ft_scheduled : (length (runs_scheduled_ t) ≤ 1)%nat;
  ft_pending : (length (pending_ t) ≤ 2)%nat;
  ft_input : sched t 0 + len (pend t 0) = inputs;
  ft_flow : len (pend t 1) + count 0 outs = cdiv (sched t 0) (factor t);
  ft_outs : Forall (λ j, job_level j = 0%nat) outs;
  ft_mult : (factor t | sched t 0);
}.

Lemma flat_new m : (2 ≤ m)%nat → flat_tree (new_MergeTree m) [] 0.
Proof.
  intros Hm. split; cbn; try done; try lia.
  - unfold factor. cbn. lia.
  - unfold factor. cbn. rewrite cdiv_0 by lia. done.
  - by exists 0.
Qed.

Lemma flat_pipeline t outs inputs :
  tree_inv t outs inputs → final_level_ t = kFinalLevelUninitialized →
  flat_tree t outs inputs.
Proof.
  intros H Hf. destruct (final_unknown t outs inputs H Hf) as [Hn Hi].
  pose proof (arrived_bound t outs inputs H 0%nat ltac:(lia)) as Hb.
  pose proof (ti_input _ _ _ H) as Hin. split.
  - apply H.
  - rewrite (ti_scheduled _ _ _ H). lia.
  - rewrite (ti_pending _ _ _ H). lia.
  - apply H.
  - rewrite <- (ti_flow _ _ _ H 0) by lia. unfold sched at 1.
    rewrite (lookup_ge_None_2 (runs_scheduled_ t)) by (rewrite (ti_scheduled _ _ _ H); lia). done.
  - eapply Forall_impl; [apply (ti_outs _ _ _ H)|]. cbn. lia.
  - destruct (ti_mult _ _ _ H 0 ltac:(lia)); [done|lia].
Qed.

Lemma initializeForPipeline_inv m :
  (2 ≤ m)%nat → tree_inv (initializeForPipeline (new_MergeTree m)) [] 0.
Proof.
  intros Hm.
  split; cbn; try done; try (unfold factor; cbn; lia).
  - intros l Hl. assert (l = 0%nat) as -> by lia. cbn. unfold factor. cbn.
    by rewrite cdiv_0 by lia.
  - intros l Hl. assert (l = 0%nat) as -> by lia. left. by exists 0.
  - left. split_and!; done.
Qed.

Lemma initializeTree_spec n t outs inputs :
  flat_tree t outs inputs → inputs ≤ n → n < kFinalLevelUninitialized →
  ∃ t', initializeTree n t = Ok t' ∧ tree_inv t' outs inputs ∧ expd t' 0 = n ∧
    final_level_ t' ≠ kFinalLevelUninitialized ∧ merge_factor_ t' = merge_factor_ t ∧
    (∀ k, sched t' k = sched t k) ∧ (∀ k, pend t' k = pend t k) ∧
    all_pending t' = all_pending t ∧ (n ≤ factor t ↔ num_levels_ t' = 1%nat).
Proof.
  intros H Hin Hn. destruct H. unfold initializeTree.
  destruct (expected_levels_spec (N.size_nat n) (factor t) n) as (l & Hl & Hstep & Hlast & Hlen & H1 & H2);
    [done|pose proof (size_nat_bound n); lia|].
  unfold factor at 1 in Hl. rewrite Hl. cbn [mbind outcome_bind]. cbn.
  pose proof (size_nat_le n) as Hsz.
  assert (length (runs_scheduled_ t) ≤ S (length l))%nat as Hr1 by lia.
  assert (length (pending_ t) ≤ S (S (length l)))%nat as Hr2 by lia.
  eexists. split; [done|].
  match goal with |- tree_inv ?x _ _ ∧ _ => set (t' := x) end.
  assert (∀ k, sched t' k = sched t k) as Hs by (intros; unfold sched; cbn; by apply default_resize).
  assert (∀ k, pend t' k = pend t k) as Hp by (intros; unfold pend; cbn; by apply default_resize).
  assert (∀ k, sched t (S k) = 0) as Hs0.
  { intros k. unfold sched. by rewrite lookup_ge_None_2 by lia. }
  assert (∀ k, pend t (S (S k)) = []) as Hp0.
  { intros k. unfold pend. by rewrite lookup_ge_None_2 by lia. }
  refine (conj _ (conj eq_refl (conj _ (conj eq_refl (conj Hs (conj Hp (conj _ _))))))).
  - split; try done; cbn [num_levels_ runs_expected_ runs_scheduled_ pending_ cur_level_].
    + cbn. lia.
    + by apply (length_resize (S (length l))).
    + by apply (length_resize (S (S (length l)))).
    + by rewrite Hs, Hp.
    + intros k Hk. rewrite !Hs, Hp, Hs0. change (factor t') with (factor t). destruct k as [|k].
      * rewrite <- ft_flow0. lia.
      * rewrite Hp0, Hs0, (count_none 0) by done. rewrite cdiv_0 by lia. done.
    + eapply Forall_impl; [exact ft_outs0|]. cbn. lia.
    + intros k Hk. left. rewrite Hs. destruct k; [done|]. rewrite Hs0. by exists 0.
    + intros k Hk. unfold expd. cbn [runs_expected_ t'].
      destruct (lookup_lt_is_Some_2 (n :: l) (S k)) as [x Hx]; [cbn in *; lia|].
      destruct (Hstep k x Hx) as (y & Hy & ->). by rewrite Hx, Hy.
    + right. cbn. split_and!.
      * f_equal; lia.
      * unfold expd. cbn [runs_expected_ t'].
        by rewrite Nat.sub_0_r, (lookup_last n l 0).
      * lia.
    + cbn. lia.
    + cbn. lia.
  - cbn. lia.
  - by apply join_resize.
  - cbn. split; [intros ->%H1; done|]. intros E. destruct (N.le_gt_cases n (factor t)); [done|].
    by destruct H2; [|destruct l].
Qed.

(** ** The level added above a full merge *)

Definition add_level (t : MergeTree) : MergeTree :=
  {| runs_scheduled_ := runs_scheduled_ t ++ [0]; runs_expected_ := runs_expected_ t ++ [1];
     pending_ := pending_ t ++ [[]]; num_levels_ := S (num_levels_ t);
     final_level_ := final_level_ t + 1; cur_level_ := cur_level_ t;
     merge_factor_ := merge_factor_ t |}.

Lemma default_snoc {A} (d : A) v i : default d ((v ++ [d]) !! i) = default d (v !! i).
Proof.
  destruct (decide (i < length v)%nat); [by rewrite lookup_app_l|].
  rewrite lookup_app_r, (lookup_ge_None_2 v) by lia. by destruct (i - length v)%nat as [|[]].
Qed.

Lemma add_level_inv t outs inputs :
  tree_inv t outs inputs → num_levels_ t = 1%nat → final_level_ t = 0 →
  expd t 0 = factor t → tree_inv (add_level t) outs inputs.
Proof.
  intros H Hn Hf He. pose proof (ti_factor _ _ _ H) as Hm.
  assert (∀ k, sched (add_level t) k = sched t k) as Hs by (intros; apply default_snoc).
  assert (∀ k, pend (add_level t) k = pend t k) as Hp by (intros; apply default_snoc).
  assert (sched t 1 = 0) as Hs1.
  { unfold sched. by rewrite lookup_ge_None_2 by (rewrite (ti_scheduled _ _ _ H); lia). }
  assert (pend t 2 = []) as Hp2.
  { unfold pend. by rewrite lookup_ge_None_2 by (rewrite (ti_pending _ _ _ H); lia). }
  assert (expd (add_level t) 0 = expd t 0) as He0.
  { unfold expd, add_level. cbn. rewrite lookup_app_l; [done|]. rewrite (ti_expected _ _ _ H). lia. }
  assert (expd (add_level t) 1 = 1) as He1.
  { unfold expd, add_level. cbn. rewrite lookup_app_r; rewrite (ti_expected _ _ _ H), Hn; done. }
  split; try apply H; cbn [num_levels_ add_level]; rewrite ?Hn.
  - lia.
  - cbn. rewrite length_app, (ti_expected _ _ _ H). cbn. lia.
  - cbn. rewrite length_app, (ti_scheduled _ _ _ H). cbn. lia.
  - cbn. rewrite length_app, (ti_pending _ _ _ H). cbn. lia.
  - rewrite Hs, Hp. apply H.
  - intros l Hl. rewrite !Hs, Hp. change (factor (add_level t)) with (factor t).
    destruct l as [|l]; [apply (ti_flow _ _ _ H); lia|]. assert (l = 0%nat) as -> by lia.
    rewrite Hs1, Hp2, cdiv_0 by lia. unfold sched.
    rewrite lookup_ge_None_2 by (rewrite (ti_scheduled _ _ _ H); lia).
    rewrite (count_none 0); [done| |done].
    eapply Forall_impl; [apply (ti_outs _ _ _ H)|]. cbn. lia.
  - eapply Forall_impl; [apply (ti_outs _ _ _ H)|]. cbn. lia.
  - intros l Hl. rewrite Hs. destruct l as [|l].
    + rewrite He0. apply (ti_mult _ _ _ H). lia.
    + assert (l = 0%nat) as -> by lia. rewrite Hs1. left. by exists 0.
  - rewrite He0. apply H.
  - intros l Hl. assert (l = 0%nat) as -> by lia. rewrite He0, He1, He.
    change (factor (add_level t)) with (factor t). by rewrite cdiv_small by lia.
  - right. cbn. rewrite Hf, He1. change (factor (add_level t)) with (factor t).
    split_and!; [done|lia|]. by vm_compute.
  - cbn. pose proof (ti_cur _ _ _ H). lia.
  - intros l Hl. cbn in Hl. pose proof (ti_cur _ _ _ H). rewrite Hs. assert (l = 0%nat) as -> by lia.
    rewrite He0. by apply (ti_done _ _ _ H).
Qed.

Lemma checkAndFixFinalMerge_spec t outs inputs :
  tree_inv t outs inputs → final_level_ t ≠ kFinalLevelUninitialized →
  (expd t 0 ≤ factor t ↔ num_levels_ t = 1%nat) →
  ∃ t', checkAndFixFinalMerge t = Ok t' ∧ tree_inv t' outs inputs ∧
    expd t' 0 = expd t 0 ∧ final_level_ t' ≠ kFinalLevelUninitialized ∧
    all_pending t' = all_pending t ∧ (∀ k, pend t' k = pend t k) ∧
    ((t' = add_level t ∧ num_levels_ t = 1%nat) ∨
     (t' = t ∧ (num_levels_ t = 1%nat → sched t 0 ≠ factor t))).
Proof.
  intros H Hu Hn. unfold checkAndFixFinalMerge.
  destruct (vec_at_sched t outs inputs 0%nat H) as (-> & -> & _); [apply H|]. cbn.
  change (N.of_nat (merge_factor_ t)) with (factor t).
  destruct (N.eqb_spec (expd t 0) (factor t)) as [He|He]; cbn [andb];
    [destruct (N.eqb_spec (sched t 0) (factor t)) as [Hs|Hs]|].
  - assert (num_levels_ t = 1%nat) as Hn1 by (apply Hn; lia).
    assert (final_level_ t = 0) as Hf0.
    { destruct (final_known t outs inputs H Hu) as [-> _]. by rewrite Hn1. }
    exists (add_level t). split_and!; [done|by apply add_level_inv| |cbn; by rewrite Hf0| | |by left].
    + unfold expd, add_level. cbn. rewrite lookup_app_l; [done|]. rewrite (ti_expected _ _ _ H). lia.
    + unfold all_pending, add_level. cbn. rewrite join_app. cbn. by rewrite app_nil_r.
    + intros. apply default_snoc.
  - exists t. split_and!; try done. right. done.
  - exists t. split_and!; try done. right. split; [done|]. intros Hn1%Hn Hs.
    pose proof (arrived_bound t outs inputs H 0%nat ltac:(apply H)). lia.
Qed.
