(* ===== verification/RunMerger.v ===== *)
(** * Merging sorted runs

    Models [RunCreator], [RunIterator], the heap comparators and [RunMerger]
    of relational_operators/SortMergeRunOperatorHelpers.{hpp,cpp}: the work a
    merge job of MergeTree.v is executed as.  A run is the list of its blocks
    and a block the list of its tuples in insertion order. *)

From S2P Require Import Prelude.
From stdpp Require Import options.

(** ** Values and tuples *)

(** The comparisons of the values of an ORDER BY column: [kLess], [kGreater]
    and [kEqual] of ComparisonFactory for one type, which agree with one total
    preorder. *)
Class ColumnValues (V : Type) := {
  value_compare : V → V → comparison;
  value_compare_antisym a b : value_compare b a = CompOpp (value_compare a b);
  value_compare_trans a b c r :
    value_compare a b = r → value_compare b c = r → value_compare a c = r;
  value_compare_eq a b c :
    value_compare a b = Eq → value_compare a c = value_compare b c;
}.

Definition kLess {V} `{!ColumnValues V} (a b : V) : bool :=
  match value_compare a b with Lt => true | _ => false end.
Definition kGreater {V} `{!ColumnValues V} (a b : V) : bool :=
  match value_compare a b with Gt => true | _ => false end.
Definition kEqual {V} `{!ColumnValues V} (a b : V) : bool :=
  match value_compare a b with Eq => true | _ => false end.

(** The attributes of a tuple; [None] is NULL. *)
Abbreviation Tuple V := (list (option V)).

(** [getUntypedValue]: [None] is the null pointer. *)
Definition getUntypedValue {V} (attr_id : nat) (t : Tuple V) : option V :=
  mjoin (t !! attr_id).

(** [SortConfiguration], with the ORDER BY scalars as their attribute ids. *)
Record SortConfiguration := {
  order_by_ : list nat;
  ordering_ : list bool;
  null_ordering_ : list bool;
}.
Definition kSortAscending : bool := true.
Definition kSortNullFirst : bool := true.
Definition kSortNullLast : bool := false.

Definition isValid (c : SortConfiguration) : bool :=
  (length (order_by_ c) =? length (ordering_ c))%nat &&
  (length (order_by_ c) =? length (null_ordering_ c))%nat.

(** [ColumnComparator]: [comparator_] is [kLess] in ascending order and
    [kGreater] otherwise. *)
Record ColumnComparator := {
  cc_ascending : bool;
  cc_null_ordering : bool;
  cc_attr_id : nat;
}.

(** [GenericHeapComparatorInternal]: the loop over the three vectors, which
    stops at the end of the ORDER BY list. *)
Fixpoint column_comparators (order_by : list nat) (ordering null_ordering : list bool)
  : list ColumnComparator :=
  match order_by, ordering, null_ordering with
  | a :: order_by', o :: ordering', n :: null_ordering' =>
      {| cc_ascending := eqb o kSortAscending; cc_null_ordering := n; cc_attr_id := a |} ::
      column_comparators order_by' ordering' null_ordering'
  | _, _, _ => []
  end.

Definition getColumnComparators (c : SortConfiguration) : list ColumnComparator :=
  column_comparators (order_by_ c) (ordering_ c) (null_ordering_ c).

Section merger.
Context {V : Type} `{!ColumnValues V}.
Implicit Types (t : Tuple V) (run : list (list (Tuple V))).

Definition comparator_ (c : ColumnComparator) : V → V → bool :=
  if cc_ascending c then kLess else kGreater.

(** [GenericHeapComparator::operator()]: whether [left] comes after [right]. *)
Fixpoint generic_comp (columns : list ColumnComparator) (left right : Tuple V) : bool :=
  match columns with
  | [] => false
  | column :: columns' =>
      let left_value := getUntypedValue (cc_attr_id column) left in
      let right_value := getUntypedValue (cc_attr_id column) right in
      match left_value, right_value with
      | Some l, Some r =>
          if comparator_ column l r then false
          else if negb (kEqual l r) then true
          else generic_comp columns' left right
      | None, None => generic_comp columns' left right
      | _, _ =>
          (eqb (cc_null_ordering column) kSortNullLast && bool_decide (is_Some right_value)) ||
          (eqb (cc_null_ordering column) kSortNullFirst && bool_decide (is_Some left_value))
      end
  end.

(** [SingleColumnHeapComparator], on values that are not NULL. *)
Definition single_comp (ascending : bool) : V → V → bool :=
  if eqb ascending kSortAscending then kGreater else kLess.

(** ** Writing a run *)

(** [fits block tuple]: [insertTupleInBatch] succeeds on a block that holds
    the tuples [block]. *)
Context (fits : list (Tuple V) → Tuple V → bool).

Record RunCreator := {
  rc_run : list (list (Tuple V));
  rc_block : list (Tuple V);
}.

Definition new_RunCreator : RunCreator := {| rc_run := []; rc_block := [] |}.

(** [while (!insertTupleInBatch(tuple))]: a tuple that does not fit in an
    empty block makes the loop ask for blocks for ever, so one new block is
    all a loop that ends asks for. *)
Fixpoint append_loop (fuel : nat) (tuple : Tuple V) (rc : RunCreator) : outcome RunCreator :=
  if fits (rc_block rc) tuple then
    Ok {| rc_run := rc_run rc; rc_block := rc_block rc ++ [tuple] |}
  else
    match fuel with
    | 0 => Err OutOfFuel
    | S fuel' =>
        append_loop fuel' tuple {| rc_run := rc_run rc ++ [rc_block rc]; rc_block := [] |}
    end.
Definition appendTuple : Tuple V → RunCreator → outcome RunCreator := append_loop 1.

(** The run when it is flushed: an empty last block is taken out. *)
Definition flushBlock (rc : RunCreator) : list (list (Tuple V)) :=
  match rc_block rc with
  | [] => rc_run rc
  | _ => rc_run rc ++ [rc_block rc]
  end.

(** ** Reading a run *)

Record RunIterator := {
  it_current : option (Tuple V);
  it_rest : list (list (Tuple V));
}.
Definition new_RunIterator run : RunIterator := {| it_current := None; it_rest := run |}.

Fixpoint next_tuple run : option (Tuple V * list (list (Tuple V))) :=
  match run with
  | [] => None
  | [] :: run' => next_tuple run'
  | (t :: block) :: run' => Some (t, block :: run')
  end.

Definition next (it : RunIterator) : bool * RunIterator :=
  match next_tuple (it_rest it) with
  | Some (t, rest) => (true, {| it_current := Some t; it_rest := rest |})
  | None => (false, {| it_current := None; it_rest := [] |})
  end.

(** ** The heap *)

Record HeapNode (K : Type) := {
  run_id : nat;
  value : K;
}.
#[global] Arguments run_id {_} _.
#[global] Arguments value {_} _.

(** The members of the merge: the iterators ([nullptr] for a run that was
    exhausted), the heap, the iterators left with NULLs, the output and the
    number of tuples written. *)
Record MergeState (K : Type) := {
  iterators : list (option RunIterator);
  heap : list (HeapNode K);
  null_iterators : list nat;
  output : RunCreator;
  num_tuples : nat;
}.
#[global] Arguments iterators {_} _.
#[global] Arguments heap {_} _.
#[global] Arguments null_iterators {_} _.
#[global] Arguments output {_} _.
#[global] Arguments num_tuples {_} _.

Definition initial_state {K} : MergeState K :=
  {| iterators := []; heap := []; null_iterators := []; output := new_RunCreator;
     num_tuples := 0 |}.

Definition push_iterator {K} (it : option RunIterator) (st : MergeState K) : MergeState K :=
  {| iterators := iterators st ++ [it]; heap := heap st; null_iterators := null_iterators st;
     output := output st; num_tuples := num_tuples st |}.
Definition push_node {K} (node : HeapNode K) (st : MergeState K) : MergeState K :=
  {| iterators := iterators st; heap := heap st ++ [node];
     null_iterators := null_iterators st; output := output st;
     num_tuples := num_tuples st |}.
Definition push_null {K} (run : nat) (st : MergeState K) : MergeState K :=
  {| iterators := iterators st; heap := heap st;
     null_iterators := null_iterators st ++ [run]; output := output st;
     num_tuples := num_tuples st |}.
Definition set_iterator {K} (run : nat) (it : RunIterator) (st : MergeState K) : MergeState K :=
  {| iterators := <[run := Some it]> (iterators st); heap := heap st;
     null_iterators := null_iterators st; output := output st;
     num_tuples := num_tuples st |}.

(** [iterators[run_id]], which must not be null. *)
Definition get_iterator {K} (run : nat) (st : MergeState K) : outcome RunIterator :=
  it ← vec_at (iterators st) run;
  match it with Some it => Ok it | None => Err UndefinedBehaviour end.

(** [getValueAccessor()->getTuple()] *)
Definition getTuple (it : RunIterator) : outcome (Tuple V) :=
  match it_current it with Some t => Ok t | None => Err UndefinedBehaviour end.

(** A tuple is written, and the limit checked. *)
Definition write_tuple {K} (top_k : nat) (t : Tuple V) (st : MergeState K)
  : outcome (bool * MergeState K) :=
  out ← appendTuple t (output st);
  let n := if (0 <? top_k)%nat then S (num_tuples st) else num_tuples st in
  mret ((0 <? top_k)%nat && (n =? top_k)%nat,
        {| iterators := iterators st; heap := heap st;
           null_iterators := null_iterators st; output := out; num_tuples := n |}).

(** [std::pop_heap] and [pop_back] after [std::make_heap] or
    [std::push_heap]: some element that no element of the heap exceeds in the
    order [comp] is taken out. *)
Class HeapTop := {
  heap_top : ∀ {K} (comp : K → K → bool), list (HeapNode K) →
    option (HeapNode K * list (HeapNode K));
  heap_top_none K comp (h : list (HeapNode K)) : heap_top comp h = None ↔ h = [];
  heap_top_some K (comp : K → K → bool) (h : list (HeapNode K)) x rest :
    heap_top comp h = Some (x, rest) →
    h ≡ₚ x :: rest ∧
    ((∀ a, comp a a = false) →
     (∀ a b c, comp a b = false → comp b c = false → comp a c = false) →
     (∀ a b, comp a b = true → comp b a = false) →
     Forall (λ y, comp (value x) (value y) = false) rest);
}.
Context `{!HeapTop}.

(** The loop [while (!heap.empty())]: each iteration writes a tuple. *)
Fixpoint heap_loop {K} (comp : K → K → bool)
    (reinsert : nat → Tuple V → MergeState K → outcome (MergeState K))
    (top_k fuel : nat) (st : MergeState K) : outcome (bool * MergeState K) :=
  match heap_top comp (heap st) with
  | None => Ok (false, st)
  | Some (current, rest) =>
      match fuel with
      | 0 => Err OutOfFuel
      | S fuel' =>
          let st1 := {| iterators := iterators st; heap := rest;
                        null_iterators := null_iterators st; output := output st;
                        num_tuples := num_tuples st |} in
          it ← get_iterator (run_id current) st1;
          t ← getTuple it;
          x ← write_tuple top_k t st1;
          if (x.1 : bool) then Ok (true, x.2)
          else
            let '(more, it') := next it in
            let st2 := set_iterator (run_id current) it' x.2 in
            if more then
              t' ← getTuple it';
              st3 ← reinsert (run_id current) t' st2;
              heap_loop comp reinsert top_k fuel' st3
            else heap_loop comp reinsert top_k fuel' st2
      end
  end.

Definition total_tuples (runs : list (list (list (Tuple V)))) : nat :=
  length (mjoin (mjoin runs)).

(** ** The generic merge *)

Fixpoint generic_init (run : nat) (runs : list (list (list (Tuple V))))
    (st : MergeState (Tuple V)) : outcome (MergeState (Tuple V)) :=
  match runs with
  | [] => Ok st
  | r :: runs' =>
      let '(more, it) := next (new_RunIterator r) in
      let st1 := push_iterator (Some it) st in
      if more then
        t ← getTuple it;
        generic_init (S run) runs' (push_node {| run_id := run; value := t |} st1)
      else generic_init (S run) runs' st1
  end.

Definition generic_reinsert (run : nat) (t : Tuple V) (st : MergeState (Tuple V))
  : outcome (MergeState (Tuple V)) := Ok (push_node {| run_id := run; value := t |} st).

Definition mergeGeneric (columns : list ColumnComparator) (top_k : nat)
    (runs : list (list (list (Tuple V)))) : outcome RunCreator :=
  st ← generic_init 0 runs initial_state;
  x ← heap_loop (generic_comp columns) generic_reinsert top_k (total_tuples runs) st;
  mret (output x.2).

(** ** One column, NULLs first *)

(** The [while] over the NULLs at the head of a run: whether the limit was
    reached, and the iterator at the first value, if there is one. *)
Fixpoint skip_nulls (attr_id top_k fuel : nat) (it : RunIterator) (st : MergeState V)
  : outcome (bool * option (RunIterator * V) * MergeState V) :=
  let '(more, it') := next it in
  if more then
    t ← getTuple it';
    match getUntypedValue attr_id t with
    | Some v => Ok (false, Some (it', v), st)
    | None =>
        match fuel with
        | 0 => Err OutOfFuel
        | S fuel' =>
            x ← write_tuple top_k t st;
            if (x.1 : bool) then Ok (true, None, x.2) else skip_nulls attr_id top_k fuel' it' x.2
        end
    end
  else Ok (false, None, st).

Fixpoint null_first_init (attr_id top_k run : nat) (runs : list (list (list (Tuple V))))
    (st : MergeState V) : outcome (bool * MergeState V) :=
  match runs with
  | [] => Ok (false, st)
  | r :: runs' =>
      x ← skip_nulls attr_id top_k (length (mjoin r)) (new_RunIterator r) st;
      if (x.1.1 : bool) then Ok (true, x.2)
      else
        match x.1.2 with
        | Some (it, v) =>
            null_first_init attr_id top_k (S run) runs'
              (push_iterator (Some it) (push_node {| run_id := run; value := v |} x.2))
        | None => null_first_init attr_id top_k (S run) runs' (push_iterator None x.2)
        end
  end.

(** [getUntypedValue<false>]: the value is taken not to be NULL. *)
Definition null_first_reinsert (attr_id run : nat) (t : Tuple V) (st : MergeState V)
  : outcome (MergeState V) :=
  match getUntypedValue attr_id t with
  | Some v => Ok (push_node {| run_id := run; value := v |} st)
  | None => Err UndefinedBehaviour
  end.

Definition mergeSingleColumnNullFirst (attr_id : nat) (ascending : bool) (top_k : nat)
    (runs : list (list (list (Tuple V)))) : outcome RunCreator :=
  x ← null_first_init attr_id top_k 0 runs initial_state;
  if (x.1 : bool) then mret (output x.2)
  else
    y ← heap_loop (single_comp ascending) (null_first_reinsert attr_id) top_k
          (total_tuples runs) x.2;
    mret (output y.2).

(** ** One column, NULLs last *)

Definition null_last_reinsert (attr_id run : nat) (t : Tuple V) (st : MergeState V)
  : outcome (MergeState V) :=
  match getUntypedValue attr_id t with
  | Some v => Ok (push_node {| run_id := run; value := v |} st)
  | None => Ok (push_null run st)
  end.

Fixpoint null_last_init (attr_id run : nat) (runs : list (list (list (Tuple V))))
    (st : MergeState V) : outcome (MergeState V) :=
  match runs with
  | [] => Ok st
  | r :: runs' =>
      let '(more, it) := next (new_RunIterator r) in
      let st1 := push_iterator (Some it) st in
      if more then
        t ← getTuple it;
        st2 ← null_last_reinsert attr_id run t st1;
        null_last_init attr_id (S run) runs' st2
      else null_last_init attr_id (S run) runs' st1
  end.

(** The [do ... while] over one of the iterators left with NULLs. *)
Fixpoint drain_nulls (top_k fuel : nat) (it : RunIterator) (st : MergeState V)
  : outcome (bool * MergeState V) :=
  match fuel with
  | 0 => Err OutOfFuel
  | S fuel' =>
      t ← getTuple it;
      x ← write_tuple top_k t st;
      if (x.1 : bool) then Ok (true, x.2)
      else
        let '(more, it') := next it in
        if more then drain_nulls top_k fuel' it' x.2 else Ok (false, x.2)
  end.

Fixpoint drain_all (top_k fuel : nat) (runs : list nat) (st : MergeState V)
  : outcome (MergeState V) :=
  match runs with
  | [] => Ok st
  | run :: runs' =>
      it ← get_iterator run st;
      x ← drain_nulls top_k fuel it st;
      if (x.1 : bool) then Ok (x.2) else drain_all top_k fuel runs' x.2
  end.

Definition mergeSingleColumnNullLast (attr_id : nat) (ascending : bool) (top_k : nat)
    (runs : list (list (list (Tuple V)))) : outcome RunCreator :=
  st ← null_last_init attr_id 0 runs initial_state;
  x ← heap_loop (single_comp ascending) (null_last_reinsert attr_id) top_k
        (total_tuples runs) st;
  if (x.1 : bool) then mret (output x.2)
  else
    st' ← drain_all top_k (total_tuples runs) (null_iterators x.2) x.2;
    mret (output st').

(** ** Copying the only run *)

Fixpoint copy_loop (top_k fuel : nat) (it : RunIterator) (st : MergeState V)
  : outcome (MergeState V) :=
  let '(more, it') := next it in
  if more then
    match fuel with
    | 0 => Err OutOfFuel
    | S fuel' =>
        t ← getTuple it';
        x ← write_tuple top_k t st;
        if (x.1 : bool) then Ok (x.2) else copy_loop top_k fuel' it' x.2
    end
  else Ok st.

Definition copyToOutput (top_k : nat) (run : list (list (Tuple V))) : outcome RunCreator :=
  st ← copy_loop top_k (length (mjoin run)) (new_RunIterator run) initial_state;
  mret (output st).

(** ** [doMerge]

    The first block of the runs is read to learn the type of its accessor;
    with no block in any run, [kInvalidBlockId] is asked for. *)
Definition doMerge (c : SortConfiguration) (top_k : nat)
    (runs : list (list (list (Tuple V)))) : outcome (list (list (Tuple V))) :=
  match mjoin runs with
  | [] => Err UndefinedBehaviour
  | _ =>
      rc ← match runs with
           | [run] => copyToOutput top_k run
           | _ =>
               if (length (order_by_ c) =? 1)%nat then
                 attr_id ← vec_at (order_by_ c) 0;
                 ascending ← vec_at (ordering_ c) 0;
                 null_ordering ← vec_at (null_ordering_ c) 0;
                 if eqb null_ordering kSortNullLast
                 then mergeSingleColumnNullLast attr_id ascending top_k runs
                 else mergeSingleColumnNullFirst attr_id ascending top_k runs
               else mergeGeneric (getColumnComparators c) top_k runs
           end;
      mret (flushBlock rc)
  end.
End merger.
