(* ===== verification/RunMergerOrder.v ===== *)
(** * The order of an ORDER BY clause

    The comparators of RunMerger.v are the two sides of one total preorder on
    tuples; what the first tuples of a collection in that order are. *)

From S2P Require Import Prelude RunMerger.
From stdpp Require Import options.

(** ** Three-way comparisons *)

Record compare_laws {A} (f : A → A → comparison) : Prop := {
  cl_antisym a b : f b a = CompOpp (f a b);
  cl_trans a b c : f a b = Lt → f b c = Lt → f a c = Lt;
  cl_eq a b c : f a b = Eq → f a c = f b c;
}.

Section compare.
Context {A : Type} (f : A → A → comparison) (L : compare_laws f).
#[local] Set Default Proof Using "Type*".

Lemma cl_refl a : f a a = Eq.
Proof. pose proof (cl_antisym _ L a a) as H. by destruct (f a a). Qed.

Lemma cl_eq_r a b c : f a b = Eq → f c a = f c b.
Proof.
  intros H. rewrite (cl_antisym _ L a c), (cl_antisym _ L b c). f_equal. by apply L.
Qed.

Lemma cl_le_trans a b c : f a b ≠ Gt → f b c ≠ Gt → f a c ≠ Gt.
Proof.
  intros Hab Hbc. destruct (f a b) eqn:Eab; [|destruct (f b c) eqn:Ebc|done].
  - by rewrite (cl_eq _ L a b c Eab).
  - by rewrite <- (cl_eq_r b c a Ebc), Eab.
  - by rewrite (cl_trans _ L a b c).
  - done.
Qed.

Lemma cl_total a b : f a b = Gt → f b a ≠ Gt.
Proof. intros H. by rewrite (cl_antisym _ L a b), H. Qed.
End compare.

Lemma laws_value {V} `{!ColumnValues V} : compare_laws value_compare.
Proof.
  split; [apply value_compare_antisym|intros a b c; apply value_compare_trans|].
  apply value_compare_eq.
Qed.

Lemma laws_opp {A} (f : A → A → comparison) :
  compare_laws f → compare_laws (λ a b, CompOpp (f a b)).
Proof.
  intros L. split.
  - intros a b. by rewrite (cl_antisym _ L a b).
  - intros a b c Hab Hbc. rewrite (cl_antisym _ L c a), CompOpp_involutive.
    apply (cl_trans _ L c b a); [rewrite (cl_antisym _ L b c)|rewrite (cl_antisym _ L a b)]; done.
  - intros a b c H. f_equal. apply L. by destruct (f a b).
Qed.

(** NULLs before or after the values. *)
Definition null_compare {A} (null_ordering : bool) (f : A → A → comparison)
    (x y : option A) : comparison :=
  match x, y with
  | Some a, Some b => f a b
  | None, None => Eq
  | Some _, None => if eqb null_ordering kSortNullLast then Lt else Gt
  | None, Some _ => if eqb null_ordering kSortNullLast then Gt else Lt
  end.

Lemma laws_null {A} n (f : A → A → comparison) :
  compare_laws f → compare_laws (null_compare n f).
Proof.
  intros L. split.
  - intros [a|] [b|]; cbn; [apply L|by destruct n..|done].
  - intros [a|] [b|] [c|]; cbn; try by destruct n. apply L.
  - intros [a|] [b|] [c|]; cbn; try by destruct n. apply L.
Qed.

Lemma laws_map {A B} (g : B → A) (f : A → A → comparison) :
  compare_laws f → compare_laws (λ x y, f (g x) (g y)).
Proof. intros []. split; naive_solver. Qed.

Definition lex_compare {A} (f g : A → A → comparison) (x y : A) : comparison :=
  match f x y with Eq => g x y | c => c end.

Lemma laws_lex {A} (f g : A → A → comparison) :
  compare_laws f → compare_laws g → compare_laws (lex_compare f g).
Proof.
  intros Lf Lg. unfold lex_compare. split.
  - intros a b. rewrite (cl_antisym _ Lf a b). destruct (f a b); cbn; [apply Lg|done..].
  - intros a b c Hab Hbc. destruct (f a b) eqn:E1; [|destruct (f b c) eqn:E2|done]; try done.
    + rewrite (cl_eq _ Lf a b c E1). destruct (f b c); [|done..]. by apply (cl_trans _ Lg a b c).
    + by rewrite <- (cl_eq_r _ Lf b c a E2), E1.
    + by rewrite (cl_trans _ Lf a b c).
  - intros a b c H. destruct (f a b) eqn:E; [|done..]. rewrite (cl_eq _ Lf a b c E).
    destruct (f b c); [|done..]. by apply Lg.
Qed.

(** ** The order on tuples *)

Section order.
Context {V : Type} `{!ColumnValues V}.

Definition column_compare (c : ColumnComparator) (l r : Tuple V) : comparison :=
  null_compare (cc_null_ordering c)
    (if cc_ascending c then value_compare else λ a b, CompOpp (value_compare a b))
    (getUntypedValue (cc_attr_id c) l) (getUntypedValue (cc_attr_id c) r).

Fixpoint tuple_compare (columns : list ColumnComparator) : Tuple V → Tuple V → comparison :=
  match columns with
  | [] => λ _ _, Eq
  | c :: columns' => lex_compare (column_compare c) (tuple_compare columns')
  end.

Lemma column_compare_laws c : compare_laws (column_compare c).
Proof.
  unfold column_compare.
  apply (laws_map (getUntypedValue (cc_attr_id c)) (null_compare _ _)), laws_null.
  destruct (cc_ascending c); [|apply laws_opp]; apply laws_value.
Qed.

Lemma tuple_compare_laws columns : compare_laws (tuple_compare columns).
Proof.
  induction columns as [|c columns IH]; cbn.
  - by split.
  - apply laws_lex; [apply column_compare_laws|done].
Qed.

(** [operator()] of the heap is the strict order, reversed. *)
Lemma generic_comp_compare columns l r :
  generic_comp columns l r = match tuple_compare columns l r with Gt => true | _ => false end.
Proof.
  induction columns as [|c columns IH]; [done|]. cbn. unfold lex_compare, column_compare.
  destruct (getUntypedValue _ l) as [a|], (getUntypedValue _ r) as [b|]; cbn [null_compare].
  - rewrite IH. unfold comparator_, kLess, kGreater, kEqual.
    by destruct (cc_ascending c), (value_compare a b).
  - by destruct (cc_null_ordering c).
  - by destruct (cc_null_ordering c).
  - done.
Qed.

Definition tuple_le (columns : list ColumnComparator) (l r : Tuple V) : Prop :=
  generic_comp columns l r = false.

Lemma tuple_le_compare columns l r : tuple_le columns l r ↔ tuple_compare columns l r ≠ Gt.
Proof. unfold tuple_le. rewrite generic_comp_compare. by destruct (tuple_compare _ _ _). Qed.

#[export] Instance tuple_le_dec columns l r : Decision (tuple_le columns l r).
Proof. unfold tuple_le. apply _. Defined.

#[export] Instance tuple_le_preorder columns : PreOrder (tuple_le columns).
Proof.
  pose proof (tuple_compare_laws columns) as L. split.
  - intros t. rewrite tuple_le_compare, (cl_refl _ L). done.
  - intros a b c. rewrite !tuple_le_compare. by apply cl_le_trans.
Qed.

Lemma tuple_le_total columns l r : tuple_le columns l r ∨ tuple_le columns r l.
Proof.
  rewrite !tuple_le_compare. destruct (tuple_compare columns l r) eqn:E; [by left..|].
  right. by apply (cl_total _ (tuple_compare_laws columns)).
Qed.
End order.

(** ** The first tuples of a collection *)

(** [out] are the first [k] of [input] in the order [R], in that order; with
    [k = 0] there is no limit. *)
Definition is_top {A} (R : relation A) (k : nat) (input out : list A) : Prop :=
  StronglySorted R out ∧
  ∃ rest, out ++ rest ≡ₚ input ∧ (∀ x y, x ∈ out → y ∈ rest → R x y) ∧
    (k = 0 → rest = []) ∧ (rest ≠ [] → length out = k) ∧ (k ≠ 0 → length out ≤ k).

(** [out] holds the first [k] of [input], and perhaps more of them. *)
Definition keeps_top {A} (R : relation A) (k : nat) (input out : list A) : Prop :=
  StronglySorted R out ∧
  ∃ rest, out ++ rest ≡ₚ input ∧ (∀ x y, x ∈ out → y ∈ rest → R x y) ∧
    (k = 0 → rest = []) ∧ (rest ≠ [] → k ≤ length out).

Lemma is_top_keeps {A} (R : relation A) k input out : is_top R k input out → keeps_top R k input out.
Proof.
  intros (Hs & rest & Hp & Hle & H0 & Hk & _). split; [done|]. exists rest.
  split_and!; [done..|]. intros Hne. by rewrite Hk.
Qed.

Lemma keeps_top_all {A} (R : relation A) k l : StronglySorted R l → keeps_top R k l l.
Proof.
  intros Hs. split; [done|]. exists []. rewrite app_nil_r.
  split_and!; try done. intros ? y _ Hy. by apply not_elem_of_nil in Hy.
Qed.

Lemma keeps_top_nonempty {A} (R : relation A) k input out :
  keeps_top R k input out → input ≠ [] → out ≠ [].
Proof.
  intros (_ & rest & Hp & _ & H0 & Hk) Hne ->. cbn in Hp. destruct rest as [|x rest].
  - by apply Permutation_nil_l in Hp.
  - specialize (Hk ltac:(done)). cbn in Hk. discriminate H0. lia.
Qed.

Lemma length_filter_all {A} (P : A → Prop) `{!∀ x, Decision (P x)} l :
  Forall P l → length (filter P l) = length l.
Proof. induction 1; [done|]. rewrite filter_cons_True by done. cbn. by f_equal. Qed.

Lemma filter_none {A} (P : A → Prop) `{!∀ x, Decision (P x)} l :
  Forall (λ x, ¬ P x) l → filter P l = [].
Proof. induction 1; [done|]. by rewrite filter_cons_False. Qed.

Section top.
Context {A : Type} (R : relation A) `{!PreOrder R} `{!∀ x y, Decision (R x y)}.

Lemma is_top_perm k input input' out :
  input ≡ₚ input' → is_top R k input out → is_top R k input' out.
Proof using Type.
  intros Hp (Hs & rest & Hr & ?). split; [done|]. exists rest. by rewrite Hr.
Qed.

(** An element that [k] others precede is not before any of the first [k]. *)
Lemma top_excludes k out rest part (x y : A) :
  length out ≤ k → k ≤ length part →
  part ⊆+ out ++ rest → (∀ x y, x ∈ out → y ∈ rest → R x y) →
  (∀ z, z ∈ part → R z y) → x ∈ out → R x y.
Proof using All.
  intros Ho Hp [others Hsub]%submseteq_Permutation Hle Hpart Hx.
  destruct (decide (R x y)) as [|Hn]; [done|]. exfalso.
  assert (Forall (λ z, ¬ R x z) part) as Hlow.
  { apply Forall_forall. intros z Hz Hxz. apply Hn. etrans; [exact Hxz|by apply Hpart]. }
  assert (Forall (λ z, ¬ ¬ R x z) rest) as Hhigh.
  { apply Forall_forall. intros z Hz Hxz. by apply Hxz, Hle. }
  assert (length (filter (λ z, ¬ R x z) out) < length out) as Hlt.
  { apply (length_filter_lt _ _ x); [done|]. intros []. done. }
  pose proof (Permutation_length (filter_Permutation (λ z, ¬ R x z) _ _ Hsub)) as Hl.
  rewrite !filter_app, !length_app, (filter_none _ rest), (length_filter_all _ part) in Hl by done.
  cbn in Hl. lia.
Qed.

(** The first of the first. *)
Lemma is_top_compose k (ps : list (list A * list A)) out :
  Forall (λ p, keeps_top R k p.1 p.2) ps → is_top R k (mjoin (snd <$> ps)) out →
  is_top R k (mjoin (fst <$> ps)) out.
Proof using All.
  intros Hps (Hs & rest & Hp & Hle & H0 & Hk & Hlen). split; [done|].
  assert (∃ rests, mjoin (snd <$> ps) ++ rests ≡ₚ mjoin (fst <$> ps) ∧
    (k = 0 → rests = []) ∧
    ∀ y, y ∈ rests → ∃ p, p ∈ ps ∧ k ≤ length p.2 ∧ ∀ z, z ∈ p.2 → R z y)
    as (rests & Hr & Hr0 & Hry).
  { clear - Hps. induction Hps as [|[i r] ps (_ & rest & Hp & Hle & H0 & Hk) _ (rests & Hr & Hr0 & Hry)].
    - exists []. split_and!; [done..|]. intros y Hy. by apply not_elem_of_nil in Hy.
    - cbn in *. exists (rest ++ rests). split_and!.
      + rewrite <- Hp, <- Hr, <- !app_assoc. f_equiv. rewrite !app_assoc. f_equiv.
        apply Permutation_app_comm.
      + intros E. by rewrite H0, Hr0.
      + intros y [Hy|Hy]%elem_of_app.
        * exists (i, r). split; [left|]. split; [apply Hk; by intros ->; apply not_elem_of_nil in Hy|].
          intros z Hz. by apply Hle.
        * destruct (Hry y Hy) as (p & ? & ?). exists p. split; [by right|done]. }
  exists (rest ++ rests). split_and!.
  - by rewrite app_assoc, Hp.
  - intros x y Hx [Hy|Hy]%elem_of_app; [by apply Hle|].
    destruct (Hry y Hy) as (p & Hin & Hpl & Hpy).
    assert (k ≠ 0) as Hk0. { intros ->. rewrite (Hr0 eq_refl) in Hy. by apply not_elem_of_nil in Hy. }
    apply (top_excludes k out rest p.2); [by apply Hlen|done| |done..].
    rewrite Hp. apply list_elem_of_split in Hin as (l1 & l2 & ->).
    rewrite fmap_app, join_app. cbn. by apply submseteq_inserts_l, submseteq_inserts_r.
  - intros E. by rewrite H0, Hr0.
  - intros Hne. destruct rest; [|by apply Hk].
    destruct rests as [|y rests]; [done|]. destruct (Hry y) as (p & Hin & Hpl & _); [left|].
    assert (k ≠ 0) as Hk0 by (intros ->; discriminate (Hr0 eq_refl)).
    specialize (Hlen Hk0). apply Nat.le_antisymm; [done|].
    rewrite app_nil_r in Hp. rewrite Hp. etrans; [exact Hpl|].
    apply list_elem_of_split in Hin as (l1 & l2 & ->).
    rewrite fmap_app, join_app, length_app. cbn. rewrite length_app. lia.
  - done.
Qed.
End top.
