(* ===== verification/RunMergerLoop.v ===== *)
(** * The heap loop of a merge

    The loop shared by the three heap-based merges of RunMerger.v writes the
    smallest head of the runs in the heap until none is left or the limit is
    reached; runs that come to their NULLs are set aside. *)

From S2P Require Import Prelude RunMerger RunMergerOrder.
From stdpp Require Import options.

Section loop.
Context {V : Type} `{!ColumnValues V} (fits : list (Tuple V) → Tuple V → bool).
Implicit Types (t : Tuple V) (it : RunIterator (V := V)).

(** ** Reading and writing *)

Lemma next_spec it :
  match next it with
  | (true, it') => ∃ t, it_current it' = Some t ∧ mjoin (it_rest it) = t :: mjoin (it_rest it')
  | (false, it') => mjoin (it_rest it) = [] ∧ it' = {| it_current := None; it_rest := [] |}
  end.
Proof using Type.
  unfold next. induction (it_rest it) as [|[|t b] run IH]; cbn; [done|done|]. by exists t.
Qed.

Definition tuples_of (rc : RunCreator (V := V)) : list (Tuple V) :=
  mjoin (rc_run rc) ++ rc_block rc.

Lemma flushBlock_tuples rc : mjoin (flushBlock rc) = tuples_of rc.
Proof using Type.
  unfold flushBlock, tuples_of. destruct (rc_block rc); [by rewrite app_nil_r|].
  rewrite join_app. cbn. by rewrite app_nil_r.
Qed.

Lemma appendTuple_spec t rc :
  fits [] t = true →
  ∃ rc', appendTuple fits t rc = Ok rc' ∧ tuples_of rc' = tuples_of rc ++ [t].
Proof using Type.
  intros Hf. unfold appendTuple. cbn [append_loop]. destruct (fits (rc_block rc) t).
  - eexists. split; [done|]. unfold tuples_of. cbn. by rewrite app_assoc.
  - cbn [rc_block rc_run]. rewrite Hf. eexists. split; [done|]. unfold tuples_of. cbn.
    rewrite join_app. cbn. by rewrite app_nil_r.
Qed.

Context {K : Type}.
Implicit Types (st : MergeState (V := V) K).

Definition written st : list (Tuple V) := tuples_of (output st).

(** Fewer tuples than the limit have been written. *)
Definition counted (top_k : nat) st : Prop :=
  top_k ≠ 0 → num_tuples st = length (written st) ∧ num_tuples st < top_k.

Lemma write_tuple_spec top_k t st :
  fits [] t = true → counted top_k st →
  ∃ stop st', write_tuple fits top_k t st = Ok (stop, st') ∧
    written st' = written st ++ [t] ∧ iterators st' = iterators st ∧ heap st' = heap st ∧
    null_iterators st' = null_iterators st ∧
    (if stop then top_k ≠ 0 ∧ length (written st') = top_k else counted top_k st').
Proof using Type.
  intros Hf Hc. unfold write_tuple.
  destruct (appendTuple_spec t (output st) Hf) as (rc' & -> & Hrc).
  cbn [mbind outcome_bind]. do 2 eexists. split; [done|].
  unfold counted, written in *. cbn [output iterators heap null_iterators num_tuples]. rewrite Hrc.
  split_and!; [done..|]. rewrite length_app. cbn [length].
  destruct (Nat.ltb_spec 0 top_k) as [Hk|Hk]; cbn [andb]; [|intros; lia].
  destruct (Hc ltac:(lia)) as [Hn Hlt]. destruct (Nat.eqb_spec (S (num_tuples st)) top_k); lia.
Qed.

(** ** What is left to write *)

Definition stream st (r : nat) : list (Tuple V) :=
  match iterators st !! r with
  | Some (Some it) => option_list (it_current it) ++ mjoin (it_rest it)
  | _ => []
  end.

Definition active st : list nat := (run_id <$> heap st) ++ null_iterators st.
Definition remaining st : list (Tuple V) := mjoin (stream st <$> active st).

Context (comp : K → K → bool) (key : Tuple V → option K).
Context (R : relation (Tuple V)) (P : Tuple V → Prop).

(** The run [r] is at a tuple with key [k]. *)
Definition at_key st (r : nat) (k : option K) : Prop :=
  ∃ it t, iterators st !! r = Some (Some it) ∧ it_current it = Some t ∧ key t = k.

Record good st : Prop := {
  good_nodup : NoDup (active st);
  good_heap node : node ∈ heap st → at_key st (run_id node) (Some (value node));
  good_nulls r : r ∈ null_iterators st → at_key st r None;
  good_sorted r : r ∈ active st → StronglySorted R (stream st r);
  good_P r : r ∈ active st → Forall P (stream st r);
}.

Definition insert_next (r : nat) t st : MergeState K :=
  match key t with
  | Some k => push_node {| run_id := r; value := k |} st
  | None => push_null r st
  end.

Lemma at_key_stream st r k :
  at_key st r k → ∃ t s, stream st r = t :: s ∧ key t = k.
Proof using Type.
  intros (it & t & Hi & Ht & Hk). exists t, (mjoin (it_rest it)).
  unfold stream. by rewrite Hi, Ht.
Qed.

(** States that differ in what is written only. *)
Lemma stream_eq st st' r : iterators st' = iterators st → stream st' r = stream st r.
Proof using Type. intros E. unfold stream. by rewrite E. Qed.

Lemma stream_ne st r it r' : r' ≠ r → stream (set_iterator r it st) r' = stream st r'.
Proof using Type. intros Hr. unfold stream. cbn. by rewrite list_lookup_insert_ne. Qed.

Lemma at_key_ne st r it r' k : r' ≠ r → at_key st r' k → at_key (set_iterator r it st) r' k.
Proof using Type.
  intros Hr (it' & t & ? & ?). exists it', t. cbn. by rewrite list_lookup_insert_ne.
Qed.

Lemma active_insert_next r t st : active (insert_next r t st) ≡ₚ r :: active st.
Proof using Type.
  unfold insert_next, active. destruct (key t) as [k|]; cbn.
  - rewrite fmap_app. cbn. solve_Permutation.
  - rewrite app_assoc. symmetry. apply Permutation_cons_append.
Qed.

Lemma iterators_insert_next r t st : iterators (insert_next r t st) = iterators st.
Proof using Type. unfold insert_next. by destruct (key t). Qed.

Lemma written_insert_next r t st : written (insert_next r t st) = written st.
Proof using Type. unfold insert_next. by destruct (key t). Qed.

Lemma counted_insert_next k r t st : counted k st → counted k (insert_next r t st).
Proof using Type. unfold insert_next. by destruct (key t). Qed.

(** The state once the run [r], taken out of the heap, has moved on. *)
Lemma insert_next_good st r it it' t' :
  good st → r ∉ active st → iterators st !! r = Some (Some it) → it_current it' = Some t' →
  mjoin (it_rest it) = t' :: mjoin (it_rest it') →
  StronglySorted R (mjoin (it_rest it)) → Forall P (mjoin (it_rest it)) →
  good (insert_next r t' (set_iterator r it' st)) ∧
  remaining (insert_next r t' (set_iterator r it' st)) ≡ₚ mjoin (it_rest it) ++ remaining st.
Proof using Type.
  intros Hg Hr Hi Ht Hm Hs HP. pose proof (lookup_lt_Some _ _ _ Hi) as Hlt.
  set (st' := insert_next r t' (set_iterator r it' st)).
  assert (stream st' r = mjoin (it_rest it)) as Hsr.
  { unfold stream, st'. rewrite iterators_insert_next. cbn.
    rewrite list_lookup_insert_eq by done. by rewrite Ht, Hm. }
  assert (∀ x, x ∈ active st → x ≠ r) as Hne by (by intros x Hx ->).
  assert (∀ x, x ∈ active st → stream st' x = stream st x) as Hsx.
  { intros x Hx. unfold st'. rewrite (stream_eq (set_iterator r it' st)) by apply iterators_insert_next.
    apply stream_ne. by apply Hne. }
  assert (∀ x k, x ∈ active st → at_key st x k → at_key st' x k) as Hak.
  { intros x k Hx Ha. apply (at_key_ne _ r it') in Ha; [|by apply Hne].
    unfold at_key, st' in *. by rewrite iterators_insert_next. }
  assert (active st' ≡ₚ r :: active st) as Hact by apply (active_insert_next r t' (set_iterator r it' st)).
  assert (at_key st' r (key t')) as Har.
  { exists it', t'. unfold st'. rewrite iterators_insert_next. cbn.
    by rewrite list_lookup_insert_eq. }
  split; [split|].
  - rewrite Hact. by apply NoDup_cons; split; [|apply Hg].
  - intros node Hn. unfold st', insert_next in Hn. destruct (key t') as [k|] eqn:Ek; cbn in Hn.
    + apply elem_of_app in Hn as [Hn| ->%list_elem_of_singleton]; [|done].
      apply Hak; [|by apply Hg]. apply elem_of_app. left. by apply list_elem_of_fmap_2.
    + apply Hak; [|by apply Hg]. apply elem_of_app. left. by apply list_elem_of_fmap_2.
  - intros x Hx. unfold st', insert_next in Hx. destruct (key t') as [k|] eqn:Ek; cbn in Hx.
    + apply Hak; [|by apply Hg]. apply elem_of_app. by right.
    + apply elem_of_app in Hx as [Hx| ->%list_elem_of_singleton]; [|done].
      apply Hak; [|by apply Hg]. apply elem_of_app. by right.
  - intros x. rewrite Hact. intros [->|Hx]%elem_of_cons; [by rewrite Hsr|].
    rewrite Hsx by done. by apply Hg.
  - intros x. rewrite Hact. intros [->|Hx]%elem_of_cons; [by rewrite Hsr|].
    rewrite Hsx by done. by apply Hg.
  - unfold remaining. rewrite Hact. cbn. rewrite Hsr. f_equiv.
    by rewrite (Forall_fmap_ext_1 (stream st') (stream st)) by by apply Forall_forall.
Qed.

(** A run at its end leaves nothing. *)
Lemma drop_run_good st r it :
  good st → r ∉ active st →
  good (set_iterator r it st) ∧ remaining (set_iterator r it st) = remaining st.
Proof using Type.
  intros Hg Hr. set (st' := set_iterator r it st).
  assert (∀ x, x ∈ active st → x ≠ r) as Hne by (by intros x Hx ->).
  assert (∀ x, x ∈ active st → stream st' x = stream st x) as Hsx.
  { intros x Hx. apply stream_ne. by apply Hne. }
  split; [split|].
  - apply Hg.
  - intros node Hn. apply at_key_ne; [|by apply Hg]. apply Hne, elem_of_app. left.
    by apply list_elem_of_fmap_2.
  - intros x Hx. apply at_key_ne; [|by apply Hg]. apply Hne, elem_of_app. by right.
  - intros x Hx. rewrite Hsx by done. by apply Hg.
  - intros x Hx. rewrite Hsx by done. by apply Hg.
  - unfold remaining. f_equal. by apply Forall_fmap_ext_1, Forall_forall.
Qed.

(** ** The loop *)

Context `{!HeapTop} `{!PreOrder R}.
Context (comp_irrefl : ∀ a, comp a a = false).
Context (comp_trans : ∀ a b c, comp a b = false → comp b c = false → comp a c = false).
Context (comp_asym : ∀ a b, comp a b = true → comp b a = false).
Context (comp_R : ∀ t t' k k', key t = Some k → key t' = Some k' → comp k k' = false → R t t').
Context (P_fits : ∀ t, P t → fits [] t = true).

(** Tuples without a key come after those with one. *)
Definition keyless_last (l : list (Tuple V)) : Prop :=
  ∀ x y, x ∈ l → y ∈ l → key x ≠ None → key y = None → R x y.

Definition with_heap (h : list (HeapNode K)) st : MergeState K :=
  {| iterators := iterators st; heap := h; null_iterators := null_iterators st;
     output := output st; num_tuples := num_tuples st |}.

Lemma active_pop st x rest :
  heap st ≡ₚ x :: rest → active st ≡ₚ run_id x :: active (with_heap rest st).
Proof using Type. intros E. unfold active. cbn. by rewrite E. Qed.

Lemma elem_of_remaining st y : y ∈ remaining st ↔ ∃ r, r ∈ active st ∧ y ∈ stream st r.
Proof using Type.
  unfold remaining. rewrite list_elem_of_join. split.
  - intros (l & Hy & (r & -> & Hr)%list_elem_of_fmap). by exists r.
  - intros (r & Hr & Hy). exists (stream st r). split; [done|]. by apply list_elem_of_fmap_2.
Qed.

Lemma with_heap_good st x rest :
  good st → heap st ≡ₚ x :: rest →
  good (with_heap rest st) ∧ run_id x ∉ active (with_heap rest st).
Proof using Type.
  intros Hg E. pose proof (good_nodup _ Hg) as Hn. rewrite (active_pop st x rest E) in Hn.
  apply NoDup_cons in Hn as [Hx Hn].
  assert (∀ r, r ∈ active (with_heap rest st) → r ∈ active st) as Hin.
  { intros r Hr. rewrite (active_pop st x rest E). by right. }
  split; [|done]. split; [done| |by apply Hg| |].
  - intros node Hnode. apply (good_heap _ Hg). rewrite E. by right.
  - intros r Hr. apply (good_sorted _ Hg). by apply Hin.
  - intros r Hr. apply (good_P _ Hg). by apply Hin.
Qed.

(** The run that is taken out is at the smallest tuple. *)
Lemma pop_spec st x rest :
  good st → keyless_last (remaining st) → heap_top comp (heap st) = Some (x, rest) →
  ∃ it t, iterators st !! run_id x = Some (Some it) ∧ it_current it = Some t ∧
    remaining st ≡ₚ t :: mjoin (it_rest it) ++ remaining (with_heap rest st) ∧
    StronglySorted R (t :: mjoin (it_rest it)) ∧ Forall P (t :: mjoin (it_rest it)) ∧
    Forall (R t) (mjoin (it_rest it) ++ remaining (with_heap rest st)).
Proof using All.
  intros Hg Hl Htop. apply heap_top_some in Htop as [E Hmin].
  specialize (Hmin comp_irrefl comp_trans comp_asym).
  assert (x ∈ heap st) as Hx by (rewrite E; left).
  destruct (good_heap _ Hg x Hx) as (it & t & Hi & Ht & Hk).
  assert (stream st (run_id x) = t :: mjoin (it_rest it)) as Hs by (unfold stream; by rewrite Hi, Ht).
  assert (run_id x ∈ active st) as Hax by (rewrite (active_pop st x rest E); left).
  assert (remaining st ≡ₚ t :: mjoin (it_rest it) ++ remaining (with_heap rest st)) as Hrem.
  { unfold remaining. rewrite (active_pop st x rest E). cbn. by rewrite Hs. }
  pose proof (good_sorted _ Hg _ Hax) as Hso. rewrite Hs in Hso.
  pose proof (good_P _ Hg _ Hax) as HP. rewrite Hs in HP.
  exists it, t. refine (conj Hi (conj Ht (conj Hrem (conj Hso (conj HP _))))).
  apply Forall_app. split; [by apply StronglySorted_inv in Hso as [_ Hso]|]. clear Hso.
  apply Forall_forall. intros y (r & Hr & Hy)%elem_of_remaining.
  assert (r ∈ active st) as Hra by (rewrite (active_pop st x rest E); by right).
  assert (∃ h s, stream st r = h :: s ∧ R t h) as (h & s & Hh & Hth).
  { apply elem_of_app in Hr as [(n & -> & Hn)%list_elem_of_fmap|Hr].
    - destruct (at_key_stream st (run_id n) (Some (value n))) as (h & s & Hh & Hkh).
      { apply (good_heap _ Hg). rewrite E. by right. }
      exists h, s. split; [done|]. apply (comp_R t h (value x) (value n)); [done..|].
      rewrite Forall_forall in Hmin. by apply Hmin.
    - destruct (at_key_stream st r None) as (h & s & Hh & Hkh); [by apply Hg|].
      exists h, s. split; [done|]. apply Hl; [| |congruence|done].
      + rewrite Hrem. left.
      + apply elem_of_remaining. exists r. rewrite Hh. split; [done|left]. }
  change (stream (with_heap rest st) r) with (stream st r) in Hy. rewrite Hh in Hy.
  apply elem_of_cons in Hy as [->|Hy]; [done|]. etrans; [exact Hth|].
  pose proof (good_sorted _ Hg r Hra) as Hso. rewrite Hh in Hso.
  apply StronglySorted_inv in Hso as [_ Hso]. rewrite Forall_forall in Hso. by apply Hso.
Qed.

Context (reinsert : nat → Tuple V → MergeState (V := V) K → outcome (MergeState (V := V) K)).
Context (reinsert_next : ∀ r t st, P t → reinsert r t st = Ok (insert_next r t st)).

(** What a loop that started with [todo] left to write has done: it wrote
    [p], the first of [todo], and [rest] is what is left of it. *)
Definition wrote_first (top_k : nat) (stop : bool) (before : list (Tuple V))
    (after todo rest p : list (Tuple V)) : Prop :=
  after = before ++ p ∧ p ++ rest ≡ₚ todo ∧ StronglySorted R p ∧
  (∀ x y, x ∈ p → y ∈ rest → R x y) ∧ (stop = true → top_k ≠ 0 ∧ length after = top_k).

Lemma wrote_first_cons top_k stop before after todo rest p t todo' :
  todo ≡ₚ t :: todo' → Forall (R t) todo' →
  wrote_first top_k stop (before ++ [t]) after todo' rest p →
  wrote_first top_k stop before after todo rest (t :: p).
Proof using Type.
  intros Ht Hle (Ha & Hp & Hs & Hx & Hk). split_and!.
  - by rewrite Ha, <- app_assoc.
  - cbn. by rewrite Hp, Ht.
  - constructor; [done|]. rewrite <- Hp in Hle. by apply Forall_app in Hle as [? _].
  - intros x y [->|Hxp]%elem_of_cons Hy; [|by apply Hx].
    rewrite Forall_forall in Hle. apply Hle. rewrite <- Hp. apply elem_of_app. by right.
  - done.
Qed.

Lemma keyless_last_perm l l' l'' : l ≡ₚ l' ++ l'' → keyless_last l → keyless_last l''.
Proof using Type.
  intros E Hl x y Hx Hy. apply Hl; rewrite E; apply elem_of_app; by right.
Qed.

Lemma wrote_first_nil top_k b todo : wrote_first top_k false b b todo todo [].
Proof using Type.
  split_and!; [by rewrite app_nil_r|done|constructor| |done].
  intros ? ? Hx. by apply not_elem_of_nil in Hx.
Qed.

Lemma same_heap st st' :
  iterators st' = iterators st → heap st' = heap st → null_iterators st' = null_iterators st →
  active st' = active st ∧ remaining st' = remaining st ∧ (good st → good st').
Proof using Type.
  intros Hi Hh Hn.
  assert (active st' = active st) as Ha by (unfold active; by rewrite Hh, Hn).
  assert (∀ r, stream st' r = stream st r) as Hs by (intros r; by apply stream_eq).
  split_and!; [done| |].
  - unfold remaining. rewrite Ha. f_equal. by apply list_fmap_ext.
  - intros []. split; [by rewrite Ha| | |intros r; rewrite Ha, Hs; eauto..].
    + intros node. unfold at_key. rewrite Hh, Hi. apply good_heap0.
    + intros r. unfold at_key. rewrite Hn, Hi. apply good_nulls0.
Qed.

(** The state after an iteration that has not reached the limit. *)
Lemma advance_spec top_k st r it :
  good st → counted top_k st → r ∉ active st → iterators st !! r = Some (Some it) →
  StronglySorted R (mjoin (it_rest it)) → Forall P (mjoin (it_rest it)) →
  ∃ st', (let '(more, it') := next it in
          if more then t' ← getTuple it'; reinsert r t' (set_iterator r it' st)
          else Ok (set_iterator r it' st)) = Ok st' ∧
    good st' ∧ remaining st' ≡ₚ mjoin (it_rest it) ++ remaining st ∧
    written st' = written st ∧ counted top_k st'.
Proof using All.
  intros Hg Hc Hr Hi Hs HP. pose proof (next_spec it) as Hnext. destruct (next it) as [[] it'].
  - destruct Hnext as (t' & Ht' & Hm). unfold getTuple. rewrite Ht'. cbn [mbind outcome_bind].
    rewrite reinsert_next by (rewrite Hm in HP; by apply Forall_cons in HP as [? _]).
    destruct (insert_next_good st r it it' t') as [Hg' Hr']; try done.
    eexists. split_and!; [done|done|done| |].
    + by rewrite written_insert_next.
    + by apply counted_insert_next.
  - destruct Hnext as [Hm ->]. destruct (drop_run_good st r {| it_current := None; it_rest := [] |} Hg Hr)
      as [Hg' Hr'].
    eexists. split_and!; [done|done| |done|done]. by rewrite Hr', Hm.
Qed.

Lemma heap_loop_spec top_k fuel st :
  good st → keyless_last (remaining st) → counted top_k st → length (remaining st) ≤ fuel →
  ∃ stop st' rest p, heap_loop fits comp reinsert top_k fuel st = Ok (stop, st') ∧
    wrote_first top_k stop (written st) (written st') (remaining st) rest p ∧
    (stop = false → good st' ∧ heap st' = [] ∧ counted top_k st' ∧ remaining st' = rest).
Proof using All.
  revert st. induction fuel as [|fuel IH]; intros st Hg Hl Hc Hf; cbn [heap_loop];
    (destruct (heap_top comp (heap st)) as [[x rest]|] eqn:Etop;
     [|apply heap_top_none in Etop; exists false, st, (remaining st), [];
       split_and!; auto using wrote_first_nil]).
  - exfalso. destruct (pop_spec st x rest Hg Hl Etop) as (it & t & _ & _ & Hrem & _).
    rewrite Hrem in Hf. cbn in Hf. lia.
  - destruct (pop_spec st x rest Hg Hl Etop) as (it & t & Hi & Ht & Hrem & Hso & HP & Hle).
    apply heap_top_some in Etop as [E _].
    destruct (with_heap_good st x rest Hg E) as [Hg1 Hx].
    apply Forall_cons in HP as [HPt HP]. apply StronglySorted_inv in Hso as [Hso _].
    fold (with_heap rest st).
    assert (get_iterator (run_id x) (with_heap rest st) = Ok it) as ->
      by (unfold get_iterator, vec_at; cbn; by rewrite Hi).
    assert (getTuple it = Ok t) as Hget by (unfold getTuple; by rewrite Ht).
    cbn [mbind outcome_bind]. rewrite Hget. cbn [mbind outcome_bind].
    destruct (write_tuple_spec top_k t (with_heap rest st) (P_fits t HPt) Hc)
      as (stop & st1 & -> & Hw & Hit & Hh & Hn & Hstop). cbn [mbind outcome_bind fst snd].
    change (written (with_heap rest st)) with (written st) in Hw.
    destruct (same_heap (with_heap rest st) st1 Hit Hh Hn) as (Hact & Hrem1 & Hg1').
    rewrite <- Hrem1, <- ?Hact in *. destruct stop.
    { exists true, st1, (mjoin (it_rest it) ++ remaining st1), [t].
      split; [done|]. split; [|done]. split_and!; [done| |by repeat constructor| |done].
      - by rewrite Hrem.
      - intros ? y ->%list_elem_of_singleton Hy. rewrite Forall_forall in Hle. by apply Hle. }
    destruct (advance_spec top_k st1 (run_id x) it) as (st2 & Hadv & Hg2 & Hr2 & Hw2 & Hc2);
      [by apply Hg1'|done|done|by rewrite Hit|done|done|].
    destruct (IH st2) as (stop & st' & rest' & p & Hloop & Hwf & Hend); [done| |done| |].
    { apply (keyless_last_perm (remaining st) [t]); [|done]. by rewrite Hrem, Hr2. }
    { rewrite Hr2. rewrite Hrem in Hf. cbn in Hf. lia. }
    exists stop, st', rest', (t :: p). split.
    { destruct (next it) as [[] it']; [|by injection Hadv as ->].
      apply bind_Ok in Hadv as (t' & -> & Hadv). cbn [mbind outcome_bind]. by rewrite Hadv. }
    split; [|done]. apply (wrote_first_cons _ _ _ _ _ _ _ _ (remaining st2)).
    + by rewrite Hrem, Hr2.
    + by rewrite Hr2.
    + by rewrite <- Hw, <- Hw2.
Qed.
End loop.
