(* ===== verification/RunMergerPhases.v ===== *)
(** * The phases of a merge around the heap loop

    Loading the runs, writing the NULLs before or after the heap loop, and
    copying a single run. *)

From S2P Require Import Prelude RunMerger RunMergerOrder RunMergerLoop.
From stdpp Require Import options.

Section phases.
Context {V : Type} `{!ColumnValues V} (fits : list (Tuple V) → Tuple V → bool).
Context (R : relation (Tuple V)) `{!PreOrder R}.
Implicit Types (t : Tuple V) (it : RunIterator (V := V)) (st : MergeState (V := V) V).

(** ** Phases in sequence *)

Lemma wrote_first_trans top_k stop b m a todo rest1 rest2 p1 p2 :
  wrote_first R top_k false b m todo rest1 p1 →
  wrote_first R top_k stop m a rest1 rest2 p2 →
  wrote_first R top_k stop b a todo rest2 (p1 ++ p2).
Proof using Type.
  intros (Hm & Hp1 & Hs1 & Hx1 & _) (Ha & Hp2 & Hs2 & Hx2 & Hk). split_and!.
  - by rewrite Ha, Hm, app_assoc.
  - by rewrite <- app_assoc, Hp2.
  - apply StronglySorted_app_2; [|done|done]. intros x y Hx Hy. apply Hx1; [done|].
    rewrite <- Hp2. apply elem_of_app. by left.
  - intros x y [Hx|Hx]%elem_of_app Hy; [|by apply Hx2]. apply Hx1; [done|].
    rewrite <- Hp2. apply elem_of_app. by right.
  - done.
Qed.

Lemma wrote_first_one top_k stop b a t rest :
  a = b ++ [t] → Forall (R t) rest → (stop = true → top_k ≠ 0 ∧ length a = top_k) →
  wrote_first R top_k stop b a (t :: rest) rest [t].
Proof using Type.
  intros Ha Hr Hk. split_and!; [done|done|by repeat constructor| |done].
  intros ? y ->%list_elem_of_singleton Hy. rewrite Forall_forall in Hr. by apply Hr.
Qed.

Lemma wrote_first_perm top_k stop b a todo todo' rest rest' p :
  todo ≡ₚ todo' → rest ≡ₚ rest' →
  wrote_first R top_k stop b a todo rest p → wrote_first R top_k stop b a todo' rest' p.
Proof using Type.
  intros Ht Hr (Ha & Hp & Hs & Hx & Hk). split_and!; [done|by rewrite <- Hr, Hp|done| |done].
  intros x y. rewrite <- Hr. apply Hx.
Qed.

Lemma wrote_first_top top_k stop a todo rest p :
  wrote_first R top_k stop [] a todo rest p →
  (stop = false → rest = [] ∧ (top_k ≠ 0 → length a < top_k)) → is_top R top_k todo a.
Proof using Type.
  intros (Ha & Hp & Hs & Hx & Hk) Hend. cbn in Ha. subst a. split; [done|].
  exists rest. destruct stop.
  - destruct (Hk eq_refl) as [? Hlen]. split_and!; [done|done|lia|done|lia].
  - destruct (Hend eq_refl) as [-> Hlt]. split_and!; [done|done|done|done|lia].
Qed.

(** ** Copying a run *)

Lemma copy_loop_spec top_k fuel it st :
  StronglySorted R (mjoin (it_rest it)) → Forall (λ t, fits [] t = true) (mjoin (it_rest it)) →
  counted top_k st → length (mjoin (it_rest it)) ≤ fuel →
  ∃ stop st' rest p, copy_loop fits top_k fuel it st = Ok st' ∧
    wrote_first R top_k stop (written st) (written st') (mjoin (it_rest it)) rest p ∧
    (stop = false → rest = [] ∧ counted top_k st').
Proof using Type*.
  revert it st. induction fuel as [|fuel IH]; intros it st Hs Hf Hc Hl; cbn [copy_loop];
    pose proof (next_spec it) as Hn; destruct (next it) as [[] it'].
  - destruct Hn as (t & Ht & Hm). rewrite Hm in Hl. cbn in Hl. lia.
  - destruct Hn as [-> _]. exists false, st, [], []. split; [done|].
    split; [apply wrote_first_nil|done].
  - destruct Hn as (t & Ht & Hm). rewrite Hm in *.
    apply Forall_cons in Hf as [Hft Hf]. apply StronglySorted_inv in Hs as [Hs Hle].
    unfold getTuple. rewrite Ht. cbn [mbind outcome_bind].
    destruct (write_tuple_spec fits top_k t st Hft Hc) as (stop & st1 & -> & Hw & _ & _ & _ & Hstop).
    cbn [mbind outcome_bind fst snd].
    assert (wrote_first R top_k stop (written st) (written st1) (t :: mjoin (it_rest it'))
      (mjoin (it_rest it')) [t]) as H1.
    { apply wrote_first_one; [done|done|]. by intros ->. }
    destruct stop; [by exists true, st1, (mjoin (it_rest it')), [t]|].
    destruct (IH it' st1 Hs Hf Hstop) as (stop & st' & rest & p & Hcp & Hwf & Hend); [cbn in Hl; lia|].
    exists stop, st', rest, ([t] ++ p). split_and!; [done| |done].
    by apply (wrote_first_trans _ _ _ (written st1) _ _ (mjoin (it_rest it'))).
  - destruct Hn as [-> _]. exists false, st, [], []. split; [done|].
    split; [apply wrote_first_nil|done].
Qed.

(** ** Loading the runs *)

Section load.
Context {K : Type} (key : Tuple V → option K) (P : Tuple V → Prop).
Implicit Types (s : MergeState (V := V) K).

Lemma good_initial : good key R P (initial_state (V := V) (K := K)).
Proof using Type.
  split; cbn; try (intros ? Hx; by apply not_elem_of_nil in Hx). constructor.
Qed.

Lemma active_bound s r : good key R P s → r ∈ active s → r < length (iterators s).
Proof using Type.
  intros Hg [(n & -> & Hn)%list_elem_of_fmap|Hr]%elem_of_app.
  - destruct (good_heap _ _ _ _ Hg n Hn) as (it & t & Hi & _). by apply lookup_lt_Some in Hi.
  - destruct (good_nulls _ _ _ _ Hg r Hr) as (it & t & Hi & _). by apply lookup_lt_Some in Hi.
Qed.

Lemma push_iterator_good s o :
  good key R P s →
  good key R P (push_iterator o s) ∧ remaining (push_iterator o s) = remaining s.
Proof using Type.
  intros Hg. assert (∀ r, r ∈ active s → iterators (push_iterator o s) !! r = iterators s !! r) as Hi.
  { intros r Hr. cbn. by rewrite lookup_app_l by by apply active_bound. }
  assert (∀ r, r ∈ active s → stream (push_iterator o s) r = stream s r) as Hs.
  { intros r Hr. unfold stream. by rewrite Hi. }
  split; [split|].
  - apply Hg.
  - intros n Hn. unfold at_key. rewrite Hi; [by apply Hg|]. apply elem_of_app. left.
    by apply list_elem_of_fmap_2.
  - intros r Hr. unfold at_key. rewrite Hi; [by apply Hg|]. apply elem_of_app. by right.
  - intros r Hr. rewrite Hs by done. by apply (good_sorted _ _ _ _ Hg).
  - intros r Hr. rewrite Hs by done. by apply (good_P _ _ _ _ Hg).
  - unfold remaining. f_equal. by apply Forall_fmap_ext_1, Forall_forall.
Qed.

Lemma push_as_set s it it' :
  push_iterator (Some it') s =
  set_iterator (length (iterators s)) it' (push_iterator (Some it) s).
Proof using Type.
  unfold push_iterator, set_iterator. cbn. by rewrite insert_app_r_alt, Nat.sub_diag by done.
Qed.

(** An iterator that stands at a tuple joins the merge. *)
Lemma join_run s it' t l :
  good key R P s → it_current it' = Some t → l = t :: mjoin (it_rest it') →
  StronglySorted R l → Forall P l →
  let s' := insert_next key (length (iterators s)) t (push_iterator (Some it') s) in
  good key R P s' ∧ remaining s' ≡ₚ l ++ remaining s ∧ length (iterators s') = S (length (iterators s)).
Proof using Type.
  intros Hg Ht -> Hs HP. set (it0 := {| it_current := None; it_rest := [t :: mjoin (it_rest it')] |}).
  destruct (push_iterator_good s (Some it0) Hg) as [Hg1 Hr1].
  destruct (insert_next_good key R P (push_iterator (Some it0) s) (length (iterators s)) it0 it' t)
    as [Hg2 Hr2]; try done; try (cbn; by rewrite app_nil_r).
  - intros Hin. apply (active_bound s _ Hg) in Hin. lia.
  - cbn. by rewrite lookup_app_r, Nat.sub_diag.
  - rewrite (push_as_set s it0). split_and!; [done| |].
    + cbn. rewrite Hr2, Hr1. cbn. by rewrite app_nil_r.
    + rewrite iterators_insert_next. cbn. rewrite length_insert, length_app. cbn. lia.
Qed.

Lemma load_step s run top_k :
  good key R P s → counted top_k s → StronglySorted R (mjoin run) → Forall P (mjoin run) →
  let '(more, it) := next (new_RunIterator run) in
  ∃ s', (if more then ∃ t, it_current it = Some t ∧
           s' = insert_next key (length (iterators s)) t (push_iterator (Some it) s)
         else s' = push_iterator (Some it) s) ∧
    good key R P s' ∧ remaining s' ≡ₚ mjoin run ++ remaining s ∧
    length (iterators s') = S (length (iterators s)) ∧
    written s' = written s ∧ counted top_k s'.
Proof using Type.
  intros Hg Hc Hs HP. pose proof (next_spec (new_RunIterator run)) as Hn.
  destruct (next (new_RunIterator run)) as [[] it].
  - destruct Hn as (t & Ht & Hm).
    destruct (join_run s it t (mjoin run) Hg Ht Hm Hs HP) as (Hg' & Hr' & Hl').
    eexists. split_and!; [by exists t|done..| |].
    + by rewrite written_insert_next.
    + by apply counted_insert_next.
  - destruct Hn as [Hm _]. destruct (push_iterator_good s (Some it) Hg) as [Hg' Hr'].
    eexists. split_and!; [done|done| | |done|done].
    + cbn in Hm. by rewrite Hr', Hm.
    + cbn. rewrite length_app. cbn. lia.
Qed.
End load.

(** The three loops over the runs. *)
Lemma generic_init_spec top_k runs (s : MergeState (Tuple V)) :
  good Some R (λ t, fits [] t = true) s → counted top_k s →
  Forall (λ r, StronglySorted R (mjoin r)) runs → Forall (λ t, fits [] t = true) (mjoin (mjoin runs)) →
  ∃ s', generic_init (length (iterators s)) runs s = Ok s' ∧
    good Some R (λ t, fits [] t = true) s' ∧ counted top_k s' ∧ written s' = written s ∧
    remaining s' ≡ₚ mjoin (mjoin runs) ++ remaining s.
Proof using Type*.
  revert s. induction runs as [|r runs IH]; intros s Hg Hc Hs HP; [by exists s|].
  apply Forall_cons in Hs as [Hs1 Hs]. cbn in HP. rewrite join_app in HP.
  apply Forall_app in HP as [HP1 HP]. cbn [generic_init].
  pose proof (load_step Some (λ t, fits [] t = true) s r top_k Hg Hc Hs1 HP1) as Hl.
  destruct (next (new_RunIterator r)) as [more it].
  destruct Hl as (s1 & Heq & Hg1 & Hr1 & Hl1 & Hw1 & Hc1).
  destruct (IH s1 Hg1 Hc1 Hs HP) as (s' & Hi & Hg' & Hc' & Hw' & Hr').
  exists s'. split_and!; [|done|done|congruence|].
  - destruct more; [destruct Heq as (t & Ht & ->)|subst s1].
    + unfold getTuple. rewrite Ht. cbn [mbind outcome_bind]. rewrite <- Hi. by rewrite Hl1.
    + rewrite <- Hi. by rewrite Hl1.
  - rewrite Hr', Hr1. cbn. rewrite join_app, !app_assoc. f_equiv. apply Permutation_app_comm.
Qed.

Lemma null_last_init_spec attr_id top_k runs (s : MergeState V) :
  good (getUntypedValue attr_id) R (λ t, fits [] t = true) s → counted top_k s →
  Forall (λ r, StronglySorted R (mjoin r)) runs → Forall (λ t, fits [] t = true) (mjoin (mjoin runs)) →
  ∃ s', null_last_init attr_id (length (iterators s)) runs s = Ok s' ∧
    good (getUntypedValue attr_id) R (λ t, fits [] t = true) s' ∧ counted top_k s' ∧
    written s' = written s ∧ remaining s' ≡ₚ mjoin (mjoin runs) ++ remaining s.
Proof using Type*.
  revert s. induction runs as [|r runs IH]; intros s Hg Hc Hs HP; [by exists s|].
  apply Forall_cons in Hs as [Hs1 Hs]. cbn in HP. rewrite join_app in HP.
  apply Forall_app in HP as [HP1 HP]. cbn [null_last_init].
  pose proof (load_step (getUntypedValue attr_id) (λ t, fits [] t = true) s r top_k Hg Hc Hs1 HP1) as Hl.
  destruct (next (new_RunIterator r)) as [more it].
  destruct Hl as (s1 & Heq & Hg1 & Hr1 & Hl1 & Hw1 & Hc1).
  destruct (IH s1 Hg1 Hc1 Hs HP) as (s' & Hi & Hg' & Hc' & Hw' & Hr').
  exists s'. split_and!; [|done|done|congruence|].
  - destruct more; [destruct Heq as (t & Ht & ->)|subst s1].
    + unfold getTuple. rewrite Ht. cbn [mbind outcome_bind].
      assert (∀ st, null_last_reinsert attr_id (length (iterators s)) t st =
        Ok (insert_next (getUntypedValue attr_id) (length (iterators s)) t st)) as ->.
      { intros st. unfold null_last_reinsert, insert_next. by destruct (getUntypedValue attr_id t). }
      cbn [mbind outcome_bind]. rewrite <- Hi. by rewrite Hl1.
    + rewrite <- Hi. by rewrite Hl1.
  - rewrite Hr', Hr1. cbn. rewrite join_app, !app_assoc. f_equiv. apply Permutation_app_comm.
Qed.

(** ** NULLs *)

Context (attr_id : nat).
Abbreviation key := (getUntypedValue (V := V) attr_id).
Abbreviation fitting := (Forall (λ t, fits [] t = true)).

(** NULLs before the values, at the head of one run. *)
Section nulls_first.
Context (R_null : ∀ x y, key x = None → R x y).

Lemma skip_nulls_spec top_k fuel it st others :
  fitting (mjoin (it_rest it)) → counted top_k st → length (mjoin (it_rest it)) ≤ fuel →
  ∃ stop next st' rest p, skip_nulls fits attr_id top_k fuel it st = Ok (stop, next, st') ∧
    heap st' = heap st ∧ iterators st' = iterators st ∧ null_iterators st' = null_iterators st ∧
    wrote_first R top_k stop (written st) (written st') (mjoin (it_rest it) ++ others)
      (rest ++ others) p ∧
    (stop = false → counted top_k st' ∧ mjoin (it_rest it) = p ++ rest ∧
      match next with
      | Some (it', v) => ∃ t, it_current it' = Some t ∧ key t = Some v ∧
          rest = t :: mjoin (it_rest it')
      | None => rest = []
      end).
Proof using Type*.
  revert it st. induction fuel as [|fuel IH]; intros it st Hf Hc Hl; cbn [skip_nulls];
    pose proof (next_spec it) as Hn; destruct (next it) as [[] it'].
  - destruct Hn as (t & Ht & Hm). rewrite Hm in Hl. cbn in Hl. lia.
  - destruct Hn as [-> _]. exists false, None, st, [], []. split_and!; auto using wrote_first_nil.
  - destruct Hn as (t & Ht & Hm). rewrite Hm in *. apply Forall_cons in Hf as [Hft Hf].
    unfold getTuple. rewrite Ht. cbn [mbind outcome_bind].
    destruct (key t) as [v|] eqn:Ek.
    { exists false, (Some (it', v)), st, (t :: mjoin (it_rest it')), [].
      split_and!; auto using wrote_first_nil. intros _. split_and!; [done..|]. by exists t. }
    destruct (write_tuple_spec fits top_k t st Hft Hc) as (stop & st1 & -> & Hw & Hi & Hh & Hnu & Hstop).
    cbn [mbind outcome_bind fst snd].
    assert (wrote_first R top_k stop (written st) (written st1)
      (t :: mjoin (it_rest it') ++ others) (mjoin (it_rest it') ++ others) [t]) as H1.
    { apply wrote_first_one; [done| |by intros ->]. apply Forall_forall. intros y _. by apply R_null. }
    destruct stop; [exists true, None, st1, (mjoin (it_rest it')), [t]; by split_and!|].
    destruct (IH it' st1 Hf Hstop) as (stop & nx & st' & rest & p & -> & Hh' & Hi' & Hn' & Hwf & Hend);
      [cbn in Hl; lia|].
    exists stop, nx, st', rest, ([t] ++ p). split_and!; try congruence.
    + by apply (wrote_first_trans _ _ _ (written st1) _ _ (mjoin (it_rest it') ++ others)).
    + intros E. destruct (Hend E) as (? & -> & ?). by split_and!.
  - destruct Hn as [-> _]. exists false, None, st, [], []. split_and!; auto using wrote_first_nil.
Qed.

Context (R_values : ∀ x y, R x y → key x ≠ None → key y ≠ None).
Abbreviation valued := (λ t, fits [] t = true ∧ key t ≠ None).

Lemma sorted_valued t l :
  StronglySorted R (t :: l) → fitting (t :: l) → key t ≠ None → Forall valued (t :: l).
Proof using R_values.
  intros [_ Hle]%StronglySorted_inv Hf Hk. apply Forall_cons in Hf as [Hft Hf].
  constructor; [done|]. apply Forall_forall. intros y Hy. rewrite Forall_forall in Hle, Hf.
  split; [by apply Hf|]. by apply (R_values t), Hk; apply Hle.
Qed.

Definition after_nulls (run : nat) (nx : option (RunIterator (V := V) * V)) st : MergeState V :=
  match nx with
  | Some (it', v) => push_iterator (Some it') (push_node {| run_id := run; value := v |} st)
  | None => push_iterator None st
  end.

(** What the heads of one run come to, once its NULLs are written. *)
Lemma null_first_step s s1 nx rest :
  good key R valued s → iterators s1 = iterators s → heap s1 = heap s →
  null_iterators s1 = null_iterators s → StronglySorted R rest → fitting rest →
  match nx with
  | Some (it', v) => ∃ t, it_current it' = Some t ∧ key t = Some v ∧ rest = t :: mjoin (it_rest it')
  | None => rest = []
  end →
  let s2 := after_nulls (length (iterators s)) nx s1 in
  good key R valued s2 ∧ remaining s2 ≡ₚ rest ++ remaining s ∧
  length (iterators s2) = S (length (iterators s)) ∧ written s2 = written s1 ∧
  num_tuples s2 = num_tuples s1.
Proof using R_values.
  intros Hg Hi Hh Hn Hs Hf Hnx. destruct (same_heap key R valued s s1 Hi Hh Hn) as (_ & Hrem & Hg1).
  specialize (Hg1 Hg). rewrite <- Hi, <- Hrem. cbn zeta. unfold after_nulls. destruct nx as [[it' v]|].
  - destruct Hnx as (t & Ht & Hk & ->).
    destruct (join_run key valued s1 it' t _ Hg1 Ht eq_refl Hs) as (Hg2 & Hr2 & Hl2).
    { by apply sorted_valued; [..|rewrite Hk]. }
    unfold insert_next in Hg2, Hr2, Hl2. rewrite Hk in Hg2, Hr2, Hl2. done.
  - subst rest. destruct (push_iterator_good key valued s1 None Hg1) as [Hg2 Hr2].
    split_and!; [done|by rewrite Hr2| |done|done]. cbn. rewrite length_app. cbn. lia.
Qed.

Lemma null_first_init_spec top_k runs (s : MergeState V) :
  good key R valued s → counted top_k s →
  Forall (λ r, StronglySorted R (mjoin r)) runs → fitting (mjoin (mjoin runs)) →
  ∃ stop s' rest p, null_first_init fits attr_id top_k (length (iterators s)) runs s = Ok (stop, s') ∧
    wrote_first R top_k stop (written s) (written s') (mjoin (mjoin runs) ++ remaining s) rest p ∧
    (stop = false → good key R valued s' ∧ counted top_k s' ∧ remaining s' ≡ₚ rest).
Proof using Type*.
  revert s. induction runs as [|r runs IH]; intros s Hg Hc Hs HP.
  { exists false, s, (remaining s), []. split_and!; auto using wrote_first_nil. }
  apply Forall_cons in Hs as [Hs1 Hs]. cbn in HP. rewrite join_app in HP.
  apply Forall_app in HP as [HP1 HP]. cbn [null_first_init].
  destruct (skip_nulls_spec top_k (length (mjoin r)) (new_RunIterator r) s
    (mjoin (mjoin runs) ++ remaining s)) as (stop & nx & s1 & rest & p & -> & Hh & Hi & Hn & Hwf & Hend);
    [done..|]. cbn [it_rest new_RunIterator] in Hwf, Hend. cbn [mbind outcome_bind fst snd].
  assert (mjoin (mjoin (r :: runs)) ++ remaining s =
    mjoin r ++ mjoin (mjoin runs) ++ remaining s) as -> by (cbn; by rewrite join_app, <- app_assoc).
  destruct stop; [by exists true, s1, (rest ++ mjoin (mjoin runs) ++ remaining s), p|].
  destruct (Hend eq_refl) as (Hc1 & Hm & Hnx). rewrite Hm in Hs1, HP1.
  apply StronglySorted_app in Hs1 as (_ & _ & Hs1). apply Forall_app in HP1 as [_ HP1].
  destruct (null_first_step s s1 nx rest Hg Hi Hh Hn Hs1 HP1 Hnx) as (Hg2 & Hr2 & Hl2 & Hw2 & Hn2).
  set (s2 := after_nulls (length (iterators s)) nx s1) in *.
  assert (counted top_k s2) as Hc2 by (unfold counted; by rewrite Hw2, Hn2).
  destruct (IH s2 Hg2 Hc2 Hs HP) as (stop & s' & rest' & p' & Hini & Hwf' & Hend').
  rewrite Hl2 in Hini. exists stop, s', rest', (p ++ p'). split_and!; [|  |done].
  - unfold s2 in Hini. by destruct nx as [[it' v]|].
  - apply (wrote_first_trans _ _ _ (written s1) _ _ (rest ++ mjoin (mjoin runs) ++ remaining s)); [done|].
    rewrite <- Hw2. eapply wrote_first_perm; [|done|exact Hwf'].
    rewrite Hr2, !app_assoc. f_equiv. apply Permutation_app_comm.
Qed.
End nulls_first.

(** NULLs after the values: what is left of one run, then of all. *)
Section nulls_last.
Context (R_null : ∀ x y, key x = None → key y = None → R x y).

Lemma drain_nulls_spec top_k fuel it t st others :
  it_current it = Some t → Forall (λ x, key x = None) (t :: mjoin (it_rest it) ++ others) →
  fitting (t :: mjoin (it_rest it)) → counted top_k st → length (mjoin (it_rest it)) < fuel →
  ∃ stop st' rest p, drain_nulls fits top_k fuel it st = Ok (stop, st') ∧
    iterators st' = iterators st ∧
    wrote_first R top_k stop (written st) (written st')
      (t :: mjoin (it_rest it) ++ others) (rest ++ others) p ∧
    (stop = false → counted top_k st' ∧ rest = []).
Proof using Type*.
  revert it t st. induction fuel as [|fuel IH]; intros it t st Ht Hnull Hf Hc Hl; [lia|].
  cbn [drain_nulls]. apply Forall_cons in Hf as [Hft Hf].
  assert (getTuple it = Ok t) as -> by (unfold getTuple; by rewrite Ht). cbn [mbind outcome_bind].
  destruct (write_tuple_spec fits top_k t st Hft Hc) as (stop & st1 & -> & Hw & Hi & _ & _ & Hstop).
  cbn [mbind outcome_bind fst snd].
  assert (wrote_first R top_k stop (written st) (written st1)
    (t :: mjoin (it_rest it) ++ others) (mjoin (it_rest it) ++ others) [t]) as H1.
  { apply Forall_cons in Hnull as [Hk Hnull].
    apply wrote_first_one; [done| |by intros ->]. eapply Forall_impl; [exact Hnull|]. auto. }
  destruct stop; [exists true, st1, (mjoin (it_rest it)), [t]; by split_and!|].
  pose proof (next_spec it) as Hn. destruct (next it) as [[] it'].
  - destruct Hn as (t' & Ht' & Hm). rewrite Hm in *. apply Forall_cons in Hnull as [_ Hnull].
    destruct (IH it' t' st1 Ht' Hnull Hf Hstop) as (stop & st' & rest & p & -> & Hi' & Hwf & Hend);
      [cbn in Hl; lia|].
    exists stop, st', rest, ([t] ++ p). split_and!; [done|congruence| |done].
    by apply (wrote_first_trans _ _ _ (written st1) _ _ ((t' :: mjoin (it_rest it')) ++ others)).
  - destruct Hn as [Hm _]. rewrite Hm in H1. exists false, st1, [], [t]. rewrite Hm. by split_and!.
Qed.

Lemma drain_all_spec top_k fuel runs st :
  (∀ r, r ∈ runs → ∃ it t, iterators st !! r = Some (Some it) ∧ it_current it = Some t) →
  Forall (λ x, key x = None) (mjoin (stream st <$> runs)) → fitting (mjoin (stream st <$> runs)) →
  counted top_k st → length (mjoin (stream st <$> runs)) ≤ fuel →
  ∃ stop st' rest p, drain_all fits top_k fuel runs st = Ok st' ∧
    wrote_first R top_k stop (written st) (written st') (mjoin (stream st <$> runs)) rest p ∧
    (stop = false → counted top_k st' ∧ rest = []).
Proof using Type*.
  revert st. induction runs as [|r runs IH]; intros st Hat Hnull Hf Hc Hl; cbn [drain_all].
  { exists false, st, [], []. split_and!; auto using wrote_first_nil. }
  destruct (Hat r) as (it & t & Hi & Ht); [left|].
  assert (get_iterator r st = Ok it) as -> by (unfold get_iterator, vec_at; by rewrite Hi).
  cbn in Hnull, Hf, Hl |- *.
  assert (stream st r = t :: mjoin (it_rest it)) as Hs by (unfold stream; by rewrite Hi, Ht).
  rewrite Hs in *. cbn in Hl. rewrite length_app in Hl. apply Forall_app in Hf as [Hf1 Hf2].
  pose proof Hnull as Hnull2. apply Forall_app in Hnull2 as [_ Hnull2].
  destruct (drain_nulls_spec top_k fuel it t st (mjoin (stream st <$> runs)))
    as (stop & st1 & rest & p & -> & Hi1 & Hwf & Hend); [done..|lia|].
  cbn. destruct stop.
  { exists true, st1, (rest ++ mjoin (stream st <$> runs)), p. by split_and!. }
  destruct (Hend eq_refl) as [Hc1 ->].
  assert (stream st1 <$> runs = stream st <$> runs) as Hst.
  { apply list_fmap_ext. intros _ x _. by apply stream_eq. }
  destruct (IH st1) as (stop & st' & rest & p' & -> & Hwf' & Hend'); rewrite ?Hst; try done.
  { intros x Hx. rewrite Hi1. apply Hat. by right. }
  { eapply Nat.le_trans; [|exact Hl]. apply le_S, Nat.le_add_l. }
  rewrite Hst in Hwf'. exists stop, st', rest, (p ++ p'). split_and!; [done| |done].
  by apply (wrote_first_trans _ _ _ (written st1) _ _ (mjoin (stream st <$> runs))).
Qed.
End nulls_last.
End phases.
