(* ===== verification/RunMergerTheorems.v ===== *)
(** * A merge writes the first tuples of its runs, in order

    Each of the four ways RunMerger.v merges sorted runs writes the sorted
    collection of their tuples, or the first [top_k] of it. *)

From S2P Require Import Prelude RunMerger RunMergerOrder RunMergerLoop RunMergerPhases.
From stdpp Require Import options.

Section merges.
Context {V : Type} `{!ColumnValues V} `{!HeapTop}.
Context (fits : list (Tuple V) → Tuple V → bool).
Abbreviation fitting := (Forall (λ t : Tuple V, fits [] t = true)).
Implicit Types (runs : list (list (list (Tuple V)))).

Lemma counted_initial {K} top_k : counted top_k (initial_state (V := V) (K := K)).
Proof using Type. intros Hk. split; [done|]. cbn. lia. Qed.

Lemma copyToOutput_top columns top_k run :
  StronglySorted (tuple_le columns) (mjoin run) → fitting (mjoin run) →
  ∃ rc, copyToOutput fits top_k run = Ok rc ∧
    is_top (tuple_le columns) top_k (mjoin run) (tuples_of rc).
Proof using Type.
  intros Hs Hf. unfold copyToOutput.
  destruct (copy_loop_spec fits (tuple_le columns) top_k (length (mjoin run)) (new_RunIterator run)
    initial_state) as (stop & st' & rest & p & -> & Hwf & Hend); [done|done|apply counted_initial|done|].
  eexists. split; [done|]. eapply wrote_first_top; [exact Hwf|]. intros E.
  destruct (Hend E) as [-> Hc]. split; [done|]. intros Hk. destruct (Hc Hk) as [Hn Hlt].
  unfold written in *. lia.
Qed.

Lemma mergeGeneric_top columns top_k runs :
  Forall (λ r, StronglySorted (tuple_le columns) (mjoin r)) runs → fitting (mjoin (mjoin runs)) →
  ∃ rc, mergeGeneric fits columns top_k runs = Ok rc ∧
    is_top (tuple_le columns) top_k (mjoin (mjoin runs)) (tuples_of rc).
Proof using Type.
  intros Hs Hf. unfold mergeGeneric.
  destruct (generic_init_spec fits (tuple_le columns) top_k runs initial_state)
    as (st & Hi & Hg & Hc & Hw & Hr); [apply good_initial|apply counted_initial|done|done|].
  cbn [iterators initial_state length] in Hi. rewrite Hi. cbn [mbind outcome_bind].
  cbn in Hr. rewrite app_nil_r in Hr.
  destruct (heap_loop_spec fits (generic_comp columns) Some (tuple_le columns)
    (λ t, fits [] t = true)) with (reinsert := generic_reinsert (V := V)) (top_k := top_k)
    (fuel := total_tuples runs) (st := st) as (stop & st' & rest & p & -> & Hwf & Hend);
    try done.
  - intros a. by apply (reflexivity (R := tuple_le columns)).
  - intros a b c. apply (transitivity (R := tuple_le columns)).
  - intros a b Hab. destruct (tuple_le_total columns a b) as [E|E]; [|done].
    unfold tuple_le in E. congruence.
  - by intros t t' k k' [= <-] [= <-].
  - rewrite Hr. done.
  - eexists. split; [done|]. eapply is_top_perm; [exact Hr|].
    rewrite Hw in Hwf.
    eapply wrote_first_top; [exact Hwf|]. intros E. destruct (Hend E) as (Hg' & Hh & Hc' & <-).
    split; [|intros Hk; destruct (Hc' Hk); unfold written in *; cbn [snd]; lia].
    unfold remaining, active. rewrite Hh. cbn.
    destruct (null_iterators st') as [|r l] eqn:En; [done|].
    destruct (good_nulls _ _ _ _ Hg' r) as (it & t & _ & _ & [=]). rewrite En. left.
Qed.

(** ** One column *)

Section single.
Context (attr_id : nat) (ascending null_ordering : bool).
Abbreviation column := (column_comparators [attr_id] [ascending] [null_ordering]).
Abbreviation key := (getUntypedValue (V := V) attr_id).

Lemma single_le (t t' : Tuple V) :
  tuple_le column t t' ↔
  null_compare null_ordering
    (if ascending then value_compare else λ a b, CompOpp (value_compare a b)) (key t) (key t') ≠ Gt.
Proof using Type.
  rewrite tuple_le_compare. cbn. unfold lex_compare, column_compare.
  cbn [cc_null_ordering cc_ascending cc_attr_id].
  replace (eqb ascending kSortAscending) with ascending by (by destruct ascending).
  by destruct (null_compare _ _ (key t) (key t')).
Qed.

Lemma single_comp_compare (a b : V) :
  single_comp ascending a b =
  match (if ascending then value_compare a b else CompOpp (value_compare a b)) with
  | Gt => true | _ => false end.
Proof using Type.
  unfold single_comp. destruct ascending; cbn; unfold kGreater, kLess; by destruct (value_compare a b).
Qed.

Lemma single_comp_R (t t' : Tuple V) k k' :
  key t = Some k → key t' = Some k' → single_comp ascending k k' = false → tuple_le column t t'.
Proof using Type.
  rewrite single_le, single_comp_compare. intros -> ->. cbn.
  by destruct ascending, (value_compare k k').
Qed.

Lemma single_compare_laws :
  compare_laws (λ a b : V, if ascending then value_compare a b else CompOpp (value_compare a b)).
Proof using Type. destruct ascending; [|apply laws_opp]; apply laws_value. Qed.

Lemma single_irrefl (a : V) : single_comp ascending a a = false.
Proof using Type. by rewrite single_comp_compare, (cl_refl _ single_compare_laws). Qed.

Lemma single_comp_false (a b : V) : single_comp ascending a b = false ↔
  (if ascending then value_compare a b else CompOpp (value_compare a b)) ≠ Gt.
Proof using Type. rewrite single_comp_compare. by destruct ascending, (value_compare a b). Qed.

Lemma single_trans (a b c : V) :
  single_comp ascending a b = false → single_comp ascending b c = false →
  single_comp ascending a c = false.
Proof using Type. rewrite !single_comp_false. apply (cl_le_trans _ single_compare_laws). Qed.

Lemma single_asym (a b : V) : single_comp ascending a b = true → single_comp ascending b a = false.
Proof using Type.
  rewrite single_comp_false, single_comp_compare. intros E.
  apply (cl_total _ single_compare_laws). by case_match.
Qed.

Lemma null_le (t t' : Tuple V) : key t = None → key t' = None → tuple_le column t t'.
Proof using Type. rewrite single_le. by intros -> ->. Qed.
End single.

Lemma mergeNullFirst_top attr_id ascending top_k runs :
  let columns := column_comparators [attr_id] [ascending] [kSortNullFirst] in
  Forall (λ r, StronglySorted (tuple_le columns) (mjoin r)) runs → fitting (mjoin (mjoin runs)) →
  ∃ rc, mergeSingleColumnNullFirst fits attr_id ascending top_k runs = Ok rc ∧
    is_top (tuple_le columns) top_k (mjoin (mjoin runs)) (tuples_of rc).
Proof using Type.
  intros columns Hs Hf. unfold mergeSingleColumnNullFirst.
  destruct (null_first_init_spec fits (tuple_le columns) attr_id) with (top_k := top_k) (runs := runs)
    (s := initial_state (V := V) (K := V)) as (stop & st & rest & p & Hi & Hwf & Hend).
  - intros x y Hx. apply single_le. rewrite Hx. by destruct (getUntypedValue attr_id y).
  - intros x y. unfold columns. rewrite single_le.
    by destruct (getUntypedValue attr_id x), (getUntypedValue attr_id y).
  - apply good_initial.
  - apply counted_initial.
  - done.
  - done.
  - cbn [iterators initial_state length] in Hi. rewrite Hi. cbn [mbind outcome_bind fst snd].
    cbn in Hwf. rewrite app_nil_r in Hwf. destruct stop.
    { eexists. split; [done|]. by eapply wrote_first_top; [exact Hwf|]. }
    destruct (Hend eq_refl) as (Hg & Hc & Hr).
    destruct (heap_loop_spec fits (single_comp ascending) (getUntypedValue attr_id) (tuple_le columns)
      (λ t, fits [] t = true ∧ getUntypedValue attr_id t ≠ None))
      with (reinsert := null_first_reinsert (V := V) attr_id) (top_k := top_k)
      (fuel := total_tuples runs) (st := st) as (stop & st' & rest' & p' & -> & Hwf' & Hend');
      try done.
    + apply single_irrefl.
    + apply single_trans.
    + apply single_asym.
    + apply single_comp_R.
    + by intros t [? _].
    + intros r t s [_ Hk]. unfold null_first_reinsert, insert_next.
      by destruct (getUntypedValue attr_id t).
    + intros x y _ Hy _ Hk. exfalso. apply elem_of_remaining in Hy as (r & Ha & Hy).
      pose proof (good_P _ _ _ _ Hg r Ha) as HP. rewrite Forall_forall in HP. by apply HP in Hy as [_ ?].
    + rewrite Hr. destruct Hwf as (_ & Hp & _). unfold total_tuples. rewrite <- Hp, length_app. lia.
    + eexists. split; [done|]. eapply wrote_first_top.
      { eapply wrote_first_trans; [exact Hwf|]. by eapply wrote_first_perm; [exact Hr| |exact Hwf']. }
      intros E. destruct (Hend' E) as (Hg' & Hh & Hc' & <-).
      split; [|intros Hk; destruct (Hc' Hk); unfold written in *; cbn [snd]; lia].
      unfold remaining, active. rewrite Hh. cbn.
      destruct (null_iterators st') as [|r l] eqn:En; [done|]. exfalso.
      assert (r ∈ active st') as Ha by (unfold active; rewrite En; apply elem_of_app; right; left).
      destruct (good_nulls _ _ _ _ Hg' r) as (it & t & Hit & Ht & Hk); [rewrite En; left|].
      pose proof (good_P _ _ _ _ Hg' r Ha) as HP. unfold stream in HP. rewrite Hit, Ht in HP.
      apply Forall_cons in HP as [[_ ?] _]. done.
Qed.

Lemma mergeNullLast_top attr_id ascending top_k runs :
  let columns := column_comparators [attr_id] [ascending] [kSortNullLast] in
  Forall (λ r, StronglySorted (tuple_le columns) (mjoin r)) runs → fitting (mjoin (mjoin runs)) →
  ∃ rc, mergeSingleColumnNullLast fits attr_id ascending top_k runs = Ok rc ∧
    is_top (tuple_le columns) top_k (mjoin (mjoin runs)) (tuples_of rc).
Proof using Type.
  intros columns Hs Hf. unfold mergeSingleColumnNullLast.
  destruct (null_last_init_spec fits (tuple_le columns) attr_id top_k runs initial_state)
    as (st & Hi & Hg & Hc & Hw & Hr); [apply good_initial|apply counted_initial|done|done|].
  cbn [iterators initial_state length] in Hi. rewrite Hi. cbn [mbind outcome_bind].
  cbn in Hr. rewrite app_nil_r in Hr.
  destruct (heap_loop_spec fits (single_comp ascending) (getUntypedValue attr_id) (tuple_le columns)
    (λ t, fits [] t = true))
    with (reinsert := null_last_reinsert (V := V) attr_id) (top_k := top_k)
    (fuel := total_tuples runs) (st := st) as (stop & st' & rest & p & -> & Hwf & Hend);
    try done.
  - apply single_irrefl.
  - apply single_trans.
  - apply single_asym.
  - apply single_comp_R.
  - intros r t s _. unfold null_last_reinsert, insert_next. by destruct (getUntypedValue attr_id t).
  - intros x y _ _ Hx Hy. apply single_le. rewrite Hy. by destruct (getUntypedValue attr_id x).
  - by rewrite Hr.
  - cbn [mbind outcome_bind fst snd]. rewrite Hw in Hwf.
    eapply wrote_first_perm in Hwf; [|exact Hr|done]. destruct stop.
    { eexists. split; [done|]. by eapply wrote_first_top; [exact Hwf|]. }
    destruct (Hend eq_refl) as (Hg' & Hh & Hc' & <-).
    assert (active st' = null_iterators st') as Ha by (unfold active; by rewrite Hh).
    assert (length (remaining st') ≤ total_tuples runs) as Hlen.
    { destruct Hwf as (_ & Hp & _). unfold total_tuples. rewrite <- Hp, length_app. lia. }
    assert (Forall (λ x, getUntypedValue attr_id x = None ∧ fits [] x = true) (remaining st')) as Hnull.
    { apply Forall_forall. intros y (r & Hra & Hy)%elem_of_remaining.
      pose proof (good_P _ _ _ _ Hg' r Hra) as HP. rewrite Forall_forall in HP.
      split; [|by apply HP]. pose proof (good_sorted _ _ _ _ Hg' r Hra) as Hso.
      rewrite Ha in Hra. apply (good_nulls _ _ _ _ Hg') in Hra as (t & s & Hst & Hk)%at_key_stream.
      rewrite Hst in Hy, Hso. apply elem_of_cons in Hy as [->|Hy]; [done|].
      apply StronglySorted_inv in Hso as [_ Hso]. rewrite Forall_forall in Hso.
      specialize (Hso y Hy). unfold columns in Hso. rewrite single_le, Hk in Hso.
      by destruct (getUntypedValue attr_id y). }
    unfold remaining in Hwf, Hlen, Hnull. rewrite Ha in Hwf, Hlen, Hnull.
    apply Forall_and in Hnull as [Hnull Hfit].
    destruct (drain_all_spec fits (tuple_le columns) attr_id) with (top_k := top_k)
      (fuel := total_tuples runs) (runs := null_iterators st') (st := st')
      as (stop & st2 & rest & p2 & -> & Hwf2 & Hend2); try done.
    + apply null_le.
    + intros r Hrn. destruct (good_nulls _ _ _ _ Hg' r Hrn) as (it & t & ? & ? & _). by exists it, t.
    + eexists. split; [done|]. eapply wrote_first_top.
      { eapply wrote_first_trans; [exact Hwf|exact Hwf2]. }
      intros E. destruct (Hend2 E) as [Hc2 ->]. split; [done|].
      intros Hk. destruct (Hc2 Hk). unfold written in *. lia.
Qed.

(** ** The choice of the merge *)

Lemma doMerge_top c top_k runs :
  isValid c = true → mjoin runs ≠ [] →
  Forall (λ r, StronglySorted (tuple_le (getColumnComparators c)) (mjoin r)) runs →
  fitting (mjoin (mjoin runs)) →
  ∃ out, doMerge fits c top_k runs = Ok out ∧
    is_top (tuple_le (getColumnComparators c)) top_k (mjoin (mjoin runs)) (mjoin out).
Proof using Type.
  intros Hv Hne Hs Hf. unfold doMerge. destruct (mjoin runs) as [|b bs] eqn:Eb; [done|].
  rewrite <- Eb in *. clear Eb b bs Hne.
  match goal with |- ∃ _, ?m ≫= _ = _ ∧ _ => assert (∃ rc, m = Ok rc ∧
    is_top (tuple_le (getColumnComparators c)) top_k (mjoin (mjoin runs)) (tuples_of rc))
    as (rc & -> & Hrc) end.
  2:{ exists (flushBlock rc). by rewrite flushBlock_tuples. }
  destruct c as [order_by ordering null_ordering]. unfold isValid in Hv. cbn in Hv.
  apply andb_true_iff in Hv as [H1%Nat.eqb_eq H2%Nat.eqb_eq].
  assert (∀ run, runs = [run] → ∃ rc, copyToOutput fits top_k run = Ok rc ∧
    is_top (tuple_le (column_comparators order_by ordering null_ordering)) top_k
      (mjoin (mjoin runs)) (tuples_of rc)) as Hcopy.
  { intros run ->. apply Forall_cons in Hs as [Hs _]. cbn in Hf |- *. rewrite app_nil_r in *.
    by apply copyToOutput_top. }
  destruct runs as [|run [|run2 runs]]; [..|clear Hcopy]; [| by apply Hcopy|];
    cbn [order_by_ ordering_ null_ordering_];
    (destruct (Nat.eqb_spec (length order_by) 1) as [H3|H3]; [|by apply mergeGeneric_top]);
    destruct order_by as [|a [|]]; try done; destruct ordering as [|o [|]]; try done;
    destruct null_ordering as [|n [|]]; try done;
    (destruct n; [exact (mergeNullFirst_top a o top_k _ Hs Hf)|exact (mergeNullLast_top a o top_k _ Hs Hf)]).
Qed.

(** Runs without blocks cannot be merged. *)
Lemma merge_of_empty_runs c top_k runs :
  Forall (λ r, r = []) runs → doMerge fits c top_k runs = Err UndefinedBehaviour.
Proof using Type.
  intros Hr. unfold doMerge. by replace (mjoin runs) with ([] : list (list (Tuple V))) by
    (symmetry; by apply join_nil).
Qed.

(** Blocks without tuples are merged into a run without blocks. *)
Lemma merge_of_empty_blocks c top_k runs :
  isValid c = true → mjoin runs ≠ [] → mjoin (mjoin runs) = [] →
  ∃ out, doMerge fits c top_k runs = Ok out ∧ mjoin out = [].
Proof using Type.
  intros Hv Hne He. destruct (doMerge_top c top_k runs Hv Hne) as (out & Ho & _ & rest & Hp & _).
  - apply Forall_forall. intros r Hr.
    replace (mjoin r) with ([] : list (Tuple V)); [constructor|]. symmetry. apply join_nil.
    apply join_nil in He. rewrite Forall_forall in *. intros b Hb. apply He.
    apply list_elem_of_join. by exists r.
  - by rewrite He.
  - exists out. split; [done|]. rewrite He in Hp.
    by apply Permutation_nil_r, app_eq_nil in Hp as [-> _].
Qed.
End merges.

(** ** A heap *)

Fixpoint select_top {K} (comp : K → K → bool) (best : HeapNode K) (h : list (HeapNode K))
  : HeapNode K * list (HeapNode K) :=
  match h with
  | [] => (best, [])
  | y :: h' =>
      if comp (value best) (value y)
      then let '(x, rest) := select_top comp y h' in (x, best :: rest)
      else let '(x, rest) := select_top comp best h' in (x, y :: rest)
  end.

Lemma select_top_perm {K} (comp : K → K → bool) best h :
  best :: h ≡ₚ (select_top comp best h).1 :: (select_top comp best h).2.
Proof.
  revert best. induction h as [|y h IH]; intros best; [done|]. cbn. destruct (comp _ _).
  - specialize (IH y). destruct (select_top comp y h) as [x rest]. cbn in *.
    rewrite IH. apply Permutation_swap.
  - specialize (IH best). destruct (select_top comp best h) as [x rest]. cbn in *.
    etrans; [apply Permutation_swap|]. rewrite IH. apply Permutation_swap.
Qed.

Lemma select_top_max {K} (comp : K → K → bool) best h :
  (∀ a, comp a a = false) →
  (∀ a b c, comp a b = false → comp b c = false → comp a c = false) →
  (∀ a b, comp a b = true → comp b a = false) →
  Forall (λ y, comp (value (select_top comp best h).1) (value y) = false)
    (best :: (select_top comp best h).2).
Proof.
  intros Hi Ht Ha. revert best. induction h as [|y h IH]; intros best; cbn; [by repeat constructor|].
  destruct (comp (value best) (value y)) eqn:E.
  - specialize (IH y). destruct (select_top comp y h) as [x rest]. cbn in *.
    apply Forall_cons in IH as [Hy IH]. assert (comp (value x) (value best) = false) by eauto.
    by repeat constructor.
  - specialize (IH best). destruct (select_top comp best h) as [x rest]. cbn in *.
    apply Forall_cons in IH as [Hy IH]. repeat constructor; eauto.
Qed.

Definition select_heap_top {K} (comp : K → K → bool) (h : list (HeapNode K)) :=
  match h with [] => None | x :: h' => Some (select_top comp x h') end.

#[export] Program Instance selecting_heap : HeapTop := {| heap_top := @select_heap_top |}.
Next Obligation. intros K comp [|x h]; cbn; done. Qed.
Next Obligation.
  intros K comp [|y h] x rest; [done|]. cbn. intros [= E]. split.
  - by rewrite (select_top_perm comp y h), E.
  - intros Hi Ht Ha. pose proof (select_top_max comp y h Hi Ht Ha) as H.
    apply Forall_cons in H as [_ H]. by rewrite E in H.
Qed.

#[export] Program Instance integer_values : ColumnValues Z := {| value_compare := Z.compare |}.
Next Obligation. intros. apply Z.compare_antisym. Qed.
Next Obligation. intros a b c []; rewrite ?Z.compare_eq_iff, ?Z.compare_lt_iff, ?Z.compare_gt_iff; lia. Qed.
Next Obligation. intros a b c ->%Z.compare_eq. done. Qed.

(** C30. [RunMerger::doMerge], whichever of its implementations the number of
    runs and the sort configuration select, with NULLs first or last, in
    ascending or descending order and for any heap: when the runs are sorted,
    at least one block is there and every tuple fits in an empty block, the
    merge ends without reading or writing anything out of place, and the run it
    writes holds the tuples of all its runs in order, or the first [top_k] of
    them. *)
Theorem merge_runs_sorted {V} `{!ColumnValues V} `{!HeapTop} fits c top_k
    (runs : list (list (list (Tuple V)))) :
  isValid c = true → mjoin runs ≠ [] →
  Forall (λ r, StronglySorted (tuple_le (getColumnComparators c)) (mjoin r)) runs →
  Forall (λ t, fits [] t = true) (mjoin (mjoin runs)) →
  ∃ out, doMerge fits c top_k runs = Ok out ∧
    is_top (tuple_le (getColumnComparators c)) top_k (mjoin (mjoin runs)) (mjoin out).
Proof. apply doMerge_top. Qed.

(** Two runs of a nullable column in descending order, NULLs last. *)
Definition sample_runs : list (list (list (Tuple Z))) :=
  [[[[Some 7]; [Some 3]]; [[None]]]; [[[Some 5]]; []; [[Some 3]; [None]]]]%Z.
Definition sample_order : SortConfiguration :=
  {| order_by_ := [0]; ordering_ := [false]; null_ordering_ := [kSortNullLast] |}.
Definition two_per_block (b : list (Tuple Z)) (_ : Tuple Z) : bool := (length b <? 2)%nat.

Example sample_merge :
  doMerge two_per_block sample_order 0 sample_runs =
  Ok ([[[Some 7]; [Some 5]]; [[Some 3]; [Some 3]]; [[None]; [None]]])%Z.
Proof. reflexivity. Qed.

Lemma merge_runs_sorted_witness : ∃ out,
  doMerge two_per_block sample_order 4 sample_runs = Ok out ∧
  is_top (tuple_le (getColumnComparators sample_order)) 4 (mjoin (mjoin sample_runs)) (mjoin out).
Proof.
  apply (merge_runs_sorted two_per_block sample_order 4 sample_runs).
  - reflexivity.
  - discriminate.
  - repeat constructor.
  - repeat constructor.
Defined.
