(* ===== verification/SortMergeTheorems.v ===== *)
(** * Runs of the sort-merge operator

    The operator of MergeTree.v as the query runs it: blocks are fed while it
    generates jobs, the jobs are executed by the merges of RunMerger.v in any
    order and send back the runs they wrote.  A block holds the tuples
    [store] gives it. *)

From S2P Require Import Prelude CatalogBlocks OperatorWork MergeTree MergeTreeInv MergeTreeOps.
From S2P Require Import RunMerger RunMergerOrder RunMergerLoop RunMergerTheorems.
From stdpp Require Import options.

(** ** The tree of the operator *)

Definition id_count (op : SortMergeRunOperator) : N := N.of_nat (length (sm_block_ids op)).

(** The blocks that have not been given to the tree yet are. *)
Lemma initializeInputRuns_spec op outs :
  tree_inv (merge_tree_ op) outs (N.of_nat (num_input_workorders_generated_ op)) →
  num_input_workorders_generated_ op ≤ length (sm_block_ids op) →
  (id_count op ≤ expd (merge_tree_ op) 0)%N →
  (final_level_ (merge_tree_ op) = kFinalLevelUninitialized →
    (id_count op < kFinalLevelUninitialized)%N) →
  ∃ t, initializeInputRuns op =
      Ok (sm_update op t (sm_block_ids op) (length (sm_block_ids op)) (sm_started op)) ∧
    tree_inv t outs (id_count op) ∧ same_tree (merge_tree_ op) t ∧
    runs_scheduled_ t = runs_scheduled_ (merge_tree_ op) ∧
    all_pending t ≡ₚ ((λ b, [b]) <$> drop (num_input_workorders_generated_ op) (sm_block_ids op)) ++
      all_pending (merge_tree_ op) ∧
    (∀ k, k ≠ 0 → pend t k = pend (merge_tree_ op) k).
Proof.
  intros H Hn Hb Hk. unfold initializeInputRuns, id_count in *. case_decide as Hlt.
  - set (bs := drop (num_input_workorders_generated_ op) (sm_block_ids op)).
    assert (N.of_nat (num_input_workorders_generated_ op) + len bs =
      N.of_nat (length (sm_block_ids op)))%N as Hlen.
    { unfold len, bs. rewrite length_drop. lia. }
    destruct (addInputBlocks_spec bs (merge_tree_ op) outs _ H)
      as (t & -> & Hinv & Hs & Hsch & _ & Hp & Hpd); [by rewrite Hlen|by rewrite Hlen|].
    rewrite Hlen in Hinv. cbn. exists t. split_and!; done.
  - assert (num_input_workorders_generated_ op = length (sm_block_ids op)) as E by lia.
    exists (merge_tree_ op). rewrite <- E, drop_ge by lia. split_and!; try done.
    by destruct op; cbn in *; subst.
Qed.

(** The blocks are all given to the tree of a stored relation at once. *)
Lemma start_stored_spec op m :
  merge_tree_ op = new_MergeTree m → 2 ≤ m → sm_started op = false → sm_is_stored op = true →
  (id_count op < kFinalLevelUninitialized)%N →
  ∃ t, sm_start op =
      Ok (sm_update op t (sm_block_ids op) (num_input_workorders_generated_ op) true) ∧
    tree_inv t [] (id_count op) ∧ expd t 0 = id_count op ∧
    final_level_ t ≠ kFinalLevelUninitialized ∧ merge_factor_ t = m ∧
    all_pending t ≡ₚ (λ b, [b]) <$> sm_block_ids op ∧ pend t (num_levels_ t) = [].
Proof.
  intros Ht Hm Hs Hst Hk. unfold sm_start. rewrite Hs, Hst, Ht. unfold id_count in *.
  destruct (initializeTree_spec (N.of_nat (length (sm_block_ids op))) (new_MergeTree m) [] 0)
    as (t & -> & Hinv & He & Hf & Hmf & Hsch & Hpd & Hall & _); [by apply flat_new|lia|done|].
  cbn [mbind outcome_bind].
  destruct (addInputBlocks_spec (sm_block_ids op) t [] 0 Hinv)
    as (t' & -> & Hinv' & Hs' & _ & _ & Hp' & Hpd'); [rewrite He; unfold len; lia|done|].
  cbn. exists t'. split_and!; [done|done| | | | |].
  - unfold expd. by rewrite (st_expected _ _ Hs').
  - by rewrite (st_final _ _ Hs').
  - by rewrite (st_factor _ _ Hs').
  - rewrite Hp', Hall. cbn. by rewrite app_nil_r.
  - rewrite Hpd', Hpd by (pose proof (ti_levels _ _ _ Hinv'); lia). done.
Qed.

Lemma start_streamed_spec op m :
  merge_tree_ op = new_MergeTree m → 2 ≤ m → sm_started op = false → sm_is_stored op = false →
  num_input_workorders_generated_ op = 0 → (id_count op < kFinalLevelUninitialized)%N →
  ∃ t, sm_start op =
      Ok (sm_update op t (sm_block_ids op) (length (sm_block_ids op)) true) ∧
    tree_inv t [] (id_count op) ∧ final_level_ t = kFinalLevelUninitialized ∧
    merge_factor_ t = m ∧ all_pending t ≡ₚ (λ b, [b]) <$> sm_block_ids op.
Proof.
  intros Ht Hm Hs Hst Hn Hk. unfold sm_start. rewrite Hs, Hst, Ht.
  set (op1 := sm_update _ _ _ _ true).
  destruct (initializeInputRuns_spec op1 []) as (t & -> & Hinv & Hs' & _ & Hp & _).
  - cbn. rewrite Hn. by apply initializeForPipeline_inv.
  - cbn. lia.
  - cbn. unfold expd, id_count in *. cbn. lia.
  - done.
  - exists t. split_and!; [done|done| | |].
    + by rewrite (st_final _ _ Hs').
    + by rewrite (st_factor _ _ Hs').
    + rewrite Hp. cbn. by rewrite Hn, drop_0, app_nil_r.
Qed.

(** The end of a stream. *)
Lemma doneFeeding_spec op outs :
  tree_inv (merge_tree_ op) outs (id_count op) →
  final_level_ (merge_tree_ op) = kFinalLevelUninitialized →
  num_input_workorders_generated_ op = length (sm_block_ids op) →
  (id_count op < kFinalLevelUninitialized)%N →
  ∃ t, sm_doneFeedingInputBlocks op =
      Ok (sm_update op t (sm_block_ids op) (length (sm_block_ids op)) (sm_started op)) ∧
    tree_inv t outs (id_count op) ∧ expd t 0 = id_count op ∧
    final_level_ t ≠ kFinalLevelUninitialized ∧ merge_factor_ t = merge_factor_ (merge_tree_ op) ∧
    all_pending t = all_pending (merge_tree_ op) ∧ pend t (num_levels_ t) = [] ∧
    Forall (λ j, N.of_nat (job_level j) ≠ final_level_ t) outs.
Proof.
  intros H Hf Hn Hk. unfold sm_doneFeedingInputBlocks.
  pose proof (flat_pipeline _ _ _ H Hf) as Hflat.
  destruct (initializeTree_spec (id_count op) (merge_tree_ op) outs (id_count op))
    as (t & Hi & Hinv & He & Hf' & Hmf & Hsch & Hpd & Hall & Hone); [done|lia|done|].
  unfold id_count in Hi at 1. rewrite Hi. cbn [mbind outcome_bind].
  unfold initializeInputRuns. cbn [num_input_workorders_generated_ sm_block_ids sm_update].
  rewrite decide_False by lia. cbn [mbind outcome_bind merge_tree_ sm_update].
  assert (factor t = factor (merge_tree_ op)) as Hfac by (unfold factor; by rewrite Hmf).
  destruct (checkAndFixFinalMerge_spec t outs (id_count op) Hinv Hf')
    as (t' & -> & Hinv' & He' & Hf'' & Hall' & Hpd' & Hcase); [by rewrite He, Hfac|].
  cbn. exists t'. rewrite Hn.
  assert (∀ k, 2 ≤ k → pend t k = []) as Hp2.
  { intros k Hk2. rewrite Hpd. unfold pend.
    by rewrite lookup_ge_None_2 by (pose proof (ft_pending _ _ _ Hflat); lia). }
  pose proof (ti_levels _ _ _ Hinv) as Hl1. pose proof (ti_levels _ _ _ Hinv') as Hl1'.
  assert (num_levels_ t' = 1 → pend t 1 = [] ∧ outs = []) as Hempty.
  { intros E1. destruct Hcase as [[-> E2]|[-> Hns]]; [cbn in E1; lia|].
    specialize (Hns E1). apply Hone in E1. rewrite He in *.
    pose proof (arrived_bound t outs (id_count op) Hinv 0 ltac:(lia)) as Hb. rewrite He in Hb.
    assert (sched t 0 = 0)%N as Hz.
    { rewrite Hsch in Hb, Hns |- *. rewrite Hfac in Hns.
      destruct (ft_mult _ _ _ Hflat) as [q Hq]. pose proof (ft_factor _ _ _ Hflat).
      destruct (N.lt_trichotomy q 1) as [?|[->|?]]; [nia|lia|nia]. }
    pose proof (ft_flow _ _ _ Hflat) as Hfl. rewrite <- Hsch, Hz, cdiv_0 in Hfl
      by (pose proof (ft_factor _ _ _ Hflat); lia).
    rewrite <- Hpd in Hfl. split; [apply length_zero_iff_nil; unfold len in Hfl; lia|].
    assert (count 0 outs = 0)%N as Hc0 by lia. rewrite count_all in Hc0 by apply Hflat.
    apply length_zero_iff_nil. unfold len in Hc0. lia. }
  destruct (final_known t' outs _ Hinv' Hf'') as [Hfl _].
  split_and!; [done|done|congruence|done| |congruence| |].
  - by destruct Hcase as [[-> _]|[-> _]].
  - rewrite Hpd'. destruct (decide (num_levels_ t' = 1)) as [E|E].
    + destruct (Hempty E) as [Hp1 _]. by rewrite E.
    + apply Hp2. lia.
  - rewrite Hfl. destruct (decide (num_levels_ t' = 1)) as [E|E].
    + destruct (Hempty E) as [_ ->]. constructor.
    + eapply Forall_impl; [apply (ft_outs _ _ _ Hflat)|]. cbn. intros j ->. lia.
Qed.

(** * An external sort is a sort

    The operator of MergeTree.v, its jobs executed by the merges of
    RunMerger.v, in any order its messages and its input may interleave. *)

Lemma join_join {A} (l : list (list (list A))) : mjoin (mjoin l) = mjoin (mjoin <$> l).
Proof. induction l as [|x l IH]; [done|].
  change (mjoin (x ++ mjoin l) = mjoin x ++ mjoin (mjoin <$> l)). by rewrite join_app, IH.
Qed.

Section sort.
Context {V : Type} `{!ColumnValues V} `{!HeapTop}.
Context (fits : list (Tuple V) → Tuple V → bool) (c : SortConfiguration).
Context (store : nat → list (Tuple V)).
Abbreviation order := (tuple_le (getColumnComparators c)).
Abbreviation fitting := (Forall (λ t : Tuple V, fits [] t = true)).

(** The blocks of a run, and its tuples. *)
Definition run_blocks (r : Run) : list (list (Tuple V)) := store <$> r.
Definition contents (r : Run) : list (Tuple V) := mjoin (store <$> r).

(** ** Runs of the operator *)

Record SortState := {
  ss_op : SortMergeRunOperator;
  ss_outs : list MergeJob;
  ss_ended : bool;
  ss_output : list Run;
  (** The stream ended before the operator was first asked for work. *)
  ss_early : bool;
}.

(** A block of the input: sorted, not empty, of tuples that fit in a block. *)
Definition input_block (b : nat) : Prop :=
  store b ≠ [] ∧ StronglySorted order (store b) ∧ fitting (store b).

(** The stream ends after the operator was asked for work, as it is after each
    block that is fed, or without a block. *)
Inductive sort_step (s : SortState) : SortState → Prop :=
| SortFeed b op' :
    sm_is_stored (ss_op s) = false → ss_ended s = false → input_block b →
    (id_count (ss_op s) + 1 < kFinalLevelUninitialized)%N →
    sm_feedInputBlock b (ss_op s) = Ok op' →
    sort_step s {| ss_op := op'; ss_outs := ss_outs s; ss_ended := false;
                   ss_output := ss_output s; ss_early := ss_early s |}
| SortEnd op' :
    sm_is_stored (ss_op s) = false → ss_ended s = false →
    sm_started (ss_op s) = true ∨ sm_block_ids (ss_op s) = [] →
    sm_doneFeedingInputBlocks (ss_op s) = Ok op' →
    sort_step s {| ss_op := op'; ss_outs := ss_outs s; ss_ended := true;
                   ss_output := ss_output s; ss_early := negb (sm_started (ss_op s)) |}
| SortGenerate jobs fin op' :
    sm_getAllWorkOrders (ss_op s) = Ok (jobs, fin, op') →
    sort_step s {| ss_op := op'; ss_outs := ss_outs s ++ jobs; ss_ended := ss_ended s;
                   ss_output := ss_output s; ss_early := ss_early s |}
| SortMerge j outs run op' :
    ss_outs s ≡ₚ j :: outs →
    doMerge fits c (sm_top_k (ss_op s)) (run_blocks <$> job_runs j) = Ok (run_blocks run) →
    sm_receiveFeedbackMessage (job_level j) run (ss_op s) = Ok op' →
    sort_step s {| ss_op := op'; ss_outs := outs; ss_ended := ss_ended s;
                   ss_output := if is_final_level j then ss_output s ++ [run]
                                else ss_output s; ss_early := ss_early s |}.

(** The input is complete. *)
Definition complete (s : SortState) : bool := sm_is_stored (ss_op s) || ss_ended s.

(** ** What the runs hold *)

(** The tuples a run stands for, and the run. *)
Definition run_ok (top_k : nat) (p : list (Tuple V) * Run) : Prop :=
  keeps_top order top_k p.1 (contents p.2) ∧ p.1 ≠ [] ∧ fitting p.1.

Definition holds (top_k : nat) (runs : list Run) (ids : list nat) : Prop :=
  ∃ ps, Forall (run_ok top_k) ps ∧ snd <$> ps ≡ₚ runs ∧ mjoin (fst <$> ps) ≡ₚ mjoin (store <$> ids).

#[local] Instance holds_perm top_k : Proper ((≡ₚ) ==> (≡ₚ) ==> iff) (holds top_k).
Proof using Type.
  assert (∀ r r' i i', r ≡ₚ r' → i ≡ₚ i' → holds top_k r i → holds top_k r' i') as Himp.
  { intros r r' i i' Hr Hi (ps & ? & ? & ?). exists ps. split_and!; [done|by rewrite <- Hr|by rewrite <- Hi]. }
  intros r r' Hr i i' Hi. split; apply Himp; done.
Qed.

Lemma holds_nil top_k : holds top_k [] [].
Proof using Type. exists []. by split_and!. Qed.

Lemma contents_single b : contents [b] = store b.
Proof using Type. unfold contents. cbn. by rewrite app_nil_r. Qed.

Lemma holds_blocks top_k runs ids bs :
  Forall input_block bs → holds top_k runs ids →
  holds top_k (((λ b, [b]) <$> bs) ++ runs) (bs ++ ids).
Proof using Type.
  intros Hbs Hh. induction Hbs as [|b bs (Hne & Hs & Hf) _ IH]; [done|]. cbn.
  destruct IH as (ps & Hps & Hr & Hi). exists ((store b, [b]) :: ps). split_and!.
  - constructor; [|done]. split_and!; [|done|done].
    change (keeps_top order top_k (store b) (contents [b])). rewrite contents_single. by apply keeps_top_all.
  - cbn. by rewrite Hr.
  - cbn. by rewrite Hi.
Qed.

(** A merge replaces its runs by one. *)
Lemma holds_merge top_k job_runs runs ids out :
  isValid c = true → job_runs ≠ [] → holds top_k (job_runs ++ runs) ids →
  ∃ blocks, doMerge fits c top_k (run_blocks <$> job_runs) = Ok blocks ∧
    (blocks = run_blocks out →
      holds top_k (out :: runs) ids ∧ (top_k ≠ 0 → length (contents out) ≤ top_k)).
Proof using Type.
  intros Hv Hne (ps & Hps & Hr & Hi).
  symmetry in Hr. apply Permutation_map_inv in Hr as (ps' & Hr & Hp).
  rewrite Hp in Hps, Hi. change (job_runs ++ runs = snd <$> ps') in Hr.
  symmetry in Hr. apply fmap_app_inv in Hr as (ps1 & ps2 & -> & -> & ->).
  apply Forall_app in Hps as [Hp1 Hp2].
  assert (mjoin (mjoin (run_blocks <$> (snd <$> ps1))) = mjoin (contents <$> (snd <$> ps1))) as Hj.
  { rewrite join_join, <- list_fmap_compose. done. }
  assert (Forall (λ p, contents p.2 ≠ []) ps1) as Hne1.
  { eapply Forall_impl; [exact Hp1|]. intros p (Hk & Hn & _). by eapply keeps_top_nonempty. }
  destruct (doMerge_top fits c top_k (run_blocks <$> (snd <$> ps1)) Hv) as (blocks & Hm & Htop).
  - intros E. destruct ps1 as [|p ps1]; [done|]. apply Forall_cons in Hne1 as [Hn _].
    apply (f_equal mjoin) in E. rewrite Hj in E. cbn in E. by apply app_eq_nil in E as [? _].
  - rewrite !Forall_fmap. eapply Forall_impl; [exact Hp1|]. intros p ((Hs & _) & _). exact Hs.
  - rewrite Hj. apply Forall_forall. intros t (l & Ht & Hl)%list_elem_of_join.
    apply list_elem_of_fmap in Hl as (r & -> & Hl). apply list_elem_of_fmap in Hl as (p & -> & Hl).
    rewrite Forall_forall in Hp1. destruct (Hp1 p Hl) as ((_ & rest & Hp' & _) & _ & Hf).
    rewrite Forall_forall in Hf. apply Hf. rewrite <- Hp'. apply elem_of_app. by left.
  - exists blocks. split; [done|]. intros ->. split; [|by destruct Htop as (_ & ? & _ & _ & _ & _ & ?)].
    exists ((mjoin (fst <$> ps1), out) :: ps2). split_and!.
    + constructor; [|done]. split_and!; cbn.
      * apply is_top_keeps.
        set (qs := (λ p : list (Tuple V) * Run, (p.1, contents p.2)) <$> ps1).
        assert (fst <$> ps1 = fst <$> qs) as ->.
        { unfold qs. clear. induction ps1; cbn; congruence. }
        apply is_top_compose; [apply _|apply _| |].
        -- unfold qs. rewrite Forall_fmap. eapply Forall_impl; [exact Hp1|]. by intros p (Hk & _).
        -- assert (snd <$> qs = contents <$> (snd <$> ps1)) as ->.
           { unfold qs. clear. induction ps1; cbn; congruence. }
           by rewrite Hj in Htop.
      * intros E. destruct ps1 as [|p ps1]; [done|]. cbn in E. apply app_eq_nil in E as [E _].
        apply Forall_cons in Hp1 as [(_ & Hn & _) _]. done.
      * apply Forall_forall. intros t (l & Ht & (p & -> & Hl)%list_elem_of_fmap)%list_elem_of_join.
        rewrite Forall_forall in Hp1. destruct (Hp1 p Hl) as (_ & _ & Hf).
        rewrite Forall_forall in Hf. by apply Hf.
    + done.
    + cbn. rewrite fmap_app, join_app in Hi. exact Hi.
Qed.

(** The run that is left holds the result. *)
Lemma holds_one top_k r ids :
  holds top_k [r] ids → (top_k ≠ 0 → length (contents r) ≤ top_k) →
  is_top order top_k (mjoin (store <$> ids)) (contents r).
Proof using Type.
  intros (ps & Hps & Hr & Hi) Hk. apply Permutation_singleton_r in Hr.
  destruct ps as [|[l r'] [|]]; [done| |done]. injection Hr as ->.
  apply Forall_cons in Hps as [((Hs & rest & Hp & Hle & H0 & Hlen) & _ & _) _]. cbn in *.
  rewrite app_nil_r in Hi. split; [done|]. exists rest.
  split_and!; [by rewrite Hp|done|done| |done]. intros Hne. specialize (Hlen Hne).
  destruct (decide (top_k = 0)) as [E|E]; [by rewrite (H0 E) in Hne|].
  apply Nat.le_antisymm; [by apply Hk|done].
Qed.

Lemma holds_none top_k ids : holds top_k [] ids → mjoin (store <$> ids) = [].
Proof using Type.
  intros (ps & _ & Hr & Hi). apply Permutation_nil_r in Hr.
  destruct ps; [|done]. by apply Permutation_nil_l in Hi.
Qed.

(** ** The invariant *)

Section invariant.
Context (m top_k : nat).

Definition idle (s : SortState) : Prop :=
  sm_started (ss_op s) = false ∧ merge_tree_ (ss_op s) = new_MergeTree m ∧
  num_input_workorders_generated_ (ss_op s) = 0 ∧ ss_outs s = [] ∧ ss_output s = [] ∧
  ss_ended s = false.

Record running (s : SortState) : Prop := {
  ru_started : sm_started (ss_op s) = true;
  ru_gen : sm_is_stored (ss_op s) = false →
    num_input_workorders_generated_ (ss_op s) = length (sm_block_ids (ss_op s));
  ru_tree : tree_inv (merge_tree_ (ss_op s)) (ss_outs s) (id_count (ss_op s));
  ru_final : let t := merge_tree_ (ss_op s) in
    if complete s then
      final_level_ t ≠ kFinalLevelUninitialized ∧ expd t 0 = id_count (ss_op s) ∧
      ss_output s = pend t (num_levels_ t)
    else final_level_ t = kFinalLevelUninitialized ∧ ss_output s = [];
  ru_jobs : Forall (job_ok (merge_tree_ (ss_op s))) (ss_outs s);
  ru_holds : holds top_k (all_pending (merge_tree_ (ss_op s)) ++ mjoin (job_runs <$> ss_outs s))
    (sm_block_ids (ss_op s));
  ru_output : Forall (λ r, top_k ≠ 0 → length (contents r) ≤ top_k) (ss_output s);
}.

Record sort_inv (s : SortState) : Prop := {
  so_early : ss_early s = false;
  so_top : sm_top_k (ss_op s) = top_k;
  so_ids : Forall input_block (sm_block_ids (ss_op s));
  so_bound : (id_count (ss_op s) < kFinalLevelUninitialized)%N;
  so_case : idle s ∨ running s;
}.

Context (Hm : 2 ≤ m) (Hvalid : isValid c = true).

(** Starting makes an idle operator a running one. *)
Lemma start_running s :
  sort_inv s → idle s → ∃ op', sm_start (ss_op s) = Ok op' ∧
    sm_block_ids op' = sm_block_ids (ss_op s) ∧ sm_top_k op' = sm_top_k (ss_op s) ∧
    running {| ss_op := op'; ss_outs := ss_outs s; ss_ended := ss_ended s;
               ss_output := ss_output s; ss_early := ss_early s |}.
Proof using Hm.
  intros [Hearly Ht Hids Hb _] (Hs & Htree & Hg & Ho & Hout & He).
  destruct (sm_is_stored (ss_op s)) eqn:Est.
  - destruct (start_stored_spec (ss_op s) m Htree Hm Hs Est Hb)
      as (t & -> & Hinv & Hx & Hf & Hmf & Hall & Hp).
    eexists. split_and!; [done..|]. split; cbn; rewrite ?Ho, ?Hout; try done.
    + by rewrite Est.
    + unfold complete. cbn. by rewrite Est.
    + cbn. rewrite app_nil_r, Hall. rewrite <- (app_nil_r (sm_block_ids _)) at 2.
      rewrite <- (app_nil_r (_ <$> _)). apply holds_blocks; [done|apply holds_nil].
  - destruct (start_streamed_spec (ss_op s) m Htree Hm Hs Est Hg Hb)
      as (t & -> & Hinv & Hf & Hmf & Hall).
    eexists. split_and!; [done..|]. split; cbn; rewrite ?Ho, ?Hout; try done.
    + unfold complete. cbn. by rewrite Est, He.
    + cbn. rewrite app_nil_r, Hall. rewrite <- (app_nil_r (sm_block_ids _)) at 2.
      rewrite <- (app_nil_r (_ <$> _)). apply holds_blocks; [done|apply holds_nil].
Qed.

Lemma generate_running s :
  sort_inv s → running s →
  ∃ jobs fin t, sm_getAllWorkOrders (ss_op s) =
      Ok (jobs, fin, sm_update (ss_op s) t (sm_block_ids (ss_op s))
                       (num_input_workorders_generated_ (ss_op s)) true) ∧
    sort_inv {| ss_op := sm_update (ss_op s) t (sm_block_ids (ss_op s))
                           (num_input_workorders_generated_ (ss_op s)) true;
                ss_outs := ss_outs s ++ jobs; ss_ended := ss_ended s;
                ss_output := ss_output s; ss_early := ss_early s |} ∧
    (fin = true → complete s = true) ∧
    (complete s = true → ss_outs s = [] → jobs = [] → fin = true ∧
      ((sm_block_ids (ss_op s) = [] ∧ ss_output s = []) ∨
       ∃ run, ss_output s = [run] ∧
         is_top order top_k (mjoin (store <$> sm_block_ids (ss_op s))) (contents run))).
Proof using Hm.
  intros [Hearly Ht Hids Hb _] [Hs Hg Htree Hfin Hj Hh Ho].
  destruct (getMergeJobs_spec _ _ _ Htree) as (jobs & fin & t & Hgm & Hinv & Hsame & Hp & Hjok & Hf & Hdone & Hpn).
  exists jobs, fin, t. split.
  { unfold sm_getAllWorkOrders, sm_start. rewrite Hs. cbn. rewrite Hgm. cbn. by rewrite Hs. }
  pose proof (st_final _ _ Hsame) as Hsf. pose proof (st_levels _ _ Hsame) as Hsl.
  assert (∀ l, expd t l = expd (merge_tree_ (ss_op s)) l) as Hse
    by (intros l; unfold expd; by rewrite (st_expected _ _ Hsame)).
  split; [|split].
  - split; cbn; [done..|]. right. split; cbn; try done.
    + unfold complete in *. cbn. rewrite Hsf, Hsl, Hse, Hpn. done.
    + apply Forall_app. unfold job_ok in *. rewrite Hsf, (st_factor _ _ Hsame). done.
    + rewrite fmap_app, join_app. rewrite <- Hp in Hh. eapply holds_perm; [|done|exact Hh].
      rewrite (Permutation_app_comm (mjoin (job_runs <$> jobs)) (all_pending t)), <- app_assoc.
      f_equiv. apply Permutation_app_comm.
  - intros E. destruct (Hf E) as [Hne _]. destruct (complete s); [done|]. by destruct Hfin.
  - intros Hc Hout ->. rewrite Hc in Hfin. destruct Hfin as (Hne & He & Hop).
    assert (fin = true) as -> by by apply Hdone.
    split; [done|]. destruct (Hf eq_refl) as [_ Hsch].
    rewrite Hout, app_nil_r in Hinv. rewrite <- Hsl, <- Hse in Hsch. rewrite <- Hsf in Hne.
    rewrite Hout in Hh. cbn in Hh. rewrite app_nil_r, <- Hp in Hh. cbn in Hh.
    rewrite (complete_all_pending t _ Hinv Hsch) in Hh.
    rewrite Hop, <- Hpn, <- Hsl in Ho |- *.
    destruct (complete_pending t _ Hinv Hsch Hne) as [[Hz Hpe]|[Hz (r & Hpe)]]; rewrite Hpe in *.
    + left. split; [|done]. apply length_zero_iff_nil. unfold id_count in Hz. lia.
    + right. exists r. split; [done|]. apply holds_one; [done|]. by apply Forall_cons in Ho as [? _].
Qed.

(** The same for an operator in either state. *)
Lemma generate_inv s :
  sort_inv s →
  ∃ jobs fin op', sm_getAllWorkOrders (ss_op s) = Ok (jobs, fin, op') ∧
    sort_inv {| ss_op := op'; ss_outs := ss_outs s ++ jobs; ss_ended := ss_ended s;
                ss_output := ss_output s; ss_early := ss_early s |} ∧
    (fin = true → complete s = true) ∧
    (complete s = true → ss_outs s = [] → jobs = [] → fin = true ∧
      ((sm_block_ids (ss_op s) = [] ∧ ss_output s = []) ∨
       ∃ run, ss_output s = [run] ∧
         is_top order top_k (mjoin (store <$> sm_block_ids (ss_op s))) (contents run))).
Proof using Hm.
  intros Hinv. destruct (so_case _ Hinv) as [Hidle|Hrun].
  - destruct (start_running s Hinv Hidle) as (op1 & Hst & Hids & Htop & Hrun).
    set (s1 := {| ss_op := op1 |}) in Hrun.
    assert (sort_inv s1) as Hinv1.
    { split; cbn; [apply Hinv|by rewrite Htop, (so_top _ Hinv)| | |by right].
      - rewrite Hids. apply Hinv.
      - unfold id_count. rewrite Hids. apply Hinv. }
    assert (complete s1 = complete s) as Hc.
    { unfold complete. cbn. f_equal. revert Hst. unfold sm_start, initializeInputRuns.
      clear. intros Hst. destruct (sm_started (ss_op s)); [by injection Hst as <-|].
      destruct (sm_is_stored (ss_op s)) eqn:E.
      - apply bind_Ok in Hst as (? & _ & Hst). apply bind_Ok in Hst as (? & _ & Hst).
        by injection Hst as <-.
      - case_decide; [apply bind_Ok in Hst as (? & _ & Hst)|]; by injection Hst as <-. }
    destruct (generate_running s1 Hinv1 Hrun) as (jobs & fin & t & Hg & Hi & Hf & Hd).
    eexists jobs, fin, _. rewrite <- Hc, <- Hids. split_and!; [|exact Hi|exact Hf|exact Hd].
    rewrite <- Hg. unfold sm_getAllWorkOrders. cbn [ss_op s1]. rewrite Hst.
    unfold sm_start at 1. by rewrite (ru_started _ Hrun : sm_started op1 = true).
  - destruct (generate_running s Hinv Hrun) as (jobs & fin & t & Hg & Hi & Hf & Hd).
    by eexists jobs, fin, _.
Qed.

Lemma feed_inv s b :
  sort_inv s → sm_is_stored (ss_op s) = false → ss_ended s = false → input_block b →
  (id_count (ss_op s) + 1 < kFinalLevelUninitialized)%N →
  ∃ op', sm_feedInputBlock b (ss_op s) = Ok op' ∧
    sort_inv {| ss_op := op'; ss_outs := ss_outs s; ss_ended := false; ss_output := ss_output s; ss_early := ss_early s |}.
Proof using Hm.
  intros [Hearly Ht Hids Hb Hcase] Hst He Hbk Hlt. unfold sm_feedInputBlock.
  set (op1 := sm_update (ss_op s) _ _ _ _).
  assert (id_count op1 = id_count (ss_op s) + 1)%N as Hcount.
  { unfold id_count, op1. cbn. rewrite length_app. cbn. lia. }
  assert (Forall input_block (sm_block_ids op1)) as Hids1.
  { cbn. apply Forall_app. by split; [|constructor]. }
  destruct Hcase as [(Hs & Htree & Hg & Ho & Hout & _)|[Hs Hg Htree Hfin Hj Hh Ho]]; rewrite Hs.
  - exists op1. split; [done|]. split; cbn; [done..|by rewrite Hcount|]. left. done.
  - unfold complete in Hfin. rewrite Hst, He in Hfin. destruct Hfin as [Hf Hout].
    specialize (Hg Hst).
    destruct (final_unknown _ _ _ Htree Hf) as [Hn _].
    assert (expd (merge_tree_ (ss_op s)) 0 = kFinalLevelUninitialized) as Hx.
    { destruct (ti_final _ _ _ Htree) as [(_ & _ & ? & _)|(E & _ & ?)]; [done|].
      rewrite Hf, Hn in E. discriminate E. }
    destruct (initializeInputRuns_spec op1 (ss_outs s)) as (t & -> & Hinv & Hsame & _ & Hp & _).
    + cbn. by rewrite Hg.
    + cbn. rewrite Hg, length_app. lia.
    + cbn. rewrite Hx, Hcount. lia.
    + intros _. by rewrite Hcount.
    + eexists. split; [done|]. split; [done..| |].
      { change (id_count op1 < kFinalLevelUninitialized)%N. by rewrite Hcount. }
      right.
      split; cbn; try done.
      * unfold complete. cbn. rewrite Hst. cbn. by rewrite (st_final _ _ Hsame).
      * unfold job_ok. by rewrite (st_final _ _ Hsame), (st_factor _ _ Hsame).
      * rewrite Hp. cbn. rewrite Hg, drop_app_length. cbn.
        rewrite (Permutation_app_comm (sm_block_ids _)).
        by apply (holds_blocks top_k _ _ [b]); [constructor|].
Qed.

Lemma end_inv s :
  sort_inv s → sm_is_stored (ss_op s) = false → ss_ended s = false → sm_started (ss_op s) = true →
  ∃ op', sm_doneFeedingInputBlocks (ss_op s) = Ok op' ∧
    sort_inv {| ss_op := op'; ss_outs := ss_outs s; ss_ended := true; ss_output := ss_output s;
                ss_early := false |}.
Proof using Hm.
  intros [Hearly Ht Hids Hb Hcase] Hst He Hs.
  destruct Hcase as [(Hs' & _)|[_ Hg Htree Hfin Hj Hh Ho]]; [congruence|].
  unfold complete in Hfin. rewrite Hst, He in Hfin. destruct Hfin as [Hf Hout].
  destruct (doneFeeding_spec (ss_op s) (ss_outs s) Htree Hf (Hg Hst) Hb)
    as (t & -> & Hinv & Hx & Hf' & Hmf & Hall & Hpn & Hjobs).
  eexists. split; [done|]. split; cbn; [done..|]. right. split; cbn; try done.
  - unfold complete. cbn. rewrite orb_true_r, Hout, Hpn. done.
  - apply Forall_and. split; [|apply Forall_and; split].
    + apply Forall_forall. intros j Hin. rewrite Forall_forall in Hj, Hjobs.
      specialize (Hjobs j Hin). destruct (Hj j Hin) as [-> _].
      rewrite Hf, (proj2 (N.eqb_neq _ (final_level_ t))) by done. apply N.eqb_neq.
      pose proof (ti_outs _ _ _ Htree) as Hto. rewrite Forall_forall in Hto.
      specialize (Hto j Hin). destruct (final_unknown _ _ _ Htree Hf) as [Hn _].
      unfold kFinalLevelUninitialized. cbn in Hto. lia.
    + eapply Forall_impl; [exact Hj|]. by intros j (_ & ? & _).
    + eapply Forall_impl; [exact Hj|]. rewrite Hmf. by intros j (_ & _ & ?).
  - by rewrite Hall.
Qed.

(** A job in execution can be merged, and its run received. *)
Lemma merge_inv s j outs run :
  sort_inv s → ss_outs s ≡ₚ j :: outs →
  ∃ blocks, doMerge fits c top_k (run_blocks <$> job_runs j) = Ok blocks ∧
    ∃ op', sm_receiveFeedbackMessage (job_level j) run (ss_op s) = Ok op' ∧
      (blocks = run_blocks run →
       sort_inv {| ss_op := op'; ss_outs := outs; ss_ended := ss_ended s;
                   ss_output := if is_final_level j then ss_output s ++ [run]
                                else ss_output s; ss_early := ss_early s |}).
Proof using Hm Hvalid.
  intros [Hearly Ht Hids Hb Hcase] Hperm.
  destruct Hcase as [(_ & _ & _ & Ho & _)|[Hs Hg Htree Hfin Hj Hh Ho]].
  { rewrite Ho in Hperm. by apply Permutation_nil_cons in Hperm. }
  rewrite Hperm in Htree, Hj, Hh. apply Forall_cons in Hj as [(Hjf & Hjr & _) Hj].
  cbn in Hh. rewrite (Permutation_app_comm (all_pending _)), <- app_assoc in Hh.
  destruct (holds_merge top_k (job_runs j) _ _ run Hvalid Hjr Hh) as (blocks & Hmerge & Hrun).
  exists blocks. split; [done|].
  destruct (writeOutputRun_spec _ j outs _ run Htree) as (Hw & Hinv & Hall).
  unfold sm_receiveFeedbackMessage. rewrite Hw. cbn. eexists. split; [done|].
  intros Hbl. destruct (Hrun Hbl) as [Hholds Hlen].
  pose proof (Forall_inv (ti_outs _ _ _ Htree)) as Hlev. cbn in Hlev.
  assert (length (pending_ (merge_tree_ (ss_op s))) = S (num_levels_ (merge_tree_ (ss_op s))))
    as Hlp by apply Htree.
  split; cbn; [done..|]. right. split; cbn; try done.
  - unfold complete in *. cbn. rewrite Hjf. destruct (sm_is_stored (ss_op s) || ss_ended s).
    + destruct Hfin as (Hne & Hx & Hop). split_and!; [done..|].
      destruct (final_known _ _ _ Htree Hne) as [-> _]. rewrite pend_put_run, Hop by lia.
      destruct (N.eqb_spec (N.of_nat (job_level j))
        (N.of_nat (num_levels_ (merge_tree_ (ss_op s)) - 1))).
      * rewrite decide_True by lia. by replace (S (job_level j)) with
          (num_levels_ (merge_tree_ (ss_op s))) by lia.
      * by rewrite decide_False by lia.
    + destruct Hfin as [Hf ->]. split; [done|]. rewrite Hf.
      destruct (final_unknown _ _ _ Htree Hf) as [Hn _].
      destruct (N.eqb_spec (N.of_nat (job_level j)) kFinalLevelUninitialized) as [E|]; [|done].
      unfold kFinalLevelUninitialized in E. lia.
  - rewrite Hall. cbn. eapply holds_perm; [|done|exact Hholds]. f_equiv. apply Permutation_app_comm.
  - destruct (is_final_level j); [|done]. apply Forall_app. split; [done|by repeat constructor].
Qed.

(** ** A stream that ends before the operator is started *)

(** The tree of a stream without blocks, and what starting makes of it. *)
Definition empty_tree : MergeTree :=
  {| runs_scheduled_ := [0%N]; runs_expected_ := [0%N]; pending_ := [[]; []];
     num_levels_ := 1; final_level_ := 0; cur_level_ := 0; merge_factor_ := m |}.
Definition restarted_tree (level : nat) : MergeTree :=
  {| runs_scheduled_ := [0%N; 0%N]; runs_expected_ := [0%N; kFinalLevelUninitialized];
     pending_ := [[]; []; []; []]; num_levels_ := 1;
     final_level_ := kFinalLevelUninitialized; cur_level_ := level; merge_factor_ := m |}.

Record stuck (s : SortState) : Prop := {
  stk_early : ss_early s = true;
  stk_ended : ss_ended s = true;
  stk_outs : ss_outs s = [];
  stk_stored : sm_is_stored (ss_op s) = false;
  stk_ids : sm_block_ids (ss_op s) = [];
  stk_tree : if sm_started (ss_op s) then merge_tree_ (ss_op s) = restarted_tree 1
             else merge_tree_ (ss_op s) = empty_tree;
}.

Lemma early_end_stuck s :
  sort_inv s → sm_is_stored (ss_op s) = false → ss_ended s = false →
  sm_started (ss_op s) = false → sm_block_ids (ss_op s) = [] →
  ∃ op', sm_doneFeedingInputBlocks (ss_op s) = Ok op' ∧
    stuck {| ss_op := op'; ss_outs := ss_outs s; ss_ended := true; ss_output := ss_output s;
             ss_early := true |}.
Proof using Hm.
  intros [_ Ht Hids Hb Hcase] Hst He Hs Hnil.
  destruct Hcase as [(_ & Htree & Hg & Ho & Hout & _)|[Hs' _ _ _ _ _ _]]; [|congruence].
  assert (initializeTree 0 (new_MergeTree m) = Ok empty_tree) as Hinit.
  { unfold initializeTree. cbn [N.size_nat expected_levels merge_factor_ new_MergeTree].
    by rewrite (proj2 (N.ltb_ge _ _)) by lia. }
  unfold sm_doneFeedingInputBlocks. rewrite Htree, Hnil.
  change (N.of_nat (length ([] : list nat))) with 0%N.
  rewrite Hinit. cbn [mbind outcome_bind]. unfold initializeInputRuns.
  cbn [num_input_workorders_generated_ sm_block_ids sm_update].
  rewrite Hg, decide_False by (cbn; lia). cbn. destruct m as [|m']; [lia|]. cbn.
  eexists. split; [reflexivity|]. split; cbn; try done. by rewrite Hs.
Qed.

(** From then on it has no work and is never done. *)
Lemma stuck_generate s :
  stuck s → ∃ op', sm_getAllWorkOrders (ss_op s) = Ok ([], false, op') ∧
    stuck {| ss_op := op'; ss_outs := ss_outs s; ss_ended := ss_ended s;
             ss_output := ss_output s; ss_early := ss_early s |}.
Proof using Hm.
  intros [He Hend Ho Hst Hids Ht]. unfold sm_getAllWorkOrders, sm_start.
  destruct (sm_started (ss_op s)) eqn:Hs.
  - cbn. rewrite Ht. cbn. eexists. split; [reflexivity|]. split; cbn; try done. by rewrite Hs.
  - rewrite Hst, Ht. unfold initializeInputRuns.
    cbn [num_input_workorders_generated_ sm_block_ids sm_update]. rewrite Hids.
    rewrite decide_False by (cbn; lia). cbn. eexists. split; [reflexivity|].
    split; cbn; done.
Qed.

Lemma stuck_step s s' : stuck s → sort_step s s' → stuck s'.
Proof using Hm.
  intros Hinv Hstep. pose proof (stk_ended _ Hinv).
  destruct Hstep as [b op' Hst He Hb Hlt Hf|op' Hst He Hs Hf|jobs fin op' Hgen
    |j outs run op' Hp Hmerge Hrecv]; [congruence..| |].
  - destruct (stuck_generate s Hinv) as (op & Hop & ?).
    rewrite Hgen in Hop. injection Hop as -> -> ->. by rewrite app_nil_r.
  - exfalso. rewrite (stk_outs _ Hinv) in Hp. by apply Permutation_nil_cons in Hp.
Qed.

Definition sort_reaches (s : SortState) : Prop := sort_inv s ∨ stuck s.

Lemma sort_step_inv s s' : sort_reaches s → sort_step s s' → sort_reaches s'.
Proof using Hm Hvalid.
  intros [Hinv|Hinv] Hstep; [|right; by eapply stuck_step].
  destruct Hstep as [b op' Hst He Hb Hlt Hf|op' Hst He Hs Hf|jobs fin op' Hgen
    |j outs run op' Hp Hmerge Hrecv].
  - left. destruct (feed_inv s b Hinv Hst He Hb Hlt) as (op & Hop & ?). rewrite Hf in Hop. by injection Hop as ->.
  - destruct (sm_started (ss_op s)) eqn:Es.
    + left. destruct (end_inv s Hinv Hst He Es) as (op & Hop & ?).
      rewrite Hf in Hop. by injection Hop as ->.
    + right. destruct Hs as [|Hs]; [done|].
      destruct (early_end_stuck s Hinv Hst He Es Hs) as (op & Hop & ?).
      rewrite Hf in Hop. by injection Hop as ->.
  - left. destruct (generate_inv s Hinv) as (jobs' & fin' & op & Hop & ? & _).
    rewrite Hgen in Hop. by injection Hop as -> -> ->.
  - left. destruct (merge_inv s j outs run Hinv Hp) as (blocks & Hm' & op & Hop & Hi).
    rewrite (so_top _ Hinv), Hm' in Hmerge. injection Hmerge as ->.
    rewrite Hrecv in Hop. injection Hop as ->. by apply Hi.
Qed.
End invariant.
End sort.

(** ** The sort *)

Definition sort_start (op : SortMergeRunOperator) : SortState :=
  {| ss_op := op; ss_outs := []; ss_ended := false; ss_output := [];
     ss_early := false |}.

(** C31. The external sort of a stored or a streamed relation whose blocks are
    sorted and not empty and whose tuples fit in a block, as the operator
    generates merge jobs and workers execute them in any order; a stream ends
    after the operator was first asked for work, or without any block.  No
    call fails and every job in execution can be merged; the operator reports
    that it is done only when its input is complete; and when the input is
    complete, no job is in execution and no more jobs are generated, it is done
    and its output is one run that holds all the tuples of the input in order,
    or the first [top_k] of them (no run when there was no block).  The
    exception is a stream without blocks whose end comes before the operator
    was first asked for work, as the query manager sends it: then the operator
    never has work and is never done. *)
Theorem external_sort_correct {V} `{!ColumnValues V} `{!HeapTop}
    (fits : list (Tuple V) → Tuple V → bool) (c : SortConfiguration)
    (store : nat → list (Tuple V)) query_id input output destination run_relation
    run_destination sort_config merge_factor top_k is_stored s :
  2 ≤ merge_factor → isValid c = true →
  (is_stored = true → Forall (input_block fits c store) (getBlocksSnapshot input) ∧
    (N.of_nat (length (getBlocksSnapshot input)) < kFinalLevelUninitialized)%N) →
  rtc (sort_step fits c store)
    (sort_start (new_SortMergeRunOperator query_id input output destination run_relation
       run_destination sort_config merge_factor top_k is_stored)) s →
  (∀ b, sm_is_stored (ss_op s) = false → ss_ended s = false → input_block fits c store b →
    (id_count (ss_op s) + 1 < kFinalLevelUninitialized)%N →
    ∃ op', sm_feedInputBlock b (ss_op s) = Ok op') ∧
  (sm_is_stored (ss_op s) = false → ss_ended s = false →
    sm_started (ss_op s) = true ∨ sm_block_ids (ss_op s) = [] →
    ∃ op', sm_doneFeedingInputBlocks (ss_op s) = Ok op') ∧
  (∀ j, j ∈ ss_outs s → ∃ blocks,
    doMerge fits c top_k (run_blocks store <$> job_runs j) = Ok blocks ∧
    ∀ run, ∃ op', sm_receiveFeedbackMessage (job_level j) run (ss_op s) = Ok op') ∧
  ∃ jobs fin op', sm_getAllWorkOrders (ss_op s) = Ok (jobs, fin, op') ∧
    (fin = true → complete s = true) ∧
    (ss_early s = true → jobs = [] ∧ fin = false) ∧
    (ss_early s = false → complete s = true → ss_outs s = [] → jobs = [] → fin = true ∧
      ((sm_block_ids (ss_op s) = [] ∧ ss_output s = []) ∨
       ∃ run, ss_output s = [run] ∧
         is_top (tuple_le (getColumnComparators c)) top_k
           (mjoin (store <$> sm_block_ids (ss_op s))) (contents store run))).
Proof.
  intros Hm Hv Hin Hrun.
  assert (sort_reaches fits c store merge_factor top_k s) as [Hinv|Hinv].
  { revert Hrun. apply rtc_ind_r; [left|intros; by eapply sort_step_inv].
    split; cbn; [done|done| | |by left].
    - destruct is_stored; [by apply Hin|constructor].
    - unfold id_count. cbn. destruct is_stored; [by apply Hin|done]. }
  - split_and!.
    + intros b ? ? ? ?. destruct (feed_inv fits c store merge_factor top_k Hm s b) as (? & ? & _); eauto.
    + intros Hst He Hs. destruct (sm_started (ss_op s)) eqn:Es.
      * destruct (end_inv fits c store merge_factor top_k Hm s) as (? & ? & _); eauto.
      * destruct Hs as [|Hs]; [done|].
        destruct (early_end_stuck fits c store merge_factor top_k Hm s) as (? & ? & _); eauto.
    + intros j (outs & Hp)%elem_of_Permutation.
      destruct (merge_inv fits c store merge_factor top_k Hm Hv s j outs [] Hinv Hp) as (blocks & Hb & _).
      exists blocks. split; [done|]. intros run.
      destruct (merge_inv fits c store merge_factor top_k Hm Hv s j outs run Hinv Hp)
        as (_ & _ & op' & ? & _). by exists op'.
    + destruct (generate_inv fits c store merge_factor top_k Hm s Hinv)
        as (jobs & fin & op' & ? & _ & ? & ?).
      exists jobs, fin, op'. split_and!; try done. by rewrite (so_early _ _ _ _ _ _ Hinv).
  - destruct Hinv as [Hearly Hend Houts ? ? ?]. split_and!.
    + intros. congruence.
    + intros. congruence.
    + rewrite Houts. by intros j ?%elem_of_nil.
    + destruct (stuck_generate merge_factor Hm s) as (op' & ? & _); [done|].
      exists [], false, op'. split_and!; [done..|congruence].
Qed.

(** Two blocks that are streamed, merged two at a time: their merge is
    scheduled before the stream ends, so a level is added above it. *)
Definition sample_store (b : nat) : list (Tuple Z) :=
  match b with
  | 1 => [[Some 1%Z]; [Some 4%Z]]
  | 2 => [[Some 2%Z]; [None]]
  | _ => [[Some 1%Z]; [Some 2%Z]; [Some 4%Z]; [None]]
  end.
Definition ascending_nulls_last : SortConfiguration :=
  {| order_by_ := [0]; ordering_ := [true]; null_ordering_ := [kSortNullLast] |}.
Definition four_per_block (b : list (Tuple Z)) (_ : Tuple Z) : bool := (length b <? 4)%nat.
Definition streamed_sort : SortMergeRunOperator :=
  new_SortMergeRunOperator 0 (new_CatalogRelation 1) (new_CatalogRelation 2) 0
    (new_CatalogRelation 3) 1 0 2 0 false.

(** Evaluates the left-hand side of a call. *)
Ltac run_call :=
  match goal with
  | |- ?call = _ =>
      let v := eval vm_compute in call in
      transitivity v; [vm_compute; reflexivity|reflexivity]
  end.

Ltac run_outs :=
  match goal with
  | |- ?outs ≡ₚ _ => let v := eval vm_compute in outs in change outs with v; reflexivity
  end.

(** A step, after which the state is evaluated. *)
Ltac sort_do step :=
  eapply rtc_l; [step|];
  match goal with
  | |- rtc _ ?state _ =>
      let v := eval vm_compute in state in
      change state with v
  end.

Lemma streamed_sort_run : ∃ s,
  rtc (sort_step four_per_block ascending_nulls_last sample_store) (sort_start streamed_sort) s ∧
  ss_output s = [[11]] ∧ ss_early s = false ∧ complete s = true ∧ ss_outs s = [] ∧
  sm_block_ids (ss_op s) = [1; 2] ∧
  (∃ op, sm_getAllWorkOrders (ss_op s) = Ok ([], true, op)).
Proof.
  eexists. split.
  - sort_do ltac:(eapply SortGenerate; run_call).
    sort_do ltac:(eapply (SortFeed _ _ _ _ 1); [done|done|split_and!; [done|repeat constructor..]|vm_compute; reflexivity|run_call]).
    sort_do ltac:(eapply (SortFeed _ _ _ _ 2); [done|done|split_and!; [done|repeat constructor..]|vm_compute; reflexivity|run_call]).
    sort_do ltac:(eapply SortGenerate; run_call).
    sort_do ltac:(eapply SortEnd; [done|done|by left|run_call]).
    sort_do ltac:(eapply (SortMerge _ _ _ _ _ [] [10]); [run_outs|run_call|run_call]).
    sort_do ltac:(eapply SortGenerate; run_call).
    sort_do ltac:(eapply (SortMerge _ _ _ _ _ [] [11]); [run_outs|run_call|run_call]).
    apply rtc_refl.
  - split_and!; [reflexivity..|]. eexists. run_call.
Defined.

Lemma external_sort_correct_witness : ∃ s run,
  rtc (sort_step four_per_block ascending_nulls_last sample_store) (sort_start streamed_sort) s ∧
  ss_output s = [run] ∧
  is_top (tuple_le (getColumnComparators ascending_nulls_last)) 0
    (sample_store 1 ++ sample_store 2) (contents sample_store run).
Proof.
  destruct streamed_sort_run as (s & Hrun & Hout & Hearly & Hc & Ho & Hids & op & Hg).
  destruct (external_sort_correct four_per_block ascending_nulls_last sample_store 0
    (new_CatalogRelation 1) (new_CatalogRelation 2) 0 (new_CatalogRelation 3) 1 0 2 0 false s
    ltac:(lia) eq_refl ltac:(done) Hrun) as (_ & _ & _ & jobs & fin & op' & Hg' & _ & _ & Hres).
  rewrite Hg in Hg'. injection Hg' as <- <- <-.
  destruct (Hres Hearly Hc Ho eq_refl) as [_ [[Hn _]|(run & Hr & Htop)]].
  { rewrite Hids in Hn. discriminate. }
  exists s, run. rewrite Hids in Htop. done.
Defined.

(** A sort of a stream without blocks is never done: the query manager sends the
    end of the stream before it first asks the operator for work, which then
    takes the stream for one that has not ended. *)
Lemma empty_stream_never_done : ∃ s,
  rtc (sort_step four_per_block ascending_nulls_last sample_store) (sort_start streamed_sort) s ∧
  complete s = true ∧
  ∀ s', rtc (sort_step four_per_block ascending_nulls_last sample_store) s s' →
    ∃ op', sm_getAllWorkOrders (ss_op s') = Ok ([], false, op').
Proof.
  destruct (early_end_stuck four_per_block ascending_nulls_last sample_store 2 0 ltac:(lia)
    (sort_start streamed_sort)) as (op' & Hop & Hstuck); [|done..|].
  { split; [done|done|constructor|done|by left]. }
  eexists. split; [|split].
  - eapply rtc_once, SortEnd; [done|done|by right|exact Hop].
  - apply orb_true_r.
  - intros s' Hs'.
    assert (stuck 2 s') as H.
    { revert Hs'. apply rtc_ind_r; [exact Hstuck|]. intros; eapply stuck_step; [lia|done..]. }
    destruct (stuck_generate 2 ltac:(lia) s' H) as (op & ? & _). by exists op.
Qed.
