(* ===== verification/Decimal.v ===== *)
(** * Decimal text

    What the sources use of the C library to print and to scan numbers: the
    conversions [%d], [%0wd] and [%+0wd] of [snprintf], [std::to_string], and
    the conversions [%d] and [%wu] of [sscanf].  A string is the list of its
    character codes, without the terminating null character. *)

From S2P Require Import Prelude.
From stdpp Require Import options.

Local Open Scope Z_scope.

Definition chr_nul : Z := 0.
Definition chr_plus : Z := 43.
Definition chr_minus : Z := 45.
Definition chr_0 : Z := 48.

Definition is_digit (c : Z) : bool := (48 <=? c) && (c <=? 57).
Definition is_space (c : Z) : bool := (c =? 32) || ((9 <=? c) && (c <=? 13)).

(** ** Printing *)

(** The digits of [n], most significant first, before those in [acc]. *)
Fixpoint digits_loop (fuel : nat) (n : Z) (acc : list Z) : list Z :=
  match fuel with
  | O => acc
  | S fuel' =>
      let acc' := chr_0 + n mod 10 :: acc in
      if n <? 10 then acc' else digits_loop fuel' (n / 10) acc'
  end.
(** A number has no more decimal than binary digits. *)
Definition digits (n : Z) : list Z := digits_loop (S (Z.to_nat (Z.log2 n))) n [].

Definition pad_zeros (width : nat) (l : list Z) : list Z :=
  replicate (width - length l) chr_0 ++ l.

(** [%d] and [std::to_string]. *)
Definition print_int (n : Z) : list Z :=
  if n <? 0 then chr_minus :: digits (- n) else digits n.
(** [%0wd]: the sign counts for the width. *)
Definition print_padded (width : nat) (n : Z) : list Z :=
  if n <? 0 then chr_minus :: pad_zeros (width - 1) (digits (- n))
  else pad_zeros width (digits n).
(** [%+0wd] *)
Definition print_signed (width : nat) (n : Z) : list Z :=
  (if n <? 0 then chr_minus else chr_plus) :: pad_zeros (width - 1) (digits (Z.abs n)).

(** ** Scanning *)

(** The value of a sequence of digits. *)
Definition digits_value (l : list Z) : Z := foldl (λ v c, v * 10 + (c - chr_0)) 0 l.

Fixpoint skip_spaces (s : list Z) : list Z :=
  match s with
  | c :: s' => if is_space c then skip_spaces s' else s
  | [] => []
  end.

(** The digits at the front, at most [width] of them if there is a limit, and
    the rest. *)
Fixpoint span_digits (width : option nat) (s : list Z) : list Z * list Z :=
  match width, s with
  | Some O, _ => ([], s)
  | _, c :: s' =>
      if is_digit c then
        let '(ds, rest) := span_digits (pred <$> width) s' in (c :: ds, rest)
      else ([], s)
  | _, [] => ([], [])
  end.

(** A sign and digits, within the width; [None] is a matching failure. *)
Definition scan_number (width : option nat) (s : list Z) : option (Z * list Z) :=
  let s := skip_spaces s in
  let '(negative, width, s) :=
    match width, s with
    | Some O, _ => (false, width, s)
    | _, c :: s' =>
        if c =? chr_minus then (true, pred <$> width, s')
        else if c =? chr_plus then (false, pred <$> width, s')
        else (false, width, s)
    | _, [] => (false, width, s)
    end in
  let '(ds, rest) := span_digits width s in
  match ds with
  | [] => None
  | _ => Some (if negative then - digits_value ds else digits_value ds, rest)
  end.

(** A character that is not a conversion. *)
Definition scan_char (c : Z) (s : list Z) : option (list Z) :=
  match s with
  | c' :: s' => if c' =? c then Some s' else None
  | [] => None
  end.

(** [std::string::c_str()] as the C library reads it. *)
Fixpoint c_str (s : list Z) : list Z :=
  match s with
  | c :: s' => if c =? chr_nul then [] else c :: c_str s'
  | [] => []
  end.

(** ** Digits *)

Lemma digit_of n : is_digit (chr_0 + n mod 10) = true.
Proof.
  unfold is_digit, chr_0. pose proof (Z.mod_pos_bound n 10).
  apply andb_true_iff. rewrite !Z.leb_le. lia.
Qed.

Definition all_digits (l : list Z) : Prop := Forall (λ c, is_digit c = true) l.

Lemma digits_value_app l k :
  digits_value (l ++ k) = digits_value l * 10 ^ Z.of_nat (length k) + digits_value k.
Proof.
  unfold digits_value. rewrite foldl_app. generalize (foldl (λ v c, v * 10 + (c - chr_0)) 0 l).
  induction k as [|c k IH] using rev_ind; intros v; [cbn; lia|].
  rewrite !foldl_app, IH, length_app. cbn [foldl length].
  rewrite Nat2Z.inj_add, Z.pow_add_r by lia. change (10 ^ Z.of_nat 1) with 10. lia.
Qed.

Lemma digits_loop_spec fuel n acc :
  0 ≤ n < 2 ^ Z.of_nat fuel → (0 < fuel)%nat → ∃ l, digits_loop fuel n acc = l ++ acc ∧
    all_digits l ∧ l ≠ [] ∧ digits_value l = n ∧
    (n = 0 ∨ 10 ^ (Z.of_nat (length l) - 1) ≤ n) ∧ n < 10 ^ Z.of_nat (length l).
Proof.
  revert n acc. induction fuel as [|fuel IH]; intros n acc Hn Hf; [lia|]. cbn [digits_loop].
  destruct (Z.ltb_spec n 10) as [Hlt|Hge].
  - exists [chr_0 + n mod 10]. rewrite Z.mod_small by lia. split; [done|]. split_and!.
    + constructor; [|constructor]. rewrite <- (Z.mod_small n 10) by lia. apply digit_of.
    + done.
    + unfold digits_value, chr_0. cbn. lia.
    + cbn. lia.
    + cbn. lia.
  - assert (0 < fuel)%nat as Hf' by (destruct fuel; [cbn in Hn; lia|lia]).
    destruct (IH (n / 10) (chr_0 + n mod 10 :: acc)) as (l & Hl & Hd & Hne & Hv & Hlo & Hhi).
    { rewrite Nat2Z.inj_succ, Z.pow_succ_r in Hn by lia. split; [apply Z.div_pos; lia|].
      apply Z.div_lt_upper_bound; lia. }
    { done. }
    exists (l ++ [chr_0 + n mod 10]). rewrite Hl, <- app_assoc. split; [done|].
    pose proof (Z.div_mod n 10). pose proof (Z.mod_pos_bound n 10).
    assert (1 ≤ length l)%nat by (destruct l; [done|cbn; lia]).
    split_and!.
    + apply Forall_app_2; [done|]. constructor; [apply digit_of|constructor].
    + by destruct l.
    + rewrite digits_value_app, Hv. unfold digits_value, chr_0. cbn. lia.
    + right. rewrite length_app. cbn [length].
      replace (Z.of_nat (length l + 1) - 1) with (Z.succ (Z.of_nat (length l) - 1)) by lia.
      rewrite Z.pow_succ_r by lia. destruct Hlo as [Hz|Hlo]; [|lia].
      apply Z.div_small_iff in Hz; lia.
    + rewrite length_app, Nat2Z.inj_add, Z.pow_add_r by lia. cbn. lia.
Qed.

(** A natural number is printed as its digits, without leading zeros. *)
Lemma digits_spec n : 0 ≤ n →
  all_digits (digits n) ∧ digits n ≠ [] ∧ digits_value (digits n) = n ∧
  (n = 0 ∨ 10 ^ (Z.of_nat (length (digits n)) - 1) ≤ n) ∧
  n < 10 ^ Z.of_nat (length (digits n)).
Proof.
  intros Hn. unfold digits.
  destruct (digits_loop_spec (S (Z.to_nat (Z.log2 n))) n []) as (l & -> & Hl).
  - split; [done|]. rewrite Nat2Z.inj_succ, Z2Nat.id by apply Z.log2_nonneg.
    destruct (decide (n = 0)) as [->|]; [done|]. apply Z.log2_spec. lia.
  - lia.
  - by rewrite app_nil_r.
Qed.

Lemma digits_length n w :
  0 ≤ n < 10 ^ Z.of_nat w → (0 < w)%nat → (length (digits n) ≤ w)%nat.
Proof.
  intros Hn Hw. destruct (digits_spec n) as (_ & Hne & _ & Hlo & _); [lia|].
  destruct Hlo as [->|Hlo]; [cbn; lia|].
  destruct (decide (length (digits n) ≤ w)%nat) as [|Hgt]; [done|].
  assert (10 ^ Z.of_nat w ≤ 10 ^ (Z.of_nat (length (digits n)) - 1))
    by (apply Z.pow_le_mono_r; lia). lia.
Qed.

Lemma digits_value_zeros k l : digits_value (replicate k chr_0 ++ l) = digits_value l.
Proof.
  rewrite digits_value_app.
  assert (digits_value (replicate k chr_0) = 0) as ->; [|lia].
  induction k as [|k IH]; [done|]. rewrite replicate_S_end, digits_value_app, IH. done.
Qed.

(** Padding changes neither the value nor that there are only digits. *)
Lemma pad_zeros_spec w n : 0 ≤ n →
  all_digits (pad_zeros w (digits n)) ∧ pad_zeros w (digits n) ≠ [] ∧
  digits_value (pad_zeros w (digits n)) = n ∧
  length (pad_zeros w (digits n)) = Nat.max w (length (digits n)).
Proof.
  intros Hn. destruct (digits_spec n Hn) as (Hd & Hne & Hv & _). unfold pad_zeros.
  split_and!.
  - apply Forall_app_2; [|done]. by apply Forall_replicate.
  - intros [_ ?]%app_eq_nil. done.
  - by rewrite digits_value_zeros.
  - rewrite length_app, length_replicate. lia.
Qed.

(** ** Scanning what was printed *)

(** The text after a number: it ends, or does not go on with a digit. *)
Definition stops (s : list Z) : Prop :=
  match s with c :: _ => is_digit c = false | [] => True end.

Lemma span_digits_spec width ds rest :
  all_digits ds →
  match width with
  | None => stops rest
  | Some w => (length ds ≤ w)%nat ∧ (length ds = w ∨ stops rest)
  end →
  span_digits width (ds ++ rest) = (ds, rest).
Proof.
  intros Hd. revert width. induction Hd as [|c ds Hc Hd IH]; intros width Hw.
  - destruct width as [[|w]|], rest as [|c rest]; cbn in *; try done.
    + destruct Hw as [_ [|Hs]]; [done|]. by rewrite Hs.
    + by rewrite Hw.
  - destruct width as [[|w]|]; cbn in *; [lia| |]; rewrite Hc, IH; try done.
    destruct Hw as [? [?|?]]; (split; [lia|]); [left; lia|by right].
Qed.

Lemma digit_facts c : is_digit c = true →
  is_space c = false ∧ (c =? chr_minus) = false ∧ (c =? chr_plus) = false ∧ c ≠ chr_nul.
Proof.
  unfold is_digit, is_space, chr_minus, chr_plus, chr_nul.
  rewrite andb_true_iff, !Z.leb_le. intros [H1 H2]. split_and!; [| | |lia].
  - apply orb_false_iff. split; [lia|]. apply andb_false_iff. lia.
  - lia.
  - lia.
Qed.

Lemma scan_digits width ds rest :
  all_digits ds → ds ≠ [] →
  match width with
  | None => stops rest
  | Some w => (length ds ≤ w)%nat ∧ (length ds = w ∨ stops rest)
  end →
  scan_number width (ds ++ rest) = Some (digits_value ds, rest).
Proof.
  intros Hd Hne Hw. destruct ds as [|c ds]; [done|].
  pose proof Hd as Hc. apply Forall_cons in Hc as [Hc _].
  destruct (digit_facts c Hc) as (Hs & Hm & Hp & _).
  unfold scan_number. rewrite <- app_comm_cons. cbn [skip_spaces]. rewrite Hs, Hm, Hp.
  pose proof (span_digits_spec width (c :: ds) rest Hd Hw) as Hspan.
  rewrite <- app_comm_cons in Hspan.
  destruct width as [[|w]|]; [cbn in Hw; lia| |]; by rewrite Hspan.
Qed.

Lemma scan_signed (negative : bool) ds rest :
  all_digits ds → ds ≠ [] → stops rest →
  scan_number None ((if negative then chr_minus else chr_plus) :: ds ++ rest) =
  Some (if negative then - digits_value ds else digits_value ds, rest).
Proof.
  intros Hd Hne Hs. unfold scan_number.
  pose proof (span_digits_spec None ds rest Hd Hs) as Hspan.
  destruct negative; cbn [skip_spaces]; cbn -[span_digits]; rewrite Hspan;
    destruct ds; done.
Qed.

(** [sscanf] reads back what [snprintf] wrote with [%d]. *)
Lemma scan_print_int n rest :
  stops rest → scan_number None (print_int n ++ rest) = Some (n, rest).
Proof.
  intros Hs. unfold print_int. destruct (Z.ltb_spec n 0) as [Hneg|Hpos].
  - destruct (digits_spec (- n)) as (Hd & Hne & Hv & _); [lia|].
    rewrite <- app_comm_cons, (scan_signed true), Hv by done. f_equal. f_equal. lia.
  - destruct (digits_spec n) as (Hd & Hne & Hv & _); [done|].
    by rewrite (scan_digits None), Hv.
Qed.

Lemma c_str_digits l : all_digits l → c_str l = l.
Proof.
  induction 1 as [|c l Hc _ IH]; [done|]. cbn.
  destruct (digit_facts c Hc) as (_ & _ & _ & Hn).
  rewrite (proj2 (Z.eqb_neq c chr_nul) Hn). by f_equal.
Qed.
Lemma c_str_app l k : c_str l = l → c_str (l ++ k) = l ++ c_str k.
Proof.
  induction l as [|c l IH]; [done|]. cbn. destruct (c =? chr_nul); [done|].
  intros [= Hl]. by rewrite IH.
Qed.
Lemma print_int_c_str n : c_str (print_int n) = print_int n.
Proof.
  unfold print_int. destruct (Z.ltb_spec n 0) as [Hneg|Hpos]; cbn.
  - f_equal. apply c_str_digits, digits_spec. lia.
  - by apply c_str_digits, digits_spec.
Qed.
