(* ===== verification/ValueText.v ===== *)
(** * Values as text

    Models printValueToString and parseValueFromString of types/IntType.cpp,
    types/LongType.cpp and types/DateType.cpp, with the [DateLit] of
    types/DatetimeLit.hpp.  A number that [sscanf] reads and that does not fit
    its variable is undefined behaviour. *)

From S2P Require Import Prelude Decimal.
From stdpp Require Import options.

Local Open Scope Z_scope.

(** ** Integers *)

Definition int_printValueToString (value : Z) : list Z := print_int value.
Definition long_printValueToString (value : Z) : list Z := print_int value.

(** [sscanf(s, "%d%n", ...)] into a signed integer of [bits] bits. *)
Definition parse_signed (bits : Z) (value_string : list Z) : outcome (option Z) :=
  let text := c_str value_string in
  match scan_number None text with
  | None => Ok None
  | Some (parsed, rest) =>
      if decide (- 2 ^ (bits - 1) ≤ parsed < 2 ^ (bits - 1)) then
        Ok (if decide ((length text - length rest)%nat = length value_string)
            then Some parsed else None)
      else Err UndefinedBehaviour
  end.
Definition int_parseValueFromString : list Z → outcome (option Z) := parse_signed 32.
Definition long_parseValueFromString : list Z → outcome (option Z) := parse_signed 64.

(** ** Dates *)

Record DateLit := { year : Z; month : Z; day : Z }.
#[global] Instance DateLit_eq_dec : EqDecision DateLit.
Proof. solve_decision. Defined.

(** A sign, five digits of the year, two dashes, month and day. *)
Definition kIsoChars : nat := 12.

(** The buffer has room for [kIsoChars] characters and the terminating null
    character; [snprintf] drops what does not fit, and [CheckSnprintf] only adds
    up the lengths in a release build. *)
Definition date_printValueToString (literal : DateLit) : outcome (list Z) :=
  let y := year literal in
  let first :=
    (if (y >? 9999) || (y <? 0) then print_signed 5 y else print_padded 4 y)
      ++ [chr_minus] in
  let second :=
    print_padded 2 (month literal) ++ [chr_minus] ++ print_padded 2 (day literal) in
  if decide (length first ≤ kIsoChars)%nat
  then Ok (first ++ take (kIsoChars - length first) second)
  else Err UndefinedBehaviour.

Definition days_in_february (y : Z) : Z :=
  if (Z.land y 3 =? 0) && (negb (Z.rem y 25 =? 0) || (Z.land y 15 =? 0))
  then 29 else 28.

(** The checks after [sscanf]. *)
Definition date_fields_ok (y m d : Z) : bool :=
  if (m =? 0) || (m >? 12) then false
  else if d =? 0 then false
  else if m =? 2 then negb (d >? days_in_february y)
  else if (m =? 4) || (m =? 6) || (m =? 9) || (m =? 11) then negb (d >? 30)
  else negb (d >? 31).

(** [sscanf(s, "%d-%2u-%2u%n", ...)]: [None] unless all three conversions are
    made; with the text left. *)
Definition scan_date (text : list Z) : option (Z * Z * Z * list Z) :=
  '(y, t1) ← scan_number None text;
  t2 ← scan_char chr_minus t1;
  '(m, t3) ← scan_number (Some 2%nat) t2;
  t4 ← scan_char chr_minus t3;
  '(d, t5) ← scan_number (Some 2%nat) t4;
  Some (y, m mod 2 ^ 32, d mod 2 ^ 32, t5).

(** The year is read before a later conversion can fail. *)
Definition year_fits (text : list Z) : bool :=
  match scan_number None text with
  | Some (y, _) => (- 2 ^ 31 <=? y) && (y <? 2 ^ 31)
  | None => true
  end.

Definition date_parseValueFromString (value_string : list Z)
  : outcome (option DateLit) :=
  let text := c_str value_string in
  if negb (year_fits text) then Err UndefinedBehaviour
  else
    match scan_date text with
    | None => Ok None
    | Some (y, m, d, rest) =>
        if decide ((length text - length rest)%nat ≠ length value_string) then Ok None
        else if date_fields_ok y m d then Ok (Some {| year := y; month := m; day := d |})
        else Ok None
    end.

(** ** The calendar *)

Definition gregorian_leap (y : Z) : bool :=
  (y mod 4 =? 0) && (negb (y mod 100 =? 0) || (y mod 400 =? 0)).
Definition days_in_month (y m : Z) : Z :=
  if m =? 2 then (if gregorian_leap y then 29 else 28)
  else if (m =? 4) || (m =? 6) || (m =? 9) || (m =? 11) then 30 else 31.

(** A date of the proleptic Gregorian calendar with a 32-bit year. *)
Definition valid_date (d : DateLit) : Prop :=
  - 2 ^ 31 ≤ year d < 2 ^ 31 ∧ 1 ≤ month d ≤ 12 ∧
  1 ≤ day d ≤ days_in_month (year d) (month d).

Lemma february_gregorian y :
  days_in_february y = if gregorian_leap y then 29 else 28.
Proof.
  unfold days_in_february, gregorian_leap.
  change 3 with (Z.ones 2). change 15 with (Z.ones 4).
  rewrite !Z.land_ones by done. change (2 ^ 2) with 4. change (2 ^ 4) with 16.
  destruct (Z.eqb_spec (y mod 4) 0), (Z.eqb_spec (Z.rem y 25) 0), (Z.eqb_spec (y mod 16) 0),
    (Z.eqb_spec (y mod 100) 0), (Z.eqb_spec (y mod 400) 0); try done; exfalso;
    Z.to_euclidean_division_equations; lia.
Qed.

Lemma date_fields_iff y m d :
  0 ≤ m → 0 ≤ d →
  date_fields_ok y m d = true ↔ 1 ≤ m ≤ 12 ∧ 1 ≤ d ≤ days_in_month y m.
Proof.
  intros Hm Hd. unfold date_fields_ok, days_in_month. rewrite february_gregorian.
  destruct (Z.eqb_spec m 0); cbn; [lia|]. destruct (Z.gtb_spec m 12); [lia|].
  destruct (Z.eqb_spec d 0); [lia|].
  destruct (Z.eqb_spec m 2); [|destruct ((_ =? _) || _ || _ || _)];
    rewrite negb_true_iff, Z.gtb_ltb, Z.ltb_ge; lia.
Qed.

(** ** Printing and scanning the parts of a date *)

Lemma print_padded_small w n : (0 < w)%nat → 0 ≤ n < 10 ^ Z.of_nat w →
  all_digits (print_padded w n) ∧ print_padded w n ≠ [] ∧
  digits_value (print_padded w n) = n ∧ length (print_padded w n) = w.
Proof.
  intros Hw Hn. unfold print_padded. destruct (Z.ltb_spec n 0); [lia|].
  destruct (pad_zeros_spec w n) as (H1 & H2 & H3 & H4); [lia|].
  pose proof (digits_length n w Hn Hw). split_and!; [done..|lia].
Qed.

(** The text of the year, read back before a dash. *)
Definition year_text (y : Z) : list Z :=
  if (y >? 9999) || (y <? 0) then print_signed 5 y else print_padded 4 y.

Lemma year_text_spec y rest :
  Z.abs y ≤ 99999 → stops rest →
  (length (year_text y) ≤ 6)%nat ∧ c_str (year_text y) = year_text y ∧
  scan_number None (year_text y ++ rest) = Some (y, rest).
Proof.
  intros Hy Hs. unfold year_text.
  destruct (Z.gtb_spec y 9999), (Z.ltb_spec y 0); cbn [orb]; try lia.
  3: { destruct (print_padded_small 4 y) as (H1 & H2 & H3 & H4); [lia|cbn; lia|].
       split_and!; [lia|by apply c_str_digits|].
       by rewrite (scan_digits None), H3. }
  all: unfold print_signed; destruct (pad_zeros_spec 4 (Z.abs y)) as (H1 & H2 & H3 & H4);
    [lia|]; pose proof (digits_length (Z.abs y) 5 ltac:(cbn; lia) ltac:(lia));
    destruct (Z.ltb_spec y 0); try lia; split_and!;
    [cbn [length Nat.sub] in *; lia
    |change (5 - 1)%nat with 4%nat; cbn; f_equal; by apply c_str_digits
    |change (5 - 1)%nat with 4%nat; rewrite <- app_comm_cons].
  - rewrite (scan_signed false), H3 by done. by rewrite Z.abs_eq by lia.
  - rewrite (scan_signed true), H3 by done. f_equal. f_equal. lia.
Qed.

Lemma scan_two n rest : 0 ≤ n < 100 →
  scan_number (Some 2%nat) (print_padded 2 n ++ rest) = Some (n, rest) ∧
  c_str (print_padded 2 n) = print_padded 2 n ∧ length (print_padded 2 n) = 2%nat.
Proof.
  intros Hn. destruct (print_padded_small 2 n) as (H1 & H2 & H3 & H4); [lia|cbn; lia|].
  split_and!; [|by apply c_str_digits|done].
  rewrite (scan_digits (Some 2%nat)), H3; [done..|]. split; [lia|by left].
Qed.

(** The whole text of a date. *)
Definition date_text (d : DateLit) : list Z :=
  year_text (year d) ++ [chr_minus] ++ print_padded 2 (month d) ++ [chr_minus] ++
  print_padded 2 (day d).

Lemma scan_date_text d :
  Z.abs (year d) ≤ 99999 → 0 ≤ month d < 100 → 0 ≤ day d < 100 →
  c_str (date_text d) = date_text d ∧
  scan_number None (date_text d) = Some (year d,
    [chr_minus] ++ print_padded 2 (month d) ++ [chr_minus] ++ print_padded 2 (day d)) ∧
  scan_date (date_text d) = Some (year d, month d, day d, []).
Proof.
  intros Hy Hm Hd. unfold date_text.
  set (tail := [chr_minus] ++ _).
  destruct (year_text_spec (year d) tail Hy) as (_ & Hyc & Hys); [done|].
  destruct (scan_two (month d) ([chr_minus] ++ print_padded 2 (day d)) Hm) as (Hms & Hmc & _).
  destruct (scan_two (day d) [] Hd) as (Hds & Hdc & _). rewrite app_nil_r in Hds.
  split_and!.
  - rewrite c_str_app by done. f_equal. unfold tail.
    rewrite c_str_app by done. f_equal. rewrite c_str_app by done. f_equal.
    by rewrite c_str_app, Hdc by done.
  - done.
  - unfold scan_date. rewrite Hys. unfold tail. cbn -[scan_number print_padded].
    cbn [app] in Hms. rewrite Hms. cbn -[scan_number print_padded].
    rewrite Hds. cbn -[Z.modulo].
    by rewrite !Z.mod_small by lia.
Qed.

Lemma date_print_text d :
  Z.abs (year d) ≤ 99999 → 0 ≤ month d < 100 → 0 ≤ day d < 100 →
  date_printValueToString d = Ok (date_text d).
Proof.
  intros Hy Hm Hd. unfold date_printValueToString, date_text.
  fold (year_text (year d)).
  destruct (year_text_spec (year d) []) as (Hlen & _ & _); [done..|].
  destruct (scan_two (month d) [] Hm) as (_ & _ & Hml).
  destruct (scan_two (day d) [] Hd) as (_ & _ & Hdl).
  rewrite length_app. change (length [chr_minus]) with 1%nat.
  rewrite decide_True by (unfold kIsoChars; lia).
  rewrite take_ge; [by rewrite <- !app_assoc|].
  rewrite !length_app, Hml, Hdl. change (length [chr_minus]) with 1%nat.
  unfold kIsoChars. lia.
Qed.

(** ** Theorems *)

Lemma signed_round_trip bits n :
  - 2 ^ (bits - 1) ≤ n < 2 ^ (bits - 1) → parse_signed bits (print_int n) = Ok (Some n).
Proof.
  intros Hn. unfold parse_signed. rewrite print_int_c_str.
  pose proof (scan_print_int n [] I) as Hs. rewrite app_nil_r in Hs. rewrite Hs.
  by rewrite decide_True, decide_True by (done || (cbn; lia)).
Qed.

Lemma date_parse_valid s d :
  date_parseValueFromString s = Ok (Some d) → valid_date d.
Proof.
  unfold date_parseValueFromString, year_fits, scan_date.
  destruct (scan_number None (c_str s)) as [[y t1]|]; [|done].
  destruct (Z.leb_spec (- 2 ^ 31) y), (Z.ltb_spec y (2 ^ 31)); cbn -[Z.modulo]; try done.
  destruct (scan_char _ t1) as [t2|]; cbn -[Z.modulo]; [|done].
  destruct (scan_number _ t2) as [[m t3]|]; cbn -[Z.modulo]; [|done].
  destruct (scan_char _ t3) as [t4|]; cbn -[Z.modulo]; [|done].
  destruct (scan_number _ t4) as [[d' t5]|]; cbn -[Z.modulo]; [|done].
  case_decide; [done|]. destruct (date_fields_ok _ _ _) eqn:Hok; [|done].
  intros [= <-]. apply date_fields_iff in Hok; [|apply Z.mod_pos_bound; lia..].
  by split; [|cbn -[Z.modulo]].
Qed.

(** A date with a year of six digits, and the text it is scanned from. *)
Definition far_date : DateLit := {| year := 100000; month := 1; day := 15 |}.
Definition far_text : list Z := digits 100000 ++ [45; 48; 49; 45; 49; 53].

(** C25. Text and values agree.  Every 32-bit integer, every 64-bit integer and
    every valid date whose year has at most five digits is read back from the
    text it is printed as; what is read as a date is a valid date of the
    Gregorian calendar, so that the test for leap years by masks and the
    remainder by 25 is the Gregorian rule, also for negative years.  Years of
    six digits are accepted but do not fit the buffer they are printed to: the
    15th of a month is printed without its last digit, and read back as the
    1st. *)
Theorem value_text_round_trip :
  (∀ n, - 2 ^ 31 ≤ n < 2 ^ 31 →
     int_parseValueFromString (int_printValueToString n) = Ok (Some n)) ∧
  (∀ n, - 2 ^ 63 ≤ n < 2 ^ 63 →
     long_parseValueFromString (long_printValueToString n) = Ok (Some n)) ∧
  (∀ d, valid_date d → Z.abs (year d) ≤ 99999 → ∃ s,
     date_printValueToString d = Ok s ∧ date_parseValueFromString s = Ok (Some d)) ∧
  (∀ s d, date_parseValueFromString s = Ok (Some d) → valid_date d) ∧
  date_parseValueFromString far_text = Ok (Some far_date) ∧
  (∃ s, date_printValueToString far_date = Ok s ∧
     date_parseValueFromString s = Ok (Some {| year := 100000; month := 1; day := 1 |})).
Proof.
  split_and!.
  - intros n Hn. by apply signed_round_trip.
  - intros n Hn. by apply signed_round_trip.
  - intros d Hd Hy. pose proof Hd as ((Hyr & _) & Hm & Hday).
    assert (days_in_month (year d) (month d) ≤ 31) as Hmax.
    { unfold days_in_month. repeat case_match; lia. }
    exists (date_text d). split; [apply date_print_text; lia|].
    destruct (scan_date_text d Hy) as (Hc & Hs & Hscan); [lia..|].
    unfold date_parseValueFromString, year_fits. rewrite Hc, Hs, Hscan.
    destruct (Z.leb_spec (- 2 ^ 31) (year d)), (Z.ltb_spec (year d) (2 ^ 31));
      cbn -[date_fields_ok date_text]; try lia.
    rewrite decide_False by lia.
    rewrite (proj2 (date_fields_iff (year d) (month d) (day d) ltac:(lia) ltac:(lia))) by done.
    by destruct d.
  - exact date_parse_valid.
  - vm_compute. reflexivity.
  - eexists. split; [vm_compute; reflexivity|vm_compute; reflexivity].
Qed.
