(* ===== verification/Types.v ===== *)
(** * The type system

    Models types/TypeID.hpp, the classes of types/*Type.{hpp,cpp} as far as
    they describe types (not values), types/NumericTypeUnifier.hpp and
    types/TypeFactory.{hpp,cpp}: nullability, which types can be coerced to
    which, the unifying type of two types and the representation as a protocol
    buffer message.  Each exact type is a singleton, so a type is its class and
    its parameters.  Lengths are [std::size_t]. *)

From S2P Require Import Prelude.
From stdpp Require Import options.

Local Open Scope N_scope.

Inductive TypeID :=
| kInt | kLong | kFloat | kDouble | kChar | kVarChar | kDate | kDatetime
| kDatetimeInterval | kYearMonthInterval | kNullType.
#[global] Instance TypeID_eq_dec : EqDecision TypeID.
Proof. solve_decision. Defined.

Inductive SuperTypeID := kNumeric | kAsciiString | kOther.
#[global] Instance SuperTypeID_eq_dec : EqDecision SuperTypeID.
Proof. solve_decision. Defined.

Inductive Ty :=
| IntType (nullable : bool)
| LongType (nullable : bool)
| FloatType (nullable : bool)
| DoubleType (nullable : bool)
| CharType (length : N) (nullable : bool)
| VarCharType (length : N) (nullable : bool)
| DateType (nullable : bool)
| DatetimeType (nullable : bool)
| DatetimeIntervalType (nullable : bool)
| YearMonthIntervalType (nullable : bool)
| NullType.
#[global] Instance Ty_eq_dec : EqDecision Ty.
Proof. solve_decision. Defined.

(** ** The members of [Type] *)

Definition getTypeID (t : Ty) : TypeID :=
  match t with
  | IntType _ => kInt | LongType _ => kLong | FloatType _ => kFloat
  | DoubleType _ => kDouble | CharType _ _ => kChar | VarCharType _ _ => kVarChar
  | DateType _ => kDate | DatetimeType _ => kDatetime
  | DatetimeIntervalType _ => kDatetimeInterval
  | YearMonthIntervalType _ => kYearMonthInterval | NullType => kNullType
  end.
Definition getSuperTypeID (t : Ty) : SuperTypeID :=
  match t with
  | IntType _ | LongType _ | FloatType _ | DoubleType _ => kNumeric
  | CharType _ _ | VarCharType _ _ => kAsciiString
  | _ => kOther
  end.
Definition isNullable (t : Ty) : bool :=
  match t with
  | IntType n | LongType n | FloatType n | DoubleType n | CharType _ n
  | VarCharType _ n | DateType n | DatetimeType n | DatetimeIntervalType n
  | YearMonthIntervalType n => n
  | NullType => true
  end.
(** The constructors' byte lengths; [length + 1] wraps around. *)
Definition minimumByteLength (t : Ty) : N :=
  match t with
  | IntType _ | FloatType _ => 4
  | LongType _ | DoubleType _ | DateType _ | DatetimeType _
  | DatetimeIntervalType _ | YearMonthIntervalType _ => 8
  | CharType l _ => l
  | VarCharType _ _ => 1
  | NullType => 0
  end.
Definition maximumByteLength (t : Ty) : N :=
  match t with
  | VarCharType l _ => (l + 1) mod 2 ^ 64
  | _ => minimumByteLength t
  end.
Definition isVariableLength (t : Ty) : bool :=
  negb (minimumByteLength t =? maximumByteLength t).

(** The instance of the same class with the given nullability. *)
Definition instance_like (t : Ty) (n : bool) : Ty :=
  match t with
  | IntType _ => IntType n | LongType _ => LongType n | FloatType _ => FloatType n
  | DoubleType _ => DoubleType n | CharType l _ => CharType l n
  | VarCharType l _ => VarCharType l n | DateType _ => DateType n
  | DatetimeType _ => DatetimeType n
  | DatetimeIntervalType _ => DatetimeIntervalType n
  | YearMonthIntervalType _ => YearMonthIntervalType n | NullType => NullType
  end.
Definition getNullableVersion (t : Ty) : Ty := instance_like t true.
Definition getNonNullableVersion (t : Ty) : outcome Ty :=
  match t with
  | NullType => Err CheckFailed
  | _ => Ok (instance_like t false)
  end.
Definition equals (t other : Ty) : bool := bool_decide (t = other).

(** ** Coercibility *)

(** [QUICKSTEP_NULL_COERCIBILITY_CHECK], then the rest. *)
Definition null_check (t original_type : Ty) (rest : bool) : bool :=
  if isNullable original_type && negb (isNullable t) then false
  else if decide (getTypeID original_type = kNullType) then true
  else rest.

(** [NumericSuperType] and [AsciiStringSuperType] *)
Definition numeric_isCoercibleFrom (t original_type : Ty) : bool :=
  null_check t original_type (bool_decide (getSuperTypeID original_type = kNumeric)).
Definition string_isCoercibleFrom (t original_type : Ty) : bool :=
  if isNullable original_type && negb (isNullable t) then false
  else bool_decide (getSuperTypeID original_type = kAsciiString)
       || bool_decide (getTypeID original_type = kNullType).
Definition date_isCoercibleFrom (t original_type : Ty) : bool :=
  null_check t original_type (bool_decide (getTypeID original_type = kDate)).
Definition datetime_isCoercibleFrom (t original_type : Ty) : bool :=
  null_check t original_type (bool_decide (getTypeID original_type = kDatetime)).
Definition datetime_interval_isCoercibleFrom (t original_type : Ty) : bool :=
  null_check t original_type (bool_decide (getTypeID original_type = kDatetimeInterval)).
Definition year_month_interval_isCoercibleFrom (t original_type : Ty) : bool :=
  null_check t original_type (bool_decide (getTypeID original_type = kYearMonthInterval)).
Definition null_isCoercibleFrom (original_type : Ty) : bool :=
  bool_decide (getTypeID original_type = kNullType).

(** The virtual function. *)
Definition isCoercibleFrom (t original_type : Ty) : bool :=
  match t with
  | IntType _ | LongType _ | FloatType _ | DoubleType _ =>
      numeric_isCoercibleFrom t original_type
  | CharType _ _ | VarCharType _ _ => string_isCoercibleFrom t original_type
  | DateType _ => date_isCoercibleFrom t original_type
  | DatetimeType _ => datetime_isCoercibleFrom t original_type
  | DatetimeIntervalType _ => datetime_interval_isCoercibleFrom t original_type
  | YearMonthIntervalType _ => year_month_interval_isCoercibleFrom t original_type
  | NullType => null_isCoercibleFrom original_type
  end.

(** [a - 1] of a [std::size_t]. *)
Definition size_pred (n : N) : N := (n + (2 ^ 64 - 1)) mod 2 ^ 64.

Definition int_isSafelyCoercibleFrom (t original_type : Ty) : bool :=
  null_check t original_type (bool_decide (getTypeID original_type = kInt)).
Definition long_isSafelyCoercibleFrom (t original_type : Ty) : bool :=
  null_check t original_type (bool_decide (getTypeID original_type ∈ [kInt; kLong])).
Definition float_isSafelyCoercibleFrom (t original_type : Ty) : bool :=
  null_check t original_type (bool_decide (getTypeID original_type ∈ [kInt; kFloat])).
Definition double_isSafelyCoercibleFrom (t original_type : Ty) : bool :=
  null_check t original_type
    (bool_decide (getTypeID original_type ∈ [kInt; kLong; kFloat; kDouble])).
Definition char_isSafelyCoercibleFrom (length_ : N) (t original_type : Ty) : bool :=
  null_check t original_type
    (match getTypeID original_type with
     | kChar => maximumByteLength original_type <=? length_
     | kVarChar => size_pred (maximumByteLength original_type) <=? length_
     | _ => false
     end).
Definition var_char_isSafelyCoercibleFrom (length_ : N) (t original_type : Ty) : bool :=
  null_check t original_type
    (match getTypeID original_type with
     | kChar => maximumByteLength original_type <=? length_
     | kVarChar => maximumByteLength original_type <=? (length_ + 1) mod 2 ^ 64
     | _ => false
     end).
Definition date_isSafelyCoercibleFrom (t original_type : Ty) : bool :=
  null_check t original_type (bool_decide (getTypeID original_type = kDate)).
Definition datetime_isSafelyCoercibleFrom (t original_type : Ty) : bool :=
  null_check t original_type (bool_decide (getTypeID original_type = kDatetime)).
Definition datetime_interval_isSafelyCoercibleFrom (t original_type : Ty) : bool :=
  null_check t original_type (bool_decide (getTypeID original_type = kDatetimeInterval)).
Definition year_month_interval_isSafelyCoercibleFrom (t original_type : Ty) : bool :=
  null_check t original_type (bool_decide (getTypeID original_type = kYearMonthInterval)).
Definition null_isSafelyCoercibleFrom (original_type : Ty) : bool :=
  bool_decide (getTypeID original_type = kNullType).

(** The virtual function. *)
Definition isSafelyCoercibleFrom (t original_type : Ty) : bool :=
  match t with
  | IntType _ => int_isSafelyCoercibleFrom t original_type
  | LongType _ => long_isSafelyCoercibleFrom t original_type
  | FloatType _ => float_isSafelyCoercibleFrom t original_type
  | DoubleType _ => double_isSafelyCoercibleFrom t original_type
  | CharType length_ _ => char_isSafelyCoercibleFrom length_ t original_type
  | VarCharType length_ _ => var_char_isSafelyCoercibleFrom length_ t original_type
  | DateType _ => date_isSafelyCoercibleFrom t original_type
  | DatetimeType _ => datetime_isSafelyCoercibleFrom t original_type
  | DatetimeIntervalType _ => datetime_interval_isSafelyCoercibleFrom t original_type
  | YearMonthIntervalType _ => year_month_interval_isSafelyCoercibleFrom t original_type
  | NullType => null_isSafelyCoercibleFrom original_type
  end.

(** [Type::isSubsumedBy] and the override of [VarCharType]. *)
Definition base_isSubsumedBy (t other : Ty) : bool :=
  equals t other || equals (getNullableVersion t) other.
Definition var_char_isSubsumedBy (t other : Ty) : bool :=
  if base_isSubsumedBy t other then true
  else if decide (getTypeID other = kVarChar) then
    if maximumByteLength t <=? maximumByteLength other
    then negb (isNullable t) || isNullable other else false
  else false.
Definition isSubsumedBy (t other : Ty) : bool :=
  match t with
  | VarCharType _ _ => var_char_isSubsumedBy t other
  | _ => base_isSubsumedBy t other
  end.

(** ** [TypeFactory] *)

Definition TypeRequiresLengthParameter (id : TypeID) : bool :=
  match id with kChar | kVarChar => true | _ => false end.

(** The version without a length; [FATAL_ERROR] for the types that need one.
    [NullType] has only a nullable instance. *)
Definition GetType (id : TypeID) (nullable : bool) : outcome Ty :=
  match id with
  | kInt => Ok (IntType nullable) | kLong => Ok (LongType nullable)
  | kFloat => Ok (FloatType nullable) | kDouble => Ok (DoubleType nullable)
  | kDate => Ok (DateType nullable) | kDatetime => Ok (DatetimeType nullable)
  | kDatetimeInterval => Ok (DatetimeIntervalType nullable)
  | kYearMonthInterval => Ok (YearMonthIntervalType nullable)
  | kNullType => Ok NullType
  | kChar | kVarChar => Err CheckFailed
  end.
Definition GetType_length (id : TypeID) (length : N) (nullable : bool) : outcome Ty :=
  match id with
  | kChar => Ok (CharType length nullable)
  | kVarChar => Ok (VarCharType length nullable)
  | _ => Err CheckFailed
  end.

Definition GetMostSpecificType (first second : Ty) : option Ty :=
  if isSafelyCoercibleFrom first second then Some first
  else if isSafelyCoercibleFrom second first then Some second
  else None.

Definition long_and_float (first second : Ty) : bool :=
  (bool_decide (getTypeID first = kLong) && bool_decide (getTypeID second = kFloat))
  || (bool_decide (getTypeID first = kFloat) && bool_decide (getTypeID second = kLong)).
Definition GetUnifyingType (first second : Ty) : option Ty :=
  if isNullable first || isNullable second then
    match GetMostSpecificType (getNullableVersion first) (getNullableVersion second) with
    | Some unifier => Some unifier
    | None => if long_and_float first second then Some (DoubleType true) else None
    end
  else
    match GetMostSpecificType first second with
    | Some unifier => Some unifier
    | None => if long_and_float first second then Some (DoubleType false) else None
    end.

(** [NumericTypeUnifier], on the identifiers of the numeric types. *)
Definition NumericTypeUnifier (left right : TypeID) : option TypeID :=
  match left, right with
  | kInt, kInt => Some kInt | kInt, kLong => Some kLong
  | kInt, kFloat => Some kFloat | kInt, kDouble => Some kDouble
  | kLong, kInt => Some kLong | kLong, kLong => Some kLong
  | kLong, kFloat => Some kDouble | kLong, kDouble => Some kDouble
  | kFloat, kInt => Some kFloat | kFloat, kLong => Some kDouble
  | kFloat, kFloat => Some kFloat | kFloat, kDouble => Some kDouble
  | kDouble, kInt => Some kDouble | kDouble, kLong => Some kDouble
  | kDouble, kFloat => Some kDouble | kDouble, kDouble => Some kDouble
  | _, _ => None
  end.

(** ** Protocol buffers *)

(** [serialization::Type], with its two extensions. *)
Record TypeProto := {
  type_id : TypeID;
  nullable : bool;
  char_length : option N;
  var_char_length : option N;
}.

Definition getProto (t : Ty) : TypeProto := {|
  type_id := getTypeID t;
  nullable := isNullable t;
  char_length := match t with CharType l _ => Some l | _ => None end;
  var_char_length := match t with VarCharType l _ => Some l | _ => None end;
|}.

Definition ProtoIsValid (proto : TypeProto) : bool :=
  match type_id proto with
  | kChar => bool_decide (is_Some (char_length proto))
  | kVarChar => bool_decide (is_Some (var_char_length proto))
  | kNullType => nullable proto
  | _ => true
  end.

(** An extension that is not set reads as 0. *)
Definition ReconstructFromProto (proto : TypeProto) : outcome Ty :=
  match type_id proto with
  | kChar => GetType_length kChar (default 0 (char_length proto)) (nullable proto)
  | kVarChar => GetType_length kVarChar (default 0 (var_char_length proto)) (nullable proto)
  | id => GetType id (nullable proto)
  end.

(** ** The order of the types *)

(** The kinds of data, apart from nullability: a string of either class by its
    greatest length. *)
Inductive kind := KNull | KNum (id : TypeID) | KStr (l : N) | KOther (id : TypeID).

Definition kind_of (t : Ty) : kind :=
  match t with
  | IntType _ | LongType _ | FloatType _ | DoubleType _ => KNum (getTypeID t)
  | CharType l _ | VarCharType l _ => KStr l
  | NullType => KNull
  | _ => KOther (getTypeID t)
  end.

Definition num_le (a b : TypeID) : bool :=
  match a, b with
  | kInt, _ => true
  | kLong, (kLong | kDouble) => true
  | kFloat, (kFloat | kDouble) => true
  | kDouble, kDouble => true
  | _, _ => false
  end.
Definition kind_le (a b : kind) : bool :=
  match a, b with
  | KNull, _ => true
  | KNum i, KNum j => num_le i j
  | KStr l, KStr l' => l <=? l'
  | KOther i, KOther j => bool_decide (i = j)
  | _, _ => false
  end.

(** A length whose byte length is representable. *)
Definition type_ok (t : Ty) : Prop :=
  match t with CharType l _ | VarCharType l _ => l + 1 < 2 ^ 64 | _ => True end.

Lemma size_pred_succ l : l + 1 < 2 ^ 64 → size_pred ((l + 1) mod 2 ^ 64) = l.
Proof.
  intros Hl. unfold size_pred. rewrite (N.mod_small (l + 1)) by done.
  replace (l + 1 + (2 ^ 64 - 1)) with (l + 1 * 2 ^ 64) by lia.
  rewrite N.Div0.mod_add, N.mod_small; lia.
Qed.

(** Safe coercion is the order on kinds, where NULLs go only to nullable
    types. *)
Lemma safely_coercible_kind t o :
  type_ok t → type_ok o →
  isSafelyCoercibleFrom t o =
  (negb (isNullable o) || isNullable t) && kind_le (kind_of o) (kind_of t).
Proof.
  intros Ht Ho.
  destruct o as [[]|[]|[]|[]|l []|l []|[]|[]|[]|[]|];
    destruct t as [[]|[]|[]|[]|l' []|l' []|[]|[]|[]|[]|]; try reflexivity; cbn -[N.modulo];
    try (rewrite size_pred_succ by done; reflexivity);
    rewrite !N.mod_small by done;
    destruct (N.leb_spec (l + 1) (l' + 1)), (N.leb_spec l l'); done || lia.
Qed.

Lemma kind_le_refl a : (match a with KNum i => num_le i i = true | _ => True end) →
  kind_le a a = true.
Proof. destruct a; cbn; intros; [done|done|apply N.leb_refl|by apply bool_decide_eq_true]. Qed.

Lemma num_le_trans i j k : num_le i j = true → num_le j k = true → num_le i k = true.
Proof. by destruct i, j, k. Qed.
Lemma kind_le_trans a b c : kind_le a b = true → kind_le b c = true → kind_le a c = true.
Proof.
  destruct a, b, c; cbn; try done; [apply num_le_trans|rewrite !N.leb_le; lia|].
  rewrite !bool_decide_eq_true. congruence.
Qed.

Lemma num_kind_refl t :
  match kind_of t with KNum i => num_le i i = true | _ => True end.
Proof. by destruct t. Qed.

Lemma nullable_version t :
  isNullable (getNullableVersion t) = true ∧ kind_of (getNullableVersion t) = kind_of t ∧
  (type_ok t → type_ok (getNullableVersion t)).
Proof. by destruct t. Qed.

(** ** The unifying type *)

(** [u] is the least type that both can be safely coerced to. *)
Definition unifies (first second u : Ty) : Prop :=
  type_ok u ∧ isSafelyCoercibleFrom u first = true ∧ isSafelyCoercibleFrom u second = true ∧
  ∀ v, type_ok v → isSafelyCoercibleFrom v first = true →
    isSafelyCoercibleFrom v second = true → isSafelyCoercibleFrom v u = true.

(** One of two kinds is above the other, or they are [LONG] and [FLOAT], or
    nothing is above both. *)
Lemma kinds_above first second :
  kind_le (kind_of first) (kind_of second) = true ∨
  kind_le (kind_of second) (kind_of first) = true ∨
  (long_and_float first second = true ∧
   ∀ k, kind_le (kind_of first) k = true → kind_le (kind_of second) k = true →
     k = KNum kDouble) ∨
  (long_and_float first second = false ∧
   ∀ k, kind_le (kind_of first) k = true → kind_le (kind_of second) k = true → False).
Proof.
  destruct first as [| | | |l|l| | | | |], second as [| | | |l'|l'| | | | |]; cbn;
    first
      [ by left | by right; left
      | by destruct (N.leb_spec l l'), (N.leb_spec l' l); auto; lia
      | right; right; left; split; [done|]; intros [|[]| |]; cbn; congruence
      | right; right; right; split; [done|]; intros [|[]| |]; cbn;
          rewrite ?bool_decide_eq_true; congruence ].
Qed.

Lemma GetMostSpecificType_spec first second :
  type_ok first → type_ok second → isNullable first = isNullable second →
  match GetMostSpecificType first second with
  | Some u => unifies first second u ∧ isNullable u = isNullable first
  | None => kind_le (kind_of first) (kind_of second) = false ∧
            kind_le (kind_of second) (kind_of first) = false
  end.
Proof.
  intros Hf Hs Hn. unfold GetMostSpecificType.
  assert (∀ t, type_ok t → isSafelyCoercibleFrom t t = true) as Hrefl.
  { intros t Ht. rewrite safely_coercible_kind by done.
    rewrite kind_le_refl by apply num_kind_refl. by destruct (isNullable t). }
  destruct (isSafelyCoercibleFrom first second) eqn:H1.
  { split; [|done]. split_and!; auto. }
  destruct (isSafelyCoercibleFrom second first) eqn:H2.
  { split; [|done]. split_and!; auto. }
  rewrite safely_coercible_kind in H1, H2 by done. rewrite Hn in *.
  destruct (isNullable second); cbn in *; done.
Qed.

(** The case of two types of the same nullability, with [DOUBLE] of that
    nullability for [LONG] and [FLOAT]. *)
Lemma unify_spec first second n :
  type_ok first → type_ok second → isNullable first = n → isNullable second = n →
  match (match GetMostSpecificType first second with
         | Some unifier => Some unifier
         | None => if long_and_float first second then Some (DoubleType n) else None
         end) with
  | Some u => unifies first second u
  | None => ∀ v, type_ok v →
      isSafelyCoercibleFrom v first = true → isSafelyCoercibleFrom v second = true → False
  end.
Proof.
  intros Hf Hs Hnf Hns.
  pose proof (GetMostSpecificType_spec first second Hf Hs ltac:(congruence)) as Hm.
  destruct (GetMostSpecificType first second) as [u|]; [apply Hm|]. destruct Hm as [H1 H2].
  assert (∀ v t, type_ok v → type_ok t → isSafelyCoercibleFrom v t = true →
    kind_le (kind_of t) (kind_of v) = true) as Hkind.
  { intros v t Hv Ht. rewrite safely_coercible_kind by done. by intros [_ ?]%andb_true_iff. }
  destruct (kinds_above first second) as [?|[?|[[Hlf Hk]|[Hlf Hk]]]]; [congruence..| |];
    rewrite Hlf.
  2: { intros v Hv Hvf Hvs. by eapply Hk; apply Hkind. }
  assert (∀ t, type_ok t → kind_le (kind_of t) (KNum kDouble) = true →
    isNullable t = n → isSafelyCoercibleFrom (DoubleType n) t = true) as Hup.
  { intros t Ht Hle <-. rewrite safely_coercible_kind by done. cbn [kind_of getTypeID].
    rewrite Hle. by destruct (isNullable t). }
  assert (kind_le (kind_of first) (KNum kDouble) = true ∧
          kind_le (kind_of second) (KNum kDouble) = true) as [Hd1 Hd2]
    by (by destruct first, second).
  split_and!; [done|by apply Hup..|].
  intros v Hv Hvf Hvs. rewrite safely_coercible_kind by done.
  rewrite (Hk (kind_of v)) by (by apply Hkind).
  rewrite safely_coercible_kind, Hnf in Hvf by done.
  apply andb_true_iff in Hvf as [Hvn _].
  change (isNullable (DoubleType n)) with n. by rewrite Hvn.
Qed.

(** Widening to the nullable version does not change what is above both. *)
Lemma unify_nullable first second v :
  type_ok first → type_ok second → type_ok v →
  isNullable first = true ∨ isNullable second = true →
  isSafelyCoercibleFrom v first = true ∧ isSafelyCoercibleFrom v second = true ↔
  isSafelyCoercibleFrom v (getNullableVersion first) = true ∧
  isSafelyCoercibleFrom v (getNullableVersion second) = true.
Proof.
  intros Hf Hs Hv Hn.
  destruct (nullable_version first) as (N1 & K1 & O1), (nullable_version second) as (N2 & K2 & O2).
  rewrite !safely_coercible_kind, N1, N2, K1, K2 by auto.
  destruct (isNullable first), (isNullable second), (isNullable v); cbn; naive_solver.
Qed.

Lemma subsumed_safe t1 t2 :
  type_ok t1 → type_ok t2 → isSubsumedBy t1 t2 = true → isSafelyCoercibleFrom t2 t1 = true.
Proof.
  intros H1 H2. rewrite safely_coercible_kind by done.
  destruct (nullable_version t1) as (N1 & K1 & _).
  assert (base_isSubsumedBy t1 t2 = true →
    (negb (isNullable t1) || isNullable t2) && kind_le (kind_of t1) (kind_of t2) = true) as Hb.
  { unfold base_isSubsumedBy, equals. rewrite orb_true_iff, !bool_decide_eq_true.
    intros [<-|<-]; rewrite ?N1, ?K1, kind_le_refl by apply num_kind_refl.
    - by destruct (isNullable t1).
    - by rewrite orb_true_r. }
  destruct t1 as [| | | | |l n| | | | |]; try exact Hb.
  unfold isSubsumedBy, var_char_isSubsumedBy. destruct (base_isSubsumedBy _ _); [done|].
  destruct t2 as [| | | | |l' n'| | | | |]; try done. cbn -[N.modulo] in *.
  rewrite !N.mod_small by done. destruct (N.leb_spec (l + 1) (l' + 1)); [|done].
  rewrite decide_True by done. intros ->. apply N.leb_le. lia.
Qed.

Lemma GetUnifyingType_spec t1 t2 :
  type_ok t1 → type_ok t2 →
  match GetUnifyingType t1 t2 with
  | Some u => unifies t1 t2 u
  | None => ∀ v, type_ok v →
      isSafelyCoercibleFrom v t1 = true → isSafelyCoercibleFrom v t2 = true → False
  end.
Proof.
  intros H1 H2. unfold GetUnifyingType.
  destruct (isNullable t1 || isNullable t2) eqn:Hn.
  2: { apply orb_false_iff in Hn as [? ?]. by apply unify_spec. }
  apply orb_true_iff in Hn.
  destruct (nullable_version t1) as (N1 & _ & O1), (nullable_version t2) as (N2 & _ & O2).
  pose proof (unify_spec _ _ true (O1 H1) (O2 H2) N1 N2) as Hu.
  replace (long_and_float (getNullableVersion t1) (getNullableVersion t2))
    with (long_and_float t1 t2) in Hu by (by destruct t1, t2).
  assert (∀ v, type_ok v →
    isSafelyCoercibleFrom v t1 = true ∧ isSafelyCoercibleFrom v t2 = true ↔
    isSafelyCoercibleFrom v (getNullableVersion t1) = true ∧
    isSafelyCoercibleFrom v (getNullableVersion t2) = true) as Hiff
    by (intros v Hv; by apply unify_nullable).
  destruct (match GetMostSpecificType _ _ with Some _ => _ | None => _ end) as [u|].
  - destruct Hu as (Hok & Hu1 & Hu2 & Hleast).
    destruct (proj2 (Hiff u Hok) (conj Hu1 Hu2)). split_and!; try done.
    intros v Hv Hv1 Hv2. destruct (proj1 (Hiff v Hv) (conj Hv1 Hv2)). by apply Hleast.
  - intros v Hv Hv1 Hv2. destruct (proj1 (Hiff v Hv) (conj Hv1 Hv2)). by apply (Hu v).
Qed.

(** C24. Safe coercion orders the types and the unifying type is the least
    upper bound.  For types whose byte lengths are representable: safe
    coercibility is reflexive and transitive, implies coercibility, and never
    takes a nullable type to a non-nullable one; a type subsumed by another is
    safely coercible to it; [GetUnifyingType] gives the least type that both
    arguments can be safely coerced to, and null only if there is none; on
    numeric types it agrees with [NumericTypeUnifier]; and a type is
    reconstructed from its protocol buffer message, which is valid. *)
Theorem types_form_lattice t1 t2 t3 :
  type_ok t1 → type_ok t2 → type_ok t3 →
  isSafelyCoercibleFrom t1 t1 = true ∧
  (isSafelyCoercibleFrom t2 t1 = true → isSafelyCoercibleFrom t3 t2 = true →
     isSafelyCoercibleFrom t3 t1 = true) ∧
  (isSafelyCoercibleFrom t2 t1 = true → isCoercibleFrom t2 t1 = true ∧
     (isNullable t1 = true → isNullable t2 = true)) ∧
  (isSubsumedBy t1 t2 = true → isSafelyCoercibleFrom t2 t1 = true) ∧
  match GetUnifyingType t1 t2 with
  | Some u => unifies t1 t2 u
  | None => ∀ v, type_ok v →
      isSafelyCoercibleFrom v t1 = true → isSafelyCoercibleFrom v t2 = true → False
  end ∧
  (∀ id, NumericTypeUnifier (getTypeID t1) (getTypeID t2) = Some id →
     getTypeID <$> GetUnifyingType t1 t2 = Some id) ∧
  ProtoIsValid (getProto t1) = true ∧ ReconstructFromProto (getProto t1) = Ok t1.
Proof.
  intros H1 H2 H3. split_and!.
  - rewrite safely_coercible_kind, kind_le_refl by (done || apply num_kind_refl).
    by destruct (isNullable t1).
  - rewrite !safely_coercible_kind, !andb_true_iff by done. intros [Na Ka] [Nb Kb].
    split; [|by eapply kind_le_trans].
    destruct (isNullable t1), (isNullable t2), (isNullable t3); done.
  - rewrite safely_coercible_kind, andb_true_iff by done. intros [Hn Hk]. split.
    + destruct t1 as [[]|[]|[]|[]|? []|? []|[]|[]|[]|[]|],
        t2 as [[]|[]|[]|[]|? []|? []|[]|[]|[]|[]|]; done.
    + intros Hn1. by rewrite Hn1 in Hn.
  - by apply subsumed_safe.
  - by apply GetUnifyingType_spec.
  - intros id. destruct t1 as [[]|[]|[]|[]| | | | | | |]; try done;
      destruct t2 as [[]|[]|[]|[]| | | | | | |]; done.
  - by destruct t1.
  - by destruct t1.
Qed.

(** [LONG] that may be NULL, and [FLOAT]: the unifying type is neither. *)
Lemma types_form_lattice_witness :
  GetUnifyingType (LongType true) (FloatType false) = Some (DoubleType true) ∧
  unifies (LongType true) (FloatType false) (DoubleType true).
Proof.
  split; [reflexivity|].
  exact (proj1 (proj2 (proj2 (proj2 (proj2
    (types_form_lattice (LongType true) (FloatType false) NullType I I I)))))).
Defined.
