(* ===== verification/StringTypes.v ===== *)
(** * Values of the string types

    Models coerceValue, parseValueFromString and printValueToString of
    types/CharType.cpp and types/VarCharType.cpp, and what
    TypedValue::isPlausibleInstanceOf of types/TypedValue.cpp accepts for
    strings.  A value that is not NULL is the bytes it consists of, a
    terminating null character included where there is one; whether the value
    owns them makes no difference. *)

From S2P Require Import Prelude Decimal Types.
From stdpp Require Import options.

(** The type identifier a value is marked with, and its data. *)
Inductive StringValue :=
| NullValue (id : TypeID)
| StringData (id : TypeID) (data : list Z).

Definition getDataSize (data : list Z) : N := N.of_nat (length data).
(** [memchr(data, 0, size) != nullptr] *)
Definition has_null (data : list Z) : bool := existsb (λ c, c =? chr_nul)%Z data.
(** [strnlen(data, size)] *)
Definition strnlen (data : list Z) : N := N.of_nat (length (c_str data)).

Definition char_coerceValue (length_ : N) (original_value : StringValue)
    (original_type : Ty) : StringValue :=
  match original_value with
  | NullValue _ => NullValue kChar
  | StringData _ original_data =>
      let original_data_size := getDataSize original_data in
      let null_terminated :=
        bool_decide (getTypeID original_type = kVarChar)
        || (original_data_size <? maximumByteLength original_type)%N
        || has_null original_data in
      if (original_data_size <=? length_)%N then
        if null_terminated || (original_data_size =? length_)%N
        then StringData kChar original_data
        else StringData kChar (original_data ++ [chr_nul])
      else StringData kChar (take (N.to_nat length_) original_data)
  end.

Definition var_char_coerceValue (length_ : N) (original_value : StringValue)
    (original_type : Ty) : StringValue :=
  match original_value with
  | NullValue _ => NullValue kVarChar
  | StringData _ original_data =>
      let original_data_size := getDataSize original_data in
      let original_strlen :=
        if decide (getTypeID original_type = kVarChar)
        then size_pred original_data_size else strnlen original_data in
      let null_terminated := (original_strlen <? original_data_size)%N in
      if (original_strlen <=? length_)%N && null_terminated
      then StringData kVarChar original_data
      else
        let copy_strlen :=
          if (original_strlen <? length_)%N then original_strlen else length_ in
        StringData kVarChar (take (N.to_nat copy_strlen) original_data ++ [chr_nul])
  end.

Definition char_parseValueFromString (length_ : N) (value_string : list Z)
  : option StringValue :=
  let n := N.of_nat (length value_string) in
  if (length_ <? n)%N then None
  else Some (StringData kChar
    (if (n =? length_)%N then value_string else value_string ++ [chr_nul])).
Definition var_char_parseValueFromString (length_ : N) (value_string : list Z)
  : option StringValue :=
  if (length_ <? N.of_nat (length value_string))%N then None
  else Some (StringData kVarChar (value_string ++ [chr_nul])).

(** [std::string(cstr, strnlen(cstr, length_))] *)
Definition char_printValueToString (length_ : N) (data : list Z) : list Z :=
  c_str (take (N.to_nat length_) data).
(** [std::string(cstr)] reads up to a null character, which has to be there. *)
Definition var_char_printValueToString (data : list Z) : outcome (list Z) :=
  if has_null data then Ok (c_str data) else Err UndefinedBehaviour.

(** [isPlausibleInstanceOf] with the signature of a string type. *)
Definition isPlausibleInstanceOf (v : StringValue) (t : Ty) : bool :=
  match v with
  | NullValue id => bool_decide (id = getTypeID t) && isNullable t
  | StringData id data =>
      bool_decide (id = getTypeID t) &&
      match t with
      | CharType length _ =>
          if (getDataSize data =? length)%N then true
          else if (getDataSize data <? length)%N then has_null data
          else false
      | VarCharType length _ => (getDataSize data <=? length + 1)%N
      | _ => false
      end
  end.

(** ** The text of a value *)

Lemma c_str_length data : length (c_str data) ≤ length data.
Proof.
  induction data as [|c data IH]; cbn; [done|]. destruct (c =? chr_nul)%Z; cbn; lia.
Qed.
Lemma has_null_length data : has_null data = true ↔ length (c_str data) < length data.
Proof.
  induction data as [|c data IH]; cbn; [lia|].
  pose proof (c_str_length data). destruct (c =? chr_nul)%Z; cbn; [lia|]. rewrite IH. lia.
Qed.
Lemma c_str_take n data : c_str (take n data) = take n (c_str data).
Proof.
  revert n. induction data as [|c data IH]; intros [|n]; cbn; try done.
  destruct (c =? chr_nul)%Z; [done|]. cbn. by rewrite IH.
Qed.
Lemma c_str_idem data : c_str (c_str data) = c_str data.
Proof.
  induction data as [|c data IH]; cbn; [done|]. destruct (c =? chr_nul)%Z eqn:E; [done|].
  cbn. rewrite E. by f_equal.
Qed.
Lemma c_str_snoc data : c_str (data ++ [chr_nul]) = c_str data.
Proof.
  induction data as [|c data IH]; [done|]. cbn. destruct (c =? chr_nul)%Z; [done|].
  by f_equal.
Qed.
Lemma has_null_snoc data : has_null (data ++ [chr_nul]) = true.
Proof. unfold has_null. rewrite existsb_app. apply orb_true_r. Qed.

(** A string of the type: a [CHAR(n)] has [n] bytes, or fewer with a null
    character; a [VARCHAR(n)] has a null character after at most [n]
    characters. *)
Definition string_of (t : Ty) (data : list Z) : Prop :=
  match t with
  | CharType n _ => (getDataSize data ≤ n)%N ∧ (getDataSize data = n ∨ has_null data = true)
  | VarCharType n _ => has_null data = true ∧ (strnlen data ≤ n)%N
  | _ => False
  end.

Lemma string_of_length t data :
  string_of t data →
  match t with
  | CharType n _ | VarCharType n _ => (strnlen data ≤ n)%N
  | _ => False
  end.
Proof.
  unfold strnlen, getDataSize. destruct t; try done; cbn; [|tauto].
  pose proof (c_str_length data). unfold getDataSize. lia.
Qed.

(** ** Coercion *)

Lemma char_coerce_text length_ ot id data :
  string_of ot data → ∃ data',
    char_coerceValue length_ (StringData id data) ot = StringData kChar data' ∧
    c_str data' = take (N.to_nat length_) (c_str data) ∧
    (getDataSize data' ≤ length_)%N ∧
    (getDataSize data' = length_ ∨ has_null data' = true).
Proof.
  intros Hd. pose proof (c_str_length data) as Hlen. unfold char_coerceValue.
  destruct (N.leb_spec (getDataSize data) length_) as [Hle|Hgt]; unfold getDataSize in *.
  2: { eexists. split; [done|]. rewrite c_str_take, length_take. split_and!; [done|lia|].
       left. lia. }
  assert (take (N.to_nat length_) (c_str data) = c_str data) as Htake
    by (apply take_ge; lia).
  destruct (_ || (_ =? length_)%N) eqn:Hc.
  - eexists. split; [done|]. split_and!; [done|done|].
    apply orb_true_iff in Hc as [Hc|Hc%N.eqb_eq]; [|by left].
    right. apply orb_true_iff in Hc as [Hc|]; [|done].
    destruct ot as [| | | |n ?|n ?| | | | |]; try done; cbn in Hd; [|apply Hd].
    apply orb_true_iff in Hc as [Hc|Hc]; [by apply bool_decide_eq_true in Hc|].
    cbn in Hc. apply N.ltb_lt in Hc. unfold getDataSize in *. destruct Hd as [_ [|]]; [lia|done].
  - apply orb_false_iff in Hc as [Hc Hne%N.eqb_neq].
    eexists. split; [done|]. rewrite c_str_snoc, length_app, has_null_snoc. cbn [length].
    split_and!; [done|lia|by right].
Qed.

Lemma take_min_text k data :
  c_str (take k data ++ [chr_nul]) = take k (c_str data).
Proof. by rewrite c_str_snoc, c_str_take. Qed.

Lemma var_char_coerce_text length_ ot id data :
  string_of ot data → (getDataSize data < 2 ^ 64)%N → ∃ data',
    var_char_coerceValue length_ (StringData id data) ot = StringData kVarChar data' ∧
    c_str data' = take (N.to_nat length_) (c_str data) ∧
    has_null data' = true.
Proof.
  intros Hd Hsz. unfold var_char_coerceValue.
  set (strlen := if decide _ then _ else _).
  assert ((strlen < getDataSize data)%N → has_null data = true) as Hnull.
  { unfold strlen. case_decide as Hid; intros Hlt.
    - destruct ot as [| | | |n ?|n ?| | | | |]; try discriminate Hid. apply Hd.
    - apply has_null_length. unfold strnlen, getDataSize in Hlt. lia. }
  assert (length (c_str data) ≤ N.to_nat strlen) as Hlen.
  { unfold strlen. case_decide as Hid; [|unfold strnlen; lia].
    destruct ot as [| | | |n ?|n ?| | | | |]; try discriminate Hid. destruct Hd as [Hn%has_null_length _].
    unfold size_pred, getDataSize in *.
    replace (N.of_nat (length data) + (2 ^ 64 - 1))%N
      with (N.of_nat (length data) - 1 + 1 * 2 ^ 64)%N by lia.
    rewrite N.Div0.mod_add, N.mod_small; lia. }
  destruct (_ && _) eqn:Hc.
  - apply andb_true_iff in Hc as [Hle%N.leb_le Hlt%N.ltb_lt].
    exists data. split_and!; [done| |auto]. rewrite take_ge; [done|lia].
  - eexists. split; [done|]. rewrite take_min_text. split; [|apply has_null_snoc].
    destruct (N.ltb_spec strlen length_); [|done]. rewrite !take_ge; [done|lia..].
Qed.

(** A [CHAR(10)] as it is read from a block: two characters, padded. *)
Definition padded_text : StringValue :=
  StringData kChar [97; 98; 0; 0; 0; 0; 0; 0; 0; 0]%Z.

(** Coercion between strings keeps the text.  For a string of a [CHAR] or
    [VARCHAR] type, both coercions give a string of the target type whose text
    is that of the original cut to the target's length, and thus the same text
    when the coercion is safe; a text without null characters that is not too
    long is printed again as it was parsed.  The result for [CHAR] is always
    plausible for the target type; the result for [VARCHAR] is not: the coercion
    of a padded [CHAR(10)] to [VARCHAR(4)] keeps all ten bytes, more than the
    type's maximum. *)
Lemma string_coercion_keeps_text ot id data length_ n :
  string_of ot data → (getDataSize data < 2 ^ 64)%N → type_ok ot →
  (length_ + 1 < 2 ^ 64)%N →
  (∃ d, char_coerceValue length_ (StringData id data) ot = StringData kChar d ∧
     string_of (CharType length_ n) d ∧ c_str d = take (N.to_nat length_) (c_str data) ∧
     isPlausibleInstanceOf (StringData kChar d) (CharType length_ n) = true ∧
     (isSafelyCoercibleFrom (CharType length_ n) ot = true → c_str d = c_str data)) ∧
  (∃ d, var_char_coerceValue length_ (StringData id data) ot = StringData kVarChar d ∧
     string_of (VarCharType length_ n) d ∧ c_str d = take (N.to_nat length_) (c_str data) ∧
     (isSafelyCoercibleFrom (VarCharType length_ n) ot = true → c_str d = c_str data)) ∧
  (∀ text, c_str text = text → (N.of_nat (length text) ≤ length_)%N →
     (∃ d, char_parseValueFromString length_ text = Some (StringData kChar d) ∧
        char_printValueToString length_ d = text) ∧
     (∃ d, var_char_parseValueFromString length_ text = Some (StringData kVarChar d) ∧
        var_char_printValueToString d = Ok text)) ∧
  (isPlausibleInstanceOf padded_text (CharType 10 false) = true ∧
   isPlausibleInstanceOf (var_char_coerceValue 4 padded_text (CharType 10 false))
     (VarCharType 4 false) = false).
Proof.
  intros Hd Hsz Hot Hl. pose proof (string_of_length ot data Hd) as Hlen.
  assert (∀ t, kind_of t = KStr length_ → type_ok t →
    isSafelyCoercibleFrom t ot = true →
    take (N.to_nat length_) (c_str data) = c_str data) as Hsafe.
  { intros t Hk Ht. rewrite safely_coercible_kind, Hk by done. intros [_ Hle]%andb_true_iff.
    apply take_ge. unfold strnlen in Hlen.
    destruct ot as [| | | |m ?|m ?| | | | |]; try done; cbn in Hle; apply N.leb_le in Hle; lia. }
  split_and!.
  - destruct (char_coerce_text length_ ot id data Hd) as (d & Hc & Ht & Hs & Hn).
    exists d. split_and!; try done.
    + unfold isPlausibleInstanceOf. rewrite bool_decide_eq_true_2 by done. cbn [andb].
      destruct (N.eqb_spec (getDataSize d) length_); [done|].
      destruct (N.ltb_spec (getDataSize d) length_); [tauto|lia].
    + intros Hsf. rewrite Ht. by apply (Hsafe (CharType length_ n)).
  - destruct (var_char_coerce_text length_ ot id data Hd Hsz) as (d & Hc & Ht & Hn).
    exists d. split_and!; try done.
    + split; [done|]. unfold strnlen. rewrite Ht, length_take. lia.
    + intros Hsf. rewrite Ht. by apply (Hsafe (VarCharType length_ n)).
  - intros text Htext Hfit. unfold char_parseValueFromString, var_char_parseValueFromString.
    destruct (N.ltb_spec length_ (N.of_nat (length text))); [lia|]. split.
    + eexists. split; [done|]. unfold char_printValueToString.
      destruct (N.eqb_spec (N.of_nat (length text)) length_).
      * by rewrite take_ge by lia.
      * rewrite take_ge by (rewrite length_app; cbn; lia). by rewrite c_str_snoc.
    + eexists. split; [done|]. unfold var_char_printValueToString.
      by rewrite has_null_snoc, c_str_snoc, Htext.
  - reflexivity.
  - reflexivity.
Qed.

Lemma string_coercion_keeps_text_witness : ∃ d,
  char_coerceValue 3 (StringData kVarChar [97; 98; 99; 100; 0]%Z) (VarCharType 8 true) =
    StringData kChar d ∧ c_str d = [97; 98; 99]%Z.
Proof.
  destruct (proj1 (string_coercion_keeps_text (VarCharType 8 true) kVarChar
    [97; 98; 99; 100; 0]%Z 3 true ltac:(by vm_compute) ltac:(by vm_compute)
    ltac:(by vm_compute) ltac:(by vm_compute))) as (d & H & _ & Hd & _).
  exists d. split; [exact H|exact Hd].
Defined.
