(* ===== verification/TextScan.v ===== *)
(** * Text files in and out

    Models utility/BulkIoConfiguration.{hpp,cpp}, the scan of text files of
    relational_operators/TextScanOperator.{hpp,cpp} and the text that
    TableExportToStringWorkOrder of relational_operators/TableExportOperator.cpp
    writes.  A pointer into a text is the rest of the text, and reading past its
    end is undefined behaviour; a character is its code, from 0 to 255.  What
    the types do ([parseValueFromString], [printValueToString]) is part of an
    attribute; [None] is a null value.  A file is its contents, [None] when it
    cannot be opened.  The build has no HDFS. *)

From stdpp Require Import strings.
From S2P Require Import Prelude Decimal OperatorWork.
From stdpp Require Import options.

Local Open Scope Z_scope.

Definition chr_bs : Z := 92.
Definition chr_lf : Z := 10.
Definition chr_cr : Z := 13.
Definition chr_N : Z := 78.
Definition chr_x : Z := 120.

(** ** utility/BulkIoConfiguration *)

Inductive BulkIoFormat := kCsv | kText.

Record BulkIoConfiguration := {
  format_ : BulkIoFormat;
  delimiter_ : Z;
  escape_strings_ : bool;
  header_ : bool;
  quote_ : Z;
  null_string_ : list Z;
}.

Definition initializeDefaultParameters (format : BulkIoFormat) : BulkIoConfiguration :=
  match format with
  | kCsv => {| format_ := format; delimiter_ := 44; escape_strings_ := false;
               header_ := true; quote_ := 34; null_string_ := [] |}
  | kText => {| format_ := format; delimiter_ := 9; escape_strings_ := true;
                header_ := false; quote_ := 0; null_string_ := [chr_bs; chr_N] |}
  end.

(** ** Attributes *)

Record Attribute (V : Type) := {
  attr_name : list Z;
  attr_nullable : bool;
  attr_parse : list Z → outcome (option V);
  attr_print : V → outcome (list Z);
}.
Arguments attr_name {_} _.
Arguments attr_nullable {_} _.
Arguments attr_parse {_} _ _.
Arguments attr_print {_} _ _.

(** ** Extraction of a field *)

Definition is_octal (c : Z) : bool := (0 <=? c - 48) && (c - 48 <? 8).

(** The rest is what follows the digits read; [*literal_ptr] is left on the
    last of them. *)
Fixpoint octal_loop (n : nat) (value : Z) (ptr : list Z) : outcome (Z * list Z) :=
  match n with
  | O => Ok (value, ptr)
  | S n' =>
      c ← vec_at ptr 0;
      if is_octal c then octal_loop n' (value * 8 + (c - 48)) (drop 1 ptr)
      else Ok (value, ptr)
  end.
(** The [int] is returned as a [char]. *)
Definition ParseOctalLiteral (ptr : list Z) : outcome (Z * list Z) :=
  '(value, rest) ← octal_loop 3 0 ptr; Ok (value mod 256, rest).

Definition hex_digit (c : Z) : option Z :=
  if is_digit c then Some (c - 48)
  else if (97 <=? c) && (c <=? 102) then Some (c - 97 + 10)
  else if (65 <=? c) && (c <=? 70) then Some (c - 65 + 10)
  else None.
Definition isxdigit (c : Z) : bool := match hex_digit c with Some _ => true | None => false end.

Fixpoint hex_loop (n : nat) (value : Z) (ptr : list Z) : outcome (Z * list Z) :=
  match n with
  | O => Ok (value, ptr)
  | S n' =>
      c ← vec_at ptr 0;
      match hex_digit c with
      | Some d => hex_loop n' (value * 16 + d) (drop 1 ptr)
      | None => Ok (value, ptr)
      end
  end.
Definition ParseHexLiteral (ptr : list Z) : outcome (Z * list Z) :=
  '(value, rest) ← hex_loop 2 0 ptr; Ok (value mod 256, rest).

(** The [switch] on the character after a backslash, at which [ptr] points:
    the character appended and the text after the sequence. *)
Definition escape_sequence (ptr : list Z) : outcome (Z * list Z) :=
  e ← vec_at ptr 0;
  let rest := drop 1 ptr in
  if is_octal e then ParseOctalLiteral ptr
  else if e =? chr_N then Err Thrown
  else if e =? chr_bs then Ok (chr_bs, rest)
  else if e =? 98 then Ok (8, rest)
  else if e =? 102 then Ok (12, rest)
  else if e =? 110 then Ok (10, rest)
  else if e =? 114 then Ok (13, rest)
  else if e =? 116 then Ok (9, rest)
  else if e =? 118 then Ok (11, rest)
  else if e =? chr_x then
    d ← vec_at ptr 1;
    if isxdigit d then ParseHexLiteral rest else Ok (chr_x, rest)
  else if e =? chr_lf then Err Thrown
  else Ok (e, rest).

Section work_order.
Context (field_terminator : Z) (process_escape_sequences : bool).

(** The null literal: whether a line ends after it, and the rest. *)
Definition null_literal (ptr : list Z) : outcome (option (bool * list Z)) :=
  if process_escape_sequences then
    c0 ← vec_at ptr 0;
    if c0 =? chr_bs then
      c1 ← vec_at ptr 1;
      if c1 =? chr_N then
        r ← vec_at ptr 2;
        let cur := if r =? chr_cr then drop 3 ptr else drop 2 ptr in
        c ← vec_at cur 0;
        if (c =? field_terminator) || (c =? chr_lf)
        then Ok (Some (c =? chr_lf, drop 1 cur)) else Ok None
      else Ok None
    else Ok None
  else Ok None.

(** The loop that copies up to a terminator or the end of the line. *)
Fixpoint copy_field (cur : list Z) (field : list Z) : outcome (bool * list Z * list Z) :=
  match cur with
  | [] => Err UndefinedBehaviour
  | c :: cur' =>
      if c =? field_terminator then Ok (false, field, cur')
      else if c =? chr_lf then Ok (true, field, cur')
      else copy_field cur' (if c =? chr_cr then field else field ++ [c])
  end.

(** The loop that expands escape sequences; each turn moves on by at least one
    character. *)
Fixpoint escape_loop (fuel : nat) (cur field : list Z)
  : outcome (bool * list Z * list Z) :=
  match fuel with
  | O => Err OutOfFuel
  | S fuel' =>
      c ← vec_at cur 0;
      let rest := drop 1 cur in
      if c =? chr_bs then
        '(out, rest') ← escape_sequence rest;
        escape_loop fuel' rest' (field ++ [out])
      else if c =? field_terminator then Ok (false, field, rest)
      else if c =? chr_lf then Ok (true, field, rest)
      else escape_loop fuel' rest (if c =? chr_cr then field else field ++ [c])
  end.

(** Null literal, end of line, field, and the start of the next field. *)
Definition extractFieldString (ptr : list Z)
  : outcome (bool * bool * list Z * list Z) :=
  null ← null_literal ptr;
  match null with
  | Some (eol, rest) => Ok (true, eol, [], rest)
  | None =>
      '(eol, field, rest) ←
        (if process_escape_sequences then escape_loop (S (length ptr)) ptr []
         else copy_field ptr []);
      Ok (false, eol, field, rest)
  end.

Fixpoint skipFaultyRow (cur : list Z) : outcome (list Z) :=
  match cur with
  | [] => Err UndefinedBehaviour
  | c :: cur' => if c =? chr_lf then Ok cur' else skipFaultyRow cur'
  end.

(** ** Rows *)

Context {V : Type}.
Implicit Types relation : list (Attribute V).
Abbreviation Tuple := (list (option V)).

(** Leaves the row: faulty, the values so far, the text after the row. *)
Definition leave_faulty (values : Tuple) (ptr : list Z) : outcome (bool * Tuple * list Z) :=
  rest ← skipFaultyRow ptr; Ok (true, values, rest).

(** The loop over the attributes, and what follows it. *)
Fixpoint parse_attributes relation (end_of_line : bool) (values : Tuple) (ptr : list Z)
  : outcome (bool * Tuple * list Z) :=
  match relation with
  | [] => if end_of_line then Ok (false, values, ptr) else leave_faulty values ptr
  | attr :: relation' =>
      if end_of_line then Ok (true, values, ptr)
      else
        '(is_null, eol, field, rest) ← extractFieldString ptr;
        if (is_null : bool) then
          if attr_nullable attr
          then parse_attributes relation' eol (values ++ [None]) rest
          else leave_faulty values rest
        else
          v ← attr_parse attr field;
          match v with
          | Some v => parse_attributes relation' eol (values ++ [Some v]) rest
          | None => leave_faulty (values ++ [None]) rest
          end
  end.
Definition parseRow relation (ptr : list Z) : outcome (bool * Tuple * list Z) :=
  parse_attributes relation false [] ptr.

(** ** Execution of a work order *)

(** [row_ptr] after its increment: past the first newline, at the start in the
    first segment; [None] when there is no newline. *)
Fixpoint find_newline (buffer : list Z) : option nat :=
  match buffer with
  | [] => None
  | c :: buffer' => if c =? chr_lf then Some 0%nat else S <$> find_newline buffer'
  end.
Definition first_row (text_offset : nat) (buffer : list Z) : option nat :=
  if decide (text_offset = 0)%nat then Some 0%nat else S <$> find_newline buffer.

(** [end_ptr] after its increment, from [end_ptr = e - 1]. *)
Fixpoint last_row (buffer : list Z) (row_ptr e : nat) : nat :=
  match e with
  | O => O
  | S e' =>
      if decide (row_ptr ≤ e')%nat then
        if decide (buffer !! e' = Some chr_lf) then e else last_row buffer row_ptr e'
      else e
  end.

Definition add_tuple (faulty : bool) (values : Tuple) (tuples : list Tuple) : list Tuple :=
  if faulty then tuples else tuples ++ [values].

(** The rows between the first and the last newline. *)
Fixpoint rows_loop (fuel : nat) relation (buffer : list Z) (row_ptr end_ptr : nat)
    (tuples : list Tuple) : outcome (list Tuple) :=
  if decide (row_ptr < end_ptr)%nat then
    match fuel with
    | O => Err OutOfFuel
    | S fuel' =>
        c ← vec_at buffer row_ptr;
        if (c =? chr_cr) || (c =? chr_lf)
        then rows_loop fuel' relation buffer (S row_ptr) end_ptr tuples
        else
          '(faulty, values, rest) ← parseRow relation (drop row_ptr buffer);
          rows_loop fuel' relation buffer (length buffer - length rest) end_ptr
            (add_tuple faulty values tuples)
    end
  else Ok tuples.

Definition kSmallBufferSize : nat := 16384.

(** The row after the last newline, read from the file in pieces. *)
Fixpoint read_row (fuel : nat) (file : list Z) (read_size : nat) (row_string : list Z)
  : outcome (list Z) :=
  match fuel with
  | O => Err OutOfFuel
  | S fuel' =>
      let buffer := take read_size file in
      match find_newline buffer with
      | Some i => Ok (row_string ++ take (S i) buffer)
      | None =>
          if decide (length buffer ≠ read_size) then Ok (row_string ++ buffer)
          else read_row fuel' (drop read_size file)
                 (Nat.min (read_size * 2) kSmallBufferSize) (row_string ++ buffer)
      end
  end.

Definition parse_last relation (row_string : list Z) (tuples : list Tuple)
  : outcome (list Tuple) :=
  match last row_string with
  | None => Ok tuples
  | Some c =>
      let row_string := if decide (c = chr_lf) then row_string else row_string ++ [chr_lf] in
      '(faulty, values, _) ← parseRow relation (row_string ++ [chr_nul]);
      Ok (add_tuple faulty values tuples)
  end.

(** The tuples of a segment: [execute] up to where it frees the buffer; [None]
    when it returns early. *)
Definition scan_segment relation (file : option (list Z)) (text_offset text_segment_size : nat)
  : outcome (option (list Tuple)) :=
  match file with
  | None => Ok None
  | Some text =>
      let buffer := take text_segment_size (drop text_offset text) in
      if decide (length buffer ≠ text_segment_size) then Err Thrown
      else
        match first_row text_offset buffer with
        | None => Ok None
        | Some row_ptr =>
            let end_ptr := last_row buffer row_ptr (length buffer) in
            tuples ← rows_loop (length buffer) relation buffer row_ptr end_ptr [];
            row_string ← read_row (S (length text)) (drop (text_offset + end_ptr) text) 1024 [];
            tuples ← parse_last relation row_string tuples;
            Ok (Some tuples)
        end
  end.

(** The column vectors given to [bulkInsertTuples]: one per attribute. *)
Definition column_vectors relation (tuples : list Tuple) : outcome (list (list (option V))) :=
  mapM (λ attr_id, mapM (λ tuple, vec_at tuple attr_id) tuples) (seq 0 (length relation)).

(** What [bulkInsertTuples] is given, if it is called. *)
Definition execute relation (file : option (list Z)) (text_offset text_segment_size : nat)
  : outcome (option (list (list (option V)))) :=
  tuples ← scan_segment relation file text_offset text_segment_size;
  match tuples with
  | None => Ok None
  | Some tuples => columns ← column_vectors relation tuples; Ok (Some columns)
  end.
End work_order.

(** ** The operator *)

Record TextScanOperator := {
  ts_base : OperatorBase;
  ts_options : BulkIoConfiguration;
  ts_output_relation : Z;
  ts_destination : Z;
  ts_work_generated : bool;
}.

Definition new_TextScanOperator (query_id : nat) (options : BulkIoConfiguration)
    (output_relation : Z) (output_num_partitions : nat) (destination : Z)
  : TextScanOperator :=
  {| ts_base := new_OperatorBase query_id 1 (negb (output_num_partitions =? 1)%nat)
       output_num_partitions;
     ts_options := options; ts_output_relation := output_relation;
     ts_destination := destination; ts_work_generated := false |}.

(** The segments of a file: the loop over the full ones, and the last one. *)
Fixpoint full_segments (num_full_segments : nat) (size text_offset : nat)
  : list (nat * nat) * nat :=
  match num_full_segments with
  | O => ([], text_offset)
  | S n =>
      let '(segments, offset) := full_segments n size (text_offset + size) in
      ((text_offset, size) :: segments, offset)
  end.
Definition file_segments (size file_size : nat) : list (nat * nat) :=
  let '(segments, text_offset) := full_segments (file_size / size) size 0 in
  if decide (text_offset < file_size)%nat
  then segments ++ [(text_offset, (file_size - text_offset)%nat)] else segments.

Definition new_TextScanWorkOrder (op : TextScanOperator) (file : string)
    (segment : nat * nat) : OperatorWorkOrder :=
  work_order (ts_base op) 0
    (TextScanWork file segment.1 segment.2 (delimiter_ (ts_options op))
       (escape_strings_ (ts_options op)) (ts_destination op)).

(** [size] is [FLAGS_textscan_text_segment_size]; a file is readable when it
    has contents. *)
Fixpoint scan_files (op : TextScanOperator) (size : nat) (fs : string → option (list Z))
    (files : list string) : outcome (list OperatorWorkOrder) :=
  match files with
  | [] => Ok []
  | file :: files' =>
      match fs file with
      | None => Err CheckFailed
      | Some text =>
          ws ← scan_files op size fs files';
          Ok ((new_TextScanWorkOrder op file <$> file_segments size (length text)) ++ ws)
      end
  end.

(** [files] is what the pattern expands to. *)
Definition ts_getAllWorkOrders (size : nat) (fs : string → option (list Z))
    (files : list string) (op : TextScanOperator)
  : outcome (list OperatorWorkOrder * bool * TextScanOperator) :=
  _ ← check (negb (length files =? 0)%nat);
  if ts_work_generated op then Ok ([], true, op)
  else
    ws ← scan_files op size fs files;
    Ok (ws, true,
        {| ts_base := ts_base op; ts_options := ts_options op;
           ts_output_relation := ts_output_relation op;
           ts_destination := ts_destination op; ts_work_generated := true |}).

(** ** Export of a block as text *)

Section export.
Context (config : BulkIoConfiguration).
Abbreviation field_terminator := (delimiter_ config).

Definition quoteCSVField (field : list Z) : list Z :=
  let need_quote :=
    existsb (λ c, (c =? field_terminator) || (c =? quote_ config) || (c =? chr_lf)) field in
  if need_quote then
    [quote_ config] ++ (field ≫= λ c, if c =? quote_ config then [c; c] else [c])
      ++ [quote_ config]
  else field.

(** An [unsigned char] is compared with a [char], which is signed. *)
Definition is_terminator (c : Z) : bool :=
  c =? (if 128 <=? field_terminator then field_terminator - 256 else field_terminator).

Definition upper_hex_digit (n : Z) : Z := if n <? 10 then 48 + n else 55 + n.

Definition escape_char (c : Z) : list Z :=
  if c <? 32 then
    if c =? 8 then [chr_bs; 98]
    else if c =? 12 then [chr_bs; 102]
    else if c =? 10 then [chr_bs; 110]
    else if c =? 13 then [chr_bs; 114]
    else if c =? 9 then [chr_bs; 116]
    else if c =? 11 then [chr_bs; 118]
    else [chr_bs; chr_x; upper_hex_digit (Z.shiftr c 4); upper_hex_digit (Z.land c 15)]
  else if (c =? chr_bs) || is_terminator c then [chr_bs; c] else [c].

Definition escapeTextField (field : list Z) : list Z :=
  if negb (escape_strings_ config) || bool_decide (field = [chr_bs; chr_N]) then field
  else
    let need_escape := existsb (λ c, (c <? 32) || (c =? chr_bs) || is_terminator c) field in
    if need_escape then field ≫= escape_char else field.

(** The texts of a row, each transformed, with the terminator between them. *)
Definition writeEachToString (transform : list Z → list Z) (texts : list (list Z))
    (output : list Z) : list Z :=
  match texts with
  | [] => output
  | t :: texts' =>
      output ++ transform t ++ (texts' ≫= λ t, field_terminator :: transform t)
  end.

Context {V : Type}.
Implicit Types relation : list (Attribute V).

(** The functor of the rows, at each position [idx]. *)
Fixpoint value_texts relation (tuple : list (option V)) : outcome (list (list Z)) :=
  match tuple with
  | [] => Ok []
  | value :: tuple' =>
      text ← match value with
             | None => Ok (null_string_ config)
             | Some v => attr ← vec_at relation 0; attr_print attr v
             end;
      texts ← value_texts (drop 1 relation) tuple';
      Ok (text :: texts)
  end.

Fixpoint write_rows (transform : list Z → list Z) relation
    (tuples : list (list (option V))) (output : list Z) : outcome (list Z) :=
  match tuples with
  | [] => Ok output
  | tuple :: tuples' =>
      texts ← value_texts relation tuple;
      write_rows transform relation tuples'
        (writeEachToString transform texts output ++ [chr_lf])
  end.

Definition writeToString (transform : list Z → list Z) relation (print_header : bool)
    (tuples : list (list (option V))) (output : list Z) : outcome (list Z) :=
  write_rows transform relation tuples
    (if print_header
     then writeEachToString transform (attr_name <$> relation) output ++ [chr_lf]
     else output).

(** The text of a block, given the tuples of the block. *)
Definition export_block relation (print_header : bool) (tuples : list (list (option V)))
  : outcome (list Z) :=
  match format_ config with
  | kCsv => writeToString quoteCSVField relation print_header tuples []
  | kText => writeToString escapeTextField relation print_header tuples []
  end.
End export.
