(* ===== verification/TextLines.v ===== *)
(** * Lines, rows and segments

    What the parts of TextScan do on a text made of lines.  Parsing a row reads
    no further than the row ([parseRow_app]); the pointers that [execute]
    computes in a segment are the start of the second line and of the last one
    ([first_row_lines], [last_row_lines]); a segment contributes the rows that
    start after a newline inside it ([segment_rows]). *)

From S2P Require Import Prelude Decimal OperatorWork TextScan.
From stdpp Require Import options.

#[global] Arguments ParseOctalLiteral : simpl never.
#[global] Arguments ParseHexLiteral : simpl never.
#[global] Arguments escape_sequence : simpl never.
#[global] Arguments extractFieldString : simpl never.
#[global] Arguments parseRow : simpl never.
#[global] Arguments scan_segment : simpl never.

(** ** Reading no further than needed *)

Lemma vec_at_app {A} (p q : list A) i a : vec_at p i = Ok a → vec_at (p ++ q) i = Ok a.
Proof. rewrite !vec_at_Ok. apply lookup_app_l_Some. Qed.

Lemma drop_app_at {A} (p q : list A) i a n :
  vec_at p i = Ok a → n ≤ S i → drop n (p ++ q) = drop n p ++ q.
Proof. intros Hp%vec_at_Ok Hn. apply lookup_lt_Some in Hp. apply drop_app_le. lia. Qed.

Lemma octal_loop_app n v p q r :
  octal_loop n v p = Ok r → octal_loop n v (p ++ q) = Ok (r.1, r.2 ++ q).
Proof.
  revert v p. induction n as [|n IH]; intros v p H; cbn in *; [by inv_ok|].
  apply bind_Ok in H as (c & Hc & H). rewrite (vec_at_app _ _ _ _ Hc). cbn.
  destruct (is_octal c); [|by inv_ok].
  rewrite (drop_app_at _ _ _ _ 1 Hc) by lia. by apply IH.
Qed.

Lemma hex_loop_app n v p q r :
  hex_loop n v p = Ok r → hex_loop n v (p ++ q) = Ok (r.1, r.2 ++ q).
Proof.
  revert v p. induction n as [|n IH]; intros v p H; cbn in *; [by inv_ok|].
  apply bind_Ok in H as (c & Hc & H). rewrite (vec_at_app _ _ _ _ Hc). cbn.
  destruct (hex_digit c); [|by inv_ok].
  rewrite (drop_app_at _ _ _ _ 1 Hc) by lia. by apply IH.
Qed.

Lemma octal_literal_app p q r :
  ParseOctalLiteral p = Ok r → ParseOctalLiteral (p ++ q) = Ok (r.1, r.2 ++ q).
Proof.
  unfold ParseOctalLiteral. intros ([v rest] & Hl & H)%bind_Ok. injection H as <-.
  by rewrite (octal_loop_app _ _ _ _ _ Hl).
Qed.

Lemma hex_literal_app p q r :
  ParseHexLiteral p = Ok r → ParseHexLiteral (p ++ q) = Ok (r.1, r.2 ++ q).
Proof.
  unfold ParseHexLiteral. intros ([v rest] & Hl & H)%bind_Ok. injection H as <-.
  by rewrite (hex_loop_app _ _ _ _ _ Hl).
Qed.

Lemma escape_sequence_app p q r :
  escape_sequence p = Ok r → escape_sequence (p ++ q) = Ok (r.1, r.2 ++ q).
Proof.
  unfold escape_sequence. intros (e & He & H)%bind_Ok. rewrite (vec_at_app _ _ _ _ He). cbn.
  rewrite (drop_app_at _ _ _ _ 1 He) by lia.
  repeat match goal with
  | H : (if ?b then _ else _) = Ok _ |- _ => destruct b
  end; try discriminate; try (injection H as <-; done).
  - by apply octal_literal_app.
  - apply bind_Ok in H as (d & Hd & H). rewrite (vec_at_app _ _ _ _ Hd). cbn.
    destruct (isxdigit d); [by apply hex_literal_app|by injection H as <-].
Qed.

Section lines.
Context (term : Z) (esc : bool).

Lemma null_literal_app p q r :
  null_literal term esc p = Ok r →
  null_literal term esc (p ++ q) = Ok ((λ x, (x.1, x.2 ++ q)) <$> r).
Proof.
  unfold null_literal. destruct esc; [|by intros; inv_ok].
  intros (c0 & H0 & H)%bind_Ok. rewrite (vec_at_app _ _ _ _ H0). cbn.
  destruct (c0 =? chr_bs)%Z; [|by inv_ok].
  apply bind_Ok in H as (c1 & H1 & H). rewrite (vec_at_app _ _ _ _ H1). cbn.
  destruct (c1 =? chr_N)%Z; [|by inv_ok].
  apply bind_Ok in H as (c2 & H2 & H). rewrite (vec_at_app _ _ _ _ H2). cbn.
  rewrite (drop_app_at _ _ _ _ 3 H2), (drop_app_at _ _ _ _ 2 H2) by lia.
  set (cur := if (c2 =? chr_cr)%Z then drop 3 p else drop 2 p) in *.
  replace (if (c2 =? chr_cr)%Z then drop 3 p ++ q else drop 2 p ++ q) with (cur ++ q)
    by (unfold cur; by case_match).
  apply bind_Ok in H as (c & Hc & H). rewrite (vec_at_app _ _ _ _ Hc). cbn.
  rewrite (drop_app_at _ _ _ _ 1 Hc) by lia. by case_match; inv_ok.
Qed.

Lemma copy_field_app p q f e f' r :
  copy_field term p f = Ok (e, f', r) → copy_field term (p ++ q) f = Ok (e, f', r ++ q).
Proof.
  revert f. induction p as [|c p IH]; intros f H; cbn in *; [done|].
  repeat case_match; inv_ok; try done; by apply IH.
Qed.

Lemma escape_loop_app fuel fuel' p q f e f' r :
  escape_loop term fuel p f = Ok (e, f', r) → fuel ≤ fuel' →
  escape_loop term fuel' (p ++ q) f = Ok (e, f', r ++ q).
Proof.
  revert fuel' p f. induction fuel as [|fuel IH]; intros fuel' p f H Hle; [done|].
  destruct fuel' as [|fuel']; [lia|]. cbn in *.
  apply bind_Ok in H as (c & Hc & H). rewrite (vec_at_app _ _ _ _ Hc). cbn.
  rewrite (drop_app_at _ _ _ _ 1 Hc) by lia.
  repeat case_match; try (by inv_ok); [|apply IH; [done|lia]..].
  apply bind_Ok in H as ([o r'] & Ho & H).
  rewrite (escape_sequence_app _ _ _ Ho). cbn. apply IH; [done|lia].
Qed.

Lemma extract_app p q n e f r :
  extractFieldString term esc p = Ok (n, e, f, r) →
  extractFieldString term esc (p ++ q) = Ok (n, e, f, r ++ q).
Proof.
  unfold extractFieldString. intros (nu & Hn & H)%bind_Ok.
  rewrite (null_literal_app _ _ _ Hn). change (Ok ?x ≫= ?g) with (g x).
  destruct nu as [[e' r']|]; cbn -[escape_loop]; [by inv_ok|].
  apply bind_Ok in H as ([[e' f'] r'] & He & H). inv_ok.
  destruct esc.
  - rewrite (escape_loop_app _ (S (length (p ++ q))) _ q _ _ _ _ He);
      [done|rewrite length_app; lia].
  - by rewrite (copy_field_app _ q _ _ _ _ He).
Qed.

Lemma skipFaultyRow_app p q r :
  skipFaultyRow p = Ok r → skipFaultyRow (p ++ q) = Ok (r ++ q).
Proof.
  induction p as [|c p IH]; cbn; [done|]. case_match; [|done]. by intros; inv_ok.
Qed.

Context {V : Type}.
Implicit Types relation : list (Attribute V).

Lemma leave_faulty_app (vs : list (option V)) p q b ws r :
  leave_faulty vs p = Ok (b, ws, r) → leave_faulty vs (p ++ q) = Ok (b, ws, r ++ q).
Proof.
  unfold leave_faulty. intros (x & Hx & H)%bind_Ok. inv_ok.
  by rewrite (skipFaultyRow_app _ _ _ Hx).
Qed.

Lemma parse_attributes_app relation eol vs p q b ws r :
  parse_attributes term esc relation eol vs p = Ok (b, ws, r) →
  parse_attributes term esc relation eol vs (p ++ q) = Ok (b, ws, r ++ q).
Proof.
  revert eol vs p. induction relation as [|a rel IH]; intros eol vs p H; cbn in *.
  - destruct eol; [by inv_ok|by apply leave_faulty_app].
  - destruct eol; [by inv_ok|].
    apply bind_Ok in H as ([[[n e] f] p'] & He & H). rewrite (extract_app _ _ _ _ _ _ He). cbn.
    destruct n; [by case_match; [apply IH|apply leave_faulty_app]|].
    apply bind_Ok in H as (v & Hv & H). rewrite Hv. cbn.
    destruct v; [by apply IH|by apply leave_faulty_app].
Qed.

(** Parsing a row reads no further than the row. *)
Lemma parseRow_app relation p q b ws r :
  parseRow term esc relation p = Ok (b, ws, r) →
  parseRow term esc relation (p ++ q) = Ok (b, ws, r ++ q).
Proof. apply parse_attributes_app. Qed.

End lines.

(** ** Texts as lines *)

(** The lines of a text, the last one without a newline. *)
Fixpoint text_of (ls : list (list Z)) : list Z :=
  match ls with
  | [] => []
  | [l] => l
  | l :: ls' => l ++ chr_lf :: text_of ls'
  end.

Definition unlines (ls : list (list Z)) : list Z := ls ≫= λ l, l ++ [chr_lf].

Abbreviation line := (λ l : list Z, chr_lf ∉ l).

Definition newlines (s : list Z) : nat := length (filter (λ c, c = chr_lf) s).

Lemma text_of_cons l ls : ls ≠ [] → text_of (l :: ls) = l ++ chr_lf :: text_of ls.
Proof. by destruct ls. Qed.

Lemma text_of_app xs ys : ys ≠ [] → text_of (xs ++ ys) = unlines xs ++ text_of ys.
Proof.
  intros Hy. induction xs as [|x xs IH]; [done|]. cbn [app].
  rewrite text_of_cons by (by destruct xs). rewrite IH. unfold unlines. cbn.
  by rewrite <- !app_assoc.
Qed.

Lemma newlines_app s t : newlines (s ++ t) = newlines s + newlines t.
Proof. unfold newlines. by rewrite filter_app, length_app. Qed.

Lemma newlines_line l : line l → newlines l = 0.
Proof.
  intros Hl. induction l as [|c l IH]; [done|]. apply not_elem_of_cons in Hl as [Hc Hl].
  unfold newlines in *. rewrite filter_cons_False by done. auto.
Qed.

Lemma newlines_unlines ls : Forall line ls → newlines (unlines ls) = length ls.
Proof.
  induction 1 as [|l ls Hl _ IH]; [done|].
  change (unlines (l :: ls)) with ((l ++ [chr_lf]) ++ unlines ls).
  by rewrite !newlines_app, IH, newlines_line.
Qed.

Lemma line_app u v : line (u ++ v) → line u ∧ line v.
Proof. cbn beta. rewrite elem_of_app. tauto. Qed.

(** A position splits one line. *)
Lemma split_lines ls m :
  ls ≠ [] → m ≤ length (text_of ls) → ∃ k u v,
    ls !! k = Some (u ++ v) ∧ take m (text_of ls) = unlines (take k ls) ++ u ∧
    drop m (text_of ls) = text_of (v :: drop (S k) ls).
Proof.
  revert m. induction ls as [|l ls IH]; intros m Hls Hm; [done|].
  destruct (decide (m ≤ length l)) as [Hml|Hml].
  - exists 0, (take m l), (drop m l). rewrite take_drop. split; [done|].
    destruct (decide (ls = [])) as [->|Hne]; [done|].
    cbn [drop]. rewrite !text_of_cons by done.
    rewrite take_app_le, drop_app_le by done. done.
  - destruct (decide (ls = [])) as [->|Hne]; [cbn in Hm; lia|].
    rewrite text_of_cons in * by done. rewrite length_app in Hm. cbn in Hm.
    destruct (IH (m - length l - 1) Hne) as (k & u & v & Hk & Ht & Hd); [lia|].
    exists (S k), u, v. split; [done|]. rewrite take_app_ge, drop_app_ge by lia.
    replace (m - length l) with (S (m - length l - 1)) by lia.
    cbn [take drop]. rewrite Ht, Hd. unfold unlines. cbn. by rewrite <- !app_assoc.
Qed.

Lemma find_newline_line l s :
  line l → find_newline (l ++ chr_lf :: s) = Some (length l).
Proof.
  induction l as [|c l IH]; intros Hl; cbn; [done|].
  rewrite not_elem_of_cons in Hl. destruct Hl as [Hc Hl].
  case_match; [lia|]. by rewrite IH.
Qed.

Lemma find_newline_none l : line l ↔ find_newline l = None.
Proof.
  induction l as [|c l IH]; cbn; [split; [done|intros _ []%elem_of_nil]|].
  rewrite not_elem_of_cons, IH. case_match.
  - split; [intros [? _]; lia|done].
  - destruct (find_newline l); cbn; split; try done; [by intros []|split; [lia|done]].
Qed.

Lemma find_newline_some s i :
  find_newline s = Some i → ∃ l r, s = l ++ chr_lf :: r ∧ line l ∧ length l = i.
Proof.
  revert i. induction s as [|c s IH]; intros i H; cbn in H; [done|].
  case_match.
  - injection H as <-. exists [], s. split; [cbn; f_equal; lia|]. split; [apply not_elem_of_nil|done].
  - destruct (find_newline s) as [j|] eqn:Hj; [|done]. injection H as <-.
    destruct (IH j eq_refl) as (l & r & -> & Hl & <-). exists (c :: l), r.
    split; [done|]. split; [|done]. apply not_elem_of_cons. split; [lia|done].
Qed.

(** ** The pointers of a segment *)

Lemma last_row_lines pre mid w e :
  line w → length pre + length (unlines mid) ≤ e ≤ length (pre ++ unlines mid ++ w) →
  last_row (pre ++ unlines mid ++ w) (length pre) e = length pre + length (unlines mid).
Proof.
  intros Hw. induction e as [|e IH]; intros He; cbn; [lia|]. rewrite !length_app in *.
  case_decide as Hp.
  - destruct (decide (length pre + length (unlines mid) ≤ e)) as [Hle|Hlt].
    + rewrite lookup_app_r, lookup_app_r by lia. case_decide as Hl; [|apply IH; lia].
      apply list_elem_of_lookup_2 in Hl. done.
    + assert (S e = length pre + length (unlines mid)) as <- by lia.
      rewrite decide_True; [done|]. rewrite lookup_app_r, lookup_app_l by lia.
      destruct mid as [|l mid _] using rev_ind; [cbn in *; lia|].
      unfold unlines in *. rewrite bind_app in *. cbn in *. rewrite !length_app in *. cbn in *.
      rewrite lookup_app_r by lia. rewrite app_nil_r, lookup_app_r by lia.
      apply list_lookup_singleton_Some. split; [lia|done].
  - assert (length (unlines mid) = 0) by lia. lia.
Qed.

Lemma first_row_lines a v s :
  a ≠ 0 → line v → first_row a (v ++ chr_lf :: s) = Some (S (length v)).
Proof.
  intros Ha Hv. unfold first_row. by rewrite decide_False, find_newline_line by done.
Qed.

(** ** The row read after the last newline *)

Definition first_line (s : list Z) : list Z :=
  match find_newline s with Some i => take (S i) s | None => s end.

Lemma first_line_of l ls :
  line l → first_line (text_of (l :: ls)) = if decide (ls = []) then l else l ++ [chr_lf].
Proof.
  intros Hl. unfold first_line. case_decide as Hn.
  - subst. cbn. by rewrite (proj1 (find_newline_none l) Hl).
  - rewrite text_of_cons, find_newline_line by done.
    rewrite take_app_ge by lia. by replace (S (length l) - length l) with 1 by lia.
Qed.

Lemma small_buffer_positive : 0 < kSmallBufferSize.
Proof. apply Nat.ltb_lt. by vm_compute. Qed.

(** A turn that reads a full piece leaves less to read. *)
Lemma read_row_spec fuel s n acc :
  0 < n → length s < fuel → read_row fuel s n acc = Ok (acc ++ first_line s).
Proof.
  revert s n acc. induction fuel as [|fuel IH]; intros s n acc Hn Hf; [lia|]. cbn [read_row].
  destruct (find_newline (take n s)) as [i|] eqn:Hi.
  - apply find_newline_some in Hi as (l & r & Ht & Hl & <-).
    assert (s = l ++ chr_lf :: r ++ drop n s) as Hs.
    { rewrite <- (take_drop n s) at 1. by rewrite Ht, <- app_assoc. }
    rewrite Ht. unfold first_line. rewrite Hs, find_newline_line by done.
    by rewrite !take_app_ge, !Nat.sub_succ_l, !Nat.sub_diag by lia.
  - apply find_newline_none in Hi as Hl. case_decide as Hlen.
    + rewrite length_take in Hlen. rewrite take_ge in * by lia.
      unfold first_line. by rewrite Hi.
    + rewrite length_take in Hlen.
      rewrite IH; [|pose proof small_buffer_positive; lia|rewrite length_drop; lia].
      f_equal. rewrite <- app_assoc. f_equal.
      rewrite <- (take_drop n s) at 3. unfold first_line.
      destruct (find_newline (drop n s)) as [i|] eqn:Hd.
      * apply find_newline_some in Hd as (l & r & -> & Hl' & <-).
        rewrite app_assoc, find_newline_line by (cbn beta; set_solver).
        rewrite !(take_app_ge _ _ (S _)) by (rewrite ?length_app; lia).
        rewrite length_app, <- app_assoc. do 2 f_equal. f_equal; lia.
      * apply find_newline_none in Hd. rewrite (proj1 (find_newline_none _)); [done|].
        cbn beta. set_solver.
Qed.

(** ** The rows of a segment *)

Section rows.
Context (term : Z) (esc : bool) {V : Type} (relation : list (Attribute V)).

(** A row that is parsed on its own, up to its newline, faulty or not; lines
    that start with a carriage return are excluded. *)
Definition good_row (l : list Z) : Prop :=
  line l ∧ (∃ c l', l = c :: l' ∧ c ≠ chr_cr) ∧
  ∃ faulty values, parseRow term esc relation (l ++ [chr_lf]) = Ok (faulty, values, []).

(** What a line contributes. *)
Definition row_tuples (l : list Z) : list (list (option V)) :=
  match l, parseRow term esc relation (l ++ [chr_lf]) with
  | _ :: _, Ok (false, values, _) => [values]
  | _, _ => []
  end.

Lemma row_tuples_parsed l values r :
  l ≠ [] → parseRow term esc relation (l ++ [chr_lf]) = Ok (false, values, r) →
  row_tuples l = [values].
Proof. intros Hl Hp. destruct l as [|c l]; [done|]. unfold row_tuples. by rewrite Hp. Qed.

Lemma good_parse l s :
  good_row l → ∃ faulty values, parseRow term esc relation (l ++ chr_lf :: s) = Ok (faulty, values, s) ∧
    ∀ tuples, add_tuple faulty values tuples = tuples ++ row_tuples l.
Proof.
  intros (_ & (c & l' & -> & _) & faulty & values & H). exists faulty, values. split.
  - apply (parseRow_app _ _ _ _ s) in H. by rewrite <- app_assoc in H.
  - intros tuples. unfold row_tuples. rewrite H. destruct faulty; cbn; [by rewrite app_nil_r|done].
Qed.

Lemma rows_loop_lines fuel pre mid w tuples :
  Forall good_row mid → length mid ≤ fuel →
  rows_loop term esc fuel relation (pre ++ unlines mid ++ w) (length pre)
    (length pre + length (unlines mid)) tuples = Ok (tuples ++ (mid ≫= row_tuples)).
Proof.
  intros Hg. revert fuel pre tuples. induction Hg as [|l mid Hl Hg IH]; intros fuel pre tuples Hf.
  - destruct fuel; cbn; (rewrite decide_False by lia); by rewrite app_nil_r.
  - destruct fuel as [|fuel]; [cbn in Hf; lia|]. cbn [rows_loop].
    change (unlines (l :: mid)) with ((l ++ [chr_lf]) ++ unlines mid).
    rewrite <- (app_assoc l). cbn [app]. rewrite decide_True by (rewrite !length_app; cbn; lia).
    pose proof Hl as (Hline & (c & l' & Heq & Hc) & _).
    rewrite (vec_at_Some _ _ c) by (rewrite lookup_app_r, Nat.sub_diag, Heq by lia; done). cbn.
    assert (c ≠ chr_lf) by (intros ->; apply Hline; rewrite Heq; left).
    rewrite (proj2 (Z.eqb_neq c chr_cr)), (proj2 (Z.eqb_neq c chr_lf)) by done. cbn.
    rewrite drop_app_length, <- app_assoc. cbn.
    destruct (good_parse l (unlines mid ++ w) Hl) as (faulty & values & -> & Hadd). cbn.
    rewrite Hadd.
    replace (length (pre ++ l ++ chr_lf :: unlines mid ++ w) - length (unlines mid ++ w))
      with (length (pre ++ l ++ [chr_lf])) by (rewrite !length_app; cbn; rewrite !length_app; lia).
    replace (pre ++ l ++ chr_lf :: unlines mid ++ w)
      with ((pre ++ l ++ [chr_lf]) ++ unlines mid ++ w) by (rewrite <- !app_assoc; done).
    replace (length pre + length (l ++ chr_lf :: unlines mid))
      with (length (pre ++ l ++ [chr_lf]) + length (unlines mid))
      by (rewrite !length_app; cbn; lia).
    rewrite IH by (cbn in Hf; lia). by rewrite <- app_assoc.
Qed.

(** The last line of a text may be missing. *)
Definition good_tail (l : list Z) : Prop := l = [] ∨ good_row l.

Lemma parse_last_line l (last_one : bool) tuples :
  good_row l ∨ last_one = true ∧ l = [] →
  parse_last term esc relation (if last_one then l else l ++ [chr_lf]) tuples
    = Ok (tuples ++ row_tuples l).
Proof.
  intros [Hl|[-> ->]]; [|cbn; by rewrite app_nil_r].
  unfold parse_last. destruct (good_parse l [chr_nul] Hl) as (faulty & values & Hp & Hadd).
  destruct last_one.
  - destruct Hl as (Hline & (c & l' & Heq & _) & _).
    destruct (last l) as [d|] eqn:Hd; [|apply last_None in Hd; by subst].
    rewrite decide_False by (intros ->; apply last_Some_elem_of in Hd; done).
    rewrite <- app_assoc. cbn. rewrite Hp. cbn. by rewrite Hadd.
  - rewrite last_snoc, decide_True, <- app_assoc by done. cbn. rewrite Hp. cbn. by rewrite Hadd.
Qed.

End rows.
