(* ===== verification/TextScanTheorems.v ===== *)
(** * Every row of the files is scanned once

    A segment contributes the rows that start after a newline inside it, and
    the first segment also the first row; the segments of a file cover it
    without overlap.  So the rows come out once each and in order, wherever the
    boundaries of the segments fall. *)

From stdpp Require Import strings.
From S2P Require Import Prelude Decimal OperatorWork TextScan TextLines.
From S2P Require Import ValueText Types StringTypes.
From stdpp Require Import options.

Lemma mapM_Ok_cons {A B} (f : A → outcome B) x l y ys :
  f x = Ok y → mapM f l = Ok ys → mapM f (x :: l) = Ok (y :: ys).
Proof. intros H1 H2. cbn. rewrite H1. cbn. by rewrite H2. Qed.

Section segments.
Context (term : Z) (esc : bool) {V : Type} (relation : list (Attribute V)).
Abbreviation row_tuples := (row_tuples term esc relation).

(** The lines of a file; the last one, which has no newline, may be empty. *)
Definition good_lines (rows : list (list Z)) (tail : list Z) : Prop :=
  Forall (good_row term esc relation) rows ∧ good_tail term esc relation tail.

(** The same as tests. *)
Definition good_rowb (l : list Z) : bool :=
  bool_decide (chr_lf ∉ l) && match l with c :: _ => negb (c =? chr_cr)%Z | [] => false end &&
  match parseRow term esc relation (l ++ [chr_lf]) with Ok (_, _, []) => true | _ => false end.
Definition good_linesb (rows : list (list Z)) (tail : list Z) : bool :=
  forallb good_rowb rows && (bool_decide (tail = []) || good_rowb tail).

Lemma good_rowb_sound l : good_rowb l = true → good_row term esc relation l.
Proof.
  unfold good_rowb, good_row. rewrite !andb_true_iff, bool_decide_eq_true.
  intros [[Hl Hc] Hp]. split; [done|]. split.
  - destruct l as [|c l]; [done|]. exists c, l. split; [done|]. intros ->. done.
  - destruct (parseRow _ _ _ _) as [[[faulty values] [|]]|]; try done. eauto.
Qed.

Lemma good_linesb_sound rows tail : good_linesb rows tail = true → good_lines rows tail.
Proof.
  unfold good_linesb, good_lines, good_tail.
  rewrite andb_true_iff, forallb_forall, orb_true_iff, bool_decide_eq_true.
  intros [Hr Ht]. split; [|destruct Ht; auto using good_rowb_sound].
  apply Forall_forall. intros l Hl. apply good_rowb_sound, Hr. by apply list_elem_of_In.
Qed.

(** The first row that starts after position [a]. *)
Definition row_after (text : list Z) (a : nat) : nat :=
  if decide (a = 0) then 0 else S (newlines (take a text)).

Lemma good_lines_line rows tail :
  good_lines rows tail → Forall line (rows ++ [tail]).
Proof.
  intros [Hr Ht]. apply Forall_app. split.
  - eapply Forall_impl; [done|]. by intros l (? & _).
  - constructor; [|constructor]. destruct Ht as [->|(? & _)]; [apply not_elem_of_nil|done].
Qed.

(** The tuples of a segment that starts with the rest [v] of a line and goes on
    with the lines [mid] and a part [w] of the next line [l]. *)
Lemma segment_tuples text a pre mid w l (rest : list (list Z)) :
  length pre + length (unlines mid) + length w ≤ length text - a →
  take (length (pre ++ unlines mid ++ w)) (drop a text) = pre ++ unlines mid ++ w →
  first_row a (pre ++ unlines mid ++ w) = Some (length pre) →
  drop (a + length (pre ++ unlines mid)) text = text_of (l :: rest) →
  line w → line l → Forall (good_row term esc relation) mid →
  good_row term esc relation l ∨ rest = [] ∧ l = [] →
  scan_segment term esc relation (Some text) a (length (pre ++ unlines mid ++ w))
    = Ok (Some ((mid ++ [l]) ≫= row_tuples)).
Proof.
  intros Hlen Hbuf Hfirst Hnext Hw Hl Hmid Hgood. unfold scan_segment.
  rewrite Hbuf, Hfirst. rewrite decide_False by (intros H; by apply H).
  rewrite last_row_lines by (done || (rewrite !length_app; lia)).
  assert (length mid ≤ length (pre ++ unlines mid ++ w)) as Hfuel.
  { rewrite !length_app. transitivity (newlines (unlines mid)).
    - rewrite newlines_unlines; [done|]. eapply Forall_impl; [done|]. by intros x (? & _).
    - unfold newlines. pose proof (length_filter (λ c, c = chr_lf) (unlines mid)). lia. }
  rewrite rows_loop_lines by done. cbn [mbind outcome_bind].
  rewrite length_app in Hnext. rewrite Hnext.
  rewrite read_row_spec by (rewrite <- ?Hnext, ?length_drop; lia). cbn [mbind outcome_bind app].
  rewrite first_line_of by done.
  rewrite bind_app. cbn [mbind list_bind]. rewrite app_nil_r. case_decide as Hr.
  - rewrite (parse_last_line term esc relation l true); [done|].
    destruct Hgood as [|[_ ->]]; [by left|by right].
  - rewrite (parse_last_line term esc relation l false); [done|].
    destruct Hgood as [|[? _]]; [by left|done].
Qed.

Lemma drop_lines ls k l :
  ls !! k = Some l → drop (length (unlines (take k ls))) (text_of ls) = text_of (l :: drop (S k) ls).
Proof.
  intros Hk. rewrite <- (take_drop_middle ls k l Hk) at 2.
  by rewrite text_of_app, drop_app_length.
Qed.

Lemma newlines_split ls k u v :
  Forall line ls → ls !! k = Some (u ++ v) → newlines (unlines (take k ls) ++ u) = k.
Proof.
  intros Hls Hk. pose proof (lookup_lt_Some _ _ _ Hk).
  pose proof (Forall_lookup_1 _ _ _ _ Hls Hk) as [Hu _]%line_app.
  rewrite newlines_app, newlines_unlines by (by apply Forall_take).
  rewrite newlines_line, length_take by done. lia.
Qed.

Context (rows : list (list Z)) (tail : list Z) (Hgood : good_lines rows tail).
Abbreviation all := (rows ++ [tail]).
Abbreviation text := (text_of all).

Lemma good_at i l :
  all !! i = Some l → good_row term esc relation l ∨ drop (S i) all = [] ∧ l = [].
Proof using Hgood.
  destruct Hgood as [Hr Ht]. intros Hi. apply lookup_app_Some in Hi as [Hi|[Hle Hi]].
  - left. by eapply Forall_lookup_1.
  - apply list_lookup_singleton_Some in Hi as [Hi <-].
    destruct Ht as [->|]; [right|by left]. split; [|done].
    apply drop_ge. rewrite length_app. cbn. lia.
Qed.

Lemma good_between i j : i + j ≤ length rows →
  Forall (good_row term esc relation) (take j (drop i all)).
Proof using Hgood.
  intros Hij. destruct Hgood as [Hr _].
  rewrite drop_app_le, take_app_le by (rewrite ?length_drop; lia).
  by apply Forall_take, Forall_drop.
Qed.

Lemma last_index i l : all !! i = Some l → i ≤ length rows.
Proof. intros Hi%lookup_lt_Some. rewrite length_app in Hi. cbn in Hi. lia. Qed.

(** The first segment. *)
Lemma segment_first s :
  s ≠ 0 → s ≤ length text →
  scan_segment term esc relation (Some text) 0 s =
    Ok (Some (take (row_after text s) all ≫= row_tuples)).
Proof using Hgood.
  intros Hs0 Hs.
  pose proof (good_lines_line _ _ Hgood) as Hlines.
  destruct (split_lines all s) as (k & w & w' & Hk & Ht & _); [by destruct rows|done|].
  pose proof (Forall_lookup_1 _ _ _ _ Hlines Hk) as Hline.
  unfold row_after. rewrite decide_False, Ht, (newlines_split _ _ _ w') by done.
  rewrite (take_S_r _ _ _ Hk).
  pose proof (f_equal length Ht) as Hlen. rewrite length_take in Hlen.
  rewrite Nat.min_l in Hlen by done. rewrite length_app in Hlen.
  pose proof (segment_tuples text 0 [] (take k all) w (w ++ w') (drop (S k) all)) as Hseg.
  cbn [app length Nat.add] in Hseg. rewrite drop_0, length_app, <- Hlen in Hseg.
  apply Hseg; try done; try lia.
  - by apply drop_lines.
  - by apply line_app in Hline as [? _].
  - apply last_index in Hk. by apply (good_between 0).
  - by apply good_at.
Qed.
(** A segment that starts inside the file: there may be no newline in it. *)
Lemma segment_later a s :
  a ≠ 0 → s ≠ 0 → a + s ≤ length text → ∃ r,
  scan_segment term esc relation (Some text) a s = Ok r ∧
  row_after text a ≤ row_after text (a + s) ∧
  default [] r =
    take (row_after text (a + s) - row_after text a) (drop (row_after text a) all)
      ≫= row_tuples.
Proof using Hgood.
  intros Ha Hs Has. pose proof (good_lines_line _ _ Hgood) as Hlines.
  destruct (split_lines all a) as (n & u & v & Hn & Hta & Hda); [by destruct rows|lia|].
  assert (Forall line (v :: drop (S n) all)) as Hls.
  { constructor; [|by apply Forall_drop].
    pose proof (Forall_lookup_1 _ _ _ _ Hlines Hn) as [_ ?]%line_app. done. }
  pose proof (f_equal length Hda) as Hlen. rewrite length_drop in Hlen.
  destruct (split_lines (v :: drop (S n) all) s) as (k & w & w' & Hk & Ht & _); [done|lia|].
  pose proof (Forall_lookup_1 _ _ _ _ Hls Hk) as Hline.
  assert (newlines (take (a + s) text) = n + k) as Hnk.
  { rewrite <- (take_take_drop text a s), newlines_app, Hda, Ht, Hta.
    by rewrite (newlines_split _ _ _ v), (newlines_split _ _ _ w'). }
  unfold row_after. rewrite !decide_False, Hnk, Hta, (newlines_split _ _ _ v) by (done || lia).
  rewrite <- Hda in Ht.
  pose proof (f_equal length Ht) as Hslen. rewrite length_take, length_drop, Nat.min_l in Hslen by lia.
  destruct k as [|k].
  - cbn in Ht, Hslen. exists None. split; [|split; [lia|]]; [|by rewrite Nat.add_0_r, Nat.sub_diag].
    unfold scan_segment. rewrite Ht, <- Hslen, decide_False by (intros H; by apply H).
    unfold first_row. rewrite decide_False by done.
    rewrite (proj1 (find_newline_none w)); [done|]. by apply line_app in Hline as [? _].
  - assert (all !! (S n + k) = Some (w ++ w')) as Hl by (by rewrite <- lookup_drop).
    cbn [take] in Ht, Hslen.
    set (mid := take k (drop (S n) all)) in *.
    change (unlines (v :: mid)) with ((v ++ [chr_lf]) ++ unlines mid) in *.
    rewrite <- (app_assoc _ _ w) in Ht, Hslen.
    exists (Some ((mid ++ [w ++ w']) ≫= row_tuples)). split; [|split; [lia|]].
    + rewrite Hslen. apply (segment_tuples _ _ _ _ _ _ (drop (S (S n + k)) all)).
      * rewrite !length_app in *. lia.
      * by rewrite <- Hslen.
      * rewrite <- app_assoc. cbn [app]. rewrite first_row_lines, length_app; [f_equal; cbn; lia|done|].
        by inversion Hls.
      * rewrite <- drop_drop, Hda. replace (S (S n + k)) with (S n + S k) by lia.
        rewrite <- (drop_drop _ _ (S n)).
        change (drop (S (k)) (drop (S n) all)) with (drop (S (S k)) (v :: drop (S n) all)).
        unfold mid. change ((v ++ [chr_lf]) ++ unlines (take k (drop (S n) all)))
          with (unlines (take (S k) (v :: drop (S n) all))).
        by apply drop_lines.
      * by apply line_app in Hline as [? _].
      * done.
      * apply last_index in Hl. apply good_between. lia.
      * by apply good_at.
    + change (default [] (Some ?x)) with x. replace (S (n + S k) - S n) with (S k) by lia.
      rewrite (take_S_r _ k (w ++ w')); [done|]. by rewrite lookup_drop.
Qed.
(** Segments that follow each other up to the end of the file. *)
Fixpoint segments_cover (a : nat) (segments : list (nat * nat)) (b : nat) : Prop :=
  match segments with
  | [] => a = b
  | (offset, size) :: rest => offset = a ∧ size ≠ 0 ∧ segments_cover (a + size) rest b
  end.

Lemma segments_cover_le a segments b : segments_cover a segments b → a ≤ b.
Proof.
  revert a. induction segments as [|[o s] segments IH]; cbn; [lia|].
  intros a (_ & _ & H%IH). lia.
Qed.

Abbreviation scan_all segments :=
  (mapM (λ s, scan_segment term esc relation (Some text) s.1 s.2) segments).

Lemma row_after_end : text ≠ [] → row_after text (length text) = length all.
Proof using Hgood.
  intros Ht. pose proof (good_lines_line _ _ Hgood) as Hl. unfold row_after.
  rewrite decide_False by (by destruct text).
  rewrite take_ge by lia. rewrite text_of_app by done.
  change (text_of [tail]) with tail.
  apply Forall_app in Hl as [Hr Hl]. rewrite newlines_app, newlines_unlines by done.
  rewrite newlines_line by (by inversion Hl). rewrite length_app. cbn. lia.
Qed.

Lemma scan_cover a segments :
  a ≠ 0 → segments_cover a segments (length text) → ∃ rs,
  scan_all segments = Ok rs ∧
  (rs ≫= default []) = drop (row_after text a) all ≫= row_tuples.
Proof using Hgood.
  revert a. induction segments as [|[o s] segments IH]; intros a Ha Hc.
  - exists []. split; [done|]. cbn in Hc. subst a.
    rewrite row_after_end by (intros E; by rewrite E in Ha). by rewrite drop_ge.
  - destruct Hc as (-> & Hs & Hc). pose proof (segments_cover_le _ _ _ Hc) as Hle.
    destruct (segment_later a s Ha Hs Hle) as (r & Hr & Hrow & Hrs).
    destruct (IH (a + s)) as (rs & Hseg & Hcat); [lia|done|].
    exists (r :: rs). split; [by apply mapM_Ok_cons|].
    change ((r :: rs) ≫= default []) with (default [] r ++ (rs ≫= default [])).
    rewrite Hrs, Hcat.
    rewrite <- (take_drop (row_after text (a + s) - row_after text a)
      (drop (row_after text a) all)) at 2.
    rewrite bind_app, drop_drop. do 3 f_equal. lia.
Qed.

Lemma scan_file segments :
  segments_cover 0 segments (length text) → ∃ rs,
  scan_all segments = Ok rs ∧ (rs ≫= default []) = all ≫= row_tuples.
Proof using Hgood.
  destruct segments as [|[o s] segments]; intros Hc; cbn in Hc.
  - exists []. split; [done|]. destruct rows as [|r rs]; cbn in *.
    + by destruct tail.
    + destruct (rs ++ [tail]) eqn:E; [by destruct rs|]. rewrite length_app in Hc. cbn in Hc. lia.
  - destruct Hc as (-> & Hs & Hc). pose proof (segments_cover_le _ _ _ Hc) as Hle.
    destruct (scan_cover s segments Hs Hc) as (rs & Hseg & Hcat).
    eexists (_ :: rs). split; [apply mapM_Ok_cons; [by apply segment_first|done]|].
    change ((Some ?r :: rs) ≫= default []) with (r ++ (rs ≫= default [])).
    by rewrite Hcat, <- bind_app, take_drop.
Qed.
End segments.

(** ** The segments of a file *)

Lemma full_segments_cover n size a b segments :
  size ≠ 0 → segments_cover (a + n * size) segments b →
  let '(full, offset) := full_segments n size a in
  offset = a + n * size ∧ segments_cover a (full ++ segments) b.
Proof.
  intros Hs. revert a. induction n as [|n IH]; intros a Hc; cbn in *.
  - rewrite Nat.add_0_r in *. by split.
  - specialize (IH (a + size)). destruct (full_segments n size (a + size)) as [full offset].
    rewrite <- Nat.add_assoc in IH. destruct (IH Hc) as [-> H]. by split.
Qed.

Lemma file_segments_cover size file_size :
  size ≠ 0 → segments_cover 0 (file_segments size file_size) file_size.
Proof.
  intros Hs. unfold file_segments. pose proof (Nat.div_mod file_size size Hs) as Hdiv.
  destruct (decide (file_size `mod` size = 0)) as [Hm|Hm].
  - pose proof (full_segments_cover (file_size / size) size 0 file_size [] Hs) as H.
    cbn in H. destruct (full_segments _ size 0) as [full offset].
    destruct H as [-> H]; [cbn; lia|]. rewrite decide_False by lia.
    by rewrite app_nil_r in H.
  - pose proof (full_segments_cover (file_size / size) size 0 file_size
      [(file_size / size * size, file_size - file_size / size * size)] Hs) as H.
    cbn in H. destruct (full_segments _ size 0) as [full offset].
    destruct H as [-> H]; [split_and!; [done|lia|lia]|]. by rewrite decide_True by lia.
Qed.

(** ** Column vectors *)

(** One column per attribute, with one value per tuple, in order. *)
Definition columns_hold {V} (n : nat) (tuples : list (list (option V)))
    (columns : list (list (option V))) : Prop :=
  length columns = n ∧
  ∀ a col, columns !! a = Some col → length col = length tuples ∧
    ∀ i t, tuples !! i = Some t → col !! i = t !! a.

Lemma mapM_Forall2 {A B} (f : A → outcome B) l :
  (∀ x, x ∈ l → ∃ y, f x = Ok y) → ∃ k, mapM f l = Ok k ∧ Forall2 (λ x y, f x = Ok y) l k.
Proof.
  induction l as [|x l IH]; intros H; [by exists []|].
  destruct (H x) as [y Hy]; [left|]. destruct IH as (k & Hk & HF); [by intros; apply H; right|].
  exists (y :: k). split; [by apply mapM_Ok_cons|by constructor].
Qed.

Lemma column_vectors_hold {V} (relation : list (Attribute V)) tuples :
  Forall (λ t, length t = length relation) tuples → ∃ columns,
  column_vectors relation tuples = Ok columns ∧
  columns_hold (length relation) tuples columns.
Proof.
  intros Ht. unfold column_vectors.
  assert (∀ a, a < length relation → ∃ col, mapM (λ t, vec_at t a) tuples = Ok col ∧
    Forall2 (λ t v, vec_at t a = Ok v) tuples col) as Hcol.
  { intros a Ha. apply mapM_Forall2. intros t Hin. rewrite Forall_forall in Ht.
    destruct (lookup_lt_is_Some_2 t a) as [v Hv]; [by rewrite (Ht t Hin)|].
    exists v. by apply vec_at_Some. }
  destruct (mapM_Forall2 (λ a, mapM (λ t, vec_at t a) tuples) (seq 0 (length relation)))
    as (columns & -> & HF).
  { intros a Ha%elem_of_seq. destruct (Hcol a) as (col & ? & _); [lia|eauto]. }
  exists columns. split; [done|]. split.
  { apply Forall2_length in HF. by rewrite length_seq in HF. }
  intros a col Ha. destruct (Forall2_lookup_r _ _ _ _ _ HF Ha) as (a' & Ha' & Hc).
  apply lookup_seq in Ha' as [-> Hlt]. destruct (Hcol _ Hlt) as (col' & Hc' & HF').
  cbn in *. rewrite Hc' in Hc. injection Hc as ->. split; [by apply Forall2_length in HF'|].
  intros i t Hi. destruct (Forall2_lookup_l _ _ _ _ _ HF' Hi) as (v & Hv & Hat%vec_at_Ok).
  by rewrite Hv, Hat.
Qed.

Section tuples.
Context (term : Z) (esc : bool) {V : Type} (relation : list (Attribute V)).
Abbreviation sized := (Forall (λ t : list (option V), length t = length relation)).

Lemma leave_faulty_faulty (vs ws : list (option V)) p r :
  leave_faulty vs p ≠ Ok (false, ws, r).
Proof. unfold leave_faulty. by destruct (skipFaultyRow p). Qed.

Lemma parse_attributes_length rel eol vs p ws r :
  parse_attributes term esc rel eol vs p = Ok (false, ws, r) →
  length ws = length vs + @length (Attribute V) rel.
Proof.
  revert eol vs p. induction rel as [|a rel IH]; intros eol vs p H; cbn in H.
  - destruct eol; [|by apply leave_faulty_faulty in H]. injection H as <- _. cbn. lia.
  - destruct eol; [done|]. apply bind_Ok in H as ([[[n e] f] p'] & _ & H).
    assert (∀ v, parse_attributes term esc rel e (vs ++ [v]) p' = Ok (false, ws, r) →
      length ws = length vs + S (length rel)) as Hrec.
    { intros v Hv. apply IH in Hv. rewrite length_app in Hv. cbn in Hv. lia. }
    destruct n.
    + destruct (attr_nullable a); [by eapply Hrec|by apply leave_faulty_faulty in H].
    + apply bind_Ok in H as ([v|] & _ & H); [by eapply Hrec|by apply leave_faulty_faulty in H].
Qed.

Lemma add_tuple_sized p faulty values r tuples :
  parseRow term esc relation p = Ok (faulty, values, r) → sized tuples →
  sized (add_tuple faulty values tuples).
Proof.
  intros Hp Ht. destruct faulty; cbn; [done|]. apply Forall_app. split; [done|].
  constructor; [|constructor]. by apply parse_attributes_length in Hp.
Qed.

Lemma rows_loop_sized fuel buffer i j tuples tuples' :
  rows_loop term esc fuel relation buffer i j tuples = Ok tuples' →
  sized tuples → sized tuples'.
Proof.
  revert i tuples. induction fuel as [|fuel IH]; intros i tuples H Ht; cbn in H;
    (case_decide; [|by inv_ok]); [done|].
  apply bind_Ok in H as (c & _ & H). case_match; [by eapply IH|].
  apply bind_Ok in H as ([[faulty values] r] & Hp & H).
  eapply IH; [done|]. by eapply add_tuple_sized.
Qed.

Lemma scan_segment_sized file a s tuples :
  scan_segment term esc relation file a s = Ok (Some tuples) → sized tuples.
Proof.
  unfold scan_segment. destruct file as [text|]; [|by intros; inv_ok].
  case_decide as Hlen; [by intros; inv_ok|]. destruct (first_row _ _); [|by intros; inv_ok].
  intros (ts & Hts & H)%bind_Ok. apply rows_loop_sized in Hts; [|constructor].
  apply bind_Ok in H as (row & _ & H). apply bind_Ok in H as (ts' & Hp & H). inv_ok.
  unfold parse_last in Hp. destruct (last row); [|by inv_ok].
  apply bind_Ok in Hp as ([[faulty values] r] & Hr & Hp). inv_ok. by eapply add_tuple_sized.
Qed.

(** What a work order inserts, if anything, holds the tuples of its segment. *)
Lemma execute_holds file a s r :
  scan_segment term esc relation file a s = Ok r → ∃ c,
  execute term esc relation file a s = Ok c ∧
  match c with
  | Some columns => columns_hold (length relation) (default [] r) columns
  | None => default [] r = []
  end.
Proof.
  intros Hr. unfold execute. rewrite Hr. cbn. destruct r as [tuples|]; [|by exists None].
  apply scan_segment_sized in Hr. destruct (column_vectors_hold relation tuples Hr) as (cs & -> & ?).
  cbn. by exists (Some cs).
Qed.
End tuples.

(** ** The operator *)

Section operator.
Context {V : Type} (relation : list (Attribute V)) (fs : string → option (list Z)).

(** What the work order of a segment inserts. *)
Definition work_columns (w : OperatorWorkOrder) : outcome (option (list (list (option V)))) :=
  match wo_work w with
  | TextScanWork file a s term esc _ => execute term esc relation (fs file) a s
  | _ => Ok None
  end.

Definition inserts (c : option (list (list (option V)))) (tuples : list (list (option V))) : Prop :=
  match c with
  | Some columns => columns_hold (length relation) tuples columns
  | None => tuples = []
  end.

Context (op : TextScanOperator).
Abbreviation term := (delimiter_ (ts_options op)).
Abbreviation esc := (escape_strings_ (ts_options op)).

(** The contents of a file, as good lines. *)
Definition file_of (file : string) (ls : list (list Z)) : Prop :=
  ∃ rows tail, ls = rows ++ [tail] ∧ good_lines term esc relation rows tail ∧
    fs file = Some (text_of ls).

Lemma mapM_app_Ok {A B} (f : A → outcome B) l1 l2 k1 k2 :
  mapM f l1 = Ok k1 → mapM f l2 = Ok k2 → mapM f (l1 ++ l2) = Ok (k1 ++ k2).
Proof.
  revert k1. induction l1 as [|x l1 IH]; intros k1 H1 H2; cbn in H1; [by inv_ok|].
  apply bind_Ok in H1 as (y & Hy & H1). apply bind_Ok in H1 as (k & Hk & H1). inv_ok.
  cbn [app]. apply mapM_Ok_cons; [done|]. by apply IH.
Qed.

Lemma file_work_orders file ls segments :
  file_of file ls → segments_cover 0 segments (length (text_of ls)) → ∃ cs rs,
  mapM work_columns (new_TextScanWorkOrder op file <$> segments) = Ok cs ∧
  Forall2 inserts cs rs ∧ concat rs = ls ≫= row_tuples term esc relation.
Proof.
  intros (rows & tail & -> & Hgood & Hfs) Hc.
  destruct (scan_file term esc relation rows tail Hgood segments Hc) as (rs & Hrs & Hcat).
  clear Hc Hgood. rewrite <- Hcat. clear Hcat.
  revert rs Hrs. induction segments as [|[a s] segments IH]; intros rs Hrs; cbn in Hrs.
  - inv_ok. by exists [], [].
  - apply bind_Ok in Hrs as (r & Hr & Hrs). apply bind_Ok in Hrs as (rs' & Hseg & Hrs).
    injection Hrs as <-. destruct (IH rs' Hseg) as (cs & rs'' & Hm & HF & Hcat).
    destruct (execute_holds term esc relation _ _ _ _ Hr) as (c & Hc & Hins).
    exists (c :: cs), (default [] r :: rs''). split; [|split].
    + cbn [fmap list_fmap]. apply mapM_Ok_cons; [|done].
      unfold work_columns, new_TextScanWorkOrder, work_order. cbn [wo_work]. by rewrite Hfs.
    + constructor; [by destruct c|done].
    + cbn. by rewrite Hcat.
Qed.

Lemma scan_files_rows size files lines :
  size ≠ 0 → Forall (λ f, file_of f (lines f)) files → ∃ ws cs rs,
  scan_files op size fs files = Ok ws ∧ mapM work_columns ws = Ok cs ∧
  Forall2 inserts cs rs ∧
  concat rs = files ≫= λ f, lines f ≫= row_tuples term esc relation.
Proof.
  intros Hs. induction 1 as [|f files Hf _ IH]; [by exists [], [], []|].
  destruct IH as (ws & cs & rs & Hws & Hcs & HF & Hcat).
  pose proof Hf as (rows & tail & _ & _ & Hfs).
  destruct (file_work_orders f _ _ Hf (file_segments_cover size _ Hs))
    as (cs1 & rs1 & Hcs1 & HF1 & Hcat1).
  cbn [scan_files]. rewrite Hfs, Hws. cbn [mbind outcome_bind].
  eexists _, (cs1 ++ cs), (rs1 ++ rs). split; [done|]. split; [by apply mapM_app_Ok|].
  split; [by apply Forall2_app|]. rewrite concat_app, Hcat1, Hcat. done.
Qed.
End operator.

(** ** Properties *)

(** C26. A text scan reads every row of its files once.  Let there be at least
    one file, segments that are not empty, and rows that can be parsed on their
    own (see [good_row]: not empty, not starting with a carriage return, and
    parsed up to their newline, faulty or not).  Then, whatever the size of
    the segments into which the files are split, the work orders that
    [getAllWorkOrders] generates insert together exactly the tuples of the
    rows that are not faulty, in the order of the files and of the rows in
    them, the last row with or without a newline; a second call generates
    nothing. *)
Theorem text_scan_exact {V} (relation : list (Attribute V)) fs op size files lines :
  size ≠ 0 → files ≠ [] → ts_work_generated op = false →
  Forall (λ f, file_of relation fs op f (lines f)) files → ∃ ws op' cs rs,
  ts_getAllWorkOrders size fs files op = Ok (ws, true, op') ∧
  mapM (work_columns relation fs) ws = Ok cs ∧
  Forall2 (inserts relation) cs rs ∧
  concat rs = (files ≫= λ f, lines f ≫=
    row_tuples (delimiter_ (ts_options op)) (escape_strings_ (ts_options op)) relation) ∧
  ts_getAllWorkOrders size fs files op' = Ok ([], true, op').
Proof.
  intros Hs Hne Hg Hf.
  destruct (scan_files_rows relation fs op size files lines Hs Hf)
    as (ws & cs & rs & Hws & Hcs & HF & Hcat).
  unfold ts_getAllWorkOrders. destruct files as [|f files]; [done|]. cbn [length Nat.eqb negb check].
  cbn [mbind outcome_bind]. rewrite Hg, Hws. cbn. eauto 10.
Qed.

(** ** A concrete scan *)

(** A nullable number and a string of at most eight characters. *)
Definition sample_relation : list (Attribute (Z + list Z)) :=
  [{| attr_name := [110%Z]; attr_nullable := true;
      attr_parse s := match int_parseValueFromString s with
        | Ok v => Ok (option_map inl v) | Err e => Err e end;
      attr_print v := match v with inl n => Ok (int_printValueToString n) | inr _ => Ok [] end |};
   {| attr_name := [115%Z]; attr_nullable := false;
      attr_parse s := Ok (match var_char_parseValueFromString 8 s with
        | Some (StringData _ data) => Some (inr data) | _ => None end);
      attr_print v := match v with
        | inr data => var_char_printValueToString data | inl _ => Ok [] end |}].

(** A number and a string, a null and an escaped tab, a faulty number, and a
    row without a newline. *)
Definition sample_rows : list (list Z) :=
  [[55; 9; 97; 98]; [92; 78; 9; 92; 116]; [120; 9; 97]]%Z.
Definition sample_tail : list Z := [45; 49; 9]%Z.
Definition sample_files (f : string) : option (list Z) :=
  Some (text_of (sample_rows ++ [sample_tail])).
Definition sample_scan : TextScanOperator :=
  new_TextScanOperator 0 (initializeDefaultParameters kText) 3 1 2.

Lemma text_scan_exact_witness : ∃ ws op' cs rs,
  ts_getAllWorkOrders 5 sample_files ["a"; "b"]%string sample_scan = Ok (ws, true, op') ∧
  length ws = 8 ∧
  mapM (work_columns sample_relation sample_files) ws = Ok cs ∧
  Forall2 (inserts sample_relation) cs rs ∧
  concat rs = [[Some (inl 7%Z); Some (inr [97; 98; 0]%Z)]; [None; Some (inr [9; 0]%Z)];
               [Some (inl (-1)%Z); Some (inr [0]%Z)];
               [Some (inl 7%Z); Some (inr [97; 98; 0]%Z)]; [None; Some (inr [9; 0]%Z)];
               [Some (inl (-1)%Z); Some (inr [0]%Z)]].
Proof.
  destruct (text_scan_exact sample_relation sample_files sample_scan 5 ["a"; "b"]%string
    (λ _, sample_rows ++ [sample_tail])) as (ws & op' & cs & rs & Hw & Hc & HF & Hcat & _);
    [done..| |].
  { apply Forall_true. intros f. exists sample_rows, sample_tail. split; [done|]. split; [|done].
    apply good_linesb_sound. by vm_compute. }
  exists ws, op', cs, rs. split; [done|]. split; [|split; [done|split; [done|]]].
  - assert (Ok ws = fst ∘ fst <$> ts_getAllWorkOrders 5 sample_files ["a"; "b"]%string sample_scan)
      as Heq by (rewrite Hw; done). vm_compute in Heq. by injection Heq as ->.
  - rewrite Hcat. by vm_compute.
Defined.
