(* ===== verification/TextRoundTrip.v ===== *)
(** * Exported text can be scanned

    The escape sequences that the export writes are those that the scan
    expands, so a table exported as text comes back with the same tuples; and
    what goes wrong at the edges: a string that reads like the null literal, a
    faulty last field, an empty line at the end of a segment, a delimiter that
    is not an ASCII character. *)

From stdpp Require Import strings.
From S2P Require Import Prelude Decimal OperatorWork TextScan TextLines TextScanTheorems.
From S2P Require Import ValueText Types StringTypes.
From stdpp Require Import options.

Local Open Scope Z_scope.

(** ** Escape sequences *)

Abbreviation is_byte := (λ c : Z, 0 ≤ c < 256).

(** A delimiter that stands for itself after a backslash. *)
Definition plain_delimiter (d : Z) : Prop :=
  0 ≤ d < 128 ∧ is_octal d = false ∧
  d ∉ [chr_bs; chr_lf; chr_cr; chr_N; chr_x; 98; 102; 110; 114; 116; 118].

Section escape.
Context (config : BulkIoConfiguration).
Abbreviation d := (delimiter_ config).
Context (Hd : plain_delimiter d).

Lemma is_terminator_iff c : is_terminator config c = (c =? d).
Proof using Hd.
  unfold is_terminator. destruct Hd as [Hb _]. rewrite (proj2 (Z.leb_gt 128 d)) by lia. done.
Qed.

Lemma delimiter_escape rest : escape_sequence (d :: rest) = Ok (d, rest).
Proof using Hd.
  destruct Hd as (_ & Ho & Hn). unfold escape_sequence. cbn [vec_at lookup list_lookup mbind outcome_bind].
  rewrite Ho. rewrite !not_elem_of_cons in Hn.
  destruct Hn as (? & ? & ? & ? & ? & ? & ? & ? & ? & ? & ? & _).
  rewrite !(proj2 (Z.eqb_neq d _)) by done. done.
Qed.

(** The control characters, one by one. *)
Lemma control_char_decodes c rest :
  0 ≤ c < 32 → ∃ e r, escape_char config c = chr_bs :: e :: r ∧ e ≠ chr_N ∧
    (chr_lf ∉ e :: r) ∧ escape_sequence ((e :: r) ++ rest) = Ok (c, rest).
Proof.
  intros Hc.
  assert (Exists (eq c) (seqZ 0 32)) as Hin by (apply Exists_exists; exists c; rewrite elem_of_seqZ; lia).
  vm_compute in Hin.
  repeat (apply Exists_cons in Hin as [->|Hin];
    [do 2 eexists; split; [reflexivity|]; split; [by vm_compute|]; split; [|reflexivity];
     eapply bool_decide_unpack; by vm_compute|]).
  by apply Exists_nil in Hin.
Qed.

(** The text of a character is itself or an escape sequence for it. *)
Lemma escape_char_cases c :
  is_byte c →
  escape_char config c = [c] ∧ (c ∉ [chr_bs; d; chr_lf; chr_cr]) ∨
  ∃ e r, escape_char config c = chr_bs :: e :: r ∧ e ≠ chr_N ∧ (chr_lf ∉ e :: r) ∧
    ∀ rest, escape_sequence ((e :: r) ++ rest) = Ok (c, rest).
Proof using Hd.
  intros Hc. cbn beta in Hc. destruct (decide (c < 32)) as [Hlt|Hge].
  - right. destruct (control_char_decodes c [] ltac:(lia)) as (e & r & He & HN & Hl & _).
    exists e, r. split_and!; try done. intros rest.
    destruct (control_char_decodes c rest ltac:(lia)) as (e' & r' & He' & _ & _ & ?). congruence.
  - unfold escape_char. rewrite (proj2 (Z.ltb_ge c 32)), is_terminator_iff by lia.
    destruct Hd as (Hb & _ & Hn). rewrite !not_elem_of_cons in Hn.
    destruct (Z.eqb_spec c chr_bs) as [->|Hbs]; cbn [orb].
    + right. exists chr_bs, []. split_and!; try done. unfold chr_lf, chr_bs. set_solver.
    + destruct (Z.eqb_spec c d) as [->|Hcd].
      * right. exists d, []. split_and!; [done|apply Hn| |apply delimiter_escape].
        apply not_elem_of_cons. split; [|apply not_elem_of_nil]. destruct Hn as (_ & ? & _). congruence.
      * left. split; [done|]. rewrite !not_elem_of_cons. unfold chr_lf, chr_cr.
        split_and!; try done; [lia|lia|apply not_elem_of_nil].
Qed.
Lemma escape_char_line c : is_byte c → line (escape_char config c).
Proof using Hd.
  intros Hc. destruct (escape_char_cases c Hc) as [[-> Hn]|(e & r & -> & _ & Hl & _)].
  - rewrite !not_elem_of_cons in Hn. apply not_elem_of_cons.
    split; [|apply not_elem_of_nil]. destruct Hn as (_ & _ & ? & _). congruence.
  - apply not_elem_of_cons. by split.
Qed.

(** One turn of the loop for each character. *)
Lemma escape_char_loop fuel c rest field :
  is_byte c →
  escape_loop d (S fuel) (escape_char config c ++ rest) field =
    escape_loop d fuel rest (field ++ [c]).
Proof using Hd.
  intros Hc. destruct (escape_char_cases c Hc) as [[-> Hn]|(e & r & -> & _ & _ & Hs)].
  - rewrite !not_elem_of_cons in Hn. destruct Hn as (? & ? & ? & ? & _).
    cbn. by rewrite !(proj2 (Z.eqb_neq c _)) by done.
  - specialize (Hs rest). cbn in *. by rewrite Hs.
Qed.

(** The text of a field before a delimiter or the end of the line. *)
Lemma escaped_field_loop fuel f t rest field :
  Forall is_byte f → t = d ∨ t = chr_lf → (length f < fuel)%nat →
  escape_loop d fuel ((f ≫= escape_char config) ++ t :: rest) field =
    Ok (t =? chr_lf, field ++ f, rest).
Proof using Hd.
  intros Hf Ht. revert fuel field. induction Hf as [|c f Hc Hf IH]; intros fuel field Hfuel;
    (destruct fuel as [|fuel]; [cbn in Hfuel; lia|]).
  - destruct Hd as (_ & _ & Hn). rewrite !not_elem_of_cons in Hn. cbn.
    rewrite app_nil_r. destruct Ht as [-> | ->].
    + rewrite Z.eqb_refl, !(proj2 (Z.eqb_neq d _)) by apply Hn. done.
    + destruct (Z.eqb_spec chr_lf d) as [E|_]; [|done]. by destruct Hn as (_ & [] & _).
  - change ((c :: f) ≫= escape_char config)
      with (escape_char config c ++ (f ≫= escape_char config)).
    rewrite <- app_assoc, escape_char_loop by done. rewrite IH by (cbn in Hfuel; lia).
    by rewrite <- app_assoc.
Qed.
Context (Hesc : escape_strings_ config = true).

Lemma escapeTextField_chars f :
  Forall is_byte f → f ≠ [chr_bs; chr_N] → escapeTextField config f = f ≫= escape_char config.
Proof using Hd Hesc.
  intros Hf Hn. unfold escapeTextField. rewrite Hesc, bool_decide_false by done. cbn [negb orb].
  destruct (existsb _ f) eqn:E; [done|]. clear Hn. symmetry.
  induction Hf as [|c f Hc Hf IH]; [done|]. cbn in E |- *.
  apply orb_false_iff in E as [E1 E2]. rewrite IH by done.
  apply orb_false_iff in E1 as [E1 E3]. apply orb_false_iff in E1 as [E1 E4].
  unfold escape_char. by rewrite E1, E3, E4.
Qed.

Lemma escapeTextField_null : escapeTextField config [chr_bs; chr_N] = [chr_bs; chr_N].
Proof. unfold escapeTextField. by rewrite orb_true_r. Qed.

Lemma escaped_not_null f t rest :
  Forall is_byte f → t = d ∨ t = chr_lf →
  null_literal d true ((f ≫= escape_char config) ++ t :: rest) = Ok None.
Proof using Hd.
  intros Hf Ht. unfold null_literal. destruct Hf as [|c f Hc Hf].
  - cbn. destruct Hd as (_ & _ & Hn). rewrite !not_elem_of_cons in Hn.
    destruct Ht as [-> | ->]; [|done]. by rewrite (proj2 (Z.eqb_neq d _)) by apply Hn.
  - change ((c :: f) ≫= escape_char config)
      with (escape_char config c ++ (f ≫= escape_char config)). rewrite <- app_assoc.
    destruct (escape_char_cases c Hc) as [[-> Hn]|(e & r & -> & HN & _ & _)].
    + rewrite !not_elem_of_cons in Hn. cbn. by rewrite (proj2 (Z.eqb_neq c _)) by apply Hn.
    + cbn. by rewrite (proj2 (Z.eqb_neq e _)) by done.
Qed.

Lemma escape_chars_length f : (length f ≤ length (f ≫= escape_char config))%nat.
Proof.
  induction f as [|c f IH]; [done|]. cbn. rewrite length_app.
  assert (1 ≤ length (escape_char config c))%nat; [|lia].
  unfold escape_char. repeat case_match; cbn; lia.
Qed.

(** A field that was escaped is extracted as it was. *)
Lemma extract_escaped f t rest :
  Forall is_byte f → f ≠ [chr_bs; chr_N] → t = d ∨ t = chr_lf →
  extractFieldString d true (escapeTextField config f ++ t :: rest) =
    Ok (false, t =? chr_lf, f, rest).
Proof using Hd Hesc.
  intros Hf Hn Ht. unfold extractFieldString.
  rewrite escapeTextField_chars, escaped_not_null by done. cbn [mbind outcome_bind].
  rewrite escaped_field_loop; [done|done|done|].
  rewrite length_app. pose proof (escape_chars_length f). cbn. lia.
Qed.

(** The null literal is extracted as such. *)
Lemma extract_null t rest :
  t = d ∨ t = chr_lf →
  extractFieldString d true (escapeTextField config [chr_bs; chr_N] ++ t :: rest) =
    Ok (true, t =? chr_lf, [], rest).
Proof using Hd.
  intros Ht. rewrite escapeTextField_null. unfold extractFieldString, null_literal.
  destruct Hd as (_ & _ & Hn). rewrite !not_elem_of_cons in Hn.
  assert (t ≠ chr_cr) by (destruct Ht as [-> | ->]; [apply Hn|done]).
  assert ((t =? d) || (t =? chr_lf) = true) as Htt.
  { destruct Ht as [-> | ->]; rewrite Z.eqb_refl; [done|apply orb_true_r]. }
  cbn. rewrite (proj2 (Z.eqb_neq t chr_cr)) by done. cbn. by rewrite Htt.
Qed.
(** ** Rows *)

Context (Hnull : null_string_ config = [chr_bs; chr_N]).
Context {V : Type}.
Implicit Types relation : list (Attribute V).

(** A value that its type prints and parses back; its text is not that of the
    null literal.  A null needs a nullable type. *)
Definition exportable_value (attr : Attribute V) (v : option V) : Prop :=
  match v with
  | None => attr_nullable attr = true
  | Some v => ∃ s, attr_print attr v = Ok s ∧ Forall is_byte s ∧ s ≠ [chr_bs; chr_N] ∧
      attr_parse attr s = Ok (Some v)
  end.

(** A row of one empty text is excluded: it would be an empty line. *)
Definition exportable relation (tuple : list (option V)) : Prop :=
  Forall2 exportable_value relation tuple ∧ relation ≠ [] ∧
  value_texts config relation tuple ≠ Ok [[]].

Abbreviation row_text texts := (writeEachToString config (escapeTextField config) texts []).

Lemma row_text_cons t t' ts :
  row_text (t :: t' :: ts) = escapeTextField config t ++ d :: row_text (t' :: ts).
Proof. done. Qed.

Lemma text_line s :
  Forall is_byte s → line (escapeTextField config s).
Proof using Hd Hesc.
  intros Hs. destruct (decide (s = [chr_bs; chr_N])) as [->|Hn].
  { rewrite escapeTextField_null. eapply bool_decide_unpack. by vm_compute. }
  rewrite escapeTextField_chars by done. intros (c & Hin & Hc)%list_elem_of_bind.
  rewrite Forall_forall in Hs. by eapply escape_char_line, Hin; apply Hs.
Qed.

Lemma text_head s c r :
  Forall is_byte s → escapeTextField config s = c :: r → c ≠ chr_cr.
Proof using Hd Hesc.
  intros Hs E. destruct (decide (s = [chr_bs; chr_N])) as [->|Hn].
  { rewrite escapeTextField_null in E. injection E as <- <-. done. }
  rewrite escapeTextField_chars in E by done. destruct Hs as [|x s Hx Hs]; [done|].
  cbn in E. destruct (escape_char_cases x Hx) as [[Hc Hin]|(e & r' & Hc & _)];
    rewrite Hc in E; injection E as <- <-; [|done].
  rewrite !not_elem_of_cons in Hin. apply Hin.
Qed.

(** A field in the loop over the attributes. *)
Lemma exported_field attr v :
  exportable_value attr v → ∃ s,
  match v with
  | None => s = null_string_ config
  | Some v => attr_print attr v = Ok s
  end ∧ Forall is_byte s ∧
  ∀ relation vs t rest, t = d ∨ t = chr_lf →
    parse_attributes d true (attr :: relation) false vs (escapeTextField config s ++ t :: rest)
    = parse_attributes d true relation (t =? chr_lf) (vs ++ [v]) rest.
Proof using Hd Hesc Hnull.
  destruct v as [v|]; cbn [exportable_value].
  - intros (s & Hp & Hb & Hn & Hparse). exists s. split_and!; try done.
    intros relation vs t rest Ht. cbn [parse_attributes].
    rewrite extract_escaped by done. cbn [mbind outcome_bind]. by rewrite Hparse.
  - intros Ha. exists [chr_bs; chr_N]. split_and!; [done| |].
    { unfold chr_bs, chr_N. repeat constructor; lia. }
    intros relation vs t rest Ht. cbn [parse_attributes].
    rewrite extract_null by done. cbn [mbind outcome_bind]. by rewrite Ha.
Qed.

Lemma exported_row relation tuple :
  Forall2 exportable_value relation tuple → relation ≠ [] → ∃ texts,
  value_texts config relation tuple = Ok texts ∧ texts ≠ [] ∧
  Forall (Forall is_byte) texts ∧
  ∀ vs rest, parse_attributes d true relation false vs (row_text texts ++ chr_lf :: rest)
    = Ok (false, vs ++ tuple, rest).
Proof using Hd Hesc Hnull.
  induction 1 as [|attr v relation tuple Hv HF IH]; intros Hne; [done|].
  destruct (exported_field attr v Hv) as (s & Htext & Hb & Hstep).
  assert (∀ texts, value_texts config relation tuple = Ok texts →
    value_texts config (attr :: relation) (v :: tuple) = Ok (s :: texts)) as Htexts.
  { intros texts Ht. cbn. destruct v as [v|]; cbn; [rewrite Htext|rewrite <- Htext]; cbn;
      rewrite ?drop_0; by rewrite Ht. }
  destruct (decide (relation = [])) as [->|Hr].
  - inversion HF; subst. exists [s]. split; [by apply Htexts|]. split; [done|].
    split; [by repeat constructor|]. intros vs rest. cbn [writeEachToString app mbind list_bind].
    rewrite app_nil_r, Hstep by auto. done.
  - destruct (IH Hr) as (texts & Ht & Hn & Hbs & Hparse). exists (s :: texts).
    split; [by apply Htexts|]. split; [done|]. split; [by constructor|]. intros vs rest.
    destruct texts as [|t texts]; [done|]. rewrite row_text_cons, <- app_assoc. cbn [app].
    rewrite Hstep by auto. destruct Hd as (_ & _ & Hd'). rewrite !not_elem_of_cons in Hd'.
    rewrite (proj2 (Z.eqb_neq d chr_lf)) by apply Hd'. rewrite Hparse. by rewrite <- app_assoc.
Qed.
Lemma row_text_line texts : Forall (Forall is_byte) texts → line (row_text texts).
Proof using Hd Hesc.
  induction 1 as [|t texts Ht Hts IH]; [apply not_elem_of_nil|].
  destruct texts as [|t' texts].
  - cbn. rewrite app_nil_r. by apply text_line.
  - rewrite row_text_cons. intros [Hin|[Hin|Hin]%elem_of_cons]%elem_of_app.
    + by eapply text_line.
    + destruct Hd as (_ & _ & Hn). rewrite !not_elem_of_cons in Hn.
      by destruct Hn as (_ & [] & _).
    + by apply IH.
Qed.

(** An exported row is a good line, with its tuple. *)
Lemma exported_good_row relation tuple :
  exportable relation tuple → ∃ texts,
  value_texts config relation tuple = Ok texts ∧
  good_row d true relation (row_text texts) ∧
  row_tuples d true relation (row_text texts) = [tuple].
Proof using Hd Hesc Hnull.
  intros (HF & Hne & Hempty). destruct (exported_row relation tuple HF Hne)
    as (texts & Ht & Hn & Hb & Hparse).
  exists texts. split; [done|]. specialize (Hparse [] []).
  assert (∃ c l, row_text texts = c :: l ∧ c ≠ chr_cr) as Hhead.
  { destruct texts as [|t texts]; [done|]. apply Forall_cons in Hb as [Hb _].
    destruct (escapeTextField config t) as [|c r] eqn:E.
    - destruct texts as [|t' texts].
      + destruct t as [|x t]; [congruence|]. exfalso. revert E.
        destruct (decide (x :: t = [chr_bs; chr_N])) as [->|Hx]; [by rewrite escapeTextField_null|].
        rewrite escapeTextField_chars by done. pose proof (escape_chars_length (x :: t)) as Hl.
        intros E. rewrite E in Hl. cbn in Hl. lia.
      + rewrite row_text_cons, E. do 2 eexists. split; [done|].
        destruct Hd as (_ & _ & Hn'). rewrite !not_elem_of_cons in Hn'. apply Hn'.
    - cbn [writeEachToString app]. rewrite E. do 2 eexists. split; [done|]. by eapply text_head. }
  split.
  - split; [by apply row_text_line|]. split; [done|]. by do 2 eexists.
  - apply (row_tuples_parsed _ _ _ _ _ []); [|done].
    destruct Hhead as (c & l & Hrow & _). by rewrite Hrow.
Qed.

(** ** Files *)

Lemma write_rows_unlines relation tuples :
  Forall (exportable relation) tuples → ∃ rows,
  (∀ output, write_rows config (escapeTextField config) relation tuples output
     = Ok (output ++ unlines rows)) ∧
  Forall (good_row d true relation) rows ∧ (rows ≫= row_tuples d true relation) = tuples.
Proof using Hd Hesc Hnull.
  induction 1 as [|tuple tuples Ht _ IH].
  - exists []. split; [intros output; cbn; by rewrite app_nil_r|by split].
  - destruct IH as (rows & Hw & Hg & Hr).
    destruct (exported_good_row relation tuple Ht) as (texts & Hv & Hgood & Htuple).
    exists (row_text texts :: rows). split; [|split].
    + intros output. cbn [write_rows]. rewrite Hv. cbn [mbind outcome_bind]. rewrite Hw. f_equal.
      unfold unlines. cbn. destruct texts as [|t ts]; cbn; rewrite <- ?app_assoc; [done|].
      by rewrite <- ?app_assoc.
    + by constructor.
    + cbn. by rewrite Htuple, Hr.
Qed.

Lemma export_unlines (Hformat : format_ config = kText) relation blocks :
  Forall (Forall (exportable relation)) blocks → ∃ texts rows,
  mapM (export_block config relation false) blocks = Ok texts ∧
  concat texts = text_of (rows ++ [[]]) ∧
  Forall (good_row d true relation) rows ∧ (rows ≫= row_tuples d true relation) = concat blocks.
Proof using Hd Hesc Hnull.
  induction 1 as [|b blocks Hb _ IH]; [by exists [], []|].
  destruct IH as (texts & rows & Hm & Hc & Hg & Hr).
  destruct (write_rows_unlines relation b Hb) as (rows' & Hw & Hg' & Hr').
  exists (unlines rows' :: texts), (rows' ++ rows). split; [|split; [|split]].
  - apply mapM_Ok_cons; [|done]. unfold export_block, writeToString. by rewrite Hformat, Hw.
  - cbn. rewrite Hc, <- app_assoc. symmetry. apply text_of_app. by destruct rows.
  - by apply Forall_app.
  - by rewrite bind_app, Hr, Hr'.
Qed.
End escape.

(** ** Properties *)

(** C27. A table that is exported as text and scanned again has the same
    tuples: the texts of the blocks can be written, and when the file holds
    them one after the other, the work orders of a text scan with the same
    options insert the tuples of the blocks, in order, whatever the size of the
    segments.  Strings are escaped and the null string is [\N]; the delimiter
    must stand for itself after a backslash; each value must be one that its
    type reads back from what it prints, and whose text is not the null
    literal; and no row is a single empty text, which would be an empty line. *)
Theorem export_import_round_trip {V} (relation : list (Attribute V)) config blocks :
  format_ config = kText → escape_strings_ config = true →
  null_string_ config = [chr_bs; chr_N] → plain_delimiter (delimiter_ config) →
  Forall (Forall (exportable config relation)) blocks → ∃ texts,
  mapM (export_block config relation false) blocks = Ok texts ∧
  ∀ fs file op size, fs file = Some (concat texts) → size ≠ 0%nat →
    ts_options op = config → ts_work_generated op = false → ∃ ws op' cs rs,
    ts_getAllWorkOrders size fs [file] op = Ok (ws, true, op') ∧
    mapM (work_columns relation fs) ws = Ok cs ∧
    Forall2 (inserts relation) cs rs ∧ concat rs = concat blocks.
Proof.
  intros Hformat Hesc Hnull Hd Hb.
  destruct (export_unlines config Hd Hesc Hnull Hformat relation blocks Hb)
    as (texts & rows & Hm & Hc & Hg & Hr).
  exists texts. split; [done|]. intros fs file op size Hfs Hs Hop Hgen.
  destruct (scan_files_rows relation fs op size [file] (λ _, rows ++ [[]]) Hs)
    as (ws & cs & rs & Hws & Hcs & HF & Hcat).
  { constructor; [|constructor]. exists rows, []. rewrite Hop, Hesc. split; [done|].
    split; [split; [done|by left]|]. by rewrite <- Hc. }
  unfold ts_getAllWorkOrders. cbn [length Nat.eqb negb check mbind outcome_bind].
  rewrite Hgen, Hws. cbn [mbind outcome_bind]. do 4 eexists. split_and!; [done..|].
  rewrite Hcat, Hop, Hesc. cbn. rewrite app_nil_r, bind_app. cbn. by rewrite app_nil_r.
Qed.

(** ** A concrete export *)

Definition text_options : BulkIoConfiguration := initializeDefaultParameters kText.
Definition sample_blocks : list (list (list (option (Z + list Z)))) :=
  [[[Some (inl 7); Some (inr [97; 9; 10; 92; 1; 0])]; [None; Some (inr [0])]];
   [[Some (inl (-12)); Some (inr [200; 78; 0])]]].

Lemma sample_exportable :
  Forall (Forall (exportable text_options sample_relation)) sample_blocks.
Proof.
  repeat (apply Forall_cons; split || apply Forall_nil); try done.
  all: split; [|split; [done|by vm_compute]].
  all: repeat (apply Forall2_cons; split || apply Forall2_nil); try done.
  all: eexists; split; [by vm_compute|]; split; [|split; [done|by vm_compute]].
  all: eapply bool_decide_unpack; by vm_compute.
Qed.

Lemma export_import_round_trip_witness : ∃ texts,
  mapM (export_block text_options sample_relation false) sample_blocks = Ok texts ∧
  concat texts = [55; 9; 97; 92; 116; 92; 110; 92; 92; 92; 120; 48; 49; 10;
                  92; 78; 9; 10; 45; 49; 50; 9; 200; 78; 10] ∧
  ∃ ws op' cs rs,
    ts_getAllWorkOrders 4 (λ _, Some (concat texts)) ["t"%string] sample_scan = Ok (ws, true, op') ∧
    mapM (work_columns sample_relation (λ _, Some (concat texts))) ws = Ok cs ∧
    Forall2 (inserts sample_relation) cs rs ∧ concat rs = concat sample_blocks.
Proof.
  destruct (export_import_round_trip sample_relation text_options sample_blocks)
    as (texts & Hm & Hscan); [done|done|done| |apply sample_exportable|].
  { split; [done|]. split; [done|]. eapply bool_decide_unpack. by vm_compute. }
  exists texts. split; [done|]. split; [|by apply Hscan].
  vm_compute in Hm. by injection Hm as <-.
Defined.

(** ** The edges *)

Definition int_attribute : Attribute Z :=
  {| attr_name := [110]; attr_nullable := false;
     attr_parse := int_parseValueFromString;
     attr_print v := Ok (int_printValueToString v) |}.
Definition text_attribute : Attribute (list Z) :=
  {| attr_name := [115]; attr_nullable := true;
     attr_parse s := Ok (Some s); attr_print s := Ok s |}.

(** The newline of a row has been read when its last field turns out to be
    faulty, and [skipFaultyRow] skips a second line. *)
Lemma faulty_last_field {V} term esc (attr : Attribute V) p field rest :
  extractFieldString term esc p = Ok (false, true, field, rest) →
  attr_parse attr field = Ok None →
  parseRow term esc [attr] p = leave_faulty [None] rest.
Proof. intros He Hp. unfold parseRow. cbn [parse_attributes]. rewrite He. cbn. by rewrite Hp. Qed.

(** So the good row [5] after the faulty row [x] is lost, and a faulty row at
    the end reads past the text. *)
Lemma faulty_row_takes_the_next :
  scan_segment 9 true [int_attribute] (Some [120; 10; 53; 10; 55; 10]) 0 6 = Ok (Some [[Some 7]]) ∧
  scan_segment 9 true [int_attribute] (Some [55; 10; 120; 10]) 0 4 = Err UndefinedBehaviour ∧
  scan_segment 9 true [int_attribute] (Some [55; 10; 120]) 0 3 = Err UndefinedBehaviour.
Proof. by vm_compute. Qed.

(** An empty line is skipped, unless it comes right after the last newline of
    a segment. *)
Lemma empty_line_depends_on_segments :
  let text := [97; 10; 10; 98; 10] in
  scan_segment 9 true [text_attribute] (Some text) 0 5 = Ok (Some [[Some [97]]; [Some [98]]]) ∧
  mapM (λ s, scan_segment 9 true [text_attribute] (Some text) s.1 s.2) (file_segments 2 5)
    = Ok [Some [[Some [97]]; [Some []]]; Some [[Some [98]]]; Some []].
Proof. by vm_compute. Qed.

(** A string that is the null literal is exported as it is, and becomes a
    null. *)
Lemma null_literal_text :
  ∃ text, export_block text_options [text_attribute] false [[Some [chr_bs; chr_N]]] = Ok text ∧
  scan_segment 9 true [text_attribute] (Some text) 0 (length text) = Ok (Some [[None]]).
Proof. eexists. split; [reflexivity|]. by vm_compute. Qed.

(** A delimiter above 127 is negative as a [char] and never equal to the
    unsigned character of the text, so it is not escaped. *)
Lemma high_delimiter_not_escaped config :
  128 ≤ delimiter_ config < 256 → escapeTextField config [delimiter_ config] = [delimiter_ config].
Proof.
  intros Hd. unfold escapeTextField. case_match; [done|]. cbn.
  unfold is_terminator. rewrite (proj2 (Z.leb_le 128 _)) by lia.
  rewrite (proj2 (Z.eqb_neq _ (_ - 256))) by lia.
  rewrite (proj2 (Z.ltb_ge _ 32)) by lia.
  rewrite (proj2 (Z.eqb_neq _ chr_bs)); [done|]. unfold chr_bs. lia.
Qed.

(** ** CSV *)

(** A field of a CSV file as RFC 4180 reads it: a quoted field ends at its
    closing quote, and a doubled quote in it stands for a quote. *)
Fixpoint csv_quoted (q : Z) (s : list Z) : option (list Z) :=
  match s with
  | [] => None
  | c :: s' =>
      if c =? q then
        match s' with
        | [] => Some []
        | c' :: s'' => if c' =? q then cons q <$> csv_quoted q s'' else None
        end
      else cons c <$> csv_quoted q s'
  end.
Definition csv_field (q : Z) (s : list Z) : option (list Z) :=
  match s with
  | c :: s' => if c =? q then csv_quoted q s' else Some s
  | [] => Some []
  end.

Lemma csv_quoted_doubled q f :
  csv_quoted q ((f ≫= λ c, if c =? q then [c; c] else [c]) ++ [q]) = Some f.
Proof.
  induction f as [|c f IH]; cbn; [by rewrite Z.eqb_refl|].
  destruct (c =? q) eqn:E; cbn; rewrite !E; [apply Z.eqb_eq in E as ->|]; by rewrite IH.
Qed.

(** Quoting loses nothing. *)
Lemma quoteCSVField_read config f : csv_field (quote_ config) (quoteCSVField config f) = Some f.
Proof.
  unfold quoteCSVField. destruct (existsb _ f) eqn:E; cbn.
  - rewrite Z.eqb_refl. apply csv_quoted_doubled.
  - destruct f as [|c f]; [done|]. cbn in *. apply orb_false_iff in E as [E _].
    apply orb_false_iff in E as [E _]. apply orb_false_iff in E as [_ E]. by rewrite E.
Qed.
