(* ===== verification/EvictionPolicy.v ===== *)
(** * Eviction policies

    Models storage/EvictionPolicy.{hpp,cpp}: the abstract class as the
    interface [EvictionPolicyOps], its contract as [EvictionPolicyLaws], and the
    three implementations.  The contract is an abstract policy, a map from the
    blocks in the buffer pool to the number of references to them.  Each member
    function takes the mutexes of its object for its whole duration, so a call
    is one step.  The order in which an [unordered_set] is traversed, the
    readings of the clock and the random numbers are parameters.  Times are
    counted in nanoseconds and durations in the 64 bits of the clock, where they
    wrap around: C++ leaves that undefined, and [created_block_overflows] shows
    that it happens. *)

From S2P Require Import Prelude.
From stdpp Require Import options.

(** The member functions.  [nonreferenced_size] is the size of
    [nonreferenced_blocks_], which every implementation has. *)
Class EvictionPolicyOps (P : Type) := {
  chooseBlockToEvict : P → outcome (option nat * P);
  blockCreated : nat → P → outcome P;
  blockEvicted : nat → P → outcome P;
  blockReferenced : nat → P → outcome P;
  blockUnreferenced : nat → P → outcome P;
  blockDeleted : nat → P → outcome P;
  getRefCount : nat → P → outcome (N * P);
  nonreferenced_size : P → nat;
}.

(** An [unsigned int] has 32 bits. *)
Definition uint32 (n : N) : N := (n mod 2 ^ 32)%N.
Definition uint32_pred (n : N) : N := uint32 (n + 2 ^ 32 - 1)%N.

(** ** Any block *)

Record EvictAny := {
  ea_ref_counts : gmap nat N;
  ea_nonreferenced : gset nat;
}.

(** [ref_counts_[block]] inserts a zero when there is no entry. *)
Definition count_of (counts : gmap nat N) (block : nat) : N := default 0%N (counts !! block).

Section any.
Context `{!HashOrder nat}.

Definition any_chooseBlockToEvict (p : EvictAny) : outcome (option nat * EvictAny) :=
  match set_iter (ea_nonreferenced p) with
  | [] => Ok (None, p)
  | it :: _ =>
      Ok (Some it, {| ea_ref_counts := delete it (ea_ref_counts p);
                      ea_nonreferenced := ea_nonreferenced p ∖ {[it]} |})
  end.
Definition any_blockCreated (block : nat) (p : EvictAny) : outcome EvictAny :=
  Ok {| ea_ref_counts := <[block := 0%N]> (ea_ref_counts p);
        ea_nonreferenced := {[block]} ∪ ea_nonreferenced p |}.
Definition any_blockEvicted (block : nat) (p : EvictAny) : outcome EvictAny :=
  Ok {| ea_ref_counts := delete block (ea_ref_counts p);
        ea_nonreferenced := ea_nonreferenced p ∖ {[block]} |}.
Definition any_blockReferenced (block : nat) (p : EvictAny) : outcome EvictAny :=
  let n := count_of (ea_ref_counts p) block in
  Ok {| ea_ref_counts := <[block := uint32 (n + 1)]> (ea_ref_counts p);
        ea_nonreferenced :=
          if (n =? 0)%N then ea_nonreferenced p ∖ {[block]} else ea_nonreferenced p |}.
Definition any_blockUnreferenced (block : nat) (p : EvictAny) : outcome EvictAny :=
  let n := uint32_pred (count_of (ea_ref_counts p) block) in
  Ok {| ea_ref_counts := <[block := n]> (ea_ref_counts p);
        ea_nonreferenced :=
          if (n =? 0)%N then {[block]} ∪ ea_nonreferenced p else ea_nonreferenced p |}.
Definition any_getRefCount (block : nat) (p : EvictAny) : outcome (N * EvictAny) :=
  let n := count_of (ea_ref_counts p) block in
  Ok (n, {| ea_ref_counts := <[block := n]> (ea_ref_counts p);
            ea_nonreferenced := ea_nonreferenced p |}).

(** [blockDeleted] is the one of the base class, which does nothing. *)
#[global] Instance evict_any_ops : EvictionPolicyOps EvictAny := {
  chooseBlockToEvict := any_chooseBlockToEvict;
  blockCreated := any_blockCreated;
  blockEvicted := any_blockEvicted;
  blockReferenced := any_blockReferenced;
  blockUnreferenced := any_blockUnreferenced;
  blockDeleted _ p := Ok p;
  getRefCount := any_getRefCount;
  nonreferenced_size p := size (ea_nonreferenced p);
}.
End any.

(** ** A random block *)

Record UniformRandom := {
  ur_ref_counts : gmap nat N;
  ur_nonreferenced : list nat;
  ur_draws : nat → nat;
  ur_drawn : nat;
}.

Definition ur_update (p : UniformRandom) (counts : gmap nat N) (nonreferenced : list nat)
  : UniformRandom :=
  {| ur_ref_counts := counts; ur_nonreferenced := nonreferenced;
     ur_draws := ur_draws p; ur_drawn := ur_drawn p |}.

(** [v.erase(std::find(v.begin(), v.end(), block))]: erasing [end()] is
    undefined. *)
Fixpoint erase_found (block : nat) (v : list nat) : outcome (list nat) :=
  match v with
  | [] => Err UndefinedBehaviour
  | x :: v' => if decide (x = block) then Ok v' else cons x <$> erase_found block v'
  end.

(** The distribution takes the next number of the generator into its range. *)
Definition random_chooseBlockToEvict (p : UniformRandom)
  : outcome (option nat * UniformRandom) :=
  match ur_nonreferenced p with
  | [] => Ok (None, p)
  | _ =>
      let i := ur_draws p (ur_drawn p) mod length (ur_nonreferenced p) in
      block ← vec_at (ur_nonreferenced p) i;
      Ok (Some block,
          {| ur_ref_counts := delete block (ur_ref_counts p);
             ur_nonreferenced := delete i (ur_nonreferenced p);
             ur_draws := ur_draws p; ur_drawn := S (ur_drawn p) |})
  end.
Definition random_blockCreated (block : nat) (p : UniformRandom) : outcome UniformRandom :=
  Ok (ur_update p (<[block := 0%N]> (ur_ref_counts p)) (ur_nonreferenced p ++ [block])).
Definition random_blockEvicted (block : nat) (p : UniformRandom) : outcome UniformRandom :=
  match ur_ref_counts p !! block with
  | None => Ok p
  | Some _ =>
      v ← erase_found block (ur_nonreferenced p);
      Ok (ur_update p (delete block (ur_ref_counts p)) v)
  end.
Definition random_blockReferenced (block : nat) (p : UniformRandom) : outcome UniformRandom :=
  match ur_ref_counts p !! block with
  | None => Ok (ur_update p (<[block := 1%N]> (ur_ref_counts p)) (ur_nonreferenced p))
  | Some n =>
      let n := uint32 (n + 1) in
      v ← (if (n =? 1)%N then erase_found block (ur_nonreferenced p)
           else Ok (ur_nonreferenced p));
      Ok (ur_update p (<[block := n]> (ur_ref_counts p)) v)
  end.
Definition random_blockUnreferenced (block : nat) (p : UniformRandom) : outcome UniformRandom :=
  let n := uint32_pred (count_of (ur_ref_counts p) block) in
  Ok (ur_update p (<[block := n]> (ur_ref_counts p))
        (if (n =? 0)%N then ur_nonreferenced p ++ [block] else ur_nonreferenced p)).
Definition random_getRefCount (block : nat) (p : UniformRandom) : outcome (N * UniformRandom) :=
  let n := count_of (ur_ref_counts p) block in
  Ok (n, ur_update p (<[block := n]> (ur_ref_counts p)) (ur_nonreferenced p)).

#[global] Instance uniform_random_ops : EvictionPolicyOps UniformRandom := {
  chooseBlockToEvict := random_chooseBlockToEvict;
  blockCreated := random_blockCreated;
  blockEvicted := random_blockEvicted;
  blockReferenced := random_blockReferenced;
  blockUnreferenced := random_blockUnreferenced;
  blockDeleted _ p := Ok p;
  getRefCount := random_getRefCount;
  nonreferenced_size p := length (ur_nonreferenced p);
}.

(** ** LRU-K *)

Definition int64 (z : Z) : Z := ((z + 2 ^ 63) mod 2 ^ 64 - 2 ^ 63)%Z.
(** [time_point::min()] *)
Definition time_min : Z := (- 2 ^ 63)%Z.

Record BlockInfo := {
  ref_list_ : list Z;
  last_reference_ : Z;
  ref_count_ : N;
  in_memory_ : bool;
}.

Record LRUK := {
  lk_blocks : gmap nat BlockInfo;
  lk_nonreferenced : gset nat;
  (** [correlated_reference_period_], in microseconds. *)
  lk_period : Z;
  lk_clock : nat → Z;
  lk_ticks : nat;
}.

Section lruk.
Context (K : nat) `{!HashOrder nat}.

Definition new_BlockInfo : BlockInfo :=
  {| ref_list_ := replicate K time_min; last_reference_ := 0; ref_count_ := 0;
     in_memory_ := false |}.
Definition set_in_memory (b : bool) (info : BlockInfo) : BlockInfo :=
  {| ref_list_ := ref_list_ info; last_reference_ := last_reference_ info;
     ref_count_ := ref_count_ info; in_memory_ := b |}.
Definition set_ref_count (n : N) (info : BlockInfo) : BlockInfo :=
  {| ref_list_ := ref_list_ info; last_reference_ := last_reference_ info;
     ref_count_ := n; in_memory_ := in_memory_ info |}.

(** [duration_cast<microseconds>] rounds towards zero. *)
Definition addReferenceTime (time : Z) (currently_in_memory : bool) (info : BlockInfo)
  : BlockInfo :=
  let older := take (K - 1) (ref_list_ info) in
  let moved :=
    if currently_in_memory then
      let corrl_period :=
        Z.quot (int64 (last_reference_ info - hd time_min (ref_list_ info))) 1000 in
      (λ r, int64 (r + corrl_period * 1000)) <$> older
    else older in
  {| ref_list_ := time :: moved; last_reference_ := last_reference_ info;
     ref_count_ := ref_count_ info; in_memory_ := in_memory_ info |}.

Definition past_period (period time last : Z) : bool := (int64 (time - last) >? period * 1000)%Z.

(** Whether the count was zero, and the new state. *)
Definition blockReferencedHelper (period time : Z) (info : BlockInfo) : bool * BlockInfo :=
  let info1 :=
    if in_memory_ info then
      if past_period period time (last_reference_ info)
      then addReferenceTime time true info else info
    else set_in_memory true (addReferenceTime time false info) in
  ((ref_count_ info =? 0)%N,
   {| ref_list_ := ref_list_ info1; last_reference_ := time;
      ref_count_ := uint32 (ref_count_ info + 1); in_memory_ := in_memory_ info1 |}).

(** [BlockInfoComparator] *)
Definition info_less (period time : Z) (lhs rhs : BlockInfo) : bool :=
  let lhs_past := past_period period time (last_reference_ lhs) in
  let rhs_past := past_period period time (last_reference_ rhs) in
  if Bool.eqb lhs_past rhs_past
  then (List.last (ref_list_ lhs) time_min <? List.last (ref_list_ rhs) time_min)%Z
  else lhs_past.

Definition lruk_update (p : LRUK) (blocks : gmap nat BlockInfo) (nonreferenced : gset nat)
    (ticks : nat) : LRUK :=
  {| lk_blocks := blocks; lk_nonreferenced := nonreferenced; lk_period := lk_period p;
     lk_clock := lk_clock p; lk_ticks := ticks |}.
Abbreviation now p := (lk_clock p (lk_ticks p)).

(** [blocks_[block]] constructs an entry when there is none. *)
Definition info_of (blocks : gmap nat BlockInfo) (block : nat) : BlockInfo :=
  default new_BlockInfo (blocks !! block).

(** The loop over [nonreferenced_blocks_]: the entries, and the smallest block
    so far. *)
Definition scan_nonreferenced (period time : Z) :
    gmap nat BlockInfo * option (nat * BlockInfo) → nat →
    gmap nat BlockInfo * option (nat * BlockInfo) :=
  λ '(blocks, smallest) block,
    let info := info_of blocks block in
    (<[block := info]> blocks,
     if in_memory_ info then
       match smallest with
       | None => Some (block, info)
       | Some (_, least) => if info_less period time info least then Some (block, info) else smallest
       end
     else smallest).

Definition lruk_chooseBlockToEvict (p : LRUK) : outcome (option nat * LRUK) :=
  let '(blocks, smallest) :=
    foldl (scan_nonreferenced (lk_period p) (now p)) (lk_blocks p, None)
      (set_iter (lk_nonreferenced p)) in
  match smallest with
  | None => Ok (None, lruk_update p blocks (lk_nonreferenced p) (S (lk_ticks p)))
  | Some (ret, _) =>
      Ok (Some ret,
          lruk_update p (<[ret := set_in_memory false (info_of blocks ret)]> blocks)
            (lk_nonreferenced p ∖ {[ret]}) (S (lk_ticks p)))
  end.
Definition lruk_blockCreated (block : nat) (p : LRUK) : outcome LRUK :=
  Ok (lruk_update p (<[block := set_in_memory true (info_of (lk_blocks p) block)]> (lk_blocks p))
        ({[block]} ∪ lk_nonreferenced p) (lk_ticks p)).
Definition lruk_blockEvicted (block : nat) (p : LRUK) : outcome LRUK :=
  Ok (lruk_update p (<[block := set_in_memory false (info_of (lk_blocks p) block)]> (lk_blocks p))
        (lk_nonreferenced p ∖ {[block]}) (lk_ticks p)).
(** Known or not, the block is handled alike: an unknown one gets a new entry. *)
Definition lruk_blockReferenced (block : nat) (p : LRUK) : outcome LRUK :=
  let '(was_zero, info) :=
    blockReferencedHelper (lk_period p) (now p) (info_of (lk_blocks p) block) in
  Ok (lruk_update p (<[block := info]> (lk_blocks p))
        (if was_zero then lk_nonreferenced p ∖ {[block]} else lk_nonreferenced p)
        (S (lk_ticks p))).
Definition lruk_blockUnreferenced (block : nat) (p : LRUK) : outcome LRUK :=
  let info := info_of (lk_blocks p) block in
  let n := uint32_pred (ref_count_ info) in
  Ok (lruk_update p (<[block := set_ref_count n info]> (lk_blocks p))
        (if (n =? 0)%N then {[block]} ∪ lk_nonreferenced p else lk_nonreferenced p)
        (lk_ticks p)).
Definition lruk_blockDeleted (block : nat) (p : LRUK) : outcome LRUK :=
  Ok (lruk_update p (delete block (lk_blocks p)) (lk_nonreferenced p ∖ {[block]}) (lk_ticks p)).
Definition lruk_getRefCount (block : nat) (p : LRUK) : outcome (N * LRUK) :=
  let info := info_of (lk_blocks p) block in
  Ok (ref_count_ info,
      lruk_update p (<[block := info]> (lk_blocks p)) (lk_nonreferenced p) (lk_ticks p)).

Definition lruk_ops : EvictionPolicyOps LRUK := {|
  chooseBlockToEvict := lruk_chooseBlockToEvict;
  blockCreated := lruk_blockCreated;
  blockEvicted := lruk_blockEvicted;
  blockReferenced := lruk_blockReferenced;
  blockUnreferenced := lruk_blockUnreferenced;
  blockDeleted := lruk_blockDeleted;
  getRefCount := lruk_getRefCount;
  nonreferenced_size p := size (lk_nonreferenced p);
|}.

Definition new_LRUK (period : Z) (clock : nat → Z) : LRUK :=
  {| lk_blocks := ∅; lk_nonreferenced := ∅; lk_period := period; lk_clock := clock;
     lk_ticks := 0 |}.
End lruk.

(** [ConstructLRUKEvictionPolicy] *)
Definition ConstructLRUKEvictionPolicy (k : nat) (period : Z) (clock : nat → Z)
  : outcome LRUK :=
  if decide (k = 1 ∨ k = 2 ∨ k = 3) then Ok (new_LRUK period clock) else Err CheckFailed.

(** ** The contract *)

(** The abstract policy: the blocks in the buffer pool that it knows of, with
    the numbers of references to them. *)
Class EvictionPolicyLaws (P : Type) `{!EvictionPolicyOps P} := {
  policy_knows : P → gmap nat nat → Prop;
  choose_spec p m : policy_knows p m →
    (∃ p', chooseBlockToEvict p = Ok (None, p') ∧ policy_knows p' m ∧
       ∀ b, m !! b ≠ Some 0) ∨
    (∃ b p', chooseBlockToEvict p = Ok (Some b, p') ∧ m !! b = Some 0 ∧
       policy_knows p' (delete b m) ∧ nonreferenced_size p' < nonreferenced_size p);
  created_spec p m b : policy_knows p m → m !! b = None →
    ∃ p', blockCreated b p = Ok p' ∧ policy_knows p' (<[b := 0]> m);
  evicted_spec p m b : policy_knows p m → m !! b = None ∨ m !! b = Some 0 →
    ∃ p', blockEvicted b p = Ok p' ∧ policy_knows p' (delete b m);
  referenced_spec p m b : policy_knows p m → (N.of_nat (S (default 0%nat (m !! b))) < 2 ^ 32)%N →
    ∃ p', blockReferenced b p = Ok p' ∧ policy_knows p' (<[b := S (default 0 (m !! b))]> m);
  unreferenced_spec p m b n : policy_knows p m → m !! b = Some (S n) →
    (N.of_nat (S n) < 2 ^ 32)%N →
    ∃ p', blockUnreferenced b p = Ok p' ∧ policy_knows p' (<[b := n]> m);
  deleted_spec p m b : policy_knows p m → m !! b = None →
    ∃ p', blockDeleted b p = Ok p' ∧ policy_knows p' m;
  refcount_spec p m b : policy_knows p m →
    ∃ p', getRefCount b p = Ok (N.of_nat (default 0 (m !! b)), p') ∧ policy_knows p' m ∧
      nonreferenced_size p' = nonreferenced_size p;
}.
