(* ===== verification/EvictionPolicyTheorems.v ===== *)
(** * The eviction policies keep their contract

    Evicting any block and LRU-K implement the abstract policy of
    [EvictionPolicyLaws]; LRU-K chooses by the history of references to each
    block, a specification of its own ([BlockHistory]).  The random policy does not: asking for the reference count of
    a block that it has just given up leaves an entry behind. *)

From S2P Require Import Prelude EvictionPolicy.
From stdpp Require Import options.

Lemma uint32_small n : (n < 2 ^ 32)%N → uint32 n = n.
Proof. apply N.mod_small. Qed.

Lemma uint32_pred_S n : (N.of_nat (S n) < 2 ^ 32)%N → uint32_pred (N.of_nat (S n)) = N.of_nat n.
Proof.
  intros Hn. unfold uint32_pred, uint32.
  replace (N.of_nat (S n) + 2 ^ 32 - 1)%N with (N.of_nat n + 1 * 2 ^ 32)%N by lia.
  rewrite N.Div0.mod_add. apply N.mod_small. lia.
Qed.

Lemma of_nat_eqb_0 n : (N.of_nat n =? 0)%N = bool_decide (n = 0).
Proof. apply eq_true_iff_eq. rewrite N.eqb_eq, bool_decide_eq_true. lia. Qed.

(** The unreferenced blocks that a policy knows of. *)
Definition unreferenced_in (s : gset nat) (m : gmap nat nat) : Prop :=
  ∀ b, b ∈ s ↔ m !! b = Some 0.

Lemma unreferenced_remove s m b : unreferenced_in s m → unreferenced_in (s ∖ {[b]}) (delete b m).
Proof.
  intros H b'. rewrite elem_of_difference, elem_of_singleton, (H b'), lookup_delete_Some. naive_solver.
Qed.

Lemma unreferenced_insert s m b n :
  unreferenced_in s m →
  unreferenced_in (if decide (n = 0) then {[b]} ∪ s else s ∖ {[b]}) (<[b := n]> m).
Proof.
  intros H b'. destruct (decide (b = b')) as [<-|Hne].
  - rewrite lookup_insert_eq. case_decide; [subst; set_solver|].
    split; [set_solver|]. congruence.
  - rewrite lookup_insert_ne, <- (H b') by done. case_decide; set_solver.
Qed.

Lemma difference_not_in (s : gset nat) b : b ∉ s → s ∖ {[b]} = s.
Proof. set_solver. Qed.
Lemma union_in (s : gset nat) b : b ∈ s → {[b]} ∪ s = s.
Proof. set_solver. Qed.

(** ** Any block *)

Section any.
Context `{!HashOrder nat}.

Definition any_knows (p : EvictAny) (m : gmap nat nat) : Prop :=
  unreferenced_in (ea_nonreferenced p) m ∧
  ∀ b, count_of (ea_ref_counts p) b = N.of_nat (default 0 (m !! b)).

Lemma count_of_insert c b n b' :
  count_of (<[b := n]> c) b' = if decide (b = b') then n else count_of c b'.
Proof. unfold count_of. case_decide; [subst; by rewrite lookup_insert_eq|by rewrite lookup_insert_ne]. Qed.

Lemma count_of_delete c b b' :
  count_of (delete b c) b' = if decide (b = b') then 0%N else count_of c b'.
Proof. unfold count_of. case_decide; [subst; by rewrite lookup_delete_eq|by rewrite lookup_delete_ne]. Qed.

Lemma default_insert (m : gmap nat nat) b n b' :
  default 0 (<[b := n]> m !! b') = if decide (b = b') then n else default 0 (m !! b').
Proof. case_decide; [subst; by rewrite lookup_insert_eq|by rewrite lookup_insert_ne]. Qed.

Lemma default_delete (m : gmap nat nat) b b' :
  default 0 (delete b m !! b') = if decide (b = b') then 0 else default 0 (m !! b').
Proof. case_decide; [subst; by rewrite lookup_delete_eq|by rewrite lookup_delete_ne]. Qed.

Lemma any_choose p m : any_knows p m →
  (∃ p', any_chooseBlockToEvict p = Ok (None, p') ∧ any_knows p' m ∧ ∀ b, m !! b ≠ Some 0) ∨
  (∃ b p', any_chooseBlockToEvict p = Ok (Some b, p') ∧ m !! b = Some 0 ∧
     any_knows p' (delete b m) ∧
     size (ea_nonreferenced p') < size (ea_nonreferenced p)).
Proof.
  intros [Hs Hc]. unfold any_chooseBlockToEvict.
  destruct (set_iter (ea_nonreferenced p)) as [|b l] eqn:E.
  - left. exists p. split; [done|]. split; [done|]. intros b Hb%Hs.
    apply elem_of_set_iter in Hb. rewrite E in Hb. by apply elem_of_nil in Hb.
  - right. assert (b ∈ ea_nonreferenced p) as Hb.
    { apply elem_of_set_iter. rewrite E. left. }
    exists b. eexists. split; [done|]. split; [by apply Hs|]. split; [split|].
    + by apply unreferenced_remove.
    + intros b'. cbn. rewrite count_of_delete, default_delete. by case_decide.
    + cbn. apply subset_size. set_solver.
Qed.

#[global] Instance evict_any_laws : EvictionPolicyLaws EvictAny.
Proof.
  refine {| policy_knows := any_knows; choose_spec := any_choose |}.
  - intros p m b [Hs Hc] Hb. eexists. split; [done|]. split; cbn.
    + exact (unreferenced_insert _ _ b 0 Hs).
    + intros b'. rewrite count_of_insert, default_insert. by case_decide.
  - intros p m b [Hs Hc] _. eexists. split; [done|]. split; cbn.
    + by apply unreferenced_remove.
    + intros b'. rewrite count_of_delete, default_delete. by case_decide.
  - intros p m b [Hs Hc] Hlt. eexists. split; [done|]. rewrite Hc. split; cbn.
    + rewrite of_nat_eqb_0. pose proof (unreferenced_insert _ _ b (S (default 0 (m !! b))) Hs) as H.
      cbn in H. case_bool_decide as Hz; [done|]. rewrite difference_not_in in H; [done|].
      rewrite (Hs b). intros E. by rewrite E in Hz.
    + intros b'. rewrite count_of_insert, default_insert. case_decide; [|done].
      rewrite uint32_small by lia. lia.
  - intros p m b n [Hs Hc] Hb Hlt. eexists. split; [done|].
    rewrite Hc, Hb. cbn [default]. unfold id. rewrite uint32_pred_S by done. split; cbn.
    + rewrite of_nat_eqb_0. pose proof (unreferenced_insert _ _ b n Hs) as H.
      case_bool_decide as Hz; case_decide; try done.
      rewrite difference_not_in in H; [done|]. rewrite (Hs b), Hb. naive_solver.
    + intros b'. rewrite count_of_insert, default_insert. by case_decide.
  - intros p m b Hp _. by exists p.
  - intros p m b [Hs Hc]. eexists. cbn. unfold any_getRefCount. rewrite Hc. split; [done|].
    split; [split; [done|]|done]. intros b'. cbn. rewrite count_of_insert.
    case_decide; [by subst|done].
Defined.
End any.

(** ** LRU-K *)

Section lruk.
Context (K : nat) `{!HashOrder nat}.
Abbreviation info_of := (info_of K).

Lemma info_of_insert blocks b info b' :
  info_of (<[b := info]> blocks) b' = if decide (b = b') then info else info_of blocks b'.
Proof.
  unfold EvictionPolicy.info_of.
  case_decide; [subst; by rewrite lookup_insert_eq|by rewrite lookup_insert_ne].
Qed.

Lemma info_of_delete blocks b b' :
  info_of (delete b blocks) b' = if decide (b = b') then new_BlockInfo K else info_of blocks b'.
Proof.
  unfold EvictionPolicy.info_of.
  case_decide; [subst; by rewrite lookup_delete_eq|by rewrite lookup_delete_ne].
Qed.

Lemma info_of_touch blocks b b' : info_of (<[b := info_of blocks b]> blocks) b' = info_of blocks b'.
Proof. rewrite info_of_insert. case_decide; by subst. Qed.

(** The order that the scan keeps. *)
Definition evict_before (period time : Z) (i j : BlockInfo) : Prop :=
  info_less period time j i = false.

Lemma evict_before_trans period time i j k :
  evict_before period time i j → evict_before period time j k → evict_before period time i k.
Proof.
  unfold evict_before, info_less.
  destruct (past_period _ _ (last_reference_ i)), (past_period _ _ (last_reference_ j)),
    (past_period _ _ (last_reference_ k)); cbn; try done; rewrite !Z.ltb_ge; lia.
Qed.

Lemma info_less_before period time i j :
  info_less period time i j = true → evict_before period time i j.
Proof.
  unfold evict_before, info_less.
  destruct (past_period _ _ (last_reference_ i)), (past_period _ _ (last_reference_ j));
    cbn; try done; rewrite Z.ltb_lt, Z.ltb_ge; lia.
Qed.

Lemma evict_before_refl period time i : evict_before period time i i.
Proof. unfold evict_before, info_less. rewrite eqb_reflx, Z.ltb_ge. lia. Qed.

(** What the loop has found after some blocks. *)
Definition scanned (period time : Z) (blocks : gmap nat BlockInfo) (seen : list nat)
    (smallest : option (nat * BlockInfo)) : Prop :=
  match smallest with
  | None => seen = []
  | Some (b, info) =>
      b ∈ seen ∧ info = info_of blocks b ∧
      ∀ x, x ∈ seen → evict_before period time info (info_of blocks x)
  end.

Lemma scan_spec period time blocks l seen smallest blocks0 :
  (∀ b, info_of blocks b = info_of blocks0 b) →
  (∀ x, x ∈ l → in_memory_ (info_of blocks0 x) = true) →
  scanned period time blocks0 seen smallest →
  let '(blocks', smallest') :=
    foldl (scan_nonreferenced K period time) (blocks, smallest) l in
  (∀ b, info_of blocks' b = info_of blocks0 b) ∧
  scanned period time blocks0 (seen ++ l) smallest'.
Proof.
  revert blocks seen smallest. induction l as [|b l IH]; intros blocks seen smallest Hb Hl Hs.
  { cbn. by rewrite app_nil_r. }
  cbn [foldl scan_nonreferenced]. rewrite Hb, (Hl b) by left.
  replace (seen ++ b :: l) with ((seen ++ [b]) ++ l) by by rewrite <- app_assoc.
  apply IH.
  - intros b'. rewrite info_of_insert. case_decide; [by subst|done].
  - intros x Hx. apply Hl. by right.
  - destruct smallest as [[b0 least]|]; cbn in Hs.
    + destruct Hs as (Hb0 & -> & Hmin).
      destruct (info_less period time (info_of blocks0 b) (info_of blocks0 b0)) eqn:E; cbn.
      * split; [set_solver|]. split; [done|]. intros x [Hx| ->%list_elem_of_singleton]%elem_of_app.
        -- eapply evict_before_trans; [by apply info_less_before|]. by apply Hmin.
        -- apply evict_before_refl.
      * split; [set_solver|]. split; [done|]. intros x [Hx| ->%list_elem_of_singleton]%elem_of_app.
        -- by apply Hmin.
        -- exact E.
    + subst seen. cbn. split; [set_solver|]. split; [done|].
      intros x ->%list_elem_of_singleton. apply evict_before_refl.
Qed.

Definition lruk_knows (p : LRUK) (m : gmap nat nat) : Prop :=
  unreferenced_in (lk_nonreferenced p) m ∧
  ∀ b, ref_count_ (info_of (lk_blocks p) b) = N.of_nat (default 0 (m !! b)) ∧
       in_memory_ (info_of (lk_blocks p) b) = bool_decide (is_Some (m !! b)).

(** The block chosen is in the pool, unreferenced, and no other such block
    comes before it. *)
Lemma lruk_choose_least p m : lruk_knows p m →
  (∃ p', lruk_chooseBlockToEvict K p = Ok (None, p') ∧ lruk_knows p' m ∧ ∀ b, m !! b ≠ Some 0) ∨
  (∃ b p', lruk_chooseBlockToEvict K p = Ok (Some b, p') ∧ m !! b = Some 0 ∧
     lruk_knows p' (delete b m) ∧
     size (lk_nonreferenced p') < size (lk_nonreferenced p) ∧
     ∀ x, m !! x = Some 0 →
       evict_before (lk_period p) (lk_clock p (lk_ticks p))
         (info_of (lk_blocks p) b) (info_of (lk_blocks p) x)).
Proof.
  intros [Hs Hi]. unfold lruk_chooseBlockToEvict.
  pose proof (scan_spec (lk_period p) (lk_clock p (lk_ticks p)) (lk_blocks p)
    (set_iter (lk_nonreferenced p)) [] None (lk_blocks p)) as Hscan.
  destruct (foldl _ _ _) as [blocks smallest].
  destruct Hscan as [Hb Hm]; [done| |done|].
  { intros x Hx%elem_of_set_iter%Hs. rewrite (proj2 (Hi x)), Hx. done. }
  cbn [app] in Hm. destruct smallest as [[b info]|]; cbn in Hm.
  - destruct Hm as (Hin & -> & Hmin). apply elem_of_set_iter in Hin. right. exists b.
    eexists. split; [done|]. split; [by apply Hs|]. split; [split|split]; cbn.
    + by apply unreferenced_remove.
    + intros b'. rewrite info_of_insert, default_delete. case_decide as E.
      * subst b'. cbn. rewrite Hb, (proj1 (Hi b)), lookup_delete_eq.
        apply Hs in Hin. by rewrite Hin.
      * rewrite Hb, lookup_delete_ne by done. apply Hi.
    + apply subset_size. set_solver.
    + intros x Hx%Hs. apply Hmin. by apply elem_of_set_iter.
  - left. eexists. split; [done|]. split; [split; cbn; [done|]|].
    + intros b. rewrite Hb. apply Hi.
    + intros b Hz%Hs. apply elem_of_set_iter in Hz. rewrite Hm in Hz. by apply elem_of_nil in Hz.
Qed.

Lemma helper_count period time info :
  (blockReferencedHelper K period time info).1 = (ref_count_ info =? 0)%N ∧
  ref_count_ (blockReferencedHelper K period time info).2 = uint32 (ref_count_ info + 1) ∧
  in_memory_ (blockReferencedHelper K period time info).2 = true.
Proof.
  unfold blockReferencedHelper. cbn. split; [done|]. split; [done|].
  destruct (in_memory_ info) eqn:E; [|done]. by case_match.
Qed.

Lemma lruk_referenced p m b :
  lruk_knows p m → (N.of_nat (S (default 0%nat (m !! b))) < 2 ^ 32)%N →
  ∃ p', lruk_blockReferenced K b p = Ok p' ∧ lruk_knows p' (<[b := S (default 0 (m !! b))]> m).
Proof.
  intros [Hs Hi] Hlt. destruct (Hi b) as [Hc _]. unfold lruk_blockReferenced.
  destruct (helper_count (lk_period p) (lk_clock p (lk_ticks p)) (info_of (lk_blocks p) b))
    as (H1 & H2 & H3).
  destruct (blockReferencedHelper _ _ _ _) as [was_zero info]. cbn in H1, H2, H3. subst was_zero.
  eexists. split; [done|]. split; cbn.
  - rewrite Hc, of_nat_eqb_0.
    pose proof (unreferenced_insert _ _ b (S (default 0 (m !! b))) Hs) as H. cbn in H.
    case_bool_decide as Hz; [done|]. rewrite difference_not_in in H; [done|].
    rewrite (Hs b). intros E. by rewrite E in Hz.
  - intros b'. rewrite info_of_insert, default_insert. case_decide as E; subst.
    + rewrite H2, H3, Hc, lookup_insert_eq. split; [|by rewrite bool_decide_true].
      rewrite uint32_small by lia. lia.
    + rewrite lookup_insert_ne by done. apply Hi.
Qed.

Lemma lruk_unreferenced p m b n :
  lruk_knows p m → m !! b = Some (S n) → (N.of_nat (S n) < 2 ^ 32)%N →
  ∃ p', lruk_blockUnreferenced K b p = Ok p' ∧ lruk_knows p' (<[b := n]> m).
Proof.
  intros [Hs Hi] Hb Hlt. destruct (Hi b) as [Hc Hm]. rewrite Hb in Hc, Hm. cbn in Hc, Hm.
  unfold lruk_blockUnreferenced. rewrite Hc. change (id (S n)) with (S n).
  rewrite uint32_pred_S by done.
  eexists. split; [done|]. split; cbn.
  - rewrite of_nat_eqb_0. pose proof (unreferenced_insert _ _ b n Hs) as H.
    case_bool_decide as Hz; case_decide; try done.
    rewrite difference_not_in in H; [done|]. rewrite (Hs b), Hb. naive_solver.
  - intros b'. rewrite info_of_insert, default_insert. case_decide as E; subst; cbn.
    + rewrite Hm, lookup_insert_eq. by rewrite !bool_decide_true.
    + rewrite lookup_insert_ne by done. apply Hi.
Qed.

Definition lruk_laws : @EvictionPolicyLaws LRUK (lruk_ops K).
Proof.
  refine (@Build_EvictionPolicyLaws LRUK (lruk_ops K) lruk_knows _ _ _ _ _ _ _); cbn.
  - intros p m Hp. destruct (lruk_choose_least p m Hp) as [?|(b & p' & ? & ? & ? & ? & _)];
      [by left|right; by exists b, p'].
  - intros p m b [Hs Hi] Hb. eexists. split; [done|]. split; cbn.
    + exact (unreferenced_insert _ _ b 0 Hs).
    + intros b'. rewrite info_of_insert, default_insert. case_decide as E; subst; cbn.
      * rewrite (proj1 (Hi b')), Hb, lookup_insert_eq. by rewrite bool_decide_true.
      * rewrite lookup_insert_ne by done. apply Hi.
  - intros p m b [Hs Hi] Hb. eexists. split; [done|]. split; cbn.
    + by apply unreferenced_remove.
    + intros b'. rewrite info_of_insert, default_delete. case_decide as E; subst; cbn.
      * rewrite (proj1 (Hi b')), lookup_delete_eq. destruct Hb as [-> | ->]; done.
      * rewrite lookup_delete_ne by done. apply Hi.
  - apply lruk_referenced.
  - apply lruk_unreferenced.
  - intros p m b [Hs Hi] Hb. eexists. split; [done|]. split; cbn.
    + rewrite difference_not_in; [done|]. rewrite (Hs b). congruence.
    + intros b'. rewrite info_of_delete. case_decide as E; subst; [by rewrite Hb|apply Hi].
  - intros p m b [Hs Hi]. eexists. unfold lruk_getRefCount. rewrite (proj1 (Hi b)).
    split; [done|]. split; [split; [done|]|done]. intros b'. cbn. rewrite info_of_touch. apply Hi.
Defined.
End lruk.

(** ** The history of a block *)

(** References to a block that follow each other within the correlated
    reference period, while it is in the pool, count as one use.  The uses are
    kept with the latest first, each with its first reference and its length;
    the length is counted, in whole microseconds, when the next use begins
    without the block having left the pool, and is 0 otherwise.  [unused] is
    the time taken for uses that have not happened. *)
Record BlockHistory := {
  uses : list (Z * Z);
  last_use : Z;
  in_pool : bool;
  unused : Z;
}.

Definition no_history : BlockHistory :=
  {| uses := []; last_use := 0; in_pool := false; unused := time_min |}.

(** The k-th last use, from 0: the time of its first reference, moved forward
    by the lengths of that use and of those after it. *)
Fixpoint kth_use (k : nat) (later : Z) (us : list (Z * Z)) (unused : Z) {struct us} : Z :=
  match us, k with
  | [], _ => unused + later
  | (start, length) :: us, 0 => start + (later + length)
  | (_, length) :: us, S k => kth_use k (later + length) us unused
  end.

(** What the clock overflow makes of uses that have not happened. *)
Definition overflowed_min : Z := 808.

(** A reference at a time: part of the last use, or a new one. *)
Definition used_at (period time : Z) (h : BlockHistory) : BlockHistory :=
  if in_pool h && (time - last_use h <=? period * 1000)%Z then
    {| uses := uses h; last_use := time; in_pool := true; unused := unused h |}
  else
    {| uses := (time, 0%Z) ::
         match uses h with
         | [] => []
         | (start, length) :: us =>
             (start, if in_pool h then ((last_use h - start) / 1000 * 1000)%Z else length) :: us
         end;
       last_use := time; in_pool := true;
       unused := if in_pool h && bool_decide (uses h = []) then overflowed_min else unused h |}.

Definition with_pool (b : bool) (h : BlockHistory) : BlockHistory :=
  {| uses := uses h; last_use := last_use h; in_pool := b; unused := unused h |}.

(** The first block is to be evicted rather than the second: it was last used
    longer ago than the period and the second was not, or that is the same for
    both and its K-th last use is not the later one. *)
Definition goes_first (K : nat) (period time : Z) (h h' : BlockHistory) : Prop :=
  let recent h := (time - last_use h ≤ period * 1000)%Z in
  let kth h := kth_use (K - 1) 0 (uses h) (unused h) in
  (¬ recent h ∧ recent h') ∨ ((recent h ↔ recent h') ∧ (kth h ≤ kth h')%Z).

(** The calls a buffer pool makes, with the references it has handed out and
    the histories of the blocks. *)
Definition histories : Type := nat → BlockHistory.
Definition note (b : nat) (f : BlockHistory → BlockHistory) (hs : histories) : histories :=
  λ b', if decide (b = b') then f (hs b') else hs b'.

Section runs.
Context (K : nat) `{!HashOrder nat}.
#[local] Hint Extern 0 (EvictionPolicyOps LRUK) => exact (lruk_ops K) : typeclass_instances.

Inductive lruk_run (p0 : LRUK) : LRUK → gmap nat nat → histories → Prop :=
| run_new : lruk_run p0 p0 ∅ (λ _, no_history)
| run_created p m hs b p' : lruk_run p0 p m hs → m !! b = None →
    blockCreated b p = Ok p' → lruk_run p0 p' (<[b := 0]> m) (note b (with_pool true) hs)
| run_evicted p m hs b p' : lruk_run p0 p m hs → m !! b = None ∨ m !! b = Some 0 →
    blockEvicted b p = Ok p' → lruk_run p0 p' (delete b m) (note b (with_pool false) hs)
| run_referenced p m hs b p' : lruk_run p0 p m hs →
    (N.of_nat (S (default 0%nat (m !! b))) < 2 ^ 32)%N →
    blockReferenced b p = Ok p' →
    lruk_run p0 p' (<[b := S (default 0 (m !! b))]> m)
      (note b (used_at (lk_period p) (lk_clock p (lk_ticks p))) hs)
| run_unreferenced p m hs b n p' : lruk_run p0 p m hs → m !! b = Some (S n) →
    (N.of_nat (S n) < 2 ^ 32)%N →
    blockUnreferenced b p = Ok p' → lruk_run p0 p' (<[b := n]> m) hs
| run_deleted p m hs b p' : lruk_run p0 p m hs → m !! b = None →
    blockDeleted b p = Ok p' → lruk_run p0 p' m (note b (λ _, no_history) hs)
| run_refcount p m hs b n p' : lruk_run p0 p m hs →
    getRefCount b p = Ok (n, p') → lruk_run p0 p' m hs
| run_chosen p m hs b p' : lruk_run p0 p m hs →
    chooseBlockToEvict p = Ok (Some b, p') →
    lruk_run p0 p' (delete b m) (note b (with_pool false) hs)
| run_none p m hs p' : lruk_run p0 p m hs →
    chooseBlockToEvict p = Ok (None, p') → lruk_run p0 p' m hs.

Lemma lruk_run_knows p0 p m hs : lruk_knows K p0 ∅ → lruk_run p0 p m hs → lruk_knows K p m.
Proof.
  intros H0.
  induction 1 as [|p m hs b p' _ IH Hb E|p m hs b p' _ IH Hb E|p m hs b p' _ IH Hb E
    |p m hs b n p' _ IH Hb Hn E|p m hs b p' _ IH Hb E|p m hs b n p' _ IH E|p m hs b p' _ IH E
    |p m hs p' _ IH E]; [done|..].
  - destruct (@created_spec _ _ (lruk_laws K) p m b IH Hb) as (? & Hx & ?). rewrite E in Hx. by injection Hx as <-.
  - destruct (@evicted_spec _ _ (lruk_laws K) p m b IH Hb) as (? & Hx & ?). rewrite E in Hx. by injection Hx as <-.
  - destruct (@referenced_spec _ _ (lruk_laws K) p m b IH Hb) as (? & Hx & ?). rewrite E in Hx. by injection Hx as <-.
  - destruct (@unreferenced_spec _ _ (lruk_laws K) p m b n IH Hb Hn) as (? & Hx & ?). rewrite E in Hx. by injection Hx as <-.
  - destruct (@deleted_spec _ _ (lruk_laws K) p m b IH Hb) as (? & Hx & ?). rewrite E in Hx. by injection Hx as <-.
  - destruct (@refcount_spec _ _ (lruk_laws K) p m b IH) as (? & Hx & ? & _). rewrite E in Hx. by injection Hx as _ <-.
  - destruct (@choose_spec _ _ (lruk_laws K) p m IH) as [(? & Hx & _)|(b' & ? & Hx & _ & ? & _)]; rewrite E in Hx; [done|].
    by injection Hx as <- <-.
  - destruct (@choose_spec _ _ (lruk_laws K) p m IH) as [(? & Hx & ? & _)|(b' & ? & Hx & _)]; rewrite E in Hx; [|done].
    by injection Hx as <-.
Qed.
End runs.

(** ** The policy follows the histories *)

Lemma int64_small z : (- 2 ^ 63 ≤ z < 2 ^ 63)%Z → int64 z = z.
Proof.
  intros Hz. unfold int64. change (2 ^ 63)%Z with 9223372036854775808%Z in *.
  change (2 ^ 64)%Z with 18446744073709551616%Z. rewrite Z.mod_small; lia.
Qed.

Lemma kth_use_later k later d us un : kth_use k (later + d) us un = (kth_use k later us un + d)%Z.
Proof.
  revert k later. induction us as [|[start len] us IH]; intros k later; cbn [kth_use]; [lia|].
  destruct k as [|k]; [lia|].
  replace (later + d + len)%Z with (later + len + d)%Z by lia. apply IH.
Qed.

Section tracks.
Context (K : nat) (HK : 0 < K) (period : Z) (Hperiod : (0 ≤ period)%Z).
#[local] Set Default Proof Using "All".

(** The array of the last K references: one entry per use. *)
Definition kth_uses (h : BlockHistory) : list Z :=
  (λ k, kth_use k 0 (uses h) (unused h)) <$> seq 0 K.

Record tracks (now : Z) (info : BlockInfo) (h : BlockHistory) : Prop := {
  tr_last : last_reference_ info = last_use h;
  tr_pool : in_memory_ info = in_pool h;
  tr_list : ref_list_ info = kth_uses h;
  tr_now : (0 ≤ last_use h ≤ now)%Z;
  tr_open : match uses h with
    | [] => last_use h = 0%Z ∧ unused h = time_min
    | (start, len) :: _ => (len = 0 ∧ 0 ≤ start ≤ last_use h)%Z ∧
        ∀ k, (time_min ≤ kth_use k 0 (uses h) (unused h) ≤ start)%Z
    end;
}.

Lemma tracks_later now now' info h : (now ≤ now')%Z → tracks now info h → tracks now' info h.
Proof using HK. intros Hle [????]. split; try done. lia. Qed.

Lemma tracks_new now : (0 ≤ now)%Z → tracks now (new_BlockInfo K) no_history.
Proof using HK.
  intros Hn. assert (∀ k i, replicate k time_min = (λ _, (time_min + 0)%Z) <$> seq i k) as Hseq.
  { intros k. induction k as [|k IH]; intros i; [done|]. cbn [replicate seq fmap list_fmap].
    f_equal. apply IH. }
  split; try done. apply Hseq.
Qed.

Lemma tracks_with_pool b now info h :
  tracks now info h → tracks now (set_in_memory b info) (with_pool b h).
Proof using HK. intros [????]. by split. Qed.

(** A new use at the front moves the others back, with what the last one adds. *)
Lemma kth_uses_push h h' time g :
  (∀ k, kth_use (S k) 0 (uses h') (unused h') = g (kth_use k 0 (uses h) (unused h))) →
  kth_use 0 0 (uses h') (unused h') = time →
  kth_uses h' = time :: (g <$> take (K - 1) (kth_uses h)).
Proof.
  intros Hg H0. unfold kth_uses. destruct K as [|k]; [lia|].
  rewrite Nat.sub_succ, Nat.sub_0_r. rewrite (seq_S k 0) at 2.
  rewrite fmap_app, take_app_length' by (by rewrite length_fmap, length_seq).
  cbn [seq]. rewrite fmap_cons, H0. f_equal. rewrite <- (fmap_S_seq 0 k).
  rewrite <- !list_fmap_compose. apply list_fmap_ext. intros ? i _. cbn. apply Hg.
Qed.

Lemma past_period_spec time last :
  (0 ≤ last ≤ time)%Z → (time < 2 ^ 62)%Z →
  past_period period time last = negb (time - last <=? period * 1000)%Z.
Proof.
  intros Hl Ht. unfold past_period. rewrite int64_small by lia.
  rewrite Z.gtb_ltb. apply eq_true_iff_eq. rewrite negb_true_iff, Z.ltb_lt, Z.leb_gt. lia.
Qed.

(** The time counted for a use that is over. *)
Lemma use_length last start :
  (0 ≤ last < 2 ^ 62)%Z → (- 2 ^ 62 ≤ start ≤ last)%Z →
  (Z.quot (int64 (last - start)) 1000 * 1000 = (last - start) / 1000 * 1000)%Z ∧
  (0 ≤ (last - start) / 1000 * 1000 ≤ last - start)%Z.
Proof.
  intros Hl Hs. rewrite int64_small by lia. rewrite Z.quot_div_nonneg by lia.
  split; [done|]. pose proof (Z.mul_div_le (last - start) 1000).
  pose proof (Z.div_pos (last - start) 1000). lia.
Qed.

Lemma hd_kth_uses h : hd time_min (kth_uses h) = kth_use 0 0 (uses h) (unused h).
Proof. unfold kth_uses. by destruct K; [lia|]. Qed.

Lemma kth_use_length k later start len us un :
  kth_use k later ((start, len) :: us) un = (kth_use k later ((start, 0) :: us) un + len)%Z.
Proof.
  destruct k as [|k]; cbn [kth_use]; [lia|]. rewrite Z.add_0_r. apply kth_use_later.
Qed.

(** The first reference to a block in the pool: it was created. *)
Lemma first_use_tracks time info h :
  (1000 ≤ time < 2 ^ 62)%Z → tracks time info h → in_pool h = true → uses h = [] →
  tracks time
    {| ref_list_ := ref_list_ (addReferenceTime K time true info); last_reference_ := time;
       ref_count_ := uint32 (ref_count_ info + 1); in_memory_ := true |}
    {| uses := [(time, 0%Z)]; last_use := time; in_pool := true; unused := overflowed_min |}.
Proof.
  intros Ht [Hl Hm Hr Hn Ho] Hp Hu. rewrite Hu in Ho. destruct Ho as [H0 Hun].
  split; cbn [last_reference_ in_memory_ ref_list_ uses unused last_use in_pool]; try done; [|lia|].
  - cbn [addReferenceTime ref_list_]. rewrite Hr. rewrite hd_kth_uses, Hl, Hu, H0, Hun.
    symmetry. apply kth_uses_push; [|cbn; lia].
    intros k. cbn [uses unused kth_use]. rewrite Hu, Hun. cbn [kth_use]. vm_compute. reflexivity.
  - split; [lia|]. intros [|k]; cbn [kth_use]; unfold overflowed_min, time_min; lia.
Qed.

(** A new use of a block in the pool. *)
Lemma next_use_tracks time info h start len us :
  (time < 2 ^ 62)%Z → tracks time info h → uses h = (start, len) :: us →
  tracks time
    {| ref_list_ := ref_list_ (addReferenceTime K time true info); last_reference_ := time;
       ref_count_ := uint32 (ref_count_ info + 1); in_memory_ := true |}
    {| uses := (time, 0%Z) :: (start, ((last_use h - start) / 1000 * 1000)%Z) :: us;
       last_use := time; in_pool := true; unused := unused h |}.
Proof.
  intros Ht [Hl Hm Hr Hn Ho] Hu. rewrite Hu in Ho. destruct Ho as [[-> Hs] Hk].
  destruct (use_length (last_use h) start) as [Hd1 Hd2]; [lia..|].
  set (d := ((last_use h - start) / 1000 * 1000)%Z) in *.
  split; cbn [last_reference_ in_memory_ ref_list_ uses unused last_use in_pool]; try done; [|lia|].
  - cbn [addReferenceTime ref_list_]. rewrite Hr, hd_kth_uses, Hl, Hu.
    replace (kth_use 0 0 ((start, 0%Z) :: us) (unused h)) with start by (cbn [kth_use]; lia).
    rewrite Hd1. symmetry. apply kth_uses_push; [|cbn [uses unused kth_use]; lia].
    intros k. rewrite Hu. specialize (Hk k). cbn [uses unused].
    change (kth_use k 0 ((start, d) :: us) (unused h) =
      int64 (kth_use k 0 ((start, 0%Z) :: us) (unused h) + d)).
    unfold time_min in Hk. rewrite int64_small by lia. apply kth_use_length.
  - split; [lia|]. intros [|k]; [cbn [kth_use]; unfold time_min; lia|].
    change (time_min ≤ kth_use k 0 ((start, d) :: us) (unused h) ≤ time)%Z.
    rewrite kth_use_length. specialize (Hk k). lia.
Qed.

(** A use of a block that was not in the pool. *)
Lemma return_tracks time info h :
  (1000 ≤ time < 2 ^ 62)%Z → tracks time info h →
  tracks time
    {| ref_list_ := ref_list_ (addReferenceTime K time false info); last_reference_ := time;
       ref_count_ := uint32 (ref_count_ info + 1); in_memory_ := true |}
    {| uses := (time, 0%Z) :: uses h; last_use := time; in_pool := true; unused := unused h |}.
Proof.
  intros Ht [Hl Hm Hr Hn Ho].
  split; cbn [last_reference_ in_memory_ ref_list_ uses unused last_use in_pool]; try done; [|lia|].
  - cbn [addReferenceTime ref_list_]. rewrite Hr. symmetry.
    rewrite (kth_uses_push h _ time id); [by rewrite list_fmap_id| |cbn [uses unused kth_use]; lia].
    intros k. done.
  - split; [lia|]. intros [|k]; [cbn [kth_use]; unfold time_min; lia|].
    change (time_min ≤ kth_use k 0 (uses h) (unused h) ≤ time)%Z. destruct (uses h) as [|[start len] us].
    + destruct Ho as [_ ->]. cbn [kth_use]. unfold time_min. lia.
    + destruct Ho as [[_ Hs] Hk]. specialize (Hk k). lia.
Qed.

Lemma helper_tracks time info h :
  (1000 ≤ time < 2 ^ 62)%Z → (period * 1000 < time)%Z → tracks time info h →
  tracks time (blockReferencedHelper K period time info).2 (used_at period time h).
Proof.
  intros Ht Hp Htr. pose proof Htr as [Hl Hm Hr Hn Ho].
  destruct info as [refs last count in_memory]. cbn in Hl, Hm, Hr. subst last in_memory.
  unfold blockReferencedHelper, used_at. cbn [in_memory_ last_reference_ ref_count_].
  rewrite past_period_spec by lia.
  destruct (in_pool h) eqn:Hpool; cbn [andb].
  - destruct (time - last_use h <=? period * 1000)%Z eqn:E; cbn [negb snd].
    + apply Z.leb_le in E. split; cbn; try done; [lia|].
      destruct (uses h) as [|[start len] us]; [lia|]. destruct Ho as [[-> Hs] Hk].
      split; [lia|exact Hk].
    + destruct (uses h) as [|[start len] us] eqn:Hu.
      * rewrite bool_decide_true by done. exact (first_use_tracks time _ h Ht Htr Hpool Hu).
      * rewrite bool_decide_false by done.
        exact (next_use_tracks time _ h start len us (proj2 Ht) Htr Hu).
  - pose proof (return_tracks time _ h Ht Htr) as H.
    destruct (uses h) as [|[start len] us]; exact H.
Qed.
End tracks.

Lemma lruk_knows_new K period clock : lruk_knows K (new_LRUK period clock) ∅.
Proof. split; [intros b; cbn; set_solver|intros b; by rewrite lookup_empty]. Qed.

Lemma any_knows_new : any_knows {| ea_ref_counts := ∅; ea_nonreferenced := ∅ |} ∅.
Proof. split; [intros b; cbn; set_solver|intros b; by rewrite lookup_empty]. Qed.

(** The readings of the clock do not go back, start later than the period and a
    microsecond, and end before [2 ^ 62] nanoseconds. *)
Record clock_ok (period : Z) (clock : nat → Z) : Prop := {
  clk_period : (0 ≤ period)%Z;
  clk_range i : (1000 ≤ clock i < 2 ^ 62)%Z;
  clk_start i : (period * 1000 < clock i)%Z;
  clk_mono i j : i ≤ j → (clock i ≤ clock j)%Z;
}.

Section follows.
Context (K : nat) (HK : 0 < K) `{!HashOrder nat} (period : Z) (clock : nat → Z).
Context (Hclock : clock_ok period clock).
#[local] Set Default Proof Using "All".

Lemma scan_infos time l blocks smallest b :
  info_of K (foldl (scan_nonreferenced K period time) (blocks, smallest) l).1 b = info_of K blocks b.
Proof.
  revert blocks smallest. induction l as [|x l IH]; intros blocks smallest; [done|].
  cbn [foldl scan_nonreferenced]. rewrite IH. apply info_of_touch.
Qed.

Record follows (p : LRUK) (hs : histories) : Prop := {
  fo_period : lk_period p = period;
  fo_clock : lk_clock p = clock;
  fo_tracks b : tracks K (clock (lk_ticks p)) (info_of K (lk_blocks p) b) (hs b);
}.

Lemma choose_follows p hs r p' :
  follows p hs → lruk_chooseBlockToEvict K p = Ok (r, p') →
  follows p' (match r with Some b => note b (with_pool false) hs | None => hs end).
Proof.
  intros [Hp Hc Ht] E. unfold lruk_chooseBlockToEvict in E. rewrite Hp in E.
  pose proof (scan_infos (lk_clock p (lk_ticks p)) (set_iter (lk_nonreferenced p))
    (lk_blocks p) None) as Hscan.
  destruct (foldl _ _ _) as [blocks [[b info]|]]; cbn in Hscan; injection E as <- <-.
  - split; cbn; [done..|]. intros b'. rewrite info_of_insert. unfold note.
    case_decide as Hb; [subst; apply tracks_with_pool; [done|]|]; rewrite Hscan;
      (eapply tracks_later; [done| |apply Ht]); apply Hclock; lia.
  - split; cbn; [done..|]. intros b'. rewrite Hscan.
    eapply tracks_later; [done| |apply Ht]. apply Hclock; lia.
Qed.

Lemma run_follows p m hs : lruk_run K (new_LRUK period clock) p m hs → follows p hs.
Proof.
  assert (∀ i, 0 ≤ clock i)%Z as Hpos by (intros i; pose proof (clk_range _ _ Hclock i); lia).
  induction 1 as [|p m hs b p' _ [Hp Hc Ht] Hb E|p m hs b p' _ [Hp Hc Ht] Hb E
    |p m hs b p' _ [Hp Hc Ht] Hb E|p m hs b n p' _ [Hp Hc Ht] Hb Hn E|p m hs b p' _ [Hp Hc Ht] Hb E
    |p m hs b n p' _ [Hp Hc Ht] E|p m hs b p' _ IH E|p m hs p' _ IH E].
  - split; [done..|]. intros b. unfold info_of. cbn. rewrite lookup_empty.
    by apply tracks_new.
  - injection E as <-. split; [done..|]. intros b'. cbn. rewrite info_of_insert. unfold note.
    case_decide; [subst; by apply tracks_with_pool|done].
  - injection E as <-. split; [done..|]. intros b'. cbn. rewrite info_of_insert. unfold note.
    case_decide; [subst; by apply tracks_with_pool|done].
  - change (lruk_blockReferenced K b p = Ok p') in E. unfold lruk_blockReferenced in E.
    pose proof (helper_tracks K HK period (clk_period _ _ Hclock) (clock (lk_ticks p))
      (info_of K (lk_blocks p) b) (hs b) (clk_range _ _ Hclock _) (clk_start _ _ Hclock _) (Ht b))
      as Hh. rewrite Hp, Hc in E |- *.
    destruct (blockReferencedHelper K period _ _) as [was_zero info]. injection E as <-.
    split; cbn; [done..|]. intros b'. rewrite info_of_insert. unfold note.
    case_decide as Hbb; [subst b'|]; (eapply tracks_later; [done| |exact Hh || apply Ht]);
      apply Hclock; lia.
  - injection E as <-. split; [done..|]. intros b'. cbn. rewrite info_of_insert.
    case_decide; [subst|done]. destruct (Ht b'). by split.
  - injection E as <-. split; [done..|]. intros b'. cbn. rewrite info_of_delete. unfold note.
    case_decide; [|done]. by apply tracks_new.
  - injection E as _ <-. split; [done..|]. intros b'. cbn. rewrite info_of_touch. apply Ht.
  - exact (choose_follows p hs (Some b) p' IH E).
  - exact (choose_follows p hs None p' IH E).
Qed.

(** The order of the scan is that of the histories. *)
Lemma evict_before_histories time info h info' h' :
  (time < 2 ^ 62)%Z → tracks K time info h → tracks K time info' h' →
  evict_before period time info info' → goes_first K period time h h'.
Proof.
  intros Ht T T'. unfold evict_before, info_less, goes_first.
  rewrite (tr_last _ _ _ _ T), (tr_last _ _ _ _ T').
  rewrite !(past_period_spec K HK period (clk_period _ _ Hclock)) by (done || apply T || apply T').
  assert (∀ i g, tracks K time i g →
    List.last (ref_list_ i) time_min = kth_use (K - 1) 0 (uses g) (unused g)) as Hlast.
  { intros i g Hi. rewrite (tr_list _ _ _ _ Hi). unfold kth_uses. destruct K as [|k]; [lia|].
    rewrite seq_S, fmap_app. rewrite Nat.sub_succ, Nat.sub_0_r. apply last_last. }
  rewrite (Hlast _ _ T), (Hlast _ _ T'). unfold goes_first.
  destruct (Z.leb_spec (time - last_use h) (period * 1000)),
    (Z.leb_spec (time - last_use h') (period * 1000)); cbn; try done;
    rewrite ?Z.ltb_ge; intros; [right|left|right]; split; lia || done.
Qed.
End follows.

(** C34. The LRU-K policy evicts the block that the histories of references say:
    after any calls of a buffer pool, the reference counts are those of the
    pool; [chooseBlockToEvict] fails to find a block only when all the blocks
    in the pool are referenced, and otherwise gives one that is not referenced
    and goes before every other unreferenced block: blocks not used for longer
    than the correlated reference period go before the others, and among equals
    in this the one whose K-th last use is the oldest.  References within the
    period of each other while the block is in the pool are one use, and
    the time of an earlier use is moved forward by the lengths of the uses since
    (see [BlockHistory]).  The clock does not go back and its readings are later
    than the period and before [2 ^ 62] nanoseconds. *)
Theorem lruk_evicts_least `{!HashOrder nat} k period clock p0 p m hs :
  ConstructLRUKEvictionPolicy k period clock = Ok p0 → clock_ok period clock →
  lruk_run k p0 p m hs →
  (∀ b, ∃ p', lruk_getRefCount k b p = Ok (N.of_nat (default 0 (m !! b)), p')) ∧
  ∃ r p', lruk_chooseBlockToEvict k p = Ok (r, p') ∧
  match r with
  | None => ∀ b, m !! b ≠ Some 0
  | Some b => m !! b = Some 0 ∧ ∀ x, m !! x = Some 0 →
      goes_first k period (clock (lk_ticks p)) (hs b) (hs x)
  end.
Proof.
  unfold ConstructLRUKEvictionPolicy. case_decide as Hk; [|done]. intros [= <-] Hclock Hrun.
  assert (0 < k) as HK by lia.
  assert (lruk_knows k p m) as Hp.
  { eapply lruk_run_knows; [|done]. apply lruk_knows_new. }
  pose proof (run_follows k HK period clock Hclock p m hs Hrun) as [Hper Hclk Ht].
  split.
  - intros b. unfold lruk_getRefCount. rewrite (proj1 (proj2 Hp b)). eauto.
  - destruct (lruk_choose_least k p m Hp) as [(p' & E & _ & Hn)|(b & p' & E & Hb & _ & _ & Hx)].
    + by exists None, p'.
    + exists (Some b), p'. split; [done|]. split; [done|]. intros x Hxm.
      specialize (Hx x Hxm). rewrite Hper, Hclk in Hx.
      by eapply (evict_before_histories k HK period clock Hclock);
        [apply Hclock|apply Ht|apply Ht|].
Qed.

(** A list of calls on a policy, on the abstract one and on the histories. *)
Inductive policy_call := Create (b : nat) | Reference (b : nat) | Unreference (b : nat).

Definition replay_call (K : nat) `{!HashOrder nat} (c : policy_call) (p : LRUK)
    (m : gmap nat nat) (hs : histories) : outcome LRUK * bool * gmap nat nat * histories :=
  match c with
  | Create b => (lruk_blockCreated K b p, bool_decide (m !! b = None), <[b := 0]> m,
      note b (with_pool true) hs)
  | Reference b =>
      let n := default 0 (m !! b) in
      (lruk_blockReferenced K b p, bool_decide (N.of_nat (S n) < 2 ^ 32)%N, <[b := S n]> m,
       note b (used_at (lk_period p) (lk_clock p (lk_ticks p))) hs)
  | Unreference b =>
      let n := pred (default 0 (m !! b)) in
      (lruk_blockUnreferenced K b p,
       bool_decide (m !! b = Some (S n)) && bool_decide (N.of_nat (S n) < 2 ^ 32)%N,
       <[b := n]> m, hs)
  end.

Fixpoint replay (K : nat) `{!HashOrder nat} (calls : list policy_call) (p : LRUK)
    (m : gmap nat nat) (hs : histories) : option (LRUK * gmap nat nat * histories) :=
  match calls with
  | [] => Some (p, m, hs)
  | c :: calls =>
      match replay_call K c p m hs with
      | (Ok p', true, m', hs') => replay K calls p' m' hs'
      | _ => None
      end
  end.

Lemma replay_run K `{!HashOrder nat} calls p0 p m hs p' m' hs' :
  lruk_run K p0 p m hs → replay K calls p m hs = Some (p', m', hs') → lruk_run K p0 p' m' hs'.
Proof.
  revert p m hs. induction calls as [|c calls IH]; intros p m hs Hr H; cbn in H;
    [by injection H as <- <- <-|].
  destruct (replay_call K c p m hs) as [[[[p1|] []] m1] hs1] eqn:E; try done.
  eapply IH; [|exact H]. destruct c as [b|b|b]; cbn [replay_call] in E.
  - injection E as E1 E2 <- <-. apply bool_decide_eq_true in E2.
    eapply run_created; [done|done|by rewrite <- E1].
  - injection E as E1 E2 <- <-. apply bool_decide_eq_true in E2.
    eapply run_referenced; [done|done|by rewrite <- E1].
  - injection E as E1 E2 <- <-. apply andb_true_iff in E2 as [E2 E3].
    apply bool_decide_eq_true in E2, E3. eapply run_unreferenced; [done|done|done|by rewrite <- E1].
Qed.

(** Blocks 1 and 2 are created and used at the times 1000 and 2000
    (in milliseconds), 1 again at 3000, and a block is wanted at 4000. *)
Definition sample_clock (i : nat) : Z := (Z.of_nat (S (i `min` 9)) * 1000000000)%Z.
Definition sample_calls : list policy_call :=
  [Create 1; Create 2; Reference 1; Unreference 1; Reference 2; Unreference 2;
   Reference 1; Unreference 1].

Lemma sample_clock_ok : clock_ok 200000 sample_clock.
Proof.
  unfold sample_clock. split; [done|..].
  - intros i. assert (i `min` 9 ≤ 9) by lia. lia.
  - intros i. lia.
  - intros i j Hij. assert (i `min` 9 ≤ j `min` 9) by lia. lia.
Qed.

Lemma lruk_evicts_least_witness :
  let o := identity_order nat in
  ∃ p (m : gmap nat nat) hs p',
    @replay 2 o sample_calls (new_LRUK 200000 sample_clock) ∅ (λ _, no_history) = Some (p, m, hs) ∧
    @lruk_chooseBlockToEvict 2 o p = Ok (Some 2, p') ∧ m !! 1 = Some 0 ∧ m !! 2 = Some 0 ∧
    goes_first 2 200000 (sample_clock (lk_ticks p)) (hs 2) (hs 1).
Proof.
  set (o := identity_order nat).
  destruct (@replay 2 o sample_calls (new_LRUK 200000 sample_clock) ∅ (λ _, no_history))
    as [[[p m] hs]|] eqn:E.
  2: { apply (f_equal (λ x, match x with Some _ => true | None => false end)) in E.
       vm_compute in E. discriminate E. }
  destruct (@lruk_evicts_least o 2 200000 sample_clock _ p m hs eq_refl sample_clock_ok
    (replay_run _ _ _ _ _ _ _ _ _ (run_new _ _) E)) as (_ & r & p' & Hc & Hm).
  assert (match @replay 2 o sample_calls (new_LRUK 200000 sample_clock) ∅ (λ _, no_history) with
    | Some (p, m, hs) => (m !! 1, match @lruk_chooseBlockToEvict 2 o p with
                              | Ok (r, _) => Some r | _ => None end)
    | None => (None, None) end = (Some 0, Some (Some 2))) as Hr by (vm_compute; reflexivity).
  rewrite E, Hc in Hr. injection Hr as H1 ->.
  exists p, m, hs, p'. split; [done|]. split; [done|]. split; [done|].
  destruct Hm as [Hm2 Hmin]. split; [exact Hm2|]. exact (Hmin 1 H1).
Defined.

(** ** Where the clock overflows *)

(** The first reference to a block that was created and never referenced
    subtracts the least time from zero, which does not fit in the 64 bits of a
    duration; in two's complement the block then looks as if it had been used
    808 nanoseconds after the beginning of time, and not as if it had never
    been used. *)
Lemma created_block_overflows K :
  let info := set_in_memory true (new_BlockInfo (S K)) in
  (2 ^ 63 ≤ last_reference_ info - hd time_min (ref_list_ info))%Z.
Proof. done. Qed.

Lemma created_block_time :
  ref_list_ (blockReferencedHelper 2 200000 5000000000
    (set_in_memory true (new_BlockInfo 2))).2 = [5000000000; 808]%Z ∧
  ref_list_ (blockReferencedHelper 2 200000 5000000000 (new_BlockInfo 2)).2
    = [5000000000; time_min]%Z.
Proof. by vm_compute. Qed.

(** ** The random policy *)

(** [getRefCount] of a block that was just chosen puts back its entry with a
    count of zero; when the block is referenced again, the policy erases a
    block from [nonreferenced_blocks_] that is not there. *)
Lemma random_policy_breaks :
  ∃ p1 p2 p3, let p := {| ur_ref_counts := ∅; ur_nonreferenced := [];
                          ur_draws _ := 0; ur_drawn := 0 |} in
  random_blockCreated 7 p = Ok p1 ∧ random_chooseBlockToEvict p1 = Ok (Some 7, p2) ∧
  random_getRefCount 7 p2 = Ok (0%N, p3) ∧
  random_blockReferenced 7 p3 = Err UndefinedBehaviour.
Proof. do 3 eexists. split_and!; vm_compute; reflexivity. Qed.
