(* ===== verification/StorageManager.v ===== *)
(** * The storage manager

    Models storage/StorageManager.{hpp,cpp} (the single-node build),
    storage/CountedReference.hpp, utility/ShardedLockManager.hpp and the ids of
    storage/StorageBlockInfo.hpp: the pool of blocks and blobs in memory, which
    are read from and written to files, and evicted when memory runs short.
    The eviction policy is any [EvictionPolicyOps], the file manager (the
    abstract class of storage/FileManager.hpp, whose implementations are system
    calls) any [FileManagerOps].  The contents of a block are of any type [C];
    what the constructors of StorageBlock and StorageBlob make of fresh memory
    is an argument.  Member functions are called one at a time: the mutexes are
    then free, and of the lock manager only the counts of the shards remain. *)

From S2P Require Import Prelude EvictionPolicy.
From stdpp Require Import options.

(** ** Block ids *)

Module BlockIdUtil.
Definition kDomainShift : N := 48.
Definition kCounterMask : N := (2 ^ 48 - 1)%N.
Definition GetBlockId (domain counter : N) : N :=
  N.lor (N.shiftl domain kDomainShift) (N.land counter kCounterMask).
Definition Domain (block : N) : N := N.shiftr block kDomainShift mod 2 ^ 16.
Definition Counter (block : N) : N := N.land block kCounterMask.
End BlockIdUtil.

(** ** Files *)

(** The sizes are in slots; [None] is a failed read, a boolean the status. *)
Class FileManagerOps (F C : Type) := {
  numSlots : nat → F → N;
  readBlockOrBlob : nat → N → F → option C;
  writeBlockOrBlob : nat → N → C → F → bool * F;
  deleteBlockOrBlob : nat → F → bool * F;
}.

(** What storage/FileManager.hpp documents: a read may fail, a write that
    succeeds replaces the file, one that fails may damage it, and no other file
    is touched. *)
Class FileManagerLaws (F C : Type) `{!FileManagerOps F C} := {
  files : F → gmap nat (N * C);
  numSlots_spec b f :
    numSlots b f = match files f !! b with Some (n, _) => n | None => 0%N end;
  read_spec b f n c c' : files f !! b = Some (n, c) → readBlockOrBlob b n f = Some c' → c' = c;
  write_spec b n c f ok f' : writeBlockOrBlob b n c f = (ok, f') →
    (ok = true → files f' !! b = Some (n, c)) ∧
    ∀ b', b' ≠ b → files f' !! b' = files f !! b';
  delete_spec b f ok f' : deleteBlockOrBlob b f = (ok, f') →
    (ok = true → files f' !! b = None) ∧
    ∀ b', b' ≠ b → files f' !! b' = files f !! b';
}.

(** ** utility/ShardedLockManager.hpp *)

Section shards.
Context (hash : nat → N) (num_shards : N).

Definition shard_of (key : nat) : N := (hash key mod num_shards)%N.

(** [get(key)] *)
Definition lock_get (key : nat) (counts : gmap N nat) : gmap N nat :=
  <[shard_of key := S (default 0 (counts !! shard_of key))]> counts.
(** [get(key, &has_collision)] *)
Definition lock_get_collision (key : nat) (counts : gmap N nat) : bool * gmap N nat :=
  match counts !! shard_of key with
  | Some _ => (true, counts)
  | None => (false, <[shard_of key := 1]> counts)
  end.
(** The shard is there ([DCHECK]); [--it->second] past the end is undefined. *)
Definition lock_release (key : nat) (counts : gmap N nat) : outcome (gmap N nat) :=
  match counts !! shard_of key with
  | None => Err UndefinedBehaviour
  | Some n =>
      Ok (if decide (pred n = 0) then delete (shard_of key) counts
          else <[shard_of key := pred n]> counts)
  end.
End shards.

(** ** The pool *)

Definition uint64 (n : N) : N := (n mod 2 ^ 64)%N.
Definition uint64_sub (n k : N) : N := uint64 (n + 2 ^ 64 - k)%N.

(** The block object is its dirty bit and its kind. *)
Record BlockHandle (C : Type) := {
  block_memory : C;
  block_memory_size : N;
  is_dirty : bool;
  is_blob : bool;
}.
Arguments block_memory {_} _.
Arguments block_memory_size {_} _.
Arguments is_dirty {_} _.
Arguments is_blob {_} _.

Definition markClean {C} (h : BlockHandle C) : BlockHandle C :=
  {| block_memory := block_memory h; block_memory_size := block_memory_size h;
     is_dirty := false; is_blob := is_blob h |}.

Record StorageManager (P F C : Type) := {
  sm_blocks : gmap nat (BlockHandle C);
  total_memory_usage_ : N;
  max_memory_usage_ : N;
  eviction_policy_ : P;
  file_manager_ : F;
  block_index_ : nat;
  shard_count_ : gmap N nat;
}.
Arguments sm_blocks {_ _ _} _.
Arguments total_memory_usage_ {_ _ _} _.
Arguments max_memory_usage_ {_ _ _} _.
Arguments eviction_policy_ {_ _ _} _.
Arguments file_manager_ {_ _ _} _.
Arguments block_index_ {_ _ _} _.
Arguments shard_count_ {_ _ _} _.

Section manager.
Context {P F C : Type} `{!EvictionPolicyOps P, !FileManagerOps F C}.
(** [std::hash], the number of shards, --force_save_dirty_blocks, and whether
    memory for more slots can be had when so many are in use. *)
Context (hash : nat → N) (kLockManagerNumShards : N) (force_save_dirty_blocks : bool)
  (mmap_ok : N → N → bool).
Abbreviation SM := (StorageManager P F C).

(** [block_index] is the id of the highest counter in use. *)
Definition new_StorageManager (max_memory_usage : N) (policy : P) (file_manager : F)
    (block_index : nat) : SM :=
  {| sm_blocks := ∅; total_memory_usage_ := 0; max_memory_usage_ := max_memory_usage;
     eviction_policy_ := policy; file_manager_ := file_manager;
     block_index_ := block_index; shard_count_ := ∅ |}.

Definition sm_update (sm : SM) (blocks : gmap nat (BlockHandle C)) (usage : N) (policy : P)
    (file_manager : F) (index : nat) (shards : gmap N nat) : SM :=
  {| sm_blocks := blocks; total_memory_usage_ := usage;
     max_memory_usage_ := max_memory_usage_ sm; eviction_policy_ := policy;
     file_manager_ := file_manager; block_index_ := index; shard_count_ := shards |}.
Definition set_policy (sm : SM) (policy : P) : SM :=
  sm_update sm (sm_blocks sm) (total_memory_usage_ sm) policy (file_manager_ sm)
    (block_index_ sm) (shard_count_ sm).
Definition set_shards (sm : SM) (shards : gmap N nat) : SM :=
  sm_update sm (sm_blocks sm) (total_memory_usage_ sm) (eviction_policy_ sm) (file_manager_ sm)
    (block_index_ sm) shards.
Definition set_blocks (sm : SM) (blocks : gmap nat (BlockHandle C)) (usage : N)
    (file_manager : F) : SM :=
  sm_update sm blocks usage (eviction_policy_ sm) file_manager (block_index_ sm)
    (shard_count_ sm).

Definition blockOrBlobIsLoaded (block : nat) (sm : SM) : bool :=
  bool_decide (is_Some (sm_blocks sm !! block)).
Definition blockOrBlobIsLoadedAndDirty (block : nat) (sm : SM) : bool :=
  match sm_blocks sm !! block with Some h => is_dirty h | None => false end.

Definition saveBlockOrBlob (block : nat) (force : bool) (sm : SM) : bool * SM :=
  match sm_blocks sm !! block with
  | None => (false, sm)
  | Some h =>
      if negb force && negb (force_save_dirty_blocks && is_dirty h) then (true, sm)
      else
        let '(res, f) :=
          writeBlockOrBlob block (block_memory_size h) (block_memory h) (file_manager_ sm) in
        (res, set_blocks sm
                (if (res : bool) then <[block := markClean h]> (sm_blocks sm) else sm_blocks sm)
                (total_memory_usage_ sm) f)
  end.

Definition deallocateSlots (num_slots : N) (usage : N) : N := uint64_sub usage num_slots.

(** Throws [BlockNotFoundInMemory]. *)
Definition evictBlockOrBlob (block : nat) (sm : SM) : outcome SM :=
  match sm_blocks sm !! block with
  | None => Err Thrown
  | Some h =>
      Ok (set_blocks sm (delete block (sm_blocks sm))
            (deallocateSlots (block_memory_size h) (total_memory_usage_ sm)) (file_manager_ sm))
  end.

Definition release_shard (block : nat) (sm : SM) : outcome SM :=
  shards ← lock_release hash kLockManagerNumShards block (shard_count_ sm);
  Ok (set_shards sm shards).

(** A turn evicts the block that the policy chooses. *)
Fixpoint make_room (fuel : nat) (slots : N) (sm : SM) : outcome SM :=
  if (max_memory_usage_ sm <? uint64 (total_memory_usage_ sm + slots))%N then
    match fuel with
    | 0 => Err OutOfFuel
    | S fuel' =>
        '(status, policy) ← chooseBlockToEvict (eviction_policy_ sm);
        let sm := set_policy sm policy in
        match (status : option nat) with
        | None => Ok sm
        | Some block_to_evict =>
            let '(has_collision, shards) :=
              lock_get_collision hash kLockManagerNumShards block_to_evict (shard_count_ sm) in
            let sm := set_shards sm shards in
            if (has_collision : bool) then Ok sm
            else
              match sm_blocks sm !! block_to_evict with
              | None => sm ← release_shard block_to_evict sm; make_room fuel' slots sm
              | Some _ =>
                  '(ref_count, policy) ← getRefCount block_to_evict (eviction_policy_ sm);
                  let sm := set_policy sm policy in
                  if (0 <? ref_count)%N then
                    sm ← release_shard block_to_evict sm; make_room fuel' slots sm
                  else
                    let '(saved, sm) := saveBlockOrBlob block_to_evict false sm in
                    sm ← (if (saved : bool) then evictBlockOrBlob block_to_evict sm else Ok sm);
                    sm ← release_shard block_to_evict sm;
                    make_room fuel' slots sm
              end
        end
    end
  else Ok sm.
Definition makeRoomForBlockOrBlob (slots : N) (sm : SM) : outcome SM :=
  make_room (S (nonreferenced_size (eviction_policy_ sm))) slots sm.

(** Throws [OutOfMemory]. *)
Definition allocateSlots (num_slots : N) (sm : SM) : outcome SM :=
  sm ← makeRoomForBlockOrBlob num_slots sm;
  if mmap_ok (total_memory_usage_ sm) num_slots then
    Ok (set_blocks sm (sm_blocks sm) (uint64 (total_memory_usage_ sm + num_slots))
          (file_manager_ sm))
  else Err Thrown.

Definition allocateNewBlockOrBlob (num_slots : N) (sm : SM) : outcome (nat * SM) :=
  sm ← allocateSlots num_slots sm;
  let block := S (block_index_ sm) in
  Ok (block, sm_update sm (sm_blocks sm) (total_memory_usage_ sm) (eviction_policy_ sm)
        (file_manager_ sm) block (shard_count_ sm)).

(** [createBlock] and [createBlob], with the contents and the kind. *)
Definition create (num_slots : N) (contents : C) (blob : bool) (sm : SM) : outcome (nat * SM) :=
  '(block, sm) ← allocateNewBlockOrBlob num_slots sm;
  let h := {| block_memory := contents; block_memory_size := num_slots;
              is_dirty := true; is_blob := blob |} in
  let sm := set_blocks sm (<[block := h]> (sm_blocks sm)) (total_memory_usage_ sm)
              (file_manager_ sm) in
  policy ← blockCreated block (eviction_policy_ sm);
  Ok (block, set_policy sm policy).
Definition createBlock (num_slots : N) (contents : C) : SM → outcome (nat * SM) :=
  create num_slots contents false.
Definition createBlob (num_slots : N) (zeros : C) : SM → outcome (nat * SM) :=
  create num_slots zeros true.

Definition loadBlockOrBlob (block : nat) (blob : bool) (sm : SM)
  : outcome (BlockHandle C * SM) :=
  let num_slots := numSlots block (file_manager_ sm) in
  if (num_slots =? 0)%N then Err CheckFailed
  else
    sm ← allocateSlots num_slots sm;
    match readBlockOrBlob block num_slots (file_manager_ sm) with
    | None => Err CheckFailed
    | Some contents =>
        Ok ({| block_memory := contents; block_memory_size := num_slots;
               is_dirty := false; is_blob := blob |}, sm)
    end.

(** [loadBlock] and [loadBlob], with [insertBlockHandleAfterLoad]. *)
Definition load (block : nat) (blob : bool) (sm : SM) : outcome SM :=
  '(h, sm) ← loadBlockOrBlob block blob sm;
  Ok (set_blocks sm (<[block := h]> (sm_blocks sm)) (total_memory_usage_ sm) (file_manager_ sm)).

(** The constructor of a reference. *)
Definition new_reference (block : nat) (sm : SM) : outcome SM :=
  policy ← blockReferenced block (eviction_policy_ sm);
  Ok (set_policy sm policy).
(** Its destructor. *)
Definition release_reference (block : nat) (sm : SM) : outcome SM :=
  policy ← blockUnreferenced block (eviction_policy_ sm);
  Ok (set_policy sm policy).

(** [getBlockInternal] and [getBlobInternal]: the shard is counted during each
    of the two looks into the pool, and while the block is loaded. *)
Definition getInternal (block : nat) (blob : bool) (sm : SM) : outcome SM :=
  let hold sm :=
    set_shards sm (lock_get hash kLockManagerNumShards block (shard_count_ sm)) in
  let sm := hold sm in
  if blockOrBlobIsLoaded block sm then
    sm ← new_reference block sm; release_shard block sm
  else
    sm ← release_shard block sm;
    let sm := hold sm in
    sm ← (if blockOrBlobIsLoaded block sm then Ok sm else load block blob sm);
    sm ← new_reference block sm;
    release_shard block sm.
Definition getBlockInternal (block : nat) : SM → outcome SM := getInternal block false.
Definition getBlobInternal (block : nat) : SM → outcome SM := getInternal block true.

Definition deleteBlockOrBlobFile (block : nat) (sm : SM) : outcome SM :=
  sm ← (if blockOrBlobIsLoaded block sm then
          sm ← evictBlockOrBlob block sm;
          policy ← blockEvicted block (eviction_policy_ sm);
          Ok (set_policy sm policy)
        else Ok sm);
  let '(status, f) := deleteBlockOrBlob block (file_manager_ sm) in
  _ ← check status;
  policy ← blockDeleted block (eviction_policy_ sm);
  Ok (set_policy (set_blocks sm (sm_blocks sm) (total_memory_usage_ sm) f) policy).

(** A holder of a mutable reference changes the contents. *)
Definition modify (block : nat) (contents : C) (sm : SM) : outcome SM :=
  match sm_blocks sm !! block with
  | None => Err UndefinedBehaviour
  | Some h =>
      Ok (set_blocks sm
            (<[block := {| block_memory := contents; block_memory_size := block_memory_size h;
                           is_dirty := true; is_blob := is_blob h |}]> (sm_blocks sm))
            (total_memory_usage_ sm) (file_manager_ sm))
  end.

(** The destructor: the dirty blocks are written, in the order of the map. *)
Definition close_block (sm : SM) (block : nat) : SM :=
  match sm_blocks sm !! block with
  | None => sm
  | Some h =>
      let sm := if is_dirty h then (saveBlockOrBlob block true sm).2 else sm in
      set_blocks sm (sm_blocks sm) (deallocateSlots (block_memory_size h) (total_memory_usage_ sm))
        (file_manager_ sm)
  end.
Definition close `{!HashOrder (nat * BlockHandle C)} (sm : SM) : SM :=
  foldl close_block sm (map_iter (sm_blocks sm)).*1.
End manager.
