(* ===== verification/StorageManagerInv.v ===== *)
(** * The invariant of the storage manager

    Stated and proved against the contracts of the eviction policy and of the
    file manager.  The pool is described by the references handed out and by
    the contents that the blocks should have, wherever they are. *)

From S2P Require Import Prelude EvictionPolicy EvictionPolicyTheorems StorageManager.
From stdpp Require Import options.

(** ** The slots in use *)

Definition pool_size {C} (blocks : gmap nat (BlockHandle C)) : N :=
  map_fold (λ _ h n, block_memory_size h + n)%N 0%N blocks.

Lemma pool_size_insert {C} (blocks : gmap nat (BlockHandle C)) b h :
  blocks !! b = None → pool_size (<[b := h]> blocks) = (block_memory_size h + pool_size blocks)%N.
Proof.
  intros Hb. unfold pool_size.
  apply (map_fold_insert_L (λ _ h n, block_memory_size h + n)%N); [intros; lia|done].
Qed.

Lemma pool_size_delete {C} (blocks : gmap nat (BlockHandle C)) b h :
  blocks !! b = Some h → pool_size blocks = (block_memory_size h + pool_size (delete b blocks))%N.
Proof.
  intros Hb. unfold pool_size.
  by apply (map_fold_delete_L (λ _ h n, block_memory_size h + n)%N); [intros; lia|].
Qed.

Lemma pool_size_same {C} (blocks : gmap nat (BlockHandle C)) b h h' :
  blocks !! b = Some h → block_memory_size h' = block_memory_size h →
  pool_size (<[b := h']> blocks) = pool_size blocks.
Proof.
  intros Hb Hs. rewrite (pool_size_delete blocks b h Hb), <- insert_delete_eq.
  rewrite pool_size_insert by apply lookup_delete_eq. lia.
Qed.

Lemma uint64_small n : (n < 2 ^ 64)%N → uint64 n = n.
Proof. apply N.mod_small. Qed.

Lemma uint64_sub_small n k : (k ≤ n < 2 ^ 64)%N → uint64_sub n k = (n - k)%N.
Proof.
  intros Hn. unfold uint64_sub, uint64.
  replace (n + 2 ^ 64 - k)%N with (n - k + 1 * 2 ^ 64)%N by lia.
  rewrite N.Div0.mod_add. apply N.mod_small. lia.
Qed.

(** ** Shards *)

Lemma release_get hash n key counts :
  counts !! shard_of hash n key = None →
  lock_release hash n key (lock_get hash n key counts) = Ok counts.
Proof.
  intros Hc. unfold lock_release, lock_get. rewrite Hc, lookup_insert_eq. cbn.
  by rewrite delete_insert_id.
Qed.

Section invariant.
Context {P F C : Type} `{!EvictionPolicyOps P, !EvictionPolicyLaws P}.
Context `{!FileManagerOps F C, !FileManagerLaws F C}.
Context (force_save : bool).
Abbreviation SM := (StorageManager P F C).
Implicit Types sm : SM.

(** Where the contents of a block are: in memory, and also in its file if the
    block is clean, or else in the file only. *)
Definition kept (sm : SM) (b : nat) (c : C) : Prop :=
  match sm_blocks sm !! b with
  | Some h => is_dirty h = false → files (file_manager_ sm) !! b = Some (block_memory_size h, c)
  | None => ∃ n, (0 < n)%N ∧ files (file_manager_ sm) !! b = Some (n, c)
  end.

Record pool_inv (sm : SM) (m : gmap nat nat) (refs : nat → nat) (store : gmap nat C) : Prop := {
  pi_policy : policy_knows (eviction_policy_ sm) m;
  pi_known b n : m !! b = Some n → is_Some (sm_blocks sm !! b) ∧ refs b = n;
  pi_refs b : 0 < refs b → m !! b = Some (refs b);
  pi_usage : total_memory_usage_ sm = pool_size (sm_blocks sm);
  pi_small : (pool_size (sm_blocks sm) < 2 ^ 64)%N;
  pi_loaded b h : sm_blocks sm !! b = Some h →
    (0 < block_memory_size h)%N ∧ is_Some (store !! b);
  pi_contents : force_save = true → ∀ b h, sm_blocks sm !! b = Some h →
    store !! b = Some (block_memory h);
  pi_files b : is_Some (files (file_manager_ sm) !! b) → is_Some (store !! b);
  pi_fresh b : is_Some (store !! b) → b ≤ block_index_ sm;
  pi_kept : force_save = true → ∀ b c, store !! b = Some c → kept sm b c;
}.

Lemma inv_set_policy sm m refs store p :
  pool_inv sm m refs store → policy_knows p m → pool_inv (set_policy sm p) m refs store.
Proof. intros [] Hp. by split. Qed.

Lemma inv_set_shards sm m refs store s :
  pool_inv sm m refs store → pool_inv (set_shards sm s) m refs store.
Proof. intros []. by split. Qed.

(** The policy forgets an unreferenced block. *)
Lemma inv_forget sm m refs store p b :
  pool_inv sm m refs store → m !! b = Some 0 → policy_knows p (delete b m) →
  pool_inv (set_policy sm p) (delete b m) refs store.
Proof.
  intros [] Hb Hp. split; cbn; try done.
  - intros b' n [_ H]%lookup_delete_Some. auto.
  - intros b' Hr. rewrite lookup_delete_ne; [auto|]. intros <-.
    apply pi_known0 in Hb as [_ ?]. lia.
Qed.

Definition same_elsewhere (b : nat) (sm sm' : SM) : Prop :=
  (∀ b', b' ≠ b → sm_blocks sm' !! b' = sm_blocks sm !! b') ∧
  (∀ b', b' ≠ b → files (file_manager_ sm') !! b' = files (file_manager_ sm) !! b').

(** The fields that saving and evicting leave alone. *)
Definition same_rest (sm sm' : SM) : Prop :=
  eviction_policy_ sm' = eviction_policy_ sm ∧ shard_count_ sm' = shard_count_ sm ∧
  max_memory_usage_ sm' = max_memory_usage_ sm ∧ block_index_ sm' = block_index_ sm.

Lemma kept_elsewhere b sm sm' b' c :
  same_elsewhere b sm sm' → b' ≠ b → kept sm b' c → kept sm' b' c.
Proof. intros [H1 H2] Hb. unfold kept. by rewrite H1, H2. Qed.

(** Writing a block that is loaded. *)
Lemma write_inv b h sm m refs store ok f :
  pool_inv sm m refs store → sm_blocks sm !! b = Some h →
  writeBlockOrBlob b (block_memory_size h) (block_memory h) (file_manager_ sm) = (ok, f) →
  ok = true ∨ is_dirty h = true →
  let sm' := set_blocks sm (if ok then <[b := markClean h]> (sm_blocks sm) else sm_blocks sm)
               (total_memory_usage_ sm) f in
  pool_inv sm' m refs store ∧ same_elsewhere b sm sm'.
Proof.
  intros Hinv Hb Hw Hok sm'. destruct (write_spec _ _ _ _ _ _ Hw) as [Hok' Hne].
  assert (same_elsewhere b sm sm') as Hs.
  { split; [|done]. intros b' Hb'. cbn. destruct ok; [by rewrite lookup_insert_ne|done]. }
  split; [|done]. pose proof (pi_loaded _ _ _ _ Hinv b h Hb) as [Hpos Hst].
  assert (∀ b', is_Some (sm_blocks sm' !! b') ↔ is_Some (sm_blocks sm !! b')) as Hdom.
  { intros b'. cbn. destruct ok; [|done].
    rewrite lookup_insert_is_Some'. split; [|tauto]. intros [<-|?]; [by rewrite Hb|done]. }
  assert (pool_size (sm_blocks sm') = pool_size (sm_blocks sm)) as Hsz.
  { cbn. destruct ok; [|done]. by apply (pool_size_same _ _ h). }
  destruct Hinv. split; try done.
  - intros b' n Hm. rewrite Hdom. auto.
  - cbn. cbn in Hsz. by rewrite Hsz.
  - by rewrite Hsz.
  - intros b' h' Hb'. destruct (decide (b' = b)) as [->|Hne']; [|apply pi_loaded0; by rewrite <- (proj1 Hs)].
    cbn in Hb'. destruct ok; [|by apply pi_loaded0].
    rewrite lookup_insert_eq in Hb'. by injection Hb' as <-.
  - intros Hf b' h' Hb'. destruct (decide (b' = b)) as [->|Hne'];
      [|apply pi_contents0; [done|]; by rewrite <- (proj1 Hs)].
    cbn in Hb'. destruct ok; [|by apply pi_contents0].
    rewrite lookup_insert_eq in Hb'. injection Hb' as <-. exact (pi_contents0 Hf b h Hb).
  - intros b' H. destruct (decide (b' = b)) as [->|Hne']; [done|].
    apply pi_files0. by rewrite <- (proj2 Hs).
  - intros Hf b' c Hc. destruct (decide (b' = b)) as [->|Hne'];
      [|eapply kept_elsewhere; [done|done|by apply pi_kept0]].
    unfold kept. cbn. destruct ok.
    + rewrite lookup_insert_eq. intros _. rewrite (Hok' eq_refl).
      pose proof (pi_contents0 Hf b h Hb). cbn. congruence.
    + rewrite Hb. destruct Hok; [done|]. congruence.
Qed.

(** Saving a block that is loaded.  A forced write of a clean block may damage
    its file when it fails. *)
Lemma save_spec b h force sm m refs store ok sm' :
  pool_inv sm m refs store → sm_blocks sm !! b = Some h →
  saveBlockOrBlob force_save b force sm = (ok, sm') → ok = true ∨ force = false →
  pool_inv sm' m refs store ∧ same_rest sm sm' ∧ same_elsewhere b sm sm' ∧
  (∃ h', sm_blocks sm' !! b = Some h' ∧ block_memory h' = block_memory h ∧
     block_memory_size h' = block_memory_size h) ∧
  (ok = true → force_save = true ∨ force = true →
     files (file_manager_ sm') !! b = Some (block_memory_size h, block_memory h)).
Proof.
  intros Hinv Hb Hsave Hok. unfold saveBlockOrBlob in Hsave. rewrite Hb in Hsave.
  destruct (negb force && negb (force_save && is_dirty h)) eqn:E.
  - injection Hsave as <- <-. split; [done|]. split; [done|]. split; [done|].
    split; [by exists h|]. intros _ Hf. apply andb_true_iff in E as [E1 E2].
    apply negb_true_iff in E1, E2. destruct Hf as [Hf|Hf]; [|congruence].
    rewrite Hf in E2. cbn in E2. pose proof (pi_contents _ _ _ _ Hinv Hf b h Hb) as Hst.
    pose proof (pi_kept _ _ _ _ Hinv Hf b _ Hst) as Hk. unfold kept in Hk. rewrite Hb in Hk. auto.
  - destruct (writeBlockOrBlob _ _ _ _) as [res f] eqn:Hw. injection Hsave as <- <-.
    destruct (write_inv b h sm m refs store res f Hinv Hb Hw) as [Hinv' Hs].
    { destruct res; [by left|]. destruct Hok as [|Hforce]; [done|]. right. rewrite Hforce in E.
      cbn in E. apply negb_false_iff, andb_true_iff in E. apply E. }
    split; [done|]. split; [done|]. split; [done|]. split.
    + cbn. destruct res; [rewrite lookup_insert_eq; by eexists|by exists h].
    + intros -> _. by apply (write_spec _ _ _ _ _ _ Hw).
Qed.

Lemma save_usage b force sm ok sm' :
  saveBlockOrBlob force_save b force sm = (ok, sm') →
  total_memory_usage_ sm' = total_memory_usage_ sm.
Proof.
  unfold saveBlockOrBlob. destruct (sm_blocks sm !! b) as [h|]; [|by intros [= _ <-]].
  destruct (_ && _); [by intros [= _ <-]|].
  destruct (writeBlockOrBlob _ _ _ _). by intros [= _ <-].
Qed.

(** Evicting a block that nobody references or counts. *)
Lemma evict_spec b h sm m refs store :
  pool_inv sm m refs store → sm_blocks sm !! b = Some h → m !! b = None →
  (force_save = true → files (file_manager_ sm) !! b = Some (block_memory_size h, block_memory h)) →
  ∃ sm', evictBlockOrBlob b sm = Ok sm' ∧ pool_inv sm' m refs store ∧ same_rest sm sm' ∧
    same_elsewhere b sm sm' ∧ sm_blocks sm' !! b = None ∧ file_manager_ sm' = file_manager_ sm ∧
    (total_memory_usage_ sm' ≤ total_memory_usage_ sm)%N.
Proof.
  intros Hinv Hb Hm Hfile. unfold evictBlockOrBlob. rewrite Hb. eexists. split; [done|].
  pose proof (pool_size_delete _ _ _ Hb) as Hsz.
  assert (∀ b', b' ≠ b → delete b (sm_blocks sm) !! b' = sm_blocks sm !! b') as Hne
    by (intros b' ?; by rewrite lookup_delete_ne).
  assert (deallocateSlots (block_memory_size h) (total_memory_usage_ sm) =
      pool_size (delete b (sm_blocks sm))) as Hu.
  { unfold deallocateSlots. pose proof (pi_usage _ _ _ _ Hinv). pose proof (pi_small _ _ _ _ Hinv).
    rewrite uint64_sub_small by lia. lia. }
  pose proof (pi_usage _ _ _ _ Hinv) as Hbefore.
  split; [|split_and!; cbn; rewrite ?lookup_delete_eq, ?Hu; try done; lia].
  destruct Hinv. split; cbn; try done.
  - intros b' n Hm'. rewrite Hne by congruence. auto.
  - lia.
  - intros b' h' [_ Hb']%lookup_delete_Some. auto.
  - intros Hf b' h' [_ Hb']%lookup_delete_Some. auto.
  - intros Hf b' c Hc. unfold kept. cbn. destruct (decide (b' = b)) as [->|Hn].
    + rewrite lookup_delete_eq. destruct (pi_loaded0 b h Hb) as [Hpos _].
      pose proof (pi_contents0 Hf b h Hb) as Hst.
      exists (block_memory_size h). split; [done|]. rewrite Hfile by done. congruence.
    + rewrite Hne by done. by apply pi_kept0.
Qed.

(** ** Making room *)

(** What an allocation may change: the usage does not grow, blocks that are not
    in the pool stay out of it, and their files are not touched. *)
Definition room_made (sm sm' : SM) : Prop :=
  shard_count_ sm' = shard_count_ sm ∧ max_memory_usage_ sm' = max_memory_usage_ sm ∧
  block_index_ sm' = block_index_ sm ∧
  (total_memory_usage_ sm' ≤ total_memory_usage_ sm)%N ∧
  ∀ b, sm_blocks sm !! b = None → sm_blocks sm' !! b = None ∧
    files (file_manager_ sm') !! b = files (file_manager_ sm) !! b.

Lemma room_made_refl sm : room_made sm sm.
Proof. done. Qed.

Lemma room_made_trans sm1 sm2 sm3 : room_made sm1 sm2 → room_made sm2 sm3 → room_made sm1 sm3.
Proof.
  intros (? & ? & ? & ? & Ha) (? & ? & ? & ? & Hc). split_and!; try congruence; [lia|].
  intros b Hb. destruct (Ha b Hb) as [Hb' ?]. destruct (Hc b Hb'). split; congruence.
Qed.

Lemma room_made_elsewhere b h sm sm' :
  sm_blocks sm !! b = Some h → same_elsewhere b sm sm' → same_rest sm sm' →
  (total_memory_usage_ sm' ≤ total_memory_usage_ sm)%N → room_made sm sm'.
Proof.
  intros Hb [Hs1 Hs2] (_ & ? & ? & ?) Hu. split_and!; try done.
  intros b' Hb'. assert (b' ≠ b) by congruence. by rewrite Hs1, Hs2.
Qed.

Section room.
Context (hash : nat → N) (shards : N).

Lemma release_shard_set (sm : SM) b counts :
  lock_release hash shards b (shard_count_ sm) = Ok counts →
  release_shard hash shards b sm = Ok (set_shards sm counts).
Proof. intros H. unfold release_shard. by rewrite H. Qed.

(** The part of a turn between choosing a block and the next turn, when there
    is no collision. *)
Lemma evict_chosen b (sm : SM) m refs store :
  pool_inv sm m refs store → m !! b = None → refs b = 0 → is_Some (sm_blocks sm !! b) →
  ∃ sm', (let '(saved, sm1) := saveBlockOrBlob force_save b false sm in
          if (saved : bool) then evictBlockOrBlob b sm1 else Ok sm1) = Ok sm' ∧
    pool_inv sm' m refs store ∧ room_made sm sm' ∧ eviction_policy_ sm' = eviction_policy_ sm.
Proof.
  intros Hinv Hm Hr [h Hb].
  destruct (saveBlockOrBlob force_save b false sm) as [saved sm1] eqn:E.
  destruct (save_spec b h false sm m refs store saved sm1 Hinv Hb E)
    as (Hinv1 & Hrest & Hs & (h' & Hb' & Hc & Hsz) & Hfile); [by right|].
  pose proof (save_usage b false sm saved sm1 E) as Hu.
  pose proof (room_made_elsewhere b h sm sm1 Hb Hs Hrest ltac:(lia)) as Hroom.
  destruct saved; [|exists sm1; split_and!; try done; apply Hrest].
  destruct (evict_spec b h' sm1 m refs store Hinv1 Hb' Hm) as (sm2 & -> & Hinv2 & Hrest2 & Hs2 & _ & _ & Hu2).
  { intros Hf. rewrite Hfile by auto. congruence. }
  exists sm2. split; [done|]. split; [done|]. split.
  - eapply room_made_trans; [done|]. by eapply room_made_elsewhere.
  - destruct Hrest as [? _], Hrest2 as [? _]. congruence.
Qed.

Definition has_room (slots : N) (sm : SM) : Prop :=
  (uint64 (total_memory_usage_ sm + slots) ≤ max_memory_usage_ sm)%N.

(** Enough turns end, with room made, or no block left to evict, or at a block
    whose shard is in use. *)
Lemma make_room_spec fuel slots sm m refs store :
  pool_inv sm m refs store → nonreferenced_size (eviction_policy_ sm) < fuel → ∃ sm' m',
  make_room hash shards force_save fuel slots sm = Ok sm' ∧ pool_inv sm' m' refs store ∧
  room_made sm sm' ∧ m' ⊆ m ∧
  (has_room slots sm' ∨ (∀ b, m' !! b ≠ Some 0) ∨
   ∃ b, m !! b = Some 0 ∧ is_Some (shard_count_ sm !! shard_of hash shards b)).
Proof.
  revert sm m. induction fuel as [|fuel IH]; intros sm m Hinv Hfuel; [lia|]. cbn [make_room].
  destruct (max_memory_usage_ sm <? uint64 (total_memory_usage_ sm + slots))%N eqn:E.
  2: { apply N.ltb_ge in E. exists sm, m. split_and!; auto using room_made_refl. }
  destruct (choose_spec _ _ (pi_policy _ _ _ _ Hinv))
    as [(p & -> & Hp & Hnone)|(b & p & -> & Hb & Hp & Hlt)]; cbn [mbind outcome_bind].
  { exists (set_policy sm p), m. split; [done|]. split; [by apply inv_set_policy|].
    split; [done|]. auto. }
  pose proof (inv_forget _ _ _ _ _ _ Hinv Hb Hp) as Hinv1.
  assert (delete b m ⊆ m) as Hsub by apply delete_subseteq.
  destruct (pi_known _ _ _ _ Hinv b 0 Hb) as [Hload Href].
  unfold lock_get_collision. cbn [shard_count_ set_policy sm_update].
  destruct (shard_count_ sm !! shard_of hash shards b) as [n|] eqn:Hsh.
  { eexists _, (delete b m). split; [done|]. split; [by apply inv_set_shards|].
    split; [done|]. split; [done|]. right. right. exists b. by rewrite Hsh. }
  cbn [sm_blocks set_shards set_policy sm_update].
  destruct (sm_blocks sm !! b) as [h|] eqn:Hh; [|by destruct Hload].
  cbn [eviction_policy_ set_shards set_policy sm_update].
  destruct (refcount_spec p (delete b m) b Hp) as (p2 & Hrc & Hp2 & Hsize).
  rewrite Hrc. cbn [mbind outcome_bind]. rewrite lookup_delete_eq. cbn [default N.of_nat N.ltb N.compare].
  set (sm2 := set_policy (set_shards (set_policy sm p) _) p2).
  assert (pool_inv sm2 (delete b m) refs store) as Hinv2.
  { apply inv_set_policy; [|done]. by apply inv_set_shards. }
  destruct (evict_chosen b sm2 (delete b m) refs store Hinv2) as (sm3 & Hev & Hinv3 & Hroom3 & Hpol3);
    [apply lookup_delete_eq|done|cbn; by rewrite Hh|].
  destruct (saveBlockOrBlob force_save b false sm2) as [saved sm2'].
  cbv beta iota in Hev |- *. rewrite Hev. cbn [mbind outcome_bind].
  rewrite (release_shard_set sm3 b (shard_count_ sm)).
  2: { destruct Hroom3 as [-> _]. unfold lock_release. cbn. rewrite lookup_insert_eq. cbn.
       by rewrite delete_insert_id. }
  cbn [mbind outcome_bind].
  destruct (IH (set_shards sm3 (shard_count_ sm)) (delete b m))
    as (sm4 & m4 & -> & Hinv4 & Hroom4 & Hsub4 & Hend).
  { by apply inv_set_shards. }
  { cbn. rewrite Hpol3. cbn. lia. }
  exists sm4, m4. split; [done|]. split; [done|]. split; [|split; [by etransitivity|]].
  - eapply room_made_trans; [|exact Hroom4]. destruct Hroom3 as (_ & ? & ? & ? & Hrest).
    split_and!; try done.
  - destruct Hend as [|[|(b' & Hb' & Hs')]]; auto. right. right. exists b'.
    split; [|done]. by apply lookup_delete_Some in Hb' as [_ ?].
Qed.
End room.
End invariant.
