(* ===== verification/StorageManagerTheorems.v ===== *)
(** * What the storage manager guarantees

    The operations keep the invariant of [StorageManagerInv]; so the pool never
    loses a block that is referenced, accounts for its memory exactly, and,
    when dirty blocks are saved before they are evicted, is a map from ids to
    contents, however small the memory.  Without --force_save_dirty_blocks, the
    default, it is not. *)

From S2P Require Import Prelude EvictionPolicy EvictionPolicyTheorems.
From S2P Require Import StorageManager StorageManagerInv.
From stdpp Require Import options.

(** An id gives back its domain and its counter. *)
Lemma block_id_parts domain counter :
  (domain < 2 ^ 16)%N → (counter < 2 ^ 48)%N →
  BlockIdUtil.Domain (BlockIdUtil.GetBlockId domain counter) = domain ∧
  BlockIdUtil.Counter (BlockIdUtil.GetBlockId domain counter) = counter.
Proof.
  intros Hd Hc. unfold BlockIdUtil.Domain, BlockIdUtil.Counter, BlockIdUtil.GetBlockId.
  change BlockIdUtil.kCounterMask with (N.ones BlockIdUtil.kDomainShift).
  assert (N.land counter (N.ones BlockIdUtil.kDomainShift) = counter) as Hl.
  { rewrite N.land_ones. by apply N.mod_small. }
  assert (N.shiftr counter BlockIdUtil.kDomainShift = 0%N) as Hs.
  { rewrite N.shiftr_div_pow2. by apply N.div_small. }
  rewrite Hl. split.
  - rewrite N.shiftr_lor, Hs, N.lor_0_r, N.shiftr_shiftl_l, N.sub_diag, N.shiftl_0_r by done.
    by apply N.mod_small.
  - rewrite N.land_lor_distr_l, Hl, N.land_ones, N.shiftl_mul_pow2, N.Div0.mod_mul. done.
Qed.

Definition add_ref (b : nat) (refs : nat → nat) : nat → nat :=
  λ x, if decide (x = b) then S (refs x) else refs x.
Definition drop_ref (b : nat) (refs : nat → nat) : nat → nat :=
  λ x, if decide (x = b) then pred (refs x) else refs x.

Section operations.
Context {P F C : Type} `{!EvictionPolicyOps P, !EvictionPolicyLaws P}.
Context `{!FileManagerOps F C, !FileManagerLaws F C}.
Context (hash : nat → N) (shards : N) (force_save : bool) (mmap_ok : N → N → bool).
(** What can be mapped fits in the address space. *)
Context (mmap_bound : ∀ u n, mmap_ok u n = true → (u + n < 2 ^ 64)%N).
Abbreviation SM := (StorageManager P F C).
Abbreviation pool_inv := (pool_inv (P := P) (F := F) (C := C) force_save).
Implicit Types sm : SM.

Lemma not_loaded_unknown sm m refs store b :
  pool_inv sm m refs store → sm_blocks sm !! b = None → m !! b = None ∧ refs b = 0.
Proof.
  intros Hinv Hb. assert (m !! b = None) as Hm.
  { destruct (m !! b) as [n|] eqn:E; [|done].
    apply (pi_known _ _ _ _ _ Hinv) in E as [[h Hh] _]. congruence. }
  split; [done|]. destruct (refs b) eqn:E; [done|].
  pose proof (pi_refs _ _ _ _ _ Hinv b). rewrite Hm in H. discriminate H. lia.
Qed.

Lemma ref_count_known sm m refs store b :
  pool_inv sm m refs store → default 0 (m !! b) = refs b.
Proof.
  intros Hinv. destruct (m !! b) as [n|] eqn:E.
  - by apply (pi_known _ _ _ _ _ Hinv) in E as [_ ->].
  - destruct (refs b) eqn:Hr; [done|]. pose proof (pi_refs _ _ _ _ _ Hinv b) as H.
    rewrite E in H. discriminate H. lia.
Qed.

(** A block comes into the pool. *)
Lemma insert_inv sm m refs store store' b h index :
  pool_inv sm m refs store → sm_blocks sm !! b = None →
  (0 < block_memory_size h)%N → (total_memory_usage_ sm + block_memory_size h < 2 ^ 64)%N →
  (∀ b', b' ≠ b → store' !! b' = store !! b') → is_Some (store' !! b) →
  b ≤ index → block_index_ sm ≤ index →
  (force_save = true → store' !! b = Some (block_memory h)) →
  (force_save = true → is_dirty h = false →
     files (file_manager_ sm) !! b = Some (block_memory_size h, block_memory h)) →
  pool_inv (sm_update sm (<[b := h]> (sm_blocks sm))
    (uint64 (total_memory_usage_ sm + block_memory_size h)) (eviction_policy_ sm)
    (file_manager_ sm) index (shard_count_ sm)) m refs store'.
Proof.
  intros Hinv Hb Hpos Hsmall Hst Hsome Hi Hi' Hc Hfile.
  destruct (not_loaded_unknown _ _ _ _ _ Hinv Hb) as [Hm _].
  pose proof (pool_size_insert (sm_blocks sm) b h Hb) as Hsz. destruct Hinv.
  split; cbn; try done.
  - intros b' n Hm'. rewrite lookup_insert_ne by congruence. auto.
  - rewrite uint64_small by lia. lia.
  - lia.
  - intros b' h' [[<- <-]|[Hne Hb']]%lookup_insert_Some; [done|]. rewrite Hst by done. eauto.
  - intros Hf b' h' [[<- <-]|[Hne Hb']]%lookup_insert_Some; [auto|]. rewrite Hst by done. eauto.
  - intros b' H. destruct (decide (b' = b)) as [->|Hne]; [done|]. rewrite Hst by done. auto.
  - intros b' H. destruct (decide (b' = b)) as [->|Hne]; [done|]. rewrite Hst in H by done.
    apply pi_fresh in H. lia.
  - intros Hf b' c Hc'. unfold kept. cbn. destruct (decide (b' = b)) as [->|Hne].
    + rewrite lookup_insert_eq. intros Hd. rewrite Hfile by done. rewrite Hc in Hc' by done. congruence.
    + rewrite lookup_insert_ne by done. rewrite Hst in Hc' by done. by apply pi_kept.
Qed.

(** A reference is made to a block in the pool. *)
Lemma reference_inv sm m refs store b :
  pool_inv sm m refs store → is_Some (sm_blocks sm !! b) → (N.of_nat (S (refs b)) < 2 ^ 32)%N →
  ∃ p, new_reference b sm = Ok (set_policy sm p) ∧
    pool_inv (set_policy sm p) (<[b := S (refs b)]> m) (add_ref b refs) store.
Proof.
  intros Hinv Hb Hlt. pose proof (ref_count_known _ _ _ _ b Hinv) as Hn. unfold new_reference.
  destruct (referenced_spec _ _ b (pi_policy _ _ _ _ _ Hinv)) as (p & -> & Hp); [by rewrite Hn|].
  rewrite Hn in Hp. exists p. split; [done|]. destruct Hinv. split; cbn; try done.
  - intros b' n. unfold add_ref. case_decide as E.
    + subst. rewrite lookup_insert_eq. by intros [= <-].
    + rewrite lookup_insert_ne by done. auto.
  - intros b'. unfold add_ref. case_decide as E.
    + subst. by rewrite lookup_insert_eq.
    + rewrite lookup_insert_ne by done. auto.
Qed.

(** A reference is given up. *)
Lemma unreference_inv sm m refs store b :
  pool_inv sm m refs store → 0 < refs b → (N.of_nat (refs b) < 2 ^ 32)%N →
  ∃ p, release_reference b sm = Ok (set_policy sm p) ∧
    pool_inv (set_policy sm p) (<[b := pred (refs b)]> m) (drop_ref b refs) store.
Proof.
  intros Hinv Hr Hlt. pose proof (pi_refs _ _ _ _ _ Hinv b Hr) as Hm. unfold release_reference.
  destruct (refs b) as [|n] eqn:En; [lia|].
  destruct (unreferenced_spec _ _ b n (pi_policy _ _ _ _ _ Hinv) Hm Hlt) as (p & -> & Hp).
  exists p. split; [done|]. destruct (pi_known _ _ _ _ _ Hinv b _ Hm) as [Hload _].
  destruct Hinv. split; cbn; try done.
  - intros b' k. unfold drop_ref. case_decide as E.
    + subst. rewrite lookup_insert_eq. intros [= <-]. by rewrite En.
    + rewrite lookup_insert_ne by done. auto.
  - intros b'. unfold drop_ref. case_decide as E.
    + subst. rewrite lookup_insert_eq, En. by intros _.
    + rewrite lookup_insert_ne by done. auto.
Qed.

(** A holder of a reference changes the block. *)
Lemma modify_inv sm m refs store b c :
  pool_inv sm m refs store → 0 < refs b →
  ∃ sm', modify b c sm = Ok sm' ∧ pool_inv sm' m refs (<[b := c]> store) ∧
    shard_count_ sm' = shard_count_ sm.
Proof.
  intros Hinv Hr. pose proof (pi_refs _ _ _ _ _ Hinv b Hr) as Hm.
  destruct (pi_known _ _ _ _ _ Hinv b _ Hm) as [[h Hh] _]. unfold modify. rewrite Hh.
  eexists. split; [done|]. split; [|done].
  set (h' := {| block_memory := c |}).
  pose proof (pool_size_same (sm_blocks sm) b h h' Hh eq_refl) as Hsz.
  destruct (pi_loaded _ _ _ _ _ Hinv b h Hh) as [Hpos Hst]. destruct Hinv. split; cbn; try done.
  - intros b' n Hm'. destruct (pi_known b' n Hm') as [? ?]. split; [|done].
    apply lookup_insert_is_Some'. auto.
  - lia.
  - lia.
  - intros b' h1 [[<- <-]|[Hne Hb']]%lookup_insert_Some.
    + by rewrite lookup_insert_eq.
    + rewrite lookup_insert_ne by done. eauto.
  - intros Hf b' h1 [[<- <-]|[Hne Hb']]%lookup_insert_Some.
    + by rewrite lookup_insert_eq.
    + rewrite lookup_insert_ne by done. eauto.
  - intros b' H. apply lookup_insert_is_Some'. auto.
  - intros b' [<-|H]%lookup_insert_is_Some'; auto.
  - intros Hf b' c' Hc. unfold kept. cbn. destruct (decide (b = b')) as [<-|Hne].
    + by rewrite lookup_insert_eq.
    + rewrite lookup_insert_ne in Hc by done. rewrite lookup_insert_ne by done.
      by apply pi_kept.
Qed.

(** ** Allocation *)

Lemma allocate_spec n sm m refs store :
  pool_inv sm m refs store → ∃ sm1 m1,
  pool_inv sm1 m1 refs store ∧ room_made sm sm1 ∧ m1 ⊆ m ∧
  (has_room n sm1 ∨ (∀ b, m1 !! b ≠ Some 0) ∨
   ∃ b, m !! b = Some 0 ∧ is_Some (shard_count_ sm !! shard_of hash shards b)) ∧
  makeRoomForBlockOrBlob hash shards force_save n sm = Ok sm1 ∧
  allocateSlots hash shards force_save mmap_ok n sm =
    if mmap_ok (total_memory_usage_ sm1) n then
      Ok (set_blocks sm1 (sm_blocks sm1) (uint64 (total_memory_usage_ sm1 + n)) (file_manager_ sm1))
    else Err Thrown.
Proof.
  intros Hinv.
  destruct (make_room_spec force_save hash shards
    (S (nonreferenced_size (eviction_policy_ sm))) n sm m refs store Hinv)
    as (sm1 & m1 & Hr & Hinv1 & Hroom & Hsub & Hend); [lia|].
  exists sm1, m1. split_and!; try done.
  unfold allocateSlots, makeRoomForBlockOrBlob. by rewrite Hr.
Qed.

(** After making room for [n] slots memory for them cannot be mapped. *)
Definition out_of_memory (n : N) (sm : SM) : Prop :=
  ∃ sm1, makeRoomForBlockOrBlob hash shards force_save n sm = Ok sm1 ∧
    (total_memory_usage_ sm1 ≤ total_memory_usage_ sm)%N ∧
    mmap_ok (total_memory_usage_ sm1) n = false.

(** The memory is within its limit, or there was nothing to evict. *)
Definition within_limit (sm : SM) (m : gmap nat nat) (b : nat) : Prop :=
  (total_memory_usage_ sm ≤ max_memory_usage_ sm)%N ∨ ∀ b', m !! b' = Some 0 → b' = b.

Lemma create_spec n c blob sm m refs store :
  pool_inv sm m refs store → shard_count_ sm = ∅ → (0 < n)%N →
  (out_of_memory n sm ∧ create hash shards force_save mmap_ok n c blob sm = Err Thrown) ∨
  ¬ out_of_memory n sm ∧ ∃ b sm' m', create hash shards force_save mmap_ok n c blob sm = Ok (b, sm') ∧
    store !! b = None ∧ pool_inv sm' m' refs (<[b := c]> store) ∧ shard_count_ sm' = ∅ ∧
    within_limit sm' m' b ∧ is_Some (sm_blocks sm' !! b).
Proof using All.
  intros Hinv Hsh Hn.
  destruct (allocate_spec n sm m refs store Hinv) as (sm1 & m1 & Hinv1 & Hroom & _ & Hend & Hmake & Halloc).
  unfold create, allocateNewBlockOrBlob. rewrite Halloc.
  destruct (mmap_ok (total_memory_usage_ sm1) n) eqn:Hok.
  2: { left. split; [|done]. exists sm1. split; [done|]. split; [apply Hroom|done]. }
  right. split; [intros (sm2 & H2 & _ & Hno); congruence|].
  apply mmap_bound in Hok. cbn [mbind outcome_bind].
  set (b := S (block_index_ _)). set (h := {| block_memory := c |}).
  assert (store !! b = None) as Hfresh.
  { destruct (store !! b) eqn:E; [|done]. pose proof (pi_fresh _ _ _ _ _ Hinv1 b) as H.
    rewrite E in H. unfold b in H. cbn in H. specialize (H ltac:(done)). lia. }
  assert (sm_blocks sm1 !! b = None) as Hb.
  { destruct (sm_blocks sm1 !! b) eqn:E; [|done].
    destruct (pi_loaded _ _ _ _ _ Hinv1 _ _ E) as [_ [? ?]]. congruence. }
  destruct (not_loaded_unknown _ _ _ _ _ Hinv1 Hb) as [Hm Hr].
  pose proof (insert_inv sm1 m1 refs store (<[b := c]> store) b h b Hinv1 Hb) as Hins.
  ospecialize* Hins; try done.
  { intros b' ?. by rewrite lookup_insert_ne. }
  { by rewrite lookup_insert_eq. }
  { unfold b. cbn. lia. }
  { intros _. by rewrite lookup_insert_eq. }
  cbn [eviction_policy_ set_blocks sm_update].
  destruct (created_spec _ _ b (pi_policy _ _ _ _ _ Hinv1) Hm) as (p & Hcr & Hp).
  rewrite Hcr. cbn [mbind outcome_bind].
  eexists b, _, (<[b := 0]> m1). split; [done|]. split; [done|]. split; [|split; [|split]].
  - destruct Hins. split; cbn; try done.
    + intros b' k [[<- <-]|[Hne Hk]]%lookup_insert_Some; [|auto].
      split; [by rewrite lookup_insert_eq|done].
    + intros b' Hr'. rewrite lookup_insert_ne by (intros <-; lia). auto.
  - cbn. destruct Hroom as [-> _]. done.
  - destruct Hend as [Hroom'|[Hnone|(b' & _ & [x Hx])]].
    + left. exact Hroom'.
    + right. intros b' [[<- _]|[_ Hb']]%lookup_insert_Some; [done|]. by apply Hnone in Hb'.
    + rewrite Hsh in Hx. done.
  - cbn. by rewrite lookup_insert_eq.
Qed.

(** ** Loading and getting *)

(** The file of a block that is not in the pool has its contents. *)
Lemma unloaded_file sm m refs store b n c :
  pool_inv sm m refs store → sm_blocks sm !! b = None → force_save = true →
  files (file_manager_ sm) !! b = Some (n, c) → store !! b = Some c.
Proof.
  intros Hinv Hb Hf Hfile. destruct (pi_files _ _ _ _ _ Hinv b) as [c' Hc']; [by rewrite Hfile|].
  pose proof (pi_kept _ _ _ _ _ Hinv Hf b c' Hc') as Hk. unfold kept in Hk. rewrite Hb in Hk.
  destruct Hk as (n' & _ & Hk). congruence.
Qed.

(** Where an allocation for a block leaves the memory. *)
Definition room_for (b : nat) (m m' : gmap nat nat) (sm' : SM) : Prop :=
  (total_memory_usage_ sm' ≤ max_memory_usage_ sm')%N ∨ (∀ b', m' !! b' ≠ Some 0) ∨
  ∃ b', m !! b' = Some 0 ∧ shard_of hash shards b' = shard_of hash shards b.

(** Why a block that has a file cannot be loaded: memory for its slots, or
    after that its file. *)
Definition load_fails (b : nat) (sm : SM) (e : failure) : Prop :=
  ∃ n c sm1, files (file_manager_ sm) !! b = Some (n, c) ∧
    makeRoomForBlockOrBlob hash shards force_save n sm = Ok sm1 ∧
    (total_memory_usage_ sm1 ≤ total_memory_usage_ sm)%N ∧
    files (file_manager_ sm1) !! b = Some (n, c) ∧
    match e with
    | Thrown => mmap_ok (total_memory_usage_ sm1) n = false
    | CheckFailed => mmap_ok (total_memory_usage_ sm1) n = true ∧
                     readBlockOrBlob (C := C) b n (file_manager_ sm1) = None
    | _ => False
    end.


Lemma load_block_spec b blob sm m refs store :
  pool_inv sm m refs store → sm_blocks sm !! b = None →
  shard_count_ sm = lock_get hash shards b ∅ →
  (load hash shards force_save mmap_ok b blob sm = Err CheckFailed ∧
     numSlots b (file_manager_ sm) = 0%N) ∨
  (∃ e, load hash shards force_save mmap_ok b blob sm = Err e ∧ load_fails b sm e) ∨
  (∀ e, ¬ load_fails b sm e) ∧ ∃ sm' m' h, load hash shards force_save mmap_ok b blob sm = Ok sm' ∧
    pool_inv sm' m' refs store ∧ shard_count_ sm' = shard_count_ sm ∧
    sm_blocks sm' !! b = Some h ∧ room_for b m m' sm'.
Proof using All.
  intros Hinv Hb Hsh. unfold load, loadBlockOrBlob. pose proof (numSlots_spec b (file_manager_ sm)) as Hn.
  destruct (numSlots b (file_manager_ sm) =? 0)%N eqn:E0.
  { left. split; [done|]. by apply N.eqb_eq. }
  apply N.eqb_neq in E0. rewrite Hn in E0 |- *.
  destruct (files (file_manager_ sm) !! b) as [[n c]|] eqn:Hfile; [|done].
  destruct (allocate_spec n sm m refs store Hinv) as (sm1 & m1 & Hinv1 & Hroom & _ & Hend & Hmake & Halloc).
  destruct Hroom as (Hsh1 & _ & _ & Hu & Hout).
  destruct (Hout b Hb) as [Hb1 Hfile1]. rewrite Hfile in Hfile1.
  rewrite Halloc. destruct (mmap_ok (total_memory_usage_ sm1) n) eqn:Hok.
  2: { right. left. exists Thrown. split; [done|]. by exists n, c, sm1. }
  pose proof (mmap_bound _ _ Hok) as Hbound.
  cbn [mbind outcome_bind file_manager_ set_blocks sm_update].
  destruct (readBlockOrBlob b n (file_manager_ sm1)) as [c'|] eqn:Hread.
  2: { right. left. exists CheckFailed. split; [done|]. by exists n, c, sm1. }
  right. right. split.
  { intros e (n' & c'' & sm' & Hf' & Hm' & _ & _ & Hwhy). rewrite Hfile in Hf'.
    injection Hf' as <- <-. rewrite Hmake in Hm'. injection Hm' as <-.
    destruct e; try done; [destruct Hwhy|]; congruence. }
  apply (read_spec _ _ _ _ _ Hfile1) in Hread as ->. cbn [mbind outcome_bind].
  set (h := {| block_memory := c |}).
  pose proof (insert_inv sm1 m1 refs store store b h (block_index_ sm1) Hinv1 Hb1) as Hins.
  ospecialize* Hins; try done.
  { cbn. lia. }
  { apply (pi_files _ _ _ _ _ Hinv1). by rewrite Hfile1. }
  { apply (pi_fresh _ _ _ _ _ Hinv1), (pi_files _ _ _ _ _ Hinv1). by rewrite Hfile1. }
  { intros Hf. by apply (unloaded_file sm1 m1 refs store b n c). }
  eexists _, m1, h. split; [done|]. split; [exact Hins|]. split; [exact Hsh1|].
  split; [cbn; by rewrite lookup_insert_eq|].
  destruct Hend as [Hroom'|[Hnone|(b' & Hb' & [x Hx])]]; [by left|by right; left|].
  right. right. exists b'. split; [done|]. rewrite Hsh in Hx. unfold lock_get in Hx.
  by apply lookup_insert_Some in Hx as [[-> _]|[_ ?]].
Qed.

Lemma loaded_lookup b sm (loaded : bool) :
  blockOrBlobIsLoaded b sm = loaded ↔
  if loaded then is_Some (sm_blocks sm !! b) else sm_blocks sm !! b = None.
Proof.
  unfold blockOrBlobIsLoaded.
  destruct loaded; [apply bool_decide_eq_true|].
  by rewrite bool_decide_eq_false, eq_None_not_Some.
Qed.

Lemma release_held b sm :
  shard_count_ sm = lock_get hash shards b ∅ →
  release_shard hash shards b sm = Ok (set_shards sm ∅).
Proof. intros Hs. apply release_shard_set. rewrite Hs. by apply release_get. Qed.

(** Making the reference and letting the shard go. *)
Lemma reference_release b sm m refs store h :
  pool_inv sm m refs store → shard_count_ sm = lock_get hash shards b ∅ →
  sm_blocks sm !! b = Some h → (N.of_nat (S (refs b)) < 2 ^ 32)%N →
  ∃ sm', (sm1 ← new_reference b sm; release_shard hash shards b sm1) = Ok sm' ∧
    pool_inv sm' (<[b := S (refs b)]> m) (add_ref b refs) store ∧ shard_count_ sm' = ∅ ∧
    sm_blocks sm' = sm_blocks sm ∧ total_memory_usage_ sm' = total_memory_usage_ sm ∧
    max_memory_usage_ sm' = max_memory_usage_ sm.
Proof.
  intros Hinv Hs Hb Hlt. destruct (reference_inv sm m refs store b Hinv) as (p & -> & Hp); [by rewrite Hb|done|].
  cbn [mbind outcome_bind]. rewrite (release_held b) by done. eexists. split; [done|].
  split; [by apply inv_set_shards|done].
Qed.

(** The state in which [getInternal] loads the block. *)
Definition holding (b : nat) (sm : SM) : SM :=
  set_shards sm (lock_get hash shards b (shard_count_ sm)).

(** A block that has contents is found, unless memory or, when dirty blocks
    are not saved, its file is missing. *)
Lemma get_spec b blob sm m refs store :
  pool_inv sm m refs store → shard_count_ sm = ∅ → (N.of_nat (S (refs b)) < 2 ^ 32)%N →
  (getInternal hash shards force_save mmap_ok b blob sm = Err CheckFailed ∧
     sm_blocks sm !! b = None ∧ numSlots b (file_manager_ sm) = 0%N) ∨
  (∃ e, getInternal hash shards force_save mmap_ok b blob sm = Err e ∧
     sm_blocks sm !! b = None ∧ load_fails b (holding b sm) e) ∨
  (∀ e, ¬ (sm_blocks sm !! b = None ∧ load_fails b (holding b sm) e)) ∧ ∃ sm' m' h, getInternal hash shards force_save mmap_ok b blob sm = Ok sm' ∧
    pool_inv sm' m' (add_ref b refs) store ∧ shard_count_ sm' = ∅ ∧
    sm_blocks sm' !! b = Some h ∧
    (is_Some (sm_blocks sm !! b) ∧ sm_blocks sm' = sm_blocks sm ∨
     sm_blocks sm !! b = None ∧ room_for b m m' sm').
Proof using All.
  intros Hinv Hs Hlt. unfold getInternal. rewrite Hs.
  set (sm1 := set_shards sm (lock_get hash shards b ∅)).
  assert (pool_inv sm1 m refs store) as Hinv1 by by apply inv_set_shards.
  destruct (blockOrBlobIsLoaded b sm1) eqn:Hload; apply loaded_lookup in Hload.
  { right. right. destruct Hload as [h Hh].
    split; [intros e [Hno _]; cbn in Hh; congruence|].
    destruct (reference_release b sm1 m refs store h Hinv1 eq_refl Hh Hlt)
      as (sm' & -> & Hinv' & Hs' & Hb' & _).
    exists sm', (<[b := S (refs b)]> m), h. rewrite Hb'. split_and!; try done.
    left. split; [by exists h|done]. }
  rewrite (release_held b sm1) by done. cbn [mbind outcome_bind].
  set (sm2 := set_shards (set_shards sm1 ∅) (lock_get hash shards b ∅)).
  assert (pool_inv sm2 m refs store) as Hinv2 by by repeat apply inv_set_shards.
  change (shard_count_ (set_shards sm1 ∅)) with (∅ : gmap N nat). fold sm2.
  assert (blockOrBlobIsLoaded b sm2 = false) as ->.
  { by apply loaded_lookup. }
  destruct (load_block_spec b blob sm2 m refs store Hinv2 Hload eq_refl)
    as [[-> ?]|[(e & -> & Hwhy)|(Hno & sm3 & m3 & h & -> & Hinv3 & Hs3 & Hb3 & Hroom)]];
    cbn [mbind outcome_bind]; [by left| |right; right].
  { right. left. exists e. unfold holding. by rewrite Hs. }
  split. { intros e [_ Hwhy]. unfold holding in Hwhy. rewrite Hs in Hwhy. by apply (Hno e). }
  destruct (reference_release b sm3 m3 refs store h Hinv3 Hs3 Hb3 Hlt)
    as (sm' & -> & Hinv' & Hs' & Hb' & Hu & Hx).
  exists sm', (<[b := S (refs b)]> m3), h. rewrite Hb'. split_and!; try done. right. split; [done|].
  destruct Hroom as [Hr|[Hr|Hr]]; [left; congruence|right; left|by right; right].
  intros b' [[<- H]|[_ H]]%lookup_insert_Some; [done|by apply Hr in H].
Qed.

(** ** Deleting *)

Lemma drop_inv b sm m refs store p f :
  pool_inv sm m refs store → refs b = 0 → policy_knows p (delete b m) →
  files f !! b = None → (∀ b', b' ≠ b → files f !! b' = files (file_manager_ sm) !! b') →
  pool_inv (sm_update sm (delete b (sm_blocks sm)) (pool_size (delete b (sm_blocks sm))) p f
    (block_index_ sm) (shard_count_ sm)) (delete b m) refs (delete b store).
Proof.
  intros Hinv Hr Hp Hf Hne.
  assert (pool_size (delete b (sm_blocks sm)) ≤ pool_size (sm_blocks sm))%N as Hle.
  { destruct (sm_blocks sm !! b) as [h|] eqn:E; [rewrite (pool_size_delete _ _ _ E); lia|].
    by rewrite delete_id. }
  destruct Hinv. split; cbn; try done.
  - intros b' n [Hn Hm]%lookup_delete_Some. rewrite lookup_delete_ne by done. auto.
  - intros b' Hr'. rewrite lookup_delete_ne by (intros <-; lia). auto.
  - lia.
  - intros b' h [Hn Hb]%lookup_delete_Some. rewrite lookup_delete_ne by done. eauto.
  - intros Hs b' h [Hn Hb]%lookup_delete_Some. rewrite lookup_delete_ne by done. eauto.
  - intros b' H. assert (b' ≠ b) as Hn by (intros ->; rewrite Hf in H; by destruct H).
    rewrite lookup_delete_ne by done. rewrite Hne in H by done. auto.
  - intros b' [Hn H]%lookup_delete_is_Some. auto.
  - intros Hs b' c [Hn Hc]%lookup_delete_Some. unfold kept. cbn.
    rewrite lookup_delete_ne, Hne by done. by apply pi_kept.
Qed.

Lemma delete_inv b sm m refs store :
  pool_inv sm m refs store → refs b = 0 →
  (deleteBlockOrBlobFile b sm = Err CheckFailed ∧
     (deleteBlockOrBlob b (file_manager_ sm)).1 = false) ∨
  ∃ sm' m', deleteBlockOrBlobFile b sm = Ok sm' ∧ pool_inv sm' m' refs (delete b store) ∧
    shard_count_ sm' = shard_count_ sm ∧ sm_blocks sm' !! b = None.
Proof.
  intros Hinv Hr. pose proof (ref_count_known _ _ _ _ b Hinv) as Hc. rewrite Hr in Hc.
  destruct (evicted_spec _ _ b (pi_policy _ _ _ _ _ Hinv)) as (p1 & Hev & Hp1).
  { destruct (m !! b); cbn in Hc; subst; auto. }
  unfold deleteBlockOrBlobFile.
  assert (∃ p, (if blockOrBlobIsLoaded b sm then
          sm ← evictBlockOrBlob b sm;
          policy ← blockEvicted b (eviction_policy_ sm);
          Ok (set_policy sm policy)
        else Ok sm) =
      Ok (set_policy (set_blocks sm (delete b (sm_blocks sm)) (pool_size (delete b (sm_blocks sm)))
            (file_manager_ sm)) p) ∧ policy_knows p (delete b m)) as (p & -> & Hp).
  { destruct (blockOrBlobIsLoaded b sm) eqn:Hl; apply loaded_lookup in Hl.
    - destruct Hl as [h Hh]. exists p1. split; [|done]. unfold evictBlockOrBlob. rewrite Hh.
      cbn [mbind outcome_bind eviction_policy_ set_blocks sm_update]. rewrite Hev. cbn.
      unfold deallocateSlots. rewrite (pi_usage _ _ _ _ _ Hinv).
      pose proof (pool_size_delete _ _ _ Hh). pose proof (pi_small _ _ _ _ _ Hinv).
      rewrite uint64_sub_small by lia. do 3 f_equal. lia.
    - destruct (not_loaded_unknown _ _ _ _ _ Hinv Hl) as [Hm _].
      exists (eviction_policy_ sm). rewrite !delete_id by done.
      rewrite <- (pi_usage _ _ _ _ _ Hinv). split; [by destruct sm|apply Hinv]. }
  cbn [mbind outcome_bind file_manager_ set_policy set_blocks sm_update].
  destruct (deleteBlockOrBlob b (file_manager_ sm)) as [ok f] eqn:Hd.
  destruct (delete_spec _ _ _ _ Hd) as [Hok Hne]. destruct ok; [right|by left]. cbn [check mbind outcome_bind].
  destruct (deleted_spec p (delete b m) b Hp) as (p2 & Hdel & Hp2); [apply lookup_delete_eq|].
  cbn [eviction_policy_ set_policy set_blocks sm_update]. rewrite Hdel. cbn [mbind outcome_bind].
  eexists _, (delete b m). split; [done|].
  split; [exact (drop_inv b sm m refs store p2 f Hinv Hr Hp2 (Hok eq_refl) Hne)|].
  split; [done|]. cbn. apply lookup_delete_eq.
Qed.
End operations.
