(* ===== verification/BufferPool.v ===== *)
(** * The buffer pool as its callers see it

    Runs of the storage manager: any sequence of calls by callers that keep to
    its contract, against an abstract store, a map from ids to contents.  The
    pool never drops a referenced block and accounts for its memory; with
    --force_save_dirty_blocks it implements the store, and closing it writes
    the store to the files.  Without the flag, the default, it loses data. *)

From S2P Require Import Prelude EvictionPolicy EvictionPolicyTheorems.
From S2P Require Import StorageManager StorageManagerInv StorageManagerTheorems.
From stdpp Require Import options.

(** The calls, and what they return. *)
Inductive Call (C : Type) :=
  | Create (num_slots : N) (contents : C) (blob : bool)
  | Get (block : nat) (blob : bool)
  | Release (block : nat)
  | Modify (block : nat) (contents : C)
  | Save (block : nat) (force : bool)
  | Delete (block : nat).
Arguments Create {_} _ _ _.
Arguments Get {_} _ _.
Arguments Release {_} _.
Arguments Modify {_} _ _.
Arguments Save {_} _ _.
Arguments Delete {_} _.

Inductive CallResult := ReturnedId (block : nat) | ReturnedBool (b : bool) | Done.

(** The abstract store: the references that are held, and the contents. *)
Record Store (C : Type) := { held : nat → nat; contents_of : gmap nat C }.
Arguments held {_} _.
Arguments contents_of {_} _.

(** A count of references that an [unsigned int] holds. *)
Definition count_fits (n : nat) : bool := (N.of_nat n <? 2 ^ 32)%N.

(** What a call does to the store, when the caller may make it: it asks for at
    least one slot, holds less than [2 ^ 32] references to a block, changes
    only what it holds and deletes only what nobody holds.  A save that fails
    while it was forced is the end. *)
Definition store_call {C} (call : Call C) (res : CallResult) (s : Store C) : option (Store C) :=
  match call, res with
  | Create n c _, ReturnedId b =>
      if (0 <? n)%N then Some {| held := held s; contents_of := <[b := c]> (contents_of s) |}
      else None
  | Get b _, Done =>
      if count_fits (S (held s b))
      then Some {| held := add_ref b (held s); contents_of := contents_of s |} else None
  | Release b, Done =>
      if decide (0 < held s b)
      then Some {| held := drop_ref b (held s); contents_of := contents_of s |} else None
  | Modify b c, Done =>
      if decide (0 < held s b)
      then Some {| held := held s; contents_of := <[b := c]> (contents_of s) |} else None
  | Save _ force, ReturnedBool ok => if (ok || negb force : bool) then Some s else None
  | Delete b, Done =>
      if decide (held s b = 0)
      then Some {| held := held s; contents_of := delete b (contents_of s) |} else None
  | _, _ => None
  end.

Lemma count_fits_spec n : count_fits n = true ↔ (N.of_nat n < 2 ^ 32)%N.
Proof. apply N.ltb_lt. Qed.

Lemma store_call_get {C} b blob (s : Store C) :
  store_call (Get b blob) Done s =
  if count_fits (S (held s b))
  then Some {| held := add_ref b (held s); contents_of := contents_of s |} else None.
Proof. reflexivity. Qed.

Section runs.
Context {P F C : Type} `{!EvictionPolicyOps P, !FileManagerOps F C}.
Context (hash : nat → N) (shards : N) (force_save : bool) (mmap_ok : N → N → bool).
Abbreviation SM := (StorageManager P F C).

Definition sm_call (call : Call C) (sm : SM) : outcome (CallResult * SM) :=
  match call with
  | Create n c blob =>
      '(b, sm) ← create hash shards force_save mmap_ok n c blob sm; Ok (ReturnedId b, sm)
  | Get b blob => sm ← getInternal hash shards force_save mmap_ok b blob sm; Ok (Done, sm)
  | Release b => sm ← release_reference b sm; Ok (Done, sm)
  | Modify b c => sm ← modify b c sm; Ok (Done, sm)
  | Save b force => let '(ok, sm) := saveBlockOrBlob force_save b force sm in
                    Ok (ReturnedBool ok, sm)
  | Delete b => sm ← deleteBlockOrBlobFile b sm; Ok (Done, sm)
  end.

(** A run from the state [sm0] and the store [s0]. *)
Inductive pool_run (sm0 : SM) (s0 : Store C) : SM → Store C → Prop :=
  | run_start : pool_run sm0 s0 sm0 s0
  | run_call sm s call res sm' s' :
      pool_run sm0 s0 sm s → sm_call call sm = Ok (res, sm') →
      store_call call res s = Some s' → pool_run sm0 s0 sm' s'.

Fixpoint perform (calls : list (Call C)) (sm : SM) (s : Store C) : option (SM * Store C) :=
  match calls with
  | [] => Some (sm, s)
  | call :: calls' =>
      match sm_call call sm with
      | Ok (res, sm') =>
          match store_call call res s with Some s' => perform calls' sm' s' | None => None end
      | Err _ => None
      end
  end.

Lemma perform_run calls sm0 s0 sm s sm' s' :
  pool_run sm0 s0 sm s → perform calls sm s = Some (sm', s') → pool_run sm0 s0 sm' s'.
Proof.
  revert sm s. induction calls as [|call calls IH]; intros sm s Hrun Hp; cbn in Hp.
  - by injection Hp as <- <-.
  - destruct (sm_call call sm) as [[res sm1]|] eqn:E1; [|done].
    destruct (store_call call res s) as [s1|] eqn:E2; [|done].
    eapply IH; [|exact Hp]. by eapply run_call.
Qed.
End runs.

(** The store in the files of a manager that starts: nothing is held, no file
    is empty, and the ids are used up to [index]. *)
Definition store_of {F C} `{!FileManagerOps F C, !FileManagerLaws F C} (f : F) : Store C :=
  {| held := λ _, 0; contents_of := snd <$> files f |}.

Definition files_ok {F C} `{!FileManagerOps F C, !FileManagerLaws F C} (f : F) (index : nat)
  : Prop := ∀ b n c, files f !! b = Some (n, c) → (0 < n)%N ∧ b ≤ index.

Section refinement.
Context {P F C : Type} `{!EvictionPolicyOps P, !EvictionPolicyLaws P}.
Context `{!FileManagerOps F C, !FileManagerLaws F C}.
Context (hash : nat → N) (shards : N) (force_save : bool) (mmap_ok : N → N → bool).
Abbreviation SM := (StorageManager P F C).
Abbreviation pool_run := (pool_run (P := P) (F := F) (C := C) hash shards force_save mmap_ok).
Implicit Types sm : SM.

Definition run_inv (sm : SM) (s : Store C) (m : gmap nat nat) : Prop :=
  pool_inv force_save sm m (held s) (contents_of s) ∧ shard_count_ sm = ∅ ∧
  ∀ b, (N.of_nat (held s b) < 2 ^ 32)%N.

Lemma start_inv limit p f index :
  policy_knows p ∅ → files_ok f index → run_inv (new_StorageManager limit p f index) (store_of f) ∅.
Proof.
  intros Hp Hf. split; [|done]. split; cbn; try done.
  - lia.
  - intros b [x Hx]. rewrite lookup_fmap, Hx. by eexists.
  - intros b [c Hc]. rewrite lookup_fmap in Hc.
    destruct (files f !! b) as [[n c']|] eqn:E; [|done]. by apply Hf in E as [_ ?].
  - intros _ b c Hc. rewrite lookup_fmap in Hc. unfold kept. cbn. rewrite lookup_empty.
    destruct (files f !! b) as [[n c']|] eqn:E; [|done]. injection Hc as <-.
    exists n. by apply Hf in E as [? _].
Qed.

(** What can be mapped fits in the address space. *)
Context (mmap_bound : ∀ u n, mmap_ok u n = true → (u + n < 2 ^ 64)%N).

Definition keeps (call : Call C) : Prop := ∀ res sm s m sm' s',
  run_inv sm s m → sm_call hash shards force_save mmap_ok call sm = Ok (res, sm') →
  store_call call res s = Some s' → ∃ m', run_inv sm' s' m'.

Lemma create_keeps n c blob : keeps (Create n c blob).
Proof using All.
  intros res sm s m sm' s' (Hinv & Hs & Hb) Hcall Hst. cbn [sm_call] in Hcall.
  destruct res; try done. cbn [store_call] in Hst.
  destruct (0 <? n)%N eqn:Hn; [|done]. injection Hst as <-. apply N.ltb_lt in Hn.
  destruct (create_spec hash shards force_save mmap_ok mmap_bound n c blob
    sm m (held s) (contents_of s) Hinv Hs Hn) as [(_ & E)|(_ & b & sm1 & m1 & E & _ & Hinv1 & Hs1 & _)];
    rewrite E in Hcall; [done|]. injection Hcall as <- <-. by exists m1.
Qed.

Lemma get_keeps b blob : keeps (Get b blob).
Proof using All.
  intros res sm s m sm' s' (Hinv & Hs & Hb) Hcall Hst. cbn [sm_call] in Hcall.
  destruct res; try done. rewrite store_call_get in Hst.
  destruct (count_fits (S (held s b))) eqn:Hlt; [|done].
  apply count_fits_spec in Hlt. injection Hst as <-.
  destruct (get_spec hash shards force_save mmap_ok mmap_bound b blob sm m (held s)
    (contents_of s) Hinv Hs Hlt) as [[E _]|[(e & E & _)|(_ & sm1 & m1 & h & E & Hinv1 & Hs1 & _)]];
    rewrite E in Hcall; [done|done|].
  injection Hcall as <-. exists m1. split; [exact Hinv1|]. split; [done|].
  intros b'. cbn [held]. unfold add_ref. case_decide as Hd; [subst b'; exact Hlt|apply Hb].
Qed.

Lemma release_keeps b : keeps (Release b).
Proof.
  intros res sm s m sm' s' (Hinv & Hs & Hb) Hcall Hst. cbn [sm_call] in Hcall.
  destruct res; try done. cbn [store_call] in Hst. case_decide as Hr; [|done]. injection Hst as <-.
  destruct (unreference_inv force_save sm m (held s) (contents_of s) b Hinv Hr (Hb b))
    as (p & E & Hinv1). rewrite E in Hcall. injection Hcall as <-.
  eexists. split; [exact Hinv1|]. split; [done|].
  intros b'. cbn [held]. unfold drop_ref. pose proof (Hb b'). case_decide; lia.
Qed.

Lemma modify_keeps b c : keeps (Modify b c).
Proof.
  intros res sm s m sm' s' (Hinv & Hs & Hb) Hcall Hst. cbn [sm_call] in Hcall.
  destruct res; try done. cbn [store_call] in Hst. case_decide as Hr; [|done]. injection Hst as <-.
  destruct (modify_inv force_save sm m (held s) (contents_of s) b c Hinv Hr)
    as (sm1 & E & Hinv1 & Hs1). rewrite E in Hcall. injection Hcall as <-.
  exists m. split; [exact Hinv1|]. split; [congruence|exact Hb].
Qed.

Lemma save_keeps b force : keeps (Save b force).
Proof.
  intros res sm s m sm' s' (Hinv & Hs & Hb) Hcall Hst. cbn [sm_call] in Hcall.
  destruct (saveBlockOrBlob force_save b force sm) as [ok sm1] eqn:E.
  injection Hcall as <- <-. cbn [store_call] in Hst.
  destruct (ok || negb force) eqn:Hok; [|done]. injection Hst as <-.
  exists m. destruct (sm_blocks sm !! b) as [h|] eqn:Hh.
  - destruct (save_spec force_save b h force sm m (held s) (contents_of s) ok sm1 Hinv Hh E)
      as (Hinv1 & Hrest & _); [destruct ok, force; auto|].
    split; [exact Hinv1|]. split; [|exact Hb]. destruct Hrest as (_ & -> & _). done.
  - unfold saveBlockOrBlob in E. rewrite Hh in E. by injection E as <- <-.
Qed.

Lemma delete_keeps b : keeps (Delete b).
Proof.
  intros res sm s m sm' s' (Hinv & Hs & Hb) Hcall Hst. cbn [sm_call] in Hcall.
  destruct res; try done. cbn [store_call] in Hst. case_decide as Hr; [|done]. injection Hst as <-.
  destruct (delete_inv force_save b sm m (held s) (contents_of s) Hinv Hr)
    as [[E _]|(sm1 & m1 & E & Hinv1 & Hs1 & _)]; rewrite E in Hcall; [done|].
  injection Hcall as <-. exists m1. split; [exact Hinv1|]. split; [congruence|exact Hb].
Qed.

Lemma call_keeps call : keeps call.
Proof using All.
  destruct call; [apply create_keeps|apply get_keeps|apply release_keeps|apply modify_keeps|
    apply save_keeps|apply delete_keeps].
Qed.

Lemma run_keeps limit p f index sm s :
  policy_knows p ∅ → files_ok f index →
  pool_run (new_StorageManager limit p f index) (store_of f) sm s → ∃ m, run_inv sm s m.
Proof using All.
  intros Hp Hf Hrun. induction Hrun as [|? ? ? ? ? ? _ [m IH] Hc Hs].
  - exists ∅. by apply start_inv.
  - by eapply call_keeps.
Qed.
End refinement.

(** ** Closing *)

Section closing.
Context {P F C : Type} `{!EvictionPolicyOps P, !EvictionPolicyLaws P}.
Context `{!FileManagerOps F C, !FileManagerLaws F C}.
Context (force_save : bool).
Context (write_ok : ∀ b n (c : C) (f : F), (writeBlockOrBlob b n c f).1 = true).
Abbreviation SM := (StorageManager P F C).
Implicit Types sm : SM.

(** The file of a block after the destructor has come to it. *)
Definition closed_file (sm : SM) (b : nat) : option (N * C) :=
  match sm_blocks sm !! b with
  | Some h => if is_dirty h then Some (block_memory_size h, block_memory h)
              else files (file_manager_ sm) !! b
  | None => files (file_manager_ sm) !! b
  end.

Lemma close_block_spec b sm :
  files (file_manager_ (close_block force_save sm b)) !! b = closed_file sm b ∧
  same_elsewhere b sm (close_block force_save sm b).
Proof using write_ok.
  unfold close_block, closed_file. destruct (sm_blocks sm !! b) as [h|] eqn:Hb; [|done].
  destruct (is_dirty h) eqn:Hd; [|by split].
  unfold saveBlockOrBlob. rewrite Hb. cbn [negb andb].
  pose proof (write_ok b (block_memory_size h) (block_memory h) (file_manager_ sm)) as Hok.
  destruct (writeBlockOrBlob _ _ _ _) as [ok f] eqn:Hw. cbn in Hok. subst ok.
  destruct (write_spec _ _ _ _ _ _ Hw) as [Hf Hne]. cbn. split; [by apply Hf|].
  split; [|done]. intros b' Hb'. cbn. by rewrite lookup_insert_ne.
Qed.

Lemma close_blocks_spec l sm b :
  NoDup l →
  files (file_manager_ (foldl (close_block force_save) sm l)) !! b =
  if decide (b ∈ l) then closed_file sm b else files (file_manager_ sm) !! b.
Proof using write_ok.
  revert sm. induction l as [|a l IH]; intros sm Hl; cbn [foldl].
  { by rewrite decide_False by set_solver. }
  apply NoDup_cons in Hl as [Ha Hl]. rewrite IH by done.
  destruct (close_block_spec a sm) as [Hf [Hs1 Hs2]].
  destruct (decide (b = a)) as [->|Hne].
  - rewrite decide_False, decide_True by set_solver. done.
  - unfold closed_file. rewrite Hs1, Hs2 by done.
    destruct (decide (b ∈ l)); [rewrite decide_True by set_solver|rewrite decide_False by set_solver];
      done.
Qed.

Lemma close_files `{!HashOrder (nat * BlockHandle C)} sm b :
  files (file_manager_ (close force_save sm)) !! b = closed_file sm b.
Proof using write_ok.
  unfold close. rewrite close_blocks_spec.
  2: { unfold map_iter. rewrite hash_order_perm. apply NoDup_fst_map_to_list. }
  destruct (decide (b ∈ (map_iter (sm_blocks sm)).*1)) as [|Hn]; [done|].
  unfold closed_file. destruct (sm_blocks sm !! b) as [h|] eqn:E; [|done].
  destruct Hn. apply list_elem_of_fmap. exists (b, h). split; [done|]. by apply elem_of_map_iter.
Qed.

Lemma closed_kept sm m refs store b :
  pool_inv force_save sm m refs store → force_save = true →
  match store !! b with
  | Some c => ∃ n, (0 < n)%N ∧ closed_file sm b = Some (n, c)
  | None => closed_file sm b = None
  end.
Proof.
  intros Hinv Hf. unfold closed_file. destruct (store !! b) as [c|] eqn:Hc.
  - pose proof (pi_kept _ _ _ _ _ Hinv Hf b c Hc) as Hk. unfold kept in Hk.
    destruct (sm_blocks sm !! b) as [h|] eqn:Hb; [|done].
    destruct (pi_loaded _ _ _ _ _ Hinv b h Hb) as [Hpos _].
    pose proof (pi_contents _ _ _ _ _ Hinv Hf b h Hb) as Hm. exists (block_memory_size h).
    destruct (is_dirty h); split; auto; congruence.
  - destruct (sm_blocks sm !! b) as [h|] eqn:Hb.
    { destruct (pi_loaded _ _ _ _ _ Hinv b h Hb) as [_ [? ?]]. congruence. }
    destruct (files (file_manager_ sm) !! b) as [x|] eqn:Hx; [|done].
    destruct (pi_files _ _ _ _ _ Hinv b) as [? ?]; [by rewrite Hx|]. congruence.
Qed.
End closing.

(** ** What the callers get *)

Section claims.
Context {P F C : Type} `{!EvictionPolicyOps P, !EvictionPolicyLaws P}.
Context `{!FileManagerOps F C, !FileManagerLaws F C}.
Context (hash : nat → N) (shards : N) (mmap_ok : N → N → bool).
Context (mmap_bound : ∀ u n, mmap_ok u n = true → (u + n < 2 ^ 64)%N).
Context (limit : N) (p : P) (f : F) (index : nat).
Context (policy_empty : policy_knows p ∅) (start_ok : files_ok f index).
Abbreviation pool_run force_save := (pool_run (P := P) (F := F) (C := C) hash shards force_save mmap_ok
  (new_StorageManager limit p f index) (store_of f)).

(** C35. The buffer pool accounts for its memory and keeps what is in use: after
    any calls, with or without --force_save_dirty_blocks and with any eviction
    policy that keeps the contract [EvictionPolicyLaws] (the models of
    [EvictAny] and LRU-K do, the one of the random policy does not), the usage is
    exactly the slots of the blocks in the pool and every block with a
    reference is in the pool.  The next block of [n] slots is refused, with an
    exception, exactly when memory for [n] slots cannot be mapped on top of
    what is in use once room has been made, which is no more than before;
    otherwise it is created under an id that nothing had before, with the
    contents given, and afterwards the usage is within the limit unless the
    policy knows of no other block to evict. *)
Theorem buffer_pool_memory force_save sm s :
  pool_run force_save sm s →
  total_memory_usage_ sm = pool_size (sm_blocks sm) ∧
  (∀ b, 0 < held s b → is_Some (sm_blocks sm !! b)) ∧
  ∀ n c blob, (0 < n)%N → ∃ sm1,
    makeRoomForBlockOrBlob hash shards force_save n sm = Ok sm1 ∧
    (total_memory_usage_ sm1 ≤ total_memory_usage_ sm)%N ∧
    if mmap_ok (total_memory_usage_ sm1) n then
      ∃ b sm' m', create hash shards force_save mmap_ok n c blob sm = Ok (b, sm') ∧
        contents_of s !! b = None ∧ policy_knows (eviction_policy_ sm') m' ∧
        ((total_memory_usage_ sm' ≤ max_memory_usage_ sm')%N ∨
         ∀ b', m' !! b' = Some 0 → b' = b) ∧
        pool_run force_save sm' {| held := held s; contents_of := <[b := c]> (contents_of s) |}
    else create hash shards force_save mmap_ok n c blob sm = Err Thrown.
Proof using mmap_bound policy_empty start_ok.
  intros Hrun.
  destruct (run_keeps hash shards force_save mmap_ok mmap_bound _ _ _ _ _ _ policy_empty start_ok Hrun)
    as (m & Hinv & Hs & _).
  split; [apply Hinv|]. split.
  - intros b Hr. pose proof (pi_refs _ _ _ _ _ Hinv b Hr) as Hm.
    apply (pi_known _ _ _ _ _ Hinv _ _ Hm).
  - intros n c blob Hn.
    destruct (create_spec hash shards force_save mmap_ok mmap_bound n c blob sm m _ _ Hinv Hs Hn)
      as [((sm1 & Hmake & Hu & Hok) & E)|(Hmem & b & sm' & m' & E & Hb & Hinv' & _ & Hroom & _)].
    + exists sm1. by rewrite Hok.
    + destruct (allocate_spec hash shards force_save mmap_ok n sm m _ _ Hinv)
        as (sm1 & _ & _ & (_ & _ & _ & Hu & _) & _ & _ & Hmake & _).
      exists sm1. split; [done|]. split; [done|].
      destruct (mmap_ok (total_memory_usage_ sm1) n) eqn:Hok; [|destruct Hmem; by exists sm1].
      exists b, sm', m'. split_and!; try done; [apply Hinv'|].
      apply (run_call _ _ _ _ _ _ sm s (Create n c blob) (ReturnedId b));
        [done|cbn [sm_call]; by rewrite E|].
      cbn [store_call]. by apply N.ltb_lt in Hn as ->.
Qed.

(** Why a block with the contents [c] is refused: it is not in the pool but in a
    file, and after room has been made for it there is no memory, or the file
    cannot be read. *)
Definition refused (b : nat) (c : C) (sm : StorageManager P F C) (e : failure) : Prop :=
  sm_blocks sm !! b = None ∧ ∃ n sm1,
    files (file_manager_ sm) !! b = Some (n, c) ∧
    makeRoomForBlockOrBlob hash shards true n (holding hash shards b sm) = Ok sm1 ∧
    (total_memory_usage_ sm1 ≤ total_memory_usage_ sm)%N ∧
    files (file_manager_ sm1) !! b = Some (n, c) ∧
    match e with
    | Thrown => mmap_ok (total_memory_usage_ sm1) n = false
    | CheckFailed => mmap_ok (total_memory_usage_ sm1) n = true ∧
                     readBlockOrBlob (C := C) b n (file_manager_ sm1) = None
    | _ => False
    end.

(** C36. With --force_save_dirty_blocks the storage manager is a map from ids to
    contents, however small the memory and whatever is evicted: after any
    calls, [getBlock] and [getBlob] of a block that was created and not deleted
    give its latest contents, and then the caller holds a reference; of any
    other id they report that there is no such block.  A block in the pool is
    always given.  One that is not has a file with its latest contents, and is
    refused exactly when, once room has been made for it, memory for it cannot
    be mapped or that file cannot be read. *)
Theorem buffer_pool_implements_store sm s :
  pool_run true sm s →
  (∀ b h, sm_blocks sm !! b = Some h → contents_of s !! b = Some (block_memory h)) ∧
  ∀ b blob, count_fits (S (held s b)) = true →
    match contents_of s !! b with
    | None => getInternal hash shards true mmap_ok b blob sm = Err CheckFailed
    | Some c =>
        match getInternal hash shards true mmap_ok b blob sm with
        | Err e => refused b c sm e
        | Ok sm' => (∀ e, ¬ refused b c sm e) ∧ ∃ h,
            sm_blocks sm' !! b = Some h ∧ block_memory h = c ∧
            pool_run true sm' {| held := add_ref b (held s); contents_of := contents_of s |}
        end
    end.
Proof using mmap_bound policy_empty start_ok.
  intros Hrun.
  destruct (run_keeps hash shards true mmap_ok mmap_bound _ _ _ _ _ _ policy_empty start_ok Hrun)
    as (m & Hinv & Hs & _).
  split; [by apply (pi_contents _ _ _ _ _ Hinv)|]. intros b blob Hfit.
  pose proof (proj1 (count_fits_spec _) Hfit) as Hlt.
  destruct (get_spec hash shards true mmap_ok mmap_bound b blob sm m _ _ Hinv Hs Hlt)
    as [(E & Hb & Hn)|[(e & E & Hb & Hwhy)|(Hno & sm' & m' & h & E & Hinv' & _ & Hh & _)]]; rewrite E.
  - destruct (contents_of s !! b) as [c|] eqn:Hc; [|done].
    pose proof (pi_kept _ _ _ _ _ Hinv eq_refl b c Hc) as Hk. unfold kept in Hk. rewrite Hb in Hk.
    destruct Hk as (n & Hpos & Hk). rewrite numSlots_spec, Hk in Hn. lia.
  - destruct Hwhy as (n & c & sm1 & Hfile & Hwhy).
    rewrite (unloaded_file true sm m _ _ b n c Hinv Hb eq_refl Hfile). split; [done|]. by exists n, sm1.
  - pose proof (pi_contents _ _ _ _ _ Hinv' eq_refl b h Hh) as Hc. rewrite Hc. split.
    + intros e (Hb & n & sm1 & Hfile & Hwhy). apply (Hno e). split; [done|]. by exists n, (block_memory h), sm1.
    + exists h. split_and!; try done.
      apply (run_call _ _ _ _ _ _ sm s (Get b blob) Done); [done|cbn; by rewrite E|].
      by rewrite store_call_get, Hfit.
Qed.

(** C37. Nothing is lost when the storage manager is closed: with
    --force_save_dirty_blocks, and if the files can be written, the files that
    the destructor leaves after any calls are exactly the blocks that were
    created and not deleted, with their latest contents, so that a new storage
    manager on them starts from the same store. *)
Theorem buffer_pool_survives_restart `{!HashOrder (nat * BlockHandle C)} sm s :
  (∀ b n (c : C) (f : F), (writeBlockOrBlob b n c f).1 = true) →
  pool_run true sm s →
  let f' := file_manager_ (close true sm) in
  contents_of (store_of f') = contents_of s ∧ files_ok f' (block_index_ sm).
Proof using mmap_bound policy_empty start_ok.
  intros Hw Hrun f'.
  destruct (run_keeps hash shards true mmap_ok mmap_bound _ _ _ _ _ _ policy_empty start_ok Hrun)
    as (m & Hinv & Hs & _).
  split.
  - apply map_eq. intros b. cbn. rewrite lookup_fmap. unfold f'. rewrite close_files by done.
    pose proof (closed_kept true sm m _ _ b Hinv eq_refl) as Hk.
    destruct (contents_of s !! b); [destruct Hk as (n & _ & ->)|rewrite Hk]; done.
  - intros b n c Hb. unfold f' in Hb. rewrite close_files in Hb by done.
    pose proof (closed_kept true sm m _ _ b Hinv eq_refl) as Hk.
    destruct (contents_of s !! b) as [c'|] eqn:Hc; [|congruence].
    destruct Hk as (n' & Hpos & Hk). rewrite Hk in Hb. injection Hb as <- <-. split; [done|].
    apply (pi_fresh _ _ _ _ _ Hinv). by rewrite Hc.
Qed.
End claims.

(** ** Runs with files in memory *)

#[local] Instance sample_order_nat : HashOrder nat := identity_order nat.
#[local] Instance sample_order_pool : HashOrder (nat * BlockHandle nat) := identity_order _.

#[local] Instance memory_file_ops : FileManagerOps (gmap nat (N * nat)) nat := {
  numSlots b f := match f !! b with Some (n, _) => n | None => 0%N end;
  readBlockOrBlob b _ f := snd <$> f !! b;
  writeBlockOrBlob b n c f := (true, <[b := (n, c)]> f);
  deleteBlockOrBlob b f := (true, delete b f);
}.

#[local] Instance memory_file_laws : FileManagerLaws (gmap nat (N * nat)) nat.
Proof.
  refine {| files := id |}.
  - done.
  - intros b f n c c' H. cbn in H |- *. rewrite H. by intros [= <-].
  - intros b n c f ok f' [= <- <-]. split; [intros _; apply lookup_insert_eq|].
    intros b' Hb. by apply lookup_insert_ne.
  - intros b f ok f' [= <- <-]. split; [intros _; apply lookup_delete_eq|].
    intros b' Hb. by apply lookup_delete_ne.
Defined.

Definition sample_mmap (u n : N) : bool := (u + n <? 2 ^ 64)%N.
Definition sample_start (limit : N) (files : gmap nat (N * nat))
  : StorageManager EvictAny (gmap nat (N * nat)) nat :=
  new_StorageManager limit {| ea_ref_counts := ∅; ea_nonreferenced := ∅ |} files 1.
Definition sample_perform (shards : N) (force_save : bool) (limit : N)
    (files : gmap nat (N * nat)) (calls : list (Call nat)) :=
  perform N.of_nat shards force_save sample_mmap calls (sample_start limit files) (store_of files).

(** Without --force_save_dirty_blocks a dirty block is dropped when memory runs
    short, and is not found afterwards. *)
Lemma dirty_block_lost :
  match sample_perform 16 false 1 ∅ [Create 1 7 false; Create 1 8 false] with
  | Some (sm, s) =>
      contents_of s !! 2 = Some 7 ∧
      getBlockInternal N.of_nat 16 false sample_mmap 2 sm = Err CheckFailed
  | None => False
  end.
Proof. vm_compute. by split. Qed.

(** With the flag it is. *)
Lemma dirty_block_kept :
  match sample_perform 16 true 1 ∅ [Create 1 7 false; Create 1 8 false; Get 2 false] with
  | Some (sm, s) => block_memory <$> sm_blocks sm !! 2 = Some 7
  | None => False
  end.
Proof. by vm_compute. Qed.

(** A collision of shards makes the policy forget a block that stays in the
    pool: over the limit, it is not evicted although nobody references it. *)
Lemma collision_keeps_block :
  match sample_perform 1 true 1 {[1 := (1%N, 5)]}
          [Create 1 7 false; Get 1 false; Release 1; Create 1 8 false] with
  | Some (sm, s) =>
      held s 2 = 0 ∧ block_memory <$> sm_blocks sm !! 2 = Some 7 ∧ total_memory_usage_ sm = 2%N ∧
      ea_nonreferenced (eviction_policy_ sm) = {[3]}
  | None => False
  end.
Proof. vm_compute. split_and!; done. Qed.

(** A run that evicts, loads, changes and deletes. *)
Definition pool_calls : list (Call nat) :=
  [Create 1 7 false; Create 1 8 true; Create 1 9 false; Get 2 false; Modify 2 70; Release 2;
   Create 1 10 false; Delete 3; Get 1 false].

Definition sample_files : gmap nat (N * nat) := {[1 := (1%N, 5)]}.

Lemma sample_files_ok : files_ok sample_files 1.
Proof.
  intros b n c Hb. cbn in Hb. unfold sample_files in Hb.
  apply lookup_singleton_Some in Hb as [<- [= <- <-]]. lia.
Qed.

Lemma sample_policy_empty :
  policy_knows (P := EvictAny) {| ea_ref_counts := ∅; ea_nonreferenced := ∅ |} ∅.
Proof. exact any_knows_new. Qed.

Lemma sample_mmap_bound u n : sample_mmap u n = true → (u + n < 2 ^ 64)%N.
Proof. apply N.ltb_lt. Qed.

Lemma pool_calls_run : is_Some (sample_perform 16 true 2 sample_files pool_calls).
Proof.
  assert (match sample_perform 16 true 2 sample_files pool_calls with
    | Some _ => true | None => false end = true) as H by (vm_compute; reflexivity).
  destruct (sample_perform _ _ _ _ _) as [x|]; [by exists x|discriminate H].
Qed.

Lemma buffer_pool_memory_witness :
  ∃ sm s, sample_perform 16 true 2 sample_files pool_calls = Some (sm, s) ∧
    total_memory_usage_ sm = pool_size (sm_blocks sm) ∧ is_Some (sm_blocks sm !! 1) ∧
    ∃ b sm', create N.of_nat 16 true sample_mmap 1 11 false sm = Ok (b, sm') ∧
      contents_of s !! b = None.
Proof.
  destruct pool_calls_run as ((sm & s) & E).
  destruct (buffer_pool_memory N.of_nat 16 sample_mmap sample_mmap_bound 2
    {| ea_ref_counts := ∅; ea_nonreferenced := ∅ |} sample_files 1 sample_policy_empty sample_files_ok true sm s
    (perform_run _ _ _ _ _ _ _ _ _ _ _ (run_start _ _ _ _ _ _) E)) as (Hu & Hh & Hc).
  assert (match sample_perform 16 true 2 sample_files pool_calls with
    | Some (sm, s) => (held s 1, total_memory_usage_ sm) | None => (0, 0%N) end = (1, 2%N)) as H
    by (vm_compute; reflexivity).
  rewrite E in H. injection H as Hheld Husage.
  exists sm, s. split; [done|]. split; [done|]. split; [apply Hh; rewrite Hheld; lia|].
  destruct (Hc 1%N 11 false) as (sm1 & _ & Hle & Hcase); [done|].
  assert (sample_mmap (total_memory_usage_ sm1) 1 = true) as Hok.
  { apply N.ltb_lt. rewrite Husage in Hle. lia. }
  rewrite Hok in Hcase. destruct Hcase as (b & sm' & _ & Hx & Hnew & _).
  exists b, sm'. exact (conj Hx Hnew).
Defined.

Lemma buffer_pool_implements_store_witness :
  ∃ sm s sm' h, sample_perform 16 true 2 sample_files pool_calls = Some (sm, s) ∧
    getInternal N.of_nat 16 true sample_mmap 2 false sm = Ok sm' ∧
    sm_blocks sm' !! 2 = Some h ∧ block_memory h = 70.
Proof.
  destruct pool_calls_run as ((sm & s) & E).
  destruct (buffer_pool_implements_store N.of_nat 16 sample_mmap sample_mmap_bound 2
    {| ea_ref_counts := ∅; ea_nonreferenced := ∅ |} sample_files 1 sample_policy_empty sample_files_ok sm s
    (perform_run _ _ _ _ _ _ _ _ _ _ _ (run_start _ _ _ _ _ _) E)) as (_ & Hget).
  assert (match sample_perform 16 true 2 sample_files pool_calls with
    | Some (sm, s) => (held s 2, contents_of s !! 2,
        match getBlockInternal N.of_nat 16 true sample_mmap 2 sm with Ok _ => true | Err _ => false end)
    | None => (0, None, false) end = (0, Some 70, true)) as H by (vm_compute; reflexivity).
  rewrite E in H. injection H as Hheld Hc Hok.
  specialize (Hget 2 false). rewrite Hheld, Hc in Hget. specialize (Hget eq_refl).
  unfold getBlockInternal in Hok.
  destruct (getInternal N.of_nat 16 true sample_mmap 2 false sm) as [sm'|] eqn:Hx;
    [|discriminate Hok].
  destruct Hget as (_ & h & Hh & Hm & _).
  exists sm, s, sm', h. exact (conj E (conj Hx (conj Hh Hm))).
Defined.

Lemma buffer_pool_survives_restart_witness :
  ∃ sm s, sample_perform 16 true 2 sample_files pool_calls = Some (sm, s) ∧
    snd <$> file_manager_ (close true sm) !! 2 = Some 70 ∧
    file_manager_ (close true sm) !! 3 = None.
Proof.
  destruct pool_calls_run as ((sm & s) & E).
  destruct (buffer_pool_survives_restart N.of_nat 16 sample_mmap sample_mmap_bound 2
    {| ea_ref_counts := ∅; ea_nonreferenced := ∅ |} sample_files 1 sample_policy_empty sample_files_ok sm s
    (λ _ _ _ _, eq_refl) (perform_run _ _ _ _ _ _ _ _ _ _ _ (run_start _ _ _ _ _ _) E)) as [Hs _].
  assert (match sample_perform 16 true 2 sample_files pool_calls with
    | Some (_, s) => (contents_of s !! 2, contents_of s !! 3) | None => (None, None) end
    = (Some 70, None)) as H by (vm_compute; reflexivity).
  rewrite E, <- Hs in H. cbn in H. rewrite !lookup_fmap in H. injection H as H2 H3.
  exists sm, s. split; [done|]. split; [exact H2|]. by apply fmap_None in H3.
Defined.
