(* ===== verification/Comparators.v ===== *)
(** * Comparators over vectors of values

    Models the comparators of literals of
    types/operations/comparisons/LiteralComparators.hpp and
    LiteralComparators-inl.hpp (built with inline expansion), which compare
    whole columns of a block at once.  A value is of any type [V] and may be
    null; a column vector is the list of its values; an accessor gives the
    values of the attributes of the tuples of a block, and says which positions
    an iteration visits.  The strided column accessors read the same values and
    are not distinguished. *)

From stdpp Require Import options sorting.
From S2P Require Import Prelude TupleIdSequence.

(** ** Accessors *)

Record ValueAccessor (V : Type) := {
  getEndPosition : nat;
  visited : list nat;
  (** A null pointer is [None]. *)
  value_at : nat → nat → option V;
}.
Arguments getEndPosition {_} _.
Arguments visited {_} _.
Arguments value_at {_} _ _ _.

(** [createSharedTupleIdSequenceAdapter] *)
Definition createSharedTupleIdSequenceAdapter {V} (a : ValueAccessor V) (s : TupleIdSequence)
  : outcome (ValueAccessor V) :=
  ps ← visit s;
  Ok {| getEndPosition := seq_length s; visited := ps; value_at := value_at a |}.

(** ** The comparator *)

Record Comparator (V : Type) := {
  comparison_functor_ : V → V → bool;
  left_nullable : bool;
  right_nullable : bool;
}.
Arguments comparison_functor_ {_} _ _ _.
Arguments left_nullable {_} _.
Arguments right_nullable {_} _.

Definition is_null {V} (v : option V) : bool := match v with Some _ => false | None => true end.

(** Reading through a null pointer is undefined. *)
Definition deref {V} (v : option V) : outcome V :=
  match v with Some x => Ok x | None => Err UndefinedBehaviour end.

Section comparator.
Context {V : Type} `{!HeapMemory}.
(** QUICKSTEP_ENABLE_VECTOR_PREDICATE_SHORT_CIRCUIT *)
Context (short_circuit : bool).
Implicit Types c : Comparator V.

Definition compareDataPtrsInl c (left right : option V) : outcome bool :=
  if (left_nullable c && is_null left) || (right_nullable c && is_null right) then Ok false
  else l ← deref left; r ← deref right; Ok (comparison_functor_ c l r).
(** On values with a null flag, the same. *)
Definition compareTypedValues c (left right : option V) : outcome bool :=
  compareDataPtrsInl c left right.
Definition compareDataPtrsHelper (arguments_in_order : bool) c (left right : option V)
  : outcome bool :=
  l ← deref (if arguments_in_order then left else right);
  r ← deref (if arguments_in_order then right else left);
  Ok (comparison_functor_ c l r).

(** A loop whose turns set a tuple of the result. *)
Fixpoint set_loop {A} (turn : A → outcome (option (nat * bool))) (l : list A)
    (result : TupleIdSequence) : outcome TupleIdSequence :=
  match l with
  | [] => Ok result
  | a :: l' =>
      r ← turn a;
      result ← (match (r : option (nat * bool)) with
                | Some (p, b) => set p b result
                | None => Ok result
                end);
      set_loop turn l' result
  end.

(** The positions of a column vector with those of [existence_bitmap], which an
    iterator follows; beyond its end there are none. *)
Fixpoint beside (cv_positions : list nat) (ps : list nat) : list (nat * option nat) :=
  match cv_positions, ps with
  | [], _ => []
  | cv_pos :: l, [] => (cv_pos, None) :: beside l []
  | cv_pos :: l, p :: ps' => (cv_pos, Some p) :: beside l ps'
  end.

(** [existence_it] is at a tuple. *)
Definition existing (p : option nat) : outcome nat :=
  match p with Some p => Ok p | None => Err UndefinedBehaviour end.

(** [for (cv_pos = 0; ...; ++cv_pos, ++existence_it)] *)
Definition over_existence (size : nat) (e : TupleIdSequence)
    (turn : nat → nat → outcome (option (nat * bool))) (result : TupleIdSequence)
  : outcome TupleIdSequence :=
  ps ← visit e;
  set_loop (λ '(cv_pos, p), p ← existing p; turn cv_pos p) (beside (seq 0 size) ps) result.
(** [for (filter_it = filter->begin(); filter_it != filter->end(); ++filter_it)] *)
Definition over_filter (f : TupleIdSequence) (turn : nat → outcome (option (nat * bool)))
    (result : TupleIdSequence) : outcome TupleIdSequence :=
  ps ← visit f; set_loop turn ps result.
(** [if (!short_circuit && filter != nullptr) result->intersectWith( *filter)] *)
Definition then_filter (filter : option TupleIdSequence) (result : TupleIdSequence)
  : outcome TupleIdSequence :=
  match filter with
  | Some f => if negb short_circuit then seq_intersectWith result f else Ok result
  | None => Ok result
  end.
Definition result_length (size : nat) (existence_bitmap : option TupleIdSequence) : nat :=
  match existence_bitmap with None => size | Some e => seq_length e end.

(** [result->set(p, b)] *)
Definition put (p : nat) (b : outcome bool) : outcome (option (nat * bool)) :=
  b ← b; Ok (Some (p, b)).
(** [if (filter->get(p)) result->set(p, b)] *)
Definition put_if (f : TupleIdSequence) (p : nat) (b : outcome bool)
  : outcome (option (nat * bool)) :=
  keep ← get p f; if (keep : bool) then put p b else Ok None.

Definition compareColumnVectors c (left right : list (option V))
    (filter existence_bitmap : option TupleIdSequence) : outcome TupleIdSequence :=
  result ← new_sequence (result_length (length left) existence_bitmap);
  let compare cv_pos :=
    l ← vec_at left cv_pos; r ← vec_at right cv_pos; compareDataPtrsInl c l r in
  match short_circuit, filter with
  | true, Some f =>
      match existence_bitmap with
      | Some e =>
          over_existence (length left) e (λ cv_pos p,
            put p (keep ← get p f; if (keep : bool) then compare cv_pos else Ok false)) result
      | None => over_filter f (λ p, put p (compare p)) result
      end
  | _, _ =>
      result ← (match existence_bitmap with
                | Some e => over_existence (length left) e (λ cv_pos p, put p (compare cv_pos)) result
                | None => set_loop (λ p, put p (compare p)) (seq 0 (length left)) result
                end);
      then_filter filter result
  end.

(** The static value is not null below. *)
Definition static_is_null (column_on_left : bool) c (static_value : option V) : bool :=
  (if column_on_left then right_nullable c else left_nullable c) && is_null static_value.
Definition column_nullable (column_on_left : bool) c : bool :=
  if column_on_left then left_nullable c else right_nullable c.
(** [!(nullable && value == nullptr) && compareDataPtrsHelper(value, &literal)] *)
Definition compare_with_literal (column_on_left : bool) c (value literal : option V)
  : outcome bool :=
  if column_nullable column_on_left c && is_null value then Ok false
  else compareDataPtrsHelper column_on_left c value literal.

Definition compareColumnVectorAndStaticValueHelper (column_vector_on_left : bool) c
    (column_vector : list (option V)) (static_value : option V)
    (filter existence_bitmap : option TupleIdSequence) : outcome TupleIdSequence :=
  result ← new_sequence (result_length (length column_vector) existence_bitmap);
  if static_is_null column_vector_on_left c static_value then Ok result
  else
    literal ← deref static_value;
    let compare cv_pos :=
      v ← vec_at column_vector cv_pos;
      compare_with_literal column_vector_on_left c v (Some literal) in
    match short_circuit, filter with
    | true, Some f =>
        match existence_bitmap with
        | Some e =>
            over_existence (length column_vector) e (λ cv_pos p, put_if f p (compare cv_pos)) result
        | None => over_filter f (λ p, put p (compare p)) result
        end
    | _, _ =>
        result ← (match existence_bitmap with
                  | Some e =>
                      over_existence (length column_vector) e (λ cv_pos p, put p (compare cv_pos))
                        result
                  | None => set_loop (λ p, put p (compare p)) (seq 0 (length column_vector)) result
                  end);
        then_filter filter result
    end.
Definition compareColumnVectorAndStaticValue c (left : list (option V)) (right : option V) :=
  compareColumnVectorAndStaticValueHelper true c left right.
Definition compareStaticValueAndColumnVector c (left : option V) (right : list (option V)) :=
  compareColumnVectorAndStaticValueHelper false c right left.

(** [!((nullable1 && value1 == nullptr) || (nullable2 && value2 == nullptr))
    && compareDataPtrsHelper(value1, value2)] *)
Definition compare_both (in_order : bool) c (first second : option V) : outcome bool :=
  if (column_nullable in_order c && is_null first)
     || (column_nullable (negb in_order) c && is_null second) then Ok false
  else compareDataPtrsHelper in_order c first second.

Definition compareSingleValueAccessor c (accessor : ValueAccessor V) (left_id right_id : nat)
    (filter : option TupleIdSequence) : outcome TupleIdSequence :=
  result ← new_sequence (getEndPosition accessor);
  let turn p :=
    put p (compare_both true c (value_at accessor left_id p) (value_at accessor right_id p)) in
  match short_circuit, filter with
  | true, Some f => over_filter f turn result
  | _, _ => result ← set_loop turn (visited accessor) result; then_filter filter result
  end.

Definition compareValueAccessorAndStaticValueHelper (value_accessor_on_left : bool) c
    (accessor : ValueAccessor V) (value_accessor_attr_id : nat) (static_value : option V)
    (filter : option TupleIdSequence) : outcome TupleIdSequence :=
  result ← new_sequence (getEndPosition accessor);
  if static_is_null value_accessor_on_left c static_value then Ok result
  else
    literal ← deref static_value;
    let turn p :=
      put p (compare_with_literal value_accessor_on_left c
               (value_at accessor value_accessor_attr_id p) (Some literal)) in
    match short_circuit, filter with
    | true, Some f => over_filter f turn result
    | _, _ => result ← set_loop turn (visited accessor) result; then_filter filter result
    end.
Definition compareValueAccessorAndStaticValue c accessor id (right : option V) :=
  compareValueAccessorAndStaticValueHelper true c accessor id right.
Definition compareStaticValueAndValueAccessor c (left : option V) accessor id :=
  compareValueAccessorAndStaticValueHelper false c accessor id left.

(** Without [existence_bitmap] the result is set at the position in the vector. *)
Definition compareColumnVectorAndValueAccessorHelper (column_vector_on_left : bool) c
    (column_vector : list (option V)) (accessor : ValueAccessor V)
    (value_accessor_attr_id : nat) (filter existence_bitmap : option TupleIdSequence)
  : outcome TupleIdSequence :=
  result ← new_sequence (result_length (length column_vector) existence_bitmap);
  let compare cv_pos p :=
    v ← vec_at column_vector cv_pos;
    compare_both column_vector_on_left c v (value_at accessor value_accessor_attr_id p) in
  match short_circuit, filter with
  | true, Some f =>
      match existence_bitmap with
      | Some e =>
          over_existence (length column_vector) e (λ cv_pos p, put_if f p (compare cv_pos p)) result
      | None => over_filter f (λ p, put p (compare p p)) result
      end
  | _, _ =>
      result ← (match existence_bitmap with
                | Some e =>
                    over_existence (length column_vector) e (λ cv_pos p, put p (compare cv_pos p))
                      result
                | None =>
                    set_loop (λ '(cv_pos, p), put cv_pos (compare cv_pos p))
                      (zip (seq 0 (length (visited accessor))) (visited accessor)) result
                end);
      then_filter filter result
  end.
Definition compareColumnVectorAndValueAccessor c (left : list (option V)) accessor id :=
  compareColumnVectorAndValueAccessorHelper true c left accessor id.
Definition compareValueAccessorAndColumnVector c accessor id (right : list (option V)) :=
  compareColumnVectorAndValueAccessorHelper false c right accessor id.
End comparator.

(** * What the comparators compute

    Every comparator function, on columns or on accessors, with or without a
    filter and an existence map, and with or without short-circuiting, gives
    exactly the chosen tuples for which the comparison of the two values is
    true; a comparison with null is false. *)

(** The result of a comparison. *)
Definition compares {V} (c : Comparator V) (l r : option V) : bool :=
  match l, r with Some a, Some b => comparison_functor_ c a b | _, _ => false end.

(** Values that the types of the two sides allow. *)
Definition typed {V} (c : Comparator V) (l r : option V) : Prop :=
  (l = None → left_nullable c = true) ∧ (r = None → right_nullable c = true).

Section comparisons.
Context {V : Type}.
Implicit Types c : Comparator V.

Lemma compareDataPtrsInl_spec c l r :
  typed c l r → compareDataPtrsInl c l r = Ok (compares c l r).
Proof.
  intros [Hl Hr]. unfold compareDataPtrsInl, compares.
  destruct l as [a|], r as [b|]; cbn; rewrite ?andb_false_r, ?andb_true_r;
    rewrite ?Hl, ?Hr by done; cbn; rewrite ?orb_true_r; done.
Qed.

Lemma compareDataPtrsHelper_spec in_order c a b :
  compareDataPtrsHelper in_order c (Some a) (Some b) =
  Ok (if in_order then comparison_functor_ c a b else comparison_functor_ c b a).
Proof. by destruct in_order. Qed.

Lemma compare_both_spec (in_order : bool) c v w :
  (if in_order then typed c v w else typed c w v) →
  compare_both in_order c v w = Ok (if in_order then compares c v w else compares c w v).
Proof.
  intros Ht. unfold compare_both, column_nullable.
  destruct in_order, Ht as [Hl Hr]; cbn [negb]; destruct v as [a|], w as [b|]; cbn;
    rewrite ?andb_false_r, ?andb_true_r, ?orb_true_r; rewrite ?Hl, ?Hr by done; cbn;
    rewrite ?orb_true_r; try done.
Qed.

Lemma compare_with_literal_spec (on_left : bool) c v lit :
  (if on_left then typed c v (Some lit) else typed c (Some lit) v) →
  compare_with_literal on_left c v (Some lit) =
  Ok (if on_left then compares c v (Some lit) else compares c (Some lit) v).
Proof.
  intros Ht. unfold compare_with_literal, column_nullable.
  destruct on_left, Ht as [Hl Hr]; destruct v as [a|]; cbn;
    rewrite ?andb_false_r, ?andb_true_r; rewrite ?Hl, ?Hr by done; done.
Qed.
End comparisons.

(** ** Loops *)

Lemma set_loop_spec {A} n (turn : A → outcome (option (nat * bool))) (pos : A → nat)
    (val : A → option bool) l result P :
  holds_exactly result n P →
  (∀ a, a ∈ l → turn a = Ok ((λ b, (pos a, b)) <$> val a) ∧ pos a < n ∧ ¬ P (pos a)) →
  NoDup (pos <$> l) →
  ∃ s, set_loop turn l result = Ok s ∧
    holds_exactly s n (λ i, P i ∨ ∃ a, a ∈ l ∧ pos a = i ∧ val a = Some true).
Proof.
  revert result P. induction l as [|a l IH]; intros result P Hr Hl Hnd; cbn [set_loop].
  { exists result. split; [done|]. eapply holds_ext; [done|]. intros i. split; [auto|].
    intros [?|(a & Ha & _)]; [done|]. by apply elem_of_nil in Ha. }
  destruct (Hl a) as (-> & Hlt & HP); [left|]. cbn [fmap list_fmap] in Hnd.
  apply NoDup_cons in Hnd as [Hna Hnd]. cbn [mbind outcome_bind].
  destruct (val a) as [b|] eqn:Hv; cbn [fmap option_fmap option_map mbind outcome_bind].
  - destruct (holds_set result n P (pos a) b Hr Hlt) as (r1 & -> & Hr1). cbn [mbind outcome_bind].
    destruct (IH r1 _ Hr1) as (s & -> & Hs); [|done|].
    { intros x Hx. destruct (Hl x) as (? & ? & ?); [by right|]. split_and!; [done|done|].
      rewrite decide_False; [done|]. intros E. apply Hna. rewrite <- E. by apply list_elem_of_fmap_2. }
    exists s. split; [done|]. eapply holds_ext; [done|]. intros i. cbn beta. split.
    + intros [H|(x & Hx & <- & Hvx)].
      * case_decide as E; [|by left]. right. exists a. split_and!; [left|done|congruence].
      * right. exists x. split_and!; [by right|done|done].
    + intros [H|(x & Hx & <- & Hvx)].
      * left. case_decide as E; [|done]. subst. done.
      * apply elem_of_cons in Hx as [->|Hx]; [left; rewrite decide_True by done; congruence|].
        right. by exists x.
  - destruct (IH result P Hr) as (s & -> & Hs); [|done|].
    { intros x Hx. apply Hl. by right. }
    exists s. split; [done|]. eapply holds_ext; [done|]. intros i. split.
    + intros [?|(x & Hx & ?)]; [by left|]. right. exists x. split; [by right|done].
    + intros [?|(x & Hx & <- & Hvx)]; [by left|].
      apply elem_of_cons in Hx as [->|Hx]; [congruence|]. right. by exists x.
Qed.

Lemma beside_lookup ps a :
  beside (seq a (length ps)) ps = zip (seq a (length ps)) (Some <$> ps).
Proof. revert a. induction ps as [|p ps IH]; intros a; cbn; [done|]. by rewrite IH. Qed.

Lemma elem_of_zip_seq {A} (l : list A) k x :
  (k, x) ∈ zip (seq 0 (length l)) l ↔ l !! k = Some x.
Proof.
  rewrite list_elem_of_lookup. split.
  - intros [i Hi]. apply lookup_zip_Some in Hi as [H1 H2].
    apply lookup_seq in H1 as [-> _]. done.
  - intros Hk. exists k. apply lookup_zip_Some. split; [|done].
    apply lookup_seq. split; [done|]. by eapply lookup_lt_Some.
Qed.

(** ** The chosen tuples *)

Section chosen.
Context (n : nat) (ex : list nat).
Implicit Types filter existence : option TupleIdSequence.

(** [ex] are the tuples that exist, in order; without an existence map the block
    is packed. *)
Definition tuples_exist existence : Prop :=
  StronglySorted lt ex ∧ (∀ i, i ∈ ex → i < n) ∧
  match existence with
  | None => ex = seq 0 n
  | Some e => seq_wf e ∧ seq_length e = n ∧ tuples e = ex
  end.

(** A filter chooses among them. *)
Definition filter_chooses filter : Prop :=
  match filter with
  | None => True
  | Some f => seq_wf f ∧ seq_length f = n ∧ ∀ i, i ∈ tuples f → i ∈ ex
  end.

Definition chosen filter (i : nat) : Prop :=
  match filter with None => i ∈ ex | Some f => i ∈ tuples f end.

(** The exact answer to a comparison that is [ok] at some tuples. *)
Definition answers (r : outcome TupleIdSequence) filter (ok : nat → bool) : Prop :=
  ∃ s, r = Ok s ∧ holds_exactly s n (λ i, chosen filter i ∧ ok i = true).

Lemma sorted_NoDup l : StronglySorted lt l → NoDup l.
Proof.
  induction 1 as [|x l _ IH Hx]; constructor; [|done]. intros Hin.
  rewrite Forall_forall in Hx. specialize (Hx x Hin). lia.
Qed.

Section loops.
Context (existence filter : option TupleIdSequence) (ok : nat → bool).
Context (Hex : tuples_exist existence) (Hf : filter_chooses filter).

Lemma exist_NoDup : NoDup ex.
Proof using Hex. apply sorted_NoDup, Hex. Qed.

Lemma loop_over turn ps (result : TupleIdSequence) :
  holds_exactly result n (λ _, False) → NoDup ps → (∀ p, p ∈ ps → p ∈ ex) →
  (∀ p, p ∈ ps → turn p = Ok (Some (p, ok p))) →
  ∃ s, set_loop turn ps result = Ok s ∧ holds_exactly s n (λ i, i ∈ ps ∧ ok i = true).
Proof using Hex.
  intros Hr Hnd Hps Hturn.
  destruct (set_loop_spec n turn id (λ p, Some (ok p)) ps result _ Hr) as (s & -> & Hs).
  - intros p Hp. rewrite Hturn by done. split_and!; [done| |tauto].
    destruct Hex as (_ & Hlt & _). by apply Hlt, Hps.
  - by rewrite list_fmap_id.
  - exists s. split; [done|]. eapply holds_ext; [done|]. intros i. split.
    + intros [[]|(a & Ha & <- & [= ?])]. done.
    + intros [Hi Ho]. right. exists i. split_and!; [done|done|by rewrite Ho].
Qed.

Lemma loop_filter turn f result :
  filter = Some f → holds_exactly result n (λ _, False) →
  (∀ p, p ∈ tuples f → turn p = Ok (Some (p, ok p))) →
  answers (over_filter f turn result) filter ok.
Proof using Hex Hf.
  intros E Hr Hturn. unfold over_filter. pose proof Hf as Hf'. rewrite E in Hf'.
  destruct Hf' as (Hw & _ & Hsub). rewrite visit_tuples by done. cbn [mbind outcome_bind].
  destruct (loop_over turn (tuples f) result Hr (tuples_NoDup f) Hsub Hturn) as (s & -> & Hs).
  rewrite E. by exists s.
Qed.

Lemma loop_existence e turn (val : nat → option bool) result :
  existence = Some e → holds_exactly result n (λ _, False) →
  (∀ k p, ex !! k = Some p → turn k p = Ok ((λ b, (p, b)) <$> val p)) →
  ∃ s, over_existence (length ex) e turn result = Ok s ∧
    holds_exactly s n (λ i, i ∈ ex ∧ val i = Some true).
Proof using Hex ok.
  pose proof exist_NoDup as Hnd. intros -> Hr Hturn. destruct Hex as (_ & Hlt & Hw & _ & Ht).
  unfold over_existence. rewrite visit_tuples by done. cbn [mbind outcome_bind]. rewrite Ht.
  rewrite beside_lookup.
  destruct (set_loop_spec n (λ '(cv_pos, p), p ← existing p; turn cv_pos p)
    (λ x, default 0 x.2) (λ x, val (default 0 x.2)) (zip (seq 0 (length ex)) (Some <$> ex))
    result _ Hr) as (s & -> & Hs).
  - intros [k p] Hkp. rewrite <- (length_fmap Some ex) in Hkp. apply elem_of_zip_seq in Hkp.
    rewrite list_lookup_fmap in Hkp. destruct (ex !! k) as [i|] eqn:Hk; [|done].
    injection Hkp as <-. cbn. split_and!; [by apply Hturn| |tauto].
    apply Hlt. by eapply list_elem_of_lookup_2.
  - replace (_ <$> _) with ex; [done|].
    rewrite <- (length_fmap Some ex). apply list_eq. intros k.
    rewrite list_lookup_fmap, lookup_zip_with, list_lookup_fmap.
    destruct (ex !! k) as [i|] eqn:Hk; cbn.
    + by rewrite lookup_seq_lt by (rewrite length_fmap; by eapply lookup_lt_Some).
    + by destruct (seq _ _ !! k).
  - exists s. split; [done|]. eapply holds_ext; [done|]. intros i. split.
    + intros [[]|([k p] & Hkp & <- & Hv)]. cbn in *. rewrite <- (length_fmap Some ex) in Hkp.
      apply elem_of_zip_seq in Hkp. rewrite list_lookup_fmap in Hkp.
      destruct (ex !! k) as [j|] eqn:Hk; [|done]. injection Hkp as <-. cbn in *.
      split; [|done]. by eapply list_elem_of_lookup_2.
    + intros [[k Hk]%list_elem_of_lookup Hv]. right. exists (k, Some i). split_and!; [|done|done].
      rewrite <- (length_fmap Some ex). apply elem_of_zip_seq.
      by rewrite list_lookup_fmap, Hk.
Qed.

(** What remains when there is no short-circuiting. *)
Lemma then_filter_spec (short_circuit : bool) s :
  (short_circuit = true → filter = None) →
  holds_exactly s n (λ i, i ∈ ex ∧ ok i = true) →
  answers (then_filter short_circuit filter s) filter ok.
Proof using Hf.
  intros Hsc Hs. unfold then_filter, answers, chosen. destruct filter as [f|]; [|by exists s].
  destruct short_circuit; [by specialize (Hsc eq_refl)|]. cbn [negb].
  destruct Hf as (Hw & Hn & Hsub).
  destruct (holds_intersect s f n _ (λ i, i ∈ tuples f) Hs) as (s' & -> & Hs'); [done|].
  exists s'. split; [done|]. eapply holds_ext; [done|]. intros i. cbn beta.
  split; [tauto|]. intros [? ?]. auto.
Qed.

End loops.

Section skeletons.
Context (existence filter : option TupleIdSequence) (ok : nat → bool).
Context (Hex : tuples_exist existence) (Hf : filter_chooses filter).

(** The four loops over a column. *)
Lemma column_loops (short_circuit : bool) result
    (turn_fe : TupleIdSequence → nat → nat → outcome (option (nat * bool)))
    (turn_f : nat → outcome (option (nat * bool)))
    (turn_e : nat → nat → outcome (option (nat * bool)))
    (plain : TupleIdSequence → outcome TupleIdSequence) (val : TupleIdSequence → nat → option bool) :
  holds_exactly result n (λ _, False) →
  (∀ f k p, filter = Some f → ex !! k = Some p →
     turn_fe f k p = Ok ((λ b, (p, b)) <$> val f p) ∧
     (val f p = Some true ↔ p ∈ tuples f ∧ ok p = true)) →
  (existence = None → ∀ p, p ∈ ex → turn_f p = Ok (Some (p, ok p))) →
  (∀ k p, ex !! k = Some p → turn_e k p = Ok (Some (p, ok p))) →
  (existence = None →
     ∃ s, plain result = Ok s ∧ holds_exactly s n (λ i, i ∈ ex ∧ ok i = true)) →
  answers
    (match short_circuit, filter with
     | true, Some f =>
         match existence with
         | Some e => over_existence (length ex) e (turn_fe f) result
         | None => over_filter f turn_f result
         end
     | _, _ =>
         r ← (match existence with
              | Some e => over_existence (length ex) e turn_e result
              | None => plain result
              end);
         then_filter short_circuit filter r
     end) filter ok.
Proof using Hex Hf.
  intros Hr Hfe Hft He Hplain.
  assert (∃ s, (match existence with
      | Some e => over_existence (length ex) e turn_e result
      | None => plain result end) = Ok s ∧
      holds_exactly s n (λ i, i ∈ ex ∧ ok i = true)) as (s & Hs & Hh).
  { destruct existence as [e|] eqn:E; [|by apply Hplain].
    destruct (loop_existence (Some e) ok Hex e turn_e (λ p, Some (ok p)) result eq_refl Hr)
      as (s & -> & Hs); [intros k p Hk; by rewrite He|].
    exists s. split; [done|]. eapply holds_ext; [done|]. intros i. cbn beta.
    split; intros [Hi Ho]; (split; [exact Hi|]); [by injection Ho|by rewrite Ho]. }
  destruct short_circuit, filter as [f|] eqn:Efi;
    try (rewrite Hs; cbn [mbind outcome_bind]; by apply then_filter_spec).
  destruct existence as [e|] eqn:E.
  - destruct (loop_existence (Some e) ok Hex e (turn_fe f) (val f) result eq_refl Hr)
      as (s' & -> & Hs').
    { intros k p Hk. by apply Hfe. }
    exists s'. split; [done|]. eapply holds_ext; [done|]. intros i. unfold chosen. split.
    + intros [[k Hk]%list_elem_of_lookup Hv]. by apply (Hfe f k i).
    + intros Hi. destruct Hf as (_ & _ & Hsub). pose proof (Hsub i (proj1 Hi)) as Hin.
      split; [done|]. apply list_elem_of_lookup in Hin as [k Hk]. by apply (Hfe f k i).
  - eapply loop_filter; [done|done|done|done|].
    intros p Hp. apply Hft; [done|]. destruct Hf as (_ & _ & Hsub). by apply Hsub.
Qed.

(** The loops over an accessor. *)
Lemma accessor_loops (short_circuit : bool) result (turn : nat → outcome (option (nat * bool))) :
  holds_exactly result n (λ _, False) →
  (∀ p, p ∈ ex → turn p = Ok (Some (p, ok p))) →
  answers
    (match short_circuit, filter with
     | true, Some f => over_filter f turn result
     | _, _ => r ← set_loop turn ex result; then_filter short_circuit filter r
     end) filter ok.
Proof using Hex Hf.
  intros Hr Hturn.
  destruct (loop_over existence ok Hex turn ex result Hr) as (s & Hs & Hh);
    [by eapply exist_NoDup|done|done|].
  destruct short_circuit, filter as [f|] eqn:Efi;
    try (rewrite Hs; cbn [mbind outcome_bind]; by apply then_filter_spec).
  eapply loop_filter; [done|done|done|done|].
  intros p Hp. apply Hturn. destruct Hf as (_ & _ & Hsub). by apply Hsub.
Qed.
End skeletons.
End chosen.

(** ** The functions *)

Section functions.
Context {V : Type} `{!HeapMemory} (short_circuit : bool) (c : Comparator V).
Context (n : nat) (ex : list nat) (existence filter : option TupleIdSequence).
Context (Hex : tuples_exist n ex existence) (Hf : filter_chooses n ex filter).

Lemma result_length_spec : result_length (length ex) existence = n.
Proof using Hex.
  destruct Hex as (_ & _ & He). destruct existence as [e|]; cbn; [apply He|].
  by rewrite He, length_seq.
Qed.

Lemma packed_lookup p : existence = None → p ∈ ex → ex !! p = Some p.
Proof using Hex.
  intros E Hp. destruct Hex as (_ & Hlt & He). rewrite E in He. specialize (Hlt p Hp). rewrite He.
  by apply lookup_seq_lt.
Qed.

Lemma packed_seq : existence = None → seq 0 (length ex) = ex.
Proof using Hex.
  intros E. destruct Hex as (_ & _ & He). rewrite E in He.
  rewrite He at 2. by rewrite He, length_seq.
Qed.

Lemma plain_loop (ok : nat → bool) turn r :
  holds_exactly r n (λ _, False) → existence = None →
  (∀ p, p ∈ ex → turn p = Ok (Some (p, ok p))) →
  ∃ s, set_loop turn (seq 0 (length ex)) r = Ok s ∧
    holds_exactly s n (λ i, i ∈ ex ∧ ok i = true).
Proof using Hex.
  intros Hr E Hturn. rewrite packed_seq by done. eapply loop_over; [exact Hex|done| |done|done].
  by eapply exist_NoDup.
Qed.

Lemma column_at (L : nat → option V) k p :
  ex !! k = Some p → vec_at (L <$> ex) k = Ok (L p).
Proof using Type. intros Hk. apply vec_at_Some. by rewrite list_lookup_fmap, Hk. Qed.

Lemma put_ok p (b : bool) : put p (Ok b) = Ok (Some (p, b)).
Proof. done. Qed.

Lemma holds_get_filter f p :
  filter = Some f → p ∈ ex → get p f = Ok (bool_decide (p ∈ tuples f)).
Proof using Hex Hf.
  intros E Hp. pose proof Hf as Hf'. rewrite E in Hf'. destruct Hf' as (Hw & Hn & _).
  destruct (holds_get f n (λ i, i ∈ tuples f) p) as (b & -> & Hb); [done|by apply Hex|].
  f_equal. apply eq_true_iff_eq. by rewrite Hb, bool_decide_eq_true.
Qed.

(** A turn over a column, with the filter looked up or not. *)
Lemma put_if_spec f k p (b : bool) :
  filter = Some f → ex !! k = Some p →
  put_if f p (Ok b) =
    Ok ((λ b, (p, b)) <$> (if bool_decide (p ∈ tuples f) then Some b else None)) ∧
  ((if bool_decide (p ∈ tuples f) then Some b else None) = Some true ↔
     p ∈ tuples f ∧ b = true).
Proof using Hex Hf.
  intros E Hk. unfold put_if. rewrite (holds_get_filter f p E) by (by eapply list_elem_of_lookup_2).
  cbn [mbind outcome_bind]. case_bool_decide as Hp; (split; [done|]); split; naive_solver.
Qed.

Lemma put_and_spec f k p (b : bool) :
  filter = Some f → ex !! k = Some p →
  put p (keep ← get p f; if (keep : bool) then Ok b else Ok false) =
    Ok ((λ b, (p, b)) <$> Some (bool_decide (p ∈ tuples f) && b)) ∧
  (Some (bool_decide (p ∈ tuples f) && b) = Some true ↔ p ∈ tuples f ∧ b = true).
Proof using Hex Hf.
  intros E Hk. rewrite (holds_get_filter f p E) by (by eapply list_elem_of_lookup_2).
  cbn [mbind outcome_bind]. case_bool_decide as Hp; (split; [by destruct b|]); split; naive_solver.
Qed.

Lemma compareColumnVectors_spec (L R : nat → option V) :
  (∀ i, i ∈ ex → typed c (L i) (R i)) →
  answers n ex (compareColumnVectors short_circuit c (L <$> ex) (R <$> ex) filter existence)
    filter (λ i, compares c (L i) (R i)).
Proof using Hex Hf.
  intros Ht. unfold compareColumnVectors. rewrite length_fmap, result_length_spec.
  destruct (new_sequence_spec n) as (r & -> & Hr). cbn [mbind outcome_bind].
  assert (∀ k p, ex !! k = Some p →
    (l ← vec_at (L <$> ex) k; r ← vec_at (R <$> ex) k; compareDataPtrsInl c l r) =
    Ok (compares c (L p) (R p))) as Hcmp.
  { intros k p Hk. rewrite !(column_at _ k p Hk). cbn [mbind outcome_bind].
    apply compareDataPtrsInl_spec, Ht. by eapply list_elem_of_lookup_2. }
  eapply (column_loops n ex existence filter _ Hex Hf short_circuit r
    (λ f cv_pos p, put p (keep ← get p f; if (keep : bool) then _ else Ok false))
    _ _ _ (λ f p, Some (bool_decide (p ∈ tuples f) && compares c (L p) (R p)))); [done|..].
  - intros f k p E Hk. rewrite Hcmp with (p := p) by done. by eapply put_and_spec.
  - intros E p Hp. by rewrite (Hcmp p p) by (by apply packed_lookup).
  - intros k p Hk. by rewrite (Hcmp k p Hk).
  - intros E. eapply plain_loop; [done|done|]. intros p Hp.
    by rewrite (Hcmp p p) by (by apply packed_lookup).
Qed.

(** The typing of a column and a literal, and what is compared. *)
Definition typed_on (on_left : bool) (v w : option V) : Prop :=
  if on_left then typed c v w else typed c w v.
Definition compares_on (on_left : bool) (v w : option V) : bool :=
  if on_left then compares c v w else compares c w v.

Lemma compares_null on_left v : compares_on on_left v None = false.
Proof. destruct on_left, v; done. Qed.

(** The type of a literal on the other side allows null. *)
Definition literal_typed (on_left : bool) (w : option V) : Prop :=
  w = None → (if on_left then right_nullable c else left_nullable c) = true.

Lemma static_null on_left (w : option V) :
  literal_typed on_left w → static_is_null on_left c w = is_null w.
Proof.
  unfold static_is_null. intros Ht. destruct w as [b|]; [by rewrite andb_false_r|].
  cbn. rewrite andb_true_r. by apply Ht.
Qed.

Lemma compareColumnVectorAndStaticValue_spec on_left (L : nat → option V) w :
  literal_typed on_left w → (∀ i, i ∈ ex → typed_on on_left (L i) w) →
  answers n ex (compareColumnVectorAndStaticValueHelper short_circuit on_left c (L <$> ex) w
    filter existence) filter (λ i, compares_on on_left (L i) w).
Proof using Hex Hf.
  intros Hw Ht. unfold compareColumnVectorAndStaticValueHelper.
  rewrite length_fmap, result_length_spec.
  destruct (new_sequence_spec n) as (r & -> & Hr). cbn [mbind outcome_bind].
  rewrite static_null by done. destruct w as [b|]; cbn [is_null].
  2: { exists r. split; [done|]. eapply holds_ext; [done|]. intros i. cbn beta.
       rewrite compares_null. naive_solver. }
  cbn [deref mbind outcome_bind].
  assert (∀ k p, ex !! k = Some p →
    (v ← vec_at (L <$> ex) k; compare_with_literal on_left c v (Some b)) =
    Ok (compares_on on_left (L p) (Some b))) as Hcmp.
  { intros k p Hk. rewrite (column_at _ k p Hk). cbn [mbind outcome_bind].
    apply compare_with_literal_spec, Ht. by eapply list_elem_of_lookup_2. }
  eapply (column_loops n ex existence filter _ Hex Hf short_circuit r
    (λ f cv_pos p, put_if f p _) _ _ _
    (λ f p, if bool_decide (p ∈ tuples f) then Some (compares_on on_left (L p) (Some b)) else None));
    [done|..].
  - intros f k p E Hk. rewrite Hcmp with (p := p) by done. by eapply put_if_spec.
  - intros E p Hp. by rewrite (Hcmp p p) by (by apply packed_lookup).
  - intros k p Hk. by rewrite (Hcmp k p Hk).
  - intros E. eapply plain_loop; [done|done|]. intros p Hp.
    by rewrite (Hcmp p p) by (by apply packed_lookup).
Qed.

Context (accessor : ValueAccessor V).
Context (Hend : getEndPosition accessor = n) (Hvis : visited accessor = ex).

Lemma compareSingleValueAccessor_spec a b :
  (∀ i, i ∈ ex → typed c (value_at accessor a i) (value_at accessor b i)) →
  answers n ex (compareSingleValueAccessor short_circuit c accessor a b filter) filter
    (λ i, compares c (value_at accessor a i) (value_at accessor b i)).
Proof using Hex Hf Hend Hvis.
  intros Ht. unfold compareSingleValueAccessor. rewrite Hend, Hvis.
  destruct (new_sequence_spec n) as (r & -> & Hr). cbn [mbind outcome_bind].
  eapply accessor_loops; [exact Hex|exact Hf|done|]. intros p Hp. cbn beta.
  rewrite (compare_both_spec true) by (by apply Ht). done.
Qed.

Lemma compareValueAccessorAndStaticValue_spec on_left a w :
  literal_typed on_left w → (∀ i, i ∈ ex → typed_on on_left (value_at accessor a i) w) →
  answers n ex (compareValueAccessorAndStaticValueHelper short_circuit on_left c accessor a w filter)
    filter (λ i, compares_on on_left (value_at accessor a i) w).
Proof using Hex Hf Hend Hvis.
  intros Hw Ht. unfold compareValueAccessorAndStaticValueHelper. rewrite Hend, Hvis.
  destruct (new_sequence_spec n) as (r & -> & Hr). cbn [mbind outcome_bind].
  rewrite static_null by done. destruct w as [b|]; cbn [is_null].
  2: { exists r. split; [done|]. eapply holds_ext; [done|]. intros i. cbn beta.
       rewrite compares_null. naive_solver. }
  cbn [deref mbind outcome_bind].
  eapply accessor_loops; [exact Hex|exact Hf|done|]. intros p Hp. cbn beta.
  rewrite compare_with_literal_spec by (by apply Ht). done.
Qed.

Lemma compareColumnVectorAndValueAccessor_spec on_left (L : nat → option V) a :
  (∀ i, i ∈ ex → typed_on on_left (L i) (value_at accessor a i)) →
  answers n ex (compareColumnVectorAndValueAccessorHelper short_circuit on_left c (L <$> ex)
    accessor a filter existence) filter (λ i, compares_on on_left (L i) (value_at accessor a i)).
Proof using Hex Hf Hend Hvis.
  intros Ht. unfold compareColumnVectorAndValueAccessorHelper.
  rewrite length_fmap, result_length_spec, Hvis.
  destruct (new_sequence_spec n) as (r & -> & Hr). cbn [mbind outcome_bind].
  assert (∀ k p, ex !! k = Some p →
    (v ← vec_at (L <$> ex) k; compare_both on_left c v (value_at accessor a p)) =
    Ok (compares_on on_left (L p) (value_at accessor a p))) as Hcmp.
  { intros k p Hk. rewrite (column_at _ k p Hk). cbn [mbind outcome_bind].
    apply compare_both_spec, Ht. by eapply list_elem_of_lookup_2. }
  eapply (column_loops n ex existence filter _ Hex Hf short_circuit r
    (λ f cv_pos p, put_if f p _) _ _ _
    (λ f p, if bool_decide (p ∈ tuples f)
            then Some (compares_on on_left (L p) (value_at accessor a p)) else None)); [done|..].
  - intros f k p E Hk. rewrite Hcmp with (p := p) by done. by eapply put_if_spec.
  - intros E p Hp. by rewrite (Hcmp p p) by (by apply packed_lookup).
  - intros k p Hk. by rewrite (Hcmp k p Hk).
  - intros E.
    destruct (set_loop_spec n
      (λ '(cv_pos, p), put cv_pos (v ← vec_at (L <$> ex) cv_pos;
                                   compare_both on_left c v (value_at accessor a p)))
      fst (λ x, Some (compares_on on_left (L x.1) (value_at accessor a x.1)))
      (zip (seq 0 (length ex)) ex) r _ Hr) as (s & -> & Hs).
    + intros [k p] Hk%elem_of_zip_seq. assert (k = p) as ->.
      { pose proof (list_elem_of_lookup_2 _ _ _ Hk) as Hp. pose proof (packed_lookup p E Hp).
        eapply NoDup_lookup; [by eapply exist_NoDup|done|done]. }
      rewrite (Hcmp p p Hk). split_and!; [done| |tauto].
      apply Hex. by eapply list_elem_of_lookup_2.
    + rewrite fst_zip by (by rewrite length_seq). apply NoDup_seq.
    + exists s. split; [done|]. eapply holds_ext; [done|]. intros i. split.
      * intros [[]|([k p] & Hk%elem_of_zip_seq & <- & [= Ho])]. cbn in *. split; [|done].
        rewrite <- (packed_seq E). apply elem_of_seq. apply lookup_lt_Some in Hk. lia.
      * intros [Hi Ho]. right. exists (i, i). cbn. rewrite Ho. split_and!; [|done|done].
        by apply elem_of_zip_seq, packed_lookup.
Qed.
End functions.

(** ** Sorted lists of tuples *)

#[global] Instance lt_antisymm : AntiSymm (=) lt.
Proof. intros x y. lia. Qed.

Lemma sorted_ext (l l' : list nat) :
  StronglySorted lt l → StronglySorted lt l' → (∀ i, i ∈ l ↔ i ∈ l') → l = l'.
Proof.
  intros Hl Hl' Hi. apply (StronglySorted_unique lt); [done|done|].
  apply NoDup_Permutation; [by apply sorted_NoDup|by apply sorted_NoDup|done].
Qed.

Lemma sorted_filter (Q : nat → bool) l :
  StronglySorted lt l → StronglySorted lt (filter (λ i, Q i = true) l).
Proof.
  induction 1 as [|x l Hl IH Hx]; [constructor|]. rewrite filter_cons. case_decide; [|done].
  constructor; [done|]. rewrite Forall_forall in *. intros i [_ Hi]%list_elem_of_filter. auto.
Qed.

(** The tuples of a sequence, as those of a list that contains them. *)
Lemma tuples_filter s n (Q : nat → bool) l :
  holds_exactly s n (λ i, Q i = true) → StronglySorted lt l → (∀ i, Q i = true → i ∈ l) →
  tuples s = filter (λ i, Q i = true) l.
Proof.
  intros (_ & _ & Hi) Hl Hsub. apply sorted_ext; [apply tuples_sorted|by apply sorted_filter|].
  intros i. rewrite Hi, list_elem_of_filter. naive_solver.
Qed.
