(* ===== verification/Predicates.v ===== *)
(** * Predicates

    Models expressions/predicate/ (comparison, negation, conjunction,
    disjunction and the trivial predicates, with their simplification by static
    results), the construction of predicates from the logical expressions of
    the optimizer (concretize of query_optimizer/expressions/LogicalAnd.cpp,
    LogicalOr.cpp, LogicalNot.cpp, PredicateLiteral.cpp and
    ComparisonExpression.cpp) and StorageBlock::getMatchesForPredicate.
    Scalars are the class [ScalarOps], the sub-blocks of a block that can
    evaluate a comparison faster than a scan the record [SubBlocksReference].
    The build options for short-circuiting and for reading columns without a
    copy are parameters. *)

From stdpp Require Import options.
From S2P Require Import Prelude TupleIdSequence Comparators.

(** ** Scalars *)

(** [getAttributeIdForValueAccessor] is [None] for -1. *)
Class ScalarOps (S V T : Type) := {
  getType : S → T;
  hasStaticValue : S → bool;
  getStaticValue : S → option V;
  getAttributeIdForValueAccessor : S → option nat;
  getValueForSingleTuple : ValueAccessor V → nat → S → option V;
  getValueForJoinedTuples : ValueAccessor V → nat → ValueAccessor V → nat → S → option V;
  getAllValues : ValueAccessor V → S → list (option V);
  getAllValuesForJoin : ValueAccessor V → ValueAccessor V → list (nat * nat) → S → list (option V);
}.

(** ** Comparisons *)

Record Comparison (V T : Type) := {
  canCompareTypes : T → T → bool;
  comparison_of : V → V → bool;
  isBasicComparison : bool;
}.
Arguments canCompareTypes {_ _} _ _ _.
Arguments comparison_of {_ _} _ _ _.
Arguments isBasicComparison {_ _} _.

Record ComparisonPredicate (S V T : Type) := {
  comparison_ : Comparison V T;
  left_operand_ : S;
  right_operand_ : S;
  fast_comparator_ : option (Comparator V);
  cp_static_result_ : bool;
}.
Arguments comparison_ {_ _ _} _.
Arguments left_operand_ {_ _ _} _.
Arguments right_operand_ {_ _ _} _.
Arguments fast_comparator_ {_ _ _} _.
Arguments cp_static_result_ {_ _ _} _.

(** predicate_cost *)
Definition kColumnScan : N := 6.
Definition kRowScan : N := 8.
Definition PredicateCostIsSimpleScan (cost : N) : bool := (cost =? kRowScan)%N || (cost =? kColumnScan)%N.

(** The tuple store of a block and its indices, as they evaluate a comparison. *)
Record SubBlock (S V T : Type) := {
  estimatePredicateEvaluationCost : ComparisonPredicate S V T → N;
  sub_getMatchesForPredicate :
    ComparisonPredicate S V T → option TupleIdSequence → outcome TupleIdSequence;
}.
Arguments estimatePredicateEvaluationCost {_ _ _} _ _.
Arguments sub_getMatchesForPredicate {_ _ _} _ _ _.
Record SubBlocksReference (S V T : Type) := {
  tuple_store : SubBlock S V T;
  indices : list (SubBlock S V T);
  indices_consistent : list bool;
}.
Arguments tuple_store {_ _ _} _.
Arguments indices {_ _ _} _.
Arguments indices_consistent {_ _ _} _.

(** ** Predicates *)

Record PredicateWithList (P : Type) := {
  static_operand_list_ : list P;
  dynamic_operand_list_ : list P;
  has_static_result_ : bool;
  static_result_ : bool;
}.
Arguments static_operand_list_ {_} _.
Arguments dynamic_operand_list_ {_} _.
Arguments has_static_result_ {_} _.
Arguments static_result_ {_} _.
Arguments Build_PredicateWithList {_} _ _ _ _.

Inductive Predicate (S V T : Type) :=
  | TruePredicate
  | FalsePredicate
  | Comparing (p : ComparisonPredicate S V T)
  | NegationPredicate (operand_ : Predicate S V T) (has_static static : bool)
  | ConjunctionPredicate (l : PredicateWithList (Predicate S V T))
  | DisjunctionPredicate (l : PredicateWithList (Predicate S V T)) (fresh_ : bool).
Arguments TruePredicate {_ _ _}.
Arguments FalsePredicate {_ _ _}.
Arguments Comparing {_ _ _} _.
Arguments NegationPredicate {_ _ _} _ _ _.
Arguments ConjunctionPredicate {_ _ _} _.
Arguments DisjunctionPredicate {_ _ _} _ _.

Section predicates.
Context {S V T : Type} `{!ScalarOps S V T, !HeapMemory} (isNullable : T → bool).
(** QUICKSTEP_ENABLE_VECTOR_PREDICATE_SHORT_CIRCUIT and
    QUICKSTEP_ENABLE_VECTOR_COPY_ELISION_SELECTION *)
Context (short_circuit copy_elision : bool).
Abbreviation Predicate := (Predicate S V T).
Abbreviation ComparisonPredicate := (ComparisonPredicate S V T).
Abbreviation SubBlocksReference := (SubBlocksReference S V T).
Implicit Types (cp : ComparisonPredicate) (accessor : ValueAccessor V).
Implicit Types (filter existence_map : option TupleIdSequence).

(** *** Comparison predicates *)

Definition makeUncheckedComparatorForTypes (c : Comparison V T) (left right : T) : Comparator V :=
  {| comparison_functor_ := comparison_of c;
     left_nullable := isNullable left; right_nullable := isNullable right |}.
Definition compareTypedValuesChecked (c : Comparison V T) (left right : option V) : bool :=
  match left, right with Some l, Some r => comparison_of c l r | _, _ => false end.

(** The constructor throws [OperationInapplicableToType]. *)
Definition new_ComparisonPredicate (c : Comparison V T) (left right : S)
  : outcome ComparisonPredicate :=
  if canCompareTypes c (getType left) (getType right) then
    if hasStaticValue left && hasStaticValue right then
      Ok {| comparison_ := c; left_operand_ := left; right_operand_ := right;
            fast_comparator_ := None;
            cp_static_result_ :=
              compareTypedValuesChecked c (getStaticValue left) (getStaticValue right) |}
    else
      Ok {| comparison_ := c; left_operand_ := left; right_operand_ := right;
            fast_comparator_ :=
              Some (makeUncheckedComparatorForTypes c (getType left) (getType right));
            cp_static_result_ := false |}
  else Err Thrown.

Definition comparison_matchesForSingleTuple accessor (tuple : nat) cp : outcome bool :=
  match fast_comparator_ cp with
  | None => Ok (cp_static_result_ cp)
  | Some c => compareTypedValues c (getValueForSingleTuple accessor tuple (left_operand_ cp))
                (getValueForSingleTuple accessor tuple (right_operand_ cp))
  end.
Definition comparison_matchesForJoinedTuples left_accessor (left_tuple : nat) right_accessor
    (right_tuple : nat) cp : outcome bool :=
  match fast_comparator_ cp with
  | None => Ok (cp_static_result_ cp)
  | Some c =>
      compareTypedValues c
        (getValueForJoinedTuples left_accessor left_tuple right_accessor right_tuple
           (left_operand_ cp))
        (getValueForJoinedTuples left_accessor left_tuple right_accessor right_tuple
           (right_operand_ cp))
  end.

Definition GenerateSequenceForStaticResult accessor filter existence_map (static_result : bool)
  : outcome TupleIdSequence :=
  result ← new_sequence (getEndPosition accessor);
  if static_result then
    match filter, existence_map with
    | Some f, _ => seq_assignFrom result f
    | None, Some e => seq_assignFrom result e
    | None, None => setRange 0 (seq_length result) true result
    end
  else Ok result.

(** The sub-block with the lowest cost so far, [None] for the tuple store. *)
Fixpoint fastest_index cp (ixs : list (SubBlock S V T)) (consistent : list bool)
    (best : option (SubBlock S V T)) (lowest_cost : N) : option (SubBlock S V T) * N :=
  match ixs, consistent with
  | ix :: ixs', ok :: consistent' =>
      let cost := estimatePredicateEvaluationCost ix cp in
      if ok && (cost <? lowest_cost)%N then fastest_index cp ixs' consistent' (Some ix) cost
      else fastest_index cp ixs' consistent' best lowest_cost
  | _, _ => (best, lowest_cost)
  end.

(** The operands compared: where their values can be read from the accessor,
    directly, and otherwise as columns of what is scanned. *)
Definition compare_operands (c : Comparator V) accessor filter (scanned : ValueAccessor V)
    (filter' existence' : option TupleIdSequence) cp : outcome TupleIdSequence :=
  let left := left_operand_ cp in
  let right := right_operand_ cp in
  let left_id := if copy_elision then getAttributeIdForValueAccessor left else None in
  let right_id := if copy_elision then getAttributeIdForValueAccessor right else None in
  if hasStaticValue left then
    match right_id with
    | Some id =>
        compareStaticValueAndValueAccessor short_circuit c (getStaticValue left) accessor id filter
    | None =>
        compareStaticValueAndColumnVector short_circuit c (getStaticValue left)
          (getAllValues scanned right) filter' existence'
    end
  else if hasStaticValue right then
    match left_id with
    | Some id =>
        compareValueAccessorAndStaticValue short_circuit c accessor id (getStaticValue right) filter
    | None =>
        compareColumnVectorAndStaticValue short_circuit c (getAllValues scanned left)
          (getStaticValue right) filter' existence'
    end
  else
    match left_id, right_id with
    | Some l, Some r => compareSingleValueAccessor short_circuit c accessor l r filter
    | Some l, None =>
        compareValueAccessorAndColumnVector short_circuit c scanned l (getAllValues scanned right)
          filter' existence'
    | None, Some r =>
        compareColumnVectorAndValueAccessor short_circuit c (getAllValues scanned left) scanned r
          filter' existence'
    | None, None =>
        compareColumnVectors short_circuit c (getAllValues scanned left)
          (getAllValues scanned right) filter' existence'
    end.

(** The evaluation by scanning.  [short_circuit_adapter] has the filter for its
    existence map. *)
Definition scan_matches (c : Comparator V) accessor filter existence_map cp
  : outcome TupleIdSequence :=
  match short_circuit, filter with
  | true, Some f =>
      short_circuit_adapter ← createSharedTupleIdSequenceAdapter accessor f;
      compare_operands c accessor filter short_circuit_adapter None filter cp
  | _, _ => compare_operands c accessor filter accessor filter existence_map cp
  end.

Definition comparison_getAllMatches accessor (sub_blocks_ref : option SubBlocksReference) filter
    existence_map cp : outcome TupleIdSequence :=
  match fast_comparator_ cp with
  | None => GenerateSequenceForStaticResult accessor filter existence_map (cp_static_result_ cp)
  | Some c =>
      match sub_blocks_ref with
      | Some ref =>
          if isBasicComparison (comparison_ cp) then
            let '(fastest, lowest_cost) :=
              fastest_index cp (indices ref) (indices_consistent ref) None
                (estimatePredicateEvaluationCost (tuple_store ref) cp) in
            match fastest with
            | Some ix => sub_getMatchesForPredicate ix cp filter
            | None =>
                if PredicateCostIsSimpleScan lowest_cost
                then scan_matches c accessor filter existence_map cp
                else sub_getMatchesForPredicate (tuple_store ref) cp filter
            end
          else scan_matches c accessor filter existence_map cp
      | None => scan_matches c accessor filter existence_map cp
      end
  end.

(** *** Static results *)

Definition hasStaticResult (p : Predicate) : bool :=
  match p with
  | TruePredicate | FalsePredicate => true
  | Comparing cp => match fast_comparator_ cp with None => true | Some _ => false end
  | NegationPredicate _ has _ => has
  | ConjunctionPredicate l | DisjunctionPredicate l _ => has_static_result_ l
  end.
(** [FATAL_ERROR] when there is none. *)
Definition getStaticResult (p : Predicate) : outcome bool :=
  match p with
  | TruePredicate => Ok true
  | FalsePredicate => Ok false
  | Comparing cp =>
      match fast_comparator_ cp with None => Ok (cp_static_result_ cp) | Some _ => Err CheckFailed end
  | NegationPredicate _ has static => if has then Ok static else Err CheckFailed
  | ConjunctionPredicate l | DisjunctionPredicate l _ =>
      if has_static_result_ l then Ok (static_result_ l) else Err CheckFailed
  end.

(** *** Construction *)

(** The constructor of [NegationPredicate], with [initHelper]. *)
Definition new_NegationPredicate (p : Predicate) : outcome Predicate :=
  if hasStaticResult p then r ← getStaticResult p; Ok (NegationPredicate p true (negb r))
  else Ok (NegationPredicate p false false).
Definition NegatePredicate (p : Predicate) : outcome Predicate :=
  match p with
  | NegationPredicate inner _ _ => Ok inner
  | _ => new_NegationPredicate p
  end.

Definition new_PredicateWithList : PredicateWithList Predicate :=
  {| static_operand_list_ := []; dynamic_operand_list_ := [];
     has_static_result_ := true; static_result_ := true |}.
Definition new_ConjunctionPredicate : Predicate := ConjunctionPredicate new_PredicateWithList.
Definition new_DisjunctionPredicate : Predicate := DisjunctionPredicate new_PredicateWithList true.

Definition set_result (l : PredicateWithList Predicate) (has static : bool) :=
  {| static_operand_list_ := static_operand_list_ l;
     dynamic_operand_list_ := dynamic_operand_list_ l;
     has_static_result_ := has; static_result_ := static |}.
Definition append_operands (l : PredicateWithList Predicate) (static dynamic : list Predicate) :=
  {| static_operand_list_ := static_operand_list_ l ++ static;
     dynamic_operand_list_ := dynamic_operand_list_ l ++ dynamic;
     has_static_result_ := has_static_result_ l; static_result_ := static_result_ l |}.

(** For each of a list of new operands. *)
Fixpoint process_each {A} (f : A → Predicate → outcome A) (l : A) (ps : list Predicate) : outcome A :=
  match ps with [] => Ok l | p :: ps' => l ← f l p; process_each f l ps' end.

Definition conj_processStaticOperand (l : PredicateWithList Predicate) (p : Predicate)
  : outcome (PredicateWithList Predicate) :=
  r ← getStaticResult p; Ok (if (r : bool) then l else set_result l true false).
Definition conj_processDynamicOperand (l : PredicateWithList Predicate) :=
  if has_static_result_ l && static_result_ l then set_result l false (static_result_ l) else l.

(** The operands of a nested conjunction are moved here. *)
Definition conj_addPredicate (l : PredicateWithList Predicate) (p : Predicate)
  : outcome (PredicateWithList Predicate) :=
  match p with
  | ConjunctionPredicate o =>
      l ← process_each conj_processStaticOperand (append_operands l (static_operand_list_ o) [])
            (static_operand_list_ o);
      Ok (match dynamic_operand_list_ o with
          | [] => l
          | ds => conj_processDynamicOperand (append_operands l [] ds)
          end)
  | _ =>
      if hasStaticResult p then conj_processStaticOperand (append_operands l [p] []) p
      else Ok (conj_processDynamicOperand (append_operands l [] [p]))
  end.

(** The second component is [fresh_]. *)
Definition disj_processStaticOperand (d : PredicateWithList Predicate * bool) (p : Predicate)
  : outcome (PredicateWithList Predicate * bool) :=
  let '(l, fresh) := d in
  r ← getStaticResult p;
  Ok (if (r : bool) then set_result l true true else if fresh then set_result l true false else l, false).
Definition disj_processDynamicOperand (d : PredicateWithList Predicate * bool)
  : PredicateWithList Predicate * bool :=
  let '(l, fresh) := d in
  (if has_static_result_ l && negb (static_result_ l) then set_result l false (static_result_ l)
   else if fresh then set_result l false (static_result_ l) else l, false).
Definition disj_addPredicate (d : PredicateWithList Predicate * bool) (p : Predicate)
  : outcome (PredicateWithList Predicate * bool) :=
  let '(l, fresh) := d in
  match p with
  | DisjunctionPredicate o _ =>
      '(l, fresh) ← process_each disj_processStaticOperand
                      (append_operands l (static_operand_list_ o) [], fresh)
                      (static_operand_list_ o);
      Ok (match dynamic_operand_list_ o with
          | [] => (l, fresh)
          | ds => disj_processDynamicOperand (append_operands l [] ds, fresh)
          end)
  | _ =>
      if hasStaticResult p then disj_processStaticOperand (append_operands l [p] [], fresh) p
      else Ok (disj_processDynamicOperand (append_operands l [] [p], fresh))
  end.

(** *** Evaluation for a tuple *)

(** [leaf] evaluates a comparison, for a tuple or for a pair of joined ones. *)
Fixpoint matches (leaf : ComparisonPredicate → outcome bool) (p : Predicate) : outcome bool :=
  match p with
  | TruePredicate => Ok true
  | FalsePredicate => Ok false
  | Comparing cp => leaf cp
  | NegationPredicate operand has static =>
      if has then Ok static else r ← matches leaf operand; Ok (negb r)
  | ConjunctionPredicate (Build_PredicateWithList _ ds has static) =>
      if has then Ok static
      else (fix all (l : list Predicate) : outcome bool :=
              match l with
              | [] => Ok true
              | p :: l' => r ← matches leaf p; if (r : bool) then all l' else Ok false
              end) ds
  | DisjunctionPredicate (Build_PredicateWithList _ ds has static) _ =>
      if has then Ok static
      else (fix any (l : list Predicate) : outcome bool :=
              match l with
              | [] => Ok false
              | p :: l' => r ← matches leaf p; if (r : bool) then Ok true else any l'
              end) ds
  end.
Definition matchesForSingleTuple accessor (tuple : nat) : Predicate → outcome bool :=
  matches (comparison_matchesForSingleTuple accessor tuple).
Definition matchesForJoinedTuples left_accessor (left_tuple : nat) right_accessor
    (right_tuple : nat) : Predicate → outcome bool :=
  matches (comparison_matchesForJoinedTuples left_accessor left_tuple right_accessor right_tuple).

(** *** Evaluation for all the tuples of a block *)

(** The tuples to look at, as a new sequence. *)
Definition initial_filter accessor filter existence_map : outcome TupleIdSequence :=
  s ← new_sequence (getEndPosition accessor);
  match filter, existence_map with
  | Some f, _ => seq_assignFrom s f
  | None, Some e => seq_assignFrom s e
  | None, None => setRange 0 (getEndPosition accessor) true s
  end.

Definition intersect_option (s : TupleIdSequence) (o : option TupleIdSequence)
  : outcome TupleIdSequence :=
  match o with Some o => seq_intersectWith s o | None => Ok s end.

Fixpoint getAllMatches accessor (sub_blocks_ref : option SubBlocksReference) filter existence_map
    (p : Predicate) {struct p} : outcome TupleIdSequence :=
  match p with
  | TruePredicate => GenerateSequenceForStaticResult accessor filter existence_map true
  | FalsePredicate => GenerateSequenceForStaticResult accessor filter existence_map false
  | Comparing cp => comparison_getAllMatches accessor sub_blocks_ref filter existence_map cp
  | NegationPredicate operand has static =>
      if has then GenerateSequenceForStaticResult accessor filter existence_map static
      else
        m ← getAllMatches accessor sub_blocks_ref filter existence_map operand;
        m ← invert m;
        m ← intersect_option m filter;
        intersect_option m existence_map
  | ConjunctionPredicate (Build_PredicateWithList _ ds has static) =>
      if has then GenerateSequenceForStaticResult accessor filter existence_map static
      else
        current_filter ← initial_filter accessor filter existence_map;
        (fix loop (l : list Predicate) (current_filter : TupleIdSequence) :=
           match l with
           | [] => Ok current_filter
           | p :: l' =>
               e ← empty current_filter;
               if (e : bool) then Ok current_filter
               else
                 r ← getAllMatches accessor sub_blocks_ref (Some current_filter) existence_map p;
                 current_filter ← seq_intersectWith current_filter r;
                 loop l' current_filter
           end) ds current_filter
  | DisjunctionPredicate (Build_PredicateWithList _ ds has static) _ =>
      if has then GenerateSequenceForStaticResult accessor filter existence_map static
      else
        union_result ← new_sequence (getEndPosition accessor);
        if short_circuit then
          current_filter ← initial_filter accessor filter existence_map;
          (fix loop (l : list Predicate) (union_result current_filter : TupleIdSequence) :=
             match l with
             | [] => Ok union_result
             | p :: l' =>
                 r ← getAllMatches accessor sub_blocks_ref (Some current_filter) existence_map p;
                 union_result ← seq_unionWith union_result r;
                 r ← invert r;
                 current_filter ← seq_intersectWith current_filter r;
                 loop l' union_result current_filter
             end) ds union_result current_filter
        else
          (fix loop (l : list Predicate) (union_result : TupleIdSequence) :=
             match l with
             | [] => Ok union_result
             | p :: l' =>
                 r ← getAllMatches accessor sub_blocks_ref filter existence_map p;
                 union_result ← seq_unionWith union_result r;
                 loop l' union_result
             end) ds union_result
  end.

(** *** The optimizer's logical expressions *)

Inductive Formula :=
  | PredicateLiteral (is_true : bool)
  | ComparisonExpression (comparison : Comparison V T) (left right : S)
  | LogicalNot (operand : Formula)
  | LogicalAnd (operands : list Formula)
  | LogicalOr (operands : list Formula).

Fixpoint concretize (f : Formula) : outcome Predicate :=
  match f with
  | PredicateLiteral is_true => Ok (if is_true then TruePredicate else FalsePredicate)
  | ComparisonExpression c l r =>
      cp ← new_ComparisonPredicate c l r; Ok (Comparing cp)
  | LogicalNot operand => p ← concretize operand; new_NegationPredicate p
  | LogicalAnd [] => Ok TruePredicate
  | LogicalAnd [operand] => concretize operand
  | LogicalAnd operands =>
      l ← (fix add (fs : list Formula) (l : PredicateWithList Predicate) :=
             match fs with
             | [] => Ok l
             | f :: fs' => p ← concretize f; l ← conj_addPredicate l p; add fs' l
             end) operands new_PredicateWithList;
      Ok (ConjunctionPredicate l)
  | LogicalOr [] => Ok FalsePredicate
  | LogicalOr [operand] => concretize operand
  | LogicalOr operands =>
      d ← (fix add (fs : list Formula) (d : PredicateWithList Predicate * bool) :=
             match fs with
             | [] => Ok d
             | f :: fs' => p ← concretize f; d ← disj_addPredicate d p; add fs' d
             end) operands (new_PredicateWithList, true);
      Ok (DisjunctionPredicate d.1 d.2)
  end.

(** *** A block *)

(** StorageBlock::getMatchesForPredicate: [existence] is the existence map of the
    tuple store, [packed] whether it has no holes. *)
Definition block_getMatchesForPredicate accessor (sub_blocks_ref : SubBlocksReference)
    (packed : bool) (existence : TupleIdSequence) (predicate : option Predicate) filter
  : outcome TupleIdSequence :=
  match predicate with
  | None => intersect_option existence filter
  | Some p =>
      if packed then getAllMatches accessor (Some sub_blocks_ref) None filter p
      else
        existence_map ← intersect_option existence filter;
        getAllMatches accessor (Some sub_blocks_ref) None (Some existence_map) p
  end.
End predicates.
