(* ===== verification/PredicateTheorems.v ===== *)
(** * What predicates select

    The predicate built from a logical expression is true of a tuple when the
    expression is, and the vectorized evaluation over a block gives exactly the
    chosen tuples of which it is true: with the static simplifications, whether
    or not evaluation short-circuits or copies columns, and whichever sub-block
    evaluates a comparison.  The proofs are against the contracts of scalars and
    sub-blocks. *)

From stdpp Require Import options.
From S2P Require Import Prelude TupleIdSequence Comparators.
From S2P Require Import Predicates.
From Stdlib Require Import Btauto.

(** What the predicates rely on of scalars. *)
Class ScalarLaws (S V T : Type) `{!ScalarOps S V T} := {
  static_single a t s : hasStaticValue s = true → getValueForSingleTuple a t s = getStaticValue s;
  static_joined a t b u s : hasStaticValue s = true →
    getValueForJoinedTuples a t b u s = getStaticValue s;
  attribute_single a t s id : getAttributeIdForValueAccessor s = Some id →
    getValueForSingleTuple a t s = value_at a id t;
  all_values a s : getAllValues a s = (λ t, getValueForSingleTuple a t s) <$> visited a;
  single_values a b t s : (∀ id, value_at a id t = value_at b id t) →
    getValueForSingleTuple a t s = getValueForSingleTuple b t s;
  join_values a b ps s : getAllValuesForJoin a b ps s =
    (λ '(t, u), getValueForJoinedTuples a t b u s) <$> ps;
}.

Section meaning.
(** [good]: of the scalars that are compared. *)
Context {S V T : Type} `{!ScalarOps S V T} (isNullable : T → bool) (good : S → Prop).
Abbreviation Predicate := (Predicate S V T).
Abbreviation Formula := (Formula (S := S) (V := V) (T := T)).

(** Induction over predicates and over formulas, with their lists. *)
Lemma predicate_list_ind (P : Predicate → Prop) :
  P TruePredicate → P FalsePredicate → (∀ cp, P (Comparing cp)) →
  (∀ o has static, P o → P (NegationPredicate o has static)) →
  (∀ ss ds has static, Forall P ss → Forall P ds →
     P (ConjunctionPredicate (Build_PredicateWithList ss ds has static))) →
  (∀ ss ds has static fresh, Forall P ss → Forall P ds →
     P (DisjunctionPredicate (Build_PredicateWithList ss ds has static) fresh)) →
  ∀ p, P p.
Proof.
  intros HT HF HC HN HA HO. fix IH 1.
  assert (∀ l : list Predicate, (∀ x, P x) → Forall P l) as _ by (intros; by apply Forall_true).
  intros [| |cp|o has static|[ss ds has static]|[ss ds has static] fresh].
  - exact HT.
  - exact HF.
  - apply HC.
  - apply HN, IH.
  - apply HA; [induction ss as [|x l IHl]|induction ds as [|x l IHl]]; constructor; auto.
  - apply HO; [induction ss as [|x l IHl]|induction ds as [|x l IHl]]; constructor; auto.
Qed.

Lemma formula_list_ind (P : Formula → Prop) :
  (∀ b, P (PredicateLiteral b)) → (∀ c l r, P (ComparisonExpression c l r)) →
  (∀ f, P f → P (LogicalNot f)) → (∀ fs, Forall P fs → P (LogicalAnd fs)) →
  (∀ fs, Forall P fs → P (LogicalOr fs)) → ∀ f, P f.
Proof.
  intros HL HC HN HA HO. fix IH 1. intros [b|c l r|f|fs|fs].
  - apply HL.
  - apply HC.
  - apply HN, IH.
  - apply HA. induction fs as [|x l IHl]; constructor; auto.
  - apply HO. induction fs as [|x l IHl]; constructor; auto.
Qed.

(** What a formula says of a tuple, or of a pair, with these values. *)
Fixpoint satisfies (val : S → option V) (f : Formula) : bool :=
  match f with
  | PredicateLiteral b => b
  | ComparisonExpression c l r => compareTypedValuesChecked c (val l) (val r)
  | LogicalNot f => negb (satisfies val f)
  | LogicalAnd fs => forallb (satisfies val) fs
  | LogicalOr fs => existsb (satisfies val) fs
  end.

(** What a predicate says, all its operands considered.  A disjunction without
    operands is true. *)
Fixpoint says (val : S → option V) (p : Predicate) : bool :=
  match p with
  | TruePredicate => true
  | FalsePredicate => false
  | Comparing cp =>
      match fast_comparator_ cp with
      | None => cp_static_result_ cp
      | Some c => compares c (val (left_operand_ cp)) (val (right_operand_ cp))
      end
  | NegationPredicate o _ _ => negb (says val o)
  | ConjunctionPredicate (Build_PredicateWithList ss ds _ _) =>
      forallb (says val) ss && forallb (says val) ds
  | DisjunctionPredicate (Build_PredicateWithList ss ds _ _) fresh =>
      fresh || existsb (says val) ss || existsb (says val) ds
  end.

Definition constant (p : Predicate) (r : bool) : Prop := ∀ val, says val p = r.

(** The flags of a conjunction of static and dynamic operands. *)
Definition conj_flags (ss ds : list Predicate) (has static : bool) : Prop :=
  if has then ∀ val, forallb (says val) ss && forallb (says val) ds = static
  else ∀ val, forallb (says val) ss = true.
Definition disj_flags (ss ds : list Predicate) (has static fresh : bool) : Prop :=
  if fresh then ss = [] ∧ ds = [] ∧ has = true ∧ static = true
  else
    ss ++ ds ≠ [] ∧
    if has then ∀ val, existsb (says val) ss || existsb (says val) ds = static
    else ∀ val, existsb (says val) ss = false.

Definition comparison_ok (cp : ComparisonPredicate S V T) : Prop :=
  good (left_operand_ cp) ∧ good (right_operand_ cp) ∧
  match fast_comparator_ cp with
  | None =>
      hasStaticValue (left_operand_ cp) = true ∧ hasStaticValue (right_operand_ cp) = true ∧
      cp_static_result_ cp =
        compareTypedValuesChecked (comparison_ cp) (getStaticValue (left_operand_ cp))
          (getStaticValue (right_operand_ cp))
  | Some c =>
      c = makeUncheckedComparatorForTypes isNullable (comparison_ cp)
            (getType (left_operand_ cp)) (getType (right_operand_ cp))
  end.

(** Predicates whose flags are right. *)
Fixpoint pred_ok (p : Predicate) : Prop :=
  let all := fix all (l : list Predicate) :=
    match l with [] => True | p :: l' => pred_ok p ∧ all l' end in
  match p with
  | TruePredicate | FalsePredicate => True
  | Comparing cp => comparison_ok cp
  | NegationPredicate o has static => pred_ok o ∧ (has = true → constant o (negb static))
  | ConjunctionPredicate (Build_PredicateWithList ss ds has static) =>
      all ss ∧ all ds ∧ Forall (λ p, hasStaticResult p = true) ss ∧ conj_flags ss ds has static
  | DisjunctionPredicate (Build_PredicateWithList ss ds has static) fresh =>
      all ss ∧ all ds ∧ Forall (λ p, hasStaticResult p = true) ss ∧
      disj_flags ss ds has static fresh
  end.

Lemma all_Forall (l : list Predicate) :
  (fix all (l : list Predicate) :=
     match l with [] => True | p :: l' => pred_ok p ∧ all l' end) l ↔ Forall pred_ok l.
Proof.
  induction l as [|p l IH]; [done|]. rewrite Forall_cons, <- IH. done.
Qed.

Lemma conj_ok_iff ss ds has static :
  pred_ok (ConjunctionPredicate (Build_PredicateWithList ss ds has static)) ↔
  Forall pred_ok ss ∧ Forall pred_ok ds ∧ Forall (λ p, hasStaticResult p = true) ss ∧
  conj_flags ss ds has static.
Proof. cbn [pred_ok]. by rewrite !all_Forall. Qed.

Lemma disj_ok_iff ss ds has static fresh :
  pred_ok (DisjunctionPredicate (Build_PredicateWithList ss ds has static) fresh) ↔
  Forall pred_ok ss ∧ Forall pred_ok ds ∧ Forall (λ p, hasStaticResult p = true) ss ∧
  disj_flags ss ds has static fresh.
Proof. cbn [pred_ok]. by rewrite !all_Forall. Qed.

(** A static result is what the predicate says of every tuple. *)
Lemma static_sound p :
  pred_ok p → hasStaticResult p = true → ∃ r, getStaticResult p = Ok r ∧ constant p r.
Proof.
  destruct p as [| |cp|o has static|[ss ds has static]|[ss ds has static] fresh];
    cbn [hasStaticResult getStaticResult has_static_result_ static_result_]; intros Hok Hhas.
  - by exists true.
  - by exists false.
  - destruct (fast_comparator_ cp) eqn:E; [done|]. eexists. split; [done|]. intros val. cbn.
    by rewrite E.
  - destruct Hok as [_ Hc]. rewrite Hhas. exists static. split; [done|]. intros val. cbn.
    rewrite (Hc Hhas val). apply negb_involutive.
  - apply conj_ok_iff in Hok as (_ & _ & _ & Hfl). rewrite Hhas in *. by exists static.
  - apply disj_ok_iff in Hok as (_ & _ & _ & Hfl). rewrite Hhas in *. exists static.
    split; [done|]. intros val. cbn. destruct fresh; cbn in Hfl |- *; [|apply Hfl].
    by destruct Hfl as (_ & _ & _ & ->).
Qed.

(** *** Adding operands *)

Definition same_lists (l l' : PredicateWithList Predicate) : Prop :=
  static_operand_list_ l' = static_operand_list_ l ∧
  dynamic_operand_list_ l' = dynamic_operand_list_ l.

Lemma conj_static_step ss ds l p :
  conj_flags ss ds (has_static_result_ l) (static_result_ l) →
  pred_ok p → hasStaticResult p = true →
  ∃ l', conj_processStaticOperand l p = Ok l' ∧ same_lists l l' ∧
    conj_flags (ss ++ [p]) ds (has_static_result_ l') (static_result_ l').
Proof.
  intros Hfl Hok Hst. destruct (static_sound p Hok Hst) as (r & Hr & Hc).
  unfold conj_processStaticOperand. rewrite Hr. cbn [mbind outcome_bind].
  eexists. split; [done|]. split; [by destruct r|]. unfold conj_flags in *.
  destruct r; cbn.
  - destruct (has_static_result_ l); intros val; rewrite forallb_app; cbn; rewrite (Hc val);
      cbn; rewrite andb_true_r; apply Hfl.
  - intros val. rewrite forallb_app. cbn. by rewrite (Hc val), andb_false_r.
Qed.

Lemma conj_static_steps ps ss ds l :
  conj_flags ss ds (has_static_result_ l) (static_result_ l) →
  Forall pred_ok ps → Forall (λ p, hasStaticResult p = true) ps →
  ∃ l', process_each conj_processStaticOperand l ps = Ok l' ∧ same_lists l l' ∧
    conj_flags (ss ++ ps) ds (has_static_result_ l') (static_result_ l').
Proof.
  revert ss l. induction ps as [|p ps IH]; intros ss l Hfl Hok Hst; cbn [process_each].
  - exists l. split; [done|]. split; [done|]. by rewrite app_nil_r.
  - apply Forall_cons in Hok as [Hp Hok], Hst as [Hps Hst].
    destruct (conj_static_step ss ds l p Hfl Hp Hps) as (l1 & -> & [H1 H2] & Hfl1).
    cbn [mbind outcome_bind]. destruct (IH (ss ++ [p]) l1 Hfl1 Hok Hst) as (l2 & -> & [H3 H4] & Hfl2).
    exists l2. split; [done|]. split; [split; congruence|]. by rewrite <- app_assoc in Hfl2.
Qed.

Lemma conj_dynamic_step ss ds ds' l :
  conj_flags ss ds (has_static_result_ l) (static_result_ l) →
  same_lists l (conj_processDynamicOperand l) ∧
  conj_flags ss (ds ++ ds') (has_static_result_ (conj_processDynamicOperand l))
    (static_result_ (conj_processDynamicOperand l)).
Proof.
  intros Hfl. unfold conj_processDynamicOperand, conj_flags in *.
  destruct (has_static_result_ l) eqn:E; cbn [andb].
  - destruct (static_result_ l) eqn:E2; cbn; (split; [done|]).
    + intros val. specialize (Hfl val). by apply andb_true_iff in Hfl as [? _].
    + rewrite E. intros val. rewrite E2, forallb_app, andb_assoc, (Hfl val). done.
  - split; [done|]. by rewrite E.
Qed.

(** With operands appended and the flags brought up to date. *)
Lemma conj_appended l ss' ds' l' :
  pred_ok (ConjunctionPredicate l) → Forall pred_ok ss' → Forall pred_ok ds' →
  Forall (λ p, hasStaticResult p = true) ss' → same_lists (append_operands l ss' ds') l' →
  conj_flags (static_operand_list_ l ++ ss') (dynamic_operand_list_ l ++ ds')
    (has_static_result_ l') (static_result_ l') →
  pred_ok (ConjunctionPredicate l') ∧
  ∀ val, says val (ConjunctionPredicate l') =
    says val (ConjunctionPredicate l) && (forallb (says val) ss' && forallb (says val) ds').
Proof.
  destruct l as [ss ds has static], l' as [ss1 ds1 has1 static1].
  intros (Hss & Hds & Hst & _)%conj_ok_iff Hss' Hds' Hst' [H1 H2] Hfl. cbn in H1, H2, Hfl. subst.
  split; [apply conj_ok_iff; split_and!; try done; by apply Forall_app|].
  intros val. cbn [says]. rewrite !forallb_app. btauto.
Qed.

Lemma conj_flags_ok l :
  pred_ok (ConjunctionPredicate l) →
  conj_flags (static_operand_list_ l) (dynamic_operand_list_ l) (has_static_result_ l)
    (static_result_ l).
Proof. destruct l. by intros (_ & _ & _ & ?)%conj_ok_iff. Qed.

Lemma conj_add_plain l p :
  pred_ok (ConjunctionPredicate l) → pred_ok p →
  ∃ l', (if hasStaticResult p then conj_processStaticOperand (append_operands l [p] []) p
         else Ok (conj_processDynamicOperand (append_operands l [] [p]))) = Ok l' ∧
    pred_ok (ConjunctionPredicate l') ∧
    ∀ val, says val (ConjunctionPredicate l') =
           says val (ConjunctionPredicate l) && says val p.
Proof.
  intros Hl Hp. pose proof (conj_flags_ok l Hl) as Hfl. destruct (hasStaticResult p) eqn:E.
  - destruct (conj_static_step _ _ (append_operands l [p] []) p Hfl Hp E) as (l' & -> & Hsame & Hfl').
    destruct (conj_appended l [p] [] l') as [Hok Hsays]; auto; [by rewrite app_nil_r|].
    exists l'. split_and!; try done. intros val. rewrite Hsays. cbn. by rewrite !andb_true_r.
  - destruct (conj_dynamic_step _ _ [p] (append_operands l [] [p]) Hfl) as [Hsame Hfl'].
    edestruct (conj_appended l [] [p]) as [Hok Hsays]; [done|auto|auto|auto|exact Hsame|by rewrite app_nil_r|].
    eexists. split_and!; try done. intros val. rewrite Hsays. cbn. by rewrite !andb_true_r.
Qed.

Lemma conj_add_ok l p :
  pred_ok (ConjunctionPredicate l) → pred_ok p →
  ∃ l', conj_addPredicate l p = Ok l' ∧ pred_ok (ConjunctionPredicate l') ∧
    ∀ val, says val (ConjunctionPredicate l') =
           says val (ConjunctionPredicate l) && says val p.
Proof.
  intros Hl Hp. destruct p as [| |cp|o h s|[ss' ds' h s]|o fr]; try by apply conj_add_plain.
  pose proof (conj_flags_ok l Hl) as Hfl.
  cbn [conj_addPredicate static_operand_list_ dynamic_operand_list_ says].
  apply conj_ok_iff in Hp as (Hss' & Hds' & Hst' & _).
  destruct (conj_static_steps ss' _ _ (append_operands l ss' []) Hfl Hss' Hst')
    as (l1 & -> & [H1 H2] & Hfl1). cbn [mbind outcome_bind]. cbn in H1, H2.
  destruct ds' as [|d ds'].
  - exists l1. split; [done|]. apply conj_appended; [done..|by split|by rewrite app_nil_r].
  - destruct (conj_dynamic_step _ _ (d :: ds') (append_operands l1 [] (d :: ds')) Hfl1)
      as [[H3 H4] Hfl2]. eexists. split; [done|]. apply conj_appended; [done..| |done].
    cbn in H3, H4. rewrite ?app_nil_r in *. split; cbn; congruence.
Qed.

(** Likewise for disjunctions. *)
Abbreviation list_flags l fresh :=
  (disj_flags (static_operand_list_ l) (dynamic_operand_list_ l) (has_static_result_ l)
     (static_result_ l) fresh).

Lemma disj_static_step ss ds l fresh p :
  disj_flags ss ds (has_static_result_ l) (static_result_ l) fresh →
  pred_ok p → hasStaticResult p = true →
  ∃ l', disj_processStaticOperand (l, fresh) p = Ok (l', false) ∧ same_lists l l' ∧
    disj_flags (ss ++ [p]) ds (has_static_result_ l') (static_result_ l') false.
Proof.
  intros Hfl Hok Hst. destruct (static_sound p Hok Hst) as (r & Hr & Hc).
  unfold disj_processStaticOperand. rewrite Hr. cbn [mbind outcome_bind].
  eexists. split; [done|]. split; [by destruct r, fresh|].
  split; [by destruct ss|]. unfold disj_flags in Hfl. destruct r; cbn.
  - intros val. rewrite existsb_app. cbn. by rewrite (Hc val), orb_true_r.
  - destruct fresh; cbn.
    + destruct Hfl as (-> & -> & _). intros val. cbn. by rewrite (Hc val).
    + destruct Hfl as [_ Hfl]. destruct (has_static_result_ l); intros val;
        rewrite existsb_app; cbn; rewrite (Hc val); cbn; rewrite orb_false_r; apply Hfl.
Qed.

Lemma disj_static_steps ps ss ds l fresh :
  disj_flags ss ds (has_static_result_ l) (static_result_ l) fresh →
  Forall pred_ok ps → Forall (λ p, hasStaticResult p = true) ps →
  ∃ l' fresh', process_each disj_processStaticOperand (l, fresh) ps = Ok (l', fresh') ∧
    same_lists l l' ∧ fresh' = (match ps with [] => fresh | _ => false end) ∧
    disj_flags (ss ++ ps) ds (has_static_result_ l') (static_result_ l') fresh'.
Proof.
  revert ss l fresh. induction ps as [|p ps IH]; intros ss l fresh Hfl Hok Hst; cbn [process_each].
  - exists l, fresh. rewrite app_nil_r. by split_and!.
  - apply Forall_cons in Hok as [Hp Hok], Hst as [Hps Hst].
    destruct (disj_static_step ss ds l fresh p Hfl Hp Hps) as (l1 & -> & [H1 H2] & Hfl1).
    cbn [mbind outcome_bind].
    destruct (IH (ss ++ [p]) l1 false Hfl1 Hok Hst) as (l2 & f2 & -> & [H3 H4] & Hf & Hfl2).
    exists l2, f2. split; [done|]. split; [split; congruence|]. rewrite <- app_assoc in Hfl2.
    split; [|done]. by destruct ps.
Qed.

Lemma disj_dynamic_step ss ds ds' l fresh :
  ds' ≠ [] → disj_flags ss ds (has_static_result_ l) (static_result_ l) fresh →
  ∃ l', disj_processDynamicOperand (l, fresh) = (l', false) ∧ same_lists l l' ∧
    disj_flags ss (ds ++ ds') (has_static_result_ l') (static_result_ l') false.
Proof.
  intros Hne Hfl. unfold disj_processDynamicOperand. eexists. split; [done|].
  assert (ss ++ (ds ++ ds') ≠ []) as Hne'.
  { intros [_ [_ E]%app_eq_nil]%app_eq_nil. done. }
  destruct fresh; cbn in Hfl.
  - destruct Hfl as (-> & -> & Hh & Hs). rewrite Hh, Hs. cbn. split; [done|]. by split.
  - destruct Hfl as [_ Hfl]. destruct (has_static_result_ l) eqn:E; cbn [andb].
    + destruct (static_result_ l) eqn:E2; cbn [negb]; (split; [done|]); (split; [done|]); cbn.
      * rewrite E. intros val. rewrite E2, existsb_app, orb_assoc, (Hfl val). done.
      * intros val. specialize (Hfl val). by apply orb_false_iff in Hfl as [? _].
    + split; [done|]. split; [done|]. by rewrite E.
Qed.

(** What the operands say, none of them saying nothing. *)
Definition disj_says (val : S → option V) (l : PredicateWithList Predicate) : bool :=
  existsb (says val) (static_operand_list_ l) || existsb (says val) (dynamic_operand_list_ l).

Lemma disj_appended l fresh ss' ds' l' :
  pred_ok (DisjunctionPredicate l fresh) → Forall pred_ok ss' → Forall pred_ok ds' →
  Forall (λ p, hasStaticResult p = true) ss' → same_lists (append_operands l ss' ds') l' →
  disj_flags (static_operand_list_ l ++ ss') (dynamic_operand_list_ l ++ ds')
    (has_static_result_ l') (static_result_ l') false →
  pred_ok (DisjunctionPredicate l' false) ∧
  ∀ val, disj_says val l' =
    disj_says val l || (existsb (says val) ss' || existsb (says val) ds').
Proof.
  destruct l as [ss ds has static], l' as [ss1 ds1 has1 static1].
  intros (Hss & Hds & Hst & _)%disj_ok_iff Hss' Hds' Hst' [H1 H2] Hfl. cbn in H1, H2, Hfl. subst.
  split; [apply disj_ok_iff; split_and!; try done; by apply Forall_app|].
  intros val. unfold disj_says. cbn [static_operand_list_ dynamic_operand_list_].
  rewrite !existsb_app. btauto.
Qed.

Lemma disj_flags_ok l fresh : pred_ok (DisjunctionPredicate l fresh) → list_flags l fresh.
Proof. destruct l. by intros (_ & _ & _ & ?)%disj_ok_iff. Qed.

(** Not a disjunction without operands. *)
Definition not_fresh (p : Predicate) : Prop :=
  match p with DisjunctionPredicate _ fresh => fresh = false | _ => True end.

Lemma disj_add_plain l fresh p :
  pred_ok (DisjunctionPredicate l fresh) → pred_ok p →
  ∃ l', (if hasStaticResult p then disj_processStaticOperand (append_operands l [p] [], fresh) p
         else Ok (disj_processDynamicOperand (append_operands l [] [p], fresh))) = Ok (l', false) ∧
    pred_ok (DisjunctionPredicate l' false) ∧
    ∀ val, disj_says val l' = disj_says val l || says val p.
Proof.
  intros Hl Hp. pose proof (disj_flags_ok l fresh Hl) as Hfl. destruct (hasStaticResult p) eqn:E.
  - destruct (disj_static_step _ _ (append_operands l [p] []) fresh p Hfl Hp E)
      as (l' & -> & Hsame & Hfl').
    destruct (disj_appended l fresh [p] [] l') as [Hok Hsays]; auto; [by rewrite app_nil_r|].
    exists l'. split_and!; try done. intros val. rewrite Hsays. cbn. by rewrite !orb_false_r.
  - destruct (disj_dynamic_step _ _ [p] (append_operands l [] [p]) fresh ltac:(done) Hfl)
      as (l' & -> & Hsame & Hfl').
    destruct (disj_appended l fresh [] [p] l') as [Hok Hsays]; auto; [by rewrite app_nil_r|].
    exists l'. split_and!; try done. intros val. rewrite Hsays. cbn. by rewrite !orb_false_r.
Qed.

Lemma disj_add_ok l fresh p :
  pred_ok (DisjunctionPredicate l fresh) → pred_ok p → not_fresh p →
  ∃ l', disj_addPredicate (l, fresh) p = Ok (l', false) ∧
    pred_ok (DisjunctionPredicate l' false) ∧
    ∀ val, disj_says val l' = disj_says val l || says val p.
Proof.
  intros Hl Hp Hnf. destruct p as [| |cp|o h s|o|[ss' ds' h s] fr]; try by apply disj_add_plain.
  cbn in Hnf. subst fr. pose proof (disj_flags_ok l fresh Hl) as Hfl.
  cbn [disj_addPredicate static_operand_list_ dynamic_operand_list_ says orb].
  apply disj_ok_iff in Hp as (Hss' & Hds' & Hst' & [Hne _]).
  destruct (disj_static_steps ss' _ _ (append_operands l ss' []) fresh Hfl Hss' Hst')
    as (l1 & f1 & -> & [H1 H2] & Hf1 & Hfl1). cbn [mbind outcome_bind]. cbn in H1, H2.
  destruct ds' as [|d ds'].
  - destruct ss' as [|x ss']; [done|]. subst f1. exists l1. split; [done|].
    eapply disj_appended; [done..|by split|by rewrite app_nil_r].
  - destruct (disj_dynamic_step _ _ (d :: ds') (append_operands l1 [] (d :: ds')) f1 ltac:(done) Hfl1)
      as (l2 & -> & [H3 H4] & Hfl2). exists l2. split; [done|].
    eapply disj_appended; [done..| |done].
    cbn in H3, H4. rewrite ?app_nil_r in *. split; cbn; congruence.
Qed.

(** *** From formulas to predicates *)

(** Every comparison is of types that it applies to. *)
Fixpoint applicable (f : Formula) : bool :=
  match f with
  | PredicateLiteral _ => true
  | ComparisonExpression c l r => canCompareTypes c (getType l) (getType r)
  | LogicalNot f => applicable f
  | LogicalAnd fs | LogicalOr fs => forallb applicable fs
  end.

(** The scalars that a formula compares. *)
Fixpoint operands (f : Formula) : list S :=
  match f with
  | PredicateLiteral _ => []
  | ComparisonExpression _ l r => [l; r]
  | LogicalNot f => operands f
  | LogicalAnd fs | LogicalOr fs => flat_map operands fs
  end.

(** The values of static scalars are their static values. *)
Definition static_values (val : S → option V) : Prop :=
  ∀ s, hasStaticValue s = true → val s = getStaticValue s.

Definition renders (p : Predicate) (f : Formula) : Prop :=
  pred_ok p ∧ not_fresh p ∧ ∀ val, static_values val → says val p = satisfies val f.

Lemma new_negation_ok p :
  pred_ok p → ∃ p', new_NegationPredicate p = Ok p' ∧ pred_ok p' ∧ not_fresh p' ∧
    ∀ val, says val p' = negb (says val p).
Proof.
  intros Hp. unfold new_NegationPredicate. destruct (hasStaticResult p) eqn:E.
  - destruct (static_sound p Hp E) as (r & -> & Hc). cbn [mbind outcome_bind].
    eexists. split; [done|]. split; [|done]. split; [done|]. intros _ val.
    rewrite negb_involutive. apply Hc.
  - eexists. split; [done|]. by split_and!.
Qed.

Lemma new_comparison_ok c l r :
  canCompareTypes c (getType l) (getType r) = true → good l → good r →
  ∃ cp, new_ComparisonPredicate isNullable c l r = Ok cp ∧
    renders (Comparing cp) (ComparisonExpression c l r).
Proof.
  intros Hc Hl Hr. unfold new_ComparisonPredicate. rewrite Hc.
  destruct (hasStaticValue l && hasStaticValue r) eqn:E; (eexists; split; [done|]).
  - apply andb_true_iff in E as [El Er]. split; [by split_and!|]. split; [done|].
    intros val Hval. cbn. by rewrite !Hval.
  - split; [by split_and!|]. split; [done|]. intros val Hval. done.
Qed.

Lemma conj_concretize fs (l : PredicateWithList Predicate) :
  Forall (λ f, applicable f = true → Forall good (operands f) → ∃ p, concretize isNullable f = Ok p ∧ renders p f) fs →
  forallb applicable fs = true → Forall good (flat_map operands fs) →
  pred_ok (ConjunctionPredicate l) →
  ∃ l', (fix add (fs : list Formula) (l : PredicateWithList Predicate) :=
           match fs with
           | [] => Ok l
           | f :: fs' => p ← concretize isNullable f; l ← conj_addPredicate l p; add fs' l
           end) fs l = Ok l' ∧ pred_ok (ConjunctionPredicate l') ∧
    ∀ val, static_values val →
      says val (ConjunctionPredicate l') =
      says val (ConjunctionPredicate l) && forallb (satisfies val) fs.
Proof.
  intros Hfs. revert l. induction Hfs as [|f fs Hf _ IH]; intros l Happ Hgood Hl.
  - exists l. split; [done|]. split; [done|]. intros val _. by rewrite andb_true_r.
  - cbn in Happ. apply andb_true_iff in Happ as [Ha Happ].
    cbn in Hgood. apply Forall_app in Hgood as [Hg Hgood].
    destruct (Hf Ha Hg) as (p & -> & Hok & _ & Hsays). cbn [mbind outcome_bind].
    destruct (conj_add_ok l p Hl Hok) as (l1 & -> & Hl1 & Hs1). cbn [mbind outcome_bind].
    destruct (IH l1 Happ Hgood Hl1) as (l2 & Hrun & Hl2 & Hs2). exists l2. split; [exact Hrun|].
    split; [done|]. intros val Hval. rewrite (Hs2 val Hval), Hs1, (Hsays val Hval). cbn [forallb].
    by rewrite andb_assoc.
Qed.

Lemma disj_concretize fs (l : PredicateWithList Predicate) fresh :
  Forall (λ f, applicable f = true → Forall good (operands f) → ∃ p, concretize isNullable f = Ok p ∧ renders p f) fs →
  forallb applicable fs = true → Forall good (flat_map operands fs) →
  pred_ok (DisjunctionPredicate l fresh) → fs ≠ [] →
  ∃ l', (fix add (fs : list Formula) (d : PredicateWithList Predicate * bool) :=
           match fs with
           | [] => Ok d
           | f :: fs' => p ← concretize isNullable f; d ← disj_addPredicate d p; add fs' d
           end) fs (l, fresh) = Ok (l', false) ∧ pred_ok (DisjunctionPredicate l' false) ∧
    ∀ val, static_values val → disj_says val l' = disj_says val l || existsb (satisfies val) fs.
Proof.
  intros Hfs. revert l fresh. induction Hfs as [|f fs Hf _ IH]; intros l fresh Happ Hgood Hl Hne; [done|].
  cbn in Happ. apply andb_true_iff in Happ as [Ha Happ].
  cbn in Hgood. apply Forall_app in Hgood as [Hg Hgood].
  destruct (Hf Ha Hg) as (p & -> & Hok & Hnf & Hsays). cbn [mbind outcome_bind].
  destruct (disj_add_ok l fresh p Hl Hok Hnf) as (l1 & -> & Hl1 & Hs1). cbn [mbind outcome_bind].
  destruct fs as [|g fs].
  - exists l1. split; [done|]. split; [done|]. intros val Hval.
    rewrite Hs1, (Hsays val Hval). cbn. by rewrite orb_false_r.
  - destruct (IH l1 false Happ Hgood Hl1) as (l2 & Hrun & Hl2 & Hs2); [done|].
    exists l2. split; [exact Hrun|]. split; [done|]. intros val Hval.
    rewrite (Hs2 val Hval), Hs1, (Hsays val Hval). cbn [existsb]. by rewrite <- !orb_assoc.
Qed.

(** The predicate of a formula says what the formula does. *)
Lemma concretize_renders f :
  applicable f = true → Forall good (operands f) →
  ∃ p, concretize isNullable f = Ok p ∧ renders p f.
Proof.
  induction f as [b|c l r|f IH|fs IH|fs IH] using formula_list_ind; intros Happ Hgood.
  - eexists. split; [done|]. by destruct b.
  - apply Forall_cons in Hgood as [Hgl [Hgr _]%Forall_cons].
    destruct (new_comparison_ok c l r Happ Hgl Hgr) as (cp & Hcp & Hr). cbn. rewrite Hcp. by eexists.
  - destruct (IH Happ Hgood) as (p & Hp & Hok & _ & Hs). cbn. rewrite Hp. cbn [mbind outcome_bind].
    destruct (new_negation_ok p Hok) as (p' & -> & Hok' & Hnf & Hs'). exists p'.
    split; [done|]. split_and!; [done|done|]. intros val Hval. rewrite Hs', (Hs val Hval). done.
  - destruct fs as [|f [|g fs]].
    + eexists. split; [done|]. by split_and!.
    + apply Forall_cons in IH as [IH _]. cbn in Happ, Hgood. rewrite andb_true_r in Happ.
      rewrite app_nil_r in Hgood.
      destruct (IH Happ Hgood) as (p & Hp & Hok & Hnf & Hs). exists p. split; [done|].
      split_and!; [done|done|]. intros val Hval. cbn. by rewrite andb_true_r, Hs.
    + destruct (conj_concretize (f :: g :: fs) new_PredicateWithList IH Happ Hgood)
        as (l & Hrun & Hok & Hs); [by apply conj_ok_iff|].
      exists (ConjunctionPredicate l). split; [|by split_and!].
      cbn [concretize]. cbn [mbind outcome_bind] in Hrun |- *. rewrite Hrun. done.
  - destruct fs as [|f [|g fs]].
    + eexists. split; [done|]. by split_and!.
    + apply Forall_cons in IH as [IH _]. cbn in Happ, Hgood. rewrite andb_true_r in Happ.
      rewrite app_nil_r in Hgood.
      destruct (IH Happ Hgood) as (p & Hp & Hok & Hnf & Hs). exists p. split; [done|].
      split_and!; [done|done|]. intros val Hval. cbn. by rewrite orb_false_r, Hs.
    + destruct (disj_concretize (f :: g :: fs) new_PredicateWithList true IH Happ Hgood)
        as (l & Hrun & Hok & Hs); [by apply disj_ok_iff|done|].
      exists (DisjunctionPredicate l false). split.
      * cbn [concretize]. cbn [mbind outcome_bind] in Hrun |- *. rewrite Hrun. done.
      * split_and!; [done|done|]. intros val Hval. destruct l. apply (Hs val Hval).
Qed.

(** *** Evaluation for a tuple *)

Lemma matches_says leaf val p :
  pred_ok p → (∀ cp, comparison_ok cp → leaf cp = Ok (says val (Comparing cp))) →
  matches leaf p = Ok (says val p).
Proof.
  intros Hok Hleaf. induction p as [| |cp|o has static IH|ss ds has static _ IH
    |ss ds has static fresh _ IH] using predicate_list_ind; cbn [matches].
  - done.
  - done.
  - by apply Hleaf.
  - destruct Hok as [Ho Hc]. destruct has.
    + cbn. by rewrite (Hc eq_refl val), negb_involutive.
    + by rewrite (IH Ho).
  - apply conj_ok_iff in Hok as (_ & Hds & _ & Hfl). cbn [says]. destruct has; [by rewrite (Hfl val)|].
    rewrite (Hfl val). cbn [andb]. clear Hfl. induction IH as [|p ds Hp _ IHds]; [done|].
    apply Forall_cons in Hds as [Hokp Hds]. rewrite (Hp Hokp). cbn [mbind outcome_bind forallb].
    destruct (says val p); [by apply IHds|done].
  - apply disj_ok_iff in Hok as (_ & Hds & _ & Hfl). cbn [says]. destruct fresh; cbn in Hfl.
    { by destruct Hfl as (_ & _ & -> & ->). }
    destruct Hfl as [_ Hfl]. cbn [orb]. destruct has; [by rewrite (Hfl val)|].
    rewrite (Hfl val). cbn [orb]. clear Hfl. induction IH as [|p ds Hp _ IHds]; [done|].
    apply Forall_cons in Hds as [Hokp Hds]. rewrite (Hp Hokp). cbn [mbind outcome_bind existsb].
    destruct (says val p); [done|by apply IHds].
Qed.
End meaning.

(** ** Evaluation over a block *)

Lemma answers_ext n ex ex' r filter filter' (ok ok' : nat → bool) :
  answers n ex' r filter' ok' → (∀ i, chosen ex' filter' i ↔ chosen ex filter i) →
  (∀ i, chosen ex filter i → ok' i = ok i) → answers n ex r filter ok.
Proof.
  intros (s & -> & Hs) Hch Hok. exists s. split; [done|]. eapply holds_ext; [done|].
  intros i. cbn beta. rewrite Hch. split; intros [Hc Ho]; (split; [done|]).
  - by rewrite <- Hok.
  - by rewrite Hok.
Qed.

Section block.
Context {S V T : Type} `{!ScalarOps S V T, !ScalarLaws S V T, !HeapMemory} (isNullable : T → bool).
Context (short_circuit copy_elision : bool) (accessor : ValueAccessor V).
Abbreviation n := (getEndPosition accessor).
Abbreviation ex := (visited accessor).
Abbreviation Predicate := (Predicate S V T).
Abbreviation val_at := (λ t (s : S), getValueForSingleTuple accessor t s).

(** Where the type of a scalar does not allow null, its values are not null. *)
Definition values_typed (s : S) : Prop :=
  (∀ t, t ∈ ex → getValueForSingleTuple accessor t s = None → isNullable (getType s) = true) ∧
  (hasStaticValue s = true → getStaticValue s = None → isNullable (getType s) = true).

Lemma chosen_exists filter i : filter_chooses n ex filter → chosen ex filter i → i ∈ ex.
Proof. destruct filter as [f|]; cbn; [|done]. intros (_ & _ & Hsub). apply Hsub. Qed.

Lemma comparison_typed cp c t :
  comparison_ok isNullable values_typed cp → fast_comparator_ cp = Some c → t ∈ ex →
  typed c (val_at t (left_operand_ cp)) (val_at t (right_operand_ cp)).
Proof.
  intros (Hl & Hr & Hok) E Ht. rewrite E in Hok. subst c.
  split; cbn; [by apply Hl|by apply Hr].
Qed.

Lemma comparison_matches_says cp t :
  comparison_ok isNullable values_typed cp → t ∈ ex →
  comparison_matchesForSingleTuple accessor t cp = Ok (says (val_at t) (Comparing cp)).
Proof.
  intros Hok Ht. unfold comparison_matchesForSingleTuple. cbn [says].
  destruct (fast_comparator_ cp) as [c|] eqn:E; [|done].
  by apply compareDataPtrsInl_spec, comparison_typed.
Qed.

(** The columns that are scanned: of the block, or of the chosen tuples only. *)
Section scan.
Context (scanned : ValueAccessor V) (existence existence' filter filter' : option TupleIdSequence).
Context (cp : ComparisonPredicate S V T) (c : Comparator V).
Context (Hok : comparison_ok isNullable values_typed cp) (Hfast : fast_comparator_ cp = Some c).
Context (Hex : tuples_exist n ex existence) (Hf : filter_chooses n ex filter).
Context (Hend : getEndPosition scanned = n).
Context (Hval : ∀ id t, value_at scanned id t = value_at accessor id t).
Context (Hsub : ∀ t, t ∈ visited scanned → t ∈ ex).
Context (Hex' : tuples_exist n (visited scanned) existence').
Context (Hf' : filter_chooses n (visited scanned) filter').
Context (Hch : ∀ i, chosen (visited scanned) filter' i ↔ chosen ex filter i).
Abbreviation left := (left_operand_ cp).
Abbreviation right := (right_operand_ cp).
(** The attributes that are read from the accessor. *)
Context (left_id right_id : option nat).
Context (Hl : ∀ id, left_id = Some id → getAttributeIdForValueAccessor left = Some id).
Context (Hr : ∀ id, right_id = Some id → getAttributeIdForValueAccessor right = Some id).
Abbreviation expected := (λ t, compares c (val_at t left) (val_at t right)).

Lemma scanned_values s : getAllValues scanned s = (λ t, val_at t s) <$> visited scanned.
Proof using Hval ScalarLaws0.
  rewrite all_values. apply list_fmap_ext. intros _ t _. by apply single_values.
Qed.

Lemma scan_typed t : t ∈ ex → typed c (val_at t left) (val_at t right).
Proof using Hok Hfast. by apply comparison_typed. Qed.

Lemma literal_types :
  (hasStaticValue left = true → literal_typed c false (getStaticValue left)) ∧
  (hasStaticValue right = true → literal_typed c true (getStaticValue right)).
Proof using Hok Hfast.
  destruct Hok as (Htl & Htr & Hc). rewrite Hfast in Hc. rewrite Hc.
  split; intros Hs Hn; cbn; [by apply Htl|by apply Htr].
Qed.

Lemma scan_static_left :
  hasStaticValue left = true →
  answers n ex
    (match right_id with
     | Some id =>
         compareStaticValueAndValueAccessor short_circuit c (getStaticValue left) accessor id filter
     | None =>
         compareStaticValueAndColumnVector short_circuit c (getStaticValue left)
           (getAllValues scanned right) filter' existence'
     end) filter expected.
Proof using All.
  intros Hs. assert (∀ t, getStaticValue left = val_at t left) as Hst
    by (intros; symmetry; by apply static_single).
  destruct right_id as [id|].
  - assert (∀ t, value_at accessor id t = val_at t right) as Ha
      by (intros; symmetry; by apply attribute_single, Hr).
    eapply answers_ext; [eapply (compareValueAccessorAndStaticValue_spec short_circuit c n ex
      existence filter Hex Hf accessor eq_refl eq_refl false); [by apply literal_types|]|done|].
    + intros i Hi. cbn. rewrite Ha, (Hst i). by apply scan_typed.
    + intros i _. cbn. by rewrite Ha, (Hst i).
  - rewrite scanned_values.
    eapply answers_ext; [eapply (compareColumnVectorAndStaticValue_spec short_circuit c n
      (visited scanned) existence' filter' Hex' Hf' false (λ t, val_at t right));
      [by apply literal_types|]|done|].
    + intros i Hi. cbn. rewrite (Hst i). by apply scan_typed, Hsub.
    + intros i _. cbn. by rewrite (Hst i).
Qed.

Lemma scan_static_right :
  hasStaticValue right = true →
  answers n ex
    (match left_id with
     | Some id =>
         compareValueAccessorAndStaticValue short_circuit c accessor id (getStaticValue right) filter
     | None =>
         compareColumnVectorAndStaticValue short_circuit c (getAllValues scanned left)
           (getStaticValue right) filter' existence'
     end) filter expected.
Proof using All.
  intros Hs. assert (∀ t, getStaticValue right = val_at t right) as Hst
    by (intros; symmetry; by apply static_single).
  destruct left_id as [id|].
  - assert (∀ t, value_at accessor id t = val_at t left) as Ha
      by (intros; symmetry; by apply attribute_single, Hl).
    eapply answers_ext; [eapply (compareValueAccessorAndStaticValue_spec short_circuit c n ex
      existence filter Hex Hf accessor eq_refl eq_refl true); [by apply literal_types|]|done|].
    + intros i Hi. cbn. rewrite Ha, (Hst i). by apply scan_typed.
    + intros i _. cbn. by rewrite Ha, (Hst i).
  - rewrite scanned_values.
    eapply answers_ext; [eapply (compareColumnVectorAndStaticValue_spec short_circuit c n
      (visited scanned) existence' filter' Hex' Hf' true (λ t, val_at t left));
      [by apply literal_types|]|done|].
    + intros i Hi. cbn. rewrite (Hst i). by apply scan_typed, Hsub.
    + intros i _. cbn. by rewrite (Hst i).
Qed.

Lemma scan_both :
  answers n ex
    (match left_id, right_id with
     | Some l, Some r => compareSingleValueAccessor short_circuit c accessor l r filter
     | Some l, None =>
         compareValueAccessorAndColumnVector short_circuit c scanned l (getAllValues scanned right)
           filter' existence'
     | None, Some r =>
         compareColumnVectorAndValueAccessor short_circuit c (getAllValues scanned left) scanned r
           filter' existence'
     | None, None =>
         compareColumnVectors short_circuit c (getAllValues scanned left)
           (getAllValues scanned right) filter' existence'
     end) filter expected.
Proof using All.
  assert (∀ id, left_id = Some id → ∀ t, value_at accessor id t = val_at t left) as Hl'
    by (intros id Hid t; symmetry; by apply attribute_single, Hl).
  assert (∀ id, right_id = Some id → ∀ t, value_at accessor id t = val_at t right) as Hr'
    by (intros id Hid t; symmetry; by apply attribute_single, Hr).
  rewrite !scanned_values. destruct left_id as [l|], right_id as [r|].
  - eapply answers_ext; [eapply (compareSingleValueAccessor_spec short_circuit c n ex existence filter
      Hex Hf accessor eq_refl eq_refl l r)|done|].
    + intros i Hi. rewrite (Hl' l eq_refl), (Hr' r eq_refl). by apply scan_typed.
    + intros i _. cbn. by rewrite (Hl' l eq_refl), (Hr' r eq_refl).
  - eapply answers_ext; [eapply (compareColumnVectorAndValueAccessor_spec short_circuit c n
      (visited scanned) existence' filter' Hex' Hf' scanned Hend eq_refl false (λ t, val_at t right) l)|done|].
    + intros i Hi. cbn. rewrite Hval, (Hl' l eq_refl). by apply scan_typed, Hsub.
    + intros i _. cbn. by rewrite Hval, (Hl' l eq_refl).
  - eapply answers_ext; [eapply (compareColumnVectorAndValueAccessor_spec short_circuit c n
      (visited scanned) existence' filter' Hex' Hf' scanned Hend eq_refl true (λ t, val_at t left) r)|done|].
    + intros i Hi. cbn. rewrite Hval, (Hr' r eq_refl). by apply scan_typed, Hsub.
    + intros i _. cbn. by rewrite Hval, (Hr' r eq_refl).
  - eapply answers_ext; [eapply (compareColumnVectors_spec short_circuit c n (visited scanned)
      existence' filter' Hex' Hf' (λ t, val_at t left) (λ t, val_at t right))|done|done].
    intros i Hi. by apply scan_typed, Hsub.
Qed.

End scan.

Lemma compare_operands_exact scanned existence existence' filter filter' cp c :
  comparison_ok isNullable values_typed cp → fast_comparator_ cp = Some c →
  tuples_exist n ex existence → filter_chooses n ex filter → getEndPosition scanned = n →
  (∀ id t, value_at scanned id t = value_at accessor id t) →
  (∀ t, t ∈ visited scanned → t ∈ ex) → tuples_exist n (visited scanned) existence' →
  filter_chooses n (visited scanned) filter' →
  (∀ i, chosen (visited scanned) filter' i ↔ chosen ex filter i) →
  answers n ex (compare_operands short_circuit copy_elision c accessor filter scanned filter'
    existence' cp) filter
    (λ t, compares c (val_at t (left_operand_ cp)) (val_at t (right_operand_ cp))).
Proof using ScalarLaws0.
  intros Hok Hfast Hex Hf H1 H2 H3 H4 H5 H6. unfold compare_operands.
  set (left_id := if copy_elision then getAttributeIdForValueAccessor (left_operand_ cp) else None).
  set (right_id := if copy_elision then getAttributeIdForValueAccessor (right_operand_ cp) else None).
  assert (∀ id, left_id = Some id → getAttributeIdForValueAccessor (left_operand_ cp) = Some id) as Hl
    by (unfold left_id; by destruct copy_elision).
  assert (∀ id, right_id = Some id → getAttributeIdForValueAccessor (right_operand_ cp) = Some id) as Hr
    by (unfold right_id; by destruct copy_elision).
  clearbody left_id right_id.
  destruct (hasStaticValue (left_operand_ cp)) eqn:El; [by eapply scan_static_left|].
  destruct (hasStaticValue (right_operand_ cp)) eqn:Er; [by eapply scan_static_right|].
  by eapply scan_both.
Qed.

Lemma sequence_exists f :
  seq_wf f → seq_length f = n → tuples_exist n (tuples f) (Some f).
Proof.
  intros Hw Hn. split; [apply tuples_sorted|]. split; [|by split_and!].
  intros i Hi. by eapply (holds_lt f n (λ i, i ∈ tuples f)).
Qed.

(** A scan is exact, over the whole block or over the chosen tuples. *)
Lemma scan_matches_exact existence filter cp c :
  comparison_ok isNullable values_typed cp → fast_comparator_ cp = Some c →
  tuples_exist n ex existence → filter_chooses n ex filter →
  answers n ex (scan_matches short_circuit copy_elision c accessor filter existence cp) filter
    (λ t, compares c (val_at t (left_operand_ cp)) (val_at t (right_operand_ cp))).
Proof using ScalarLaws0.
  intros Hok Hfast Hex Hf. unfold scan_matches.
  assert (answers n ex (compare_operands short_circuit copy_elision c accessor filter accessor filter
    existence cp) filter
    (λ t, compares c (val_at t (left_operand_ cp)) (val_at t (right_operand_ cp)))) as Hplain
    by (by eapply compare_operands_exact).
  destruct short_circuit eqn:Esc; [|done]. destruct filter as [f|]; [|done].
  pose proof Hf as (Hw & Hn & Hsub). unfold createSharedTupleIdSequenceAdapter.
  rewrite visit_tuples by done. cbn [mbind outcome_bind]. rewrite <- Esc.
  eapply compare_operands_exact; try done. by apply sequence_exists.
Qed.

(** *** Sub-blocks *)

(** A sub-block evaluates a comparison exactly. *)
Definition sub_exact (ix : SubBlock S V T) (cp : ComparisonPredicate S V T) : Prop :=
  ∀ filter, filter_chooses n ex filter →
    answers n ex (sub_getMatchesForPredicate ix cp filter) filter
      (λ t, says (val_at t) (Comparing cp)).

(** What storage/IndexSubBlock.hpp and storage/TupleStorageSubBlock.hpp document:
    an index that is consistent, or a store with a method faster than a scan,
    finds the matches of comparisons that it does not give an infinite cost. *)
Definition kInfinite : N := 255.
Definition sub_blocks_exact (ref : SubBlocksReference S V T) : Prop :=
  ∀ cp, comparison_ok isNullable values_typed cp →
    (∀ k ix, indices ref !! k = Some ix → indices_consistent ref !! k = Some true →
       (estimatePredicateEvaluationCost ix cp < kInfinite)%N → sub_exact ix cp) ∧
    (estimatePredicateEvaluationCost (tuple_store ref) cp < kInfinite)%N ∧
    (PredicateCostIsSimpleScan (estimatePredicateEvaluationCost (tuple_store ref) cp) = false →
       sub_exact (tuple_store ref) cp).

Lemma fastest_index_spec (cp : ComparisonPredicate S V T) ixs consistent best lowest :
  let r := fastest_index cp ixs consistent best lowest in
  r = (best, lowest) ∨
  ∃ k ix, r.1 = Some ix ∧ ixs !! k = Some ix ∧ consistent !! k = Some true ∧
    (estimatePredicateEvaluationCost ix cp < lowest)%N.
Proof.
  revert consistent best lowest. induction ixs as [|ix ixs IH]; intros [|ok consistent] best lowest;
    cbn [fastest_index]; [by left..|].
  destruct (ok && (estimatePredicateEvaluationCost ix cp <? lowest)%N) eqn:E.
  - apply andb_true_iff in E as [-> Hlt%N.ltb_lt]. right.
    destruct (IH consistent (Some ix) (estimatePredicateEvaluationCost ix cp)) as [->|(k & ix' & Hix)].
    + by exists 0, ix.
    + exists (Datatypes.S k), ix'. cbn. destruct Hix as (? & ? & ? & ?). split_and!; try done. lia.
  - destruct (IH consistent best lowest) as [->|(k & ix' & Hix)]; [by left|].
    right. exists (Datatypes.S k), ix'. exact Hix.
Qed.

Section evaluation.
Context (existence : option TupleIdSequence) (sub_blocks_ref : option (SubBlocksReference S V T)).
Context (Hex : tuples_exist n ex existence).
Context (Hsub : ∀ ref, sub_blocks_ref = Some ref → sub_blocks_exact ref).

(** Not the whole of a packed block that fills its last word. *)
Definition safe (filter : option TupleIdSequence) : Prop :=
  filter = None → existence = None → ¬ (n mod 64 = 0 ∧ 0 < n).

Lemma in_block i : existence = None → i ∈ ex ↔ i < n.
Proof using Hex.
  intros E. destruct Hex as (_ & _ & He). rewrite E in He. rewrite He, elem_of_seq. lia.
Qed.

Lemma initial_filter_spec filter :
  filter_chooses n ex filter → safe filter →
  ∃ s, initial_filter accessor filter existence = Ok s ∧ holds_exactly s n (chosen ex filter).
Proof using Hex.
  intros Hf Hsafe. unfold initial_filter. destruct (new_sequence_spec n) as (s & -> & Hs).
  cbn [mbind outcome_bind]. destruct filter as [f|]; [|destruct existence as [e|] eqn:Ee].
  - destruct Hf as (Hw & Hn & _). by apply (holds_assign s f n (λ _, False) (λ i, i ∈ tuples f)).
  - destruct Hex as (_ & _ & Hw & Hn & Ht). apply (holds_assign s e n (λ _, False) (λ i, i ∈ ex)); [done|].
    by rewrite <- Ht.
  - pose proof (holds_set_all s n _ Hs) as Hall. rewrite decide_False in Hall by auto.
    destruct Hall as (s' & -> & Hs'). exists s'. split; [done|]. eapply holds_ext; [done|].
    intros i. cbn. destruct Hex as (_ & _ & ->). rewrite elem_of_seq. lia.
Qed.

Lemma static_sequence_spec filter (r : bool) (ok : nat → bool) :
  filter_chooses n ex filter → safe filter → (∀ i, ok i = r) →
  answers n ex (GenerateSequenceForStaticResult accessor filter existence r) filter ok.
Proof using Hex.
  intros Hf Hsafe Hok. destruct r.
  - destruct (initial_filter_spec filter Hf Hsafe) as (s & Hr & Hs). exists s. split.
    + rewrite <- Hr. unfold GenerateSequenceForStaticResult, initial_filter.
      destruct (new_sequence_spec n) as (s0 & -> & _ & Hn & _). cbn [mbind outcome_bind]. by rewrite Hn.
    + eapply holds_ext; [done|]. intros i. rewrite Hok. tauto.
  - unfold GenerateSequenceForStaticResult. destruct (new_sequence_spec n) as (s & -> & Hs).
    exists s. split; [done|]. eapply holds_ext; [done|]. intros i. rewrite Hok. naive_solver.
Qed.

Lemma comparison_exact cp filter :
  comparison_ok isNullable values_typed cp → filter_chooses n ex filter → safe filter →
  answers n ex (comparison_getAllMatches short_circuit copy_elision accessor sub_blocks_ref filter
    existence cp) filter (λ t, says (val_at t) (Comparing cp)).
Proof using Hex Hsub ScalarLaws0.
  intros Hok Hf Hsafe. unfold comparison_getAllMatches. cbn [says].
  destruct (fast_comparator_ cp) as [c|] eqn:E; [|by apply static_sequence_spec].
  pose proof (scan_matches_exact existence filter cp c Hok E Hex Hf) as Hscan.
  assert (∀ ix, sub_exact ix cp → answers n ex (sub_getMatchesForPredicate ix cp filter) filter
    (λ t, compares c (val_at t (left_operand_ cp)) (val_at t (right_operand_ cp)))) as Hix.
  { intros ix Hx. pose proof (Hx filter Hf) as Ha. cbn [says] in Ha. by rewrite E in Ha. }
  destruct sub_blocks_ref as [ref|]; [|done].
  destruct (isBasicComparison (comparison_ cp)); [|done].
  destruct (Hsub ref eq_refl cp Hok) as (Hi & Hst & Hstore).
  pose proof (fastest_index_spec cp (indices ref) (indices_consistent ref) None
    (estimatePredicateEvaluationCost (tuple_store ref) cp)) as Hfast. cbn zeta in Hfast.
  destruct (fastest_index _ _ _ _ _) as [best lowest].
  destruct Hfast as [[= -> ->]|(k & ix & [= ->] & Hk & Hc & Hlt)].
  - destruct (PredicateCostIsSimpleScan _) eqn:Ec; [done|]. by apply Hix, Hstore.
  - apply Hix, (Hi k); [done|done|lia].
Qed.

Abbreviation all_matches :=
  (getAllMatches short_circuit copy_elision accessor sub_blocks_ref).

(** The evaluation of a predicate is exact. *)
Definition exact (p : Predicate) : Prop :=
  ∀ filter, filter_chooses n ex filter → safe filter →
    answers n ex (all_matches filter existence p) filter (λ t, says (val_at t) p).

(** With a sequence of tuples that exist for a filter. *)
Lemma exact_within p cur P :
  exact p → holds_exactly cur n P → (∀ i, P i → i ∈ ex) →
  ∃ s, all_matches (Some cur) existence p = Ok s ∧
    holds_exactly s n (λ i, P i ∧ says (val_at i) p = true).
Proof using Type.
  intros Hp (Hw & Hn & Hi) Hsubs.
  destruct (Hp (Some cur)) as (s & -> & Hs); [|done|].
  - split_and!; [done|done|]. intros i Hin. by apply Hsubs, Hi.
  - exists s. split; [done|]. eapply holds_ext; [done|]. intros i. cbn. by rewrite Hi.
Qed.

Lemma conj_loop_exact ds cur P :
  Forall exact ds → holds_exactly cur n P → (∀ i, P i → i ∈ ex) →
  ∃ s, (fix loop (l : list Predicate) (current_filter : TupleIdSequence) :=
          match l with
          | [] => Ok current_filter
          | p :: l' =>
              e ← empty current_filter;
              if (e : bool) then Ok current_filter
              else
                r ← all_matches (Some current_filter) existence p;
                current_filter ← seq_intersectWith current_filter r;
                loop l' current_filter
          end) ds cur = Ok s ∧
    holds_exactly s n (λ i, P i ∧ forallb (says (val_at i)) ds = true).
Proof using Type.
  intros Hds. revert cur P. induction Hds as [|p ds Hp _ IH]; intros cur P Hc Hsubs.
  { exists cur. split; [done|]. eapply holds_ext; [done|]. intros i. cbn. tauto. }
  destruct (holds_empty cur n P Hc) as (e & -> & He). cbn [mbind outcome_bind]. destruct e.
  { exists cur. split; [done|]. eapply holds_ext; [done|]. intros i.
    pose proof (proj1 He eq_refl i). tauto. }
  destruct (exact_within p cur P Hp Hc Hsubs) as (r & -> & Hr). cbn [mbind outcome_bind].
  destruct (holds_intersect cur r n _ _ Hc Hr) as (cur' & -> & Hc'). cbn [mbind outcome_bind].
  destruct (IH cur' (λ i, P i ∧ says (val_at i) p = true)) as (s & Hrun & Hs).
  - eapply holds_ext; [done|]. intros i. cbn beta. tauto.
  - intros i [? _]. auto.
  - exists s. split; [exact Hrun|]. eapply holds_ext; [done|]. intros i. cbn [forallb].
    rewrite andb_true_iff. tauto.
Qed.

Lemma disj_loop_exact ds union cur U P :
  Forall exact ds → holds_exactly union n U → holds_exactly cur n P → (∀ i, P i → i ∈ ex) →
  ∃ s, (fix loop (l : list Predicate) (union_result current_filter : TupleIdSequence) :=
          match l with
          | [] => Ok union_result
          | p :: l' =>
              r ← all_matches (Some current_filter) existence p;
              union_result ← seq_unionWith union_result r;
              r ← invert r;
              current_filter ← seq_intersectWith current_filter r;
              loop l' union_result current_filter
          end) ds union cur = Ok s ∧
    holds_exactly s n (λ i, U i ∨ P i ∧ existsb (says (val_at i)) ds = true).
Proof using Type.
  intros Hds. revert union cur U P. induction Hds as [|p ds Hp _ IH]; intros union cur U P Hu Hc Hsubs.
  { exists union. split; [done|]. eapply holds_ext; [done|]. intros i. cbn. naive_solver. }
  destruct (exact_within p cur P Hp Hc Hsubs) as (r & -> & Hr). cbn [mbind outcome_bind].
  destruct (holds_union union r n _ _ Hu Hr) as (union' & -> & Hu'). cbn [mbind outcome_bind].
  destruct (holds_invert r n _ Hr) as (r' & -> & Hr'). cbn [mbind outcome_bind].
  destruct (holds_intersect cur r' n _ _ Hc Hr') as (cur' & -> & Hc'). cbn [mbind outcome_bind].
  destruct (IH union' cur' _ (λ i, P i ∧ says (val_at i) p = false) Hu') as (s & Hrun & Hs).
  - eapply holds_ext; [done|]. intros i. cbn beta. rewrite <- not_true_iff_false.
    split; [tauto|]. intros [HP Hn]. split; [done|]. split; [exact (holds_lt cur n P i Hc HP)|tauto].
  - intros i [? _]. auto.
  - exists s. split; [exact Hrun|]. eapply holds_ext; [done|]. intros i. cbn [existsb].
    rewrite orb_true_iff, <- not_true_iff_false. destruct (decide (says (val_at i) p = true)); tauto.
Qed.

Lemma disj_plain_exact ds union U filter :
  Forall exact ds → holds_exactly union n U → filter_chooses n ex filter → safe filter →
  ∃ s, (fix loop (l : list Predicate) (union_result : TupleIdSequence) :=
          match l with
          | [] => Ok union_result
          | p :: l' =>
              r ← all_matches filter existence p;
              union_result ← seq_unionWith union_result r;
              loop l' union_result
          end) ds union = Ok s ∧
    holds_exactly s n (λ i, U i ∨ chosen ex filter i ∧ existsb (says (val_at i)) ds = true).
Proof using Type.
  intros Hds Hu Hf Hsafe. revert union U Hu. induction Hds as [|p ds Hp _ IH]; intros union U Hu.
  { exists union. split; [done|]. eapply holds_ext; [done|]. intros i. cbn. naive_solver. }
  destruct (Hp filter Hf Hsafe) as (r & -> & Hr). cbn [mbind outcome_bind].
  destruct (holds_union union r n _ _ Hu Hr) as (union' & -> & Hu'). cbn [mbind outcome_bind].
  destruct (IH union' _ Hu') as (s & Hrun & Hs). exists s. split; [exact Hrun|].
  eapply holds_ext; [done|]. intros i. cbn [existsb]. rewrite orb_true_iff. cbn beta. tauto.
Qed.

Lemma negation_exact o : exact o → ∀ filter, filter_chooses n ex filter → safe filter →
  answers n ex
    (m ← all_matches filter existence o;
     m ← invert m;
     m ← intersect_option m filter;
     intersect_option m existence) filter (λ t, negb (says (val_at t) o)).
Proof using Hex.
  intros Ho filter Hf Hsafe. destruct (Ho filter Hf Hsafe) as (m & -> & Hm). cbn [mbind outcome_bind].
  destruct (holds_invert m n _ Hm) as (m1 & -> & Hm1). cbn [mbind outcome_bind].
  assert (∃ m2, intersect_option m1 filter = Ok m2 ∧ holds_exactly m2 n
    (λ i, (i < n ∧ match filter with Some f => i ∈ tuples f | None => True end) ∧
          ¬ (chosen ex filter i ∧ says (val_at i) o = true))) as (m2 & -> & Hm2).
  { destruct filter as [f|]; cbn [intersect_option].
    - destruct Hf as (Hw & Hn & _).
      destruct (holds_intersect m1 f n _ (λ i, i ∈ tuples f) Hm1) as (m2 & -> & Hm2); [done|].
      exists m2. split; [done|]. eapply holds_ext; [done|]. intros i. cbn beta. tauto.
    - exists m1. split; [done|]. eapply holds_ext; [done|]. intros i. cbn beta. tauto. }
  cbn [mbind outcome_bind].
  assert (∃ m3, intersect_option m2 existence = Ok m3 ∧ holds_exactly m3 n
    (λ i, chosen ex filter i ∧ ¬ (chosen ex filter i ∧ says (val_at i) o = true))) as (m3 & -> & Hm3).
  { pose proof Hex as (_ & Hlt & He). pose proof in_block as Hblock.
    destruct existence as [e|]; cbn [intersect_option].
    - destruct He as (Hw & Hn & Ht).
      destruct (holds_intersect m2 e n _ (λ i, i ∈ ex) Hm2) as (m3 & -> & Hm3); [by rewrite <- Ht|].
      exists m3. split; [done|]. eapply holds_ext; [done|]. intros i. cbn beta.
      pose proof (chosen_exists filter i Hf). pose proof (Hlt i). destruct filter; cbn in *; tauto.
    - exists m2. split; [done|]. eapply holds_ext; [done|]. intros i. cbn beta.
      pose proof (chosen_exists filter i Hf) as Hce. pose proof (Hblock i eq_refl).
      destruct filter; cbn in *; tauto. }
  exists m3. split; [done|]. eapply holds_ext; [done|]. intros i. cbn beta.
  rewrite negb_true_iff, <- not_true_iff_false. tauto.
Qed.

Lemma getAllMatches_exact p : pred_ok isNullable values_typed p → exact p.
Proof using Hex Hsub ScalarLaws0.
  induction p as [| |cp|o has static IH|ss ds has static _ IH|ss ds has static fresh _ IH]
    using predicate_list_ind; intros Hok filter Hf Hsafe; cbn [getAllMatches].
  - by apply static_sequence_spec.
  - by apply static_sequence_spec.
  - by apply comparison_exact.
  - destruct Hok as [Ho Hc]. destruct has; [|by apply negation_exact; auto].
    apply static_sequence_spec; [done|done|]. intros i. cbn. by rewrite (Hc eq_refl), negb_involutive.
  - apply conj_ok_iff in Hok as (_ & Hds & _ & Hfl). cbn [says].
    destruct has; [by apply static_sequence_spec|]. cbn in Hfl.
    destruct (initial_filter_spec filter Hf Hsafe) as (cur & -> & Hcur). cbn [mbind outcome_bind].
    destruct (conj_loop_exact ds cur (chosen ex filter)) as (s & Hrun & Hs).
    + apply Forall_forall. intros p Hp. rewrite Forall_forall in IH, Hds. by apply IH, Hds.
    + done.
    + intros i. by apply chosen_exists.
    + exists s. split; [exact Hrun|]. eapply holds_ext; [done|]. intros i. by rewrite Hfl.
  - apply disj_ok_iff in Hok as (_ & Hds & _ & Hfl). cbn [says].
    assert (Forall exact ds) as Hexact.
    { apply Forall_forall. intros p Hp. rewrite Forall_forall in IH, Hds. by apply IH, Hds. }
    destruct fresh; cbn in Hfl.
    { destruct Hfl as (_ & _ & -> & ->). by apply static_sequence_spec. }
    destruct Hfl as [_ Hfl]. destruct has.
    { apply static_sequence_spec; [done|done|]. intros i. cbn [orb]. apply Hfl. }
    destruct (new_sequence_spec n) as (u & -> & Hu). cbn [mbind outcome_bind].
    destruct short_circuit eqn:Esc.
    + destruct (initial_filter_spec filter Hf Hsafe) as (cur & -> & Hcur). cbn [mbind outcome_bind].
      rewrite <- Esc. destruct (disj_loop_exact ds u cur _ _ Hexact Hu Hcur) as (s & Hrun & Hs).
      { intros i. by apply chosen_exists. }
      exists s. split; [exact Hrun|]. eapply holds_ext; [done|]. intros i. cbn beta.
      rewrite Hfl. cbn [orb]. tauto.
    + rewrite <- Esc. destruct (disj_plain_exact ds u _ filter Hexact Hu Hf Hsafe) as (s & Hrun & Hs).
      exists s. split; [exact Hrun|]. eapply holds_ext; [done|]. intros i. cbn beta.
      rewrite Hfl, Esc. cbn [orb]. tauto.
Qed.
End evaluation.
End block.

(** ** Evaluation over joined tuples *)

Section joined.
Context {S V T : Type} `{!ScalarOps S V T, !ScalarLaws S V T} (isNullable : T → bool).
Context (left_accessor right_accessor : ValueAccessor V) (t u : nat).
Abbreviation val := (λ s : S, getValueForJoinedTuples left_accessor t right_accessor u s).

Definition joined_typed (s : S) : Prop := val s = None → isNullable (getType s) = true.

Lemma joined_matches_says (good : S → Prop) p :
  (∀ s, good s → joined_typed s) → pred_ok isNullable good p →
  matchesForJoinedTuples left_accessor t right_accessor u p = Ok (says val p).
Proof.
  intros Hgood Hok. eapply matches_says; [done|]. intros cp (Hl & Hr & Hc).
  unfold comparison_matchesForJoinedTuples. cbn [says].
  destruct (fast_comparator_ cp) as [c|] eqn:E; [|done]. subst c.
  apply compareDataPtrsInl_spec. split; cbn; [apply (Hgood _ Hl)|apply (Hgood _ Hr)].
Qed.

(** A predicate on the joined pair says what its formula does. *)
Lemma join_matches_formula f :
  applicable f = true → Forall joined_typed (operands f) →
  ∃ p, concretize isNullable f = Ok p ∧
    matchesForJoinedTuples left_accessor t right_accessor u p = Ok (satisfies val f).
Proof using ScalarLaws0.
  intros Happ Hgood. destruct (concretize_renders isNullable joined_typed f Happ Hgood)
    as (p & Hp & Hok & _ & Hs). exists p. split; [done|].
  rewrite (joined_matches_says joined_typed) by done. f_equal. apply Hs. intros s Hst. by apply static_joined.
Qed.
End joined.
