(* ===== verification/Selection.v ===== *)
(** * Scalars and selection

    Models expressions/scalar/ScalarLiteral.{hpp,cpp} and ScalarAttribute.{hpp,cpp}
    and gives them the interface of scalars that predicates use.  Expressions
    that compute on values are not modelled: what is proved of predicates holds
    for every scalar that obeys [ScalarLaws].  Then what a block selects, and
    the LIP filters of utility/lip_filter/ with their adaptive prober. *)

From stdpp Require Import options.
From S2P Require Import Prelude BitVector TupleIdSequence Comparators Predicates PredicateTheorems.

Inductive JoinSide := kNone | kLeftSide | kRightSide.

Inductive Scalar (V T : Type) :=
  | ScalarLiteral (internal_literal_ : option V) (type_ : T)
  | ScalarAttribute (attribute_ : nat) (type_ : T) (join_side_ : JoinSide).
Arguments ScalarLiteral {_ _} _ _.
Arguments ScalarAttribute {_ _} _ _ _.

Section scalars.
Context {V T : Type}.
Abbreviation Scalar := (Scalar V T).
Implicit Types (s : Scalar) (a : ValueAccessor V).

Definition scalar_getType s : T :=
  match s with ScalarLiteral _ ty | ScalarAttribute _ ty _ => ty end.
Definition scalar_hasStaticValue s : bool :=
  match s with ScalarLiteral _ _ => true | ScalarAttribute _ _ _ => false end.
(** Of an attribute, a fatal error, which no caller risks. *)
Definition scalar_getStaticValue s : option V :=
  match s with ScalarLiteral v _ => v | ScalarAttribute _ _ _ => None end.
Definition scalar_getAttributeId s : option nat :=
  match s with ScalarLiteral _ _ => None | ScalarAttribute id _ _ => Some id end.

Definition scalar_getValueForSingleTuple a (tuple : nat) s : option V :=
  match s with ScalarLiteral v _ => v | ScalarAttribute id _ _ => value_at a id tuple end.
(** A side is asserted; without the assertion it is the right one. *)
Definition scalar_getValueForJoinedTuples left_accessor (left_tuple_id : nat) right_accessor
    (right_tuple_id : nat) s : option V :=
  match s with
  | ScalarLiteral v _ => v
  | ScalarAttribute id _ kLeftSide => value_at left_accessor id left_tuple_id
  | ScalarAttribute id _ _ => value_at right_accessor id right_tuple_id
  end.

Definition scalar_getAllValues a s : list (option V) :=
  match s with
  | ScalarLiteral v _ => replicate (length (visited a)) v
  | ScalarAttribute id _ _ => value_at a id <$> visited a
  end.
Definition scalar_getAllValuesForJoin left_accessor right_accessor
    (joined_tuple_ids : list (nat * nat)) s : list (option V) :=
  match s with
  | ScalarLiteral v _ => replicate (length joined_tuple_ids) v
  | ScalarAttribute id _ join_side =>
      let using_left_relation := match join_side with kLeftSide => true | _ => false end in
      let accessor := if using_left_relation then left_accessor else right_accessor in
      (λ joined_pair : nat * nat,
         value_at accessor id (if using_left_relation then joined_pair.1 else joined_pair.2))
        <$> joined_tuple_ids
  end.

#[global] Instance scalar_ops : ScalarOps Scalar V T := {
  getType := scalar_getType;
  hasStaticValue := scalar_hasStaticValue;
  getStaticValue := scalar_getStaticValue;
  getAttributeIdForValueAccessor := scalar_getAttributeId;
  getValueForSingleTuple := scalar_getValueForSingleTuple;
  getValueForJoinedTuples := scalar_getValueForJoinedTuples;
  getAllValues := scalar_getAllValues;
  getAllValuesForJoin := scalar_getAllValuesForJoin;
}.

Lemma fmap_constant {A B} (b : B) (l : list A) : replicate (length l) b = (λ _, b) <$> l.
Proof. induction l as [|x l IH]; [done|]. cbn. by f_equal. Qed.

#[global] Instance scalar_laws : ScalarLaws Scalar V T.
Proof.
  split.
  - by intros a t [v ty|id ty side].
  - by intros a t b u [v ty|id ty side].
  - intros a t [v ty|id ty side] id'; cbn; congruence.
  - intros a [v ty|id ty side]; cbn; [apply fmap_constant|done].
  - intros a b t [v ty|id ty side] Hv; cbn; [done|apply Hv].
  - intros a b ps [v ty|id ty side]; cbn.
    + rewrite fmap_constant. apply list_fmap_ext. by intros _ [t u] _.
    + destruct side; apply list_fmap_ext; by intros _ [t u] _.
Qed.

End scalars.

(** * Selection over a block

    The tuples that StorageBlock::getMatchesForPredicate finds are those of
    which the logical expression of the query is true.  Where the evaluation
    sets a whole range of tuples at once, or is given a filter, the code has
    defects, which are shown on concrete blocks. *)

Section selection.
Context {S V T : Type} `{!ScalarOps S V T, !ScalarLaws S V T, !HeapMemory} (isNullable : T → bool).
Context (short_circuit copy_elision : bool) (accessor : ValueAccessor V).
Abbreviation n := (getEndPosition accessor).
Abbreviation ex := (visited accessor).
Abbreviation val_at := (λ t (s : S), getValueForSingleTuple accessor t s).
Abbreviation Formula := (Formula (S := S) (V := V) (T := T)).

Lemma static_values_at t : static_values (val_at t).
Proof using ScalarLaws0. intros s Hs. by apply static_single. Qed.

(** The map of the tuples that exist, given where there are holes. *)
Lemma packed_exists (packed : bool) e :
  tuples_exist n ex (Some e) → (packed = true → ex = seq 0 n) →
  tuples_exist n ex (if packed then None else Some e).
Proof.
  intros (Hs & Hlt & He) Hp. destruct packed; [|exact (conj Hs (conj Hlt He))]. split_and!; [done|done|by apply Hp].
Qed.

Lemma selection_exact (ref : SubBlocksReference S V T) (packed : bool) existence (f : Formula) p
    filter :
  applicable f = true → Forall (values_typed isNullable accessor) (operands f) →
  tuples_exist n ex (Some existence) →
  (packed = true → ex = seq 0 n ∧ ¬ (n mod 64 = 0 ∧ 0 < n)) →
  sub_blocks_exact isNullable accessor ref → concretize isNullable f = Ok p →
  filter_chooses n ex filter →
  answers n ex (getAllMatches short_circuit copy_elision accessor (Some ref) filter
    (if packed then None else Some existence) p) filter (λ t, satisfies (val_at t) f).
Proof using ScalarLaws0.
  intros Happ Hgood Hex Hpacked Hsub Hc Hf.
  destruct (concretize_renders isNullable _ f Happ Hgood) as (p' & Hp & Hok & _ & Hs).
  rewrite Hc in Hp. injection Hp as <-.
  eapply answers_ext; [eapply (getAllMatches_exact isNullable short_circuit
    copy_elision accessor (if packed then None else Some existence) (Some ref));
    [|by intros ? [= <-]|done|done|]|done|].
  - apply packed_exists; [done|]. intros E. by apply Hpacked.
  - intros _ E. by destruct packed; [apply Hpacked|].
  - intros t _. apply Hs, static_values_at.
Qed.

Lemma block_selects (ref : SubBlocksReference S V T) (packed : bool) existence (f : Formula) p :
  applicable f = true → Forall (values_typed isNullable accessor) (operands f) →
  tuples_exist n ex (Some existence) →
  (packed = true → ex = seq 0 n ∧ ¬ (n mod 64 = 0 ∧ 0 < n)) →
  sub_blocks_exact isNullable accessor ref → concretize isNullable f = Ok p →
  ∃ s, block_getMatchesForPredicate short_circuit copy_elision accessor ref packed existence
         (Some p) None = Ok s ∧
    holds_exactly s n (λ t, t ∈ ex ∧ satisfies (val_at t) f = true).
Proof using ScalarLaws0.
  intros Happ Hgood Hex Hpacked Hsub Hc.
  destruct (selection_exact ref packed existence f p None Happ Hgood Hex Hpacked Hsub Hc I)
    as (s & Hr & Hs). exists s. split; [|exact Hs].
  unfold block_getMatchesForPredicate. by destruct packed.
Qed.

(** C38. Selection gives the right tuples.  Let a query's logical expression
    (comparisons of scalars under AND, OR and NOT) have only comparisons that
    apply to the types of their operands, whose values are not null where their
    types do not allow it.  Then the expression is turned into a predicate, and
    StorageBlock::getMatchesForPredicate of a block with holes, or of a packed
    block whose number of tuples is not a positive multiple of 64, returns exactly the tuples of the block of which the expression is true; the
    vectorized evaluation under any filter returns exactly the chosen ones of
    which it is true, and the evaluation for one tuple is true when the
    expression is.  This is so whether or not the build short-circuits
    predicates or avoids copying columns, whatever operands are static, and
    whichever index or tuple store with a sound evaluation of comparisons takes
    over.  For the packed blocks that are left out see [full_block_overruns]. *)
Theorem selection_matches_formula (ref : SubBlocksReference S V T) (packed : bool)
    (existence : TupleIdSequence) (f : Formula) :
  applicable f = true → Forall (values_typed isNullable accessor) (operands f) →
  tuples_exist n ex (Some existence) →
  (packed = true → ex = seq 0 n ∧ ¬ (n mod 64 = 0 ∧ 0 < n)) →
  sub_blocks_exact isNullable accessor ref →
  ∃ p, concretize isNullable f = Ok p ∧
    (∃ s, block_getMatchesForPredicate short_circuit copy_elision accessor ref packed existence
            (Some p) None = Ok s ∧
       ∀ t, t ∈ tuples s ↔ t ∈ ex ∧ satisfies (val_at t) f = true) ∧
    (∀ filter, filter_chooses n ex filter →
       answers n ex (getAllMatches short_circuit copy_elision accessor (Some ref) filter
         (if packed then None else Some existence) p) filter (λ t, satisfies (val_at t) f)) ∧
    ∀ t, t ∈ ex → matchesForSingleTuple accessor t p = Ok (satisfies (val_at t) f).
Proof using ScalarLaws0.
  intros Happ Hgood Hex Hpacked Hsub.
  destruct (concretize_renders isNullable _ f Happ Hgood) as (p & Hp & Hok & _ & Hs).
  exists p. split_and!; [done| |by intros; apply selection_exact|].
  - destruct (block_selects ref packed existence f p) as (s & Hr & _ & _ & Ht); [done..|]. by exists s.
  - intros t Ht. unfold matchesForSingleTuple.
    rewrite (matches_says isNullable (values_typed isNullable accessor) _ (val_at t)) by
      (done || (intros; by apply (comparison_matches_says isNullable))).
    f_equal. apply Hs, static_values_at.
Qed.
End selection.

(** ** LIP filters

    Models utility/lip_filter/BitVectorExactFilter.hpp,
    SingleIdentityHashFilter.hpp and LIPFilterAdaptiveProber.hpp.  A filter has
    a bit per value, or per residue of a value; the tuples of a block are probed
    in batches, and after each batch the filters are put in another order. *)

(** [CppType] is how the bytes of a value are read, signed in an exact filter and
    unsigned in a hash filter; [bit_vector_] is the bits of its words. *)
Inductive LIPFilter (V : Type) :=
  | BitVectorExactFilter (CppType : V → Z) (is_anti_filter : bool) (min_value_ max_value_ : Z)
      (bit_vector_ : list bool)
  | SingleIdentityHashFilter (CppType : V → N) (filter_cardinality_ : N) (bit_vector_ : list bool).
Arguments BitVectorExactFilter {_} _ _ _ _ _.
Arguments SingleIdentityHashFilter {_} _ _ _.

(** [attr_nullable]: of the type of the attribute; [miss_rate] follows from the
    counts. *)
Record ProbeEntry (V : Type) := {
  lip_filter : LIPFilter V;
  lip_attr_id : nat;
  attr_nullable : bool;
  miss : N;
  cnt : N;
}.
Arguments lip_filter {_} _.
Arguments lip_attr_id {_} _.
Arguments attr_nullable {_} _.
Arguments miss {_} _.
Arguments cnt {_} _.

Lemma filter_always {A} (P : A → Prop) `{!∀ x, Decision (P x)} (l : list A) :
  (∀ x, P x) → filter P l = l.
Proof.
  intros HP. induction l as [|x l IH]; [done|]. rewrite filter_cons, decide_True by done. by f_equal.
Qed.

Section lip.
Context {V : Type}.
Implicit Types (f : LIPFilter V) (e : ProbeEntry V) (accessor : ValueAccessor V).

(** [BarrieredReadWriteConcurrentBitVector]: the bits are those of whole words. *)
Definition lip_bits (num_bits : nat) : list bool := replicate (64 * ((num_bits + 63) / 64)) false.

Definition new_BitVectorExactFilter (CppType : V → Z) (is_anti_filter : bool)
    (min_value max_value : Z) : LIPFilter V :=
  BitVectorExactFilter CppType is_anti_filter min_value max_value
    (lip_bits (Z.to_nat (max_value - min_value + 1))).
Definition new_SingleIdentityHashFilter (CppType : V → N) (filter_cardinality : N) : LIPFilter V :=
  SingleIdentityHashFilter CppType filter_cardinality (lip_bits (N.to_nat filter_cardinality)).

(** Out of the words is undefined. *)
Definition lip_getBit (bits : list bool) (bit_num : nat) : outcome bool :=
  match bits !! bit_num with Some b => Ok b | None => Err UndefinedBehaviour end.
Definition lip_setBit (bits : list bool) (bit_num : nat) : outcome (list bool) :=
  if decide (bit_num < length bits) then Ok (<[bit_num := true]> bits) else Err UndefinedBehaviour.

(** A value below the range of an exact filter becomes a huge index, one above it
    may still be in the last word. *)
Definition lip_insert f (value : V) : outcome (LIPFilter V) :=
  match f with
  | BitVectorExactFilter read anti lo hi bits =>
      if (read value <? lo)%Z then Err UndefinedBehaviour
      else
        bits ← lip_setBit bits (Z.to_nat (read value - lo));
        Ok (BitVectorExactFilter read anti lo hi bits)
  | SingleIdentityHashFilter read card bits =>
      if (card =? 0)%N then Err UndefinedBehaviour
      else
        bits ← lip_setBit bits (N.to_nat (read value mod card));
        Ok (SingleIdentityHashFilter read card bits)
  end.
Definition lip_contains f (value : V) : outcome bool :=
  match f with
  | BitVectorExactFilter read is_anti_filter lo hi bits =>
      if bool_decide (read value < lo ∨ hi < read value)%Z then Ok is_anti_filter
      else
        is_bit_set ← lip_getBit bits (Z.to_nat (read value - lo));
        Ok (if is_anti_filter then negb is_bit_set else is_bit_set)
  | SingleIdentityHashFilter read card bits =>
      if (card =? 0)%N then Err UndefinedBehaviour
      else lip_getBit bits (N.to_nat (read value mod card))
  end.

Fixpoint lip_insert_values (is_attr_nullable : bool) f (vs : list (option V))
  : outcome (LIPFilter V) :=
  match vs with
  | [] => Ok f
  | v :: vs' =>
      f ← (if negb is_attr_nullable || negb (is_null v) then v ← deref v; lip_insert f v else Ok f);
      lip_insert_values is_attr_nullable f vs'
  end.
Definition lip_insertValueAccessor f accessor (attr_id : nat) (is_attr_nullable : bool)
  : outcome (LIPFilter V) :=
  lip_insert_values is_attr_nullable f (value_at accessor attr_id <$> visited accessor).

(** The tuples of the batch that are kept. *)
Fixpoint lip_filterBatch f accessor (attr_id : nat) (is_attr_nullable : bool) (batch : list nat)
  : outcome (list nat) :=
  match batch with
  | [] => Ok []
  | tid :: batch' =>
      let value := value_at accessor attr_id tid in
      hit ← (if is_attr_nullable && is_null value then Ok false
             else v ← deref value; lip_contains f v);
      out ← lip_filterBatch f accessor attr_id is_attr_nullable batch';
      Ok (if (hit : bool) then tid :: out else out)
  end.

(** *** The adaptive prober *)

Definition new_ProbeEntry f (attr_id : nat) (nullable : bool) : ProbeEntry V :=
  {| lip_filter := f; lip_attr_id := attr_id; attr_nullable := nullable; miss := 0; cnt := 0 |}.
Definition uint32 (n : N) : N := (n mod 2 ^ 32)%N.
Definition count_batch e (batch_size out_size : nat) : ProbeEntry V :=
  {| lip_filter := lip_filter e; lip_attr_id := lip_attr_id e; attr_nullable := attr_nullable e;
     miss := uint32 (miss e + N.of_nat (batch_size - out_size));
     cnt := uint32 (cnt e + N.of_nat batch_size) |}.

Context `{!HeapMemory, !HashOrder (ProbeEntry V)}.

(** [std::sort] by [miss_rate], which is a [float], and not a number for a filter
    that was never probed: some rearrangement. *)
Definition adaptEntryOrder (entries : list (ProbeEntry V)) : list (ProbeEntry V) :=
  hash_order entries.

Fixpoint probe_entries (entries : list (ProbeEntry V)) accessor (batch : list nat)
  : outcome (list (ProbeEntry V) * list nat) :=
  match entries with
  | [] => Ok ([], batch)
  | e :: entries' =>
      out ← lip_filterBatch (lip_filter e) accessor (lip_attr_id e) (attr_nullable e) batch;
      '(entries', hits) ← probe_entries entries' accessor out;
      Ok (count_batch e (length batch) (length out) :: entries', hits)
  end.
Definition prober_filterBatch (entries : list (ProbeEntry V)) accessor (batch : list nat)
  : outcome (list (ProbeEntry V) * list nat) :=
  '(entries, hits) ← probe_entries entries accessor batch;
  Ok (adaptEntryOrder entries, hits).

Fixpoint set_hits (hits : list nat) (matches : TupleIdSequence) : outcome TupleIdSequence :=
  match hits with
  | [] => Ok matches
  | t :: hits' => matches ← set t true matches; set_hits hits' matches
  end.

(** The loop over the batches: [rest] are the tuples that have not been probed.  A
    block has fewer than [2 ^ 31] tuples, so that the size does not wrap. *)
Fixpoint filter_batches (fuel next_batch_size : nat) (entries : list (ProbeEntry V)) accessor
    (rest : list nat) (matches : TupleIdSequence) : outcome TupleIdSequence :=
  '(entries, hits) ← prober_filterBatch entries accessor (take next_batch_size rest);
  matches ← set_hits hits matches;
  match drop next_batch_size rest with
  | [] => Ok matches
  | rest =>
      match fuel with
      | 0 => Err OutOfFuel
      | S fuel' => filter_batches fuel' (next_batch_size * 2) entries accessor rest matches
      end
  end.

(** [existence_map]: of the accessor, none when its tuples are packed. *)
Definition filterValueAccessor (entries : list (ProbeEntry V)) accessor
    (existence_map : option TupleIdSequence) : outcome TupleIdSequence :=
  match existence_map with
  | None =>
      let num_tuples := length (visited accessor) in
      matches ← new_sequence num_tuples;
      filter_batches num_tuples 64 entries accessor (seq 0 num_tuples) matches
  | Some existence_map =>
      matches ← new_sequence (seq_length existence_map);
      ids ← visit existence_map;
      filter_batches (length ids) 64 entries accessor ids matches
  end.

(** *** What is kept *)

Definition lip_wf f : Prop :=
  match f with
  | BitVectorExactFilter _ _ lo hi bits => (hi - lo < Z.of_nat (length bits))%Z
  | SingleIdentityHashFilter _ card bits => (0 < card ≤ N.of_nat (length bits))%N
  end.

(** Whether a value is let through. *)
Definition lip_hits f (v : V) : bool :=
  match f with
  | BitVectorExactFilter read anti lo hi bits =>
      xorb anti (bool_decide (lo ≤ read v ≤ hi)%Z && default false (bits !! Z.to_nat (read v - lo)))
  | SingleIdentityHashFilter read card bits =>
      default false (bits !! N.to_nat (read v mod card))
  end.

Lemma lip_contains_spec f v : lip_wf f → lip_contains f v = Ok (lip_hits f v).
Proof.
  destruct f as [read anti lo hi bits|read card bits]; cbn [lip_wf lip_contains lip_hits].
  - intros Hlen. repeat case_bool_decide; try lia.
    + by rewrite xorb_false_r.
    + unfold lip_getBit.
      destruct (lookup_lt_is_Some_2 bits (Z.to_nat (read v - lo))) as [b ->]; [lia|].
      by destruct anti.
  - intros [Hpos Hlen]. destruct (N.eqb_spec card 0); [lia|]. unfold lip_getBit.
    pose proof (N.mod_lt (read v) card).
    destruct (lookup_lt_is_Some_2 bits (N.to_nat (read v mod card))) as [b ->]; [lia|]. done.
Qed.

(** A new filter lets nothing through, an anti filter everything.  Inserting a
    value of the range lets it through, or holds it back in an anti filter; a
    hash filter lets through the values of the same residue. *)
Lemma lip_bits_lookup num_bits i : default false (lip_bits num_bits !! i) = false.
Proof.
  unfold lip_bits. destruct (replicate _ false !! i) as [b|] eqn:E; [|done].
  by apply lookup_replicate in E as [-> _].
Qed.
Lemma lip_bits_length num_bits : num_bits ≤ length (lip_bits num_bits).
Proof. unfold lip_bits. rewrite length_replicate. pose proof (Nat.div_mod_eq (num_bits + 63) 64).
  pose proof (Nat.mod_upper_bound (num_bits + 63) 64). lia. Qed.

Lemma new_filter_spec read read' anti lo hi card v :
  (0 < card)%N →
  (lip_wf (new_BitVectorExactFilter read anti lo hi) ∧
   lip_hits (new_BitVectorExactFilter read anti lo hi) v = anti) ∧
  lip_wf (new_SingleIdentityHashFilter read' card) ∧
  lip_hits (new_SingleIdentityHashFilter read' card) v = false.
Proof.
  intros Hc. cbn [lip_wf lip_hits new_BitVectorExactFilter new_SingleIdentityHashFilter].
  pose proof (lip_bits_length (Z.to_nat (hi - lo + 1))). pose proof (lip_bits_length (N.to_nat card)).
  rewrite !lip_bits_lookup, andb_false_r, xorb_false_r. split_and!; try done; lia.
Qed.

Lemma lip_insert_spec f w f' :
  lip_wf f → lip_insert f w = Ok f' →
  lip_wf f' ∧ ∀ v,
    match f with
    | BitVectorExactFilter read anti lo hi _ => (lo ≤ read w ≤ hi)%Z →
        lip_hits f' v = if decide (read v = read w) then negb anti else lip_hits f v
    | SingleIdentityHashFilter read card _ =>
        lip_hits f' v =
          if decide (read v mod card = read w mod card)%N then true else lip_hits f v
    end.
Proof.
  destruct f as [read anti lo hi bits|read card bits]; cbn [lip_wf lip_insert];
    unfold lip_setBit.
  - intros Hlen. destruct (Z.ltb_spec (read w) lo); [done|]. case_decide as Hi; [|done]. intros [= <-].
    split; [by cbn; rewrite length_insert|]. intros v Hr. cbn [lip_hits].
    case_decide as Heq.
    + rewrite Heq, list_lookup_insert_eq by done. rewrite bool_decide_true by lia. by destruct anti.
    + case_bool_decide; [|done]. rewrite list_lookup_insert_ne by lia. done.
  - intros [Hpos Hlen]. destruct (N.eqb_spec card 0); [done|]. case_decide as Hi; [|done].
    intros [= <-]. split; [by cbn; rewrite length_insert|]. intros v. cbn [lip_hits].
    case_decide as Heq.
    + rewrite Heq. by rewrite list_lookup_insert_eq.
    + rewrite list_lookup_insert_ne by lia. done.
Qed.

(** The values of the attribute are not null where its type does not allow it. *)
Definition probe_typed accessor (ids : list nat) e : Prop :=
  attr_nullable e = false → ∀ t, t ∈ ids → value_at accessor (lip_attr_id e) t ≠ None.
Definition entry_ok accessor (ids : list nat) e : Prop :=
  lip_wf (lip_filter e) ∧ probe_typed accessor ids e.
Definition passes accessor (t : nat) e : bool :=
  match value_at accessor (lip_attr_id e) t with
  | Some v => lip_hits (lip_filter e) v
  | None => false
  end.
Definition passes_all accessor (entries : list (ProbeEntry V)) (t : nat) : bool :=
  forallb (passes accessor t) entries.

Lemma entry_ok_sub accessor ids ids' e : entry_ok accessor ids e → ids' ⊆ ids → entry_ok accessor ids' e.
Proof. intros [Hw Ht] Hsub. split; [done|]. intros Hn t Hin. by apply Ht; [|apply Hsub]. Qed.

Lemma lip_filterBatch_spec e accessor batch :
  entry_ok accessor batch e →
  lip_filterBatch (lip_filter e) accessor (lip_attr_id e) (attr_nullable e) batch =
    Ok (filter (λ t, passes accessor t e = true) batch).
Proof.
  induction batch as [|t batch IH]; intros Hok; [done|]. cbn [lip_filterBatch].
  rewrite IH by (eapply entry_ok_sub; [done|set_solver]). rewrite filter_cons.
  destruct Hok as [Hw Hty]. unfold passes in IH |- *.
  destruct (value_at accessor (lip_attr_id e) t) as [v|] eqn:Ev; cbn [is_null].
  - rewrite andb_false_r. cbn [deref mbind outcome_bind]. rewrite lip_contains_spec by done.
    cbn [mbind outcome_bind]. case_decide as Hd; [by rewrite Hd|].
    by apply not_true_is_false in Hd as ->.
  - destruct (attr_nullable e) eqn:En; [done|]. by destruct (Hty En t); [left|].
Qed.

(** What an entry probes does not change, and all entries are probed. *)
Definition same_probe e e' : Prop :=
  lip_filter e = lip_filter e' ∧ lip_attr_id e = lip_attr_id e' ∧ attr_nullable e = attr_nullable e'.

Lemma probe_entries_spec entries accessor batch :
  Forall (entry_ok accessor batch) entries → ∃ entries',
  probe_entries entries accessor batch =
    Ok (entries', filter (λ t, passes_all accessor entries t = true) batch) ∧
  Forall2 same_probe entries entries'.
Proof.
  revert batch. induction entries as [|e entries IH]; intros batch Hok; cbn [probe_entries].
  { exists []. split; [|constructor]. by rewrite filter_always. }
  apply Forall_cons in Hok as [He Hok]. rewrite lip_filterBatch_spec by done. cbn [mbind outcome_bind].
  destruct (IH (filter (λ t, passes accessor t e = true) batch)) as (entries' & -> & Hsame).
  { eapply Forall_impl; [exact Hok|]. intros e' He'. eapply entry_ok_sub; [exact He'|].
    intros t. rewrite list_elem_of_filter. tauto. }
  cbn [mbind outcome_bind].
  exists (count_batch e (length batch)
    (length (filter (λ t, passes accessor t e = true) batch)) :: entries').
  split; [|by constructor]. do 2 f_equal. rewrite list_filter_filter. apply list_filter_iff. intros t. cbn [passes_all forallb].
  rewrite andb_true_iff. unfold passes_all. tauto.
Qed.

Lemma same_probe_keeps accessor ids entries entries' :
  Forall2 same_probe entries entries' →
  (Forall (entry_ok accessor ids) entries → Forall (entry_ok accessor ids) entries') ∧
  ∀ t, passes_all accessor entries' t = passes_all accessor entries t.
Proof.
  unfold passes_all. induction 1 as [|e e' entries entries' (Hf & Ha & Hn) _ [IH1 IH2]]; [done|].
  split.
  - intros [[Hw Ht] Hok]%Forall_cons. constructor; [|auto]. unfold entry_ok, probe_typed in *.
    by rewrite <- Hf, <- Ha, <- Hn.
  - intros t. cbn [forallb]. unfold passes at 1 3. by rewrite <- Hf, <- Ha, IH2.
Qed.

Lemma passes_all_ext a a' entries t :
  (∀ id t, value_at a id t = value_at a' id t) → passes_all a entries t = passes_all a' entries t.
Proof.
  intros Hval. unfold passes_all. induction entries as [|e l IH]; [done|]. cbn [forallb].
  rewrite IH. unfold passes. by rewrite Hval.
Qed.

Lemma passes_all_order accessor entries entries' t :
  entries ≡ₚ entries' → passes_all accessor entries t = passes_all accessor entries' t.
Proof.
  unfold passes_all. induction 1 as [|e l l' _ IH|e e' l|l1 l2 l3 _ IH1 _ IH2]; cbn [forallb]; [done| | |congruence].
  - by rewrite IH.
  - by rewrite !andb_assoc, (andb_comm (passes accessor t e)).
Qed.

Lemma prober_filterBatch_spec entries accessor ids batch :
  Forall (entry_ok accessor ids) entries → batch ⊆ ids → ∃ entries',
  prober_filterBatch entries accessor batch =
    Ok (entries', filter (λ t, passes_all accessor entries t = true) batch) ∧
  Forall (entry_ok accessor ids) entries' ∧
  ∀ t, passes_all accessor entries' t = passes_all accessor entries t.
Proof.
  intros Hok Hsub. unfold prober_filterBatch.
  destruct (probe_entries_spec entries accessor batch) as (entries' & -> & Hsame).
  { eapply Forall_impl; [exact Hok|]. intros e He. by eapply entry_ok_sub. }
  cbn [mbind outcome_bind]. destruct (same_probe_keeps accessor ids _ _ Hsame) as [Hok' Hp].
  exists (adaptEntryOrder entries'). unfold adaptEntryOrder. split_and!; [done| |].
  - rewrite hash_order_perm. auto.
  - intros t. rewrite <- Hp. apply passes_all_order, hash_order_perm.
Qed.

Lemma set_hits_spec hits s n P :
  holds_exactly s n P → (∀ t, t ∈ hits → t < n) →
  ∃ s', set_hits hits s = Ok s' ∧ holds_exactly s' n (λ t, P t ∨ t ∈ hits).
Proof.
  revert s P. induction hits as [|t hits IH]; intros s P Hs Hlt; cbn [set_hits].
  - exists s. split; [done|]. eapply holds_ext; [done|]. set_solver.
  - destruct (holds_set s n P t true Hs) as (s1 & -> & Hs1); [apply Hlt; set_solver|].
    cbn [mbind outcome_bind].
    destruct (IH s1 _ Hs1) as (s2 & -> & Hs2); [intros; apply Hlt; set_solver|].
    exists s2. split; [done|]. eapply holds_ext; [done|]. intros i. cbn.
    case_decide as Hd; rewrite elem_of_cons; naive_solver.
Qed.

Lemma filter_batches_spec fuel next entries accessor ids rest s n P :
  Forall (entry_ok accessor ids) entries → rest ⊆ ids → (∀ t, t ∈ ids → t < n) →
  0 < next → length rest ≤ fuel → holds_exactly s n P →
  ∃ s', filter_batches fuel next entries accessor rest s = Ok s' ∧
    holds_exactly s' n (λ t, P t ∨ t ∈ rest ∧ passes_all accessor entries t = true).
Proof.
  revert next entries rest s P. induction fuel as [|fuel IH];
    intros next entries rest s P Hok Hsub Hlt Hnext Hfuel Hs; cbn [filter_batches];
    (destruct (prober_filterBatch_spec entries accessor ids (take next rest) Hok)
      as (entries' & -> & Hok' & Hp);
      [etransitivity; [|exact Hsub]; intros t; apply subseteq_take|]; cbn [mbind outcome_bind]).
  all: destruct (set_hits_spec (filter (λ t, passes_all accessor entries t = true) (take next rest))
      s n P Hs) as (s1 & -> & Hs1);
      [intros t [_ Ht%subseteq_take]%list_elem_of_filter; auto|]; cbn [mbind outcome_bind].
  all: pose proof (take_drop next rest) as Htd; destruct (drop next rest) as [|x l] eqn:Hd.
  - exists s1. split; [done|]. eapply holds_ext; [done|]. intros t. cbn. rewrite list_elem_of_filter.
    rewrite app_nil_r in Htd. rewrite Htd. tauto.
  - exfalso. apply (f_equal length) in Hd. rewrite length_drop in Hd. cbn in Hd. lia.
  - exists s1. split; [done|]. eapply holds_ext; [done|]. intros t. cbn. rewrite list_elem_of_filter.
    rewrite app_nil_r in Htd. rewrite Htd. tauto.
  - edestruct (IH (next * 2) entries' (x :: l) s1) as (s2 & -> & Hs2); [exact Hok'|..].
    + etransitivity; [|exact Hsub]. rewrite <- Hd. intros t. apply subseteq_drop.
    + done.
    + lia.
    + apply (f_equal length) in Hd. rewrite length_drop in Hd. cbn in Hd |- *. lia.
    + exact Hs1.
    + exists s2. split; [done|]. eapply holds_ext; [done|]. intros t. cbn.
      assert (t ∈ rest ↔ t ∈ take next rest ∨ t ∈ x :: l) as ->
        by (rewrite <- Htd at 1; apply elem_of_app).
      rewrite list_elem_of_filter, Hp. tauto.
Qed.

(** The prober keeps exactly the tuples that pass all the filters, whatever the
    order in which it tries them. *)
Lemma filterValueAccessor_spec entries accessor existence_map :
  tuples_exist (getEndPosition accessor) (visited accessor) existence_map →
  Forall (entry_ok accessor (visited accessor)) entries →
  ∃ s, filterValueAccessor entries accessor existence_map = Ok s ∧
    holds_exactly s (getEndPosition accessor)
      (λ t, t ∈ visited accessor ∧ passes_all accessor entries t = true).
Proof.
  intros (Hsort & Hlt & Hmap) Hok. unfold filterValueAccessor. destruct existence_map as [e|].
  - destruct Hmap as (Hwf & Hlen & Ht).
    destruct (new_sequence_spec (seq_length e)) as (s & -> & Hs). cbn [mbind outcome_bind].
    rewrite visit_tuples by done. cbn [mbind outcome_bind]. rewrite Ht. rewrite Hlen in Hs.
    destruct (filter_batches_spec (length (visited accessor)) 64 entries accessor (visited accessor)
      (visited accessor) s (getEndPosition accessor) (λ _, False) Hok) as (s' & -> & Hs'); [done|done|lia|done|exact Hs|].
    exists s'. split; [done|]. eapply holds_ext; [done|]. intros t. cbn. tauto.
  - assert (length (visited accessor) = getEndPosition accessor) as Hl
      by (by rewrite Hmap, length_seq).
    rewrite Hl. destruct (new_sequence_spec (getEndPosition accessor)) as (s & -> & Hs).
    cbn [mbind outcome_bind]. rewrite <- Hmap.
    destruct (filter_batches_spec (getEndPosition accessor) 64 entries accessor (visited accessor)
      (visited accessor) s (getEndPosition accessor) (λ _, False) Hok) as (s' & -> & Hs'); [done|done|lia|lia|exact Hs|].
    exists s'. split; [done|]. eapply holds_ext; [done|]. intros t. cbn. tauto.
Qed.
End lip.

(** ** A block with holes and an index *)

Definition integer_comparison (f : Z → Z → bool) : Comparison Z bool :=
  {| canCompareTypes _ _ := true; comparison_of := f; isBasicComparison := true |}.

(** Two attributes, the first of which may be null, of the tuples 1, 2 and 3. *)
Definition sample_accessor : ValueAccessor Z :=
  {| getEndPosition := 6; visited := [1; 2; 3];
     value_at id t :=
       match id, t with
       | 0, 1 => Some 5%Z | 0, 3 => Some 7%Z
       | 1, 1 => Some 9%Z | 1, 2 => Some 1%Z | 1, 3 => Some 2%Z
       | _, _ => None
       end |}.
Abbreviation column id := (ScalarAttribute (V := Z) id (id =? 0) kNone).
Abbreviation literal v := (ScalarLiteral (Some v%Z) false).
(** [(a < b OR a = 7) AND NOT b < 2] *)
Definition sample_formula : Formula :=
  LogicalAnd
    [LogicalOr [ComparisonExpression (integer_comparison Z.ltb) (column 0) (column 1);
                ComparisonExpression (integer_comparison Z.eqb) (column 0) (literal 7)];
     LogicalNot (ComparisonExpression (integer_comparison Z.ltb) (column 1) (literal 2))].

(** An index that finds the matches by comparing all the tuples that exist, and a
    store that can only be scanned. *)
Definition sample_index : SubBlock (Scalar Z bool) Z bool :=
  {| estimatePredicateEvaluationCost _ := 3%N;
     sub_getMatchesForPredicate cp filter :=
       comparison_getAllMatches (H := zero_heap) true true sample_accessor None filter
         (Some seq_123) cp |}.
Definition sample_store : SubBlock (Scalar Z bool) Z bool :=
  {| estimatePredicateEvaluationCost _ := kRowScan;
     sub_getMatchesForPredicate _ _ := Err CheckFailed |}.
Definition sample_blocks : SubBlocksReference (Scalar Z bool) Z bool :=
  {| tuple_store := sample_store; indices := [sample_index]; indices_consistent := [true] |}.

Lemma sample_exists : tuples_exist 6 [1; 2; 3] (Some seq_123).
Proof.
  split; [repeat constructor; lia|]. split; [|split_and!; [apply seq_123_wf|done|done]].
  intros i Hi. rewrite !elem_of_cons, elem_of_nil in Hi. lia.
Qed.

Lemma sample_blocks_exact : sub_blocks_exact id sample_accessor sample_blocks.
Proof.
  intros cp Hcp. split_and!; [|done|done]. intros [|k] ix Hix _ _; [|done].
  injection Hix as <-. intros filter Hf.
  apply (comparison_exact (H := zero_heap) id true true sample_accessor (Some seq_123) None);
    [apply sample_exists|done|done|done|done].
Qed.

Lemma selection_matches_formula_witness :
  ∃ p s, concretize id sample_formula = Ok p ∧
    block_getMatchesForPredicate (H := zero_heap) true false sample_accessor sample_blocks false
      seq_123 (Some p) None = Ok s ∧
    (∀ t, t ∈ tuples s ↔ t = 1 ∨ t = 3) ∧ matchesForSingleTuple sample_accessor 2 p = Ok false.
Proof.
  destruct (selection_matches_formula (H := zero_heap) id true false sample_accessor sample_blocks
    false seq_123 sample_formula) as (p & Hp & (s & Hs & Ht) & _ & Hone).
  - reflexivity.
  - repeat constructor; cbn; try done; intros t Ht; rewrite !elem_of_cons, elem_of_nil in Ht;
      by destruct Ht as [->|[->|[->|?]]].
  - apply sample_exists.
  - done.
  - apply sample_blocks_exact.
  - exists p, s. split_and!; [exact Hp|exact Hs| |apply (Hone 2); by repeat constructor].
    intros t. rewrite Ht. cbn [visited sample_accessor]. rewrite !elem_of_cons, elem_of_nil.
    split; [intros [[->|[->|[->|[]]]] Hsat]; auto; done|intros [->| ->]; split; auto].
Defined.

(** ** Where selection goes wrong *)

(** Selecting all the tuples of a packed block whose tuples fill its last word
    touches the word after the sequence. *)
Lemma full_block_overruns {S V T} `{!ScalarOps S V T, !HeapMemory} short_circuit copy_elision
    (accessor : ValueAccessor V) (sub_blocks_ref : option (SubBlocksReference S V T)) :
  getEndPosition accessor mod 64 = 0 → 0 < getEndPosition accessor →
  getAllMatches short_circuit copy_elision accessor sub_blocks_ref None None TruePredicate =
    Err UndefinedBehaviour ∧
  initial_filter accessor None None = Err UndefinedBehaviour.
Proof.
  intros Hm Hp. cbn [getAllMatches]. unfold GenerateSequenceForStaticResult, initial_filter.
  destruct (new_sequence_spec (getEndPosition accessor)) as (s & -> & Hs). cbn [mbind outcome_bind].
  pose proof (holds_set_all s _ _ Hs) as Hall. rewrite decide_True in Hall by done.
  destruct Hs as (_ & -> & _). by split.
Qed.

(** In a packed block, a filter given to getMatchesForPredicate is taken for the
    map of the tuples that exist: the tuples 0 and 1 are returned for a filter
    that holds 1 alone, or the columns run past the end of the map. *)
Definition two_fives : ValueAccessor Z :=
  {| getEndPosition := 2; visited := [0; 1]; value_at _ _ := Some 5%Z |}.
Definition only_1 : TupleIdSequence := mkTupleIdSequence (mkBitVector false 2 [(2 ^ 62)%Z]).
Definition both : TupleIdSequence := mkTupleIdSequence (mkBitVector false 2 [(2 ^ 63 + 2 ^ 62)%Z]).
Definition no_indices : SubBlocksReference (Scalar Z bool) Z bool :=
  {| tuple_store := sample_store; indices := []; indices_consistent := [] |}.
Definition is_five : Formula :=
  ComparisonExpression (integer_comparison Z.eqb) (column 0) (literal 5).

Lemma packed_filter_ignored :
  tuples only_1 = [1] ∧
  ∃ p, concretize id is_five = Ok p ∧
    block_getMatchesForPredicate (H := zero_heap) true true two_fives no_indices true both
      (Some p) (Some only_1) = Ok both ∧ tuples both = [0; 1] ∧
    block_getMatchesForPredicate (H := zero_heap) true false two_fives no_indices true both
      (Some p) (Some only_1) = Err UndefinedBehaviour.
Proof.
  split; [vm_compute; reflexivity|]. eexists. split; [reflexivity|].
  split_and!; vm_compute; reflexivity.
Qed.
