(* ===== verification/Aggregation.v ===== *)
(** * Aggregation without GROUP BY

    Models the aggregation handles of expressions/aggregation/
    (AggregationHandleMin, Max, Count, Sum and Avg), the accumulation over a
    column of types/operations/comparisons/LiteralComparators-inl.hpp and of
    types/operations/binary_operations/ArithmeticBinaryOperators.hpp, and the
    part of storage/AggregationOperationState.cpp that aggregates blocks into
    single states: the predicate, the LIP filters, the expressions, the states
    of a block and their merge into the states of the query.  DISTINCT
    aggregates are not modelled.  Values are of any type; the arithmetic of sums is the class [SumOps].  All the aggregates of a query
    iterate over the same accessor, whose position is part of the state. *)

From stdpp Require Import options.
From S2P Require Import Prelude TupleIdSequence Comparators Predicates PredicateTheorems Selection.

(** [fast_operator_], [merge_operator_], [divide_operator_] and the zero of the
    type of sums; [long_value] is the TypedValue of an integer. *)
Class SumOps (V : Type) := {
  zero_value : V;
  add_values : V → V → outcome V;
  divide_values : V → Z → V;
  long_value : Z → V;
}.

Definition to_int64 (z : Z) : Z := ((z + 2 ^ 63) mod 2 ^ 64 - 2 ^ 63)%Z.
(** [++count_] and [count_ += ...] of a signed integer. *)
Definition int64_add (x y : Z) : outcome Z :=
  if bool_decide (- 2 ^ 63 ≤ x + y < 2 ^ 63)%Z then Ok (x + y)%Z else Err UndefinedBehaviour.

(** An accessor with the positions that [next()] has not reached yet. *)
Record Iterated (V : Type) := { it_accessor : ValueAccessor V; it_rest : list nat }.
Arguments it_accessor {_} _.
Arguments it_rest {_} _.
Arguments Build_Iterated {_} _ _.
Definition beginIteration {V} (it : Iterated V) : Iterated V :=
  {| it_accessor := it_accessor it; it_rest := visited (it_accessor it) |}.
Definition finished {V} (it : Iterated V) : Iterated V :=
  {| it_accessor := it_accessor it; it_rest := [] |}.

Inductive AggregationState (V : Type) :=
  | AggregationStateMin (min_ : option V)
  | AggregationStateMax (max_ : option V)
  | AggregationStateCount (count_ : Z)
  | AggregationStateSum (sum_ : V) (null_ : bool)
  | AggregationStateAvg (sum_ : V) (count_ : Z).
Arguments AggregationStateMin {_} _.
Arguments AggregationStateMax {_} _.
Arguments AggregationStateCount {_} _.
Arguments AggregationStateSum {_} _ _.
Arguments AggregationStateAvg {_} _ _.

(** The type of an argument whose values are ordered: [less] is the [<] of its
    literals. *)
Record OrderedType (V : Type) := { type_less : V → V → bool; type_nullable : bool }.
Arguments type_less {_} _ _ _.
Arguments type_nullable {_} _.

Inductive ComparisonID := kLess | kGreater.
(** The functor of the comparison: [left > right] is [right < left]. *)
Definition GetComparison {V} (id : ComparisonID) (ty : OrderedType V) : V → V → bool :=
  match id with kLess => type_less ty | kGreater => λ left right, type_less ty right left end.
(** [makeUncheckedComparatorForTypes(type, type.getNonNullableVersion())] *)
Definition new_fast_comparator {V} (id : ComparisonID) (ty : OrderedType V) : Comparator V :=
  {| comparison_functor_ := GetComparison id ty; left_nullable := type_nullable ty;
     right_nullable := false |}.

(** [argument_nullable]: of the type of the argument. *)
Inductive AggregationHandle (V : Type) :=
  | AggregationHandleMin (type_ : OrderedType V)
  | AggregationHandleMax (type_ : OrderedType V)
  | AggregationHandleCount (count_star nullable_type : bool)
  | AggregationHandleSum (argument_nullable : bool)
  | AggregationHandleAvg (argument_nullable : bool).
Arguments AggregationHandleMin {_} _.
Arguments AggregationHandleMax {_} _.
Arguments AggregationHandleCount {_} _ _.
Arguments AggregationHandleSum {_} _.
Arguments AggregationHandleAvg {_} _.

(** [fast_comparator_], as the constructors make it. *)
Definition min_comparator {V} (type_ : OrderedType V) : Comparator V := new_fast_comparator kLess type_.
Definition max_comparator {V} (type_ : OrderedType V) : Comparator V :=
  new_fast_comparator kGreater type_.

Section handles.
Context {V : Type} `{!SumOps V}.
Implicit Types (c : Comparator V) (st : AggregationState V) (h : AggregationHandle V).

(** *** Accumulation over a column *)

(** The values of the positions that are left. *)
Definition rest_values (it : Iterated V) (attr : nat) : list (option V) :=
  value_at (it_accessor it) attr <$> it_rest it.

(** Up to the first value that is not null: it, and the values after it. *)
Fixpoint locate (nullable : bool) (vs : list (option V)) : option V * list (option V) :=
  match vs with
  | [] => (None, [])
  | v :: vs' => if negb nullable || negb (is_null v) then (v, vs') else locate nullable vs'
  end.
(** The remaining values; [None] for [current_literal] when it is not set. *)
Fixpoint better c (current : option V) (vs : list (option V)) : outcome (option V) :=
  match vs with
  | [] => Ok current
  | v :: vs' =>
      if left_nullable c && is_null v then better c current vs'
      else
        r ← compareDataPtrsHelper true c v current;
        better c (if (r : bool) then v else current) vs'
  end.
(** [UncheckedComparator::accumulateValueAccessor] *)
Definition comparator_accumulateValueAccessor c (current : option V) (it : Iterated V) (attr : nat)
  : outcome (option V * Iterated V) :=
  let it := beginIteration it in
  let '(current, vs) :=
    if is_null current then locate (left_nullable c) (rest_values it attr)
    else (current, rest_values it attr) in
  r ← better c current vs;
  Ok (r, finished it).

(** [UncheckedComparator::accumulateColumnVector] *)
Fixpoint accumulateColumnVector c (current : option V) (column : list (option V))
  : outcome (option V) :=
  match column with
  | [] => Ok current
  | v :: column' =>
      if left_nullable c && is_null v then accumulateColumnVector c current column'
      else
        b ← (if is_null current then Ok true else compareDataPtrsHelper true c v current);
        accumulateColumnVector c (if (b : bool) then v else current) column'
  end.

(** [UncheckedBinaryOperator::accumulateValueAccessor]: the sum, and the number of
    values added. *)
Fixpoint add_all (right_nullable : bool) (accumulated : V) (num_tuples_applied : nat)
    (vs : list (option V)) : outcome (V * nat) :=
  match vs with
  | [] => Ok (accumulated, num_tuples_applied)
  | v :: vs' =>
      if right_nullable && is_null v then add_all right_nullable accumulated num_tuples_applied vs'
      else
        x ← deref v;
        a ← add_values accumulated x;
        add_all right_nullable a (S num_tuples_applied) vs'
  end.
Definition operator_accumulateValueAccessor (right_nullable : bool) (current : V) (it : Iterated V)
    (attr : nat) : outcome (V * nat * Iterated V) :=
  let it := beginIteration it in
  r ← add_all right_nullable current 0 (rest_values it attr);
  Ok (r, finished it).

(** *** The handles *)

Definition createInitialState h : AggregationState V :=
  match h with
  | AggregationHandleMin _ => AggregationStateMin None
  | AggregationHandleMax _ => AggregationStateMax None
  | AggregationHandleCount _ _ => AggregationStateCount 0
  | AggregationHandleSum _ => AggregationStateSum zero_value true
  | AggregationHandleAvg _ => AggregationStateAvg zero_value 0
  end.

Definition compareAndUpdate c (current value : option V) : outcome (option V) :=
  if is_null value then Ok current
  else
    b ← (if is_null current then Ok true else compareTypedValues c value current);
    Ok (if (b : bool) then value else current).

(** A state of another class than the handle's is cast, which is undefined. *)
Definition iterateUnaryInl h st (value : option V) : outcome (AggregationState V) :=
  match h, st with
  | AggregationHandleMin ty, AggregationStateMin m =>
      m ← compareAndUpdate (min_comparator ty) m value; Ok (AggregationStateMin m)
  | AggregationHandleMax ty, AggregationStateMax m =>
      m ← compareAndUpdate (max_comparator ty) m value; Ok (AggregationStateMax m)
  | AggregationHandleCount _ nullable, AggregationStateCount n =>
      Ok (AggregationStateCount
            (if negb nullable || negb (is_null value) then to_int64 (n + 1) else n))
  | AggregationHandleSum _, AggregationStateSum s null =>
      match value with
      | None => Ok st
      | Some v => s ← add_values s v; Ok (AggregationStateSum s false)
      end
  | AggregationHandleAvg _, AggregationStateAvg s n =>
      match value with
      | None => Ok st
      | Some v => s ← add_values s v; n ← int64_add n 1; Ok (AggregationStateAvg s n)
      end
  | _, _ => Err UndefinedBehaviour
  end.

(** Not supported but by COUNT( * ): a fatal error. *)
Definition accumulateNullary h (num_tuples : nat) : outcome (AggregationState V) :=
  match h with
  | AggregationHandleCount _ _ => Ok (AggregationStateCount (to_int64 (Z.of_nat num_tuples)))
  | _ => Err CheckFailed
  end.

(** COUNT goes on from where the accessor is. *)
Definition accumulateValueAccessor h (it : Iterated V) (attr : nat)
  : outcome (AggregationState V * Iterated V) :=
  match h with
  | AggregationHandleMin ty =>
      '(m, it) ← comparator_accumulateValueAccessor (min_comparator ty) None it attr;
      Ok (AggregationStateMin m, it)
  | AggregationHandleMax ty =>
      '(m, it) ← comparator_accumulateValueAccessor (max_comparator ty) None it attr;
      Ok (AggregationStateMax m, it)
  | AggregationHandleCount _ true =>
      Ok (AggregationStateCount
            (to_int64 (Z.of_nat (length (omap id (rest_values it attr))))), finished it)
  | AggregationHandleCount _ false =>
      Ok (AggregationStateCount (to_int64 (Z.of_nat (length (visited (it_accessor it))))), it)
  | AggregationHandleSum nullable =>
      '(s, n, it) ← operator_accumulateValueAccessor nullable zero_value it attr;
      Ok (AggregationStateSum s (n =? 0), it)
  | AggregationHandleAvg nullable =>
      '(s, n, it) ← operator_accumulateValueAccessor nullable zero_value it attr;
      Ok (AggregationStateAvg s (to_int64 (Z.of_nat n)), it)
  end.

Definition mergeStates h (source destination : AggregationState V) : outcome (AggregationState V) :=
  match h, source, destination with
  | AggregationHandleMin ty, AggregationStateMin s, AggregationStateMin d =>
      d ← (if is_null s then Ok d else compareAndUpdate (min_comparator ty) d s); Ok (AggregationStateMin d)
  | AggregationHandleMax ty, AggregationStateMax s, AggregationStateMax d =>
      d ← (if is_null s then Ok d else compareAndUpdate (max_comparator ty) d s); Ok (AggregationStateMax d)
  | AggregationHandleCount _ _, AggregationStateCount s, AggregationStateCount d =>
      Ok (AggregationStateCount (to_int64 (d + s)))
  | AggregationHandleSum _, AggregationStateSum s snull, AggregationStateSum d dnull =>
      d ← add_values d s; Ok (AggregationStateSum d (dnull && snull))
  | AggregationHandleAvg _, AggregationStateAvg s sn, AggregationStateAvg d dn =>
      n ← int64_add dn sn; d ← add_values d s; Ok (AggregationStateAvg d n)
  | _, _, _ => Err UndefinedBehaviour
  end.

Definition finalize h st : outcome (option V) :=
  match h, st with
  | AggregationHandleMin _, AggregationStateMin m => Ok m
  | AggregationHandleMax _, AggregationStateMax m => Ok m
  | AggregationHandleCount _ _, AggregationStateCount n => Ok (Some (long_value n))
  | AggregationHandleSum _, AggregationStateSum s null => Ok (if (null : bool) then None else Some s)
  | AggregationHandleAvg _, AggregationStateAvg s n =>
      Ok (if (n =? 0)%Z then None else Some (divide_values s n))
  | _, _ => Err UndefinedBehaviour
  end.
(** Of the entry of a group in a hash table, which holds the same state. *)
Definition finalizeHashTableEntry h st : outcome (option V) :=
  match h, st with
  | AggregationHandleSum _, AggregationStateSum s _ => Ok (Some s)
  | AggregationHandleAvg _, AggregationStateAvg s n => Ok (Some (divide_values s n))
  | _, _ => finalize h st
  end.
End handles.

(** *** The aggregation of a block *)

Inductive ValueAccessorSource := kBase | kDerived.

(** The handles with their arguments, none for COUNT( * ), of a query without
    GROUP BY and DISTINCT; [predicate_] and [non_trivial_expressions_]. *)
Record AggregationOperationState (S V T : Type) := {
  handles_ : list (AggregationHandle V * option (ValueAccessorSource * nat));
  agg_predicate_ : option (Predicate S V T);
  non_trivial_expressions_ : list S;
}.
Arguments handles_ {_ _ _} _.
Arguments agg_predicate_ {_ _ _} _.
Arguments non_trivial_expressions_ {_ _ _} _.

(** A block as a client sees it. *)
Record BlockView (S V T : Type) := {
  block_accessor : ValueAccessor V;
  block_sub_blocks : SubBlocksReference S V T;
  isPacked : bool;
  existence_map : TupleIdSequence;
}.
Arguments block_accessor {_ _ _} _.
Arguments block_sub_blocks {_ _ _} _.
Arguments isPacked {_ _ _} _.
Arguments existence_map {_ _ _} _.

Section blocks.
Context {S V T : Type} `{!ScalarOps S V T, !HeapMemory, !SumOps V, !HashOrder (ProbeEntry V)}.
Context (short_circuit copy_elision : bool).
Abbreviation AggregationOperationState := (AggregationOperationState S V T).
Abbreviation BlockView := (BlockView S V T).
(** No expressions, no derived accessor. *)
Implicit Types (base : Iterated V) (derived : option (Iterated V)).

(** [ColumnVectorsValueAccessor], before the first tuple. *)
Definition new_ColumnVectorsValueAccessor (size : nat) (columns : list (list (option V)))
  : Iterated V :=
  {| it_accessor :=
       {| getEndPosition := size; visited := seq 0 size;
          value_at k t := default None (default [] (columns !! k) !! t) |};
     it_rest := seq 0 size |}.

(** The state of each aggregate for the block, one after the other. *)
Fixpoint local_states
    (handles : list (AggregationHandle V * option (ValueAccessorSource * nat))) base derived
  : outcome (list (AggregationState V)) :=
  match handles with
  | [] => Ok []
  | (h, argument) :: handles' =>
      '(st, base, derived) ←
        (match argument with
         | None =>
             st ← accumulateNullary h (length (visited (it_accessor base)));
             Ok (st, base, derived)
         | Some (kBase, attr) =>
             '(st, base) ← accumulateValueAccessor h base attr; Ok (st, base, derived)
         | Some (kDerived, attr) =>
             match derived with
             | Some derived =>
                 '(st, derived) ← accumulateValueAccessor h derived attr;
                 Ok (st, base, Some derived)
             | None => Err UndefinedBehaviour
             end
         end);
      sts ← local_states handles' base derived;
      Ok (st :: sts)
  end.

Fixpoint mergeSingleState
    (handles : list (AggregationHandle V * option (ValueAccessorSource * nat)))
    (local_state single_states_ : list (AggregationState V))
  : outcome (list (AggregationState V)) :=
  match handles, local_state, single_states_ with
  | (h, _) :: handles', l :: ls, g :: gs =>
      g ← mergeStates h l g; gs ← mergeSingleState handles' ls gs; Ok (g :: gs)
  | _, _, _ => Ok []
  end.

Definition aggregateBlockSingleState
    (handles : list (AggregationHandle V * option (ValueAccessorSource * nat))) base derived
    (single_states_ : list (AggregationState V)) : outcome (list (AggregationState V)) :=
  local_state ← local_states handles base derived;
  mergeSingleState handles local_state single_states_.

(** Of the accessor of a block: none when it has no holes. *)
Definition getTupleIdSequence (block : BlockView) : option TupleIdSequence :=
  if isPacked block then None else Some (existence_map block).

(** The work order of the block has a prober of its own, or none. *)
Definition aggregateBlock (state : AggregationOperationState)
    (lip_filter_adaptive_prober : option (list (ProbeEntry V))) (block : BlockView)
    (single_states_ : list (AggregationState V)) : outcome (list (AggregationState V)) :=
  '(accessor, sequence) ←
    (match agg_predicate_ state with
     | Some p =>
         matches ← block_getMatchesForPredicate short_circuit copy_elision
                     (block_accessor block) (block_sub_blocks block) (isPacked block)
                     (existence_map block) (Some p) None;
         accessor ← createSharedTupleIdSequenceAdapter (block_accessor block) matches;
         Ok (accessor, Some matches)
     | None => Ok (block_accessor block, getTupleIdSequence block)
     end);
  accessor ←
    (match lip_filter_adaptive_prober with
     | Some entries =>
         matches ← filterValueAccessor entries accessor sequence;
         createSharedTupleIdSequenceAdapter (block_accessor block) matches
     | None => Ok accessor
     end);
  let columns := getAllValues accessor <$> non_trivial_expressions_ state in
  aggregateBlockSingleState (handles_ state)
    (beginIteration {| it_accessor := accessor; it_rest := [] |})
    (match columns with
     | [] => None
     | _ => Some (new_ColumnVectorsValueAccessor (length (visited accessor)) columns)
     end) single_states_.

Definition initial_states (state : AggregationOperationState) : list (AggregationState V) :=
  (λ '(h, _), createInitialState h) <$> handles_ state.

(** The blocks in the order in which their states are merged. *)
Fixpoint aggregateBlocks (state : AggregationOperationState)
    (prober : option (list (ProbeEntry V))) (blocks : list BlockView)
    (single_states_ : list (AggregationState V)) : outcome (list (AggregationState V)) :=
  match blocks with
  | [] => Ok single_states_
  | b :: blocks' =>
      single_states_ ← aggregateBlock state prober b single_states_;
      aggregateBlocks state prober blocks' single_states_
  end.

Fixpoint finalizeSingleState
    (handles : list (AggregationHandle V * option (ValueAccessorSource * nat)))
    (single_states_ : list (AggregationState V)) : outcome (list (option V)) :=
  match handles, single_states_ with
  | (h, _) :: handles', st :: sts =>
      v ← finalize h st; vs ← finalizeSingleState handles' sts; Ok (v :: vs)
  | _, _ => Ok []
  end.
End blocks.

(** ** What aggregates mean *)

(** An order by which to choose a minimum: the complement is transitive. *)
Class StrictWeak {V} (less : V → V → bool) : Prop := {
  less_asym a b : less a b = true → less b a = false;
  less_trans a b c : less a b = false → less b c = false → less a c = false;
}.

(** Sums are of numbers, exact as long as they fit in 64 bits. *)
Class IntegerSums (V : Type) `{!SumOps V} := {
  num : V → Z;
  num_zero : num zero_value = 0%Z;
  num_add a b : (- 2 ^ 63 ≤ num a + num b < 2 ^ 63)%Z →
    ∃ c, add_values a b = Ok c ∧ num c = (num a + num b)%Z;
}.

Section meaning.
Context {V : Type} `{!SumOps V, !IntegerSums V}.
Implicit Types (vs : list (option V)) (h : AggregationHandle V) (st : AggregationState V).

Definition non_nulls vs : list V := omap (λ v, v) vs.
Lemma non_nulls_app vs ws : non_nulls (vs ++ ws) = non_nulls vs ++ non_nulls ws.
Proof. apply omap_app. Qed.

Definition extreme (less : V → V → bool) (vs : list V) (m : option V) : Prop :=
  match m with
  | None => vs = []
  | Some x => x ∈ vs ∧ ∀ v, v ∈ vs → less v x = false
  end.

Definition total (vs : list V) : Z := foldr (λ v s, num v + s)%Z 0%Z vs.
Definition weight (vs : list V) : Z := foldr (λ v s, Z.abs (num v) + s)%Z 0%Z vs.
(** The values are fewer and their sum is less than a 64-bit integer can hold. *)
Definition bounded vs : Prop :=
  (weight (non_nulls vs) < 2 ^ 63 ∧ Z.of_nat (length vs) < 2 ^ 63)%Z.

(** No value is less, or greater. *)
Definition is_least (less : V → V → bool) (vs : list V) (r : option V) : Prop :=
  match r with
  | None => vs = []
  | Some x => x ∈ vs ∧ ∀ v, v ∈ vs → less v x = false
  end.
Definition is_greatest (less : V → V → bool) (vs : list V) (r : option V) : Prop :=
  match r with
  | None => vs = []
  | Some x => x ∈ vs ∧ ∀ v, v ∈ vs → less x v = false
  end.

(** The result of an aggregate of these values. *)
Definition is_result h vs (r : option V) : Prop :=
  match h with
  | AggregationHandleMin ty => is_least (type_less ty) (non_nulls vs) r
  | AggregationHandleMax ty => is_greatest (type_less ty) (non_nulls vs) r
  | AggregationHandleCount _ false => r = Some (long_value (Z.of_nat (length vs)))
  | AggregationHandleCount _ true => r = Some (long_value (Z.of_nat (length (non_nulls vs))))
  | AggregationHandleSum _ =>
      match non_nulls vs with
      | [] => r = None
      | xs => ∃ s, r = Some s ∧ num s = total xs
      end
  | AggregationHandleAvg _ =>
      match non_nulls vs with
      | [] => r = None
      | xs => ∃ s, r = Some (divide_values s (Z.of_nat (length xs))) ∧ num s = total xs
      end
  end.

(** MIN and MAX compare by an order. *)
Definition handle_ok h : Prop :=
  match h with
  | AggregationHandleMin ty | AggregationHandleMax ty => StrictWeak (type_less ty)
  | _ => True
  end.
(** The values of the argument are not null where its type does not allow it. *)
Definition argument_typed h vs : Prop :=
  match h with
  | AggregationHandleMin ty | AggregationHandleMax ty => type_nullable ty = false → None ∉ vs
  | AggregationHandleCount _ _ => True
  | AggregationHandleSum nullable | AggregationHandleAvg nullable => nullable = false → None ∉ vs
  end.

(** A state that stands for the values aggregated so far. *)
Definition represents h st vs : Prop :=
  match h, st with
  | AggregationHandleMin ty, AggregationStateMin m =>
      extreme (GetComparison kLess ty) (non_nulls vs) m
  | AggregationHandleMax ty, AggregationStateMax m =>
      extreme (GetComparison kGreater ty) (non_nulls vs) m
  | AggregationHandleCount _ nullable, AggregationStateCount n =>
      n = to_int64 (Z.of_nat (if nullable then length (non_nulls vs) else length vs))
  | AggregationHandleSum _, AggregationStateSum s null =>
      num s = total (non_nulls vs) ∧ null = bool_decide (non_nulls vs = [])
  | AggregationHandleAvg _, AggregationStateAvg s n =>
      num s = total (non_nulls vs) ∧ n = Z.of_nat (length (non_nulls vs))
  | _, _ => False
  end.

(** *** Numbers *)

Lemma total_app xs ys : total (xs ++ ys) = (total xs + total ys)%Z.
Proof. unfold total. induction xs as [|x xs IH]; cbn; lia. Qed.
Lemma weight_app xs ys : weight (xs ++ ys) = (weight xs + weight ys)%Z.
Proof. unfold weight. induction xs as [|x xs IH]; cbn; lia. Qed.
Lemma weight_total xs : (Z.abs (total xs) ≤ weight xs)%Z.
Proof. unfold weight, total. induction xs as [|x xs IH]; cbn; lia. Qed.
Lemma length_non_nulls vs : length (non_nulls vs) ≤ length vs.
Proof. unfold non_nulls. induction vs as [|[v|] vs IH]; cbn; lia. Qed.

Lemma bounded_app vs ws : bounded (vs ++ ws) → bounded vs ∧ bounded ws.
Proof.
  unfold bounded. rewrite non_nulls_app, weight_app, length_app.
  pose proof (weight_total (non_nulls vs)). pose proof (weight_total (non_nulls ws)). lia.
Qed.

Lemma to_int64_id z : (- 2 ^ 63 ≤ z < 2 ^ 63)%Z → to_int64 z = z.
Proof. intros Hz. unfold to_int64. rewrite Z.mod_small by lia. lia. Qed.
Lemma to_int64_add x y : to_int64 (to_int64 x + to_int64 y) = to_int64 (x + y).
Proof.
  unfold to_int64. f_equal.
  replace ((x + 2 ^ 63) mod 2 ^ 64 - 2 ^ 63 + ((y + 2 ^ 63) mod 2 ^ 64 - 2 ^ 63) + 2 ^ 63)%Z
    with ((x + 2 ^ 63) mod 2 ^ 64 + ((y + 2 ^ 63) mod 2 ^ 64 - 2 ^ 63))%Z by lia.
  rewrite Zplus_mod_idemp_l, Z.add_sub_assoc.
  replace (x + 2 ^ 63 + (y + 2 ^ 63) mod 2 ^ 64 - 2 ^ 63)%Z with (x + (y + 2 ^ 63) mod 2 ^ 64)%Z by lia.
  rewrite Zplus_mod_idemp_r. f_equal. lia.
Qed.
Lemma int64_add_ok x y : (- 2 ^ 63 ≤ x + y < 2 ^ 63)%Z → int64_add x y = Ok (x + y)%Z.
Proof. intros Hxy. unfold int64_add. by rewrite bool_decide_true. Qed.

(** *** Minima *)

Lemma extreme_step less xs m v :
  StrictWeak less → extreme less xs m →
  extreme less (xs ++ [v])
    (Some (match m with Some x => if less v x then v else x | None => v end)).
Proof.
  intros Hw Hm. destruct m as [x|]; cbn in *.
  - destruct Hm as [Hx Hmin]. destruct (less v x) eqn:E; (split; [set_solver|]); intros w Hin;
      apply elem_of_app in Hin as [Hin| ->%list_elem_of_singleton]; try done; try by apply Hmin.
    + eapply less_trans; [by apply Hmin|by apply less_asym].
    + destruct (less v v) eqn:Ev; [|done]. by rewrite (less_asym v v Ev) in Ev.
  - subst xs. split; [set_solver|]. intros w ->%list_elem_of_singleton.
    destruct (less v v) eqn:Ev; [|done]. by rewrite (less_asym v v Ev) in Ev.
Qed.

Lemma extreme_merge less xs ys x y :
  StrictWeak less → extreme less xs (Some x) → extreme less ys (Some y) →
  extreme less (xs ++ ys) (Some (if less y x then y else x)).
Proof.
  intros Hw [Hx Hminx] [Hy Hminy]. destruct (less y x) eqn:E; (split; [set_solver|]);
    intros w Hin; apply elem_of_app in Hin as [Hin|Hin]; auto.
  - eapply less_trans; [by apply Hminx|by apply less_asym].
  - eapply less_trans; [by apply Hminy|done].
Qed.

Lemma comparison_strict_weak id (ty : OrderedType V) :
  StrictWeak (type_less ty) → StrictWeak (GetComparison id ty).
Proof.
  intros [Hasym Htrans]. destruct id; split; cbn; [exact Hasym|exact Htrans|auto|].
  intros a b c Hab Hbc. by apply (Htrans c b a).
Qed.

(** Updating the current value with another. *)
Lemma compareAndUpdate_spec c m v xs :
  right_nullable c = false → StrictWeak (comparison_functor_ c) →
  extreme (comparison_functor_ c) xs m →
  ∃ m', compareAndUpdate c m v = Ok m' ∧
    extreme (comparison_functor_ c) (xs ++ non_nulls [v]) m'.
Proof.
  intros Hr Hw Hm. unfold compareAndUpdate. destruct v as [v|]; cbn [is_null].
  - pose proof (extreme_step _ xs m v Hw Hm) as Hstep. destruct m as [x|]; cbn [is_null].
    + unfold compareTypedValues, compareDataPtrsInl. rewrite Hr. cbn [is_null andb orb].
      rewrite andb_false_r. cbn [orb deref mbind outcome_bind]. eexists. split; [done|].
      by destruct (comparison_functor_ c v x).
    + eexists. by split.
  - exists m. split; [done|]. cbn. by rewrite app_nil_r.
Qed.

Lemma better_spec c m vs xs :
  StrictWeak (comparison_functor_ c) → (left_nullable c = false → None ∉ vs) →
  extreme (comparison_functor_ c) xs (Some m) →
  ∃ m', better c (Some m) vs = Ok (Some m') ∧
    extreme (comparison_functor_ c) (xs ++ non_nulls vs) (Some m').
Proof.
  intros Hw. revert m xs. induction vs as [|[v|] vs IH]; intros m xs Hn Hm; cbn [better].
  - exists m. by rewrite app_nil_r.
  - cbn [is_null]. rewrite andb_false_r. cbn [compareDataPtrsHelper deref mbind outcome_bind].
    pose proof (extreme_step _ xs (Some m) v Hw Hm) as Hstep.
    destruct (IH (if comparison_functor_ c v m then v else m) (xs ++ [v])) as (m' & Hrun & Hm').
    { intros Hl. specialize (Hn Hl). set_solver. }
    { done. }
    exists m'. rewrite <- app_assoc in Hm'. split; [|done]. unfold compareDataPtrsHelper.
    cbn [deref mbind outcome_bind]. rewrite <- Hrun. by destruct (comparison_functor_ c v m).
  - destruct (left_nullable c); [|by destruct Hn; [|left]]. cbn [is_null andb].
    apply IH; [done|done].
Qed.

Lemma locate_spec nullable vs :
  (nullable = false → None ∉ vs) →
  match locate nullable vs with
  | (None, rest) => rest = [] ∧ non_nulls vs = []
  | (Some v, rest) => non_nulls vs = v :: non_nulls rest ∧ (nullable = false → None ∉ rest)
  end.
Proof.
  induction vs as [|[v|] vs IH]; intros Hn; cbn [locate]; [done| |].
  - cbn [is_null negb]. rewrite orb_true_r. split; [done|]. intros E. specialize (Hn E). set_solver.
  - destruct nullable; [|by destruct Hn; [|left]]. cbn [is_null negb orb].
    apply IH. done.
Qed.

Lemma comparator_accumulate_spec c (it : Iterated V) attr :
  StrictWeak (comparison_functor_ c) →
  (left_nullable c = false → None ∉ value_at (it_accessor it) attr <$> visited (it_accessor it)) →
  ∃ m, comparator_accumulateValueAccessor c None it attr = Ok (m, finished it) ∧
    extreme (comparison_functor_ c)
      (non_nulls (value_at (it_accessor it) attr <$> visited (it_accessor it))) m.
Proof.
  intros Hw Hn. unfold comparator_accumulateValueAccessor. cbn [is_null].
  set (vs := rest_values (beginIteration it) attr).
  change (value_at _ _ <$> _) with vs in Hn |- *.
  pose proof (locate_spec (left_nullable c) vs Hn) as Hloc.
  destruct (locate _ _) as [[v|] rest]; destruct Hloc as [Hnn Hrest].
  - destruct (better_spec c v rest [v] Hw Hrest) as (m & -> & Hm).
    { split; [set_solver|]. intros w ->%list_elem_of_singleton.
      destruct (comparison_functor_ c v v) eqn:E; [|done]. by rewrite (less_asym v v E) in E. }
    eexists. split; [done|]. rewrite Hnn. exact Hm.
  - subst rest. eexists. split; [done|]. exact Hrest.
Qed.

(** A column vector gives what the accessor gives. *)
Lemma accumulateColumnVector_spec c m vs :
  (left_nullable c = false → None ∉ vs) →
  accumulateColumnVector c (Some m) vs = better c (Some m) vs ∧
  accumulateColumnVector c None vs =
    (let '(v, rest) := locate (left_nullable c) vs in better c v rest).
Proof.
  revert m. induction vs as [|[v|] vs IH]; intros m Hn; [done| |].
  - assert (left_nullable c = false → None ∉ vs) as Hn' by (intros E; specialize (Hn E); set_solver).
    cbn [accumulateColumnVector better locate is_null negb]. rewrite andb_false_r, orb_true_r.
    cbn [mbind outcome_bind]. split; [|by apply IH].
    unfold compareDataPtrsHelper. cbn [deref mbind outcome_bind].
    destruct (comparison_functor_ c v m); by apply IH.
  - cbn [accumulateColumnVector better locate is_null negb].
    destruct (left_nullable c) eqn:E; [|by destruct Hn; [|left]]. cbn [andb orb negb].
    by apply IH.
Qed.

(** *** Sums *)

Lemma add_all_spec nullable a k vs :
  (nullable = false → None ∉ vs) → (Z.abs (num a) + weight (non_nulls vs) < 2 ^ 63)%Z →
  ∃ s, add_all nullable a k vs = Ok (s, k + length (non_nulls vs)) ∧
    num s = (num a + total (non_nulls vs))%Z.
Proof.
  revert a k. induction vs as [|[v|] vs IH]; intros a k Hn Hb; cbn [add_all].
  - exists a. cbn. split; [do 2 f_equal; lia|lia].
  - cbn [is_null]. rewrite andb_false_r. cbn [deref mbind outcome_bind].
    change (non_nulls (Some v :: vs)) with (v :: non_nulls vs) in *. cbn [weight total foldr] in *.
    fold (weight (non_nulls vs)) in Hb. fold (total (non_nulls vs)).
    pose proof (weight_total (non_nulls vs)).
    destruct (num_add a v) as (a' & -> & Ha'); [lia|]. cbn [mbind outcome_bind].
    destruct (IH a' (S k)) as (s & -> & Hs).
    { intros E. specialize (Hn E). set_solver. }
    { lia. }
    exists s. cbn [length]. split; [do 2 f_equal; lia|lia].
  - destruct nullable; [|by destruct Hn; [|left]]. cbn [is_null andb]. by apply IH.
Qed.

Lemma operator_accumulate_spec nullable (it : Iterated V) attr :
  let vs := value_at (it_accessor it) attr <$> visited (it_accessor it) in
  (nullable = false → None ∉ vs) → bounded vs →
  ∃ s, operator_accumulateValueAccessor nullable zero_value it attr =
      Ok (s, length (non_nulls vs), finished it) ∧ num s = total (non_nulls vs).
Proof.
  intros vs Hn [Hw _]. unfold operator_accumulateValueAccessor.
  change (rest_values (beginIteration it) attr) with vs.
  destruct (add_all_spec nullable zero_value 0 vs Hn) as (s & -> & Hs); [rewrite num_zero; lia|].
  exists s. split; [done|]. rewrite num_zero in Hs. lia.
Qed.

(** *** The operations of a handle *)

Lemma initial_represents h : represents h (createInitialState h) [].
Proof using Type. destruct h as [ty|ty|star []|b|b]; cbn; rewrite ?num_zero; done. Qed.

Lemma iterate_represents h st vs v :
  handle_ok h → represents h st vs → bounded (vs ++ [v]) →
  ∃ st', iterateUnaryInl h st v = Ok st' ∧ represents h st' (vs ++ [v]).
Proof.
  intros Hok Hrep Hb. pose proof (weight_total (non_nulls vs)) as Hwt.
  destruct Hb as [Hb1 Hb2]. rewrite non_nulls_app, weight_app in Hb1.
  pose proof (length_non_nulls vs) as Hlen. rewrite length_app in Hb2. cbn in Hb2.
  destruct h as [ty|ty|star nullable|b|b], st as [m|m|n|s null|s n]; try done; cbn [represents] in *.
  1,2: match type of Hrep with extreme (GetComparison ?id _) _ _ =>
      destruct (compareAndUpdate_spec (new_fast_comparator id ty) m v (non_nulls vs) eq_refl)
        as (m' & Hrun & Hm'); [by apply comparison_strict_weak|exact Hrep|] end;
    cbn [iterateUnaryInl]; unfold min_comparator, max_comparator; rewrite Hrun; eexists; split; [done|];
    cbn [represents]; by rewrite non_nulls_app.
  - eexists. split; [done|]. subst n. cbn [represents]. rewrite non_nulls_app, !length_app.
    rewrite <- (to_int64_id 1) by lia.
    destruct nullable, v as [v|]; cbn [is_null negb orb non_nulls omap list_omap length];
      rewrite ?to_int64_add; f_equal; lia.
  - destruct Hrep as [Hs ->]. destruct v as [v|]; cbn [iterateUnaryInl].
    + cbn in Hb1. destruct (num_add s v) as (s' & -> & Hs'); [lia|]. eexists. split; [done|].
      cbn [represents]. rewrite non_nulls_app, total_app. cbn. split; [lia|].
      rewrite bool_decide_false; [done|]. by destruct (non_nulls vs).
    + eexists. split; [done|]. cbn [represents]. rewrite non_nulls_app. cbn. by rewrite app_nil_r.
  - destruct Hrep as [Hs ->]. destruct v as [v|]; cbn [iterateUnaryInl].
    + cbn in Hb1. destruct (num_add s v) as (s' & -> & Hs'); [lia|]. cbn [mbind outcome_bind].
      rewrite int64_add_ok by lia. eexists. split; [done|].
      cbn [represents]. rewrite non_nulls_app, total_app, length_app. cbn. lia.
    + eexists. split; [done|]. cbn [represents]. rewrite non_nulls_app. cbn. by rewrite app_nil_r.
Qed.

Lemma merge_extremes id (ty : OrderedType V) (s d : option V) (ws vs : list V) :
  StrictWeak (type_less ty) →
  extreme (GetComparison id ty) ws d → extreme (GetComparison id ty) vs s →
  ∃ m, (if is_null s then Ok d else compareAndUpdate (new_fast_comparator id ty) d s) = Ok m ∧
    extreme (GetComparison id ty) (ws ++ vs) m.
Proof.
  intros Hw Hd Hs. apply (comparison_strict_weak id) in Hw. destruct s as [x|]; cbn [is_null].
  2: { cbn in Hs. subst vs. rewrite app_nil_r. by exists d. }
  unfold compareAndUpdate. cbn [is_null]. destruct d as [y|]; cbn [is_null].
  - unfold compareTypedValues, compareDataPtrsInl. cbn [is_null left_nullable right_nullable
      new_fast_comparator andb orb]. rewrite andb_false_r. cbn [orb deref mbind outcome_bind].
    eexists. split; [done|]. pose proof (extreme_merge _ _ _ _ _ Hw Hd Hs) as Hm.
    cbn [comparison_functor_ new_fast_comparator]. by destruct (GetComparison id ty x y).
  - cbn in Hd. subst ws. by eexists.
Qed.

Lemma merge_represents h src dst vs ws :
  handle_ok h → represents h src vs → represents h dst ws → bounded (ws ++ vs) →
  ∃ dst', mergeStates h src dst = Ok dst' ∧ represents h dst' (ws ++ vs).
Proof.
  intros Hok Hs Hd Hb. pose proof (weight_total (non_nulls vs)) as Hwv.
  pose proof (weight_total (non_nulls ws)) as Hww.
  destruct Hb as [Hb1 Hb2]. rewrite non_nulls_app, weight_app in Hb1.
  pose proof (length_non_nulls vs). pose proof (length_non_nulls ws). rewrite length_app in Hb2.
  destruct h as [ty|ty|star nullable|b|b], src as [m|m|n|s null|s n]; try done;
    destruct dst as [m'|m'|n'|s' null'|s' n']; try done; cbn [represents mergeStates] in *.
  1,2: rewrite non_nulls_app; edestruct (merge_extremes _ _ _ _ _ _ Hok Hd Hs) as (d & Hrun & Hm);
    unfold min_comparator, max_comparator; rewrite Hrun; eexists; split; [done|exact Hm].
  - eexists. split; [done|]. subst. cbn [represents]. rewrite to_int64_add. f_equal.
    rewrite non_nulls_app, !length_app. destruct nullable; lia.
  - destruct Hs as [Hs ->], Hd as [Hd ->]. destruct (num_add s' s) as (t & -> & Ht); [lia|].
    eexists. split; [done|]. cbn [represents]. rewrite non_nulls_app, total_app. split; [lia|].
    by destruct (non_nulls ws), (non_nulls vs).
  - destruct Hs as [Hs ->], Hd as [Hd ->]. rewrite int64_add_ok by lia. cbn [mbind outcome_bind].
    destruct (num_add s' s) as (t & -> & Ht); [lia|]. eexists. split; [done|].
    cbn [represents]. rewrite non_nulls_app, total_app, length_app. lia.
Qed.

(** A nullable COUNT needs an accessor that has not been used; the others but a
    COUNT of what is not null leave it at its end. *)
Definition counts h : bool :=
  match h with AggregationHandleCount _ nullable => nullable | _ => false end.
Definition moves h : bool :=
  match h with AggregationHandleCount _ false => false | _ => true end.

Lemma accumulate_represents h (it : Iterated V) attr :
  let vs := value_at (it_accessor it) attr <$> visited (it_accessor it) in
  handle_ok h → argument_typed h vs → bounded vs →
  (counts h = true → it_rest it = visited (it_accessor it)) →
  ∃ st it', accumulateValueAccessor h it attr = Ok (st, it') ∧ represents h st vs ∧
    it_accessor it' = it_accessor it ∧ (moves h = false → it_rest it' = it_rest it).
Proof.
  intros vs Hok Hty Hb Hrest. pose proof (length_non_nulls vs) as Hlen. pose proof Hb as [_ Hb2].
  destruct h as [ty|ty|star nullable|b|b]; cbn [accumulateValueAccessor].
  1,2: unfold min_comparator, max_comparator;
    match goal with |- context [new_fast_comparator ?id ?ty] =>
      destruct (comparator_accumulate_spec (new_fast_comparator id ty) it attr) as (m & -> & Hm);
      [by apply comparison_strict_weak|exact Hty|] end;
    do 2 eexists; split_and!; [done|exact Hm|done|done].
  - destruct nullable; (do 2 eexists; split_and!; [done| |done|done]).
    + cbn [represents]. do 2 f_equal. unfold rest_values. rewrite Hrest by done. done.
    + cbn [represents]. subst vs. by rewrite length_fmap.
  - destruct (operator_accumulate_spec b it attr Hty Hb) as (s & -> & Hs).
    do 2 eexists. split_and!; [done| |done|done]. cbn [represents]. split; [done|].
    destruct (non_nulls vs) as [|x xs] eqn:E; fold vs; by rewrite E.
  - destruct (operator_accumulate_spec b it attr Hty Hb) as (s & -> & Hs).
    do 2 eexists. split_and!; [done| |done|done]. cbn [represents]. split; [done|]. fold vs.
    apply to_int64_id. lia.
Qed.

Lemma finalize_result h st vs :
  represents h st vs → bounded vs → ∃ r, finalize h st = Ok r ∧ is_result h vs r.
Proof using Type.
  intros Hrep [_ Hb]. pose proof (length_non_nulls vs) as Hlen.
  destruct h as [ty|ty|star nullable|b|b], st as [m|m|n|s null|s n]; try done;
    cbn [represents finalize is_result] in *; [by destruct m; eexists..| | |].
  - subst n. eexists. split; [done|]. destruct nullable; rewrite to_int64_id by lia; done.
  - destruct Hrep as [Hs ->]. eexists. split; [done|]. destruct (non_nulls vs); [done|]. by exists s.
  - destruct Hrep as [Hs ->]. eexists. split; [done|]. destruct (non_nulls vs); [done|].
    exists s. by split.
Qed.
End meaning.

(** ** Aggregation of a relation *)

(** Whether every nullable COUNT finds its accessor before its first tuple. *)
Fixpoint fresh_counts {V} (base_moved derived_moved : bool)
    (handles : list (AggregationHandle V * option (ValueAccessorSource * nat))) : bool :=
  match handles with
  | [] => true
  | (_, None) :: handles' => fresh_counts base_moved derived_moved handles'
  | (h, Some (kBase, _)) :: handles' =>
      negb (counts h && base_moved) && fresh_counts (base_moved || moves h) derived_moved handles'
  | (h, Some (kDerived, _)) :: handles' =>
      negb (counts h && derived_moved) && fresh_counts base_moved (derived_moved || moves h) handles'
  end.

Section query.
Context {S V T : Type} `{!ScalarOps S V T, !ScalarLaws S V T, !HeapMemory}.
Context `{!SumOps V, !IntegerSums V, !HashOrder (ProbeEntry V)} (isNullable : T → bool) (short_circuit copy_elision : bool).
Abbreviation Argument := (option (ValueAccessorSource * nat)).
Abbreviation Formula := (Formula (S := S) (V := V) (T := T)).
Implicit Types (handles : list (AggregationHandle V * Argument)) (arg : Argument).

(** The values of an argument over a block; of COUNT( * ), one per tuple. *)
Definition arg_values (base : ValueAccessor V) (derived : option (ValueAccessor V)) arg
  : list (option V) :=
  match arg, derived with
  | None, _ => (λ _, None) <$> visited base
  | Some (kBase, attr), _ => value_at base attr <$> visited base
  | Some (kDerived, attr), Some d => value_at d attr <$> visited d
  | Some (kDerived, _), None => []
  end.

(** An aggregate with its argument. *)
Definition aggregate_ok (values : Argument → list (option V)) (ha : AggregationHandle V * Argument)
  : Prop :=
  handle_ok ha.1 ∧ argument_typed ha.1 (values ha.2) ∧ bounded (values ha.2) ∧
  (ha.2 = None → ∃ star, ha.1 = AggregationHandleCount star false).

Definition unmoved (moved : bool) (it : Iterated V) : Prop :=
  moved = false → it_rest it = visited (it_accessor it).
Definition maybe_unmoved (moved : bool) (it : option (Iterated V)) : Prop :=
  match it with Some it => unmoved moved it | None => True end.

Lemma still_unmoved (h : AggregationHandle V) moved (it it' : Iterated V) :
  unmoved moved it → it_accessor it' = it_accessor it →
  (moves h = false → it_rest it' = it_rest it) → unmoved (moved || moves h) it'.
Proof.
  intros Hm Ha Hr E. apply orb_false_iff in E as [E1 E2]. by rewrite Hr, Ha, Hm.
Qed.

Lemma local_states_spec handles base derived base_moved derived_moved :
  fresh_counts base_moved derived_moved handles = true →
  unmoved base_moved base → maybe_unmoved derived_moved derived →
  (∀ h k, (h, Some (kDerived, k)) ∈ handles → derived ≠ None) →
  let values := arg_values (it_accessor base) (it_accessor <$> derived) in
  Forall (aggregate_ok values) handles →
  ∃ sts, local_states handles base derived = Ok sts ∧
    Forall2 (λ ha st, represents ha.1 st (values ha.2)) handles sts.
Proof.
  revert base derived base_moved derived_moved.
  induction handles as [|[h arg] handles IH]; intros base derived bm dm Hf Hb Hd Hin values Hok.
  { by exists []. }
  apply Forall_cons in Hok as [(Hh & Hty & Hbd & Hnull) Hok]. cbn [local_states].
  assert (∀ h k, (h, Some (kDerived, k)) ∈ handles → derived ≠ None) as Hin'
    by (intros h' k Hk; by eapply Hin; right).
  destruct arg as [[[|] attr]|]; cbn [fresh_counts] in Hf.
  - apply andb_true_iff in Hf as [Hc Hf].
    destruct (accumulate_represents h base attr Hh Hty Hbd) as (st & base' & -> & Hst & Ha & Hr).
    { intros Ec. apply Hb. rewrite Ec in Hc. by destruct bm. }
    cbn [mbind outcome_bind]. subst values. rewrite <- Ha in Hok.
    destruct (IH base' derived (bm || moves h) dm Hf) as (sts & -> & Hsts); [|done..|].
    { by apply (still_unmoved _ _ base). }
    rewrite Ha in Hsts. eexists. split; [done|]. by constructor.
  - apply andb_true_iff in Hf as [Hc Hf]. destruct derived as [d|]; [|by edestruct Hin; [left|]].
    destruct (accumulate_represents h d attr Hh Hty Hbd) as (st & d' & -> & Hst & Ha & Hr).
    { intros Ec. apply Hd. rewrite Ec in Hc. by destruct dm. }
    cbn [mbind outcome_bind]. subst values. cbn [fmap option_fmap option_map] in *. rewrite <- Ha in Hok.
    destruct (IH base (Some d') bm (dm || moves h) Hf) as (sts & -> & Hsts); [done| |done|done|].
    { by apply (still_unmoved _ _ d). }
    cbn [fmap option_fmap option_map] in Hsts. rewrite Ha in Hsts. eexists. split; [done|]. by constructor.
  - destruct (Hnull eq_refl) as (star & Hcount). cbn in Hcount. subst h.
    cbn [accumulateNullary mbind outcome_bind].
    destruct (IH base derived bm dm Hf) as (sts & -> & Hsts); [done..|].
    eexists. split; [done|]. constructor; [|done]. cbn. by rewrite length_fmap.
Qed.

Lemma mergeSingleState_spec handles (A B : Argument → list (option V)) locals states :
  Forall2 (λ ha st, represents ha.1 st (A ha.2)) handles locals →
  Forall2 (λ ha st, represents ha.1 st (B ha.2)) handles states →
  Forall (λ ha, handle_ok ha.1 ∧ bounded (B ha.2 ++ A ha.2)) handles →
  ∃ states', mergeSingleState handles locals states = Ok states' ∧
    Forall2 (λ ha st, represents ha.1 st (B ha.2 ++ A ha.2)) handles states'.
Proof.
  intros HA. revert states. induction HA as [|[h arg] l handles locals Hl _ IH];
    intros states HB Hok; inversion HB as [|? g ? gs Hg HB']; subst; [by exists []|].
  apply Forall_cons in Hok as [[Hh Hb] Hok]. cbn [mergeSingleState].
  destruct (merge_represents h l g _ _ Hh Hl Hg Hb) as (g' & -> & Hg'). cbn [mbind outcome_bind].
  destruct (IH gs HB' Hok) as (gs' & -> & Hgs'). eexists. split; [done|]. by constructor.
Qed.

(** *** The tuples of a block *)

Context (state : AggregationOperationState S V T) (where_ : option Formula).
Context (prober : option (list (ProbeEntry V))).
(** The predicate of the query is that of its WHERE clause. *)
Definition predicate_of_where : Prop :=
  match where_ with
  | None => agg_predicate_ state = None
  | Some f => applicable f = true ∧ ∃ p, concretize isNullable f = Ok p ∧ agg_predicate_ state = Some p
  end.
Implicit Types b : BlockView S V T.

Definition block_ok b : Prop :=
  let a := block_accessor b in
  tuples_exist (getEndPosition a) (visited a) (Some (existence_map b)) ∧
  (isPacked b = true →
     visited a = seq 0 (getEndPosition a) ∧
     (where_ ≠ None → ¬ (getEndPosition a mod 64 = 0 ∧ 0 < getEndPosition a))) ∧
  sub_blocks_exact isNullable a (block_sub_blocks b) ∧
  match where_ with Some f => Forall (values_typed isNullable a) (operands f) | None => True end ∧
  match prober with Some entries => Forall (entry_ok a (visited a)) entries | None => True end.

(** The tuples of a block that satisfy the WHERE clause and that no filter holds
    back. *)
Definition satisfied b (t : nat) : bool :=
  match where_ with
  | None => true
  | Some f => satisfies (λ s, getValueForSingleTuple (block_accessor b) t s) f
  end.
Definition let_through b (t : nat) : bool :=
  match prober with
  | None => true
  | Some entries => passes_all (block_accessor b) entries t
  end.
Definition selected b : list nat :=
  filter (λ t, satisfied b t && let_through b t = true) (visited (block_accessor b)).
(** The argument of an aggregate for a tuple. *)
Definition argument_at b arg (t : nat) : option V :=
  match arg with
  | None => None
  | Some (kBase, attr) => value_at (block_accessor b) attr t
  | Some (kDerived, k) =>
      match non_trivial_expressions_ state !! k with
      | Some e => getValueForSingleTuple (block_accessor b) t e
      | None => None
      end
  end.
Definition block_values b arg : list (option V) := argument_at b arg <$> selected b.
Definition all_values_of (blocks : list (BlockView S V T)) arg : list (option V) :=
  flat_map (λ b, block_values b arg) blocks.

(** An adapter visits what its sequence holds. *)
Lemma adapter_visits (base : ValueAccessor V) m n P (Q : nat → bool) :
  StronglySorted lt (visited base) → holds_exactly m n P →
  (∀ t, P t ↔ t ∈ visited base ∧ Q t = true) → ∃ a,
  createSharedTupleIdSequenceAdapter base m = Ok a ∧
  visited a = filter (λ t, Q t = true) (visited base) ∧
  (∀ id t, value_at a id t = value_at base id t) ∧
  tuples_exist (getEndPosition a) (visited a) (Some m).
Proof.
  intros Hsort (Hwf & Hlen & Ht) HP. unfold createSharedTupleIdSequenceAdapter.
  rewrite visit_tuples by done. eexists. split; [done|]. cbn. split_and!; [|done|].
  - apply sorted_ext; [apply tuples_sorted|by apply sorted_filter|].
    intros t. rewrite Ht, HP, list_elem_of_filter. tauto.
  - split; [apply tuples_sorted|]. split; [|done]. intros t Hin.
    apply (holds_lt m (seq_length m) P); [by split_and!|by apply Ht].
Qed.

Lemma predicate_selects b :
  predicate_of_where → block_ok b → ∃ a e,
  (match agg_predicate_ state with
   | Some p =>
       matches ← block_getMatchesForPredicate short_circuit copy_elision (block_accessor b)
                   (block_sub_blocks b) (isPacked b) (existence_map b) (Some p) None;
       accessor ← createSharedTupleIdSequenceAdapter (block_accessor b) matches;
       Ok (accessor, Some matches)
   | None => Ok (block_accessor b, getTupleIdSequence b)
   end) = Ok (a, e) ∧
  visited a = filter (λ t, satisfied b t = true) (visited (block_accessor b)) ∧
  (∀ id t, value_at a id t = value_at (block_accessor b) id t) ∧
  tuples_exist (getEndPosition a) (visited a) e.
Proof using ScalarLaws0.
  intros Hp (Hex & Hpk & Hsub & Hty & _). unfold predicate_of_where, satisfied in *.
  destruct where_ as [f|].
  - destruct Hp as (Happ & p & Hc & ->).
    destruct (block_selects isNullable short_circuit copy_elision (block_accessor b)
      (block_sub_blocks b) (isPacked b) (existence_map b) f p) as (s & -> & Hs); [try done..|].
    { intros E. destruct (Hpk E) as [? Hw]. split; [done|]. by apply Hw. }
    cbn [mbind outcome_bind].
    destruct (adapter_visits (block_accessor b) s _ _
      (λ t, satisfies (λ s, getValueForSingleTuple (block_accessor b) t s) f) (proj1 Hex) Hs)
      as (a & -> & Hv & Hval & He); [done|]. by exists a, (Some s).
  - rewrite Hp. exists (block_accessor b), (getTupleIdSequence b). split_and!; [done| |done|].
    + by rewrite filter_always.
    + unfold getTupleIdSequence. destruct (isPacked b); [|done].
      destruct Hex as (? & ? & _). destruct (Hpk eq_refl). by split_and!.
Qed.

Lemma block_accessor_selects b a1 e :
  block_ok b → visited a1 = filter (λ t, satisfied b t = true) (visited (block_accessor b)) →
  (∀ id t, value_at a1 id t = value_at (block_accessor b) id t) →
  tuples_exist (getEndPosition a1) (visited a1) e → ∃ a,
  (match prober with
   | Some entries =>
       matches ← filterValueAccessor entries a1 e;
       createSharedTupleIdSequenceAdapter (block_accessor b) matches
   | None => Ok a1
   end) = Ok a ∧
  visited a = selected b ∧ ∀ id t, value_at a id t = value_at (block_accessor b) id t.
Proof.
  intros (Hex & _ & _ & _ & Hlip) Hv Hval He. unfold selected, let_through.
  destruct prober as [entries|].
  - destruct (filterValueAccessor_spec entries a1 e He) as (m & -> & Hm).
    { eapply Forall_impl; [exact Hlip|]. intros en [Hw Ht]. split; [done|].
      intros Hn t Hin. rewrite Hval. apply Ht; [done|]. rewrite Hv in Hin.
      by apply list_elem_of_filter in Hin as [_ ?]. }
    cbn [mbind outcome_bind].
    destruct (adapter_visits (block_accessor b) m _ _
      (λ t, satisfied b t && passes_all (block_accessor b) entries t) (proj1 Hex) Hm)
      as (a & -> & Hva & Hvala & _); [|by exists a].
    intros t. rewrite Hv, list_elem_of_filter, andb_true_iff.
    rewrite (passes_all_ext a1 (block_accessor b)) by done. tauto.
  - exists a1. split_and!; [done| |done]. rewrite Hv. apply list_filter_iff. intros t.
    by rewrite andb_true_r.
Qed.

Lemma derived_column a (k : nat) e :
  non_trivial_expressions_ state !! k = Some e →
  (λ t, default None (default []
     ((getAllValues a <$> non_trivial_expressions_ state) !! k) !! t)) <$> seq 0 (length (visited a)) =
  (λ t, getValueForSingleTuple a t e) <$> visited a.
Proof using ScalarLaws0.
  intros Hk. apply list_eq. intros i. rewrite !list_lookup_fmap, Hk. cbn. rewrite all_values.
  destruct (decide (i < length (visited a))) as [Hi|Hi].
  - rewrite lookup_seq_lt by done. cbn. rewrite list_lookup_fmap.
    by destruct (lookup_lt_is_Some_2 _ _ Hi) as [t ->].
  - rewrite lookup_seq_ge, lookup_ge_None_2 by lia. done.
Qed.

(** The expressions that are arguments exist. *)
Definition arguments_exist : Prop :=
  ∀ h k, (h, Some (kDerived, k)) ∈ handles_ state → k < length (non_trivial_expressions_ state).

(** The accessors of a block give the arguments of the selected tuples. *)
Lemma arg_values_block b a derived h arg :
  visited a = selected b → (∀ id t, value_at a id t = value_at (block_accessor b) id t) →
  arguments_exist → (h, arg) ∈ handles_ state →
  derived = (match getAllValues a <$> non_trivial_expressions_ state with
             | [] => None
             | _ => Some (new_ColumnVectorsValueAccessor (length (visited a))
                            (getAllValues a <$> non_trivial_expressions_ state))
             end) →
  arg_values a (it_accessor <$> derived) arg = block_values b arg ∧
  (∀ k, arg = Some (kDerived, k) → derived ≠ None).
Proof using ScalarLaws0.
  intros Hv Hval Hexist Hin ->. unfold block_values. rewrite <- Hv.
  destruct arg as [[[|] k]|]; cbn [arg_values].
  - split; [|done]. apply list_fmap_ext. intros ? t _. apply Hval.
  - pose proof (Hexist h k Hin) as Hk. destruct (lookup_lt_is_Some_2 _ _ Hk) as [e He].
    pose proof (derived_column a k e He) as Hcol.
    destruct (getAllValues a <$> non_trivial_expressions_ state) as [|c cs] eqn:Ecs.
    { apply fmap_nil_inv in Ecs. by rewrite Ecs in He. }
    split; [|done]. cbn [fmap option_fmap option_map it_accessor new_ColumnVectorsValueAccessor
      visited value_at]. rewrite Hcol. apply list_fmap_ext. intros ? t _.
    unfold argument_at. rewrite He. apply single_values. intros id. apply Hval.
  - split; [|done]. done.
Qed.

Lemma aggregateBlock_spec b (B : Argument → list (option V)) states :
  predicate_of_where → arguments_exist → fresh_counts false false (handles_ state) = true →
  block_ok b → Forall2 (λ ha st, represents ha.1 st (B ha.2)) (handles_ state) states →
  Forall (λ ha, aggregate_ok (block_values b) ha ∧ bounded (B ha.2 ++ block_values b ha.2))
    (handles_ state) →
  ∃ states', aggregateBlock short_circuit copy_elision state prober b states = Ok states' ∧
    Forall2 (λ ha st, represents ha.1 st (B ha.2 ++ block_values b ha.2)) (handles_ state) states'.
Proof using ScalarLaws0 IntegerSums0.
  intros Hp Hexist Hfresh Hb Hst Hok. unfold aggregateBlock.
  destruct (predicate_selects b Hp Hb) as (a1 & e & -> & Hv1 & Hval1 & He).
  cbn [mbind outcome_bind].
  destruct (block_accessor_selects b a1 e Hb Hv1 Hval1 He) as (a & -> & Hv & Hval).
  cbn [mbind outcome_bind].
  set (derived := match getAllValues a <$> non_trivial_expressions_ state with [] => None | _ => _ end).
  pose proof (λ h arg Hin, arg_values_block b a derived h arg Hv Hval Hexist Hin eq_refl) as Hargs.
  unfold aggregateBlockSingleState.
  destruct (local_states_spec (handles_ state) (beginIteration {| it_accessor := a; it_rest := [] |})
    derived false false Hfresh) as (locals & -> & Hlocals).
  - done.
  - unfold maybe_unmoved, derived, unmoved. by destruct (getAllValues a <$> _).
  - intros h k Hin. by eapply Hargs.
  - rewrite Forall_forall in Hok |- *. intros [h arg] Hin. destruct (Hok _ Hin) as [Ha _].
    destruct (Hargs h arg Hin) as [E _]. unfold aggregate_ok in *. cbn [fst snd] in *.
    cbn [beginIteration it_accessor]. by rewrite E.
  - cbn [mbind outcome_bind].
    destruct (mergeSingleState_spec (handles_ state) (block_values b) B locals states)
      as (states' & Hrun & Hs'); [|done| |by exists states'].
    + apply Forall2_same_length_lookup. split; [by eapply Forall2_length|].
      intros i [h arg] st Hi Hj. pose proof (Forall2_lookup_lr _ _ _ _ _ _ Hlocals Hi Hj) as Hr.
      cbn [fst snd beginIteration it_accessor] in *.
      destruct (Hargs h arg) as [E _]; [by eapply list_elem_of_lookup_2|]. by rewrite E in Hr.
    + eapply Forall_impl; [exact Hok|]. intros ha [(Hh & _) Hbd]. by split.
Qed.

(** The blocks of the relation, in the order in which they are merged. *)
Lemma aggregateBlocks_spec blocks (B : Argument → list (option V)) states :
  predicate_of_where → arguments_exist → fresh_counts false false (handles_ state) = true →
  Forall block_ok blocks →
  Forall2 (λ ha st, represents ha.1 st (B ha.2)) (handles_ state) states →
  Forall (λ ha, handle_ok ha.1 ∧ (ha.2 = None → ∃ star, ha.1 = AggregationHandleCount star false) ∧
    Forall (λ b, argument_typed ha.1 (block_values b ha.2)) blocks ∧
    bounded (B ha.2 ++ all_values_of blocks ha.2)) (handles_ state) →
  ∃ states', aggregateBlocks short_circuit copy_elision state prober blocks states = Ok states' ∧
    Forall2 (λ ha st, represents ha.1 st (B ha.2 ++ all_values_of blocks ha.2)) (handles_ state)
      states'.
Proof using ScalarLaws0 IntegerSums0.
  intros Hp Hexist Hfresh Hb. revert B states.
  induction Hb as [|b blocks Hb _ IH]; intros B states Hst Hok; cbn [aggregateBlocks].
  - exists states. split; [done|]. eapply Forall2_impl; [exact Hst|]. intros ha st. cbn.
    by rewrite app_nil_r.
  - destruct (aggregateBlock_spec b B states Hp Hexist Hfresh Hb Hst) as (states1 & -> & Hst1).
    { eapply Forall_impl; [exact Hok|]. intros ha (Hh & Hn & Hty & Hbd). cbn in Hbd.
      rewrite app_assoc in Hbd. apply bounded_app in Hbd as [Hbd _]. apply Forall_cons in Hty as [Hty _].
      split; [|done]. by split_and!; [| |apply (bounded_app _ _ Hbd)|]. }
    cbn [mbind outcome_bind].
    destruct (IH (λ arg, B arg ++ block_values b arg) states1 Hst1) as (states2 & -> & Hst2).
    { eapply Forall_impl; [exact Hok|]. intros ha (Hh & Hn & Hty & Hbd). cbn in Hbd.
      rewrite app_assoc in Hbd. apply Forall_cons in Hty as [_ Hty]. by split_and!. }
    exists states2. split; [done|]. eapply Forall2_impl; [exact Hst2|]. intros ha st. cbn.
    by rewrite app_assoc.
Qed.

Lemma finalizeSingleState_spec handles states (B : Argument → list (option V)) :
  Forall2 (λ ha st, represents ha.1 st (B ha.2)) handles states →
  Forall (λ ha, bounded (B ha.2)) handles →
  ∃ results, finalizeSingleState handles states = Ok results ∧
    Forall2 (λ ha r, is_result ha.1 (B ha.2) r) handles results.
Proof.
  induction 1 as [|[h arg] st handles states Hst _ IH]; intros Hb; [by exists []|].
  apply Forall_cons in Hb as [Hb Hbs]. cbn [finalizeSingleState].
  destruct (finalize_result h st _ Hst Hb) as (r & -> & Hr). cbn [mbind outcome_bind].
  destruct (IH Hbs) as (rs & -> & Hrs). eexists. split; [done|]. by constructor.
Qed.

(** C40. An aggregation without GROUP BY and without DISTINCT aggregates computes
    what it says.  Let the query have a WHERE clause that applies to its
    operands, or none, LIP filters or none, and aggregates MIN, MAX, COUNT, SUM
    and AVG of attributes and expressions, where the order of a type under MIN
    or MAX is a strict weak order, values are not null where their types do not
    allow it, and sums and counts fit in 64 bits; let no COUNT of a nullable
    argument come after another aggregate of the same accessor; and if there is
    a WHERE clause, let no packed block have a number of tuples that is a positive
    multiple of 64.  Then, in whatever order the blocks of the relation are
    merged and the filters are tried, aggregation ends with the result of each
    aggregate over the arguments of exactly the tuples that satisfy the WHERE
    clause and pass all the filters: a least value, a greatest value, or null for
    none, the number of values that are not null, their sum and their average. *)
Theorem aggregation_exact (blocks : list (BlockView S V T)) :
  predicate_of_where → arguments_exist → fresh_counts false false (handles_ state) = true →
  Forall block_ok blocks →
  Forall (λ ha, handle_ok ha.1 ∧ (ha.2 = None → ∃ star, ha.1 = AggregationHandleCount star false) ∧
    Forall (λ b, argument_typed ha.1 (block_values b ha.2)) blocks ∧
    bounded (all_values_of blocks ha.2)) (handles_ state) →
  ∃ states results,
    aggregateBlocks short_circuit copy_elision state prober blocks (initial_states state) = Ok states ∧
    finalizeSingleState (handles_ state) states = Ok results ∧
    Forall2 (λ ha r, is_result ha.1 (all_values_of blocks ha.2) r) (handles_ state) results.
Proof using ScalarLaws0 IntegerSums0.
  intros Hp Hexist Hfresh Hb Hok.
  destruct (aggregateBlocks_spec blocks (λ _, []) (initial_states state) Hp Hexist Hfresh Hb)
    as (states & Hrun & Hst).
  - unfold initial_states. clear. induction (handles_ state) as [|[h arg] l IH]; constructor; [|done].
    apply initial_represents.
  - exact Hok.
  - destruct (finalizeSingleState_spec (handles_ state) states (all_values_of blocks))
      as (results & Hfin & Hres); [exact Hst| |by exists states, results].
    eapply Forall_impl; [exact Hok|]. by intros ha (_ & _ & _ & ?).
Qed.
End query.

(** ** A query over two blocks *)

#[global] Instance integer_sums : SumOps Z :=
  {| zero_value := 0%Z; add_values := int64_add; divide_values := Z.div; long_value z := z |}.
#[global] Instance integer_sums_exact : IntegerSums Z.
Proof.
  refine {| num z := z |}; [done|]. intros a b Hab. exists (a + b)%Z.
  split; [by apply int64_add_ok|done].
Defined.

#[global] Instance Zltb_strict_weak : StrictWeak Z.ltb.
Proof. split; intros; rewrite ?Z.ltb_lt, ?Z.ltb_ge in *; lia. Qed.

Definition nullable_integer : OrderedType Z := {| type_less := Z.ltb; type_nullable := true |}.
Definition least : AggregationHandle Z := AggregationHandleMin nullable_integer.
Definition greatest : AggregationHandle Z := AggregationHandleMax nullable_integer.
Definition sample_block : BlockView (Scalar Z bool) Z bool :=
  {| block_accessor := sample_accessor; block_sub_blocks := sample_blocks; isPacked := false;
     existence_map := seq_123 |}.
(** [SELECT COUNT(a), MIN(a), MAX(a), SUM(b), AVG(a), COUNT( * ) WHERE ...], with the
    argument of AVG as an expression; [late] puts the first aggregate last. *)
Definition sample_query (p : Predicate (Scalar Z bool) Z bool) (late : bool)
  : AggregationOperationState (Scalar Z bool) Z bool :=
  let count := (AggregationHandleCount false true, Some (kBase, 0)) in
  let others :=
    [(least, Some (kBase, 0)); (greatest, Some (kBase, 0)); (AggregationHandleSum false, Some (kBase, 1));
     (AggregationHandleAvg true, Some (kDerived, 0)); (AggregationHandleCount true false, None)] in
  {| handles_ := if late then others ++ [count] else count :: others;
     agg_predicate_ := Some p; non_trivial_expressions_ := [column 0] |}.

(** Filters of [b], with the values 2, 5 and 9, and of [a], with 7 and 13. *)
#[local] Instance sample_sort : HashOrder (ProbeEntry Z) := reverse_order _.
Definition built (nullable : bool) (f : LIPFilter Z) (vs : list (option Z)) : LIPFilter Z :=
  match lip_insert_values nullable f vs with Ok f' => f' | Err _ => f end.
Definition sample_prober : list (ProbeEntry Z) :=
  [new_ProbeEntry (built true (new_BitVectorExactFilter id false 1 9)
     [Some 9; None; Some 2; Some 5]%Z) 1 false;
   new_ProbeEntry (built false (new_SingleIdentityHashFilter Z.to_N 4) [Some 7; Some 13]%Z) 0 true].
Lemma sample_prober_hits :
  (λ v, lip_hits (built true (new_BitVectorExactFilter id false 1 9)
     [Some 9; None; Some 2; Some 5]%Z) v) <$> [0; 2; 3; 9; 10]%Z = [false; true; false; true; false] ∧
  (λ v, lip_hits (built false (new_SingleIdentityHashFilter Z.to_N 4) [Some 7; Some 13]%Z) v)
     <$> [5; 6; 7]%Z = [true; false; true].
Proof. split; vm_compute; reflexivity. Qed.

Lemma aggregation_exact_witness :
  ∃ p states, concretize id sample_formula = Ok p ∧
    aggregateBlocks (H := zero_heap) true true (sample_query p false) (Some sample_prober)
      [sample_block; sample_block] (initial_states (sample_query p false)) = Ok states ∧
    finalizeSingleState (handles_ (sample_query p false)) states =
      Ok [Some 4%Z; Some 5%Z; Some 7%Z; Some 22%Z; Some 6%Z; Some 4%Z].
Proof.
  assert (∃ p, concretize id sample_formula = Ok p) as (p & Hp) by (by eexists).
  destruct (aggregation_exact (H := zero_heap) id true true (sample_query p false)
    (Some sample_formula) (Some sample_prober) [sample_block; sample_block]) as (states & results & Hrun & Hfin & _).
  - split; [reflexivity|]. by exists p.
  - intros h k Hin. cbn in Hin. rewrite !elem_of_cons, elem_of_nil in Hin. cbn.
    destruct Hin as [?|[?|[?|[?|[[= _ ->]|[?|?]]]]]]; simplify_eq; lia.
  - reflexivity.
  - assert (block_ok id (Some sample_formula) (Some sample_prober) sample_block) as Hb;
      [|by constructor; [|constructor]].
    split_and!; [apply sample_exists|done|apply sample_blocks_exact| |].
    + repeat constructor; cbn; try done; intros t Ht; rewrite !elem_of_cons, elem_of_nil in Ht;
        by destruct Ht as [->|[->|[->|?]]].
    + repeat constructor; try (vm_compute; reflexivity || discriminate);
        intros Hn t Ht; try discriminate Hn; cbn in *;
        rewrite !elem_of_cons, elem_of_nil in Ht; by destruct Ht as [->|[->|[->|?]]].
  - assert (None ∉ block_values (sample_query p false) (Some sample_formula) (Some sample_prober)
      sample_block (Some (kBase, 1))) as Hsum.
    { replace (block_values _ _ _ _ _) with [Some 9%Z; Some 2%Z] by (vm_compute; reflexivity).
      rewrite !elem_of_cons, elem_of_nil. naive_solver. }
    assert (∀ P : BlockView (Scalar Z bool) Z bool → Prop,
      P sample_block → Forall P [sample_block; sample_block]) as Htwice by (by repeat constructor).
    assert (∀ arg, arg ∈ [None; Some (kBase, 0); Some (kBase, 1); Some (kDerived, 0)] →
      bounded (all_values_of (sample_query p false) (Some sample_formula) (Some sample_prober)
        [sample_block; sample_block] arg)) as Hb.
    { intros arg Hin. rewrite !elem_of_cons, elem_of_nil in Hin.
      destruct Hin as [->|[->|[->|[->|[]]]]]; (split; vm_compute; reflexivity). }
    cbn [handles_ sample_query].
    repeat (apply Forall_cons_2; cbn [fst snd]); [..|by apply Forall_nil_2];
      refine (conj _ (conj _ (conj _ (Hb _ _)))); try (rewrite !elem_of_cons; naive_solver);
      try discriminate.
    + exact I.
    + by apply Htwice.
    + exact Zltb_strict_weak.
    + by apply Htwice.
    + exact Zltb_strict_weak.
    + by apply Htwice.
    + exact I.
    + apply Htwice. intros _. exact Hsum.
    + exact I.
    + by apply Htwice.
    + exact I.
    + intros _. by exists true.
    + by apply Htwice.
  - vm_compute in Hp. injection Hp as <-. vm_compute in Hrun. injection Hrun as <-.
    eexists _, _. split_and!; [reflexivity|vm_compute; reflexivity|vm_compute; reflexivity].
Defined.

(** ** Where aggregates go wrong *)

(** COUNT of a nullable argument does not begin the iteration: after another
    aggregate has used the accessor it counts nothing. *)
Lemma late_count_is_zero {V} `{!SumOps V} star (it : Iterated V) attr :
  it_rest it = [] →
  accumulateValueAccessor (AggregationHandleCount star true) it attr =
    Ok (AggregationStateCount 0, finished it).
Proof. intros Hr. cbn. unfold rest_values. by rewrite Hr. Qed.

(** [SELECT MIN(a), MAX(a), SUM(b), AVG(a), COUNT( * ), COUNT(a)]: the last is 0 and not 4. *)
Lemma late_count_example :
  ∃ p states, concretize id sample_formula = Ok p ∧
    aggregateBlocks (H := zero_heap) true true (sample_query p true) None
      [sample_block; sample_block] (initial_states (sample_query p true)) = Ok states ∧
    finalizeSingleState (handles_ (sample_query p true)) states =
      Ok [Some 5%Z; Some 7%Z; Some 22%Z; Some 6%Z; Some 4%Z; Some 0%Z].
Proof. do 2 eexists. split_and!; [reflexivity|vm_compute; reflexivity|vm_compute; reflexivity]. Qed.

(** SUM and AVG of a group without values: the entry of the hash table is not
    null, as it is without GROUP BY. *)
Lemma group_of_nulls {V} `{!SumOps V} :
  let sum := AggregationHandleSum true in
  let avg := AggregationHandleAvg true in
  (∃ st, iterateUnaryInl sum (createInitialState sum) None = Ok st ∧ finalize sum st = Ok None ∧
     finalizeHashTableEntry sum st = Ok (Some zero_value)) ∧
  (∃ st, iterateUnaryInl avg (createInitialState avg) None = Ok st ∧ finalize avg st = Ok None ∧
     finalizeHashTableEntry avg st = Ok (Some (divide_values zero_value 0))).
Proof. split; eexists; by split_and!. Qed.
