(* ===== verification/CaseExpression.v ===== *)
(** * CASE expressions

    Models expressions/scalar/ScalarCaseExpression.{hpp,cpp}: WHEN predicates in
    descending priority, each with the scalar of its THEN clause, and the scalar
    of the ELSE clause; the choice of a fixed branch when the expression is
    built, the value for a tuple and for a pair of joined tuples, and the
    vectorized evaluation, which finds the tuples of each branch, evaluates its
    scalar over them and multiplexes the columns.  The operands are scalars of
    the class [ScalarOps].  The type of the expression is represented by whether
    its columns are native. *)

From stdpp Require Import options.
From S2P Require Import Prelude TupleIdSequence Comparators Predicates.

Record ScalarCaseExpression (S V T : Type) := {
  when_predicates_ : list (Predicate S V T);
  result_expressions_ : list S;
  else_result_expression_ : S;
  fixed_result_expression_ : option S;
  (** [has_static_value_] and [static_value_] *)
  static_value_ : option (option V);
}.
Arguments when_predicates_ {_ _ _} _.
Arguments result_expressions_ {_ _ _} _.
Arguments else_result_expression_ {_ _ _} _.
Arguments fixed_result_expression_ {_ _ _} _.
Arguments static_value_ {_ _ _} _.

Section case.
Context {S V T : Type} `{!ScalarOps S V T, !HeapMemory} (short_circuit copy_elision : bool).
(** [NativeColumnVector::UsableForType(type_)] *)
Context (native : bool).
Abbreviation Predicate := (Predicate S V T).
Abbreviation ScalarCaseExpression := (ScalarCaseExpression S V T).
Implicit Types (e : ScalarCaseExpression) (accessor left_accessor right_accessor : ValueAccessor V).

(** Reading an element of a vector. *)
Definition element {A} (l : list A) (i : nat) : outcome A :=
  match l !! i with Some x => Ok x | None => Err UndefinedBehaviour end.

(** *** Construction *)

(** The loop over the WHEN clauses: [fixed_result_expression_], and
    [static_case_branch]. *)
Fixpoint fixed_branch (results : list S) (whens : list Predicate) (case_idx : nat)
    (static_case_branch : bool) : outcome (option S * bool) :=
  match whens with
  | [] => Ok (None, static_case_branch)
  | w :: whens' =>
      if hasStaticResult w then
        r ← getStaticResult w;
        if (r : bool) then x ← element results case_idx; Ok (Some x, static_case_branch)
        else fixed_branch results whens' (Datatypes.S case_idx) static_case_branch
      else fixed_branch results whens' (Datatypes.S case_idx) false
  end.

Definition new_ScalarCaseExpression (whens : list Predicate) (results : list S) (els : S)
  : outcome ScalarCaseExpression :=
  '(fixed, static_case_branch) ← fixed_branch results whens 0 true;
  let fixed :=
    match fixed with
    | None => if (static_case_branch : bool) then Some els else None
    | Some x => Some x
    end in
  Ok {| when_predicates_ := whens; result_expressions_ := results; else_result_expression_ := els;
        fixed_result_expression_ := fixed;
        static_value_ :=
          match fixed with
          | Some x => if hasStaticValue x then Some (getStaticValue x) else None
          | None => None
          end |}.

(** *** The value for a tuple *)

(** The first branch whose predicate matches. *)
Fixpoint first_match (matching : Predicate → outcome bool) (value : S → option V)
    (whens : list Predicate) (results : list S) (els : S) (case_idx : nat) : outcome (option V) :=
  match whens with
  | [] => Ok (value els)
  | w :: whens' =>
      r ← matching w;
      if (r : bool) then x ← element results case_idx; Ok (value x)
      else first_match matching value whens' results els (Datatypes.S case_idx)
  end.

Definition case_value (matching : Predicate → outcome bool) (value : S → option V) e
  : outcome (option V) :=
  match static_value_ e, fixed_result_expression_ e with
  | Some v, _ => Ok v
  | None, Some x => Ok (value x)
  | None, None =>
      first_match matching value (when_predicates_ e) (result_expressions_ e)
        (else_result_expression_ e) 0
  end.
Definition case_getValueForSingleTuple accessor (tuple : nat) e : outcome (option V) :=
  case_value (matchesForSingleTuple accessor tuple) (getValueForSingleTuple accessor tuple) e.
Definition case_getValueForJoinedTuples left_accessor (left_tuple_id : nat) right_accessor
    (right_tuple_id : nat) e : outcome (option V) :=
  case_value (matchesForJoinedTuples left_accessor left_tuple_id right_accessor right_tuple_id)
    (getValueForJoinedTuples left_accessor left_tuple_id right_accessor right_tuple_id) e.

(** *** Multiplexing *)

(** A column that is written by position: [None] where nothing was written. *)
Abbreviation Output := (list (option (option V))).
Implicit Types output : Output.

Definition prepareForPositionalWrites (size : nat) : Output := replicate size None.
(** In a native column, a value does not clear the null of its position. *)
Definition overwrite (old : option (option V)) (v : option V) : option (option V) :=
  match native, old, v with
  | true, Some None, Some _ => Some None
  | _, _, _ => Some v
  end.
Definition positionalWrite (position : nat) (v : option V) output : outcome Output :=
  old ← element output position; Ok (<[position := overwrite old v]> output).

(** [for (input_pos = 0; ...; ++input_pos, ++output_pos_it)] *)
Fixpoint write_at (output_positions : list nat) (case_result : list (option V)) output
  : outcome Output :=
  match case_result, output_positions with
  | [], _ => Ok output
  | _ :: _, [] => Err UndefinedBehaviour
  | v :: vs, p :: ps => output ← positionalWrite p v output; write_at ps vs output
  end.
(** [for (output_pos = 0; output_pos < output->size(); ++output_pos, ++source_sequence_it)] *)
Fixpoint write_matching (case_matches : TupleIdSequence) (case_result : list (option V))
    (positions : list (nat * option nat)) (input_pos : nat) output : outcome Output :=
  match positions with
  | [] => Ok output
  | (output_pos, p) :: ps =>
      p ← existing p;
      g ← get p case_matches;
      if (g : bool) then
        v ← element case_result input_pos;
        output ← positionalWrite output_pos v output;
        write_matching case_matches case_result ps (Datatypes.S input_pos) output
      else write_matching case_matches case_result ps input_pos output
  end.

(** [MultiplexNativeColumnVector] and [MultiplexIndirectColumnVector] *)
Definition MultiplexColumnVector (source_sequence : option TupleIdSequence)
    (case_matches : TupleIdSequence) (case_result : list (option V)) output : outcome Output :=
  match source_sequence with
  | None => ps ← visit case_matches; write_at ps case_result output
  | Some source =>
      ps ← visit source;
      write_matching case_matches case_result (beside (seq 0 (length output)) ps) 0 output
  end.

Fixpoint multiplex_cases (source_sequence : option TupleIdSequence)
    (case_matches : list TupleIdSequence) (case_results : list (list (option V))) output
  : outcome Output :=
  match case_matches, case_results with
  | m :: ms, r :: rs =>
      e ← empty m;
      output ← (if (e : bool) then Ok output else MultiplexColumnVector source_sequence m r output);
      multiplex_cases source_sequence ms rs output
  | _, _ => Ok output
  end.
Definition multiplexColumnVectors (output_size : nat) (source_sequence : option TupleIdSequence)
    (case_matches : list TupleIdSequence) (else_matches : TupleIdSequence)
    (case_results : list (list (option V))) (else_result : option (list (option V)))
  : outcome Output :=
  output ← multiplex_cases source_sequence case_matches case_results
             (prepareForPositionalWrites output_size);
  match else_result with
  | Some r => MultiplexColumnVector source_sequence else_matches r output
  | None => Ok output
  end.

(** *** The values for a block *)

(** The matches of each branch, and what is left for the ELSE clause. *)
Fixpoint case_branches (matching : TupleIdSequence → Predicate → outcome TupleIdSequence)
    (whens : list Predicate) (else_matches : TupleIdSequence) (case_matches : list TupleIdSequence)
  : outcome (list TupleIdSequence * TupleIdSequence) :=
  match whens with
  | [] => Ok (case_matches, else_matches)
  | w :: whens' =>
      e ← empty else_matches;
      if (e : bool) then Ok (case_matches, else_matches)
      else
        m ← matching else_matches w;
        else_matches ← intersectWithComplement else_matches m;
        case_branches matching whens' else_matches (case_matches ++ [m])
  end.

Fixpoint case_columns {A} (column : A → S → outcome (list (option V))) (results : list S)
    (case_matches : list A) (case_idx : nat) : outcome (list (list (option V))) :=
  match case_matches with
  | [] => Ok []
  | m :: ms =>
      x ← element results case_idx;
      c ← column m x;
      cs ← case_columns column results ms (Datatypes.S case_idx);
      Ok (c :: cs)
  end.

Definition adapted_column accessor (m : TupleIdSequence) (x : S) : outcome (list (option V)) :=
  a ← createSharedTupleIdSequenceAdapter accessor m; Ok (getAllValues a x).

(** [accessor_sequence] is the accessor's [getTupleIdSequence()]. *)
Definition case_getAllValues accessor (accessor_sequence : option TupleIdSequence)
    (sub_blocks_ref : option (SubBlocksReference S V T)) e : outcome Output :=
  match static_value_ e, fixed_result_expression_ e with
  | Some v, _ => Ok (replicate (length (visited accessor)) (Some v))
  | None, Some x => Ok (Some <$> getAllValues accessor x)
  | None, None =>
      else_matches ← (match accessor_sequence with
                      | Some q => s ← new_sequence (seq_length q); seq_assignFrom s q
                      | None =>
                          s ← new_sequence (getEndPosition accessor);
                          setRange 0 (seq_length s) true s
                      end);
      '(case_matches, else_matches) ←
        case_branches
          (λ matches w, getAllMatches short_circuit copy_elision accessor sub_blocks_ref
                          (Some matches) accessor_sequence w)
          (when_predicates_ e) else_matches [];
      case_results ← case_columns (adapted_column accessor) (result_expressions_ e) case_matches 0;
      is_empty ← empty else_matches;
      else_results ← (if (is_empty : bool) then Ok None
                      else c ← adapted_column accessor else_matches (else_result_expression_ e);
                           Ok (Some c));
      multiplexColumnVectors (length (visited accessor)) accessor_sequence case_matches else_matches
        case_results else_results
  end.

(** *** The values for joined tuples *)

(** [joined_tuple_ids[pos]] for the positions of a sequence. *)
Fixpoint pairs_at (joined_tuple_ids : list (nat * nat)) (ps : list nat)
  : outcome (list (nat * nat)) :=
  match ps with
  | [] => Ok []
  | p :: ps' =>
      x ← element joined_tuple_ids p; l ← pairs_at joined_tuple_ids ps'; Ok (x :: l)
  end.

(** The positions of the pairs that match, of those that are left. *)
Fixpoint matching_positions (matching : nat * nat → outcome bool)
    (joined_tuple_ids : list (nat * nat)) (ps : list nat) (current : TupleIdSequence)
    (current_matches : list (nat * nat)) : outcome (TupleIdSequence * list (nat * nat)) :=
  match ps with
  | [] => Ok (current, current_matches)
  | pos :: ps' =>
      check_pair ← element joined_tuple_ids pos;
      r ← matching check_pair;
      if (r : bool) then
        current ← set pos true current;
        matching_positions matching joined_tuple_ids ps' current (current_matches ++ [check_pair])
      else matching_positions matching joined_tuple_ids ps' current current_matches
  end.

Fixpoint join_branches (matching : Predicate → nat * nat → outcome bool)
    (joined_tuple_ids : list (nat * nat)) (whens : list Predicate) (else_positions : TupleIdSequence)
    (case_positions : list TupleIdSequence) (case_matches : list (list (nat * nat)))
  : outcome (list TupleIdSequence * list (list (nat * nat)) * TupleIdSequence) :=
  match whens with
  | [] => Ok (case_positions, case_matches, else_positions)
  | w :: whens' =>
      e ← empty else_positions;
      if (e : bool) then Ok (case_positions, case_matches, else_positions)
      else
        current ← new_sequence (length joined_tuple_ids);
        ps ← visit else_positions;
        '(current, current_matches) ←
          matching_positions (matching w) joined_tuple_ids ps current [];
        else_positions ← intersectWithComplement else_positions current;
        join_branches matching joined_tuple_ids whens' else_positions
          (case_positions ++ [current]) (case_matches ++ [current_matches])
  end.

Definition case_getAllValuesForJoin left_accessor right_accessor
    (joined_tuple_ids : list (nat * nat)) e : outcome Output :=
  match static_value_ e, fixed_result_expression_ e with
  | Some v, _ => Ok (replicate (length joined_tuple_ids) (Some v))
  | None, Some x =>
      Ok (Some <$> getAllValuesForJoin left_accessor right_accessor joined_tuple_ids x)
  | None, None =>
      else_positions ← new_sequence (length joined_tuple_ids);
      else_positions ← setRange 0 (length joined_tuple_ids) true else_positions;
      '(case_positions, case_matches, else_positions) ←
        join_branches
          (λ w '(t, u), matchesForJoinedTuples left_accessor t right_accessor u w)
          joined_tuple_ids (when_predicates_ e) else_positions [] [];
      case_results ← case_columns (λ m x, Ok (getAllValuesForJoin left_accessor right_accessor m x))
                       (result_expressions_ e) case_matches 0;
      is_empty ← empty else_positions;
      else_results ← (if (is_empty : bool) then Ok None
                      else
                        ps ← visit else_positions;
                        else_matches ← pairs_at joined_tuple_ids ps;
                        Ok (Some (getAllValuesForJoin left_accessor right_accessor else_matches
                                    (else_result_expression_ e))));
      multiplexColumnVectors (length joined_tuple_ids) None case_positions else_positions case_results
        else_results
  end.
End case.
