(* ===== verification/CaseTheorems.v ===== *)
(** * What CASE expressions evaluate to

    The branch of a CASE expression is the first whose WHEN clause is true.  The
    value for a tuple, the value for a joined pair and both vectorized
    evaluations give the value of its scalar, provided that no WHEN clause that
    is statically true follows one that is not static; the constructor gives
    such a clause priority over the ones before it.  The vectorized evaluations
    overrun a bit vector where a packed accessor, or a join, has a positive
    multiple of 64 tuples. *)

From stdpp Require Import options.
From S2P Require Import Prelude TupleIdSequence Comparators Predicates PredicateTheorems Selection.
From S2P Require Import CaseExpression.

(** A sequence of so many tuples ends at the end of a word. *)
Definition fills_words (n : nat) : Prop := n mod 64 = 0 ∧ 0 < n.
#[global] Instance fills_words_dec n : Decision (fills_words n).
Proof. unfold fills_words. apply _. Defined.

(** ** Lists *)

Lemma element_app {A} (pre : list A) x l : element (pre ++ x :: l) (length pre) = Ok x.
Proof. unfold element. by rewrite list_lookup_middle. Qed.

(** ** Multiplexing *)

Section multiplex.
Context {S V T : Type} `{!ScalarOps S V T, !HeapMemory} (native : bool).
Abbreviation Predicate := (Predicate S V T).
Implicit Types (g : nat → option (option V)) (F : nat → option V) (Q E : nat → bool).

Definition updated g (p : nat) (v : option V) : nat → option (option V) :=
  λ q, if decide (q = p) then Some v else g q.

Lemma positionalWrite_spec l g p k v :
  NoDup l → l !! k = Some p → g p = None →
  positionalWrite native k v (g <$> l) = Ok (updated g p v <$> l).
Proof.
  intros Hnd Hk Hg. unfold positionalWrite, element. rewrite list_lookup_fmap, Hk. cbn.
  rewrite Hg. unfold overwrite. f_equal. apply list_eq. intros j.
  destruct (decide (k = j)) as [<-|Hj].
  - rewrite list_lookup_insert_eq by (rewrite length_fmap; by eapply lookup_lt_Some).
    rewrite list_lookup_fmap, Hk. cbn. unfold updated. rewrite decide_True by done.
    by destruct native.
  - rewrite list_lookup_insert_ne, !list_lookup_fmap by done.
    destruct (l !! j) as [q|] eqn:Hq; [|done]. cbn. unfold updated.
    rewrite decide_False; [done|]. intros ->. by pose proof (NoDup_lookup l k j p Hnd Hk Hq).
Qed.

(** The function after the values of [F] are written where [Q] is true. *)
Definition merged g F Q : nat → option (option V) := λ i, if Q i then Some (F i) else g i.

(** Without holes a position is a tuple. *)
Lemma write_at_spec N F ps g :
  NoDup ps → (∀ p, p ∈ ps → p < N ∧ g p = None) →
  write_at native ps (F <$> ps) (g <$> seq 0 N) =
    Ok (merged g F (λ i, bool_decide (i ∈ ps)) <$> seq 0 N).
Proof.
  intros Hnd. revert g. induction Hnd as [|p ps Hp Hnd IH]; intros g Hg; cbn [fmap list_fmap write_at].
  - reflexivity.
  - destruct (Hg p) as [Hlt Hnone]; [left|].
    rewrite (positionalWrite_spec (seq 0 N) g p p) by (apply NoDup_seq || done || by apply lookup_seq).
    cbn [mbind outcome_bind]. rewrite IH.
    + f_equal. apply list_fmap_ext. intros _ i _. unfold merged, updated.
      destruct (decide (i = p)) as [->|Hne].
      * rewrite (bool_decide_true (p ∈ p :: ps)) by left. by rewrite bool_decide_false.
      * assert (i ∈ p :: ps ↔ i ∈ ps) as Hiff by set_solver. by rewrite (bool_decide_ext _ _ Hiff).
    + intros q Hq. destruct (Hg q) as [? Hgq]; [by right|]. split; [done|].
      unfold updated. rewrite decide_False; [done|]. by intros ->.
Qed.

(** With holes, the tuples are counted. *)
Lemma write_matching_spec n cm Q F prev todo g :
  holds_exactly cm n (λ i, Q i = true) → NoDup (prev ++ todo) →
  (∀ i, i ∈ prev ++ todo → i < n) → (∀ i, i ∈ todo → Q i = true → g i = None) →
  write_matching native cm (F <$> filter (λ i, Q i = true) (prev ++ todo))
    (beside (seq (length prev) (length todo)) todo) (length (filter (λ i, Q i = true) prev))
    (g <$> prev ++ todo) =
  Ok (merged g F (λ i, Q i && bool_decide (i ∈ todo)) <$> prev ++ todo).
Proof.
  intros Hcm. revert prev g. induction todo as [|p todo IH]; intros prev g Hnd Hlt Hg.
  { cbn [length seq beside write_matching]. f_equal. apply list_fmap_ext. intros _ i _. unfold merged.
    rewrite bool_decide_false by apply not_elem_of_nil. by rewrite andb_false_r. }
  cbn [length seq beside write_matching existing mbind outcome_bind].
  destruct (holds_get cm n _ p Hcm) as (b & -> & Hb); [apply Hlt; set_solver|].
  cbn [mbind outcome_bind].
  assert (prev ++ p :: todo = (prev ++ [p]) ++ todo) as Happ by (by rewrite <- app_assoc).
  assert (Datatypes.S (length prev) = length (prev ++ [p])) as Hlen by (rewrite length_app; cbn; lia).
  assert (p ∉ todo) as Hp by (apply NoDup_app in Hnd as (_ & _ & [Hn _]%NoDup_cons); exact Hn).
  destruct b.
  - assert (Q p = true) as HQ by by apply Hb. unfold element.
    assert (filter (λ i, Q i = true) (prev ++ p :: todo) =
      filter (λ i, Q i = true) prev ++ p :: filter (λ i, Q i = true) todo) as Hfil.
    { rewrite filter_app, filter_cons, decide_True by done. done. }
    rewrite list_lookup_fmap, Hfil, list_lookup_middle by done.
    cbn [fmap option_fmap option_map mbind outcome_bind].
    rewrite (positionalWrite_spec _ g p _) by (done || (by rewrite list_lookup_middle) || set_solver).
    cbn [mbind outcome_bind]. rewrite <- Hfil, Hlen, Happ.
    replace (Datatypes.S (length (filter (λ i, Q i = true) prev)))
      with (length (filter (λ i, Q i = true) (prev ++ [p]))).
    2:{ rewrite filter_app, filter_cons, decide_True, length_app by done. cbn. lia. }
    rewrite IH; [|by rewrite <- Happ|by rewrite <- Happ|].
    + f_equal. apply list_fmap_ext. intros _ i _. unfold merged, updated.
      destruct (decide (i = p)) as [->|Hne].
      * rewrite HQ. cbn [andb]. rewrite bool_decide_false by done. by rewrite bool_decide_true by left.
      * assert (i ∈ p :: todo ↔ i ∈ todo) as Hiff by set_solver. by rewrite (bool_decide_ext _ _ Hiff).
    + intros i Hi HQi. unfold updated. rewrite decide_False by congruence. apply Hg; set_solver.
  - assert (Q p = false) as HQ by (apply not_true_iff_false; by rewrite <- Hb).
    rewrite Hlen, Happ.
    replace (length (filter (λ i, Q i = true) prev))
      with (length (filter (λ i, Q i = true) (prev ++ [p]))).
    2:{ rewrite filter_app, filter_cons, decide_False, app_nil_r by congruence. done. }
    rewrite IH; [|by rewrite <- Happ|by rewrite <- Happ|set_solver].
    f_equal. apply list_fmap_ext. intros _ i _. unfold merged. destruct (decide (i = p)) as [->|Hne].
    + by rewrite HQ.
    + assert (i ∈ p :: todo ↔ i ∈ todo) as Hiff by set_solver. by rewrite (bool_decide_ext _ _ Hiff).
Qed.

(** The column of a branch is merged, with or without holes. *)
Lemma multiplex_spec n ex source cm Q F g :
  tuples_exist n ex source → holds_exactly cm n (λ i, Q i = true) →
  (∀ i, Q i = true → i ∈ ex ∧ g i = None) →
  MultiplexColumnVector native source cm (F <$> tuples cm) (g <$> ex) = Ok (merged g F Q <$> ex).
Proof.
  intros (Hs & Hlt & Hsrc) Hcm HQ. unfold MultiplexColumnVector.
  assert (NoDup ex) as Hnd by by apply sorted_NoDup. destruct source as [e|].
  - destruct Hsrc as (Hwe & Hne & He). rewrite visit_tuples by done. cbn [mbind outcome_bind].
    rewrite He, length_fmap, (tuples_filter cm n Q ex) by (done || apply HQ).
    pose proof (write_matching_spec n cm Q F [] ex g Hcm Hnd Hlt) as Hw. rewrite !app_nil_l in Hw.
    cbn [length filter list_filter] in Hw. rewrite Hw by (intros i _ Hi; by apply HQ). f_equal. apply list_fmap_ext. intros ? i Hi.
    unfold merged. rewrite bool_decide_true by (by eapply list_elem_of_lookup_2).
    by rewrite andb_true_r.
  - rewrite visit_tuples by apply Hcm. cbn [mbind outcome_bind]. rewrite Hsrc, write_at_spec.
    + f_equal. apply list_fmap_ext. intros _ i _. unfold merged.
      destruct Hcm as (_ & _ & Hi). destruct (Q i) eqn:E.
      * by rewrite bool_decide_true by by apply Hi.
      * rewrite bool_decide_false; [done|]. rewrite Hi. congruence.
    + apply tuples_NoDup.
    + intros p Hp. apply Hcm in Hp. split; [apply Hlt|]; by apply HQ.
Qed.

(** *** All the branches *)

(** Which tuples a WHEN clause is true of, and the values of scalars for them. *)
Context (W : Predicate → nat → bool) (value : nat → S → option V).

Fixpoint branch (i : nat) (whens : list Predicate) (results : list S) (els : S) : S :=
  match whens, results with
  | w :: whens', x :: results' => if W w i then x else branch i whens' results' els
  | _, _ => els
  end.

(** The matches of the branches, of the tuples [E], and what is left. *)
Inductive found (n : nat) : (nat → bool) → list Predicate → list TupleIdSequence → TupleIdSequence → Prop :=
  | found_stop E whens m :
      holds_exactly m n (λ i, E i = true) → whens = [] ∨ (∀ i, E i = false) → found n E whens [] m
  | found_case E w whens c cms m :
      holds_exactly c n (λ i, E i && W w i = true) →
      found n (λ i, E i && negb (W w i)) whens cms m → found n E (w :: whens) (c :: cms) m.

Lemma found_rest n E whens cms m :
  found n E whens cms m →
  ∃ L, holds_exactly m n (λ i, L i = true) ∧ ∀ i, L i = true → E i = true.
Proof.
  induction 1 as [E whens m Hm _|E w whens c cms m _ _ (L & Hm & HL)]; [by exists E|].
  exists L. split; [done|]. intros i Hi. apply HL in Hi. by apply andb_true_iff in Hi as [? _].
Qed.

Definition branch_columns (cms : list TupleIdSequence) (results : list S) : list (list (option V)) :=
  zip_with (λ c x, (λ i, value i x) <$> tuples c) cms results.

Lemma multiplex_cases_spec n ex source E whens cms m results els g :
  tuples_exist n ex source → found n E whens cms m → length results = length whens →
  (∀ i, E i = true → i ∈ ex ∧ g i = None) →
  ∃ g', multiplex_cases native source cms (branch_columns cms results) (g <$> ex) = Ok (g' <$> ex) ∧
    (∀ i, i ∈ tuples m → g' i = None ∧ branch i whens results els = els) ∧
    (∀ i, E i = true → i ∉ tuples m → g' i = Some (value i (branch i whens results els))) ∧
    (∀ i, E i = false → g' i = g i).
Proof.
  intros Hex Hfound. revert results g.
  induction Hfound as [E whens m Hm Hstop|E w whens c cms m Hc Hfound IH]; intros results g Hlen HE.
  - exists g. cbn [branch_columns zip_with multiplex_cases]. destruct Hm as (_ & _ & Hm).
    split_and!; [done| | |done].
    + intros i Hi. apply Hm in Hi. split; [by apply HE|]. destruct Hstop as [->|Hno]; [done|].
      by rewrite Hno in Hi.
    + intros i Hi Hni. by destruct Hni; apply Hm.
  - destruct results as [|x results]; [done|]. injection Hlen as Hlen.
    cbn [branch_columns zip_with multiplex_cases].
    destruct (holds_empty c n _ Hc) as (b & -> & Hb). cbn [mbind outcome_bind].
    set (g1 := merged g (λ i, value i x) (λ i, E i && W w i)).
    assert ((if b then Ok (g <$> ex)
             else MultiplexColumnVector native source c ((λ i, value i x) <$> tuples c) (g <$> ex)) =
            Ok (g1 <$> ex)) as ->.
    { destruct b.
      - f_equal. apply list_fmap_ext. intros _ i _. unfold g1, merged.
        pose proof (proj1 Hb eq_refl i). by destruct (E i && W w i).
      - apply (multiplex_spec n); [done|done|]. intros i Hi.
        apply HE. by apply andb_true_iff in Hi as [? _]. }
    cbn [mbind outcome_bind]. destruct (IH results g1 Hlen) as (g' & Hrun & Hm & Hdone & Hrest).
    { intros i [Hi Hw]%andb_true_iff. split; [by apply HE|]. unfold g1, merged.
      apply negb_true_iff in Hw. rewrite Hw, andb_false_r. by apply HE. }
    exists g'. destruct (found_rest _ _ _ _ _ Hfound) as (L & (_ & _ & HL) & HLE).
    split_and!; [exact Hrun| | |].
    + intros i Hi. destruct (Hm i Hi) as [? Hbr]. split; [done|]. apply HL, HLE in Hi.
      apply andb_true_iff in Hi as [_ Hw%negb_true_iff]. cbn [branch]. by rewrite Hw.
    + intros i Hi Hni. cbn [branch]. destruct (W w i) eqn:Hw.
      * rewrite Hrest by by rewrite Hw, andb_false_r. unfold g1, merged. by rewrite Hi, Hw.
      * apply Hdone; [|done]. by rewrite Hi, Hw.
    + intros i Hi. rewrite Hrest by by rewrite Hi. unfold g1, merged. by rewrite Hi.
Qed.

(** The columns of the branches give the value of each tuple's branch. *)
Lemma multiplexColumnVectors_spec n ex source E whens cms m results els is_empty :
  tuples_exist n ex source → found n E whens cms m → length results = length whens →
  (∀ i, E i = true ↔ i ∈ ex) → empty m = Ok is_empty →
  multiplexColumnVectors native (length ex) source cms m (branch_columns cms results)
    (if is_empty : bool then None else Some ((λ i, value i els) <$> tuples m)) =
  Ok ((λ i, Some (value i (branch i whens results els))) <$> ex).
Proof.
  intros Hex Hfound Hlen HE Hempty. unfold multiplexColumnVectors, prepareForPositionalWrites.
  rewrite (fmap_constant None ex).
  destruct (multiplex_cases_spec n ex source E whens cms m results els (λ _, None) Hex Hfound Hlen)
    as (g' & -> & Hm & Hdone & _); [intros i Hi; by split; [apply HE|]|]. cbn [mbind outcome_bind].
  destruct (found_rest _ _ _ _ _ Hfound) as (L & HL & HLE).
  destruct (holds_empty m n _ HL) as (b & Hb & Hiff). rewrite Hempty in Hb. injection Hb as ->.
  destruct HL as (Hwm & Hnm & HLi). destruct b.
  - f_equal. apply list_fmap_ext. intros ? i Hi%list_elem_of_lookup_2. apply Hdone; [by apply HE|].
    rewrite HLi. by apply Hiff.
  - rewrite (multiplex_spec n ex source m L) by (done || (intros i Hi; split; [by apply HE, HLE|];
      by apply Hm, HLi)).
    f_equal. apply list_fmap_ext. intros ? i Hi%list_elem_of_lookup_2. unfold merged.
    destruct (L i) eqn:E'; [by destruct (Hm i) as [_ ->]; [apply HLi|]|].
    apply Hdone; [by apply HE|]. rewrite HLi. congruence.
Qed.
End multiplex.

(** ** Construction *)

Section construction.
Context {S V T : Type} `{!ScalarOps S V T} (isNullable : T → bool) (good : S → Prop).
Abbreviation Predicate := (Predicate S V T).
Abbreviation pred_ok := (pred_ok isNullable good).

Definition statically_true (w : Predicate) : bool :=
  match getStaticResult w with Ok r => r | Err _ => false end.
(** No WHEN clause that is statically true follows one that is not static, unless
    an earlier one is. *)
Fixpoint in_order (whens : list Predicate) : bool :=
  match whens with
  | [] => true
  | w :: whens' =>
      if hasStaticResult w then statically_true w || in_order whens'
      else negb (existsb statically_true whens')
  end.

Lemma statically_true_spec w :
  pred_ok w → hasStaticResult w = true →
  getStaticResult w = Ok (statically_true w) ∧ constant w (statically_true w).
Proof.
  intros Hok Hs. destruct (static_sound isNullable good w Hok Hs) as (r & Hr & Hc).
  unfold statically_true. by rewrite Hr.
Qed.

Lemma fixed_branch_dynamic results whens k :
  Forall pred_ok whens → existsb statically_true whens = false →
  fixed_branch results whens k false = Ok (None, false).
Proof.
  intros Hok. revert k. induction Hok as [|w whens Hw _ IH]; intros k Hno; [done|].
  cbn in Hno. apply orb_false_iff in Hno as [Hst Hno]. cbn [fixed_branch].
  destruct (hasStaticResult w) eqn:E; [|by apply IH].
  destruct (statically_true_spec w Hw E) as [-> _]. cbn [mbind outcome_bind].
  rewrite Hst. by apply IH.
Qed.

(** The branch for values [val]. *)
Abbreviation branch_of val := (branch (λ (w : Predicate) (i : nat), says (val i) w)).

Lemma fixed_branch_spec whens results pre els :
  Forall pred_ok whens → in_order whens = true → length results = length whens →
  ∃ fixed static, fixed_branch (pre ++ results) whens (length pre) true = Ok (fixed, static) ∧
    (fixed = None → static = false ∨ ∀ val i, branch_of val i whens results els = els) ∧
    ∀ x, fixed = Some x → ∀ val i, branch_of val i whens results els = x.
Proof.
  intros Hok. revert results pre. induction Hok as [|w whens Hw Hok IH]; intros results pre Hord Hlen.
  { exists None, true. split_and!; [done|by right|done]. }
  destruct results as [|x results]; [done|]. injection Hlen as Hlen. cbn [fixed_branch].
  cbn [in_order] in Hord. destruct (hasStaticResult w) eqn:E.
  - destruct (statically_true_spec w Hw E) as [-> Hc]. cbn [mbind outcome_bind].
    destruct (statically_true w).
    + rewrite element_app. exists (Some x), true. split_and!; [done|done|].
      intros ? [= <-] val i. cbn [branch]. by rewrite (Hc (val i)).
    + destruct (IH results (pre ++ [x]) Hord Hlen) as (fixed & static & Hrun & Hnone & Hsome).
      rewrite length_app, Nat.add_1_r, <- app_assoc in Hrun. exists fixed, static.
      split_and!; [exact Hrun| |].
      * intros Hf. destruct (Hnone Hf) as [?|Hb]; [by left|right]. intros val i. cbn [branch].
        rewrite (Hc (val i)). apply Hb.
      * intros y Hy val i. cbn [branch]. rewrite (Hc (val i)). by apply Hsome.
  - apply negb_true_iff in Hord. exists None, false. rewrite fixed_branch_dynamic by done.
    split_and!; [done|by left|done].
Qed.

(** What the constructor leaves. *)
Lemma new_case_spec whens results els :
  Forall pred_ok whens → in_order whens = true → length results = length whens →
  ∃ e, new_ScalarCaseExpression whens results els = Ok e ∧
    when_predicates_ e = whens ∧ result_expressions_ e = results ∧ else_result_expression_ e = els ∧
    (∀ x, fixed_result_expression_ e = Some x →
       ∀ val i, branch_of val i whens results els = x) ∧
    ∀ v, static_value_ e = Some v →
      ∃ x, fixed_result_expression_ e = Some x ∧ hasStaticValue x = true ∧ v = getStaticValue x.
Proof.
  intros Hok Hord Hlen. unfold new_ScalarCaseExpression.
  destruct (fixed_branch_spec whens results [] els Hok Hord Hlen)
    as (fixed & static & Hrun & Hnone & Hsome). cbn [length] in Hrun. rewrite app_nil_l in Hrun.
  rewrite Hrun. cbn [mbind outcome_bind]. eexists. split; [done|]. cbn. split_and!; try done.
  - destruct fixed as [y|]; [intros x [= <-]; by apply Hsome|]. destruct static; [|done].
    intros x [= <-]. by destruct (Hnone eq_refl).
  - intros v Hv. destruct fixed as [y|]; [|destruct static; [|done]];
      [destruct (hasStaticValue y) eqn:E|destruct (hasStaticValue els) eqn:E]; try done;
      injection Hv as <-; eauto.
Qed.

(** *** The value for a tuple or for a pair *)

Lemma first_match_spec matching (value : S → option V) whens results pre els :
  (∀ w, w ∈ whens → matching w = Ok (says value w)) → length results = length whens →
  first_match matching value whens (pre ++ results) els (length pre) =
    Ok (value (branch_of (λ _, value) 0 whens results els)).
Proof.
  revert results pre. induction whens as [|w whens IH]; intros results pre Hm Hlen; [done|].
  destruct results as [|x results]; [done|]. injection Hlen as Hlen. cbn [first_match branch].
  rewrite Hm by left. cbn [mbind outcome_bind]. destruct (says value w); [by rewrite element_app|].
  specialize (IH results (pre ++ [x])). rewrite length_app, Nat.add_1_r, <- app_assoc in IH.
  apply IH; [|done]. intros w' Hw'. apply Hm. by right.
Qed.

Lemma case_value_spec matching (value : S → option V) e whens results els :
  new_ScalarCaseExpression whens results els = Ok e → static_values value →
  Forall pred_ok whens → in_order whens = true → length results = length whens →
  (∀ w, w ∈ whens → matching w = Ok (says value w)) →
  case_value matching value e = Ok (value (branch_of (λ _, value) 0 whens results els)).
Proof.
  intros He Hst Hok Hord Hlen Hm.
  destruct (new_case_spec whens results els Hok Hord Hlen) as (e' & He' & Hw & Hr & Hels & Hf & Hs).
  rewrite He in He'. injection He' as <-. unfold case_value.
  destruct (static_value_ e) as [v|].
  - destruct (Hs v eq_refl) as (x & Hx & Hsx & ->). rewrite (Hf x Hx). by rewrite Hst.
  - destruct (fixed_result_expression_ e) as [x|]; [by rewrite (Hf x eq_refl)|].
    rewrite Hw, Hr, Hels. by apply (first_match_spec _ _ _ _ []).
Qed.
End construction.

(** ** Vectorized evaluation *)

(** The columns of the branches are evaluated each with its scalar. *)
Lemma case_columns_spec {S V A} (value : nat → S → option V) (column : A → S → outcome (list (option V))) (rows : A → list nat)
    cms results pre :
  (∀ c x, c ∈ cms → column c x = Ok ((λ i, value i x) <$> rows c)) → length cms ≤ length results →
  case_columns column (pre ++ results) cms (length pre) =
    Ok (zip_with (λ c x, (λ i, value i x) <$> rows c) cms results).
Proof.
  revert results pre. induction cms as [|c cms IH]; intros results pre Hcol Hlen; [done|].
  destruct results as [|x results]; [cbn in Hlen; lia|]. cbn [case_columns zip_with].
  rewrite element_app. cbn [mbind outcome_bind]. rewrite Hcol by left. cbn [mbind outcome_bind].
  specialize (IH results (pre ++ [x])). rewrite length_app, Nat.add_1_r, <- app_assoc in IH.
  cbn [app] in IH. rewrite IH; [done| |cbn in Hlen; lia]. intros c' x' Hc'. apply Hcol. by right.
Qed.

Section branches.
Context {S V T : Type} `{!ScalarOps S V T, !HeapMemory}.
Abbreviation Predicate := (Predicate S V T).
Context (n : nat) (ex : list nat) (W : Predicate → nat → bool).

Lemma found_length E whens cms m : found W n E whens cms m → length cms ≤ length whens.
Proof. induction 1; cbn; lia. Qed.

Lemma found_wf E whens cms m :
  found W n E whens cms m → Forall (λ c, seq_wf c ∧ seq_length c = n) cms ∧ seq_wf m ∧ seq_length m = n.
Proof.
  induction 1 as [E whens m Hm _|E w whens c cms m Hc _ [IH1 IH2]].
  - by split_and!; [|apply Hm|apply Hm].
  - split; [|done]. constructor; [|done]. split; apply Hc.
Qed.

Lemma case_branches_found matching whens m acc (E : nat → bool) :
  (∀ w m E, w ∈ whens → holds_exactly m n (λ i, E i = true) → (∀ i, E i = true → i ∈ ex) →
     ∃ c, matching m w = Ok c ∧ holds_exactly c n (λ i, E i && W w i = true)) →
  holds_exactly m n (λ i, E i = true) → (∀ i, E i = true → i ∈ ex) →
  ∃ cms m', case_branches matching whens m acc = Ok (acc ++ cms, m') ∧ found W n E whens cms m'.
Proof.
  revert m acc E. induction whens as [|w whens IH]; intros m acc E Hmatch Hm Hsub; cbn [case_branches].
  { exists [], m. rewrite app_nil_r. split; [done|]. by constructor; [|left]. }
  destruct (holds_empty m n _ Hm) as (b & -> & Hb). cbn [mbind outcome_bind]. destruct b.
  { exists [], m. rewrite app_nil_r. split; [done|]. constructor; [done|]. right. intros i.
    apply not_true_iff_false. by apply Hb. }
  destruct (Hmatch w m E) as (c & -> & Hc); [left|done|done|]. cbn [mbind outcome_bind].
  destruct (holds_difference m c n _ _ Hm Hc) as (m1 & -> & Hm1). cbn [mbind outcome_bind].
  destruct (IH m1 (acc ++ [c]) (λ i, E i && negb (W w i))) as (cms & m' & Hrun & Hfound).
  - intros w' m2 E2 Hw'. apply Hmatch. by right.
  - eapply holds_ext; [done|]. intros i. cbn beta. destruct (E i), (W w i); cbn; naive_solver.
  - intros i [? _]%andb_true_iff. by apply Hsub.
  - exists (c :: cms), m'. rewrite Hrun, <- app_assoc. split; [done|]. by constructor.
Qed.
End branches.

Section block.
Context {S V T : Type} `{!ScalarOps S V T, !ScalarLaws S V T, !HeapMemory} (isNullable : T → bool).
Context (short_circuit copy_elision native : bool) (accessor : ValueAccessor V).
Abbreviation n := (getEndPosition accessor).
Abbreviation ex := (visited accessor).
Abbreviation Predicate := (Predicate S V T).
Abbreviation val_at := (λ t (s : S), getValueForSingleTuple accessor t s).
Context (sequence : option TupleIdSequence) (sub_blocks_ref : option (SubBlocksReference S V T)).
Context (Hex : tuples_exist n ex sequence).
Context (Hsub : ∀ ref, sub_blocks_ref = Some ref → sub_blocks_exact isNullable accessor ref).
Abbreviation pred_ok := (pred_ok isNullable (values_typed isNullable accessor)).
Abbreviation branch_of := (branch (λ (w : Predicate) i, says (val_at i) w)).

Lemma adapted_column_spec c x :
  seq_wf c → adapted_column accessor c x = Ok ((λ t, val_at t x) <$> tuples c).
Proof using ScalarLaws0.
  intros Hc. unfold adapted_column, createSharedTupleIdSequenceAdapter. rewrite visit_tuples by done.
  cbn [mbind outcome_bind]. rewrite all_values. f_equal. apply list_fmap_ext. intros ? t _.
  by apply single_values.
Qed.

(** Where the accessor has no sequence, its tuples do not fill the last word. *)

Lemma all_left :
  (sequence = None → ¬ fills_words n) →
  ∃ s, (match sequence with
        | Some q => s ← new_sequence (seq_length q); seq_assignFrom s q
        | None => s ← new_sequence n; setRange 0 (seq_length s) true s
        end) = Ok s ∧ holds_exactly s n (λ i, bool_decide (i ∈ ex) = true).
Proof using Hex.
  intros Hsafe. destruct sequence as [q|].
  - destruct Hex as (_ & _ & Hw & Hn & Ht). rewrite Hn.
    destruct (new_sequence_spec n) as (s & -> & Hs). cbn [mbind outcome_bind].
    destruct (holds_assign s q n (λ _, False) (λ i, i ∈ tuples q)) as (s' & -> & Hs'); [done|done|].
    exists s'. split; [done|]. eapply holds_ext; [done|]. intros i. cbn beta.
    by rewrite Ht, bool_decide_eq_true.
  - destruct (new_sequence_spec n) as (s & -> & Hs). cbn [mbind outcome_bind].
    pose proof Hs as (_ & Hn & _). rewrite Hn. pose proof (holds_set_all s n _ Hs) as Hall.
    rewrite decide_False in Hall by (by apply Hsafe).
    destruct Hall as (s' & -> & Hs'). exists s'. split; [done|]. eapply holds_ext; [done|]. intros i. cbn beta. destruct Hex as (_ & _ & ->).
    rewrite bool_decide_eq_true, elem_of_seq. lia.
Qed.

Lemma case_matching w m (E : nat → bool) :
  pred_ok w → holds_exactly m n (λ i, E i = true) → (∀ i, E i = true → i ∈ ex) →
  ∃ c, getAllMatches short_circuit copy_elision accessor sub_blocks_ref (Some m) sequence w = Ok c ∧
    holds_exactly c n (λ i, E i && says (val_at i) w = true).
Proof using Hex Hsub ScalarLaws0.
  intros Hw Hm HE. pose proof (getAllMatches_exact isNullable short_circuit copy_elision accessor
    sequence sub_blocks_ref Hex Hsub w Hw) as Hexact.
  destruct (exact_within short_circuit copy_elision accessor sequence sub_blocks_ref w m _ Hexact Hm HE)
    as (c & -> & Hc). exists c. split; [done|]. eapply holds_ext; [done|]. intros i.
  by rewrite andb_true_iff.
Qed.

Lemma case_getAllValues_spec e whens results els :
  new_ScalarCaseExpression whens results els = Ok e →
  Forall pred_ok whens → in_order whens = true → length results = length whens →
  case_getAllValues short_circuit copy_elision native accessor sequence sub_blocks_ref e =
    if decide (sequence = None ∧ fixed_result_expression_ e = None ∧ fills_words n)
    then Err UndefinedBehaviour
    else Ok ((λ t, Some (val_at t (branch_of t whens results els))) <$> ex).
Proof using Hex Hsub ScalarLaws0.
  intros He Hok Hord Hlen. destruct (new_case_spec isNullable (values_typed isNullable accessor)
    whens results els Hok Hord Hlen) as (e' & He' & Hw & Hr & Hels & Hf & Hs).
  rewrite He in He'. injection He' as <-. unfold case_getAllValues.
  destruct (static_value_ e) as [v|].
  { destruct (Hs v eq_refl) as (x & Hx & Hsx & ->). rewrite Hx, decide_False by (by intros (_ & ? & _)).
    rewrite fmap_constant. f_equal.
    apply list_fmap_ext. intros ? t _. rewrite (Hf x Hx val_at). by rewrite static_single. }
  destruct (fixed_result_expression_ e) as [x|].
  { rewrite decide_False by (by intros (_ & ? & _)).
    rewrite all_values, <- list_fmap_compose. f_equal. apply list_fmap_ext. intros ? t _. cbn. by rewrite (Hf x eq_refl val_at). }
  case_decide as Hover.
  { destruct Hover as (-> & _ & Hover).
    destruct (new_sequence_spec n) as (s & -> & Hs0). cbn [mbind outcome_bind].
    pose proof Hs0 as (_ & -> & _). pose proof (holds_set_all s n _ Hs0) as Hall.
    rewrite decide_True in Hall by done. by rewrite Hall. }
  destruct all_left as (s & -> & Hs0); [by intros -> ?; apply Hover|]. cbn [mbind outcome_bind]. rewrite Hw, Hr, Hels.
  destruct (case_branches_found n ex (λ w i, says (val_at i) w)
    (λ matches w, getAllMatches short_circuit copy_elision accessor sub_blocks_ref (Some matches)
       sequence w) whens s [] (λ i, bool_decide (i ∈ ex))) as (cms & m & -> & Hfound).
  { intros w m E Hin. rewrite Forall_forall in Hok. by apply case_matching, Hok. }
  { done. }
  { intros i Hi. by apply bool_decide_eq_true in Hi. }
  rewrite app_nil_l. cbn [mbind outcome_bind].
  destruct (found_wf n _ _ _ _ _ Hfound) as (Hwf & Hwm & Hnm).
  pose proof (case_columns_spec val_at (adapted_column accessor) tuples cms results []) as Hcols.
  cbn [length app] in Hcols. rewrite Hcols.
  2:{ intros c x Hc. apply adapted_column_spec. rewrite Forall_forall in Hwf. by apply Hwf. }
  2:{ rewrite Hlen. by eapply found_length. }
  cbn [mbind outcome_bind]. destruct (found_rest _ n _ _ _ _ Hfound) as (L & HL & _).
  destruct (holds_empty m n _ HL) as (b & Hb & _). rewrite Hb. cbn [mbind outcome_bind].
  rewrite adapted_column_spec by done. cbn [mbind outcome_bind].
  pose proof (multiplexColumnVectors_spec native (λ w i, says (val_at i) w) val_at n ex sequence
    (λ i, bool_decide (i ∈ ex)) whens cms m results els b Hex Hfound Hlen) as Hmux.
  unfold branch_columns in Hmux. destruct b; cbn [mbind outcome_bind]; apply Hmux; try done;
    intros i; apply bool_decide_eq_true.
Qed.
End block.

(** ** Evaluation over joined tuples *)

Lemma case_columns_fmap {S V A B} (f : A → B) (column : B → S → outcome (list (option V)))
    (results : list S) cms k :
  case_columns column results (f <$> cms) k = case_columns (λ c, column (f c)) results cms k.
Proof.
  revert k. induction cms as [|c cms IH]; intros k; [done|]. cbn [fmap list_fmap case_columns].
  destruct (element results k) as [x|]; [|done]. cbn [mbind outcome_bind].
  destruct (column (f c) x); [|done]. cbn [mbind outcome_bind]. by rewrite <- IH.
Qed.

Section join.
Context {S V T : Type} `{!ScalarOps S V T, !ScalarLaws S V T, !HeapMemory} (isNullable : T → bool).
Context (native : bool) (left_accessor right_accessor : ValueAccessor V).
Context (joined : list (nat * nat)).
Abbreviation Predicate := (Predicate S V T).
Abbreviation N := (length joined).

Definition pair_at (k : nat) : nat * nat := default (0, 0) (joined !! k).
(** The value of a scalar for the pair at a position. *)
Definition value_of_pair (k : nat) (s : S) : option V :=
  getValueForJoinedTuples left_accessor (pair_at k).1 right_accessor (pair_at k).2 s.

Lemma element_pair p : p < N → element joined p = Ok (pair_at p).
Proof.
  intros Hp. unfold element, pair_at. by destruct (lookup_lt_is_Some_2 joined p Hp) as [x ->].
Qed.

Lemma pairs_at_spec ps : (∀ p, p ∈ ps → p < N) → pairs_at joined ps = Ok (pair_at <$> ps).
Proof.
  induction ps as [|p ps IH]; intros Hps; [done|]. cbn [pairs_at].
  rewrite element_pair by (apply Hps; left). cbn [mbind outcome_bind].
  rewrite IH by (intros q Hq; apply Hps; by right). done.
Qed.

Lemma pairs_values ps (s : S) :
  getAllValuesForJoin left_accessor right_accessor (pair_at <$> ps) s =
  (λ i, value_of_pair i s) <$> ps.
Proof using ScalarLaws0.
  rewrite join_values, <- list_fmap_compose. apply list_fmap_ext. intros ? i _. cbn.
  unfold value_of_pair. by destruct (pair_at i).
Qed.

Lemma matching_positions_spec matching (Wp C : nat → bool) ps current acc :
  holds_exactly current N (λ i, C i = true) →
  (∀ p, p ∈ ps → p < N ∧ matching (pair_at p) = Ok (Wp p)) →
  ∃ current', matching_positions matching joined ps current acc =
      Ok (current', acc ++ (pair_at <$> filter (λ p, Wp p = true) ps)) ∧
    holds_exactly current' N (λ i, C i || bool_decide (i ∈ ps) && Wp i = true).
Proof.
  revert C current acc. induction ps as [|p ps IH]; intros C current acc Hc Hps; cbn [matching_positions].
  { exists current. cbn. rewrite app_nil_r. split; [done|]. eapply holds_ext; [done|]. intros i.
    by rewrite orb_false_r. }
  destruct (Hps p) as [Hlt Hm]; [left|]. rewrite element_pair by done. cbn [mbind outcome_bind].
  rewrite Hm. cbn [mbind outcome_bind]. rewrite filter_cons.
  assert (∀ q, q ∈ ps → q < N ∧ matching (pair_at q) = Ok (Wp q)) as Hps'
    by (intros; apply Hps; by right).
  assert (∀ i, i ≠ p → (i ∈ p :: ps ↔ i ∈ ps)) as Hne
    by (intros i Hi; rewrite elem_of_cons; tauto).
  destruct (Wp p) eqn:Hp.
  - rewrite decide_True by done. destruct (holds_set current N _ p true Hc Hlt) as (c1 & -> & Hc1).
    cbn [mbind outcome_bind].
    destruct (IH (λ i, bool_decide (i = p) || C i) c1 (acc ++ [pair_at p])) as (c2 & -> & Hc2); [|done|].
    { eapply holds_ext; [done|]. intros i. cbn beta. rewrite orb_true_iff, bool_decide_eq_true.
      case_decide; naive_solver. }
    exists c2. rewrite <- app_assoc. split; [done|]. eapply holds_ext; [done|]. intros i. cbn beta.
    destruct (decide (i = p)) as [->|Hi].
    + rewrite (bool_decide_true (p ∈ p :: ps)) by left. rewrite (bool_decide_true (p = p)) by done.
      rewrite Hp. cbn. by rewrite orb_true_r.
    + rewrite (bool_decide_false (i = p)) by done. by rewrite (bool_decide_ext _ _ (Hne i Hi)).
  - rewrite decide_False by congruence.
    destruct (IH C current acc Hc Hps') as (c2 & -> & Hc2). exists c2. split; [done|].
    eapply holds_ext; [done|]. intros i. cbn beta. destruct (decide (i = p)) as [->|Hi].
    + by rewrite Hp, !andb_false_r.
    + by rewrite (bool_decide_ext _ _ (Hne i Hi)).
Qed.

Lemma join_branches_found matching (W : Predicate → nat → bool) whens m accp accm (E : nat → bool) :
  (∀ w p, w ∈ whens → p < N → matching w (pair_at p) = Ok (W w p)) →
  holds_exactly m N (λ i, E i = true) →
  ∃ cms m', join_branches matching joined whens m accp accm =
      Ok (accp ++ cms, accm ++ ((λ c, pair_at <$> tuples c) <$> cms), m') ∧
    found W N E whens cms m'.
Proof.
  revert m accp accm E. induction whens as [|w whens IH]; intros m accp accm E Hmatch Hm;
    cbn [join_branches].
  { exists [], m. cbn. rewrite !app_nil_r. split; [done|]. by constructor; [|left]. }
  destruct (holds_empty m N _ Hm) as (b & -> & Hb). cbn [mbind outcome_bind]. destruct b.
  { exists [], m. cbn. rewrite !app_nil_r. split; [done|]. constructor; [done|]. right. intros i.
    apply not_true_iff_false. by apply Hb. }
  destruct (new_sequence_spec N) as (c0 & -> & Hc0). cbn [mbind outcome_bind].
  pose proof Hm as (Hwm & Hnm & Hi). rewrite visit_tuples by done. cbn [mbind outcome_bind].
  destruct (matching_positions_spec (matching w) (W w) (λ _, false) (tuples m) c0 [])
    as (c & -> & Hc).
  { eapply holds_ext; [done|]. intros i. cbn. naive_solver. }
  { intros p Hp. assert (p < N) by (eapply (holds_lt m N); [done|by apply Hi]).
    split; [done|]. apply Hmatch; [left|done]. }
  cbn [mbind outcome_bind]. rewrite app_nil_l.
  assert (holds_exactly c N (λ i, E i && W w i = true)) as Hc'.
  { eapply holds_ext; [done|]. intros i. cbn [orb]. rewrite !andb_true_iff, bool_decide_eq_true.
    by rewrite Hi. }
  destruct (holds_difference m c N _ _ Hm Hc') as (m1 & -> & Hm1). cbn [mbind outcome_bind].
  assert (filter (λ p, W w p = true) (tuples m) = tuples c) as ->.
  { apply sorted_ext; [apply sorted_filter, tuples_sorted|apply tuples_sorted|]. intros i.
    destruct Hc' as (_ & _ & Hci). rewrite list_elem_of_filter, Hci, Hi, andb_true_iff. tauto. }
  destruct (IH m1 (accp ++ [c]) (accm ++ [pair_at <$> tuples c]) (λ i, E i && negb (W w i)))
    as (cms & m' & Hrun & Hfound).
  - intros w' p Hw'. apply Hmatch. by right.
  - eapply holds_ext; [done|]. intros i. cbn beta. destruct (E i), (W w i); cbn; naive_solver.
  - exists (c :: cms), m'. rewrite Hrun, <- !app_assoc. split; [done|]. by constructor.
Qed.

Abbreviation branch_of := (branch (λ (w : Predicate) i, says (value_of_pair i) w)).
(** Of every pair. *)
Definition pairs_typed (s : S) : Prop :=
  ∀ p, p < N → joined_typed isNullable left_accessor right_accessor (pair_at p).1 (pair_at p).2 s.

Lemma matching_pair (w : Predicate) p :
  pred_ok isNullable pairs_typed w → p < N →
  matchesForJoinedTuples left_accessor (pair_at p).1 right_accessor (pair_at p).2 w =
    Ok (says (value_of_pair p) w).
Proof.
  intros Hw Hp. apply (joined_matches_says isNullable _ _ _ _ pairs_typed); [|done].
  intros s Hs. by apply Hs.
Qed.

Lemma all_pairs_left :
  ¬ (N mod 64 = 0 ∧ 0 < N) →
  ∃ s s', new_sequence N = Ok s ∧ setRange 0 N true s = Ok s' ∧
    holds_exactly s' N (λ i, bool_decide (i < N) = true).
Proof.
  intros Hsafe. destruct (new_sequence_spec N) as (s & Hs & Hh).
  pose proof (holds_set_all s N _ Hh) as Hall. rewrite decide_False in Hall by done.
  destruct Hall as (s' & Hs' & Hh'). exists s, s'. split_and!; [done|done|].
  eapply holds_ext; [done|]. intros i. by rewrite bool_decide_eq_true.
Qed.

Lemma positions_exist : tuples_exist N (seq 0 N) None.
Proof.
  split_and!; [|intros i; rewrite elem_of_seq; lia|done].
  generalize 0. induction (length joined) as [|k IH]; intros a; cbn [seq]; constructor; [apply IH|].
  apply Forall_forall. intros i [? _]%elem_of_seq. lia.
Qed.

Lemma joined_positions (f : nat * nat → option (option V)) :
  f <$> joined = (λ i, f (pair_at i)) <$> seq 0 N.
Proof.
  apply list_eq. intros i. rewrite !list_lookup_fmap. destruct (decide (i < N)) as [Hi|Hi].
  - rewrite lookup_seq_lt by done. cbn. unfold pair_at.
    by destruct (lookup_lt_is_Some_2 joined i Hi) as [x ->].
  - rewrite lookup_seq_ge, lookup_ge_None_2 by lia. done.
Qed.

Lemma case_getAllValuesForJoin_spec e whens results els :
  new_ScalarCaseExpression whens results els = Ok e →
  Forall (pred_ok isNullable pairs_typed) whens → in_order whens = true →
  length results = length whens →
  case_getAllValuesForJoin native left_accessor right_accessor joined e =
    if decide (fixed_result_expression_ e = None ∧ fills_words N) then Err UndefinedBehaviour
    else Ok ((λ i, Some (value_of_pair i (branch_of i whens results els))) <$> seq 0 N).
Proof using ScalarLaws0.
  intros He Hok Hord Hlen. destruct (new_case_spec isNullable pairs_typed whens results els
    Hok Hord Hlen) as (e' & He' & Hw & Hr & Hels & Hf & Hs).
  rewrite He in He'. injection He' as <-. unfold case_getAllValuesForJoin.
  destruct (static_value_ e) as [v|].
  { destruct (Hs v eq_refl) as (x & Hx & Hsx & ->). rewrite Hx, decide_False by (by intros [? _]).
    rewrite <- (length_seq N 0) at 1.
    rewrite fmap_constant. f_equal. apply list_fmap_ext. intros ? i _.
    rewrite (Hf x Hx value_of_pair). unfold value_of_pair. by rewrite static_joined. }
  destruct (fixed_result_expression_ e) as [x|].
  { rewrite decide_False by (by intros [? _]). rewrite join_values, <- list_fmap_compose. f_equal.
    rewrite (joined_positions (Some ∘ λ '(t, u), getValueForJoinedTuples left_accessor t right_accessor u x)).
    apply list_fmap_ext. intros ? i _. cbn. rewrite (Hf x eq_refl value_of_pair).
    unfold value_of_pair. by destruct (pair_at i). }
  case_decide as Hover.
  { destruct Hover as [_ Hover]. destruct (new_sequence_spec N) as (s & -> & Hs0).
    cbn [mbind outcome_bind]. pose proof (holds_set_all s N _ Hs0) as Hall.
    rewrite decide_True in Hall by done. by rewrite Hall. }
  destruct all_pairs_left as (s0 & s & -> & Hset & Hs0); [by intros ?; apply Hover|]. cbn [mbind outcome_bind].
  rewrite Hset. cbn [mbind outcome_bind]. rewrite Hw, Hr, Hels.
  destruct (join_branches_found
    (λ w '(t, u), matchesForJoinedTuples left_accessor t right_accessor u w)
    (λ w i, says (value_of_pair i) w) whens s [] [] (λ i, bool_decide (i < N))) as (cms & m & -> & Hfound); [|done|].
  { intros w p Hin Hp. rewrite Forall_forall in Hok. rewrite (surjective_pairing (pair_at p)).
    by apply matching_pair; [apply Hok|]. }
  rewrite !app_nil_l. cbn [mbind outcome_bind].
  destruct (found_wf N _ _ _ _ _ Hfound) as (Hwf & Hwm & Hnm).
  rewrite case_columns_fmap.
  pose proof (case_columns_spec value_of_pair
    (λ c x, Ok (getAllValuesForJoin left_accessor right_accessor (pair_at <$> tuples c) x)) tuples
    cms results []) as Hcols. cbn [length app] in Hcols. rewrite Hcols.
  2:{ intros c x _. f_equal. apply pairs_values. }
  2:{ rewrite Hlen. by eapply found_length. }
  cbn [mbind outcome_bind]. destruct (found_rest _ N _ _ _ _ Hfound) as (L & HL & _).
  destruct (holds_empty m N _ HL) as (b & Hb & _). rewrite Hb. cbn [mbind outcome_bind].
  rewrite visit_tuples by done. cbn [mbind outcome_bind]. rewrite pairs_at_spec.
  2:{ intros p Hp. apply (holds_lt m N _ p HL). by apply HL. }
  cbn [mbind outcome_bind]. rewrite pairs_values.
  pose proof (multiplexColumnVectors_spec native (λ w i, says (value_of_pair i) w) value_of_pair N
    (seq 0 N) None _ whens cms m results els b positions_exist Hfound Hlen) as Hmux.
  unfold branch_columns in Hmux. rewrite length_seq in Hmux.
  destruct b; cbn [mbind outcome_bind]; apply Hmux; try done;
    intros i; rewrite bool_decide_eq_true, elem_of_seq; lia.
Qed.
End join.

(** * The branch of a CASE expression

    The WHEN clauses are the predicates of logical expressions: all four
    evaluations of a CASE expression give the value of the scalar of the first
    clause whose expression is true.  A clause that is statically true is
    taken even when a clause before it is true, which is shown as well. *)

Section first_branch.
Context {S V T : Type} `{!ScalarOps S V T, !ScalarLaws S V T, !HeapMemory} (isNullable : T → bool).
Abbreviation Predicate := (Predicate S V T).
Abbreviation Formula := (Formula (S := S) (V := V) (T := T)).

(** The scalar of the first clause whose expression is true. *)
Fixpoint first_branch (val : S → option V) (clauses : list Formula) (results : list S) (els : S) : S :=
  match clauses, results with
  | f :: clauses', x :: results' =>
      if satisfies val f then x else first_branch val clauses' results' els
  | _, _ => els
  end.

Definition typed_clause (good : S → Prop) (f : Formula) : Prop :=
  applicable f = true ∧ Forall good (operands f).

Lemma clauses_render good clauses whens :
  Forall2 (λ f w, concretize isNullable f = Ok w) clauses whens →
  Forall (typed_clause good) clauses →
  Forall (pred_ok isNullable good) whens ∧
  ∀ (val : nat → S → option V) i results els, static_values (val i) →
    branch (λ (w : Predicate) i, says (val i) w) i whens results els =
    first_branch (val i) clauses results els.
Proof.
  induction 1 as [|f w clauses whens Hf _ IH]; intros Hok; [by split|].
  apply Forall_cons in Hok as [[Happ Hgood] Hok]. destruct (IH Hok) as [IH1 IH2].
  destruct (concretize_renders isNullable good f Happ Hgood) as (p & Hp & Hpok & _ & Hs).
  rewrite Hf in Hp. injection Hp as <-. split; [by constructor|].
  intros val i [|x results] els Hval; [done|]. cbn [branch first_branch].
  rewrite (Hs (val i) Hval). by rewrite IH2.
Qed.

Section theorem.
Context (short_circuit copy_elision native : bool) (accessor : ValueAccessor V).
Abbreviation n := (getEndPosition accessor).
Abbreviation ex := (visited accessor).
Abbreviation val_at := (λ t (s : S), getValueForSingleTuple accessor t s).
Abbreviation pair_val l r := (λ '(t, u) (s : S), getValueForJoinedTuples l t r u s).

(** C39. A CASE expression has the value of its first true branch.  Let the WHEN
    predicates be made from logical expressions whose comparisons apply to their
    operands, with as many results as clauses, and let no clause that is
    statically true follow one that is not static.  Then the expression is
    built; its value for a tuple is that of the scalar of the first clause whose
    expression is true of the tuple, or of the ELSE scalar; the vectorized
    evaluation over the tuples of an accessor, with or without holes, writes
    exactly these values, in the order of the tuples and at every position; and
    likewise for the pairs of a join.  The vectorized evaluations are undefined
    exactly when the result is not fixed by static clauses and the number of
    tuples of a packed accessor, or of pairs, is a positive multiple of 64: then
    they touch the word after a bit vector.  The scalars are as [ScalarLaws]
    says, their columns not shared between branches. *)
Theorem case_takes_first_branch (sequence : option TupleIdSequence)
    (sub_blocks_ref : option (SubBlocksReference S V T)) clauses whens results els :
  Forall2 (λ f w, concretize isNullable f = Ok w) clauses whens →
  length results = length whens → in_order whens = true →
  Forall (typed_clause (values_typed isNullable accessor)) clauses →
  tuples_exist n ex sequence →
  (∀ ref, sub_blocks_ref = Some ref → sub_blocks_exact isNullable accessor ref) →
  ∃ e, new_ScalarCaseExpression whens results els = Ok e ∧
    (∀ t, t ∈ ex → case_getValueForSingleTuple accessor t e =
       Ok (val_at t (first_branch (val_at t) clauses results els))) ∧
    case_getAllValues short_circuit copy_elision native accessor sequence sub_blocks_ref e =
      (if decide (sequence = None ∧ fixed_result_expression_ e = None ∧ fills_words n)
       then Err UndefinedBehaviour
       else Ok ((λ t, Some (val_at t (first_branch (val_at t) clauses results els))) <$> ex)) ∧
    ∀ left right joined,
      Forall (typed_clause (pairs_typed isNullable left right joined)) clauses →
      case_getAllValuesForJoin native left right joined e =
        (if decide (fixed_result_expression_ e = None ∧ fills_words (length joined))
         then Err UndefinedBehaviour
         else Ok ((λ tu, Some (pair_val left right tu
                (first_branch (pair_val left right tu) clauses results els))) <$> joined)) ∧
      ∀ t u, (t, u) ∈ joined → case_getValueForJoinedTuples left t right u e =
        Ok (pair_val left right (t, u) (first_branch (pair_val left right (t, u)) clauses results els)).
Proof using ScalarLaws0.
  intros Hf2 Hlen Hord Hty Hex Hsub. destruct (clauses_render _ _ _ Hf2 Hty) as [Hok Hbr].
  destruct (new_case_spec isNullable _ whens results els Hok Hord Hlen) as (e & He & _).
  exists e. split_and!; [done| | |].
  - intros t Ht. unfold case_getValueForSingleTuple.
    rewrite (case_value_spec isNullable _ _ _ e whens results els He) with (2 := Hok);
      [|by intros s Hs; apply static_single|done|done|].
    + do 2 f_equal. apply (Hbr (λ _ : nat, val_at t) 0). intros s Hs. by apply static_single.
    + intros w Hw. rewrite Forall_forall in Hok. unfold matchesForSingleTuple.
      apply (matches_says isNullable (values_typed isNullable accessor)); [by apply Hok|].
      intros cp Hcp. by apply (comparison_matches_says isNullable).
  - rewrite (case_getAllValues_spec isNullable short_circuit copy_elision native accessor sequence
      sub_blocks_ref Hex Hsub e whens results els) by done.
    case_decide; [done|]. f_equal. apply list_fmap_ext. intros ? t _. do 2 f_equal. apply Hbr.
    intros s Hs. by apply static_single.
  - intros left right joined Htj. destruct (clauses_render _ _ _ Hf2 Htj) as [Hokj Hbrj]. split.
    + rewrite (case_getAllValuesForJoin_spec isNullable native left right joined e whens results els)
        by done.
      case_decide; [done|]. f_equal. rewrite (joined_positions joined). apply list_fmap_ext. intros ? i _. cbn.
      rewrite (Hbrj (value_of_pair left right joined)) by (intros s Hs; by apply static_joined).
      unfold value_of_pair. by destruct (pair_at joined i).
    + intros t u [p Hp]%list_elem_of_lookup. unfold case_getValueForJoinedTuples.
      assert (pair_at joined p = (t, u)) as Hpair by (unfold pair_at; by rewrite Hp).
      apply lookup_lt_Some in Hp.
      rewrite (case_value_spec isNullable _ _ _ e whens results els He) with (2 := Hokj);
        [|by intros s Hs; apply static_joined|done|done|].
      * do 2 f_equal. apply (Hbrj (λ (_ : nat) s, getValueForJoinedTuples left t right u s) 0).
        intros s Hs. by apply static_joined.
      * intros w Hw. rewrite Forall_forall in Hokj.
        pose proof (matching_pair isNullable left right joined w p (Hokj w Hw) Hp) as Hm.
        unfold value_of_pair in Hm. by rewrite Hpair in Hm.
Qed.
End theorem.
End first_branch.

(** ** An expression *)

Abbreviation a_less_b := (ComparisonExpression (integer_comparison Z.ltb) (column 0) (column 1)).
Abbreviation a_is_7 := (ComparisonExpression (integer_comparison Z.eqb) (column 0) (literal 7)).

(** [CASE WHEN a < b THEN b WHEN a = 7 THEN 30 ELSE 0 END] *)
Lemma case_takes_first_branch_witness :
  ∃ w1 w2 e, concretize id a_less_b = Ok w1 ∧ concretize id a_is_7 = Ok w2 ∧
    new_ScalarCaseExpression [w1; w2] [column 1; literal 30] (literal 0) = Ok e ∧
    case_getValueForSingleTuple sample_accessor 3 e = Ok (Some 30%Z) ∧
    case_getAllValues (H := zero_heap) true true true sample_accessor (Some seq_123)
      (Some sample_blocks) e = Ok [Some (Some 9%Z); Some (Some 0%Z); Some (Some 30%Z)] ∧
    case_getAllValuesForJoin (H := zero_heap) true sample_accessor sample_accessor
      [(1, 3); (2, 1)] e = Ok [Some (Some 30%Z); Some (Some 9%Z)].
Proof.
  assert (∃ w1 w2, concretize id a_less_b = Ok w1 ∧ concretize id a_is_7 = Ok w2 ∧
    in_order [w1; w2] = true) as (w1 & w2 & H1 & H2 & Hord) by (by do 2 eexists).
  destruct (case_takes_first_branch (H := zero_heap) id true true true sample_accessor (Some seq_123)
    (Some sample_blocks) [a_less_b; a_is_7] [w1; w2] [column 1; literal 30] (literal 0))
    as (e & He & Hone & Hall & Hjoin).
  - by repeat constructor.
  - done.
  - done.
  - repeat constructor; cbn; try done; intros t Ht; rewrite !elem_of_cons, elem_of_nil in Ht;
      by destruct Ht as [->|[->|[->|?]]].
  - apply sample_exists.
  - intros ref [= <-]. apply sample_blocks_exact.
  - exists w1, w2, e. split_and!; [exact H1|exact H2|exact He|apply (Hone 3); by repeat constructor|
      exact Hall|].
    eapply eq_trans; [apply Hjoin|by rewrite decide_False by (intros [_ [? _]]; discriminate)].
    unfold typed_clause. rewrite !Forall_cons, !Forall_nil.
    cbn [operands applicable]. rewrite !Forall_cons, !Forall_nil.
    split_and!; try reflexivity; try exact I; intros [|[|p]] Hp; unfold joined_typed; cbn in *;
      try done; lia.
Defined.

(** ** A clause that is always true *)

(** [CASE WHEN w THEN x WHEN TRUE THEN y ELSE z END] has the value of [y] also
    where [w] is true. *)
Lemma late_static_branch {S V T} `{!ScalarOps S V T} (w : Predicate S V T) (x y z : S) :
  hasStaticResult w = false →
  ∃ e, new_ScalarCaseExpression [w; TruePredicate] [x; y] z = Ok e ∧
    fixed_result_expression_ e = Some y.
Proof.
  intros Hw. unfold new_ScalarCaseExpression. cbn [fixed_branch]. rewrite Hw.
  eexists. by split.
Qed.

Lemma late_static_branch_example :
  ∃ w e, concretize id a_less_b = Ok w ∧
    new_ScalarCaseExpression [w; TruePredicate] [literal 10; literal 20] (literal 30) = Ok e ∧
    matchesForSingleTuple sample_accessor 1 w = Ok true ∧
    case_getValueForSingleTuple sample_accessor 1 e = Ok (Some 20%Z).
Proof. by do 2 eexists. Qed.
